(* ===== verification/_CoqProject ===== *)
-Q . S2P
Prelude.v
Order.v
Errors.v
Model.v
Queue.v
Store.v
Kernel.v
KernelBase.v
Arena.v
Facts.v
FactOps.v
StateInv.v
NodeOps.v
Merge.v
Prune.v
KernelInv.v
Totality.v
AuditSpec.v
StoreTheorems.v
KernelTheorems.v
Cancel.v
Contracts.v
Session.v
SessionOps.v
SessionSpec.v
SessionRun.v
SessionEvents.v
SessionTheorems.v
Hierarchy.v
HierarchyAudit.v
Classify.v
Condense.v
OracleSpec.v
InsertSpec.v
ClassifySpec.v
ClassifyTheorems.v
Branching.v
RuleModel.v
Merging.v
ReasonerTheorems.v
RulePlans.v
Joins.v
RuleEngine.v
RuleSpec.v
PlanSpec.v
JoinBase.v
JoinSpec.v
JoinExact.v
EngineBase.v
EngineSafe.v
EngineDispatch.v
EngineRun.v
EngineCheckpoint.v
RuleTheorems.v
EngineTheorems.v
Roles.v
RoleTheorems.v
Trace.v
TraceSpec.v
Nominals.v
NominalSpec.v
NominalRun.v
NominalTheorems.v
Sha256.v
BlockingModel.v
Projection.v
BlockingChecker.v
BlockingManager.v
CacheSpec.v
ProjectionSpec.v
BlockingSpec.v
BlockingInv.v
BlockingAdapter.v
BlockingTheorems.v
Expansion.v
ExpansionAdapter.v
ExpansionSpec.v
ExpansionRun.v
ExpansionWitness.v
ExpansionTheorems.v
