(* ===== verification/Prelude.v ===== *)
(** * Verification of the native tableau engine of pyHermiT

    pyHermiT is a hypertableau reasoner for OWL 2 DL ontologies.  Its native
    engine, the Rust crate under src/native, keeps a tableau: a forest of nodes
    with facts about them, agendas of work, and a stack of branches, each with
    the snapshot to go back to.  Components above it expand the tableau, merge
    nodes that were found equal, branch over ground disjunctions, jump back when a
    clash is found, and block nodes whose labels repeat those of earlier ones, so
    that the expansion ends.  A session drives the tableau until it is satisfied or
    refuted, for one query after the other, and classification asks the session
    for subsumptions and builds a taxonomy from the answers.  This library models
    the tableau store and the components that change it through its public
    operations, the session and the classification service, and proves what they
    promise.

    ** Parts of the program, and the files that model them

    - native/src/error.rs: the error record every operation may return.
      [Errors].
    - native/src/model/mod.rs: node handles with a generation, node kinds, sorts
      and lifecycles, dependency sets (sorted vectors of branch levels).
      [Model], with the ordered collections of the standard library in [Order].
    - native/src/store/state.rs: the tableau itself.  [Queue] is [StableQueue];
      [Store] has the structs ([Node], [FactRow], [GroundDisjunction], [Clash],
      [Branch], [MutableState], [TableauKernel]) and the functions on them;
      [Kernel] has one definition per method of [TableauKernel], under its
      name, and the audit [check_invariants].
    - native/src/store/trace.rs and the snapshots of state.rs: JSON documents
      that list kernel operations and are replayed one by one.  [Trace].
    - native/src/cancel.rs: the cancellation state that the reasoning thread
      polls.  [Cancel].
    - native/src/branching/mod.rs: choice points and backjumping.  [Branching].
      The trait [GroundAtomAccess] is a class, and what the brancher expects of
      its implementation is the class [GroundAtomLaws].
    - native/src/merging/mod.rs: the merging manager, which prunes the children
      of a merged node and moves its pending work.  [Merging].
    - native/src/rules: the hyperresolution rules.  [RuleModel] is model.rs
      (predicates, terms, atoms, clauses, programs, with the validation of each
      constructor), [RulePlans] is plans.rs (which atom triggers a clause and in
      which order the others are joined), [Joins] is joins.rs (the indexed
      evaluator and the exhaustive one), [RuleEngine] is engine.rs: grounding and
      dispatching atoms, heads and disjunctions, initialisation, generations of
      new facts, saturation, and the engine's checkpoints.  The engine is the
      instance of [GroundAtomAccess] the brancher runs on, and calls the merging
      manager; the control of a checkpoint is the trait of session.rs.
    - native/src/roles/mod.rs: automata for object-property chains, run on a
      bitset of states.  [Roles].
    - native/src/nominals/mod.rs: annotated equalities, nominal roots and the
      branches over them.  [Nominals]; it branches through the rule engine.
    - native/src/blocking: [Sha256] is sha256.rs; [BlockingModel] is model.rs
      (plans, limits, records of nodes and facts, assignments, errors, the traits
      of a state and of a control as classes); [Projection] is projection.rs
      (signatures, and the labels and digest of a tableau); [BlockingChecker] is
      checker.rs and cache.rs; [BlockingManager] is manager.rs (module [Manager]
      the recomputation, module [Ops] the operations) and validation.rs.  The
      validator is the class [BlockValidator].  [BlockingAdapter] is what state.rs
      implements for blocking: the tableau as a state it reads and changes.
    - native/src/existentials: [Expansion] is model.rs (obligations, programs,
      records, the traits of a state, of rules and of a control as classes),
      distinct.rs (the search for pairwise different successors) and manager.rs.
      [ExpansionAdapter] is adapter.rs: the program compiled from the rules, and
      the kernel, the rule engine, the blocking manager and the control as
      instances of the traits (module [Runtime]).  The datatypes are the class
      [NativeDatatypeExpansion].
    - native/src/session.rs: [Cancel] has the trait by which long operations look
      at cancellation and memory (module [Control]); [Session] the trait of a tableau as a class,
      [NativeTableau], and the scheduler [drive_tableau]; [SessionOps] the books
      and events of a session, its transactions, and the calls that Python makes;
      [SessionEvents] the accesses of several threads to its flags.
    - native/src/services/classification.rs: [Hierarchy] has the canonical
      taxonomies and their audit, [Classify] the oracle with its cache and the
      insertion of one element after the other, [Condense] the taxonomy of a
      complete relation by strongly connected components, and [classify_ids].

    ** How state, errors and integers are modelled

    A method that takes [&mut self] is a function [state -> outcome * state] in
    the monad [st] of this file; its notation is the bind of stdpp.  The outcome
    is [Ok], [Err] or [Crash].  [Crash] stands for what the source does not
    catch: an index out of range, or a loop that is cut off.  As in Rust, an
    error returned by [?] keeps the assignments that were made before it; only
    the operations that the source wraps in a checkpoint roll back ([atomic] in
    [Kernel], [recover_on_error] in [Branching], [watomic] in [Merging]).

    Unsigned integers are [N].  Checked additions return [None] beyond the
    width, [+ 1] without a check is taken modulo the width as in a release
    build.  [BTreeMap] and [BTreeSet] are [gmap] and [gset], iterated in the
    order of the keys ([btree_entries], [btree_elements]); vectors are lists.
    Allocation always succeeds, and a [usize] has 64 bits.

    ** Loops and fuel

    A [for] loop is a fold.  A [while] loop is a [Fixpoint] on fuel that
    answers [Crash] when the fuel is gone, and each has a proof that its fuel is
    enough: the walk along merge links and along parents has one more turn than
    the arena has nodes (a longer walk would visit a node twice, which the
    source reports as a cycle), taking a disjunction one more than the queue has
    entries, resolving clashes one more than there are branches (an exhausted
    branch disappears), closing a set of states of an automaton one more than it
    has states (a state is queued when it is first inserted), listing the bits of a
    64-bit word 64 turns, planning a join as many as the body has other atoms.
    Dispatching an atom and merging nodes call each other; the fuel is two more
    than the kernel has active nodes, because each merge takes one out.
    Saturation runs [loopM], a loop counted by a binary number that is never
    unrolled, for [2 ^ 32] turns: each turn but the last opens a generation, and
    the generation counter has 32 bits.  Draining annotated equalities and driving
    a tableau run [loopM] too, for one turn more than their limit allows.  The
    searches of classification have one turn per edge and node they can push, its
    boundary search one per node.  The walk to the ancestors of a node in blocking
    has the turns that the source counts, one per projected node, the search for
    different successors one more than its limit of steps, and evicting from the
    cache of signatures one more than there are entries, since each turn takes
    one out.

    ** What the theorems show

    - [KernelTheorems]: the invariant [wf] holds of every kernel that public
      operations reach, and on such a kernel no operation panics or loops.
      Handles are never issued twice.  [merge_nodes] and [prune_subtree] do what
      an abstract reading of the tableau as a set of derivable facts says
      ([merged], [pruned]), or roll back.  The audit accepts a well-formed
      kernel exactly when merged nodes lead to active ones; backtracking
      restores a branch's snapshot exactly when that audit accepts it.  The last
      theorem there shows reachable kernels on which it does not: pruning the
      target of an earlier merge leaves a dead link.
    - [StoreTheorems]: facts and their supports against the relation
      [derivable]; index lookup against a scan of the rows; representatives and
      ancestors against the relations [resolves] and [ancestor]; node creation;
      agendas; the choice between clashes; dependency sets against finite sets.
    - [ReasonerTheorems]: cancellation; the brancher against the step relations
      [choice_step] and [clash_step], its termination and recovery, for every
      instance of [GroundAtomLaws] and every interference of other threads; the
      merging manager against [merge_success], its rollback, and the dead link
      it can leave.
    - [RuleTheorems]: an accepted program is well typed; the planner covers every
      body once; the indexed join returns exactly the solutions of a body
      ([solution], a relation that does not mention indexes or order) that use
      the trigger row, and the semi-naive plans together find each new one; both
      evaluators answer.  The last theorem there is a run on which saturation
      misses a match of an inequality.
    - [EngineTheorems]: the engine fulfils [GroundAtomLaws], so the theorems on
      branching hold for it; dispatching, a generation, saturation and
      initialisation come back, under every schedule of the other threads, with
      kernel and engine fit for each other ([live]); the registry's audit; the
      limits of checkpoints and the round trip of a rollback.
    - [RoleTheorems]: the automaton's run decides its language [language], what
      compilation guarantees, the closure, inverse words, and the bitset.
    - [NominalTheorems]: processing a queued equality and resolving a clash of a
      nominal branch, against step relations; draining the queue terminates; two
      runs show what backjumping and an interrupt leave behind.
    - [SessionTheorems]: for every tableau that keeps the laws [TableauLaws], the
      driver decides whether the prepared problem has a model, transactions leave
      the session as they found it or poison it, and every successful check of
      every session answers right; events are numbered without gaps; threads
      exclude each other, though not from a session that was poisoned meanwhile.
    - [ClassifyTheorems]: for every tester that answers right, classification by
      insertion returns exactly the classes and direct subsumptions ([exact]); the
      audit accepts exactly the sound hierarchies ([audited]); what classification
      returns has passed it, on either way.
    - [BlockingTheorems]: the streamed digest is SHA-256 of the padded message; the
      canonical bytes of a signature determine it; the cache keeps its bounds and
      gives up what was used longest ago; a projection of the tableau shows its
      active nodes and labels, no more and no less ([shows_kernel]); the
      incremental assignments are those of a recomputation, for every history of a
      manager ([managed]) on a state that continues the last one ([projects]); with
      validated blocking a model waits until the validator has accepted every
      direct block.  The last theorem there is a run outside [projects]: a
      rejection that is forgotten while its effect is kept.
    - [ExpansionTheorems]: the search for pairwise different successors finds the
      first choice or that there is none; an obligation is satisfied exactly when
      its successors exist ([at_least]); expanding an obligation for objects with
      new witnesses satisfies it and loses nothing ([provided]); a turn of the
      manager and the resolution of a clash come back, and a failure leaves the
      tableau as it was ([undoes]).
    - [TraceSpec]: replaying a document only prints audited states of
      reachable kernels; which documents the reader accepts.

    The lemmas behind them: [KernelBase], [Arena], [Facts], [FactOps],
    [StateInv] (the invariant of a [MutableState]), [NodeOps], [Merge], [Prune],
    [KernelInv] (the invariant with the branch stack, rollback), [Totality] (the
    public operations as data, what they reach, and that they answer),
    [AuditSpec]; for the rules [RuleSpec], [PlanSpec], [JoinBase],
    [JoinSpec] and [JoinExact] (joins), [EngineBase] (what every
    operation of the engine keeps), [EngineSafe] (a judgement for computations
    that answer and keep a mode), [EngineDispatch], [EngineRun] (joins, heads,
    saturation and initialisation come back), [EngineCheckpoint]; [NominalSpec]
    and [NominalRun]; [Contracts] (what a computation that does not panic
    promises), [SessionSpec] (the laws of a tableau and the scheduler),
    [SessionRun]; for classification [HierarchyAudit] (Kahn's loop, reachability,
    the audit), [OracleSpec], [InsertSpec] (finite orders, covers, boundary
    searches, insertion), [ClassifySpec] (freezing and the whole run); for
    blocking [CacheSpec] (bytes of signatures, the cache), [ProjectionSpec] (what
    a projection contains), [BlockingSpec] (the assignment that each node must
    have, and the search for it), [BlockingInv] (incremental computation, the
    manager's invariant, the gate before a model); for expansion [ExpansionSpec]
    (choices of indices, sets of different candidates, the search), [ExpansionRun]
    (what the kernel answers to expansion, a judgement for its steps, rollback) and
    [ExpansionWitness] (what steps do not lose, the witnesses that are created,
    compiled programs).  [StoreTheorems] and
    [RuleTheorems] also hold the tableaux on which theorems are evaluated.

    ** What is not modelled

    The memory estimates ([estimated_memory_bytes]), Python conversions,
    [serde_json]'s parser and printer (parameters of [Trace]), [Instant] (the
    clock is a parameter), [lock] poisoning in cancel.rs, the sizes the compiler
    gives to types (a parameter of the engine's checkpoints and of the estimates
    of classification), the JSON renderings of blocking ([canonical_snapshot],
    [canonical_debug]).  Of the crate: the validator of
    blocks over compiled rules (blocking/compiled.rs), datatypes, the tableau that
    composes them (native_tableau.rs, so that [NativeTableau] has only small
    instances here), the realization service, the cache and the bridges of the
    services, the binary wire formats, the encoder of ontologies, and the PyO3
    bindings.
    Of the parts modelled here, five statements are still to be proved: what
    [provided] says for obligations for data values and for reused individuals, that
    operations other than pruning keep merged nodes leading to active ones (so
    that without pruning every backtrack succeeds), which components
    [accepted_components] lists, that a search which ends in [Unsat] has refuted
    every alternative, and that the condensation of a complete relation is the
    taxonomy of its closure, of which the audit is shown so far. *)

From stdpp Require Export prelude gmap strings sorting.
From stdpp Require Export list.

#[global] Set Default Goal Selector "!".

(** Hints on dependency sets, and hints that close well-formedness goals. *)
Create HintDb dep.
Create HintDb tableau.
#[global] Open Scope N_scope.

(** ** Machine integers

    A [u32], [u64] or [usize] value is an [N].  Arithmetic that the source
    performs with [checked_add] and friends returns [None] on overflow. *)

Definition u32_max : N := 2 ^ 32 - 1.
Definition u64_max : N := 2 ^ 64 - 1.

(** [a.checked_add(b)] at the width whose largest value is [max]. *)
Definition checked_add (max a b : N) : option N :=
  if (a + b <=? max)%N then Some (a + b)%N else None.

(** [a.checked_mul(b)]. *)
Definition checked_mul (max a b : N) : option N :=
  if (a * b <=? max)%N then Some (a * b)%N else None.

(** [a.saturating_add(b)]. *)
Definition saturating_add (max a b : N) : N := N.min max (a + b).

(** [u32::try_from(n)] for a length [n : usize]. *)
Definition u32_try_from (n : nat) : option N :=
  if (N.of_nat n <=? u32_max)%N then Some (N.of_nat n) else None.

Lemma checked_add_Some max a b c :
  checked_add max a b = Some c ↔ c = (a + b)%N ∧ (a + b <= max)%N.
Proof.
  unfold checked_add. destruct (N.leb_spec (a + b) max); naive_solver lia.
Qed.

Lemma u32_try_from_Some n c :
  u32_try_from n = Some c ↔ c = N.of_nat n ∧ (N.of_nat n <= u32_max)%N.
Proof.
  unfold u32_try_from. destruct (N.leb_spec (N.of_nat n) u32_max); naive_solver lia.
Qed.

(** ** Outcomes

    [Ok] and [Err] are Rust's [Result].  [Crash] stands for an execution that
    returns no value: an out-of-range index panics, or the fuel of a modelled
    loop is exhausted.  Each component proves that [Crash] is unreachable. *)

Inductive outcome (E A : Type) : Type :=
| Ok (a : A)
| Err (e : E)
| Crash.
Arguments Ok {E A} a.
Arguments Err {E A} e.
Arguments Crash {E A}.

Definition is_ok {E A} (r : outcome E A) : bool :=
  match r with Ok _ => true | _ => false end.

Definition is_err {E A} (r : outcome E A) : bool :=
  match r with Err _ => true | _ => false end.

#[global] Instance outcome_ret {E} : MRet (outcome E) := λ A a, Ok a.
#[global] Instance outcome_bind {E} : MBind (outcome E) := λ A B f r,
  match r with Ok a => f a | Err e => Err e | Crash => Crash end.

(** [option.ok_or_else(|| e)]. *)
Definition ok_or {E A} (o : option A) (e : E) : outcome E A :=
  match o with Some a => Ok a | None => Err e end.

(** [slice[index]], which panics out of range. *)
Definition index_or_crash {E A} (l : list A) (i : nat) : outcome E A :=
  match l !! i with Some a => Ok a | None => Crash end.

(** [if condition { return Err(e) }]. *)
Definition reject_if {E} (b : bool) (e : E) : outcome E unit :=
  if b then Err e else Ok tt.

(** A [for] loop over [l] whose body may return early with an error. *)
Fixpoint iterM {E A} (f : A → outcome E unit) (l : list A) : outcome E unit :=
  match l with
  | [] => Ok tt
  | x :: l => _ ← f x; iterM f l
  end.

(** A [for] loop over [l] with one mutable accumulator. *)
Fixpoint foldM {E A B} (f : B → A → outcome E B) (l : list A) (b : B) : outcome E B :=
  match l with
  | [] => Ok b
  | x :: l => b ← f b x; foldM f l b
  end.

(** [iter.map(f).collect::<Result<Vec<_>, _>>()]. *)
Fixpoint collectM {E A B} (f : A → outcome E B) (l : list A) : outcome E (list B) :=
  match l with
  | [] => Ok []
  | x :: l => y ← f x; ys ← collectM f l; Ok (y :: ys)
  end.

Lemma outcome_bind_Ok {E A B} (m : outcome E A) (f : A → outcome E B) b :
  m ≫= f = Ok b ↔ ∃ a, m = Ok a ∧ f a = Ok b.
Proof. destruct m; naive_solver. Qed.

Lemma bind_Ok_l {E A B} (a : A) (f : A → outcome E B) : Ok a ≫= f = f a.
Proof. done. Qed.

Lemma ok_or_Ok {E A} (o : option A) (e : E) a : ok_or o e = Ok a ↔ o = Some a.
Proof. destruct o; naive_solver. Qed.

Lemma index_or_crash_Ok {E A} (l : list A) i a :
  index_or_crash (E:=E) l i = Ok a ↔ l !! i = Some a.
Proof. unfold index_or_crash. destruct (l !! i); naive_solver. Qed.

Lemma reject_if_Ok {E} b (e : E) u : reject_if b e = Ok u ↔ b = false.
Proof. destruct b, u; naive_solver. Qed.

Lemma iterM_Ok {E A} (f : A → outcome E unit) l :
  iterM f l = Ok tt ↔ Forall (λ x, f x = Ok tt) l.
Proof.
  induction l as [|x l IH]; simpl; [naive_solver|].
  rewrite outcome_bind_Ok, Forall_cons, <-IH. split.
  - intros ([] & ? & ?); done.
  - intros [? ?]. by exists tt.
Qed.

Lemma collectM_Ok {E A B} (f : A → outcome E B) l ys :
  collectM f l = Ok ys ↔ Forall2 (λ x y, f x = Ok y) l ys.
Proof.
  revert ys. induction l as [|x l IH]; intros ys; simpl.
  - split; [intros [= <-]; constructor|]. inversion 1; done.
  - rewrite outcome_bind_Ok. split.
    + intros (y & Hy & H). apply outcome_bind_Ok in H as (ys' & Hys & [= <-]).
      constructor; [done|]. by apply IH.
    + inversion 1; subst. exists y. split; [done|].
      apply outcome_bind_Ok. exists l'. split; [|done]. by apply IH.
Qed.

(** ** State passing

    [&mut self] methods: the state survives an error, as it does in Rust, so
    that rollback is something the code has to do and not something the model
    does for it. *)

Definition st (S E A : Type) : Type := S → outcome E A * S.

#[global] Instance st_ret {S E} : MRet (st S E) := λ A a s, (Ok a, s).
#[global] Instance st_bind {S E} : MBind (st S E) := λ A B f m s,
  match m s with
  | (Ok a, s') => f a s'
  | (Err e, s') => (Err e, s')
  | (Crash, s') => (Crash, s')
  end.

(** A [&self] computation: it may fail, and it changes nothing. *)
Definition reads {S E A} (f : S → outcome E A) : st S E A := λ s, (f s, s).

(** A pure observation of the state. *)
Definition gets {S E A} (f : S → A) : st S E A := λ s, (Ok (f s), s).

(** An assignment to [self]. *)
Definition modify {S E} (f : S → S) : st S E unit := λ s, (Ok tt, f s).

(** [if let Ok(x) = r]: an error becomes [None]. *)
Definition tried {E A} (r : outcome E A) : outcome E (option A) :=
  match r with Ok x => Ok (Some x) | Err _ => Ok None | Crash => Crash end.

(** A value that does not depend on the state, possibly an error. *)
Definition lift {S E A} (r : outcome E A) : st S E A := λ s, (r, s).

(** A [for] loop over [l] whose body mutates the state. *)
Fixpoint forM {S E A} (f : A → st S E unit) (l : list A) : st S E unit :=
  match l with
  | [] => mret tt
  | x :: l => _ ← f x; forM f l
  end.

(** The same with a mutable local accumulator. *)
Fixpoint foldST {S E A B} (f : B → A → st S E B) (l : list A) (b : B) : st S E B :=
  match l with
  | [] => mret b
  | x :: l => b ← f b x; foldST f l b
  end.

(** A [while] loop of at most [fuel] turns: [inl] goes on, [inr] ends it.  The
    fuel is binary, so that it can be as large as a machine counter. *)
Fixpoint loop_pos {S E A B} (fuel : positive) (body : A → st S E (A + B)) (a : A) : st S E (A + B) :=
  match fuel with
  | xH => body a
  | xO p =>
      r ← loop_pos p body a;
      match r with inl a => loop_pos p body a | inr b => mret (inr b) end
  | xI p =>
      r ← body a;
      match r with
      | inl a =>
          r ← loop_pos p body a;
          match r with inl a => loop_pos p body a | inr b => mret (inr b) end
      | inr b => mret (inr b)
      end
  end.

Definition loopM {S E A B} (fuel : positive) (body : A → st S E (A + B)) (a : A) : st S E B :=
  r ← loop_pos fuel body a;
  match r with inl _ => lift Crash | inr b => mret b end.

Lemma st_bind_Ok {S E A B} (m : st S E A) (f : A → st S E B) s b s' :
  (m ≫= f) s = (Ok b, s') ↔ ∃ a s1, m s = (Ok a, s1) ∧ f a s1 = (Ok b, s').
Proof.
  unfold mbind, st_bind. destruct (m s) as [[a|e|] s1]; naive_solver.
Qed.

Lemma reads_Ok {S E A} (f : S → outcome E A) s a s' :
  reads f s = (Ok a, s') ↔ f s = Ok a ∧ s' = s.
Proof. unfold reads. split; [by intros [= -> <-]|by intros [-> ->]]. Qed.

Lemma gets_Ok {S E A} (f : S → A) (s : S) a s' :
  gets (E:=E) f s = (Ok a, s') ↔ a = f s ∧ s' = s.
Proof. unfold gets. split; [by intros [= <- <-]|by intros [-> ->]]. Qed.

Lemma modify_Ok {S E} (f : S → S) (s : S) a s' :
  modify (E:=E) f s = (Ok a, s') ↔ s' = f s.
Proof. unfold modify. destruct a. split; [by intros [= <-]|by intros ->]. Qed.

Lemma lift_Ok {S E A} (r : outcome E A) (s : S) a s' :
  lift r s = (Ok a, s') ↔ r = Ok a ∧ s' = s.
Proof. unfold lift. split; [by intros [= -> <-]|by intros [-> ->]]. Qed.

Lemma mret_Ok {S E A} (a : A) (s : S) b s' :
  (mret a : st S E A) s = (Ok b, s') ↔ b = a ∧ s' = s.
Proof. unfold mret, st_ret. split; [by intros [= <- <-]|by intros [-> ->]]. Qed.

(** ** Loops with a measure *)

Section loops.
Context {S E A B : Type} (I : A → S → Prop) (μ : A → S → N) (P : B → S → Prop).

(** [m] answers; when it stops the result satisfies [P], and when it goes on it
    has lowered the measure by [n], which stays positive. *)
Definition turns (n : N) (m : A → st S E (A + B)) : Prop :=
  ∀ a s, I a s → (m a s).1 ≠ Crash ∧ ∀ x s', m a s = (Ok x, s') →
    match x with inl a' => I a' s' ∧ 0 < μ a' s' ∧ μ a' s' + n ≤ μ a s | inr b => P b s' end.

Lemma turns_seq n n' m m' :
  turns n m → turns n' m' → turns (n + n') (λ a, r ← m a; match r with inl a => m' a | inr b => mret (inr b) end).
Proof.
  intros Hm Hm' a s Hs. destruct (Hm a s Hs) as [Hr Hx]. unfold mbind, st_bind.
  destruct (m a s) as [[[a1|b]|e|] s1]; [|split; [done|]; intros x s' [= <- <-]; exact (Hx (inr b) s1 eq_refl)|done|done].
  destruct (Hx (inl a1) s1 eq_refl) as (Hs1 & Hpos & Hle). destruct (Hm' a1 s1 Hs1) as [Hr' Hx']. split; [done|].
  intros x s' E'. specialize (Hx' x s' E'). destruct x; [|done]. destruct Hx' as (? & ? & ?). split_and!; [done|done|lia].
Qed.

Lemma turns_loop body p : turns 1 body → turns (N.pos p) (loop_pos p body).
Proof.
  intros Hb. induction p as [p IH|p IH|]; cbn [loop_pos]; [| |exact Hb].
  - replace (N.pos p~1) with (1 + (N.pos p + N.pos p)) by lia. by apply turns_seq, turns_seq.
  - replace (N.pos p~0) with (N.pos p + N.pos p) by lia. by apply turns_seq.
Qed.

Lemma loopM_returns body fuel a s :
  turns 1 body → I a s → μ a s ≤ N.pos fuel →
  (loopM fuel body a s).1 ≠ Crash ∧ ∀ b s', loopM fuel body a s = (Ok b, s') → P b s'.
Proof.
  intros Hb Hs Hμ. destruct (turns_loop body fuel Hb a s Hs) as [Hr Hx]. unfold loopM, mbind, st_bind.
  destruct (loop_pos fuel body a s) as [[[a1|b1]|e|] s1]; [|split; [done|]; intros b s' [= <- <-]; exact (Hx (inr b1) s1 eq_refl)|done|done].
  destruct (Hx (inl a1) s1 eq_refl) as (_ & ? & ?). lia.
Qed.
End loops.

(** An invariant of the body is an invariant of the loop. *)
Lemma forM_inv {S E A} (I : S → Prop) (f : A → st S E unit) l s s' :
  (∀ x s s', x ∈ l → I s → f x s = (Ok tt, s') → I s') →
  I s → forM f l s = (Ok tt, s') → I s'.
Proof.
  intros Hf. revert s. induction l as [|x l IH]; intros s Hs; simpl.
  - by intros [= <-].
  - intros ([] & s1 & Hx & Hl)%st_bind_Ok. eapply IH; [|eapply Hf; [by left|done|done]|done].
    intros y t t' ?. apply Hf. by right.
Qed.

(** The same, for an invariant that mentions the elements still to come. *)
Lemma forM_rest {S E A} (I : list A → S → Prop) (f : A → st S E unit) l s s' :
  (∀ x l s s', I (x :: l) s → f x s = (Ok tt, s') → I l s') →
  I l s → forM f l s = (Ok tt, s') → I [] s'.
Proof.
  intros Hf. revert s. induction l as [|x l IH]; intros s Hs; simpl.
  - by intros [= <-].
  - intros ([] & s1 & Hx & Hl)%st_bind_Ok. eapply IH; [|done]. by eapply Hf.
Qed.

(** A loop whose body is a total update folds that update. *)
Lemma forM_foldl {S E A} (f : A → st S E unit) (g : A → S → S) l s s' :
  (∀ x s s', x ∈ l → f x s = (Ok tt, s') → s' = g x s) →
  forM f l s = (Ok tt, s') → s' = foldl (λ s x, g x s) s l.
Proof.
  intros Hf. revert s. induction l as [|x l IH]; intros s; simpl.
  - by intros [= <-].
  - intros ([] & s1 & Hx & Hl)%st_bind_Ok. apply Hf in Hx as ->; [|by left].
    apply IH; [|done]. intros y t t' ?. apply Hf. by right.
Qed.

(** [inv_ok H] takes a hypothesis that a computation succeeded and replaces it
    by what each of its steps returned. *)
Ltac inv_ok_step :=
  match goal with
  | H : (_ ≫= _) _ = (Ok _, _) |- _ =>
      let a := fresh "a" in let s1 := fresh "s" in
      apply st_bind_Ok in H as (a & s1 & ? & H)
  | H : _ ≫= _ = Ok _ |- _ =>
      let a := fresh "a" in
      apply outcome_bind_Ok in H as (a & ? & H)
  | H : reads _ _ = (Ok _, _) |- _ => apply reads_Ok in H as [H ->]
  | H : gets _ _ = (Ok _, _) |- _ => apply gets_Ok in H as [-> ->]
  | H : modify _ _ = (Ok _, _) |- _ => apply modify_Ok in H as ->
  | H : lift _ _ = (Ok _, _) |- _ => apply lift_Ok in H as [H ->]
  | H : mret _ _ = (Ok tt, _) |- _ => apply mret_Ok in H as [_ ->]
  | H : mret _ _ = (Ok _, _) |- _ => apply mret_Ok in H as [-> ->]
  | H : ok_or _ _ = Ok _ |- _ => apply ok_or_Ok in H
  | H : index_or_crash _ _ = Ok _ |- _ => apply index_or_crash_Ok in H
  | H : reject_if _ _ = Ok _ |- _ => apply reject_if_Ok in H
  | H : checked_add _ _ _ = Some _ |- _ => apply checked_add_Some in H as [-> H]
  | H : u32_try_from _ = Some _ |- _ => apply u32_try_from_Some in H as [-> H]
  | H : Ok _ = Ok _ |- _ => inversion H; subst; clear H
  | H : (Ok _, _) = (Ok _, _) |- _ => inversion H; subst; clear H
  | H : Err _ = Ok _ |- _ => discriminate H
  | H : Crash = Ok _ |- _ => discriminate H
  | H : (Err _, _) = (Ok _, _) |- _ => discriminate H
  | H : (Crash, _) = (Ok _, _) |- _ => discriminate H
  | u : unit |- _ => destruct u
  end.

Ltac inv_ok := repeat inv_ok_step.

(** ** Lists *)

Lemma list_alter_as_insert {A} (f : A → A) (l : list A) i x :
  l !! i = Some x → alter f i l = <[i := f x]> l.
Proof.
  intros Hi. apply list_eq. intros j. destruct (decide (i = j)) as [<-|Hne].
  - rewrite list_lookup_alter_eq, Hi, list_lookup_insert_eq by (by eapply lookup_lt_Some). done.
  - by rewrite list_lookup_alter_ne, list_lookup_insert_ne.
Qed.

Lemma list_lookup_alter_inv {A} (f : A → A) (l : list A) i j y :
  alter f i l !! j = Some y →
  (j = i ∧ ∃ x, l !! i = Some x ∧ y = f x) ∨ (j ≠ i ∧ l !! j = Some y).
Proof.
  destruct (decide (j = i)) as [->|Hne].
  - rewrite list_lookup_alter_eq. intros (x & ? & ->)%fmap_Some. eauto.
  - rewrite list_lookup_alter_ne by done. auto.
Qed.

(** ** Record update

    [Eta R] is the eta expansion of a record; [set_field] rebuilds a record
    with one projection changed.  [r <| f := v |>] is Rust's assignment to a
    field and [r <| f ::= g |>] its in-place update. *)

Class Eta (R : Type) := eta : R → R.

Class FieldSetter {R T : Type} (proj : R → T) := set_field : (T → T) → R → R.
Arguments set_field {R T} proj {FieldSetter} _ _.

Ltac solve_field_setter :=
  lazymatch goal with
  | |- @FieldSetter ?R ?T ?proj =>
      let g := fresh "g" in let r := fresh "r" in
      intros g r;
      let e := eval cbv beta delta [eta] in (@eta R _ r) in
      let h := get_head e in
      let e := eval unfold h in e in
      let e := eval cbv beta in e in
      lazymatch eval pattern (proj r) in e with
      | ?F _ => let v := eval cbv beta in (F (g (proj r))) in exact v
      end
  end.

#[global] Hint Extern 1 (FieldSetter _) => solve_field_setter : typeclass_instances.

Declare Scope record_scope.
Delimit Scope record_scope with record.
Notation "r <| f ::= g |>" := (set_field f g r)
  (at level 12, f at next level, left associativity) : record_scope.
Notation "r <| f := v |>" := (set_field f (λ _, v) r)
  (at level 12, f at next level, left associativity) : record_scope.
#[global] Open Scope record_scope.
