(* ===== verification/Order.v ===== *)
(** * Ordered values, sorting and ordered collections

    Rust derives [Ord] structurally: products and vectors compare
    lexicographically, [None] is below [Some].  [Ord] mirrors the trait and
    [OrdLaws] states its contract.  A [BTreeMap] or [BTreeSet] is a [gmap] or
    [gset] whose iteration order is the sorted order of its keys. *)

From S2P Require Import Prelude.

(** ** The [Ord] trait *)

Class Ord (A : Type) := compare : A → A → comparison.

Class OrdLaws (A : Type) `{Ord A} := {
  compare_eq x y : compare x y = Eq ↔ x = y;
  compare_antisym x y : compare y x = CompOpp (compare x y);
  compare_lt_trans x y z : compare x y = Lt → compare y z = Lt → compare x z = Lt
}.

Definition ord_lt `{Ord A} (x y : A) : Prop := compare x y = Lt.
Definition ord_le `{Ord A} (x y : A) : Prop := compare x y ≠ Gt.

#[global] Instance ord_le_dec `{Ord A} : RelDecision (@ord_le A _).
Proof. intros x y. unfold ord_le. apply _. Defined.

#[global] Instance ord_lt_dec `{Ord A} : RelDecision (@ord_lt A _).
Proof. intros x y. unfold ord_lt. apply _. Defined.

Section laws.
Context `{OrdLaws A}.

Lemma compare_refl (x : A) : compare x x = Eq.
Proof. by apply compare_eq. Qed.

Lemma ord_lt_irrefl (x : A) : ¬ ord_lt x x.
Proof. unfold ord_lt. by rewrite compare_refl. Qed.

Lemma ord_le_lt_eq (x y : A) : ord_le x y ↔ ord_lt x y ∨ x = y.
Proof.
  unfold ord_le, ord_lt. rewrite <-compare_eq. destruct (compare x y); naive_solver.
Qed.

Lemma ord_not_le (x y : A) : ¬ ord_le x y ↔ ord_lt y x.
Proof.
  unfold ord_le, ord_lt. rewrite (compare_antisym x y).
  destruct (compare x y); simpl; naive_solver.
Qed.

#[global] Instance ord_le_refl : Reflexive (@ord_le A _).
Proof. intros x. unfold ord_le. by rewrite compare_refl. Qed.

#[global] Instance ord_lt_transitive : Transitive (@ord_lt A _).
Proof. intros x y z. apply compare_lt_trans. Qed.

#[global] Instance ord_le_trans : Transitive (@ord_le A _).
Proof.
  intros x y z. rewrite !ord_le_lt_eq. intros [Hxy| ->] [Hyz| ->]; auto.
  left. by transitivity y.
Qed.

#[global] Instance ord_le_total : Total (@ord_le A _).
Proof.
  intros x y. unfold ord_le. rewrite (compare_antisym x y).
  destruct (compare x y); simpl; naive_solver.
Qed.

#[global] Instance ord_le_antisymm : AntiSymm (=) (@ord_le A _).
Proof.
  intros x y Hxy Hyx. apply ord_le_lt_eq in Hxy as [Hxy|]; [|done].
  by apply ord_not_le in Hxy.
Qed.

Lemma ord_lt_le_trans (x y z : A) : ord_lt x y → ord_le y z → ord_lt x z.
Proof. intros Hxy [Hyz| ->]%ord_le_lt_eq; [by transitivity y|done]. Qed.
End laws.

(** ** Derived instances *)

#[global] Instance N_ord : Ord N := N.compare.
#[global] Instance N_ord_laws : OrdLaws N.
Proof.
  split; unfold compare, N_ord.
  - intros x y. apply N.compare_eq_iff.
  - intros x y. apply N.compare_antisym.
  - intros x y z. rewrite !N.compare_lt_iff. lia.
Qed.

Lemma ord_lt_N (x y : N) : ord_lt x y ↔ (x < y)%N.
Proof. apply N.compare_lt_iff. Qed.

Lemma ord_le_N (x y : N) : ord_le x y ↔ (x <= y)%N.
Proof. done. Qed.

#[global] Instance Z_ord : Ord Z := Z.compare.
#[global] Instance Z_ord_laws : OrdLaws Z.
Proof.
  split; unfold compare, Z_ord.
  - intros x y. apply Z.compare_eq_iff.
  - intros x y. apply Z.compare_antisym.
  - intros x y z. rewrite !Z.compare_lt_iff. lia.
Qed.

#[global] Instance nat_ord : Ord nat := Nat.compare.
#[global] Instance nat_ord_laws : OrdLaws nat.
Proof.
  split; unfold compare, nat_ord.
  - intros x y. apply Nat.compare_eq_iff.
  - intros x y. apply Nat.compare_antisym.
  - intros x y z. rewrite !Nat.compare_lt_iff. lia.
Qed.

(** [Ordering::then]. *)
Definition then_cmp (c d : comparison) : comparison :=
  match c with Eq => d | _ => c end.

Definition prod_cmp `{Ord A, Ord B} (p q : A * B) : comparison :=
  then_cmp (compare p.1 q.1) (compare p.2 q.2).
#[global] Instance prod_ord `{Ord A, Ord B} : Ord (A * B) := prod_cmp.

Definition option_cmp `{Ord A} (x y : option A) : comparison :=
  match x, y with
  | None, None => Eq
  | None, Some _ => Lt
  | Some _, None => Gt
  | Some a, Some b => compare a b
  end.
#[global] Instance option_ord `{Ord A} : Ord (option A) := option_cmp.

Fixpoint list_cmp `{Ord A} (l k : list A) : comparison :=
  match l, k with
  | [], [] => Eq
  | [], _ :: _ => Lt
  | _ :: _, [] => Gt
  | x :: l, y :: k => then_cmp (compare x y) (list_cmp l k)
  end.
#[global] Instance list_ord `{Ord A} : Ord (list A) := list_cmp.

Lemma ord_le_singleton_Z (x y : Z) : ord_le [x] [y] ↔ (x <= y)%Z.
Proof.
  unfold ord_le, Z.le. change (compare [x] [y]) with (then_cmp (x ?= y)%Z Eq).
  by destruct (x ?= y)%Z.
Qed.

Section then_cmp_laws.
Context `{OrdLaws A}.

Lemma then_cmp_eq (x y : A) c : then_cmp (compare x y) c = Eq ↔ x = y ∧ c = Eq.
Proof. rewrite <-compare_eq. destruct (compare x y); naive_solver. Qed.

Lemma then_cmp_antisym (x y : A) c :
  then_cmp (compare y x) (CompOpp c) = CompOpp (then_cmp (compare x y) c).
Proof. rewrite (compare_antisym x y). by destruct (compare x y). Qed.

Lemma then_cmp_trans (x y z : A) c d e :
  (c = Lt → d = Lt → e = Lt) →
  then_cmp (compare x y) c = Lt → then_cmp (compare y z) d = Lt →
  then_cmp (compare x z) e = Lt.
Proof.
  intros Hcde. destruct (compare x y) eqn:E; simpl; [|intros _|done].
  - apply compare_eq in E as ->. destruct (compare y z); simpl; [auto|done..].
  - destruct (compare y z) eqn:E'; simpl; [|intros _|done].
    + apply compare_eq in E' as <-. by rewrite E.
    + by rewrite (compare_lt_trans _ _ _ E E').
Qed.
End then_cmp_laws.

#[global] Instance prod_ord_laws `{OrdLaws A, OrdLaws B} : OrdLaws (A * B).
Proof.
  split.
  - intros [a b] [a' b']. change (prod_cmp (a, b) (a', b') = Eq ↔ (a, b) = (a', b')).
    unfold prod_cmp; simpl. rewrite then_cmp_eq, compare_eq. naive_solver.
  - intros [a b] [a' b'].
    change (prod_cmp (a', b') (a, b) = CompOpp (prod_cmp (a, b) (a', b'))).
    unfold prod_cmp; simpl. by rewrite <-then_cmp_antisym, <-(compare_antisym b b').
  - intros [a b] [a' b'] [a'' b'']. apply then_cmp_trans. apply compare_lt_trans.
Qed.

#[global] Instance option_ord_laws `{OrdLaws A} : OrdLaws (option A).
Proof.
  split.
  - intros [a|] [b|]; try (split; done).
    change (compare a b = Eq ↔ Some a = Some b). rewrite compare_eq. naive_solver.
  - intros [a|] [b|]; try done. apply (compare_antisym a b).
  - intros [a|] [b|] [c|]; try done. apply (compare_lt_trans a b c).
Qed.

#[global] Instance list_ord_laws `{OrdLaws A} : OrdLaws (list A).
Proof.
  split.
  - intros l. change (∀ k, list_cmp l k = Eq ↔ l = k).
    induction l as [|x l IH]; intros [|y k]; simpl; try (split; done).
    rewrite then_cmp_eq, IH. naive_solver.
  - intros l. change (∀ k, list_cmp k l = CompOpp (list_cmp l k)).
    induction l as [|x l IH]; intros [|y k]; simpl; try done.
    by rewrite <-then_cmp_antisym, <-IH.
  - intros l. change (∀ k m, list_cmp l k = Lt → list_cmp k m = Lt → list_cmp l m = Lt).
    induction l as [|x l IH]; intros [|y k] [|z m]; simpl; try done.
    apply then_cmp_trans, IH.
Qed.

(** Comparison through an injective key, as for a derived [Ord] of a struct. *)
Definition compare_by {A B} `{Ord B} (f : A → B) : Ord A := λ x y, compare (f x) (f y).

Lemma compare_by_laws {A B} `{OrdLaws B} (f : A → B) `{!Inj (=) (=) f} :
  @OrdLaws A (compare_by f).
Proof.
  split; unfold compare, compare_by.
  - intros x y. rewrite (compare_eq (f x)). split; [apply (inj f)|by intros ->].
  - intros x y. apply compare_antisym.
  - intros x y z. apply compare_lt_trans.
Qed.

(** [str] compares by bytes. *)
Definition string_bytes (s : string) : list N :=
  Ascii.N_of_ascii <$> String.list_ascii_of_string s.

#[local] Instance N_of_ascii_inj : Inj (=) (=) Ascii.N_of_ascii.
Proof.
  intros a b E. by rewrite <-(Ascii.ascii_N_embedding a), E, Ascii.ascii_N_embedding.
Qed.

#[global] Instance string_bytes_inj : Inj (=) (=) string_bytes.
Proof.
  intros s t E. apply (inj (fmap Ascii.N_of_ascii)) in E.
  rewrite <-(String.string_of_list_ascii_of_string s), E.
  apply String.string_of_list_ascii_of_string.
Qed.

#[global] Instance string_ord : Ord string := compare_by string_bytes.
#[global] Instance string_ord_laws : OrdLaws string.
Proof. apply compare_by_laws. apply _. Qed.

(** ** Sorting *)

(** [slice.sort()], [sort_unstable()]: the sorted permutation. *)
Definition sort `{Ord A} (l : list A) : list A := merge_sort ord_le l.

(** [vec.dedup()]: drops consecutive repetitions. *)
Fixpoint dedup `{EqDecision A} (l : list A) : list A :=
  match l with
  | [] => []
  | x :: l =>
      match dedup l with
      | [] => [x]
      | y :: k => if bool_decide (x = y) then y :: k else x :: y :: k
      end
  end.

(** [iter.min_by(cmp)]: the first of the least elements. *)
Fixpoint min_by_from {A} (cmp : A → A → comparison) (x : A) (l : list A) : A :=
  match l with
  | [] => x
  | y :: l => min_by_from cmp (match cmp x y with Gt => y | _ => x end) l
  end.

Definition min_by {A} (cmp : A → A → comparison) (l : list A) : option A :=
  match l with [] => None | x :: l => Some (min_by_from cmp x l) end.

(** [slice.windows(2).any(|pair| pair[0] >= pair[1])] is the negation of: *)
Fixpoint strictly_ascending `{Ord A} (l : list A) : bool :=
  match l with
  | x :: (y :: _) as l => bool_decide (ord_lt x y) && strictly_ascending l
  | _ => true
  end.

(** [slice.binary_search(&x)] on an ascending slice: [inl i] is [Ok(i)], the
    index of [x]; [inr i] is [Err(i)], the index where it would be inserted. *)
Fixpoint binary_search `{Ord A} (l : list A) (x : A) : nat + nat :=
  match l with
  | [] => inr 0%nat
  | y :: l =>
      match compare y x with
      | Eq => inl 0%nat
      | Gt => inr 0%nat
      | Lt => match binary_search l x with inl i => inl (S i) | inr i => inr (S i) end
      end
  end.

Section sort.
Context `{OrdLaws A}.

Lemma sort_Permutation (l : list A) : sort l ≡ₚ l.
Proof. apply merge_sort_Permutation. Qed.

Lemma elem_of_sort (l : list A) x : x ∈ sort l ↔ x ∈ l.
Proof. by rewrite sort_Permutation. Qed.

Lemma sort_le_sorted (l : list A) : StronglySorted ord_le (sort l).
Proof. apply StronglySorted_merge_sort; apply _. Qed.

Lemma StronglySorted_lt_le (l : list A) :
  StronglySorted ord_lt l → StronglySorted ord_le l.
Proof.
  induction 1 as [|x l Hl IH Hx]; constructor; [done|].
  eapply Forall_impl; [done|]. intros y Hy. apply ord_le_lt_eq. by left.
Qed.

Lemma sort_id (l : list A) : StronglySorted ord_le l → sort l = l.
Proof.
  intros Hl. apply (StronglySorted_unique ord_le); [|done|apply sort_Permutation].
  apply sort_le_sorted.
Qed.

Lemma sort_Permutation_eq (l k : list A) : l ≡ₚ k → sort l = sort k.
Proof.
  intros Hlk. apply (StronglySorted_unique ord_le); [apply sort_le_sorted..|].
  by rewrite !sort_Permutation.
Qed.

Lemma StronglySorted_le_NoDup (l : list A) :
  StronglySorted ord_le l → NoDup l → StronglySorted ord_lt l.
Proof.
  induction 1 as [|x l Hl IH Hx]; [constructor|].
  intros [Hxl Hnd]%NoDup_cons. constructor; [by apply IH|].
  apply Forall_forall. intros y Hy. rewrite Forall_forall in Hx.
  specialize (Hx y Hy). apply ord_le_lt_eq in Hx as [?| ->]; done.
Qed.

Lemma StronglySorted_lt_NoDup (l : list A) : StronglySorted ord_lt l → NoDup l.
Proof.
  induction 1 as [|x l Hl IH Hx]; constructor; [|done].
  intros Hxl. rewrite Forall_forall in Hx. by apply Hx, ord_lt_irrefl in Hxl.
Qed.

(** A strictly sorted list is determined by its elements. *)
Lemma StronglySorted_lt_unique (l k : list A) :
  StronglySorted ord_lt l → StronglySorted ord_lt k → (∀ x, x ∈ l ↔ x ∈ k) → l = k.
Proof.
  intros Hl Hk Hlk. apply (StronglySorted_unique ord_le).
  - by apply StronglySorted_lt_le.
  - by apply StronglySorted_lt_le.
  - apply NoDup_Permutation; auto using StronglySorted_lt_NoDup.
Qed.

Lemma strictly_ascending_spec (l : list A) :
  strictly_ascending l = true ↔ StronglySorted ord_lt l.
Proof.
  induction l as [|x l IH]; [split; [constructor|done]|].
  destruct l as [|y l]; [split; [repeat constructor|done]|].
  change (strictly_ascending (x :: y :: l))
    with (bool_decide (ord_lt x y) && strictly_ascending (y :: l)).
  rewrite andb_true_iff, bool_decide_eq_true, IH. split.
  - intros [Hxy Hl]. constructor; [done|]. constructor; [done|].
    apply StronglySorted_inv in Hl as [_ Hy].
    eapply Forall_impl; [done|]. intros z Hz. by transitivity y.
  - intros [Hl Hx]%StronglySorted_inv. split; [|done]. by inversion Hx.
Qed.
End sort.

Section dedup.
Context `{OrdLaws A, EqDecision A}.

Lemma elem_of_dedup (l : list A) x : x ∈ dedup l ↔ x ∈ l.
Proof.
  induction l as [|y l IH]; simpl; [done|].
  destruct (dedup l) as [|z k].
  - set_solver.
  - case_bool_decide; subst; set_solver.
Qed.

Lemma dedup_sorted (l : list A) : StronglySorted ord_le l → StronglySorted ord_lt (dedup l).
Proof.
  induction 1 as [|x l Hl IH Hx]; simpl; [constructor|].
  destruct (dedup l) as [|y k] eqn:E; [repeat constructor|].
  case_bool_decide as Hxy; [done|]. constructor; [done|].
  assert (ord_lt x y) as Hlt.
  { rewrite Forall_forall in Hx. assert (y ∈ l) as Hy.
    { apply elem_of_dedup. rewrite E. by left. }
    apply Hx, ord_le_lt_eq in Hy as [?|?]; done. }
  apply StronglySorted_inv in IH as [_ Hk]. constructor; [done|].
  eapply Forall_impl; [done|]. intros z Hz. by transitivity y.
Qed.

Lemma dedup_sort_sorted (l : list A) : StronglySorted ord_lt (dedup (sort l)).
Proof. apply dedup_sorted, sort_le_sorted. Qed.

Lemma elem_of_dedup_sort (l : list A) x : x ∈ dedup (sort l) ↔ x ∈ l.
Proof. by rewrite elem_of_dedup, elem_of_sort. Qed.
End dedup.

(** A list without repetitions is as long as the set of its elements. *)
Lemma size_list_to_set_NoDup `{Countable A} (l : list A) :
  size (list_to_set l : gset A) = length l ↔ NoDup l.
Proof.
  split; [|apply size_list_to_set]. induction l as [|x l IH]; simpl; [constructor|].
  assert (∀ k : list A, (size (list_to_set k : gset A) ≤ length k)%nat) as Hle.
  { induction k as [|y k IHk]; [done|]. rewrite list_to_set_cons, size_union_alt, size_singleton.
    pose proof (subseteq_size (list_to_set k ∖ {[y]} : gset A) (list_to_set k) ltac:(set_solver)).
    simpl; lia. }
  destruct (decide (x ∈ l)) as [Hx|Hx].
  - replace ({[x]} ∪ list_to_set l : gset A) with (list_to_set l : gset A) by set_solver.
    intros E. specialize (Hle l). lia.
  - rewrite size_union, size_singleton by set_solver. intros E. constructor; [done|]. apply IH. lia.
Qed.

(** ** Ordered collections *)

(** The ascending elements of a [BTreeSet]. *)
Definition btree_elements `{Ord A, Countable A} (s : gset A) : list A := sort (elements s).

(** The ascending keys of a [BTreeMap]. *)
Definition btree_keys {V} `{Ord K, Countable K} (m : gmap K V) : list K :=
  btree_elements (dom m).

(** The entries of a [BTreeMap] in ascending order of their keys. *)
Definition btree_entries {V} `{Ord K, Countable K} (m : gmap K V) : list (K * V) :=
  omap (λ k, pair k <$> m !! k) (btree_keys m).

(** [map.values()]. *)
Definition btree_values {V} `{Ord K, Countable K} (m : gmap K V) : list V :=
  (btree_entries m).*2.

(** [set.pop_first()]: the least element and the set without it. *)
Definition btree_pop_first `{Ord A, Countable A} (s : gset A) : option (A * gset A) :=
  match btree_elements s with
  | [] => None
  | x :: _ => Some (x, s ∖ {[x]})
  end.

Section btree.
Context `{OrdLaws A, Countable A}.

Lemma elem_of_btree_elements (s : gset A) x : x ∈ btree_elements s ↔ x ∈ s.
Proof. unfold btree_elements. by rewrite elem_of_sort, elem_of_elements. Qed.

Lemma btree_elements_sorted (s : gset A) : StronglySorted ord_lt (btree_elements s).
Proof.
  apply StronglySorted_le_NoDup; [apply sort_le_sorted|].
  unfold btree_elements. rewrite sort_Permutation. apply NoDup_elements.
Qed.

Lemma btree_elements_empty : btree_elements (∅ : gset A) = [].
Proof. unfold btree_elements. by rewrite elements_empty. Qed.

Lemma btree_elements_nil (s : gset A) : btree_elements s = [] ↔ s = ∅.
Proof.
  split; [|intros ->; apply btree_elements_empty]. intros E. apply set_eq.
  intros x. rewrite <-elem_of_btree_elements, E. set_solver.
Qed.

(** An ascending list is the iteration order of the set of its elements. *)
Lemma btree_elements_unique (s : gset A) l :
  StronglySorted ord_lt l → (∀ x, x ∈ l ↔ x ∈ s) → btree_elements s = l.
Proof.
  intros Hl Hs. apply StronglySorted_lt_unique; [apply btree_elements_sorted|done|].
  intros x. by rewrite elem_of_btree_elements, Hs.
Qed.

Lemma btree_elements_list_to_set (l : list A) :
  StronglySorted ord_lt l → btree_elements (list_to_set l) = l.
Proof.
  intros Hl. apply btree_elements_unique; [done|]. intros x. by rewrite elem_of_list_to_set.
Qed.

Lemma btree_pop_first_Some (s s' : gset A) x :
  btree_pop_first s = Some (x, s') →
  x ∈ s ∧ s' = s ∖ {[x]} ∧ ∀ y, y ∈ s → ord_le x y.
Proof.
  unfold btree_pop_first. destruct (btree_elements s) as [|z l] eqn:E; [done|].
  intros [= -> <-]. split_and!; [|done|].
  - rewrite <-elem_of_btree_elements, E. by left.
  - intros y. rewrite <-elem_of_btree_elements, E.
    pose proof (btree_elements_sorted s) as Hs. rewrite E in Hs.
    apply StronglySorted_inv in Hs as [_ Hs]. rewrite Forall_forall in Hs.
    intros [->|Hy]%elem_of_cons; [done|]. apply ord_le_lt_eq. left. by apply Hs.
Qed.

Lemma btree_pop_first_None (s : gset A) : btree_pop_first s = None ↔ s = ∅.
Proof.
  unfold btree_pop_first. rewrite <-btree_elements_nil.
  destruct (btree_elements s); naive_solver.
Qed.

Context {V : Type}.
Implicit Types m : gmap A V.

Lemma elem_of_btree_keys m k : k ∈ btree_keys m ↔ is_Some (m !! k).
Proof. unfold btree_keys. by rewrite elem_of_btree_elements, elem_of_dom. Qed.

Lemma elem_of_btree_entries m k v : (k, v) ∈ btree_entries m ↔ m !! k = Some v.
Proof.
  unfold btree_entries. rewrite list_elem_of_omap. split.
  - intros (k' & _ & Hk). destruct (m !! k') eqn:E; simplify_eq/=; done.
  - intros Hk. exists k. rewrite elem_of_btree_keys, Hk. eauto.
Qed.

Lemma btree_entries_keys m : (btree_entries m).*1 = btree_keys m.
Proof.
  unfold btree_entries. assert (∀ k, k ∈ btree_keys m → is_Some (m !! k)) as Hk.
  { intros k. apply elem_of_btree_keys. }
  induction (btree_keys m) as [|k l IH]; simpl; [done|].
  destruct (Hk k) as [v Hv]; [by left|]. rewrite Hv; simpl. f_equal. apply IH.
  intros k' ?. apply Hk. by right.
Qed.

Lemma btree_entries_sorted m : StronglySorted ord_lt (btree_entries m).*1.
Proof. rewrite btree_entries_keys. apply btree_elements_sorted. Qed.

Lemma length_btree_values m : length (btree_values m) = size m.
Proof.
  unfold btree_values. rewrite length_fmap, <-(length_fmap fst), btree_entries_keys.
  unfold btree_keys, btree_elements. by rewrite sort_Permutation, <-size_dom.
Qed.

(** The values are pairwise different iff each value has one key. *)
Lemma NoDup_btree_values m :
  NoDup (btree_values m) ↔ ∀ k k' v, m !! k = Some v → m !! k' = Some v → k = k'.
Proof.
  pose proof (StronglySorted_lt_NoDup _ (btree_entries_sorted m)) as Hnd.
  unfold btree_values. split.
  - intros Hv k k' v Hk Hk'. apply elem_of_btree_entries in Hk, Hk'.
    apply list_elem_of_lookup in Hk as [i Hi], Hk' as [j Hj].
    assert (i = j) as ->; [|congruence].
    eapply NoDup_lookup; [apply Hv|..]; by rewrite list_lookup_fmap, ?Hi, ?Hj.
  - intros Hinj. apply NoDup_alt. intros i j v.
    rewrite !list_lookup_fmap. destruct (btree_entries m !! i) as [[k ?]|] eqn:Hi; [|done].
    destruct (btree_entries m !! j) as [[k' ?]|] eqn:Hj; [|done]. intros [= ->] [= ->].
    assert (k = k') as ->.
    { eapply Hinj; apply elem_of_btree_entries; by eapply list_elem_of_lookup_2. }
    eapply NoDup_lookup; [apply Hnd|..]; by rewrite list_lookup_fmap, ?Hi, ?Hj.
Qed.

Lemma elem_of_btree_values m v : v ∈ btree_values m ↔ ∃ k, m !! k = Some v.
Proof.
  unfold btree_values. rewrite list_elem_of_fmap. split.
  - intros ([k v'] & -> & Hk). exists k. by apply elem_of_btree_entries.
  - intros [k Hk]. exists (k, v). split; [done|]. by apply elem_of_btree_entries.
Qed.
End btree.

(** ** Least elements *)

Lemma min_by_from_least {A} `{OrdLaws B} (f : A → B) x (l : list A) y :
  y ∈ x :: l → ord_le (f (min_by_from (compare_by f) x l)) (f y).
Proof.
  revert x y. induction l as [|z l IH]; intros x y Hy; [by apply list_elem_of_singleton in Hy as ->|]. cbn. unfold compare_by at 2.
  destruct (compare (f x) (f z)) eqn:E; apply elem_of_cons in Hy as [->|Hy].
  1, 3: apply IH; constructor.
  1, 2: apply elem_of_cons in Hy as [->|Hy]; [|by apply IH; right]; trans (f x); [apply IH; constructor|]; unfold ord_le; by rewrite E.
  - trans (f z); [apply IH; constructor|]. apply ord_le_lt_eq. left. apply ord_not_le. unfold ord_le. by rewrite E; auto.
  - by apply IH.
Qed.

Lemma min_by_least {A} `{OrdLaws B} (f : A → B) (l : list A) x y : min_by (compare_by f) l = Some x → y ∈ l → ord_le (f x) (f y).
Proof. destruct l as [|z l]; [done|]. intros [= <-]. apply min_by_from_least. Qed.

Lemma elem_of_min_by {A} (cmp : A → A → comparison) l x : min_by cmp l = Some x → x ∈ l.
Proof.
  destruct l as [|y l]; simpl; [done|]. intros [= <-]. revert y.
  induction l as [|z l IH]; intros y; simpl; [by left|].
  destruct (cmp y z); (eapply elem_of_subseteq; [|apply IH]); set_solver.
Qed.
