(* ===== verification/Errors.v ===== *)
(** * Errors of the native engine (native/src/error.rs)

    The fourteen error kinds, the error record and its constructors.  The
    translation into Python exceptions is not modelled. *)

From S2P Require Import Prelude.

Inductive ErrorKind :=
| Wire | Version | Disposed | Busy | Cancelled | Timeout | Resource | Profile
| UnsupportedDatatype | Inconsistent | Poisoned | Fork | Feature | Invariant.

#[global] Instance ErrorKind_eq_dec : EqDecision ErrorKind.
Proof. solve_decision. Defined.

Record NativeError := mkNativeError {
  err_kind : ErrorKind;
  err_code : string;
  err_message : string;
  err_context : gmap string string
}.

#[global] Instance NativeError_eta : Eta NativeError := λ e,
  mkNativeError (err_kind e) (err_code e) (err_message e) (err_context e).

#[global] Instance NativeError_eq_dec : EqDecision NativeError.
Proof. solve_decision. Defined.

Abbreviation NativeResult := (outcome NativeError).

Module NativeErr.

Definition new (kind : ErrorKind) (code message : string) : NativeError :=
  mkNativeError kind code message ∅.

Definition with_context (e : NativeError) (key value : string) : NativeError :=
  e <| err_context ::= <[key := value]> |>.

Definition wire (message : string) : NativeError :=
  new Wire "NATIVE_WIRE_INVALID" message.

Definition version (message : string) : NativeError :=
  new Version "NATIVE_WIRE_VERSION" message.

Definition invariant (message : string) : NativeError :=
  new Invariant "NATIVE_INVARIANT" message.

Definition unsupported_datatype (message datatype_iri : string) : NativeError :=
  with_context (new UnsupportedDatatype "UNSUPPORTED_DATATYPE" message)
    "datatype_iri" datatype_iri.

Definition inconsistent (message : string) : NativeError :=
  new Inconsistent "INCONSISTENT_ONTOLOGY" message.

End NativeErr.

(** ** Numbers in contexts *)

(** [str::parse::<u64>]: an optional plus sign and decimal digits. *)
Fixpoint parse_digits (s : string) (acc : N) : option N :=
  match s with
  | EmptyString => Some acc
  | String c s =>
      let d := Ascii.N_of_ascii c in
      if (48 <=? d)%N && (d <=? 57)%N then
        n ← checked_mul u64_max acc 10;
        n ← checked_add u64_max n (d - 48);
        parse_digits s n
      else None
  end.

Definition parse_u64 (s : string) : option N :=
  match s with
  | EmptyString => None
  | String c rest =>
      if (Ascii.N_of_ascii c =? 43)%N then match rest with EmptyString => None | _ => parse_digits rest 0 end
      else parse_digits s 0
  end.
