(* ===== verification/Model.v ===== *)
(** * Primitive values of the tableau (native/src/model/mod.rs)

    Generation-stamped node handles, node kinds, sorts and lifecycles, and
    [DependencySet]: the canonical ascending vector of branching levels that
    supports a derived fact, together with the three orders on dependency sets
    that the store uses (native/src/store/state.rs).  The abstract view of a
    dependency set is the finite set of its levels. *)

From S2P Require Import Prelude Order Errors.

(** ** Handles and node attributes *)

Record NodeHandle := mkHandle { slot : N; generation : N }.

#[global] Instance NodeHandle_eta : Eta NodeHandle := λ h, mkHandle (slot h) (generation h).

#[global] Instance NodeHandle_eq_dec : EqDecision NodeHandle.
Proof. solve_decision. Defined.

#[global] Instance NodeHandle_countable : Countable NodeHandle.
Proof.
  apply (inj_countable' (λ h, (slot h, generation h)) (λ p, mkHandle p.1 p.2)). by intros [].
Defined.

Definition handle_key (h : NodeHandle) : N * N := (slot h, generation h).

#[global] Instance handle_key_inj : Inj (=) (=) handle_key.
Proof. intros [] [] [= -> ->]. done. Qed.

#[global] Instance NodeHandle_ord : Ord NodeHandle := compare_by handle_key.
#[global] Instance NodeHandle_ord_laws : OrdLaws NodeHandle.
Proof. apply compare_by_laws. apply _. Qed.

Inductive NodeKind := Root | Tree | Ni | Concrete.
Inductive NodeSort := Object | Data.
Inductive NodeLifecycle := Active | Merged | Pruned | Retired.

#[global] Instance NodeKind_eq_dec : EqDecision NodeKind.
Proof. solve_decision. Defined.
#[global] Instance NodeSort_eq_dec : EqDecision NodeSort.
Proof. solve_decision. Defined.
#[global] Instance NodeLifecycle_eq_dec : EqDecision NodeLifecycle.
Proof. solve_decision. Defined.

Definition kind_sort (k : NodeKind) : NodeSort :=
  match k with
  | Concrete => Data
  | Root | Tree | Ni => Object
  end.

(** ** Dependency sets *)

Record DependencySet := mkDep { as_slice : list N }.

#[global] Instance DependencySet_eq_dec : EqDecision DependencySet.
Proof. solve_decision. Defined.

Module Dep.

Definition new (levels : list N) : NativeResult DependencySet :=
  if strictly_ascending levels then Ok (mkDep levels)
  else Err (NativeErr.wire "dependency levels must be ascending and unique").

Definition empty : DependencySet := mkDep [].

Definition maximum (d : DependencySet) : option N := last (as_slice d).

(** [levels.insert(position, level)] shifts the tail right. *)
Definition vec_insert (l : list N) (i : nat) (x : N) : list N := take i l ++ x :: drop i l.

(** [levels.remove(position)] shifts the tail left. *)
Definition vec_remove (l : list N) (i : nat) : list N := take i l ++ drop (S i) l.

Definition add (d : DependencySet) (level : N) : DependencySet :=
  match binary_search (as_slice d) level with
  | inl _ => mkDep (as_slice d)
  | inr position => mkDep (vec_insert (as_slice d) position level)
  end.

Definition without (d : DependencySet) (level : N) : DependencySet :=
  match binary_search (as_slice d) level with
  | inl position => mkDep (vec_remove (as_slice d) position)
  | inr _ => mkDep (as_slice d)
  end.

Definition is_subset_of (d e : DependencySet) : bool :=
  forallb (λ level, match binary_search (as_slice e) level with inl _ => true | inr _ => false end)
    (as_slice d).

Definition union (values : list DependencySet) : DependencySet :=
  mkDep (dedup (sort (mjoin (as_slice <$> values)))).

End Dep.

(** ** Orders on dependency sets (native/src/store/state.rs) *)

Definition DependencyRank : Type := nat * option N * list N.

Definition dependency_rank (d : DependencySet) : DependencyRank :=
  (length (as_slice d), Dep.maximum d, reverse (as_slice d)).

Definition dependency_bits_cmp (left right : DependencySet) : comparison :=
  compare (reverse (as_slice left)) (reverse (as_slice right)).

Definition dependency_bits_le (left right : DependencySet) : Prop :=
  dependency_bits_cmp left right ≠ Gt.

#[global] Instance dependency_bits_le_dec : RelDecision dependency_bits_le.
Proof. intros x y. unfold dependency_bits_le. apply _. Defined.

Definition sort_dependencies (values : list DependencySet) : list DependencySet :=
  merge_sort dependency_bits_le values.

(** The derived order of the struct, used by [supports.sort()]. *)
#[global] Instance as_slice_inj : Inj (=) (=) as_slice.
Proof. by intros [] [] [= ->]. Qed.
#[global] Instance DependencySet_ord : Ord DependencySet := compare_by as_slice.
#[global] Instance DependencySet_ord_laws : OrdLaws DependencySet.
Proof. apply compare_by_laws. apply _. Qed.

(** ** Canonical vectors and the abstract view *)

(** What [DependencySet::new] checks and every other constructor keeps. *)
Definition canonical (d : DependencySet) : Prop := StronglySorted ord_lt (as_slice d).

#[global] Instance canonical_dec d : Decision (canonical d).
Proof.
  refine (cast_if (decide (strictly_ascending (as_slice d) = true)));
    unfold canonical; by rewrite <-strictly_ascending_spec.
Defined.

(** The abstract value of a dependency set. *)
Definition levels (d : DependencySet) : gset N := list_to_set (as_slice d).

(** Every level of the set is at most [h]. *)
Definition dep_bounded (h : N) (d : DependencySet) : Prop := ∀ l, l ∈ as_slice d → (l <= h)%N.

Lemma elem_of_levels d l : l ∈ levels d ↔ l ∈ as_slice d.
Proof. unfold levels. by rewrite elem_of_list_to_set. Qed.

Section binary_search.
Context `{OrdLaws A}.

Lemma binary_search_inl (l : list A) x i : binary_search l x = inl i → l !! i = Some x.
Proof.
  revert i. induction l as [|y l IH]; intros i; simpl; [done|].
  destruct (compare y x) eqn:E; [|destruct (binary_search l x)|]; try done.
  - intros [= <-]. apply compare_eq in E as ->. done.
  - intros [= <-]. by apply IH.
Qed.

Lemma binary_search_inr (l : list A) x i :
  StronglySorted ord_lt l → binary_search l x = inr i →
  (i ≤ length l)%nat ∧ Forall (λ y, ord_lt y x) (take i l) ∧ Forall (ord_lt x) (drop i l).
Proof.
  intros Hl. revert i. induction Hl as [|y l Hl IH Hy]; intros i; simpl.
  { intros [= <-]. repeat constructor. }
  destruct (compare y x) eqn:E; [done| |].
  - destruct (binary_search l x) as [|j]; [done|]. intros [= <-]; simpl.
    destruct (IH j eq_refl) as (? & ? & ?). split_and!; [lia|constructor; done|done].
  - intros [= <-]; simpl. assert (ord_lt x y) as Hxy.
    { apply ord_not_le. unfold ord_le. rewrite E. auto. }
    split_and!; [lia|constructor|]. constructor; [done|].
    eapply Forall_impl; [done|]. intros z Hz. by transitivity y.
Qed.

Lemma binary_search_elem_of (l : list A) x :
  StronglySorted ord_lt l → (∃ i, binary_search l x = inl i) ↔ x ∈ l.
Proof.
  intros Hl. split.
  - intros [i Hi%binary_search_inl]. by eapply list_elem_of_lookup_2.
  - intros Hx. destruct (binary_search l x) as [i|i] eqn:E; [by eexists|].
    apply binary_search_inr in E as (_ & Ht & Hd); [|done].
    rewrite <-(take_drop i l) in Hx. rewrite Forall_forall in Ht, Hd.
    apply elem_of_app in Hx as [Hx|Hx];
      [apply Ht in Hx|apply Hd in Hx]; by apply ord_lt_irrefl in Hx.
Qed.
End binary_search.

(** ** Lemmas on dependency sets *)

Section dependency.
Implicit Types d e : DependencySet.

Lemma StronglySorted_app_iff (l k : list N) :
  StronglySorted ord_lt (l ++ k) ↔
  StronglySorted ord_lt l ∧ StronglySorted ord_lt k ∧ ∀ x y, x ∈ l → y ∈ k → ord_lt x y.
Proof.
  induction l as [|z l IH]; simpl.
  { split; [|naive_solver]. intros ?. split_and!; [constructor|done|]. set_solver. }
  split.
  - intros [Hlk Hz]%StronglySorted_inv. apply IH in Hlk as (Hl & Hk & Hlk).
    apply Forall_app in Hz as [Hzl Hzk]. rewrite Forall_forall in Hzk.
    split_and!; [by constructor|done|]. intros x y [->|Hx]%elem_of_cons Hy; auto.
  - intros ([Hl Hz]%StronglySorted_inv & Hk & Hlk). constructor.
    + apply IH. split_and!; [done..|]. intros. apply Hlk; set_solver.
    + apply Forall_app. split; [done|]. apply Forall_forall. intros. apply Hlk; set_solver.
Qed.

Lemma canonical_empty : canonical Dep.empty.
Proof. constructor. Qed.

Lemma canonical_union ds : canonical (Dep.union ds).
Proof. apply dedup_sort_sorted. Qed.

Lemma elem_of_union_dep ds l : l ∈ as_slice (Dep.union ds) ↔ ∃ d, d ∈ ds ∧ l ∈ as_slice d.
Proof.
  unfold Dep.union; simpl. rewrite elem_of_dedup_sort, list_elem_of_join. split.
  - intros (v & Hl & (d & -> & Hd)%list_elem_of_fmap). eauto.
  - intros (d & Hd & Hl). exists (as_slice d). split; [done|]. apply list_elem_of_fmap. eauto.
Qed.

Lemma canonical_add d l : canonical d → canonical (Dep.add d l).
Proof.
  intros Hd. unfold Dep.add. destruct (binary_search (as_slice d) l) as [i|i] eqn:E; [done|].
  apply binary_search_inr in E as (Hi & Ht & Hr); [|done]. unfold canonical, Dep.vec_insert in *; simpl.
  rewrite <-(take_drop i (as_slice d)) in Hd. apply StronglySorted_app_iff in Hd as (? & ? & Htr).
  rewrite Forall_forall in Ht. apply StronglySorted_app_iff. split_and!; [done|by constructor|].
  intros x y Hx [->|Hy]%elem_of_cons; auto.
Qed.

Lemma elem_of_add d l x : x ∈ as_slice (Dep.add d l) ↔ x = l ∨ x ∈ as_slice d.
Proof.
  unfold Dep.add. destruct (binary_search (as_slice d) l) as [i|i] eqn:E; simpl.
  - apply binary_search_inl in E. split; [by right|]. intros [->|]; [|done].
    by eapply list_elem_of_lookup_2.
  - unfold Dep.vec_insert. rewrite <-(take_drop i (as_slice d)) at 3. set_solver.
Qed.

Lemma canonical_without d l : canonical d → canonical (Dep.without d l).
Proof.
  intros Hd. unfold Dep.without. destruct (binary_search (as_slice d) l) as [i|i] eqn:E; [|done].
  unfold canonical, Dep.vec_remove in *; simpl. apply binary_search_inl in E.
  rewrite <-(take_drop_middle _ _ _ E) in Hd.
  apply StronglySorted_app_iff in Hd as (? & Hr & Htr). apply StronglySorted_inv in Hr as [? ?].
  apply StronglySorted_app_iff. split_and!; [done..|]. intros. apply Htr; set_solver.
Qed.

Lemma elem_of_without d l x :
  canonical d → x ∈ as_slice (Dep.without d l) ↔ x ≠ l ∧ x ∈ as_slice d.
Proof.
  intros Hd. unfold Dep.without. destruct (binary_search (as_slice d) l) as [i|i] eqn:E; simpl.
  - apply binary_search_inl in E. unfold Dep.vec_remove.
    apply StronglySorted_lt_NoDup in Hd. rewrite <-(take_drop_middle _ _ _ E) in Hd.
    rewrite <-(take_drop_middle _ _ _ E) at 3.
    apply NoDup_app in Hd as (_ & Hd & Hr). apply NoDup_cons in Hr as [Hr _]. set_solver.
  - split; [|naive_solver]. intros Hx. split; [|done]. intros ->.
    apply (binary_search_elem_of _ _ Hd) in Hx as [j Hj]. by rewrite E in Hj.
Qed.

Lemma is_subset_of_spec d e :
  canonical e → Dep.is_subset_of d e = true ↔ ∀ l, l ∈ as_slice d → l ∈ as_slice e.
Proof.
  intros He. unfold Dep.is_subset_of. rewrite <-Is_true_true, forallb_True, Forall_forall.
  apply forall_proper. intros l. rewrite <-(binary_search_elem_of _ _ He).
  destruct (binary_search (as_slice e) l); naive_solver.
Qed.

Lemma canonical_maximum d l :
  canonical d → Dep.maximum d = Some l ↔ l ∈ as_slice d ∧ ∀ x, x ∈ as_slice d → (x <= l)%N.
Proof.
  unfold canonical, Dep.maximum. intros Hd. split.
  - intros Hl. apply last_Some in Hl as [k Hk]. rewrite Hk in *.
    apply StronglySorted_app_iff in Hd as (_ & _ & Hk'). split; [set_solver|].
    intros x [Hx| ->%list_elem_of_singleton]%elem_of_app; [|lia].
    specialize (Hk' x l Hx ltac:(set_solver)). rewrite ord_lt_N in Hk'. lia.
  - intros [Hl Hmax]. destruct (last (as_slice d)) as [y|] eqn:E.
    + f_equal. apply last_Some in E as [k Hk]. rewrite Hk in *.
      apply StronglySorted_app_iff in Hd as (_ & _ & Hk').
      apply elem_of_app in Hl as [Hl| ->%list_elem_of_singleton]; [|done].
      specialize (Hk' l y Hl ltac:(set_solver)). rewrite ord_lt_N in Hk'.
      specialize (Hmax y ltac:(set_solver)). lia.
    + apply last_None in E. rewrite E in Hl. set_solver.
Qed.

Lemma maximum_None d : Dep.maximum d = None ↔ as_slice d = [].
Proof. apply last_None. Qed.

(** Two canonical vectors with the same levels are the same vector. *)
Lemma canonical_ext d e :
  canonical d → canonical e → (∀ l, l ∈ as_slice d ↔ l ∈ as_slice e) → d = e.
Proof.
  destruct d as [d], e as [e]. unfold canonical; simpl. intros Hd He Hde.
  f_equal. by apply StronglySorted_lt_unique.
Qed.

Lemma dep_bounded_maximum h d :
  canonical d → dep_bounded h d ↔ ∀ m, Dep.maximum d = Some m → (m <= h)%N.
Proof.
  intros Hd. split.
  - intros Hb m [Hm _]%canonical_maximum; auto.
  - intros Hb l Hl. destruct (Dep.maximum d) as [m|] eqn:E.
    + specialize (Hb m eq_refl). apply canonical_maximum in E as [_ Hm]; [|done].
      specialize (Hm l Hl). lia.
    + apply maximum_None in E. rewrite E in Hl. set_solver.
Qed.

Lemma dep_bounded_union h ds : (∀ d, d ∈ ds → dep_bounded h d) → dep_bounded h (Dep.union ds).
Proof. intros Hds l (d & Hd & Hl)%elem_of_union_dep. by apply (Hds d). Qed.

Lemma dep_bounded_maximum_le h d m : dep_bounded h d → Dep.maximum d = Some m → (m <= h)%N.
Proof.
  intros Hd Hm. apply Hd. unfold Dep.maximum in Hm. apply last_Some in Hm as [k ->]. set_solver.
Qed.

Lemma dep_bounded_mono h h' d : (h <= h')%N → dep_bounded h d → dep_bounded h' d.
Proof. intros ? Hd l Hl. specialize (Hd l Hl). lia. Qed.
End dependency.

Section bits_order.
#[local] Instance bits_key_inj : Inj (=) (=) (λ d, reverse (as_slice d)).
Proof. intros d e E. apply (inj as_slice). by apply (inj reverse). Qed.

#[local] Existing Instance compare_by_laws.

#[global] Instance dependency_bits_le_trans : Transitive dependency_bits_le.
Proof. intros d e f. apply (ord_le_trans (A:=list N)). Qed.

#[global] Instance dependency_bits_le_total : Total dependency_bits_le.
Proof. intros d e. apply (ord_le_total (A:=list N)). Qed.

#[global] Instance dependency_bits_le_antisymm : AntiSymm (=) dependency_bits_le.
Proof.
  intros d e Hde Hed. apply bits_key_inj. by apply (ord_le_antisymm (A:=list N)).
Qed.

Lemma sort_dependencies_Permutation ds : sort_dependencies ds ≡ₚ ds.
Proof. apply merge_sort_Permutation. Qed.

Lemma sort_dependencies_sorted ds : StronglySorted dependency_bits_le (sort_dependencies ds).
Proof. apply StronglySorted_merge_sort; apply _. Qed.

Lemma sort_dependencies_id ds :
  StronglySorted dependency_bits_le ds ↔ sort_dependencies ds = ds.
Proof.
  split; [|intros <-; apply sort_dependencies_sorted]. intros Hds.
  apply (StronglySorted_unique dependency_bits_le);
    [apply sort_dependencies_sorted|done|apply sort_dependencies_Permutation].
Qed.

Lemma sort_dependencies_idemp ds :
  sort_dependencies (sort_dependencies ds) = sort_dependencies ds.
Proof. apply sort_dependencies_id, sort_dependencies_sorted. Qed.
End bits_order.

#[export] Hint Resolve canonical_empty canonical_union canonical_add canonical_without : dep.
