(* ===== verification/Queue.v ===== *)
(** * Stable priority queues (native/src/store/state.rs, [StableQueue])

    A queue keeps its entries by priority and, separately, the set of values
    it holds, so that a value is never scheduled twice.  Priorities are vectors
    of [i64] compared lexicographically. *)

From S2P Require Import Prelude Order Errors Model.

Inductive QueueValue :=
| Integer (n : N)
| QNode (h : NodeHandle).

#[global] Instance QueueValue_eq_dec : EqDecision QueueValue.
Proof. solve_decision. Defined.

#[global] Instance QueueValue_countable : Countable QueueValue.
Proof.
  apply (inj_countable'
    (λ v, match v with Integer n => inl n | QNode h => inr h end)
    (λ s, match s with inl n => Integer n | inr h => QNode h end)). by intros [].
Defined.

Record StableQueue := mkQueue {
  entries : gmap (list Z) QueueValue;
  members : gset QueueValue
}.

#[global] Instance StableQueue_eta : Eta StableQueue := λ q, mkQueue (entries q) (members q).

#[global] Instance StableQueue_eq_dec : EqDecision StableQueue.
Proof. solve_decision. Defined.

Module Queue.

Definition default : StableQueue := mkQueue ∅ ∅.

Definition enqueue (value : QueueValue) (priority : list Z) : st StableQueue NativeError bool :=
  q ← gets id;
  if bool_decide (value ∈ members q) then mret false
  else
    _ ← lift (reject_if (bool_decide (is_Some (entries q !! priority)))
      (NativeErr.wire "queue priorities must uniquely include a stable identifier"));
    _ ← modify (λ q, q <| members ::= union {[value]} |>);
    _ ← modify (λ q, q <| entries ::= <[priority := value]> |>);
    mret true.

Definition pop (q : StableQueue) : option (QueueValue * StableQueue) :=
  match btree_keys (entries q) with
  | [] => None
  | priority :: _ =>
      match entries q !! priority with
      | None => None
      | Some value => Some (value, mkQueue (delete priority (entries q)) (members q ∖ {[value]}))
      end
  end.

Definition values (q : StableQueue) : list QueueValue := btree_values (entries q).

Definition check_invariants (q : StableQueue) : NativeResult unit :=
  let vs : gset QueueValue := list_to_set (values q) in
  reject_if (negb (bool_decide (size vs = size (entries q))) || negb (bool_decide (vs = members q)))
    (NativeErr.invariant "queue priorities and membership are inconsistent").

End Queue.

(** ** Well-formed queues *)

(** A value sits at one priority, and [members] is the set of queued values. *)
Record queue_ok (q : StableQueue) : Prop := {
  queue_values_inj p p' v : entries q !! p = Some v → entries q !! p' = Some v → p = p';
  queue_members v : v ∈ members q ↔ ∃ p, entries q !! p = Some v
}.

(** The values of the queue in the order of their priorities. *)
Definition queue_order (q : StableQueue) : list QueueValue := Queue.values q.

(** Popping until the queue is empty, with one unit of fuel per entry. *)
Fixpoint drain (fuel : nat) (q : StableQueue) : list QueueValue * StableQueue :=
  match fuel with
  | O => ([], q)
  | S fuel =>
      match Queue.pop q with
      | None => ([], q)
      | Some (v, q') => let '(vs, q'') := drain fuel q' in (v :: vs, q'')
      end
  end.

Section queue.
Implicit Types q : StableQueue.

Lemma queue_ok_default : queue_ok Queue.default.
Proof. split; simpl; set_solver. Qed.

Lemma pop_None q : Queue.pop q = None ↔ entries q = ∅.
Proof.
  unfold Queue.pop. destruct (btree_keys (entries q)) as [|p l] eqn:E.
  - split; [|done]. intros _. apply btree_elements_nil, dom_empty_iff_L in E. done.
  - assert (is_Some (entries q !! p)) as [v Hv].
    { apply elem_of_btree_keys. rewrite E. by left. }
    rewrite Hv. split; [done|]. intros Hq. by rewrite Hq in Hv.
Qed.

(** [pop] takes the entry with the least priority. *)
Lemma pop_Some q v q' :
  Queue.pop q = Some (v, q') →
  ∃ p, entries q !! p = Some v ∧ (∀ p', is_Some (entries q !! p') → ord_le p p') ∧
    btree_keys (entries q) = p :: btree_keys (entries q') ∧
    entries q' = delete p (entries q) ∧ members q' = members q ∖ {[v]}.
Proof.
  unfold Queue.pop. destruct (btree_keys (entries q)) as [|p l] eqn:E; [done|].
  destruct (entries q !! p) as [w|] eqn:Hp; [|done]. intros [= -> <-].
  pose proof (btree_elements_sorted (dom (entries q))) as Hs.
  change (btree_elements (dom (entries q))) with (btree_keys (entries q)) in Hs. rewrite E in Hs.
  apply StronglySorted_inv in Hs as [Hs Hl]. rewrite Forall_forall in Hl.
  exists p. split_and!; [done| | |done|done].
  - intros p' Hp'%elem_of_btree_keys. rewrite E in Hp'.
    apply elem_of_cons in Hp' as [->|Hp']; [done|]. apply ord_le_lt_eq. left. by apply Hl.
  - f_equal. symmetry. apply btree_elements_unique; [done|]. intros p'.
    simpl. rewrite dom_delete_L, elem_of_difference, elem_of_singleton, elem_of_dom.
    rewrite <-elem_of_btree_keys, E, elem_of_cons. split; [|naive_solver].
    intros Hp'. split; [by right|]. intros ->. by apply Hl, ord_lt_irrefl in Hp'.
Qed.

Lemma pop_ok q v q' : queue_ok q → Queue.pop q = Some (v, q') → queue_ok q'.
Proof.
  intros [Hinj Hmem] (p & Hp & _ & _ & He & Hm)%pop_Some. split.
  - intros p1 p2 w. rewrite He, !lookup_delete_Some. naive_solver.
  - intros w. rewrite Hm, He, elem_of_difference, elem_of_singleton, Hmem.
    setoid_rewrite lookup_delete_Some. split.
    + intros [[p' Hp'] Hne]. exists p'. split; [|done]. intros ->. naive_solver.
    + intros (p' & Hpp' & Hp'). split; [by eexists|]. intros ->. by apply Hpp', (Hinj _ _ v).
Qed.

Lemma pop_order q v q' :
  Queue.pop q = Some (v, q') → queue_order q = v :: queue_order q'.
Proof.
  intros (p & Hp & _ & Hk & He & _)%pop_Some. unfold queue_order, Queue.values, btree_values, btree_entries.
  rewrite Hk. simpl. rewrite Hp. simpl. f_equal. f_equal.
  apply list_omap_ext. apply Forall2_same_length_lookup_2; [done|].
  intros i k1 k2 H1 H2. assert (k1 = k2) as -> by congruence.
  apply list_elem_of_lookup_2 in H1. apply elem_of_btree_keys in H1.
  rewrite He in H1 |- *. destruct H1 as [w [Hne Hw]%lookup_delete_Some].
  by rewrite lookup_delete_ne.
Qed.

Lemma pop_size q v q' : Queue.pop q = Some (v, q') → size (entries q) = S (size (entries q')).
Proof.
  intros (p & Hp & _ & _ & -> & _)%pop_Some. rewrite map_size_delete_Some by by eexists.
  assert (size (entries q) ≠ 0%nat); [|lia].
  apply map_size_non_empty_iff. intros E. by rewrite E in Hp.
Qed.

Lemma enqueue_cases q v p :
  Queue.enqueue v p q =
    if bool_decide (v ∈ members q) then (Ok false, q)
    else if bool_decide (is_Some (entries q !! p))
    then (Err (NativeErr.wire "queue priorities must uniquely include a stable identifier"), q)
    else (Ok true, mkQueue (<[p := v]> (entries q)) ({[v]} ∪ members q)).
Proof.
  unfold Queue.enqueue, mbind, st_bind, gets, id, mret, st_ret, lift, reject_if, modify.
  destruct (bool_decide (v ∈ members q)); [done|].
  by destruct (bool_decide (is_Some (entries q !! p))).
Qed.

Lemma enqueue_ok q v p r q' : queue_ok q → Queue.enqueue v p q = (r, q') → queue_ok q'.
Proof.
  intros [Hinj Hmem]. rewrite enqueue_cases. case_bool_decide as Hv; [intros [= <- <-]; done|].
  case_bool_decide as Hp; [intros [= <- <-]; done|]. intros [= <- <-].
  apply eq_None_not_Some in Hp. rewrite Hmem in Hv. split; simpl.
  - intros p1 p2 w. rewrite !lookup_insert_Some. naive_solver.
  - intros w. rewrite elem_of_union, elem_of_singleton, Hmem. setoid_rewrite lookup_insert_Some.
    split; [|naive_solver]. intros [->|[p' Hp']]; [by eauto|]. exists p'. right. naive_solver.
Qed.

Lemma queue_check_spec q : Queue.check_invariants q = Ok tt ↔ queue_ok q.
Proof.
  unfold Queue.check_invariants, reject_if.
  assert (∀ v, v ∈ (list_to_set (Queue.values q) : gset QueueValue) ↔ ∃ p, entries q !! p = Some v) as Hv.
  { intros v. rewrite elem_of_list_to_set. apply elem_of_btree_values. }
  assert (size (list_to_set (Queue.values q) : gset QueueValue) = size (entries q) ↔
    ∀ p p' v, entries q !! p = Some v → entries q !! p' = Some v → p = p') as Hsz.
  { rewrite <-NoDup_btree_values, <-size_list_to_set_NoDup. unfold Queue.values.
    by rewrite length_btree_values. }
  case_bool_decide as Hlen; [case_bool_decide as Hmem|]; simpl; split; try done.
  - intros _. split; [by apply Hsz|]. intros v. by rewrite <-Hmem, Hv.
  - intros [_ Hm]. destruct Hmem. apply set_eq. intros v. by rewrite Hv, Hm.
  - intros [Hi _]. destruct Hlen. by apply Hsz.
Qed.

(** Draining a queue yields its values by ascending priority. *)
Lemma drain_order q fuel :
  (size (entries q) ≤ fuel)%nat →
  drain fuel q = (queue_order q, snd (drain fuel q)) ∧ entries (drain fuel q).2 = ∅.
Proof.
  revert q. induction fuel as [|fuel IH]; intros q Hq; simpl.
  - assert (entries q = ∅) as E by (apply map_size_empty_iff; lia).
    split; [|done]. unfold queue_order, Queue.values, btree_values, btree_entries, btree_keys.
    by rewrite E, dom_empty_L, btree_elements_empty.
  - destruct (Queue.pop q) as [[v q']|] eqn:E.
    + destruct (IH q') as [Hd He]; [apply pop_size in E; lia|].
      destruct (drain fuel q') as [vs q'']; simpl in *. injection Hd as ->.
      by rewrite (pop_order _ _ _ E).
    + apply pop_None in E. simpl. split; [|done].
      unfold queue_order, Queue.values, btree_values, btree_entries, btree_keys.
      by rewrite E, dom_empty_L, btree_elements_empty.
Qed.
End queue.

#[export] Hint Resolve queue_ok_default pop_ok enqueue_ok : tableau.
