(* ===== verification/Store.v ===== *)
(** * Data of the tableau store (native/src/store/state.rs)

    The node arena with its generation table and free list, the fact rows with
    their four indexes, the queues, the branch stack with its snapshots, and
    the kernel that owns them.  Fields keep the names of the Rust structs,
    with a one-letter prefix where two structs share a name. *)

From S2P Require Import Prelude Order Errors Model Queue.

Record Node := mkNode {
  n_handle : NodeHandle;
  n_creation_id : N;
  n_kind : NodeKind;
  n_sort : NodeSort;
  n_lifecycle : NodeLifecycle;
  n_parent : option NodeHandle;
  n_tree_depth : N;
  n_creation_checkpoint : N;
  n_is_owl_named_individual : bool;
  n_source_individual_id : option N;
  n_representative : option NodeHandle;
  n_merge_dependency : DependencySet;
  n_blocker : option NodeHandle;
  n_directly_blocked : bool;
  n_blocking_generation : N;
  n_unprocessed_existentials : gset N;
  n_nominal_level : option N;
  n_cardinality_tag : option N
}.

#[global] Instance Node_eta : Eta Node := λ n,
  mkNode (n_handle n) (n_creation_id n) (n_kind n) (n_sort n) (n_lifecycle n) (n_parent n)
    (n_tree_depth n) (n_creation_checkpoint n) (n_is_owl_named_individual n)
    (n_source_individual_id n) (n_representative n) (n_merge_dependency n) (n_blocker n)
    (n_directly_blocked n) (n_blocking_generation n) (n_unprocessed_existentials n)
    (n_nominal_level n) (n_cardinality_tag n).

#[global] Instance Node_eq_dec : EqDecision Node.
Proof. solve_decision. Defined.

Record FactKey := mkFactKey { predicate_id : N; arguments : list NodeHandle }.

#[global] Instance FactKey_eq_dec : EqDecision FactKey.
Proof. solve_decision. Defined.

#[global] Instance FactKey_countable : Countable FactKey.
Proof.
  apply (inj_countable' (λ k, (predicate_id k, arguments k)) (λ p, mkFactKey p.1 p.2)). by intros [].
Defined.

Record FactRow := mkFactRow {
  row_id : N;
  row_key : FactKey;
  supports : list DependencySet;
  core : bool;
  active : bool;
  derivation_generation : N;
  provenance_ids : gset N
}.

#[global] Instance FactRow_eta : Eta FactRow := λ r,
  mkFactRow (row_id r) (row_key r) (supports r) (core r) (active r) (derivation_generation r)
    (provenance_ids r).

#[global] Instance FactRow_eq_dec : EqDecision FactRow.
Proof. solve_decision. Defined.

Record FactAddOutcome := mkFactAddOutcome {
  out_row_id : N;
  out_created : bool;
  out_support_changed : bool
}.

Record GroundDisjunction := mkGroundDisjunction {
  disjunction_id : N;
  disjunct_ids : list N;
  d_base_dependency : DependencySet;
  d_creation_checkpoint : N;
  d_active : bool;
  d_processed : bool
}.

#[global] Instance GroundDisjunction_eta : Eta GroundDisjunction := λ d,
  mkGroundDisjunction (disjunction_id d) (disjunct_ids d) (d_base_dependency d)
    (d_creation_checkpoint d) (d_active d) (d_processed d).

#[global] Instance GroundDisjunction_eq_dec : EqDecision GroundDisjunction.
Proof. solve_decision. Defined.

Record Clash := mkClash {
  clash_kind : string;
  clash_dependency : DependencySet;
  clash_participants : list N;
  clash_provenance_id : option N
}.

#[global] Instance Clash_eq_dec : EqDecision Clash.
Proof. solve_decision. Defined.

Record ExistentialReuseRecord := mkReuseRecord {
  reuse_root : NodeHandle;
  reuse_predicate_id : N;
  reuse_supports : list DependencySet
}.

#[global] Instance ExistentialReuseRecord_eq_dec : EqDecision ExistentialReuseRecord.
Proof. solve_decision. Defined.

Record MutableState := mkState {
  nodes : list (option Node);
  generations : list N;
  free_slots : gset N;
  next_creation_id : N;
  facts : list FactRow;
  facts_by_key : gmap FactKey N;
  facts_by_node : gmap NodeHandle (gset N);
  facts_by_predicate : gmap N (gset N);
  facts_by_position : gmap (N * N * NodeHandle) (gset N);
  read_generation : N;
  write_generation : N;
  disjunctions : list GroundDisjunction;
  current_clash : option Clash;
  delta_rows : StableQueue;
  annotated_equalities : StableQueue;
  existential_candidates : StableQueue;
  disjunction_queue : StableQueue;
  datatype_components : StableQueue;
  blocking_invalidations : StableQueue;
  existential_reuse_nodes : gmap N NodeHandle;
  existential_reuse_disabled : gset N;
  existential_reuse_branches : gmap N ExistentialReuseRecord
}.

#[global] Instance MutableState_eta : Eta MutableState := λ s,
  mkState (nodes s) (generations s) (free_slots s) (next_creation_id s) (facts s)
    (facts_by_key s) (facts_by_node s) (facts_by_predicate s) (facts_by_position s)
    (read_generation s) (write_generation s) (disjunctions s) (current_clash s)
    (delta_rows s) (annotated_equalities s) (existential_candidates s) (disjunction_queue s)
    (datatype_components s) (blocking_invalidations s) (existential_reuse_nodes s)
    (existential_reuse_disabled s) (existential_reuse_branches s).

#[global] Instance MutableState_eq_dec : EqDecision MutableState.
Proof. solve_decision. Defined.

(** [MutableState::new]. *)
Definition MutableState_new : MutableState :=
  mkState [] [] ∅ 0 [] ∅ ∅ ∅ ∅ 0 0 [] None
    Queue.default Queue.default Queue.default Queue.default Queue.default Queue.default
    ∅ ∅ ∅.

Record StateCheckpoint := mkCheckpoint {
  cp_state : MutableState;
  cp_trail_length : N
}.

Record CheckpointMeta := mkCheckpointMeta {
  meta_sequence : N;
  meta_trail_length : N;
  meta_label : string
}.

Record Branch := mkBranch {
  level : N;
  choice_kind : string;
  checkpoint : CheckpointMeta;
  b_snapshot : StateCheckpoint;
  alternatives : list N;
  source_id : N;
  base_dependency : DependencySet;
  initial_base_dependency : DependencySet;
  next_alternative : nat;
  learned_dependency : DependencySet
}.

#[global] Instance Branch_eta : Eta Branch := λ b,
  mkBranch (level b) (choice_kind b) (checkpoint b) (b_snapshot b) (alternatives b)
    (source_id b) (base_dependency b) (initial_base_dependency b) (next_alternative b)
    (learned_dependency b).

Record TableauKernel := mkKernel {
  state : MutableState;
  branches : list Branch;
  operation_root : StateCheckpoint;
  trail_length : N;
  checkpoint_sequence : N
}.

#[global] Instance TableauKernel_eta : Eta TableauKernel := λ k,
  mkKernel (state k) (branches k) (operation_root k) (trail_length k) (checkpoint_sequence k).

(** [TableauKernel::new]. *)
Definition TableauKernel_new : TableauKernel :=
  mkKernel MutableState_new [] (mkCheckpoint MutableState_new 0) 0 1.

(** ** Pure helpers of the store *)

(** [iter().enumerate()]. *)
Definition enumerate {A} (l : list A) : list (nat * A) := imap pair l.

(** The live nodes of the arena, in slot order. *)
Definition live_nodes (s : MutableState) : list Node := omap id (nodes s).

(** The slots without a node, as both [restore] and [check_invariants] collect them. *)
Definition vacant_slots (ns : list (option Node)) : gset N :=
  list_to_set (omap (λ '(i, n), match n with None => u32_try_from i | Some _ => None end)
    (enumerate ns)).

(** [entry(key).or_default().insert(row)] on an index of rows. *)
Definition index_insert `{Countable K} (key : K) (row : N) (m : gmap K (gset N)) : gmap K (gset N) :=
  partial_alter (λ o, Some ({[row]} ∪ default ∅ o)) key m.

(** Removing a row from an index; an emptied entry disappears. *)
Definition index_remove `{Countable K} (key : K) (row : N) (m : gmap K (gset N)) : gmap K (gset N) :=
  partial_alter (λ o, o ≫= λ rows,
    let rows' := rows ∖ {[row]} in if bool_decide (rows' = ∅) then None else Some rows') key m.

(** [FactRow::minimal_dependency]. *)
Definition minimal_dependency (row : FactRow) : NativeResult DependencySet :=
  ok_or (min_by (λ l r, compare (dependency_rank l) (dependency_rank r)) (supports row))
    (NativeErr.invariant "active fact row has no support").

Definition merge_rank (n : Node) : N * N * N :=
  let kind := if n_is_owl_named_individual n then 0 else
    match n_kind n with Ni => 1 | Root => 2 | Tree => 3 | Concrete => 4 end in
  (kind, default (2 ^ 31) (n_nominal_level n), n_creation_id n).

Definition ClashRank : Type := nat * option N * list N * string * list N * option N.

Definition clash_rank (c : Clash) : ClashRank :=
  (length (as_slice (clash_dependency c)), Dep.maximum (clash_dependency c),
   reverse (as_slice (clash_dependency c)), clash_kind c, clash_participants c,
   clash_provenance_id c).

Definition select_clash (current candidate : Clash) : Clash :=
  if Dep.is_subset_of (clash_dependency current) (clash_dependency candidate) then current
  else if Dep.is_subset_of (clash_dependency candidate) (clash_dependency current) then candidate
  else if bool_decide (ord_le (clash_rank current) (clash_rank candidate)) then current
  else candidate.

Definition is_clash_kind (value : string) : bool :=
  bool_decide (value ∈ ["bottom"; "empty_head"; "positive_negative_atom"; "equality_inequality";
    "irreflexive_role"; "asymmetric_role"; "disjoint_roles"; "impossible_cardinality";
    "datatype_unsatisfiable"]).

Definition is_unique (values : list N) : bool :=
  bool_decide (size (list_to_set values : gset N) = length values).

#[global] Arguments vacant_slots : simpl never.
#[global] Arguments live_nodes : simpl never.
#[global] Arguments enumerate : simpl never.
#[global] Arguments index_insert : simpl never.
#[global] Arguments index_remove : simpl never.
