(* ===== verification/Kernel.v ===== *)
(** * Operations of the tableau kernel (native/src/store/state.rs)

    One definition per method of [TableauKernel], in the state-passing style of
    [Prelude]: [&self] methods are functions of the kernel, [&mut self] methods
    are computations whose state survives an error.  [check_invariants] is the
    executable audit that [backtrack_to], [advance_branch] and
    [reset_to_operation_root] run. *)

From stdpp Require Import pretty.
From S2P Require Import Prelude Order Errors Model Queue Store.

Import NativeErr.

Abbreviation K A := (st TableauKernel NativeError A).

Module Kernel.

(** ** Elementary access *)

(** An assignment inside [self.state]. *)
Definition upd (f : MutableState → MutableState) : K unit :=
  modify (λ k : TableauKernel, k <| state ::= f |>).

Definition record_mutation : K unit :=
  k ← gets id;
  n ← lift (ok_or (checked_add u64_max (trail_length k) 1) (invariant "trail length overflow"));
  modify (λ k : TableauKernel, k <| trail_length := n |>).

Definition bump_sequence : K unit :=
  k ← gets id;
  n ← lift (ok_or (checked_add u64_max (checkpoint_sequence k) 1)
    (invariant "checkpoint sequence overflow"));
  modify (λ k : TableauKernel, k <| checkpoint_sequence := n |>).

Definition snapshot (k : TableauKernel) : StateCheckpoint :=
  mkCheckpoint (state k) (trail_length k).

(** [vec.resize(length, value)] when [length] is at least the current length. *)
Definition resize_up {A} (l : list A) (n : nat) (x : A) : list A :=
  l ++ replicate (n - length l) x.

(** [generations[i] = generations[i].max(current[i])] for every index. *)
Fixpoint max_generations (old current : list N) : list N :=
  match old, current with
  | g :: old, c :: current => N.max g c :: max_generations old current
  | old, [] => old
  | [], current => current
  end.

Definition restore_state (current : list N) (s : MutableState) : MutableState :=
  let length := Nat.max (length (generations s)) (length current) in
  let gens := max_generations (resize_up (generations s) length 0) current in
  let ns := resize_up (nodes s) length None in
  s <| generations := gens |> <| nodes := ns |> <| free_slots := vacant_slots ns |>.

Definition restore (snap : StateCheckpoint) (k : TableauKernel) : TableauKernel :=
  k <| state := restore_state (generations (state k)) (cp_state snap) |>
    <| trail_length := cp_trail_length snap |>.

Definition highest_branch_level (k : TableauKernel) : option N := level <$> last (branches k).

Definition validate_dependency (d : DependencySet) (k : TableauKernel) : NativeResult unit :=
  reject_if
    (match Dep.maximum d with
     | None => false
     | Some maximum =>
         match highest_branch_level k with
         | None => true
         | Some highest => (highest <? maximum)%N
         end
     end)
    (wire "dependency references a future branch level").

Definition node_index (h : NodeHandle) (k : TableauKernel) : NativeResult nat :=
  let index := N.to_nat (slot h) in
  match nodes (state k) !! index with
  | Some (Some node) =>
      if negb (bool_decide (generation (n_handle node) = generation h))
         || bool_decide (n_lifecycle node = Retired)
      then Err (wire "stale native node handle")
      else Ok index
  | _ => Err (wire "stale native node handle")
  end.

Definition require_node (h : NodeHandle) (k : TableauKernel) : NativeResult Node :=
  index ← node_index h k;
  o ← index_or_crash (nodes (state k)) index;
  ok_or o (invariant "validated node slot is empty").

Definition require_active (h : NodeHandle) (k : TableauKernel) : NativeResult Node :=
  node ← require_node h k;
  if bool_decide (n_lifecycle node = Active) then Ok node else Err (wire "node is not active").

(** The [while let] loop of [representative]; every turn marks one more node of
    the arena as seen, so [length nodes + 1] turns are enough. *)
Fixpoint representative_loop (fuel : nat) (k : TableauKernel) (node : Node)
    (dependencies : list DependencySet) (seen : gset NodeHandle) :
    NativeResult (NodeHandle * list DependencySet) :=
  match fuel with
  | O => Crash
  | S fuel =>
      match n_representative node with
      | None => Ok (n_handle node, dependencies)
      | Some representative =>
          if bool_decide (n_handle node ∈ seen)
          then Err (invariant "cycle in node representative relation")
          else
            next ← require_node representative k;
            representative_loop fuel k next (dependencies ++ [n_merge_dependency node])
              ({[n_handle node]} ∪ seen)
      end
  end.

Definition representative (h : NodeHandle) (k : TableauKernel) :
    NativeResult (NodeHandle * DependencySet) :=
  node ← require_node h k;
  r ← representative_loop (S (length (nodes (state k)))) k node [] ∅;
  Ok (r.1, Dep.union r.2).

Definition canonical_handle (h : NodeHandle) (k : TableauKernel) :
    NativeResult (NodeHandle * DependencySet) :=
  result ← representative h k;
  _ ← require_active result.1 k;
  Ok result.

(** The [while let] loop of [has_ancestor], with the same bound. *)
Fixpoint has_ancestor_loop (fuel : nat) (k : TableauKernel) (parent : option NodeHandle)
    (ancestor : NodeHandle) (seen : gset NodeHandle) : NativeResult bool :=
  match fuel with
  | O => Crash
  | S fuel =>
      match parent with
      | None => Ok false
      | Some value =>
          if bool_decide (value = ancestor) then Ok true
          else if bool_decide (value ∈ seen)
          then Err (invariant "cycle in tree parent relation")
          else
            node ← require_node value k;
            has_ancestor_loop fuel k (n_parent node) ancestor ({[value]} ∪ seen)
      end
  end.

Definition has_ancestor (node : Node) (ancestor : NodeHandle) (k : TableauKernel) :
    NativeResult bool :=
  has_ancestor_loop (S (length (nodes (state k)))) k (n_parent node) ancestor ∅.

Definition fact (row : N) (k : TableauKernel) : NativeResult FactRow :=
  ok_or (facts (state k) !! N.to_nat row) (wire "fact row ID is unavailable").

Definition merge_direction (left right : Node) (k : TableauKernel) : NativeResult (Node * Node) :=
  has_ancestor left (n_handle right) k ≫= λ below_right : bool,
  if below_right then Ok (right, left)
  else
    has_ancestor right (n_handle left) k ≫= λ below_left : bool,
    if below_left then Ok (left, right)
    else if bool_decide (ord_le (merge_rank left) (merge_rank right)) then Ok (left, right)
    else Ok (right, left).

(** ** Operation boundary *)

Definition begin_operation : K unit :=
  k ← gets id;
  _ ← lift (reject_if (negb (bool_decide (branches k = [])))
    (wire "cannot replace the operation root while branches survive"));
  _ ← bump_sequence;
  modify (λ k : TableauKernel, k <| operation_root := snapshot k |>).

Definition atomic {A} (operation : K A) : K A := λ k,
  let checkpoint := snapshot k in
  match operation k with
  | (Ok value, k') => (Ok value, k')
  | (Err error, k') => (Err error, restore checkpoint k')
  | (Crash, k') => (Crash, k')
  end.

(** ** Nodes *)

Definition create_node (kind : NodeKind) (parent : option NodeHandle)
    (is_owl_named_individual : bool) (source_individual_id nominal_level cardinality_tag : option N) :
    K NodeHandle :=
  tree_depth ← reads (λ k,
    if bool_decide (kind = Tree) then
      p ← ok_or parent (wire "tree nodes require a parent");
      parent_node ← require_active p k;
      _ ← reject_if (negb (bool_decide (n_sort parent_node = Object)))
        (wire "tree node parent must have object sort");
      ok_or (checked_add u32_max (n_tree_depth parent_node) 1) (invariant "tree depth overflow")
    else
      _ ← reject_if (bool_decide (is_Some parent))
        (wire "root, NI, and concrete nodes cannot have a parent");
      Ok 0);
  _ ← lift (reject_if (is_owl_named_individual &&
      (negb (bool_decide (kind = Root)) || bool_decide (source_individual_id = None)))
    (wire "only source named-individual roots may carry the named guard"));
  s ← gets state;
  slot ← (match btree_pop_first (free_slots s) with
    | Some (slot, rest) => _ ← upd (λ s, s <| free_slots := rest |>); mret slot
    | None =>
        slot ← lift (ok_or (u32_try_from (length (nodes s)))
          (invariant "node arena exceeds u32 slots"));
        _ ← upd (λ s, s <| nodes ::= λ l, l ++ [None] |>);
        _ ← upd (λ s, s <| generations ::= λ l, l ++ [0] |>);
        mret slot
    end);
  let index := N.to_nat slot in
  old ← reads (λ k, index_or_crash (generations (state k)) index);
  generation ← lift (ok_or (checked_add u32_max old 1) (invariant "node generation overflow"));
  _ ← upd (λ s, s <| generations ::= <[index := generation]> |>);
  let handle := mkHandle slot generation in
  creation_id ← gets (λ k, next_creation_id (state k));
  next ← lift (ok_or (checked_add u32_max creation_id 1) (invariant "node creation ID overflow"));
  _ ← upd (λ s, s <| next_creation_id := next |>);
  creation_checkpoint ← gets (λ k, default 0 (highest_branch_level k));
  _ ← reads (λ k, index_or_crash (nodes (state k)) index);
  _ ← upd (λ s, s <| nodes ::= <[index := Some (mkNode handle creation_id kind (kind_sort kind)
        Active parent tree_depth creation_checkpoint is_owl_named_individual source_individual_id
        None Dep.empty None false 0 ∅ nominal_level cardinality_tag)]> |>);
  _ ← record_mutation;
  mret handle.

(** [self.state.nodes[index].as_mut().ok_or_else(error)?] followed by assignments. *)
Definition update_node (index : nat) (error : NativeError) (f : Node → Node) : K unit :=
  o ← reads (λ k, index_or_crash (nodes (state k)) index);
  node ← lift (ok_or o error);
  upd (λ s, s <| nodes ::= <[index := Some (f node)]> |>).

(** [node.blocking_generation = node.blocking_generation.checked_add(1)...?] *)
Definition bump_blocking (index : nat) (error : NativeError) : K unit :=
  o ← reads (λ k, index_or_crash (nodes (state k)) index);
  node ← lift (ok_or o error);
  n ← lift (ok_or (checked_add u32_max (n_blocking_generation node) 1)
    (invariant "blocking generation overflow"));
  update_node index error (λ node, node <| n_blocking_generation := n |>).

Definition structurally_references (h : NodeHandle) (node : Node) : bool :=
  negb (bool_decide (n_handle node = h)) &&
  (bool_decide (n_parent node = Some h) || bool_decide (n_representative node = Some h)
   || bool_decide (n_blocker node = Some h)).

Definition retire_node (h : NodeHandle) : K unit :=
  index ← reads (node_index h);
  s ← gets state;
  _ ← lift (reject_if
    (match facts_by_node s !! h with Some rows => negb (bool_decide (rows = ∅)) | None => false end)
    (wire "cannot retire a node referenced by an active fact"));
  _ ← lift (reject_if (existsb (structurally_references h) (live_nodes s))
    (wire "cannot retire a node that remains structurally referenced"));
  _ ← update_node index (invariant "node disappeared during retirement")
    (λ n, n <| n_lifecycle := Retired |>);
  _ ← upd (λ s, s <| nodes ::= <[index := None]> |>);
  _ ← upd (λ s, s <| free_slots ::= union {[slot h]} |>);
  record_mutation.

Definition node_sort (h : NodeHandle) (k : TableauKernel) : NativeResult NodeSort :=
  node ← require_active h k; Ok (n_sort node).

Definition node_rank (h : NodeHandle) (k : TableauKernel) : NativeResult (N * N * N) :=
  node ← require_active h k; Ok (n_creation_id node, slot h, generation h).

Definition active_node (h : NodeHandle) (k : TableauKernel) : NativeResult Node := require_active h k.

Definition node (h : NodeHandle) (k : TableauKernel) : NativeResult Node := require_node h k.

Definition direct_children (parent : NodeHandle) (k : TableauKernel) :
    NativeResult (list NodeHandle) :=
  _ ← require_active parent k;
  let children := filter (λ n, n_lifecycle n = Active ∧ n_parent n = Some parent) (live_nodes (state k)) in
  Ok (sort ((λ n, (n_creation_id n, n_handle n)) <$> children)).*2.

Definition active_node_handles (k : TableauKernel) : list NodeHandle :=
  (sort ((λ n, (n_creation_id n, n_handle n)) <$>
    filter (λ n, n_lifecycle n = Active) (live_nodes (state k)))).*2.

Definition merge_orientation (left right : NodeHandle) (k : TableauKernel) :
    NativeResult (NodeHandle * NodeHandle) :=
  l ← require_active left k;
  r ← require_active right k;
  d ← merge_direction l r k;
  Ok (n_handle d.1, n_handle d.2).

(** ** Facts *)

(** The antichain update of a row's supports: a support that contains an older
    one is dropped, and a new minimal support evicts those it is contained in. *)
Definition add_support (support : DependencySet) (old : list DependencySet) : list DependencySet :=
  if existsb (λ value, Dep.is_subset_of value support) old then old
  else sort_dependencies
    (List.filter (λ value, negb (Dep.is_subset_of support value)) old ++ [support]).

Definition canonical_arguments (args : list NodeHandle) (k : TableauKernel) :
    NativeResult (list (NodeHandle * DependencySet)) :=
  collectM (λ argument,
    r ← representative argument k;
    _ ← require_active r.1 k;
    Ok r) args.

(** The branch of [add_fact_detailed] for a key that is already indexed. *)
Definition update_existing_fact (rid : N) (support : DependencySet) (is_core : bool)
    (provenance_id : option N) : K FactAddOutcome :=
  let index := N.to_nat rid in
  row ← reads (λ k, ok_or (facts (state k) !! index)
    (invariant "fact index references a missing row"));
  let row' := row <| supports ::= add_support support |> <| core ::= λ c, c || is_core |>
                  <| provenance_ids ::= λ ps, match provenance_id with Some p => {[p]} ∪ ps | None => ps end |> in
  let provenance_changed :=
    match provenance_id with Some p => negb (bool_decide (p ∈ provenance_ids row)) | None => false end in
  let support_changed := negb (bool_decide (supports row' = supports row)) in
  _ ← upd (λ s, s <| facts ::= <[index := row']> |>);
  _ ← (if support_changed || negb (Bool.eqb (core row') (core row)) || provenance_changed
       then record_mutation else mret tt);
  mret (mkFactAddOutcome rid false support_changed).

(** The branch of [add_fact_detailed] for a new key. *)
Definition insert_new_fact (key : FactKey) (support : DependencySet) (is_core : bool)
    (provenance_id : option N) : K FactAddOutcome :=
  s ← gets state;
  rid ← lift (ok_or (u32_try_from (length (facts s))) (invariant "fact store exceeds u32 rows"));
  let row := mkFactRow rid key [support] is_core true (write_generation s)
    (match provenance_id with Some p => {[p]} | None => ∅ end) in
  _ ← upd (λ s, s <| facts ::= λ l, l ++ [row] |>);
  _ ← upd (λ s, s <| facts_by_key ::= <[key := rid]> |>);
  _ ← upd (λ s, s <| facts_by_predicate ::= index_insert (predicate_id key) rid |>);
  _ ← forM (λ pa,
        position ← lift (ok_or (u32_try_from pa.1) (invariant "fact arity exceeds u32 positions"));
        upd (λ s, s <| facts_by_position ::= index_insert (predicate_id key, position, pa.2) rid |>))
      (enumerate (arguments key));
  _ ← forM (λ argument, upd (λ s, s <| facts_by_node ::= index_insert argument rid |>))
      (btree_elements (list_to_set (arguments key) : gset NodeHandle));
  _ ← record_mutation;
  mret (mkFactAddOutcome rid true true).

Definition add_fact_detailed (pid : N) (args : list NodeHandle) (dependency : DependencySet)
    (is_core : bool) (provenance_id : option N) : K FactAddOutcome :=
  _ ← lift (reject_if (bool_decide (args = [])) (wire "fact rows must have positive arity"));
  _ ← lift (ok_or (u32_try_from (length args)) (wire "fact arity exceeds u32 positions"));
  _ ← reads (validate_dependency dependency);
  resolved ← reads (canonical_arguments args);
  let support := Dep.union (dependency :: resolved.*2) in
  let key := mkFactKey pid resolved.*1 in
  existing ← gets (λ k, facts_by_key (state k) !! key);
  match existing with
  | Some rid => update_existing_fact rid support is_core provenance_id
  | None => insert_new_fact key support is_core provenance_id
  end.

Definition add_fact (pid : N) (args : list NodeHandle) (dependency : DependencySet)
    (is_core : bool) (provenance_id : option N) : K N :=
  outcome ← add_fact_detailed pid args dependency is_core provenance_id;
  mret (out_row_id outcome).

Definition prepare_next_delta : K unit :=
  s ← gets state;
  _ ← (if bool_decide (write_generation s = read_generation s) then mret tt
       else upd (λ s, s <| read_generation := write_generation s |>));
  next ← lift (ok_or (checked_add u32_max (write_generation s) 1)
    (invariant "delta generation overflow"));
  _ ← upd (λ s, s <| write_generation := next |>);
  record_mutation.

(** The loop of [candidate_fact_ids] over the bindings; [None] is its early
    return of the empty vector. *)
Fixpoint select_smallest (pid : N) (bindings : list (N * NodeHandle)) (smallest : gset N)
    (k : TableauKernel) : NativeResult (option (gset N)) :=
  match bindings with
  | [] => Ok (Some smallest)
  | (position, h) :: bindings =>
      _ ← require_active h k;
      match facts_by_position (state k) !! (pid, position, h) with
      | None => Ok None
      | Some rows =>
          select_smallest pid bindings
            (if (size rows <? size smallest)%nat then rows else smallest) k
      end
  end.

Definition row_matches (pid : N) (bindings : list (N * NodeHandle)) (row : FactRow) : bool :=
  active row && bool_decide (predicate_id (row_key row) = pid) &&
  forallb (λ b, bool_decide (arguments (row_key row) !! N.to_nat b.1 = Some b.2)) bindings.

Definition candidate_fact_ids (pid : N) (bindings : gmap N NodeHandle) (k : TableauKernel) :
    NativeResult (list N) :=
  match facts_by_predicate (state k) !! pid with
  | None => Ok []
  | Some predicate_rows =>
      smallest ← select_smallest pid (btree_entries bindings) predicate_rows k;
      match smallest with
      | None => Ok []
      | Some rows =>
          foldM (λ result rid,
            row ← fact rid k;
            Ok (if row_matches pid (btree_entries bindings) row then result ++ [rid] else result))
            (btree_elements rows) []
      end
  end.

Definition active_fact_ids (k : TableauKernel) : list N :=
  row_id <$> List.filter active (facts (state k)).

Definition facts_for_node (h : NodeHandle) (k : TableauKernel) : NativeResult (list FactRow) :=
  _ ← require_active h k;
  collectM (λ rid, fact rid k)
    (match facts_by_node (state k) !! h with Some rows => btree_elements rows | None => [] end).

Definition fact_history (pid : N) (args : list NodeHandle) (k : TableauKernel) : list FactRow :=
  filter (λ row, predicate_id (row_key row) = pid ∧ arguments (row_key row) = args) (facts (state k)).

(** Removing a row from one index entry, which must exist. *)
Definition remove_from_index `{Countable Key} (index : MutableState → gmap Key (gset N))
    (assign : (gmap Key (gset N) → gmap Key (gset N)) → MutableState → MutableState)
    (key : Key) (rid : N) (error : NativeError) : K unit :=
  o ← gets (λ k, index (state k) !! key);
  _ ← lift (ok_or o error);
  upd (assign (index_remove key rid)).

Definition deactivate_fact (rid : N) : K unit :=
  row ← reads (fact rid);
  if negb (active row) then mret tt
  else
    let key := row_key row in
    _ ← upd (λ s, s <| facts_by_key ::= delete key |>);
    _ ← remove_from_index facts_by_predicate (set_field facts_by_predicate) (predicate_id key) rid
      (invariant "fact row is absent from predicate index");
    _ ← forM (λ pa,
          position ← lift (ok_or (u32_try_from pa.1) (invariant "fact position exceeds u32"));
          remove_from_index facts_by_position (set_field facts_by_position)
            (predicate_id key, position, pa.2) rid
            (invariant "fact row is absent from positional index"))
        (enumerate (arguments key));
    _ ← forM (λ argument,
          remove_from_index facts_by_node (set_field facts_by_node) argument rid
            (invariant "fact row is absent from node incidence index"))
        (btree_elements (list_to_set (arguments key) : gset NodeHandle));
    _ ← reads (λ k, index_or_crash (facts (state k)) (N.to_nat rid));
    _ ← upd (λ s, s <| facts ::= alter (λ r, r <| active := false |>) (N.to_nat rid) |>);
    record_mutation.

(** ** The invariant audit *)

Definition check_arena (k : TableauKernel) : NativeResult unit :=
  reject_if (negb (bool_decide (vacant_slots (nodes (state k)) = free_slots (state k)))
             || negb (bool_decide (length (nodes (state k)) = length (generations (state k)))))
    (invariant "node arena free list or generation table is inconsistent").

Definition exceeds (d : DependencySet) (highest : N) : bool :=
  match Dep.maximum d with Some maximum => (highest <? maximum)%N | None => false end.

(** The parent check of the loop over the live nodes. *)
Definition check_parent (node : Node) (k : TableauKernel) : NativeResult unit :=
  if bool_decide (n_kind node = Tree) then
    parent ← ok_or (n_parent node) (invariant "tree node lacks a parent");
    parent_node ← require_node parent k;
    reject_if (negb (bool_decide (n_tree_depth node = (n_tree_depth parent_node + 1) mod 2 ^ 32)))
      (invariant "tree node depth is inconsistent")
  else
    reject_if (bool_decide (is_Some (n_parent node)) || negb (bool_decide (n_tree_depth node = 0)))
      (invariant "non-tree node has parent or nonzero depth").

(** Its check of the merge link. *)
Definition check_link (highest : N) (node : Node) (k : TableauKernel) : NativeResult unit :=
  if bool_decide (n_lifecycle node = Merged) then
    rep ← ok_or (n_representative node) (invariant "merged node lacks a representative");
    r ← representative rep k;
    reject_if (bool_decide (r.1 = n_handle node)
               || negb (is_ok (require_active r.1 k))
               || exceeds (n_merge_dependency node) highest)
      (invariant "merged node representative is invalid")
  else
    reject_if (bool_decide (is_Some (n_representative node)))
      (invariant "nonmerged node carries a representative").

(** Its check of the blocking relation. *)
Definition check_blocker (node : Node) (k : TableauKernel) : NativeResult unit :=
  match n_blocker node with
  | None => Ok tt
  | Some blocker =>
      if negb (bool_decide (n_sort node = Object)) then Err (invariant "blocking relation has data sort")
      else
        b ← require_active blocker k;
        reject_if (negb (bool_decide (n_sort b = Object))) (invariant "blocking relation has data sort")
  end.

(** The body of the loop over the live nodes; [creation_ids] is its accumulator. *)
Definition check_node (highest : N) (k : TableauKernel) (creation_ids : gset N)
    (entry : nat * Node) : NativeResult (gset N) :=
  let '(index, node) := entry in
  gen ← index_or_crash (generations (state k)) index;
  _ ← reject_if (negb (bool_decide (N.to_nat (slot (n_handle node)) = index))
                 || (gen <? generation (n_handle node))%N
                 || bool_decide (n_creation_id node ∈ creation_ids)
                 || (highest <? n_creation_checkpoint node)%N)
    (invariant "node handle, generation, or creation ID is inconsistent");
  _ ← check_parent node k;
  _ ← reject_if (negb (bool_decide (n_sort node = kind_sort (n_kind node))))
    (invariant "node kind and sort disagree");
  _ ← check_link highest node k;
  _ ← check_blocker node k;
  Ok ({[n_creation_id node]} ∪ creation_ids).

Definition live_entries (s : MutableState) : list (nat * Node) :=
  omap (λ '(i, n), pair i <$> n) (enumerate (nodes s)).

Definition check_nodes (highest : N) (k : TableauKernel) : NativeResult unit :=
  _ ← foldM (check_node highest k) (live_entries (state k)) ∅;
  Ok tt.

(** The four indexes as the audit rebuilds them from the rows. *)
Record FactIndexes := mkIndexes {
  by_key : gmap FactKey N;
  by_node : gmap NodeHandle (gset N);
  by_predicate : gmap N (gset N);
  by_position : gmap (N * N * NodeHandle) (gset N)
}.

Definition check_supports (highest : N) (row : FactRow) : NativeResult unit :=
  iterM (λ left,
    _ ← reject_if (exceeds left highest)
      (invariant "fact support references a future branch level");
    iterM (λ right, reject_if (negb (bool_decide (left = right)) && Dep.is_subset_of left right)
      (invariant "fact retains a dominated support")) (supports row)) (supports row).

(** The body of the loop over the fact rows; the indexes are its accumulator. *)
Definition check_row (highest : N) (k : TableauKernel) (acc : FactIndexes)
    (entry : nat * FactRow) : NativeResult FactIndexes :=
  let '(index, row) := entry in
  let misplaced := negb (bool_decide (N.to_nat (row_id row) = index)) in
  if misplaced || negb (active row) then
    _ ← reject_if misplaced (invariant "fact row ID disagrees with position");
    Ok acc
  else
    let key := row_key row in
    _ ← reject_if (bool_decide (is_Some (by_key acc !! key)) || bool_decide (supports row = []))
      (invariant "active facts are duplicated or unsupported");
    _ ← reject_if (write_generation (state k) <? derivation_generation row)%N
      (invariant "fact derivation generation exceeds the current delta generation");
    positions ← foldM (λ m pa,
        position ← ok_or (u32_try_from pa.1) (invariant "fact position exceeds u32");
        Ok (index_insert (predicate_id key, position, pa.2) (row_id row) m))
      (enumerate (arguments key)) (by_position acc);
    _ ← check_supports highest row;
    _ ← reject_if (negb (bool_decide (sort_dependencies (supports row) = supports row)))
      (invariant "fact supports are not canonical");
    incidence ← foldM (λ m argument,
        _ ← reject_if (negb (is_ok (require_active argument k)))
          (invariant "active fact references an inactive node");
        Ok (index_insert argument (row_id row) m))
      (arguments key) (by_node acc);
    Ok (mkIndexes (<[key := row_id row]> (by_key acc)) incidence
          (index_insert (predicate_id key) (row_id row) (by_predicate acc)) positions).

Definition check_facts (highest : N) (k : TableauKernel) : NativeResult unit :=
  acc ← foldM (check_row highest k) (enumerate (facts (state k))) (mkIndexes ∅ ∅ ∅ ∅);
  reject_if (negb (bool_decide (by_key acc = facts_by_key (state k)))
             || negb (bool_decide (by_node acc = facts_by_node (state k)))
             || negb (bool_decide (by_predicate acc = facts_by_predicate (state k)))
             || negb (bool_decide (by_position acc = facts_by_position (state k))))
    (invariant "fact indexes differ from exact reconstruction").

Definition branch (lvl : N) (k : TableauKernel) : NativeResult Branch :=
  ok_or (branches k !! N.to_nat lvl) (wire "branch level is unavailable").

Definition check_queues (k : TableauKernel) : NativeResult unit :=
  let s := state k in
  _ ← reject_if (write_generation s <? read_generation s)%N
    (invariant "delta write generation precedes read generation");
  _ ← iterM Queue.check_invariants
    [delta_rows s; annotated_equalities s; existential_candidates s; disjunction_queue s;
     datatype_components s; blocking_invalidations s];
  let expected := (λ d, Integer (disjunction_id d)) <$>
    List.filter (λ d, d_active d && negb (d_processed d)) (disjunctions s) in
  reject_if (negb (bool_decide (Queue.values (disjunction_queue s) = expected)))
    (invariant "ground-disjunction queue differs from records").

Definition check_disjunctions (highest : N) (k : TableauKernel) : NativeResult unit :=
  iterM (λ d, reject_if ((highest <? d_creation_checkpoint d)%N || exceeds (d_base_dependency d) highest)
      (invariant "ground disjunction references a future branch level"))
    (List.filter d_active (disjunctions (state k))).

Definition check_reuse_branches (k : TableauKernel) : NativeResult unit :=
  iterM (λ lr : N * ExistentialReuseRecord,
      let '(lvl, record) := lr in
      reject_if (negb (is_ok (branch lvl k))
                 || negb (is_ok (canonical_handle (reuse_root record) k))
                 || bool_decide (reuse_supports record = [])
                 || existsb (λ support, match Dep.maximum support with
                      | Some maximum => (lvl <=? maximum)%N | None => false end) (reuse_supports record)
                 || match branch lvl k with
                    | Ok b => negb (bool_decide (choice_kind b = "merge"))
                              || negb (bool_decide (source_id b = reuse_predicate_id record))
                    | _ => false
                    end)
        (invariant "existential reuse branch state is inconsistent"))
    (btree_entries (existential_reuse_branches (state k))).

Definition check_clash_and_branches (highest : N) (k : TableauKernel) : NativeResult unit :=
  _ ← reject_if (match current_clash (state k) with
                 | Some c => exceeds (clash_dependency c) highest | None => false end)
    (invariant "clash references a future branch level");
  iterM (λ ib, reject_if (negb (bool_decide (N.to_nat (level ib.2) = ib.1))
                 || (length (alternatives ib.2) <=? next_alternative ib.2)%nat
                 || (trail_length k <? meta_trail_length (checkpoint ib.2))%N)
      (invariant "branch metadata is inconsistent"))
    (enumerate (branches k)).

Definition check_invariants (k : TableauKernel) : NativeResult unit :=
  let highest := default 0 (highest_branch_level k) in
  _ ← check_arena k;
  _ ← check_nodes highest k;
  _ ← check_facts highest k;
  _ ← check_queues k;
  _ ← check_disjunctions highest k;
  _ ← check_reuse_branches k;
  check_clash_and_branches highest k.

(** ** Ground disjunctions *)

Definition disjunction (did : N) (k : TableauKernel) : NativeResult GroundDisjunction :=
  ok_or (disjunctions (state k) !! N.to_nat did) (wire "ground-disjunction ID is unavailable").

Definition strengthen_disjunction (did : N) (dependency : DependencySet) : K bool :=
  _ ← reads (validate_dependency dependency);
  current ← reads (disjunction did);
  if negb (d_active current)
     || bool_decide (ord_le (dependency_rank (d_base_dependency current)) (dependency_rank dependency))
  then mret false
  else
    _ ← record_mutation;
    _ ← upd (λ s, s <| disjunctions ::=
          alter (λ d, d <| d_base_dependency := dependency |>) (N.to_nat did) |>);
    _ ← modify (λ k : TableauKernel, k <| branches ::= fmap (λ b,
          if bool_decide (choice_kind b = "ground_disjunction") && bool_decide (source_id b = did)
          then b <| base_dependency := dependency |> else b) |>);
    mret true.

Definition add_disjunction (ids : list N) (dependency : DependencySet) : K N :=
  _ ← lift (reject_if (bool_decide (ids = []) || negb (is_unique ids))
    (wire "ground disjunct identifiers must be nonempty and unique"));
  _ ← reads (validate_dependency dependency);
  k ← gets id;
  did ← lift (ok_or (u32_try_from (length (disjunctions (state k))))
    (invariant "disjunction store exceeds u32"));
  _ ← upd (λ s, s <| disjunctions ::= λ l, l ++ [mkGroundDisjunction did ids dependency
        (default 0 (highest_branch_level k)) true false] |>);
  _ ← record_mutation;
  q ← gets (λ k, disjunction_queue (state k));
  let '(r, q') := Queue.enqueue (Integer did) [Z.of_N did] q in
  _ ← upd (λ s, s <| disjunction_queue := q' |>);
  _ ← lift r;
  _ ← record_mutation;
  mret did.

(** The [while let] loop of [take_disjunction]; every turn pops an entry, so one
    more turn than the queue has entries is enough. *)
Fixpoint take_disjunction_loop (fuel : nat) : K (option N) :=
  match fuel with
  | O => lift Crash
  | S fuel =>
      q ← gets (λ k, disjunction_queue (state k));
      match Queue.pop q with
      | None => mret None
      | Some (value, q') =>
          _ ← upd (λ s, s <| disjunction_queue := q' |>);
          _ ← record_mutation;
          match value with
          | QNode _ => lift (Err (invariant "disjunction queue contains a node handle"))
          | Integer did =>
              record ← reads (λ k, ok_or (disjunctions (state k) !! N.to_nat did)
                (invariant "disjunction queue references a missing record"));
              if negb (d_active record) || d_processed record then take_disjunction_loop fuel
              else
                _ ← upd (λ s, s <| disjunctions ::=
                      alter (λ d, d <| d_processed := true |>) (N.to_nat did) |>);
                _ ← record_mutation;
                mret (Some did)
          end
      end
  end.

Definition take_disjunction : K (option N) :=
  q ← gets (λ k, disjunction_queue (state k));
  take_disjunction_loop (S (size (entries q))).

(** ** Clashes *)

Definition install_clash (kind : string) (dependency : DependencySet) (participants : list N)
    (provenance_id : option N) : K bool :=
  _ ← lift (reject_if (negb (is_clash_kind kind)) (wire "clash kind is unknown"));
  _ ← lift (reject_if (negb (strictly_ascending participants))
    (wire "clash participants must be ascending and unique"));
  _ ← reads (validate_dependency dependency);
  let candidate := mkClash kind dependency participants provenance_id in
  current ← gets (λ k, current_clash (state k));
  if match current with
     | Some current => bool_decide (select_clash current candidate = current)
     | None => false
     end
  then mret false
  else
    _ ← upd (λ s, s <| current_clash := Some candidate |>);
    _ ← record_mutation;
    mret true.

(** ** Branches *)

Definition branch_choices_for_source (sid : N) (k : TableauKernel) : list (N * N) :=
  omap (λ b, pair (level b) <$> alternatives b !! next_alternative b)
    (filter (λ b, source_id b = sid) (branches k)).

Definition is_choice_kind (kind : string) : bool :=
  bool_decide (kind ∈ ["ground_disjunction"; "merge"; "datatype"]).

Definition push_branch (kind : string) (alts : list N) (sid : N) (base : DependencySet) : K N :=
  _ ← lift (reject_if (negb (is_choice_kind kind)) (wire "branch choice kind is unknown"));
  _ ← lift (reject_if ((length alts <? 2)%nat || negb (is_unique alts))
    (wire "a branch requires at least two unique alternatives"));
  k ← gets id;
  _ ← lift (reject_if (bool_decide (is_Some (current_clash (state k))))
    (wire "cannot create a branch while a clash is installed"));
  lvl ← lift (ok_or (u32_try_from (length (branches k))) (invariant "branch count exceeds u32"));
  _ ← lift (reject_if
    (match Dep.maximum base with Some maximum => (lvl <=? maximum)%N | None => false end)
    (wire "branch dependency references its own or a future level"));
  _ ← bump_sequence;
  k ← gets id;
  let meta := mkCheckpointMeta (checkpoint_sequence k) (trail_length k) ("branch-" +:+ pretty lvl) in
  _ ← modify (λ k : TableauKernel, k <| branches ::= λ l, l ++
        [mkBranch lvl kind meta (snapshot k) alts sid base base 0 Dep.empty] |>);
  mret lvl.

Definition backtrack_to (lvl : N) : K unit :=
  let index := N.to_nat lvl in
  b ← reads (branch lvl);
  _ ← modify (restore (b_snapshot b));
  _ ← modify (λ k : TableauKernel, k <| branches ::= take (S index) |>);
  reads check_invariants.

Definition advance_branch (lvl : N) (learned : DependencySet) : K (option N) :=
  _ ← backtrack_to lvl;
  let index := N.to_nat lvl in
  b ← reads (λ k, ok_or (branches k !! index) (invariant "branch disappeared after backtrack"));
  let b1 := b <| base_dependency := initial_base_dependency b |>
              <| learned_dependency := Dep.union [learned_dependency b; learned] |> in
  _ ← modify (λ k : TableauKernel, k <| branches ::= <[index := b1]> |>);
  _ ← lift (ok_or (checked_add u64_max (N.of_nat (next_alternative b)) 1)
    (invariant "branch alternative index overflow"));
  let b' := b1 <| next_alternative := S (next_alternative b) |> in
  _ ← modify (λ k : TableauKernel, k <| branches ::= <[index := b']> |>);
  if (length (alternatives b') <=? next_alternative b')%nat then
    _ ← modify (λ k : TableauKernel, k <| branches ::= λ l, take (length l - 1) l |>);
    mret None
  else
    current ← lift (index_or_crash (alternatives b') (next_alternative b'));
    _ ← reads check_invariants;
    mret (Some current).

Definition reset_to_operation_root : K unit :=
  k ← gets id;
  _ ← modify (restore (operation_root k));
  _ ← modify (λ k : TableauKernel, k <| branches := [] |>);
  reads check_invariants.

(** ** Blocking and pending existentials *)

Definition set_blocked (h : NodeHandle) (blocker : option NodeHandle) (directly : bool) : K unit :=
  index ← reads (node_index h);
  node ← reads (require_active h);
  _ ← lift (reject_if (bool_decide (n_sort node = Data)) (wire "concrete nodes cannot be blocked"));
  _ ← (match blocker with
       | None => mret tt
       | Some value =>
           b ← reads (require_active value);
           lift (reject_if (bool_decide (n_sort b = Data)) (wire "a concrete node cannot be a blocker"))
       end);
  _ ← update_node index (invariant "blocked node disappeared")
    (λ n, n <| n_blocker := blocker |>
            <| n_directly_blocked := bool_decide (is_Some blocker) && directly |>);
  _ ← bump_blocking index (invariant "blocked node disappeared");
  record_mutation.

Definition mark_existential (h : NodeHandle) (existential_id : N) (pending : bool) : K unit :=
  index ← reads (node_index h);
  node ← reads (require_active h);
  if Bool.eqb (bool_decide (existential_id ∈ n_unprocessed_existentials node)) pending then mret tt
  else
    _ ← update_node index (invariant "existential node disappeared")
      (λ n, n <| n_unprocessed_existentials ::= λ es,
        if pending then {[existential_id]} ∪ es else es ∖ {[existential_id]} |>);
    record_mutation.

(** ** Merging *)

(** [if *value == source { target } else { *value }]. *)
Definition redirect (source target value : NodeHandle) : NodeHandle :=
  if bool_decide (value = source) then target else value.

(** One turn of the loop of [merge_nodes_inner] over the rows of the source. *)
Definition rewrite_row (source target : NodeHandle) (combined : DependencySet) (rid : N) : K unit :=
  row ← reads (fact rid);
  if negb (active row) then mret tt
  else
    let args := redirect source target <$> arguments (row_key row) in
    _ ← forM (λ support,
          _ ← add_fact (predicate_id (row_key row)) args (Dep.union [support; combined]) (core row) None;
          mret tt) (supports row);
    minimal ← lift (minimal_dependency row);
    _ ← forM (λ provenance,
          _ ← add_fact (predicate_id (row_key row)) args (Dep.union [minimal; combined]) (core row)
                (Some provenance);
          mret tt) (btree_elements (provenance_ids row));
    deactivate_fact rid.

(** The assignments to the merge source at the end of [merge_nodes_inner]. *)
Definition mark_merged (target : NodeHandle) (combined : DependencySet) (n : Node) : Node :=
  n <| n_lifecycle := Merged |> <| n_representative := Some target |>
    <| n_merge_dependency := combined |> <| n_blocker := None |> <| n_directly_blocked := false |>.

Definition merge_nodes_inner (left right : NodeHandle) (dependency : DependencySet) : K NodeHandle :=
  l ← reads (representative left);
  r ← reads (representative right);
  let combined := Dep.union [dependency; l.2; r.2] in
  if bool_decide (l.1 = r.1) then mret l.1
  else
    left_node ← reads (require_active l.1);
    right_node ← reads (require_active r.1);
    _ ← lift (reject_if (negb (bool_decide (n_sort left_node = n_sort right_node)))
      (invariant "cannot merge object and concrete nodes"));
    direction ← reads (merge_direction left_node right_node);
    let target := n_handle direction.1 in
    let source := n_handle direction.2 in
    _ ← bump_sequence;
    blocked ← gets (λ k, n_handle <$>
      filter (λ n, n_lifecycle n = Active ∧ n_blocker n = Some source) (live_nodes (state k)));
    _ ← forM (λ h, set_blocked h None false) blocked;
    affected ← gets (λ k,
      match facts_by_node (state k) !! source with Some rows => btree_elements rows | None => [] end);
    _ ← forM (rewrite_row source target combined) affected;
    source_index ← reads (node_index source);
    _ ← update_node source_index (invariant "merge source disappeared") (mark_merged target combined);
    _ ← bump_blocking source_index (invariant "merge source disappeared");
    _ ← record_mutation;
    mret target.

(** The public entry, with its own checkpoint. *)
Definition merge_nodes (left right : NodeHandle) (dependency : DependencySet) : K NodeHandle :=
  _ ← reads (validate_dependency dependency);
  atomic (merge_nodes_inner left right dependency).

Definition merge_nodes_in_transaction (left right : NodeHandle) (dependency : DependencySet) :
    K NodeHandle :=
  _ ← reads (validate_dependency dependency);
  merge_nodes_inner left right dependency.

(** ** Pruning *)

Definition prune_order (m n : Node) : Prop :=
  ord_le (Z.opp (Z.of_N (n_tree_depth m)), n_creation_id m)
         (Z.opp (Z.of_N (n_tree_depth n)), n_creation_id n).

#[global] Instance prune_order_dec : RelDecision prune_order.
Proof. intros m n. unfold prune_order. apply _. Defined.

(** The active nodes of the subtree, in arena order. *)
Definition subtree_nodes (root : NodeHandle) (k : TableauKernel) : NativeResult (list Node) :=
  foldM (λ affected node,
      if bool_decide (n_lifecycle node = Active) then
        if bool_decide (n_handle node = root) then Ok (affected ++ [node])
        else has_ancestor node root k ≫= λ below : bool,
          Ok (if below then affected ++ [node] else affected)
      else Ok affected)
    (live_nodes (state k)) [].

Definition prune_subtree_inner (root : NodeHandle) : K (list NodeHandle) :=
  _ ← bump_sequence;
  collected ← reads (subtree_nodes root);
  let affected := merge_sort prune_order collected in
  let handles : gset NodeHandle := list_to_set (n_handle <$> affected) in
  blocked ← gets (λ k, n_handle <$>
    List.filter (λ n, bool_decide (n_lifecycle n = Active) &&
        match n_blocker n with Some blocker => bool_decide (blocker ∈ handles) | None => false end)
      (live_nodes (state k)));
  _ ← forM (λ h, set_blocked h None false) blocked;
  rows ← gets (λ k, btree_elements (⋃ (omap (λ h, facts_by_node (state k) !! h)
    (btree_elements handles))));
  _ ← forM (λ rid,
        row ← reads (fact rid);
        if active row then deactivate_fact rid else mret tt) rows;
  _ ← forM (λ node,
        index ← reads (node_index (n_handle node));
        _ ← update_node index (invariant "pruned node disappeared")
          (λ n, n <| n_lifecycle := Pruned |> <| n_blocker := None |> <| n_directly_blocked := false |>);
        _ ← bump_blocking index (invariant "pruned node disappeared");
        record_mutation) affected;
  mret (n_handle <$> affected).

Definition prune_subtree (root : NodeHandle) : K (list NodeHandle) :=
  _ ← reads (require_active root);
  atomic (prune_subtree_inner root).

Definition prune_subtree_in_transaction (root : NodeHandle) : K (list NodeHandle) :=
  _ ← reads (require_active root);
  prune_subtree_inner root.

(** ** Queues *)

Definition integer_queue (queue : string) :
    option ((MutableState → StableQueue) * (StableQueue → MutableState → MutableState)) :=
  if bool_decide (queue = "delta_rows")
  then Some (delta_rows, λ q s, s <| delta_rows := q |>)
  else if bool_decide (queue = "annotated_equalities")
  then Some (annotated_equalities, λ q s, s <| annotated_equalities := q |>)
  else if bool_decide (queue = "datatype_components")
  then Some (datatype_components, λ q s, s <| datatype_components := q |>)
  else None.

Definition node_queue (queue : string) :
    option ((MutableState → StableQueue) * (StableQueue → MutableState → MutableState)) :=
  if bool_decide (queue = "existential_candidates")
  then Some (existential_candidates, λ q s, s <| existential_candidates := q |>)
  else if bool_decide (queue = "blocking_invalidations")
  then Some (blocking_invalidations, λ q s, s <| blocking_invalidations := q |>)
  else None.

(** [if selected.enqueue(value, priority)? { self.record_mutation()? }]. *)
Definition enqueue_into
    (sel : (MutableState → StableQueue) * (StableQueue → MutableState → MutableState))
    (value : QueueValue) (priority : list Z) : K unit :=
  q ← gets (λ k, sel.1 (state k));
  let '(r, q') := Queue.enqueue value priority q in
  _ ← upd (sel.2 q');
  lift r ≫= λ added : bool, if added then record_mutation else mret tt.

Definition enqueue_integer (queue : string) (value : N) (priority : list Z) : K unit :=
  selected ← lift (ok_or (integer_queue queue) (wire "trace integer queue is unknown"));
  enqueue_into selected (Integer value) priority.

Definition take_integer (queue : string) : K (option N) :=
  selected ← lift (ok_or (integer_queue queue) (wire "native integer queue is unknown"));
  q ← gets (λ k, selected.1 (state k));
  match Queue.pop q with
  | None => mret None
  | Some (value, q') =>
      _ ← upd (selected.2 q');
      _ ← record_mutation;
      match value with
      | Integer n => mret (Some n)
      | QNode _ => lift (Err (invariant "integer queue contains a node handle"))
      end
  end.

Definition enqueue_node (queue : string) (value : NodeHandle) (priority : list Z) : K unit :=
  _ ← reads (require_node value);
  selected ← lift (ok_or (node_queue queue) (wire "trace node queue is unknown"));
  enqueue_into selected (QNode value) priority.

Definition take_existential_candidate : K (option NodeHandle) :=
  q ← gets (λ k, existential_candidates (state k));
  match Queue.pop q with
  | None => mret None
  | Some (value, q') =>
      _ ← upd (λ s, s <| existential_candidates := q' |>);
      _ ← record_mutation;
      match value with
      | QNode h => mret (Some h)
      | Integer _ => lift (Err (invariant "existential queue contains an integer"))
      end
  end.

(** ** Existential reuse *)

Definition existential_reuse_node (filler : N) (k : TableauKernel) : option NodeHandle :=
  existential_reuse_nodes (state k) !! filler.

Definition set_existential_reuse_node (filler : N) (h : NodeHandle) : K unit :=
  _ ← reads (require_active h);
  old ← gets (λ k, existential_reuse_nodes (state k) !! filler);
  _ ← upd (λ s, s <| existential_reuse_nodes ::= <[filler := h]> |>);
  if negb (bool_decide (old = Some h)) then record_mutation else mret tt.

Definition remove_existential_reuse_node (filler : N) : K unit :=
  old ← gets (λ k, existential_reuse_nodes (state k) !! filler);
  _ ← upd (λ s, s <| existential_reuse_nodes ::= delete filler |>);
  if bool_decide (is_Some old) then record_mutation else mret tt.

Definition set_existential_reuse_disabled (pid : N) (disabled : bool) : K unit :=
  old ← gets (λ k, bool_decide (pid ∈ existential_reuse_disabled (state k)));
  _ ← upd (λ s, s <| existential_reuse_disabled ::= λ ps,
        if disabled then {[pid]} ∪ ps else ps ∖ {[pid]} |>);
  if negb (Bool.eqb old disabled) then record_mutation else mret tt.

Definition existential_reuse_branch (lvl : N) (k : TableauKernel) : option ExistentialReuseRecord :=
  existential_reuse_branches (state k) !! lvl.

Definition restore_full_checkpoint (checkpoint : TableauKernel) (k : TableauKernel) : TableauKernel :=
  restore (mkCheckpoint (state checkpoint) (trail_length checkpoint)) k
    <| branches := branches checkpoint |> <| operation_root := operation_root checkpoint |>
    <| checkpoint_sequence := N.max (checkpoint_sequence k) (checkpoint_sequence checkpoint) |>.

Definition push_existential_reuse_branch (root : NodeHandle) (pid : N)
    (sups : list DependencySet) (base : DependencySet) : K N :=
  _ ← reads (require_active root);
  _ ← lift (reject_if (bool_decide (sups = [])) (wire "an existential reuse branch requires support"));
  _ ← reads (λ k, iterM (λ support, validate_dependency support k) sups);
  let sups := dedup (sort sups) in
  _ ← reads (validate_dependency base);
  k ← gets id;
  lvl ← lift (ok_or (u32_try_from (length (branches k))) (invariant "branch count exceeds u32"));
  _ ← lift (reject_if (bool_decide (is_Some (existential_reuse_branches (state k) !! lvl)))
    (invariant "existential reuse branch level is already occupied"));
  let checkpoint := k in
  _ ← upd (λ s, s <| existential_reuse_branches ::= <[lvl := mkReuseRecord root pid sups]> |>);
  _ ← record_mutation;
  (λ k, match push_branch "merge" [0; 1] pid base k with
       | (Ok created, k') =>
           if bool_decide (created = lvl) then (Ok created, k')
           else (Err (invariant "existential reuse branch received an unexpected level"),
                 restore_full_checkpoint checkpoint k')
       | (Err error, k') => (Err error, restore_full_checkpoint checkpoint k')
       | (Crash, k') => (Crash, k')
       end) : K N.

Definition remove_existential_reuse_branch (lvl : N) : K unit :=
  old ← gets (λ k, existential_reuse_branches (state k) !! lvl);
  _ ← upd (λ s, s <| existential_reuse_branches ::= delete lvl |>);
  if bool_decide (is_Some old) then record_mutation else mret tt.

(** ** Observations *)

Definition clash (k : TableauKernel) : option Clash := current_clash (state k).

Definition logical_counts (k : TableauKernel) : N * N * N :=
  (N.of_nat (length (live_nodes (state k))),
   N.of_nat (length (List.filter active (facts (state k)))),
   N.of_nat (length (branches k))).

End Kernel.

#[global] Arguments Kernel.require_node : simpl never.
#[global] Arguments Kernel.require_active : simpl never.
#[global] Arguments Kernel.node_index : simpl never.
#[global] Arguments Kernel.representative : simpl never.
#[global] Arguments Kernel.has_ancestor : simpl never.
#[global] Arguments Kernel.validate_dependency : simpl never.
#[global] Arguments Kernel.restore_state : simpl never.
#[global] Arguments Kernel.check_invariants : simpl never.
