(* ===== verification/KernelBase.v ===== *)
(** * Basic facts on the kernel's accessors

    What a successful [require_node], [require_active], [representative] or
    [has_ancestor] says about the arena, and that the bounded loops behind them
    always have enough fuel: no accessor ever returns [Crash]. *)

From S2P Require Import Prelude Order Errors Model Queue Store Kernel.
Import Kernel.

(** ** Outcomes that are not crashes *)

Lemma bind_not_crash {E A B} (m : outcome E A) (f : A → outcome E B) :
  m ≠ Crash → (∀ a, m = Ok a → f a ≠ Crash) → m ≫= f ≠ Crash.
Proof. destruct m; simpl; auto. Qed.

Lemma ok_or_not_crash {E A} (o : option A) (e : E) : ok_or o e ≠ Crash.
Proof. by destruct o. Qed.

Lemma reject_if_not_crash {E} b (e : E) : reject_if b e ≠ Crash.
Proof. by destruct b. Qed.

#[export] Hint Resolve bind_not_crash ok_or_not_crash reject_if_not_crash : tableau.

(** ** Nodes of the arena *)

(** Slot [slot h] holds a live node stamped with the generation of [h]. *)
Definition stored (ns : list (option Node)) (h : NodeHandle) (n : Node) : Prop :=
  ns !! N.to_nat (slot h) = Some (Some n) ∧ generation (n_handle n) = generation h ∧
  n_lifecycle n ≠ Retired.

(** Every node sits in the slot its handle names. *)
Definition slots_ok (ns : list (option Node)) : Prop :=
  ∀ i n, ns !! i = Some (Some n) → N.to_nat (slot (n_handle n)) = i.

Section accessors.
Implicit Types (k : TableauKernel) (h : NodeHandle) (n : Node).

Lemma node_index_Ok h k i :
  node_index h k = Ok i ↔ i = N.to_nat (slot h) ∧ ∃ n, stored (nodes (state k)) h n.
Proof.
  unfold node_index, stored. destruct (nodes (state k) !! N.to_nat (slot h)) as [[n|]|].
  - do 2 case_bool_decide; simpl; split; naive_solver.
  - naive_solver.
  - naive_solver.
Qed.

Lemma require_node_Ok h k n : require_node h k = Ok n ↔ stored (nodes (state k)) h n.
Proof.
  unfold require_node. split.
  - intros H. inv_ok. apply node_index_Ok in H0 as [-> (n' & Hn')].
    destruct Hn' as [Hl ?]. assert (a0 = Some n) as -> by (by destruct a0; simplify_eq/=).
    by simplify_eq.
  - intros Hn. assert (node_index h k = Ok (N.to_nat (slot h))) as ->.
    { apply node_index_Ok. eauto. }
    simpl. unfold index_or_crash. destruct Hn as [-> _]. done.
Qed.

Lemma require_node_cases h k :
  (∃ n, require_node h k = Ok n) ∨ require_node h k = Err (NativeErr.wire "stale native node handle").
Proof.
  unfold require_node, node_index. destruct (nodes (state k) !! N.to_nat (slot h)) as [[n|]|] eqn:E.
  - case_match; simpl; [by right|]. unfold index_or_crash. rewrite E. simpl. eauto.
  - by right.
  - by right.
Qed.

Lemma require_node_not_crash h k : require_node h k ≠ Crash.
Proof. by destruct (require_node_cases h k) as [[n ->]| ->]. Qed.

Lemma require_active_Ok h k n :
  require_active h k = Ok n ↔ stored (nodes (state k)) h n ∧ n_lifecycle n = Active.
Proof.
  unfold require_active. rewrite <-require_node_Ok.
  destruct (require_node h k) as [m| |]; simpl; [|naive_solver..].
  case_bool_decide; naive_solver.
Qed.

Lemma require_active_not_crash h k : require_active h k ≠ Crash.
Proof.
  unfold require_active. apply bind_not_crash; [apply require_node_not_crash|].
  intros n _. by case_bool_decide.
Qed.

Lemma stored_handle ns h n : slots_ok ns → stored ns h n → n_handle n = h.
Proof.
  intros Hs (Hl & Hg & _). apply Hs in Hl. destruct h as [s g], (n_handle n) as [s' g']; simpl in *.
  f_equal; [lia|done].
Qed.

Lemma stored_fun ns h n m : stored ns h n → stored ns h m → n = m.
Proof. intros [Hn _] [Hm _]. by simplify_eq. Qed.

Lemma stored_self ns i n :
  slots_ok ns → ns !! i = Some (Some n) → n_lifecycle n ≠ Retired → stored ns (n_handle n) n.
Proof. intros Hs Hi Hr. split_and!; [|done|done]. by rewrite (Hs _ _ Hi). Qed.

Lemma elem_of_live_nodes s n : n ∈ live_nodes s ↔ ∃ i, nodes s !! i = Some (Some n).
Proof.
  unfold live_nodes. rewrite list_elem_of_omap. split.
  - intros (o & [i Hi]%list_elem_of_lookup & Ho). unfold id in Ho. subst. eauto.
  - intros [i Hi]. exists (Some n). split; [by eapply list_elem_of_lookup_2|done].
Qed.
End accessors.

(** ** The loops have enough fuel *)

(** The handles that [require_node] can accept. *)
Definition arena_handles (s : MutableState) : gset NodeHandle :=
  list_to_set (omap (λ '(i, o), (λ n, mkHandle (N.of_nat i) (generation (n_handle n))) <$> o)
    (enumerate (nodes s))).

Lemma length_omap {A B} (f : A → option B) l : (length (omap f l) ≤ length l)%nat.
Proof. induction l as [|x l IH]; csimpl; [done|]. destruct (f x); simpl; lia. Qed.

Lemma size_list_to_set_le `{Countable A} (l : list A) :
  (size (list_to_set l : gset A) ≤ length l)%nat.
Proof.
  induction l as [|x l IH]; [done|]. rewrite list_to_set_cons, size_union_alt, size_singleton.
  pose proof (subseteq_size (list_to_set l ∖ {[x]} : gset A) (list_to_set l) ltac:(set_solver)).
  simpl; lia.
Qed.

Lemma elem_of_enumerate {A} (l : list A) i x : (i, x) ∈ enumerate l ↔ l !! i = Some x.
Proof.
  unfold enumerate. rewrite elem_of_lookup_imap. naive_solver.
Qed.

Lemma size_arena_handles s : (size (arena_handles s) ≤ length (nodes s))%nat.
Proof.
  unfold arena_handles. etrans; [apply size_list_to_set_le|]. etrans; [apply length_omap|].
  unfold enumerate. by rewrite length_imap.
Qed.

Lemma stored_arena_handles s h n : stored (nodes s) h n → h ∈ arena_handles s.
Proof.
  intros (Hl & Hg & _). unfold arena_handles. rewrite elem_of_list_to_set, list_elem_of_omap.
  exists (N.to_nat (slot h), Some n). split; [by apply elem_of_enumerate|]. simpl.
  rewrite N2Nat.id. destruct h; simpl in *. by subst.
Qed.

(** The live nodes' own handles. *)
Definition own_handles (s : MutableState) : gset NodeHandle :=
  list_to_set (n_handle <$> live_nodes s).

Lemma size_own_handles s : (size (own_handles s) ≤ length (nodes s))%nat.
Proof.
  unfold own_handles. etrans; [apply size_list_to_set_le|]. rewrite length_fmap. apply length_omap.
Qed.

Lemma elem_of_own_handles s n : n ∈ live_nodes s → n_handle n ∈ own_handles s.
Proof. intros Hn. unfold own_handles. rewrite elem_of_list_to_set. apply list_elem_of_fmap. eauto. Qed.

Lemma stored_live s h n : stored (nodes s) h n → n ∈ live_nodes s.
Proof. intros [Hl _]. apply elem_of_live_nodes. eauto. Qed.

Lemma size_seen_lt `{Countable A} (seen all : gset A) x :
  seen ⊆ all → x ∈ all → x ∉ seen → (size seen < size all)%nat.
Proof. intros Hs Hx Hn. apply subset_size. set_solver. Qed.

Section loops.
Implicit Types (k : TableauKernel) (h : NodeHandle).

Lemma representative_loop_not_crash k fuel : ∀ n ds seen,
  seen ⊆ own_handles (state k) → n ∈ live_nodes (state k) →
  (size (own_handles (state k)) - size seen < fuel)%nat →
  representative_loop fuel k n ds seen ≠ Crash.
Proof.
  induction fuel as [|fuel IH]; intros n ds seen Hseen Hn Hf; simpl; [lia|].
  destruct (n_representative n) as [rep|]; [|done]. case_bool_decide as Hin; [done|].
  apply bind_not_crash; [apply require_node_not_crash|]. intros m Hm%require_node_Ok.
  apply elem_of_own_handles in Hn. pose proof (size_seen_lt _ _ _ Hseen Hn Hin).
  apply IH; [set_solver|by eapply stored_live|].
  rewrite size_union, size_singleton by set_solver. lia.
Qed.

(** [representative] always returns: it never runs out of turns. *)
Lemma representative_not_crash h k : representative h k ≠ Crash.
Proof.
  unfold representative. apply bind_not_crash; [apply require_node_not_crash|].
  intros n Hn%require_node_Ok. apply bind_not_crash; [|done].
  apply representative_loop_not_crash; [set_solver|by eapply stored_live|].
  pose proof (size_own_handles (state k)). lia.
Qed.

Lemma canonical_handle_not_crash h k : canonical_handle h k ≠ Crash.
Proof.
  unfold canonical_handle. apply bind_not_crash; [apply representative_not_crash|].
  intros r _. apply bind_not_crash; [apply require_active_not_crash|done].
Qed.

Lemma has_ancestor_loop_not_crash k fuel : ∀ parent a seen,
  seen ⊆ arena_handles (state k) →
  (size (arena_handles (state k)) - size seen < fuel)%nat →
  has_ancestor_loop fuel k parent a seen ≠ Crash.
Proof.
  induction fuel as [|fuel IH]; intros parent a seen Hseen Hf; simpl; [lia|].
  destruct parent as [v|]; [|done]. case_bool_decide; [done|]. case_bool_decide as Hin; [done|].
  apply bind_not_crash; [apply require_node_not_crash|].
  intros m Hm%require_node_Ok%stored_arena_handles.
  pose proof (size_seen_lt _ _ _ Hseen Hm Hin). apply IH; [set_solver|].
  rewrite size_union, size_singleton by set_solver. lia.
Qed.

(** [has_ancestor] always returns. *)
Lemma has_ancestor_not_crash n a k : has_ancestor n a k ≠ Crash.
Proof.
  unfold has_ancestor. apply has_ancestor_loop_not_crash; [set_solver|].
  pose proof (size_arena_handles (state k)). lia.
Qed.

Lemma merge_direction_not_crash m n k : merge_direction m n k ≠ Crash.
Proof.
  unfold merge_direction. apply bind_not_crash; [apply has_ancestor_not_crash|].
  intros [] _; [done|]. apply bind_not_crash; [apply has_ancestor_not_crash|].
  intros [] _; [done|]. by case_bool_decide.
Qed.
End loops.

(** [inv_kernel] extends [inv_ok] with what the accessors return. *)
Ltac inv_kernel_step :=
  match goal with
  | H : require_node _ _ = Ok _ |- _ => apply require_node_Ok in H
  | H : require_active _ _ = Ok _ |- _ => apply require_active_Ok in H
  | H : node_index _ _ = Ok _ |- _ => apply node_index_Ok in H
  end.

Ltac inv_kernel := repeat (inv_ok; inv_kernel_step); inv_ok.

(** ** Frames

    What every operation inside a branch leaves alone: the branch stack and
    the operation root; counters only grow. *)

Record kframe (k k' : TableauKernel) : Prop := {
  frame_branches : branches k' = branches k;
  frame_root : operation_root k' = operation_root k;
  frame_trail : trail_length k ≤ trail_length k';
  frame_sequence : checkpoint_sequence k ≤ checkpoint_sequence k'
}.

#[global] Instance kframe_preorder : PreOrder kframe.
Proof.
  split.
  - intros k. split; done.
  - intros k1 k2 k3 [] []. split; [congruence|congruence|lia|lia].
Qed.

(** The highest branch level, [0] before the first branch. *)
Definition top (k : TableauKernel) : N := default 0 (highest_branch_level k).

Lemma top_frame k k' : kframe k k' → top k' = top k.
Proof. intros Hf. unfold top, highest_branch_level. by rewrite (frame_branches _ _ Hf). Qed.


Lemma record_mutation_Ok k u k' :
  record_mutation k = (Ok u, k') →
  trail_length k + 1 ≤ u64_max ∧ k' = k <| trail_length := trail_length k + 1 |>.
Proof. intros H. unfold record_mutation in H. inv_ok. unfold id in *. auto. Qed.

Lemma record_mutation_frame k u k' :
  record_mutation k = (Ok u, k') → kframe k k' ∧ state k' = state k.
Proof. intros [_ ->]%record_mutation_Ok. split; [split; cbn; try done; lia|done]. Qed.

Lemma bump_sequence_frame k u k' :
  bump_sequence k = (Ok u, k') → kframe k k' ∧ state k' = state k.
Proof.
  intros H. unfold bump_sequence in H. inv_ok. unfold id in *. split; [split; cbn; try done; lia|done].
Qed.

Lemma upd_frame f k u k' :
  upd f k = (Ok u, k') → kframe k k' ∧ state k' = f (state k).
Proof. intros H. unfold upd in H. inv_ok. split; [split; done|done]. Qed.

Lemma maybe_mutation_frame (b : bool) k u k' :
  (if b then record_mutation else mret tt) k = (Ok u, k') → kframe k k' ∧ state k' = state k.
Proof. destruct b; [apply record_mutation_frame|]. intros H. by inv_ok. Qed.

Lemma kframe_state f k : kframe k (k <| state ::= f |>).
Proof. split; done. Qed.
#[export] Hint Resolve kframe_state : tableau.

(** A run of elementary assignments: [kstep] replaces each of them in the
    context by its frame and the new state. *)
Ltac kstep :=
  match goal with
  | H : record_mutation _ = (Ok _, _) |- _ =>
      let F := fresh "Hfr" in let S := fresh "Hst" in apply record_mutation_frame in H as [F S]
  | H : (if _ then record_mutation else mret tt) _ = (Ok _, _) |- _ =>
      let F := fresh "Hfr" in let S := fresh "Hst" in apply maybe_mutation_frame in H as [F S]
  | H : bump_sequence _ = (Ok _, _) |- _ =>
      let F := fresh "Hfr" in let S := fresh "Hst" in apply bump_sequence_frame in H as [F S]
  | H : upd _ _ = (Ok _, _) |- _ =>
      let F := fresh "Hfr" in let S := fresh "Hst" in apply upd_frame in H as [F S]
  end.

(** Rewrites the state after each step into the state before it. *)
Ltac kstates := repeat match goal with H : state ?k = _ |- context [state ?k] => rewrite H end; cbn.
Ltac kstates_in G :=
  repeat match goal with H : state ?k = _ |- _ =>
    lazymatch type of G with context [state k] => rewrite H in G end end; cbn in G.

(** Closes [kframe k k'] from the frames of the steps in between. *)
Ltac kframes :=
  solve [ assumption | reflexivity
        | match goal with
          | H : kframe ?k ?k1 |- kframe ?k _ => etrans; [exact H|clear H; kframes]
          end ].

(** ** Dependencies of the current branch stack *)

Lemma validate_dependency_bounded d k u :
  canonical d → validate_dependency d k = Ok u → dep_bounded (top k) d.
Proof.
  intros Hd H. unfold validate_dependency in H. inv_ok. apply dep_bounded_maximum; [done|].
  intros m Hm. unfold top. rewrite Hm in H. destruct (highest_branch_level k); [|done].
  apply N.ltb_ge in H. done.
Qed.

(** The check accepts exactly the dependencies on existing levels. *)
Lemma validate_dependency_Ok d k :
  canonical d →
  validate_dependency d k = Ok tt ↔
    match highest_branch_level k with
    | Some highest => dep_bounded highest d
    | None => as_slice d = []
    end.
Proof.
  intros Hd. unfold validate_dependency. rewrite reject_if_Ok.
  destruct (highest_branch_level k) as [hi|].
  - rewrite dep_bounded_maximum by done. destruct (Dep.maximum d) as [m|]; [|naive_solver].
    rewrite N.ltb_ge. naive_solver.
  - rewrite <-maximum_None. by destruct (Dep.maximum d).
Qed.

Lemma validate_dependency_frame d k k' :
  kframe k k' → validate_dependency d k' = validate_dependency d k.
Proof. intros Hf. unfold validate_dependency, highest_branch_level. by rewrite (frame_branches _ _ Hf). Qed.

(** ** Loops that do not crash *)

Lemma iterM_not_crash {E A} (f : A → outcome E unit) l : (∀ x, x ∈ l → f x ≠ Crash) → iterM f l ≠ Crash.
Proof.
  induction l as [|x l IH]; intros Hf; simpl; [done|]. apply bind_not_crash; [apply Hf; by left|].
  intros _ _. apply IH. intros y ?. apply Hf. by right.
Qed.

Lemma foldM_not_crash {E A B} (f : B → A → outcome E B) l b :
  (∀ x b, x ∈ l → f b x ≠ Crash) → foldM f l b ≠ Crash.
Proof.
  revert b. induction l as [|x l IH]; intros b Hf; simpl; [done|]. apply bind_not_crash; [apply Hf; by left|].
  intros b' _. apply IH. intros y b'' ?. apply Hf. by right.
Qed.

Lemma collectM_not_crash {E A B} (f : A → outcome E B) l : (∀ x, x ∈ l → f x ≠ Crash) → collectM f l ≠ Crash.
Proof.
  induction l as [|x l IH]; intros Hf; [done|]. cbn. apply bind_not_crash; [apply Hf; by left|]. intros y _.
  apply bind_not_crash; [apply IH; intros z Hz; apply Hf; by right|done].
Qed.

Lemma elem_of_live_entries s i n : (i, n) ∈ live_entries s ↔ nodes s !! i = Some (Some n).
Proof.
  unfold live_entries. rewrite list_elem_of_omap. split.
  - intros ([j [m|]] & Hj%elem_of_enumerate & E); simplify_eq/=. done.
  - intros Hi. exists (i, Some n). split; [by apply elem_of_enumerate|done].
Qed.

(** Walks through a [&self] computation; what remains are indexing steps. *)
Ltac not_crash :=
  repeat first
    [ apply reject_if_not_crash | apply ok_or_not_crash | apply require_node_not_crash
    | apply require_active_not_crash | apply representative_not_crash
    | apply iterM_not_crash; intros ? ? | apply foldM_not_crash; intros ? ? ?
    | apply bind_not_crash; [|intros ? ?]
    | match goal with
      | |- match ?x with _ => _ end ≠ Crash => destruct x
      | |- Ok _ ≠ Crash => discriminate
      | |- Err _ ≠ Crash => discriminate
      end ].

Lemma check_node_not_crash hi k ids i n :
  (i < length (generations (state k)))%nat → check_node hi k ids (i, n) ≠ Crash.
Proof.
  intros Hi. unfold check_node, check_parent, check_link, check_blocker. not_crash. unfold index_or_crash.
  by apply lookup_lt_is_Some in Hi as [g ->].
Qed.

(** The audit answers on every arena whose tables have the same length. *)
Lemma check_invariants_not_crash k :
  length (generations (state k)) = length (nodes (state k)) → check_invariants k ≠ Crash.
Proof.
  intros Hlen. unfold check_invariants, check_arena, check_nodes, check_facts, check_queues,
    check_disjunctions, check_reuse_branches, check_clash_and_branches.
  apply bind_not_crash; [not_crash|intros _ _]. apply bind_not_crash; [apply bind_not_crash; [|done]|intros _ _].
  - apply foldM_not_crash. intros [i n] ids Hin%elem_of_live_entries. apply check_node_not_crash.
    apply lookup_lt_Some in Hin. lia.
  - unfold check_row, check_supports, Queue.check_invariants. not_crash.
Qed.
