(* ===== verification/Arena.v ===== *)
(** * The node arena: representatives, ancestors and the arena invariant

    [resolves] and [ancestor] are the relations that the loops of
    [representative] and [has_ancestor] compute.  [arena_ok] is what the audit
    demands of the nodes, strengthened until every operation keeps it: parents
    are one level up, merge links end, and only live nodes block. *)

From S2P Require Import Prelude Order Errors Model Queue Store Kernel KernelBase.
Import Kernel.

(** ** Merge links *)

(** Following the links from [h] ends at the unmerged node [r]; [ds] are the
    dependencies of the links, in order. *)
Inductive resolves (ns : list (option Node)) : NodeHandle → NodeHandle → list DependencySet → Prop :=
| resolves_here h n :
    stored ns h n → n_representative n = None → resolves ns h (n_handle n) []
| resolves_step h n h' r ds :
    stored ns h n → n_representative n = Some h' → resolves ns h' r ds →
    resolves ns h r (n_merge_dependency n :: ds).

(** Following parents upwards from [o] reaches [a]. *)
Inductive ancestor (ns : list (option Node)) : option NodeHandle → NodeHandle → Prop :=
| ancestor_here a : ancestor ns (Some a) a
| ancestor_up v n a : stored ns v n → ancestor ns (n_parent n) a → ancestor ns (Some v) a.

Section resolves.
Context (ns : list (option Node)).
Hypothesis Hslots : slots_ok ns.

Lemma resolves_stored h r ds : resolves ns h r ds → ∃ n, stored ns h n.
Proof. destruct 1; eauto. Qed.

Lemma resolves_det h r ds r' ds' :
  resolves ns h r ds → resolves ns h r' ds' → r = r' ∧ ds = ds'.
Proof.
  intros H. revert r' ds'.
  induction H as [h n Hn Hr|h n h' r ds Hn Hr H IH]; intros r' ds' H';
    inversion H' as [? n' Hn' Hr'|? n' h'' ? ds'' Hn' Hr' Hres]; subst;
    pose proof (stored_fun _ _ _ _ Hn Hn') as <-; try congruence; [done|].
  assert (h'' = h') as -> by congruence. destruct (IH _ _ Hres) as [-> ->]. done.
Qed.

(** The end of the links is a stored node without a link. *)
Lemma resolves_target h r ds :
  resolves ns h r ds → ∃ n, stored ns r n ∧ n_representative n = None.
Proof.
  induction 1 as [h n Hn Hr|]; [|done]. exists n. split; [|done].
  by rewrite (stored_handle _ _ _ Hslots Hn).
Qed.

Lemma resolves_self h n : stored ns h n → n_representative n = None → resolves ns h h [].
Proof.
  intros Hn Hr. pose proof (resolves_here _ _ _ Hn Hr) as H.
  by rewrite (stored_handle _ _ _ Hslots Hn) in H.
Qed.

End resolves.

Section representative.
Context (k : TableauKernel).
Hypothesis Hslots : slots_ok (nodes (state k)).
Abbreviation ns := (nodes (state k)).

Lemma representative_loop_sound fuel : ∀ h n acc seen r ds,
  stored ns h n → representative_loop fuel k n acc seen = Ok (r, ds) →
  ∃ ds', ds = acc ++ ds' ∧ resolves ns h r ds'.
Proof.
  induction fuel as [|fuel IH]; intros h n acc seen r ds Hn; simpl; [done|].
  destruct (n_representative n) as [rep|] eqn:Hr.
  - case_bool_decide; [done|]. intros H'. inv_ok. apply require_node_Ok in H0.
    destruct (IH _ _ _ _ _ _ H0 H') as (ds' & -> & Hres).
    exists (n_merge_dependency n :: ds'). split; [by rewrite <-app_assoc|]. by eapply resolves_step.
  - intros [= <- <-]. exists []. rewrite app_nil_r. split; [done|]. by apply resolves_here.
Qed.

Lemma representative_loop_complete fuel : ∀ h n acc seen r ds,
  stored ns h n → resolves ns h r ds →
  (∀ x, x ∈ seen → ∃ ds', resolves ns x r ds' ∧ (length ds < length ds')%nat) →
  representative_loop fuel k n acc seen = Crash ∨
  representative_loop fuel k n acc seen = Ok (r, acc ++ ds).
Proof.
  induction fuel as [|fuel IH]; intros h n acc seen r ds Hn Hres Hseen; simpl; [by left|].
  inversion Hres as [? n' Hn' Hr|? n' h' ? ds' Hn' Hr Hres']; subst;
    pose proof (stored_fun _ _ _ _ Hn Hn') as <-; rewrite Hr.
  - right. by rewrite app_nil_r.
  - pose proof (stored_handle _ _ _ Hslots Hn) as Hh. rewrite bool_decide_eq_false_2.
    2:{ rewrite Hh. intros (ds'' & Hres'' & Hlt)%Hseen.
        destruct (resolves_det _ _ _ _ _ _ Hres Hres'') as [_ <-]. lia. }
    destruct (resolves_stored _ _ _ _ Hres') as [m Hm].
    assert (require_node h' k = Ok m) as -> by (by apply require_node_Ok). simpl.
    destruct (IH h' m (acc ++ [n_merge_dependency n]) ({[n_handle n]} ∪ seen) r ds') as [->| ->];
      [done|done| |by left|right; by rewrite <-app_assoc].
    intros x [->%elem_of_singleton|Hx]%elem_of_union.
    + exists (n_merge_dependency n :: ds'). rewrite Hh. simpl. split; [done|lia].
    + destruct (Hseen x Hx) as (dsx & ? & ?). exists dsx. simpl in *. split; [done|lia].
Qed.

(** [representative] computes [resolves]. *)
Lemma representative_Ok h r d :
  representative h k = Ok (r, d) ↔ ∃ ds, resolves ns h r ds ∧ d = Dep.union ds.
Proof.
  unfold representative. split.
  - intros H. inv_ok. destruct a0 as [r' ds]; cbn [fst snd] in *. simplify_eq.
    apply require_node_Ok in H0.
    destruct (representative_loop_sound _ _ _ _ _ _ _ H0 H1) as (ds' & -> & Hres).
    simpl. eauto.
  - intros (ds & Hres & ->). destruct (resolves_stored _ _ _ _ Hres) as [n Hn].
    assert (require_node h k = Ok n) as -> by (by apply require_node_Ok). rewrite bind_Ok_l.
    destruct (representative_loop_complete (S (length ns)) h n [] ∅ r ds)
      as [Hc| ->]; [done|done|set_solver| |done].
    apply representative_loop_not_crash in Hc; [done|set_solver| |].
    + by apply (stored_live _ h).
    + pose proof (size_own_handles (state k)). lia.
Qed.

Lemma canonical_handle_Ok h r d :
  canonical_handle h k = Ok (r, d) ↔
  (∃ ds, resolves ns h r ds ∧ d = Dep.union ds) ∧ ∃ n, stored ns r n ∧ n_lifecycle n = Active.
Proof.
  unfold canonical_handle. rewrite <-representative_Ok. split.
  - intros H. inv_ok. simpl in *. apply require_active_Ok in H1. split; [done|by eexists].
  - intros [-> (n & Hn)]. apply require_active_Ok in Hn. simpl. by rewrite Hn.
Qed.
End representative.

(** ** Ancestors *)

Section ancestors.
Context (k : TableauKernel).
Abbreviation ns := (nodes (state k)).

Lemma has_ancestor_loop_sound fuel : ∀ o a seen b,
  has_ancestor_loop fuel k o a seen = Ok b → b = true ↔ ancestor ns o a.
Proof.
  induction fuel as [|fuel IH]; intros o a seen b; simpl; [done|].
  destruct o as [v|].
  - case_bool_decide as Hv.
    + intros [= <-]. subst. split; [constructor|done].
    + case_bool_decide; [done|]. intros H'. apply outcome_bind_Ok in H' as (m & Hm%require_node_Ok & H').
      apply IH in H'. rewrite H'. split; [by eapply ancestor_up|].
      inversion 1 as [|? n ? Hn]; subst; [done|]. by rewrite (stored_fun _ _ _ _ Hm Hn).
  - intros [= <-]. split; [done|]. inversion 1.
Qed.

(** [has_ancestor] answers the question it is asked. *)
Lemma has_ancestor_Ok n a b :
  has_ancestor n a k = Ok b → b = true ↔ ancestor ns (n_parent n) a.
Proof. apply has_ancestor_loop_sound. Qed.
End ancestors.

(** ** The arena invariant *)

Definition active_handle (ns : list (option Node)) (h : NodeHandle) : Prop :=
  ∃ n, stored ns h n ∧ n_lifecycle n = Active.

Definition blockable (ns : list (option Node)) (h : NodeHandle) : Prop :=
  ∃ n, stored ns h n ∧ n_lifecycle n = Active ∧ n_sort n = Object.

(** What holds of each node of an arena whose highest branch level is [hi] and
    whose next creation id is [next]. *)
Record node_ok (hi next : N) (ns : list (option Node)) (n : Node) : Prop := {
  node_creation : n_creation_id n < next;
  node_checkpoint : n_creation_checkpoint n ≤ hi;
  node_not_retired : n_lifecycle n ≠ Retired;
  node_sort_ok : n_sort n = kind_sort (n_kind n);
  node_depth : n_tree_depth n ≤ u32_max;
  node_tree :
    if bool_decide (n_kind n = Tree)
    then ∃ p m, n_parent n = Some p ∧ stored ns p m ∧ n_tree_depth n = n_tree_depth m + 1 ∧
      n_creation_id m < n_creation_id n
    else n_parent n = None ∧ n_tree_depth n = 0;
  node_link :
    match n_representative n with
    | Some _ => n_lifecycle n = Merged ∧ canonical (n_merge_dependency n)
                ∧ dep_bounded hi (n_merge_dependency n)
    | None => n_lifecycle n ≠ Merged
    end;
  node_blocker b : n_blocker n = Some b →
    n_lifecycle n = Active ∧ n_sort n = Object ∧ blockable ns b
}.

Record arena_ok (hi : N) (s : MutableState) : Prop := {
  arena_length : length (generations s) = length (nodes s);
  arena_capacity : N.of_nat (length (nodes s)) ≤ 2 ^ 32;
  arena_free : free_slots s = vacant_slots (nodes s);
  arena_slots : slots_ok (nodes s);
  arena_generation i n g :
    nodes s !! i = Some (Some n) → generations s !! i = Some g → generation (n_handle n) ≤ g;
  arena_creation i j m n :
    nodes s !! i = Some (Some m) → nodes s !! j = Some (Some n) →
    n_creation_id m = n_creation_id n → i = j;
  arena_node i n : nodes s !! i = Some (Some n) → node_ok hi (next_creation_id s) (nodes s) n;
  arena_resolves h n : stored (nodes s) h n → ∃ r ds, resolves (nodes s) h r ds
}.

Lemma arena_ok_new hi : arena_ok hi MutableState_new.
Proof.
  split; simpl; try done.
  intros h n [Hn _]. by rewrite lookup_nil in Hn.
Qed.

(** [arena_ok] only looks at four fields. *)
Lemma arena_ok_frame hi s s' :
  nodes s' = nodes s → generations s' = generations s → free_slots s' = free_slots s →
  next_creation_id s' = next_creation_id s → arena_ok hi s → arena_ok hi s'.
Proof.
  intros E1 E2 E3 E4 [H1 H2 H3 H4 H5 H6 H7 H8].
  split; rewrite ?E1, ?E2, ?E3, ?E4; auto.
Qed.

Lemma node_ok_mono hi hi' next next' ns ns' n :
  hi ≤ hi' → next ≤ next' →
  (∀ p m, n_parent n = Some p → stored ns p m →
    ∃ m', stored ns' p m' ∧ n_tree_depth m' = n_tree_depth m ∧ n_creation_id m' = n_creation_id m) →
  (∀ b, n_blocker n = Some b → blockable ns b → blockable ns' b) →
  node_ok hi next ns n → node_ok hi' next' ns' n.
Proof.
  intros Hhi Hnext Hp Hb [H1 H2 H3 H4 H5 H6 H7 H8]. split; auto; try lia.
  - case_bool_decide; [|done]. destruct H6 as (p & m & Hpn & Hm & -> & Hc).
    destruct (Hp p m Hpn Hm) as (m' & ? & <- & Hc'). rewrite <-Hc' in Hc. eauto 6.
  - destruct (n_representative n); [|done]. destruct H7 as (? & ? & ?).
    split_and!; [done..|]. by eapply dep_bounded_mono.
  - intros b Hnb. destruct (H8 b Hnb) as (? & ? & ?). auto.
Qed.

Lemma arena_ok_mono hi hi' s : hi ≤ hi' → arena_ok hi s → arena_ok hi' s.
Proof.
  intros Hhi [H1 H2 H3 H4 H5 H6 H7 H8]. split; auto.
  intros i n Hi. eapply node_ok_mono; [done|done| | |by eapply H7]; eauto.
Qed.

Lemma arena_stored_not_retired hi s i n :
  arena_ok hi s → nodes s !! i = Some (Some n) → stored (nodes s) (n_handle n) n.
Proof.
  intros Ha Hi. eapply stored_self; [by eapply arena_slots|done|].
  by eapply node_not_retired, arena_node.
Qed.

(** ** Changing one entry of the arena *)

Section stored_insert.
Implicit Types ns : list (option Node).

Lemma stored_insert_ne ns i o h m :
  N.to_nat (slot h) ≠ i → stored (<[i := o]> ns) h m ↔ stored ns h m.
Proof. intros Hne. unfold stored. by rewrite list_lookup_insert_ne. Qed.

Lemma stored_insert_eq ns i n h m :
  N.to_nat (slot h) = i → (i < length ns)%nat →
  stored (<[i := Some n]> ns) h m ↔
    m = n ∧ generation (n_handle n) = generation h ∧ n_lifecycle n ≠ Retired.
Proof. intros <- Hi. unfold stored. rewrite list_lookup_insert_eq by done. naive_solver. Qed.

Lemma stored_insert_None ns i h m : stored (<[i := None]> ns) h m → stored ns h m.
Proof.
  intros (Hl & ? & ?). apply list_lookup_insert_Some in Hl as [(_ & ? & _)|[_ ?]]; [done|].
  by split_and!.
Qed.

Lemma vacant_slots_spec ns x :
  N.of_nat (length ns) ≤ 2 ^ 32 → x ∈ vacant_slots ns ↔ ns !! N.to_nat x = Some None.
Proof.
  intros Hcap. unfold vacant_slots. rewrite elem_of_list_to_set, list_elem_of_omap. split.
  - intros ([i [n|]] & Hi%elem_of_enumerate & Hx); simpl in *; [done|]. inv_ok. by rewrite Nat2N.id.
  - intros Hx. exists (N.to_nat x, None). split; [by apply elem_of_enumerate|]. simpl.
    apply u32_try_from_Some. rewrite N2Nat.id. split; [done|].
    apply lookup_lt_Some in Hx. unfold u32_max. lia.
Qed.

Lemma vacant_slots_insert_Some ns i n :
  N.of_nat (length ns) ≤ 2 ^ 32 →
  vacant_slots (<[i := Some n]> ns) = vacant_slots ns ∖ {[N.of_nat i]}.
Proof.
  intros Hcap. apply set_eq. intros x. rewrite elem_of_difference, elem_of_singleton.
  rewrite !vacant_slots_spec by (by rewrite ?length_insert).
  rewrite list_lookup_insert_Some. split.
  - intros [(_ & ? & _)|[Hne ?]]; [done|]. split; [done|]. intros ->. by rewrite Nat2N.id in Hne.
  - intros [? Hne]. right. split; [|done]. intros ->. by rewrite N2Nat.id in Hne.
Qed.

Lemma vacant_slots_insert_None ns i :
  N.of_nat (length ns) ≤ 2 ^ 32 → (i < length ns)%nat →
  vacant_slots (<[i := None]> ns) = {[N.of_nat i]} ∪ vacant_slots ns.
Proof.
  intros Hcap Hi. apply set_eq. intros x. rewrite elem_of_union, elem_of_singleton.
  rewrite !vacant_slots_spec by (by rewrite ?length_insert).
  rewrite list_lookup_insert_Some. split.
  - intros [(-> & _ & _)|[Hne ?]]; [left; by rewrite N2Nat.id|by right].
  - intros [->|?]; [left; by rewrite Nat2N.id|].
    destruct (decide (i = N.to_nat x)) as [->|]; [by left|by right].
Qed.
End stored_insert.

(** Two versions of a node that differ only in what may change over its life. *)
Record same_identity (n n' : Node) : Prop := {
  same_handle : n_handle n' = n_handle n;
  same_creation : n_creation_id n' = n_creation_id n;
  same_kind : n_kind n' = n_kind n;
  same_sort : n_sort n' = n_sort n;
  same_parent : n_parent n' = n_parent n;
  same_depth : n_tree_depth n' = n_tree_depth n;
  same_checkpoint : n_creation_checkpoint n' = n_creation_checkpoint n
}.

(** Replacing a node by a later version of itself. *)
Section update_entry.
Context (ns : list (option Node)) (i : nat) (n n' : Node).
Hypothesis Hslots : slots_ok ns.
Hypothesis Hi : ns !! i = Some (Some n).
Hypothesis Hid : same_identity n n'.
Hypothesis Hlive : n_lifecycle n ≠ Retired.
Hypothesis Hlive' : n_lifecycle n' ≠ Retired.
Abbreviation ns' := (<[i := Some n']> ns).

Lemma update_slots : slots_ok ns'.
Proof.
  intros j m Hj. apply list_lookup_insert_Some in Hj as [(<- & [= ->] & _)|[_ Hj]]; [|by apply Hslots].
  rewrite (same_handle _ _ Hid). by apply Hslots.
Qed.

(** A handle names the new version of the node it named before. *)
Lemma update_stored h m :
  stored ns h m → ∃ m', stored ns' h m' ∧ (m' = m ∧ n_handle m ≠ n_handle n ∨ m = n ∧ m' = n').
Proof.
  intros Hm. destruct (decide (N.to_nat (slot h) = i)) as [Hh|Hh].
  - exists n'. destruct Hm as (Hl & Hg & Hr). rewrite Hh, Hi in Hl. injection Hl as <-.
    split; [|by right]. apply stored_insert_eq; [done|by eapply lookup_lt_Some|].
    split_and!; [done| |done]. by rewrite (same_handle _ _ Hid).
  - exists m. split; [by apply stored_insert_ne|]. left. split; [done|].
    intros Heq. apply Hh. rewrite <-(stored_handle _ _ _ Hslots Hm), Heq. by apply Hslots.
Qed.

Lemma update_stored_inv h m' :
  stored ns' h m' → ∃ m, stored ns h m ∧ (m' = m ∧ n_handle m ≠ n_handle n ∨ m = n ∧ m' = n').
Proof.
  intros Hm. destruct (decide (N.to_nat (slot h) = i)) as [Hh|Hh].
  - apply stored_insert_eq in Hm as (-> & Hg & _); [|done|by eapply lookup_lt_Some].
    exists n. split; [|by right]. rewrite (same_handle _ _ Hid) in Hg.
    split_and!; [by rewrite Hh|done|done].
  - apply stored_insert_ne in Hm; [|done]. exists m'. split; [done|]. left. split; [done|].
    intros Heq. apply Hh. rewrite <-(stored_handle _ _ _ Hslots Hm), Heq. by apply Hslots.
Qed.

Lemma update_stored_depth h m :
  stored ns h m → ∃ m', stored ns' h m' ∧ n_tree_depth m' = n_tree_depth m ∧ n_creation_id m' = n_creation_id m.
Proof.
  intros (m' & Hm' & [[-> _]|[-> ->]])%update_stored; [by eauto|].
  exists n'. split; [done|]. split; [apply same_depth, Hid|apply same_creation, Hid].
Qed.

Lemma update_ancestor o a : ancestor ns' o a ↔ ancestor ns o a.
Proof.
  split.
  - induction 1 as [|v m a Hm _ IH]; [constructor|].
    destruct (update_stored_inv _ _ Hm) as (m0 & Hm0 & [[-> _]|[-> ->]]);
      (eapply ancestor_up; [done|]); [done|]. by rewrite <-(same_parent _ _ Hid).
  - induction 1 as [|v m a Hm _ IH]; [constructor|].
    destruct (update_stored _ _ Hm) as (m0 & Hm0 & [[-> _]|[-> ->]]);
      (eapply ancestor_up; [done|]); [done|]. by rewrite (same_parent _ _ Hid).
Qed.
End update_entry.

(** The arena stays well formed when one entry changes to a well-formed later
    version, other nodes keep their blockers and links still end. *)
Lemma arena_update hi s i n n' :
  arena_ok hi s → nodes s !! i = Some (Some n) → same_identity n n' →
  node_ok hi (next_creation_id s) (<[i := Some n']> (nodes s)) n' →
  (∀ j m b, nodes s !! j = Some (Some m) → j ≠ i → n_blocker m = Some b →
    blockable (nodes s) b → blockable (<[i := Some n']> (nodes s)) b) →
  (∀ h m, stored (nodes s) h m → ∃ r ds, resolves (<[i := Some n']> (nodes s)) h r ds) →
  arena_ok hi (s <| nodes ::= <[i := Some n']> |>).
Proof.
  intros Ha Hi Hid Hn' Hb Hres.
  pose proof (node_not_retired _ _ _ _ (arena_node _ _ Ha _ _ Hi)) as Hl.
  pose proof (node_not_retired _ _ _ _ Hn') as Hl'.
  pose proof (arena_slots _ _ Ha) as Hslots.
  destruct Ha as [H1 H2 H3 _ H5 H6 H7 _]. split; cbn.
  - by rewrite length_insert.
  - by rewrite length_insert.
  - rewrite H3, vacant_slots_insert_Some by done. apply set_eq. intros x.
    rewrite elem_of_difference, elem_of_singleton, vacant_slots_spec by done.
    split; [|naive_solver]. intros Hx. split; [done|]. intros ->. rewrite Nat2N.id in Hx. congruence.
  - by eapply update_slots.
  - intros j m g [(<- & [= <-] & _)|[_ Hj]]%list_lookup_insert_Some Hg; [|by eapply H5].
    rewrite (same_handle _ _ Hid). by eapply H5.
  - intros j1 j2 m1 m2 [(<- & [= <-] & _)|[Hne1 Hj1]]%list_lookup_insert_Some
      [(<- & [= <-] & _)|[Hne2 Hj2]]%list_lookup_insert_Some; [done| | |by eapply H6].
    + rewrite (same_creation _ _ Hid). by apply H6.
    + rewrite (same_creation _ _ Hid). by apply H6.
  - intros j m [(<- & [= <-] & _)|[Hne Hj]]%list_lookup_insert_Some; [done|].
    eapply node_ok_mono; [done|done| | |by eapply H7].
    + intros p m' _ Hm'. by eapply update_stored_depth.
    + intros b Hmb. by eapply Hb.
  - intros h m (m0 & Hm0 & _)%(update_stored_inv _ _ _ _ Hslots Hi Hid Hl). by eapply Hres.
Qed.

(** Links are unchanged when every node keeps its link. *)
Lemma resolves_transport ns ns' h r ds :
  (∀ h m, stored ns h m → ∃ m', stored ns' h m' ∧ n_handle m' = n_handle m ∧
    n_representative m' = n_representative m ∧ n_merge_dependency m' = n_merge_dependency m) →
  resolves ns h r ds → resolves ns' h r ds.
Proof.
  intros Hst. induction 1 as [h n Hn Hr|h n h' r ds Hn Hr _ IH].
  - destruct (Hst _ _ Hn) as (m' & Hm' & <- & Hr' & _). apply resolves_here; [done|congruence].
  - destruct (Hst _ _ Hn) as (m' & Hm' & _ & Hr' & <-). eapply resolves_step; [done|by rewrite Hr'|done].
Qed.

(** Changing attributes of a node other than its lifecycle and its link. *)
Lemma arena_update_attr hi s i n n' :
  arena_ok hi s → nodes s !! i = Some (Some n) → same_identity n n' →
  n_lifecycle n' = n_lifecycle n → n_representative n' = n_representative n →
  n_merge_dependency n' = n_merge_dependency n →
  (∀ b, n_blocker n' = Some b →
    n_lifecycle n = Active ∧ n_sort n = Object ∧ blockable (nodes s) b) →
  arena_ok hi (s <| nodes ::= <[i := Some n']> |>).
Proof.
  intros Ha Hi Hid Hlc Hrep Hdep Hblk.
  pose proof (arena_node _ _ Ha _ _ Hi) as Hn. pose proof (node_not_retired _ _ _ _ Hn) as Hl.
  pose proof (arena_slots _ _ Ha) as Hslots.
  assert (n_lifecycle n' ≠ Retired) as Hl' by congruence.
  assert (∀ b, blockable (nodes s) b → blockable (<[i := Some n']> (nodes s)) b) as Hb.
  { intros b (m & Hm & ? & ?).
    destruct (update_stored _ _ _ _ Hslots Hi Hid Hl' _ _ Hm) as (m' & Hm' & [[-> _]|[-> ->]]).
    - exists m. done.
    - exists n'. by rewrite Hlc, (same_sort _ _ Hid). }
  eapply arena_update; [done|done|done| |by eauto|].
  - destruct Hn, Hid. split; rewrite ?Hlc, ?Hrep, ?Hdep; try congruence.
    + case_bool_decide as Hk; case_bool_decide as Hk'; try congruence.
      destruct node_tree0 as (p & m & Hp & Hm & Hd & Hc).
      edestruct (update_stored_depth (nodes s) i n n') as (m' & Hm' & Hd' & Hc'); [done|done|by split|done|done|].
      exists p, m'. split_and!; [congruence|done|congruence|congruence].
    + intros b Hb'. destruct (Hblk b Hb') as (? & ? & ?). split_and!; [done|congruence|by apply Hb].
  - intros h m Hm. destruct (arena_resolves _ _ Ha _ _ Hm) as (r & ds & Hres). exists r, ds.
    eapply resolves_transport; [|done]. intros h' m0 Hm0.
    destruct (update_stored _ _ _ _ Hslots Hi Hid Hl' _ _ Hm0) as (m' & Hm' & [[-> _]|[-> ->]]).
    + eauto.
    + exists n'. split_and!; [done|apply same_handle, Hid|done|done].
Qed.

(** An active node leaves the active arena: nothing may be blocked by it. *)
Section leave.
Context (hi : N) (s : MutableState) (i : nat) (n n' : Node).
Hypothesis Ha : arena_ok hi s.
Hypothesis Hi : nodes s !! i = Some (Some n).
Hypothesis Hid : same_identity n n'.
Hypothesis Hact : n_lifecycle n = Active.
Hypothesis Hlive' : n_lifecycle n' ≠ Retired.
Hypothesis Hblk' : n_blocker n' = None.
Hypothesis Hfree : ∀ j m, nodes s !! j = Some (Some m) → n_blocker m ≠ Some (n_handle n).
Abbreviation ns' := (<[i := Some n']> (nodes s)).

Lemma leave_no_link : n_representative n = None.
Proof.
  pose proof (node_link _ _ _ _ (arena_node _ _ Ha _ _ Hi)) as Hk.
  destruct (n_representative n); [|done]. destruct Hk. congruence.
Qed.

Lemma leave_live : n_lifecycle n ≠ Retired.
Proof. congruence. Qed.

Lemma leave_blockable j m b :
  nodes s !! j = Some (Some m) → j ≠ i → n_blocker m = Some b →
  blockable (nodes s) b → blockable ns' b.
Proof.
  intros Hj _ Hb (m0 & Hm0 & ? & ?).
  pose proof (arena_slots _ _ Ha) as Hslots.
  destruct (update_stored _ _ _ _ Hslots Hi Hid Hlive' _ _ Hm0) as (m' & Hm' & [[-> _]|[-> ->]]).
  - by exists m0.
  - destruct (Hfree _ _ Hj). by rewrite (stored_handle _ _ _ Hslots Hm0).
Qed.

Lemma leave_node_ok :
  match n_representative n' with
  | Some _ => n_lifecycle n' = Merged ∧ canonical (n_merge_dependency n')
              ∧ dep_bounded hi (n_merge_dependency n')
  | None => n_lifecycle n' ≠ Merged
  end → node_ok hi (next_creation_id s) ns' n'.
Proof.
  intros Hlink. pose proof (arena_slots _ _ Ha) as Hslots.
  destruct (arena_node _ _ Ha _ _ Hi). destruct Hid as []. split; try congruence.
  case_bool_decide as Hk; case_bool_decide as Hk'; try congruence.
  destruct node_tree0 as (p & m & Hp & Hm & Hd & Hc).
  destruct (update_stored_depth (nodes s) i n n' Hslots Hi Hid Hlive' p m Hm) as (m' & Hm' & Hd' & Hc').
  exists p, m'. split_and!; [congruence|done|congruence|congruence].
Qed.

(** Pruning: the node carries no link, before or after. *)
Lemma arena_leave_pruned :
  n_representative n' = None → n_lifecycle n' ≠ Merged →
  n_merge_dependency n' = n_merge_dependency n →
  arena_ok hi (s <| nodes ::= <[i := Some n']> |>).
Proof.
  intros Hr Hm Hd. eapply arena_update; [done..| |by apply leave_blockable|].
  { apply leave_node_ok. by rewrite Hr. }
  intros h m Hh. destruct (arena_resolves _ _ Ha _ _ Hh) as (r & ds & Hres). exists r, ds.
  eapply resolves_transport; [|done]. intros h' m0 Hm0.
  destruct (update_stored _ _ _ _ (arena_slots _ _ Ha) Hi Hid Hlive' _ _ Hm0)
    as (m' & Hm' & [[-> _]|[-> ->]]); [by eauto|].
  exists n'. split_and!; [done|apply same_handle, Hid|by rewrite leave_no_link|done].
Qed.

(** Merging: links that ended at the node now end at the target. *)
Lemma resolves_merge target h r ds :
  n_representative n' = Some target → resolves ns' target target [] →
  resolves (nodes s) h r ds →
  resolves ns' h (if bool_decide (r = n_handle n) then target else r)
    (if bool_decide (r = n_handle n) then ds ++ [n_merge_dependency n'] else ds).
Proof.
  intros Hr' Ht. pose proof (arena_slots _ _ Ha) as Hslots.
  induction 1 as [h m Hm Hr|h m h' r ds Hm Hr _ IH].
  - destruct (update_stored _ _ _ _ Hslots Hi Hid Hlive' _ _ Hm) as (m' & Hm' & [[-> Hne]|[-> ->]]).
    + rewrite !bool_decide_eq_false_2 by done. by apply resolves_here.
    + rewrite !bool_decide_eq_true_2 by done. by eapply resolves_step.
  - destruct (update_stored _ _ _ _ Hslots Hi Hid Hlive' _ _ Hm) as (m' & Hm' & [[-> Hne]|[-> ->]]).
    + case_bool_decide; by eapply resolves_step.
    + pose proof leave_no_link. congruence.
Qed.

Lemma arena_leave_merged target :
  n_representative n' = Some target → n_lifecycle n' = Merged →
  canonical (n_merge_dependency n') → dep_bounded hi (n_merge_dependency n') →
  active_handle (nodes s) target → target ≠ n_handle n →
  arena_ok hi (s <| nodes ::= <[i := Some n']> |>).
Proof.
  intros Hr' Hm' Hc Hb (t & Ht & Hta) Hne. pose proof (arena_slots _ _ Ha) as Hslots.
  assert (resolves ns' target target []) as Htt.
  { pose proof (stored_handle _ _ _ Hslots Ht) as Hth.
    destruct (update_stored _ _ _ _ Hslots Hi Hid Hlive' _ _ Ht) as (t' & Ht' & [[-> _]|[-> ->]]);
      [|congruence].
    eapply resolves_self; [by eapply update_slots|done|].
    destruct Ht as [Ht _]. pose proof (node_link _ _ _ _ (arena_node _ _ Ha _ _ Ht)) as Hk.
    destruct (n_representative t); [|done]. destruct Hk; congruence. }
  eapply arena_update; [done..| |by apply leave_blockable|].
  - apply leave_node_ok. rewrite Hr'. done.
  - intros h m Hh. destruct (arena_resolves _ _ Ha _ _ Hh) as (r & ds & Hres).
    eexists _, _. by eapply resolves_merge.
Qed.
End leave.

(** ** Allocation and retirement *)

Lemma arena_alloc hi s i g n ns gens :
  arena_ok hi s →
  (ns = nodes s ∧ gens = generations s ∨ ns = nodes s ++ [None] ∧ gens = generations s ++ [0]) →
  N.of_nat (length ns) ≤ 2 ^ 32 →
  ns !! i = Some None →
  slot (n_handle n) = N.of_nat i → generation (n_handle n) ≤ g →
  n_creation_id n = next_creation_id s → n_representative n = None →
  node_ok hi (next_creation_id s + 1) (nodes s) n →
  arena_ok hi (s <| nodes := <[i := Some n]> ns |> <| generations := <[i := g]> gens |>
                 <| free_slots := vacant_slots ns ∖ {[N.of_nat i]} |>
                 <| next_creation_id := next_creation_id s + 1 |>).
Proof.
  intros Ha Hext Hcap Hi Hslot Hg Hcid Hrep Hn.
  assert (∀ j m, ns !! j = Some (Some m) → nodes s !! j = Some (Some m)) as Hold.
  { intros j m Hj. destruct Hext as [[-> _]|[-> _]]; [done|].
    apply lookup_app_Some in Hj as [?|[_ Hj]]; [done|]. by destruct (j - length (nodes s))%nat. }
  assert (length gens = length ns) as Hlen.
  { pose proof (arena_length _ _ Ha). destruct Hext as [[-> ->]|[-> ->]]; [done|].
    rewrite !length_app; simpl; lia. }
  assert (∀ h m, stored (nodes s) h m → stored (<[i := Some n]> ns) h m) as Hst.
  { intros h m (Hl & ? & ?). split_and!; [|done|done].
    assert (ns !! N.to_nat (slot h) = Some (Some m)) as Hl'.
    { destruct Hext as [[-> _]|[-> _]]; [done|]. by apply lookup_app_l_Some. }
    rewrite list_lookup_insert_ne; [done|]. intros ->. congruence. }
  assert (slots_ok (<[i := Some n]> ns)) as Hslots.
  { intros j m [(<- & [= <-] & _)|[_ Hj]]%list_lookup_insert_Some; [rewrite Hslot; lia|].
    by eapply arena_slots, Hold. }
  assert (∀ h m, stored (<[i := Some n]> ns) h m → stored (nodes s) h m ∨ m = n) as Hst'.
  { intros h m (Hl & ? & ?). apply list_lookup_insert_Some in Hl as [(_ & [= <-] & _)|[_ Hl]];
      [by right|left]. split_and!; [by apply Hold|done|done]. }
  assert (∀ m, node_ok hi (next_creation_id s) (nodes s) m →
    node_ok hi (next_creation_id s + 1) (<[i := Some n]> ns) m) as Hmono.
  { intros m. apply node_ok_mono; [done|lia|eauto|]. intros b _ (m' & Hm' & ? & ?).
    exists m'. auto. }
  split; cbn.
  - by rewrite !length_insert.
  - by rewrite length_insert.
  - by rewrite vacant_slots_insert_Some.
  - done.
  - intros j m g' [(<- & [= <-] & _)|[Hne Hj]]%list_lookup_insert_Some Hg'.
    + apply list_lookup_insert_Some in Hg' as [(_ & <- & _)|[? _]]; done.
    + apply list_lookup_insert_Some in Hg' as [(? & _)|[_ Hg']]; [done|]. apply Hold in Hj.
      eapply (arena_generation _ _ Ha); [done|]. destruct Hext as [[_ ->]|[_ ->]]; [done|].
      apply lookup_app_Some in Hg' as [?|[Hge _]]; [done|]. apply lookup_lt_Some in Hj.
      pose proof (arena_length _ _ Ha). lia.
  - intros j1 j2 m1 m2 [(<- & [= <-] & _)|[Hne1 Hj1]]%list_lookup_insert_Some
      [(<- & [= <-] & _)|[Hne2 Hj2]]%list_lookup_insert_Some Hc; [done| | |].
    + apply Hold in Hj2. pose proof (node_creation _ _ _ _ (arena_node _ _ Ha _ _ Hj2)). lia.
    + apply Hold in Hj1. pose proof (node_creation _ _ _ _ (arena_node _ _ Ha _ _ Hj1)). lia.
    + eapply (arena_creation _ _ Ha); eauto.
  - intros j m [(<- & [= <-] & _)|[_ Hj]]%list_lookup_insert_Some.
    + apply (node_ok_mono hi hi (next_creation_id s + 1) _ (nodes s)); [done|done|eauto| |done].
      intros b _ (m' & Hm' & ? & ?). exists m'. auto.
    + apply Hmono. by eapply arena_node, Hold.
  - intros h m Hm. destruct (Hst' _ _ Hm) as [Hm'| ->].
    + destruct (arena_resolves _ _ Ha _ _ Hm') as (r & ds & Hres). exists r, ds.
      eapply resolves_transport; [|done]. intros h' m' ?. exists m'. auto.
    + exists h, []. by eapply resolves_self.
Qed.

(** Retiring an unreferenced node empties its slot. *)
Lemma arena_retire hi s i n :
  arena_ok hi s → nodes s !! i = Some (Some n) →
  (∀ j m, nodes s !! j = Some (Some m) → j ≠ i →
    n_parent m ≠ Some (n_handle n) ∧ n_representative m ≠ Some (n_handle n)
    ∧ n_blocker m ≠ Some (n_handle n)) →
  arena_ok hi (s <| nodes ::= <[i := None]> |> <| free_slots ::= union {[N.of_nat i]} |>).
Proof.
  intros Ha Hi Href. pose proof (arena_slots _ _ Ha) as Hslots.
  assert (i < length (nodes s))%nat as Hlt by by eapply lookup_lt_Some.
  assert (∀ h m, stored (nodes s) h m → h ≠ n_handle n → stored (<[i := None]> (nodes s)) h m) as Hst.
  { intros h m Hm Hne. apply stored_insert_ne; [|done]. intros Hh. apply Hne.
    destruct Hm as (Hl & Hg & _). rewrite Hh, Hi in Hl. injection Hl as <-.
    apply Hslots in Hi. destruct h as [hs hg], (n_handle n) as [ns' ng]; simpl in *. f_equal; [lia|done]. }
  destruct Ha as [H1 H2 H3 _ H5 H6 H7 H8]. split; cbn.
  - by rewrite length_insert.
  - by rewrite length_insert.
  - by rewrite H3, vacant_slots_insert_None.
  - intros j m [(_ & ? & _)|[_ Hj]]%list_lookup_insert_Some; [done|]. by apply Hslots.
  - intros j m g [(_ & ? & _)|[_ Hj]]%list_lookup_insert_Some; [done|]. by apply H5.
  - intros j1 j2 m1 m2 [(_ & ? & _)|[_ Hj1]]%list_lookup_insert_Some
      [(_ & ? & _)|[_ Hj2]]%list_lookup_insert_Some; [done..|]. by apply H6.
  - intros j m [(_ & ? & _)|[Hne Hj]]%list_lookup_insert_Some; [done|].
    destruct (Href _ _ Hj) as (Hp & _ & Hb); [done|].
    eapply node_ok_mono; [done|done| | |by eapply H7].
    + intros p m' Hmp Hm'. exists m'. split; [|done]. apply Hst; congruence.
    + intros b Hmb (m' & Hm' & ? & ?). exists m'. split; [|done]. apply Hst; congruence.
  - intros h m Hm. pose proof (stored_insert_None _ _ _ _ Hm) as Hm'.
    destruct (H8 _ _ Hm') as (r & ds & Hres). exists r, ds.
    assert (h ≠ n_handle n) as Hh.
    { intros ->. destruct Hm as [Hl _]. rewrite (Hslots _ _ Hi) in Hl.
      by rewrite list_lookup_insert_eq in Hl. }
    clear m Hm Hm'. induction Hres as [h m Hm Hr|h m h' r ds Hm Hr _ IH].
    + apply resolves_here; auto.
    + eapply resolves_step; [by apply Hst|done|]. apply IH. intros ->.
      destruct (decide (N.to_nat (slot h) = i)) as [Hhi|Hhi].
      * apply Hh. destruct Hm as (Hl & Hg & _). rewrite Hhi, Hi in Hl. injection Hl as <-.
        apply Hslots in Hi. destruct h as [hs hg], (n_handle n) as [ns' ng]; simpl in *. f_equal; [lia|done].
      * destruct Hm as [Hm _]. destruct (Href _ _ Hm Hhi) as (_ & ? & _). done.
Qed.

(** ** Restoring a snapshot *)

Lemma length_max_generations old current :
  length (max_generations old current) = Nat.max (length old) (length current).
Proof.
  revert current. induction old as [|g old IH]; intros [|c current]; simpl; try lia.
  rewrite IH. lia.
Qed.

Lemma max_generations_old old current i g :
  old !! i = Some g → ∃ g', max_generations old current !! i = Some g' ∧ g ≤ g'.
Proof.
  revert current i. induction old as [|g0 old IH]; intros [|c current] [|i]; simpl; try done;
    try (intros [= ->]); eauto using N.le_refl, N.le_max_l.
Qed.

Lemma max_generations_current old current i g :
  current !! i = Some g → ∃ g', max_generations old current !! i = Some g' ∧ g ≤ g'.
Proof.
  revert current i. induction old as [|g0 old IH]; intros [|c current] [|i]; simpl; try done;
    try (intros [= ->]); eauto using N.le_refl, N.le_max_r.
Qed.

Lemma resize_up_lookup {A} (l : list A) n x i y :
  resize_up l n x !! i = Some y → l !! i = Some y ∨ (length l ≤ i)%nat ∧ y = x.
Proof.
  unfold resize_up. intros [?|[Hi Hr]]%lookup_app_Some; [by left|]. right. split; [done|].
  by apply lookup_replicate in Hr as [-> _].
Qed.

Lemma resize_up_lookup_l {A} (l : list A) n x i y :
  l !! i = Some y → resize_up l n x !! i = Some y.
Proof. apply lookup_app_l_Some. Qed.

Lemma length_resize_up {A} (l : list A) n x : length (resize_up l n x) = Nat.max (length l) n.
Proof. unfold resize_up. rewrite length_app, length_replicate. lia. Qed.

Lemma stored_resize ns n h m : stored (resize_up ns n None) h m ↔ stored ns h m.
Proof.
  unfold stored. split; intros (Hl & ? & ?); split_and!; try done.
  - by apply resize_up_lookup in Hl as [?|[_ ?]].
  - by apply resize_up_lookup_l.
Qed.

Section restore.
Context (hi : N) (current : list N) (s : MutableState).
Hypothesis Ha : arena_ok hi s.
Hypothesis Hcap : N.of_nat (length current) ≤ 2 ^ 32.
Abbreviation s' := (restore_state current s).

Lemma restore_lookup i n : nodes s' !! i = Some (Some n) ↔ nodes s !! i = Some (Some n).
Proof.
  unfold restore_state; cbn. split.
  - intros [?|[_ ?]]%resize_up_lookup; done.
  - apply resize_up_lookup_l.
Qed.

Lemma restore_stored h m : stored (nodes s') h m ↔ stored (nodes s) h m.
Proof. apply stored_resize. Qed.

Lemma restore_blockable h : blockable (nodes s') h ↔ blockable (nodes s) h.
Proof. unfold blockable. by setoid_rewrite restore_stored. Qed.

(** A restored arena is well formed whatever happened since the snapshot. *)
Lemma arena_restore : arena_ok hi s'.
Proof.
  pose proof (arena_length _ _ Ha) as Hlen. split.
  - unfold restore_state; cbn. rewrite length_max_generations, !length_resize_up. lia.
  - unfold restore_state; cbn. rewrite length_resize_up.
    pose proof (arena_capacity _ _ Ha). lia.
  - done.
  - intros i n Hn%restore_lookup. by eapply arena_slots.
  - intros i n g Hn%restore_lookup Hg. unfold restore_state in Hg; cbn in Hg.
    destruct (generations s !! i) as [g0|] eqn:Hg0.
    + pose proof (arena_generation _ _ Ha _ _ _ Hn Hg0).
      destruct (max_generations_old (resize_up (generations s)
        (Nat.max (length (generations s)) (length current)) 0) current i g0) as (g' & Hg' & ?).
      { by apply resize_up_lookup_l. }
      simplify_eq. lia.
    + apply lookup_ge_None in Hg0. apply lookup_lt_Some in Hn. lia.
  - intros i j m n Hm%restore_lookup Hn%restore_lookup. by eapply arena_creation.
  - intros i n Hn%restore_lookup.
    apply (node_ok_mono hi hi (next_creation_id s) _ (nodes s)); [done|done| | |by eapply arena_node].
    + intros p m _ Hm. exists m. by rewrite restore_stored.
    + intros b _. by rewrite restore_blockable.
  - intros h n Hn%restore_stored. destruct (arena_resolves _ _ Ha _ _ Hn) as (r & ds & Hres).
    exists r, ds. eapply resolves_transport; [|done]. intros h' m Hm. exists m.
    by rewrite restore_stored.
Qed.
End restore.

Lemma elem_of_active_node_handles k h :
  slots_ok (nodes (state k)) → h ∈ active_node_handles k ↔ active_handle (nodes (state k)) h.
Proof.
  intros Hs. unfold active_node_handles, active_handle. rewrite list_elem_of_fmap. setoid_rewrite elem_of_sort.
  setoid_rewrite list_elem_of_fmap. setoid_rewrite list_elem_of_filter. setoid_rewrite elem_of_live_nodes. split.
  - intros ([c h'] & -> & n & [= -> ->] & Ha & [i Hi]). exists n. split; [|done]. by apply (stored_self _ i); [..|rewrite Ha].
  - intros (n & Hn & Ha). exists (n_creation_id n, h). split; [done|]. exists n. rewrite (stored_handle _ _ _ Hs Hn).
    split_and!; [done|done|]. exists (N.to_nat (slot h)). apply Hn.
Qed.
