(* ===== verification/Facts.v ===== *)
(** * Fact rows and their indexes

    [facts_ok] says that the four indexes are exactly what the active rows
    determine and that the supports of a row are an antichain of canonical,
    bounded dependency sets in canonical order. *)

From S2P Require Import Prelude Order Errors Model Queue Store Kernel KernelBase Arena.
Import Kernel.

(** ** Indexes of row ids *)

Definition idx_rows `{Countable Key} (m : gmap Key (gset N)) (key : Key) : gset N :=
  default ∅ (m !! key).

(** No entry of the index is empty. *)
Definition index_tidy `{Countable Key} (m : gmap Key (gset N)) : Prop :=
  ∀ key rows, m !! key = Some rows → rows ≠ ∅.

Section index.
Context `{Countable Key}.
Implicit Types (m : gmap Key (gset N)) (key : Key) (row : N).

Lemma elem_of_index_insert m key row key' row' :
  row' ∈ idx_rows (index_insert key row m) key' ↔
  (key' = key ∧ row' = row) ∨ row' ∈ idx_rows m key'.
Proof.
  unfold idx_rows, index_insert. destruct (decide (key = key')) as [<-|Hne].
  - rewrite lookup_partial_alter_eq. simpl. set_solver.
  - rewrite lookup_partial_alter_ne by done. naive_solver.
Qed.

Lemma elem_of_index_remove m key row key' row' :
  row' ∈ idx_rows (index_remove key row m) key' ↔
  row' ∈ idx_rows m key' ∧ ¬ (key' = key ∧ row' = row).
Proof.
  unfold idx_rows, index_remove. destruct (decide (key = key')) as [<-|Hne].
  - rewrite lookup_partial_alter_eq. destruct (m !! key) as [rows|]; simpl; [|set_solver].
    case_bool_decide; simpl; set_solver.
  - rewrite lookup_partial_alter_ne by done. naive_solver.
Qed.

Lemma index_insert_tidy m key row : index_tidy m → index_tidy (index_insert key row m).
Proof.
  intros Hm key' rows. unfold index_insert. destruct (decide (key = key')) as [<-|Hne].
  - rewrite lookup_partial_alter_eq. intros [= <-]. set_solver.
  - rewrite lookup_partial_alter_ne by done. apply Hm.
Qed.

Lemma index_remove_tidy m key row : index_tidy m → index_tidy (index_remove key row m).
Proof.
  intros Hm key' rows. unfold index_remove. destruct (decide (key = key')) as [<-|Hne].
  - rewrite lookup_partial_alter_eq. destruct (m !! key) as [rows'|]; simpl; [|done].
    case_bool_decide; [done|]. by intros [= <-].
  - rewrite lookup_partial_alter_ne by done. apply Hm.
Qed.

(** A tidy index is determined by its rows. *)
Lemma index_ext m m' :
  index_tidy m → index_tidy m' →
  (∀ key row, row ∈ idx_rows m key ↔ row ∈ idx_rows m' key) → m = m'.
Proof.
  intros Hm Hm' Heq. apply map_eq. intros key. specialize (Heq key). unfold idx_rows in Heq.
  destruct (m !! key) as [r|] eqn:E, (m' !! key) as [r'|] eqn:E'; simpl in *.
  - f_equal. by apply set_eq.
  - apply Hm in E. destruct E. set_solver.
  - apply Hm' in E'. destruct E'. set_solver.
  - done.
Qed.

(** Inserting or removing one row under every key of a list. *)
Definition insert_all {A} (f : A → Key) (row : N) (l : list A) m : gmap Key (gset N) :=
  foldl (λ m x, index_insert (f x) row m) m l.

Definition remove_all {A} (f : A → Key) (row : N) (l : list A) m : gmap Key (gset N) :=
  foldl (λ m x, index_remove (f x) row m) m l.

Lemma elem_of_insert_all {A} (f : A → Key) row l m key' row' :
  row' ∈ idx_rows (insert_all f row l m) key' ↔
  (row' = row ∧ ∃ x, x ∈ l ∧ key' = f x) ∨ row' ∈ idx_rows m key'.
Proof.
  revert m. induction l as [|x l IH]; intros m; [set_solver|].
  change (insert_all f row (x :: l) m) with (insert_all f row l (index_insert (f x) row m)).
  rewrite IH, elem_of_index_insert. set_solver.
Qed.

Lemma elem_of_remove_all {A} (f : A → Key) row l m key' row' :
  row' ∈ idx_rows (remove_all f row l m) key' ↔
  row' ∈ idx_rows m key' ∧ ¬ (row' = row ∧ ∃ x, x ∈ l ∧ key' = f x).
Proof.
  revert m. induction l as [|x l IH]; intros m; [set_solver|].
  change (remove_all f row (x :: l) m) with (remove_all f row l (index_remove (f x) row m)).
  rewrite IH, elem_of_index_remove. set_solver.
Qed.

Lemma insert_all_tidy {A} (f : A → Key) row l m : index_tidy m → index_tidy (insert_all f row l m).
Proof.
  revert m. induction l as [|x l IH]; intros m Hm; simpl; [done|].
  apply IH. by apply index_insert_tidy.
Qed.

Lemma remove_all_tidy {A} (f : A → Key) row l m : index_tidy m → index_tidy (remove_all f row l m).
Proof.
  revert m. induction l as [|x l IH]; intros m Hm; simpl; [done|].
  apply IH. by apply index_remove_tidy.
Qed.

Lemma index_tidy_empty : index_tidy (∅ : gmap Key (gset N)).
Proof. intros key rows. by rewrite lookup_empty. Qed.
End index.

#[global] Arguments insert_all : simpl never.
#[global] Arguments remove_all : simpl never.

(** ** Supports *)

(** Some support of the list is contained in [d]. *)
Definition covers (ds : list DependencySet) (d : DependencySet) : Prop :=
  ∃ e, e ∈ ds ∧ levels e ⊆ levels d.

#[global] Instance covers_dec ds d : Decision (covers ds d).
Proof.
  refine (cast_if (decide (Exists (λ e, levels e ⊆ levels d) ds)));
    unfold covers; by rewrite <-Exists_exists.
Defined.

Record supports_ok (hi : N) (ds : list DependencySet) : Prop := {
  supports_nonempty : ds ≠ [];
  supports_canonical d : d ∈ ds → canonical d;
  supports_bounded d : d ∈ ds → dep_bounded hi d;
  supports_antichain d e : d ∈ ds → e ∈ ds → levels d ⊆ levels e → d = e;
  supports_sorted : StronglySorted dependency_bits_le ds
}.

Lemma is_subset_of_levels d e :
  canonical e → Dep.is_subset_of d e = true ↔ levels d ⊆ levels e.
Proof.
  intros He. rewrite is_subset_of_spec by done. rewrite elem_of_subseteq.
  by setoid_rewrite elem_of_levels.
Qed.

Lemma levels_inj d e : canonical d → canonical e → levels d = levels e → d = e.
Proof.
  intros Hd He Heq. apply canonical_ext; [done..|]. intros l. by rewrite <-!elem_of_levels, Heq.
Qed.

Lemma supports_ok_singleton hi d : canonical d → dep_bounded hi d → supports_ok hi [d].
Proof.
  intros Hd Hb. split; [done|set_solver..|]. repeat constructor.
Qed.

Lemma supports_ok_mono hi hi' ds : hi ≤ hi' → supports_ok hi ds → supports_ok hi' ds.
Proof. intros Hle []. split; auto. intros d Hd. eapply dep_bounded_mono; eauto. Qed.

Section add_support.
Context (d : DependencySet) (ds : list DependencySet).
Hypothesis Hd : canonical d.
Hypothesis Hds : ∀ e, e ∈ ds → canonical e.

Lemma add_support_dominated :
  existsb (λ e, Dep.is_subset_of e d) ds = true ↔ covers ds d.
Proof.
  rewrite existsb_exists. unfold covers. split.
  - intros (e & He & Hs). apply list_elem_of_In in He. exists e. split; [done|].
    by apply is_subset_of_levels.
  - intros (e & He & Hs). exists e. split; [by apply list_elem_of_In|]. by apply is_subset_of_levels.
Qed.

(** The new list: the old supports that do not contain [d], and [d] itself
    unless an old support is contained in it. *)
Lemma elem_of_add_support e :
  e ∈ add_support d ds ↔
  (e ∈ ds ∧ (covers ds d ∨ ¬ levels d ⊆ levels e)) ∨ (e = d ∧ ¬ covers ds d).
Proof.
  unfold add_support. destruct (existsb _ ds) eqn:E.
  - apply add_support_dominated in E. naive_solver.
  - assert (¬ covers ds d) as Hc. { rewrite <-add_support_dominated. by rewrite E. }
    rewrite sort_dependencies_Permutation, elem_of_app, list_elem_of_singleton.
    rewrite list_elem_of_In, filter_In, <-list_elem_of_In, negb_true_iff, <-not_true_iff_false.
    split.
    + intros [[He Hn]|He]; [|naive_solver]. left. split; [done|]. right.
      by rewrite <-is_subset_of_levels by auto.
    + intros [[He [?|Hn]]|He]; [done| |naive_solver]. left. split; [done|].
      by rewrite is_subset_of_levels by auto.
Qed.

(** Upward closure: exactly [d] is added to what the row can be derived from. *)
Lemma add_support_covers e : covers (add_support d ds) e ↔ covers ds e ∨ levels d ⊆ levels e.
Proof.
  unfold covers at 1. setoid_rewrite elem_of_add_support. split.
  - intros (f & [[Hf _]|[-> _]] & Hfe); [left; by exists f|by right].
  - intros [(f & Hf & Hfe)|Hde].
    + destruct (decide (levels d ⊆ levels f)) as [Hdf|Hdf].
      * destruct (decide (covers ds d)) as [Hc|Hc].
        -- exists f. auto.
        -- exists d. split; [by right|]. set_solver.
      * exists f. auto.
    + destruct (decide (covers ds d)) as [Hc|Hc].
      * destruct Hc as (f & Hf & Hfd). exists f. split; [|set_solver]. left. split; [done|].
        left. by exists f.
      * exists d. auto.
Qed.
End add_support.

Lemma add_support_ok hi d ds :
  canonical d → dep_bounded hi d → supports_ok hi ds → supports_ok hi (add_support d ds).
Proof.
  intros Hd Hb [Hne Hcan Hbnd Hanti Hsort].
  assert (∀ e, e ∈ add_support d ds → e ∈ ds ∨ e = d) as Hel.
  { intros e. rewrite elem_of_add_support by done. naive_solver. }
  split.
  - unfold add_support. case_match; [done|]. intros E. apply (f_equal length) in E.
    rewrite sort_dependencies_Permutation, length_app in E. simpl in E. lia.
  - intros e [?| ->]%Hel; auto.
  - intros e [?| ->]%Hel; auto.
  - intros e f. rewrite !elem_of_add_support by done.
    intros [[He He']|[-> Hc]] [[Hf Hf']|[-> Hc']] Hef; [auto| | |done].
    + destruct Hc'. by exists e.
    + naive_solver.
  - unfold add_support. case_match; [done|]. apply sort_dependencies_sorted.
Qed.

(** ** The fact invariant *)

(** Row [i] is stored and active. *)
Definition active_row (s : MutableState) (i : nat) (row : FactRow) : Prop :=
  facts s !! i = Some row ∧ active row = true.

Record row_ok (hi : N) (s : MutableState) (row : FactRow) : Prop := {
  row_nonempty : arguments (row_key row) ≠ [];
  row_arity : N.of_nat (length (arguments (row_key row))) ≤ u32_max;
  row_generation : derivation_generation row ≤ write_generation s;
  row_arguments h : h ∈ arguments (row_key row) → active_handle (nodes s) h;
  row_supports : supports_ok hi (supports row)
}.

(** [index] holds, under [key], the ids of the active rows that satisfy [P key]. *)
Definition index_exact `{Countable Key} (s : MutableState) (index : gmap Key (gset N))
    (P : Key → FactRow → Prop) : Prop :=
  index_tidy index ∧
  ∀ key rid, rid ∈ idx_rows index key ↔ ∃ row, active_row s (N.to_nat rid) row ∧ P key row.

Definition at_position (key : N * N * NodeHandle) (row : FactRow) : Prop :=
  predicate_id (row_key row) = key.1.1 ∧
  arguments (row_key row) !! N.to_nat key.1.2 = Some key.2.

Record facts_ok (hi : N) (s : MutableState) : Prop := {
  facts_ids i row : facts s !! i = Some row → row_id row = N.of_nat i;
  facts_capacity : N.of_nat (length (facts s)) ≤ 2 ^ 32;
  facts_rows i row : active_row s i row → row_ok hi s row;
  facts_key key rid :
    facts_by_key s !! key = Some rid ↔ ∃ row, active_row s (N.to_nat rid) row ∧ row_key row = key;
  facts_node : index_exact s (facts_by_node s) (λ h row, h ∈ arguments (row_key row));
  facts_predicate : index_exact s (facts_by_predicate s) (λ p row, predicate_id (row_key row) = p);
  facts_position : index_exact s (facts_by_position s) at_position
}.

Lemma facts_ok_new hi : facts_ok hi MutableState_new.
Proof.
  assert (∀ i row, ¬ active_row MutableState_new i row) as Hno.
  { intros i row [Hr _]. by destruct i. }
  assert (∀ (Key : Type) (Heq : EqDecision Key) (Hc : Countable Key) (P : Key → FactRow → Prop),
    index_exact MutableState_new (∅ : gmap Key (gset N)) P) as Hidx.
  { intros Key ?? P. split; [apply index_tidy_empty|]. intros key rid. unfold idx_rows.
    rewrite lookup_empty. simpl. naive_solver set_solver. }
  split; try done.
  - by intros i row ?%Hno.
  - intros key rid. cbn. rewrite lookup_empty. naive_solver.
Qed.

Section facts_frame.
Context (hi hi' : N) (s s' : MutableState).
Hypothesis Hhi : hi ≤ hi'.
Hypothesis Hfacts : facts s' = facts s.
Hypothesis Hkey : facts_by_key s' = facts_by_key s.
Hypothesis Hnode : facts_by_node s' = facts_by_node s.
Hypothesis Hpred : facts_by_predicate s' = facts_by_predicate s.
Hypothesis Hpos : facts_by_position s' = facts_by_position s.
Hypothesis Hgen : write_generation s ≤ write_generation s'.

(** The fact invariant survives any change elsewhere that keeps the nodes
    mentioned by active rows active. *)
Lemma facts_ok_frame :
  (∀ i row h, active_row s i row → h ∈ arguments (row_key row) →
    active_handle (nodes s) h → active_handle (nodes s') h) →
  facts_ok hi s → facts_ok hi' s'.
Proof.
  intros Hact [H1 H2 H3 H4 H5 H6 H7].
  assert (∀ i row, active_row s' i row ↔ active_row s i row) as Har.
  { intros i row. unfold active_row. by rewrite Hfacts. }
  assert (∀ (Key : Type) (Heq : EqDecision Key) (Hc : Countable Key) (P : Key → FactRow → Prop) index,
    index_exact s index P → index_exact s' index P) as Hidx.
  { intros Key ?? P index [Ht Hi]. split; [done|]. intros key rid. rewrite Hi.
    by setoid_rewrite Har. }
  split; rewrite ?Hfacts, ?Hkey, ?Hnode, ?Hpred, ?Hpos; auto.
  - intros i row Hr. apply Har in Hr. destruct (H3 i row Hr). split; eauto using supports_ok_mono.
    lia.
  - intros key rid. rewrite H4. by setoid_rewrite Har.
Qed.
End facts_frame.

Lemma facts_ok_mono hi hi' s : hi ≤ hi' → facts_ok hi s → facts_ok hi' s.
Proof. intros. by eapply (facts_ok_frame hi hi' s s). Qed.

(** Active rows with the same key are the same row. *)
Lemma active_row_key_unique hi s i j r r' :
  facts_ok hi s → active_row s i r → active_row s j r' → row_key r = row_key r' → i = j.
Proof.
  intros Hf Hr Hr' Hk.
  assert (∀ i r, active_row s i r → facts_by_key s !! row_key r = Some (N.of_nat i)) as Hlook.
  { intros i0 r0 H0. apply (facts_key _ _ Hf). exists r0. by rewrite Nat2N.id. }
  pose proof (Hlook _ _ Hr) as E. rewrite Hk, (Hlook _ _ Hr') in E. injection E. lia.
Qed.

(** ** Inserting a new row *)

Definition fact_inserted (row : FactRow) (s : MutableState) : MutableState :=
  s <| facts := facts s ++ [row] |>
    <| facts_by_key := <[row_key row := row_id row]> (facts_by_key s) |>
    <| facts_by_predicate := index_insert (predicate_id (row_key row)) (row_id row) (facts_by_predicate s) |>
    <| facts_by_position := insert_all
         (λ pa, (predicate_id (row_key row), N.of_nat pa.1, pa.2)) (row_id row)
         (enumerate (arguments (row_key row))) (facts_by_position s) |>
    <| facts_by_node := insert_all id (row_id row)
         (btree_elements (list_to_set (arguments (row_key row)) : gset NodeHandle)) (facts_by_node s) |>.

Section insert.
Context (hi : N) (s : MutableState) (row : FactRow).
Hypothesis Hf : facts_ok hi s.
Hypothesis Hid : row_id row = N.of_nat (length (facts s)).
Hypothesis Hcap : N.of_nat (length (facts s)) ≤ u32_max.
Hypothesis Hact : active row = true.
Hypothesis Hnew : facts_by_key s !! row_key row = None.
Hypothesis Hrow : row_ok hi s row.
Abbreviation s' := (fact_inserted row s).

Lemma active_row_inserted i r :
  active_row s' i r ↔ active_row s i r ∨ (i = length (facts s) ∧ r = row).
Proof.
  unfold active_row, fact_inserted; cbn. rewrite lookup_app_Some, list_lookup_singleton_Some.
  split.
  - intros [[Hl|[Hge [Hi <-]]] Ha]; [by left|right]. split; [lia|done].
  - intros [[Hl Ha]|[-> ->]]; [by split; [left|]|]. split; [right|done]. split_and!; [done|lia|done].
Qed.

Lemma inserted_rid i : N.to_nat i = length (facts s) ↔ i = row_id row.
Proof. rewrite Hid. lia. Qed.

Lemma index_inserted `{Countable Key} (index index' : gmap Key (gset N)) P :
  index_exact s index P → (index_tidy index → index_tidy index') →
  (∀ key rid, rid ∈ idx_rows index' key ↔ (rid = row_id row ∧ P key row) ∨ rid ∈ idx_rows index key) →
  index_exact s' index' P.
Proof.
  intros [Ht Hi] Ht' Hi'. split; [by apply Ht'|]. intros key rid. rewrite Hi', Hi.
  setoid_rewrite active_row_inserted. setoid_rewrite inserted_rid. naive_solver.
Qed.

Lemma facts_ok_inserted : facts_ok hi s'.
Proof.
  pose proof Hf as [H1 H2 H3 H4 H5 H6 H7]. split.
  - intros i r. unfold fact_inserted; cbn. rewrite lookup_app_Some, list_lookup_singleton_Some.
    intros [?|(? & Hi & <-)]; [by apply H1|]. rewrite Hid. f_equal. lia.
  - unfold fact_inserted; cbn. rewrite length_app; simpl. unfold u32_max in Hcap. lia.
  - intros i r [Hr|[-> ->]]%active_row_inserted; [apply H3 in Hr; by destruct Hr|by destruct Hrow].
  - intros key rid. unfold fact_inserted at 1; cbn. setoid_rewrite active_row_inserted.
    setoid_rewrite inserted_rid. rewrite lookup_insert_Some, H4. split.
    + intros [[<- <-]|[Hne (r & Hr & <-)]]; eauto.
    + intros (r & [Hr|[-> ->]] & <-); [right|by left].
      split; [|by eauto]. intros E. rewrite E in Hnew.
      assert (facts_by_key s !! row_key r = Some rid) by (apply H4; eauto). congruence.
  - apply (index_inserted (facts_by_node s)); [done|apply insert_all_tidy|].
    intros key rid. cbn. rewrite elem_of_insert_all. setoid_rewrite elem_of_btree_elements.
    setoid_rewrite elem_of_list_to_set. unfold id. naive_solver.
  - apply (index_inserted (facts_by_predicate s)); [done|apply index_insert_tidy|].
    intros key rid. cbn. rewrite elem_of_index_insert. naive_solver.
  - apply (index_inserted (facts_by_position s)); [done|apply insert_all_tidy|].
    intros [[p i] h] rid. cbn. rewrite elem_of_insert_all. unfold at_position; simpl. split.
    + intros [(-> & [j x] & Hx%elem_of_enumerate & [= -> -> ->])|?]; [|by right].
      left. by rewrite Nat2N.id.
    + intros [(-> & <- & Hx)|?]; [|by right]. left. split; [done|]. exists (N.to_nat i, h).
      split; [by apply elem_of_enumerate|]. simpl. by rewrite N2Nat.id.
Qed.
End insert.

(** ** Changing a row in place *)

Section update_row.
Context (hi : N) (s : MutableState) (i : nat) (row row' : FactRow).
Hypothesis Hf : facts_ok hi s.
Hypothesis Hi : active_row s i row.
Hypothesis Hid : row_id row' = row_id row.
Hypothesis Hkey : row_key row' = row_key row.
Hypothesis Hact : active row' = true.
Hypothesis Hrow : row_ok hi s row'.
Abbreviation s' := (s <| facts ::= <[i := row']> |>).

Lemma active_row_updated j r :
  active_row s' j r ↔ (j = i ∧ r = row') ∨ (j ≠ i ∧ active_row s j r).
Proof.
  destruct Hi as [Hl _]. unfold active_row; cbn. rewrite list_lookup_insert_Some.
  apply lookup_lt_Some in Hl. split; [naive_solver|].
  intros [[-> ->]|[? []]]; split; auto.
Qed.

Lemma active_row_updated_key j (P : FactKey → Prop) :
  (∃ r, active_row s' j r ∧ P (row_key r)) ↔ ∃ r, active_row s j r ∧ P (row_key r).
Proof.
  setoid_rewrite active_row_updated. split.
  - intros (r & [[-> ->]|[? ?]] & HP); [|by eauto]. rewrite Hkey in HP. eauto.
  - intros (r & Hr & HP). destruct (decide (j = i)) as [->|]; [|by eauto].
    exists row'. split; [by left|]. rewrite Hkey. destruct Hr, Hi. by simplify_eq.
Qed.

Lemma facts_ok_updated : facts_ok hi s'.
Proof.
  pose proof Hf as [H1 H2 H3 H4 H5 H6 H7].
  split; cbn.
  - intros j r [(<- & <- & _)|[_ ?]]%list_lookup_insert_Some; [|by apply H1].
    rewrite Hid. apply H1. apply Hi.
  - by rewrite length_insert.
  - intros j r [[-> ->]|[_ Hr]]%active_row_updated; [by destruct Hrow|].
    apply H3 in Hr. by destruct Hr.
  - intros key rid. rewrite H4. symmetry. apply (active_row_updated_key _ (λ k, k = key)).
  - destruct H5 as [Ht He]. split; [done|]. intros key rid. rewrite He. symmetry.
    apply (active_row_updated_key _ (λ k, key ∈ arguments k)).
  - destruct H6 as [Ht He]. split; [done|]. intros key rid. rewrite He. symmetry.
    apply (active_row_updated_key _ (λ k, predicate_id k = key)).
  - destruct H7 as [Ht He]. split; [done|]. intros key rid. rewrite He. symmetry.
    apply (active_row_updated_key _ (λ k, predicate_id k = key.1.1 ∧
      arguments k !! N.to_nat key.1.2 = Some key.2)).
Qed.
End update_row.

(** ** Deactivating a row *)

Definition fact_removed (row : FactRow) (s : MutableState) : MutableState :=
  s <| facts ::= alter (λ r, r <| active := false |>) (N.to_nat (row_id row)) |>
    <| facts_by_key ::= delete (row_key row) |>
    <| facts_by_predicate ::= index_remove (predicate_id (row_key row)) (row_id row) |>
    <| facts_by_position ::= remove_all
         (λ pa, (predicate_id (row_key row), N.of_nat pa.1, pa.2)) (row_id row)
         (enumerate (arguments (row_key row))) |>
    <| facts_by_node ::= remove_all id (row_id row)
         (btree_elements (list_to_set (arguments (row_key row)) : gset NodeHandle)) |>.

Section remove.
Context (hi : N) (s : MutableState) (i : nat) (row : FactRow).
Hypothesis Hf : facts_ok hi s.
Hypothesis Hi : active_row s i row.
Abbreviation s' := (fact_removed row s).

Lemma removed_rid : N.to_nat (row_id row) = i.
Proof. destruct Hi as [Hl _]. rewrite (facts_ids _ _ Hf _ _ Hl). lia. Qed.

Lemma active_row_removed j r : active_row s' j r ↔ active_row s j r ∧ j ≠ i.
Proof.
  unfold active_row, fact_removed; cbn. rewrite removed_rid. destruct (decide (j = i)) as [->|Hne].
  - rewrite list_lookup_alter_eq. split; [|naive_solver]. intros [Hl Ha].
    apply fmap_Some in Hl as (r0 & _ & ->). done.
  - rewrite list_lookup_alter_ne by done. naive_solver.
Qed.

Lemma index_removed `{Countable Key} (index index' : gmap Key (gset N)) P :
  index_exact s index P → (index_tidy index → index_tidy index') →
  (∀ key rid, rid ∈ idx_rows index' key ↔ rid ∈ idx_rows index key ∧ ¬ (rid = row_id row ∧ P key row)) →
  index_exact s' index' P.
Proof.
  intros [Ht He] Ht' He'. split; [by apply Ht'|]. intros key rid. rewrite He', He.
  setoid_rewrite active_row_removed. pose proof removed_rid as Hrid. split.
  - intros [(r & Hr & HP) Hn]. exists r. split_and!; [done| |done]. intros E. apply Hn.
    assert (r = row) as ->. { destruct Hi, Hr. simplify_eq. congruence. }
    split; [lia|done].
  - intros (r & [Hr Hne] & HP). split; [by eauto|]. intros [-> _]. lia.
Qed.

Lemma facts_ok_removed : facts_ok hi s'.
Proof.
  pose proof Hf as [H1 H2 H3 H4 H5 H6 H7]. pose proof removed_rid as Hrid. split.
  - intros j r. unfold fact_removed; cbn. rewrite Hrid. destruct (decide (i = j)) as [->|Hne].
    + rewrite list_lookup_alter_eq. intros (r0 & Hl & ->)%fmap_Some. by apply (H1 j r0).
    + rewrite list_lookup_alter_ne by done. apply H1.
  - unfold fact_removed; cbn. by rewrite length_alter.
  - intros j r [Hr _]%active_row_removed. apply H3 in Hr. by destruct Hr.
  - intros key rid. unfold fact_removed at 1; cbn. setoid_rewrite active_row_removed.
    rewrite lookup_delete_Some, H4. split.
    + intros [Hne (r & Hr & <-)]. exists r. split_and!; [done| |done]. intros E.
      apply Hne. destruct Hi, Hr. simplify_eq.
    + intros (r & [Hr Hne] & <-). split; [|by eauto]. intros E. apply Hne.
      eapply active_row_key_unique; eauto.
  - apply (index_removed (facts_by_node s)); [done|apply remove_all_tidy|].
    intros key rid. cbn. rewrite elem_of_remove_all. setoid_rewrite elem_of_btree_elements.
    setoid_rewrite elem_of_list_to_set. unfold id. naive_solver.
  - apply (index_removed (facts_by_predicate s)); [done|apply index_remove_tidy|].
    intros key rid. cbn. rewrite elem_of_index_remove. naive_solver.
  - apply (index_removed (facts_by_position s)); [done|apply remove_all_tidy|].
    intros [[p j] h] rid. cbn. rewrite elem_of_remove_all. unfold at_position; simpl.
    apply and_iff_compat_l, not_iff_compat, and_iff_compat_l. split.
    + intros ([j' x] & Hx%elem_of_enumerate & [= -> -> ->]). by rewrite Nat2N.id.
    + intros [<- Hx]. exists (N.to_nat j, h).
      split; [by apply elem_of_enumerate|]. simpl. by rewrite N2Nat.id.
Qed.
End remove.
