(* ===== verification/FactOps.v ===== *)
(** * Operations on facts

    What [add_fact], [deactivate_fact] and [candidate_fact_ids] do to a
    well-formed store, and the set of dependencies a row stands for. *)

From S2P Require Import Prelude Order Errors Model Queue Store Kernel KernelBase Arena Facts.
Import Kernel.

(** ** Arguments *)

(** [a] stands for the active node [r.1], through links that depend on [r.2]. *)
Definition argument_of (ns : list (option Node)) (a : NodeHandle) (r : NodeHandle * DependencySet) : Prop :=
  (∃ ds, resolves ns a r.1 ds ∧ r.2 = Dep.union ds) ∧ active_handle ns r.1.

Lemma canonical_arguments_Ok k args resolved :
  slots_ok (nodes (state k)) →
  canonical_arguments args k = Ok resolved ↔ Forall2 (argument_of (nodes (state k))) args resolved.
Proof.
  intros Hs. unfold canonical_arguments. rewrite collectM_Ok.
  assert (∀ a r, canonical_handle a k = Ok r ↔ argument_of (nodes (state k)) a r) as Ha.
  { intros a [r d]. apply (canonical_handle_Ok k Hs). }
  split; intros H; (eapply Forall2_impl; [exact H|]); intros a r; apply Ha.
Qed.

Lemma resolves_bounded hi s h r ds :
  arena_ok hi s → resolves (nodes s) h r ds → ∀ d, d ∈ ds → dep_bounded hi d.
Proof.
  intros Ha. induction 1 as [h n Hn Hr|h n h' r ds Hn Hr _ IH]; [set_solver|].
  intros d [->|Hd]%elem_of_cons; [|by apply IH]. destruct Hn as [Hl _].
  pose proof (node_link _ _ _ _ (arena_node _ _ Ha _ _ Hl)) as Hk. rewrite Hr in Hk. by destruct Hk as (_ & _ & ?).
Qed.

(** An active node stands for itself, unconditionally. *)
Lemma active_resolves hi s h :
  arena_ok hi s → active_handle (nodes s) h → resolves (nodes s) h h [].
Proof.
  intros Ha (n & Hn & Hact). pose proof (arena_slots _ _ Ha) as Hs.
  apply (resolves_self _ Hs _ n); [done|]. destruct Hn as [Hl _].
  pose proof (node_link _ _ _ _ (arena_node _ _ Ha _ _ Hl)) as Hk.
  destruct (n_representative n); [|done]. destruct Hk; congruence.
Qed.

Lemma argument_of_active hi s h r :
  arena_ok hi s → active_handle (nodes s) h → argument_of (nodes s) h r → r = (h, Dep.empty).
Proof.
  intros Ha Hact [(ds & Hres & Hd) _]. destruct r as [r d]; cbn in *.
  destruct (resolves_det _ _ _ _ _ _ (active_resolves _ _ _ Ha Hact) Hres) as [<- <-]. by subst.
Qed.

(** ** The row an insertion leaves behind *)

Definition add_provenance (p : option N) (ps : gset N) : gset N :=
  match p with Some p => {[p]} ∪ ps | None => ps end.

Definition strengthened (support : DependencySet) (is_core : bool) (p : option N) (row : FactRow) : FactRow :=
  row <| supports ::= add_support support |> <| core ::= λ c, c || is_core |>
      <| provenance_ids ::= add_provenance p |>.

Definition fresh_row (s : MutableState) (key : FactKey) (support : DependencySet) (is_core : bool)
    (p : option N) : FactRow :=
  mkFactRow (N.of_nat (length (facts s))) key [support] is_core true (write_generation s)
    (match p with Some p => {[p]} | None => ∅ end).

(** The state after an insertion of [key] with [support]. *)
Definition fact_added (key : FactKey) (support : DependencySet) (is_core : bool) (p : option N)
    (s : MutableState) : MutableState :=
  match facts_by_key s !! key with
  | Some rid => s <| facts ::= alter (strengthened support is_core p) (N.to_nat rid) |>
  | None => fact_inserted (fresh_row s key support is_core p) s
  end.

Lemma foldl_by_position g l k :
  foldl (λ (k : TableauKernel) (x : nat * NodeHandle), k <| state ::= λ s, s <| facts_by_position ::= g x |> |>) k l =
  k <| state ::= λ s, s <| facts_by_position ::= λ m, foldl (λ m x, g x m) m l |> |>.
Proof.
  revert k. induction l as [|x l IH]; intros k; simpl; [by destruct k as [[]]|].
  rewrite IH. by destruct k as [[]].
Qed.

Lemma foldl_by_node g l k :
  foldl (λ (k : TableauKernel) (x : NodeHandle), k <| state ::= λ s, s <| facts_by_node ::= g x |> |>) k l =
  k <| state ::= λ s, s <| facts_by_node ::= λ m, foldl (λ m x, g x m) m l |> |>.
Proof.
  revert k. induction l as [|x l IH]; intros k; simpl; [by destruct k as [[]]|].
  rewrite IH. by destruct k as [[]].
Qed.

Lemma insert_new_fact_Ok key support is_core p k out k' :
  insert_new_fact key support is_core p k = (Ok out, k') →
  kframe k k' ∧ state k' = fact_inserted (fresh_row (state k) key support is_core p) (state k) ∧
  N.of_nat (length (facts (state k))) ≤ u32_max ∧
  out = mkFactAddOutcome (N.of_nat (length (facts (state k)))) true true.
Proof.
  intros H. unfold insert_new_fact in H. inv_ok.
  match goal with H : forM _ (enumerate _) _ = _ |- _ =>
    apply (forM_foldl _ (λ pa k1, k1 <| state ::= λ s, s <| facts_by_position ::=
      index_insert (predicate_id key, N.of_nat pa.1, pa.2) (N.of_nat (length (facts (state k)))) |> |>)) in H;
    [rewrite foldl_by_position in H|] end.
  2:{ intros pa k1 k2 _ Hb. unfold upd in Hb. inv_ok. done. }
  match goal with H : forM _ (btree_elements _) _ = _ |- _ =>
    apply (forM_foldl _ (λ a k1, k1 <| state ::= λ s, s <| facts_by_node ::=
      index_insert a (N.of_nat (length (facts (state k)))) |> |>)) in H;
    [rewrite foldl_by_node in H|] end.
  2:{ intros a k1 k2 _ Hb. unfold upd in Hb. inv_ok. done. }
  subst. repeat kstep. split_and!; [|rewrite Hst; cbn; rewrite Hst0, Hst1, Hst2; by destruct (state k)|done|done].
  etrans; [exact Hfr2|]. etrans; [exact Hfr1|]. etrans; [exact Hfr0|].
  etrans; [|exact Hfr]. by etrans; apply kframe_state.
Qed.

Lemma update_existing_fact_Ok rid support is_core p k out k' :
  update_existing_fact rid support is_core p k = (Ok out, k') →
  ∃ row, facts (state k) !! N.to_nat rid = Some row ∧ kframe k k' ∧
    state k' = state k <| facts ::= alter (strengthened support is_core p) (N.to_nat rid) |> ∧
    out = mkFactAddOutcome rid false
      (negb (bool_decide (add_support support (supports row) = supports row))).
Proof.
  intros H. unfold update_existing_fact in H. inv_ok. rename a into row. exists row.
  split; [done|].
  repeat kstep. split_and!; [by etrans| |done].
  rewrite Hst, Hst0. unfold set_field at 1 5. simpl. f_equal.
  by rewrite (list_alter_as_insert _ _ _ row).
Qed.

(** What a successful insertion does. *)
Lemma add_fact_detailed_Ok pid args dep is_core p k out k' :
  slots_ok (nodes (state k)) →
  add_fact_detailed pid args dep is_core p k = (Ok out, k') →
  args ≠ [] ∧ N.of_nat (length args) ≤ u32_max ∧ validate_dependency dep k = Ok tt ∧
  ∃ resolved, Forall2 (argument_of (nodes (state k))) args resolved ∧
    let key := mkFactKey pid resolved.*1 in
    let support := Dep.union (dep :: resolved.*2) in
    kframe k k' ∧ state k' = fact_added key support is_core p (state k) ∧
    match facts_by_key (state k) !! key with
    | Some rid => ∃ row, facts (state k) !! N.to_nat rid = Some row ∧
        out = mkFactAddOutcome rid false
          (negb (bool_decide (add_support support (supports row) = supports row)))
    | None => N.of_nat (length (facts (state k))) ≤ u32_max ∧
        out = mkFactAddOutcome (N.of_nat (length (facts (state k)))) true true
    end.
Proof.
  intros Hs H. unfold add_fact_detailed in H. inv_ok. apply bool_decide_eq_false in H0.
  split_and!; [done|done|done|]. match goal with H : canonical_arguments _ _ = Ok ?r |- _ =>
    exists r; split; [by apply canonical_arguments_Ok|] end. cbv zeta. unfold fact_added.
  destruct (facts_by_key _ !! _) as [rid|].
  - apply update_existing_fact_Ok in H as (row & Hr & Hf & Hs' & Ho). eauto 10.
  - apply insert_new_fact_Ok in H as (Hf & Hs' & Hc & Ho). eauto 10.
Qed.

Lemma add_fact_Ok pid args dep is_core p k rid k' :
  add_fact pid args dep is_core p k = (Ok rid, k') →
  ∃ out, add_fact_detailed pid args dep is_core p k = (Ok out, k') ∧ rid = out_row_id out.
Proof. intros H. unfold add_fact in H. inv_ok. eauto. Qed.

(** ** Insertion keeps the fact invariant *)

Lemma fact_added_frame s key support is_core p :
  let s' := fact_added key support is_core p s in
  nodes s' = nodes s ∧ generations s' = generations s ∧ free_slots s' = free_slots s ∧
  next_creation_id s' = next_creation_id s.
Proof. unfold fact_added. by destruct (facts_by_key s !! key). Qed.

Section fact_added.
Context (hi : N) (s : MutableState) (key : FactKey) (support : DependencySet) (is_core : bool) (p : option N).
Hypothesis Hf : facts_ok hi s.
Hypothesis Hsup : canonical support ∧ dep_bounded hi support.
Hypothesis Hargs : ∀ h, h ∈ arguments key → active_handle (nodes s) h.
Hypothesis Hne : arguments key ≠ [].
Hypothesis Hlen : N.of_nat (length (arguments key)) ≤ u32_max.
Hypothesis Hcap : facts_by_key s !! key = None → N.of_nat (length (facts s)) ≤ u32_max.
Abbreviation s' := (fact_added key support is_core p s).

Lemma fact_added_ok : facts_ok hi s'.
Proof.
  unfold fact_added. destruct Hsup as [Hc Hb]. destruct (facts_by_key s !! key) as [rid|] eqn:E.
  - apply (facts_key _ _ Hf) in E as (row & Hrow & <-).
    pose proof (facts_rows _ _ Hf _ _ Hrow) as [].
    assert (alter (strengthened support is_core p) (N.to_nat rid) (facts s) =
      <[N.to_nat rid := strengthened support is_core p row]> (facts s)) as Heq.
    { apply list_alter_as_insert. apply Hrow. }
    unfold set_field at 1. rewrite Heq. eapply (facts_ok_updated hi s _ row); try done; [apply Hrow|].
    split; try done. by apply add_support_ok.
  - apply facts_ok_inserted; try done; [auto|]. split; try done. by apply supports_ok_singleton.
Qed.

(** The active keys are those of before and the new one. *)
Lemma fact_added_keys i r :
  active_row s' i r → row_key r = key ∨ ∃ r0, active_row s i r0 ∧ row_key r0 = row_key r.
Proof.
  unfold fact_added. destruct (facts_by_key s !! key) as [rid|] eqn:E.
  - intros [Hl Ha]. cbn in Hl. apply list_lookup_alter_inv in Hl as [(-> & r0 & Hl & ->)|[_ Hl]].
    + right. exists r0. done.
    + right. exists r. done.
  - intros Hr. apply active_row_inserted in Hr as [Hr|[-> ->]]; try done; [right; by exists r|by left|by apply Hcap].
Qed.
End fact_added.

(** ** Deactivation *)

Lemma remove_from_index_Ok `{Countable Key} (index : MutableState → gmap Key (gset N)) assign key rid err k u k' :
  remove_from_index index assign key rid err k = (Ok u, k') →
  k' = k <| state ::= assign (index_remove key rid) |>.
Proof. intros H0. unfold remove_from_index, upd in H0. inv_ok. done. Qed.

Lemma deactivate_fact_Ok rid k u k' :
  (∀ i row, facts (state k) !! i = Some row → row_id row = N.of_nat i) →
  deactivate_fact rid k = (Ok u, k') →
  ∃ row, facts (state k) !! N.to_nat rid = Some row ∧ kframe k k' ∧
    state k' = if active row then fact_removed row (state k) else state k.
Proof.
  intros Hids H. unfold deactivate_fact in H. inv_ok. rename a into row. exists row.
  unfold fact in H0. inv_ok. split; [done|]. destruct (active row); simpl in H; [|inv_ok; by split].
  assert (row_id row = rid) as Hrid by (rewrite (Hids _ _ H0); lia).
  inv_ok. apply remove_from_index_Ok in H2 as ->.
  match goal with H : forM _ (enumerate _) _ = _ |- _ =>
    apply (forM_foldl _ (λ pa k1, k1 <| state ::= λ s, s <| facts_by_position ::=
      index_remove (predicate_id (row_key row), N.of_nat pa.1, pa.2) rid |> |>)) in H;
    [rewrite foldl_by_position in H|] end.
  2:{ intros pa k1 k2 _ Hb. inv_ok. by apply remove_from_index_Ok in Hb. }
  match goal with H : forM _ (btree_elements _) _ = _ |- _ =>
    apply (forM_foldl _ (λ a k1, k1 <| state ::= λ s, s <| facts_by_node ::=
      index_remove a rid |> |>)) in H;
    [rewrite foldl_by_node in H|] end.
  2:{ intros a k1 k2 _ Hb. by apply remove_from_index_Ok in Hb. }
  subst. unfold upd in *. inv_ok. kstep. split; [|rewrite Hst; by destruct k as [[]]].
  by destruct Hfr; split; cbn in *.
Qed.

(** ** Index lookup *)

Lemma row_matches_spec pid bindings row :
  row_matches pid bindings row = true ↔
  active row = true ∧ predicate_id (row_key row) = pid ∧
  ∀ position h, (position, h) ∈ bindings → arguments (row_key row) !! N.to_nat position = Some h.
Proof.
  unfold row_matches. rewrite !andb_true_iff, bool_decide_eq_true, forallb_forall. split.
  - intros [[? ?] Hb]. split_and!; [done..|]. intros i h Hi%list_elem_of_In.
    by apply Hb, bool_decide_eq_true in Hi.
  - intros (? & ? & Hb). split; [done|]. intros [i h] Hi. apply bool_decide_eq_true.
    by apply Hb, list_elem_of_In.
Qed.

Section candidates.
Context (hi : N) (k : TableauKernel) (pid : N).
Hypothesis Hf : facts_ok hi (state k).
Abbreviation s := (state k).

(** A stored row that agrees with the bindings. *)
Definition matching (bindings : list (N * NodeHandle)) (rid : N) : Prop :=
  ∃ row, facts s !! N.to_nat rid = Some row ∧ row_matches pid bindings row = true.

Lemma select_smallest_spec bindings : ∀ smallest,
  (∀ rid, rid ∈ smallest → is_Some (facts s !! N.to_nat rid)) →
  (∀ position h, (position, h) ∈ bindings → active_handle (nodes s) h) →
  ∃ o, select_smallest pid bindings smallest k = Ok o ∧
    match o with
    | None => ∀ rid, ¬ matching bindings rid
    | Some rows => (∀ rid, rid ∈ rows → is_Some (facts s !! N.to_nat rid)) ∧
        ∀ rid, rid ∈ smallest → matching bindings rid → rid ∈ rows
    end.
Proof.
  induction bindings as [|[i h] bindings IH]; intros smallest Hin Hact; simpl; [by exists (Some smallest)|].
  destruct (Hact i h) as (n & Hn & Ha); [by left|].
  assert (require_active h k = Ok n) as -> by (by apply require_active_Ok). simpl.
  assert (∀ rid, matching ((i, h) :: bindings) rid →
    matching bindings rid ∧ rid ∈ idx_rows (facts_by_position s) (pid, i, h)) as Hm.
  { intros rid (row & Hr & Hrm). pose proof Hrm as (Hact' & Hp & Hb)%row_matches_spec. split.
    - exists row. split; [done|]. apply row_matches_spec. split_and!; [done..|].
      intros j h' ?. apply Hb. by right.
    - apply (facts_position _ _ Hf). exists row. split; [done|]. split; [done|]. apply Hb. by left. }
  destruct (facts_by_position s !! (pid, i, h)) as [rows|] eqn:E.
  - assert (idx_rows (facts_by_position s) (pid, i, h) = rows) as Hrows by (unfold idx_rows; by rewrite E).
    assert (∀ rid, rid ∈ rows → is_Some (facts s !! N.to_nat rid)) as Hin'.
    { intros rid Hr. rewrite <-Hrows in Hr. apply (facts_position _ _ Hf) in Hr as (row & [? _] & _). eauto. }
    destruct (IH (if (size rows <? size smallest)%nat then rows else smallest)) as (o & Ho & Hspec).
    { case_match; auto. }
    { intros j h' ?. apply (Hact j). by right. }
    exists o. split; [done|]. destruct o as [rows'|].
    + destruct Hspec as [H1 H2]. split; [done|]. intros rid Hs Hmm. apply Hm in Hmm as [Hmm Hr].
      apply H2; [|done]. rewrite Hrows in Hr. by case_match.
    + intros rid Hmm. apply Hm in Hmm as [Hmm _]. by eapply Hspec.
  - exists None. split; [done|]. intros rid [_ Hr]%Hm. unfold idx_rows in Hr. rewrite E in Hr. set_solver.
Qed.

Lemma candidate_loop (p : FactRow → bool) rids : ∀ acc,
  (∀ rid, rid ∈ rids → is_Some (facts s !! N.to_nat rid)) →
  foldM (λ result rid, row ← fact rid k; Ok (if p row then result ++ [rid] else result)) rids acc =
  Ok (acc ++ List.filter (λ rid, match facts s !! N.to_nat rid with Some row => p row | None => false end) rids).
Proof.
  induction rids as [|rid rids IH]; intros acc Hin; cbn [foldM List.filter]; [by rewrite app_nil_r|].
  destruct (Hin rid) as [row Hr]; [by left|].
  assert (fact rid k = Ok row) as -> by (unfold fact; by rewrite Hr). rewrite Hr, !bind_Ok_l.
  rewrite IH by (intros; apply Hin; by right). destruct (p row); [|done]. by rewrite <-app_assoc.
Qed.
End candidates.

Lemma StronglySorted_filter {A} (R : A → A → Prop) (p : A → bool) l :
  StronglySorted R l → StronglySorted R (List.filter p l).
Proof.
  induction 1 as [|x l Hl IH Hx]; simpl; [constructor|]. destruct (p x); [|done].
  constructor; [done|]. rewrite Forall_forall in *. intros y Hy. apply Hx.
  apply list_elem_of_In, filter_In in Hy as [Hy _]. by apply list_elem_of_In.
Qed.

(** The ids of the rows of a store are ascending. *)
Lemma row_ids_sorted (rows : list FactRow) (start : nat) :
  (∀ i row, rows !! i = Some row → row_id row = N.of_nat (start + i)) →
  StronglySorted ord_lt (row_id <$> rows).
Proof.
  revert start. induction rows as [|r rows IH]; intros start Hids; csimpl; [constructor|].
  constructor.
  - apply (IH (S start)). intros i row Hi. rewrite (Hids (S i) row Hi). f_equal. lia.
  - rewrite Forall_forall. intros x (row & -> & [i Hi]%list_elem_of_lookup)%list_elem_of_fmap.
    rewrite ord_lt_N, (Hids 0%nat r eq_refl), (Hids (S i) row Hi). lia.
Qed.

Lemma fmap_filter_sorted (p : FactRow → bool) rows :
  StronglySorted ord_lt (row_id <$> rows) → StronglySorted ord_lt (row_id <$> List.filter p rows).
Proof.
  induction rows as [|r rows IH]; csimpl; [done|]. intros [Hs Hr]%StronglySorted_inv.
  destruct (p r); csimpl; [|by apply IH]. constructor; [by apply IH|].
  rewrite Forall_forall in *. intros x (row & -> & Hrow)%list_elem_of_fmap. apply Hr.
  apply list_elem_of_In, filter_In in Hrow as [Hrow _]. apply list_elem_of_fmap. exists row.
  split; [done|]. by apply list_elem_of_In.
Qed.

(** The indexed lookup returns what a scan of all rows returns. *)
Lemma candidate_fact_ids_scan hi k pid bindings :
  facts_ok hi (state k) →
  (∀ position h, bindings !! position = Some h → active_handle (nodes (state k)) h) →
  candidate_fact_ids pid bindings k =
  Ok (row_id <$> List.filter (row_matches pid (btree_entries bindings)) (facts (state k))).
Proof.
  intros Hf Hact.
  set (P := matching k pid (btree_entries bindings)).
  assert (∀ ids, StronglySorted ord_lt ids → (∀ rid, rid ∈ ids ↔ P rid) →
    ids = row_id <$> List.filter (row_matches pid (btree_entries bindings)) (facts (state k))) as Huniq.
  { intros ids Hids Hin. apply StronglySorted_lt_unique; [done| |].
    - apply fmap_filter_sorted, (row_ids_sorted _ 0). intros i row. apply (facts_ids _ _ Hf).
    - intros rid. rewrite Hin, list_elem_of_fmap. unfold P, matching. split.
      + intros (row & Hr & Hm). exists row. split; [rewrite (facts_ids _ _ Hf _ _ Hr); lia|].
        apply list_elem_of_In, filter_In. split; [|done].
        by eapply list_elem_of_In, list_elem_of_lookup_2.
      + intros (row & -> & [Hr Hm]%list_elem_of_In%filter_In). apply list_elem_of_In in Hr.
        apply list_elem_of_lookup in Hr as [i Hi]. exists row.
        rewrite (facts_ids _ _ Hf _ _ Hi), Nat2N.id. done. }
  unfold candidate_fact_ids. destruct (facts_by_predicate (state k) !! pid) as [rows|] eqn:E.
  - assert (∀ rid, rid ∈ rows ↔ ∃ row, active_row (state k) (N.to_nat rid) row ∧ predicate_id (row_key row) = pid) as Hrows.
    { intros rid. rewrite <-(proj2 (facts_predicate _ _ Hf)). unfold idx_rows. by rewrite E. }
    destruct (select_smallest_spec hi k pid Hf (btree_entries bindings) rows) as (o & -> & Hspec).
    { intros rid (row & [? _] & _)%Hrows. eauto. }
    { intros i h Hi%elem_of_btree_entries. by eapply Hact. }
    simpl. destruct o as [rows'|].
    + destruct Hspec as [Hin Hall]. rewrite candidate_loop.
      2:{ intros rid Hr%elem_of_btree_elements. by apply Hin. }
      f_equal. apply Huniq; [apply StronglySorted_filter, btree_elements_sorted|].
      intros rid. simpl. rewrite list_elem_of_In, filter_In, <-list_elem_of_In, elem_of_btree_elements. split.
      * intros [_ Hm]. destruct (facts (state k) !! N.to_nat rid) as [row|] eqn:Er; [|done]. by exists row.
      * intros HP. pose proof HP as (row & Hr & Hm). rewrite Hr. split; [|done]. apply Hall; [|done].
        apply Hrows. exists row. apply row_matches_spec in Hm as (? & ? & _). done.
    + f_equal. apply Huniq; [constructor|]. intros rid. split; [set_solver|]. by intros ?%Hspec.
  - f_equal. apply Huniq; [constructor|]. intros rid. split; [set_solver|]. intros (row & Hr & Hm).
    apply row_matches_spec in Hm as (Ha & Hp & _).
    assert (rid ∈ idx_rows (facts_by_predicate (state k)) pid) as Hin.
    { apply (facts_predicate _ _ Hf). by exists row. }
    unfold idx_rows in Hin. rewrite E in Hin. set_solver.
Qed.

(** ** The store as a set of derivations

    Abstractly, the fact store maps a key to an upward-closed set of
    dependency sets: those under which the fact is derived. *)

Definition derivable (s : MutableState) (key : FactKey) (d : DependencySet) : Prop :=
  ∃ i row, active_row s i row ∧ row_key row = key ∧ covers (supports row) d.

Lemma derivable_up s key d e : derivable s key d → levels d ⊆ levels e → derivable s key e.
Proof.
  intros (i & row & Hr & Hk & f & Hf & Hs) Hde. exists i, row. split_and!; [done|done|].
  exists f. split; [done|set_solver].
Qed.

Lemma active_row_fact_added hi s key support is_core p i r :
  facts_ok hi s → (facts_by_key s !! key = None → N.of_nat (length (facts s)) ≤ u32_max) →
  row_key r ≠ key →
  active_row (fact_added key support is_core p s) i r ↔ active_row s i r.
Proof.
  intros Hf Hcap Hne. unfold fact_added. destruct (facts_by_key s !! key) as [rid|] eqn:E.
  - apply (facts_key _ _ Hf) in E as (row & [Hrow Hact] & Hk). unfold active_row; cbn.
    rewrite (list_alter_as_insert _ _ _ row) by done. rewrite list_lookup_insert_Some. split.
    + intros [[(_ & <- & _)|[_ ?]] ?]; [|done]. destruct Hne. by cbn.
    + intros [Hl ?]. split; [|done]. right. split; [|done]. intros <-. congruence.
  - rewrite active_row_inserted; [naive_solver|done|by apply Hcap|done].
Qed.

(** Insertion adds one derivation and what follows from it. *)
Lemma derivable_fact_added hi s key support is_core p key' d :
  facts_ok hi s → canonical support →
  (facts_by_key s !! key = None → N.of_nat (length (facts s)) ≤ u32_max) →
  derivable (fact_added key support is_core p s) key' d ↔
  derivable s key' d ∨ (key' = key ∧ levels support ⊆ levels d).
Proof.
  intros Hf Hc Hcap. destruct (decide (key' = key)) as [->|Hne].
  - unfold fact_added, derivable. destruct (facts_by_key s !! key) as [rid|] eqn:E.
    + apply (facts_key _ _ Hf) in E as (row & Hrow & Hk).
      pose proof (row_supports _ _ _ (facts_rows _ _ Hf _ _ Hrow)) as Hsup.
      assert (∀ j r, active_row s j r → row_key r = key → j = N.to_nat rid ∧ r = row) as Huniq.
      { intros j r Hr Hkr. assert (j = N.to_nat rid) as -> by (eapply (active_row_key_unique hi s); eauto; congruence).
        destruct Hr, Hrow. by simplify_eq. }
      assert (∀ d, covers (supports (strengthened support is_core p row)) d ↔
        covers (supports row) d ∨ levels support ⊆ levels d) as Hcov.
      { intros d'. apply add_support_covers; [done|]. by destruct Hsup. }
      destruct Hrow as [Hl Hact]. split.
      * intros (j & r & [Hj Ha] & Hkr & Hd). cbn in Hj.
        apply list_lookup_alter_inv in Hj as [(-> & r0 & Hr0 & ->)|[Hnj Hj]].
        -- simplify_eq. apply Hcov in Hd as [Hd|Hd]; [left|by right].
           exists (N.to_nat rid), row. done.
        -- destruct (Huniq j r) as [? _]; done.
      * intros Hd. exists (N.to_nat rid), (strengthened support is_core p row). split_and!; [|done|].
        -- split; [|done]. cbn. by rewrite list_lookup_alter_eq, Hl.
        -- apply Hcov. destruct Hd as [(j & r & Hr & Hkr & Hd)|[_ Hd]]; [left|by right].
           destruct (Huniq j r Hr Hkr) as [-> ->]. done.
    + assert (∀ j r, active_row s j r → row_key r ≠ key) as Hno.
      { intros j r Hr Hkr. assert (facts_by_key s !! key = Some (N.of_nat j)); [|congruence].
        apply (facts_key _ _ Hf). exists r. by rewrite Nat2N.id. }
      setoid_rewrite active_row_inserted; [|done|by apply Hcap|done]. split.
      * intros (j & r & [Hr|[-> ->]] & Hkr & Hd); [by destruct (Hno j r Hr)|].
        right. split; [done|]. destruct Hd as (e & He & Hed). apply list_elem_of_singleton in He as ->. done.
      * intros [(j & r & Hr & Hkr & _)|[_ Hd]]; [by destruct (Hno j r Hr)|].
        eexists _, _. split_and!; [by right|done|]. exists support. split; [by left|done].
  - unfold derivable. split.
    + intros (i & r & Hr & Hk & Hd). left. exists i, r. split_and!; [|done|done].
      by rewrite (active_row_fact_added hi) in Hr by (done || congruence).
    + intros [(i & r & Hr & Hk & Hd)|[? _]]; [|done]. exists i, r. split_and!; [|done|done].
      by rewrite (active_row_fact_added hi) by (done || congruence).
Qed.

(** Deactivation removes the derivations of one key. *)
Lemma derivable_fact_removed hi s i row key d :
  facts_ok hi s → active_row s i row →
  derivable (fact_removed row s) key d ↔ derivable s key d ∧ key ≠ row_key row.
Proof.
  intros Hf Hrow. unfold derivable. setoid_rewrite (active_row_removed hi s i row Hf Hrow). split.
  - intros (j & r & [Hr Hne] & <- & Hd). split; [by eauto|]. intros E. apply Hne.
    by eapply active_row_key_unique.
  - intros [(j & r & Hr & <- & Hd) Hne]. exists j, r. split_and!; [done| |done|done].
    intros ->. apply Hne. destruct Hr, Hrow. by simplify_eq.
Qed.
