(* ===== verification/StateInv.v ===== *)
(** * The state invariant and the operations that stay inside a branch

    [state_ok hi s] is the invariant of a [MutableState] whose dependencies may
    mention branch levels up to [hi].  Every operation of the kernel that does
    not touch the branch stack keeps it. *)

From S2P Require Import Prelude Order Errors Model Queue Store Kernel KernelBase Arena Facts FactOps.
Import Kernel.

(** ** Queues, disjunctions and the clash *)

(** A disjunction still to be processed. *)
Definition pending (d : GroundDisjunction) : bool := d_active d && negb (d_processed d).

Record disjunction_ok (hi : N) (i : nat) (d : GroundDisjunction) : Prop := {
  disjunction_index : disjunction_id d = N.of_nat i;
  disjunction_checkpoint : d_creation_checkpoint d ≤ hi;
  disjunction_canonical : canonical (d_base_dependency d);
  disjunction_bounded : dep_bounded hi (d_base_dependency d)
}.

(** The disjunction queue holds exactly the pending disjunctions, each at the
    priority of its id. *)
Definition disjunction_queue_ok (s : MutableState) : Prop :=
  ∀ p v, entries (disjunction_queue s) !! p = Some v ↔
    ∃ i d, disjunctions s !! i = Some d ∧ pending d = true ∧ p = [Z.of_nat i] ∧ v = Integer (N.of_nat i).

Record agenda_ok (hi : N) (s : MutableState) : Prop := {
  agenda_delta : queue_ok (delta_rows s);
  agenda_equalities : queue_ok (annotated_equalities s);
  agenda_existentials : queue_ok (existential_candidates s);
  agenda_disjunctions : queue_ok (disjunction_queue s);
  agenda_datatypes : queue_ok (datatype_components s);
  agenda_blocking : queue_ok (blocking_invalidations s);
  agenda_generations : read_generation s ≤ write_generation s;
  agenda_records i d : disjunctions s !! i = Some d → disjunction_ok hi i d;
  agenda_queue : disjunction_queue_ok s;
  agenda_clash c : current_clash s = Some c → canonical (clash_dependency c) ∧ dep_bounded hi (clash_dependency c)
}.

Record state_ok (hi : N) (s : MutableState) : Prop := {
  state_arena : arena_ok hi s;
  state_facts : facts_ok hi s;
  state_agenda : agenda_ok hi s
}.

Lemma agenda_ok_new hi : agenda_ok hi MutableState_new.
Proof.
  split; try apply queue_ok_default; try done.
  intros p v. cbn. rewrite lookup_empty. split; [done|]. by intros ([] & ? & ? & _).
Qed.

Lemma state_ok_new hi : state_ok hi MutableState_new.
Proof. split; [apply arena_ok_new|apply facts_ok_new|apply agenda_ok_new]. Qed.

Lemma agenda_ok_mono hi hi' s : hi ≤ hi' → agenda_ok hi s → agenda_ok hi' s.
Proof.
  intros Hle [H1 H2 H3 H4 H5 H6 H7 H8 H9 H10]. split; try done.
  - intros i d Hi. destruct (H8 i d Hi). split; [done|lia|done|by eapply dep_bounded_mono].
  - intros c Hc. destruct (H10 c Hc). split; [done|by eapply dep_bounded_mono].
Qed.

Lemma state_ok_mono hi hi' s : hi ≤ hi' → state_ok hi s → state_ok hi' s.
Proof.
  intros Hle [? ? ?]. split; [by eapply arena_ok_mono|by eapply facts_ok_mono|by eapply agenda_ok_mono].
Qed.

(** The agenda does not look at nodes or rows. *)
Record same_agenda (s s' : MutableState) : Prop := {
  same_delta : delta_rows s' = delta_rows s;
  same_equalities : annotated_equalities s' = annotated_equalities s;
  same_existentials : existential_candidates s' = existential_candidates s;
  same_disjunction_queue : disjunction_queue s' = disjunction_queue s;
  same_datatypes : datatype_components s' = datatype_components s;
  same_blocking : blocking_invalidations s' = blocking_invalidations s;
  same_read : read_generation s' = read_generation s;
  same_write : write_generation s' = write_generation s;
  same_disjunctions : disjunctions s' = disjunctions s;
  same_clash : current_clash s' = current_clash s
}.

Lemma agenda_ok_frame hi s s' : same_agenda s s' → agenda_ok hi s → agenda_ok hi s'.
Proof.
  intros [] []. split; try congruence.
  - intros i d. rewrite same_disjunctions0. auto.
  - intros p v. rewrite same_disjunction_queue0, same_disjunctions0. auto.
  - intros c. rewrite same_clash0. auto.
Qed.

(** ** Restoring a snapshot *)

Lemma active_handle_restore current s h :
  active_handle (nodes (restore_state current s)) h ↔ active_handle (nodes s) h.
Proof. unfold active_handle. by setoid_rewrite restore_stored. Qed.

Lemma state_restore hi current s :
  state_ok hi s → N.of_nat (length current) ≤ 2 ^ 32 → state_ok hi (restore_state current s).
Proof.
  intros [Ha Hf Hg] Hcap. split.
  - by apply arena_restore.
  - apply (facts_ok_frame hi hi s); try done. intros i row h _ _. by rewrite active_handle_restore.
  - by apply (agenda_ok_frame hi s).
Qed.

(** ** Simple operations *)

(** [keeps m]: a successful run of [m] keeps the invariant and the branches. *)
Definition keeps {A} (m : K A) : Prop :=
  ∀ k a k', state_ok (top k) (state k) → m k = (Ok a, k') → kframe k k' ∧ state_ok (top k) (state k').

Lemma keeps_bind {A B} (m : K A) (f : A → K B) :
  keeps m → (∀ a, keeps (f a)) → keeps (m ≫= f).
Proof.
  intros Hm Hf k b k' Hk H. inv_ok. destruct (Hm _ _ _ Hk H0) as [Hfr Hk1].
  rewrite <-(top_frame _ _ Hfr) in Hk1 |- *. destruct (Hf _ _ _ _ Hk1 H). split; [by etrans|done].
Qed.

Lemma keeps_forM {A} (f : A → K unit) l : (∀ x, keeps (f x)) → keeps (forM f l).
Proof.
  intros Hf k [] k' Hk H.
  apply (forM_inv (λ k1, kframe k k1 ∧ state_ok (top k) (state k1)) f l k k'); [|by split|done].
  intros x k1 k2 _ [Hfr Hk1] Hx. rewrite <-(top_frame _ _ Hfr) in Hk1 |- *.
  destruct (Hf x _ _ _ Hk1 Hx). split; [by etrans|done].
Qed.

Lemma keeps_pure {A} (m : K A) : (∀ k a k', m k = (Ok a, k') → k' = k) → keeps m.
Proof. intros Hm k a k' Hk ->%Hm. done. Qed.

Lemma keeps_reads {A} (f : TableauKernel → NativeResult A) : keeps (reads f).
Proof. apply keeps_pure. intros k a k' H. by inv_ok. Qed.

Lemma keeps_gets {A} (f : TableauKernel → A) : keeps (gets f).
Proof. apply keeps_pure. intros k a k' H. by inv_ok. Qed.

Lemma keeps_lift {A} (r : NativeResult A) : keeps (lift r).
Proof. apply keeps_pure. intros k a k' H. by inv_ok. Qed.

Lemma keeps_mret {A} (a : A) : keeps (mret a).
Proof. apply keeps_pure. intros k b k' H. by inv_ok. Qed.

Lemma keeps_mutation : keeps record_mutation.
Proof. intros k a k' Hk [Hf Hs]%record_mutation_frame. split; [done|]. by rewrite Hs. Qed.

Lemma keeps_sequence : keeps bump_sequence.
Proof. intros k a k' Hk [Hf Hs]%bump_sequence_frame. split; [done|]. by rewrite Hs. Qed.

Lemma keeps_upd f : (∀ hi s, state_ok hi s → state_ok hi (f s)) → keeps (upd f).
Proof. intros Hf k a k' Hk [Hfr ->]%upd_frame. split; [done|]. by apply Hf. Qed.

(** Closes [state_ok hi s'] when [s'] differs from [s] only where the invariant
    does not look. *)
Ltac state_frame s :=
  let Ha := fresh in let Hf := fresh in let Hg := fresh in
  intros [Ha Hf Hg]; split;
  [ by eapply (arena_ok_frame _ s) | by eapply (facts_ok_frame _ _ s) | by eapply (agenda_ok_frame _ s) ].

#[export] Hint Resolve keeps_bind keeps_forM keeps_reads keeps_gets keeps_lift keeps_mret
  keeps_mutation keeps_sequence : tableau.

(** Splits a straight-line operation into its steps. *)
Ltac keeps_steps :=
  repeat first
    [ apply keeps_reads | apply keeps_gets | apply keeps_lift | apply keeps_mret
    | apply keeps_mutation | apply keeps_sequence
    | apply keeps_bind; [|intros ?]
    | apply keeps_forM; intros ? ].

Lemma keeps_set_reuse_node filler h : keeps (set_existential_reuse_node filler h).
Proof.
  unfold set_existential_reuse_node. keeps_steps; [|case_match; keeps_steps].
  apply keeps_upd. intros hi s. state_frame s.
Qed.

Lemma keeps_remove_reuse_node filler : keeps (remove_existential_reuse_node filler).
Proof.
  unfold remove_existential_reuse_node. keeps_steps; [|case_match; keeps_steps].
  apply keeps_upd. intros hi s. state_frame s.
Qed.

Lemma keeps_set_reuse_disabled pid disabled : keeps (set_existential_reuse_disabled pid disabled).
Proof.
  unfold set_existential_reuse_disabled. keeps_steps; [|case_match; keeps_steps].
  apply keeps_upd. intros hi s. state_frame s.
Qed.

Lemma keeps_remove_reuse_branch lvl : keeps (remove_existential_reuse_branch lvl).
Proof.
  unfold remove_existential_reuse_branch. keeps_steps; [|case_match; keeps_steps].
  apply keeps_upd. intros hi s. state_frame s.
Qed.

Lemma keeps_prepare_next_delta : keeps prepare_next_delta.
Proof.
  intros k a k' [Ha Hf Hg] H. unfold prepare_next_delta in H. inv_ok.
  assert (kframe k s0 ∧ state s0 = state k <| read_generation := write_generation (state k) |>) as [Hfr Hst].
  { case_bool_decide as E; [inv_ok; split; [done|]; by destruct (state k); cbn in *; subst|].
    by apply upd_frame in H1. }
  repeat kstep. split; [by etrans; [|etrans]|]. rewrite Hst0, Hst1, Hst. destruct Hg. split.
  - by eapply (arena_ok_frame _ (state k)).
  - eapply (facts_ok_frame _ _ (state k)); try done. cbn. lia.
  - split; try done. cbn. lia.
Qed.

(** ** Queues *)

(** A selector of one of the queues whose contents the invariant leaves open. *)
Definition free_queue (sel : (MutableState → StableQueue) * (StableQueue → MutableState → MutableState)) : Prop :=
  (∀ hi s, state_ok hi s → queue_ok (sel.1 s)) ∧
  (∀ hi s q, state_ok hi s → queue_ok q → state_ok hi (sel.2 q s)).

(** As [state_frame], but one queue of the agenda is replaced. *)
Ltac queue_frame s :=
  let Ha := fresh in let Hf := fresh in let Hg := fresh in
  intros [Ha Hf Hg] ?; split;
  [ by eapply (arena_ok_frame _ s) | by eapply (facts_ok_frame _ _ s) | destruct Hg; by split ].

Lemma free_integer_queue queue sel : integer_queue queue = Some sel → free_queue sel.
Proof.
  unfold integer_queue. repeat case_bool_decide; intros [= <-]; (split; cbn; [by intros ?? [_ _ []]|]);
    intros hi s q; queue_frame s.
Qed.

Lemma free_node_queue queue sel : node_queue queue = Some sel → free_queue sel.
Proof.
  unfold node_queue. repeat case_bool_decide; intros [= <-]; (split; cbn; [by intros ?? [_ _ []]|]);
    intros hi s q; queue_frame s.
Qed.

Lemma keeps_enqueue_into sel v p : free_queue sel → keeps (enqueue_into sel v p).
Proof.
  intros [H1 H2] k a k' Hk H. unfold enqueue_into in H. inv_ok.
  destruct (Queue.enqueue v p (sel.1 (state k))) as [r q'] eqn:E. inv_ok. subst r.
  pose proof (enqueue_ok _ _ _ _ _ (H1 _ _ Hk) E) as Hq. repeat kstep.
  split; [by etrans|]. rewrite Hst, Hst0. by apply H2.
Qed.

Lemma keeps_enqueue_integer queue v p : keeps (enqueue_integer queue v p).
Proof.
  unfold enqueue_integer. intros k a k' Hk H. inv_ok.
  by eapply keeps_enqueue_into; [eapply free_integer_queue|..].
Qed.

Lemma keeps_enqueue_node queue v p : keeps (enqueue_node queue v p).
Proof.
  unfold enqueue_node. intros k a k' Hk H. inv_ok.
  by eapply keeps_enqueue_into; [eapply free_node_queue|..].
Qed.

Lemma keeps_take_integer queue : keeps (take_integer queue).
Proof.
  unfold take_integer. intros k a k' Hk H. inv_ok. rename a0 into sel.
  destruct (free_integer_queue _ _ H0) as [H1 H2].
  destruct (Queue.pop (sel.1 (state k))) as [[v q']|] eqn:E; [|by inv_ok].
  pose proof (pop_ok _ _ _ (H1 _ _ Hk) E) as Hq. inv_ok. repeat kstep.
  match goal with H : match v with _ => _ end ?s1 = (Ok _, k') |- _ =>
    assert (k' = s1) as -> by (by destruct v; inv_ok) end.
  split; [by etrans|]. rewrite Hst, Hst0. by apply H2.
Qed.

Lemma keeps_take_existential_candidate : keeps take_existential_candidate.
Proof.
  unfold take_existential_candidate. intros k a k' Hk H. inv_ok.
  destruct (Queue.pop (existential_candidates (state k))) as [[v q']|] eqn:E; [|by inv_ok].
  pose proof (pop_ok _ _ _ (agenda_existentials _ _ (state_agenda _ _ Hk)) E) as Hq. inv_ok. repeat kstep.
  match goal with H : match v with _ => _ end ?s1 = (Ok _, k') |- _ =>
    assert (k' = s1) as -> by (by destruct v; inv_ok) end.
  split; [by etrans|]. rewrite Hst, Hst0. revert Hk Hq. generalize (state k). intros st0. queue_frame st0.
Qed.

(** ** Disjunctions *)

(** Replacing the disjunctions and their queue. *)
Lemma state_ok_disjunctions hi s ds q :
  state_ok hi s → queue_ok q → (∀ i d, ds !! i = Some d → disjunction_ok hi i d) →
  disjunction_queue_ok (s <| disjunctions := ds |> <| disjunction_queue := q |>) →
  state_ok hi (s <| disjunctions := ds |> <| disjunction_queue := q |>).
Proof.
  intros [Ha Hf []] ? ? ?. split; [by eapply (arena_ok_frame _ s)|by eapply (facts_ok_frame _ _ s)|by split].
Qed.

(** An update of one disjunction that leaves the queue alone. *)
Lemma keeps_alter_disjunction hi s i d f :
  state_ok hi s → disjunctions s !! i = Some d → disjunction_ok hi i (f d) → pending (f d) = pending d →
  state_ok hi (s <| disjunctions ::= alter f i |>).
Proof.
  intros Hs Hi Hd Hp. pose proof (state_agenda _ _ Hs) as Hg.
  replace (s <| disjunctions ::= alter f i |>)
    with (s <| disjunctions := alter f i (disjunctions s) |> <| disjunction_queue := disjunction_queue s |>)
    by (by destruct s).
  apply state_ok_disjunctions; [done|by destruct Hg| |].
  - intros j e [(-> & x & Hx & ->)|[_ ?]]%list_lookup_alter_inv; [by simplify_eq|by eapply agenda_records].
  - intros p v. cbn. etrans; [apply (agenda_queue _ _ Hg)|]. split.
    + intros (j & e & He & Hpe & ->  & ->). destruct (decide (i = j)) as [<-|Hne].
      * exists i, (f d). rewrite list_lookup_alter_eq, Hi. simplify_eq. rewrite Hp. auto.
      * exists j, e. by rewrite list_lookup_alter_ne.
    + intros (j & e & He & Hpe & -> & ->).
      apply list_lookup_alter_inv in He as [(-> & x & Hx & ->)|[_ ?]]; [|by eauto 10].
      simplify_eq. exists i, d. rewrite <-Hp. auto.
Qed.

Lemma top_update_branches f k :
  (∀ b, level (f b) = level b) → top (k <| branches ::= fmap f |>) = top k.
Proof.
  intros Hf. unfold top, highest_branch_level; cbn. rewrite fmap_last.
  destruct (last (branches k)); simpl; [|done]. by rewrite Hf.
Qed.

(** A successful [add_disjunction] appends a pending record and queues its id. *)
Lemma add_disjunction_Ok ids dep k did k' :
  add_disjunction ids dep k = (Ok did, k') →
  ∃ q b, kframe k k' ∧ did = N.of_nat (length (disjunctions (state k))) ∧
    validate_dependency dep k = Ok tt ∧ ids ≠ [] ∧ NoDup ids ∧
    Queue.enqueue (Integer did) [Z.of_N did] (disjunction_queue (state k)) = (Ok b, q) ∧
    state k' = state k <| disjunctions := disjunctions (state k) ++
                  [mkGroundDisjunction did ids dep (top k) true false] |> <| disjunction_queue := q |>.
Proof.
  intros H. unfold add_disjunction in H. inv_ok. unfold id in *.
  apply orb_false_iff in H0 as [Hne Huniq]. apply bool_decide_eq_false in Hne.
  apply negb_false_iff in Huniq. unfold is_unique in Huniq.
  apply bool_decide_eq_true, size_list_to_set_NoDup in Huniq.
  repeat kstep. rewrite Hst, Hst0 in H. cbn in H.
  destruct (Queue.enqueue _ _ (disjunction_queue (state k))) as [r q] eqn:E. inv_ok. subst r.
  repeat kstep. eexists q, _. split_and!; try done; [kframes|].
  rewrite Hst1, Hst2, Hst, Hst0. done.
Qed.

Lemma keeps_add_disjunction ids dep : canonical dep → keeps (add_disjunction ids dep).
Proof.
  intros Hd k did k' Hk H. apply add_disjunction_Ok in H as (q & b & Hfr & -> & Hv & _ & _ & Hq & ->).
  pose proof (state_agenda _ _ Hk) as Hg. split; [done|].
  assert (queue_ok q) as Hqok. { eapply enqueue_ok; [|done]. by destruct Hg. }
  apply state_ok_disjunctions; [done|done| |].
  - intros i d [Hi|[Hi Hl]]%lookup_app_Some; [by eapply agenda_records|].
    apply list_lookup_singleton_Some in Hl as [Hl <-].
    split; cbn; [f_equal; lia|done|done|by eapply validate_dependency_bounded].
  - set (n := length (disjunctions (state k))) in *.
    assert (∀ p v, entries (disjunction_queue (state k)) !! p = Some v →
      p ≠ [Z.of_nat n] ∧ v ≠ Integer (N.of_nat n)) as Hfresh.
    { intros p v (i & d & Hi & _ & -> & ->)%(agenda_queue _ _ Hg). apply lookup_lt_Some in Hi.
      split; [intros [=]; lia|intros [= ?]; lia]. }
    rewrite enqueue_cases, bool_decide_eq_false_2 in Hq.
    2:{ intros [p Hp%Hfresh]%(queue_members _ (agenda_disjunctions _ _ Hg)). naive_solver. }
    replace (Z.of_N (N.of_nat n)) with (Z.of_nat n) in Hq by lia.
    rewrite bool_decide_eq_false_2 in Hq by (intros [v Hp%Hfresh]; naive_solver).
    injection Hq as <- <-. intros p v. cbn. rewrite lookup_insert_Some. split.
    + intros [[<- <-]|[Hne Hp]].
      * eexists n, _. split_and!; [by apply list_lookup_middle|done..].
      * apply (agenda_queue _ _ Hg) in Hp as (i & d & Hi & ?). exists i, d. split; [|done].
        by apply lookup_app_l_Some.
    + intros (i & d & Hi & Hp & -> & ->). apply lookup_app_Some in Hi as [Hi|[Hi Hl]].
      * right. apply lookup_lt_Some in Hi as Hlt. split; [intros [=]; lia|].
        apply (agenda_queue _ _ Hg). eauto 10.
      * apply list_lookup_singleton_Some in Hl as [Hl _]. left.
        replace i with n by lia. done.
Qed.

(** The queue hands out the pending disjunction with the least id. *)
Lemma queue_least_pending hi s v q :
  agenda_ok hi s → Queue.pop (disjunction_queue s) = Some (v, q) →
  ∃ n d, v = Integer (N.of_nat n) ∧ disjunctions s !! n = Some d ∧ pending d = true ∧
    entries q = delete [Z.of_nat n] (entries (disjunction_queue s)) ∧
    ∀ m e, disjunctions s !! m = Some e → pending e = true → (n ≤ m)%nat.
Proof.
  intros Hg (p & Hp & Hmin & _ & Hq & _)%pop_Some.
  apply (agenda_queue _ _ Hg) in Hp as (n & d & Hn & Hpe & -> & ->).
  exists n, d. split_and!; [done..|]. intros m e Hm Hpm.
  assert (ord_le [Z.of_nat n] [Z.of_nat m]) as Hle.
  { apply Hmin. exists (Integer (N.of_nat m)). apply (agenda_queue _ _ Hg). eauto 10. }
  rewrite ord_le_singleton_Z in Hle. lia.
Qed.

Definition processed_disjunction (n : nat) (s : MutableState) : MutableState :=
  s <| disjunctions ::= alter (λ d, d <| d_processed := true |>) n |>.

(** On a well-formed store the loop of [take_disjunction] turns at most once. *)
Lemma take_disjunction_Ok hi k o k' :
  agenda_ok hi (state k) → take_disjunction k = (Ok o, k') →
  kframe k k' ∧
  match o with
  | None => state k' = state k ∧ ∀ m e, disjunctions (state k) !! m = Some e → pending e = false
  | Some did => ∃ n d q,
      did = N.of_nat n ∧ disjunctions (state k) !! n = Some d ∧ pending d = true ∧
      (∀ m e, disjunctions (state k) !! m = Some e → pending e = true → (n ≤ m)%nat) ∧
      Queue.pop (disjunction_queue (state k)) = Some (Integer did, q) ∧
      state k' = processed_disjunction n (state k) <| disjunction_queue := q |>
  end.
Proof.
  intros Hg H. unfold take_disjunction in H. inv_ok. cbn [take_disjunction_loop] in H. inv_ok.
  destruct (Queue.pop (disjunction_queue (state k))) as [[v q]|] eqn:E.
  - destruct (queue_least_pending _ _ _ _ Hg E) as (n & d & -> & Hn & Hp & _ & Hmin).
    inv_ok. repeat kstep.
    match goal with G : disjunctions (state ?s) !! _ = Some ?r |- _ =>
      is_var r; kstates_in G; rewrite Nat2N.id in G; assert (r = d) as -> by congruence; clear G end.
    unfold pending in Hp. apply andb_true_iff in Hp as [Ha Hnp]. apply negb_true_iff in Hnp.
    rewrite Ha, Hnp in H. simpl in H. inv_ok. repeat kstep. split; [kframes|].
    exists n, d, q. unfold pending. rewrite Ha, Hnp.
    split_and!; try done. kstates. rewrite Nat2N.id. by destruct (state k).
  - inv_ok. split; [done|]. split; [done|]. intros m e Hm. apply not_true_iff_false. intros Hp.
    apply pop_None in E. assert (entries (disjunction_queue (state k)) !! [Z.of_nat m] = Some (Integer (N.of_nat m))) as Hq.
    { apply (agenda_queue _ _ Hg). eauto 10. }
    by rewrite E in Hq.
Qed.

Lemma keeps_take_disjunction : keeps take_disjunction.
Proof.
  intros k o k' Hk H. pose proof (state_agenda _ _ Hk) as Hg.
  apply (take_disjunction_Ok (top k)) in H as [Hfr H]; [|done]. split; [done|].
  destruct o as [did|]; [|by destruct H as [-> _]].
  destruct H as (n & d & q & -> & Hn & Hp & _ & Hq & ->).
  destruct (queue_least_pending _ _ _ _ Hg Hq) as (n' & d' & Heq & _ & _ & He & _).
  injection Heq as Heq. assert (n' = n) as -> by lia.
  replace (processed_disjunction n (state k) <| disjunction_queue := q |>) with
    (state k <| disjunctions := alter (λ d, d <| d_processed := true |>) n (disjunctions (state k)) |>
             <| disjunction_queue := q |>) by (by destruct (state k)).
  apply state_ok_disjunctions; [done|eapply pop_ok; [|done]; by destruct Hg| |].
  - intros j e [(-> & x & Hx & ->)|[_ ?]]%list_lookup_alter_inv; [|by eapply agenda_records].
    by destruct (agenda_records _ _ Hg _ _ Hx).
  - intros p v. cbn. rewrite He, lookup_delete_Some. etrans; [apply and_iff_compat_l, (agenda_queue _ _ Hg)|]. split.
    + intros (Hne & j & e & Hj & Hpe & -> & ->). exists j, e. rewrite list_lookup_alter_ne by naive_solver. done.
    + intros (j & e & Hj & Hpe & -> & ->).
      apply list_lookup_alter_inv in Hj as [(-> & x & Hx & ->)|[Hne Hj]].
      * unfold pending in Hpe. cbn in Hpe. by rewrite andb_false_r in Hpe.
      * split; [intros [=]; lia|eauto 10].
Qed.

(** ** Clashes *)

Lemma select_clash_cases current candidate :
  select_clash current candidate = current ∨ select_clash current candidate = candidate.
Proof. unfold select_clash. repeat case_match; auto. Qed.

Lemma keeps_install_clash kind dep participants p :
  canonical dep → keeps (install_clash kind dep participants p).
Proof.
  intros Hd k a k' Hk H. unfold install_clash in H. inv_ok.
  match goal with H : (if ?c then _ else _) _ = _ |- _ => destruct c end; inv_ok; [done|].
  repeat kstep. split; [by etrans|]. rewrite Hst, Hst0. pose proof Hk as [Ha Hf []].
  split; [by eapply (arena_ok_frame _ (state k))|by eapply (facts_ok_frame _ _ (state k))|].
  split; try done. intros c [= <-]. cbn. split; [done|]. by eapply validate_dependency_bounded.
Qed.
