(* ===== verification/NodeOps.v ===== *)
(** * Operations on nodes and facts keep the invariant

    Creation, retirement, blocking, pending existentials, fact insertion and
    deactivation. *)

From S2P Require Import Prelude Order Errors Model Queue Store Kernel KernelBase Arena Facts FactOps StateInv.
Import Kernel.

(** ** Facts *)

Lemma fact_added_same_agenda key support is_core p s :
  same_agenda s (fact_added key support is_core p s).
Proof. unfold fact_added. by destruct (facts_by_key s !! key). Qed.

Lemma argument_of_bounded hi s a r :
  arena_ok hi s → argument_of (nodes s) a r → dep_bounded hi r.2.
Proof.
  intros Ha [(ds & Hres & ->) _]. apply dep_bounded_union. by eapply resolves_bounded.
Qed.

(** The state after an insertion is well formed. *)
Lemma state_fact_added hi s pid args resolved dep is_core p :
  state_ok hi s → canonical dep → dep_bounded hi dep →
  Forall2 (argument_of (nodes s)) args resolved → args ≠ [] → N.of_nat (length args) ≤ u32_max →
  let key := mkFactKey pid resolved.*1 in
  (facts_by_key s !! key = None → N.of_nat (length (facts s)) ≤ u32_max) →
  state_ok hi (fact_added key (Dep.union (dep :: resolved.*2)) is_core p s).
Proof.
  intros [Ha Hf Hg] Hd Hb Hres Hne Hlen key Hcap.
  pose proof (Forall2_length _ _ _ Hres) as Hl.
  destruct (fact_added_frame s key (Dep.union (dep :: resolved.*2)) is_core p) as (E1 & E2 & E3 & E4).
  split; [by eapply arena_ok_frame| |by eapply agenda_ok_frame; [apply fact_added_same_agenda|]].
  apply fact_added_ok; try done.
  - split; [apply canonical_union|]. apply dep_bounded_union.
    intros d [->|(r & -> & [i Hi]%list_elem_of_lookup)%list_elem_of_fmap]%elem_of_cons; [done|].
    destruct (Forall2_lookup_r _ _ _ _ _ Hres Hi) as (a & _ & Har). by eapply argument_of_bounded.
  - intros h (r & -> & [i Hi]%list_elem_of_lookup)%list_elem_of_fmap.
    destruct (Forall2_lookup_r _ _ _ _ _ Hres Hi) as (a & _ & _ & Har). done.
  - cbn. by destruct resolved, args.
  - cbn. by rewrite length_fmap, <-Hl.
Qed.

Lemma keeps_add_fact_detailed pid args dep is_core p :
  canonical dep → keeps (add_fact_detailed pid args dep is_core p).
Proof.
  intros Hd k out k' Hk H. apply add_fact_detailed_Ok in H as (Hne & Hlen & Hv & resolved & Hres & Hfr & Hst & Ho);
    [|by apply (arena_slots _ _ (state_arena _ _ Hk))].
  split; [done|]. rewrite Hst. eapply state_fact_added; try done; [by eapply validate_dependency_bounded|].
  intros E. rewrite E in Ho. by destruct Ho.
Qed.

Lemma keeps_add_fact pid args dep is_core p : canonical dep → keeps (add_fact pid args dep is_core p).
Proof.
  intros Hd. unfold add_fact. apply keeps_bind; [by apply keeps_add_fact_detailed|intros; apply keeps_mret].
Qed.

Lemma state_fact_removed hi s i row :
  state_ok hi s → active_row s i row → state_ok hi (fact_removed row s).
Proof.
  intros [Ha Hf Hg] Hr. split; [by eapply (arena_ok_frame _ s)|by eapply facts_ok_removed|].
  by eapply (agenda_ok_frame _ s).
Qed.

Lemma keeps_deactivate_fact rid : keeps (deactivate_fact rid).
Proof.
  intros k u k' Hk H. apply deactivate_fact_Ok in H as (row & Hr & Hfr & Hst);
    [|by apply (facts_ids _ _ (state_facts _ _ Hk))].
  split; [done|]. rewrite Hst. destruct (active row) eqn:E; [|done]. by eapply state_fact_removed.
Qed.

(** ** One node changes *)

Lemma update_node_Ok i e f k u k' :
  update_node i e f k = (Ok u, k') →
  ∃ n, nodes (state k) !! i = Some (Some n) ∧ kframe k k' ∧
    state k' = state k <| nodes ::= <[i := Some (f n)]> |>.
Proof.
  intros H. unfold update_node in H. inv_ok. subst. kstep. eauto.
Qed.

Lemma bump_blocking_Ok i e k u k' :
  bump_blocking i e k = (Ok u, k') →
  ∃ n, nodes (state k) !! i = Some (Some n) ∧ kframe k k' ∧
    state k' = state k <| nodes ::= <[i := Some (n <| n_blocking_generation := n_blocking_generation n + 1 |>)]> |>.
Proof.
  intros H. unfold bump_blocking in H. inv_ok. subst.
  apply update_node_Ok in H as (n & Hn & Hfr & Hst). simplify_eq. eauto.
Qed.

(** A change of a node that keeps its place in the arena keeps the invariant. *)
Lemma state_update_attr hi s i n n' :
  state_ok hi s → nodes s !! i = Some (Some n) → same_identity n n' →
  n_lifecycle n' = n_lifecycle n → n_representative n' = n_representative n →
  n_merge_dependency n' = n_merge_dependency n →
  (∀ b, n_blocker n' = Some b → n_lifecycle n = Active ∧ n_sort n = Object ∧ blockable (nodes s) b) →
  state_ok hi (s <| nodes ::= <[i := Some n']> |>).
Proof.
  intros [Ha Hf Hg] Hi Hid Hl Hr Hm Hb. split.
  - by eapply arena_update_attr.
  - apply (facts_ok_frame hi hi s); try done. intros j row h _ _ (m & Hs & Hact).
    pose proof (node_not_retired _ _ _ _ (arena_node _ _ Ha _ _ Hi)) as Hnr.
    destruct (update_stored _ _ _ _ (arena_slots _ _ Ha) Hi Hid ltac:(congruence) _ _ Hs)
      as (m' & Hm' & [[-> _]|[-> ->]]); eexists; split; [done|done|done|congruence].
  - by eapply (agenda_ok_frame _ s).
Qed.

(** ** Blocking and pending existentials *)

Definition blocked_by (blocker : option NodeHandle) (directly : bool) (n : Node) : Node :=
  n <| n_blocker := blocker |> <| n_directly_blocked := bool_decide (is_Some blocker) && directly |>
    <| n_blocking_generation := n_blocking_generation n + 1 |>.

Lemma set_blocked_Ok h blocker directly k u k' :
  set_blocked h blocker directly k = (Ok u, k') →
  ∃ n, stored (nodes (state k)) h n ∧ n_lifecycle n = Active ∧ n_sort n = Object ∧
    (∀ b, blocker = Some b → blockable (nodes (state k)) b) ∧ kframe k k' ∧
    state k' = state k <| nodes ::= <[N.to_nat (slot h) := Some (blocked_by blocker directly n)]> |>.
Proof.
  intros H. unfold set_blocked in H. inv_kernel.
  match goal with G : stored _ h ?m ∧ _ |- _ => rename m into n; destruct G as [Hn Hact] end.
  match goal with G : _ = _ ∧ (∃ m, _) |- _ => destruct G as [-> _] end.
  match goal with G : bool_decide (n_sort n = Data) = false |- _ => apply bool_decide_eq_false in G end.
  assert (n_sort n = Object) as Hsort by (by destruct (n_sort n)).
  match goal with G : match blocker with _ => _ end _ = (Ok _, ?s1) |- _ =>
    assert (s1 = k ∧ ∀ b, blocker = Some b → blockable (nodes (state k)) b) as [-> Hb]; [|clear G] end.
  { destruct blocker as [b|]; inv_kernel; [|by split]. split; [done|]. intros ? [= <-].
    match goal with G : stored _ b ?m ∧ _ |- _ => destruct G as [Hm Hma]; exists m end.
    split_and!; [done|done|]. match goal with G : bool_decide (n_sort ?m = Data) = false |- _ =>
      apply bool_decide_eq_false in G; by destruct (n_sort m) end. }
  match goal with G : update_node _ _ _ _ = _ |- _ => apply update_node_Ok in G as (n0 & Hn0 & Hfr & Hst) end.
  match goal with G : bump_blocking _ _ _ = _ |- _ => apply bump_blocking_Ok in G as (n1 & Hn1 & Hfr1 & Hst1) end.
  kstep.
  assert (n0 = n) as -> by (destruct Hn as [Hn _]; congruence).
  rewrite Hst in Hn1. cbn in Hn1. rewrite list_lookup_insert_eq in Hn1 by (by eapply lookup_lt_Some).
  injection Hn1 as <-. exists n. split_and!; try done; [kframes|]. kstates.
  unfold set_field at 1. cbn. by rewrite list_insert_insert_eq.
Qed.

Lemma blocked_by_same blocker directly n : same_identity n (blocked_by blocker directly n).
Proof. done. Qed.

Lemma keeps_set_blocked h blocker directly : keeps (set_blocked h blocker directly).
Proof.
  intros k u k' Hk (n & Hn & Hact & Hsort & Hb & Hfr & ->)%set_blocked_Ok. split; [done|].
  eapply (state_update_attr _ _ _ n); try done; [apply Hn|]. intros b Hb'. split_and!; [done|done|by apply Hb].
Qed.

Lemma keeps_mark_existential h e p : keeps (mark_existential h e p).
Proof.
  intros k u k' Hk H. unfold mark_existential in H. inv_kernel.
  match goal with G : stored _ h ?m ∧ _ |- _ => rename m into n; destruct G as [Hn Hact] end.
  match goal with G : _ = _ ∧ (∃ m, _) |- _ => destruct G as [-> _] end.
  destruct (eqb _ _); inv_ok; [done|].
  match goal with G : update_node _ _ _ _ = _ |- _ => apply update_node_Ok in G as (n0 & Hn0 & Hfr & Hst) end.
  kstep. assert (n0 = n) as -> by (destruct Hn as [Hn _]; congruence).
  split; [kframes|]. kstates. eapply (state_update_attr _ _ _ n); try done.
  intros b. cbn. apply (node_blocker _ _ _ _ (arena_node _ _ (state_arena _ _ Hk) _ _ Hn0)).
Qed.

(** ** Creation *)

(** The node that [create_node] stores. *)
Definition created_node (h : NodeHandle) (cid : N) (kind : NodeKind) (parent : option NodeHandle)
    (depth checkpoint : N) (named : bool) (sid nominal tag : option N) : Node :=
  mkNode h cid kind (kind_sort kind) Active parent depth checkpoint named sid
    None Dep.empty None false 0 ∅ nominal tag.

(** Where the new node goes: the least vacant slot, or a new one at the end. *)
Definition arena_slot (s : MutableState) : nat * list (option Node) * list N :=
  match btree_pop_first (free_slots s) with
  | Some (x, _) => (N.to_nat x, nodes s, generations s)
  | None => (length (nodes s), nodes s ++ [None], generations s ++ [0])
  end.

Definition depth_ok (kind : NodeKind) (parent : option NodeHandle) (ns : list (option Node)) (depth : N) : Prop :=
  if bool_decide (kind = Tree) then
    ∃ p m, parent = Some p ∧ stored ns p m ∧ n_lifecycle m = Active ∧ n_sort m = Object ∧
      depth = n_tree_depth m + 1 ∧ depth ≤ u32_max
  else parent = None ∧ depth = 0.

Lemma create_node_Ok kind parent named sid nominal tag k h k' :
  create_node kind parent named sid nominal tag k = (Ok h, k') →
  let '(i, ns, gens) := arena_slot (state k) in
  ∃ depth g, depth_ok kind parent (nodes (state k)) depth ∧ gens !! i = Some g ∧
    g + 1 ≤ u32_max ∧ next_creation_id (state k) + 1 ≤ u32_max ∧ is_Some (ns !! i) ∧
    N.of_nat (length ns) ≤ N.max (2 ^ 32) (N.of_nat (length (nodes (state k)))) ∧ h = mkHandle (N.of_nat i) (g + 1) ∧ kframe k k' ∧
    state k' = state k
      <| nodes := <[i := Some (created_node h (next_creation_id (state k)) kind parent depth (top k)
                                 named sid nominal tag)]> ns |>
      <| generations := <[i := g + 1]> gens |>
      <| free_slots := match btree_pop_first (free_slots (state k)) with Some (_, rest) => rest | None => free_slots (state k) end |>
      <| next_creation_id := next_creation_id (state k) + 1 |>.
Proof.
  intros H. unfold create_node in H. inv_ok. rename a into depth.
  assert (depth_ok kind parent (nodes (state k)) depth) as Hdepth.
  { clear -H0. revert H0. unfold depth_ok. case_bool_decide; intros H0; inv_kernel.
    - match goal with G : stored _ ?p ?m ∧ _ |- _ => exists p, m; destruct G end.
      match goal with G : negb (bool_decide _) = false |- _ => apply negb_false_iff, bool_decide_eq_true in G end.
      done.
    - match goal with G : bool_decide (is_Some parent) = false |- _ => apply bool_decide_eq_false in G end.
      split; [by apply eq_None_not_Some|done]. }
  repeat kstep. unfold arena_slot.
  destruct (btree_pop_first (free_slots (state k))) as [[x rest]|] eqn:E; inv_ok; repeat kstep.
  - exists depth, a3. assert (top s8 = top k) as Htop by (apply top_frame; kframes).
    kstates_in H4. kstates_in H8. kstates_in H11. unfold top at 1 in Htop.
    split_and!; try done; [lia|by rewrite N2Nat.id|kframes|].
    kstates. unfold created_node. rewrite ?N2Nat.id, Htop. done.
  - match goal with G : generations _ !! _ = Some ?g |- _ => exists depth, g; kstates_in G end.
    match goal with G : next_creation_id (state ?a) + 1 ≤ _, G2 : state ?b = state ?a <| next_creation_id := _ |> |- _ =>
      kstates_in G; assert (top b = top k) as Htop by (apply top_frame; kframes) end.
    match goal with G : nodes _ !! _ = Some _ |- _ => kstates_in G end.
    unfold top at 1 in Htop. rewrite Nat2N.id in *.
    split_and!; try done; [rewrite length_app; cbn; unfold u32_max in *; lia|kframes|].
    kstates. unfold created_node. rewrite ?Nat2N.id, Htop. done.
Qed.

(** The slot chosen by [create_node] is vacant in the extended arena. *)
Lemma arena_slot_vacant hi s :
  arena_ok hi s →
  let '(i, ns, gens) := arena_slot s in
  (ns = nodes s ∧ gens = generations s ∨ ns = nodes s ++ [None] ∧ gens = generations s ++ [0]) ∧
  ns !! i = Some None ∧
  (N.of_nat (length ns) ≤ 2 ^ 32 →
   (match btree_pop_first (free_slots s) with Some (_, rest) => rest | None => free_slots s end)
   = vacant_slots ns ∖ {[N.of_nat i]}).
Proof.
  intros Ha. unfold arena_slot. pose proof (arena_capacity _ _ Ha) as Hcap.
  destruct (btree_pop_first (free_slots s)) as [[x rest]|] eqn:E.
  - apply btree_pop_first_Some in E as (Hx & -> & _). rewrite (arena_free _ _ Ha) in *.
    apply vacant_slots_spec in Hx; [|done]. split_and!; [by left|done|]. intros _. by rewrite N2Nat.id.
  - apply btree_pop_first_None in E. split_and!; [by right|by apply list_lookup_middle|]. intros Hcap'.
    rewrite E. symmetry. apply set_eq. intros x.
    rewrite elem_of_difference, elem_of_singleton, vacant_slots_spec by done.
    split; [|set_solver]. intros [[Hx|[Hx Hl]]%lookup_app_Some Hne].
    + apply vacant_slots_spec in Hx; [|done]. by rewrite <-(arena_free _ _ Ha), E in Hx.
    + apply list_lookup_singleton_Some in Hl as [Hl _]. lia.
Qed.

Lemma state_node_created hi s kind parent depth named sid nominal tag checkpoint g :
  state_ok hi s → checkpoint ≤ hi → depth_ok kind parent (nodes s) depth →
  let '(i, ns, gens) := arena_slot s in
  gens !! i = Some g → N.of_nat (length ns) ≤ 2 ^ 32 →
  state_ok hi (s
      <| nodes := <[i := Some (created_node (mkHandle (N.of_nat i) (g + 1)) (next_creation_id s) kind parent
                                 depth checkpoint named sid nominal tag)]> ns |>
      <| generations := <[i := g + 1]> gens |>
      <| free_slots := match btree_pop_first (free_slots s) with Some (_, rest) => rest | None => free_slots s end |>
      <| next_creation_id := next_creation_id s + 1 |>).
Proof.
  intros Hs Hcp Hd. pose proof Hs as [Ha Hf Hg]. pose proof (arena_slot_vacant _ _ Ha) as Hslot.
  destruct (arena_slot s) as [[i ns] gens]. destruct Hslot as (Hext & Hvac & Hfree). intros Hgi Hcap.
  rewrite Hfree by done. split; [|apply (facts_ok_frame hi hi s); try done|by eapply (agenda_ok_frame _ s)].
  - apply arena_alloc; try done. split; cbn; try done; try lia.
    + unfold depth_ok in Hd. case_bool_decide; [|destruct Hd as [_ ->]; unfold u32_max; lia].
      by destruct Hd as (_ & _ & _ & _ & _ & _ & _ & ?).
    + unfold depth_ok in Hd. case_bool_decide; [|done].
      destruct Hd as (p & m & ? & Hm & _ & _ & ? & _). exists p, m. split_and!; [done..|]. destruct Hm as [Hl _].
      by eapply node_creation, arena_node.
  - intros j row h _ _ (m & Hm & Hact). exists m. split; [|done]. cbn.
    destruct Hm as (Hl & ? & ?). split_and!; [|done|done].
    assert (ns !! N.to_nat (slot h) = Some (Some m)) as Hl'.
    { destruct Hext as [[-> _]|[-> _]]; [done|]. by apply lookup_app_l_Some. }
    rewrite list_lookup_insert_ne; [done|]. intros ->. congruence.
Qed.

Lemma keeps_create_node kind parent named sid nominal tag :
  keeps (create_node kind parent named sid nominal tag).
Proof.
  intros k h k' Hk H. apply create_node_Ok in H.
  pose proof (state_node_created (top k) (state k) kind parent) as Hc.
  destruct (arena_slot (state k)) as [[i ns] gens].
  destruct H as (depth & g & Hd & Hg & _ & _ & _ & Hl & -> & Hfr & ->). split; [done|].
  apply Hc; try done. pose proof (arena_capacity _ _ (state_arena _ _ Hk)). lia.
Qed.

(** ** Retirement *)

Lemma structurally_references_false h n :
  structurally_references h n = false → n_handle n ≠ h →
  n_parent n ≠ Some h ∧ n_representative n ≠ Some h ∧ n_blocker n ≠ Some h.
Proof.
  unfold structurally_references. intros H Hne. rewrite bool_decide_eq_false_2 in H by done. simpl in H.
  apply orb_false_iff in H as [[H1 H2]%orb_false_iff H3].
  by apply bool_decide_eq_false in H1, H2, H3.
Qed.

Lemma retire_node_Ok h k u k' :
  retire_node h k = (Ok u, k') →
  ∃ n, stored (nodes (state k)) h n ∧ idx_rows (facts_by_node (state k)) h = ∅ ∧
    (∀ m, m ∈ live_nodes (state k) → structurally_references h m = false) ∧ kframe k k' ∧
    state k' = state k <| nodes ::= <[N.to_nat (slot h) := None]> |> <| free_slots ::= union {[slot h]} |>.
Proof.
  intros H. unfold retire_node in H. inv_kernel.
  match goal with G : _ = _ ∧ (∃ m, _) |- _ => destruct G as [-> (n & Hn)] end.
  match goal with G : update_node _ _ _ _ = _ |- _ => apply update_node_Ok in G as (n0 & Hn0 & Hfr & Hst) end.
  repeat kstep. exists n. split_and!; [done| | |kframes|].
  - unfold idx_rows. destruct (facts_by_node (state k) !! h) as [rows|]; [|done]. simpl.
    match goal with G : negb (bool_decide (rows = ∅)) = false |- _ =>
      by apply negb_false_iff, bool_decide_eq_true in G end.
  - intros m Hm. match goal with G : existsb _ _ = false |- _ => rename G into He end.
    destruct (structurally_references h m) eqn:E; [|done].
    assert (existsb (structurally_references h) (live_nodes (state k)) = true); [|congruence].
    apply existsb_exists. exists m. split; [by apply list_elem_of_In|done].
  - kstates. destruct (state k) as []; unfold set_field; cbn. by rewrite list_insert_insert_eq.
Qed.

Lemma keeps_retire_node h : keeps (retire_node h).
Proof.
  intros k u k' Hk (n & Hn & Hrows & Href & Hfr & ->)%retire_node_Ok. split; [done|].
  destruct Hk as [Ha Hf Hg]. pose proof (arena_slots _ _ Ha) as Hslots.
  pose proof (stored_handle _ _ _ Hslots Hn) as Hh. pose proof Hn as [Hi _].
  split; [| |by eapply (agenda_ok_frame _ (state k))].
  - pose proof (arena_retire _ _ _ _ Ha Hi) as Hret. rewrite N2Nat.id in Hret. apply Hret. intros j m Hj Hne. rewrite Hh.
    apply structurally_references_false; [apply Href, elem_of_live_nodes; eauto|].
    intros E. apply Hne. rewrite <-(Hslots _ _ Hj), E. done.
  - apply (facts_ok_frame (top k) (top k) (state k)); try done. cbn. intros j row h' Hr Hin (m & Hm & Hact).
    exists m. split; [|done]. apply stored_insert_ne; [|done]. intros E.
    assert (h' = h) as ->.
    { destruct Hm as (Hl & Hg' & _). rewrite E, Hi in Hl. injection Hl as <-.
      rewrite Hh in Hg'. destruct h, h'; cbn in *. f_equal; lia. }
    assert (N.of_nat j ∈ idx_rows (facts_by_node (state k)) h) as Hj; [|by rewrite Hrows in Hj].
    apply (facts_node _ _ Hf). exists row. by rewrite Nat2N.id.
Qed.
