(* ===== verification/Merge.v ===== *)
(** * Merging two nodes ([merge_nodes])

    The three loops of [merge_nodes_inner]: unblocking what the source blocks,
    rewriting its rows onto the target, and linking the source to the target. *)

From S2P Require Import Prelude Order Errors Model Queue Store Kernel KernelBase Arena Facts FactOps StateInv NodeOps.
Import Kernel.

(** ** Unblocking *)

(** Only the arena changed, and no node changed its place in it. *)
Record only_blocking (s s' : MutableState) : Prop := {
  blocking_rest : s' = s <| nodes := nodes s' |>;
  blocking_node j m : nodes s !! j = Some (Some m) →
    ∃ m', nodes s' !! j = Some (Some m') ∧ same_identity m m' ∧ n_lifecycle m' = n_lifecycle m ∧
      n_representative m' = n_representative m ∧ n_merge_dependency m' = n_merge_dependency m ∧
      n_unprocessed_existentials m' = n_unprocessed_existentials m;
  blocking_node_inv j m' : nodes s' !! j = Some (Some m') →
    ∃ m, nodes s !! j = Some (Some m) ∧ same_identity m m' ∧ n_lifecycle m' = n_lifecycle m ∧
      n_representative m' = n_representative m ∧ n_merge_dependency m' = n_merge_dependency m ∧
      n_unprocessed_existentials m' = n_unprocessed_existentials m
}.

#[global] Instance same_identity_preorder : PreOrder same_identity.
Proof.
  split.
  - intros n. split; done.
  - intros n1 n2 n3 [] []. split; congruence.
Qed.

#[global] Instance only_blocking_preorder : PreOrder only_blocking.
Proof.
  split.
  - intros s. split; [by destruct s|intros j m Hj; exists m|intros j m Hj; exists m];
      (split_and!; [done|apply PreOrder_Reflexive|done..]).
  - intros s1 s2 s3 [E1 F1 G1] [E2 F2 G2]. split.
    + rewrite E2, E1. by destruct s1.
    + intros j m1 Hm1. destruct (F1 _ _ Hm1) as (m2 & Hm2 & Hi2 & ? & ? & ? & ?).
      destruct (F2 _ _ Hm2) as (m3 & Hm3 & Hi3 & ? & ? & ? & ?). exists m3.
      split_and!; [done|by etrans|congruence..].
    + intros j m3 Hm3. destruct (G2 _ _ Hm3) as (m2 & Hm2 & Hi2 & ? & ? & ? & ?).
      destruct (G1 _ _ Hm2) as (m1 & Hm1 & Hi1 & ? & ? & ? & ?). exists m1.
      split_and!; [done|by etrans|congruence..].
Qed.

Lemma only_blocking_active s s' h :
  only_blocking s s' → active_handle (nodes s) h ↔ active_handle (nodes s') h.
Proof.
  intros [_ F G]. split.
  - intros (m & (Hl & Hg & Hr) & Ha). destruct (F _ _ Hl) as (m' & Hm' & Hi & Hlc & _).
    exists m'. split; [split_and!; [done|by rewrite (same_handle _ _ Hi)|congruence]|congruence].
  - intros (m & (Hl & Hg & Hr) & Ha). destruct (G _ _ Hl) as (m' & Hm' & Hi & Hlc & _).
    exists m'. split; [split_and!; [done|by rewrite <-(same_handle _ _ Hi)|congruence]|congruence].
Qed.

Lemma only_blocking_update s i n b d :
  nodes s !! i = Some (Some n) → only_blocking s (s <| nodes ::= <[i := Some (blocked_by b d n)]> |>).
Proof.
  intros Hi. split.
  - by destruct s.
  - intros j m Hj. cbn. destruct (decide (i = j)) as [<-|Hne].
    + exists (blocked_by b d n). rewrite list_lookup_insert_eq by (by eapply lookup_lt_Some). by simplify_eq.
    + exists m. rewrite list_lookup_insert_ne by done. split_and!; [done|apply PreOrder_Reflexive|done..].
  - cbn. intros j m [(<- & [= <-] & _)|[_ Hj]]%list_lookup_insert_Some; [by exists n|].
    exists m. split_and!; [done|apply PreOrder_Reflexive|done..].
Qed.

(** Every node blocked by a node of [P] is unblocked by the loop over them. *)
Lemma unblock_loop (P : NodeHandle → Prop) (l : list NodeHandle) k k' :
  state_ok (top k) (state k) →
  (∀ j m b, nodes (state k) !! j = Some (Some m) → n_blocker m = Some b → P b → n_handle m ∈ l) →
  forM (λ h, set_blocked h None false) l k = (Ok tt, k') →
  kframe k k' ∧ state_ok (top k) (state k') ∧ only_blocking (state k) (state k') ∧
  ∀ j m b, nodes (state k') !! j = Some (Some m) → n_blocker m = Some b → ¬ P b.
Proof.
  intros Hk Hl H.
  eapply (forM_rest (λ rest k1, kframe k k1 ∧ state_ok (top k) (state k1) ∧ only_blocking (state k) (state k1) ∧
    ∀ j m b, nodes (state k1) !! j = Some (Some m) → n_blocker m = Some b → P b → n_handle m ∈ rest)
) in H as (? & ? & ? & Hend); [| |split_and!; [done|done|reflexivity|exact Hl]].
  2:{ intros h rest k1 k2 (Hf1 & Hk1 & Ho1 & Hb1) Hs. pose proof Hs as (n & Hn & _ & _ & _ & Hf2 & Hst)%set_blocked_Ok.
    rewrite <-(top_frame _ _ Hf1) in Hk1. destruct (keeps_set_blocked _ _ _ _ _ _ Hk1 Hs) as [_ Hk2].
    rewrite (top_frame _ _ Hf1) in Hk2. split_and!; [by etrans|done| |].
    - etrans; [done|]. rewrite Hst. apply only_blocking_update, Hn.
    - intros j m b. rewrite Hst. cbn. intros [(_ & [= <-] & _)|[Hne Hj]]%list_lookup_insert_Some Hb HP; [done|].
      pose proof (Hb1 _ _ _ Hj Hb HP) as [E|?]%elem_of_cons; [|done].
      destruct Hne. rewrite <-E. by apply (arena_slots _ _ (state_arena _ _ Hk1)). }
  split_and!; [done..|]. intros j m b Hj Hb HP. pose proof (Hend _ _ _ Hj Hb HP). set_solver.
Qed.

(** ** Insertion at active arguments *)

(** What an insertion at active arguments changes. *)
Record inserted_at (key : FactKey) (k k' : TableauKernel) : Prop := {
  inserted_frame : kframe k k';
  inserted_ok : state_ok (top k) (state k');
  inserted_nodes : nodes (state k') = nodes (state k);
  inserted_others i r : row_key r ≠ key → active_row (state k') i r ↔ active_row (state k) i r
}.

Lemma levels_union ds l : l ∈ levels (Dep.union ds) ↔ ∃ d, d ∈ ds ∧ l ∈ levels d.
Proof. setoid_rewrite elem_of_levels. apply elem_of_union_dep. Qed.

Lemma argument_of_all_active hi s args resolved :
  arena_ok hi s → (∀ h, h ∈ args → active_handle (nodes s) h) →
  Forall2 (argument_of (nodes s)) args resolved → resolved = (λ h, (h, Dep.empty)) <$> args.
Proof.
  intros Ha Hact H. induction H as [|a r args resolved Har _ IH]; [done|]. csimpl.
  rewrite IH by (intros; apply Hact; by right). f_equal.
  eapply argument_of_active; [done|apply Hact; by left|done].
Qed.

Lemma add_fact_active pid args dep is_core p k rid k' :
  state_ok (top k) (state k) → canonical dep → (∀ h, h ∈ args → active_handle (nodes (state k)) h) →
  add_fact pid args dep is_core p k = (Ok rid, k') →
  inserted_at (mkFactKey pid args) k k' ∧
  ∀ key d, derivable (state k') key d ↔
    derivable (state k) key d ∨ (key = mkFactKey pid args ∧ levels dep ⊆ levels d).
Proof.
  intros Hk Hd Hact H. destruct (keeps_add_fact _ _ _ _ _ Hd _ _ _ Hk H) as [Hfr Hk'].
  apply add_fact_Ok in H as (out & H & _).
  pose proof (state_arena _ _ Hk) as Ha. pose proof (state_facts _ _ Hk) as Hf.
  apply add_fact_detailed_Ok in H as (_ & _ & _ & resolved & Hres & _ & Hst & Ho); [|by eapply arena_slots].
  pose proof (argument_of_all_active _ _ _ _ Ha Hact Hres) as Hr.
  assert (resolved.*1 = args) as E1. { rewrite Hr, <-list_fmap_compose. apply list_fmap_id. }
  rewrite E1 in *.
  set (support := Dep.union (dep :: resolved.*2)) in *.
  assert (levels support = levels dep) as E2.
  { apply set_eq. intros l. unfold support. rewrite levels_union. split.
    - intros (e & [->|He]%elem_of_cons & Hl); [done|]. rewrite Hr, <-list_fmap_compose in He.
      apply list_elem_of_fmap in He as (h & -> & _). by apply elem_of_levels, elem_of_nil in Hl.
    - intros Hl. exists dep. split; [by left|done]. }
  assert (facts_by_key (state k) !! mkFactKey pid args = None → N.of_nat (length (facts (state k))) ≤ u32_max) as Hcap.
  { intros E. rewrite E in Ho. by destruct Ho. }
  split.
  - split; [done|done| |].
    + rewrite Hst. apply fact_added_frame.
    + intros i r Hne. rewrite Hst. by eapply active_row_fact_added.
  - intros key d. rewrite Hst, (derivable_fact_added (top k)), E2; [done|done|apply canonical_union|done].
Qed.

(** A run of insertions at the same active arguments. *)
Lemma add_facts_active {X} pid args (dep : X → DependencySet) is_core (p : X → option N) l k k' :
  state_ok (top k) (state k) → (∀ x, x ∈ l → canonical (dep x)) →
  (∀ h, h ∈ args → active_handle (nodes (state k)) h) →
  forM (λ x, _ ← add_fact pid args (dep x) is_core (p x); mret tt) l k = (Ok tt, k') →
  inserted_at (mkFactKey pid args) k k' ∧
  ∀ key d, derivable (state k') key d ↔
    derivable (state k) key d ∨ (key = mkFactKey pid args ∧ ∃ x, x ∈ l ∧ levels (dep x) ⊆ levels d).
Proof.
  revert k. induction l as [|x l IH]; intros k Hk Hc Hact H; simpl in H.
  - inv_ok. split; [by split|]. set_solver.
  - apply st_bind_Ok in H as ([] & k2 & H1 & H).
    apply st_bind_Ok in H1 as (rid & k1 & H1 & Hr). apply mret_Ok in Hr as [_ ->].
    apply add_fact_active in H1 as [[Hf1 Hk1 Hn1 Ho1] Hd1]; [|done|apply Hc; by left|done].
    destruct (IH k1) as [[Hf2 Hk2 Hn2 Ho2] Hd2]; [by rewrite (top_frame _ _ Hf1)|intros; apply Hc; by right| |done|].
    { by rewrite Hn1. }
    rewrite (top_frame _ _ Hf1) in Hk2. split.
    + split; [by etrans|done|congruence|]. intros i r Hne. by rewrite Ho2, Ho1.
    + intros key d. rewrite Hd2, Hd1. split.
      * intros [[?|[? ?]]|(? & y & ? & ?)]; [by left|right|right]; (split; [done|]).
        -- exists x. split; [by left|done].
        -- exists y. split; [by right|done].
      * intros [?|(? & y & [->|Hy]%elem_of_cons & ?)]; [by left; left|by left; right|right]. eauto.
Qed.

Lemma minimal_dependency_elem row d : minimal_dependency row = Ok d → d ∈ supports row.
Proof. unfold minimal_dependency. rewrite ok_or_Ok. apply elem_of_min_by. Qed.

(** ** Rewriting one row *)

Definition redirect_key (source target : NodeHandle) (key : FactKey) : FactKey :=
  mkFactKey (predicate_id key) (redirect source target <$> arguments key).

Section rewrite.
Context (source target : NodeHandle) (combined : DependencySet).
Hypothesis Hne : target ≠ source.
Hypothesis Hcomb : canonical combined.

Lemma redirect_not_source key : source ∉ arguments (redirect_key source target key).
Proof.
  intros (h & E & _)%list_elem_of_fmap. unfold redirect in E. case_bool_decide; congruence.
Qed.

Lemma levels_union2 d e : levels (Dep.union [d; e]) = levels d ∪ levels e.
Proof. apply set_eq. intros l. rewrite levels_union. set_solver. Qed.

(** Rewriting an active row of the source moves its derivations to the
    redirected key, each joined with the dependency of the merge. *)
Lemma rewrite_row_Ok rid k k' row :
  state_ok (top k) (state k) → active_handle (nodes (state k)) target →
  active_row (state k) (N.to_nat rid) row → source ∈ arguments (row_key row) →
  rewrite_row source target combined rid k = (Ok tt, k') →
  kframe k k' ∧ state_ok (top k) (state k') ∧ nodes (state k') = nodes (state k) ∧
  (∀ i r, source ∈ arguments (row_key r) →
    active_row (state k') i r ↔ active_row (state k) i r ∧ i ≠ N.to_nat rid) ∧
  (∀ key d, source ∉ arguments key → derivable (state k') key d ↔
    derivable (state k) key d ∨
    (key = redirect_key source target (row_key row) ∧
     ∃ e, e ∈ supports row ∧ levels e ∪ levels combined ⊆ levels d)).
Proof.
  intros Hk Htgt [Hl Hact] Hsrc H. unfold rewrite_row in H. apply st_bind_Ok in H as (row' & k0 & H0 & H).
  apply reads_Ok in H0 as [H0 ->]. unfold fact in H0. apply ok_or_Ok in H0. assert (row' = row) as -> by congruence. rewrite Hact in H. simpl in H.
  set (key' := redirect_key source target (row_key row)) in *.
  assert (∀ h, h ∈ redirect source target <$> arguments (row_key row) → active_handle (nodes (state k)) h) as Hargs.
  { intros h (h0 & -> & Hh0)%list_elem_of_fmap. unfold redirect. case_bool_decide; [done|].
    eapply (row_arguments (top k)); [|done]. by eapply (facts_rows _ _ (state_facts _ _ Hk)). }
  apply st_bind_Ok in H as ([] & k1 & H1 & H).
  apply (add_facts_active _ _ _ _ (λ _, None)) in H1 as [[Hf1 Hk1 Hn1 Ho1] Hd1];
    [|done|intros; apply canonical_union|done].
  apply st_bind_Ok in H as (minimal & k1' & [H2 ->]%lift_Ok & H). apply minimal_dependency_elem in H2.
  apply st_bind_Ok in H as ([] & k2 & H3 & H).
  rewrite <-(top_frame _ _ Hf1) in Hk1.
  apply (add_facts_active _ _ (λ _, Dep.union [minimal; combined]) _ Some) in H3 as [[Hf2 Hk2 Hn2 Ho2] Hd2];
    [|done|intros; apply canonical_union|by rewrite Hn1].
  change (mkFactKey _ (redirect source target <$> _)) with key' in *.
  rewrite <-(top_frame _ _ Hf2) in Hk2.
  assert (∀ r, source ∈ arguments (row_key r) → row_key r ≠ key') as Hkey'.
  { intros r Hr E. rewrite E in Hr. by apply redirect_not_source in Hr. }
  assert (active_row (state k2) (N.to_nat rid) row) as Hrow2.
  { apply Ho2; [by apply Hkey'|]. apply Ho1; [by apply Hkey'|done]. }
  destruct (keeps_deactivate_fact _ _ _ _ Hk2 H) as [Hf3 Hk3].
  apply deactivate_fact_Ok in H as (row' & Hr' & _ & Hst); [|by apply (facts_ids _ _ (state_facts _ _ Hk2))].
  assert (row' = row) as -> by (destruct Hrow2; congruence). rewrite Hact in Hst.
  pose proof (state_facts _ _ Hk2) as Hfk2.
  rewrite (top_frame _ _ Hf2), (top_frame _ _ Hf1) in Hk3.
  split_and!; [by etrans; [|etrans]|done|rewrite Hst; cbn; congruence| |].
  - intros i r Hr. rewrite Hst, (active_row_removed _ _ _ _ Hfk2 Hrow2), Ho2, Ho1 by auto. done.
  - intros key d Hs. rewrite Hst, (derivable_fact_removed _ _ _ _ _ _ Hfk2 Hrow2), Hd2, Hd1.
    setoid_rewrite levels_union2. split.
    + intros [[[?|?]|(-> & _ & _ & ?)] _]; [by left|by right|]. right. eauto.
    + intros Hd. split; [by left|]. intros ->. done.
Qed.

(** The derivations that the rows of [s] outside [rest] hand over to [key]. *)
Definition moved (s : MutableState) (rest : list N) (key : FactKey) (d : DependencySet) : Prop :=
  ∃ j row e, active_row s j row ∧ source ∈ arguments (row_key row) ∧ (N.of_nat j ∉ rest) ∧
    key = redirect_key source target (row_key row) ∧ e ∈ supports row ∧
    levels e ∪ levels combined ⊆ levels d.

Lemma rewrite_rows_Ok affected k k' :
  state_ok (top k) (state k) → active_handle (nodes (state k)) target → NoDup affected →
  (∀ rid, rid ∈ affected ↔ ∃ row, active_row (state k) (N.to_nat rid) row ∧ source ∈ arguments (row_key row)) →
  forM (rewrite_row source target combined) affected k = (Ok tt, k') →
  kframe k k' ∧ state_ok (top k) (state k') ∧ nodes (state k') = nodes (state k) ∧
  (∀ i r, active_row (state k') i r → source ∉ arguments (row_key r)) ∧
  (∀ key d, source ∉ arguments key →
    derivable (state k') key d ↔ derivable (state k) key d ∨ moved (state k) [] key d).
Proof.
  intros Hk Htgt Hnd Haff H.
  eapply (forM_rest (λ rest k1, NoDup rest ∧ kframe k k1 ∧ state_ok (top k) (state k1) ∧
    nodes (state k1) = nodes (state k) ∧
    (∀ rid, rid ∈ rest → rid ∈ affected) ∧
    (∀ i r, source ∈ arguments (row_key r) →
      active_row (state k1) i r ↔ active_row (state k) i r ∧ N.of_nat i ∈ rest) ∧
    (∀ key d, source ∉ arguments key →
      derivable (state k1) key d ↔ derivable (state k) key d ∨ moved (state k) rest key d))) in H
    as (_ & Hf & Hk' & Hn & _ & Hrows & Hder).
  - split_and!; [done..| |done]. intros i r Hr Hin. apply Hrows in Hr as [_ Hr]; [|done]. set_solver.
  - intros rid rest k1 k2 (Hnd1 & Hf1 & Hk1 & Hn1 & Hsub1 & Hrows1 & Hder1) Hx.
    apply NoDup_cons in Hnd1 as [Hrid Hnd1].
    destruct (proj1 (Haff rid)) as (row & Hrow & Hsrc); [apply Hsub1; by left|].
    assert (active_row (state k1) (N.to_nat rid) row) as Hrow1.
    { apply Hrows1; [done|]. split; [done|]. rewrite N2Nat.id. by left. }
    rewrite <-(top_frame _ _ Hf1) in Hk1.
    destruct (rewrite_row_Ok rid k1 k2 row) as (Hf2 & Hk2 & Hn2 & Hrows2 & Hder2); [done|by rewrite Hn1|done..|].
    rewrite (top_frame _ _ Hf1) in Hk2.
    split_and!; [done|by etrans|done|congruence|intros; apply Hsub1; by right| |].
    + intros i r Hr. rewrite Hrows2, Hrows1, elem_of_cons by done. split.
      * intros [[? [?|?]] ?]; [lia|done].
      * intros [? Hi]. split; [by auto|]. intros ->. by rewrite N2Nat.id in Hi.
    + intros key d Hs. rewrite Hder2, Hder1 by done. unfold moved. split.
      * intros [[?|(j & r & e & ? & ? & Hj & ?)]|(-> & e & He & Hl)]; [by left|right|right].
        -- exists j, r, e. rewrite not_elem_of_cons in Hj. naive_solver.
        -- exists (N.to_nat rid), row, e. rewrite N2Nat.id. done.
      * intros [?|(j & r & e & Hr & ? & Hj & ? & ? & ?)]; [by left; left|].
        destruct (decide (N.of_nat j = rid)) as [<-|Hne'].
        -- right. rewrite Nat2N.id in Hrow. assert (r = row) as -> by (destruct Hr, Hrow; congruence). eauto.
        -- left. right. exists j, r, e. rewrite not_elem_of_cons. done.
  - split_and!; try done.
    + intros i r Hr. split; [|by intros []]. intros Ha. split; [done|]. apply Haff. exists r. by rewrite Nat2N.id.
    + intros key d Hs. split; [by left|]. intros [?|(j & r & e & Hr & Hin & Hj & _)]; [done|].
      destruct Hj. apply Haff. exists r. by rewrite Nat2N.id.
Qed.
End rewrite.

(** ** The whole merge *)

Definition linked (target : NodeHandle) (combined : DependencySet) (n : Node) : Node :=
  mark_merged target combined n <| n_blocking_generation := n_blocking_generation n + 1 |>.

(** The nodes blocked by [P] are those the kernel collects. *)
Lemma elem_of_blocked hi s (source : NodeHandle) j m :
  arena_ok hi s → nodes s !! j = Some (Some m) → n_blocker m = Some source →
  n_handle m ∈ n_handle <$> filter (λ n, n_lifecycle n = Active ∧ n_blocker n = Some source) (live_nodes s).
Proof.
  intros Ha Hj Hb. apply list_elem_of_fmap. exists m. split; [done|]. apply list_elem_of_filter.
  destruct (node_blocker _ _ _ _ (arena_node _ _ Ha _ _ Hj) _ Hb) as (? & _).
  split; [done|]. apply elem_of_live_nodes. eauto.
Qed.

(** The state after a merge that links [source] to [target]. *)
Record merged (source target : NodeHandle) (combined : DependencySet) (k k' : TableauKernel) : Prop := {
  merged_frame : kframe k k';
  merged_ok : state_ok (top k) (state k');
  merged_distinct : source ≠ target;
  merged_target : active_handle (nodes (state k')) target;
  merged_before : active_handle (nodes (state k)) source;
  merged_link : ∃ n, stored (nodes (state k')) source n ∧ n_lifecycle n = Merged ∧
    n_representative n = Some target ∧ n_merge_dependency n = combined;
  merged_others h n : h ≠ source → stored (nodes (state k)) h n →
    ∃ n', stored (nodes (state k')) h n' ∧ same_identity n n' ∧ n_lifecycle n' = n_lifecycle n ∧
      n_representative n' = n_representative n ∧ n_merge_dependency n' = n_merge_dependency n ∧
      n_unprocessed_existentials n' = n_unprocessed_existentials n;
  merged_rows i r : active_row (state k') i r → source ∉ arguments (row_key r);
  merged_facts key d : source ∉ arguments key →
    derivable (state k') key d ↔
    derivable (state k) key d ∨ moved source target combined (state k) [] key d
}.

Lemma merge_direction_cases m n k t s :
  merge_direction m n k = Ok (t, s) → (t = m ∧ s = n) ∨ (t = n ∧ s = m).
Proof.
  unfold merge_direction. intros H. apply outcome_bind_Ok in H as ([] & _ & H); [naive_solver|].
  apply outcome_bind_Ok in H as ([] & _ & H); [naive_solver|]. case_bool_decide; naive_solver.
Qed.

(** Linking an active source that nothing blocks on and no active row mentions. *)
Lemma state_linked hi s i n target combined :
  state_ok hi s → nodes s !! i = Some (Some n) → n_lifecycle n = Active →
  canonical combined → dep_bounded hi combined →
  active_handle (nodes s) target → target ≠ n_handle n →
  (∀ j m, nodes s !! j = Some (Some m) → n_blocker m ≠ Some (n_handle n)) →
  (∀ j r, active_row s j r → n_handle n ∉ arguments (row_key r)) →
  state_ok hi (s <| nodes ::= <[i := Some (linked target combined n)]> |>).
Proof.
  intros [Ha Hf Hg] Hi Hact Hc Hb Ht Hne Hblk Hrows. split.
  - by eapply (arena_leave_merged _ _ _ n (linked target combined n)).
  - apply (facts_ok_frame hi hi s); try done. cbn. intros j r h Hr Hin (m & Hm & Hma).
    exists m. split; [|done]. apply stored_insert_ne; [|done]. intros E.
    apply (Hrows j r Hr). pose proof (stored_handle _ _ _ (arena_slots _ _ Ha) Hm) as <-.
    destruct Hm as [Hm _]. rewrite E, Hi in Hm. injection Hm as <-. done.
  - by eapply (agenda_ok_frame _ s).
Qed.

Lemma link_source_Ok source target combined e1 e2 k k' i k1 k2 :
  node_index source k = Ok i →
  update_node i e1 (mark_merged target combined) k = (Ok tt, k1) →
  bump_blocking i e2 k1 = (Ok tt, k2) → record_mutation k2 = (Ok tt, k') →
  ∃ n, nodes (state k) !! i = Some (Some n) ∧ i = N.to_nat (slot source) ∧ kframe k k' ∧
    state k' = state k <| nodes ::= <[i := Some (linked target combined n)]> |>.
Proof.
  intros [-> _]%node_index_Ok (n & Hn & Hf1 & Hs1)%update_node_Ok (m & Hm & Hf2 & Hs2)%bump_blocking_Ok H.
  kstep. exists n. split_and!; [done|done|kframes|]. rewrite Hs1 in Hm. cbn in Hm.
  rewrite list_lookup_insert_eq in Hm by (by eapply lookup_lt_Some). injection Hm as <-. kstates.
  unfold set_field at 1. cbn. by rewrite list_insert_insert_eq.
Qed.

(** The three phases of a merge, after the source and the target are known. *)
Lemma merge_steps source target combined sn k k1 k2 k3 k4 k5 k' i e1 e2 :
  state_ok (top k) (state k) → canonical combined → dep_bounded (top k) combined → source ≠ target →
  active_handle (nodes (state k)) target → stored (nodes (state k)) source sn → n_lifecycle sn = Active →
  bump_sequence k = (Ok tt, k1) →
  forM (λ h, set_blocked h None false)
    (n_handle <$> filter (λ n, n_lifecycle n = Active ∧ n_blocker n = Some source) (live_nodes (state k1))) k1
    = (Ok tt, k2) →
  forM (rewrite_row source target combined)
    (match facts_by_node (state k2) !! source with Some rows => btree_elements rows | None => [] end) k2
    = (Ok tt, k3) →
  node_index source k3 = Ok i →
  update_node i e1 (mark_merged target combined) k3 = (Ok tt, k4) →
  bump_blocking i e2 k4 = (Ok tt, k5) → record_mutation k5 = (Ok tt, k') →
  merged source target combined k k'.
Proof.
  intros Hk Hcc Hcb Hne Ht Hsn Hsact H1 H2 H3 Hi H4 H5 H6.
  apply bump_sequence_frame in H1 as [Hf1 Hs1]. rewrite Hs1 in H2.
  assert (state_ok (top k1) (state k1)) as Hk1 by (by rewrite (top_frame _ _ Hf1), Hs1).
  apply (unblock_loop (eq source)) in H2 as (Hf2 & Hk2 & Ho2 & Hblk2); [|done|].
  2:{ rewrite Hs1. intros j m b Hj Hb <-. by eapply elem_of_blocked; [apply state_arena|..]. }
  assert (active_handle (nodes (state k)) source) as Hs by (by exists sn).
  rewrite Hs1 in Ho2.
  assert (∀ h, active_handle (nodes (state k)) h ↔ active_handle (nodes (state k2)) h) as Hact2.
  { intros h. by apply only_blocking_active. }
  assert (∀ i r, active_row (state k2) i r ↔ active_row (state k) i r) as Hrow2.
  { intros j r. unfold active_row. by rewrite (blocking_rest _ _ Ho2). }
  rewrite <-(top_frame _ _ Hf2) in Hk2. pose proof (state_facts _ _ Hk2) as Hfk2.
  apply rewrite_rows_Ok in H3 as (Hf3 & Hk3 & Hn3 & Hrows3 & Hder3); [|done|done|done|by apply Hact2| |].
  2:{ case_match; [apply StronglySorted_lt_NoDup, btree_elements_sorted|constructor]. }
  2:{ intros rid. rewrite <-(proj2 (facts_node _ _ Hfk2)). unfold idx_rows.
      destruct (facts_by_node (state k2) !! source); simpl; [apply elem_of_btree_elements|set_solver]. }
  destruct (link_source_Ok _ _ _ _ _ _ _ _ _ _ Hi H4 H5 H6) as (n & Hn & -> & Hf4 & Hst4).
  assert (stored (nodes (state k3)) source n ∧ n_lifecycle n = Active) as [Hn3s Hna].
  { rewrite Hn3 in *. apply Hact2 in Hs as (n' & Hn' & Hna). assert (n' = n) as -> by (destruct Hn'; congruence). done. }
  pose proof (stored_handle _ _ _ (arena_slots _ _ (state_arena _ _ Hk3)) Hn3s) as Hnh.
  assert (N.to_nat (slot source) < length (nodes (state k3)))%nat as Hlt by (by eapply lookup_lt_Some).
  assert (dep_bounded (top k2) combined) as Hcb2 by (by rewrite (top_frame k k2) by kframes).
  split.
  - kframes.
  - rewrite Hst4, <-(top_frame k k2) by kframes. apply state_linked; rewrite ?Hnh; try done.
    + rewrite Hn3. by apply Hact2.
    + intros j m Hj. rewrite Hn3 in Hj. intros Hb. by eapply Hblk2.
  - done.
  - apply Hact2 in Ht as (m & Hm & Hma). exists m. split; [|done]. rewrite Hst4. cbn.
    apply stored_insert_ne; [|by rewrite Hn3]. intros E. apply Hne.
    rewrite <-Hn3 in Hm. rewrite <-(stored_handle _ _ _ (arena_slots _ _ (state_arena _ _ Hk3)) Hm), <-Hnh.
    destruct Hm as [Hm _]. congruence.
  - done.
  - exists (linked target combined n). rewrite Hst4. cbn. split_and!; [|done..].
    apply stored_insert_eq; [done|done|]. split_and!; [done|by rewrite <-Hnh|done].
  - intros h m Hh (Hm & Hmg & Hmr). destruct (blocking_node _ _ Ho2 _ _ Hm) as (m' & Hm' & Hid & Hlc & Hrp & Hdp & Hex).
    exists m'. split_and!; [|done..]. rewrite Hst4. cbn.
    assert (stored (nodes (state k3)) h m') as Hm3.
    { rewrite Hn3. split_and!; [done|by rewrite (same_handle _ _ Hid)|congruence]. }
    apply stored_insert_ne; [|done]. intros E. apply Hh.
    rewrite <-(stored_handle _ _ _ (arena_slots _ _ (state_arena _ _ Hk3)) Hm3), <-Hnh.
    destruct Hm3 as [Hm3 _]. congruence.
  - intros j r. rewrite Hst4. apply Hrows3.
  - intros key d Hkey. rewrite Hst4.
    change (derivable (state k3) key d ↔ derivable (state k) key d ∨ moved source target combined (state k) [] key d).
    rewrite Hder3 by done. unfold derivable, moved. by setoid_rewrite Hrow2.
Qed.

(** [merge_nodes_inner]: nothing to do, or the source is linked to the target. *)
Lemma merge_nodes_inner_Ok left right dep k target k' :
  state_ok (top k) (state k) → canonical dep → dep_bounded (top k) dep →
  merge_nodes_inner left right dep k = (Ok target, k') →
  ∃ l dl r dr, resolves (nodes (state k)) left l dl ∧ resolves (nodes (state k)) right r dr ∧
    let combined := Dep.union [dep; Dep.union dl; Dep.union dr] in
    if decide (l = r) then target = l ∧ k' = k
    else ∃ source, (target = l ∧ source = r ∨ target = r ∧ source = l) ∧ merged source target combined k k'.
Proof.
  intros Hk Hd Hb H. pose proof (state_arena _ _ Hk) as Ha. pose proof (arena_slots _ _ Ha) as Hslots.
  unfold merge_nodes_inner in H.
  apply st_bind_Ok in H as ([l d1] & ? & [Hl ->]%reads_Ok & H).
  apply st_bind_Ok in H as ([r d2] & ? & [Hr ->]%reads_Ok & H). cbn [fst snd] in H.
  apply representative_Ok in Hl as (dl & Hl & ->); [|done].
  apply representative_Ok in Hr as (dr & Hr & ->); [|done].
  exists l, dl, r, dr. split_and!; [done..|]. cbv zeta.
  set (combined := Dep.union [dep; Dep.union dl; Dep.union dr]) in *.
  case_decide as Hlr.
  { rewrite bool_decide_eq_true_2 in H by done. by inv_ok. }
  rewrite bool_decide_eq_false_2 in H by done.
  assert (canonical combined) as Hcc by apply canonical_union.
  assert (dep_bounded (top k) combined) as Hcb.
  { apply dep_bounded_union. intros e [->|[->|[->|[]%elem_of_nil]%elem_of_cons]%elem_of_cons]%elem_of_cons;
      [done|apply dep_bounded_union; by eapply resolves_bounded..]. }
  apply st_bind_Ok in H as (ln & ? & [[Hln Hlact]%require_active_Ok ->]%reads_Ok & H).
  apply st_bind_Ok in H as (rn & ? & [[Hrn Hract]%require_active_Ok ->]%reads_Ok & H).
  apply st_bind_Ok in H as ([] & ? & [_ ->]%lift_Ok & H).
  apply st_bind_Ok in H as ([tn sn] & ? & [Hdir ->]%reads_Ok & H). cbn [fst snd] in H.
  pose proof (stored_handle _ _ _ Hslots Hln) as Elh. pose proof (stored_handle _ _ _ Hslots Hrn) as Erh.
  assert (∃ t s, t = n_handle tn ∧ s = n_handle sn ∧ (t = l ∧ s = r ∨ t = r ∧ s = l) ∧ s ≠ t ∧
    stored (nodes (state k)) t tn ∧ n_lifecycle tn = Active ∧ stored (nodes (state k)) s sn ∧ n_lifecycle sn = Active)
    as (t & source & Et & Es & Hts & Hne & Htn & Htact & Hsn & Hsact).
  { apply merge_direction_cases in Hdir as [[-> ->]|[-> ->]]; [exists l, r|exists r, l];
      (split_and!; [congruence..|auto|congruence|done|done|done|done]). }
  rewrite <-Et, <-Es in H. clear Hdir.
  apply st_bind_Ok in H as ([] & k1 & H1 & H). apply st_bind_Ok in H as (? & ? & [-> ->]%gets_Ok & H).
  apply st_bind_Ok in H as ([] & k2 & H2 & H). apply st_bind_Ok in H as (? & ? & [-> ->]%gets_Ok & H).
  apply st_bind_Ok in H as ([] & k3 & H3 & H). apply st_bind_Ok in H as (i & ? & [Hi ->]%reads_Ok & H).
  apply st_bind_Ok in H as ([] & k4 & H4 & H). apply st_bind_Ok in H as ([] & k5 & H5 & H).
  apply st_bind_Ok in H as ([] & k6 & H6 & [-> ->]%mret_Ok).
  exists source. split; [done|]. eapply merge_steps; try done. by exists tn.
Qed.
