(* ===== verification/Prune.v ===== *)
(** * Pruning a subtree ([prune_subtree])

    The active nodes below a root leave the active arena, and with them every
    fact that mentions one of them. *)

From S2P Require Import Prelude Order Errors Model Queue Store Kernel KernelBase Arena Facts FactOps StateInv NodeOps Merge.
Import Kernel.

(** ** The nodes of the subtree *)

(** [n] is an active node at or below [root]. *)
Definition in_subtree (s : MutableState) (root : NodeHandle) (n : Node) : Prop :=
  n_lifecycle n = Active ∧ (n_handle n = root ∨ ancestor (nodes s) (n_parent n) root).

Lemma NoDup_live_handles s : slots_ok (nodes s) → NoDup (n_handle <$> live_nodes s).
Proof.
  intros Hs. unfold live_nodes.
  assert (∀ start (l : list (option Node)),
    (∀ i n, l !! i = Some (Some n) → N.to_nat (slot (n_handle n)) = (start + i)%nat) →
    NoDup (n_handle <$> omap id l) ∧
    ∀ n, n ∈ omap id l → (start ≤ N.to_nat (slot (n_handle n)))%nat) as Hgen.
  { intros start l. revert start. induction l as [|o l IH]; intros start Hl; csimpl.
    { split; [constructor|set_solver]. }
    destruct (IH (S start)) as [IH1 IH2].
    { intros i n Hi. rewrite (Hl (S i) n Hi). lia. }
    destruct o as [n|]; csimpl.
    - pose proof (Hl 0%nat n eq_refl) as Hn. split.
      + constructor; [|done]. intros (m & E & Hm)%list_elem_of_fmap. apply IH2 in Hm. rewrite <-E in Hm. lia.
      + intros m [->|Hm]%elem_of_cons; [lia|]. apply IH2 in Hm. lia.
    - split; [done|]. intros m Hm%IH2. lia. }
  apply (Hgen 0%nat). intros i n Hi. by apply Hs in Hi.
Qed.

Lemma subtree_nodes_Ok root k l :
  subtree_nodes root k = Ok l →
  (∀ n, n ∈ l ↔ n ∈ live_nodes (state k) ∧ in_subtree (state k) root n) ∧ sublist l (live_nodes (state k)).
Proof.
  unfold subtree_nodes. generalize (live_nodes (state k)) as ns.
  assert (∀ ns acc, foldM (λ affected node,
      if bool_decide (n_lifecycle node = Active) then
        if bool_decide (n_handle node = root) then Ok (affected ++ [node])
        else has_ancestor node root k ≫= λ below : bool,
          Ok (if below then affected ++ [node] else affected)
      else Ok affected) ns acc = Ok l →
    ∃ rest, l = acc ++ rest ∧ (∀ n, n ∈ rest ↔ n ∈ ns ∧ in_subtree (state k) root n) ∧ sublist rest ns) as Hgen.
  { induction ns as [|n ns IH]; intros acc; simpl.
    { intros [= ->]. exists []. split_and!; [by rewrite app_nil_r|set_solver|done]. }
    intros H. apply outcome_bind_Ok in H as (acc' & Hn & H). apply IH in H as (rest & -> & Hrest & Hsub).
    assert (acc' = acc ++ [n] ∧ in_subtree (state k) root n ∨ acc' = acc ∧ ¬ in_subtree (state k) root n) as Hc.
    { unfold in_subtree. case_bool_decide as Hact; [case_bool_decide as Hroot|].
      - injection Hn as <-. left. auto.
      - apply outcome_bind_Ok in Hn as (below & Hb%has_ancestor_Ok & [= <-]).
        destruct below; [left|right]; (split; [done|]); [naive_solver|]. intros [_ [?|?%Hb]]; done.
      - injection Hn as <-. right. naive_solver. }
    destruct Hc as [[-> Hin]|[-> Hin]].
    - exists (n :: rest). rewrite <-app_assoc. split_and!; [done| |by constructor].
      intros m. rewrite !elem_of_cons, Hrest. naive_solver.
    - exists rest. split_and!; [done| |by constructor]. intros m. rewrite elem_of_cons, Hrest. naive_solver. }
  intros ns (rest & -> & ? & ?)%Hgen. done.
Qed.

(** ** Dropping the rows of the pruned nodes *)

Definition touches (handles : gset NodeHandle) (row : FactRow) : Prop :=
  ∃ h, h ∈ arguments (row_key row) ∧ h ∈ handles.

Lemma drop_rows_Ok (handles : gset NodeHandle) rids k k' :
  state_ok (top k) (state k) → NoDup rids →
  (∀ rid, rid ∈ rids ↔ ∃ row, active_row (state k) (N.to_nat rid) row ∧ touches handles row) →
  forM (λ rid, row ← reads (fact rid); if active row then deactivate_fact rid else mret tt) rids k = (Ok tt, k') →
  kframe k k' ∧ state_ok (top k) (state k') ∧ nodes (state k') = nodes (state k) ∧
  ∀ i r, active_row (state k') i r ↔ active_row (state k) i r ∧ ¬ touches handles r.
Proof.
  intros Hk Hnd Hrids H.
  eapply (forM_rest (λ rest k1, NoDup rest ∧ (∀ rid, rid ∈ rest → rid ∈ rids) ∧
    kframe k k1 ∧ state_ok (top k) (state k1) ∧ nodes (state k1) = nodes (state k) ∧
    ∀ i r, active_row (state k1) i r ↔ active_row (state k) i r ∧ (¬ touches handles r ∨ N.of_nat i ∈ rest))) in H
    as (_ & _ & Hf & Hk' & Hn & Hrows).
  - split_and!; [done..|]. intros i r. rewrite Hrows. set_solver.
  - intros rid rest k1 k2 ([Hrid Hnd1]%NoDup_cons & Hsub & Hf1 & Hk1 & Hn1 & Hrows1) Hx.
    destruct (proj1 (Hrids rid)) as (row & Hrow & Ht); [apply Hsub; by left|].
    assert (active_row (state k1) (N.to_nat rid) row) as Hrow1.
    { apply Hrows1. split; [done|]. right. rewrite N2Nat.id. by left. }
    apply st_bind_Ok in Hx as (row' & ? & [Hr ->]%reads_Ok & Hx). unfold fact in Hr. apply ok_or_Ok in Hr.
    assert (row' = row) as -> by (destruct Hrow1; congruence). rewrite (proj2 Hrow1) in Hx.
    rewrite <-(top_frame _ _ Hf1) in Hk1.
    destruct (keeps_deactivate_fact _ _ _ _ Hk1 Hx) as [Hf2 Hk2]. rewrite (top_frame _ _ Hf1) in Hk2.
    apply deactivate_fact_Ok in Hx as (row' & Hr' & _ & Hst); [|by apply (facts_ids _ _ (state_facts _ _ Hk1))].
    assert (row' = row) as -> by congruence. rewrite (proj2 Hrow1) in Hst.
    split_and!; [done|intros; apply Hsub; by right|by etrans|done|by rewrite Hst|]. intros i r.
    rewrite Hst, (active_row_removed _ _ _ _ (state_facts _ _ Hk1) Hrow1), Hrows1, elem_of_cons. split.
    + intros [[? [?|[?|?]]] ?]; [auto|lia|auto].
    + intros [Ha Hc]. split; [naive_solver|]. intros ->. destruct Hc as [Hc|Hc]; [|by rewrite N2Nat.id in Hc].
      apply Hc. assert (r = row) as -> by (destruct Ha, Hrow; congruence). done.
  - split_and!; try done. intros i r. split; [|naive_solver]. intros Ha. split; [done|].
    destruct (decide (N.of_nat i ∈ rids)) as [?|Hn]; [by right|left]. intros Ht. apply Hn, Hrids.
    exists r. by rewrite Nat2N.id.
Qed.

(** ** Marking the nodes *)

Definition pruned_node (n : Node) : Node :=
  n <| n_lifecycle := Pruned |> <| n_blocker := None |> <| n_directly_blocked := false |>
    <| n_blocking_generation := n_blocking_generation n + 1 |>.

(** The arena after the nodes with handles in [done] were pruned. *)
Definition prune_entry (done : list NodeHandle) (n : Node) : Node :=
  if bool_decide (n_handle n ∈ done) then pruned_node n else n.

Definition prune_nodes (done : list NodeHandle) (ns : list (option Node)) : list (option Node) :=
  option_map (prune_entry done) <$> ns.

Lemma prune_nodes_lookup done ns i :
  prune_nodes done ns !! i = option_map (prune_entry done) <$> ns !! i.
Proof. apply list_lookup_fmap. Qed.

Lemma prune_nodes_ext done done' ns :
  (∀ h, h ∈ done ↔ h ∈ done') → prune_nodes done ns = prune_nodes done' ns.
Proof.
  intros Hd. apply list_fmap_ext. intros i [n|] _; [|done]. simpl. f_equal. unfold prune_entry.
  by rewrite (bool_decide_ext _ _ (Hd (n_handle n))).
Qed.

Lemma prune_nodes_nil ns : prune_nodes [] ns = ns.
Proof.
  apply list_eq. intros i. rewrite prune_nodes_lookup. destruct (ns !! i) as [[n|]|]; [|done..].
  simpl. unfold prune_entry. rewrite bool_decide_eq_false_2; [done|set_solver].
Qed.

Lemma prune_nodes_inv done ns i m :
  prune_nodes done ns !! i = Some (Some m) → ∃ n, ns !! i = Some (Some n) ∧ m = prune_entry done n.
Proof.
  rewrite prune_nodes_lookup. destruct (ns !! i) as [[n|]|]; simpl; naive_solver.
Qed.

Lemma prune_nodes_insert done ns i n :
  slots_ok ns → ns !! i = Some (Some n) →
  <[i := Some (pruned_node n)]> (prune_nodes done ns) = prune_nodes (n_handle n :: done) ns.
Proof.
  intros Hs Hi. apply list_eq. intros j. destruct (decide (i = j)) as [<-|Hne].
  - rewrite list_lookup_insert_eq by (unfold prune_nodes; rewrite length_fmap; by eapply lookup_lt_Some).
    rewrite prune_nodes_lookup, Hi. simpl. unfold prune_entry. rewrite bool_decide_eq_true_2; [done|by left].
  - rewrite list_lookup_insert_ne, !prune_nodes_lookup by done.
    destruct (ns !! j) as [[m|]|] eqn:Hj; [|done..]. simpl. do 2 f_equal.
    assert (n_handle m ≠ n_handle n) as Hh.
    { intros E. apply Hne. by rewrite <-(Hs _ _ Hi), <-(Hs _ _ Hj), E. }
    unfold prune_entry. rewrite (bool_decide_ext (n_handle m ∈ n_handle n :: done) (n_handle m ∈ done)); [done|].
    rewrite elem_of_cons. naive_solver.
Qed.

(** One turn of the loop, on a node that is still active. *)
Lemma state_pruned hi s i n :
  state_ok hi s → nodes s !! i = Some (Some n) → n_lifecycle n = Active →
  (∀ j m, nodes s !! j = Some (Some m) → n_blocker m ≠ Some (n_handle n)) →
  (∀ j r, active_row s j r → n_handle n ∉ arguments (row_key r)) →
  state_ok hi (s <| nodes ::= <[i := Some (pruned_node n)]> |>).
Proof.
  intros [Ha Hf Hg] Hi Hact Hblk Hrows. split.
  - eapply (arena_leave_pruned _ _ _ n (pruned_node n)); try done.
    cbn. by eapply (leave_no_link _ s i).
  - apply (facts_ok_frame hi hi s); try done. cbn. intros j r h Hr Hin (m & Hm & Hma).
    exists m. split; [|done]. apply stored_insert_ne; [|done]. intros E.
    apply (Hrows j r Hr). pose proof (stored_handle _ _ _ (arena_slots _ _ Ha) Hm) as <-.
    destruct Hm as [Hm _]. rewrite E, Hi in Hm. injection Hm as <-. done.
  - by eapply (agenda_ok_frame _ s).
Qed.

Definition prune_one (node : Node) : K unit :=
  index ← reads (node_index (n_handle node));
  _ ← update_node index (NativeErr.invariant "pruned node disappeared")
    (λ n, n <| n_lifecycle := Pruned |> <| n_blocker := None |> <| n_directly_blocked := false |>);
  _ ← bump_blocking index (NativeErr.invariant "pruned node disappeared");
  record_mutation.

Lemma prune_one_Ok node k k' :
  prune_one node k = (Ok tt, k') →
  ∃ n, nodes (state k) !! N.to_nat (slot (n_handle node)) = Some (Some n) ∧ kframe k k' ∧
    state k' = state k <| nodes ::= <[N.to_nat (slot (n_handle node)) := Some (pruned_node n)]> |>.
Proof.
  unfold prune_one. intros H. apply st_bind_Ok in H as (i & ? & [[-> _]%node_index_Ok ->]%reads_Ok & H).
  apply st_bind_Ok in H as ([] & k1 & (n & Hn & Hf1 & Hs1)%update_node_Ok & H).
  apply st_bind_Ok in H as ([] & k2 & (m & Hm & Hf2 & Hs2)%bump_blocking_Ok & H).
  kstep. exists n. split_and!; [done|kframes|]. rewrite Hs1 in Hm. cbn in Hm.
  rewrite list_lookup_insert_eq in Hm by (by eapply lookup_lt_Some). injection Hm as <-. kstates.
  unfold set_field at 1. cbn. by rewrite list_insert_insert_eq.
Qed.

Lemma prune_loop_Ok affected k k' :
  state_ok (top k) (state k) → NoDup (n_handle <$> affected) →
  (∀ n, n ∈ affected → ∃ i m, nodes (state k) !! i = Some (Some m) ∧ n_handle m = n_handle n ∧ n_lifecycle m = Active) →
  (∀ j m b, nodes (state k) !! j = Some (Some m) → n_blocker m = Some b → b ∉ n_handle <$> affected) →
  (∀ j r h, active_row (state k) j r → h ∈ arguments (row_key r) → h ∉ n_handle <$> affected) →
  forM prune_one affected k = (Ok tt, k') →
  kframe k k' ∧ state_ok (top k) (state k') ∧
  state k' = state k <| nodes := prune_nodes (n_handle <$> affected) (nodes (state k)) |>.
Proof.
  intros Hk Hnd Haff Hblk Hrows H. pose proof (arena_slots _ _ (state_arena _ _ Hk)) as Hslots.
  eapply (forM_rest (λ rest k1, ∃ dn, NoDup (n_handle <$> rest) ∧
    (∀ h, h ∈ n_handle <$> affected ↔ h ∈ dn ∨ h ∈ n_handle <$> rest) ∧
    (∀ h, h ∈ dn → h ∉ n_handle <$> rest) ∧ kframe k k1 ∧ state_ok (top k) (state k1) ∧
    state k1 = state k <| nodes := prune_nodes dn (nodes (state k)) |>)) in H
    as (dn & _ & Hall & _ & Hf & Hk' & Hst).
  - split_and!; [done|done|]. rewrite Hst.
    rewrite (prune_nodes_ext dn (n_handle <$> affected)); [done|]. intros h. rewrite Hall. set_solver.
  - intros x rest k1 k2 (dn & [Hx Hnd1]%NoDup_cons & Hall & Hdis & Hf1 & Hk1 & Hst1) (n & Hn & Hf2 & Hst2)%prune_one_Ok.
    rewrite Hst1 in Hn. cbn in Hn. apply prune_nodes_inv in Hn as (n0 & Hn0 & ->).
    assert (n_handle x ∈ n_handle <$> affected) as Hxa by (apply Hall; right; by left).
    assert (n_handle n0 = n_handle x ∧ n_lifecycle n0 = Active) as [Hh Hact].
    { pose proof Hxa as (y & E & (i & m & Hi & Hm & Hma)%Haff)%list_elem_of_fmap.
      assert (N.to_nat (slot (n_handle x)) = i) as Ei by (rewrite E, <-Hm; by apply Hslots).
      rewrite Ei, Hi in Hn0. injection Hn0 as <-. split; congruence. }
    assert (prune_entry dn n0 = n0) as E0.
    { unfold prune_entry. rewrite bool_decide_eq_false_2; [done|]. rewrite Hh. intros Hd. apply (Hdis _ Hd). by left. }
    rewrite E0 in Hst2.
    exists (n_handle x :: dn). split_and!; [done| | |by etrans| |].
    + intros h. rewrite Hall, fmap_cons, !elem_of_cons. tauto.
    + intros h [->|Hd]%elem_of_cons; [done|]. intros Hr. apply (Hdis h Hd). by right.
    + rewrite Hst2. apply state_pruned; rewrite ?Hh; try done.
      * rewrite Hst1. cbn. rewrite prune_nodes_lookup, Hn0. simpl. by rewrite E0.
      * intros j m. rewrite Hst1. cbn. intros (m0 & Hm0 & ->)%prune_nodes_inv. unfold prune_entry.
        case_bool_decide; [done|]. intros Hb. by eapply Hblk.
      * intros j r Hr Hin. rewrite Hst1 in Hr. by eapply Hrows.
    + rewrite Hst2, Hst1. unfold set_field; cbn. f_equal. rewrite <-Hh at 2. by apply prune_nodes_insert.
  - exists []. split_and!; try done; [set_solver..|].
    rewrite prune_nodes_nil. by destruct (state k).
Qed.

(** ** The whole operation *)

Record pruned (root : NodeHandle) (hs : list NodeHandle) (k k' : TableauKernel) : Prop := {
  pruned_frame : kframe k k';
  pruned_ok : state_ok (top k) (state k');
  pruned_NoDup : NoDup hs;
  pruned_exact h : h ∈ hs ↔ ∃ n, stored (nodes (state k)) h n ∧ in_subtree (state k) root n;
  pruned_nodes h n : stored (nodes (state k)) h n →
    ∃ n', stored (nodes (state k')) h n' ∧ same_identity n n' ∧ n_representative n' = n_representative n ∧
      n_lifecycle n' = if decide (h ∈ hs) then Pruned else n_lifecycle n;
  pruned_rows i r : active_row (state k') i r ↔
    active_row (state k) i r ∧ ∀ h, h ∈ arguments (row_key r) → h ∉ hs
}.

Lemma elem_of_blocked_set hi s (handles : gset NodeHandle) j m b :
  arena_ok hi s → nodes s !! j = Some (Some m) → n_blocker m = Some b → b ∈ handles →
  n_handle m ∈ n_handle <$> List.filter (λ n, bool_decide (n_lifecycle n = Active) &&
      match n_blocker n with Some blocker => bool_decide (blocker ∈ handles) | None => false end) (live_nodes s).
Proof.
  intros Ha Hj Hb Hin. apply list_elem_of_fmap. exists m. split; [done|].
  apply list_elem_of_In, filter_In. split; [apply list_elem_of_In, elem_of_live_nodes; eauto|].
  destruct (node_blocker _ _ _ _ (arena_node _ _ Ha _ _ Hj) _ Hb) as (? & _). rewrite Hb.
  by rewrite !bool_decide_eq_true_2.
Qed.

Lemma elem_of_rows_of hi s (handles : gset NodeHandle) rid :
  facts_ok hi s →
  rid ∈ btree_elements (⋃ (omap (λ h, facts_by_node s !! h) (btree_elements handles))) ↔
  ∃ row, active_row s (N.to_nat rid) row ∧ touches handles row.
Proof.
  intros Hf. rewrite elem_of_btree_elements, elem_of_union_list. setoid_rewrite list_elem_of_omap.
  setoid_rewrite elem_of_btree_elements. split.
  - intros (rows & (h & Hh & E) & Hr).
    assert (rid ∈ idx_rows (facts_by_node s) h) as Hi by (unfold idx_rows; by rewrite E).
    apply (facts_node _ _ Hf) in Hi as (row & Hrow & Hin). exists row. split; [done|]. by exists h.
  - intros (row & Hrow & h & Hin & Hh).
    assert (rid ∈ idx_rows (facts_by_node s) h) as Hi by (apply (facts_node _ _ Hf); eauto).
    unfold idx_rows in Hi. destruct (facts_by_node s !! h) as [rows|] eqn:E; [|set_solver].
    exists rows. split; [by exists h|done].
Qed.

Lemma prune_subtree_inner_Ok root k hs k' :
  state_ok (top k) (state k) → prune_subtree_inner root k = (Ok hs, k') → pruned root hs k k'.
Proof.
  intros Hk H. unfold prune_subtree_inner in H.
  apply st_bind_Ok in H as ([] & k1 & [Hf1 Hs1]%bump_sequence_frame & H).
  apply st_bind_Ok in H as (collected & ? & [[Hcol Hsub]%subtree_nodes_Ok ->]%reads_Ok & H).
  rewrite Hs1 in Hcol, Hsub. cbv zeta in H.
  set (affected := merge_sort prune_order collected) in *.
  set (handles := list_to_set (n_handle <$> affected) : gset NodeHandle) in *.
  assert (affected ≡ₚ collected) as Hperm by apply merge_sort_Permutation.
  pose proof (state_arena _ _ Hk) as Ha. pose proof (arena_slots _ _ Ha) as Hslots.
  assert (∀ n, n ∈ affected ↔ n ∈ live_nodes (state k) ∧ in_subtree (state k) root n) as Haff.
  { intros n. by rewrite Hperm, Hcol. }
  assert (NoDup (n_handle <$> affected)) as Hnd.
  { rewrite Hperm. eapply sublist_NoDup; [by apply NoDup_live_handles|by apply fmap_sublist]. }
  apply st_bind_Ok in H as (? & ? & [-> ->]%gets_Ok & H).
  apply st_bind_Ok in H as ([] & k2 & H2 & H). apply st_bind_Ok in H as (? & ? & [-> ->]%gets_Ok & H).
  apply st_bind_Ok in H as ([] & k3 & H3 & H). apply st_bind_Ok in H as ([] & k4 & H4 & [-> ->]%mret_Ok).
  apply (unblock_loop (.∈ handles)) in H2 as (Hf2 & Hk2 & Ho2 & Hblk2).
  2:{ by rewrite (top_frame _ _ Hf1), Hs1. }
  2:{ rewrite Hs1. intros j m b Hj Hb Hin. by eapply elem_of_blocked_set. }
  rewrite Hs1 in Ho2. rewrite <-(top_frame _ _ Hf2) in Hk2.
  apply (drop_rows_Ok handles) in H3 as (Hf3 & Hk3 & Hn3 & Hrows3); [|done|apply StronglySorted_lt_NoDup, btree_elements_sorted|].
  2:{ intros rid. eapply elem_of_rows_of. by apply state_facts. }
  rewrite <-(top_frame _ _ Hf3) in Hk3.
  assert (∀ h, h ∈ handles ↔ h ∈ n_handle <$> affected) as Hhs by (intros h; apply elem_of_list_to_set).
  apply prune_loop_Ok in H4 as (Hf4 & Hk4 & Hst4); [|done|done| | |].
  - rewrite (top_frame _ _ Hf3), (top_frame _ _ Hf2), (top_frame _ _ Hf1) in Hk4. split; [kframes|done|done| | |].
    + intros h. rewrite list_elem_of_fmap. setoid_rewrite Haff. split.
      * intros (n & -> & [i Hi]%elem_of_live_nodes & Hin). exists n. split; [|done].
        by eapply arena_stored_not_retired.
      * intros (n & Hn & Hin). exists n. split; [by rewrite (stored_handle _ _ _ Hslots Hn)|].
        split; [by eapply stored_live|done].
    + intros h n (Hl & Hg & Hr). destruct (blocking_node _ _ Ho2 _ _ Hl) as (m & Hm & Hid & Hlc & Hrp & _).
      assert (n_handle m = h) as Hh.
      { rewrite (same_handle _ _ Hid). by apply (stored_handle _ _ _ Hslots). }
      exists (prune_entry (n_handle <$> affected) m). rewrite Hst4. unfold stored; cbn.
      rewrite prune_nodes_lookup, Hn3, Hm. simpl. unfold prune_entry. rewrite Hh.
      case_decide as Hd; case_bool_decide; try done; cbn; rewrite ?Hh, ?Hlc; split_and!; try done;
        etrans; [exact Hid|done].
    + intros i r. rewrite Hst4.
      change (active_row (state k3) i r ↔ active_row (state k) i r ∧ ∀ h, h ∈ arguments (row_key r) → h ∉ n_handle <$> affected).
      rewrite Hrows3. unfold active_row at 1. rewrite (blocking_rest _ _ Ho2). unfold touches. setoid_rewrite Hhs.
      change (facts _ !! i) with (facts (state k) !! i). unfold active_row. naive_solver.
  - intros n [[i Hi]%elem_of_live_nodes [Hact _]]%Haff. destruct (blocking_node _ _ Ho2 _ _ Hi) as (m & Hm & Hid & Hlc & _).
    exists i, m. rewrite Hn3. split_and!; [done|apply same_handle, Hid|congruence].
  - intros j m b Hj Hb. rewrite Hn3 in Hj. rewrite <-Hhs. by eapply Hblk2.
  - intros j r h [_ Ht]%Hrows3 Hin Hh. apply Ht. exists h. by rewrite Hhs.
Qed.
