(* ===== verification/KernelInv.v ===== *)
(** * The kernel invariant, branches and rollback

    [wf] extends the state invariant to the branch stack: every snapshot is
    well formed at the level below its branch.  Every successful operation
    keeps it, and a failed transaction restores the state it started from. *)

From S2P Require Import Prelude Order Errors Model Queue Store Kernel KernelBase Arena Facts FactOps.
From S2P Require Import StateInv NodeOps Merge Prune.
Import Kernel.

(** ** Well-formed kernels *)

(** The highest level below branch [i]. *)
Definition below (i : nat) : N := N.of_nat (pred i).

Record branch_ok (i : nat) (b : Branch) : Prop := {
  branch_level : level b = N.of_nat i;
  branch_next : (next_alternative b < length (alternatives b))%nat;
  branch_base : canonical (base_dependency b);
  branch_initial : canonical (initial_base_dependency b);
  branch_initial_below l : l ∈ as_slice (initial_base_dependency b) → l < N.of_nat i;
  branch_learned : canonical (learned_dependency b);
  branch_trail : meta_trail_length (checkpoint b) = cp_trail_length (b_snapshot b);
  branch_snapshot : state_ok (below i) (cp_state (b_snapshot b));
  branch_no_clash : current_clash (cp_state (b_snapshot b)) = None
}.

Record wf (k : TableauKernel) : Prop := {
  wf_state : state_ok (top k) (state k);
  wf_branches i b : branches k !! i = Some b → branch_ok i b;
  wf_trail i b : branches k !! i = Some b → cp_trail_length (b_snapshot b) ≤ trail_length k;
  wf_trails i j b c : branches k !! i = Some b → branches k !! j = Some c → (i ≤ j)%nat →
    cp_trail_length (b_snapshot b) ≤ cp_trail_length (b_snapshot c);
  wf_root : state_ok 0 (cp_state (operation_root k));
  wf_count : N.of_nat (length (branches k)) ≤ 2 ^ 32
}.

Definition preserves {A} (m : K A) : Prop := ∀ k a k', wf k → m k = (Ok a, k') → wf k'.

Lemma wf_new : wf TableauKernel_new.
Proof. split; cbn; try done; apply state_ok_new. Qed.

Lemma wf_frame k k' : wf k → kframe k k' → state_ok (top k) (state k') → wf k'.
Proof.
  intros [H1 H2 H3 H4 H5 H6] Hf Hs. destruct Hf as [Eb Er Ht _].
  split; rewrite ?Eb, ?Er; try done.
  - unfold top, highest_branch_level. by rewrite Eb.
  - intros i b Hi. specialize (H3 i b Hi). lia.
Qed.

Lemma keeps_preserves {A} (m : K A) : keeps m → preserves m.
Proof. intros Hm k a k' Hk H. destruct (Hm _ _ _ (wf_state _ Hk) H). by eapply wf_frame. Qed.

Lemma wf_top k : wf k → top k = below (length (branches k)).
Proof.
  intros Hk. unfold top, highest_branch_level, below. rewrite last_lookup.
  destruct (branches k !! pred (length (branches k))) as [b|] eqn:E; simpl.
  - apply (wf_branches _ Hk) in E. by destruct E.
  - apply lookup_ge_None in E. destruct (branches k) as [|b l]; [done|]. simpl in E. lia.
Qed.

(** ** Restoring a snapshot *)

Lemma wf_generations_capacity k : wf k → N.of_nat (length (generations (state k))) ≤ 2 ^ 32.
Proof.
  intros Hk. pose proof (state_arena _ _ (wf_state _ Hk)) as [Hl Hc _ _ _ _ _ _]. lia.
Qed.

(** Dropping the branches above a level and returning to its snapshot. *)
Lemma wf_restore_branch k i b n :
  wf k → branches k !! i = Some b → (n = i ∨ n = S i) →
  wf (restore (b_snapshot b) k <| branches := take n (branches k) |>).
Proof.
  intros Hk Hi Hn. pose proof (wf_branches _ Hk _ _ Hi) as Hb.
  assert (i < length (branches k))%nat as Hlt by (by eapply lookup_lt_Some).
  assert (∀ j c, take n (branches k) !! j = Some c → branches k !! j = Some c ∧ (j < n)%nat) as Htake.
  { intros j c [Hj ?]%lookup_take_Some. done. }
  assert (∀ j c, take n (branches k) !! j = Some c →
    cp_trail_length (b_snapshot c) ≤ cp_trail_length (b_snapshot b)) as Htr.
  { intros j c [Hj ?]%Htake. eapply (wf_trails _ Hk); [done..|lia]. }
  assert (below i ≤ top (restore (b_snapshot b) k <| branches := take n (branches k) |>)) as Htop.
  { unfold top, highest_branch_level; cbn. rewrite last_lookup, length_take.
    destruct (take n (branches k) !! _) as [c|] eqn:E; simpl.
    - apply Htake in E as [E ?]. apply (wf_branches _ Hk) in E as [-> _ _ _ _ _ _ _ _].
      unfold below. lia.
    - apply lookup_ge_None in E. rewrite length_take in E. unfold below. lia. }
  split; cbn.
  - apply (state_ok_mono (below i)); [done|]. apply state_restore; [by destruct Hb|].
    by apply wf_generations_capacity.
  - intros j c [Hj _]%Htake. by apply (wf_branches _ Hk).
  - intros j c Hj. by eapply Htr.
  - intros j1 j2 c1 c2 [H1 _]%Htake [H2 _]%Htake. by eapply (wf_trails _ Hk).
  - apply (wf_root _ Hk).
  - rewrite length_take. pose proof (wf_count _ Hk). lia.
Qed.

Lemma backtrack_to_Ok lvl k u k' :
  backtrack_to lvl k = (Ok u, k') →
  ∃ b, branches k !! N.to_nat lvl = Some b ∧
    k' = restore (b_snapshot b) k <| branches := take (S (N.to_nat lvl)) (branches k) |> ∧
    check_invariants k' = Ok tt.
Proof.
  intros H. unfold backtrack_to in H.
  apply st_bind_Ok in H as (b & ? & [Hb ->]%reads_Ok & H). unfold branch in Hb. apply ok_or_Ok in Hb.
  apply st_bind_Ok in H as ([] & ? & ->%modify_Ok & H).
  apply st_bind_Ok in H as ([] & ? & ->%modify_Ok & [H ->]%reads_Ok). destruct u. eauto.
Qed.

Lemma preserves_backtrack_to lvl : preserves (backtrack_to lvl).
Proof.
  intros k u k' Hk (b & Hb & -> & _)%backtrack_to_Ok. apply (wf_restore_branch _ (N.to_nat lvl)); auto.
Qed.

Lemma preserves_reset : preserves reset_to_operation_root.
Proof.
  intros k u k' Hk H. unfold reset_to_operation_root in H. inv_ok. unfold id in *.
  split; cbn; try done.
  - apply state_restore; [by apply wf_root|by apply wf_generations_capacity].
  - apply (wf_root _ Hk).
Qed.

Lemma preserves_begin_operation : preserves begin_operation.
Proof.
  intros k u k' Hk H. unfold begin_operation in H.
  apply st_bind_Ok in H as (? & ? & [-> ->]%gets_Ok & H).
  apply st_bind_Ok in H as (? & ? & [Hb ->]%lift_Ok & H). apply reject_if_Ok, negb_false_iff, bool_decide_eq_true in Hb.
  apply st_bind_Ok in H as ([] & k1 & [Hf Hs]%bump_sequence_frame & ->%modify_Ok).
  assert (wf k1) as Hk1. { eapply wf_frame; [done|done|]. rewrite Hs. apply (wf_state _ Hk). }
  destruct Hk1 as [H1 H2 H3 H4 H5 H6]. split; cbn; try done.
  unfold top, highest_branch_level in H1. rewrite (frame_branches _ _ Hf) in H1. unfold id in Hb. by rewrite Hb in H1.
Qed.

(** ** Pushing a branch *)

Lemma push_branch_Ok kind alts sid base k lvl k' :
  push_branch kind alts sid base k = (Ok lvl, k') →
  is_choice_kind kind = true ∧ (2 ≤ length alts)%nat ∧ NoDup alts ∧ current_clash (state k) = None ∧
  lvl = N.of_nat (length (branches k)) ∧ lvl ≤ u32_max ∧
  (∀ m, Dep.maximum base = Some m → m < lvl) ∧
  ∃ b, k' = k <| checkpoint_sequence := checkpoint_sequence k + 1 |> <| branches := branches k ++ [b] |> ∧
    level b = lvl ∧ choice_kind b = kind ∧ alternatives b = alts ∧ source_id b = sid ∧ base_dependency b = base ∧
    initial_base_dependency b = base ∧ next_alternative b = 0%nat ∧ learned_dependency b = Dep.empty ∧
    b_snapshot b = snapshot k ∧ meta_trail_length (checkpoint b) = trail_length k.
Proof.
  intros H. unfold push_branch, bump_sequence in H. inv_ok. unfold id in *.
  apply negb_false_iff in H0. apply orb_false_iff in H1 as [Hlen Huniq].
  apply Nat.ltb_ge in Hlen. apply negb_false_iff in Huniq. unfold is_unique in Huniq.
  apply bool_decide_eq_true, size_list_to_set_NoDup in Huniq.
  match goal with G : bool_decide (is_Some _) = false |- _ => apply bool_decide_eq_false, eq_None_not_Some in G end.
  split_and!; try done.
  - intros m Hm. rewrite Hm in *. by apply N.leb_gt.
  - eexists. split; [by destruct k|]. done.
Qed.

Lemma preserves_push_branch kind alts sid base : canonical base → preserves (push_branch kind alts sid base).
Proof.
  intros Hc k lvl k' Hk H.
  apply push_branch_Ok in H as (_ & Halts & _ & Hcl & -> & Hmax & Hbase & b & -> & Hl & _ & Ha & _ & Hb1 & Hb2 & Hn & Hle & Hsn & Hm).
  pose proof (wf_top _ Hk) as Htop.
  assert (branch_ok (length (branches k)) b) as Hb.
  { split; rewrite ?Hl, ?Hn, ?Ha, ?Hb1, ?Hb2, ?Hle, ?Hsn, ?Hm; cbn; try done; [lia| |apply canonical_empty|].
    - intros l Hin. destruct (Dep.maximum base) as [m|] eqn:E.
      + specialize (Hbase m eq_refl). apply canonical_maximum in E as [_ E]; [|done]. specialize (E l Hin). lia.
      + apply maximum_None in E. rewrite E in Hin. set_solver.
    - rewrite <-Htop. apply (wf_state _ Hk). }
  split; cbn.
  - apply (state_ok_mono (top k)); [|apply (wf_state _ Hk)].
    rewrite Htop. unfold top, highest_branch_level, below; cbn. rewrite last_snoc. simpl. rewrite Hl. lia.
  - intros i c [Hi|[Hi Hc']]%lookup_app_Some; [by apply (wf_branches _ Hk)|].
    apply list_lookup_singleton_Some in Hc' as [Hi' <-]. by replace i with (length (branches k)) by lia.
  - intros i c [Hi|[Hi Hc']]%lookup_app_Some; [by eapply (wf_trail _ Hk)|].
    apply list_lookup_singleton_Some in Hc' as [_ <-]. by rewrite Hsn.
  - intros i j c d [Hi|[Hi Hc']]%lookup_app_Some [Hj|[Hj Hd']]%lookup_app_Some Hij;
      [by eapply (wf_trails _ Hk)| | |].
    + apply list_lookup_singleton_Some in Hd' as [_ <-]. rewrite Hsn. by eapply (wf_trail _ Hk).
    + apply lookup_lt_Some in Hj. lia.
    + apply list_lookup_singleton_Some in Hc' as [_ <-], Hd' as [_ <-]. done.
  - apply (wf_root _ Hk).
  - rewrite length_app. cbn. unfold u32_max in Hmax. lia.
Qed.

(** Replacing branches by versions with the same snapshots. *)
Lemma wf_update_branches k bs :
  wf k → length bs = length (branches k) →
  (∀ i b', bs !! i = Some b' → ∃ b, branches k !! i = Some b ∧ branch_ok i b' ∧ b_snapshot b' = b_snapshot b) →
  wf (k <| branches := bs |>).
Proof.
  intros Hk Hlen Hbs.
  assert (top (k <| branches := bs |>) = top k) as Htop.
  { unfold top, highest_branch_level; cbn. rewrite !last_lookup, Hlen.
    destruct (bs !! _) as [b'|] eqn:E.
    - destruct (Hbs _ _ E) as (b & Hb & Hok & _). rewrite Hb. cbn. rewrite (branch_level _ _ Hok).
      by rewrite (branch_level _ _ (wf_branches _ Hk _ _ Hb)).
    - apply lookup_ge_None in E. rewrite Hlen in E. rewrite (proj2 (lookup_ge_None _ _) E). done. }
  destruct Hk as [H1 H2 H3 H4 H5 H6]. split; rewrite ?Htop; cbn; try done.
  - intros i b' Hi. by destruct (Hbs _ _ Hi) as (b & _ & Hok & _).
  - intros i b' Hi. destruct (Hbs _ _ Hi) as (b & Hb & _ & ->). by eapply H3.
  - intros i j b' c' Hi Hj. destruct (Hbs _ _ Hi) as (b & Hb & _ & ->). destruct (Hbs _ _ Hj) as (c & Hc & _ & ->).
    by eapply H4.
  - by rewrite Hlen.
Qed.

Lemma preserves_strengthen_disjunction did dep :
  canonical dep → preserves (strengthen_disjunction did dep).
Proof.
  intros Hd k r k' Hk H. unfold strengthen_disjunction in H.
  apply st_bind_Ok in H as ([] & ? & [Hv ->]%reads_Ok & H).
  apply st_bind_Ok in H as (d & ? & [Hdis ->]%reads_Ok & H). unfold disjunction in Hdis. apply ok_or_Ok in Hdis.
  destruct (negb (d_active d) || _); [by inv_ok|].
  apply st_bind_Ok in H as ([] & k1 & [Hf1 Hs1]%record_mutation_frame & H).
  apply st_bind_Ok in H as ([] & k2 & [Hf2 Hs2]%upd_frame & H).
  apply st_bind_Ok in H as ([] & k3 & ->%modify_Ok & H). inv_ok.
  assert (wf k2) as Hk2.
  { eapply wf_frame; [done|by etrans|]. rewrite Hs2, Hs1.
    pose proof (agenda_records _ _ (state_agenda _ _ (wf_state _ Hk)) _ _ Hdis) as [].
    eapply keeps_alter_disjunction; [by apply wf_state|done| |done]. split; try done. cbn.
    by eapply validate_dependency_bounded. }
  apply (wf_update_branches k2 (_ <$> branches k2)); [done|by rewrite length_fmap|].
  intros i b' Hi. rewrite list_lookup_fmap in Hi. apply fmap_Some in Hi as (b & Hb & ->). exists b.
  pose proof (wf_branches _ Hk2 _ _ Hb) as [].
  split_and!; [done| |by destruct (_ && _)]. by destruct (_ && _).
Qed.

(** ** Advancing a branch *)

Definition advanced (learned : DependencySet) (b : Branch) : Branch :=
  b <| base_dependency := initial_base_dependency b |>
    <| learned_dependency := Dep.union [learned_dependency b; learned] |>
    <| next_alternative := S (next_alternative b) |>.

Lemma advance_branch_Ok lvl learned k o k' :
  advance_branch lvl learned k = (Ok o, k') →
  ∃ b, branches k !! N.to_nat lvl = Some b ∧
  match o with
  | Some alternative =>
      alternatives b !! S (next_alternative b) = Some alternative ∧
      k' = restore (b_snapshot b) k <| branches := take (N.to_nat lvl) (branches k) ++ [advanced learned b] |>
  | None =>
      (length (alternatives b) ≤ S (next_alternative b))%nat ∧
      k' = restore (b_snapshot b) k <| branches := take (N.to_nat lvl) (branches k) |>
  end.
Proof.
  intros H. unfold advance_branch in H.
  apply st_bind_Ok in H as ([] & k1 & (b & Hb & -> & _)%backtrack_to_Ok & H). exists b. split; [done|].
  set (i := N.to_nat lvl) in *.
  assert (i < length (branches k))%nat as Hlt by (by eapply lookup_lt_Some).
  assert (take (S i) (branches k) = take i (branches k) ++ [b]) as Etake by (by apply take_S_r).
  assert (∀ x y, <[i := x]> (take i (branches k) ++ [y]) = take i (branches k) ++ [x]) as Eins.
  { intros x y. rewrite insert_app_r_alt by (rewrite length_take; lia).
    by replace (i - length (take i (branches k)))%nat with 0%nat by (rewrite length_take; lia). }
  apply st_bind_Ok in H as (b0 & ? & [Hb0 ->]%reads_Ok & H). apply ok_or_Ok in Hb0. cbn in Hb0.
  rewrite lookup_take_lt in Hb0 by lia. assert (b0 = b) as -> by congruence. cbv zeta in H.
  apply st_bind_Ok in H as ([] & ? & ->%modify_Ok & H).
  apply st_bind_Ok in H as (? & ? & [_ ->]%lift_Ok & H).
  apply st_bind_Ok in H as ([] & ? & ->%modify_Ok & H). cbn in H.
  destruct (length (alternatives b) <=? S (next_alternative b))%nat eqn:E.
  - apply st_bind_Ok in H as ([] & ? & ->%modify_Ok & [-> ->]%mret_Ok). apply Nat.leb_le in E.
    split; [done|]. unfold set_field; cbn. rewrite Etake, !Eins, length_app, length_take; cbn. f_equal.
    rewrite take_app_le by (rewrite length_take; lia). rewrite take_take. f_equal. lia.
  - apply st_bind_Ok in H as (current & ? & [Hx ->]%lift_Ok & H). apply index_or_crash_Ok in Hx. cbn in Hx.
    apply st_bind_Ok in H as ([] & ? & [_ ->]%reads_Ok & [-> ->]%mret_Ok).
    split; [done|]. unfold set_field; cbn. by rewrite Etake, !Eins.
Qed.

Lemma preserves_advance_branch lvl learned : preserves (advance_branch lvl learned).
Proof.
  intros k o k' Hk (b & Hb & H)%advance_branch_Ok. destruct o as [x|].
  - destruct H as [Hx ->]. pose proof (wf_restore_branch _ _ _ (S (N.to_nat lvl)) Hk Hb (or_intror eq_refl)) as Hr.
    assert (N.to_nat lvl < length (branches k))%nat as Hlt by (by eapply lookup_lt_Some).
    assert (take (S (N.to_nat lvl)) (branches k) = take (N.to_nat lvl) (branches k) ++ [b]) as Etake by (by apply take_S_r).
    rewrite Etake in Hr.
    replace (restore (b_snapshot b) k <| branches := take (N.to_nat lvl) (branches k) ++ [advanced learned b] |>)
      with (restore (b_snapshot b) k <| branches := take (N.to_nat lvl) (branches k) ++ [b] |>
             <| branches := take (N.to_nat lvl) (branches k) ++ [advanced learned b] |>) by done.
    apply wf_update_branches; [done|cbn; by rewrite !length_app|].
    intros i c Hi. cbn. apply lookup_app_Some in Hi as [Hi|[Hi Hc]].
    + exists c. split_and!; [by apply lookup_app_l_Some| |done]. apply (wf_branches _ Hr). cbn. by apply lookup_app_l_Some.
    + apply list_lookup_singleton_Some in Hc as [Hi' <-]. rewrite length_take in Hi, Hi'.
      assert (i = N.to_nat lvl) as -> by lia. exists b. split_and!; [|  |done].
      * rewrite lookup_app_r by (rewrite length_take; lia). rewrite length_take. by replace (_ - _)%nat with 0%nat by lia.
      * pose proof (wf_branches _ Hk _ _ Hb) as []. split; cbn; try done.
        -- apply lookup_lt_Some in Hx. done.
        -- apply canonical_union.
  - destruct H as [_ ->]. apply (wf_restore_branch _ (N.to_nat lvl)); auto.
Qed.

(** ** What an operation does whatever its outcome *)

(** [moves R m]: however [m] ends, the kernel it leaves is related to the one
    it started from. *)
Definition moves {A} (R : relation TableauKernel) (m : K A) : Prop := ∀ k, R k (m k).2.

Section moves.
Context (R : relation TableauKernel) `{!PreOrder R}.

Lemma moves_reads {A} (f : TableauKernel → NativeResult A) : moves R (reads f).
Proof. intros k. reflexivity. Qed.
Lemma moves_gets {A} (f : TableauKernel → A) : moves R (gets f).
Proof. intros k. reflexivity. Qed.
Lemma moves_lift {A} (r : NativeResult A) : moves R (lift r).
Proof. intros k. reflexivity. Qed.
Lemma moves_mret {A} (a : A) : moves R (mret a).
Proof. intros k. reflexivity. Qed.
Lemma moves_modify f : (∀ k, R k (f k)) → moves R (modify f).
Proof. intros Hf k. apply Hf. Qed.
Lemma moves_bind {A B} (m : K A) (f : A → K B) : moves R m → (∀ a, moves R (f a)) → moves R (m ≫= f).
Proof.
  intros Hm Hf k. unfold mbind, st_bind. specialize (Hm k). destruct (m k) as [[a|e|] k1]; [|done..].
  etrans; [exact Hm|]. apply Hf.
Qed.
Lemma moves_lift_bind {A B} (r : NativeResult A) (f : A → K B) :
  (∀ a, r = Ok a → moves R (f a)) → moves R (lift r ≫= f).
Proof. intros Hf k. destruct r as [a|e|]; [by apply Hf|reflexivity..]. Qed.
Lemma moves_forM {A} (f : A → K unit) l : (∀ x, moves R (f x)) → moves R (forM f l).
Proof.
  intros Hf. induction l as [|x l IH]; simpl; [apply moves_mret|]. by apply moves_bind.
Qed.
End moves.

(** Splits an operation into its steps; what remains are assignments. *)
Ltac moves_steps :=
  repeat first
    [ apply moves_reads; [apply _] | apply moves_gets; [apply _] | apply moves_lift; [apply _]
    | apply moves_mret; [apply _]
    | apply moves_bind; [apply _| |intros ?]
    | apply moves_forM; [apply _|intros ?]
    | match goal with
      | |- moves _ (match ?x with _ => _ end) => destruct x
      | |- moves _ (let _ := _ in _) => cbv zeta
      end
    | progress unfold upd
    | apply moves_modify; intros ? ].

(** The generation table, the branches and the root are untouched. *)
Definition steady (k k' : TableauKernel) : Prop :=
  generations (state k') = generations (state k) ∧ branches k' = branches k ∧
  operation_root k' = operation_root k.

#[global] Instance steady_preorder : PreOrder steady.
Proof. split; [done|]. intros k1 k2 k3 (? & ? & ?) (? & ? & ?). split_and!; congruence. Qed.

Lemma steady_merge_nodes_inner left right dep : moves steady (merge_nodes_inner left right dep).
Proof.
  unfold merge_nodes_inner. by moves_steps.
Qed.

Lemma steady_prune_subtree_inner root : moves steady (prune_subtree_inner root).
Proof.
  unfold prune_subtree_inner. by moves_steps.
Qed.

(** ** Transactions *)

Lemma list_fmap_max_id (g : list N) : max_generations g g = g.
Proof. induction g as [|x g IH]; simpl; [done|]. by rewrite IH, N.max_id. Qed.

(** Restoring a state over its own generation table changes nothing. *)
Lemma restore_state_id hi s : arena_ok hi s → restore_state (generations s) s = s.
Proof.
  intros Ha. unfold restore_state. pose proof (arena_length _ _ Ha) as Hl.
  assert (∀ {X} (l : list X) n x, (n <= length l)%nat → resize_up l n x = l) as Hup.
  { intros X l n x Hn. unfold resize_up. replace (n - length l)%nat with 0%nat by lia. by rewrite app_nil_r. }
  rewrite !Hup by lia. rewrite list_fmap_max_id, <-(arena_free _ _ Ha). by destruct s.
Qed.

Lemma atomic_cases {A} (m : K A) k r k' :
  atomic m k = (r, k') →
  ∃ k1, m k = (r, k1) ∧ k' = match r with Err _ => restore (snapshot k) k1 | _ => k1 end.
Proof.
  unfold atomic. destruct (m k) as [[a|e|] k1]; intros [= <- <-]; eauto.
Qed.

(** A failed transaction that allocates nothing leaves the state, the branches
    and the trail exactly as they were. *)
Lemma atomic_rollback {A} hi (m : K A) k e k' :
  moves steady m → arena_ok hi (state k) → atomic m k = (Err e, k') →
  state k' = state k ∧ branches k' = branches k ∧ operation_root k' = operation_root k ∧
  trail_length k' = trail_length k.
Proof.
  intros Hm Ha (k1 & Hk1 & ->)%atomic_cases. specialize (Hm k) as (Hg & Hb & Hr). rewrite Hk1 in *. cbn in *.
  split_and!; [|done|done|done]. rewrite Hg. by eapply restore_state_id.
Qed.

(** Any failed transaction that keeps the branches leaves a well-formed kernel. *)
Lemma wf_atomic_error {A} (m : K A) k e k' :
  moves steady m → wf k → atomic m k = (Err e, k') → wf k'.
Proof.
  intros Hm Hk H. pose proof (state_arena _ _ (wf_state _ Hk)) as Ha.
  destruct (atomic_rollback _ _ _ _ _ Hm Ha H) as (Hs & Hb & Hr & Ht).
  destruct Hk as [H1 H2 H3 H4 H5 H6]. split; rewrite ?Hs, ?Hb, ?Hr, ?Ht; try done.
  unfold top, highest_branch_level. by rewrite Hb.
Qed.

Lemma keeps_merge_nodes_inner left right dep k t k' :
  state_ok (top k) (state k) → canonical dep → dep_bounded (top k) dep →
  merge_nodes_inner left right dep k = (Ok t, k') → kframe k k' ∧ state_ok (top k) (state k').
Proof.
  intros Hk Hc Hb H. destruct (merge_nodes_inner_Ok _ _ _ _ _ _ Hk Hc Hb H) as (l & dl & r & dr & _ & _ & Hm).
  cbv zeta in Hm. case_decide; [by destruct Hm as [_ ->]|]. destruct Hm as (s & _ & []). done.
Qed.

Lemma merge_nodes_split left right dep k r k' :
  merge_nodes left right dep k = (r, k') →
  (validate_dependency dep k = Ok tt ∧ atomic (merge_nodes_inner left right dep) k = (r, k')) ∨
  (k' = k ∧ ∃ e, r = Err e ∧ validate_dependency dep k = Err e).
Proof.
  unfold merge_nodes, mbind, st_bind, reads. intros H.
  destruct (validate_dependency dep k) as [[]|e|] eqn:E; [by left| |].
  - right. injection H as <- <-. eauto.
  - exfalso. revert E. unfold validate_dependency. apply reject_if_not_crash.
Qed.

Lemma preserves_merge_nodes left right dep : canonical dep → preserves (merge_nodes left right dep).
Proof.
  intros Hc k t k' Hk [[Hv H]|(_ & e & ? & _)]%merge_nodes_split; [|done].
  apply atomic_cases in H as (k1 & H & ->).
  destruct (keeps_merge_nodes_inner _ _ _ _ _ _ (wf_state _ Hk) Hc (validate_dependency_bounded _ _ _ Hc Hv) H).
  by eapply wf_frame.
Qed.

Lemma preserves_merge_in_transaction left right dep :
  canonical dep → preserves (merge_nodes_in_transaction left right dep).
Proof.
  intros Hc k t k' Hk H. unfold merge_nodes_in_transaction in H.
  apply st_bind_Ok in H as ([] & ? & [Hv ->]%reads_Ok & H).
  destruct (keeps_merge_nodes_inner _ _ _ _ _ _ (wf_state _ Hk) Hc (validate_dependency_bounded _ _ _ Hc Hv) H).
  by eapply wf_frame.
Qed.

Lemma keeps_prune_subtree_inner root : keeps (prune_subtree_inner root).
Proof. intros k hs k' Hk H. by destruct (prune_subtree_inner_Ok _ _ _ _ Hk H). Qed.

Lemma preserves_prune_in_transaction root : preserves (prune_subtree_in_transaction root).
Proof.
  apply keeps_preserves. unfold prune_subtree_in_transaction.
  apply keeps_bind; [apply keeps_reads|intros _; apply keeps_prune_subtree_inner].
Qed.

Lemma preserves_prune_subtree root : preserves (prune_subtree root).
Proof.
  intros k hs k' Hk H. unfold prune_subtree in H. apply st_bind_Ok in H as (n & ? & [_ ->]%reads_Ok & H).
  apply atomic_cases in H as (k1 & H & ->). by eapply (keeps_preserves _ (keeps_prune_subtree_inner root)).
Qed.

Lemma preserves_push_reuse root pid sups base :
  canonical base → preserves (push_existential_reuse_branch root pid sups base).
Proof.
  intros Hc k lvl k' Hk H. unfold push_existential_reuse_branch in H.
  apply st_bind_Ok in H as (n & ? & [_ ->]%reads_Ok & H).
  apply st_bind_Ok in H as (? & ? & [_ ->]%lift_Ok & H).
  apply st_bind_Ok in H as (? & ? & [_ ->]%reads_Ok & H). cbv zeta in H.
  apply st_bind_Ok in H as (? & ? & [_ ->]%reads_Ok & H).
  apply st_bind_Ok in H as (? & ? & [-> ->]%gets_Ok & H).
  apply st_bind_Ok in H as (? & ? & [_ ->]%lift_Ok & H).
  apply st_bind_Ok in H as (? & ? & [_ ->]%lift_Ok & H).
  apply st_bind_Ok in H as ([] & k1 & [Hf1 Hs1]%upd_frame & H).
  apply st_bind_Ok in H as ([] & k2 & [Hf2 Hs2]%record_mutation_frame & H).
  assert (wf k2) as Hk2.
  { eapply wf_frame; [done|by etrans|]. rewrite Hs2, Hs1. pose proof (wf_state _ Hk) as Hst. revert Hst.
    generalize (top k) (state k). intros hi s. state_frame s. }
  destruct (push_branch "merge" [0; 1] pid base k2) as [[l|e|] k3] eqn:E; [|done..].
  case_bool_decide; [|done]. injection H as <- <-. by eapply preserves_push_branch.
Qed.

(** ** Branch operations always answer *)

Lemma restore_tables snap k :
  length (generations (cp_state snap)) = length (nodes (cp_state snap)) →
  length (generations (state (restore snap k))) = length (nodes (state (restore snap k))).
Proof. intros Hl. unfold restore, restore_state; cbn. rewrite length_max_generations, !length_resize_up. lia. Qed.

Lemma snapshot_tables k i b :
  wf k → branches k !! i = Some b → length (generations (cp_state (b_snapshot b))) = length (nodes (cp_state (b_snapshot b))).
Proof. intros Hk Hb. apply (arena_length _ _ (state_arena _ _ (branch_snapshot _ _ (wf_branches _ Hk _ _ Hb)))). Qed.

Lemma backtrack_to_returns lvl k : wf k → (backtrack_to lvl k).1 ≠ Crash.
Proof.
  intros Hk. unfold backtrack_to, mbind, st_bind, reads, modify, branch.
  destruct (branches k !! N.to_nat lvl) as [b|] eqn:E; [|done]. simpl.
  apply check_invariants_not_crash. cbn. apply (restore_tables (b_snapshot b) k). by eapply snapshot_tables.
Qed.

Lemma advance_branch_returns lvl learned k : wf k → (advance_branch lvl learned k).1 ≠ Crash.
Proof.
  intros Hk. unfold advance_branch. unfold mbind at 1, st_bind at 1.
  pose proof (backtrack_to_returns lvl k Hk) as Hr. destruct (backtrack_to lvl k) as [[[]|e|] k1] eqn:E; [|done..].
  pose proof (preserves_backtrack_to _ _ _ _ Hk E) as Hk1.
  unfold mbind, st_bind, reads, modify, lift.
  destruct (branches k1 !! N.to_nat lvl) as [b|] eqn:Hb; [|done]. cbn.
  destruct (checked_add _ _ _); [|done]. cbn.
  destruct (length (alternatives b) <=? S (next_alternative b))%nat eqn:El; [done|]. apply Nat.leb_gt in El.
  unfold index_or_crash. apply lookup_lt_is_Some in El as [x Hx]. cbn. rewrite Hx.
  pose proof (check_invariants_not_crash (k1 <| branches ::= <[N.to_nat lvl := b <| base_dependency := initial_base_dependency b |>
    <| learned_dependency := Dep.union [learned_dependency b; learned] |>]> |>
    <| branches ::= <[N.to_nat lvl := b <| base_dependency := initial_base_dependency b |>
    <| learned_dependency := Dep.union [learned_dependency b; learned] |> <| next_alternative := S (next_alternative b) |>]> |>)) as Hc.
  specialize (Hc (arena_length _ _ (state_arena _ _ (wf_state _ Hk1)))). cbn in Hc.
  by destruct (check_invariants _).
Qed.

Lemma reset_returns k :
  length (generations (cp_state (operation_root k))) = length (nodes (cp_state (operation_root k))) →
  (reset_to_operation_root k).1 ≠ Crash.
Proof.
  intros Hl. unfold reset_to_operation_root, mbind, st_bind, reads, modify, gets, id.
  apply check_invariants_not_crash. by apply (restore_tables (operation_root k) k).
Qed.

(** [returns m]: [m] comes back with a value or an error from every kernel. *)
Definition returns {A} (m : K A) : Prop := ∀ k, (m k).1 ≠ Crash.

Lemma returns_bind {A B} (m : K A) (f : A → K B) : returns m → (∀ a, returns (f a)) → returns (m ≫= f).
Proof.
  intros Hm Hf k. unfold mbind, st_bind. specialize (Hm k). destruct (m k) as [[a|e|] k1]; [apply Hf|done|done].
Qed.

Lemma returns_reads {A} (f : TableauKernel → NativeResult A) : (∀ k, f k ≠ Crash) → returns (reads f).
Proof. intros Hf k. apply Hf. Qed.

Lemma returns_lift {A} (r : NativeResult A) : r ≠ Crash → returns (lift r).
Proof. intros Hr k. apply Hr. Qed.

Lemma returns_mret {A} (a : A) : returns (mret a).
Proof. done. Qed.

Lemma validate_dependency_not_crash d k : validate_dependency d k ≠ Crash.
Proof. apply reject_if_not_crash. Qed.

Lemma record_mutation_returns : returns record_mutation.
Proof.
  unfold record_mutation. apply returns_bind; [done|]. intros k.
  apply returns_bind; [apply returns_lift, ok_or_not_crash|done].
Qed.

Lemma install_clash_returns kind d ps p : returns (install_clash kind d ps p).
Proof.
  unfold install_clash. do 2 (apply returns_bind; [apply returns_lift, reject_if_not_crash|intros _]).
  apply returns_bind; [apply returns_reads, validate_dependency_not_crash|intros _]. cbv zeta.
  apply returns_bind; [done|]. intros c. destruct (match c with _ => _ end); [done|].
  apply returns_bind; [done|]. intros _. apply returns_bind; [apply record_mutation_returns|done].
Qed.
