(* ===== verification/Totality.v ===== *)
(** * Sequences of kernel operations

    The public mutators of [TableauKernel] as data, executed one after another.
    Every reachable kernel is well formed, and a handle is never issued twice,
    whatever was retired, backtracked or rolled back in between. *)

From S2P Require Import Prelude Order Errors Model Queue Store Kernel KernelBase Arena Facts FactOps StateInv NodeOps Merge Prune KernelInv.
Import Kernel.

Inductive operation :=
| OpBegin
| OpCreateNode (kind : NodeKind) (parent : option NodeHandle) (named : bool) (sid nominal tag : option N)
| OpRetireNode (h : NodeHandle)
| OpAddFact (pid : N) (args : list NodeHandle) (dep : DependencySet) (is_core : bool) (p : option N)
| OpDeactivateFact (rid : N)
| OpPrepareNextDelta
| OpAddDisjunction (ids : list N) (dep : DependencySet)
| OpStrengthenDisjunction (did : N) (dep : DependencySet)
| OpTakeDisjunction
| OpInstallClash (kind : string) (dep : DependencySet) (participants : list N) (p : option N)
| OpPushBranch (kind : string) (alts : list N) (sid : N) (base : DependencySet)
| OpBacktrackTo (lvl : N)
| OpAdvanceBranch (lvl : N) (learned : DependencySet)
| OpReset
| OpSetBlocked (h : NodeHandle) (blocker : option NodeHandle) (directly : bool)
| OpMarkExistential (h : NodeHandle) (eid : N) (pending : bool)
| OpMerge (left right : NodeHandle) (dep : DependencySet)
| OpPrune (root : NodeHandle)
| OpEnqueueInteger (queue : string) (value : N) (priority : list Z)
| OpEnqueueNode (queue : string) (value : NodeHandle) (priority : list Z)
| OpTakeInteger (queue : string)
| OpTakeExistential
| OpSetReuseNode (filler : N) (h : NodeHandle)
| OpRemoveReuseNode (filler : N)
| OpSetReuseDisabled (pid : N) (disabled : bool)
| OpPushReuseBranch (root : NodeHandle) (pid : N) (sups : list DependencySet) (base : DependencySet)
| OpRemoveReuseBranch (lvl : N).

(** Runs an operation; the result is the list of node handles it issued. *)
Definition quiet {A} (m : K A) : K (list NodeHandle) := _ ← m; mret [].

Definition perform (op : operation) : K (list NodeHandle) :=
  match op with
  | OpBegin => quiet begin_operation
  | OpCreateNode kind parent named sid nominal tag =>
      h ← create_node kind parent named sid nominal tag; mret [h]
  | OpRetireNode h => quiet (retire_node h)
  | OpAddFact pid args dep c p => quiet (add_fact pid args dep c p)
  | OpDeactivateFact rid => quiet (deactivate_fact rid)
  | OpPrepareNextDelta => quiet prepare_next_delta
  | OpAddDisjunction ids dep => quiet (add_disjunction ids dep)
  | OpStrengthenDisjunction did dep => quiet (strengthen_disjunction did dep)
  | OpTakeDisjunction => quiet take_disjunction
  | OpInstallClash kind dep ps p => quiet (install_clash kind dep ps p)
  | OpPushBranch kind alts sid base => quiet (push_branch kind alts sid base)
  | OpBacktrackTo lvl => quiet (backtrack_to lvl)
  | OpAdvanceBranch lvl learned => quiet (advance_branch lvl learned)
  | OpReset => quiet reset_to_operation_root
  | OpSetBlocked h b d => quiet (set_blocked h b d)
  | OpMarkExistential h e p => quiet (mark_existential h e p)
  | OpMerge l r dep => quiet (merge_nodes l r dep)
  | OpPrune root => quiet (prune_subtree root)
  | OpEnqueueInteger q v p => quiet (enqueue_integer q v p)
  | OpEnqueueNode q v p => quiet (enqueue_node q v p)
  | OpTakeInteger q => quiet (take_integer q)
  | OpTakeExistential => quiet take_existential_candidate
  | OpSetReuseNode f h => quiet (set_existential_reuse_node f h)
  | OpRemoveReuseNode f => quiet (remove_existential_reuse_node f)
  | OpSetReuseDisabled pid d => quiet (set_existential_reuse_disabled pid d)
  | OpPushReuseBranch root pid sups base => quiet (push_existential_reuse_branch root pid sups base)
  | OpRemoveReuseBranch lvl => quiet (remove_existential_reuse_branch lvl)
  end.

(** [DependencySet] has no public field: every value of it is canonical. *)
Definition op_ok (op : operation) : Prop :=
  match op with
  | OpAddFact _ _ d _ _ | OpAddDisjunction _ d | OpStrengthenDisjunction _ d | OpInstallClash _ d _ _
  | OpPushBranch _ _ _ d | OpMerge _ _ d | OpPushReuseBranch _ _ _ d => canonical d
  | _ => True
  end.

(** ** Reachable kernels *)

(** The operations that run inside [atomic]. *)
Definition transactional (op : operation) : bool :=
  match op with OpMerge _ _ _ | OpPrune _ => true | _ => false end.

Inductive reachable : TableauKernel → Prop :=
| reachable_new : reachable TableauKernel_new
| reachable_step op k hs k' :
    reachable k → op_ok op → perform op k = (Ok hs, k') → reachable k'
| reachable_rollback op k e k' :
    reachable k → op_ok op → transactional op = true → perform op k = (Err e, k') → reachable k'.

Lemma preserves_quiet {A} (m : K A) : preserves m → preserves (quiet m).
Proof.
  intros Hm k hs k' Hk H. unfold quiet in H. apply st_bind_Ok in H as (a & k1 & H & [_ ->]%mret_Ok).
  by eapply Hm.
Qed.

Lemma perform_preserves op : op_ok op → preserves (perform op).
Proof.
  destruct op; intros Hop; cbn [perform]; cbn in Hop;
    try (apply preserves_quiet);
    auto using preserves_begin_operation, preserves_strengthen_disjunction, preserves_push_branch,
      preserves_backtrack_to, preserves_advance_branch, preserves_reset, preserves_merge_nodes,
      preserves_prune_subtree, preserves_push_reuse;
    apply keeps_preserves;
    auto using keeps_retire_node, keeps_add_fact, keeps_deactivate_fact, keeps_prepare_next_delta,
      keeps_add_disjunction, keeps_take_disjunction, keeps_install_clash, keeps_set_blocked,
      keeps_mark_existential, keeps_enqueue_integer, keeps_enqueue_node, keeps_take_integer,
      keeps_take_existential_candidate, keeps_set_reuse_node, keeps_remove_reuse_node,
      keeps_set_reuse_disabled, keeps_remove_reuse_branch.
  apply keeps_bind; [apply keeps_create_node|intros; apply keeps_mret].
Qed.

Lemma quiet_Err {A} (m : K A) k e k' : quiet m k = (Err e, k') → m k = (Err e, k').
Proof. unfold quiet, mbind, st_bind. destruct (m k) as [[a|e'|] k1]; naive_solver. Qed.

Lemma rollback_preserves op k e k' :
  transactional op = true → wf k → perform op k = (Err e, k') → wf k'.
Proof.
  destruct op; try done; intros _ Hk H%quiet_Err; cbn in H.
  - apply merge_nodes_split in H as [[_ H]|[-> _]]; [|done].
    eapply wf_atomic_error; [apply steady_merge_nodes_inner|done|done].
  - unfold prune_subtree, mbind, st_bind, reads in H.
    destruct (require_active root k) as [n|e'|]; [|by injection H as _ <-|done].
    eapply wf_atomic_error; [apply steady_prune_subtree_inner|done|done].
Qed.

Lemma reachable_wf k : reachable k → wf k.
Proof.
  induction 1 as [|op k hs k' _ IH Hop H|op k e k' _ IH _ Ht H]; [apply wf_new| |].
  - by eapply perform_preserves.
  - by eapply rollback_preserves.
Qed.

(** ** Handles are never reissued *)

(** The generation table only grows, slot by slot. *)
Definition gens_le (k k' : TableauKernel) : Prop :=
  ∀ i g, generations (state k) !! i = Some g → ∃ g', generations (state k') !! i = Some g' ∧ g ≤ g'.

#[global] Instance gens_le_preorder : PreOrder gens_le.
Proof.
  split; [intros k i g Hg; eauto using N.le_refl|].
  intros k1 k2 k3 H12 H23 i g Hg. destruct (H12 _ _ Hg) as (g2 & Hg2 & ?).
  destruct (H23 _ _ Hg2) as (g3 & Hg3 & ?). exists g3. split; [done|lia].
Qed.

Lemma gens_le_same k k' : generations (state k') = generations (state k) → gens_le k k'.
Proof. intros E i g Hg. rewrite E. eauto using N.le_refl. Qed.

Lemma gens_le_restore snap k bs : gens_le k (restore snap k <| branches := bs |>).
Proof. intros i g Hg. cbn. by apply max_generations_current. Qed.

Lemma moves_atomic {A} (m : K A) : moves gens_le m → moves gens_le (atomic m).
Proof.
  intros Hm k. unfold atomic. specialize (Hm k). destruct (m k) as [[a|e|] k1]; [done| |done].
  etrans; [exact Hm|]. apply (gens_le_restore _ k1 (branches k1)).
Qed.

Lemma moves_weaken {A} (R1 R2 : relation TableauKernel) (m : K A) :
  (∀ k k', R1 k k' → R2 k k') → moves R1 m → moves R2 m.
Proof. intros HR Hm k. apply HR, Hm. Qed.

Lemma steady_gens_le k k' : steady k k' → gens_le k k'.
Proof. intros [E _]. by apply gens_le_same. Qed.

(** Assignments that leave the table alone. *)
Ltac gens_steps := moves_steps; by apply gens_le_same.

Lemma gens_bump index err (rest : N → N → K NodeHandle) :
  (∀ a b, moves gens_le (rest a b)) →
  moves gens_le (old ← reads (λ k, index_or_crash (generations (state k)) index);
    generation ← lift (ok_or (checked_add u32_max old 1) err);
    _ ← upd (λ s, s <| generations ::= <[index := generation]> |>);
    rest old generation).
Proof.
  intros Hrest k. unfold mbind, st_bind, reads, lift, upd, modify, index_or_crash.
  destruct (generations (state k) !! index) as [old|] eqn:E; [|reflexivity].
  destruct (checked_add u32_max old 1) as [g|] eqn:Eg; [|reflexivity]. cbn [ok_or].
  apply checked_add_Some in Eg as [-> _]. etrans; [|apply Hrest]. intros i g Hg. cbn.
  destruct (decide (index = i)) as [<-|Hne].
  - rewrite list_lookup_insert_eq by (by eapply lookup_lt_Some). simplify_eq. eexists. split; [done|lia].
  - rewrite list_lookup_insert_ne by done. eauto using N.le_refl.
Qed.

Lemma gens_create_node kind parent named sid nominal tag :
  moves gens_le (create_node kind parent named sid nominal tag).
Proof.
  unfold create_node. apply moves_bind; [apply _|apply moves_reads, _|intros depth].
  apply moves_bind; [apply _|apply moves_lift, _|intros _].
  apply moves_bind; [apply _|apply moves_gets, _|intros s].
  apply moves_bind; [apply _| |intros x].
  - destruct (btree_pop_first _) as [[x rest]|]; [gens_steps|].
    moves_steps; intros i g Hg; cbn; [eauto using N.le_refl|].
    exists g. split; [by apply lookup_app_l_Some|done].
  - cbv zeta. apply gens_bump. intros old g. gens_steps.
Qed.

Lemma gens_backtrack_to lvl : moves gens_le (backtrack_to lvl).
Proof.
  unfold backtrack_to. moves_steps; [|by apply gens_le_same].
  by apply (gens_le_restore _ _ (branches _)).
Qed.

Lemma gens_take_disjunction : moves gens_le take_disjunction.
Proof.
  unfold take_disjunction. apply moves_bind; [apply _|apply moves_gets, _|]. intros q.
  induction (S (size (entries q))) as [|fuel IH]; cbn [take_disjunction_loop]; [apply moves_lift, _|].
  apply moves_bind; [apply _|apply moves_gets, _|]. intros q'. destruct (Queue.pop q') as [[v q1]|]; [|apply moves_mret, _].
  do 2 (apply moves_bind; [apply _|gens_steps|intros ?]). destruct v; [|apply moves_lift, _].
  apply moves_bind; [apply _|apply moves_reads, _|]. intros d. destruct (_ || _); [apply IH|gens_steps].
Qed.

Lemma gens_push_reuse root pid sups base : moves gens_le (push_existential_reuse_branch root pid sups base).
Proof.
  unfold push_existential_reuse_branch.
  do 9 (apply moves_bind; [apply _|by gens_steps|intros ?; cbv zeta]).
  intros k. assert (moves gens_le (push_branch "merge" [0; 1] pid base)) as Hp by gens_steps.
  specialize (Hp k). destruct (push_branch _ _ _ _ k) as [[l|e|] k1]; [|etrans; [exact Hp|]|done].
  - case_bool_decide; [done|]. etrans; [exact Hp|]. apply (gens_le_restore _ k1 (branches k1)).
  - apply (gens_le_restore _ k1 (branches k1)).
Qed.

(** Writing a queue back leaves the table alone. *)
Lemma queue_gens queue sel q s :
  integer_queue queue = Some sel ∨ node_queue queue = Some sel → generations (sel.2 q s) = generations s.
Proof. unfold integer_queue, node_queue. by intros [H|H]; repeat case_bool_decide; simplify_eq. Qed.

Lemma gens_enqueue_into queue sel v p :
  integer_queue queue = Some sel ∨ node_queue queue = Some sel → moves gens_le (enqueue_into sel v p).
Proof.
  intros Hq. unfold enqueue_into. moves_steps; apply gens_le_same; [|done]. cbn. by eapply queue_gens.
Qed.

Lemma gens_enqueue_integer queue v p : moves gens_le (enqueue_integer queue v p).
Proof.
  unfold enqueue_integer. apply moves_lift_bind; [apply _|]. intros sel Hsel%ok_or_Ok.
  apply (gens_enqueue_into queue). by left.
Qed.

Lemma gens_enqueue_node queue v p : moves gens_le (enqueue_node queue v p).
Proof.
  unfold enqueue_node. apply moves_bind; [apply _|apply moves_reads, _|]. intros _.
  apply moves_lift_bind; [apply _|]. intros sel Hsel%ok_or_Ok. apply (gens_enqueue_into queue). by right.
Qed.

Lemma gens_take_integer queue : moves gens_le (take_integer queue).
Proof.
  unfold take_integer. apply moves_lift_bind; [apply _|]. intros sel Hsel%ok_or_Ok.
  moves_steps; apply gens_le_same; [|done]. cbn. eapply queue_gens. by left.
Qed.

Lemma gens_perform op : moves gens_le (perform op).
Proof.
  destruct op; cbn [perform]; unfold quiet;
    try solve [gens_steps];
    (apply moves_bind; [apply _| |intros; apply moves_mret, _]).
  - apply gens_create_node.
  - apply gens_take_disjunction.
  - apply gens_backtrack_to.
  - unfold advance_branch. apply moves_bind; [apply _|apply gens_backtrack_to|]. intros ?. gens_steps.
  - unfold reset_to_operation_root. moves_steps; [|by apply gens_le_same].
    by apply (gens_le_restore _ _ (branches _)).
  - unfold merge_nodes. apply moves_bind; [apply _|apply moves_reads, _|]. intros _. apply moves_atomic.
    eapply moves_weaken; [apply steady_gens_le|apply steady_merge_nodes_inner].
  - unfold prune_subtree. apply moves_bind; [apply _|apply moves_reads, _|]. intros _. apply moves_atomic.
    eapply moves_weaken; [apply steady_gens_le|apply steady_prune_subtree_inner].
  - apply gens_enqueue_integer.
  - apply gens_enqueue_node.
  - apply gens_take_integer.
  - apply gens_push_reuse.
Qed.

(** [history hs k]: some sequence of operations, successful or not, leads from
    a new kernel to [k], and [hs] are the handles it issued. *)
Inductive history : list NodeHandle → TableauKernel → Prop :=
| history_new : history [] TableauKernel_new
| history_step hs op k r k' :
    history hs k → perform op k = (r, k') →
    history (match r with Ok issued => issued ++ hs | _ => hs end) k'.

Lemma perform_issued op k hs k' :
  perform op k = (Ok hs, k') →
  hs = [] ∨ ∃ h g, hs = [h] ∧ generations (state k') !! N.to_nat (slot h) = Some (generation h) ∧
    (generations (state k) !! N.to_nat (slot h) = Some g ∧ g < generation h ∨
     generations (state k) !! N.to_nat (slot h) = None).
Proof.
  intros H. destruct op;
    try (left; cbn [perform] in H; unfold quiet in H; by apply st_bind_Ok in H as (? & ? & _ & [-> _]%mret_Ok)).
  right. cbn [perform] in H. apply st_bind_Ok in H as (h & k1 & H & [-> ->]%mret_Ok).
  apply create_node_Ok in H. unfold arena_slot in H.
  destruct (btree_pop_first (free_slots (state k))) as [[x rest]|];
    destruct H as (depth & g & _ & Hg & _ & _ & _ & _ & -> & _ & ->); eexists (mkHandle _ (g + 1)), g;
    (split; [done|]); cbn; rewrite Nat2N.id; (split; [by rewrite list_lookup_insert_eq by (by eapply lookup_lt_Some)|]).
  - left. split; [done|lia].
  - apply lookup_app_Some in Hg as [Hg|[Hge _]]; [left; split; [done|lia]|].
    destruct (generations (state k) !! length (nodes (state k))) as [g0|] eqn:E; [|by right].
    apply lookup_lt_Some in E. lia.
Qed.

Definition bounded_by (k : TableauKernel) (h : NodeHandle) : Prop :=
  ∃ g, generations (state k) !! N.to_nat (slot h) = Some g ∧ generation h ≤ g.

Lemma history_fresh hs k : history hs k → NoDup hs ∧ ∀ h, h ∈ hs → bounded_by k h.
Proof.
  induction 1 as [|hs op k r k' _ [IH1 IH2] H]; [split; [constructor|set_solver]|].
  assert (∀ h, h ∈ hs → bounded_by k' h) as Hold.
  { intros h (g & Hg & Hle)%IH2. pose proof (gens_perform op k _ _ Hg) as (g' & Hg' & ?).
    rewrite H in Hg'. exists g'. split; [done|lia]. }
  destruct r as [issued|e|]; [|done..].
  destruct (perform_issued _ _ _ _ H) as [->|(h & g & -> & Hh & Hnew)]; [done|]. simpl. split.
  - constructor; [|done]. intros (g' & Hg' & Hle)%IH2. destruct Hnew as [[Hg ?]|Hg]; rewrite Hg in Hg'; [|done].
    simplify_eq. lia.
  - intros h' [->|?]%elem_of_cons; [|by apply Hold]. exists (generation h). split; [done|lia].
Qed.

(** * No operation of the kernel panics

    An out-of-range index and a loop that runs out of fuel are the outcome
    [Crash] of the model.  Every public operation on a well-formed kernel comes
    back with a value or an error. *)

Import Kernel.

Lemma returns_gets {A} (f : TableauKernel → A) : returns (gets f).
Proof. done. Qed.

Lemma returns_modify f : returns (modify f).
Proof. done. Qed.

Lemma returns_upd f : returns (upd f).
Proof. done. Qed.

Lemma returns_forM {A} (f : A → K unit) l : (∀ x, returns (f x)) → returns (forM f l).
Proof.
  intros Hf. induction l as [|x l IH]; [done|]. cbn [forM]. apply returns_bind; [apply Hf|intros _; exact IH].
Qed.

Lemma bump_sequence_returns : returns bump_sequence.
Proof.
  unfold bump_sequence. apply returns_bind; [done|]. intros k.
  apply returns_bind; [apply returns_lift, ok_or_not_crash|done].
Qed.

Lemma node_index_not_crash h k : node_index h k ≠ Crash.
Proof. unfold node_index. by repeat case_match. Qed.

Lemma fact_not_crash rid k : fact rid k ≠ Crash.
Proof. apply ok_or_not_crash. Qed.

Lemma disjunction_not_crash did k : disjunction did k ≠ Crash.
Proof. apply ok_or_not_crash. Qed.

(** Splits an operation into its steps and closes those that always return. *)
Ltac returns_steps :=
  repeat first
    [ apply returns_gets | apply returns_modify | apply returns_upd | apply returns_mret
    | apply record_mutation_returns | apply bump_sequence_returns | apply install_clash_returns
    | apply returns_lift;
      first [apply reject_if_not_crash | apply ok_or_not_crash | discriminate]
    | apply returns_reads; intros ?;
      first [ apply validate_dependency_not_crash | apply require_active_not_crash | apply require_node_not_crash
            | apply representative_not_crash | apply node_index_not_crash | apply fact_not_crash
            | apply disjunction_not_crash | apply ok_or_not_crash ]
    | apply returns_forM; intros ?
    | apply returns_bind; [|intros ?]
    | match goal with
      | |- returns (match ?x with _ => _ end) => destruct x
      | |- returns (let _ := _ in _) => cbv zeta
      end ].

(** ** Facts *)

Lemma canonical_arguments_not_crash args k : canonical_arguments args k ≠ Crash.
Proof.
  unfold canonical_arguments. induction args as [|a args IH]; [done|]. cbn [collectM].
  apply bind_not_crash; [|intros r _; apply bind_not_crash; [done|done]].
  apply bind_not_crash; [apply representative_not_crash|]. intros r _.
  apply bind_not_crash; [apply require_active_not_crash|done].
Qed.

Lemma add_fact_detailed_returns pid args d c p : returns (add_fact_detailed pid args d c p).
Proof.
  unfold add_fact_detailed, update_existing_fact, insert_new_fact.
  do 3 (apply returns_bind; [by returns_steps|intros _]).
  apply returns_bind; [apply returns_reads, canonical_arguments_not_crash|intros resolved]. cbv zeta.
  by returns_steps.
Qed.

Lemma add_fact_returns pid args d c p : returns (add_fact pid args d c p).
Proof. unfold add_fact. apply returns_bind; [apply add_fact_detailed_returns|done]. Qed.

(** The loops over the indexes leave the rows alone. *)
Definition same_facts (k k' : TableauKernel) : Prop := facts (state k') = facts (state k).

#[global] Instance same_facts_preorder : PreOrder same_facts.
Proof. split; [done|]. intros k1 k2 k3 H12 H23. unfold same_facts in *. congruence. Qed.

(** A step that returns and respects [R], followed by one that returns where [R] leads. *)
Lemma bind_returns_at {A B} (R : relation TableauKernel) (m : K A) (f : A → K B) k :
  (m k).1 ≠ Crash → moves R m → (∀ a k', m k = (Ok a, k') → R k k' → (f a k').1 ≠ Crash) →
  ((m ≫= f) k).1 ≠ Crash.
Proof.
  intros Hm HR Hf. unfold mbind, st_bind. specialize (HR k). destruct (m k) as [[a|e|] k'] eqn:E; [|done..].
  by apply Hf.
Qed.

Lemma remove_from_index_returns `{Countable Key} (index : MutableState → gmap Key (gset N)) assign key rid e :
  returns (remove_from_index index assign key rid e).
Proof. unfold remove_from_index. by returns_steps. Qed.

Lemma deactivate_fact_returns rid : returns (deactivate_fact rid).
Proof.
  intros k. unfold deactivate_fact. unfold mbind at 1, st_bind at 1, reads at 1.
  destruct (fact rid k) as [row|e|] eqn:Hrow; [|done|by apply fact_not_crash in Hrow].
  unfold fact in Hrow. apply ok_or_Ok in Hrow. destruct (negb (active row)); [done|]. cbv zeta.
  eapply (bind_returns_at same_facts); [done|by moves_steps|]. intros _ k1 _ H1.
  eapply (bind_returns_at same_facts); [apply remove_from_index_returns|unfold remove_from_index; by moves_steps|].
  intros _ k2 _ H2. eapply (bind_returns_at same_facts).
  { apply returns_forM. intros pa. apply returns_bind; [by returns_steps|intros; apply remove_from_index_returns]. }
  { unfold remove_from_index. by moves_steps. }
  intros _ k3 _ H3. eapply (bind_returns_at same_facts).
  { apply returns_forM. intros h. apply remove_from_index_returns. }
  { unfold remove_from_index. by moves_steps. }
  intros _ k4 _ H4. unfold mbind at 1, st_bind at 1, reads, index_or_crash.
  unfold same_facts in *. rewrite H4, H3, H2, H1, Hrow.
  apply returns_bind; [done|intros _; apply record_mutation_returns].
Qed.

(** ** Nodes *)

(** The slot names a row of the arena. *)
Definition slot_exists (i : nat) (k : TableauKernel) : Prop := is_Some (nodes (state k) !! i).

Lemma node_index_exists h k i : node_index h k = Ok i → slot_exists i k.
Proof. intros [-> (n & Hn & _)]%node_index_Ok. by exists (Some n). Qed.

Lemma update_node_returns i e f k : slot_exists i k → (update_node i e f k).1 ≠ Crash.
Proof.
  intros [o Ho]. unfold update_node, mbind, st_bind, reads, index_or_crash, lift. rewrite Ho. cbn. by destruct o.
Qed.

Lemma update_node_exists i e f j k : slot_exists j k → slot_exists j (update_node i e f k).2.
Proof.
  intros Hj. unfold update_node, mbind, st_bind, reads, index_or_crash, lift, upd, modify.
  destruct (nodes (state k) !! i) as [o|]; [|done]. cbn. destruct o; [|done]. cbn. unfold slot_exists; cbn.
  apply lookup_lt_is_Some. rewrite length_insert. by apply lookup_lt_is_Some.
Qed.

Lemma bump_blocking_returns i e k : slot_exists i k → (bump_blocking i e k).1 ≠ Crash.
Proof.
  intros Hi. pose proof Hi as [o Ho]. unfold bump_blocking. unfold mbind at 1, st_bind at 1, reads, index_or_crash. rewrite Ho.
  destruct o as [n|]; [|done]. unfold mbind at 1, st_bind at 1, lift at 1. cbn [ok_or].
  unfold mbind at 1, st_bind at 1, lift at 1. destruct (checked_add _ _ _); [|done]. by apply update_node_returns.
Qed.

(** [node_index], then assignments to that node. *)
Lemma indexed_returns {A} h (rest : nat → K A) :
  (∀ i k, slot_exists i k → (rest i k).1 ≠ Crash) → returns (i ← reads (node_index h); rest i).
Proof.
  intros Hrest k. unfold mbind, st_bind, reads. destruct (node_index h k) as [i|e|] eqn:E; [|done|by apply node_index_not_crash in E].
  apply Hrest. by eapply node_index_exists.
Qed.

Lemma update_then_returns {A} i e f (rest : K A) k :
  slot_exists i k → (∀ k', slot_exists i k' → (rest k').1 ≠ Crash) → ((_ ← update_node i e f; rest) k).1 ≠ Crash.
Proof.
  intros Hi Hrest. pose proof (update_node_returns i e f k Hi) as Hr. pose proof (update_node_exists i e f i k Hi) as He.
  unfold mbind, st_bind. destruct (update_node i e f k) as [[a|e'|] k']; [by apply Hrest|done|done].
Qed.

Lemma bump_then_returns {A} i e (rest : K A) k :
  slot_exists i k → returns rest → ((_ ← bump_blocking i e; rest) k).1 ≠ Crash.
Proof.
  intros Hi Hrest. pose proof (bump_blocking_returns i e k Hi) as Hr.
  unfold mbind, st_bind. destruct (bump_blocking i e k) as [[a|e'|] k']; [by apply Hrest|done|done].
Qed.

(** Reading something first changes nothing. *)
Lemma reads_then_returns {A B} (f : TableauKernel → NativeResult A) (rest : A → K B) k :
  f k ≠ Crash → (∀ a, f k = Ok a → (rest a k).1 ≠ Crash) → ((a ← reads f; rest a) k).1 ≠ Crash.
Proof. intros Hf Hrest. unfold mbind, st_bind, reads. destruct (f k); [by apply Hrest|done|done]. Qed.

Lemma lift_then_returns {A B} (r : NativeResult A) (rest : A → K B) k :
  r ≠ Crash → (∀ a, (rest a k).1 ≠ Crash) → ((a ← lift r; rest a) k).1 ≠ Crash.
Proof. intros Hr Hrest. unfold mbind, st_bind, lift. destruct r; [by apply Hrest|done|done]. Qed.

Lemma set_blocked_returns h b d : returns (set_blocked h b d).
Proof.
  unfold set_blocked. apply indexed_returns. intros i k Hi.
  apply reads_then_returns; [apply require_active_not_crash|]. intros n _.
  apply lift_then_returns; [apply reject_if_not_crash|]. intros _.
  assert (∀ k, slot_exists i k → ((_ ← update_node i (NativeErr.invariant "blocked node disappeared")
    (λ n, n <| n_blocker := b |> <| n_directly_blocked := bool_decide (is_Some b) && d |>);
    _ ← bump_blocking i (NativeErr.invariant "blocked node disappeared"); record_mutation) k).1 ≠ Crash) as Hrest.
  { intros k' Hi'. apply update_then_returns; [done|]. intros k'' Hi''. apply bump_then_returns; [done|apply record_mutation_returns]. }
  destruct b as [v|]; [|by apply Hrest].
  unfold mbind at 1, st_bind at 1. unfold mbind at 1, st_bind at 1, reads.
  destruct (require_active v k) as [m|e|] eqn:E; [|done|by apply require_active_not_crash in E].
  unfold lift. destruct (reject_if _ _) as [[]|e|] eqn:E'; [by apply Hrest|done|by apply reject_if_not_crash in E'].
Qed.

Lemma mark_existential_returns h e p : returns (mark_existential h e p).
Proof.
  unfold mark_existential. apply indexed_returns. intros i k Hi.
  apply reads_then_returns; [apply require_active_not_crash|]. intros n _. destruct (Bool.eqb _ _); [done|].
  apply update_then_returns; [done|]. intros k' _. apply record_mutation_returns.
Qed.

Lemma retire_node_returns h : returns (retire_node h).
Proof.
  unfold retire_node. apply indexed_returns. intros i k Hi.
  unfold mbind at 1, st_bind at 1, gets. do 2 (apply lift_then_returns; [apply reject_if_not_crash|intros _]).
  apply update_then_returns; [done|]. intros k' _. by returns_steps.
Qed.

(** ** Merging and pruning *)

Lemma rewrite_row_returns source target combined rid : returns (rewrite_row source target combined rid).
Proof.
  unfold rewrite_row. apply returns_bind; [by returns_steps|]. intros row. destruct (negb (active row)); [done|]. cbv zeta.
  assert (∀ d p, returns (_ ← add_fact (predicate_id (row_key row)) (redirect source target <$> arguments (row_key row)) d (core row) p; mret tt)) as Hadd.
  { intros d p. apply returns_bind; [apply add_fact_returns|done]. }
  apply returns_bind; [apply returns_forM; intros; apply Hadd|intros _].
  apply returns_bind; [apply returns_lift; unfold minimal_dependency; apply ok_or_not_crash|intros minimal].
  apply returns_bind; [apply returns_forM; intros; apply Hadd|intros _]. apply deactivate_fact_returns.
Qed.

Lemma merge_nodes_inner_returns left right d : returns (merge_nodes_inner left right d).
Proof.
  unfold merge_nodes_inner. do 2 (apply returns_bind; [by returns_steps|intros ?]). cbv zeta.
  destruct (bool_decide _); [done|]. do 3 (apply returns_bind; [by returns_steps|intros ?]).
  apply returns_bind; [apply returns_reads; intros; apply merge_direction_not_crash|intros direction].
  apply returns_bind; [by returns_steps|intros _]. apply returns_bind; [done|intros blocked].
  apply returns_bind; [apply returns_forM; intros; apply set_blocked_returns|intros _].
  apply returns_bind; [done|intros affected].
  apply returns_bind; [apply returns_forM; intros; apply rewrite_row_returns|intros _].
  apply indexed_returns. intros i k Hi. apply update_then_returns; [done|]. intros k' Hi'.
  apply bump_then_returns; [done|]. by returns_steps.
Qed.

Lemma subtree_nodes_not_crash root k : subtree_nodes root k ≠ Crash.
Proof.
  unfold subtree_nodes. apply foldM_not_crash. intros n acc _. case_bool_decide; [|done]. case_bool_decide; [done|].
  apply bind_not_crash; [apply has_ancestor_not_crash|done].
Qed.

Lemma prune_subtree_inner_returns root : returns (prune_subtree_inner root).
Proof.
  unfold prune_subtree_inner. apply returns_bind; [by returns_steps|intros _].
  apply returns_bind; [apply returns_reads; intros; apply subtree_nodes_not_crash|intros collected]. cbv zeta.
  apply returns_bind; [done|intros blocked].
  apply returns_bind; [apply returns_forM; intros; apply set_blocked_returns|intros _].
  apply returns_bind; [done|intros rows]. apply returns_bind.
  { apply returns_forM. intros rid. apply returns_bind; [by returns_steps|intros row].
    destruct (active row); [apply deactivate_fact_returns|done]. }
  intros _. apply returns_bind; [|done]. apply returns_forM. intros n. apply indexed_returns. intros i k Hi.
  apply update_then_returns; [done|]. intros k' Hi'. apply bump_then_returns; [done|apply record_mutation_returns].
Qed.

Lemma atomic_returns {A} (m : K A) : returns m → returns (atomic m).
Proof. intros Hm k. unfold atomic. specialize (Hm k). by destruct (m k) as [[a|e|] k']. Qed.

(** ** Queues and disjunctions *)

Lemma enqueue_into_returns sel v p : returns (enqueue_into sel v p).
Proof.
  intros k. unfold enqueue_into. unfold mbind at 1, st_bind at 1, gets.
  rewrite enqueue_cases. repeat case_bool_decide; try done. unfold mbind at 1, st_bind at 1, upd, modify.
  apply record_mutation_returns.
Qed.

Lemma take_disjunction_loop_returns fuel k :
  (size (entries (disjunction_queue (state k))) < fuel)%nat → (take_disjunction_loop fuel k).1 ≠ Crash.
Proof.
  revert k. induction fuel as [|fuel IH]; intros k Hfuel; [lia|]. cbn [take_disjunction_loop].
  unfold mbind at 1, st_bind at 1, gets. destruct (Queue.pop _) as [[v q]|] eqn:E; [|done]. apply pop_size in E.
  unfold mbind at 1, st_bind at 1, upd, modify. unfold mbind at 1, st_bind at 1.
  match goal with |- context [record_mutation ?k0] => set (k1 := k0) end.
  destruct (record_mutation k1) as [[[]|e|] k2] eqn:E2; [|done|by pose proof (record_mutation_returns k1) as Hr; rewrite E2 in Hr].
  apply record_mutation_frame in E2 as [_ Hs]. destruct v as [did|h]; [|done].
  unfold mbind at 1, st_bind at 1, reads. destruct (ok_or _ _) as [d|e|] eqn:E3; [|done|by apply ok_or_not_crash in E3].
  destruct (negb (d_active d) || d_processed d).
  - apply IH. rewrite Hs. unfold k1. cbn. lia.
  - unfold mbind at 1, st_bind at 1. unfold mbind at 1, st_bind at 1.
    match goal with |- context [record_mutation ?k0] => pose proof (record_mutation_returns k0) as Hr; by destruct (record_mutation k0) as [[]] end.
Qed.

Lemma take_disjunction_returns : returns take_disjunction.
Proof. intros k. unfold take_disjunction, mbind, st_bind, gets. apply take_disjunction_loop_returns. lia. Qed.

Lemma push_branch_returns kind alts sid base : returns (push_branch kind alts sid base).
Proof. unfold push_branch. by returns_steps. Qed.

Lemma add_disjunction_returns ids d : returns (add_disjunction ids d).
Proof.
  unfold add_disjunction. do 6 (apply returns_bind; [by returns_steps|intros ?]). apply returns_bind; [done|]. intros q.
  destruct (Queue.enqueue _ _ q) as [r q'] eqn:E.
  assert (r ≠ Crash) as Hr by (rewrite enqueue_cases in E; repeat case_bool_decide; by simplify_eq).
  apply returns_bind; [done|intros _]. apply returns_bind; [by apply returns_lift|intros _]. by returns_steps.
Qed.

(** ** Every operation *)

Lemma create_node_returns kind parent named sid nominal tag hi k :
  arena_ok hi (state k) → (create_node kind parent named sid nominal tag k).1 ≠ Crash.
Proof.
  intros Ha. unfold create_node. apply reads_then_returns.
  { case_bool_decide.
    - apply bind_not_crash; [apply ok_or_not_crash|intros p _]. apply bind_not_crash; [apply require_active_not_crash|intros n _].
      apply bind_not_crash; [apply reject_if_not_crash|intros _ _]. apply ok_or_not_crash.
    - apply bind_not_crash; [apply reject_if_not_crash|done]. }
  intros depth _. apply lift_then_returns; [apply reject_if_not_crash|intros _].
  unfold mbind at 1, st_bind at 1, gets.
  assert (∀ x k1, is_Some (generations (state k1) !! N.to_nat x) → slot_exists (N.to_nat x) k1 →
    ((old ← reads (λ k, index_or_crash (generations (state k)) (N.to_nat x));
      generation ← lift (ok_or (checked_add u32_max old 1) (NativeErr.invariant "node generation overflow"));
      _ ← upd (λ s, s <| generations ::= <[N.to_nat x := generation]> |>);
      let handle := mkHandle x generation in
      creation_id ← gets (λ k, next_creation_id (state k));
      next ← lift (ok_or (checked_add u32_max creation_id 1) (NativeErr.invariant "node creation ID overflow"));
      _ ← upd (λ s, s <| next_creation_id := next |>);
      creation_checkpoint ← gets (λ k, default 0 (highest_branch_level k));
      _ ← reads (λ k, index_or_crash (nodes (state k)) (N.to_nat x));
      _ ← upd (λ s, s <| nodes ::= <[N.to_nat x := Some (mkNode handle creation_id kind (kind_sort kind)
        Active parent depth creation_checkpoint named sid
        None Dep.empty None false 0 ∅ nominal tag)]> |>);
      _ ← record_mutation;
      mret handle) k1).1 ≠ Crash) as Hrest.
  { intros x k1 [g Hg] [o Ho]. apply reads_then_returns; [unfold index_or_crash; by rewrite Hg|intros old _].
    apply lift_then_returns; [apply ok_or_not_crash|intros gen].
    unfold mbind at 1, st_bind at 1, upd at 1, modify at 1. cbv zeta. unfold mbind at 1, st_bind at 1, gets at 1.
    apply lift_then_returns; [apply ok_or_not_crash|intros next].
    unfold mbind at 1, st_bind at 1, upd at 1, modify at 1. unfold mbind at 1, st_bind at 1, gets at 1.
    apply reads_then_returns; [unfold index_or_crash; cbn; by rewrite Ho|intros _ _]. by returns_steps. }
  pose proof (arena_length _ _ Ha) as Hlen. cbv zeta in Hrest |- *.
  destruct (btree_pop_first (free_slots (state k))) as [[x rest]|] eqn:E.
  - unfold mbind at 1, st_bind at 1, upd at 1, modify at 1. unfold mbind at 1, st_bind at 1, mret at 1, st_ret at 1.
    apply btree_pop_first_Some in E as (Hx & _ & _). rewrite (arena_free _ _ Ha) in Hx.
    apply vacant_slots_spec in Hx; [|apply (arena_capacity _ _ Ha)].
    apply Hrest; [apply lookup_lt_is_Some; apply lookup_lt_Some in Hx; cbn; lia|]. by exists None.
  - unfold mbind at 1, st_bind at 1. unfold mbind at 1, st_bind at 1, lift at 1.
    destruct (u32_try_from (length (nodes (state k)))) as [x|] eqn:Ex; [|done]. apply u32_try_from_Some in Ex as [-> _].
    cbn [ok_or]. unfold mbind at 1, st_bind at 1, upd at 1, modify at 1. unfold mbind at 1, st_bind at 1, upd at 1, modify at 1.
    unfold mret at 1, st_ret at 1. apply Hrest; rewrite Nat2N.id; unfold slot_exists; cbn; apply lookup_lt_is_Some; rewrite length_app; cbn; lia.
Qed.

Lemma quiet_returns {A} (m : K A) k : (m k).1 ≠ Crash → (quiet m k).1 ≠ Crash.
Proof. intros Hm. unfold quiet, mbind, st_bind. by destruct (m k) as [[]]. Qed.

Lemma push_reuse_returns root pid sups base : returns (push_existential_reuse_branch root pid sups base).
Proof.
  unfold push_existential_reuse_branch. do 2 (apply returns_bind; [by returns_steps|intros _]).
  apply returns_bind; [apply returns_reads; intros; apply iterM_not_crash; intros; apply validate_dependency_not_crash|intros _].
  cbv zeta. do 6 (apply returns_bind; [by returns_steps|intros ?]). intros k.
  pose proof (push_branch_returns "merge" [0; 1] pid base k) as Hp. destruct (push_branch _ _ _ _ k) as [[]]; [by case_bool_decide|done|done].
Qed.

Lemma perform_returns op k : wf k → (perform op k).1 ≠ Crash.
Proof.
  intros Hk. destruct op; cbn [perform]; try apply quiet_returns;
    try solve [by unfold begin_operation, prepare_next_delta, strengthen_disjunction, take_integer, take_existential_candidate,
      set_existential_reuse_node, remove_existential_reuse_node, set_existential_reuse_disabled, remove_existential_reuse_branch; returns_steps].
  - pose proof (create_node_returns kind parent named sid nominal tag _ _ (state_arena _ _ (wf_state _ Hk))) as Hc.
    unfold mbind, st_bind. by destruct (create_node _ _ _ _ _ _ k) as [[]].
  - apply retire_node_returns.
  - apply add_fact_returns.
  - apply deactivate_fact_returns.
  - apply add_disjunction_returns.
  - apply take_disjunction_returns.
  - by apply backtrack_to_returns.
  - by apply advance_branch_returns.
  - apply reset_returns. apply (arena_length _ _ (state_arena _ _ (wf_root _ Hk))).
  - apply set_blocked_returns.
  - apply mark_existential_returns.
  - unfold merge_nodes. apply returns_bind; [by returns_steps|intros _]. apply atomic_returns, merge_nodes_inner_returns.
  - unfold prune_subtree. apply returns_bind; [by returns_steps|intros _]. apply atomic_returns, prune_subtree_inner_returns.
  - unfold enqueue_integer. apply returns_bind; [by returns_steps|intros sel]. apply enqueue_into_returns.
  - unfold enqueue_node. do 2 (apply returns_bind; [by returns_steps|intros ?]). apply enqueue_into_returns.
  - apply push_reuse_returns.
Qed.

(** ** Reading facts *)

Lemma select_smallest_not_crash pid bindings smallest k : select_smallest pid bindings smallest k ≠ Crash.
Proof.
  revert smallest. induction bindings as [|[p h] bindings IH]; intros smallest; cbn; [done|].
  apply bind_not_crash; [apply require_active_not_crash|]. intros _ _. by destruct (facts_by_position _ !! _).
Qed.

Lemma candidate_fact_ids_not_crash pid bindings k : candidate_fact_ids pid bindings k ≠ Crash.
Proof.
  unfold candidate_fact_ids. destruct (facts_by_predicate _ !! _); [|done].
  apply bind_not_crash; [apply select_smallest_not_crash|]. intros [rows|] _; [|done].
  apply foldM_not_crash. intros rid acc _. apply bind_not_crash; [apply fact_not_crash|done].
Qed.

(** ** The operation root *)

Definition same_operation_root (k k' : TableauKernel) : Prop := operation_root k' = operation_root k.

#[global] Instance same_operation_root_preorder : PreOrder same_operation_root.
Proof. split; [done|]. intros k1 k2 k3 E1 E2. unfold same_operation_root in *. congruence. Qed.
