(* ===== verification/AuditSpec.v ===== *)
(** * What the invariant audit decides

    [check_invariants] rebuilds the indexes from the rows and re-checks every
    node, queue and branch.  On a kernel that the operations can reach it can
    only object to two things: a merged node whose representative is no longer
    active, and an inconsistent record of an existential reuse branch. *)

From S2P Require Import Prelude Order Errors Model Queue Store Kernel KernelBase Arena Facts FactOps.
From S2P Require Import StateInv NodeOps Merge Prune KernelInv.
Import Kernel.

(** ** Loops that succeed *)

Lemma foldM_total {E A B} (f : B → A → outcome E B) (I : list A → B → Prop) l b :
  (∀ seen x rest b, l = seen ++ x :: rest → I seen b → ∃ b', f b x = Ok b' ∧ I (seen ++ [x]) b') →
  I [] b → ∃ b', foldM f l b = Ok b' ∧ I l b'.
Proof.
  intros Hf. assert (∀ seen rest b, l = seen ++ rest → I seen b → ∃ b', foldM f rest b = Ok b' ∧ I l b') as Hgen.
  { intros seen rest. revert seen. induction rest as [|x rest IH]; intros seen b0 Hl Hb.
    - rewrite app_nil_r in Hl. subst. eauto.
    - destruct (Hf _ _ _ _ Hl Hb) as (b1 & Hfx & Hb1). cbn. rewrite Hfx. cbn.
      apply (IH (seen ++ [x])); [by rewrite <-app_assoc|done]. }
  intros Hb. by apply (Hgen []).
Qed.

(** Every element of a loop that succeeded was accepted. *)
Lemma foldM_each {E A B} (f : B → A → outcome E B) l b b' x :
  foldM f l b = Ok b' → x ∈ l → ∃ b1 b2, f b1 x = Ok b2.
Proof.
  revert b. induction l as [|y l IH]; intros b; cbn; [set_solver|].
  intros (b1 & Hy & Hl)%outcome_bind_Ok [->|Hx]%elem_of_cons; eauto.
Qed.

Lemma exceeds_bounded hi d : canonical d → dep_bounded hi d → exceeds d hi = false.
Proof.
  intros Hc Hb. unfold exceeds. destruct (Dep.maximum d) as [m|] eqn:E; [|done].
  apply canonical_maximum in E as [Hin _]; [|done]. apply N.ltb_ge. by apply Hb.
Qed.

(** ** Nodes *)

Lemma NoDup_live_entries s : NoDup (live_entries s).*1.
Proof.
  unfold live_entries, enumerate. rewrite list_fmap_omap. generalize (nodes s). intros ns.
  assert (∀ start, NoDup (omap (λ x : nat * option Node, fst <$> (let '(i, n) := x in pair i <$> n))
    (imap (λ i n, ((start + i)%nat, n)) ns)) ∧
    ∀ i, i ∈ omap (λ x : nat * option Node, fst <$> (let '(i, n) := x in pair i <$> n))
      (imap (λ i n, ((start + i)%nat, n)) ns) → (start ≤ i)%nat) as Hgen.
  { induction ns as [|o ns IH]; intros start; csimpl; [split; [constructor|set_solver]|].
    assert (imap ((λ i n, ((start + i)%nat, n)) ∘ S) ns = imap (λ i n, ((S start + i)%nat, n)) ns) as ->.
    { apply imap_ext. intros j m _. cbn. f_equal. lia. }
    destruct (IH (S start)) as [Hnd Hge]. destruct o; csimpl.
    - rewrite Nat.add_0_r. split; [constructor; [|done]; intros ?%Hge; lia|].
      intros j [->|?%Hge]%elem_of_cons; lia.
    - split; [done|]. intros j ?%Hge. lia. }
  apply (Hgen 0%nat).
Qed.

(** Every merged node leads to an active one. *)
Definition links_live (k : TableauKernel) : Prop :=
  ∀ i n, nodes (state k) !! i = Some (Some n) → n_lifecycle n = Merged →
    ∃ r ds, resolves (nodes (state k)) (n_handle n) r ds ∧ active_handle (nodes (state k)) r.

Section nodes.
Context (hi : N) (k : TableauKernel).
Hypothesis Ha : arena_ok hi (state k).
Abbreviation ns := (nodes (state k)).

Lemma stored_at i n : ns !! i = Some (Some n) → stored ns (n_handle n) n.
Proof.
  intros Hi. eapply stored_self; [apply (arena_slots _ _ Ha)|done|].
  apply (node_not_retired _ _ _ _ (arena_node _ _ Ha _ _ Hi)).
Qed.

(** What the merge check computes for a merged node. *)
Lemma merged_target i n rep :
  ns !! i = Some (Some n) → n_representative n = Some rep →
  ∃ r ds d, representative rep k = Ok (r, d) ∧ resolves ns (n_handle n) r ds ∧ r ≠ n_handle n.
Proof.
  intros Hi Hrep. pose proof (stored_at _ _ Hi) as Hn. pose proof (arena_slots _ _ Ha) as Hs.
  destruct (arena_resolves _ _ Ha _ _ Hn) as (r & ds & Hr).
  assert (∃ m, stored ns r m ∧ n_representative m = None) as (m & Hm & Hm0) by (by eapply resolves_target).
  inversion Hr as [? n' Hn' Hr0|? n' h' ? ds' Hn' Hr' Hres]; subst;
    pose proof (stored_fun _ _ _ _ Hn Hn') as <-; [congruence|].
  assert (h' = rep) as -> by congruence. exists r, (n_merge_dependency n :: ds'), (Dep.union ds').
  split_and!; [apply representative_Ok; eauto|done|].
  intros ->. pose proof (stored_fun _ _ _ _ Hn Hm) as <-. congruence.
Qed.

Lemma require_active_is_ok h : is_ok (require_active h k) = true ↔ active_handle ns h.
Proof.
  unfold active_handle. setoid_rewrite <-(require_active_Ok h k).
  destruct (require_active h k); cbn; naive_solver.
Qed.

Section node.
Context (i : nat) (n : Node).
Hypothesis Hi : ns !! i = Some (Some n).
Let Hok : node_ok hi (next_creation_id (state k)) ns n := arena_node _ _ Ha _ _ Hi.

Lemma check_parent_passes : check_parent n k = Ok tt.
Proof.
  pose proof (node_tree _ _ _ _ Hok) as H6. unfold check_parent. case_bool_decide.
  - pose proof (node_depth _ _ _ _ Hok) as H5. destruct H6 as (p & m & -> & Hm & Hd & _). cbn [ok_or]. rewrite bind_Ok_l.
    apply require_node_Ok in Hm as ->. rewrite bind_Ok_l.
    rewrite N.mod_small, Hd by (unfold u32_max in *; lia). by rewrite bool_decide_eq_true_2.
  - by destruct H6 as [-> ->].
Qed.

Lemma check_blocker_passes : check_blocker n k = Ok tt.
Proof.
  unfold check_blocker. destruct (n_blocker n) as [b|] eqn:E; [|done].
  destruct (node_blocker _ _ _ _ Hok _ E) as (_ & -> & m & Hm & Hma & Hms). cbn [bool_decide negb].
  assert (require_active b k = Ok m) as -> by (by apply require_active_Ok). rewrite bind_Ok_l, Hms. done.
Qed.

Lemma check_link_spec :
  check_link hi n k = Ok tt ↔
  (n_lifecycle n = Merged → ∃ r ds, resolves ns (n_handle n) r ds ∧ active_handle ns r).
Proof.
  pose proof (node_link _ _ _ _ Hok) as Hl. unfold check_link.
  destruct (n_representative n) as [rep|] eqn:Hrep.
  - destruct Hl as (-> & Hmc & Hmb). rewrite bool_decide_eq_true_2 by done. cbn [ok_or]. rewrite bind_Ok_l.
    destruct (merged_target _ _ _ Hi Hrep) as (r & ds & d & -> & Hres & Hne). rewrite bind_Ok_l. cbn [fst].
    rewrite bool_decide_eq_false_2, exceeds_bounded, orb_false_r by done. cbn [orb].
    rewrite reject_if_Ok, negb_false_iff, require_active_is_ok. split; [eauto|].
    intros (r' & ds' & Hres' & Hact')%(λ H, H eq_refl).
    by destruct (resolves_det _ _ _ _ _ _ Hres Hres') as [<- _].
  - rewrite bool_decide_eq_false_2 by done. rewrite bool_decide_eq_false_2 by (by intros []). cbn. done.
Qed.

Lemma check_node_spec ids :
  n_creation_id n ∉ ids →
  check_node hi k ids (i, n) = Ok ({[n_creation_id n]} ∪ ids) ↔ check_link hi n k = Ok tt.
Proof.
  intros Hids. assert (∃ g, generations (state k) !! i = Some g) as [g Hg].
  { apply lookup_lt_is_Some. rewrite (arena_length _ _ Ha). by eapply lookup_lt_Some. }
  unfold check_node, index_or_crash. rewrite Hg, bind_Ok_l.
  rewrite (arena_slots _ _ Ha _ _ Hi), (bool_decide_eq_true_2 (i = i)), (bool_decide_eq_false_2 (_ ∈ ids)) by done.
  pose proof (arena_generation _ _ Ha _ _ _ Hi Hg) as Hgen. apply N.ltb_ge in Hgen as ->.
  pose proof (node_checkpoint _ _ _ _ Hok) as H2. apply N.ltb_ge in H2 as ->. cbn [negb orb reject_if].
  rewrite bind_Ok_l, check_parent_passes, bind_Ok_l.
  rewrite (bool_decide_eq_true_2 _ (node_sort_ok _ _ _ _ Hok)). cbn [negb reject_if].
  rewrite bind_Ok_l, check_blocker_passes. destruct (check_link hi n k) as [[]| |]; [rewrite !bind_Ok_l|..]; done.
Qed.
End node.

(** The loop over the nodes objects to dead links only. *)
Lemma check_nodes_spec : check_nodes hi k = Ok tt ↔ links_live k.
Proof.
  unfold check_nodes. split.
  - intros (ids & Hall & _)%outcome_bind_Ok i n Hi Hm.
    destruct (foldM_each _ _ _ _ (i, n) Hall) as (b1 & b2 & Hchk); [by apply elem_of_live_entries|].
    assert (check_link hi n k = Ok tt) as Hlink.
    { unfold check_node in Hchk. inv_ok. by destruct (check_link hi n k) as [[]| |]. }
    by apply (check_link_spec i n Hi).
  - intros Hlive.
    destruct (foldM_total (check_node hi k)
      (λ seen ids, ∀ c, c ∈ ids → ∃ j m, (j, m) ∈ seen ∧ n_creation_id m = c)
      (live_entries (state k)) ∅) as (ids & -> & _); [|set_solver|done].
    intros seen [i n] rest ids Hsplit Hids.
    assert (NoDup (live_entries (state k)).*1) as Hnd by apply NoDup_live_entries.
    assert (ns !! i = Some (Some n)) as Hi by (apply elem_of_live_entries; rewrite Hsplit; set_solver).
    exists ({[n_creation_id n]} ∪ ids). split.
    + apply check_node_spec; [done| |apply (check_link_spec i n Hi); intros Hm; by eapply Hlive].
      intros (j & m & Hj & Hc)%Hids.
      assert (ns !! j = Some (Some m)) as Hjm by (apply elem_of_live_entries; rewrite Hsplit; set_solver).
      pose proof (arena_creation _ _ Ha _ _ _ _ Hjm Hi Hc) as ->.
      rewrite Hsplit, fmap_app, fmap_cons in Hnd. apply NoDup_app in Hnd as (_ & Hdisj & _).
      apply (Hdisj i); [|by left]. apply list_elem_of_fmap. by exists (i, m).
    + intros c [->%elem_of_singleton|(j & m & Hj & Hc)%Hids]%elem_of_union; [exists i, n|exists j, m]; set_solver.
Qed.
End nodes.

(** ** Fact rows *)

(** The index restricted to the first [i] rows. *)
Definition index_upto `{Countable Key} (s : MutableState) (i : nat) (index : gmap Key (gset N))
    (P : Key → FactRow → Prop) : Prop :=
  index_tidy index ∧
  ∀ key rid, rid ∈ idx_rows index key ↔
    (N.to_nat rid < i)%nat ∧ ∃ row, active_row s (N.to_nat rid) row ∧ P key row.

Record indexes_upto (s : MutableState) (i : nat) (acc : FactIndexes) : Prop := {
  upto_key key rid :
    by_key acc !! key = Some rid ↔
    (N.to_nat rid < i)%nat ∧ ∃ row, active_row s (N.to_nat rid) row ∧ row_key row = key;
  upto_node : index_upto s i (by_node acc) (λ h row, h ∈ arguments (row_key row));
  upto_predicate : index_upto s i (by_predicate acc) (λ p row, predicate_id (row_key row) = p);
  upto_position : index_upto s i (by_position acc) at_position
}.

Lemma index_upto_skip `{Countable Key} s i (index : gmap Key (gset N)) P :
  (∀ row, ¬ active_row s i row) → index_upto s i index P → index_upto s (S i) index P.
Proof.
  intros Hno [Ht Hi]. split; [done|]. intros key rid. rewrite Hi. split; [naive_solver lia|].
  intros [Hlt (row & Hrow & HP)]. split; [|eauto]. destruct (decide (N.to_nat rid = i)) as [<-|]; [|lia].
  by destruct (Hno row).
Qed.

Lemma index_upto_row `{Countable Key} s i row (index index' : gmap Key (gset N)) P :
  active_row s i row → row_id row = N.of_nat i →
  (index_tidy index → index_tidy index') →
  (∀ key rid, rid ∈ idx_rows index' key ↔ (rid = row_id row ∧ P key row) ∨ rid ∈ idx_rows index key) →
  index_upto s i index P → index_upto s (S i) index' P.
Proof.
  intros Hrow Hid Ht' Hi' [Ht Hi]. split; [by apply Ht'|]. intros key rid. rewrite Hi', Hi, Hid. split.
  - intros [[-> HP]|[Hlt (r & Hr & HP)]]; [rewrite Nat2N.id|]; (split; [lia|eauto]).
  - intros [Hlt (r & Hr & HP)]. destruct (decide (N.to_nat rid = i)) as [<-|].
    + left. rewrite N2Nat.id. split; [done|]. destruct Hr, Hrow. by simplify_eq.
    + right. split; [lia|eauto].
Qed.

(** At the end the rebuilt index is the stored one. *)
Lemma index_upto_exact `{Countable Key} s (index index' : gmap Key (gset N)) P :
  index_upto s (length (facts s)) index P → index_exact s index' P → index = index'.
Proof.
  intros [Ht Hi] [Ht' Hi']. apply index_ext; [done..|]. intros key rid. rewrite Hi, Hi'. split; [naive_solver|].
  intros (row & Hrow & HP). split; [|eauto]. destruct Hrow as [Hl _]. by apply lookup_lt_Some in Hl.
Qed.

Lemma foldM_positions (p rid : N) (e : NativeError) (l : list (nat * NodeHandle)) m :
  Forall (λ pa, N.of_nat pa.1 ≤ u32_max) l →
  foldM (λ m pa, position ← ok_or (u32_try_from pa.1) e; Ok (index_insert (p, position, pa.2) rid m)) l m
  = Ok (E:=NativeError) (insert_all (λ pa, (p, N.of_nat pa.1, pa.2)) rid l m).
Proof.
  revert m. induction l as [|[i h] l IH]; intros m Hl; [done|]. apply Forall_cons in Hl as [Hi Hl]. cbn in Hi |- *.
  assert (u32_try_from i = Some (N.of_nat i)) as -> by (by apply u32_try_from_Some). cbn. by apply IH.
Qed.

Section rows.
Context (hi : N) (k : TableauKernel).
Hypothesis Hf : facts_ok hi (state k).
Abbreviation s := (state k).

Lemma foldM_incidence rid (l : list NodeHandle) m :
  Forall (active_handle (nodes s)) l →
  foldM (λ m argument,
    _ ← reject_if (negb (is_ok (require_active argument k))) (NativeErr.invariant "active fact references an inactive node");
    Ok (index_insert argument rid m)) l m = Ok (insert_all id rid l m).
Proof.
  revert m. induction l as [|h l IH]; intros m Hl; [done|]. apply Forall_cons in Hl as [Hh Hl]. cbn [foldM].
  apply (require_active_is_ok k) in Hh as ->. cbn. by apply IH.
Qed.

Lemma check_supports_passes row : supports_ok hi (supports row) → check_supports hi row = Ok tt.
Proof.
  intros [Hne Hcan Hbnd Hanti Hsort]. apply iterM_Ok, Forall_forall. intros d Hd.
  rewrite exceeds_bounded by auto. cbn [reject_if]. rewrite bind_Ok_l. apply iterM_Ok, Forall_forall. intros e He.
  apply reject_if_Ok, andb_false_iff. destruct (Dep.is_subset_of d e) eqn:E; [left|by right].
  apply is_subset_of_levels in E; [|auto]. by rewrite (Hanti d e Hd He E), bool_decide_eq_true_2.
Qed.

Lemma check_row_step i row acc :
  facts s !! i = Some row → indexes_upto s i acc →
  ∃ acc', check_row hi k acc (i, row) = Ok acc' ∧ indexes_upto s (S i) acc'.
Proof.
  intros Hi Hacc. pose proof (facts_ids _ _ Hf _ _ Hi) as Hid. unfold check_row.
  rewrite Hid, Nat2N.id, bool_decide_eq_true_2 by done. cbn [negb orb]. rewrite <-Hid.
  destruct (active row) eqn:Hact; cbn [negb].
  2:{ exists acc. split; [done|]. destruct Hacc as [Hk H1 H2 H3].
      assert (∀ r, ¬ active_row s i r) as Hno. { intros r [Hr ?]. simplify_eq. congruence. }
      split; [|by apply index_upto_skip..]. intros key rid. rewrite Hk. split; [naive_solver lia|].
      intros [Hlt (r & Hr & HP)]. split; [|eauto]. destruct (decide (N.to_nat rid = i)) as [<-|]; [|lia].
      by destruct (Hno r). }
  assert (active_row s i row) as Har by done.
  destruct (facts_rows _ _ Hf _ _ Har) as [Hrne Hra Hrg Hrargs Hrs]. pose proof Hacc as [Hk H1 H2 H3].
  assert (by_key acc !! row_key row = None) as Hnew.
  { destruct (by_key acc !! row_key row) as [rid|] eqn:E; [|done]. apply Hk in E as [Hlt (r & Hr & HP)].
    pose proof (active_row_key_unique _ _ _ _ _ _ Hf Hr Har HP). lia. }
  rewrite Hnew, (bool_decide_eq_false_2 (is_Some None)) by (by intros []).
  rewrite (bool_decide_eq_false_2 (supports row = [])) by apply (supports_nonempty _ _ Hrs). cbn [orb reject_if].
  rewrite bind_Ok_l. apply N.ltb_ge in Hrg as ->. cbn [reject_if]. rewrite bind_Ok_l.
  rewrite foldM_positions.
  2:{ apply Forall_forall. intros [j h] Hj%elem_of_enumerate%lookup_lt_Some. cbn. lia. }
  rewrite bind_Ok_l, check_supports_passes, bind_Ok_l by done.
  rewrite (proj1 (sort_dependencies_id _) (supports_sorted _ _ Hrs)), (bool_decide_eq_true_2 (supports row = _)) by done.
  cbn [negb reject_if]. rewrite bind_Ok_l, foldM_incidence, bind_Ok_l by (apply Forall_forall; auto).
  eexists. split; [done|]. split; cbn.
  - intros key rid. rewrite lookup_insert_Some, Hk, Hid. split.
    + intros [[<- <-]|[Hne [Hlt (r & Hr & HP)]]]; [rewrite Nat2N.id|]; (split; [lia|eauto]).
    + intros [Hlt (r & Hr & HP)]. destruct (decide (N.to_nat rid = i)) as [<-|].
      * left. rewrite N2Nat.id. destruct Hr, Har. by simplify_eq.
      * right. split; [|split; [lia|eauto]]. intros E. subst key.
        pose proof (active_row_key_unique _ _ _ _ _ _ Hf Hr Har (eq_sym E)). done.
  - apply (index_upto_row _ _ row (by_node acc)); [done|done|apply insert_all_tidy| |done].
    intros key rid. rewrite elem_of_insert_all. unfold id. naive_solver.
  - apply (index_upto_row _ _ row (by_predicate acc)); [done|done|apply index_insert_tidy| |done].
    intros key rid. rewrite elem_of_index_insert. naive_solver.
  - apply (index_upto_row _ _ row (by_position acc)); [done|done|apply insert_all_tidy| |done].
    intros [[p j] h] rid. rewrite elem_of_insert_all. unfold at_position; cbn. split.
    + intros [(-> & [j' x] & Hx%elem_of_enumerate & [= -> -> ->])|?]; [|by right]. left. by rewrite Nat2N.id.
    + intros [(-> & <- & Hx)|?]; [|by right]. left. split; [done|]. exists (N.to_nat j, h).
      split; [by apply elem_of_enumerate|]. cbn. by rewrite N2Nat.id.
Qed.

Lemma enumerate_split {A} (l : list A) seen x rest :
  enumerate l = seen ++ x :: rest → x.1 = length seen ∧ l !! x.1 = Some x.2.
Proof.
  intros E. assert (enumerate l !! length seen = Some x) as Hx.
  { rewrite E. by apply list_lookup_middle. }
  unfold enumerate in Hx. rewrite list_lookup_imap in Hx. apply fmap_Some in Hx as (y & Hy & ->). done.
Qed.

(** The rebuilt indexes are the stored ones. *)
Lemma check_facts_passes : check_facts hi k = Ok tt.
Proof.
  unfold check_facts.
  destruct (foldM_total (check_row hi k) (λ seen acc, indexes_upto s (length seen) acc)
    (enumerate (facts s)) (mkIndexes ∅ ∅ ∅ ∅)) as (acc & -> & Hacc).
  { intros seen [i row] rest acc Hsplit Hacc. apply enumerate_split in Hsplit as [Hi Hrow]. cbn in Hi, Hrow. subst i.
    destruct (check_row_step _ _ _ Hrow Hacc) as (acc' & ? & ?). exists acc'.
    rewrite length_app. cbn. by rewrite Nat.add_1_r. }
  { assert (∀ Key (E : EqDecision Key) (C : Countable Key) (P : Key → FactRow → Prop), index_upto s 0 (∅ : gmap Key (gset N)) P) as Hem.
    { intros Key E C P. split; [apply index_tidy_empty|]. intros key rid. unfold idx_rows. rewrite lookup_empty.
      cbn. split; [set_solver|lia]. }
    split; [|apply Hem..]. intros key rid. cbn. rewrite lookup_empty. split; [done|lia]. }
  assert (length (enumerate (facts s)) = length (facts s)) as El by apply length_imap. rewrite El in Hacc.
  destruct Hacc as [Hk H1 H2 H3]. rewrite bind_Ok_l.
  rewrite (index_upto_exact _ _ _ _ H1 (facts_node _ _ Hf)), (index_upto_exact _ _ _ _ H2 (facts_predicate _ _ Hf)),
    (index_upto_exact _ _ _ _ H3 (facts_position _ _ Hf)).
  assert (by_key acc = facts_by_key s) as ->.
  { apply map_eq. intros key. apply option_eq. intros rid. rewrite Hk, (facts_key _ _ Hf). split; [naive_solver|].
    intros (r & Hr & HP). split; [|eauto]. destruct Hr as [Hl _]. by apply lookup_lt_Some in Hl. }
  by rewrite !bool_decide_eq_true_2.
Qed.
End rows.

(** ** Queues and disjunctions *)

Lemma omap_lookup_values {A V} `{Countable Key} (m : gmap Key V) (f : A → Key) (g : A → V) l :
  (∀ x, x ∈ l → m !! f x = Some (g x)) → (omap (λ key, pair key <$> m !! key) (f <$> l)).*2 = g <$> l.
Proof.
  induction l as [|x l IH]; intros Hl; csimpl; [done|]. rewrite Hl by (by left). csimpl. f_equal.
  apply IH. intros y Hy. apply Hl. by right.
Qed.

Lemma filter_ids_sorted (f : GroundDisjunction → bool) ds start :
  (∀ i d, ds !! i = Some d → disjunction_id d = N.of_nat (start + i)) →
  StronglySorted ord_lt ((λ d, [Z.of_N (disjunction_id d)]) <$> List.filter f ds).
Proof.
  revert start. induction ds as [|d ds IH]; intros start Hid; cbn; [constructor|].
  assert (StronglySorted ord_lt ((λ d, [Z.of_N (disjunction_id d)]) <$> List.filter f ds)) as Hs.
  { apply (IH (S start)). intros i e Hi. rewrite (Hid (S i) e Hi). f_equal. lia. }
  destruct (f d); [|done]. csimpl. constructor; [done|]. apply Forall_fmap, Forall_forall. intros e He.
  apply list_elem_of_In, filter_In in He as [He _]. apply list_elem_of_In, list_elem_of_lookup in He as [i Hi].
  cbn. rewrite (Hid 0%nat d eq_refl), (Hid (S i) e Hi).
  assert (ord_le [Z.of_N (N.of_nat (start + 0))] [Z.of_N (N.of_nat (start + S i))]) as Hle by (apply ord_le_singleton_Z; lia).
  apply ord_le_lt_eq in Hle as [|[= Heq]]; [done|lia].
Qed.

Lemma disjunction_values hi s :
  agenda_ok hi s →
  Queue.values (disjunction_queue s) =
    (λ d, Integer (disjunction_id d)) <$> List.filter (λ d, d_active d && negb (d_processed d)) (disjunctions s).
Proof.
  intros Hg. set (ds := List.filter _ _).
  assert (∀ i d, disjunctions s !! i = Some d → disjunction_id d = N.of_nat i) as Hid.
  { intros i d Hi. apply (disjunction_index _ _ _ (agenda_records _ _ Hg _ _ Hi)). }
  assert (∀ d, d ∈ ds ↔ ∃ i, disjunctions s !! i = Some d ∧ pending d = true) as Hds.
  { intros d. unfold ds. rewrite list_elem_of_In, filter_In, <-list_elem_of_In, list_elem_of_lookup. unfold pending. naive_solver. }
  assert (∀ d, d ∈ ds → entries (disjunction_queue s) !! [Z.of_N (disjunction_id d)] = Some (Integer (disjunction_id d))) as Hl.
  { intros d (i & Hi & Hp)%Hds. apply (agenda_queue _ _ Hg). exists i, d. rewrite (Hid _ _ Hi).
    split_and!; [done..|by rewrite nat_N_Z|done]. }
  unfold Queue.values, btree_values, btree_entries.
  assert (btree_keys (entries (disjunction_queue s)) = (λ d, [Z.of_N (disjunction_id d)]) <$> ds) as ->.
  { apply btree_elements_unique; [by apply (filter_ids_sorted _ _ 0)|]. intros p. rewrite list_elem_of_fmap, elem_of_dom. split.
    - intros (d & -> & Hd%Hl). eauto.
    - intros [v (i & d & Hi & Hp & -> & ->)%(agenda_queue _ _ Hg)]. exists d. rewrite Hds, (Hid _ _ Hi), nat_N_Z. eauto. }
  by apply (omap_lookup_values _ _ (λ d, Integer (disjunction_id d))).
Qed.

Section agenda.
Context (hi : N) (k : TableauKernel).
Hypothesis Hg : agenda_ok hi (state k).

Lemma check_queues_passes : check_queues k = Ok tt.
Proof.
  unfold check_queues. pose proof (agenda_generations _ _ Hg) as Hgen. apply N.ltb_ge in Hgen as ->. cbn [reject_if].
  rewrite bind_Ok_l. assert (iterM Queue.check_invariants [delta_rows (state k); annotated_equalities (state k);
    existential_candidates (state k); disjunction_queue (state k); datatype_components (state k);
    blocking_invalidations (state k)] = Ok tt) as ->.
  { apply iterM_Ok. destruct Hg. repeat constructor; by apply queue_check_spec. }
  rewrite bind_Ok_l, (disjunction_values _ _ Hg). by rewrite bool_decide_eq_true_2.
Qed.

Lemma check_disjunctions_passes : check_disjunctions hi k = Ok tt.
Proof.
  apply iterM_Ok, Forall_forall. intros d Hd. apply list_elem_of_In, filter_In in Hd as [Hd _].
  apply list_elem_of_In, list_elem_of_lookup in Hd as [i Hi].
  destruct (agenda_records _ _ Hg _ _ Hi) as [_ Hc Hcan Hb]. rewrite exceeds_bounded by done.
  by apply N.ltb_ge in Hc as ->.
Qed.
End agenda.

(** ** The audit as a whole *)

Lemma check_clash_and_branches_passes k : wf k → check_clash_and_branches (top k) k = Ok tt.
Proof.
  intros Hk. unfold check_clash_and_branches. pose proof (state_agenda _ _ (wf_state _ Hk)) as Hg.
  assert (match current_clash (state k) with Some c => exceeds (clash_dependency c) (top k) | None => false end = false) as ->.
  { destruct (current_clash (state k)) as [c|] eqn:E; [|done]. apply (agenda_clash _ _ Hg) in E as [? ?]. by apply exceeds_bounded. }
  cbn [reject_if]. rewrite bind_Ok_l. apply iterM_Ok, Forall_forall. intros [i b] Hib%elem_of_enumerate. cbn.
  pose proof (wf_trail _ Hk _ _ Hib) as Ht. destruct (wf_branches _ Hk _ _ Hib) as [Hl Hn _ _ _ _ Hm _ _].
  rewrite Hl, Nat2N.id, bool_decide_eq_true_2, Hm by done. apply Nat.leb_gt in Hn as ->. by apply N.ltb_ge in Ht as ->.
Qed.

(** On a well-formed kernel the audit decides two questions. *)
Lemma check_invariants_spec k :
  wf k → check_invariants k = Ok tt ↔ links_live k ∧ check_reuse_branches k = Ok tt.
Proof.
  intros Hk. pose proof (wf_state _ Hk) as [Ha Hf Hg]. unfold check_invariants. change (default 0 _) with (top k).
  unfold check_arena. rewrite (arena_free _ _ Ha), (arena_length _ _ Ha), !bool_decide_eq_true_2 by done. cbn [negb orb reject_if].
  rewrite bind_Ok_l, <-(check_nodes_spec _ _ Ha).
  destruct (check_nodes (top k) k) as [[]|e|]; [rewrite bind_Ok_l|cbn; by split; [|intros []]..].
  rewrite (check_facts_passes _ _ Hf), bind_Ok_l, (check_queues_passes _ _ Hg), bind_Ok_l,
    (check_disjunctions_passes _ _ Hg), bind_Ok_l.
  destruct (check_reuse_branches k) as [[]|e|]; [rewrite bind_Ok_l|cbn; by split; [|intros []]..].
  by rewrite check_clash_and_branches_passes by done.
Qed.

(** Backtracking succeeds exactly when the restored kernel passes those two. *)
Lemma backtrack_to_succeeds lvl k b :
  wf k → branches k !! N.to_nat lvl = Some b →
  let k' := restore (b_snapshot b) k <| branches := take (S (N.to_nat lvl)) (branches k) |> in
  backtrack_to lvl k = (Ok tt, k') ↔ links_live k' ∧ check_reuse_branches k' = Ok tt.
Proof.
  intros Hk Hb k'. assert (wf k') as Hk' by (apply (wf_restore_branch _ (N.to_nat lvl)); auto).
  rewrite <-check_invariants_spec by done. unfold backtrack_to, mbind, st_bind, reads, modify, branch. rewrite Hb. cbn.
  change (restore (b_snapshot b) k <| branches ::= take (S (N.to_nat lvl)) |>) with k'.
  destruct (check_invariants k') as [[]| |]; split; congruence.
Qed.
