(* ===== verification/StoreTheorems.v ===== *)
(** * A small tableau

    A kernel built by a sequence of operations: two roots, two tree children
    of the first, facts about the children, a ground disjunction and an open
    branch.  The theorems about the kernel are evaluated on it. *)

From S2P Require Import Prelude Order Errors Model Queue Store Kernel KernelBase Arena Facts FactOps StateInv NodeOps Merge Prune KernelInv Totality.
Import Kernel.

Fixpoint perform_all (ops : list operation) : K (list NodeHandle) :=
  match ops with
  | [] => mret []
  | op :: ops => hs ← perform op; rest ← perform_all ops; mret (hs ++ rest)
  end.

(** [op_ok] as a test. *)
Definition op_okb (op : operation) : bool :=
  match op with
  | OpAddFact _ _ d _ _ | OpAddDisjunction _ d | OpStrengthenDisjunction _ d | OpInstallClash _ d _ _
  | OpPushBranch _ _ _ d | OpMerge _ _ d | OpPushReuseBranch _ _ _ d => strictly_ascending (as_slice d)
  | _ => true
  end.

Lemma op_okb_spec op : op_okb op = true → op_ok op.
Proof. destruct op; cbn; try done; apply strictly_ascending_spec. Qed.

Lemma perform_all_reachable ops k hs k' :
  reachable k → forallb op_okb ops = true → perform_all ops k = (Ok hs, k') → reachable k'.
Proof.
  revert k hs. induction ops as [|op ops IH]; intros k hs Hk; cbn; [by intros _ [_ ->]%mret_Ok|].
  intros [Hop Hops]%andb_true_iff. intros (a & k1 & Hop' & H)%st_bind_Ok.
  apply st_bind_Ok in H as (b & k2 & H & [_ ->]%mret_Ok). eapply IH; [|done|done].
  eapply reachable_step; [done|by apply op_okb_spec|done].
Qed.

(** ** The tableau *)

Definition s0 : NodeHandle := mkHandle 0 1.
Definition t0 : NodeHandle := mkHandle 1 1.
Definition c1 : NodeHandle := mkHandle 2 1.
Definition c2 : NodeHandle := mkHandle 3 1.
Definition at_level (l : N) : DependencySet := mkDep [l].

Definition open_ops : list operation :=
  [ OpCreateNode Root None false None None None;
    OpCreateNode Root None false None None None;
    OpCreateNode Tree (Some s0) false None None None;
    OpCreateNode Tree (Some s0) false None None None;
    OpBegin;
    OpAddFact 5 [c1; c2] Dep.empty false None;
    OpAddFact 6 [c2] Dep.empty true (Some 1);
    OpAddDisjunction [10; 11] Dep.empty;
    OpPushBranch "merge" [0; 1] 7 Dep.empty;
    OpAddFact 8 [c2] (at_level 0) false None ].

Definition demo : TableauKernel := (perform_all open_ops TableauKernel_new).2.

Lemma demo_reachable : reachable demo.
Proof.
  eapply (perform_all_reachable open_ops _ [s0; t0; c1; c2]); [apply reachable_new|reflexivity|].
  vm_compute. reflexivity.
Qed.

Lemma demo_wf : wf demo.
Proof. apply reachable_wf, demo_reachable. Qed.

(** * Theorems about facts, nodes, queues and dependencies

    The properties of the parts of the kernel's state, each evaluated on the
    tableau of [Scenario]. *)

Import Kernel.

(** ** Facts *)

(** C21: adding a fact resolves its arguments to their active representatives
    and makes exactly that fact derivable, from the dependency joined with those
    of the merge links, and from every larger one. *)
Theorem add_fact_refines pid args dep is_core p k out k' :
  wf k → canonical dep → add_fact_detailed pid args dep is_core p k = (Ok out, k') →
  ∃ resolved, Forall2 (argument_of (nodes (state k))) args resolved ∧
    let key := mkFactKey pid resolved.*1 in
    let support := Dep.union (dep :: resolved.*2) in
    (∀ key' d, derivable (state k') key' d ↔
      derivable (state k) key' d ∨ (key' = key ∧ levels support ⊆ levels d)) ∧
    facts_by_key (state k') !! key = Some (out_row_id out) ∧
    (out_created out = true ↔ ∀ d, ¬ derivable (state k) key d) ∧ wf k'.
Proof.
  intros Hk Hd H. pose proof (wf_state _ Hk) as [Ha Hf _].
  pose proof (keeps_preserves _ (keeps_add_fact_detailed pid args dep is_core p Hd) _ _ _ Hk H) as Hk'.
  destruct (add_fact_detailed_Ok _ _ _ _ _ _ _ _ (arena_slots _ _ Ha) H)
    as (_ & _ & _ & resolved & Hres & Hrest). cbv zeta in Hrest.
  destruct Hrest as (_ & Hst & Hout). exists resolved. split; [done|]. cbv zeta. split_and!; [| | |done].
  - intros key' d. rewrite Hst. apply (derivable_fact_added (top k)); [done|apply canonical_union|].
    intros E. rewrite E in Hout. apply Hout.
  - rewrite Hst. unfold fact_added. destruct (facts_by_key (state k) !! _) as [rid|] eqn:E.
    + destruct Hout as (row & _ & ->). cbn. by rewrite E.
    + destruct Hout as [_ ->]. cbn. by rewrite lookup_insert_eq.
  - destruct (facts_by_key (state k) !! _) as [rid|] eqn:E.
    + destruct Hout as (row & _ & ->). cbn. split; [done|]. intros Hno.
      apply (facts_key _ _ Hf) in E as (r & Hr & Hkey).
      destruct (supports r) as [|d ds] eqn:Es.
      * by destruct (supports_nonempty _ _ (row_supports _ _ _ (facts_rows _ _ Hf _ _ Hr))).
      * destruct (Hno d). exists (N.to_nat rid), r. split_and!; [done|done|]. exists d. rewrite Es. split; [by left|done].
    + destruct Hout as [_ ->]. cbn. split; [|done]. intros _ d (i & r & Hr & Hkey & _).
      assert (facts_by_key (state k) !! row_key r = Some (N.of_nat i)) as E'.
      { apply (facts_key _ _ Hf). exists r. by rewrite Nat2N.id. }
      rewrite Hkey in E'. congruence.
Qed.

Lemma add_fact_refines_witness :
  let k' := (add_fact_detailed 9 [c1] (at_level 0) false None demo).2 in
  ∃ resolved, Forall2 (argument_of (nodes (state demo))) [c1] resolved ∧
    let key := mkFactKey 9 resolved.*1 in
    let support := Dep.union (at_level 0 :: resolved.*2) in
    (∀ key' d, derivable (state k') key' d ↔
      derivable (state demo) key' d ∨ (key' = key ∧ levels support ⊆ levels d)) ∧
    facts_by_key (state k') !! key = Some 3 ∧
    (true = true ↔ ∀ d, ¬ derivable (state demo) key d) ∧ wf k'.
Proof.
  apply (add_fact_refines 9 [c1] (at_level 0) false None demo (mkFactAddOutcome 3 true true));
    [apply demo_wf|repeat constructor|vm_compute; reflexivity].
Defined.

(** Deactivating an active row removes the derivations of its fact and no
    others. *)
Theorem deactivate_fact_refines rid k u k' row :
  wf k → active_row (state k) (N.to_nat rid) row → deactivate_fact rid k = (Ok u, k') →
  wf k' ∧ ∀ key d, derivable (state k') key d ↔ derivable (state k) key d ∧ key ≠ row_key row.
Proof.
  intros Hk Hrow H. split; [by eapply (keeps_preserves _ (keeps_deactivate_fact rid))|].
  pose proof (state_facts _ _ (wf_state _ Hk)) as Hf.
  apply deactivate_fact_Ok in H as (row' & Hr' & _ & Hst); [|apply (facts_ids _ _ Hf)].
  destruct Hrow as [Hl Hact]. assert (row' = row) as -> by congruence. rewrite Hst, Hact.
  intros key d. by apply (derivable_fact_removed (top k) _ (N.to_nat rid)).
Qed.

Lemma deactivate_fact_refines_witness :
  let k' := (deactivate_fact 1 demo).2 in
  wf k' ∧ ∀ key d, derivable (state k') key d ↔ derivable (state demo) key d ∧ key ≠ mkFactKey 6 [c2].
Proof.
  apply (deactivate_fact_refines 1 demo tt _ (mkFactRow 1 (mkFactKey 6 [c2]) [Dep.empty] true true 0 {[1]}));
    [apply demo_wf|split; vm_compute; reflexivity|vm_compute; reflexivity].
Defined.

(** C22: the indexed search for facts with given arguments finds what a scan of
    all rows finds, in the order of their ids. *)
Theorem candidate_fact_ids_is_scan k pid bindings :
  wf k → (∀ position h, bindings !! position = Some h → active_handle (nodes (state k)) h) →
  candidate_fact_ids pid bindings k =
  Ok (row_id <$> List.filter (row_matches pid (btree_entries bindings)) (facts (state k))).
Proof. intros Hk. apply (candidate_fact_ids_scan (top k)), (state_facts _ _ (wf_state _ Hk)). Qed.

Lemma candidate_fact_ids_is_scan_witness :
  candidate_fact_ids 5 {[1 := c2]} demo =
  Ok (row_id <$> List.filter (row_matches 5 (btree_entries {[1 := c2]})) (facts (state demo))).
Proof.
  apply (candidate_fact_ids_is_scan demo 5); [apply demo_wf|].
  intros position h [_ <-]%lookup_singleton_Some. exists (default (created_node c2 0 Root None 0 0 false None None None) (nodes (state demo) !! 3%nat ≫= id)).
  vm_compute. split_and!; [reflexivity|reflexivity|discriminate|reflexivity].
Defined.

(** The supports of a row stay an antichain of canonical dependency sets,
    and adding one adds exactly what it covers. *)
Theorem add_support_refines hi d ds :
  canonical d → dep_bounded hi d → supports_ok hi ds →
  supports_ok hi (add_support d ds) ∧ ∀ e, covers (add_support d ds) e ↔ covers ds e ∨ levels d ⊆ levels e.
Proof.
  intros Hc Hb Hds. split; [by apply add_support_ok|]. intros e. apply add_support_covers; [done|]. by destruct Hds.
Qed.

Lemma add_support_refines_witness :
  supports_ok 5 (add_support (mkDep [1; 3]) [mkDep [1; 2]]) ∧
  ∀ e, covers (add_support (mkDep [1; 3]) [mkDep [1; 2]]) e ↔ covers [mkDep [1; 2]] e ∨ levels (mkDep [1; 3]) ⊆ levels e.
Proof.
  apply (add_support_refines 5).
  - repeat constructor.
  - intros l [->|[->|[]%not_elem_of_nil]%elem_of_cons]%elem_of_cons; lia.
  - apply supports_ok_singleton; [repeat constructor|].
    intros l [->|[->|[]%not_elem_of_nil]%elem_of_cons]%elem_of_cons; lia.
Defined.

(** ** Nodes *)

(** Every live node has a representative: the walk along the merge links
    ends, at the node the links lead to, with the union of their dependencies. *)
Theorem representative_total k h n :
  wf k → require_node h k = Ok n →
  ∃ r ds, representative h k = Ok (r, Dep.union ds) ∧ resolves (nodes (state k)) h r ds ∧
    ∃ m, require_node r k = Ok m ∧ n_representative m = None.
Proof.
  intros Hk Hn%require_node_Ok. pose proof (state_arena _ _ (wf_state _ Hk)) as Ha.
  destruct (arena_resolves _ _ Ha _ _ Hn) as (r & ds & Hr). exists r, ds. split_and!; [|done|].
  - apply representative_Ok; [apply (arena_slots _ _ Ha)|eauto].
  - apply resolves_target in Hr as (m & Hm & Hmr); [|apply (arena_slots _ _ Ha)]. exists m.
    split; [by apply require_node_Ok|done].
Qed.

(** The tableau after merging the children. *)
Definition merged_demo : TableauKernel := (merge_nodes c1 c2 (at_level 0) demo).2.

Lemma merged_demo_wf : wf merged_demo.
Proof.
  assert ((merge_nodes c1 c2 (at_level 0) demo).1 = Ok c1) as E by (vm_compute; reflexivity).
  unfold merged_demo. destruct (merge_nodes c1 c2 (at_level 0) demo) as [r k'] eqn:Em. cbn in E |- *. subst r.
  eapply (preserves_merge_nodes c1 c2 (at_level 0)); [repeat constructor|apply demo_wf|exact Em].
Qed.

Lemma representative_total_witness :
  ∃ r ds, representative c2 merged_demo = Ok (r, Dep.union ds) ∧ resolves (nodes (state merged_demo)) c2 r ds ∧
    ∃ m, require_node r merged_demo = Ok m ∧ n_representative m = None.
Proof.
  eapply (representative_total merged_demo c2); [apply merged_demo_wf|vm_compute; reflexivity].
Defined.

(** The parent chain of a live node climbs. *)
Lemma has_ancestor_loop_total hi k fuel o a seen depth :
  arena_ok hi (state k) →
  match o with
  | Some v => ∃ m, stored (nodes (state k)) v m ∧ n_tree_depth m < depth
  | None => True
  end →
  (∀ x, x ∈ seen → ∃ m, stored (nodes (state k)) x m ∧ depth ≤ n_tree_depth m) →
  ∀ e, has_ancestor_loop fuel k o a seen ≠ Err e.
Proof.
  intros Ha. revert o seen depth. induction fuel as [|fuel IH]; intros o seen depth Ho Hseen e; cbn; [done|].
  destruct o as [v|]; [|done]. destruct Ho as (m & Hm & Hlt). case_bool_decide; [done|].
  rewrite bool_decide_eq_false_2.
  2: { intros (m' & Hm' & Hle)%Hseen. pose proof (stored_fun _ _ _ _ Hm Hm') as <-. lia. }
  rewrite (proj2 (require_node_Ok v k m) Hm), bind_Ok_l. apply (IH _ _ (n_tree_depth m)).
  - destruct (n_parent m) as [p|] eqn:Hp; [|done]. pose proof Hm as [Hl _].
    pose proof (node_tree _ _ _ _ (arena_node _ _ Ha _ _ Hl)) as Ht. case_bool_decide; [|by destruct Ht; congruence].
    destruct Ht as (p' & mp & Hp' & Hmp & Hd & _). assert (p' = p) as -> by congruence. exists mp. split; [done|lia].
  - intros x [->%elem_of_singleton|(mx & ? & ?)%Hseen]%elem_of_union; [by exists m|]. exists mx. split; [done|lia].
Qed.

(** The question whether a node is above another is always answered, and
    rightly: the walk along the parents ends. *)
Theorem has_ancestor_decides k h n a :
  wf k → require_node h k = Ok n →
  ∃ b, has_ancestor n a k = Ok b ∧ (b = true ↔ ancestor (nodes (state k)) (n_parent n) a).
Proof.
  intros Hk Hn%require_node_Ok. pose proof (state_arena _ _ (wf_state _ Hk)) as Ha.
  destruct (has_ancestor n a k) as [b|e|] eqn:E.
  - exists b. split; [done|]. by apply has_ancestor_Ok in E.
  - exfalso. revert E. apply (has_ancestor_loop_total (top k) k _ _ _ _ (n_tree_depth n)); [done| |set_solver].
    destruct (n_parent n) as [p|] eqn:Hp; [|done]. pose proof Hn as [Hl _].
    pose proof (node_tree _ _ _ _ (arena_node _ _ Ha _ _ Hl)) as Ht. case_bool_decide; [|by destruct Ht; congruence].
    destruct Ht as (p' & mp & Hp' & Hmp & Hd & _). assert (p' = p) as -> by congruence. exists mp. split; [done|lia].
  - by apply has_ancestor_not_crash in E.
Qed.

Lemma has_ancestor_decides_witness :
  ∃ n, require_node c1 demo = Ok n ∧
  ∃ b, has_ancestor n s0 demo = Ok b ∧ (b = true ↔ ancestor (nodes (state demo)) (n_parent n) s0).
Proof.
  eexists. split; [vm_compute; reflexivity|].
  apply (has_ancestor_decides demo c1); [apply demo_wf|vm_compute; reflexivity].
Defined.

(** A new node gets a handle that named no node before, becomes an active
    node one level below its parent, and leaves every other node as it was. *)
Theorem create_node_fresh kind parent named sid nominal tag k h k' :
  wf k → create_node kind parent named sid nominal tag k = (Ok h, k') →
  wf k' ∧ (∀ n, ¬ stored (nodes (state k)) h n) ∧
  (∃ n, stored (nodes (state k')) h n ∧ n_handle n = h ∧ n_kind n = kind ∧ n_lifecycle n = Active ∧
    n_parent n = parent ∧ depth_ok kind parent (nodes (state k)) (n_tree_depth n)) ∧
  (∀ h' n, stored (nodes (state k)) h' n → stored (nodes (state k')) h' n) ∧
  facts (state k') = facts (state k).
Proof.
  intros Hk H. split; [by eapply (keeps_preserves _ (keeps_create_node kind parent named sid nominal tag))|].
  pose proof (state_arena _ _ (wf_state _ Hk)) as Ha. apply create_node_Ok in H.
  destruct (arena_slot (state k)) as [[i ns] gens] eqn:Es.
  destruct H as (depth & g & Hd & Hg & _ & _ & Hi & _ & -> & _ & ->). cbn.
  assert (∀ j n, nodes (state k) !! j = Some (Some n) → j ≠ i ∧ ns !! j = Some (Some n)) as Hold.
  { unfold arena_slot in Es. destruct (btree_pop_first (free_slots (state k))) as [[x rest]|] eqn:Ep; injection Es as <- <- <-.
    - apply btree_pop_first_Some in Ep as (Hx & _ & _). rewrite (arena_free _ _ Ha) in Hx.
      apply vacant_slots_spec in Hx; [|apply (arena_capacity _ _ Ha)]. intros j n Hj. split; [|done]. intros ->. congruence.
    - intros j n Hj. split; [|by apply lookup_app_l_Some]. apply lookup_lt_Some in Hj. lia. }
  split_and!; [| | |done].
  - intros n [Hl _]. cbn in Hl. rewrite Nat2N.id in Hl. by destruct (Hold _ _ Hl).
  - exists (created_node (mkHandle (N.of_nat i) (g + 1)) (next_creation_id (state k)) kind parent depth (top k) named sid nominal tag).
    split_and!; try done. split; cbn; [|done]. rewrite Nat2N.id.
    apply list_lookup_insert_eq. by apply lookup_lt_is_Some.
  - intros h' n (Hl & Hgen & Hlc). destruct (Hold _ _ Hl) as [Hne Hns]. split; [|done]. by rewrite list_lookup_insert_ne.
Qed.

Lemma create_node_fresh_witness :
  let h := mkHandle 4 1 in let k' := (create_node Tree (Some c1) false None None None demo).2 in
  wf k' ∧ (∀ n, ¬ stored (nodes (state demo)) h n) ∧
  (∃ n, stored (nodes (state k')) h n ∧ n_handle n = h ∧ n_kind n = Tree ∧ n_lifecycle n = Active ∧
    n_parent n = Some c1 ∧ depth_ok Tree (Some c1) (nodes (state demo)) (n_tree_depth n)) ∧
  (∀ h' n, stored (nodes (state demo)) h' n → stored (nodes (state k')) h' n) ∧
  facts (state k') = facts (state demo).
Proof.
  apply (create_node_fresh Tree (Some c1) false None None None demo); [apply demo_wf|vm_compute; reflexivity].
Defined.

(** ** Disjunctions, queues and clashes *)

(** [take_disjunction] takes the pending disjunction with the least id and
    marks it processed, and answers [None] only when none is pending. *)
Theorem take_disjunction_least k o k' :
  wf k → take_disjunction k = (Ok o, k') →
  wf k' ∧
  match o with
  | None => ∀ m e, disjunctions (state k) !! m = Some e → pending e = false
  | Some did => ∃ n d, did = N.of_nat n ∧ disjunctions (state k) !! n = Some d ∧ pending d = true ∧
      (∀ m e, disjunctions (state k) !! m = Some e → pending e = true → (n ≤ m)%nat) ∧
      disjunctions (state k') = alter (λ d, d <| d_processed := true |>) n (disjunctions (state k))
  end.
Proof.
  intros Hk H. split; [by eapply (keeps_preserves _ keeps_take_disjunction)|].
  apply (take_disjunction_Ok (top k)) in H as [_ H]; [|apply (state_agenda _ _ (wf_state _ Hk))].
  destruct o as [did|]; [|by destruct H]. destruct H as (n & d & q & -> & Hn & Hp & Hmin & _ & ->).
  exists n, d. by split_and!.
Qed.

Lemma take_disjunction_least_witness :
  let k' := (take_disjunction demo).2 in
  wf k' ∧ ∃ n d, 0 = N.of_nat n ∧ disjunctions (state demo) !! n = Some d ∧ pending d = true ∧
      (∀ m e, disjunctions (state demo) !! m = Some e → pending e = true → (n ≤ m)%nat) ∧
      disjunctions (state k') = alter (λ d, d <| d_processed := true |>) n (disjunctions (state demo)).
Proof. apply (take_disjunction_least demo (Some 0)); [apply demo_wf|vm_compute; reflexivity]. Defined.

(** Popping a stable queue until it is empty yields its values by ascending
    priority, in as many turns as it has entries. *)
Theorem queue_drains_in_order q fuel :
  (size (entries q) ≤ fuel)%nat →
  ∃ q', drain fuel q = (Queue.values q, q') ∧ entries q' = ∅ ∧ StronglySorted ord_lt (btree_entries (entries q)).*1.
Proof.
  intros Hq. destruct (drain_order q fuel Hq) as [Hd He]. exists (drain fuel q).2.
  split_and!; [exact Hd|done|apply btree_entries_sorted].
Qed.

Lemma queue_drains_in_order_witness :
  let q := (Queue.enqueue (Integer 8) [1%Z] (Queue.enqueue (Integer 9) [2%Z] Queue.default).2).2 in
  ∃ q', drain 2 q = (Queue.values q, q') ∧ entries q' = ∅ ∧ StronglySorted ord_lt (btree_entries (entries q)).*1.
Proof. cbv zeta. apply queue_drains_in_order. vm_compute. repeat constructor. Defined.

(** A longer rank compares by its leading components first. *)
Lemma ord_le_fst {A B} `{Ord A} `{Ord B} (x y : A * B) : ord_le x y → ord_le x.1 y.1.
Proof.
  destruct x as [a b], y as [a' b']. unfold ord_le. intros Hle Hgt. apply Hle.
  unfold compare, prod_ord, prod_cmp, then_cmp. cbn in *. by rewrite Hgt.
Qed.

Lemma ord_lt_fst {A B} `{Ord A} `{Ord B} (x y : A * B) : ord_lt x.1 y.1 → ord_lt x y.
Proof.
  destruct x as [a b], y as [a' b']. unfold ord_lt. intros Hlt.
  unfold compare, prod_ord, prod_cmp, then_cmp. cbn in *. by rewrite Hlt.
Qed.

(** A subset has the smaller rank. *)
Lemma subset_rank d e :
  canonical d → canonical e → levels d ⊆ levels e → ord_le (dependency_rank d) (dependency_rank e).
Proof.
  intros Hd He Hsub. pose proof (StronglySorted_lt_NoDup _ Hd) as Nd. pose proof (StronglySorted_lt_NoDup _ He) as Ne.
  assert (length (as_slice d) = size (levels d)) as Ed by (symmetry; by apply size_list_to_set).
  assert (length (as_slice e) = size (levels e)) as Ee by (symmetry; by apply size_list_to_set).
  pose proof (subseteq_size _ _ Hsub) as Hsz. destruct (decide (size (levels d) = size (levels e))) as [Heq|Hne].
  - assert (levels d = levels e) as El by (apply set_eq; apply set_subseteq_size_equiv; [done|lia]).
    by rewrite (levels_inj _ _ Hd He El).
  - apply ord_le_lt_eq. left. do 2 apply ord_lt_fst. cbn. rewrite Ed, Ee. apply Nat.compare_lt_iff. lia.
Qed.

(** Of two clashes the kernel keeps one whose dependency rank is least, so
    never one whose dependency strictly contains the other's. *)
Theorem select_clash_least current candidate :
  canonical (clash_dependency current) → canonical (clash_dependency candidate) →
  let c := select_clash current candidate in
  (c = current ∨ c = candidate) ∧
  ord_le (dependency_rank (clash_dependency c)) (dependency_rank (clash_dependency current)) ∧
  ord_le (dependency_rank (clash_dependency c)) (dependency_rank (clash_dependency candidate)).
Proof.
  intros H1 H2. cbv zeta. split; [apply select_clash_cases|]. unfold select_clash.
  destruct (Dep.is_subset_of _ _) eqn:E1; [|destruct (Dep.is_subset_of (clash_dependency candidate) _) eqn:E2].
  - apply is_subset_of_levels in E1; [|done]. split; [done|by apply subset_rank].
  - apply is_subset_of_levels in E2; [|done]. split; [by apply subset_rank|done].
  - case_bool_decide as Hle.
    + split; [done|]. by do 3 apply ord_le_fst in Hle.
    + split; [|done]. apply ord_not_le in Hle. assert (ord_le (clash_rank candidate) (clash_rank current)) as Hle'.
      { apply ord_le_lt_eq. by left. }
      by do 3 apply ord_le_fst in Hle'.
Qed.

Lemma select_clash_least_witness :
  let c := select_clash (mkClash "bottom" (mkDep [0; 2]) [] None) (mkClash "bottom" (mkDep [1]) [] None) in
  (c = mkClash "bottom" (mkDep [0; 2]) [] None ∨ c = mkClash "bottom" (mkDep [1]) [] None) ∧
  ord_le (dependency_rank (clash_dependency c)) (dependency_rank (mkDep [0; 2])) ∧
  ord_le (dependency_rank (clash_dependency c)) (dependency_rank (mkDep [1])).
Proof.
  apply (select_clash_least (mkClash "bottom" (mkDep [0; 2]) [] None) (mkClash "bottom" (mkDep [1]) [] None));
    repeat constructor.
Defined.

(** ** Dependency sets *)

(** Dependency sets are sorted vectors that behave as finite sets: union,
    insertion and removal keep them canonical and compute the set operation,
    the subset test and the maximum are those of the set, and two canonical
    vectors with the same members are equal. *)
Theorem dependency_sets_are_sets d e l :
  canonical d → canonical e →
  (canonical (Dep.union [d; e]) ∧ levels (Dep.union [d; e]) = levels d ∪ levels e) ∧
  (canonical (Dep.add d l) ∧ levels (Dep.add d l) = {[l]} ∪ levels d) ∧
  (canonical (Dep.without d l) ∧ levels (Dep.without d l) = levels d ∖ {[l]}) ∧
  (Dep.is_subset_of d e = true ↔ levels d ⊆ levels e) ∧
  (∀ m, Dep.maximum d = Some m ↔ m ∈ levels d ∧ ∀ x, x ∈ levels d → x ≤ m) ∧
  (levels d = levels e → d = e).
Proof.
  intros Hd He. split_and!.
  - apply canonical_union.
  - apply set_eq. intros x. rewrite elem_of_union, !elem_of_levels, elem_of_union_dep. set_solver.
  - by apply canonical_add.
  - apply set_eq. intros x. rewrite elem_of_union, elem_of_singleton, !elem_of_levels. apply elem_of_add.
  - by apply canonical_without.
  - apply set_eq. intros x. rewrite elem_of_difference, elem_of_singleton, !elem_of_levels. rewrite elem_of_without by done. tauto.
  - by apply is_subset_of_levels.
  - intros m. split.
    + intros [Hm Hmax]%canonical_maximum; [|done]. rewrite elem_of_levels. split; [done|].
      intros x Hx%elem_of_levels. by apply Hmax.
    + intros [Hm Hmax]. destruct (Dep.maximum d) as [m'|] eqn:E.
      * apply canonical_maximum in E as [Hm' Hmax']; [|done]. f_equal. apply N.le_antisymm.
        -- apply Hmax. by apply elem_of_levels.
        -- apply Hmax'. by apply elem_of_levels.
      * apply maximum_None in E. apply elem_of_levels in Hm. rewrite E in Hm. set_solver.
  - by apply levels_inj.
Qed.

Lemma dependency_sets_are_sets_witness :
  let d := mkDep [1; 4] in let e := mkDep [2] in
  (canonical (Dep.union [d; e]) ∧ levels (Dep.union [d; e]) = levels d ∪ levels e) ∧
  (canonical (Dep.add d 3) ∧ levels (Dep.add d 3) = {[3]} ∪ levels d) ∧
  (canonical (Dep.without d 3) ∧ levels (Dep.without d 3) = levels d ∖ {[3]}) ∧
  (Dep.is_subset_of d e = true ↔ levels d ⊆ levels e) ∧
  (∀ m, Dep.maximum d = Some m ↔ m ∈ levels d ∧ ∀ x, x ∈ levels d → x ≤ m) ∧
  (levels d = levels e → d = e).
Proof. apply (dependency_sets_are_sets (mkDep [1; 4]) (mkDep [2]) 3); repeat constructor. Defined.
