(* ===== verification/KernelTheorems.v ===== *)
(** * Theorems about the tableau kernel

    The properties of the kernel's operations, each evaluated on the tableau of
    [Scenario]. *)

From S2P Require Import Prelude Order Errors Model Queue Store Kernel KernelBase Arena Facts FactOps.
From S2P Require Import StateInv NodeOps Merge Prune KernelInv Totality AuditSpec StoreTheorems.
Import Kernel.

(** ** Reachable kernels *)

(** C1: every kernel that public operations reach from a new one, through
    successes and rolled-back transactions, satisfies the invariant [wf]. *)
Theorem reachable_kernels_wf k : reachable k → wf k.
Proof. apply reachable_wf. Qed.

Lemma reachable_kernels_wf_witness : wf demo.
Proof. apply reachable_kernels_wf. apply demo_reachable. Defined.

(** C2: no public operation panics or loops on a reachable kernel: it returns a
    value or an error. *)
Theorem operations_return op k : reachable k → ∃ r k', perform op k = (r, k') ∧ r ≠ Crash.
Proof.
  intros Hk%reachable_wf. destruct (perform op k) as [r k'] eqn:E. exists r, k'. split; [done|].
  pose proof (perform_returns op k Hk) as Hr. by rewrite E in Hr.
Qed.

Lemma operations_return_witness : ∃ r k', perform (OpMerge c1 c2 (at_level 0)) demo = (r, k') ∧ r ≠ Crash.
Proof. apply (operations_return (OpMerge c1 c2 (at_level 0)) demo). apply demo_reachable. Defined.

(** C20: a node handle is issued at most once in the life of a kernel, whatever
    was retired, backtracked or rolled back in between. *)
Theorem handles_never_reissued hs k : history hs k → NoDup hs.
Proof. intros H. apply (history_fresh hs k H). Qed.

Lemma handles_never_reissued_witness : NoDup [mkHandle 0 2; mkHandle 0 1].
Proof.
  eapply (handles_never_reissued [mkHandle 0 2; mkHandle 0 1]).
  eapply (history_step [mkHandle 0 1] (OpCreateNode Root None false None None None) _ (Ok [mkHandle 0 2])).
  - eapply (history_step [mkHandle 0 1] (OpRetireNode (mkHandle 0 1)) _ (Ok [])).
    + eapply (history_step [] (OpCreateNode Root None false None None None) _ (Ok [mkHandle 0 1]));
        [apply history_new|vm_compute; reflexivity].
    + vm_compute. reflexivity.
  - vm_compute. reflexivity.
Defined.

(** ** Merging *)

(** C3: merging two nodes follows their links, and when the representatives
    differ exactly the source is linked to the target under the combined
    dependency; the source's facts reappear at the target with their supports
    joined with it, nothing else becomes derivable, and no active fact mentions
    the source any more. *)
Theorem merge_nodes_refines left right dep k target k' :
  wf k → canonical dep → merge_nodes left right dep k = (Ok target, k') →
  ∃ l dl r dr, resolves (nodes (state k)) left l dl ∧ resolves (nodes (state k)) right r dr ∧
    let combined := Dep.union [dep; Dep.union dl; Dep.union dr] in
    if decide (l = r) then target = l ∧ k' = k
    else ∃ source, (target = l ∧ source = r ∨ target = r ∧ source = l) ∧ merged source target combined k k'.
Proof.
  intros Hk Hc [[Hv H]|(_ & e & ? & _)]%merge_nodes_split; [|done]. apply atomic_cases in H as (k1 & H & ->).
  eapply merge_nodes_inner_Ok; [apply (wf_state _ Hk)|done|by eapply validate_dependency_bounded|done].
Qed.

Lemma merge_nodes_refines_witness :
  let k' := (merge_nodes c1 c2 (at_level 0) demo).2 in
  ∃ l dl r dr, resolves (nodes (state demo)) c1 l dl ∧ resolves (nodes (state demo)) c2 r dr ∧
    let combined := Dep.union [at_level 0; Dep.union dl; Dep.union dr] in
    if decide (l = r) then c1 = l ∧ k' = demo
    else ∃ source, (c1 = l ∧ source = r ∨ c1 = r ∧ source = l) ∧ merged source c1 combined demo k'.
Proof.
  apply (merge_nodes_refines c1 c2 (at_level 0) demo); [apply demo_wf|repeat constructor|vm_compute; reflexivity].
Defined.

(** A merge that fails leaves facts, nodes, queues, branches and trail as
    they were. *)
Theorem merge_nodes_rolls_back left right dep k e k' :
  wf k → merge_nodes left right dep k = (Err e, k') →
  state k' = state k ∧ branches k' = branches k ∧ operation_root k' = operation_root k ∧
  trail_length k' = trail_length k.
Proof.
  intros Hk [[_ H]|[-> _]]%merge_nodes_split; [|done].
  eapply atomic_rollback; [apply steady_merge_nodes_inner|apply (state_arena _ _ (wf_state _ Hk))|done].
Qed.

(** A trail with room for two more mutations: the merge fails after it has
    rewritten some rows. *)
Definition near_full : TableauKernel := demo <| trail_length := u64_max - 2 |>.

Lemma wf_longer_trail k n : wf k → trail_length k ≤ n → wf (k <| trail_length := n |>).
Proof.
  intros Hk Hn. eapply wf_frame; [exact Hk|by split|]. apply (wf_state _ Hk).
Qed.

Lemma near_full_wf : wf near_full.
Proof. apply wf_longer_trail; [apply demo_wf|]. vm_compute. discriminate. Qed.

Lemma merge_nodes_rolls_back_witness :
  let k' := (merge_nodes c1 c2 (at_level 0) near_full).2 in
  state k' = state near_full ∧ branches k' = branches near_full ∧
  operation_root k' = operation_root near_full ∧ trail_length k' = trail_length near_full.
Proof.
  eapply (merge_nodes_rolls_back c1 c2 (at_level 0) near_full (NativeErr.invariant "trail length overflow"));
    [apply near_full_wf|vm_compute; reflexivity].
Defined.

(** ** Pruning *)

(** C34: pruning a subtree marks exactly its active nodes, once each, keeps all
    other nodes, and deactivates exactly the facts that mention one of them. *)
Theorem prune_subtree_exact root k hs k' :
  wf k → prune_subtree root k = (Ok hs, k') → pruned root hs k k'.
Proof.
  intros Hk H. unfold prune_subtree in H. apply st_bind_Ok in H as (n & ? & [_ ->]%reads_Ok & H).
  apply atomic_cases in H as (k1 & H & ->). apply prune_subtree_inner_Ok; [apply (wf_state _ Hk)|done].
Qed.

Lemma prune_subtree_exact_witness : pruned s0 [c1; c2; s0] demo (prune_subtree s0 demo).2.
Proof. apply (prune_subtree_exact s0 demo); [apply demo_wf|vm_compute; reflexivity]. Defined.

(** A prune that fails leaves the kernel's state, branches and trail as they
    were. *)
Theorem prune_subtree_rolls_back root k e k' :
  wf k → prune_subtree root k = (Err e, k') →
  state k' = state k ∧ branches k' = branches k ∧ operation_root k' = operation_root k ∧
  trail_length k' = trail_length k.
Proof.
  intros Hk H. unfold prune_subtree, mbind, st_bind, reads in H.
  destruct (require_active root k) as [n|e'|]; [|by injection H as _ <-|done].
  eapply atomic_rollback; [apply steady_prune_subtree_inner|apply (state_arena _ _ (wf_state _ Hk))|done].
Qed.

Lemma prune_subtree_rolls_back_witness :
  let k' := (prune_subtree s0 near_full).2 in
  state k' = state near_full ∧ branches k' = branches near_full ∧
  operation_root k' = operation_root near_full ∧ trail_length k' = trail_length near_full.
Proof.
  eapply (prune_subtree_rolls_back s0 near_full (NativeErr.invariant "trail length overflow"));
    [apply near_full_wf|vm_compute; reflexivity].
Defined.

(** ** The audit and backtracking *)

(** C38: on a well-formed kernel the audit [check_invariants] accepts exactly
    when every merged node still leads to an active one and the reuse-branch
    records are consistent. *)
Theorem audit_decides k :
  wf k → check_invariants k = Ok tt ↔ links_live k ∧ check_reuse_branches k = Ok tt.
Proof. apply check_invariants_spec. Qed.

Lemma audit_decides_witness :
  check_invariants demo = Ok tt ↔ links_live demo ∧ check_reuse_branches demo = Ok tt.
Proof. apply (audit_decides demo). apply demo_wf. Defined.

(** Backtracking restores the branch's snapshot, up to the generation
    table, drops the branches above it, and succeeds exactly when the restored
    kernel passes the audit. *)
Theorem backtrack_restores lvl k b :
  wf k → branches k !! N.to_nat lvl = Some b →
  let k' := restore (b_snapshot b) k <| branches := take (S (N.to_nat lvl)) (branches k) |> in
  backtrack_to lvl k = (Ok tt, k') ↔ links_live k' ∧ check_reuse_branches k' = Ok tt.
Proof. apply backtrack_to_succeeds. Qed.

Lemma backtrack_restores_witness :
  ∃ b, branches demo !! 0%nat = Some b ∧
  let k' := restore (b_snapshot b) demo <| branches := take 1 (branches demo) |> in
  backtrack_to 0 demo = (Ok tt, k') ↔ links_live k' ∧ check_reuse_branches k' = Ok tt.
Proof.
  eexists. split; [vm_compute; reflexivity|].
  apply (backtrack_restores 0 demo); [apply demo_wf|vm_compute; reflexivity].
Defined.

(** Advancing a branch returns to its snapshot, records what was learned
    and moves to the next alternative, or drops the branch when none is left. *)
Theorem advance_branch_refines lvl learned k o k' :
  wf k → advance_branch lvl learned k = (Ok o, k') →
  wf k' ∧ ∃ b, branches k !! N.to_nat lvl = Some b ∧
  match o with
  | Some alternative =>
      alternatives b !! S (next_alternative b) = Some alternative ∧
      k' = restore (b_snapshot b) k <| branches := take (N.to_nat lvl) (branches k) ++ [advanced learned b] |>
  | None =>
      (length (alternatives b) ≤ S (next_alternative b))%nat ∧
      k' = restore (b_snapshot b) k <| branches := take (N.to_nat lvl) (branches k) |>
  end.
Proof. intros Hk H. split; [by eapply preserves_advance_branch|by apply advance_branch_Ok]. Qed.

Lemma advance_branch_refines_witness :
  let k' := (advance_branch 0 Dep.empty demo).2 in
  wf k' ∧ ∃ b, branches demo !! 0%nat = Some b ∧
    alternatives b !! S (next_alternative b) = Some 1 ∧
    k' = restore (b_snapshot b) demo <| branches := take 0 (branches demo) ++ [advanced Dep.empty b] |>.
Proof. apply (advance_branch_refines 0 Dep.empty demo (Some 1)); [apply demo_wf|vm_compute; reflexivity]. Defined.

(** The operations of the scenario below. *)
Definition merge_then_prune : list operation :=
  [ OpCreateNode Root None false None None None;
    OpCreateNode Tree (Some s0) false None None None;
    OpCreateNode Tree (Some s0) false None None None;
    OpMerge (mkHandle 1 1) (mkHandle 2 1) Dep.empty;
    OpPrune (mkHandle 1 1);
    OpPushBranch "merge" [0; 1] 7 Dep.empty ].

(** Pruning the representative of a merged node leaves a dead link.  After
    merging two siblings and pruning the survivor, every operation so far has
    succeeded, and yet the audit rejects the kernel and backtracking to the
    branch just opened fails. *)
Theorem pruning_leaves_dead_link :
  ∃ hs k e k', perform_all merge_then_prune TableauKernel_new = (Ok hs, k) ∧ reachable k ∧
    ¬ links_live k ∧ check_invariants k = Err e ∧ backtrack_to 0 k = (Err e, k').
Proof.
  set (k := (perform_all merge_then_prune TableauKernel_new).2).
  assert (perform_all merge_then_prune TableauKernel_new = (Ok [s0; mkHandle 1 1; mkHandle 2 1], k)) as E
    by (vm_compute; reflexivity).
  assert (reachable k) as Hr.
  { eapply perform_all_reachable; [apply reachable_new| |exact E]. reflexivity. }
  assert (check_invariants k = Err (NativeErr.invariant "merged node representative is invalid")) as Ec by (vm_compute; reflexivity).
  assert (check_reuse_branches k = Ok tt) as Eb by (vm_compute; reflexivity).
  assert ((backtrack_to 0 k).1 = Err (NativeErr.invariant "merged node representative is invalid")) as Ek by (vm_compute; reflexivity).
  clearbody k. destruct (backtrack_to 0 k) as [r k'] eqn:Eback. cbn in Ek. subst r.
  exists [s0; mkHandle 1 1; mkHandle 2 1], k, (NativeErr.invariant "merged node representative is invalid"), k'.
  split; [exact E|]. split; [exact Hr|]. split; [|by split].
  intros Hl. assert (check_invariants k = Ok tt) as E'; [|by rewrite E' in Ec].
  apply check_invariants_spec; [by apply reachable_wf|by split].
Qed.
