(* ===== verification/Cancel.v ===== *)
(** * Cooperative cancellation (native/src/cancel.rs)

    [CancellationState] is shared between the reasoning thread and the threads
    that interrupt it.  Each method is one atomic step on the shared record;
    the clock is an argument. *)

From stdpp Require Import pretty.
From S2P Require Import Prelude Order Errors.
Import NativeErr.

Record CancellationState := mkCancel {
  interrupted : bool;
  reason : option string;
  deadline_nanos : N;
  memory_bytes : N;
  max_memory_bytes : N;
  poll_count : N
}.

#[global] Instance CancellationState_eta : Eta CancellationState := λ c,
  mkCancel (interrupted c) (reason c) (deadline_nanos c) (memory_bytes c) (max_memory_bytes c) (poll_count c).

Abbreviation C A := (st CancellationState NativeError A).

(** An IEEE double: [Finite m e] is m * 2^e. *)
Inductive f64 := Finite (m e : Z) | Infinite (negative : bool) | NaN.

Module Cancel.

(** The nanoseconds of a duration of [m * 2^e] seconds, to the nearest, ties to even. *)
Definition round_nanos (m e : Z) : Z :=
  if (0 <=? e)%Z then (m * 10 ^ 9 * 2 ^ e)%Z
  else
    let num := (m * 10 ^ 9)%Z in
    let den := (2 ^ (- e))%Z in
    let q := (num / den)%Z in
    let r := (num mod den)%Z in
    if (2 * r <? den)%Z then q
    else if (den <? 2 * r)%Z then (q + 1)%Z
    else if Z.even q then q else (q + 1)%Z.

Definition validate_deadline (timeout : option f64) (now : N) : NativeResult N :=
  let unsafe := wire "cancellation timeout cannot be represented safely" in
  match timeout with
  | None => Ok 0
  | Some (Finite m e) =>
      if (m <=? 0)%Z then Err (wire "cancellation timeout must be finite and strictly positive")
      else
        let nanos := round_nanos m e in
        if (nanos =? 0)%Z || (Z.of_N u64_max <? nanos)%Z then Err unsafe
        else
          match checked_add u64_max now (Z.to_N nanos) with
          | Some deadline => if (deadline =? 0)%N then Err unsafe else Ok deadline
          | None => Err unsafe
          end
  | Some _ => Err (wire "cancellation timeout must be finite and strictly positive")
  end.

Definition validate_memory_limit (max_memory_bytes : option N) : NativeResult N :=
  match max_memory_bytes with
  | None => Ok 0
  | Some value =>
      if (value =? 0)%N then Err (wire "max_memory_bytes must be positive when supplied") else Ok value
  end.

Definition new (timeout : option f64) (memory : option N) (now : N) : NativeResult CancellationState :=
  deadline ← validate_deadline timeout now;
  limit ← validate_memory_limit memory;
  Ok (mkCancel false None deadline 0 limit 0).

Definition interrupt (why : option string) : C bool :=
  _ ← lift (reject_if (bool_decide (why = Some ""%string))
    (wire "cancellation reason must be nonempty when supplied"));
  c ← gets id;
  if interrupted c then mret false
  else
    _ ← modify (λ c : CancellationState, c <| reason := why |>);
    _ ← modify (λ c : CancellationState, c <| interrupted := true |>);
    mret true.

Definition reset (timeout : option f64) (memory : option N) (now : N) : C unit :=
  deadline ← lift (validate_deadline timeout now);
  limit ← lift (validate_memory_limit memory);
  _ ← modify (λ c : CancellationState, c <| reason := None |>);
  _ ← modify (λ c : CancellationState, c <| memory_bytes := 0 |>);
  _ ← modify (λ c : CancellationState, c <| max_memory_bytes := limit |>);
  _ ← modify (λ c : CancellationState, c <| deadline_nanos := deadline |>);
  _ ← modify (λ c : CancellationState, c <| poll_count := 0 |>);
  modify (λ c : CancellationState, c <| interrupted := false |>).

Definition observe_memory (amount : N) : C unit :=
  modify (λ c : CancellationState, c <| memory_bytes ::= N.max amount |>).

Definition timeout_error : NativeError :=
  NativeErr.new Timeout "REASONER_TIMEOUT" "native reasoning operation exceeded its timeout".

Definition interrupted_error (why : option string) : NativeError :=
  NativeErr.new Cancelled "REASONER_INTERRUPTED"
    (default "native reasoning operation was interrupted" why).

Definition memory_error (observed allowed : N) : NativeError :=
  with_context (with_context (with_context
    (NativeErr.new Resource "RESOURCE_LIMIT" "native reasoning memory limit exceeded")
    "limit" "max_memory_bytes") "observed" (pretty observed)) "allowed" (pretty allowed).

Definition poll (now : N) : C unit :=
  _ ← modify (λ c : CancellationState, c <| poll_count ::= λ n, saturating_add u64_max n 1 |>);
  c ← gets id;
  _ ← lift (reject_if (negb (deadline_nanos c =? 0)%N && (deadline_nanos c <=? now)%N) timeout_error);
  _ ← lift (reject_if (interrupted c) (interrupted_error (reason c)));
  lift (reject_if (negb (max_memory_bytes c =? 0)%N && (max_memory_bytes c <? memory_bytes c)%N)
    (memory_error (memory_bytes c) (max_memory_bytes c))).

End Cancel.

(** ** What a poll answers *)

Section poll.
Implicit Types c : CancellationState.

Definition expired (now : N) c : Prop := deadline_nanos c ≠ 0 ∧ deadline_nanos c ≤ now.
Definition exhausted c : Prop := max_memory_bytes c ≠ 0 ∧ max_memory_bytes c < memory_bytes c.

#[global] Instance expired_dec now c : Decision (expired now c).
Proof. unfold expired. apply _. Defined.
#[global] Instance exhausted_dec c : Decision (exhausted c).
Proof. unfold exhausted. apply _. Defined.

(** The deadline is looked at first, then the interrupt, then the memory. *)
Lemma poll_cases now c :
  Cancel.poll now c =
    (if decide (expired now c) then Err Cancel.timeout_error
     else if interrupted c then Err (Cancel.interrupted_error (reason c))
     else if decide (exhausted c) then Err (Cancel.memory_error (memory_bytes c) (max_memory_bytes c))
     else Ok tt,
     c <| poll_count ::= λ n, saturating_add u64_max n 1 |>).
Proof.
  unfold Cancel.poll, mbind, st_bind, modify, gets, lift, reject_if, id. cbn.
  assert (negb (deadline_nanos c =? 0)%N && (deadline_nanos c <=? now)%N = bool_decide (expired now c)) as ->.
  { apply eq_true_iff_eq. rewrite andb_true_iff, negb_true_iff, N.eqb_neq, N.leb_le, bool_decide_eq_true. done. }
  assert (negb (max_memory_bytes c =? 0)%N && (max_memory_bytes c <? memory_bytes c)%N = bool_decide (exhausted c)) as ->.
  { apply eq_true_iff_eq. rewrite andb_true_iff, negb_true_iff, N.eqb_neq, N.ltb_lt, bool_decide_eq_true. done. }
  case_decide; [by rewrite bool_decide_eq_true_2|]. rewrite bool_decide_eq_false_2 by done.
  destruct (interrupted c); [done|].
  case_decide; [by rewrite bool_decide_eq_true_2|]. by rewrite bool_decide_eq_false_2.
Qed.
End poll.

(** ** Interleavings of the shared methods *)

Inductive cancel_event :=
| EvInterrupt (why : option string)
| EvObserve (amount : N)
| EvPoll (now : N)
| EvReset (timeout : option f64) (memory : option N) (now : N).

Definition cancel_step (ev : cancel_event) (c : CancellationState) : CancellationState :=
  match ev with
  | EvInterrupt why => (Cancel.interrupt why c).2
  | EvObserve amount => (Cancel.observe_memory amount c).2
  | EvPoll now => (Cancel.poll now c).2
  | EvReset timeout memory now => (Cancel.reset timeout memory now c).2
  end.

Definition cancel_run (evs : list cancel_event) (c : CancellationState) : CancellationState :=
  foldl (λ c ev, cancel_step ev c) c evs.

Definition is_reset (ev : cancel_event) : bool :=
  match ev with EvReset _ _ _ => true | _ => false end.

(** Between two resets an interrupt sticks, with its first reason. *)
Lemma cancel_step_interrupted ev c :
  is_reset ev = false → interrupted c = true →
  interrupted (cancel_step ev c) = true ∧ reason (cancel_step ev c) = reason c ∧
  memory_bytes c ≤ memory_bytes (cancel_step ev c) ∧
  deadline_nanos (cancel_step ev c) = deadline_nanos c ∧ max_memory_bytes (cancel_step ev c) = max_memory_bytes c.
Proof.
  destruct ev as [why|amount|now|]; intros Hr Hi; [| | |done]; cbn [cancel_step].
  - unfold Cancel.interrupt, mbind, st_bind, lift, reject_if, gets, id. case_bool_decide; cbn; [done|].
    by rewrite Hi.
  - cbn. split_and!; try done. lia.
  - by rewrite poll_cases.
Qed.

Lemma cancel_run_interrupted evs c :
  forallb (negb ∘ is_reset) evs = true → interrupted c = true →
  interrupted (cancel_run evs c) = true ∧ reason (cancel_run evs c) = reason c.
Proof.
  revert c. induction evs as [|ev evs IH]; intros c Hr Hi; [done|].
  change (cancel_run (ev :: evs) c) with (cancel_run evs (cancel_step ev c)). cbn in Hr.
  apply andb_true_iff in Hr as [He Hr]. apply negb_true_iff in He.
  destruct (cancel_step_interrupted ev c He Hi) as (Hi' & Hr' & _).
  destruct (IH _ Hr Hi') as [? ->]. split; [done|congruence].
Qed.

(** * The control of an operation (native/src/session.rs)

    What an operation asks while it runs: whether to go on, and whether the memory
    it uses is still allowed.  An implementation may keep state. *)

(** The trait [OperationControl]. *)
Class OperationControl (C : Type) := {
  control_poll : st C NativeError unit;
  control_observe_memory : N → st C NativeError unit
}.

(** [NeverAbort]. *)
#[global] Instance NeverAbort : OperationControl unit := {|
  control_poll := mret tt;
  control_observe_memory _ := mret tt
|}.

(** A cancellation state as a control, with the number of looks so far: what other
    threads do before the [n]th look, and its time, are arguments. *)
Section token.
Context (others : nat → CancellationState → CancellationState) (clock : nat → N).

Definition token_look (m : N → C unit) : st (nat * CancellationState) NativeError unit := λ s,
  let '(r, c') := m (clock s.1) (others s.1 s.2) in (r, (S s.1, c')).

Definition TokenControl : OperationControl (nat * CancellationState) := {|
  control_poll := token_look Cancel.poll;
  control_observe_memory bytes := token_look (λ now, _ ← Cancel.observe_memory bytes; Cancel.poll now)
|}.
End token.
