(* ===== verification/Contracts.v ===== *)
(** * Contracts of stateful computations

    [meets m s Q E]: [m] does not panic in [s], a success satisfies [Q] and an error
    [E].  The rules follow the structure of a computation. *)

From S2P Require Import Prelude.

Definition meets {S E X} (m : st S E X) (s : S) (Q : X → S → Prop) (R : E → S → Prop) : Prop :=
  match m s with
  | (Ok x, s') => Q x s'
  | (Err e, s') => R e s'
  | (Crash, _) => False
  end.

Section rules.
Context {S E : Type}.
Implicit Types s : S.

Lemma meets_ret {X} (x : X) s (Q : X → S → Prop) R : Q x s → meets (E:=E) (mret x) s Q R.
Proof. done. Qed.

Lemma meets_bind {X Y} (m : st S E X) (f : X → st S E Y) s Q P R :
  meets m s Q R → (∀ x s', Q x s' → meets (f x) s' P R) → meets (m ≫= f) s P R.
Proof. unfold meets, mbind, st_bind. destruct (m s) as [[x|e|] s1]; intros Hm Hf; [by apply Hf|done|done]. Qed.

Lemma meets_impl {X} (m : st S E X) s (Q Q' : X → S → Prop) (R R' : E → S → Prop) :
  meets m s Q R → (∀ x s', Q x s' → Q' x s') → (∀ e s', R e s' → R' e s') → meets m s Q' R'.
Proof. unfold meets. destruct (m s) as [[x|e|] s1]; auto. Qed.

Lemma meets_lift {X} (r : outcome E X) s (Q : X → S → Prop) R :
  r ≠ Crash → (∀ x, r = Ok x → Q x s) → (∀ e, r = Err e → R e s) → meets (lift r) s Q R.
Proof. unfold meets, lift. destruct r; auto. Qed.

Lemma meets_reads {X} (f : S → outcome E X) s (Q : X → S → Prop) R :
  f s ≠ Crash → (∀ x, f s = Ok x → Q x s) → (∀ e, f s = Err e → R e s) → meets (reads f) s Q R.
Proof. unfold meets, reads. destruct (f s); auto. Qed.

Lemma meets_reject b (e : E) s (Q : unit → S → Prop) (R : E → S → Prop) :
  (b = false → Q tt s) → R e s → meets (lift (reject_if b e)) s Q R.
Proof. intros HQ HR. apply meets_lift; destruct b; [done|done|done|by intros [] _; apply HQ|by intros ? [= <-]|done]. Qed.

Lemma meets_ok_or {X} (o : option X) (e : E) s (Q : X → S → Prop) (R : E → S → Prop) :
  (∀ x, o = Some x → Q x s) → R e s → meets (lift (ok_or o e)) s Q R.
Proof. intros HQ HR. apply meets_lift; destruct o; [done|done|intros ? [= <-]; by apply HQ|done|done|by intros ? [= <-]]. Qed.

Lemma meets_gets {X} (f : S → X) s (Q : X → S → Prop) R : Q (f s) s → meets (E:=E) (gets f) s Q R.
Proof. done. Qed.

Lemma meets_modify (f : S → S) s (Q : unit → S → Prop) R : Q tt (f s) → meets (E:=E) (modify f) s Q R.
Proof. done. Qed.
End rules.

(** ** Loops with a measure *)

Section loops.
Context {S E A B : Type} (I : A → S → Prop) (μ : A → N) (P : B → S → Prop) (R : E → S → Prop).

(** When [m] goes on it has lowered the measure by [n], which stays positive. *)
Definition rounds (n : N) (m : A → st S E (A + B)) : Prop :=
  ∀ a s, I a s → meets (m a) s (λ x s',
    match x with inl a' => I a' s' ∧ 0 < μ a' ∧ μ a' + n ≤ μ a | inr b => P b s' end) R.

Lemma rounds_seq n n' m m' :
  rounds n m → rounds n' m' → rounds (n + n') (λ a, r ← m a; match r with inl a => m' a | inr b => mret (inr b) end).
Proof.
  intros Hm Hm' a s Hs. eapply meets_bind; [by apply Hm|]. intros [a1|b] s1 H1; [|by apply meets_ret].
  destruct H1 as (Hs1 & Hpos & Hle). eapply meets_impl; [by apply Hm'| |done].
  intros [a2|b] s2 H2; [|done]. destruct H2 as (? & ? & ?). split_and!; [done|done|lia].
Qed.

Lemma rounds_loop body p : rounds 1 body → rounds (N.pos p) (loop_pos p body).
Proof.
  intros Hb. induction p as [p IH|p IH|]; cbn [loop_pos]; [| |exact Hb].
  - replace (N.pos p~1) with (1 + (N.pos p + N.pos p)) by lia. by apply rounds_seq, rounds_seq.
  - replace (N.pos p~0) with (N.pos p + N.pos p) by lia. by apply rounds_seq.
Qed.

Lemma meets_loopM body fuel a s : rounds 1 body → I a s → μ a ≤ N.pos fuel → meets (loopM fuel body a) s P R.
Proof.
  intros Hb Hs Hμ. unfold loopM. eapply meets_bind; [by apply rounds_loop|].
  intros [a1|b] s1 H1; [|by apply meets_ret]. destruct H1 as (_ & ? & ?). lia.
Qed.
End loops.

(** Peels the binds of a computation. *)
Ltac meets_step :=
  first
    [ eapply meets_bind
    | apply meets_ret
    | apply meets_gets
    | apply meets_modify
    | apply meets_reject
    | apply meets_ok_or ].
