(* ===== verification/Session.v ===== *)
(** * The scheduler and the transactions of a session (native/src/session.rs)

    The trait [NativeTableau] is a class; the driver runs its phases in a fixed
    order until the tableau is saturated or refuted, and a transaction surrounds a
    run with the tableau's checkpoint. *)

From stdpp Require Import pretty.
From S2P Require Import Prelude Order Errors Cancel.
Import NativeErr.

(** The 32 bytes of a query's digest. *)
Definition QueryKey : Type := list N.

Record SessionQuery (Q : Type) := mkQuery { sq_key : QueryKey; sq_payload : Q }.
Arguments mkQuery {Q}.
Arguments sq_key {Q}.
Arguments sq_payload {Q}.

Inductive PhaseProgress := PhaseNoWork | Progress.
#[global] Instance PhaseProgress_eq_dec : EqDecision PhaseProgress.
Proof. solve_decision. Defined.

Record DeltaPhaseResult := mkDeltaPhase {
  dp_processed_rows : N;
  dp_rule_matches : N;
  dp_role_propagations : N
}.

Record DatatypePhaseResult := mkDatatypePhase {
  dt_checked_components : N;
  dt_changed : bool;
  dt_clashed : bool
}.

Inductive ClashResolution := Backtracked | Unsatisfiable.

Inductive ValidationStatus := NotRequired | Valid | Invalidated.
#[global] Instance ValidationStatus_eq_dec : EqDecision ValidationStatus.
Proof. solve_decision. Defined.

Inductive OperationDisposition := CommitPermanent | RollbackQuery.

Record SchedulerStatistics := mkScheduler {
  ss_scheduler_steps : N;
  ss_delta_generations : N;
  ss_delta_rows : N;
  ss_rule_matches : N;
  ss_role_propagations : N;
  ss_nominal_actions : N;
  ss_existential_actions : N;
  ss_disjunction_actions : N;
  ss_datatype_components : N;
  ss_blocking_refreshes : N;
  ss_blocking_checks : N;
  ss_validation_passes : N;
  ss_backtracks : N
}.

#[global] Instance SchedulerStatistics_eta : Eta SchedulerStatistics := λ s,
  mkScheduler (ss_scheduler_steps s) (ss_delta_generations s) (ss_delta_rows s) (ss_rule_matches s)
    (ss_role_propagations s) (ss_nominal_actions s) (ss_existential_actions s) (ss_disjunction_actions s)
    (ss_datatype_components s) (ss_blocking_refreshes s) (ss_blocking_checks s) (ss_validation_passes s)
    (ss_backtracks s).

Record SessionCheckResult := mkCheck {
  cr_satisfiable : bool;
  cr_cache_hit : bool;
  cr_statistics : SchedulerStatistics
}.

(** The trait [NativeTableau]; methods that take the control run on both states. *)
Class NativeTableau (C K Q CP : Type) := {
  estimated_memory_bytes : K → NativeResult N;
  operation_checkpoint : st (C * K) NativeError CP;
  install_query : SessionQuery Q → st (C * K) NativeError unit;
  finish_operation : CP → OperationDisposition → st K NativeError unit;
  reset_to_permanent : st K NativeError unit;
  has_clash : K → bool;
  process_nominals : st (C * K) NativeError N;
  apply_next_delta : st (C * K) NativeError DeltaPhaseResult;
  check_datatypes : st (C * K) NativeError DatatypePhaseResult;
  has_existential_candidates : K → bool;
  refresh_blocking : st (C * K) NativeError N;
  process_existential : st (C * K) NativeError PhaseProgress;
  process_disjunction : st (C * K) NativeError PhaseProgress;
  resolve_clash : st (C * K) NativeError ClashResolution;
  invalidate_after_backtrack : st K NativeError unit;
  validate_blocking : st (C * K) NativeError (ValidationStatus * N);
  ready_for_sat : K → NativeResult bool;
  check_invariants : K → NativeResult unit
}.
#[global] Hint Mode NativeTableau - ! - - : typeclass_instances.

Record SessionLimits := mkSessionLimits {
  sl_max_scheduler_steps : N;
  sl_max_batch_queries : N;
  sl_max_batch_result_bytes : N;
  sl_max_event_queue : N
}.

Module Scheduler.

Definition no_statistics : SchedulerStatistics := mkScheduler 0 0 0 0 0 0 0 0 0 0 0 0 0.

Definition saturating_sum (a b : SchedulerStatistics) : SchedulerStatistics :=
  let sum (f : SchedulerStatistics → N) := saturating_add u64_max (f a) (f b) in
  mkScheduler (sum ss_scheduler_steps) (sum ss_delta_generations) (sum ss_delta_rows) (sum ss_rule_matches)
    (sum ss_role_propagations) (sum ss_nominal_actions) (sum ss_existential_actions) (sum ss_disjunction_actions)
    (sum ss_datatype_components) (sum ss_blocking_refreshes) (sum ss_blocking_checks) (sum ss_validation_passes)
    (sum ss_backtracks).

Definition computed (satisfiable : bool) (statistics : SchedulerStatistics) : SessionCheckResult :=
  mkCheck satisfiable false statistics.

Definition cached (satisfiable : bool) : SessionCheckResult := mkCheck satisfiable true no_statistics.

Definition resource_limit (message limit : string) (observed allowed : N) : NativeError :=
  with_context (with_context (with_context (NativeErr.new Resource "RESOURCE_LIMIT" message)
    "limit" limit) "observed" (pretty observed)) "allowed" (pretty allowed).

Definition default_session_limits : SessionLimits := mkSessionLimits 10000000 1000000 (256 * 1024 * 1024) 4096.

Definition validate_limits (l : SessionLimits) : NativeResult SessionLimits :=
  _ ← reject_if (sl_max_scheduler_steps l =? 0)%N (wire "max_scheduler_steps must be strictly positive");
  _ ← reject_if (sl_max_batch_queries l =? 0)%N (wire "max_batch_queries must be strictly positive");
  _ ← reject_if (sl_max_batch_result_bytes l =? 0)%N (wire "max_batch_result_bytes must be strictly positive");
  _ ← reject_if (sl_max_event_queue l <? 2)%N (wire "max_event_queue must retain at least start and terminal events");
  Ok l.

(** [counter.checked_add(amount)], an invariant error on overflow. *)
Definition bumped (counter amount : N) (label : string) : NativeResult N :=
  ok_or (checked_add u64_max counter amount) (invariant (label +:+ " counter overflow")).

Definition validate_delta (r : DeltaPhaseResult) : NativeResult unit :=
  reject_if ((dp_processed_rows r =? 0)%N && (negb (dp_rule_matches r =? 0)%N || negb (dp_role_propagations r =? 0)%N))
    (invariant "delta phase reported consequences without a promoted row").

Definition record_datatypes (s : SchedulerStatistics) (r : DatatypePhaseResult) : NativeResult SchedulerStatistics :=
  n ← bumped (ss_datatype_components s) (dt_checked_components r) "datatype-component";
  Ok (s <| ss_datatype_components := n |>).

Section driver.
Context {C K Q CP : Type} `{OperationControl C} `{NativeTableau C K Q CP}.

Abbreviation D X := (st (C * K) NativeError X).

Definition controlled {X} (m : st C NativeError X) : D X := λ s, let '(r, c') := m s.1 in (r, (c', s.2)).
Definition on_tableau {X} (m : st K NativeError X) : D X := λ s, let '(r, k') := m s.2 in (r, (s.1, k')).
Definition looks {X} (f : K → X) : D X := gets (λ s, f s.2).

Definition validate_datatype_clash (r : DatatypePhaseResult) : D unit :=
  looks has_clash ≫= λ clash : bool,
  lift (reject_if (dt_clashed r && negb clash)
    (invariant "datatype phase reported a clash without installing it in tableau state")).

(** ** The phases of a turn: [inl] starts the next turn, [inr] goes on *)

Definition nominal_count (s : SchedulerStatistics) : D (N * SchedulerStatistics) :=
  actions ← process_nominals;
  n ← lift (bumped (ss_nominal_actions s) actions "nominal-action");
  mret (actions, s <| ss_nominal_actions := n |>).

Definition nominal_phase (s : SchedulerStatistics) : D (SchedulerStatistics + SchedulerStatistics) :=
  r ← nominal_count s;
  mret (if (r.1 =? 0)%N then inr r.2 else inl r.2).

Definition datatype_phase (s : SchedulerStatistics) : D (DatatypePhaseResult * SchedulerStatistics) :=
  r ← check_datatypes;
  s ← lift (record_datatypes s r);
  _ ← validate_datatype_clash r;
  mret (r, s).

(** The counters of the delta phase. *)
Definition record_delta (s : SchedulerStatistics) (r : DeltaPhaseResult) : NativeResult SchedulerStatistics :=
  rows ← bumped (ss_delta_rows s) (dp_processed_rows r) "delta-row";
  matches ← bumped (ss_rule_matches s) (dp_rule_matches r) "rule-match";
  propagations ← bumped (ss_role_propagations s) (dp_role_propagations r) "role-propagation";
  Ok (s <| ss_delta_rows := rows |> <| ss_rule_matches := matches |> <| ss_role_propagations := propagations |>).

(** What follows a promoted generation: datatypes, and nominals unless they clash. *)
Definition after_delta (s : SchedulerStatistics) : D SchedulerStatistics :=
  generations ← lift (bumped (ss_delta_generations s) 1 "delta-generation");
  d ← datatype_phase (s <| ss_delta_generations := generations |>);
  looks has_clash ≫= λ clash : bool,
  if clash then mret d.2 else r ← nominal_count d.2; mret r.2.

Definition delta_phase (s : SchedulerStatistics) : D (SchedulerStatistics + SchedulerStatistics) :=
  delta ← apply_next_delta;
  _ ← lift (validate_delta delta);
  s ← lift (record_delta s delta);
  if (dp_processed_rows delta =? 0)%N then mret (inr s) else s ← after_delta s; mret (inl s).

Definition quiet_datatypes (s : SchedulerStatistics) : D (SchedulerStatistics + SchedulerStatistics) :=
  d ← datatype_phase s;
  mret (if dt_changed d.1 || dt_clashed d.1 then inl d.2 else inr d.2).

Definition refresh_phase (s : SchedulerStatistics) : D SchedulerStatistics :=
  looks has_existential_candidates ≫= λ candidates : bool,
  if candidates then
    refreshes ← lift (bumped (ss_blocking_refreshes s) 1 "blocking-refresh");
    checks ← refresh_blocking;
    n ← lift (bumped (ss_blocking_checks s) checks "blocking-check");
    mret (s <| ss_blocking_refreshes := refreshes |> <| ss_blocking_checks := n |>)
  else mret s.

Definition existential_phase (s : SchedulerStatistics) : D (SchedulerStatistics + SchedulerStatistics) :=
  s ← refresh_phase s;
  progress ← process_existential;
  if bool_decide (progress = Progress) then
    n ← lift (bumped (ss_existential_actions s) 1 "existential-action");
    mret (inl (s <| ss_existential_actions := n |>))
  else mret (inr s).

Definition disjunction_phase (s : SchedulerStatistics) : D (SchedulerStatistics + SchedulerStatistics) :=
  progress ← process_disjunction;
  if bool_decide (progress = Progress) then
    n ← lift (bumped (ss_disjunction_actions s) 1 "disjunction-action");
    mret (inl (s <| ss_disjunction_actions := n |>))
  else mret (inr s).

(** The next phase, unless the turn is over. *)
Definition then_phase (m : D (SchedulerStatistics + SchedulerStatistics))
    (f : SchedulerStatistics → D (SchedulerStatistics + SchedulerStatistics)) : D (SchedulerStatistics + SchedulerStatistics) :=
  r ← m;
  match r with inl s => mret (inl s) | inr s => f s end.

Definition expand (s : SchedulerStatistics) : D (SchedulerStatistics + SchedulerStatistics) :=
  then_phase (then_phase (then_phase (then_phase
    (nominal_phase s) delta_phase) quiet_datatypes) existential_phase) disjunction_phase.

(** ** The end of a turn: [inl] starts the next turn, [inr] is the answer *)

Definition clash_phase (s : SchedulerStatistics) : D (SchedulerStatistics + SessionCheckResult) :=
  r ← resolve_clash;
  match r with
  | Unsatisfiable =>
      _ ← reads (λ t, check_invariants t.2);
      mret (inr (computed false s))
  | Backtracked =>
      _ ← on_tableau invalidate_after_backtrack;
      n ← lift (bumped (ss_backtracks s) 1 "backtrack");
      mret (inl (s <| ss_backtracks := n |>))
  end.

Definition validation_phase (s : SchedulerStatistics) : D (SchedulerStatistics + SessionCheckResult) :=
  v ← validate_blocking;
  checks ← lift (bumped (ss_blocking_checks s) v.2 "blocking-check");
  let s := s <| ss_blocking_checks := checks |> in
  passes ← (if bool_decide (v.1 = NotRequired) then mret (ss_validation_passes s)
            else lift (bumped (ss_validation_passes s) 1 "validation-pass"));
  let s := s <| ss_validation_passes := passes |> in
  if bool_decide (v.1 = Invalidated) then mret (inl s)
  else
    reads (λ t, ready_for_sat t.2) ≫= λ ready : bool,
    _ ← lift (reject_if (negb ready) (invariant "native scheduler reached SAT with pending or unvalidated work"));
    _ ← reads (λ t, check_invariants t.2);
    mret (inr (computed true s)).

Definition conclude (s : SchedulerStatistics) : D (SchedulerStatistics + SessionCheckResult) :=
  looks has_clash ≫= λ clash : bool,
  if clash then clash_phase s else validation_phase s.

(** One turn of the scheduler. *)
Definition turn (max_scheduler_steps : N) (s : SchedulerStatistics) : D (SchedulerStatistics + SessionCheckResult) :=
  _ ← controlled control_poll;
  steps ← lift (bumped (ss_scheduler_steps s) 1 "scheduler-step");
  let s := s <| ss_scheduler_steps := steps |> in
  _ ← lift (reject_if (max_scheduler_steps <? steps)%N
    (resource_limit "native tableau scheduler step limit exceeded" "max_scheduler_steps" steps max_scheduler_steps));
  looks has_clash ≫= λ clash : bool,
  expanded ← (if clash then mret (inr s) else expand s);
  match expanded with inl s => mret (inl s) | inr s => conclude s end.

(** Each turn counts one step, up to the limit. *)
Definition drive_tableau (max_scheduler_steps : N) : D SessionCheckResult :=
  _ ← lift (reject_if (max_scheduler_steps =? 0)%N (wire "max_scheduler_steps must be strictly positive"));
  loopM (N.succ_pos max_scheduler_steps) (turn max_scheduler_steps) no_statistics.
End driver.
End Scheduler.
