(* ===== verification/SessionOps.v ===== *)
(** * The coordinator of a session (native/src/session.rs)

    A session owns one tableau.  Its operations run under a lifecycle (closed,
    busy, poisoned), answer from the cache where the permanent result is known,
    surround every run with the tableau's checkpoint, and record events in a ring
    of bounded size.  A panic inside an operation is contained and poisons the
    session. *)

From S2P Require Import Prelude Order Errors Cancel Session.
Import NativeErr.

Inductive SessionOperationKind := PermanentCheck | QueryCheck | BatchCheck | ResetQueryState.

Inductive SessionEventKind :=
| OperationStarted | CheckCompleted | QueryStateReset | OperationCompleted | OperationAborted.

Record SessionEvent := mkEvent {
  ev_version : N;
  ev_sequence : N;
  ev_operation_id : N;
  ev_operation : SessionOperationKind;
  ev_kind : SessionEventKind;
  ev_completed : N;
  ev_total : N;
  ev_query_key : option QueryKey;
  ev_satisfiable : option bool;
  ev_error_code : option string
}.

#[global] Instance SessionEvent_eta : Eta SessionEvent := λ e,
  mkEvent (ev_version e) (ev_sequence e) (ev_operation_id e) (ev_operation e) (ev_kind e) (ev_completed e)
    (ev_total e) (ev_query_key e) (ev_satisfiable e) (ev_error_code e).

Record SessionStatistics := mkSessionStatistics {
  sn_operations_started : N;
  sn_operations_completed : N;
  sn_operations_aborted : N;
  sn_permanent_checks : N;
  sn_query_checks : N;
  sn_batch_calls : N;
  sn_resets : N;
  sn_cache_hits : N;
  sn_scheduler : SchedulerStatistics
}.

#[global] Instance SessionStatistics_eta : Eta SessionStatistics := λ s,
  mkSessionStatistics (sn_operations_started s) (sn_operations_completed s) (sn_operations_aborted s)
    (sn_permanent_checks s) (sn_query_checks s) (sn_batch_calls s) (sn_resets s) (sn_cache_hits s) (sn_scheduler s).

Record SessionSnapshot := mkSessionSnapshot {
  sp_owner_process_id : N;
  sp_permanent_satisfiable : option bool;
  sp_statistics : SessionStatistics;
  sp_queued_events : N;
  sp_dropped_events : N;
  sp_next_operation_id : N
}.

Record OperationContext := mkOperationContext { oc_id : N; oc_kind : SessionOperationKind; oc_total : N }.

Record CompletedCheck := mkCompleted { cc_query_key : option QueryKey; cc_result : SessionCheckResult }.

Record OperationRecord := mkOperationRecord {
  or_permanent_checks : N;
  or_query_checks : N;
  or_batch_calls : N;
  or_resets : N;
  or_cache_hits : N;
  or_scheduler : SchedulerStatistics
}.

Record SessionOwned (K : Type) := mkOwned {
  so_kernel : K;
  so_permanent_satisfiable : option bool;
  so_statistics : SessionStatistics;
  so_events : list SessionEvent;
  so_dropped_events : N;
  so_next_operation_id : N;
  so_next_event_sequence : N
}.
Arguments mkOwned {K}.
Arguments so_kernel {K}.
Arguments so_permanent_satisfiable {K}.
Arguments so_statistics {K}.
Arguments so_events {K}.
Arguments so_dropped_events {K}.
Arguments so_next_operation_id {K}.
Arguments so_next_event_sequence {K}.

#[global] Instance SessionOwned_eta {K} : Eta (SessionOwned K) := λ o,
  mkOwned (so_kernel o) (so_permanent_satisfiable o) (so_statistics o) (so_events o) (so_dropped_events o)
    (so_next_operation_id o) (so_next_event_sequence o).

(** [LifecycleControl]; the mutex is never poisoned, since panics are caught inside. *)
Record LifecycleControl (K : Type) := mkLifecycle {
  lc_owner_process_id : N;
  lc_limits : SessionLimits;
  lc_closed : bool;
  lc_busy : bool;
  lc_poisoned : bool;
  lc_owned : option (SessionOwned K)
}.
Arguments mkLifecycle {K}.
Arguments lc_owner_process_id {K}.
Arguments lc_limits {K}.
Arguments lc_closed {K}.
Arguments lc_busy {K}.
Arguments lc_poisoned {K}.
Arguments lc_owned {K}.

#[global] Instance LifecycleControl_eta {K} : Eta (LifecycleControl K) := λ l,
  mkLifecycle (lc_owner_process_id l) (lc_limits l) (lc_closed l) (lc_busy l) (lc_poisoned l) (lc_owned l).

Module Session.

(** ** Errors *)

Definition disposed_error : NativeError := NativeErr.new Disposed "DISPOSED_REASONER" "native session is closed".
Definition fork_error : NativeError := NativeErr.new Fork "NATIVE_FORK" "native session cannot be reused after fork".
Definition busy_error (message : string) : NativeError := NativeErr.new Busy "CONCURRENT_MUTATION" message.
Definition poisoned_error (code message : string) : NativeError := NativeErr.new Poisoned code message.
Definition panic_error (message : string) : NativeError := poisoned_error "NATIVE_PANIC" message.

(** ** Events *)

Definition no_session_statistics : SessionStatistics := mkSessionStatistics 0 0 0 0 0 0 0 0 Scheduler.no_statistics.
Definition no_record : OperationRecord := mkOperationRecord 0 0 0 0 0 Scheduler.no_statistics.

Definition new_owned {K} (kernel : K) : SessionOwned K :=
  mkOwned kernel None no_session_statistics [] 0 1 1.

Definition event (c : OperationContext) (kind : SessionEventKind) (completed : N) : SessionEvent :=
  mkEvent 1 0 (oc_id c) (oc_kind c) kind completed (oc_total c) None None None.

Section owned.
Context {K : Type}.
Abbreviation O X := (st (SessionOwned K) NativeError X).

Definition upd_statistics (f : SessionStatistics → SessionStatistics) : O unit :=
  modify (λ o : SessionOwned K, o <| so_statistics ::= f |>).

Definition push_event (capacity : N) (value : SessionEvent) : O unit :=
  o ← gets id;
  next ← lift (ok_or (checked_add u64_max (so_next_event_sequence o) 1) (invariant "native event sequence overflow"));
  let value := value <| ev_sequence := so_next_event_sequence o |> in
  _ ← modify (λ o : SessionOwned K, o <| so_next_event_sequence := next |>);
  _ ← (if (N.of_nat (length (so_events o)) =? capacity)%N then
         modify (λ o : SessionOwned K, o <| so_events ::= tail |> <| so_dropped_events ::= λ n, saturating_add u64_max n 1 |>)
       else mret tt);
  modify (λ o : SessionOwned K, o <| so_events ::= λ l, l ++ [value] |>).

Definition start_operation (kind : SessionOperationKind) (total : N) : O OperationContext :=
  o ← gets id;
  let event_count := saturating_add u64_max total 2 in
  _ ← lift (ok_or (checked_add u64_max (so_next_event_sequence o) event_count) (invariant "native event sequence overflow"));
  let identifier := so_next_operation_id o in
  next ← lift (ok_or (checked_add u64_max identifier 1) (invariant "native operation ID overflow"));
  _ ← modify (λ o : SessionOwned K, o <| so_next_operation_id := next |>);
  _ ← upd_statistics (λ s, s <| sn_operations_started ::= λ n, saturating_add u64_max n 1 |>);
  mret (mkOperationContext identifier kind total).

(** The events of the completed checks, counted from [offset]. *)
Fixpoint push_checks (capacity : N) (c : OperationContext) (offset : N) (checks : list CompletedCheck) : O unit :=
  match checks with
  | [] => mret tt
  | check :: checks =>
      let completed := saturating_add u32_max (N.min u32_max offset) 1 in
      _ ← push_event capacity (event c CheckCompleted completed
            <| ev_query_key := cc_query_key check |> <| ev_satisfiable := Some (cr_satisfiable (cc_result check)) |>);
      push_checks capacity c (N.succ offset) checks
  end.

Definition add_record (r : OperationRecord) (s : SessionStatistics) : SessionStatistics :=
  let sum := saturating_add u64_max in
  mkSessionStatistics (sn_operations_started s) (sum (sn_operations_completed s) 1) (sn_operations_aborted s)
    (sum (sn_permanent_checks s) (or_permanent_checks r)) (sum (sn_query_checks s) (or_query_checks r))
    (sum (sn_batch_calls s) (or_batch_calls r)) (sum (sn_resets s) (or_resets r))
    (sum (sn_cache_hits s) (or_cache_hits r)) (Scheduler.saturating_sum (sn_scheduler s) (or_scheduler r)).

Definition complete_operation (c : OperationContext) (r : OperationRecord) (checks : list CompletedCheck) (capacity : N) : O unit :=
  let too_many := match u32_try_from (length checks) with Some count => (oc_total c <? count)%N | None => false end in
  _ ← lift (reject_if too_many (invariant "operation produced more check events than its declared total"));
  _ ← push_event capacity (event c OperationStarted 0);
  _ ← push_checks capacity c 0 checks;
  _ ← (if negb (or_resets r =? 0)%N then push_event capacity (event c QueryStateReset (oc_total c)) else mret tt);
  _ ← push_event capacity (event c OperationCompleted (oc_total c));
  upd_statistics (add_record r).

Definition abort_operation (c : OperationContext) (error : NativeError) (capacity : N) : O unit :=
  _ ← push_event capacity (event c OperationStarted 0);
  _ ← push_event capacity (event c OperationAborted 0 <| ev_error_code := Some (err_code error) |>);
  upd_statistics (λ s, s <| sn_operations_aborted ::= λ n, saturating_add u64_max n 1 |>).

Definition abort {X} (c : OperationContext) (error : NativeError) (capacity : N) : O X :=
  _ ← abort_operation c error capacity;
  lift (Err error).
End owned.

(** ** Transactions *)

(** What a closure of [run_locked] works on: the control, the poison flag and what
    the session owns. *)
Record Running (C K : Type) := mkRunning { ru_control : C; ru_poisoned : bool; ru_owned : SessionOwned K }.
Arguments mkRunning {C K}.
Arguments ru_control {C K}.
Arguments ru_poisoned {C K}.
Arguments ru_owned {C K}.

(** An error as a value; a panic passes through. *)
Definition caught {S E X} (m : st S E X) : st S E (X + E) := λ s,
  match m s with
  | (Ok x, s') => (Ok (inl x), s')
  | (Err e, s') => (Ok (inr e), s')
  | (Crash, s') => (Crash, s')
  end.

Section session.
Context {C K Q CP : Type} `{OperationControl C} `{NativeTableau C K Q CP}.
(** [size_of] of a result and of a completed check. *)
Context (result_size completed_size : N).

Abbreviation R X := (st (Running C K) NativeError X).

Definition owning {X} (m : st (SessionOwned K) NativeError X) : R X := λ s,
  let '(r, o') := m (ru_owned s) in (r, mkRunning (ru_control s) (ru_poisoned s) o').
Definition controlling {X} (m : st C NativeError X) : R X := λ s,
  let '(r, c') := m (ru_control s) in (r, mkRunning c' (ru_poisoned s) (ru_owned s)).
Definition driving {X} (m : st (C * K) NativeError X) : R X := λ s,
  let '(r, (c', k')) := m (ru_control s, so_kernel (ru_owned s)) in
  (r, mkRunning c' (ru_poisoned s) (ru_owned s <| so_kernel := k' |>)).
Definition on_kernel {X} (m : st K NativeError X) : R X := λ s,
  let '(r, k') := m (so_kernel (ru_owned s)) in
  (r, mkRunning (ru_control s) (ru_poisoned s) (ru_owned s <| so_kernel := k' |>)).
Definition poison : R unit := modify (λ s, mkRunning (ru_control s) true (ru_owned s)).

Definition poison_on_invariant (e : NativeError) : R unit :=
  if bool_decide (err_kind e = Invariant) || bool_decide (err_kind e = Poisoned) then poison else mret tt.

(** An error passes on, after [poison_on_invariant]. *)
Definition inspected {X} (m : R X) : R X :=
  r ← caught m;
  match r with
  | inl x => mret x
  | inr e => _ ← poison_on_invariant e; lift (Err e)
  end.

Definition controlled_poll : R unit := inspected (controlling control_poll).
Definition controlled_observe (bytes : N) : R unit := inspected (controlling (control_observe_memory bytes)).
Definition audit : R unit := on_kernel (reads check_invariants).

(** A failure that leaves no safe root. *)
Definition fatal {X} (code message : string) : R X :=
  _ ← poison;
  lift (Err (poisoned_error code message)).

Definition recover {X} (checkpoint : CP) (original : NativeError) : R X :=
  rollback ← caught (on_kernel (finish_operation checkpoint RollbackQuery));
  match rollback with
  | inr e => fatal "NATIVE_RECOVERY_FAILED"
      ("native operation recovery failed after " +:+ err_code original +:+ ": " +:+ err_code e)
  | inl _ =>
      audited ← caught audit;
      match audited with
      | inr e => fatal "NATIVE_RECOVERY_INVARIANT_FAILED"
          ("native recovery after " +:+ err_code original +:+ " restored invalid state: " +:+ err_code e)
      | inl _ => _ ← poison_on_invariant original; lift (Err original)
      end
  end.

(** An error of [m] is recovered from. *)
Definition recovering {X Y} (checkpoint : CP) (m : R X) (f : X → R Y) : R Y :=
  r ← caught m;
  match r with inl x => f x | inr e => recover checkpoint e end.

(** The operation is finished under its disposition. *)
Definition finish (checkpoint : CP) (d : OperationDisposition) (result : SessionCheckResult) : R SessionCheckResult :=
  finished ← caught (on_kernel (finish_operation checkpoint d));
  match finished with
  | inr e => fatal "NATIVE_OPERATION_FINISH_FAILED"
      ("native operation could not establish a safe committed root: " +:+ err_code e +:+ " (" +:+ err_message e +:+ ")")
  | inl _ =>
      audited ← caught audit;
      match audited with
      | inr e => fatal "NATIVE_OPERATION_INVARIANT_FAILED"
          ("native operation finalized with invalid state: " +:+ err_code e)
      | inl _ => mret result
      end
  end.

Definition run_transaction (query : option (SessionQuery Q)) (d : OperationDisposition) (limits : SessionLimits) :
    R SessionCheckResult :=
  _ ← controlled_poll;
  memory ← inspected (on_kernel (reads estimated_memory_bytes));
  _ ← controlled_observe memory;
  checkpoint ← inspected (driving operation_checkpoint);
  recovering checkpoint (match query with Some q => driving (install_query q) | None => mret tt end) (λ _,
  recovering checkpoint (driving (Scheduler.drive_tableau (sl_max_scheduler_steps limits))) (λ result,
  recovering checkpoint (controlling control_poll) (λ _,
  recovering checkpoint audit (λ _,
  finish checkpoint d result)))).

(** ** Operations *)

(** What an operation does with its attempt: it completes or aborts. *)
Definition settle {X} (c : OperationContext) (limits : SessionLimits) (attempt : R X)
    (record : X → OperationRecord) (checks : X → list CompletedCheck) : R X :=
  r ← caught attempt;
  match r with
  | inl x => _ ← owning (complete_operation c (record x) (checks x) (sl_max_event_queue limits)); mret x
  | inr e => owning (abort c e (sl_max_event_queue limits))
  end.

Definition single_record (permanent : bool) (r : SessionCheckResult) : OperationRecord :=
  mkOperationRecord (if permanent then 1 else 0) (if permanent then 0 else 1) 0 0 (if cr_cache_hit r then 1 else 0) (cr_statistics r).

Definition check_permanent_op (limits : SessionLimits) : R SessionCheckResult :=
  c ← owning (start_operation PermanentCheck 1);
  s ← gets id;
  let attempt := match so_permanent_satisfiable (ru_owned s) with
    | Some satisfiable => _ ← controlled_poll; mret (Scheduler.cached satisfiable)
    | None => run_transaction None CommitPermanent limits
    end in
  result ← settle c limits attempt (single_record true) (λ r, [mkCompleted None r]);
  _ ← (if cr_cache_hit result then mret tt
       else owning (modify (λ o : SessionOwned K, o <| so_permanent_satisfiable := Some (cr_satisfiable result) |>)));
  mret result.

Definition check_query_op (limits : SessionLimits) (query : SessionQuery Q) : R SessionCheckResult :=
  c ← owning (start_operation QueryCheck 1);
  s ← gets id;
  let attempt := if bool_decide (so_permanent_satisfiable (ru_owned s) = Some false)
    then _ ← controlled_poll; mret (Scheduler.cached false)
    else run_transaction (Some query) RollbackQuery limits in
  settle c limits attempt (single_record false) (λ r, [mkCompleted (Some (sq_key query)) r]).

(** The loop over the queries of a batch. *)
Fixpoint batch_loop (limits : SessionLimits) (queries : list (SessionQuery Q)) (results : list SessionCheckResult)
    (checks : list CompletedCheck) (scheduler : SchedulerStatistics) (cache_hits : N) :
    R (list SessionCheckResult * list CompletedCheck * SchedulerStatistics * N) :=
  match queries with
  | [] => mret (results, checks, scheduler, cache_hits)
  | query :: queries =>
      _ ← controlled_poll;
      s ← gets id;
      result ← (if bool_decide (so_permanent_satisfiable (ru_owned s) = Some false) then mret (Scheduler.cached false)
                else run_transaction (Some query) RollbackQuery limits);
      batch_loop limits queries (results ++ [result]) (checks ++ [mkCompleted (Some (sq_key query)) result])
        (Scheduler.saturating_sum scheduler (cr_statistics result))
        (saturating_add u64_max cache_hits (if cr_cache_hit result then 1 else 0))
  end.

Definition run_batch (limits : SessionLimits) (queries : list (SessionQuery Q)) :
    R (list SessionCheckResult * list CompletedCheck * OperationRecord) :=
  let observed := N.min u64_max (N.of_nat (length queries)) in
  _ ← lift (reject_if (sl_max_batch_queries limits <? observed)%N
    (Scheduler.resource_limit "native query batch exceeds the configured item limit" "max_batch_queries"
      observed (sl_max_batch_queries limits)));
  let item_bytes := saturating_add u64_max result_size completed_size in
  result_bytes ← lift (ok_or (checked_mul u64_max observed item_bytes) (invariant "native batch result-size overflow"));
  _ ← lift (reject_if (sl_max_batch_result_bytes limits <? result_bytes)%N
    (Scheduler.resource_limit "native query batch result staging exceeds its byte limit" "max_batch_result_bytes"
      result_bytes (sl_max_batch_result_bytes limits)));
  kernel_bytes ← inspected (on_kernel (reads estimated_memory_bytes));
  _ ← controlled_observe (saturating_add u64_max kernel_bytes result_bytes);
  _ ← controlled_poll;
  r ← batch_loop limits queries [] [] Scheduler.no_statistics 0;
  let '(results, checks, scheduler, cache_hits) := r in
  _ ← controlled_poll;
  mret (results, checks, mkOperationRecord 0 observed 1 0 cache_hits scheduler).

Definition check_many_op (limits : SessionLimits) (queries : list (SessionQuery Q)) : R (list SessionCheckResult) :=
  let total := default u32_max (u32_try_from (length queries)) in
  c ← owning (start_operation BatchCheck total);
  r ← settle c limits (run_batch limits queries) snd (λ r, r.1.2);
  mret r.1.1.

Definition reset_query_state_op (limits : SessionLimits) : R unit :=
  c ← owning (start_operation ResetQueryState 1);
  r ← caught (_ ← on_kernel reset_to_permanent; audit);
  match r with
  | inl _ => owning (complete_operation c (mkOperationRecord 0 0 0 1 0 Scheduler.no_statistics) [] (sl_max_event_queue limits))
  | inr e => _ ← poison; owning (abort c e (sl_max_event_queue limits))
  end.

Definition snapshot_op (owner_process_id : N) : R SessionSnapshot :=
  gets (λ s, let o := ru_owned s in
    mkSessionSnapshot owner_process_id (so_permanent_satisfiable o) (so_statistics o)
      (default u32_max (u32_try_from (length (so_events o)))) (so_dropped_events o) (so_next_operation_id o)).

Definition drain_events_op : R (list SessionEvent) :=
  s ← gets id;
  _ ← owning (modify (λ o : SessionOwned K, o <| so_events := [] |>));
  mret (so_events (ru_owned s)).

(** ** The lifecycle *)

Abbreviation L X := (st (C * LifecycleControl K) NativeError X).

Definition with_owner_process_id (kernel : K) (limits : SessionLimits) (owner_process_id : N) : NativeResult (LifecycleControl K) :=
  _ ← reject_if (owner_process_id =? 0)%N (wire "owner process ID must be nonzero");
  limits ← Scheduler.validate_limits limits;
  Ok (mkLifecycle owner_process_id limits false false false (Some (new_owned kernel))).

Definition upd_life (f : LifecycleControl K → LifecycleControl K) : L unit := modify (λ s, (s.1, f s.2)).

(** The compare-and-exchange on the busy flag. *)
Definition acquire (message : string) : L unit :=
  s ← gets snd;
  if lc_busy s then lift (Err (busy_error message)) else upd_life (λ l, l <| lc_busy := true |>).
Definition release : L unit := upd_life (λ l, l <| lc_busy := false |>).

Definition preflight (pid : N) : L unit :=
  l ← gets snd;
  _ ← lift (reject_if (lc_closed l) disposed_error);
  _ ← lift (reject_if (negb (pid =? lc_owner_process_id l)%N) fork_error);
  _ ← lift (reject_if (lc_poisoned l)
    (poisoned_error "NATIVE_SESSION_POISONED" "native session is poisoned and only close is permitted"));
  acquire "native session already has an active operation".

(** The operation on what the session owns; a panic poisons the session. *)
Definition run_owned {X} (operation : R X) (o : SessionOwned K) : L X := λ s,
  let '(r, s') := operation (mkRunning s.1 (lc_poisoned s.2) o) in
  let l := s.2 <| lc_owned := Some (ru_owned s') |> <| lc_poisoned := ru_poisoned s' |> in
  match r with
  | Crash => (Err (panic_error "native session operation panic was contained"), (ru_control s', l <| lc_poisoned := true |>))
  | r => (r, (ru_control s', l))
  end.

Definition run_locked {X} (pid : N) (operation : R X) : L X :=
  _ ← preflight pid;
  l ← gets snd;
  r ← caught (match lc_owned l with
        | None => lift (Err disposed_error)
        | Some o => run_owned operation o
        end);
  _ ← release;
  match r with inl x => mret x | inr e => lift (Err e) end.

(** An operation under the limits of the session. *)
Definition limited {X} (pid : N) (operation : SessionLimits → R X) : L X :=
  l ← gets snd;
  run_locked pid (operation (lc_limits l)).

Definition check_permanent (pid : N) : L SessionCheckResult := limited pid check_permanent_op.
Definition check_query (pid : N) (query : SessionQuery Q) : L SessionCheckResult :=
  limited pid (λ limits, check_query_op limits query).
Definition check_many (pid : N) (queries : list (SessionQuery Q)) : L (list SessionCheckResult) :=
  limited pid (λ limits, check_many_op limits queries).
Definition reset_query_state (pid : N) : L unit := limited pid reset_query_state_op.
Definition snapshot (pid : N) : L SessionSnapshot :=
  l ← gets snd;
  run_locked pid (snapshot_op (lc_owner_process_id l)).
Definition drain_events (pid : N) : L (list SessionEvent) := run_locked pid drain_events_op.

Definition close (pid : N) : L unit :=
  l ← gets snd;
  if lc_closed l then mret tt
  else
    _ ← lift (reject_if (negb (pid =? lc_owner_process_id l)%N) fork_error);
    _ ← acquire "cannot close a native session while an operation is active";
    _ ← upd_life (λ l, l <| lc_owned := None |>);
    _ ← upd_life (λ l, l <| lc_closed := true |>);
    release.
End session.
End Session.
