(* ===== verification/SessionSpec.v ===== *)
(** * What a session relies on, and what its driver decides

    The contract of the trait [NativeTableau] (native/src/session.rs) as laws of the
    class, and the driver proved against them. *)

From S2P Require Import Prelude Order Errors Cancel Contracts Session SessionOps.
Import Scheduler.

(** ** The contract *)

Section quiet.
Context {C K Q CP : Type} `{NativeTableau C K Q CP}.
Implicit Types s : C * K.

(** The phases that found nothing to do. *)
Definition quiet_delta s s' : Prop := ∃ d, apply_next_delta s = (Ok d, s') ∧ dp_processed_rows d = 0.
Definition quiet_datatype s s' : Prop :=
  ∃ d, check_datatypes s = (Ok d, s') ∧ dt_changed d = false ∧ dt_clashed d = false.
Definition refreshed s s' : Prop :=
  if has_existential_candidates s.2 then ∃ n, refresh_blocking s = (Ok n, s') else s' = s.
Definition validated s s' : Prop :=
  ∃ v, validate_blocking s = (Ok v, s') ∧ v.1 ≠ Invalidated ∧ ready_for_sat s'.2 = Ok true ∧ check_invariants s'.2 = Ok tt.

(** A turn in which no phase found anything to do. *)
Definition quiet s s' : Prop :=
  ∃ s1 s2 s3 s4 s5, process_nominals s = (Ok 0, s1) ∧ quiet_delta s1 s2 ∧ quiet_datatype s2 s3 ∧ refreshed s3 s4 ∧
    process_existential s4 = (Ok PhaseNoWork, s5) ∧ process_disjunction s5 = (Ok PhaseNoWork, s').

(** The end of a run that found a model. *)
Definition saturated s s' : Prop :=
  has_clash s.2 = false ∧ ∃ s1, quiet s s1 ∧ has_clash s1.2 = false ∧ validated s1 s'.

(** A phase of an operation keeps [I], also when it fails. *)
Definition phase {X} (I : K → Prop) (m : st (C * K) NativeError X) (P : X → K → K → Prop) : Prop :=
  ∀ s, I s.2 → meets m s (λ x s', I s'.2 ∧ P x s.2 s'.2) (λ _ s', I s'.2).
End quiet.

(** The laws of a tableau.  [sem q k] says that the ontology at the root [k], with
    the query [q] if there is one, is satisfiable; [model k] that the search space of
    the state [k] holds a model; [running cp k k'] that [k'] is a state of the
    operation whose checkpoint [cp] was taken at the root [k], and [prepared cp k k']
    that nothing has happened since.  Phases keep the
    models, a clash that cannot be resolved leaves none, a saturated state has one,
    and finishing leads to a root with the meaning of the old one. *)
Class TableauLaws (C K Q CP : Type) `{NativeTableau C K Q CP} := {
  root_ok : K → Prop;
  sem : option (SessionQuery Q) → K → Prop;
  running : CP → K → K → Prop;
  prepared : CP → K → K → Prop;
  model : K → Prop;
  prepared_running cp k k' : prepared cp k k' → running cp k k' ∧ (model k' ↔ sem None k);
  sem_monotone k q : sem (Some q) k → sem None k;
  law_estimate k : root_ok k → estimated_memory_bytes k ≠ Crash;
  law_checkpoint s : root_ok s.2 →
    meets operation_checkpoint s (λ cp s', prepared cp s.2 s'.2)
      (λ _ s', root_ok s'.2 ∧ ∀ q, sem q s'.2 ↔ sem q s.2);
  law_install cp k q s : prepared cp k s.2 →
    meets (install_query q) s (λ _ s', running cp k s'.2 ∧ (model s'.2 ↔ sem (Some q) k)) (λ _ s', running cp k s'.2);
  law_nominals cp k : phase (running cp k) process_nominals (λ _ k k', model k ↔ model k');
  law_delta cp k : phase (running cp k) apply_next_delta (λ _ k k', model k ↔ model k');
  law_datatypes cp k : phase (running cp k) check_datatypes (λ _ k k', model k ↔ model k');
  law_refresh cp k : phase (running cp k) refresh_blocking (λ _ k k', model k ↔ model k');
  law_existential cp k : phase (running cp k) process_existential (λ _ k k', model k ↔ model k');
  law_disjunction cp k : phase (running cp k) process_disjunction (λ _ k k', model k ↔ model k');
  law_validate cp k : phase (running cp k) validate_blocking (λ _ k k', model k ↔ model k');
  law_clash cp k s : running cp k s.2 → has_clash s.2 = true →
    meets resolve_clash s (λ r s', running cp k s'.2 ∧
      match r with Backtracked => model s.2 ↔ model s'.2 | Unsatisfiable => ¬ model s.2 end) (λ _ s', running cp k s'.2);
  law_invalidate cp k k1 : running cp k k1 →
    meets invalidate_after_backtrack k1 (λ _ k2, running cp k k2 ∧ (model k1 ↔ model k2)) (λ _ k2, running cp k k2);
  law_ready cp k k' : running cp k k' → ready_for_sat k' ≠ Crash;
  law_audit cp k k' : running cp k k' → check_invariants k' ≠ Crash;
  law_audit_root k : root_ok k → check_invariants k ≠ Crash;
  law_saturated cp k s s' : running cp k s.2 → saturated s s' → model s'.2;
  law_finish cp k k1 d : running cp k k1 →
    meets (finish_operation cp d) k1 (λ _ k2, root_ok k2 ∧ ∀ q, sem q k2 ↔ sem q k) (λ _ _, True);
  law_reset k : root_ok k →
    meets reset_to_permanent k (λ _ k2, root_ok k2 ∧ ∀ q, sem q k2 ↔ sem q k) (λ _ _, True)
}.

(** A control that never panics. *)
Class CalmControl (C : Type) `{OperationControl C} := {
  calm_poll c : (control_poll c).1 ≠ Crash;
  calm_observe n c : (control_observe_memory n c).1 ≠ Crash
}.

#[global] Instance NeverAbort_calm : CalmControl unit.
Proof. split; done. Qed.

#[global] Instance TokenControl_calm others clock : @CalmControl _ (TokenControl others clock).
Proof.
  assert (∀ n c, (Cancel.poll n c).1 ≠ Crash) as Hp.
  { intros n c. rewrite poll_cases. cbn. repeat case_match; done. }
  split; [intros [n c]|intros b [n c]]; cbn; unfold token_look; cbn.
  - specialize (Hp (clock n) (others n c)). destruct (Cancel.poll _ _). done.
  - unfold mbind, st_bind, Cancel.observe_memory, modify. cbn.
    specialize (Hp (clock n) (others n c <| memory_bytes ::= N.max b |>)). destruct (Cancel.poll _ _). done.
Qed.

(** The equation of the run that met the contract. *)
Lemma meets_eq {S E X} (m : st S E X) s Q R : meets m s Q R → meets m s (λ x s', Q x s' ∧ m s = (Ok x, s')) R.
Proof. unfold meets. destruct (m s) as [[x|e|] s1]; done. Qed.

(** ** The driver *)

Section driver.
Context {C K Q CP : Type} `{OperationControl C} `{TableauLaws C K Q CP} `{!CalmControl C}.
Context (cp : CP) (root : K) (M : Prop).
Implicit Types s : C * K.

Abbreviation live s := (running cp root s.2).
Abbreviation lost := (λ (_ : NativeError) s, live s).

Definition whole {A} (r : A + A) : A := match r with inl a | inr a => a end.

(** The search space still stands for [M], after [n] steps. *)
Definition standing (n : N) (st : SchedulerStatistics) s : Prop := live s ∧ (model s.2 ↔ M) ∧ ss_scheduler_steps st = n.

Lemma meets_bumped {S} c n l (s : S) (P : N → S → Prop) (R : NativeError → S → Prop) :
  (∀ v, P v s) → (∀ e, R e s) → meets (lift (bumped c n l)) s P R.
Proof. intros HP HR. apply meets_ok_or; [intros; apply HP|apply HR]. Qed.

Lemma meets_phase {X Y} (m : st (C * K) NativeError X) (f : X → st (C * K) NativeError Y) n st s P :
  phase (running cp root) m (λ _ k k', model k ↔ model k') → standing n st s →
  (∀ x s', standing n st s' → m s = (Ok x, s') → meets (f x) s' P lost) → meets (m ≫= f) s P lost.
Proof.
  intros Hm (Hl & HM & Hn) Hf. eapply meets_bind; [apply meets_eq, Hm, Hl|]. intros x s' [[Hl' Hm'] E].
  apply Hf; [|done]. split_and!; [done|by rewrite <-Hm'|done].
Qed.

Lemma nominal_count_spec n st s :
  standing n st s → meets (nominal_count st) s (λ r s', standing n r.2 s' ∧ process_nominals s = (Ok r.1, s')) lost.
Proof.
  intros Hs. eapply meets_phase; [apply law_nominals|done|]. intros x s' (Hl & HM & Hn) E.
  eapply meets_bind; [apply (meets_bumped _ _ _ _ (λ _ t, t = s')); [done|done]|]. intros v ? ->. by apply meets_ret.
Qed.

Lemma nominal_phase_spec n st s :
  standing n st s →
  meets (nominal_phase st) s (λ r s', standing n (whole r) s' ∧ ∀ st', r = inr st' → process_nominals s = (Ok 0, s')) lost.
Proof.
  intros Hs. eapply meets_bind; [by apply nominal_count_spec|]. intros [v st'] s' [Hs' E]. apply meets_ret.
  destruct (v =? 0)%N eqn:Ev; cbn in *; rewrite ?Ev; cbn; [apply N.eqb_eq in Ev as ->|]; (split; [done|]).
  - done.
  - intros ? [=].
Qed.

Lemma clash_check_spec d s : live s → meets (validate_datatype_clash d) s (λ _ t, t = s) lost.
Proof.
  intros Hl. eapply meets_bind; [apply (meets_gets _ _ (λ _ t, t = s)); done|]. intros b ? ->. by apply meets_reject.
Qed.

Lemma datatype_phase_spec n st s :
  standing n st s →
  meets (datatype_phase st) s (λ r s', standing n r.2 s' ∧ check_datatypes s = (Ok r.1, s')) lost.
Proof.
  intros Hs. eapply meets_phase; [apply law_datatypes|done|]. intros d s' (Hl & HM & Hn) E.
  eapply meets_bind; [apply (meets_lift _ _ (λ st2 t, t = s' ∧ ss_scheduler_steps st2 = n))|].
  - unfold record_datatypes, bumped. by destruct (checked_add _ _ _).
  - intros st2 (v & _ & E2)%outcome_bind_Ok. by injection E2 as <-.
  - done.
  - intros st2 ? [-> Hn2]. eapply meets_bind; [by apply clash_check_spec|]. intros [] ? ->. by apply meets_ret.
Qed.

Lemma after_delta_spec n st s : standing n st s → meets (after_delta st) s (standing n) lost.
Proof.
  intros Hs. eapply meets_bind; [apply (meets_bumped _ _ _ _ (λ _ t, t = s)); [done|intros; apply Hs]|]. intros v ? ->.
  eapply meets_bind; [by apply datatype_phase_spec|]. intros [d st1] s1 [Hs1 _].
  eapply meets_bind; [apply (meets_gets _ _ (λ _ t, t = s1)); done|]. intros b ? ->. destruct b; [by apply meets_ret|].
  eapply meets_bind; [by apply nominal_count_spec|]. intros [v2 st2] s2 [Hs2 _]. by apply meets_ret.
Qed.

Lemma delta_phase_spec n st s :
  standing n st s →
  meets (delta_phase st) s (λ r s', standing n (whole r) s' ∧ ∀ st', r = inr st' → quiet_delta s s') lost.
Proof.
  intros Hs. eapply meets_phase; [apply law_delta|done|]. intros d s' (Hl & HM & Hn) E.
  eapply meets_bind; [apply (meets_reject _ _ _ (λ _ t, t = s')); done|]. intros [] ? ->.
  eapply meets_bind; [apply (meets_lift _ _ (λ st2 t, t = s' ∧ ss_scheduler_steps st2 = n))|].
  - unfold record_delta, bumped. by repeat destruct (checked_add _ _ _).
  - intros st2 (v1 & _ & (v2 & _ & (v3 & _ & E2)%outcome_bind_Ok)%outcome_bind_Ok)%outcome_bind_Ok. by injection E2 as <-.
  - done.
  - intros st2 ? [-> Hn2]. destruct (dp_processed_rows d =? 0)%N eqn:Er.
    + apply meets_ret. split; [done|]. intros _ _. exists d. by apply N.eqb_eq in Er.
    + eapply meets_bind; [by apply after_delta_spec|]. intros st3 s3 Hs3. apply meets_ret. by split.
Qed.

Lemma quiet_datatypes_spec n st s :
  standing n st s →
  meets (quiet_datatypes st) s (λ r s', standing n (whole r) s' ∧ ∀ st', r = inr st' → quiet_datatype s s') lost.
Proof.
  intros Hs. eapply meets_bind; [by apply datatype_phase_spec|]. intros [d st'] s' [Hs' E]. apply meets_ret.
  destruct (dt_changed d || dt_clashed d) eqn:Ed; cbn in *; rewrite ?Ed; cbn; (split; [done|]); [intros ? [=]|].
  intros _ _. apply orb_false_iff in Ed as [??]. by exists d.
Qed.

Lemma refresh_phase_spec n st s :
  standing n st s → meets (refresh_phase st) s (λ st' s', standing n st' s' ∧ refreshed s s') lost.
Proof.
  intros Hs. eapply meets_bind; [apply (meets_gets _ _ (λ b t, b = has_existential_candidates s.2 ∧ t = s)); done|].
  unfold refreshed. intros b ? [-> ->]. destruct (has_existential_candidates s.2); [|by apply meets_ret].
  eapply meets_bind; [apply (meets_bumped _ _ _ _ (λ _ t, t = s)); [done|intros; apply Hs]|]. intros v ? ->.
  eapply meets_phase; [apply law_refresh|done|]. intros x s' (Hl & HM & Hn) E.
  eapply meets_bind; [apply (meets_bumped _ _ _ _ (λ _ t, t = s')); [done|done]|]. intros v2 ? ->. apply meets_ret. split; [done|by exists x].
Qed.

(** A phase that answers whether it made progress. *)
Lemma progress_spec (m : st (C * K) NativeError PhaseProgress) (f : N → SchedulerStatistics) c label n st s :
  phase (running cp root) m (λ _ k k', model k ↔ model k') → standing n st s →
  (∀ v, ss_scheduler_steps (f v) = n) →
  meets (progress ← m;
    if bool_decide (progress = Progress) then v ← lift (bumped c 1 label); mret (inl (f v)) else mret (inr st)) s
    (λ r s', standing n (whole r) s' ∧ ∀ st', r = inr st' → m s = (Ok PhaseNoWork, s')) lost.
Proof.
  intros Hm Hs Hf. eapply meets_phase; [done|done|]. intros x s' (Hl & HM & Hn) E. case_bool_decide as Hx.
  - eapply meets_bind; [apply (meets_bumped _ _ _ _ (λ _ t, t = s')); [done|done]|]. intros v ? ->. apply meets_ret.
    split; [|done]. split_and!; [done|done|]. apply Hf.
  - apply meets_ret. split; [done|]. intros _ _. by destruct x.
Qed.

Lemma existential_phase_spec n st s :
  standing n st s →
  meets (existential_phase st) s (λ r s', standing n (whole r) s' ∧
    ∀ st', r = inr st' → ∃ s1, refreshed s s1 ∧ process_existential s1 = (Ok PhaseNoWork, s')) lost.
Proof.
  intros Hs. eapply meets_bind; [by apply refresh_phase_spec|]. intros st1 s1 [Hs1 Hr].
  eapply meets_impl; [apply (progress_spec process_existential _ _ _ n); [apply law_existential|done|intros; apply Hs1]| |done].
  intros r s' [Hs' Hq]. split; [done|]. intros st' E. exists s1. split; [done|by eapply Hq].
Qed.

Lemma disjunction_phase_spec n st s :
  standing n st s →
  meets (disjunction_phase st) s (λ r s', standing n (whole r) s' ∧
    ∀ st', r = inr st' → process_disjunction s = (Ok PhaseNoWork, s')) lost.
Proof. intros Hs. apply (progress_spec process_disjunction _ _ _ n); [apply law_disjunction|done|intros; apply Hs]. Qed.

(** A phase after others: [T] relates the start of the turn to where they left off. *)
Lemma then_phase_spec m f n s (T T' : C * K → Prop) :
  meets m s (λ r s', standing n (whole r) s' ∧ ∀ st', r = inr st' → T s') lost →
  (∀ st' s', standing n st' s' → T s' → meets (f st') s' (λ r s'', standing n (whole r) s'' ∧ ∀ st'', r = inr st'' → T' s'') lost) →
  meets (then_phase m f) s (λ r s', standing n (whole r) s' ∧ ∀ st', r = inr st' → T' s') lost.
Proof.
  intros Hm Hf. eapply meets_bind; [exact Hm|]. intros [st1|st1] s1 [Hs1 HT]; [by apply meets_ret|].
  apply Hf; [done|by eapply HT].
Qed.

Lemma expand_spec n st s :
  standing n st s → meets (expand st) s (λ r s', standing n (whole r) s' ∧ ∀ st', r = inr st' → quiet s s') lost.
Proof.
  intros Hs. unfold expand.
  eapply (then_phase_spec _ _ _ _ (λ s5, ∃ s1 s2 s3 s4, process_nominals s = (Ok 0, s1) ∧ quiet_delta s1 s2 ∧
    quiet_datatype s2 s3 ∧ refreshed s3 s4 ∧ process_existential s4 = (Ok PhaseNoWork, s5))).
  2: { intros st5 s5 H5 (s1 & s2 & s3 & s4 & ?). eapply meets_impl; [by apply disjunction_phase_spec| |done].
       intros r s' [Hs' Hq]. split; [done|]. intros st' E. exists s1, s2, s3, s4, s5. specialize (Hq _ E). tauto. }
  eapply (then_phase_spec _ _ _ _ (λ s3, ∃ s1 s2, process_nominals s = (Ok 0, s1) ∧ quiet_delta s1 s2 ∧ quiet_datatype s2 s3)).
  2: { intros st3 s3 H3 (s1 & s2 & ?). eapply meets_impl; [by apply existential_phase_spec| |done].
       intros r s' [Hs' Hq]. split; [done|]. intros st' E. destruct (Hq _ E) as (s4 & ? & ?). exists s1, s2, s3, s4. tauto. }
  eapply (then_phase_spec _ _ _ _ (λ s2, ∃ s1, process_nominals s = (Ok 0, s1) ∧ quiet_delta s1 s2)).
  2: { intros st2 s2 H2 (s1 & ?). eapply meets_impl; [by apply quiet_datatypes_spec| |done].
       intros r s' [Hs' Hq]. split; [done|]. intros st' E. specialize (Hq _ E). exists s1, s2. tauto. }
  eapply (then_phase_spec _ _ _ _ (λ s1, process_nominals s = (Ok 0, s1))); [by apply nominal_phase_spec|].
  intros st1 s1 Hs1 E1. eapply meets_impl; [by apply delta_phase_spec| |done].
  intros r s' [Hs' Hq]. split; [done|]. intros st' E. specialize (Hq _ E). exists s1. tauto.
Qed.

(** ** The end of a turn *)

(** An answer after [n] steps. *)
Definition decided (n : N) (r : SessionCheckResult) : Prop :=
  (cr_satisfiable r = true ↔ M) ∧ cr_cache_hit r = false ∧ ss_scheduler_steps (cr_statistics r) = n.

Definition turned (n : N) (r : SchedulerStatistics + SessionCheckResult) s : Prop :=
  match r with inl st => standing n st s | inr r => live s ∧ decided n r end.

Lemma clash_phase_spec n st s : standing n st s → has_clash s.2 = true → meets (clash_phase st) s (turned n) lost.
Proof.
  intros (Hl & HM & Hn) Hc. eapply meets_bind; [by apply law_clash|]. intros [] s1 [Hl1 Hm1].
  - eapply (meets_bind _ _ _ (λ _ s2, standing n st s2)).
    + pose proof (law_invalidate cp root s1.2 Hl1) as Hi. unfold meets, on_tableau in *.
      destruct (invalidate_after_backtrack s1.2) as [[[]|e|] k2]; [|done|done]. destruct Hi as [? Hm2].
      split_and!; [done|cbn; tauto|done].
    + intros [] s2 Hs2. eapply meets_bind; [apply (meets_bumped _ _ _ _ (λ _ t, t = s2)); [done|intros; apply Hs2]|].
      intros v ? ->. by apply meets_ret.
  - eapply meets_bind; [apply (meets_reads _ _ (λ _ t, t = s1)); [by eapply law_audit|done|done]|]. intros [] ? ->.
    apply meets_ret. split; [done|]. split_and!; [|done|done]. cbn. split; [done|]. intros ?. by destruct Hm1; apply HM.
Qed.

Lemma validation_phase_spec n st s0 s :
  live s0 → standing n st s → (∀ s', validated s s' → saturated s0 s') → meets (validation_phase st) s (turned n) lost.
Proof.
  intros Hl0 Hs Hsat. eapply meets_phase; [apply law_validate|done|]. intros [v checks] s1 (Hl & HM & Hn) E.
  eapply meets_bind; [apply (meets_bumped _ _ _ _ (λ _ t, t = s1)); [done|done]|]. intros c ? ->.
  eapply (meets_bind _ _ _ (λ _ t, t = s1)).
  { case_bool_decide; [by apply meets_ret|apply meets_bumped; done]. }
  intros p ? ->. case_bool_decide as Hv; [by apply meets_ret|].
  eapply meets_bind; [apply (meets_reads _ _ (λ b t, t = s1 ∧ ready_for_sat s1.2 = Ok b)); [by eapply law_ready|done|done]|].
  intros ready ? [-> Hready].
  eapply meets_bind; [apply (meets_reject _ _ _ (λ _ t, t = s1 ∧ ready = true)); [by destruct ready|done]|].
  intros [] ? [-> ->].
  eapply meets_bind; [apply (meets_reads _ _ (λ _ t, t = s1 ∧ check_invariants s1.2 = Ok tt)); [by eapply law_audit|by intros []|done]|].
  intros [] ? [-> Hinv]. apply meets_ret. split; [done|]. split_and!; [|done|done]. cbn. split; [|done]. intros _. apply HM.
  eapply law_saturated; [exact Hl0|]. apply Hsat. by exists (v, checks).
Qed.

Lemma turn_spec max n st s :
  standing n st s → meets (turn max st) s (λ r s', n + 1 ≤ max ∧ turned (n + 1) r s') lost.
Proof.
  intros (Hl & HM & Hn). eapply (meets_bind _ _ _ (λ _ s1, s1.2 = s.2)).
  { pose proof (calm_poll s.1). unfold meets, controlled. destruct (control_poll s.1) as [[[]|e|] c1]; done. }
  intros [] [c1 k1] E1. cbn in E1. subst k1.
  eapply meets_bind; [apply (meets_ok_or _ _ _ (λ v t, t = (c1, s.2) ∧ v = n + 1)); [|done]|].
  { intros v Hv. apply checked_add_Some in Hv as [-> _]. split; [done|lia]. }
  intros v ? [-> ->]. eapply meets_bind; [apply (meets_reject _ _ _ (λ _ t, t = (c1, s.2) ∧ n + 1 ≤ max)); [|done]|].
  { intros ?%N.ltb_ge. done. }
  intros [] ? [-> Hmax]. set (st1 := st <| ss_scheduler_steps := n + 1 |>).
  assert (standing (n + 1) st1 (c1, s.2)) as Hs1 by done.
  eapply meets_bind; [apply (meets_gets _ _ (λ b t, t = (c1, s.2) ∧ b = has_clash s.2)); done|]. intros b ? [-> ->].
  eapply (meets_impl _ _ (turned (n + 1)) _ lost); [|done|done].
  eapply (meets_bind _ _ _ (λ r s', standing (n + 1) (whole r) s' ∧
    ∀ st', r = inr st' → if has_clash s.2 then s' = (c1, s.2) else quiet (c1, s.2) s')).
  { destruct (has_clash s.2); [apply meets_ret; by split|by apply expand_spec]. }
  intros [st2|st2] s2 [Hs2 Hq]; [by apply meets_ret|]. specialize (Hq st2 eq_refl).
  eapply meets_bind; [apply (meets_gets _ _ (λ b t, t = s2 ∧ b = has_clash s2.2)); done|]. intros b ? [-> ->].
  destruct (has_clash s2.2) eqn:Ec2; [by apply clash_phase_spec|].
  destruct (has_clash s.2) eqn:Ec; [subst s2; cbn in Ec2; congruence|].
  apply (validation_phase_spec _ _ (c1, s.2)); [done|done|]. intros s' Hv. split; [done|]. exists s2. done.
Qed.

(** The driver decides [M] within its steps. *)
Lemma drive_spec max s :
  live s → (model s.2 ↔ M) →
  meets (drive_tableau max) s (λ r s', live s' ∧ ∃ n, 1 ≤ n ≤ max ∧ decided n r) lost.
Proof.
  intros Hl HM. unfold drive_tableau. eapply meets_bind; [apply (meets_reject _ _ _ (λ _ t, t = s)); done|]. intros [] ? ->.
  apply (meets_loopM (λ st s, standing (ss_scheduler_steps st) st s ∧ ss_scheduler_steps st ≤ max)
    (λ st, max + 1 - ss_scheduler_steps st)); [|split; [done|cbn; lia]|cbn; lia].
  intros st s1 [Hs1 Hmax]. eapply meets_impl; [by apply (turn_spec max)| |done].
  intros [st2|r] s2 [Hle Ht]; cbn in Ht.
  - destruct Ht as (Hl2 & HM2 & Hn). split; [split; [split; [done|by split]|lia]|split; lia].
  - destruct Ht as [? Hd]. split; [done|]. eexists. split; [|exact Hd]. lia.
Qed.
End driver.
