(* ===== verification/SessionRun.v ===== *)
(** * Sessions answer right

    A session whose tableau keeps its contract answers every check as the ontology
    it was opened with demands, whatever operations, interrupts and failures came
    before; errors leave it usable or poisoned. *)

From S2P Require Import Prelude Order Errors Cancel Contracts Session SessionOps SessionSpec.
Import Session.

(** ** Rules *)

Lemma meets_caught {S E X Y} (m : st S E X) (f : X + E → st S E Y) s P R :
  meets m s (λ x s', meets (f (inl x)) s' P R) (λ e s', meets (f (inr e)) s' P R) → meets (r ← caught m; f r) s P R.
Proof. unfold meets, caught, mbind, st_bind. by destruct (m s) as [[x|e|] s1]. Qed.

Section transactions.
Context {C K Q CP : Type} `{OperationControl C} `{TableauLaws C K Q CP} `{!CalmControl C}.
(** The ontology: which queries, and whether it is satisfiable without one. *)
Context (T : option (SessionQuery Q) → Prop).
Implicit Types s : Running C K.

(** A root that stands for the ontology. *)
Definition means (k : K) : Prop := root_ok k ∧ ∀ q, sem q k ↔ T q.

Abbreviation kernel_in s := (so_kernel (ru_owned s)).

(** Everything but the kernel is as it was. *)
Definition books_kept s s' : Prop := ru_owned s' = ru_owned s <| so_kernel := kernel_in s' |>.

(** The books are kept, and the kernel is a root again unless the session is poisoned. *)
Definition restored s s' : Prop := books_kept s s' ∧ (ru_poisoned s' = true ∨ means (kernel_in s')).

Lemma books_kept_refl s : books_kept s s.
Proof. destruct s as [c p []]. done. Qed.

Lemma books_kept_trans s1 s2 s3 : books_kept s1 s2 → books_kept s2 s3 → books_kept s1 s3.
Proof. unfold books_kept. intros -> ->. by destruct (ru_owned s1). Qed.

(** ** Controls and kernels *)

Lemma meets_controlling {X} (m : st C NativeError X) s P (R : NativeError → Running C K → Prop) :
  (∀ c, (m c).1 ≠ Crash) → (∀ x c, P x (mkRunning c (ru_poisoned s) (ru_owned s))) →
  (∀ e c, R e (mkRunning c (ru_poisoned s) (ru_owned s))) → meets (controlling m) s P R.
Proof. intros Hm HP HR. specialize (Hm (ru_control s)). unfold meets, controlling. destruct (m (ru_control s)) as [[]]; done || apply HP || apply HR. Qed.

Lemma meets_driving {X} (m : st (C * K) NativeError X) s (P : X → C * K → Prop) (R : NativeError → C * K → Prop) :
  meets m (ru_control s, kernel_in s) P R →
  meets (driving m) s
    (λ x s', books_kept s s' ∧ ru_poisoned s' = ru_poisoned s ∧ P x (ru_control s', kernel_in s'))
    (λ e s', books_kept s s' ∧ ru_poisoned s' = ru_poisoned s ∧ R e (ru_control s', kernel_in s')).
Proof. unfold meets, driving. destruct (m _) as [[] [c' k']]; done. Qed.

Lemma meets_on_kernel {X} (m : st K NativeError X) s (P : X → K → Prop) (R : NativeError → K → Prop) :
  meets m (kernel_in s) P R →
  meets (on_kernel m) s
    (λ x s', books_kept s s' ∧ ru_poisoned s' = ru_poisoned s ∧ P x (kernel_in s'))
    (λ e s', books_kept s s' ∧ ru_poisoned s' = ru_poisoned s ∧ R e (kernel_in s')).
Proof. unfold meets, on_kernel. destruct (m _) as [[] k']; done. Qed.

(** An error passes on, and may poison. *)
Lemma meets_inspected {X} (m : st (Running C K) NativeError X) s P (R : NativeError → Running C K → Prop) :
  meets m s P (λ e s', R e s' ∧ R e (mkRunning (ru_control s') true (ru_owned s'))) → meets (inspected m) s P R.
Proof.
  intros Hm. unfold inspected. apply meets_caught. eapply meets_impl; [exact Hm|done|]. intros e s' [HR HR'].
  unfold poison_on_invariant. by case_match.
Qed.

Lemma meets_fatal {X} code message s P (R : NativeError → Running C K → Prop) :
  (∀ e, R e (mkRunning (ru_control s) true (ru_owned s))) → meets (fatal (X:=X) code message) s P R.
Proof. intros HR. apply HR. Qed.

(** ** Transactions *)

Section root.
Context (s0 : Running C K) (Hroot : means (kernel_in s0)).

(** In the middle of a transaction on the root of [s0]. *)
Definition inside cp s : Prop := books_kept s0 s ∧ running cp (kernel_in s0) (kernel_in s).

Lemma restored_poisoned s : books_kept s0 s → restored s0 (mkRunning (ru_control s) true (ru_owned s)).
Proof. intros Hb. split; [exact Hb|by left]. Qed.

Lemma means_finished k : root_ok k → (∀ q, sem q k ↔ sem q (kernel_in s0)) → means k.
Proof. intros Ho Hq. split; [done|]. intros q. rewrite Hq. apply Hroot. Qed.

Lemma meets_audit s (P : unit → Running C K → Prop) R :
  check_invariants (kernel_in s) ≠ Crash → P tt s → (∀ e, R e s) → meets audit s P R.
Proof.
  intros Hc HP HR. unfold audit, meets, on_kernel, reads.
  replace (mkRunning (ru_control s) (ru_poisoned s) (ru_owned s <| so_kernel := kernel_in s |>)) with s by (by destruct s as [?? []]).
  destruct (check_invariants (kernel_in s)) as [[]|e|]; [done|apply HR|done].
Qed.

(** After a finished operation: the audit, and then [X] or a poisoned session. *)
Lemma finish_spec {X} cp d s (fe : NativeError → st (Running C K) NativeError X) (fa : unit + NativeError → st (Running C K) NativeError X) P R :
  inside cp s →
  (∀ e s', books_kept s0 s' → meets (fe e) s' P R) →
  (∀ s', books_kept s0 s' → means (kernel_in s') → meets (fa (inl tt)) s' P R) →
  (∀ e s', books_kept s0 s' → meets (fa (inr e)) s' P R) →
  meets (r ← caught (on_kernel (finish_operation cp d));
    match r with inr e => fe e | inl _ => a ← caught audit; fa a end) s P R.
Proof.
  intros [Hb Hr] Hfe Hok Hfa. apply meets_caught. eapply meets_impl; [apply meets_on_kernel, (law_finish cp (kernel_in s0)), Hr| |].
  - intros [] s1 (Hb1 & _ & Ho & Hq). pose proof (books_kept_trans _ _ _ Hb Hb1) as Hb'. apply meets_caught.
    apply meets_audit; [by apply law_audit_root|by apply Hok, means_finished|intros e; by apply Hfa].
  - intros e s1 (Hb1 & _ & _). apply Hfe. by eapply books_kept_trans.
Qed.

Lemma recover_spec {X} cp e s P : inside cp s → meets (recover (X:=X) cp e) s P (λ _ s', restored s0 s').
Proof.
  intros Hi. unfold recover.
  apply (finish_spec cp RollbackQuery s _ (λ a, match a with inl _ => _ | inr e' => _ end)); [done|..].
  - intros e' s' Hb. apply meets_fatal. intros _. by apply restored_poisoned.
  - intros s' Hb Hm. unfold poison_on_invariant. case_match; [by apply restored_poisoned|split; [done|by right]].
  - intros e' s' Hb. apply meets_fatal. intros _. by apply restored_poisoned.
Qed.

Lemma recovering_spec {X Y} cp (m : st (Running C K) NativeError X) (f : X → st (Running C K) NativeError Y) s P :
  meets m s (λ x s', meets (f x) s' P (λ _ s', restored s0 s')) (λ _ s', inside cp s') →
  meets (recovering cp m f) s P (λ _ s', restored s0 s').
Proof. intros Hm. unfold recovering. apply meets_caught. eapply meets_impl; [exact Hm|done|]. intros e s' Hi. by apply recover_spec. Qed.
End root.

(** A transaction answers for its query and gives the root back; its poll, its
    installation, its run, its audits may fail, which gives the root back too. *)
Lemma transaction_spec query d limits s :
  means (kernel_in s) →
  meets (run_transaction query d limits) s
    (λ r s', books_kept s s' ∧ means (kernel_in s') ∧ cr_cache_hit r = false ∧ (cr_satisfiable r = true ↔ T query))
    (λ _ s', restored s s').
Proof.
  intros Hm. pose proof (books_kept_refl s) as Hb0. unfold run_transaction.
  assert (∀ c, restored s (mkRunning c (ru_poisoned s) (ru_owned s)) ∧ restored s (mkRunning c true (ru_owned s))) as Hearly.
  { intros c. split; (split; [apply Hb0|]); [by right|by left]. }
  eapply (meets_bind _ _ _ (λ _ s', ru_owned s' = ru_owned s)).
  { apply meets_inspected, meets_controlling; [apply calm_poll|done|]. intros; apply Hearly. }
  intros [] [c1 p1 o1] E1. cbn in E1. subst o1. set (s1 := mkRunning c1 p1 (ru_owned s)).
  eapply (meets_bind _ _ _ (λ _ s', ru_owned s' = ru_owned s)).
  { apply meets_inspected. eapply meets_impl; [apply (meets_on_kernel _ s1 (λ _ k, k = kernel_in s) (λ _ k, k = kernel_in s))| |].
    - apply meets_reads; [by apply law_estimate, Hm|done|done].
    - intros x s2 (Hb2 & _ & Hk2). rewrite Hb2, Hk2. by destruct (ru_owned s).
    - intros e s2 (Hb2 & _ & Hk2). assert (ru_owned s2 = ru_owned s) as E2 by (rewrite Hb2, Hk2; by destruct (ru_owned s)).
      unfold restored, books_kept. cbn. rewrite E2. split; (split; [by destruct (ru_owned s)|]); [by right|by left]. }
  intros memory [c2 p2 o2] E2. cbn in E2. subst o2.
  eapply (meets_bind _ _ _ (λ _ s', ru_owned s' = ru_owned s)).
  { apply meets_inspected, meets_controlling; [apply calm_observe|done|]. intros e c. cbn.
    split; (split; [apply Hb0|]); [by right|by left]. }
  intros [] [c3 p3 o3] E3. cbn in E3. subst o3. set (s3 := mkRunning c3 p3 (ru_owned s)).
  eapply (meets_bind _ _ _ (λ cp s', books_kept s s' ∧ prepared cp (kernel_in s) (kernel_in s'))).
  { apply meets_inspected. eapply meets_impl; [apply (meets_driving _ s3), law_checkpoint, Hm| |].
    - by intros cp s4 (Hb4 & _ & Hp).
    - intros e s4 (Hb4 & _ & Ho & Hq). split; (split; [exact Hb4|]); [right|by left]. by apply (means_finished s Hm). }
  intros cp s4 [Hb4 Hp4]. destruct (prepared_running _ _ _ Hp4) as [Hr4 HM4]. apply recovering_spec; [done|].
  eapply (meets_impl _ _ (λ _ s', inside s cp s' ∧ (model (kernel_in s') ↔ T query)) _ (λ _ s', inside s cp s')); [| |done].
  { destruct query as [q|]; [|apply meets_ret; split; [done|]; rewrite HM4; apply Hm].
    eapply meets_impl; [apply meets_driving, (law_install cp (kernel_in s)); done| |].
    - intros [] s5 (Hb5 & _ & Hr5 & HM5). split; [split; [by eapply books_kept_trans|done]|]. rewrite HM5. apply Hm.
    - intros e s5 (Hb5 & _ & Hr5). split; [by eapply books_kept_trans|done]. }
  intros [] s5 [[Hb5 Hr5] HM5]. apply recovering_spec; [done|].
  eapply meets_impl; [apply meets_driving, (drive_spec cp (kernel_in s) (T query)); [done|done]| |].
  2: { intros e s6 (Hb6 & _ & Hr6). split; [by eapply books_kept_trans|done]. }
  intros r s6 (Hb6 & _ & Hr6 & n & _ & Hsat & Hhit & _). pose proof (books_kept_trans _ _ _ Hb5 Hb6) as Hbooks.
  apply recovering_spec; [done|]. apply meets_controlling; [apply calm_poll| |].
  2: { intros e c. by split. }
  intros [] c7. apply recovering_spec; [done|]. apply meets_audit; [by eapply law_audit| |].
  2: { intros e. by split. }
  apply (finish_spec s Hm cp d _ _ (λ a, match a with inl _ => _ | inr e' => _ end)); [by split|..].
  - intros e s' Hb. apply meets_fatal. intros _. by apply restored_poisoned.
  - intros s' Hb Hm'. by apply meets_ret.
  - intros e s' Hb. apply meets_fatal. intros _. by apply restored_poisoned.
Qed.

(** ** Operations *)

(** What the session knows is true of the ontology. *)
Definition faithful (o : SessionOwned K) : Prop :=
  means (so_kernel o) ∧ ∀ b, so_permanent_satisfiable o = Some b → (b = true ↔ T None).

(** Kernel and cache are as they were. *)
Definition clerical (o o' : SessionOwned K) : Prop :=
  so_kernel o' = so_kernel o ∧ so_permanent_satisfiable o' = so_permanent_satisfiable o.

Definition books {X} (m : st (SessionOwned K) NativeError X) : Prop :=
  ∀ o, meets m o (λ _ o', clerical o o') (λ _ o', clerical o o').

Lemma books_bind {X Y} (m : st (SessionOwned K) NativeError X) (f : X → st (SessionOwned K) NativeError Y) :
  books m → (∀ x, books (f x)) → books (m ≫= f).
Proof.
  intros Hm Hf o. eapply meets_bind; [apply Hm|]. intros x o1 [Ek Ec].
  eapply meets_impl; [apply Hf| |]; intros ? o2 [Ek2 Ec2]; (split; [by rewrite Ek2|by rewrite Ec2]).
Qed.

Lemma books_lift {X} (r : NativeResult X) : r ≠ Crash → books (lift r).
Proof. intros Hr o. by apply meets_lift. Qed.

Lemma books_modify f : (∀ o, clerical o (f o)) → books (modify f).
Proof. intros Hf o. apply Hf. Qed.

Lemma books_push capacity e : books (push_event capacity e).
Proof.
  unfold push_event. apply books_bind; [done|]. intros o. apply books_bind; [by apply books_lift; destruct (checked_add _ _ _)|].
  intros next. apply books_bind; [by apply books_modify|]. intros _.
  apply books_bind; [destruct (_ =? _)%N; [by apply books_modify|done]|]. intros _. by apply books_modify.
Qed.

Lemma books_start kind total : books (start_operation kind total).
Proof.
  unfold start_operation. apply books_bind; [done|]. intros o. apply books_bind; [by apply books_lift; destruct (checked_add _ _ _)|].
  intros _. apply books_bind; [by apply books_lift; destruct (checked_add _ _ _)|]. intros next.
  apply books_bind; [by apply books_modify|]. intros _. apply books_bind; [by apply books_modify|done].
Qed.

Lemma books_checks capacity c offset checks : books (push_checks capacity c offset checks).
Proof.
  revert offset. induction checks as [|check checks IH]; intros offset; [done|].
  cbn [push_checks]. apply books_bind; [apply books_push|]. intros _. apply IH.
Qed.

Lemma books_complete c r checks capacity : books (complete_operation c r checks capacity).
Proof.
  unfold complete_operation. apply books_bind; [apply books_lift; by destruct (match _ with Some _ => _ | None => _ end)|].
  intros _. apply books_bind; [apply books_push|]. intros _. apply books_bind; [apply books_checks|]. intros _.
  apply books_bind; [destruct (negb _); [apply books_push|done]|]. intros _.
  apply books_bind; [apply books_push|]. intros _. by apply books_modify.
Qed.

Lemma books_aborted c e capacity : books (abort_operation c e capacity).
Proof.
  unfold abort_operation. apply books_bind; [apply books_push|]. intros _. apply books_bind; [apply books_push|]. intros _.
  by apply books_modify.
Qed.

(** A session that may go on, or is poisoned. *)
Definition usable s : Prop := ru_poisoned s = true ∨ faithful (ru_owned s).

Lemma faithful_clerical o o' : faithful o → clerical o o' → faithful o'.
Proof. unfold faithful. by intros ? [-> ->]. Qed.

Lemma usable_restored s s' : faithful (ru_owned s) → restored s s' → usable s'.
Proof.
  intros [_ Hc] [Hb [Hp|Hm]]; [by left|right]. split; [done|]. intros b. rewrite Hb. apply Hc.
Qed.

Lemma meets_owning {X} (m : st (SessionOwned K) NativeError X) s :
  books m → usable s →
  meets (owning m) s (λ _ s', usable s' ∧ (faithful (ru_owned s) → faithful (ru_owned s'))) (λ _ s', usable s').
Proof.
  intros Hm Hs. specialize (Hm (ru_owned s)). unfold meets, owning in *.
  destruct (m (ru_owned s)) as [[x|e|] o']; [| |done]; cbn in *.
  - split; [|by intros; eapply faithful_clerical]. destruct Hs; [by left|right; by eapply faithful_clerical].
  - destruct Hs; [by left|right; by eapply faithful_clerical].
Qed.

Lemma abort_spec {X} c e capacity s (P : X → Running C K → Prop) :
  usable s → meets (owning (abort c e capacity)) s P (λ _ s', usable s').
Proof.
  intros Hs. pose proof (meets_owning _ s (books_aborted c e capacity) Hs) as Hm.
  unfold meets, owning, abort, mbind, st_bind in *. destruct (abort_operation c e capacity (ru_owned s)) as [[[]|e'|] o']; [|done|done].
  apply Hm.
Qed.

Lemma settle_spec {X} c limits attempt record checks s (P : X → Prop) :
  meets attempt s (λ x s', faithful (ru_owned s') ∧ P x) (λ _ s', usable s') →
  meets (settle c limits attempt record checks) s (λ x s', faithful (ru_owned s') ∧ P x) (λ _ s', usable s').
Proof.
  intros Ha. unfold settle. apply meets_caught. eapply meets_impl; [exact Ha| |].
  - intros x s' [Hf HP]. eapply meets_bind; [apply meets_owning; [apply books_complete|by right]|].
    intros [] s2 [_ Hf2]. apply meets_ret. split; [by apply Hf2|done].
  - intros e s' Hu. by apply abort_spec.
Qed.

(** An answer from the cache, or from a transaction. *)
Definition right_answer (query : option (SessionQuery Q)) (r : SessionCheckResult) : Prop := cr_satisfiable r = true ↔ T query.

Lemma cached_spec b query s :
  faithful (ru_owned s) → (b = true ↔ T query) →
  meets (_ ← controlled_poll; mret (Scheduler.cached b)) s (λ r s', faithful (ru_owned s') ∧ right_answer query r) (λ _ s', usable s').
Proof.
  intros Hf Hb. eapply (meets_bind _ _ _ (λ _ s', ru_owned s' = ru_owned s)).
  - apply meets_inspected, meets_controlling; [apply calm_poll|done|]. intros e c. split; [by right|by left].
  - intros [] s' E. apply meets_ret. by rewrite E.
Qed.

Lemma checked_spec query d limits s :
  faithful (ru_owned s) →
  meets (run_transaction query d limits) s (λ r s', faithful (ru_owned s') ∧ right_answer query r) (λ _ s', usable s').
Proof.
  intros Hf. eapply meets_impl; [by apply transaction_spec, Hf| |].
  - intros r s' (Hb & Hm & _ & Hr). split; [|done]. split; [done|]. rewrite Hb. apply Hf.
  - intros e s' Hr. by eapply usable_restored.
Qed.

(** Without the ontology there is no model of it with a query either. *)
Lemma refuted_query o q : faithful o → so_permanent_satisfiable o = Some false → (false = true ↔ T (Some q)).
Proof.
  intros [[_ Hq] Hc] E. split; [done|]. intros Hs. apply (Hc false E), Hq, (sem_monotone _ q), Hq, Hs.
Qed.

Lemma check_permanent_spec limits s :
  faithful (ru_owned s) →
  meets (check_permanent_op limits) s (λ r s', faithful (ru_owned s') ∧ right_answer None r) (λ _ s', usable s').
Proof.
  intros Hf. eapply meets_bind; [apply meets_owning; [apply books_start|by right]|]. intros c s1 [_ Hf1]. specialize (Hf1 Hf).
  eapply meets_bind; [apply (meets_gets _ _ (λ x t, x = s1 ∧ t = s1)); done|]. intros ? ? [-> ->].
  eapply meets_bind; [apply (settle_spec _ _ _ _ _ _ (right_answer None))|].
  - destruct (so_permanent_satisfiable (ru_owned s1)) as [b|] eqn:E; [by apply cached_spec; [done|]; apply Hf1|by apply checked_spec].
  - intros r s2 [Hf2 Hr]. eapply (meets_bind _ _ _ (λ _ s', faithful (ru_owned s'))); [|intros [] s3 Hf3; by apply meets_ret].
    destruct (cr_cache_hit r); [by apply meets_ret|]. split; [apply Hf2|]. intros b [= <-]. done.
Qed.

Lemma check_query_spec limits query s :
  faithful (ru_owned s) →
  meets (check_query_op limits query) s (λ r s', faithful (ru_owned s') ∧ right_answer (Some query) r) (λ _ s', usable s').
Proof.
  intros Hf. eapply meets_bind; [apply meets_owning; [apply books_start|by right]|]. intros c s1 [_ Hf1]. specialize (Hf1 Hf).
  eapply meets_bind; [apply (meets_gets _ _ (λ x t, x = s1 ∧ t = s1)); done|]. intros ? ? [-> ->]. apply settle_spec.
  case_bool_decide as E; [apply cached_spec; [done|by apply (refuted_query (ru_owned s1))]|by apply checked_spec].
Qed.

Lemma batch_loop_spec limits queries rs checks sch hits s (done_ : list (SessionQuery Q)) :
  faithful (ru_owned s) → Forall2 right_answer (Some <$> done_) rs →
  meets (batch_loop limits queries rs checks sch hits) s
    (λ r s', faithful (ru_owned s') ∧ Forall2 right_answer (Some <$> done_ ++ queries) r.1.1.1) (λ _ s', usable s').
Proof.
  revert rs checks sch hits s done_. induction queries as [|q qs IH]; intros rs checks sch hits s done_ Hf Hr.
  - apply meets_ret. by rewrite app_nil_r.
  - cbn [batch_loop]. eapply (meets_bind _ _ _ (λ _ s', ru_owned s' = ru_owned s)).
    { apply meets_inspected, meets_controlling; [apply calm_poll|done|]. intros e c. split; [by right|by left]. }
    intros [] s1 E1. rewrite <-E1 in Hf. eapply meets_bind; [apply (meets_gets _ _ (λ x t, x = s1 ∧ t = s1)); done|].
    intros ? ? [-> ->]. eapply (meets_bind _ _ _ (λ r s', faithful (ru_owned s') ∧ right_answer (Some q) r)).
    { case_bool_decide as E; [apply meets_ret; split; [done|by apply (refuted_query (ru_owned s1))]|by apply checked_spec]. }
    intros r s2 [Hf2 Hr2]. replace (done_ ++ q :: qs) with ((done_ ++ [q]) ++ qs) by (by rewrite <-app_assoc). apply IH; [done|].
    rewrite fmap_app. apply Forall2_app; [done|]. constructor; [done|constructor].
Qed.

Lemma check_many_spec sizes sizes' limits queries s :
  faithful (ru_owned s) →
  meets (check_many_op sizes sizes' limits queries) s
    (λ rs s', faithful (ru_owned s') ∧ Forall2 right_answer (Some <$> queries) rs) (λ _ s', usable s').
Proof.
  intros Hf. eapply meets_bind; [apply meets_owning; [apply books_start|by right]|]. intros c s1 [_ Hf1]. specialize (Hf1 Hf).
  eapply meets_bind; [apply (settle_spec _ _ _ _ _ _ (λ r, Forall2 right_answer (Some <$> queries) r.1.1))|].
  2: { intros r s2 Hr. by apply meets_ret. }
  assert (usable s1) as Hu by (by right). unfold run_batch.
  eapply meets_bind; [apply (meets_reject _ _ _ (λ _ t, t = s1)); done|]. intros [] ? ->.
  eapply meets_bind; [apply (meets_ok_or _ _ _ (λ _ t, t = s1)); done|]. intros bytes ? ->.
  eapply meets_bind; [apply (meets_reject _ _ _ (λ _ t, t = s1)); done|]. intros [] ? ->.
  eapply (meets_bind _ _ _ (λ _ s', faithful (ru_owned s'))).
  { apply meets_inspected. eapply meets_impl; [apply (meets_on_kernel _ s1 (λ _ k, k = kernel_in s1) (λ _ k, k = kernel_in s1))| |].
    - apply meets_reads; [by apply law_estimate, Hf1|done|done].
    - intros x s2 (Hb2 & _ & Hk2). eapply faithful_clerical; [exact Hf1|]. by rewrite Hb2, Hk2.
    - intros e s2 (Hb2 & _ & Hk2). split; [right|by left]. eapply faithful_clerical; [exact Hf1|]. by rewrite Hb2, Hk2. }
  intros kb s2 Hf2. eapply (meets_bind _ _ _ (λ _ s', faithful (ru_owned s'))).
  { apply meets_inspected, meets_controlling; [apply calm_observe|done|]. intros e c'. split; [by right|by left]. }
  intros [] s3 Hf3. eapply (meets_bind _ _ _ (λ _ s', faithful (ru_owned s'))).
  { apply meets_inspected, meets_controlling; [apply calm_poll|done|]. intros e c'. split; [by right|by left]. }
  intros [] s4 Hf4. eapply meets_bind; [apply (batch_loop_spec _ _ _ _ _ _ _ []); [done|constructor]|].
  intros [[[rs checks] sch] hits] s5 [Hf5 Hr5]. eapply (meets_bind _ _ _ (λ _ s', faithful (ru_owned s'))).
  { apply meets_inspected, meets_controlling; [apply calm_poll|done|]. intros e c'. split; [by right|by left]. }
  intros [] s6 Hf6. by apply meets_ret.
Qed.

Lemma reset_spec limits s :
  faithful (ru_owned s) → meets (reset_query_state_op limits) s (λ _ s', faithful (ru_owned s')) (λ _ s', usable s').
Proof.
  intros Hf. eapply meets_bind; [apply meets_owning; [apply books_start|by right]|]. intros c s1 [_ Hf1]. specialize (Hf1 Hf).
  apply meets_caught. eapply (meets_impl _ _ (λ _ s', faithful (ru_owned s')) _ (λ _ _, True)).
  - eapply (meets_bind _ _ _ (λ _ s', faithful (ru_owned s'))).
    + eapply meets_impl; [apply meets_on_kernel, law_reset, Hf1| |done]. intros [] s2 (Hb & _ & Ho & Hq).
      split; [split; [done|]; intros q; rewrite Hq; apply Hf1|]. rewrite Hb. apply Hf1.
    + intros [] s2 Hf2. by apply meets_audit; [apply law_audit_root, Hf2| |].
  - intros [] s2 Hf2. eapply meets_impl; [apply meets_owning; [apply books_complete|by right]| |done]. intros [] s3 [_ Hf3]. by apply Hf3.
  - intros e s2 _. eapply meets_bind; [apply (meets_modify _ _ (λ _ t, ru_poisoned t = true)); done|]. intros [] s3 Hp.
    apply abort_spec. by left.
Qed.

End transactions.

(** ** The lifecycle *)

Section lifecycle.
Context {C K Q CP : Type} `{OperationControl C} `{TableauLaws C K Q CP} `{!CalmControl C}.
Context (T : option (SessionQuery Q) → Prop).

(** An open session knows its ontology, or is poisoned. *)
Definition sound (l : LifecycleControl K) : Prop := lc_poisoned l = true ∨ ∀ o, lc_owned l = Some o → faithful T o.

Lemma run_owned_spec {X} (op : st (Running C K) NativeError X) o (P : X → Prop) (s : C * LifecycleControl K) :
  faithful T o → (∀ s, faithful T (ru_owned s) → meets op s (λ x s', faithful T (ru_owned s') ∧ P x) (λ _ s', usable T s')) →
  meets (run_owned op o) s (λ x s', sound s'.2 ∧ P x) (λ _ s', sound s'.2).
Proof.
  intros Hf Hop. specialize (Hop (mkRunning s.1 (lc_poisoned s.2) o) Hf). unfold meets, run_owned in *.
  destruct (op _) as [[x|e|] s']; [| |done].
  - destruct Hop as [Hf' HP]. split; [|done]. right. by intros ? [= <-].
  - destruct Hop as [Hp|Hf']; [by left|right; by intros ? [= <-]].
Qed.

Lemma run_locked_spec {X} pid (op : st (Running C K) NativeError X) (P : X → Prop) (s : C * LifecycleControl K) :
  sound s.2 → (∀ s, faithful T (ru_owned s) → meets op s (λ x s', faithful T (ru_owned s') ∧ P x) (λ _ s', usable T s')) →
  meets (run_locked pid op) s (λ x s', sound s'.2 ∧ P x) (λ _ s', sound s'.2).
Proof.
  intros Hs Hop. unfold run_locked. eapply (meets_bind _ _ _ (λ _ s', sound s'.2 ∧ lc_poisoned s'.2 = false)).
  { unfold preflight. eapply meets_bind; [apply (meets_gets _ _ (λ l t, l = s.2 ∧ t = s)); done|]. intros ? ? [-> ->].
    eapply meets_bind; [apply (meets_reject _ _ _ (λ _ t, t = s)); done|]. intros [] ? ->.
    eapply meets_bind; [apply (meets_reject _ _ _ (λ _ t, t = s)); done|]. intros [] ? ->.
    eapply meets_bind; [apply (meets_reject _ _ _ (λ _ t, t = s ∧ lc_poisoned s.2 = false)); done|]. intros [] ? [-> Hp].
    eapply meets_bind; [apply (meets_gets _ _ (λ l t, l = s.2 ∧ t = s)); done|]. intros ? ? [-> ->].
    destruct (lc_busy s.2); [done|]. split; [|done]. destruct Hs as [|Hs]; [by left|by right]. }
  intros [] s1 [Hs1 Hp1]. eapply meets_bind; [apply (meets_gets _ _ (λ l t, l = s1.2 ∧ t = s1)); done|]. intros ? ? [-> ->].
  apply meets_caught. eapply (meets_impl _ _ (λ x s', sound s'.2 ∧ P x) _ (λ _ s', sound s'.2)).
  - destruct (lc_owned s1.2) as [o|] eqn:Eo; [|done]. destruct Hs1 as [?|Hs1]; [congruence|]. apply run_owned_spec; [by apply Hs1|done].
  - intros x s2 [Hs2 HP]. eapply meets_bind; [apply (meets_modify _ _ (λ _ t, sound t.2)); exact Hs2|]. intros [] s3 Hs3. by apply meets_ret.
  - intros e s2 Hs2. eapply meets_bind; [apply (meets_modify _ _ (λ _ t, sound t.2)); exact Hs2|]. by intros [] s3 Hs3.
Qed.

Lemma limited_spec {X} pid (op : SessionLimits → st (Running C K) NativeError X) (P : X → Prop) (s : C * LifecycleControl K) :
  sound s.2 → (∀ limits s, faithful T (ru_owned s) → meets (op limits) s (λ x s', faithful T (ru_owned s') ∧ P x) (λ _ s', usable T s')) →
  meets (limited pid op) s (λ x s', sound s'.2 ∧ P x) (λ _ s', sound s'.2).
Proof.
  intros Hs Hop. eapply meets_bind; [apply (meets_gets _ _ (λ l t, l = s.2 ∧ t = s)); done|]. intros ? ? [-> ->].
  apply run_locked_spec; [done|]. intros t Ht. by apply Hop.
Qed.

Lemma close_spec pid (s : C * LifecycleControl K) : sound s.2 → meets (close pid) s (λ _ s', sound s'.2) (λ _ s', sound s'.2).
Proof.
  intros Hs. eapply meets_bind; [apply (meets_gets _ _ (λ l t, l = s.2 ∧ t = s)); done|]. intros ? ? [-> ->].
  destruct (lc_closed s.2); [by apply meets_ret|].
  eapply meets_bind; [apply (meets_reject _ _ _ (λ _ t, t = s)); done|]. intros [] ? ->.
  unfold meets, acquire, release, upd_life, mbind, st_bind, gets, modify, lift. cbn. destruct (lc_busy s.2); [done|]. by right.
Qed.
End lifecycle.
