(* ===== verification/SessionEvents.v ===== *)
(** * The event ring of a session (native/src/session.rs)

    Whatever the tableau does (fail, panic, poison the session), the events that
    wait to be drained carry consecutive sequence numbers up to the last one issued,
    belong to operations that were started, and never exceed the ring's capacity. *)

From S2P Require Import Prelude Order Errors Cancel Contracts Session SessionOps.
Import Session.

(** How a computation ends: [Q] after a success, [Z] after an error or a panic. *)
Definition ends {S E X} (m : st S E X) (s : S) (Q : X → S → Prop) (Z : S → Prop) : Prop :=
  match m s with (Ok x, s') => Q x s' | (_, s') => Z s' end.

Lemma ends_bind {S E X Y} (m : st S E X) (f : X → st S E Y) s Q P Z :
  ends m s Q Z → (∀ x s', Q x s' → ends (f x) s' P Z) → ends (m ≫= f) s P Z.
Proof. unfold ends, mbind, st_bind. destruct (m s) as [[x|e|] s1]; intros Hm Hf; [by apply Hf|done|done]. Qed.

Lemma ends_impl {S E X} (m : st S E X) s (Q Q' : X → S → Prop) (Z Z' : S → Prop) :
  ends m s Q Z → (∀ x s', Q x s' → Q' x s') → (∀ s', Z s' → Z' s') → ends m s Q' Z'.
Proof. unfold ends. destruct (m s) as [[x|e|] s1]; auto. Qed.

(** ** The ring *)

Section ring.
Context {K : Type}.
Implicit Types o : SessionOwned K.

(** The events carry the last numbers that were issued, in order. *)
Definition consecutive o : Prop :=
  ∀ i e, so_events o !! i = Some e → ev_sequence e + N.of_nat (length (so_events o) - i) = so_next_event_sequence o.

Record numbered (capacity : N) o : Prop := {
  numbered_room : N.of_nat (length (so_events o)) ≤ capacity;
  numbered_order : consecutive o;
  numbered_owner e : e ∈ so_events o → 1 ≤ ev_operation_id e < so_next_operation_id o;
  numbered_next : 1 ≤ so_next_operation_id o ∧ 1 ≤ so_next_event_sequence o ≤ u64_max
}.

Definition issued (c : OperationContext) o : Prop := 1 ≤ oc_id c < so_next_operation_id o.

(** The event is appended, the oldest one gives way. *)
Lemma push_event_events capacity e o :
  so_next_event_sequence o < u64_max →
  push_event capacity e o = (Ok tt,
    let full := (N.of_nat (length (so_events o)) =? capacity)%N in
    mkOwned (so_kernel o) (so_permanent_satisfiable o) (so_statistics o)
      ((if full then tail (so_events o) else so_events o) ++ [e <| ev_sequence := so_next_event_sequence o |>])
      (if full then saturating_add u64_max (so_dropped_events o) 1 else so_dropped_events o)
      (so_next_operation_id o) (so_next_event_sequence o + 1)).
Proof.
  intros Hn. unfold push_event, mbind, st_bind, gets, id, lift. cbn.
  assert (checked_add u64_max (so_next_event_sequence o) 1 = Some (so_next_event_sequence o + 1)) as ->.
  { apply checked_add_Some. lia. }
  cbn. destruct o as [k p st es dr ni ns]. cbn. by destruct (_ =? _)%N.
Qed.

Lemma push_event_full capacity e o :
  u64_max ≤ so_next_event_sequence o → push_event capacity e o = (Err (NativeErr.invariant "native event sequence overflow"), o).
Proof.
  intros Hn. unfold push_event, mbind, st_bind, gets, id, lift. cbn. destruct (checked_add _ _ _) eqn:E; [|done].
  apply checked_add_Some in E as [-> ?]. lia.
Qed.

Lemma consecutive_tail o :
  consecutive o → consecutive (o <| so_events ::= tail |>).
Proof.
  intros Hc i e. destruct o as [k p st [|e0 es] dr ni ns]; cbn in *; [done|]. intros Hi. specialize (Hc (S i) e Hi). cbn in Hc. done.
Qed.

Lemma push_event_numbered capacity e o :
  1 ≤ capacity → numbered capacity o → 1 ≤ ev_operation_id e < so_next_operation_id o →
  ends (push_event capacity e) o
    (λ _ o', numbered capacity o' ∧ so_next_operation_id o' = so_next_operation_id o) (λ o', o' = o).
Proof.
  intros Hcap [Hr Hc Ho Hn] He. unfold ends. destruct (decide (so_next_event_sequence o < u64_max)) as [Hlt|Hge].
  2: { rewrite push_event_full by lia. done. }
  rewrite push_event_events by done. cbv zeta. split; [|done].
  set (es := if (N.of_nat (length (so_events o)) =? capacity)%N then tail (so_events o) else so_events o).
  assert (N.of_nat (length es) + 1 ≤ capacity) as Hroom.
  { subst es. destruct (_ =? _)%N eqn:E; [apply N.eqb_eq in E|apply N.eqb_neq in E; lia]. destruct (so_events o); cbn in *; lia. }
  assert (∀ i x, es !! i = Some x → ev_sequence x + N.of_nat (length es - i) = so_next_event_sequence o) as Hes.
  { subst es. destruct (_ =? _)%N; [apply (consecutive_tail o Hc)|apply Hc]. }
  assert (∀ x, x ∈ es → x ∈ so_events o) as Hsub.
  { subst es. destruct (_ =? _)%N; [|done]. intros x Hx. destruct (so_events o); [done|]. by right. }
  split; cbn.
  - rewrite length_app. cbn. lia.
  - intros i x. cbn. rewrite lookup_app_Some, length_app. cbn. intros [Hi|[Hge Hi]].
    + specialize (Hes i x Hi). apply lookup_lt_Some in Hi. lia.
    + destruct (i - length es)%nat eqn:Ei; cbn in Hi; [|done]. injection Hi as <-. cbn. lia.
  - intros x [Hx|Hx]%elem_of_app; [by apply Ho, Hsub|]. apply list_elem_of_singleton in Hx as ->. done.
  - lia.
Qed.

Lemma numbered_statistics capacity f o : numbered capacity o → numbered capacity (o <| so_statistics ::= f |>).
Proof. intros [Hr Hc Ho Hn]. split; [done|exact Hc|exact Ho|done]. Qed.

Lemma event_issued c kind n o : issued c o → 1 ≤ ev_operation_id (event c kind n) < so_next_operation_id o.
Proof. done. Qed.

(** The books in the middle of an operation. *)
Definition working capacity c o : Prop := numbered capacity o ∧ issued c o.

Lemma push_working capacity c e o :
  1 ≤ capacity → ev_operation_id e = oc_id c → working capacity c o →
  ends (push_event capacity e) o (λ _, working capacity c) (working capacity c).
Proof.
  intros Hcap He [Hn Hi]. eapply ends_impl; [apply push_event_numbered; [done|done|by rewrite He]| |].
  - intros _ o' [Hn' E]. split; [done|]. unfold issued. by rewrite E.
  - by intros o' ->.
Qed.

Lemma start_numbered capacity kind total o :
  numbered capacity o → ends (start_operation kind total) o (λ c, working capacity c) (numbered capacity).
Proof.
  intros [Hr Hc Ho Hn]. unfold start_operation, ends, mbind, st_bind, gets, id, lift, modify. cbn.
  destruct (checked_add u64_max (so_next_event_sequence o) _); [|by split]. cbn.
  destruct (checked_add u64_max (so_next_operation_id o) 1) as [next|] eqn:E; [|by split]. apply checked_add_Some in E as [-> _].
  split; [split; cbn|split; cbn; lia]; [done|exact Hc| |lia]. intros e He. specialize (Ho e He). lia.
Qed.

Section operation.
Context (capacity : N) (c : OperationContext) (Hcap : 1 ≤ capacity).

Lemma push_checks_working offset checks o :
  working capacity c o → ends (push_checks capacity c offset checks) o (λ _, working capacity c) (working capacity c).
Proof.
  revert offset o. induction checks as [|check checks IH]; intros offset o Hw; [done|]. cbn [push_checks].
  eapply ends_bind; [by apply push_working|]. intros [] o' Hw'. by apply IH.
Qed.

Lemma complete_working r checks o :
  working capacity c o → ends (complete_operation c r checks capacity) o (λ _, working capacity c) (working capacity c).
Proof.
  intros Hw. unfold complete_operation.
  eapply (ends_bind _ _ _ (λ _, working capacity c)); [unfold ends, lift, reject_if; by destruct (match _ with Some _ => _ | None => _ end)|].
  intros [] o1 H1. eapply ends_bind; [by apply push_working|]. intros [] o2 H2.
  eapply ends_bind; [by apply push_checks_working|]. intros [] o3 H3.
  eapply (ends_bind _ _ _ (λ _, working capacity c)); [destruct (negb _); [by apply push_working|done]|].
  intros [] o4 H4. eapply ends_bind; [by apply push_working|]. intros [] o5 [H5 Hi].
  split; [by apply numbered_statistics|done].
Qed.

Lemma abort_working {X} e o :
  working capacity c o → ends (abort (X:=X) c e capacity) o (λ _, working capacity c) (working capacity c).
Proof.
  intros Hw. unfold abort, abort_operation. eapply (ends_bind _ _ _ (λ _, working capacity c)); [|done].
  eapply ends_bind; [by apply push_working|]. intros [] o2 H2.
  eapply ends_bind; [by apply push_working|]. intros [] o5 [H5 Hi]. split; [by apply numbered_statistics|done].
Qed.
End operation.

(** ** Room for an operation's events *)

Lemma pushed_once capacity e o :
  so_next_event_sequence o < u64_max →
  ∃ o', push_event capacity e o = (Ok tt, o') ∧ so_next_event_sequence o' = so_next_event_sequence o + 1.
Proof. intros Hn. rewrite push_event_events by done. by eexists. Qed.

Lemma pushed_checks capacity c offset checks o :
  so_next_event_sequence o + N.of_nat (length checks) ≤ u64_max →
  ∃ o', push_checks capacity c offset checks o = (Ok tt, o') ∧
    so_next_event_sequence o' = so_next_event_sequence o + N.of_nat (length checks).
Proof.
  revert offset o. induction checks as [|check checks IH]; intros offset o Hn; cbn [push_checks length] in *; [exists o; split; [done|lia]|].
  edestruct (pushed_once capacity) as (o1 & E1 & N1); [|unfold mbind, st_bind; rewrite E1]; [lia|].
  destruct (IH (N.succ offset) o1) as (o2 & E2 & N2); [lia|]. exists o2. split; [exact E2|lia].
Qed.

Lemma complete_fits capacity c r checks o :
  N.of_nat (length checks) + (if (or_resets r =? 0)%N then 0 else 1) ≤ oc_total c →
  so_next_event_sequence o + (oc_total c + 2) ≤ u64_max → (complete_operation c r checks capacity o).1 = Ok tt.
Proof.
  intros Hl Hn. unfold complete_operation, mbind, st_bind, lift, reject_if.
  assert (match u32_try_from (length checks) with Some count => (oc_total c <? count)%N | None => false end = false) as ->.
  { destruct (u32_try_from _) eqn:E; [|done]. apply u32_try_from_Some in E as [-> _]. apply N.ltb_ge. destruct (_ =? _)%N; lia. }
  edestruct (pushed_once capacity) as (o1 & E1 & N1); [|rewrite E1]; [destruct (_ =? _)%N; lia|].
  destruct (pushed_checks capacity c 0 checks o1) as (o2 & E2 & N2); [destruct (_ =? _)%N; lia|]. rewrite E2.
  destruct (or_resets r =? 0)%N eqn:Er; cbn [negb].
  - cbn. edestruct (pushed_once capacity) as (o3 & E3 & _); [|rewrite E3]; [lia|done].
  - edestruct (pushed_once capacity) as (o3 & E3 & N3); [|rewrite E3]; [lia|].
    edestruct (pushed_once capacity) as (o4 & E4 & _); [|rewrite E4]; [lia|done].
Qed.
End ring.

(** ** Operations *)

Section operations.
Context {C K Q CP : Type} `{OperationControl C} `{NativeTableau C K Q CP}.

(** A property of the books that does not look at the kernel. *)
Definition bookish (J : SessionOwned K → Prop) : Prop := ∀ o k, J o → J (o <| so_kernel := k |>).

Definition minds {X} (J : SessionOwned K → Prop) (m : st (Running C K) NativeError X) : Prop :=
  ∀ s, J (ru_owned s) → J (ru_owned (m s).2).

Section minds.
Context (J : SessionOwned K → Prop) (HJ : bookish J).

Lemma minds_bind {X Y} (m : st (Running C K) NativeError X) (f : X → st (Running C K) NativeError Y) :
  minds J m → (∀ x, minds J (f x)) → minds J (m ≫= f).
Proof.
  intros Hm Hf s Hs. specialize (Hm s Hs). unfold mbind, st_bind. destruct (m s) as [[x|e|] s1]; [by apply Hf|done|done].
Qed.

Lemma minds_ret {X} (x : X) : minds J (mret x).
Proof. by intros s. Qed.

Lemma minds_lift {X} (r : NativeResult X) : minds J (lift r).
Proof. by intros s. Qed.

Lemma minds_gets {X} (f : Running C K → X) : minds J (gets f).
Proof. by intros s. Qed.

Lemma minds_caught {X} (m : st (Running C K) NativeError X) : minds J m → minds J (caught m).
Proof. intros Hm s Hs. specialize (Hm s Hs). unfold caught. by destruct (m s) as [[]]. Qed.

Lemma minds_controlling {X} (m : st C NativeError X) : minds J (controlling m).
Proof. intros s Hs. unfold controlling. by destruct (m _). Qed.

Lemma minds_driving {X} (m : st (C * K) NativeError X) : minds J (driving m).
Proof. intros s Hs. unfold driving. destruct (m _) as [? []]. by apply HJ. Qed.

Lemma minds_on_kernel {X} (m : st K NativeError X) : minds J (on_kernel m).
Proof. intros s Hs. unfold on_kernel. destruct (m _). by apply HJ. Qed.

Lemma minds_poison : minds J poison.
Proof. by intros s. Qed.
End minds.

Create HintDb books.
#[local] Hint Resolve minds_ret minds_lift minds_gets minds_caught minds_controlling minds_driving minds_on_kernel minds_poison : books.

Ltac minds_steps :=
  repeat first
    [ apply minds_bind; [|intros ?]
    | progress eauto with books
    | apply minds_caught
    | match goal with |- minds _ (match ?x with _ => _ end) => destruct x end
    | match goal with |- minds _ (if ?x then _ else _) => destruct x end ].

Section transactions.
Context (J : SessionOwned K → Prop) (HJ : bookish J).

Lemma minds_poison_on e : minds J (poison_on_invariant e).
Proof. unfold poison_on_invariant. minds_steps. Qed.
#[local] Hint Resolve minds_poison_on : books.

Lemma minds_inspected {X} (m : st (Running C K) NativeError X) : minds J m → minds J (inspected m).
Proof. intros Hm. unfold inspected. minds_steps. Qed.
#[local] Hint Resolve minds_inspected : books.

Lemma minds_recover {X} cp e : minds J (recover (X:=X) cp e).
Proof. unfold recover, fatal, audit. minds_steps. Qed.
#[local] Hint Resolve minds_recover : books.

Lemma minds_transaction query d limits : minds J (run_transaction query d limits).
Proof.
  unfold run_transaction, controlled_poll, controlled_observe. unfold recovering, finish, fatal, audit. minds_steps.
Qed.
#[local] Hint Resolve minds_transaction : books.

Lemma minds_batch_loop limits queries rs checks sch hits : minds J (batch_loop limits queries rs checks sch hits).
Proof.
  revert rs checks sch hits. induction queries as [|q qs IH]; intros; cbn [batch_loop]; [apply minds_ret|].
  unfold controlled_poll. minds_steps.
Qed.
#[local] Hint Resolve minds_batch_loop : books.

Lemma minds_batch sr sc limits queries : minds J (run_batch sr sc limits queries).
Proof. unfold run_batch, controlled_poll, controlled_observe. minds_steps. Qed.
End transactions.

Lemma working_bookish capacity c : bookish (working capacity c).
Proof. intros o k [[Hr Hc Ho Hn] Hi]. split; [split; [done|exact Hc|exact Ho|done]|done]. Qed.

Lemma numbered_bookish capacity : bookish (numbered capacity).
Proof. intros o k [Hr Hc Ho Hn]. split; [done|exact Hc|exact Ho|done]. Qed.

(** An operation on the books under the session's state. *)
Lemma owning_ends {X} (m : st (SessionOwned K) NativeError X) (s : Running C K) (P : X → SessionOwned K → Prop) (Z : SessionOwned K → Prop) :
  ends m (ru_owned s) P Z → ends (owning m) s (λ x s', P x (ru_owned s')) (λ s', Z (ru_owned s')).
Proof. unfold ends, owning. by destruct (m _) as [[]]. Qed.

Section numbered.
Context (limits : SessionLimits) (Hcap : 1 ≤ sl_max_event_queue limits).
Abbreviation cap := (sl_max_event_queue limits).

Definition numbers {X} (m : st (Running C K) NativeError X) : Prop :=
  ∀ s, numbered cap (ru_owned s) → ends m s (λ _ s', numbered cap (ru_owned s')) (λ s', numbered cap (ru_owned s')).

Lemma settle_numbers {X} c attempt record checks (s : Running C K) :
  minds (working cap c) attempt → working cap c (ru_owned s) →
  ends (settle (X:=X) c limits attempt record checks) s (λ _ s', numbered cap (ru_owned s')) (λ s', numbered cap (ru_owned s')).
Proof.
  intros Ha Hw. unfold settle. eapply (ends_bind _ _ _ (λ _ s', working cap c (ru_owned s'))).
  { specialize (Ha s Hw). unfold ends, caught. destruct (attempt s) as [[x|e|] s1]; [done|done|apply Ha]. }
  intros [x|e] s1 H1.
  - eapply ends_bind; [eapply ends_impl; [by apply owning_ends, complete_working|exact (λ _ _ H, H)|by intros ? []]|].
    intros [] s2 [H2 _]. exact H2.
  - eapply ends_impl; [by apply owning_ends, abort_working|by intros ?? []|by intros ? []].
Qed.

Lemma start_numbers {X} kind total (f : OperationContext → st (Running C K) NativeError X) :
  (∀ c s, working cap c (ru_owned s) → ends (f c) s (λ _ s', numbered cap (ru_owned s')) (λ s', numbered cap (ru_owned s'))) →
  numbers (c ← owning (start_operation kind total); f c).
Proof.
  intros Hf s Hs. eapply ends_bind; [by apply owning_ends, start_numbered|]. intros c s1 H1. by apply Hf.
Qed.

Lemma check_permanent_numbers : numbers (check_permanent_op limits).
Proof.
  apply start_numbers. intros c s Hw. eapply (ends_bind _ _ _ (λ x t, t = s)); [done|]. intros x ? ->.
  eapply ends_bind; [apply settle_numbers; [|done]|].
  - destruct (so_permanent_satisfiable _); [|apply minds_transaction, working_bookish].
    apply minds_bind; [apply minds_inspected, minds_controlling|intros _; apply minds_ret].
  - intros r s2 H2. eapply (ends_bind _ _ _ (λ _ s', numbered cap (ru_owned s'))); [|done].
    destruct (cr_cache_hit r); [exact H2|]. destruct H2 as [Hr Hc Ho Hn]. split; [done|exact Hc|exact Ho|done].
Qed.

Lemma check_query_numbers query : numbers (check_query_op limits query).
Proof.
  apply start_numbers. intros c s Hw. eapply (ends_bind _ _ _ (λ x t, t = s)); [done|]. intros x ? ->. apply settle_numbers; [|done].
  case_bool_decide; [|apply minds_transaction, working_bookish].
  apply minds_bind; [apply minds_inspected, minds_controlling|intros _; apply minds_ret].
Qed.

Lemma check_many_numbers sr sc queries : numbers (check_many_op sr sc limits queries).
Proof.
  apply start_numbers. intros c s Hw. eapply ends_bind; [apply settle_numbers; [apply minds_batch, working_bookish|done]|]. done.
Qed.

Lemma reset_numbers : numbers (reset_query_state_op limits).
Proof.
  apply start_numbers. intros c s Hw. eapply (ends_bind _ _ _ (λ _ s', working cap c (ru_owned s'))).
  { assert (minds (working cap c) (_ ← on_kernel reset_to_permanent; audit)) as Hm.
    { apply minds_bind; [apply minds_on_kernel, working_bookish|intros _; apply minds_on_kernel, working_bookish]. }
    specialize (Hm s Hw). revert Hm. unfold ends, caught. set (m := mbind _ _). destruct (m s) as [[x|e|] s1]; [done|done|by intros []]. }
  intros [x|e] s1 H1.
  - eapply ends_impl; [by apply owning_ends, complete_working|by intros ?? []|by intros ? []].
  - eapply (ends_bind _ _ _ (λ _ s', working cap c (ru_owned s'))); [exact H1|]. intros [] s2 H2.
    eapply ends_impl; [by apply owning_ends, abort_working|by intros ?? []|by intros ? []].
Qed.

Lemma drain_numbers : numbers drain_events_op.
Proof.
  intros s [Hr Hc Ho Hn]. split; cbn; [lia|by intros i e|by intros e ?%elem_of_nil|done].
Qed.

Lemma run_locked_numbers {X} pid (op : st (Running C K) NativeError X) c l :
  numbers op → (∀ o, lc_owned l = Some o → numbered cap o) →
  ∀ o, lc_owned (run_locked pid op (c, l)).2.2 = Some o → numbered cap o.
Proof.
  intros Hop Hl. unfold run_locked, preflight, acquire, mbind, st_bind, gets, lift, reject_if. cbn.
  destruct (lc_closed l); [exact Hl|]. destruct (pid =? lc_owner_process_id l)%N; [cbn|exact Hl].
  destruct (lc_poisoned l) eqn:Ep; [exact Hl|]. cbn. destruct (lc_busy l); [exact Hl|]. cbn.
  destruct (lc_owned l) as [o1|] eqn:Eo; cbn; [|by rewrite Eo].
  unfold caught, run_owned. specialize (Hop (mkRunning c (lc_poisoned (l <| lc_busy := true |>)) o1) (Hl o1 eq_refl)).
  unfold ends in Hop. destruct (op _) as [[x|e|] s1]; cbn; by intros o [= <-].
Qed.
End numbered.
End operations.

(** * Threads that share a session (native/src/session.rs)

    [SessionScheduler] is cloned between threads.  [preflight], [run_locked] and
    [close] as sequences of atomic accesses to the shared flags and the mutex,
    interleaved between any number of threads. *)

Import Session.

Section threads.
Context {C K : Type}.

(** The shared record and whether its mutex is held. *)
Record Shared := mkShared { sh_life : LifecycleControl K; sh_locked : bool }.

#[local] Instance Shared_eta : Eta Shared := λ s, mkShared (sh_life s) (sh_locked s).

(** A closure for [run_locked] with its control. *)
Record Job := mkJob { job_control : C; job_body : st (Running C K) NativeError unit }.

(** Where a thread is: before the access it names. *)
Inductive Thread :=
| Returned (r : NativeResult unit)
| RunLoadClosed (j : Job)
| RunProcessId (j : Job)
| RunLoadPoisoned (j : Job)
| RunAcquire (j : Job)
| RunLock (j : Job)
| RunBody (j : Job)
| RunUnlock (r : NativeResult unit)
| RunStorePoisoned
| RunRelease (r : NativeResult unit)
| CloseLoadClosed
| CloseProcessId
| CloseAcquire
| CloseLock
| CloseTake
| CloseStoreClosed
| CloseUnlock
| CloseRelease.

Definition upd_shared (f : LifecycleControl K → LifecycleControl K) (s : Shared) : Shared := s <| sh_life ::= f |>.

(** One access of a thread in process [pid]; [None] when it has to wait. *)
Definition advance (pid : N) (t : Thread) (s : Shared) : option (Thread * Shared) :=
  let l := sh_life s in
  match t with
  | Returned _ => None
  | RunLoadClosed j => Some (if lc_closed l then Returned (Err disposed_error) else RunProcessId j, s)
  | RunProcessId j =>
      Some (if (pid =? lc_owner_process_id l)%N then RunLoadPoisoned j else Returned (Err fork_error), s)
  | RunLoadPoisoned j =>
      Some (if lc_poisoned l then Returned (Err (poisoned_error "NATIVE_SESSION_POISONED"
              "native session is poisoned and only close is permitted")) else RunAcquire j, s)
  | RunAcquire j =>
      if lc_busy l then Some (Returned (Err (busy_error "native session already has an active operation")), s)
      else Some (RunLock j, upd_shared (λ l, l <| lc_busy := true |>) s)
  | RunLock j => if sh_locked s then None else Some (RunBody j, s <| sh_locked := true |>)
  | RunBody j =>
      match lc_owned l with
      | None => Some (RunUnlock (Err disposed_error), s)
      | Some o =>
          let '(r, s') := job_body j (mkRunning (job_control j) (lc_poisoned l) o) in
          Some (RunUnlock r, upd_shared (λ l, l <| lc_owned := Some (ru_owned s') |> <| lc_poisoned := ru_poisoned s' |>) s)
      end
  | RunUnlock r =>
      Some (match r with Crash => RunStorePoisoned | r => RunRelease r end, s <| sh_locked := false |>)
  | RunStorePoisoned =>
      Some (RunRelease (Err (panic_error "native session operation panic was contained")),
        upd_shared (λ l, l <| lc_poisoned := true |>) s)
  | RunRelease r => Some (Returned r, upd_shared (λ l, l <| lc_busy := false |>) s)
  | CloseLoadClosed => Some (if lc_closed l then Returned (Ok tt) else CloseProcessId, s)
  | CloseProcessId => Some (if (pid =? lc_owner_process_id l)%N then CloseAcquire else Returned (Err fork_error), s)
  | CloseAcquire =>
      if lc_busy l then Some (Returned (Err (busy_error "cannot close a native session while an operation is active")), s)
      else Some (CloseLock, upd_shared (λ l, l <| lc_busy := true |>) s)
  | CloseLock => if sh_locked s then None else Some (CloseTake, s <| sh_locked := true |>)
  | CloseTake => Some (CloseStoreClosed, upd_shared (λ l, l <| lc_owned := None |>) s)
  | CloseStoreClosed => Some (CloseUnlock, upd_shared (λ l, l <| lc_closed := true |>) s)
  | CloseUnlock => Some (CloseRelease, s <| sh_locked := false |>)
  | CloseRelease => Some (Returned (Ok tt), upd_shared (λ l, l <| lc_busy := false |>) s)
  end.

(** Threads interleave; a thread that returned may call again. *)
Inductive step (pid : N) : Shared * list Thread → Shared * list Thread → Prop :=
| step_advance i t t' s s' ts :
    ts !! i = Some t → advance pid t s = Some (t', s') → step pid (s, ts) (s', <[i := t']> ts)
| step_call i r j s ts : ts !! i = Some (Returned r) → step pid (s, ts) (s, <[i := RunLoadClosed j]> ts)
| step_close i r s ts : ts !! i = Some (Returned r) → step pid (s, ts) (s, <[i := CloseLoadClosed]> ts).

(** A session nobody uses yet. *)
Definition fresh (c : Shared * list Thread) : Prop :=
  lc_busy (sh_life c.1) = false ∧ sh_locked c.1 = false ∧ (lc_closed (sh_life c.1) = true → lc_owned (sh_life c.1) = None) ∧
  Forall (λ t, ∃ r, t = Returned r) c.2.

(** Between the exchange on the busy flag and its release. *)
Definition holds (t : Thread) : bool :=
  match t with
  | RunLock _ | RunBody _ | RunUnlock _ | RunStorePoisoned | RunRelease _
  | CloseLock | CloseTake | CloseStoreClosed | CloseUnlock | CloseRelease => true
  | _ => false
  end.

(** Between locking and unlocking the mutex. *)
Definition locks (t : Thread) : bool :=
  match t with RunBody _ | RunUnlock _ | CloseTake | CloseStoreClosed | CloseUnlock => true | _ => false end.

(** ** Mutual exclusion *)

Record exclusive (c : Shared * list Thread) : Prop := {
  exclusive_one i j t u : c.2 !! i = Some t → c.2 !! j = Some u → holds t = true → holds u = true → i = j;
  exclusive_busy i t : c.2 !! i = Some t → holds t = true → lc_busy (sh_life c.1) = true;
  exclusive_locked i t : c.2 !! i = Some t → locks t = true → sh_locked c.1 = true;
  exclusive_unlocked : sh_locked c.1 = true → ∃ i t, c.2 !! i = Some t ∧ locks t = true;
  exclusive_free : lc_busy (sh_life c.1) = true → ∃ i t, c.2 !! i = Some t ∧ holds t = true;
  exclusive_closed : lc_closed (sh_life c.1) = true → lc_owned (sh_life c.1) = None;
  exclusive_taken i : c.2 !! i = Some CloseStoreClosed → lc_owned (sh_life c.1) = None
}.

Lemma locks_holds t : locks t = true → holds t = true.
Proof. by destruct t. Qed.

Lemma fresh_exclusive c : fresh c → exclusive c.
Proof.
  intros (Hb & Hl & Hc & Ht). rewrite Forall_lookup in Ht.
  split; try congruence; try (intros i t Hi; destruct (Ht i t Hi) as [r ->]; done); [|done|].
  - intros i j t u Hi _. destruct (Ht i t Hi) as [r ->]. done.
  - intros i Hi. by destruct (Ht i _ Hi) as [r ?].
Qed.

(** What one access does to the flags. *)
Definition busy_of (s : Shared) : bool := lc_busy (sh_life s).
Definition owned_of (s : Shared) : option (SessionOwned K) := lc_owned (sh_life s).
Definition closed_of (s : Shared) : bool := lc_closed (sh_life s).

Ltac each_access t := destruct t; cbn; intros; repeat case_match; simplify_eq; cbn in *.

Lemma advance_busy pid t s t' s' :
  advance pid t s = Some (t', s') →
  holds t = holds t' ∧ busy_of s' = busy_of s
  ∨ holds t = false ∧ holds t' = true ∧ busy_of s = false ∧ busy_of s' = true
  ∨ holds t = true ∧ holds t' = false ∧ busy_of s' = false.
Proof. unfold busy_of. each_access t; naive_solver. Qed.

Lemma advance_locks pid t s t' s' :
  advance pid t s = Some (t', s') →
  locks t = locks t' ∧ sh_locked s' = sh_locked s
  ∨ locks t = false ∧ locks t' = true ∧ holds t = true ∧ sh_locked s' = true
  ∨ locks t = true ∧ locks t' = false ∧ sh_locked s' = false.
Proof. each_access t; naive_solver. Qed.

(** What is owned changes in the hands of the holder only, and never from nothing. *)
Lemma advance_owned pid t s t' s' :
  advance pid t s = Some (t', s') →
  (holds t = true ∨ owned_of s' = owned_of s) ∧ (owned_of s = None → owned_of s' = None) ∧ (t' = CloseStoreClosed → owned_of s' = None) ∧
  (closed_of s' = closed_of s ∨ t = CloseStoreClosed ∧ owned_of s' = owned_of s).
Proof. unfold owned_of, closed_of. each_access t; naive_solver. Qed.

Section advancing.
Context (pid : N) (i : nat) (t t' : Thread) (s s' : Shared) (ts : list Thread).
Context (Hi : ts !! i = Some t) (Ha : advance pid t s = Some (t', s')) (Hx : exclusive (s, ts)).

Lemma moved j u : <[i := t']> ts !! j = Some u → j = i ∧ u = t' ∨ j ≠ i ∧ ts !! j = Some u.
Proof. rewrite list_lookup_insert_Some. naive_solver. Qed.

Lemma moved_self : <[i := t']> ts !! i = Some t'.
Proof. apply list_lookup_insert_eq. by eapply lookup_lt_Some. Qed.

Lemma moved_other j u : j ≠ i → ts !! j = Some u → <[i := t']> ts !! j = Some u.
Proof. intros. by rewrite list_lookup_insert_ne. Qed.

(** The holder before and after. *)
Lemma advance_holder j u : j ≠ i → ts !! j = Some u → holds u = true → holds t = false ∧ holds t' = false.
Proof.
  intros Hj Hu Hh. assert (holds t = false) as Ht.
  { destruct (holds t) eqn:E; [|done]. destruct Hj. exact (exclusive_one _ Hx j i u t Hu Hi Hh E). }
  split; [done|]. destruct (advance_busy _ _ _ _ _ Ha) as [[E _]|[(_ & _ & Eb & _)|(E & _)]]; [by rewrite <-E| |congruence].
  pose proof (exclusive_busy _ Hx j u Hu Hh) as Hb. cbn in Hb. unfold busy_of in Eb. congruence.
Qed.

Lemma advance_exclusive : exclusive (s', <[i := t']> ts).
Proof.
  pose proof (advance_busy _ _ _ _ _ Ha) as Hb. pose proof (advance_locks _ _ _ _ _ Ha) as Hl.
  destruct (advance_owned _ _ _ _ _ Ha) as (Ho & Hn & Hs & Hc). unfold busy_of, owned_of, closed_of in *.
  split; cbn.
  - intros j1 j2 u1 u2 H1 H2 Hh1 Hh2. apply moved in H1 as [[-> ->]|[Hj1 H1]]; apply moved in H2 as [[-> ->]|[Hj2 H2]]; [done|..].
    + destruct (advance_holder j2 u2 Hj2 H2 Hh2) as [_ E]. congruence.
    + destruct (advance_holder j1 u1 Hj1 H1 Hh1) as [_ E]. congruence.
    + by eapply (exclusive_one _ Hx).
  - intros j u Hj Hh. apply moved in Hj as [[-> ->]|[Hne Hj]].
    + destruct Hb as [[E ->]|[(_ & _ & _ & E)|(_ & E & _)]]; [|done|congruence]. eapply (exclusive_busy _ Hx); [exact Hi|congruence].
    + destruct (advance_holder j u) as [E1 E2]; [done|done|done|]. pose proof (exclusive_busy _ Hx j u Hj Hh) as E. cbn in E.
      destruct Hb as [[_ ->]|[(_ & ? & _)|(? & _)]]; congruence.
  - intros j u Hj Hk. apply moved in Hj as [[-> ->]|[Hne Hj]].
    + destruct Hl as [[E ->]|[(_ & _ & _ & E)|(_ & E & _)]]; [|done|congruence]. eapply (exclusive_locked _ Hx); [exact Hi|congruence].
    + destruct (advance_holder j u) as [E1 E2]; [done|done|by apply locks_holds|].
      pose proof (exclusive_locked _ Hx j u Hj Hk) as E. cbn in E. destruct Hl as [[_ ->]|[(_ & _ & ? & _)|(El & _)]]; [done|congruence|].
      apply locks_holds in El. congruence.
  - intros E. destruct Hl as [[El Es]|[(_ & El & _)|(_ & _ & ?)]]; [|by exists i, t'; split; [apply moved_self|]|congruence].
    rewrite Es in E. destruct (exclusive_unlocked _ Hx E) as (j & u & Hj & Hk). cbn in Hj. destruct (decide (j = i)) as [->|Hne].
    + exists i, t'. split; [apply moved_self|]. simplify_eq. congruence.
    + exists j, u. split; [by apply moved_other|done].
  - intros E. destruct Hb as [[El Es]|[(_ & El & _)|(_ & _ & ?)]]; [|by exists i, t'; split; [apply moved_self|]|congruence].
    rewrite Es in E. destruct (exclusive_free _ Hx E) as (j & u & Hj & Hk). cbn in Hj. destruct (decide (j = i)) as [->|Hne].
    + exists i, t'. split; [apply moved_self|]. simplify_eq. congruence.
    + exists j, u. split; [by apply moved_other|done].
  - intros E. destruct Hc as [Ec|[-> Eo]]; [|rewrite Eo; by apply (exclusive_taken _ Hx i)].
    rewrite Ec in E. by apply Hn, (exclusive_closed _ Hx).
  - intros j Hj. apply moved in Hj as [[-> E]|[Hne Hj]]; [by apply Hs|].
    destruct (advance_holder j CloseStoreClosed) as [E1 _]; [done|done|done|]. destruct Ho as [?|Eo]; [congruence|].
    rewrite Eo. by apply (exclusive_taken _ Hx j).
Qed.
End advancing.

(** A thread that returned and calls again holds nothing. *)
Lemma recall_exclusive i r t s ts :
  ts !! i = Some (Returned r) → holds t = false → locks t = false → t ≠ CloseStoreClosed →
  exclusive (s, ts) → exclusive (s, <[i := t]> ts).
Proof.
  intros Hi Hh Hl Ht Hx. assert (∀ j u, <[i := t]> ts !! j = Some u → j = i ∧ u = t ∨ ts !! j = Some u) as Hm.
  { intros j u. rewrite list_lookup_insert_Some. naive_solver. }
  assert (∀ j u, ts !! j = Some u → u ≠ Returned r → <[i := t]> ts !! j = Some u) as Hk.
  { intros j u Hj Hu. rewrite list_lookup_insert_ne; [done|]. intros ->. congruence. }
  split; cbn.
  - intros j1 j2 u1 u2 [[-> ->]|H1]%Hm [[-> ->]|H2]%Hm ??; [done|congruence|congruence|]. by eapply (exclusive_one _ Hx).
  - intros j u [[-> ->]|Hj]%Hm ?; [congruence|]. by eapply (exclusive_busy _ Hx).
  - intros j u [[-> ->]|Hj]%Hm ?; [congruence|]. by eapply (exclusive_locked _ Hx).
  - intros E. destruct (exclusive_unlocked _ Hx E) as (j & u & Hj & Hu). exists j, u. split; [|done]. apply Hk; [done|by intros ->].
  - intros E. destruct (exclusive_free _ Hx E) as (j & u & Hj & Hu). exists j, u. split; [|done]. apply Hk; [done|by intros ->].
  - exact (exclusive_closed _ Hx).
  - intros j [[-> ?]|Hj]%Hm; [congruence|]. by apply (exclusive_taken _ Hx j).
Qed.

Lemma steps_exclusive pid c c' : exclusive c → rtc (step pid) c c' → exclusive c'.
Proof.
  intros Hx. induction 1 as [|c c1 c' Hstep _ IH]; [done|]. apply IH. clear IH. destruct Hstep.
  - by eapply advance_exclusive.
  - by eapply recall_exclusive.
  - by eapply recall_exclusive.
Qed.
End threads.
