(* ===== verification/SessionTheorems.v ===== *)
(** * Theorems about sessions

    The driver, the transactions and the lifecycle of a session, over every tableau
    that keeps the contract of the trait; a small tableau shows that the contract
    can be kept. *)

From S2P Require Import Prelude Order Errors Cancel Contracts Session SessionOps SessionSpec SessionRun SessionEvents.
Import Session.

(** ** Calls *)

Section calls.
Context {C K Q CP : Type} `{OperationControl C} `{NativeTableau C K Q CP} (result_size completed_size : N).

Inductive SessionCall :=
| CallPermanent | CallQuery (query : SessionQuery Q) | CallMany (queries : list (SessionQuery Q))
| CallReset | CallSnapshot | CallDrain | CallClose.

(** The answer of a call: the satisfiability results, if it is a check. *)
Definition call (pid : N) (request : SessionCall) : st (C * LifecycleControl K) NativeError (list SessionCheckResult) :=
  match request with
  | CallPermanent => r ← check_permanent pid; mret [r]
  | CallQuery q => r ← check_query pid q; mret [r]
  | CallMany qs => check_many result_size completed_size pid qs
  | CallReset => _ ← reset_query_state pid; mret []
  | CallSnapshot => _ ← snapshot pid; mret []
  | CallDrain => _ ← drain_events pid; mret []
  | CallClose => _ ← close pid; mret []
  end.

(** The queries that a call answers, in order. *)
Definition asked (request : SessionCall) : list (option (SessionQuery Q)) :=
  match request with
  | CallPermanent => [None]
  | CallQuery q => [Some q]
  | CallMany qs => Some <$> qs
  | _ => []
  end.

(** The sessions opened on a tableau, after any calls. *)
Inductive opened (k : K) : LifecycleControl K → Prop :=
| opened_new limits pid l : with_owner_process_id k limits pid = Ok l → opened k l
| opened_call pid request c l : opened k l → opened k (call pid request (c, l)).2.2.
End calls.
Arguments SessionCall : clear implicits.

(** ** The scheduler *)

Section driver.
Context {C K Q CP : Type} `{OperationControl C} `{TableauLaws C K Q CP} `{!CalmControl C}.

(** C10: the driver decides.  In the middle of an operation it comes back after at
    most the allowed number of steps: with the answer whether the search space holds
    a model, computed and not from a cache, or with an error; the operation can
    always be rolled back afterwards. *)
Theorem drive_decides cp (k : K) max (s : C * K) :
  running cp k s.2 →
  match Scheduler.drive_tableau max s with
  | (Ok r, s') => running cp k s'.2 ∧ (cr_satisfiable r = true ↔ model s.2) ∧ cr_cache_hit r = false ∧
      1 ≤ ss_scheduler_steps (cr_statistics r) ≤ max
  | (Err _, s') => running cp k s'.2
  | (Crash, _) => False
  end.
Proof.
  intros Hr. pose proof (drive_spec cp k (model s.2) max s Hr (iff_refl _)) as Hd. unfold meets in Hd.
  destruct (Scheduler.drive_tableau max s) as [[r|e|] s']; [|done|done].
  destruct Hd as (? & n & ? & Hsat & ? & ->). done.
Qed.

(** C33: a transaction on a root leaves the session's books alone.  A success answers
    for the query and leaves a root of the same meaning; an error does so too, or
    poisons the session. *)
Theorem transaction_isolated query d limits (s : Running C K) :
  root_ok (so_kernel (ru_owned s)) →
  let means k := root_ok k ∧ ∀ q, sem q k ↔ sem q (so_kernel (ru_owned s)) in
  let isolated s' := ru_owned s' = ru_owned s <| so_kernel := so_kernel (ru_owned s') |> in
  match run_transaction query d limits s with
  | (Ok r, s') => isolated s' ∧ means (so_kernel (ru_owned s')) ∧ (cr_satisfiable r = true ↔ sem query (so_kernel (ru_owned s)))
  | (Err _, s') => isolated s' ∧ (ru_poisoned s' = true ∨ means (so_kernel (ru_owned s')))
  | (Crash, _) => False
  end.
Proof.
  intros Hr means isolated. pose proof (transaction_spec (λ q, sem q (so_kernel (ru_owned s))) query d limits s) as Ht.
  unfold meets in Ht. destruct (run_transaction query d limits s) as [[r|e|] s'].
  - destruct Ht as (? & ? & _ & ?); [by split|]. done.
  - apply Ht. by split.
  - apply Ht. by split.
Qed.

(** ** Sessions *)

Context (result_size completed_size : N).
Abbreviation ask := (call result_size completed_size).
Abbreviation reached := (opened result_size completed_size).

Lemma sound_call T pid request (s : C * LifecycleControl K) :
  sound T s.2 → meets (ask pid request) s (λ rs s', sound T s'.2 ∧ Forall2 (right_answer T) (asked request) rs) (λ _ s', sound T s'.2).
Proof.
  intros Hs. destruct request as [|q|qs| | | |]; cbn [call asked].
  - eapply meets_bind; [apply limited_spec; [done|apply check_permanent_spec]|].
    intros r s' [Hs' Hr]. apply meets_ret. split; [done|]. constructor; [done|constructor].
  - eapply meets_bind; [apply limited_spec; [done|intros; by apply check_query_spec]|].
    intros r s' [Hs' Hr]. apply meets_ret. split; [done|]. constructor; [done|constructor].
  - apply limited_spec; [done|]. intros limits t Ht. by apply check_many_spec.
  - eapply (meets_bind _ _ _ (λ _ s', sound T s'.2)); [|intros [] s' Hs'; by apply meets_ret].
    eapply meets_impl; [apply (limited_spec T _ _ (λ _, True)); [done|]|by intros ?? []|done].
    intros limits t Ht. eapply meets_impl; [by apply reset_spec|done|done].
  - eapply (meets_bind _ _ _ (λ _ s', sound T s'.2)); [|intros x s' Hs'; by apply meets_ret]. unfold snapshot.
    eapply meets_bind; [apply (meets_gets _ _ (λ l t, t = s)); done|]. intros ? ? ->.
    eapply meets_impl; [apply (run_locked_spec T _ _ (λ _, True)); [done|]|by intros ?? []|done]. done.
  - eapply (meets_bind _ _ _ (λ _ s', sound T s'.2)); [|intros x s' Hs'; by apply meets_ret].
    eapply meets_impl; [apply (run_locked_spec T _ _ (λ _, True)); [done|]|by intros ?? []|done].
    intros t Ht. split; [|done]. exact Ht.
  - eapply (meets_bind _ _ _ (λ _ s', sound T s'.2)); [by apply close_spec|]. intros [] s' Hs'. by apply meets_ret.
Qed.

Lemma opened_sound (k : K) l : root_ok k → reached k l → sound (λ q, sem q k) l.
Proof.
  intros Hk. induction 1 as [limits pid l Hl|pid request c l _ IH].
  - unfold with_owner_process_id in Hl. apply outcome_bind_Ok in Hl as ([] & _ & Hl). apply outcome_bind_Ok in Hl as (lim & _ & Hl).
    injection Hl as <-. right. intros o [= <-]. split; [by split|done].
  - pose proof (sound_call (λ q, sem q k) pid request (c, l) IH) as Hc. unfold meets in Hc.
    destruct (ask pid request (c, l)) as [[rs|e|] s']; [apply Hc|apply Hc|done].
Qed.

(** C11: a session answers right.  After any calls, with whatever errors and
    interrupts, a check that succeeds answers each of its queries as the ontology of
    the tableau the session was opened on demands; no call panics. *)
Theorem session_answers_right (k : K) l pid request (c : C) :
  root_ok k → reached k l →
  match ask pid request (c, l) with
  | (Ok rs, _) => Forall2 (λ q r, cr_satisfiable r = true ↔ sem q k) (asked request) rs
  | (Err _, _) => True
  | (Crash, _) => False
  end.
Proof.
  intros Hk Hl. pose proof (sound_call _ pid request (c, l) (opened_sound k l Hk Hl)) as Hc. unfold meets in Hc.
  destruct (ask pid request (c, l)) as [[rs|e|] s']; [apply Hc|done|done].
Qed.
End driver.

Section events.
Context {C K Q CP : Type} `{OperationControl C} `{NativeTableau C K Q CP} (result_size completed_size : N).

Lemma limited_numbers {X} pid (op : SessionLimits → st (Running C K) NativeError X) c l :
  (∀ limits, 1 ≤ sl_max_event_queue limits → numbers limits (op limits)) → 1 ≤ sl_max_event_queue (lc_limits l) →
  (∀ o, lc_owned l = Some o → numbered (sl_max_event_queue (lc_limits l)) o) →
  ∀ o, lc_owned (limited pid op (c, l)).2.2 = Some o → numbered (sl_max_event_queue (lc_limits l)) o.
Proof. intros Hop Hcap Hl. unfold limited, mbind, st_bind, gets. cbn. apply run_locked_numbers; [by apply Hop|done]. Qed.

Lemma run_locked_limits {X} pid (op : st (Running C K) NativeError X) c l : lc_limits (run_locked pid op (c, l)).2.2 = lc_limits l.
Proof.
  unfold run_locked, preflight, acquire, mbind, st_bind, gets, lift, reject_if. cbn.
  destruct (lc_closed l); [done|]. destruct (negb _); [done|]. destruct (lc_poisoned l); [done|]. cbn. destruct (lc_busy l); [done|]. cbn.
  destruct (lc_owned l); cbn; [|done]. unfold caught, run_owned. by destruct (op _) as [[]].
Qed.

(** Calls wrapped for [call] end in the state of the operation. *)
Lemma wrapped_state {S E X Y} (m : st S E X) (f : X → Y) s : (x ← m; mret (f x) : st S E Y) s = (x ← (m s).1; Ok (f x), (m s).2).
Proof. unfold mbind, st_bind, mret, st_ret. cbn. by destruct (m s) as [[]]. Qed.

Lemma call_numbered pid request (c : C) (l : LifecycleControl K) :
  2 ≤ sl_max_event_queue (lc_limits l) → (∀ o, lc_owned l = Some o → numbered (sl_max_event_queue (lc_limits l)) o) →
  let l' := (call result_size completed_size pid request (c, l)).2.2 in
  lc_limits l' = lc_limits l ∧ ∀ o, lc_owned l' = Some o → numbered (sl_max_event_queue (lc_limits l)) o.
Proof.
  intros Hcap Hl. destruct request as [|q|qs| | | |]; cbn [call]; cbv zeta; rewrite ?wrapped_state; cbn [snd].
  - split; [apply run_locked_limits|]. apply limited_numbers; [apply check_permanent_numbers|lia|done].
  - split; [apply run_locked_limits|]. apply (limited_numbers _ (λ lim, check_query_op lim q)); [intros; by apply check_query_numbers|lia|done].
  - split; [apply run_locked_limits|]. apply (limited_numbers _ (λ lim, check_many_op _ _ lim qs)); [intros; by apply check_many_numbers|lia|done].
  - split; [apply run_locked_limits|]. apply limited_numbers; [apply reset_numbers|lia|done].
  - split; [apply run_locked_limits|]. apply run_locked_numbers; [by intros s Hs|done].
  - split; [apply run_locked_limits|]. apply run_locked_numbers; [apply drain_numbers; lia|done].
  - unfold close, acquire, release, upd_life, mbind, st_bind, gets, modify, lift, reject_if. cbn.
    destruct (lc_closed l); [done|]. destruct (negb _); [done|]. cbn. by destruct (lc_busy l).
Qed.

(** The events of an open session, after any calls and whatever the tableau did,
    fit in the configured ring, carry consecutive numbers up to the last one issued
    and belong to operations that were started. *)
Theorem session_events_numbered (k : K) l o :
  opened (C:=C) result_size completed_size k l → lc_owned l = Some o → numbered (sl_max_event_queue (lc_limits l)) o.
Proof.
  intros Hl. cut (2 ≤ sl_max_event_queue (lc_limits l) ∧ ∀ o, lc_owned l = Some o → numbered (sl_max_event_queue (lc_limits l)) o); [naive_solver|].
  induction Hl as [limits pid l Hl|pid request c l _ [Hcap IH]].
  - unfold with_owner_process_id in Hl. apply outcome_bind_Ok in Hl as ([] & _ & Hl). apply outcome_bind_Ok in Hl as (lim & Hv & Hl).
    injection Hl as <-. cbn. unfold Scheduler.validate_limits in Hv. inv_ok. split; [by apply N.ltb_ge|].
    intros o' [= <-]. split; cbn; [lia|by intros i e|by intros e ?%elem_of_nil|unfold u64_max; lia].
  - destruct (call_numbered pid request c l Hcap IH) as [El Ho]. rewrite El. done.
Qed.

(** An operation that was started can be completed.  The numbers of its events
    were set aside: however many checks were reported, up to the declared total, the
    completion does not fail. *)
Theorem completion_reported kind total (o1 o1' o2 : SessionOwned K) c r checks capacity :
  start_operation kind total o1 = (Ok c, o1') → so_next_event_sequence o2 = so_next_event_sequence o1' →
  N.of_nat (length checks) + (if (or_resets r =? 0)%N then 0 else 1) ≤ total → total ≤ u32_max →
  (complete_operation c r checks capacity o2).1 = Ok tt.
Proof.
  intros Hs En Hl Ht. unfold start_operation in Hs. inv_ok. apply complete_fits; cbn in *; [done|].
  match goal with H : upd_statistics _ _ = _ |- _ => injection H as <- end. rewrite En. cbn.
  unfold saturating_add, u32_max, u64_max in *. lia.
Qed.

(** Poison is final.  A poisoned session answers every call but [close] with an
    error and does not change. *)
Theorem poison_is_final pid request (c : C) (l : LifecycleControl K) :
  lc_poisoned l = true → request ≠ CallClose →
  ∃ e, call result_size completed_size pid request (c, l) = (Err e, (c, l)).
Proof.
  intros Hp Hr. assert (∀ X (op : st (Running C K) NativeError X), ∃ e, run_locked pid op (c, l) = (Err e, (c, l))) as Hrun.
  { intros X op. unfold run_locked, preflight, mbind, st_bind, gets, lift, reject_if. cbn.
    destruct (lc_closed l); [by eexists|]. destruct (negb _); [by eexists|]. rewrite Hp. by eexists. }
  destruct request; cbn [call]; try done; rewrite ?wrapped_state; unfold check_permanent, check_query, check_many, reset_query_state, snapshot,
    drain_events, limited, mbind, st_bind, gets; cbn; match goal with |- context [run_locked pid ?op _] => destruct (Hrun _ op) as [e ->] end; by eexists.
Qed.
End events.

(** ** Threads *)

Section threads.
Context {C K : Type}.

(** C32: threads exclude each other.  In every interleaving, at most one thread is
    between acquiring and releasing the session, so at most one runs an operation or
    closes; a thread that goes for the mutex finds it free; and a closed session
    owns nothing. *)
Theorem threads_exclusive pid (c c' : Shared * list (Thread (C:=C) (K:=K))) :
  fresh c → rtc (step pid) c c' →
  (∀ i j t u, c'.2 !! i = Some t → c'.2 !! j = Some u → holds t = true → holds u = true → i = j) ∧
  (∀ i t, c'.2 !! i = Some t → holds t = true → locks t = false → sh_locked c'.1 = false) ∧
  (lc_closed (sh_life c'.1) = true → lc_owned (sh_life c'.1) = None).
Proof.
  intros Hf Hs. pose proof (steps_exclusive _ _ _ (fresh_exclusive _ Hf) Hs) as Hx. split_and!.
  - apply (exclusive_one _ Hx).
  - intros i t Hi Hh Hl. destruct (sh_locked c'.1) eqn:E; [|done].
    destruct (exclusive_unlocked _ Hx E) as (j & u & Hj & Hu). pose proof (exclusive_one _ Hx i j t u Hi Hj Hh (locks_holds _ Hu)) as ->.
    congruence.
  - apply (exclusive_closed _ Hx).
Qed.
End threads.

(** ** A small tableau *)

(** An ontology is a list of alternatives, each consistent or not; a query forbids
    some of them; the search looks at one alternative after the other. *)
Record Toy := mkToy { toy_alternatives : list bool; toy_search : list bool }.

Definition toy_clash (k : Toy) : bool := match toy_search k with true :: _ => false | _ => true end.

Definition toy_idle {X} (x : X) : st (unit * Toy) NativeError X := mret x.

#[export] Instance Toy_tableau : NativeTableau unit Toy (list bool) (list bool) := {|
  estimated_memory_bytes k := Ok (N.of_nat (length (toy_alternatives k)));
  operation_checkpoint s := (Ok (toy_alternatives s.2), (s.1, mkToy (toy_alternatives s.2) (toy_alternatives s.2)));
  install_query q s := (Ok tt, (s.1, mkToy (toy_alternatives s.2) (zip_with andb (toy_search s.2) (sq_payload q))));
  finish_operation cp _ k := (Ok tt, mkToy cp []);
  reset_to_permanent k := (Ok tt, mkToy (toy_alternatives k) []);
  has_clash := toy_clash;
  process_nominals := toy_idle 0;
  apply_next_delta := toy_idle (mkDeltaPhase 0 0 0);
  check_datatypes := toy_idle (mkDatatypePhase 0 false false);
  has_existential_candidates _ := false;
  refresh_blocking := toy_idle 0;
  process_existential := toy_idle PhaseNoWork;
  process_disjunction := toy_idle PhaseNoWork;
  resolve_clash s := match toy_search s.2 with
    | _ :: (_ :: _) as rest => (Ok Backtracked, (s.1, mkToy (toy_alternatives s.2) (tail (toy_search s.2))))
    | _ => (Ok Unsatisfiable, s)
    end;
  invalidate_after_backtrack := mret tt;
  validate_blocking := toy_idle (NotRequired, 0);
  ready_for_sat k := Ok (negb (toy_clash k));
  check_invariants _ := Ok tt
|}.

Definition toy_sem (q : option (SessionQuery (list bool))) (k : Toy) : Prop :=
  match q with
  | None => true ∈ toy_alternatives k
  | Some q => true ∈ zip_with andb (toy_alternatives k) (sq_payload q)
  end.

Lemma toy_idle_phase {X} (I : Toy → Prop) (x : X) : phase I (toy_idle x) (λ _ k k', true ∈ toy_search k ↔ true ∈ toy_search k').
Proof. by intros s Hs. Qed.

Lemma toy_model k : toy_clash k = false → true ∈ toy_search k.
Proof. unfold toy_clash. destruct (toy_search k) as [|[] l]; [done|by left|done]. Qed.

Lemma toy_query l mask : true ∈ zip_with andb l mask → true ∈ l.
Proof.
  revert mask. induction l as [|a l IH]; intros [|b mask]; cbn; [done|done|by intros ?%elem_of_nil|].
  intros [E|H]%elem_of_cons; [|right; by eapply IH]. symmetry in E. apply andb_true_iff in E as [-> _]. by left.
Qed.

#[export] Instance Toy_laws : TableauLaws unit Toy (list bool) (list bool).
Proof.
  refine {| root_ok _ := True; sem := toy_sem; model k := true ∈ toy_search k;
    running cp root k := cp = toy_alternatives root;
    prepared cp root k := cp = toy_alternatives root ∧ toy_search k = toy_alternatives root |};
    try (intros; apply toy_idle_phase); try done.
  - intros cp k k' [-> E]. cbn. by rewrite E.
  - intros k q. apply toy_query.
  - intros cp k q [c [alts search]] [-> E]. cbn in *. by subst search.
  - intros cp k [c [alts search]] Hr Hc. cbn in *. unfold toy_clash in Hc. cbn in Hc. destruct search as [|a [|b rest]]; cbn in *.
    + split; [done|by intros ?%elem_of_nil].
    + destruct a; [done|]. split; [done|]. by intros [?|?%elem_of_nil]%elem_of_cons.
    + destruct a; [done|]. split; [done|]. rewrite elem_of_cons. naive_solver.
  - intros cp k s s' _ (_ & s1 & _ & _ & v & _ & _ & Hready & _). apply toy_model. cbn in Hready. injection Hready. by destruct (toy_clash s'.2).
  - intros cp k k1 d ->. split; [done|]. by intros [q|].
Defined.

(** Three alternatives, of which the last is consistent. *)
Definition toy : Toy := mkToy [false; false; true] [].
Definition toy_session : LifecycleControl Toy := mkLifecycle 7 Scheduler.default_session_limits false false false (Some (new_owned toy)).
Definition keep_last : SessionQuery (list bool) := mkQuery [] [true; true; true].
Definition drop_last : SessionQuery (list bool) := mkQuery [] [true; true; false].

Lemma toy_opened : opened (C:=unit) 40 80 toy toy_session.
Proof. by apply (opened_new _ _ _ Scheduler.default_session_limits 7). Qed.

Lemma drive_decides_witness :
  let s := ((), mkToy [false; false; true] [false; false; true]) in
  match Scheduler.drive_tableau 10 s with
  | (Ok r, s') => running [false; false; true] toy s'.2 ∧ (cr_satisfiable r = true ↔ model s.2) ∧ cr_cache_hit r = false ∧
      1 ≤ ss_scheduler_steps (cr_statistics r) ≤ 10
  | (Err _, s') => running [false; false; true] toy s'.2
  | (Crash, _) => False
  end ∧ (Scheduler.drive_tableau 10 s).1 = Ok (mkCheck true false (mkScheduler 3 0 0 0 0 0 0 0 0 0 0 0 2)).
Proof.
  split; [|vm_compute; reflexivity].
  apply (drive_decides (C:=unit) [false; false; true] toy 10 ((), mkToy [false; false; true] [false; false; true])). reflexivity.
Defined.

Lemma transaction_isolated_witness :
  let s := mkRunning () false (new_owned toy) in
  let means k := root_ok k ∧ ∀ q, sem q k ↔ sem q toy in
  let isolated s' := ru_owned s' = new_owned toy <| so_kernel := so_kernel (ru_owned s') |> in
  match run_transaction (Some drop_last) RollbackQuery Scheduler.default_session_limits s with
  | (Ok r, s') => isolated s' ∧ means (so_kernel (ru_owned s')) ∧ (cr_satisfiable r = true ↔ sem (Some drop_last) toy)
  | (Err _, s') => isolated s' ∧ (ru_poisoned s' = true ∨ means (so_kernel (ru_owned s')))
  | (Crash, _) => False
  end.
Proof.
  apply (transaction_isolated (Some drop_last) RollbackQuery Scheduler.default_session_limits (mkRunning () false (new_owned toy))). exact I.
Defined.

Lemma session_answers_right_witness :
  match call 40 80 7 (CallMany [keep_last; drop_last]) ((), toy_session) with
  | (Ok rs, _) => Forall2 (λ q r, cr_satisfiable r = true ↔ sem q toy) [Some keep_last; Some drop_last] rs
  | (Err _, _) => True
  | (Crash, _) => False
  end ∧
  match (call 40 80 7 (CallMany [keep_last; drop_last]) ((), toy_session)).1 with
  | Ok rs => cr_satisfiable <$> rs = [true; false]
  | _ => False
  end.
Proof.
  split; [|vm_compute; reflexivity].
  apply (session_answers_right 40 80 toy toy_session 7 (CallMany [keep_last; drop_last]) ()); [exact I|apply toy_opened].
Defined.

(** The session after a permanent check and a query. *)
Definition used_session : LifecycleControl Toy :=
  Eval vm_compute in (call 40 80 7 (CallQuery drop_last) ((), (call 40 80 7 CallPermanent ((), toy_session)).2.2)).2.2.
Definition used_books : SessionOwned Toy := Eval vm_compute in default (new_owned toy) (lc_owned used_session).

Lemma session_events_numbered_witness : numbered 4096 used_books ∧ length (so_events used_books) = 6%nat.
Proof.
  split; [|reflexivity]. apply (session_events_numbered (C:=unit) 40 80 toy used_session used_books); [|reflexivity].
  apply (opened_call (C:=unit) 40 80 toy 7 (CallQuery drop_last) () _ (opened_call (C:=unit) 40 80 toy 7 CallPermanent () _ toy_opened)).
Defined.

Lemma completion_reported_witness :
  (complete_operation (mkOperationContext 1 QueryCheck 1) no_record [mkCompleted None (Scheduler.cached true)] 2 (new_owned toy)).1 = Ok tt.
Proof.
  eapply (completion_reported QueryCheck 1 (new_owned toy) _ (new_owned toy)); [vm_compute; reflexivity|reflexivity|cbn; lia|unfold u32_max; lia].
Defined.

Lemma poison_is_final_witness :
  ∃ e, call 40 80 7 (CallQuery keep_last) ((), toy_session <| lc_poisoned := true |>) = (Err e, ((), toy_session <| lc_poisoned := true |>)).
Proof. apply (poison_is_final 40 80 7 (CallQuery keep_last) () (toy_session <| lc_poisoned := true |>)); [reflexivity|discriminate]. Defined.

(** ** A race on the poison flag *)

Definition panicking : st (Running unit Toy) NativeError unit := λ s, (Crash, s).
Definition harmless : st (Running unit Toy) NativeError unit := mret tt.

(** Two threads, neither inside. *)
Definition two_threads : Shared (K:=Toy) * list (Thread (C:=unit) (K:=Toy)) :=
  (mkShared toy_session false, [Returned (Ok tt); Returned (Ok tt)]).

(** Thread [i] makes an access. *)
Ltac thread_moves i := eapply rtc_l; [eapply (step_advance 7 i); reflexivity|].

Lemma threads_exclusive_witness :
  (∀ i j (t u : Thread (C:=unit) (K:=Toy)), [RunBody (mkJob () harmless); Returned (Ok tt)] !! i = Some t →
    [RunBody (mkJob () harmless); Returned (Ok tt)] !! j = Some u → holds t = true → holds u = true → i = j) ∧ length two_threads.2 = 2%nat.
Proof.
  split; [|reflexivity].
  apply (threads_exclusive 7 two_threads (mkShared (toy_session <| lc_busy := true |>) true, [RunBody (mkJob () harmless); Returned (Ok tt)])).
  - repeat split; [discriminate|]. repeat constructor; by eexists.
  - eapply rtc_l; [apply (step_call 7 0 (Ok tt) (mkJob () harmless)); reflexivity|].
    do 5 thread_moves 0%nat. apply rtc_refl.
Defined.

(** A poisoned session can still run an operation.  A thread that has found the
    session healthy acquires it only afterwards; when another thread's operation
    panics in between, it goes on to run its own operation on the poisoned session. *)
Theorem poisoned_session_runs :
  ∃ c, rtc (step 7) two_threads c ∧ lc_poisoned (sh_life c.1) = true ∧ c.2 !! 1%nat = Some (RunBody (mkJob () harmless)).
Proof.
  eexists. split.
  - eapply rtc_l; [apply (step_call 7 0 (Ok tt) (mkJob () panicking)); reflexivity|].
    eapply rtc_l; [apply (step_call 7 1 (Ok tt) (mkJob () harmless)); reflexivity|].
    do 3 thread_moves 1%nat. do 9 thread_moves 0%nat. do 2 thread_moves 1%nat. apply rtc_refl.
  - split; reflexivity.
Qed.
