(* ===== verification/Hierarchy.v ===== *)
(** * Hierarchies and their audit (native/src/services/classification.rs)

    The canonical result of a classification: a partition of the elements into
    nodes and the direct edges from child to parent, with the audit that Python's
    contract demands: canonical order, a partition, no cycle, no edge that follows
    from others. *)

From stdpp Require Import pretty.
From S2P Require Import Prelude Order Errors.
Import NativeErr.

Inductive ClassificationMode := DeterministicMode | QuasiOrder.
#[global] Instance ClassificationMode_eq_dec : EqDecision ClassificationMode.
Proof. solve_decision. Defined.

Record ClassificationLimits := mkClassificationLimits {
  cl_max_elements : N;
  cl_max_seed_relations : N;
  cl_max_semantic_tests : N;
  cl_max_memory_bytes : N
}.

Record HierarchyIds := mkHierarchy {
  h_nodes : list (list N);
  h_edges : list (N * N);
  h_top_node : N;
  h_bottom_node : N
}.

Module Hierarchy.

Definition default_classification_limits : ClassificationLimits :=
  mkClassificationLimits 5000000 20000000 100000000 (2 * 1024 * 1024 * 1024).

Definition validate_limits (l : ClassificationLimits) : NativeResult ClassificationLimits :=
  _ ← reject_if (cl_max_elements l <? 2)%N (wire "classification max_elements must retain top and bottom");
  _ ← reject_if ((cl_max_seed_relations l =? 0)%N || (cl_max_semantic_tests l =? 0)%N || (cl_max_memory_bytes l =? 0)%N)
    (wire "classification resource limits must be strictly positive");
  Ok l.

(** ** Topological order *)

Section kahn.
Context {S : Type} (tick : st S NativeError unit) (underflow : NativeError) (successors : list (list nat)).

(** One edge out of a processed node. *)
Definition relax (acc : list N * list nat) (successor : nat) : NativeResult (list N * list nat) :=
  let '(incoming, frontier) := acc in
  degree ← index_or_crash incoming successor;
  _ ← reject_if (degree =? 0)%N underflow;
  let incoming := <[successor := degree - 1]> incoming in
  Ok (incoming, if (degree - 1 =? 0)%N then frontier ++ [successor] else frontier).

(** The loop over the frontier; the number of processed nodes. *)
Fixpoint kahn_loop (fuel : nat) (frontier : list nat) (incoming : list N) (processed : nat) : st S NativeError nat :=
  match fuel with
  | O => lift Crash
  | Datatypes.S fuel =>
      match frontier with
      | [] => mret processed
      | node :: frontier =>
          _ ← tick;
          out ← lift (index_or_crash successors node);
          r ← lift (foldM relax out (incoming, frontier));
          kahn_loop fuel r.2 r.1 (Datatypes.S processed)
      end
  end.

(** The nodes without incoming edge. *)
Definition sources (incoming : list N) : list nat :=
  (imap pair incoming ≫= λ e, if (e.2 =? 0)%N then [e.1] else []).

(** A node enters the frontier at most once. *)
Definition kahn (incoming : list N) : st S NativeError nat :=
  kahn_loop (Datatypes.S (length incoming)) (sources incoming) incoming 0.
End kahn.

(** ** Redundant edges *)

(** A search along the edges, the top of the stack first: does it meet [target]? *)
Fixpoint reaches_loop (successors : list (list nat)) (target : nat) (fuel : nat) (stack : list nat) (seen : list bool) : NativeResult bool :=
  match fuel with
  | O => Crash
  | S fuel =>
      match stack with
      | [] => Ok false
      | current :: stack =>
          if (current =? target)%nat then Ok true
          else
            index_or_crash seen current ≫= λ visited : bool,
            if visited then reaches_loop successors target fuel stack seen
            else
              out ← index_or_crash successors current;
              reaches_loop successors target fuel (rev out ++ stack) (<[current := true]> seen)
      end
  end.

(** Every edge is pushed at most once, besides those the search starts with. *)
Definition reaches (successors : list (list nat)) (target : nat) (start : list nat) : NativeResult bool :=
  reaches_loop successors target (S (length start + length (concat successors))) (rev start)
    (replicate (length successors) false).

Definition check_redundant (successors : list (list nat)) (direct : list nat) (target : nat) : NativeResult unit :=
  redundant ← reaches successors target (filter (λ candidate, candidate ≠ target) direct);
  reject_if redundant (invariant "classification hierarchy edges are not transitively reduced").

Definition check_direct (successors : list (list nat)) (direct : list nat) : NativeResult unit :=
  if (length direct <? 2)%nat then Ok tt else iterM (check_redundant successors direct) direct.

(** ** The audit *)

(** The members of a node, unless one was there before. *)
Fixpoint insert_members (node : list N) (members : gset N) : option (gset N) :=
  match node with
  | [] => Some members
  | m :: node => if bool_decide (m ∈ members) then None else insert_members node ({[m]} ∪ members)
  end.

Definition check_node (members : gset N) (node : list N) : NativeResult (gset N) :=
  _ ← reject_if (negb (strictly_ascending node)) (invariant "classification hierarchy node members are not canonical");
  ok_or (insert_members node members) (invariant "classification hierarchy nodes do not partition their members").

Definition add_edge (count : N) (acc : list (list nat) * list N) (edge : N * N) : NativeResult (list (list nat) * list N) :=
  _ ← reject_if ((count <=? edge.1)%N || (count <=? edge.2)%N || (edge.1 =? edge.2)%N)
    (invariant "classification hierarchy contains an invalid edge");
  let child := N.to_nat edge.1 in
  let parent := N.to_nat edge.2 in
  degree ← index_or_crash acc.2 parent;
  degree ← ok_or (checked_add u32_max degree 1) (invariant "hierarchy in-degree overflow");
  Ok (alter (λ l, l ++ [parent]) child acc.1, <[parent := degree]> acc.2).

Definition validate (h : HierarchyIds) : NativeResult unit :=
  _ ← reject_if (bool_decide (h_nodes h = []) || existsb (λ node, bool_decide (node = [])) (h_nodes h))
    (invariant "classification hierarchy contains an empty node or no nodes");
  _ ← reject_if (negb (strictly_ascending (h_nodes h))) (invariant "classification hierarchy nodes are not canonical");
  _ ← foldM check_node (h_nodes h) ∅;
  count ← ok_or (u32_try_from (length (h_nodes h))) (invariant "classification hierarchy node count exceeds u32");
  _ ← reject_if ((count <=? h_top_node h)%N || (count <=? h_bottom_node h)%N)
    (invariant "classification top or bottom references an absent node");
  _ ← reject_if (negb (strictly_ascending (h_edges h))) (invariant "classification hierarchy edges are not canonical");
  let nodes := length (h_nodes h) in
  graph ← foldM (add_edge count) (h_edges h) (replicate nodes [], replicate nodes 0%N);
  let '(successors, incoming) := graph in
  processed ← (kahn (mret tt) (invariant "hierarchy in-degree accounting underflow") successors incoming tt).1;
  _ ← reject_if (negb (processed =? nodes)%nat) (invariant "classification hierarchy contains a cycle");
  iterM (check_direct successors) successors.

(** ** Limits *)

Definition check_count (limit : string) (observed allowed : N) : NativeResult unit :=
  reject_if (allowed <? observed)%N
    (with_context (with_context (with_context
      (NativeErr.new Resource "RESOURCE_LIMIT" ("native classification resource limit exceeded: " +:+ limit))
      "limit" limit) "observed" (pretty observed)) "allowed" (pretty allowed)).

End Hierarchy.
