(* ===== verification/HierarchyAudit.v ===== *)
(** * Searches of directed graphs

    Kahn's loop processes all nodes exactly when no path leads back to its start,
    and the search for redundant edges meets its target exactly when a path leads
    to it. *)

From S2P Require Import Prelude Order Errors Contracts Hierarchy.

(** ** Weights of visited entries *)

Section weight.
Context {K : Type} `{Countable K} {A : Type} (cost : A → nat).

Definition unvisited (visited : gset K) (e : K * A) : nat := if decide (e.1 ∈ visited) then 0 else cost e.2.

Lemma weight_fresh (l : list (K * A)) visited k :
  k ∉ l.*1 → sum_list_with (unvisited ({[k]} ∪ visited)) l = sum_list_with (unvisited visited) l.
Proof.
  induction l as [|[k' a] l IH]; cbn; [done|]. rewrite not_elem_of_cons. intros [Hne Hl]. rewrite IH by done. f_equal.
  unfold unvisited. cbn. repeat case_decide; set_solver.
Qed.

Lemma weight_visit (l : list (K * A)) visited k a :
  NoDup l.*1 → (k, a) ∈ l → k ∉ visited →
  sum_list_with (unvisited visited) l = (cost a + sum_list_with (unvisited ({[k]} ∪ visited)) l)%nat.
Proof.
  intros Hl Hin Hk. induction l as [|[k' a'] l IH]; [by apply elem_of_nil in Hin|]. apply NoDup_cons in Hl as [Hk' Hl]. cbn.
  apply elem_of_cons in Hin as [[= <- <-]|Hin].
  - rewrite weight_fresh by done. unfold unvisited at 1 3. cbn. rewrite decide_False by done. rewrite decide_True by set_solver. lia.
  - rewrite (IH Hl Hin). assert (k ≠ k') as Hne. { intros ->. apply Hk', list_elem_of_fmap. by exists (k', a). }
    unfold unvisited at 1 3. cbn. repeat case_decide; set_solver by lia.
Qed.
End weight.


(** ** Paths *)

Section paths.
Context {A : Type} (R : relation A).

Lemma tc_first x y : tc R x y → ∃ z, R x z ∧ rtc R z y.
Proof. destruct 1 as [x y Hxy|x z y Hxz Hzy]; [by exists y|]. exists z. split; [done|by apply tc_rtc]. Qed.

Lemma tc_last x y : tc R x y → ∃ z, rtc R x z ∧ R z y.
Proof. revert y. apply tc_ind_r; [intros z Hz; by exists x|]. intros y z Hxy Hyz _. exists y. split; [by apply tc_rtc|done]. Qed.

Lemma tc_back x y : tc (flip R) x y → tc R y x.
Proof. induction 1 as [x y Hxy|x z y Hxz _ IH]; [by apply tc_once|]. by eapply tc_r. Qed.
End paths.

(** ** Graphs by successor lists *)

Section graph.
Context (successors : list (list nat)).
Abbreviation n := (length successors).

Definition edge (u v : nat) : Prop := ∃ out, successors !! u = Some out ∧ v ∈ out.

Definition closed_graph : Prop := ∀ u v, edge u v → (v < n)%nat.

Definition acyclic : Prop := ∀ v, ¬ tc edge v v.

Lemma edge_source u v : edge u v → (u < n)%nat.
Proof. intros (out & Hu & _). by eapply lookup_lt_Some. Qed.

Lemma entries_NoDup : NoDup (imap pair successors).*1.
Proof.
  assert ((imap pair successors).*1 = seq 0 n) as ->; [|apply NoDup_seq].
  rewrite fmap_imap. apply list_eq. intros i. rewrite list_lookup_imap. destruct (decide (i < n)%nat) as [Hi|Hi].
  - rewrite lookup_seq_lt by done. destruct (lookup_lt_is_Some_2 successors i Hi) as [o ->]. done.
  - rewrite lookup_seq_ge, lookup_ge_None_2 by lia. done.
Qed.

Lemma elem_of_entries u out : (u, out) ∈ imap pair successors ↔ successors !! u = Some out.
Proof.
  rewrite list_elem_of_lookup. setoid_rewrite list_lookup_imap. split.
  - intros (i & Hi). destruct (successors !! i) eqn:E; [|done]. by injection Hi as <- <-.
  - intros Hu. exists u. by rewrite Hu.
Qed.
End graph.

(** ** Kahn's loop *)

Section kahn.
Context {S : Type} (tick : st S NativeError unit) (underflow : NativeError) (successors : list (list nat)).
Context (Hclosed : closed_graph successors).
Abbreviation n := (length successors).
Abbreviation edge := (edge successors).

Definition occ (v : nat) (out : list nat) : nat := count_occ Nat.eq_dec out v.
Arguments occ : simpl never.

(** The edges into [v] from nodes outside [D]. *)
Definition load (D : gset nat) (v : nat) : nat := sum_list_with (unvisited (occ v) D) (imap pair successors).

Lemma load_visit D u out v : successors !! u = Some out → u ∉ D → load D v = (occ v out + load ({[u]} ∪ D) v)%nat.
Proof. intros Hu HD. apply weight_visit; [apply entries_NoDup|by apply elem_of_entries|done]. Qed.

Lemma occ_pos v out : (0 < occ v out)%nat ↔ v ∈ out.
Proof. unfold occ. rewrite list_elem_of_In. symmetry. apply count_occ_In. Qed.

Lemma occ_cons v w out : occ v (w :: out) = ((if decide (w = v) then 1 else 0) + occ v out)%nat.
Proof. unfold occ. cbn. destruct (Nat.eq_dec w v), (decide (w = v)); done. Qed.

(** A node has no load exactly when its predecessors are in [D]. *)
Lemma load_zero D v : load D v = 0%nat ↔ ∀ u, edge u v → u ∈ D.
Proof.
  unfold load. split.
  - intros Hz u (out & Hu & Hv). apply elem_of_entries in Hu. destruct (decide (u ∈ D)) as [|HD]; [done|]. exfalso.
    assert (unvisited (occ v) D (u, out) ≤ 0)%nat as Hle by (rewrite <-Hz; by apply sum_list_with_in).
    unfold unvisited in Hle. cbn [fst snd] in Hle. rewrite decide_False in Hle by done. apply occ_pos in Hv. lia.
  - intros HD. assert (∀ e, e ∈ imap pair successors → unvisited (occ v) D e = 0%nat) as Hall.
    { intros [u out] Hu%elem_of_entries. unfold unvisited. cbn [fst snd]. case_decide as Hd; [done|].
      destruct (occ v out) eqn:Eo; [done|]. destruct Hd. apply HD. exists out. split; [done|]. apply occ_pos. lia. }
    induction (imap pair successors) as [|e l IH]; cbn; [done|]. rewrite Hall by left. apply IH. intros e' He'. apply Hall. by right.
Qed.

(** ** One node *)

Lemma relax_all out incoming frontier :
  (∀ v, v ∈ out → ∃ d, incoming !! v = Some d ∧ (N.of_nat (occ v out) ≤ d)%N) →
  ∃ incoming' fresh, foldM (Hierarchy.relax underflow) out (incoming, frontier) = Ok (incoming', frontier ++ fresh) ∧
    (∀ v, incoming' !! v = (λ d, d - N.of_nat (occ v out))%N <$> incoming !! v) ∧ NoDup fresh ∧
    ∀ v, v ∈ fresh ↔ v ∈ out ∧ incoming !! v = Some (N.of_nat (occ v out)).
Proof.
  revert incoming frontier. induction out as [|w out IH]; intros incoming frontier Hout.
  { exists incoming, []. rewrite app_nil_r. split_and!; [done| |constructor|intros v; split; [by intros ?%elem_of_nil|by intros [?%elem_of_nil _]]].
    intros v. change (occ v []) with 0%nat. destruct (incoming !! v); cbn; [f_equal; lia|done]. }
  destruct (Hout w) as (d & Hd & Hle); [left|]. rewrite occ_cons, decide_True in Hle by done.
  cbn [foldM Hierarchy.relax]. unfold index_or_crash. rewrite Hd. cbn. rewrite (proj2 (N.eqb_neq d 0)) by lia. cbn.
  pose proof (lookup_lt_Some _ _ _ Hd) as Hlt.
  destruct (IH (<[w := d - 1]> incoming) (if (d - 1 =? 0)%N then frontier ++ [w] else frontier)) as (incoming' & fresh & Hf & Hin & Hnd & Hfr).
  { intros v Hv. destruct (Hout v) as (dv & Hdv & Hle'); [by right|]. rewrite occ_cons in Hle'. destruct (decide (w = v)) as [->|Hne].
    - rewrite list_lookup_insert_eq by done. exists (d - 1)%N. split; [done|lia].
    - rewrite list_lookup_insert_ne by done. exists dv. split; [done|lia]. }
  exists incoming', (if (d - 1 =? 0)%N then w :: fresh else fresh). split_and!.
  - unfold mbind in Hf. rewrite Hf. destruct (d - 1 =? 0)%N; [by rewrite <-app_assoc|done].
  - intros v. rewrite Hin, occ_cons. destruct (decide (w = v)) as [->|Hne].
    + rewrite list_lookup_insert_eq by done. rewrite Hd. cbn. f_equal. lia.
    + by rewrite list_lookup_insert_ne by done.
  - destruct (d - 1 =? 0)%N eqn:Ed; [|done]. constructor; [|done]. rewrite Hfr. intros [Hw%occ_pos Heq].
    rewrite list_lookup_insert_eq in Heq by done. apply N.eqb_eq in Ed. injection Heq as Heq. lia.
  - intros v. assert (v ∈ fresh ↔ v ∈ out ∧ <[w := (d - 1)%N]> incoming !! v = Some (N.of_nat (occ v out))) as Hv by apply Hfr.
    destruct (decide (w = v)) as [<-|Hne].
    + rewrite list_lookup_insert_eq in Hv by done. rewrite Hd, occ_cons, decide_True by done. rewrite elem_of_cons.
      destruct (d - 1 =? 0)%N eqn:Ed; [apply N.eqb_eq in Ed|apply N.eqb_neq in Ed].
      * split; [|intros _; left]. intros _. split; [by left|f_equal; lia].
      * rewrite Hv. split; [intros [? [= ?]]; split; [by right|f_equal; lia]|]. intros [_ [= Heq]]. split; [apply occ_pos; lia|f_equal; lia].
    + rewrite list_lookup_insert_ne in Hv by done. rewrite occ_cons, decide_False by done. cbn.
      assert (v ∈ (if (d - 1 =? 0)%N then w :: fresh else fresh) ↔ v ∈ fresh) as ->; [|rewrite Hv, elem_of_cons; naive_solver].
      destruct (d - 1 =? 0)%N; [|done]. rewrite elem_of_cons. naive_solver.
Qed.

(** ** The loop *)

(** [D] are the processed nodes. *)
Record sweep (D : gset nat) (frontier : list nat) (incoming : list N) : Prop := {
  sweep_load v : (v < n)%nat → incoming !! v = Some (N.of_nat (load D v));
  sweep_NoDup : NoDup frontier;
  sweep_fresh v : v ∈ frontier → v ∉ D;
  sweep_ready v : (v < n)%nat → (v ∈ frontier ∨ v ∈ D) ↔ load D v = 0%nat;
  sweep_inside v : v ∈ frontier ∨ v ∈ D → (v < n)%nat;
  sweep_closed u v : edge u v → v ∈ D → u ∈ D;
  sweep_acyclic v : v ∈ D → ¬ tc edge v v
}.

Lemma closed_back (D : gset nat) u v : (∀ u v, edge u v → v ∈ D → u ∈ D) → rtc edge u v → v ∈ D → u ∈ D.
Proof. intros Hc. induction 1 as [|u w v Huw _ IH]; [done|]. intros Hv. by eapply Hc, IH. Qed.

Lemma sweep_size D frontier incoming :
  sweep D frontier incoming → (size D + length frontier ≤ n)%nat.
Proof.
  intros Hs. assert (NoDup (elements D ++ frontier)) as Hnd.
  { apply NoDup_app. split_and!; [apply NoDup_elements| |apply Hs]. intros v Hv%elem_of_elements Hf. by eapply sweep_fresh. }
  pose proof (NoDup_submseteq (elements D ++ frontier) (seq 0 n) Hnd) as Hsub. apply submseteq_length in Hsub.
  - rewrite length_app, length_seq in Hsub. exact Hsub.
  - intros v Hv. apply elem_of_seq. assert (v < n)%nat; [|lia]. apply (sweep_inside _ _ _ Hs).
    apply elem_of_app in Hv as [?%elem_of_elements|?]; auto.
Qed.

Lemma sweep_step D u frontier incoming out :
  sweep D (u :: frontier) incoming → successors !! u = Some out →
  ∃ incoming' fresh, foldM (Hierarchy.relax underflow) out (incoming, frontier) = Ok (incoming', frontier ++ fresh) ∧
    sweep ({[u]} ∪ D) (frontier ++ fresh) incoming'.
Proof.
  intros Hs Hu. assert (u ∉ D) as HuD by (eapply sweep_fresh; [done|left]). assert (u < n)%nat as Hun by (by eapply lookup_lt_Some).
  destruct (proj1 (NoDup_cons _ _) (sweep_NoDup _ _ _ Hs)) as [Huf Hnd].
  assert (load D u = 0%nat) as Hu0 by (apply (sweep_ready _ _ _ Hs); [done|left; left]).
  assert (∀ v, v ∈ out → (v < n)%nat) as Hout. { intros v Hv. apply (Hclosed u). by exists out. }
  destruct (relax_all out incoming frontier) as (incoming' & fresh & Hf & Hin & Hnd' & Hfr).
  { intros v Hv. exists (N.of_nat (load D v)). split; [by apply Hs, Hout|]. rewrite (load_visit D u out v Hu HuD). lia. }
  assert (∀ v, v ∈ fresh ↔ v ∈ out ∧ load ({[u]} ∪ D) v = 0%nat) as Hfr'.
  { intros v. rewrite Hfr. split; intros [Hv Hl]; (split; [done|]).
    - rewrite (sweep_load _ _ _ Hs) in Hl by auto. injection Hl as Hl. rewrite (load_visit D u out v Hu HuD) in Hl. lia.
    - rewrite (sweep_load _ _ _ Hs) by auto. rewrite (load_visit D u out v Hu HuD), Hl. f_equal. lia. }
  exists incoming', fresh. split; [done|].
  assert (∀ v, v ∈ out → (v ∉ u :: frontier) ∧ v ∉ D) as Hnotyet.
  { intros v Hv. assert (load D v ≠ 0%nat) as Hl. { apply occ_pos in Hv. rewrite (load_visit D u out v Hu HuD). lia. }
    pose proof (sweep_ready _ _ _ Hs v (Hout v Hv)). naive_solver. }
  split.
  - intros v Hv. rewrite Hin, (sweep_load _ _ _ Hs v Hv), (load_visit D u out v Hu HuD). cbn. f_equal. lia.
  - apply NoDup_app. split_and!; [done| |done]. intros v Hv [Hvo _]%Hfr'. by destruct (Hnotyet v Hvo) as [[_ ?]%not_elem_of_cons _].
  - intros v [Hv|[Hv _]%Hfr']%elem_of_app.
    + intros [->%elem_of_singleton|HvD]%elem_of_union; [done|]. eapply sweep_fresh; [done| |done]. by right.
    + destruct (Hnotyet v Hv) as [[? _]%not_elem_of_cons ?]. set_solver.
  - intros v Hv. rewrite elem_of_app, elem_of_union, elem_of_singleton, Hfr'. split.
    + assert (v ∈ u :: frontier ∨ v ∈ D → load ({[u]} ∪ D) v = 0%nat) as Hold.
      { intros Hl. apply (sweep_ready _ _ _ Hs) in Hl; [|done]. rewrite (load_visit D u out v Hu HuD) in Hl. lia. }
      rewrite elem_of_cons in Hold. naive_solver.
    + intros Hl. destruct (decide (v ∈ out)) as [|Hvo]; [naive_solver|].
      assert (occ v out = 0%nat) as Ho. { pose proof (occ_pos v out). destruct (occ v out); [done|]. exfalso. apply Hvo, H. lia. }
      assert (load D v = 0%nat) as Hl' by (rewrite (load_visit D u out v Hu HuD); lia).
      apply (sweep_ready _ _ _ Hs) in Hl'; [|done]. rewrite elem_of_cons in Hl'. naive_solver.
  - intros v. rewrite elem_of_app, elem_of_union, elem_of_singleton. intros [[Hv|[Hv _]%Hfr']|[->|Hv]]; [|by apply Hout|done|].
    + apply (sweep_inside _ _ _ Hs). left. by right.
    + apply (sweep_inside _ _ _ Hs). by right.
  - intros w v Hwv [->%elem_of_singleton|Hv]%elem_of_union; apply elem_of_union_r.
    + by eapply load_zero.
    + by eapply sweep_closed.
  - intros v [->%elem_of_singleton|Hv]%elem_of_union; [|by eapply sweep_acyclic]. intros Hc.
    apply tc_last in Hc as (p & Hup & Hpu). apply HuD. eapply closed_back; [apply Hs|exact Hup|]. by eapply load_zero.
Qed.

Context (Rerr : NativeError → S → Prop) (Htick : ∀ s, meets tick s (λ _ _, True) Rerr).

Lemma sweep_done D incoming :
  sweep D [] incoming → size D = n ↔ acyclic successors.
Proof.
  intros Hs. assert (D ⊆ list_to_set (seq 0 n)) as Hsub.
  { intros v Hv. apply elem_of_list_to_set, elem_of_seq. pose proof (sweep_inside _ _ _ Hs v (or_intror Hv)). lia. }
  assert (size (list_to_set (seq 0 n) : gset nat) = n) as Hn by (rewrite size_list_to_set, length_seq by apply NoDup_seq; done).
  split.
  - intros Hsz v Hc. apply (sweep_acyclic _ _ _ Hs v); [|done]. rewrite (set_subseteq_size_eq D (list_to_set (seq 0 n))) by (done || lia).
    apply elem_of_list_to_set, elem_of_seq. apply tc_first in Hc as (w & Hvw & _). apply edge_source in Hvw. lia.
  - intros Ha. rewrite <-Hn. f_equal. apply set_eq. intros v. split; [apply Hsub|]. intros Hv. apply elem_of_list_to_set, elem_of_seq in Hv.
    assert (sn (flip edge) v) as Hsn.
    { apply tc_finite_sn.
      - intros w Hw. apply (Ha w). by apply tc_back.
      - exists (seq 0 n). intros w Hw. apply elem_of_seq. apply tc_back, tc_first in Hw as (? & Hw & _). apply edge_source in Hw. lia. }
    induction Hsn as [v _ IH]. destruct (sweep_ready _ _ _ Hs v) as [_ Hready]; [lia|].
    destruct Hready as [[]%elem_of_nil|]; [|done]. apply load_zero. intros u Huv. apply IH; [done|]. apply edge_source in Huv. lia.
Qed.

Lemma kahn_loop_spec D frontier incoming fuel s :
  sweep D frontier incoming → (n - size D < fuel)%nat →
  meets (Hierarchy.kahn_loop tick underflow successors fuel frontier incoming (size D)) s
    (λ k _, k = n ↔ acyclic successors) Rerr.
Proof.
  revert D frontier incoming s. induction fuel as [|fuel IH]; intros D frontier incoming s Hs Hfuel; [lia|]. cbn [Hierarchy.kahn_loop].
  destruct frontier as [|u frontier]; [apply meets_ret; by eapply sweep_done|].
  eapply meets_bind; [apply Htick|]. intros [] s1 _.
  assert (u < n)%nat as Hu by (eapply sweep_inside; [done|left; left]). apply lookup_lt_is_Some in Hu as [out Hu].
  destruct (sweep_step D u frontier incoming out Hs Hu) as (incoming' & fresh & Hf & Hs').
  unfold index_or_crash. rewrite Hu. eapply meets_bind; [by apply (meets_ret out _ (λ o _, o = out))|]. intros ? s2 ->. rewrite Hf.
  eapply meets_bind; [by apply (meets_ret _ _ (λ r _, r = (incoming', frontier ++ fresh)))|]. intros ? s3 ->. cbn [fst snd].
  assert (u ∉ D) as HuD by (eapply sweep_fresh; [done|left]).
  assert (size ({[u]} ∪ D) = Datatypes.S (size D)) as <- by (rewrite size_union, size_singleton; [done|set_solver]).
  apply IH; [done|]. apply sweep_size in Hs'. rewrite size_union, size_singleton in * by set_solver. lia.
Qed.

Lemma elem_of_sources incoming v : v ∈ Hierarchy.sources incoming ↔ incoming !! v = Some 0%N.
Proof.
  unfold Hierarchy.sources. rewrite list_elem_of_bind. split.
  - intros ([i d] & Hv & (j & Hj)%list_elem_of_lookup_1). rewrite list_lookup_imap in Hj. destruct (incoming !! j) eqn:E; [|done].
    injection Hj as -> ->. cbn in Hv. destruct (d =? 0)%N eqn:Ed; [|by apply elem_of_nil in Hv]. apply N.eqb_eq in Ed as ->.
    by apply list_elem_of_singleton in Hv as ->.
  - intros Hv. exists (v, 0%N). split; [by left|]. apply list_elem_of_lookup. exists v. by rewrite list_lookup_imap, Hv.
Qed.

Lemma sources_NoDup incoming : NoDup (Hierarchy.sources incoming).
Proof.
  unfold Hierarchy.sources. pose proof (entries_NoDup ((λ _, []) <$> incoming)) as Hnd.
  assert ((imap pair ((λ _ : N, [] : list nat) <$> incoming)).*1 = (imap pair incoming).*1) as E.
  { rewrite imap_fmap, !fmap_imap. by apply imap_ext. }
  rewrite E in Hnd. clear E. induction (imap pair incoming) as [|[i d] l IH]; cbn; [constructor|]. apply NoDup_cons in Hnd as [Hi Hnd].
  destruct (d =? 0)%N; cbn; [|by apply IH]. constructor; [|by apply IH]. intros ([j d'] & Hj & Hin)%list_elem_of_bind.
  cbn in Hj. destruct (d' =? 0)%N; [|by apply elem_of_nil in Hj]. apply list_elem_of_singleton in Hj as ->. apply Hi.
  apply list_elem_of_fmap. by exists (j, d').
Qed.

(** The number of processed nodes tells whether the graph has a cycle. *)
Lemma kahn_spec incoming s :
  length incoming = n → (∀ v, (v < n)%nat → incoming !! v = Some (N.of_nat (load ∅ v))) →
  meets (Hierarchy.kahn tick underflow successors incoming) s (λ k _, k = n ↔ acyclic successors) Rerr.
Proof.
  intros Hlen Hload. unfold Hierarchy.kahn. rewrite <-(size_empty (C:=gset nat)). apply kahn_loop_spec; [|rewrite size_empty; lia]. split.
  - done.
  - apply sources_NoDup.
  - set_solver.
  - intros v Hv. rewrite elem_of_sources, Hload by done. split; [intros [[= ?]|?]; [lia|set_solver]|]. intros ->. by left.
  - intros v [Hv%elem_of_sources|Hv]; [|set_solver]. rewrite <-Hlen. by eapply lookup_lt_Some.
  - set_solver.
  - set_solver.
Qed.
End kahn.

(** ** The search for a target *)

Lemma elem_of_rev {A} (x : A) l : x ∈ rev l ↔ x ∈ l.
Proof. rewrite !list_elem_of_In. symmetry. apply in_rev. Qed.

Section reaches.
Context (successors : list (list nat)) (Hclosed : closed_graph successors) (target : nat) (start : list nat).
Abbreviation n := (length successors).
Abbreviation edge := (edge successors).

(** [V] are the nodes whose successors were pushed. *)
Record reaching (V : gset nat) (stack : list nat) (seen : list bool) : Prop := {
  reach_seen v : (v < n)%nat → seen !! v = Some (bool_decide (v ∈ V));
  reach_inside v : v ∈ stack ∨ v ∈ V → (v < n)%nat ∧ ∃ s, s ∈ start ∧ rtc edge s v;
  reach_closed u v : u ∈ V → edge u v → v ∈ stack ∨ v ∈ V;
  reach_start s : s ∈ start → s ∈ stack ∨ s ∈ V;
  reach_target : target ∉ V
}.

Definition reachable : Prop := ∃ s, s ∈ start ∧ rtc edge s target.

Lemma closed_forward (V : gset nat) u v : (∀ u v, u ∈ V → edge u v → v ∈ V) → rtc edge u v → u ∈ V → v ∈ V.
Proof. intros Hc. induction 1 as [|u w v Huw _ IH]; [done|]. intros Hu. by eapply IH, Hc. Qed.

Lemma reaches_loop_spec fuel V stack seen :
  reaching V stack seen →
  (length stack + sum_list_with (unvisited length V) (imap pair successors) < fuel)%nat →
  ∃ b, Hierarchy.reaches_loop successors target fuel stack seen = Ok b ∧ (b = true ↔ reachable).
Proof.
  revert V stack seen. induction fuel as [|fuel IH]; intros V stack seen Hr Hfuel; [lia|]. destruct stack as [|u stack]; cbn [Hierarchy.reaches_loop].
  - exists false. split; [done|]. split; [done|]. intros (s & Hs & Hp). exfalso. apply (reach_target _ _ _ Hr).
    assert (s ∈ V) as HV by (by destruct (reach_start _ _ _ Hr s Hs) as [[]%elem_of_nil|]).
    eapply closed_forward; [|exact Hp|exact HV]. intros u v Hu Huv. by destruct (reach_closed _ _ _ Hr u v Hu Huv) as [[]%elem_of_nil|].
  - destruct (reach_inside _ _ _ Hr u) as [Hu Hpath]; [left; left|]. destruct (u =? target)%nat eqn:Et.
    { apply Nat.eqb_eq in Et as ->. exists true. split; [done|]. done. }
    apply Nat.eqb_neq in Et. unfold index_or_crash. rewrite (reach_seen _ _ _ Hr u Hu). cbn [mbind outcome_bind length] in *.
    case_bool_decide as HV.
    + apply (IH V); [|lia]. destruct Hr as [H1 H2 H3 H4 H5]. split; [done| | | |done].
      * intros v Hv. apply H2. rewrite elem_of_cons. tauto.
      * intros w v Hw Hwv. destruct (H3 w v Hw Hwv) as [[->|]%elem_of_cons|]; auto.
      * intros s Hs. destruct (H4 s Hs) as [[->|]%elem_of_cons|]; auto.
    + apply lookup_lt_is_Some in Hu as [out Eout]. rewrite Eout. apply (IH ({[u]} ∪ V)).
      * destruct Hr as [H1 H2 H3 H4 H5]. split.
        -- intros v Hv. destruct (decide (u = v)) as [->|Hne].
           ++ rewrite list_lookup_insert_eq; [by rewrite bool_decide_eq_true_2 by set_solver|]. eapply lookup_lt_Some, H1. done.
           ++ rewrite list_lookup_insert_ne, H1 by done. f_equal. apply bool_decide_ext. set_solver.
        -- intros v. rewrite elem_of_app, elem_of_rev, elem_of_union, elem_of_singleton. intros Hv.
           assert (v ∈ out ∨ v ∈ u :: stack ∨ v ∈ V) as [Ho|Ho] by (rewrite elem_of_cons; tauto); [|by apply H2].
           assert (edge u v) as Huv by (by exists out). split; [by apply (Hclosed u)|].
           destruct (H2 u) as (_ & s & Hs & Hsu); [left; left|]. exists s. split; [done|]. by eapply rtc_r.
        -- intros w v. rewrite elem_of_app, elem_of_rev, elem_of_union, elem_of_singleton. intros [->|Hw].
           ++ intros (out' & E' & Hv). rewrite Eout in E'. injection E' as <-. auto.
           ++ intros Hwv. destruct (H3 w v Hw Hwv) as [[->|]%elem_of_cons|]; set_solver.
        -- intros s Hs. rewrite elem_of_app, elem_of_union, elem_of_singleton. destruct (H4 s Hs) as [[->|]%elem_of_cons|]; auto.
        -- set_solver.
      * pose proof (weight_visit length (imap pair successors) V u out (entries_NoDup _) (proj2 (elem_of_entries _ _ _) Eout) HV).
        rewrite length_app, length_rev. lia.
Qed.

Lemma weight_all (l : list (nat * list nat)) : sum_list_with (unvisited length ∅) l = length (concat l.*2).
Proof. induction l as [|[k out] l IH]; cbn; [done|]. rewrite length_app, IH. unfold unvisited. cbn. by rewrite decide_False by set_solver. Qed.

Lemma reaches_spec :
  (∀ s, s ∈ start → (s < n)%nat) →
  ∃ b, Hierarchy.reaches successors target start = Ok b ∧ (b = true ↔ reachable).
Proof.
  intros Hin. unfold Hierarchy.reaches. apply (reaches_loop_spec _ ∅).
  - split.
    + intros v Hv. rewrite lookup_replicate_2 by done. by rewrite bool_decide_eq_false_2 by set_solver.
    + intros v [Hv|Hv]; [rewrite elem_of_rev in Hv|set_solver]. split; [by apply Hin|]. exists v. split; [done|apply rtc_refl].
    + set_solver.
    + intros s Hs. left. by apply elem_of_rev.
    + set_solver.
  - rewrite length_rev, weight_all. assert ((imap pair successors).*2 = successors) as ->; [|lia].
    rewrite fmap_imap. apply list_eq. intros i. rewrite list_lookup_imap. by destruct (successors !! i).
Qed.
End reaches.

(** * The audit of a hierarchy accepts exactly the sound ones

    What [HierarchyIds::validate] accepts: nodes and edges in canonical order, no
    element twice, no cycle, no edge that other edges imply. *)

Import Hierarchy.

(** The node is a child of the other. *)
Definition hedge (h : HierarchyIds) (i j : nat) : Prop := (N.of_nat i, N.of_nat j) ∈ h_edges h.

Record audited (h : HierarchyIds) : Prop := {
  au_nonempty : h_nodes h ≠ [] ∧ Forall (λ node, node ≠ []) (h_nodes h);
  au_count : N.of_nat (length (h_nodes h)) ≤ u32_max;
  au_nodes : StronglySorted ord_lt (h_nodes h);
  au_members : Forall (StronglySorted ord_lt) (h_nodes h);
  au_partition : NoDup (concat (h_nodes h));
  au_ends : h_top_node h < N.of_nat (length (h_nodes h)) ∧ h_bottom_node h < N.of_nat (length (h_nodes h));
  au_edges : StronglySorted ord_lt (h_edges h);
  au_inside e : e ∈ h_edges h → e.1 < N.of_nat (length (h_nodes h)) ∧ e.2 < N.of_nat (length (h_nodes h));
  au_acyclic i : ¬ tc (hedge h) i i;
  au_reduced i j k : hedge h i j → hedge h i k → k ≠ j → ¬ rtc (hedge h) k j
}.

(** ** Members *)

Lemma insert_members_iff node ms ms' :
  insert_members node ms = Some ms' ↔ NoDup node ∧ (∀ x, x ∈ node → x ∉ ms) ∧ ms' = list_to_set node ∪ ms.
Proof.
  revert ms. induction node as [|x node IH]; intros ms; cbn.
  - split; [intros [= <-]; split_and!; [constructor|set_solver|set_solver]|]. intros (_ & _ & ->). f_equal. set_solver.
  - rewrite NoDup_cons. case_bool_decide as Hx; [set_solver|]. rewrite IH. split.
    + intros (Hnd & Hd & ->). split_and!; [set_solver|done|set_solver|set_solver].
    + intros ([Hx' Hnd] & Hd & ->). split_and!; [done| |set_solver]. intros y Hy. rewrite elem_of_union, elem_of_singleton.
      intros [->|?]; [done|]. eapply Hd; [|done]. by right.
Qed.

Lemma check_nodes_iff nodes ms :
  (∃ ms', foldM check_node nodes ms = Ok ms') ↔
  Forall (StronglySorted ord_lt) nodes ∧ NoDup (concat nodes) ∧ ∀ x, x ∈ concat nodes → x ∉ ms.
Proof.
  revert ms. induction nodes as [|node nodes IH]; intros ms; cbn [foldM concat].
  - split; [|by intros _; eexists]. intros _. split_and!; [constructor|constructor|set_solver].
  - rewrite Forall_cons, NoDup_app. setoid_rewrite elem_of_app. split.
    + intros (ms' & Hf). inv_ok. unfold check_node in *. inv_ok.
      match goal with H : negb _ = false |- _ => apply negb_false_iff, strictly_ascending_spec in H end.
      match goal with H : insert_members _ _ = _ |- _ => apply insert_members_iff in H as (Hnd & Hd & ->) end.
      destruct (proj1 (IH _) (ex_intro _ _ Hf)) as (Hs & Hnd' & Hd'). split_and!; [done|done|done| |done|].
      * intros x Hx Hx'. apply (Hd' x Hx'). set_solver.
      * intros x [Hx|Hx]; [by apply Hd|]. specialize (Hd' x Hx). set_solver.
    + intros ([Hn Hs] & (Hnd & Hdis & Hnd') & Hd). unfold check_node. rewrite (proj2 (strictly_ascending_spec _) Hn). cbn.
      assert (insert_members node ms = Some (list_to_set node ∪ ms)) as ->; [apply insert_members_iff; split_and!; auto|]. cbn.
      apply IH. split_and!; [done|done|]. intros x Hx. rewrite elem_of_union, elem_of_list_to_set. intros [Hx'|Hx'].
      * by eapply Hdis.
      * by eapply Hd; [right|].
Qed.

(** ** The graph *)

Lemma sum_list_with_fmap {A} (f : A → nat) l : sum_list_with f l = sum_list (f <$> l).
Proof. induction l as [|x l IH]; cbn; [done|by rewrite IH]. Qed.

Lemma sum_list_with_ext {A} (f : A → nat) l k : f <$> l = f <$> k → sum_list_with f l = sum_list_with f k.
Proof. intros E. rewrite (sum_list_with_fmap f l), (sum_list_with_fmap f k). by rewrite E. Qed.

Lemma load_extend successors c p out v :
  successors !! c = Some out →
  load (alter (λ l, l ++ [p]) c successors) ∅ v = (load successors ∅ v + (if decide (p = v) then 1 else 0))%nat.
Proof.
  intros Hc. set (successors' := alter (λ l, l ++ [p]) c successors).
  assert (successors' !! c = Some (out ++ [p])) as Hc' by (unfold successors'; rewrite list_lookup_alter_eq, Hc; done).
  rewrite (load_visit successors' ∅ c _ v Hc'), (load_visit successors ∅ c _ v Hc) by set_solver.
  assert (occ v (out ++ [p]) = (occ v out + (if decide (p = v) then 1 else 0))%nat) as ->.
  { unfold occ. rewrite count_occ_app. cbn. destruct (Nat.eq_dec p v), (decide (p = v)); done. }
  assert (load successors' ({[c]} ∪ ∅) v = load successors ({[c]} ∪ ∅) v) as ->; [|lia].
  unfold load, successors'. clear Hc'. apply sum_list_with_ext, list_eq. intros i.
  rewrite !list_lookup_fmap, !list_lookup_imap. destruct (decide (i = c)) as [->|Hne].
  - rewrite list_lookup_alter_eq, Hc. cbn. unfold unvisited. cbn. by rewrite !decide_True by set_solver.
  - by rewrite list_lookup_alter_ne.
Qed.

(** A node is entered at most once from each other. *)
Lemma load_bound successors v :
  Forall NoDup successors → (load successors ∅ v ≤ length successors)%nat.
Proof.
  intros Hnd. unfold load. rewrite sum_list_with_fmap.
  assert (Forall (λ k, k ≤ 1)%nat (unvisited (occ v) ∅ <$> imap pair successors)) as Hle.
  { apply Forall_fmap, Forall_forall. intros [u out] Hu%elem_of_entries. rewrite Forall_lookup in Hnd. specialize (Hnd u out Hu).
    unfold unvisited. cbn. case_decide; [lia|]. apply NoDup_ListNoDup in Hnd. by apply (proj1 (NoDup_count_occ Nat.eq_dec out)). }
  rewrite <-(length_imap (B:=nat * list nat) pair successors), <-(length_fmap (unvisited (occ v) ∅)).
  induction Hle; cbn; lia.
Qed.

Section graph.
Context (count : nat) (Hcount : N.of_nat count ≤ u32_max).

(** The graph of the edges so far. *)
Record graph_of (es : list (N * N)) (g : list (list nat) * list N) : Prop := {
  gr_length : length g.1 = count ∧ length g.2 = count;
  gr_edge u v : edge g.1 u v ↔ (N.of_nat u, N.of_nat v) ∈ es;
  gr_NoDup : Forall NoDup g.1;
  gr_incoming v : (v < count)%nat → g.2 !! v = Some (N.of_nat (load g.1 ∅ v))
}.

Definition proper_edge (e : N * N) : Prop := e.1 < N.of_nat count ∧ e.2 < N.of_nat count ∧ e.1 ≠ e.2.

Lemma graph_empty : graph_of [] (replicate count [], replicate count 0%N).
Proof.
  assert (∀ u v, ¬ edge (replicate count []) u v) as Hno. { intros u v (out & [-> _]%lookup_replicate & []%elem_of_nil). }
  split; cbn [fst snd].
  - by rewrite !length_replicate.
  - intros u v. split; [by intros ?%Hno|by intros ?%elem_of_nil].
  - apply Forall_replicate. constructor.
  - intros v Hv. rewrite lookup_replicate_2 by done. assert (load (replicate count []) ∅ v = 0%nat) as ->; [|done].
    apply load_zero. by intros u ?%Hno.
Qed.

Lemma add_edge_spec es g e :
  graph_of es g → proper_edge e → e ∉ es → ∃ g', add_edge (N.of_nat count) g e = Ok g' ∧ graph_of (es ++ [e]) g'.
Proof.
  intros Hg (H1 & H2 & Hne) Hnew. destruct e as [c p]. destruct g as [ss inc]. destruct Hg as [[L1 L2] He Hnd Hin]. cbn [fst snd] in *.
  assert (N.to_nat c < length ss)%nat as [out Eout]%lookup_lt_is_Some by lia.
  unfold add_edge. cbn [fst snd]. rewrite (proj2 (N.leb_gt _ c)), (proj2 (N.leb_gt _ p)), (proj2 (N.eqb_neq c p)) by done. cbn.
  unfold index_or_crash. rewrite Hin by lia. cbn. set (ss' := alter (λ l, l ++ [N.to_nat p]) (N.to_nat c) ss).
  assert (ss' !! N.to_nat c = Some (out ++ [N.to_nat p])) as Ec by (unfold ss'; rewrite list_lookup_alter_eq, Eout; done).
  assert (∀ u, u ≠ N.to_nat c → ss' !! u = ss !! u) as En by (intros u ?; unfold ss'; by rewrite list_lookup_alter_ne).
  assert (Forall NoDup ss') as Hnd'.
  { apply Forall_lookup. intros u o Hu. rewrite Forall_lookup in Hnd. destruct (decide (u = N.to_nat c)) as [->|Hu'].
    - rewrite Ec in Hu. injection Hu as <-. apply NoDup_app. split_and!; [by eapply Hnd| |apply NoDup_singleton].
      intros v Hv ->%list_elem_of_singleton. apply Hnew. rewrite <-(N2Nat.id c), <-(N2Nat.id p). apply He. by exists out.
    - rewrite En in Hu by done. by eapply Hnd. }
  assert (∀ v, load ss' ∅ v = (load ss ∅ v + (if decide (N.to_nat p = v) then 1 else 0))%nat) as Hl by (intros v; by eapply load_extend).
  assert (length ss' = count) as L1' by (unfold ss'; by rewrite length_alter).
  assert (checked_add u32_max (N.of_nat (load ss ∅ (N.to_nat p))) 1 = Some (N.of_nat (load ss ∅ (N.to_nat p)) + 1)%N) as ->.
  { apply checked_add_Some. split; [done|]. pose proof (load_bound ss' (N.to_nat p) Hnd') as Hb. rewrite Hl, decide_True in Hb by done. lia. }
  cbn. eexists. split; [done|]. split; cbn [fst snd].
  - rewrite length_insert. done.
  - intros u v. rewrite elem_of_app, list_elem_of_singleton, <-He. unfold edge. destruct (decide (u = N.to_nat c)) as [->|Hu].
    + fold ss'. rewrite Ec, Eout. split.
      * intros (o & [= <-] & [Hv|Hv%list_elem_of_singleton]%elem_of_app); [left; eauto|right]. subst v. by rewrite !N2Nat.id.
      * intros [(o & [= <-] & Hv)|[= Hc Hp]]; eexists; (split; [done|]); apply elem_of_app; [by left|right].
        apply list_elem_of_singleton. lia.
    + fold ss'. rewrite En by done. split; [by left|]. intros [?|[= Hc Hp]]; [done|]. lia.
  - done.
  - intros v Hv. fold ss'. rewrite Hl. destruct (decide (N.to_nat p = v)) as [<-|Hpv].
    + rewrite list_lookup_insert_eq by lia. f_equal. lia.
    + rewrite list_lookup_insert_ne, Hin by done. f_equal. lia.
Qed.

Lemma add_edges_spec es es' g :
  graph_of es g → Forall proper_edge es' → NoDup (es ++ es') →
  ∃ g', foldM (add_edge (N.of_nat count)) es' g = Ok g' ∧ graph_of (es ++ es') g'.
Proof.
  revert es g. induction es' as [|e es' IH]; intros es g Hg Hp Hnd; cbn [foldM].
  { exists g. by rewrite app_nil_r. }
  apply Forall_cons in Hp as [He Hp]. destruct (add_edge_spec es g e Hg He) as (g1 & -> & Hg1).
  { apply NoDup_app in Hnd as (_ & Hd & _). intros Hin. apply (Hd e Hin). left. }
  cbn. rewrite cons_middle, app_assoc in Hnd |- *. by apply IH.
Qed.

Lemma add_edges_proper es g g' : foldM (add_edge (N.of_nat count)) es g = Ok g' → Forall proper_edge es.
Proof.
  revert g. induction es as [|e es IH]; intros g Hf; [constructor|]. cbn in Hf. inv_ok. unfold add_edge in *. inv_ok.
  constructor; [|by eapply IH]. unfold proper_edge. 
  match goal with H : _ || _ = false |- _ => apply orb_false_iff in H as [[?%N.leb_gt ?%N.leb_gt]%orb_false_iff ?%N.eqb_neq] end. done.
Qed.
End graph.

(** ** Redundant edges *)

Lemma check_redundant_iff successors direct t :
  closed_graph successors → (∀ v, v ∈ direct → (v < length successors)%nat) →
  check_redundant successors direct t = Ok tt ↔ ∀ k, k ∈ direct → k ≠ t → ¬ rtc (edge successors) k t.
Proof.
  intros Hc Hd. unfold check_redundant.
  destruct (reaches_spec successors Hc t (filter (λ c, c ≠ t) direct)) as (b & -> & Hb).
  { intros s [_ Hs]%list_elem_of_filter. auto. }
  cbn. rewrite reject_if_Ok, <-not_true_iff_false, Hb. unfold reachable. setoid_rewrite list_elem_of_filter. naive_solver.
Qed.

Lemma check_direct_iff successors direct :
  closed_graph successors → (∀ v, v ∈ direct → (v < length successors)%nat) →
  check_direct successors direct = Ok tt ↔ ∀ t k, t ∈ direct → k ∈ direct → k ≠ t → ¬ rtc (edge successors) k t.
Proof.
  intros Hc Hd. unfold check_direct. destruct (length direct <? 2)%nat eqn:El.
  - apply Nat.ltb_lt in El. split; [|done]. intros _ t k Ht Hk. destruct direct as [|x [|y l]]; [by apply elem_of_nil in Ht| |cbn in El; lia].
    apply list_elem_of_singleton in Ht, Hk. congruence.
  - rewrite iterM_Ok, Forall_forall. split.
    + intros Hall t k Ht. by apply check_redundant_iff, Hall.
    + intros Hall t Ht. apply check_redundant_iff; eauto.
Qed.

(** ** The audit *)

Lemma audited_edges h : audited h → Forall (proper_edge (length (h_nodes h))) (h_edges h).
Proof.
  intros Ha. apply Forall_forall. intros [c p] He. destruct (au_inside _ Ha _ He). unfold proper_edge. split_and!; [done|done|].
  cbn. intros ->. apply (au_acyclic _ Ha (N.to_nat p)), tc_once. unfold hedge. by rewrite N2Nat.id.
Qed.

Lemma graph_closed count es g : graph_of count es g → Forall (proper_edge count) es → closed_graph g.1.
Proof.
  intros [[L1 L2] He Hnd Hin] Hp u v Huv%He. rewrite Forall_forall in Hp. destruct (Hp _ Huv) as (_ & Hv & _). cbn in Hv. rewrite L1. lia.
Qed.

(** The checks of the graph, on the graph of the edges. *)
Lemma graph_checks h g underflow :
  graph_of (length (h_nodes h)) (h_edges h) g → Forall (proper_edge (length (h_nodes h))) (h_edges h) →
  ∃ k, (kahn (mret tt) underflow g.1 g.2 tt).1 = Ok k ∧ (k = length (h_nodes h) ↔ ∀ i, ¬ tc (hedge h) i i) ∧
    (iterM (check_direct g.1) g.1 = Ok tt ↔ ∀ i j k, hedge h i j → hedge h i k → k ≠ j → ¬ rtc (hedge h) k j).
Proof.
  intros Hg Hp. pose proof (graph_closed _ _ _ Hg Hp) as Hc. destruct Hg as [[L1 L2] He Hnd Hin].
  assert (∀ u v, edge g.1 u v ↔ hedge h u v) as Hedge by apply He.
  assert (∀ k t, rtc (edge g.1) k t ↔ rtc (hedge h) k t) as Hrtc.
  { intros k t. split; apply rtc_subrel; intros ??; apply Hedge. }
  assert (∀ k t, tc (edge g.1) k t ↔ tc (hedge h) k t) as Htc.
  { intros k t. split; apply (tc_congruence (λ x, x)); intros ??; apply Hedge. }
  pose proof (kahn_spec (mret tt) underflow g.1 Hc (λ _ _, False) (λ s, I) g.2 tt) as Hk. rewrite L1 in Hk. specialize (Hk L2 Hin).
  unfold meets in Hk. destruct (kahn _ _ _ _ _) as [[k|e|] []]; [|done|done]. exists k. split_and!; [done| |].
  - rewrite Hk. unfold acyclic. by setoid_rewrite Htc.
  - rewrite iterM_Ok, Forall_lookup. split.
    + intros Hall i j k' Hij%Hedge Hik%Hedge Hne. rewrite <-Hrtc. destruct Hij as (out & Hi & Hj), Hik as (out' & Hi' & Hk').
      rewrite Hi in Hi'. injection Hi' as <-. specialize (Hall i out Hi). rewrite check_direct_iff in Hall; [by apply Hall|done|].
      intros v Hv. apply (Hc i). by exists out.
    + intros Hall i out Hi. apply check_direct_iff; [done|intros v Hv; apply (Hc i); by exists out|].
      intros t k' Ht Hk' Hne. rewrite Hrtc. apply (Hall i); [| |done]; apply Hedge; by exists out.
Qed.

Lemma nodes_checks h :
  bool_decide (h_nodes h = []) || existsb (λ node, bool_decide (node = [])) (h_nodes h) = false ↔
  h_nodes h ≠ [] ∧ Forall (λ node, node ≠ []) (h_nodes h).
Proof.
  rewrite orb_false_iff, bool_decide_eq_false. apply and_iff_compat_l. rewrite <-not_true_iff_false, existsb_exists, Forall_forall.
  setoid_rewrite <-list_elem_of_In. setoid_rewrite bool_decide_eq_true. naive_solver.
Qed.

Lemma validate_iff h : validate h = Ok tt ↔ audited h.
Proof.
  unfold validate. split.
  - intros ([] & Hne%reject_if_Ok%nodes_checks & Hv)%outcome_bind_Ok.
    apply outcome_bind_Ok in Hv as ([] & Hns%reject_if_Ok%negb_false_iff%strictly_ascending_spec & Hv).
    apply outcome_bind_Ok in Hv as (ms & Hms & Hv).
    apply outcome_bind_Ok in Hv as (count & [-> Hcount]%ok_or_Ok%u32_try_from_Some & Hv).
    apply outcome_bind_Ok in Hv as ([] & [Htop%N.leb_gt Hbot%N.leb_gt]%reject_if_Ok%orb_false_iff & Hv).
    apply outcome_bind_Ok in Hv as ([] & Hes%reject_if_Ok%negb_false_iff%strictly_ascending_spec & Hv).
    apply outcome_bind_Ok in Hv as (g & Hg & Hv).
    destruct (proj1 (check_nodes_iff _ _) (ex_intro _ ms Hms)) as (Hsorted & Hpart & _).
    pose proof (add_edges_proper _ _ _ _ Hg) as Hp.
    destruct (add_edges_spec _ Hcount [] (h_edges h) _ (graph_empty _) Hp (StronglySorted_lt_NoDup _ Hes)) as (g' & Hg' & Hgr).
    cbn [app] in *. rewrite Hg in Hg'. injection Hg' as <-.
    destruct (graph_checks h g (NativeErr.invariant "hierarchy in-degree accounting underflow") Hgr Hp) as (k & Hk & Hcyc & Hred).
    destruct g as [ss inc]. cbn [fst snd] in *. rewrite Hk in Hv. cbn in Hv.
    apply outcome_bind_Ok in Hv as ([] & Hkn%reject_if_Ok%negb_false_iff%Nat.eqb_eq & Hv). rewrite Hred in Hv.
    split; try done; [|by apply Hcyc]. intros e He. rewrite Forall_forall in Hp. by destruct (Hp e He) as (? & ? & _).
  - intros Ha. pose proof (audited_edges h Ha) as Hp. destruct Ha as [Hne Hcount Hns Hsorted Hpart [Htop Hbot] Hes Hin Hcyc Hred].
    rewrite (proj2 (nodes_checks h) Hne), (proj2 (strictly_ascending_spec _) Hns). cbn [negb reject_if]. rewrite !bind_Ok_l.
    destruct (proj2 (check_nodes_iff (h_nodes h) ∅)) as [ms ->]; [split_and!; [done|done|set_solver]|]. rewrite bind_Ok_l.
    rewrite (proj2 (u32_try_from_Some _ _) (conj eq_refl Hcount)). cbn [ok_or]. rewrite bind_Ok_l.
    rewrite (proj2 (N.leb_gt _ _) Htop), (proj2 (N.leb_gt _ _) Hbot), (proj2 (strictly_ascending_spec _) Hes).
    cbn [orb negb reject_if]. rewrite !bind_Ok_l.
    destruct (add_edges_spec _ Hcount [] (h_edges h) _ (graph_empty _) Hp (StronglySorted_lt_NoDup _ Hes)) as (g & -> & Hgr).
    destruct (graph_checks h g (NativeErr.invariant "hierarchy in-degree accounting underflow") Hgr Hp) as (k & Hk & Hcyc' & Hred').
    destruct g as [ss inc]. rewrite bind_Ok_l. cbn [fst snd] in *. rewrite Hk, bind_Ok_l, (proj2 Hcyc' Hcyc), Nat.eqb_refl.
    cbn [negb reject_if]. rewrite bind_Ok_l. by apply Hred'.
Qed.

(** ** The audit returns *)

Section returns.
Context {Er : Type}.

Lemma bind_returns {A B} (m : outcome Er A) (f : A → outcome Er B) :
  m ≠ Crash → (∀ x, m = Ok x → f x ≠ Crash) → m ≫= f ≠ Crash.
Proof. destruct m; [|done|done]. intros _ Hf. by apply Hf. Qed.

Lemma reject_returns b (e : Er) : reject_if b e ≠ Crash.
Proof. by destruct b. Qed.

Lemma ok_or_returns {A} (o : option A) (e : Er) : ok_or o e ≠ Crash.
Proof. by destruct o. Qed.

Lemma iterM_returns {A} (f : A → outcome Er unit) l : (∀ x, x ∈ l → f x ≠ Crash) → iterM f l ≠ Crash.
Proof.
  induction l as [|x l IH]; intros Hf; cbn; [done|]. apply bind_returns; [apply Hf; left|]. intros [] _. apply IH. intros y Hy. apply Hf. by right.
Qed.

Lemma foldM_returns {A B} (f : B → A → outcome Er B) l (I : B → Prop) b :
  (∀ b x, I b → x ∈ l → f b x ≠ Crash ∧ ∀ b', f b x = Ok b' → I b') → I b → foldM f l b ≠ Crash.
Proof.
  revert b. induction l as [|x l IH]; intros b Hf Hb; cbn; [done|]. destruct (Hf b x Hb) as [Hx Hx']; [left|].
  apply bind_returns; [done|]. intros b' Hb'. apply IH; [|by apply Hx']. intros b2 y Hb2 Hy. apply Hf; [done|by right].
Qed.
End returns.

Lemma check_node_returns ms node : check_node ms node ≠ Crash.
Proof. apply bind_returns; [apply reject_returns|]. intros. apply ok_or_returns. Qed.

Lemma add_edge_returns count g e :
  length g.2 = count → add_edge (N.of_nat count) g e ≠ Crash ∧ ∀ g', add_edge (N.of_nat count) g e = Ok g' → length g'.2 = count.
Proof.
  intros Hg. unfold add_edge. split.
  - apply bind_returns; [apply reject_returns|]. intros _ [[_ Hp%N.leb_gt]%orb_false_iff _]%reject_if_Ok%orb_false_iff. apply bind_returns.
    + unfold index_or_crash. by destruct (lookup_lt_is_Some_2 g.2 (N.to_nat e.2)) as [d ->]; [lia|].
    + intros d _. apply bind_returns; [apply ok_or_returns|done].
  - intros g' Hg'. inv_ok. cbn. by rewrite length_insert.
Qed.

Lemma validate_returns h : validate h ≠ Crash.
Proof.
  unfold validate. apply bind_returns; [apply reject_returns|intros _ _]. apply bind_returns; [apply reject_returns|intros _ _].
  apply bind_returns; [|intros _ _].
  { apply (foldM_returns _ _ (λ _, True)); [|done]. intros ms node _ _. split; [apply check_node_returns|done]. }
  apply bind_returns; [apply ok_or_returns|]. intros count [-> Hcount]%ok_or_Ok%u32_try_from_Some.
  apply bind_returns; [apply reject_returns|intros _ _]. apply bind_returns; [apply reject_returns|].
  intros _ Hes%reject_if_Ok%negb_false_iff%strictly_ascending_spec. apply bind_returns.
  { apply (foldM_returns _ _ (λ g, length g.2 = length (h_nodes h))); [|cbn; by rewrite length_replicate].
    intros g e Hg _. by apply add_edge_returns. }
  intros g Hg. pose proof (add_edges_proper _ _ _ _ Hg) as Hp.
  destruct (add_edges_spec _ Hcount [] (h_edges h) _ (graph_empty _) Hp (StronglySorted_lt_NoDup _ Hes)) as (g' & Hg' & Hgr).
  cbn [app] in *. rewrite Hg in Hg'. injection Hg' as <-.
  destruct (graph_checks h g (NativeErr.invariant "hierarchy in-degree accounting underflow") Hgr Hp) as (k & Hk & _).
  pose proof (graph_closed _ _ _ Hgr Hp) as Hc. destruct g as [ss inc]. cbn [fst snd] in *. rewrite Hk, bind_Ok_l.
  apply bind_returns; [apply reject_returns|intros _ _]. apply iterM_returns. intros direct [i Hi]%list_elem_of_lookup_1.
  assert (∀ v, v ∈ direct → (v < length ss)%nat) as Hd. { intros v Hv. apply (Hc i). by exists direct. }
  unfold check_direct. destruct (_ <? _)%nat; [done|]. apply iterM_returns. intros t _. unfold check_redundant.
  destruct (reaches_spec ss Hc t (filter (λ c, c ≠ t) direct)) as (b & -> & _); [|apply reject_returns].
  intros s [_ Hs]%list_elem_of_filter. auto.
Qed.
