(* ===== verification/Classify.v ===== *)
(** * Classification (native/src/services/classification.rs)

    A taxonomy is built by inserting one element after the other: a search down
    from the top finds its parents, a search up from the bottom its children, with
    subsumptions asked in batches of an oracle that caches answers and closes them
    transitively.  Where the told relation is complete, its strongly connected
    components are collapsed instead. *)

From S2P Require Import Prelude Order Errors Cancel Hierarchy.
Import NativeErr.

Record ClassificationStatistics := mkClassificationStatistics {
  cs_elements : N;
  cs_semantic_tests : N;
  cs_batches : N;
  cs_cache_hits : N;
  cs_known_subsumptions : N;
  cs_possible_subsumptions : N
}.

Record ClassificationResult := mkClassification {
  cn_hierarchy : HierarchyIds;
  cn_statistics : ClassificationStatistics
}.

Record ClassificationProblem := mkProblem {
  pb_elements : list N;
  pb_top : N;
  pb_bottom : N;
  pb_known : list (N * N);
  pb_known_complete : bool;
  pb_mode : ClassificationMode;
  pb_limits : ClassificationLimits
}.

(** The mutable part of [Oracle]. *)
Record Oracle := mkOracle {
  ora_known : gset (N * N);
  ora_successors : gmap N (gset N);
  ora_cache : gmap (N * N) bool;
  ora_possible : gset (N * N);
  ora_semantic_tests : N;
  ora_batches : N;
  ora_cache_hits : N
}.

#[global] Instance Oracle_eta : Eta Oracle := λ o,
  mkOracle (ora_known o) (ora_successors o) (ora_cache o) (ora_possible o) (ora_semantic_tests o) (ora_batches o) (ora_cache_hits o).

Record MutableHierarchy := mkMutable {
  mh_top_node : nat;
  mh_bottom_node : nat;
  mh_members : list (gset N);
  mh_edges : gset (nat * nat)
}.

#[global] Instance MutableHierarchy_eta : Eta MutableHierarchy := λ h,
  mkMutable (mh_top_node h) (mh_bottom_node h) (mh_members h) (mh_edges h).

(** The compiler's sizes of the types whose collections are estimated. *)
Record ClassificationLayout := mkClassificationLayout {
  size_element : N;
  size_element_set : N;
  size_relation : N;
  size_cached_relation : N
}.

Module Classify.

Definition found {A B} (r : A + B) : bool := match r with inl _ => true | inr _ => false end.

(** [elements.binary_search(x).is_ok()]. *)
Definition present (l : list N) (x : N) : bool := found (binary_search l x).

Definition validate_inputs (elements : list N) (top bottom : N) (known : list (N * N)) (limits : ClassificationLimits) : NativeResult unit :=
  _ ← reject_if ((length elements <? 2)%nat || negb (strictly_ascending elements))
    (wire "classification elements must be sorted, unique, and contain top and bottom");
  _ ← Hierarchy.check_count "max_elements" (N.of_nat (length elements)) (cl_max_elements limits);
  _ ← reject_if ((top =? bottom)%N || negb (present elements top) || negb (present elements bottom))
    (wire "classification requires distinct top and bottom IDs from the element domain");
  _ ← reject_if (negb (strictly_ascending known)) (wire "known classification relations must be sorted and unique");
  reject_if (existsb (λ r, negb (present elements r.1) || negb (present elements r.2)) known)
    (wire "known classification relation references an absent element").

Section layout.
Context (layout : ClassificationLayout).

Definition estimate_initial_memory (elements relations : nat) : N :=
  let mul a b := N.min u64_max (a * b) in
  saturating_add u64_max (mul (N.of_nat elements) (size_element layout + size_element_set layout))
    (mul (N.of_nat relations) (size_relation layout * 4)).

Definition estimate_oracle_memory (known cache possible : nat) : N :=
  let mul a b := N.min u64_max (a * b) in
  saturating_add u64_max (saturating_add u64_max (mul (N.of_nat known) (size_relation layout * 2))
    (mul (N.of_nat cache) (size_cached_relation layout * 2)))
    (mul (N.of_nat possible) (size_relation layout * 2)).
End layout.

(** ** The oracle *)

(** [known]'s parents of each element. *)
Fixpoint successors_of (known : list (N * N)) (successors : gmap N (gset N)) : NativeResult (gmap N (gset N)) :=
  match known with
  | [] => Ok successors
  | (child, parent) :: known =>
      out ← ok_or (successors !! child) (invariant "known child is absent");
      successors_of known (<[child := {[parent]} ∪ out]> successors)
  end.

Definition new_oracle (elements : list N) (known : gset (N * N)) : NativeResult Oracle :=
  let empty : gmap N (gset N) := foldl (λ m e, <[e := ∅]> m) ∅ elements in
  successors ← successors_of (btree_elements known) empty;
  Ok (mkOracle known successors (set_to_map (λ r, (r, true)) known) ∅ 0 0 0).

Definition child_counts (elements : list N) (o : Oracle) : gmap N N :=
  foldl (λ m r, alter (λ n, saturating_add u64_max n 1) r.1 m) (foldl (λ m e, <[e := 0]> m) ∅ elements)
    (btree_elements (ora_known o)).

Section oracle.
Context {C : Type} `{OperationControl C} (layout : ClassificationLayout) (mode : ClassificationMode) (limits : ClassificationLimits).
(** The tester: one answer per missing relation. *)
Context (tester : list (N * N) → st C NativeError (list bool)).

Abbreviation OM X := (st (C * Oracle) NativeError X).

Definition controlled {X} (m : st C NativeError X) : OM X := λ s, let '(r, c') := m s.1 in (r, (c', s.2)).
Definition upd_oracle (f : Oracle → Oracle) : OM unit := modify (λ s, (s.1, f s.2)).

(** The search of [is_known], the top of the stack first. *)
Fixpoint known_loop (parent : N) (fuel : nat) (frontier : list N) (visited : gset N) (steps : N) : OM bool :=
  match fuel with
  | O => lift Crash
  | S fuel =>
      match frontier with
      | [] => mret false
      | current :: frontier =>
          if (current =? parent)%N then mret true
          else if bool_decide (current ∈ visited) then known_loop parent fuel frontier visited steps
          else
            let visited := {[current]} ∪ visited in
            let steps := saturating_add u64_max steps 1 in
            _ ← (if (steps mod 1024 =? 0)%N then controlled control_poll else mret tt);
            s ← gets snd;
            out ← lift (ok_or (ora_successors s !! current) (invariant "classification closure reached an absent element"));
            known_loop parent fuel (filter (λ v, v ∉ visited) (btree_elements out) ++ frontier) visited steps
      end
  end.

(** Every stored relation is pushed at most once. *)
Definition is_known (child parent : N) : OM bool :=
  s ← gets snd;
  let relations := length (concat (btree_elements <$> btree_values (ora_successors s))) in
  known_loop parent (S (S relations)) [child] ∅ 0.

(** The loop that looks for relations without an answer. *)
Fixpoint missing_loop (relations missing : list (N * N)) : OM (list (N * N)) :=
  match relations with
  | [] => mret missing
  | relation :: relations =>
      s ← gets snd;
      let hit := upd_oracle (λ o, o <| ora_cache_hits ::= λ n, saturating_add u64_max n 1 |>) in
      if bool_decide (is_Some (ora_cache s !! relation)) then _ ← hit; missing_loop relations missing
      else
        is_known relation.1 relation.2 ≫= λ known : bool,
        if known then
          _ ← upd_oracle (λ o, o <| ora_cache ::= <[relation := true]> |>);
          _ ← hit;
          missing_loop relations missing
        else missing_loop relations (if bool_decide (relation ∈ missing) then missing else missing ++ [relation])
  end.

Definition add_known (relation : N * N) : OM unit :=
  s ← gets snd;
  _ ← lift (reject_if (bool_decide (ora_cache s !! relation = Some false))
    (invariant "classification tester returned contradictory subsumption results"));
  _ ← upd_oracle (λ o, o <| ora_known ::= λ k, {[relation]} ∪ k |>);
  out ← lift (ok_or (ora_successors s !! relation.1) (invariant "classification child disappeared"));
  _ ← upd_oracle (λ o, o <| ora_successors ::= <[relation.1 := {[relation.2]} ∪ out]> |>);
  upd_oracle (λ o, o <| ora_possible ::= λ p, p ∖ {[relation]} |> <| ora_cache ::= <[relation := true]> |>).

(** The answers of the tester are stored. *)
Fixpoint store_answers (answers : list ((N * N) * bool)) : OM unit :=
  match answers with
  | [] => mret tt
  | (relation, entailed) :: answers =>
      _ ← upd_oracle (λ o, o <| ora_cache ::= <[relation := entailed]> |> <| ora_possible ::= λ p, p ∖ {[relation]} |>);
      _ ← (if entailed then add_known relation else mret tt);
      store_answers answers
  end.

(** The batch for the tester. *)
Definition ask (missing : list (N * N)) : OM unit :=
  s ← gets snd;
  observed ← lift (ok_or (checked_add u64_max (ora_semantic_tests s) (N.of_nat (length missing)))
    (invariant "semantic-test counter overflow"));
  _ ← lift (Hierarchy.check_count "max_semantic_tests" observed (cl_max_semantic_tests limits));
  _ ← (if bool_decide (mode = QuasiOrder) then upd_oracle (λ o, o <| ora_possible ::= λ p, list_to_set missing ∪ p |>) else mret tt);
  outcomes ← controlled (tester missing);
  _ ← lift (reject_if (negb (length outcomes =? length missing)%nat)
    (invariant "classification tester returned the wrong result count"));
  _ ← upd_oracle (λ o, o <| ora_semantic_tests := observed |>);
  batches ← lift (ok_or (checked_add u64_max (ora_batches s) 1) (invariant "classification batch counter overflow"));
  _ ← upd_oracle (λ o, o <| ora_batches := batches |>);
  _ ← store_answers (zip missing outcomes);
  s ← gets snd;
  let memory := estimate_oracle_memory layout (size (ora_known s)) (size (ora_cache s)) (size (ora_possible s)) in
  _ ← lift (Hierarchy.check_count "max_memory_bytes" memory (cl_max_memory_bytes limits));
  _ ← controlled (control_observe_memory memory);
  controlled control_poll.

Definition evaluate (relations : list (N * N)) : OM (list bool) :=
  _ ← controlled control_poll;
  missing ← missing_loop relations [];
  _ ← (if bool_decide (missing = []) then mret tt else ask missing);
  s ← gets snd;
  lift (collectM (λ relation, ok_or (ora_cache s !! relation) (invariant "classification oracle failed to cache a result")) relations).

(** ** Insertion *)

Definition new_hierarchy (top bottom : N) : MutableHierarchy :=
  mkMutable 0 1 [ {[top]}; {[bottom]} ] {[ (1%nat, 0%nat) ]}.

Definition representative (h : MutableHierarchy) (node : nat) : NativeResult N :=
  ok_or (mh_members h !! node ≫= λ m, head (btree_elements m)) (invariant "classification hierarchy node is empty").

(** The parents of a node when going upward, its children otherwise. *)
Definition neighbours (h : MutableHierarchy) (upward : bool) (node : nat) : gset nat :=
  if upward then set_map snd (filter (λ e, e.1 = node) (mh_edges h))
  else set_map fst (filter (λ e, e.2 = node) (mh_edges h)).

(** The state of the loop of [boundary]. *)
Record Search := mkSearch {
  se_frontier : gset nat;
  se_visited : gset nat;
  se_proven_true : gset nat;
  se_boundary : gset nat
}.

(** One round: the candidates next to the frontier are tested together. *)
Definition boundary_round (h : MutableHierarchy) (upward : bool) (element : N) (s : Search) : OM Search :=
  _ ← controlled control_poll;
  let candidates : gset nat := filter (λ n, n ∉ se_visited s) (set_bind (neighbours h upward) (se_frontier s)) in
  let candidate_nodes := btree_elements candidates in
  relations ← lift (collectM (λ n, r ← representative h n; Ok (if upward then (r, element) else (element, r))) candidate_nodes);
  outcomes ← evaluate relations;
  let true_candidates : gset nat := list_to_set (fst <$> filter (λ e, e.2 = true) (zip candidate_nodes outcomes)) in
  let proven := true_candidates ∪ se_proven_true s in
  let visited := se_frontier s ∪ se_visited s in
  mret (mkSearch (true_candidates ∖ visited) visited proven
    (filter (λ n, neighbours h upward n ## proven) (se_frontier s) ∪ se_boundary s)).

Fixpoint boundary_loop (h : MutableHierarchy) (upward : bool) (element : N) (fuel : nat) (s : Search) : OM (gset nat) :=
  match fuel with
  | O => lift Crash
  | S fuel =>
      if bool_decide (se_frontier s = ∅) then mret (se_boundary s)
      else s ← boundary_round h upward element s; boundary_loop h upward element fuel s
  end.

(** Each round visits new nodes. *)
Definition boundary (h : MutableHierarchy) (start : nat) (upward : bool) (element : N) : OM (gset nat) :=
  boundary_loop h upward element (S (S (length (mh_members h)))) (mkSearch {[start]} ∅ {[start]} ∅).

Definition insert_between (h : MutableHierarchy) (element : N) (parents children : gset nat) : MutableHierarchy :=
  let node := length (mh_members h) in
  let between : gset (nat * nat) := set_bind (λ c, set_map (λ p, (c, p)) parents) children in
  mkMutable (mh_top_node h) (mh_bottom_node h) (mh_members h ++ [ {[element]} ])
    (set_map (λ p, (node, p)) parents ∪ (set_map (λ c, (c, node)) children ∪ (mh_edges h ∖ between))).

Definition insert (h : MutableHierarchy) (element : N) : OM MutableHierarchy :=
  parents ← boundary h (mh_top_node h) false element;
  children ← boundary h (mh_bottom_node h) true element;
  match btree_elements (parents ∩ children) with
  | [] => mret (insert_between h element parents children)
  | node :: rest =>
      _ ← lift (reject_if (negb (bool_decide (parents = children)) || negb (bool_decide (rest = [])))
        (invariant "subsumption relation violated hierarchy-search invariants"));
      _ ← lift (ok_or (mh_members h !! node) (invariant "classification node disappeared"));
      mret (h <| mh_members ::= alter (λ m, {[element]} ∪ m) node |>)
  end.

(** The elements in order, with a poll every 1024. *)
Fixpoint insert_all (h : MutableHierarchy) (offset : N) (elements : list N) : OM MutableHierarchy :=
  match elements with
  | [] => mret h
  | element :: elements =>
      _ ← (if (offset mod 1024 =? 0)%N then controlled control_poll else mret tt);
      h ← insert h element;
      insert_all h (N.succ offset) elements
  end.
End oracle.

(** ** Freezing *)

(** The place of each node in the canonical order. *)
Fixpoint remap_nodes (ordered : list (nat * list N)) (position : nat) (remap : list N) : NativeResult (list N) :=
  match ordered with
  | [] => Ok remap
  | (old, _) :: ordered =>
      new ← ok_or (u32_try_from position) (invariant "classification hierarchy node count exceeds u32");
      remap_nodes ordered (S position) (<[old := new]> remap)
  end.

(** [(old, members)] in the order of the members. *)
Definition order_nodes (members : list (gset N)) : list (nat * list N) :=
  merge_sort (λ l r, ord_le l.2 r.2) (imap (λ i m, (i, btree_elements m)) members).

Definition remap_edge (remap : list N) (edge : nat * nat) : NativeResult (N * N) :=
  child ← index_or_crash remap edge.1;
  parent ← index_or_crash remap edge.2;
  Ok (child, parent).

(** Nodes and edges in canonical order. *)
Definition frozen (members : list (gset N)) (edges : gset (nat * nat)) (top bottom : nat) : NativeResult HierarchyIds :=
  let ordered := order_nodes members in
  remap ← remap_nodes ordered 0 (replicate (length ordered) 0);
  edges ← collectM (remap_edge remap) (btree_elements edges);
  top ← index_or_crash remap top;
  bottom ← index_or_crash remap bottom;
  Ok (mkHierarchy ordered.*2 (Order.sort edges) top bottom).

Definition freeze (h : MutableHierarchy) : NativeResult HierarchyIds :=
  frozen (mh_members h) (mh_edges h) (mh_top_node h) (mh_bottom_node h).

Definition freeze_partition (components : list (gset N)) (edges : gset (nat * nat)) (top bottom : nat) : NativeResult HierarchyIds :=
  h ← frozen components edges top bottom;
  _ ← Hierarchy.validate h;
  Ok h.
End Classify.
