(* ===== verification/Condense.v ===== *)
(** * Taxonomies of complete relations (native/src/services/classification.rs)

    Where the told relation is complete, the taxonomy is the transitive reduction of
    its quotient by strongly connected components, which two iterative searches find;
    and [classify_ids], which chooses between this and insertion. *)

From S2P Require Import Prelude Order Errors Cancel Hierarchy Classify.
Import NativeErr Classify.

Module Condense.

(** Where each element is. *)
Definition index_by_id (elements : list N) : gmap N nat :=
  foldl (λ m e, <[e.2 := e.1]> m) ∅ (imap pair elements).

Definition index_of (m : gmap N nat) (x : N) (label : string) : NativeResult nat :=
  ok_or (m !! x) (invariant ("classification " +:+ label +:+ " disappeared")).

(** The ends of a told relation. *)
Definition relation_indexes (m : gmap N nat) (r : N * N) : NativeResult (nat * nat) :=
  child ← index_of m r.1 "child";
  parent ← index_of m r.2 "parent";
  Ok (child, parent).

Definition add_successor (m : gmap N nat) (sets : list (gset nat)) (r : N * N) : NativeResult (list (gset nat)) :=
  e ← relation_indexes m r;
  Ok (alter (λ s, {[e.2]} ∪ s) e.1 sets).

(** Every element is below itself and the top, and above the bottom. *)
Definition add_bounds (top bottom : nat) (sets : list (gset nat)) (index : nat) : list (gset nat) :=
  alter (λ s, {[top]} ∪ s) index (alter (λ s, {[index]} ∪ s) bottom (alter (λ s, {[index]} ∪ s) index sets)).

Section condense.
Context {C : Type} `{OperationControl C} (layout : ClassificationLayout).

(** The control and the number of graph steps. *)
Abbreviation G X := (st (C * N) NativeError X).

Definition steered {X} (m : st C NativeError X) : G X := λ s, let '(r, c') := m s.1 in (r, (c', s.2)).

Definition poll_graph_step : G unit :=
  s ← gets snd;
  steps ← lift (ok_or (checked_add u64_max s 1) (invariant "classification graph-step counter overflow"));
  _ ← modify (λ s, (s.1, steps));
  if (steps mod 1024 =? 0)%N then steered control_poll else mret tt.

(** ** The first search: the order in which nodes finish *)

Record Finish := mkFinish { fi_visited : list bool; fi_order : list nat }.

Fixpoint finish_loop (successors : list (list nat)) (fuel : nat) (stack : list (nat * nat)) (f : Finish) : G Finish :=
  match fuel with
  | O => lift Crash
  | S fuel =>
      match stack with
      | [] => mret f
      | (node, offset) :: rest =>
          _ ← poll_graph_step;
          out ← lift (index_or_crash successors node);
          match out !! offset with
          | Some successor =>
              lift (index_or_crash (fi_visited f) successor) ≫= λ visited : bool,
              if visited then finish_loop successors fuel ((node, S offset) :: rest) f
              else finish_loop successors fuel ((successor, 0%nat) :: (node, S offset) :: rest)
                     (mkFinish (<[successor := true]> (fi_visited f)) (fi_order f))
          | None => finish_loop successors fuel rest (mkFinish (fi_visited f) (fi_order f ++ [node]))
          end
      end
  end.

(** A turn of the search follows an edge or finishes a node. *)
Definition finish_from (successors : list (list nat)) (f : Finish) (start : nat) : G Finish :=
  lift (index_or_crash (fi_visited f) start) ≫= λ visited : bool,
  if visited then mret f
  else finish_loop successors (S (length (concat successors) + length successors)) [(start, 0%nat)]
         (mkFinish (<[start := true]> (fi_visited f)) (fi_order f)).

(** ** The second search: components, against the edges *)

Record Components := mkComponents {
  co_assigned : list bool;
  co_members : list (gset N);
  co_index : list (option nat)
}.

Fixpoint push_unassigned (nodes stack : list nat) (assigned : list bool) : NativeResult (list nat * list bool) :=
  match nodes with
  | [] => Ok (stack, assigned)
  | n :: nodes =>
      index_or_crash assigned n ≫= λ a : bool,
      if a then push_unassigned nodes stack assigned
      else push_unassigned nodes (n :: stack) (<[n := true]> assigned)
  end.

Fixpoint component_loop (elements : list N) (predecessors : list (list nat)) (number : nat) (fuel : nat) (stack : list nat)
    (assigned : list bool) (component : gset N) (index : list (option nat)) : G (list bool * gset N * list (option nat)) :=
  match fuel with
  | O => lift Crash
  | S fuel =>
      match stack with
      | [] => mret (assigned, component, index)
      | node :: stack =>
          _ ← poll_graph_step;
          e ← lift (index_or_crash elements node);
          into ← lift (index_or_crash predecessors node);
          r ← lift (push_unassigned (rev into) stack assigned);
          component_loop elements predecessors number fuel r.1 r.2 ({[e]} ∪ component) (<[node := Some number]> index)
      end
  end.

(** A node is pushed at most once. *)
Definition component_from (elements : list N) (predecessors : list (list nat)) (c : Components) (start : nat) : G Components :=
  lift (index_or_crash (co_assigned c) start) ≫= λ assigned : bool,
  if assigned then mret c
  else
    r ← component_loop elements predecessors (length (co_members c)) (S (length elements)) [start]
          (<[start := true]> (co_assigned c)) ∅ (co_index c);
    let '(assigned, component, index) := r in
    mret (mkComponents assigned (co_members c ++ [component]) index).

Definition add_predecessors (acc : list (list nat)) (entry : nat * list nat) : list (list nat) :=
  foldl (λ acc parent, alter (λ l, l ++ [entry.1]) parent acc) acc entry.2.

(** ** The quotient and its reduction *)

Definition add_quotient (m : gmap N nat) (component : list nat) (top bottom : nat) (quotient : gset (nat * nat)) (r : N * N) :
    NativeResult (gset (nat * nat)) :=
  e ← relation_indexes m r;
  child ← index_or_crash component e.1;
  parent ← index_or_crash component e.2;
  Ok (if bool_decide (child ≠ parent) && bool_decide (child ≠ bottom) && bool_decide (parent ≠ top)
      then {[ (child, parent) ]} ∪ quotient else quotient).

(** Components without edges are tied to the bottom and the top. *)
Definition tie (incoming outgoing : gset nat) (top bottom : nat) (quotient : gset (nat * nat)) (component : nat) : gset (nat * nat) :=
  if bool_decide (component = bottom) || bool_decide (component = top) then quotient
  else
    let quotient := if bool_decide (component ∈ incoming) then quotient else {[ (bottom, component) ]} ∪ quotient in
    if bool_decide (component ∈ outgoing) then quotient else {[ (component, top) ]} ∪ quotient.

Definition add_quotient_edge (count : nat) (acc : list (gset nat) * list N) (edge : nat * nat) : NativeResult (list (gset nat) * list N) :=
  _ ← reject_if ((count <=? edge.1)%nat || (count <=? edge.2)%nat || (edge.1 =? edge.2)%nat)
    (invariant "classification quotient contains an invalid edge");
  degree ← index_or_crash acc.2 edge.2;
  degree ← ok_or (checked_add u32_max degree 1) (invariant "classification quotient in-degree overflow");
  Ok (alter (λ s, {[edge.2]} ∪ s) edge.1 acc.1, <[edge.2 := degree]> acc.2).

Fixpoint reachable_loop (successors : list (gset nat)) (target : nat) (fuel : nat) (frontier : list nat) (seen : list bool) : G bool :=
  match fuel with
  | O => lift Crash
  | S fuel =>
      match frontier with
      | [] => mret false
      | current :: frontier =>
          _ ← poll_graph_step;
          if (current =? target)%nat then mret true
          else
            lift (index_or_crash seen current) ≫= λ visited : bool,
            if visited then reachable_loop successors target fuel frontier seen
            else
              let seen := <[current := true]> seen in
              out ← lift (index_or_crash successors current);
              fresh ← lift (collectM (λ n, index_or_crash seen n ≫= λ v : bool, Ok (n, v)) (btree_elements out));
              reachable_loop successors target fuel ((filter (λ e, e.2 = false) fresh).*1 ++ frontier) seen
      end
  end.

(** Every edge is pushed at most once. *)
Definition reachable_indices (successors : list (gset nat)) (start target : nat) : G bool :=
  out ← lift (index_or_crash successors start);
  reachable_loop successors target (S (length (concat (btree_elements <$> successors)))) (rev (btree_elements out))
    (<[start := true]> (replicate (length successors) false)).

(** An edge is dropped when the others reach its end. *)
Definition reduce_edge (successors : list (gset nat)) (edge : nat * nat) : G (list (gset nat)) :=
  let without := alter (λ s, s ∖ {[edge.2]}) edge.1 successors in
  reachable_indices without edge.1 edge.2 ≫= λ redundant : bool,
  mret (if redundant then without else alter (λ s, {[edge.2]} ∪ s) edge.1 without).

Definition reduce_quotient (count : nat) (edges : gset (nat * nat)) : G (gset (nat * nat)) :=
  graph ← lift (foldM (add_quotient_edge count) (btree_elements edges) (replicate count ∅, replicate count 0%N));
  let '(successors, incoming) := graph in
  processed ← Hierarchy.kahn poll_graph_step (invariant "classification in-degree underflow") (btree_elements <$> successors) incoming;
  _ ← lift (reject_if (negb (processed =? count)%nat) (invariant "classification quotient relation contains a cycle"));
  successors ← foldST reduce_edge (btree_elements edges) successors;
  mret (list_to_set (concat (imap (λ child out, (λ parent, (child, parent)) <$> btree_elements out) successors))).

(** ** The whole construction *)

Definition build_complete_hierarchy (elements : list N) (top bottom : N) (known : list (N * N)) (limits : ClassificationLimits) : G HierarchyIds :=
  let count := length elements in
  let m := index_by_id elements in
  top_index ← lift (index_of m top "top");
  bottom_index ← lift (index_of m bottom "bottom");
  sets ← lift (foldM (add_successor m) known (replicate count ∅));
  let sets := foldl (add_bounds top_index bottom_index) sets (seq 0 count) in
  let estimated := estimate_initial_memory layout count (sum_list (size <$> sets)) in
  _ ← lift (Hierarchy.check_count "max_memory_bytes" estimated (cl_max_memory_bytes limits));
  _ ← steered (control_observe_memory estimated);
  let successors := btree_elements <$> sets in
  finish ← foldST (finish_from successors) (seq 0 count) (mkFinish (replicate count false) []);
  let predecessors := foldl add_predecessors (replicate count []) (imap pair successors) in
  c ← foldST (component_from elements predecessors) (rev (fi_order finish)) (mkComponents (replicate count false) [] (replicate count None));
  component ← lift (collectM (λ i, ok_or i (invariant "classification SCC traversal omitted an element")) (co_index c));
  bottom_component ← lift (index_or_crash component bottom_index);
  top_component ← lift (index_or_crash component top_index);
  quotient ← lift (foldM (add_quotient m component top_component bottom_component) known ∅);
  let quotient := foldl (tie (set_map snd quotient) (set_map fst quotient) top_component bottom_component) quotient
    (seq 0 (length (co_members c))) in
  let quotient := if bool_decide (bottom_component ≠ top_component) && bool_decide (quotient = ∅)
    then {[ (bottom_component, top_component) ]} else quotient in
  reduced ← reduce_quotient (length (co_members c)) quotient;
  lift (freeze_partition (co_members c) reduced top_component bottom_component).
End condense.

(** ** Classification *)

Section classify.
Context {C : Type} `{OperationControl C} (layout : ClassificationLayout).
Context (tester : list (N * N) → st C NativeError (list bool)).

(** A computation that keeps a state of its own, started on [t]. *)
Definition within {T X} (t : T) (m : st (C * T) NativeError X) : st C NativeError (X * T) := λ c,
  let '(r, (c', t')) := m (c, t) in (x ← r; Ok (x, t'), c').

(** Every element lies between the bottom and the top. *)
Definition seed_relations (elements : list N) (top bottom : N) (known : list (N * N)) : gset (N * N) :=
  foldl (λ s e, {[ (e, e) ]} ∪ ({[ (e, top) ]} ∪ ({[ (bottom, e) ]} ∪ s))) (list_to_set known) elements.

(** The elements to insert, those with few known parents first. *)
Definition insertion_order (elements : list N) (top bottom : N) (counts : gmap N N) : list N :=
  merge_sort (λ x y, ord_le (default 0 (counts !! x), x) (default 0 (counts !! y), y))
    (filter (λ e, e ≠ top ∧ e ≠ bottom) elements).

Definition classify_by_insertion (p : ClassificationProblem) (limits : ClassificationLimits) : st C NativeError ClassificationResult :=
  let elements := pb_elements p in
  let seed := seed_relations elements (pb_top p) (pb_bottom p) (pb_known p) in
  _ ← lift (Hierarchy.check_count "max_seed_relations" (N.of_nat (size seed)) (cl_max_seed_relations limits));
  let estimated := estimate_initial_memory layout (length elements) (size seed) in
  _ ← lift (Hierarchy.check_count "max_memory_bytes" estimated (cl_max_memory_bytes limits));
  _ ← control_observe_memory estimated;
  oracle ← lift (new_oracle elements seed);
  let order := insertion_order elements (pb_top p) (pb_bottom p) (child_counts elements oracle) in
  r ← within oracle (insert_all layout (pb_mode p) limits tester (new_hierarchy (pb_top p) (pb_bottom p)) 0 order);
  let '(h, oracle) := r in
  frozen ← lift (freeze h);
  _ ← lift (Hierarchy.validate frozen);
  count ← lift (ok_or (u32_try_from (length elements)) (invariant "classification element count exceeds u32"));
  mret (mkClassification frozen (mkClassificationStatistics count (ora_semantic_tests oracle) (ora_batches oracle)
    (ora_cache_hits oracle) (N.of_nat (size (ora_known oracle))) (N.of_nat (size (ora_possible oracle))))).

Definition classify_complete (p : ClassificationProblem) (limits : ClassificationLimits) : st C NativeError ClassificationResult :=
  r ← within 0%N (build_complete_hierarchy layout (pb_elements p) (pb_top p) (pb_bottom p) (pb_known p) limits);
  count ← lift (ok_or (u32_try_from (length (pb_elements p))) (invariant "classification element count exceeds u32"));
  mret (mkClassification r.1 (mkClassificationStatistics count 0 0 0 (N.of_nat (length (pb_known p))) 0)).

Definition classify_ids (p : ClassificationProblem) : st C NativeError ClassificationResult :=
  _ ← control_poll;
  limits ← lift (Hierarchy.validate_limits (pb_limits p));
  _ ← lift (validate_inputs (pb_elements p) (pb_top p) (pb_bottom p) (pb_known p) limits);
  if pb_known_complete p then classify_complete p limits else classify_by_insertion p limits.
End classify.
End Condense.
