(* ===== verification/OracleSpec.v ===== *)
(** * The oracle of a classification answers right

    Given a tester that answers every subsumption right, the oracle does so too:
    its cache and its transitive search only confirm what holds. *)

From S2P Require Import Prelude Order Errors Cancel Contracts SessionSpec Hierarchy HierarchyAudit Classify.
Import Classify.

Lemma length_btree_elements `{OrdLaws A, Countable A} (X : gset A) : length (btree_elements X) = size X.
Proof. unfold btree_elements, size, set_size. cbn. by rewrite (Permutation_length (sort_Permutation _)). Qed.

(** The errors of a control. *)
Record control_errors {C} `{OperationControl C} (foreign : NativeError → Prop) : Prop := {
  poll_error c e : (control_poll c).1 = Err e → foreign e;
  observe_error n c e : (control_observe_memory n c).1 = Err e → foreign e
}.

Section oracle.
Context {C : Type} `{OperationControl C} `{!CalmControl C}.
Context (layout : ClassificationLayout) (mode : ClassificationMode) (limits : ClassificationLimits).
Context (sub : N → N → Prop) `{!RelDecision sub, !PreOrder sub}.
Context (tester : list (N * N) → st C NativeError (list bool)).

(** The answers that hold. *)
Definition verdicts (rs : list (N * N)) : list bool := (λ r, bool_decide (sub r.1 r.2)) <$> rs.

(** The errors of the control and of the tester, which are passed on. *)
Context (foreign : NativeError → Prop).

(** The tester returns, and its answers are right. *)
Definition right_tester : Prop :=
  ∀ rs c, meets (tester rs) c (λ bs _, bs = verdicts rs) (λ e _, foreign e).
Context (Htester : right_tester) (Hcontrol : control_errors foreign).

(** The other errors: a limit is passed or a counter overflows. *)
Definition excused (e : NativeError) : Prop :=
  foreign e ∨ err_kind e = Resource ∨ e = NativeErr.invariant "semantic-test counter overflow" ∨
  e = NativeErr.invariant "classification batch counter overflow".

Context (E : gset N).

Record oracle_ok (o : Oracle) : Prop := {
  oracle_cache r b : ora_cache o !! r = Some b → b = bool_decide (sub r.1 r.2);
  oracle_domain e : e ∈ E → is_Some (ora_successors o !! e);
  oracle_edge c out p : ora_successors o !! c = Some out → p ∈ out → p ∈ E ∧ sub c p
}.

Implicit Types s : C * Oracle.
Abbreviation failed := (λ (e : NativeError) (_ : C * Oracle), excused e).

Lemma meets_controlled {X} (m : st C NativeError X) s (P : X → C * Oracle → Prop) :
  (∀ c, (m c).1 ≠ Crash) → (∀ c e, (m c).1 = Err e → foreign e) → (∀ x c, P x (c, s.2)) → meets (controlled m) s P failed.
Proof.
  intros Hm He HP. specialize (Hm s.1). specialize (He s.1). unfold meets, controlled.
  destruct (m s.1) as [[]]; [apply HP|left; by apply He|done].
Qed.

Lemma meets_poll s (P : unit → C * Oracle → Prop) : (∀ c, P tt (c, s.2)) → meets (controlled control_poll) s P failed.
Proof. intros HP. apply meets_controlled; [apply calm_poll|apply Hcontrol|by intros []]. Qed.

Lemma meets_observe n s (P : unit → C * Oracle → Prop) :
  (∀ c, P tt (c, s.2)) → meets (controlled (control_observe_memory n)) s P failed.
Proof. intros HP. apply meets_controlled; [apply calm_observe|apply Hcontrol|by intros []]. Qed.

Lemma meets_limit l o a s (P : unit → C * Oracle → Prop) : P tt s → meets (lift (Hierarchy.check_count l o a)) s P failed.
Proof. intros HP. apply meets_reject; [done|]. right. by left. Qed.

(** ** The transitive search *)

Definition relations_of (o : Oracle) : list (N * gset N) := btree_entries (ora_successors o).

Lemma fuel_relations (l : list (N * gset N)) :
  length (concat (btree_elements <$> l.*2)) = sum_list_with (unvisited size ∅) l.
Proof.
  induction l as [|[k out] l IH]; cbn; [done|]. rewrite length_app, IH. unfold unvisited at 2. cbn. rewrite decide_False by set_solver.
  by rewrite length_btree_elements.
Qed.

Lemma known_loop_spec child parent fuel frontier visited steps s :
  oracle_ok s.2 → Forall (λ x, x ∈ E ∧ sub child x) frontier →
  (length frontier + sum_list_with (unvisited size visited) (relations_of s.2) < fuel)%nat →
  meets (known_loop parent fuel frontier visited steps) s (λ b s', s'.2 = s.2 ∧ (b = true → sub child parent)) failed.
Proof.
  intros Ho. revert frontier visited steps s Ho. induction fuel as [|fuel IH]; intros frontier visited steps s Ho Hf Hfuel; [lia|].
  destruct frontier as [|current frontier]; [by apply meets_ret|]. apply Forall_cons in Hf as [[Hc Hs] Hf]. cbn [known_loop length] in *.
  destruct (current =? parent)%N eqn:Ep; [apply N.eqb_eq in Ep as ->; by apply meets_ret|].
  case_bool_decide as Hv; [apply IH; [done|done|lia]|].
  eapply (meets_bind _ _ _ (λ _ s', s'.2 = s.2)).
  { destruct (_ =? 0)%N; [|by apply meets_ret]. by apply meets_poll. }
  intros [] [c1 o1] E1. cbn in E1. subst o1. eapply meets_bind; [apply (meets_gets _ _ (λ o t, o = s.2 ∧ t = (c1, s.2))); done|].
  intros ? ? [-> ->]. destruct (oracle_domain _ Ho current Hc) as [out Eout].
  rewrite Eout. eapply meets_bind; [by apply (meets_ret out _ (λ o t, o = out ∧ t = (c1, s.2)))|]. intros ? ? [-> ->].
  apply (IH _ _ _ (c1, s.2)); [done| |].
  - apply Forall_app. split; [|done]. apply Forall_forall. intros x [_ Hx]%list_elem_of_filter.
    apply elem_of_btree_elements in Hx. destruct (oracle_edge _ Ho _ _ _ Eout Hx). split; [done|by trans current].
  - assert ((current, out) ∈ relations_of s.2) as Hin by (by apply elem_of_btree_entries).
    pose proof (weight_visit size (relations_of s.2) visited current out
      (StronglySorted_lt_NoDup _ (btree_entries_sorted _)) Hin Hv) as Hw.
    cbn [snd]. rewrite length_app. pose proof (length_filter (λ v, v ∉ {[current]} ∪ visited) (btree_elements out)) as Hlf.
    rewrite length_btree_elements in Hlf. lia.
Qed.

Lemma is_known_spec child parent s :
  oracle_ok s.2 → child ∈ E → meets (is_known child parent) s (λ b s', s'.2 = s.2 ∧ (b = true → sub child parent)) failed.
Proof.
  intros Ho Hc. unfold is_known. eapply meets_bind; [apply (meets_gets _ _ (λ o t, o = s.2 ∧ t = s)); done|]. intros ? ? [-> ->].
  apply known_loop_spec; [done|by apply Forall_singleton|]. unfold btree_values. rewrite fuel_relations. cbn. unfold relations_of. lia.
Qed.

(** ** Batches *)

Definition inside (r : N * N) : Prop := r.1 ∈ E ∧ r.2 ∈ E.
Definition answered (o : Oracle) (r : N * N) : Prop := is_Some (ora_cache o !! r).

(** The oracle stays right and keeps its answers. *)
Definition grown o o' : Prop := oracle_ok o' ∧ ∀ r, answered o r → answered o' r.

Lemma grown_refl o : oracle_ok o → grown o o.
Proof. by split. Qed.

Lemma grown_trans o1 o2 o3 : grown o1 o2 → grown o2 o3 → grown o1 o3.
Proof. intros [_ H1] [? H2]. split; [done|auto]. Qed.

Lemma grown_cache r b o : oracle_ok o → b = bool_decide (sub r.1 r.2) → grown o (o <| ora_cache ::= <[r := b]> |>) ∧
  answered (o <| ora_cache ::= <[r := b]> |>) r.
Proof.
  intros [Hc Hd He] ->. unfold answered. cbn. split; [|rewrite lookup_insert_eq; by eexists]. split.
  - split; cbn; [|done|done]. intros r' b'. destruct (decide (r' = r)) as [->|Hne]; [rewrite lookup_insert_eq; by intros [= <-]|].
    rewrite lookup_insert_ne by done. apply Hc.
  - intros r'. unfold answered. cbn. destruct (decide (r' = r)) as [->|Hne]; [rewrite lookup_insert_eq; by eexists|].
    by rewrite lookup_insert_ne.
Qed.

Lemma grown_books o o' :
  oracle_ok o → ora_cache o' = ora_cache o → ora_successors o' = ora_successors o → grown o o'.
Proof. intros [Hc Hd He] E1 E2. split; [split; by rewrite ?E1, ?E2|]. intros r. unfold answered. by rewrite E1. Qed.

Lemma missing_loop_spec rs missing s :
  oracle_ok s.2 → Forall inside rs → Forall inside missing →
  meets (missing_loop rs missing) s (λ ms s', grown s.2 s'.2 ∧ Forall inside ms ∧
    (∀ r, r ∈ missing → r ∈ ms) ∧ ∀ r, r ∈ rs → answered s'.2 r ∨ r ∈ ms) failed.
Proof.
  revert missing s. induction rs as [|r rs IH]; intros missing s Ho Hrs Hm.
  { apply meets_ret. split_and!; [by apply grown_refl|done|done|by intros r ?%elem_of_nil]. }
  apply Forall_cons in Hrs as [Hr Hrs]. cbn [missing_loop].
  assert (∀ o ms, grown s.2 o → Forall inside ms → (∀ x, x ∈ missing → x ∈ ms) → answered o r ∨ r ∈ ms → ∀ c,
    meets (missing_loop rs ms) (c, o) (λ ms s', grown s.2 s'.2 ∧ Forall inside ms ∧
      (∀ r, r ∈ missing → r ∈ ms) ∧ ∀ x, x ∈ r :: rs → answered s'.2 x ∨ x ∈ ms) failed) as Hgo.
  { intros o ms Hg Hms Hsub Hhere c. eapply meets_impl; [apply IH; [apply Hg|done|done]| |done].
    intros ms' s' (Hg' & Hms' & Hsub' & Hall). split_and!; [by eapply grown_trans|done|auto|].
    intros x [->|Hx]%elem_of_cons; [|auto]. destruct Hhere as [Ha|Ha]; [left; by apply Hg'|right; auto]. }
  eapply meets_bind; [apply (meets_gets _ _ (λ o t, o = s.2 ∧ t = s)); done|]. intros ? ? [-> ->].
  case_bool_decide as Hc.
  - eapply meets_bind; [apply (meets_modify _ _ (λ _ t, ∃ c o, t = (c, o) ∧ grown s.2 o ∧ answered o r))|].
    + eexists _, _. split_and!; [done|by apply grown_books|done].
    + intros [] ? (c & o & -> & Hg & Ha). by apply Hgo; [| | |left].
  - eapply meets_bind; [apply is_known_spec; [done|apply Hr]|]. intros b [c1 o1] [E1 Hk]. cbn in E1. subst o1. destruct b.
    + destruct (grown_cache r true s.2 Ho) as [Hg Ha]; [symmetry; apply bool_decide_eq_true; auto|].
      eapply meets_bind; [apply (meets_modify _ _ (λ _ t, t = (c1, s.2 <| ora_cache ::= <[r := true]> |>))); done|]. intros [] ? ->.
      eapply meets_bind; [apply (meets_modify _ _ (λ _ t, ∃ c o, t = (c, o) ∧ grown s.2 o ∧ answered o r))|].
      * eexists _, _. split_and!; [done| |exact Ha]. eapply grown_trans; [exact Hg|]. apply grown_books; [apply Hg|done|done].
      * intros [] ? (c & o & -> & Hg' & Ha'). by apply Hgo; [| | |left].
    + apply Hgo; [by apply grown_refl| | |].
      * case_bool_decide; [done|]. apply Forall_app. split; [done|by apply Forall_singleton].
      * intros x Hx. case_bool_decide; [done|]. apply elem_of_app. by left.
      * right. case_bool_decide; [done|]. apply elem_of_app. right. by left.
Qed.

Lemma add_known_spec r s :
  oracle_ok s.2 → inside r → sub r.1 r.2 → meets (add_known r) s (λ _ s', grown s.2 s'.2) failed.
Proof.
  intros Ho [H1 H2] Hs. unfold add_known. eapply meets_bind; [apply (meets_gets _ _ (λ o t, o = s.2 ∧ t = s)); done|]. intros ? ? [-> ->].
  assert (bool_decide (ora_cache s.2 !! r = Some false) = false) as ->.
  { apply bool_decide_eq_false. intros Hf%(oracle_cache _ Ho). symmetry in Hf. by apply bool_decide_eq_false in Hf. }
  eapply meets_bind; [by apply (meets_ret tt _ (λ _ t, t = s))|]. intros [] ? ->.
  eapply meets_bind; [apply (meets_modify _ _ (λ _ t, t = (s.1, s.2 <| ora_known ::= λ k, {[r]} ∪ k |>))); done|]. intros [] ? ->.
  destruct (oracle_domain _ Ho r.1 H1) as [out Eout]. rewrite Eout.
  eapply meets_bind; [by apply (meets_ret out _ (λ o t, o = out ∧ t = (s.1, s.2 <| ora_known ::= λ k, {[r]} ∪ k |>)))|].
  intros ? ? [-> ->]. eapply meets_bind; [apply (meets_modify _ _ (λ _ t, grown s.2 t.2))|].
  - destruct Ho as [Hc Hd He]. split; [|done]. split; cbn; [done| |].
    + intros e He'. destruct (decide (e = r.1)) as [->|Hne]; [rewrite lookup_insert_eq; by eexists|]. rewrite lookup_insert_ne by done. auto.
    + intros c out' p. destruct (decide (c = r.1)) as [->|Hne]; [|rewrite lookup_insert_ne by done; apply He].
      rewrite lookup_insert_eq. intros [= <-] [->%elem_of_singleton|Hp]%elem_of_union; [done|by eapply He].
  - intros [] s2 Hg. apply meets_modify. cbn.
    destruct (grown_cache r true s2.2) as [Hg2 _]; [apply Hg|symmetry; by apply bool_decide_eq_true|].
    eapply grown_trans; [exact Hg|]. destruct s2 as [c2 o2]. cbn in *. destruct Hg2 as [[Hc Hd He] Hk]. split; [split; done|exact Hk].
Qed.

Lemma store_answers_spec ms s :
  oracle_ok s.2 → Forall inside ms →
  meets (store_answers (zip ms (verdicts ms))) s (λ _ s', grown s.2 s'.2 ∧ ∀ r, r ∈ ms → answered s'.2 r) failed.
Proof.
  revert s. induction ms as [|r ms IH]; intros s Ho Hms; cbn [verdicts fmap list_fmap zip store_answers].
  { apply meets_ret. split; [by apply grown_refl|by intros r ?%elem_of_nil]. }
  apply Forall_cons in Hms as [Hr Hms].
  eapply meets_bind; [apply (meets_modify _ _ (λ _ t, grown s.2 t.2 ∧ answered t.2 r))|].
  { destruct (grown_cache r (bool_decide (sub r.1 r.2)) s.2 Ho eq_refl) as [Hg Ha]. split; [|exact Ha].
    eapply grown_trans; [exact Hg|]. apply grown_books; [apply Hg|done|done]. }
  intros [] s1 [Hg1 Ha1]. eapply (meets_bind _ _ _ (λ _ s2, grown s.2 s2.2 ∧ answered s2.2 r)).
  { case_bool_decide as Hs; [|by apply meets_ret]. eapply meets_impl; [apply add_known_spec; [apply Hg1|done|done]| |done].
    intros [] s2 Hg2. split; [by eapply grown_trans|by apply Hg2]. }
  intros [] s2 [Hg2 Ha2]. eapply meets_impl; [apply IH; [apply Hg2|done]| |done]. intros [] s3 [Hg3 Hall].
  split; [by eapply grown_trans|]. intros x [->|Hx]%elem_of_cons; [by apply Hg3|auto].
Qed.

Lemma ask_spec ms s :
  oracle_ok s.2 → Forall inside ms →
  meets (ask layout mode limits tester ms) s (λ _ s', grown s.2 s'.2 ∧ ∀ r, r ∈ ms → answered s'.2 r) failed.
Proof.
  intros Ho Hms. unfold ask. eapply meets_bind; [apply (meets_gets _ _ (λ o t, o = s.2 ∧ t = s)); done|]. intros ? ? [-> ->].
  eapply meets_bind; [apply (meets_ok_or _ _ _ (λ _ t, t = s)); [done|unfold excused; auto]|]. intros observed ? ->.
  eapply meets_bind; [by apply (meets_limit _ _ _ _ (λ _ t, t = s))|]. intros [] ? ->.
  eapply (meets_bind _ _ _ (λ _ t, grown s.2 t.2)).
  { case_bool_decide; [apply meets_modify; by apply grown_books|apply meets_ret; by apply grown_refl]. }
  intros [] s1 Hg1. eapply (meets_bind _ _ _ (λ bs t, grown s.2 t.2 ∧ bs = verdicts ms)).
  { pose proof (Htester ms s1.1) as Ht. unfold meets, controlled in *. destruct (tester ms s1.1) as [[bs|e|] c2]; [done|by left|done]. }
  intros bs s2 [Hg2 ->]. assert (length (verdicts ms) = length ms) as -> by apply length_fmap. rewrite Nat.eqb_refl.
  eapply meets_bind; [by apply (meets_ret tt _ (λ _ t, t = s2))|]. intros [] ? ->.
  eapply meets_bind; [apply (meets_modify _ _ (λ _ t, grown s.2 t.2))|].
  { eapply grown_trans; [exact Hg2|]. apply grown_books; [apply Hg2|done|done]. }
  intros [] s3 Hg3. eapply meets_bind; [apply (meets_ok_or _ _ _ (λ _ t, t = s3)); [done|unfold excused; auto]|]. intros batches ? ->.
  eapply meets_bind; [apply (meets_modify _ _ (λ _ t, grown s.2 t.2))|].
  { eapply grown_trans; [exact Hg3|]. apply grown_books; [apply Hg3|done|done]. }
  intros [] s4 Hg4. eapply meets_bind; [apply store_answers_spec; [apply Hg4|done]|]. intros [] s5 [Hg5 Ha5].
  eapply meets_bind; [apply (meets_gets _ _ (λ o t, o = s5.2 ∧ t = s5)); done|]. intros ? ? [-> ->].
  eapply meets_bind; [by apply (meets_limit _ _ _ _ (λ _ t, t = s5))|]. intros [] ? ->.
  eapply (meets_bind _ _ _ (λ _ t, t.2 = s5.2)); [by apply meets_observe|]. intros [] s6 E6.
  apply meets_poll. intros c. cbn. rewrite E6. split; [by eapply grown_trans|done].
Qed.

Lemma collect_verdicts o rs :
  oracle_ok o → Forall (answered o) rs →
  collectM (λ r, ok_or (ora_cache o !! r) (NativeErr.invariant "classification oracle failed to cache a result")) rs = Ok (verdicts rs).
Proof.
  intros Ho. induction 1 as [|r rs [b Hb] _ IH]; [done|]. cbn. rewrite Hb, IH. cbn. by rewrite (oracle_cache _ Ho _ _ Hb).
Qed.

(** The oracle answers every relation as it holds. *)
Lemma evaluate_spec rs s :
  oracle_ok s.2 → Forall inside rs →
  meets (evaluate layout mode limits tester rs) s (λ bs s', oracle_ok s'.2 ∧ bs = verdicts rs) failed.
Proof.
  intros Ho Hrs. unfold evaluate. eapply (meets_bind _ _ _ (λ _ t, t.2 = s.2)); [by apply meets_poll|].
  intros [] [c1 o1] E1. cbn in E1. subst o1. eapply meets_bind; [by apply missing_loop_spec|]. intros ms s2 (Hg2 & Hms & _ & Hall).
  eapply (meets_bind _ _ _ (λ _ s3, grown s2.2 s3.2 ∧ ∀ r, r ∈ ms → answered s3.2 r)).
  { case_bool_decide as Em; [|apply ask_spec; [apply Hg2|done]]. subst ms. apply meets_ret.
    split; [apply grown_refl, Hg2|by intros r ?%elem_of_nil]. }
  intros [] s3 [Hg3 Ha3]. eapply meets_bind; [apply (meets_gets _ _ (λ o t, o = s3.2 ∧ t = s3)); done|]. intros ? ? [-> ->].
  rewrite collect_verdicts; [by split; [apply Hg3|]|apply Hg3|]. apply Forall_forall. intros r Hr.
  destruct (Hall r Hr) as [Ha|Hm]; [by apply Hg3|auto].
Qed.
End oracle.
