(* ===== verification/InsertSpec.v ===== *)
(** * Finite orders and their covers

    A finite order is determined by its covers: between two comparable elements
    there is a chain of covers, and the extremal elements of a closed set are those
    without a cover in it. *)

From S2P Require Import Prelude Order Errors Cancel Contracts SessionSpec Hierarchy Classify OracleSpec.

Section poset.
Context {A : Type} `{Countable A} (X : gset A) (R : relation A) `{!RelDecision R}.

(** An order on [X]. *)
Record order_on : Prop := {
  order_refl x : x ∈ X → R x x;
  order_trans x y z : R x y → R y z → R x z;
  order_antisym x y : R x y → R y x → x = y;
  order_inside x y : R x y → x ∈ X ∧ y ∈ X
}.

Definition above x y : Prop := R x y ∧ x ≠ y.

(** [y] covers [x]: it is above it, with nothing in between. *)
Definition cover x y : Prop := above x y ∧ ∀ z, above x z → above z y → False.

Context (HR : order_on).

Lemma above_trans x y z : above x y → above y z → above x z.
Proof.
  intros [Hxy Hne] [Hyz _]. split; [by eapply order_trans|]. intros <-. by destruct Hne, (order_antisym HR _ _ Hxy Hyz).
Qed.

Lemma above_le x y z : above x y → R y z → above x z.
Proof. intros Hx Hy. destruct (decide (y = z)) as [<-|Hne]; [done|]. by apply (above_trans _ y). Qed.

(** The first step of a chain. *)
Lemma cover_first x y : above x y → ∃ z, cover x z ∧ R z y.
Proof.
  intros Hxy. set (Y := filter (λ z, above x z ∧ R z y) X).
  assert (∀ z, z ∈ Y ↔ above x z ∧ R z y) as HY.
  { intros z. unfold Y. rewrite elem_of_filter. split; [by intros [? _]|]. intros [Hz Hzy]. split; [done|]. apply (order_inside HR _ _ Hzy). }
  assert (Transitive R) as Htr by (intros ???; by apply (order_trans HR)).
  destruct (minimal_exists_elem_of_L R Y) as (z & Hz & Hmin).
  { intros HE. assert (y ∈ Y) as Hy; [|set_solver]. apply HY. split; [done|]. by apply (order_refl HR), (order_inside HR x), Hxy. }
  apply HY in Hz as [Hxz Hzy]. exists z. split; [|done]. split; [done|]. intros w Hw [Hwz Hne].
  apply Hne, (order_antisym HR); [done|]. apply Hmin; [|done]. apply HY. split; [done|]. by eapply order_trans.
Qed.

(** A chain of covers from [y] down to [x], all of it above [x]. *)
Lemma cover_chain x y : R x y → rtc (λ p m, cover m p ∧ R x m) y x.
Proof.
  remember (size (filter (λ z, R x z ∧ above z y) X)) as n eqn:En. revert y En. induction (lt_wf n) as [n _ IH]. intros y En Hxy.
  destruct (decide (x = y)) as [<-|Hne]; [apply rtc_refl|].
  set (Z := filter (λ z, R x z ∧ above z y) X) in En.
  assert (∀ z, z ∈ Z ↔ R x z ∧ above z y) as HZ.
  { intros z. unfold Z. rewrite elem_of_filter. split; [by intros [? _]|]. intros Hz. split; [done|]. apply (order_inside HR _ _ (proj1 Hz)). }
  assert (Transitive R) as Htr by (intros ???; by apply (order_trans HR)).
  assert (x ∈ Z) as HxZ. { apply HZ. split; [|done]. by apply (order_refl HR), (order_inside HR _ y). }
  destruct (minimal_exists_elem_of_L (flip R) Z) as (z & Hz & Hmax); [set_solver|]. pose proof Hz as [Hxz Hzy]%HZ.
  assert (cover z y) as Hcov.
  { split; [done|]. intros w [Hzw Hne'] Hwy. apply Hne'. apply (order_antisym HR); [done|]. apply Hmax; [|done].
    apply HZ. split; [by eapply order_trans|done]. }
  eapply rtc_l; [exact (conj Hcov Hxz)|]. eapply IH; [|reflexivity|done]. subst n. apply subset_size. apply strict_spec_alt. split.
  - intros w. rewrite elem_of_filter. intros [[Hxw Hwz] _]. apply HZ. split; [done|]. by eapply above_trans.
  - intros E. rewrite <-E in Hz. rewrite elem_of_filter in Hz. by destruct Hz as [[_ [_ ?]] _].
Qed.
End poset.

Section dual.
Context {A : Type} `{Countable A} (X : gset A) (R : relation A).

Lemma order_flip : order_on X R → order_on X (flip R).
Proof.
  intros [Hr Ht Ha Hi]. split; [done|intros x y z Hxy Hyz; by apply (Ht z y)|intros x y Hxy Hyx; by apply Ha|].
  intros x y Hxy. destruct (Hi _ _ Hxy). done.
Qed.

Lemma above_flip x y : above (flip R) x y ↔ above R y x.
Proof. unfold above, flip. naive_solver. Qed.

Lemma cover_flip x y : cover (flip R) x y ↔ cover R y x.
Proof. unfold cover. rewrite above_flip. setoid_rewrite above_flip. naive_solver. Qed.

Context `{!RelDecision R} (HR : order_on X R).

(** In an upward closed set, an element has no cover below it in the set exactly
    when it is minimal. *)
Lemma uncovered_minimal (T : A → Prop) n :
  (∀ x y, R x y → T x → T y) →
  (∀ m, cover R m n → ¬ T m) ↔ (∀ m, T m → R m n → m = n).
Proof.
  intros HT. split.
  - intros Hn m Tm Hmn. destruct (decide (m = n)) as [|Hne]; [done|].
    destruct (cover_first X (flip R) (order_flip HR) n m) as (k & Hk & Hkm); [by apply above_flip|].
    apply cover_flip in Hk. destruct (Hn k Hk). by apply (HT m).
  - intros Hn m [[Hmn Hne] _] Tm. by destruct Hne, (Hn m).
Qed.
End dual.

(** * The boundary search of a classification

    Down from the top it finds the least nodes above an element, up from the bottom
    the greatest nodes below it. *)

Import Classify.

(** ** The search, with answers that hold *)

Section rounds.
Context (n : nat) (next : nat → gset nat) (T : nat → Prop) `{!∀ i, Decision (T i)} (start : nat).
Context (Hnext : ∀ i j, j ∈ next i → (j < n)%nat) (Hstart : T start) (Hin : (start < n)%nat).
Context (Hreach : ∀ i, T i → rtc (λ p m, m ∈ next p ∧ T m) start i).

(** A round in which each candidate is told apart by [T]. *)
Definition tested_round (s : Search) : Search :=
  let candidates : gset nat := filter T (filter (λ i, i ∉ se_visited s) (set_bind next (se_frontier s))) in
  let proven := candidates ∪ se_proven_true s in
  let visited := se_frontier s ∪ se_visited s in
  mkSearch (candidates ∖ visited) visited proven
    (filter (λ i, next i ## proven) (se_frontier s) ∪ se_boundary s).

Definition uncovered i : Prop := ∀ m, m ∈ next i → ¬ T m.

Record searching (s : Search) : Prop := {
  search_proven : se_proven_true s = se_frontier s ∪ se_visited s;
  search_true i : i ∈ se_proven_true s → T i ∧ (i < n)%nat;
  search_disjoint : se_frontier s ## se_visited s;
  search_closed i m : i ∈ se_visited s → m ∈ next i → T m → m ∈ se_proven_true s;
  search_boundary i : (i ∈ se_boundary s) ↔ i ∈ se_visited s ∧ uncovered i;
  search_start : start ∈ se_proven_true s
}.

Lemma searching_start : searching (mkSearch {[start]} ∅ {[start]} ∅).
Proof.
  clear Hnext Hreach.
  split; cbn; [set_solver|intros i ->%elem_of_singleton; done|set_solver|set_solver|set_solver|set_solver]. Qed.

Lemma searching_round s : searching s → searching (tested_round s).
Proof.
  clear Hstart Hin Hreach.
  intros [Hp Ht Hd Hc Hb Hs]. unfold tested_round.
  set (cs := filter T (filter (λ i, i ∉ se_visited s) (set_bind next (se_frontier s)))).
  assert (∀ m, (m ∈ cs) ↔ T m ∧ (m ∉ se_visited s) ∧ ∃ i, i ∈ se_frontier s ∧ m ∈ next i) as Hcs.
  { intros m. unfold cs. rewrite !elem_of_filter, elem_of_set_bind. naive_solver. }
  assert (∀ i m, i ∈ se_frontier s → m ∈ next i → T m → m ∈ cs ∪ se_proven_true s) as Hfound.
  { intros i m Hi Hm Tm. destruct (decide (m ∈ se_visited s)) as [Hv|Hv]; [rewrite Hp; set_solver|]. apply elem_of_union_l, Hcs. eauto. }
  split; cbn.
  - rewrite Hp. apply set_eq. intros x. rewrite !elem_of_union, elem_of_difference, elem_of_union. destruct (decide (x ∈ se_frontier s ∪ se_visited s)); set_solver.
  - intros i [Hi|Hi]%elem_of_union; [|by apply Ht]. apply Hcs in Hi as (Ti & _ & p & _ & Hi). split; [done|by eapply Hnext].
  - set_solver.
  - intros i m [Hi|Hi]%elem_of_union Hm Tm; [by eapply Hfound|]. apply elem_of_union_r. by eapply Hc.
  - intros i. rewrite elem_of_union, elem_of_filter, Hb, elem_of_union. split.
    + intros [[Hdis Hi]|[Hi Hu]]; [|split; [by right|done]]. split; [by left|]. intros m Hm Tm. by destruct (Hdis m Hm); eapply Hfound.
    + intros [[Hi|Hi] Hu]; [left|by right]. split; [|done]. intros m Hm Hin'. destruct (Hu m Hm).
      apply elem_of_union in Hin' as [Hm'|Hm']; [by apply Hcs in Hm' as [? _]|by apply Ht].
  - set_solver.
Qed.

Lemma searching_done s i : searching s → se_frontier s = ∅ → (i ∈ se_boundary s) ↔ T i ∧ uncovered i.
Proof.
  intros [Hp Ht Hd Hc Hb Hs] Hf. rewrite Hf, union_empty_l_L in Hp. rewrite Hb. split.
  - intros [Hi Hu]. split; [|done]. apply Ht. by rewrite Hp.
  - intros [Ti Hu]. split; [|done]. rewrite <-Hp. apply Hreach in Ti. revert i Ti Hu.
    cut (∀ i, rtc (λ p m, m ∈ next p ∧ T m) start i → i ∈ se_proven_true s); [naive_solver|].
    apply rtc_ind_r; [done|]. intros p m _ [Hm Tm] IH. apply (Hc p); [by rewrite <-Hp|done|done].
Qed.

Lemma searching_visited s : searching s → (size (se_visited s) ≤ n)%nat ∧ (se_frontier s ≠ ∅ → (size (se_visited s) < n)%nat).
Proof.
  clear Hnext Hstart Hin Hreach.
  intros [Hp Ht Hd _ _ _]. assert (se_frontier s ∪ se_visited s ⊆ list_to_set (seq 0 n)) as Hsub.
  { intros i Hi. rewrite <-Hp in Hi. apply elem_of_list_to_set, elem_of_seq. destruct (Ht i Hi). lia. }
  apply subseteq_size in Hsub. rewrite size_list_to_set, length_seq in Hsub by apply NoDup_seq. rewrite size_union in Hsub by done. split; [lia|].
  intros Hne. assert (size (se_frontier s) ≠ 0%nat); [|lia]. intros Hz%size_empty_inv. by apply leibniz_equiv in Hz.
Qed.
End rounds.

(** ** Nodes *)

Section nodes.
Context (sub : N → N → Prop) `{!RelDecision sub, !PreOrder sub}.
Implicit Types ms : list (gset N).

(** The element stands in the node. *)
Definition lies ms i a : Prop := ∃ m, ms !! i = Some m ∧ a ∈ m.

(** The nodes are the classes of mutual subsumption on [E]. *)
Record partitioned (E : gset N) ms : Prop := {
  part_nonempty i m : ms !! i = Some m → m ≠ ∅;
  part_all e : e ∈ E ↔ ∃ i, lies ms i e;
  part_class i j a b : lies ms i a → lies ms j b → i = j ↔ sub a b ∧ sub b a
}.

Definition rep ms i : option N := ms !! i ≫= λ m, head (btree_elements m).

(** Nodes are ordered as their elements. *)
Definition node_le ms : relation nat := λ i j,
  match rep ms i, rep ms j with Some a, Some b => sub a b | _, _ => False end.

#[global] Instance node_le_dec ms : RelDecision (node_le ms).
Proof. intros i j. unfold node_le. repeat case_match; apply _. Defined.

Definition node_set ms : gset nat := list_to_set (seq 0 (length ms)).

Lemma elem_of_node_set ms i : i ∈ node_set ms ↔ (i < length ms)%nat.
Proof. unfold node_set. rewrite elem_of_list_to_set, elem_of_seq. lia. Qed.

Lemma rep_lies ms i a : rep ms i = Some a → lies ms i a.
Proof.
  unfold rep. intros (m & Hm & Ha)%bind_Some. exists m. split; [done|]. apply elem_of_btree_elements.
  destruct (btree_elements m); [done|]. injection Ha as ->. by left.
Qed.

Lemma lies_lt ms i a : lies ms i a → (i < length ms)%nat.
Proof. intros (m & Hm & _). by eapply lookup_lt_Some. Qed.

Section partition.
Context (E : gset N) (ms : list (gset N)) (Hp : partitioned E ms).

Lemma rep_Some i : (i < length ms)%nat → ∃ a, rep ms i = Some a.
Proof.
  intros [m Hm]%lookup_lt_is_Some. unfold rep. rewrite Hm. cbn. destruct (btree_elements m) as [|a l] eqn:El; [|by exists a].
  apply btree_elements_nil in El. by destruct (part_nonempty _ _ Hp i m).
Qed.

Lemma node_le_iff i j a b : lies ms i a → lies ms j b → node_le ms i j ↔ sub a b.
Proof.
  intros Ha Hb. destruct (rep_Some i (lies_lt _ _ _ Ha)) as [a' Ea], (rep_Some j (lies_lt _ _ _ Hb)) as [b' Eb].
  unfold node_le. rewrite Ea, Eb. apply rep_lies in Ea, Eb.
  destruct (proj1 (part_class _ _ Hp i i a a' Ha Ea) eq_refl), (proj1 (part_class _ _ Hp j j b b' Hb Eb) eq_refl).
  split; intros Hs; [trans a'; [done|by trans b']|trans a; [done|by trans b]].
Qed.

Lemma node_le_inside i j : node_le ms i j → (i < length ms)%nat ∧ (j < length ms)%nat.
Proof.
  unfold node_le. destruct (rep ms i) as [a|] eqn:Ea; [|done]. destruct (rep ms j) as [b|] eqn:Eb; [|done]. intros _.
  split; by eapply lies_lt, rep_lies.
Qed.

Lemma node_order : order_on (node_set ms) (node_le ms).
Proof.
  split.
  - intros i [a Ea]%elem_of_node_set%rep_Some. unfold node_le. by rewrite Ea.
  - intros i j k. unfold node_le. repeat case_match; try done. intros. by etrans.
  - intros i j Hij Hji. destruct (node_le_inside _ _ Hij) as [Hi Hj]. apply rep_Some in Hi as [a Ea], Hj as [b Eb].
    unfold node_le in *. rewrite Ea, Eb in *. by apply (part_class _ _ Hp i j a b); [apply rep_lies|apply rep_lies|].
  - intros i j Hij. rewrite !elem_of_node_set. by apply node_le_inside.
Qed.
End partition.
End nodes.

(** ** The search with the oracle *)

Section boundary.
Context {C : Type} `{OperationControl C} `{!CalmControl C}.
Context (layout : ClassificationLayout) (mode : ClassificationMode) (limits : ClassificationLimits).
Context (sub : N → N → Prop) `{!RelDecision sub, !PreOrder sub}.
Context (tester : list (N * N) → st C NativeError (list bool)) (foreign : NativeError → Prop).
Context (Htester : right_tester sub tester foreign) (Hcontrol : control_errors foreign).
Context (All : gset N).
Implicit Types s : C * Oracle.
Abbreviation failed := (λ (e : NativeError) (_ : C * Oracle), excused foreign e).

(** The node passes the test of the search for [element]. *)
Definition passes ms (upward : bool) (element : N) (i : nat) : Prop :=
  match rep ms i with Some r => if upward then sub r element else sub element r | None => False end.

#[global] Instance passes_dec ms upward element i : Decision (passes ms upward element i).
Proof. unfold passes. repeat case_match; apply _. Defined.

Section hierarchy.
Context (E : gset N) (h : MutableHierarchy) (Hp : partitioned sub E (mh_members h)) (HE : E ⊆ All).
Context (Hedges : ∀ i j, (i, j) ∈ mh_edges h → (i < length (mh_members h))%nat ∧ (j < length (mh_members h))%nat).
Context (element : N) (Hel : element ∈ All) (upward : bool).

Abbreviation next := (neighbours h upward).
Abbreviation T := (passes (mh_members h) upward element).

Lemma elem_of_neighbours i j : (j ∈ next i) ↔ if upward then (i, j) ∈ mh_edges h else (j, i) ∈ mh_edges h.
Proof.
  unfold neighbours. destruct upward; rewrite elem_of_map; setoid_rewrite elem_of_filter; split.
  - intros ([a b] & -> & <- & Hab). done.
  - intros Hij. by exists (i, j).
  - intros ([a b] & -> & <- & Hab). done.
  - intros Hij. by exists (j, i).
Qed.

Lemma neighbours_inside i j : j ∈ next i → (j < length (mh_members h))%nat.
Proof. rewrite elem_of_neighbours. destruct upward; intros [??]%Hedges; done. Qed.

(** The relation that is tested for a node. *)
Definition test_of (r : N) : N * N := if upward then (r, element) else (element, r).

Lemma collect_tests l :
  Forall (λ i, (i < length (mh_members h))%nat) l →
  ∃ rs, collectM (λ n, r ← representative h n; Ok (test_of r)) l = Ok rs ∧ Forall (inside All) rs ∧
    verdicts sub rs = (λ i, bool_decide (T i)) <$> l.
Proof.
  induction 1 as [|i l Hi _ (rs & IH & Hin & Hv)]; [by exists []|]. destruct (rep_Some sub E _ Hp i Hi) as [r Er].
  exists (test_of r :: rs). cbn. assert (representative h i = Ok r) as -> by (unfold representative, rep in *; by rewrite Er).
  cbn. rewrite IH. split; [done|]. assert (r ∈ All) as Hr.
  { apply HE, (part_all _ _ _ Hp). exists i. by apply rep_lies. }
  split; [constructor; [unfold inside, test_of; by destruct upward|done]|]. rewrite <-Hv. cbn. f_equal.
  apply bool_decide_ext. unfold passes, test_of. rewrite Er. by destruct upward.
Qed.

Lemma true_candidates (X : gset nat) (l : list nat) :
  (∀ i, i ∈ l ↔ i ∈ X) →
  list_to_set (fst <$> filter (λ e, e.2 = true) (zip l ((λ i, bool_decide (T i)) <$> l))) = filter T X.
Proof.
  intros Hl. apply set_eq. intros i. rewrite elem_of_list_to_set, list_elem_of_fmap, elem_of_filter, <-Hl. clear Hl. split.
  - intros ([j b] & -> & Hj). apply list_elem_of_filter in Hj as [Hb Hj]. cbn in *. apply elem_of_lookup_zip_with in Hj as (n & x & y & [= -> ->] & Hx & Hy).
    rewrite list_lookup_fmap, Hx in Hy. injection Hy as <-. apply bool_decide_eq_true in Hb. split; [done|by eapply list_elem_of_lookup_2].
  - intros [Ti Hi]. exists (i, true). split; [done|]. apply list_elem_of_filter. split; [done|].
    apply list_elem_of_lookup_1 in Hi as [n Hn]. apply elem_of_lookup_zip_with. exists n, i, true. split_and!; [done|done|].
    rewrite list_lookup_fmap, Hn. cbn. by rewrite bool_decide_eq_true_2.
Qed.

Lemma boundary_round_spec se s :
  oracle_ok sub All s.2 →
  meets (boundary_round layout mode limits tester h upward element se) s (λ se' s', oracle_ok sub All s'.2 ∧ se' = tested_round next T se) failed.
Proof.
  intros Ho. unfold boundary_round. eapply (meets_bind _ _ _ (λ _ t, t.2 = s.2)); [by apply meets_poll|].
  intros [] [c1 o1] E1. cbn in E1. subst o1.
  set (X := filter (λ n, n ∉ se_visited se) (set_bind (neighbours h upward) (se_frontier se))).
  destruct (collect_tests (btree_elements X)) as (rs & Hrs & Hin & Hv).
  { apply Forall_forall. intros i Hi. apply elem_of_btree_elements, elem_of_filter in Hi as [_ Hi]. apply elem_of_set_bind in Hi as (p & _ & Hi).
    by eapply neighbours_inside. }
  eapply meets_bind; [apply (meets_lift _ _ (λ x t, x = rs ∧ t = (c1, s.2)))|].
  - unfold test_of in Hrs. by rewrite Hrs.
  - intros x Hx. unfold test_of in Hrs. rewrite Hrs in Hx. by injection Hx as <-.
  - unfold test_of in Hrs. by rewrite Hrs.
  - intros ? ? [-> ->]. eapply meets_bind; [by apply (evaluate_spec layout mode limits sub tester foreign Htester Hcontrol All)|]. intros bs s2 [Ho2 ->]. apply meets_ret. split; [done|].
    rewrite Hv, (true_candidates X) by apply elem_of_btree_elements. done.
Qed.

Context (start : nat) (Hin : (start < length (mh_members h))%nat) (Hstart : T start).
Context (Hreach : ∀ i, T i → rtc (λ p m, m ∈ next p ∧ T m) start i).

Lemma boundary_loop_spec fuel se s :
  oracle_ok sub All s.2 → searching (length (mh_members h)) next T start se →
  (length (mh_members h) + 1 - size (se_visited se) < fuel)%nat →
  meets (boundary_loop layout mode limits tester h upward element fuel se) s
    (λ B s', oracle_ok sub All s'.2 ∧ ∀ i, (i ∈ B) ↔ T i ∧ uncovered next T i) failed.
Proof.
  revert se s. induction fuel as [|fuel IH]; intros se s Ho Hse Hfuel; [lia|]. cbn [boundary_loop].
  case_bool_decide as Hf; [apply meets_ret; split; [done|]; intros i; by eapply searching_done|].
  eapply meets_bind; [by apply boundary_round_spec|]. intros se' s1 [Ho1 ->]. apply IH; [done|apply searching_round; [apply neighbours_inside|done]|].
  destruct (searching_visited _ _ _ _ se Hse) as [_ Hlt]. specialize (Hlt Hf). cbn [tested_round se_visited].
  rewrite size_union by apply (search_disjoint _ _ _ _ _ Hse).
  assert (size (se_frontier se) ≠ 0%nat); [|lia]. intros Hz%size_empty_inv. by apply leibniz_equiv in Hz.
Qed.

Lemma boundary_spec s :
  oracle_ok sub All s.2 →
  meets (boundary layout mode limits tester h start upward element) s
    (λ B s', oracle_ok sub All s'.2 ∧ ∀ i, (i ∈ B) ↔ T i ∧ uncovered next T i) failed.
Proof.
  intros Ho. apply boundary_loop_spec; [done|by apply searching_start|]. cbn. rewrite size_empty. lia.
Qed.
End hierarchy.
End boundary.

(** * Insertion builds the taxonomy

    The nodes of the hierarchy stay the classes of mutual subsumption and its edges
    the covers of their order, with every element that is inserted. *)

Import Classify.

Lemma cover_ext {A} (R R' : relation A) x y : (∀ a b, R a b ↔ R' a b) → cover R x y ↔ cover R' x y.
Proof. intros HR. unfold cover, above. setoid_rewrite HR. done. Qed.

Section taxonomy.
Context (sub : N → N → Prop) `{!RelDecision sub, !PreOrder sub}.
Context (top bottom : N).

Record taxonomy (E : gset N) (h : MutableHierarchy) : Prop := {
  tax_part : partitioned sub E (mh_members h);
  tax_edges i j : ((i, j) ∈ mh_edges h) ↔ cover (node_le sub (mh_members h)) i j;
  tax_top : lies (mh_members h) (mh_top_node h) top;
  tax_bottom : lies (mh_members h) (mh_bottom_node h) bottom
}.

(** ** Searching a taxonomy *)

Section search.
Context (E : gset N) (h : MutableHierarchy) (Ht : taxonomy E h).
Abbreviation ms := (mh_members h).
Abbreviation le := (node_le sub ms).
Abbreviation up := (passes sub ms true).
Abbreviation down := (passes sub ms false).

Lemma tax_inside i j : (i, j) ∈ mh_edges h → (i < length ms)%nat ∧ (j < length ms)%nat.
Proof. intros [[Hij _] _]%(tax_edges _ _ Ht). by eapply node_le_inside. Qed.

Lemma tax_order : order_on (node_set ms) le.
Proof. apply (node_order sub E), Ht. Qed.

Lemma passes_iff b e i a : lies ms i a → passes sub ms b e i ↔ if b then sub a e else sub e a.
Proof.
  intros Ha. destruct (rep_Some sub E ms (tax_part _ _ Ht) i (lies_lt _ _ _ Ha)) as [r Er]. unfold passes. rewrite Er. apply rep_lies in Er.
  destruct (proj1 (part_class _ _ _ (tax_part _ _ Ht) i i a r Ha Er) eq_refl). destruct b; split; intros; by etrans.
Qed.

Lemma passes_lt b e i : passes sub ms b e i → (i < length ms)%nat.
Proof. unfold passes. destruct (rep ms i) eqn:Er; [|done]. intros _. by eapply lies_lt, rep_lies. Qed.

Lemma node_lies i : (i < length ms)%nat → ∃ a, lies ms i a.
Proof. intros Hi. destruct (rep_Some sub E ms (tax_part _ _ Ht) i Hi) as [r Er]. exists r. by apply rep_lies. Qed.

(** Nodes above the element are closed upward, those below it downward. *)
Lemma down_closed e i j : le i j → down e i → down e j.
Proof.
  intros Hij Hi. destruct (node_le_inside _ _ _ _ Hij) as [[a Ha]%node_lies [b Hb]%node_lies].
  apply (passes_iff false e i a Ha) in Hi. apply (passes_iff false e j b Hb). trans a; [done|].
  by apply (node_le_iff sub E ms (tax_part _ _ Ht) i j a b).
Qed.

Lemma up_closed e i j : le i j → up e j → up e i.
Proof.
  intros Hij Hj. destruct (node_le_inside _ _ _ _ Hij) as [[a Ha]%node_lies [b Hb]%node_lies].
  apply (passes_iff true e j b Hb) in Hj. apply (passes_iff true e i a Ha). trans b; [|done].
  by apply (node_le_iff sub E ms (tax_part _ _ Ht) i j a b).
Qed.

(** A node below the element is below every node above it. *)
Lemma up_down_le e i j : up e i → down e j → le i j.
Proof.
  intros Hi Hj. destruct (node_lies i (passes_lt _ _ _ Hi)) as [a Ha], (node_lies j (passes_lt _ _ _ Hj)) as [b Hb].
  apply (passes_iff true e i a Ha) in Hi. apply (passes_iff false e j b Hb) in Hj.
  apply (node_le_iff sub E ms (tax_part _ _ Ht) i j a b Ha Hb). by trans e.
Qed.

Definition least_above e (P : gset nat) : Prop := ∀ i, (i ∈ P) ↔ down e i ∧ ∀ m, down e m → le m i → m = i.
Definition greatest_below e (P : gset nat) : Prop := ∀ i, (i ∈ P) ↔ up e i ∧ ∀ m, up e m → le i m → m = i.

Section oracle.
Context {C : Type} `{OperationControl C} `{!CalmControl C}.
Context (layout : ClassificationLayout) (mode : ClassificationMode) (limits : ClassificationLimits).
Context (tester : list (N * N) → st C NativeError (list bool)) (foreign : NativeError → Prop).
Context (Htester : right_tester sub tester foreign) (Hcontrol : control_errors foreign).
Context (All : gset N) (HE : E ⊆ All) (Hbounds : ∀ a, a ∈ All → sub bottom a ∧ sub a top) (e : N) (He : e ∈ All).
Abbreviation failed := (λ (e : NativeError) (_ : C * Oracle), excused foreign e).

Lemma lies_all i a : lies ms i a → a ∈ All.
Proof. intros Ha. apply HE, (part_all _ _ _ (tax_part _ _ Ht)). by exists i. Qed.

Lemma below_top i : (i < length ms)%nat → le i (mh_top_node h).
Proof.
  intros [a Ha]%node_lies. apply (node_le_iff sub E ms (tax_part _ _ Ht) i _ a top Ha (tax_top _ _ Ht)). by eapply Hbounds, lies_all.
Qed.

Lemma above_bottom i : (i < length ms)%nat → le (mh_bottom_node h) i.
Proof.
  intros [a Ha]%node_lies. apply (node_le_iff sub E ms (tax_part _ _ Ht) _ i bottom a (tax_bottom _ _ Ht) Ha). by eapply Hbounds, lies_all.
Qed.

Lemma parents_spec (s : C * Oracle) :
  oracle_ok sub All s.2 →
  meets (boundary layout mode limits tester h (mh_top_node h) false e) s (λ P s', oracle_ok sub All s'.2 ∧ least_above e P) failed.
Proof.
  intros Ho. eapply meets_impl; [apply (boundary_spec layout mode limits sub tester foreign Htester Hcontrol All E); [apply Ht|done|apply tax_inside|done| | | |done]| |done].
  - eapply lies_lt, tax_top, Ht.
  - apply (passes_iff false e _ top); [apply Ht|by apply Hbounds].
  - intros i Hi. pose proof (cover_chain _ _ tax_order _ _ (below_top i (passes_lt _ _ _ Hi))) as Hc.
    eapply rtc_subrel; [|exact Hc]. intros p m [Hpm Him]. split; [|by eapply down_closed].
    apply elem_of_neighbours. by apply (tax_edges _ _ Ht).
  - intros P s' [Ho' HP]. split; [done|]. intros i. rewrite HP. apply and_iff_compat_l.
    rewrite <-(uncovered_minimal _ _ tax_order (down e) i (down_closed e)). unfold uncovered.
    setoid_rewrite elem_of_neighbours. setoid_rewrite (tax_edges _ _ Ht). done.
Qed.

Lemma children_spec (s : C * Oracle) :
  oracle_ok sub All s.2 →
  meets (boundary layout mode limits tester h (mh_bottom_node h) true e) s (λ P s', oracle_ok sub All s'.2 ∧ greatest_below e P) failed.
Proof.
  intros Ho. eapply meets_impl; [apply (boundary_spec layout mode limits sub tester foreign Htester Hcontrol All E); [apply Ht|done|apply tax_inside|done| | | |done]| |done].
  - eapply lies_lt, tax_bottom, Ht.
  - apply (passes_iff true e _ bottom); [apply Ht|by apply Hbounds].
  - intros i Hi. pose proof (cover_chain _ (flip le) (order_flip _ _ tax_order) _ _ (above_bottom i (passes_lt _ _ _ Hi))) as Hc.
    eapply rtc_subrel; [|exact Hc]. intros p m [Hpm%cover_flip Him]. split; [|by eapply up_closed].
    apply elem_of_neighbours. by apply (tax_edges _ _ Ht).
  - intros P s' [Ho' HP]. split; [done|]. intros i. rewrite HP. apply and_iff_compat_l.
    rewrite <-(uncovered_minimal _ (flip le) (order_flip _ _ tax_order) (up e) i (λ x y, up_closed e y x)). unfold uncovered.
    setoid_rewrite elem_of_neighbours. setoid_rewrite (tax_edges _ _ Ht). split; intros Hm m Hc; apply (Hm m); by apply cover_flip.
Qed.
End oracle.

(** ** An element that joins a node *)

Section join.
Context (e : N) (n : nat) (Hup : up e n) (Hdown : down e n).
Abbreviation joined := (alter (λ m : gset N, {[e]} ∪ m) n ms).

Lemma lies_joined i a : lies joined i a ↔ lies ms i a ∨ (i = n ∧ a = e).
Proof.
  unfold lies. destruct (lookup_lt_is_Some_2 ms n (passes_lt _ _ _ Hup)) as [mn En]. destruct (decide (i = n)) as [->|Hne].
  - rewrite list_lookup_alter_eq, En. cbn. split.
    + intros (m & [= <-] & [->%elem_of_singleton|Ha]%elem_of_union); [by right|left; eauto].
    + intros [(m & [= <-] & Ha)|[_ ->]]; eexists; (split; [done|]); set_solver.
  - rewrite list_lookup_alter_ne by done. naive_solver.
Qed.

Lemma part_joined : partitioned sub ({[e]} ∪ E) joined.
Proof.
  pose proof (tax_part _ _ Ht) as Hp. split.
  - intros i m. destruct (decide (i = n)) as [->|Hne].
    + rewrite list_lookup_alter_eq. destruct (ms !! n); [|done]. cbn. intros [= <-]. set_solver.
    + rewrite list_lookup_alter_ne by done. apply Hp.
  - intros a. setoid_rewrite lies_joined. rewrite elem_of_union, elem_of_singleton, (part_all _ _ _ Hp). naive_solver.
  - assert (∀ i a, lies ms i a → i = n ↔ sub a e ∧ sub e a) as Hn.
    { intros i a Ha. destruct (node_lies n (passes_lt _ _ _ Hup)) as [b Hb]. rewrite (part_class _ _ _ Hp i n a b Ha Hb).
      apply (passes_iff true e n b Hb) in Hup. apply (passes_iff false e n b Hb) in Hdown. split; intros [? ?]; split; by etrans. }
    intros i j a b [Ha|[-> ->]]%lies_joined [Hb|[-> ->]]%lies_joined; [by apply Hp|by apply Hn| |done].
    rewrite <-(and_comm (sub b e)), <-(Hn j b Hb). naive_solver.
Qed.

Lemma taxonomy_joined : taxonomy ({[e]} ∪ E) (h <| mh_members ::= alter (λ m, {[e]} ∪ m) n |>).
Proof.
  split; cbn; [apply part_joined| |apply lies_joined; left; apply Ht|apply lies_joined; left; apply Ht].
  intros i j. rewrite (tax_edges _ _ Ht). apply cover_ext. clear i j. intros i j.
  assert (∀ R, (R → (i < length ms)%nat ∧ (j < length ms)%nat) → (∀ a b, lies ms i a → lies ms j b → R ↔ le i j) → le i j ↔ R) as Hcase.
  { intros R Hin HR. split; intros Hh.
    - destruct (node_le_inside _ _ _ _ Hh) as [[a Ha]%node_lies [b Hb]%node_lies]. by apply (HR a b).
    - destruct (Hin Hh) as [[a Ha]%node_lies [b Hb]%node_lies]. by apply (HR a b). }
  apply Hcase.
  - intros [??]%node_le_inside. by rewrite length_alter in *.
  - intros a b Ha Hb. rewrite (node_le_iff sub E ms (tax_part _ _ Ht) i j a b Ha Hb).
    apply (node_le_iff sub _ _ part_joined); apply lies_joined; by left.
Qed.
End join.

(** ** An element with a node of its own *)

Section split.
Context (e : N) (Hnew : ∀ n, up e n → down e n → False).
Context (parents children : gset nat) (Hparents : least_above e parents) (Hchildren : greatest_below e children).
Abbreviation x := (length ms).
Abbreviation split := (ms ++ [ {[e]} ]).

Lemma lies_split i a : lies split i a ↔ lies ms i a ∨ (i = x ∧ a = e).
Proof.
  unfold lies. destruct (decide (i < x)%nat) as [Hi|Hi].
  - rewrite lookup_app_l by done. split; [by left|]. intros [?|[-> _]]; [done|lia].
  - rewrite (lookup_ge_None_2 ms i) by lia. rewrite lookup_app_r by lia. split.
    + intros (m & Hm & Ha). apply list_lookup_singleton_Some in Hm as [Hi' <-]. right. split; [lia|set_solver].
    + intros [(m & ? & _)|[-> ->]]; [done|]. rewrite Nat.sub_diag. exists {[e]}. split; [done|set_solver].
Qed.

Lemma part_split : partitioned sub ({[e]} ∪ E) split.
Proof.
  pose proof (tax_part _ _ Ht) as Hp. split.
  - intros i m [Hm|[_ [_ <-]%list_lookup_singleton_Some]]%lookup_app_Some; [by eapply part_nonempty|set_solver].
  - intros a. setoid_rewrite lies_split. rewrite elem_of_union, elem_of_singleton, (part_all _ _ _ Hp). naive_solver.
  - assert (∀ i a, lies ms i a → i = x ↔ sub a e ∧ sub e a) as Hn.
    { intros i a Ha. split; [intros ->; apply lies_lt in Ha; lia|]. intros [H1 H2]. exfalso.
      apply (Hnew i); by apply (passes_iff _ e i a Ha). }
    intros i j a b [Ha|[-> ->]]%lies_split [Hb|[-> ->]]%lies_split; [by apply Hp|by apply Hn| |done].
    rewrite <-(and_comm (sub b e)), <-(Hn j b Hb). naive_solver.
Qed.

Abbreviation le' := (node_le sub split).

Lemma split_old i j : (i < x)%nat → (j < x)%nat → le' i j ↔ le i j.
Proof.
  intros [a Ha]%node_lies [b Hb]%node_lies. rewrite (node_le_iff sub E ms (tax_part _ _ Ht) i j a b Ha Hb).
  apply (node_le_iff sub _ _ part_split); apply lies_split; by left.
Qed.

Lemma split_up i : (i < x)%nat → le' i x ↔ up e i.
Proof.
  intros [a Ha]%node_lies. rewrite (passes_iff true e i a Ha). apply (node_le_iff sub _ _ part_split); apply lies_split; auto.
Qed.

Lemma split_down j : (j < x)%nat → le' x j ↔ down e j.
Proof.
  intros [b Hb]%node_lies. rewrite (passes_iff false e j b Hb). apply (node_le_iff sub _ _ part_split); apply lies_split; auto.
Qed.

Lemma split_inside i j : le' i j → (i < x ∨ i = x)%nat ∧ (j < x ∨ j = x)%nat.
Proof. intros [Hi Hj]%node_le_inside. rewrite length_app in *. cbn in *. lia. Qed.

(** The covers among the nodes that were there. *)
Lemma cover_old i j : (i < x)%nat → (j < x)%nat → cover le' i j ↔ cover le i j ∧ ¬ (up e i ∧ down e j).
Proof.
  intros Hi Hj. unfold cover, above. rewrite (split_old i j Hi Hj). split.
  - intros [Hij Hz]. split.
    + split; [done|]. intros z [Hiz ?] [Hzj ?]. pose proof (node_le_inside _ _ _ _ Hiz) as [_ Hzx].
      apply (Hz z); by rewrite split_old.
    + intros [Hu Hd]. apply (Hz x); [rewrite split_up by done|rewrite split_down by done]; (split; [done|lia]).
  - intros [[Hij Hz] Hud]. split; [done|]. intros z [Hiz ?] [Hzj ?]. destruct (split_inside _ _ Hiz) as [_ [Hzx| ->]].
    + rewrite split_old in Hiz, Hzj by done. by apply (Hz z).
    + rewrite split_up in Hiz by done. rewrite split_down in Hzj by done. by apply Hud.
Qed.

Lemma cover_split_parent j : (j < x)%nat → cover le' x j ↔ j ∈ parents.
Proof.
  intros Hj. unfold cover, above. rewrite (Hparents j), (split_down j Hj). split.
  - intros [[Hd _] Hz]. split; [done|]. intros m Hm Hmj. destruct (decide (m = j)) as [|Hne]; [done|].
    pose proof (passes_lt _ _ _ Hm) as Hmx. destruct (Hz m); [rewrite split_down by done; split; [done|lia]|by rewrite split_old].
  - intros [Hd Hmin]. split; [split; [done|lia]|]. intros z [Hxz Hne] [Hzj Hne']. destruct (split_inside _ _ Hxz) as [_ [Hzx| ->]]; [|done].
    rewrite split_down in Hxz by done. rewrite split_old in Hzj by done. by apply Hne', Hmin.
Qed.

Lemma cover_split_child i : (i < x)%nat → cover le' i x ↔ i ∈ children.
Proof.
  intros Hi. unfold cover, above. rewrite (Hchildren i), (split_up i Hi). split.
  - intros [[Hu _] Hz]. split; [done|]. intros m Hm Him. destruct (decide (m = i)) as [|Hne]; [done|].
    pose proof (passes_lt _ _ _ Hm) as Hmx. destruct (Hz m); [by rewrite split_old by done|rewrite split_up by done; split; [done|lia]].
  - intros [Hu Hmax]. split; [split; [done|lia]|]. intros z [Hiz Hne] [Hzx' Hne']. destruct (split_inside _ _ Hiz) as [_ [Hzx| ->]]; [|done].
    rewrite split_up in Hzx' by done. rewrite split_old in Hiz by done. apply Hne. symmetry. by apply Hmax.
Qed.

(** The edges that the new node splits. *)
Lemma split_between i j : cover le i j → (i ∈ children ∧ j ∈ parents) ↔ up e i ∧ down e j.
Proof.
  intros [[Hij Hne] Hz]. rewrite (Hchildren i), (Hparents j). split; [naive_solver|]. intros [Hu Hd]. split; (split; [done|]).
  - intros m Hm Him. destruct (decide (m = i)) as [|Hmi]; [done|]. exfalso. apply (Hz m); [by split|].
    split; [by eapply up_down_le|]. intros ->. by apply (Hnew j).
  - intros m Hm Hmj. destruct (decide (m = j)) as [|Hmi]; [done|]. exfalso. apply (Hz m); [|by split].
    split; [by eapply up_down_le|]. intros ->. by apply (Hnew m).
Qed.

Lemma elem_of_split_edges i j :
  (i, j) ∈ mh_edges (insert_between h e parents children) ↔
  (i = x ∧ j ∈ parents) ∨ (j = x ∧ i ∈ children) ∨ ((i, j) ∈ mh_edges h ∧ ¬ (i ∈ children ∧ j ∈ parents)).
Proof.
  cbn. rewrite !elem_of_union, elem_of_difference, !elem_of_map, elem_of_set_bind. setoid_rewrite elem_of_map. naive_solver.
Qed.

Lemma taxonomy_split : taxonomy ({[e]} ∪ E) (insert_between h e parents children).
Proof.
  split; [apply part_split| |apply lies_split; left; apply Ht|apply lies_split; left; apply Ht].
  intros i j. rewrite elem_of_split_edges. cbn [mh_members insert_between].
  assert (∀ i, i ∈ parents → (i < x)%nat) as HP. { intros k [Hk _]%Hparents. by eapply passes_lt. }
  assert (∀ i, i ∈ children → (i < x)%nat) as HC. { intros k [Hk _]%Hchildren. by eapply passes_lt. }
  split.
  - intros [[-> Hj]|[[-> Hi]|[Hij Hb]]]; [by apply cover_split_parent; [apply HP|]|by apply cover_split_child; [apply HC|]|].
    destruct (tax_inside _ _ Hij). apply (tax_edges _ _ Ht) in Hij. apply cover_old; [done|done|]. split; [done|].
    by rewrite <-split_between.
  - intros Hc. destruct (split_inside _ _ (proj1 (proj1 Hc))) as [[Hi| ->] [Hj| ->]].
    + apply cover_old in Hc as [Hc Hud]; [|done|done]. right; right. rewrite (tax_edges _ _ Ht), (split_between i j Hc). done.
    + right; left. by apply cover_split_child in Hc.
    + left. by apply cover_split_parent in Hc.
    + by destruct Hc as [[_ ?] _].
Qed.
End split.

(** A node on both sides of the element is the only one on either side. *)
Lemma common_parents e P n : least_above e P → up e n → down e n → ∀ i, (i ∈ P) ↔ i = n.
Proof.
  intros HP Hu Hd i. rewrite (HP i). split.
  - intros [Hi Hmin]. symmetry. apply Hmin; [done|]. by eapply up_down_le.
  - intros ->. split; [done|]. intros m Hm Hmn. eapply (order_antisym _ _ tax_order); [done|]. by eapply up_down_le.
Qed.

Lemma common_children e P n : greatest_below e P → up e n → down e n → ∀ i, (i ∈ P) ↔ i = n.
Proof.
  intros HP Hu Hd i. rewrite (HP i). split.
  - intros [Hi Hmax]. symmetry. apply Hmax; [done|]. by eapply up_down_le.
  - intros ->. split; [done|]. intros m Hm Hmn. eapply (order_antisym _ _ tax_order); [|done]. by eapply up_down_le.
Qed.
End search.

(** ** Insertion *)

Section insert.
Context {C : Type} `{OperationControl C} `{!CalmControl C}.
Context (layout : ClassificationLayout) (mode : ClassificationMode) (limits : ClassificationLimits).
Context (tester : list (N * N) → st C NativeError (list bool)) (foreign : NativeError → Prop).
Context (Htester : right_tester sub tester foreign) (Hcontrol : control_errors foreign).
Context (All : gset N) (Hbounds : ∀ a, a ∈ All → sub bottom a ∧ sub a top).
Abbreviation failed := (λ (e : NativeError) (_ : C * Oracle), excused foreign e).

Lemma insertion_spec E h e (s : C * Oracle) :
  taxonomy E h → E ⊆ All → e ∈ All → oracle_ok sub All s.2 →
  meets (Classify.insert layout mode limits tester h e) s
    (λ h' s', oracle_ok sub All s'.2 ∧ taxonomy ({[e]} ∪ E) h') failed.
Proof.
  intros Ht HE He Ho. unfold Classify.insert. eapply meets_bind; [by eapply parents_spec|]. intros P s1 [Ho1 HP].
  eapply meets_bind; [by eapply children_spec|]. intros Q s2 [Ho2 HQ].
  destruct (btree_elements (P ∩ Q)) as [|n rest] eqn:Eb.
  - apply meets_ret. split; [done|]. apply btree_elements_nil in Eb. apply (taxonomy_split E h Ht); [|done|done].
    intros n Hu Hd. assert (n ∈ P ∩ Q) as Hn; [|rewrite Eb in Hn; set_solver].
    apply elem_of_intersection. split; [by apply (common_parents E h Ht e P n)|by apply (common_children E h Ht e Q n)].
  - assert (n ∈ P ∩ Q) as [[Hd _]%HP [Hu _]%HQ]%elem_of_intersection by (apply elem_of_btree_elements; rewrite Eb; by left).
    pose proof (common_parents E h Ht e P n HP Hu Hd) as EP. pose proof (common_children E h Ht e Q n HQ Hu Hd) as EQ.
    assert (P = {[n]}) as -> by set_solver. assert (Q = {[n]}) as -> by set_solver.
    assert (rest = []) as ->.
    { apply (f_equal length) in Eb. rewrite length_btree_elements, intersection_idemp_L, size_singleton in Eb. by destruct rest. }
    rewrite !bool_decide_eq_true_2 by done. destruct (lookup_lt_is_Some_2 (mh_members h) n) as [m Em]; [by eapply passes_lt|].
    eapply meets_bind; [by apply (meets_ret tt _ (λ _ t, t = s2))|]. intros [] ? ->. rewrite Em.
    eapply meets_bind; [by apply (meets_ret m _ (λ _ t, t = s2))|]. intros _ ? ->. apply meets_ret. split; [done|].
    by apply taxonomy_joined.
Qed.

Lemma insert_all_spec E h offset l (s : C * Oracle) :
  taxonomy E h → E ⊆ All → Forall (.∈ All) l → oracle_ok sub All s.2 →
  meets (insert_all layout mode limits tester h offset l) s (λ h' _, taxonomy (list_to_set l ∪ E) h') failed.
Proof.
  revert E h offset s. induction l as [|e l IH]; intros E h offset s Ht HE Hl Ho; cbn [insert_all].
  { apply meets_ret. cbn. by rewrite union_empty_l_L. }
  apply Forall_cons in Hl as [He Hl]. eapply (meets_bind _ _ _ (λ _ t, t.2 = s.2)).
  { destruct (_ =? 0)%N; [by apply meets_poll|by apply meets_ret]. }
  intros [] s1 E1. eapply meets_bind; [apply (insertion_spec E h e s1); [done|done|done|by rewrite E1]|]. intros h' s2 [Ho2 Ht2].
  replace (list_to_set (e :: l) ∪ E) with (list_to_set l ∪ ({[e]} ∪ E)) by set_solver. apply IH; [done|set_solver|done|done].
Qed.
End insert.

(** The hierarchy that insertion starts with. *)
Lemma taxonomy_new : sub bottom top → ¬ sub top bottom → taxonomy {[top; bottom]} (new_hierarchy top bottom).
Proof.
  intros Hbt Htb.
  assert (∀ i a, lies (mh_members (new_hierarchy top bottom)) i a ↔ (i = 0%nat ∧ a = top) ∨ (i = 1%nat ∧ a = bottom)) as Hl.
  { intros i a. unfold lies. cbn. split.
    - intros (m & Hm & Ha). destruct i as [|[|i]]; [| |done]; injection Hm as <-; apply elem_of_singleton in Ha; auto.
    - intros [[-> ->]|[-> ->]]; eexists; (split; [done|]); set_solver. }
  assert (partitioned sub {[top; bottom]} (mh_members (new_hierarchy top bottom))) as Hp.
  { split.
    - intros [|[|i]] m; cbn; [intros [= <-]; set_solver|intros [= <-]; set_solver|done].
    - intros e. setoid_rewrite Hl. set_solver.
    - intros i j a b [[-> ->]|[-> ->]]%Hl [[-> ->]|[-> ->]]%Hl; naive_solver. }
  assert (lies (mh_members (new_hierarchy top bottom)) 0 top) as H0 by (apply Hl; auto).
  assert (lies (mh_members (new_hierarchy top bottom)) 1 bottom) as H1 by (apply Hl; auto).
  split; [done| |done|done]. intros i j. cbn [mh_edges new_hierarchy]. rewrite elem_of_singleton.
  assert (∀ i, (i < 2)%nat → i = 0%nat ∨ i = 1%nat) as H2 by lia.
  split.
  - intros [= -> ->]. split; [split; [by apply (node_le_iff sub _ _ Hp _ _ bottom top)|done]|].
    intros z [Hz Hne] [Hz' Hne']. apply node_le_inside in Hz as [_ [->| ->]%H2]; done.
  - intros [[Hij Hne] _]. pose proof (node_le_inside _ _ _ _ Hij) as [[->| ->]%H2 [->| ->]%H2]; [done| |done|done].
    by apply (node_le_iff sub _ _ Hp _ _ top bottom) in Hij.
Qed.
End taxonomy.
