(* ===== verification/ClassifySpec.v ===== *)
(** * The canonical form of a taxonomy

    Freezing sorts the nodes by their members and renames the edges: what it returns
    is the taxonomy, in the form that the audit demands. *)

From S2P Require Import Prelude Order Errors Cancel Contracts SessionSpec Hierarchy HierarchyAudit Classify Condense OracleSpec InsertSpec.
Import Classify.

(** ** Exact hierarchies *)

Definition in_node (h : HierarchyIds) (i : nat) (e : N) : Prop := ∃ node, h_nodes h !! i = Some node ∧ e ∈ node.

Section exact.
Context (sub : N → N → Prop) `{!PreOrder sub}.

(** A member of the node is subsumed by one of the other. *)
Definition below (h : HierarchyIds) (i j : nat) : Prop := ∃ a b, in_node h i a ∧ in_node h j b ∧ sub a b.

(** The nodes are the classes of mutually subsuming elements, the edges the direct
    subsumptions between them. *)
Record exact (E : gset N) (top bottom : N) (h : HierarchyIds) : Prop := {
  ex_elements e : e ∈ E ↔ ∃ i, in_node h i e;
  ex_classes i j a b : in_node h i a → in_node h j b → i = j ↔ sub a b ∧ sub b a;
  ex_edges i j : hedge h i j ↔ cover (below h) i j;
  ex_top : in_node h (N.to_nat (h_top_node h)) top;
  ex_bottom : in_node h (N.to_nat (h_bottom_node h)) bottom
}.

Section order.
Context (E : gset N) (top bottom : N) (h : HierarchyIds) (Hx : exact E top bottom h).

Lemma below_trans i j k : below h i j → below h j k → below h i k.
Proof.
  intros (a & b & Ha & Hb & Hab) (b' & c & Hb' & Hc & Hbc). destruct (proj1 (ex_classes _ _ _ _ Hx j j b b' Hb Hb') eq_refl).
  exists a, c. split_and!; [done|done|]. trans b; [done|]. by trans b'.
Qed.

Lemma below_antisym i j : below h i j → below h j i → i = j.
Proof.
  intros (a & b & Ha & Hb & Hab) (b' & a' & Hb' & Ha' & Hba). apply (ex_classes _ _ _ _ Hx i j a b Ha Hb). split; [done|].
  destruct (proj1 (ex_classes _ _ _ _ Hx j j b b' Hb Hb') eq_refl). destruct (proj1 (ex_classes _ _ _ _ Hx i i a' a Ha' Ha) eq_refl).
  trans b'; [done|]. by trans a'.
Qed.

Lemma path_above i j : tc (hedge h) i j → above (below h) i j.
Proof.
  induction 1 as [i j Hij|i k j Hik _ [IH Hne]]; apply (ex_edges _ _ _ _ Hx) in Hij || apply (ex_edges _ _ _ _ Hx) in Hik.
  - apply Hij.
  - destruct Hik as [[Hik Hne'] _]. split; [by eapply below_trans|]. intros ->. by apply Hne', below_antisym.
Qed.

(** No cycle and no edge that follows from others. *)
Lemma exact_acyclic i : ¬ tc (hedge h) i i.
Proof. intros [_ ?]%path_above. done. Qed.

Lemma exact_reduced i j k : hedge h i j → hedge h i k → k ≠ j → ¬ rtc (hedge h) k j.
Proof.
  intros [_ Hj]%(ex_edges _ _ _ _ Hx) [Hk _]%(ex_edges _ _ _ _ Hx) Hne [->|Hkj%path_above]%rtc_tc; [done|]. by eapply Hj.
Qed.
End order.
End exact.

(** ** Sorting the nodes *)

Lemma NoDup_concat {A} (l : list (list A)) :
  Forall NoDup l → (∀ i j a b x, l !! i = Some a → l !! j = Some b → x ∈ a → x ∈ b → i = j) → NoDup (concat l).
Proof.
  induction l as [|a l IH]; intros Hnd Hd; cbn; [constructor|]. apply Forall_cons in Hnd as [Ha Hnd]. apply NoDup_app. split_and!; [done| |].
  - intros x Hx Hx'. apply list_elem_of_In, in_concat in Hx' as (b & Hb & Hxb). apply list_elem_of_In in Hb, Hxb.
    apply list_elem_of_lookup_1 in Hb as [j Hj]. by specialize (Hd 0%nat (S j) a b x eq_refl Hj Hx Hxb).
  - apply IH; [done|]. intros i j b c x Hi Hj Hb Hc. specialize (Hd (S i) (S j) b c x Hi Hj Hb Hc). by injection Hd.
Qed.

Lemma remap_nodes_spec ordered position remap :
  NoDup ordered.*1 → (∀ i, i ∈ ordered.*1 → (i < length remap)%nat) → N.of_nat (position + length ordered) ≤ u32_max →
  ∃ remap', remap_nodes ordered position remap = Ok remap' ∧ length remap' = length remap ∧
    (∀ i, i ∉ ordered.*1 → remap' !! i = remap !! i) ∧
    ∀ p i l, ordered !! p = Some (i, l) → remap' !! i = Some (N.of_nat (position + p)).
Proof.
  revert position remap. induction ordered as [|[i l] ordered IH]; intros position remap Hnd Hin Hmax; cbn [remap_nodes length fmap list_fmap] in *.
  { exists remap. split_and!; done. }
  apply NoDup_cons in Hnd as [Hi Hnd]. assert (u32_try_from position = Some (N.of_nat position)) as -> by (apply u32_try_from_Some; split; [done|lia]). cbn [ok_or]. rewrite bind_Ok_l.
  destruct (IH (S position) (<[i := N.of_nat position]> remap)) as (remap' & -> & Hlen & Hout & Hpos); [done| |lia|].
  { intros j Hj. rewrite length_insert. apply Hin. by right. }
  exists remap'. rewrite length_insert in Hlen. split_and!; [done|done| |].
  - intros j [Hne Hj]%not_elem_of_cons. rewrite Hout by done. by rewrite list_lookup_insert_ne.
  - intros [|p] j k Hp; cbn in Hp.
    + injection Hp as -> ->. rewrite Hout by done. rewrite list_lookup_insert_eq by (apply Hin; left). f_equal. lia.
    + rewrite (Hpos p j k Hp). f_equal. lia.
Qed.

Section order_nodes.
Context (members : list (gset N)).
Abbreviation ordered := (order_nodes members).

Lemma ordered_Permutation : ordered ≡ₚ imap (λ i m, (i, btree_elements m)) members.
Proof. apply merge_sort_Permutation. Qed.

Lemma elem_of_ordered i l : (i, l) ∈ ordered ↔ ∃ m, members !! i = Some m ∧ l = btree_elements m.
Proof.
  rewrite ordered_Permutation, list_elem_of_lookup. setoid_rewrite list_lookup_imap. split.
  - intros (j & Hj). destruct (members !! j) as [m|] eqn:E; [|done]. injection Hj as -> <-. eauto.
  - intros (m & Hm & ->). exists i. by rewrite Hm.
Qed.

Lemma length_ordered : length ordered = length members.
Proof. by rewrite ordered_Permutation, length_imap. Qed.

Lemma ordered_places : ordered.*1 ≡ₚ seq 0 (length members).
Proof.
  rewrite ordered_Permutation, fmap_imap. apply reflexive_eq, list_eq. intros i. rewrite list_lookup_imap.
  destruct (decide (i < length members)%nat) as [Hi|Hi].
  - rewrite lookup_seq_lt by done. by destruct (lookup_lt_is_Some_2 members i Hi) as [m ->].
  - rewrite lookup_seq_ge, lookup_ge_None_2 by lia. done.
Qed.

Lemma ordered_NoDup : NoDup ordered.*1.
Proof. rewrite ordered_places. apply NoDup_seq. Qed.

Lemma ordered_inj p q i l k : ordered !! p = Some (i, l) → ordered !! q = Some (i, k) → p = q.
Proof. intros Hp Hq. apply (NoDup_lookup _ p q i ordered_NoDup); rewrite list_lookup_fmap; by rewrite ?Hp, ?Hq. Qed.

Lemma ordered_total i m : members !! i = Some m → ∃ p, ordered !! p = Some (i, btree_elements m).
Proof. intros Hm. apply list_elem_of_lookup_1, elem_of_ordered. eauto. Qed.

Lemma ordered_lookup p i l : ordered !! p = Some (i, l) → ∃ m, members !! i = Some m ∧ l = btree_elements m.
Proof. intros Hp. apply elem_of_ordered. by eapply list_elem_of_lookup_2. Qed.
End order_nodes.

(** ** Freezing *)

Lemma collectM_fmap {Er A B} (f : A → outcome Er B) (g : A → B) l : (∀ x, x ∈ l → f x = Ok (g x)) → collectM f l = Ok (g <$> l).
Proof.
  intros Hf. apply collectM_Ok, Forall2_fmap_r, Forall_Forall2_diag, Forall_forall. intros x Hx. by apply Hf.
Qed.

Section freeze.
Context (sub : N → N → Prop) `{!RelDecision sub, !PreOrder sub} (top bottom : N).
Context (E : gset N) (h : MutableHierarchy) (Ht : taxonomy sub top bottom E h) (Hmax : N.of_nat (length (mh_members h)) ≤ u32_max).
Abbreviation ms := (mh_members h).
Abbreviation ordered := (order_nodes ms).

Definition place (i p : nat) : Prop := ∃ l, ordered !! p = Some (i, l).

Lemma place_inj i p q : place i p → place i q → p = q.
Proof. intros [l Hp] [k Hq]. by eapply ordered_inj. Qed.

Lemma place_fun i j p : place i p → place j p → i = j.
Proof. intros [l Hp] [k Hq]. rewrite Hp in Hq. by injection Hq. Qed.

Lemma place_total i : (i < length ms)%nat → ∃ p, place i p ∧ (p < length ms)%nat.
Proof.
  intros [m Hm]%lookup_lt_is_Some. destruct (ordered_total ms i m Hm) as [p Hp]. exists p. split; [by eexists|].
  rewrite <-(length_ordered ms). by eapply lookup_lt_Some.
Qed.

(** What freezing returns. *)
Definition frozen_as (f : HierarchyIds) : Prop :=
  h_nodes f = ordered.*2 ∧ NoDup (h_edges f) ∧ StronglySorted ord_le (h_edges f) ∧
  (∀ c p, (c, p) ∈ h_edges f ↔ ∃ i j k l, (i, j) ∈ mh_edges h ∧ place i k ∧ place j l ∧ c = N.of_nat k ∧ p = N.of_nat l) ∧
  (∃ p, place (mh_top_node h) p ∧ h_top_node f = N.of_nat p) ∧
  (∃ p, place (mh_bottom_node h) p ∧ h_bottom_node f = N.of_nat p).

Lemma freeze_returns : ∃ f, freeze h = Ok f ∧ frozen_as f.
Proof.
  destruct (remap_nodes_spec ordered 0 (replicate (length ordered) 0)) as (remap & Er & Hlen & _ & Hpos).
  { apply ordered_NoDup. }
  { intros i Hi. rewrite ordered_places in Hi. apply elem_of_seq in Hi. rewrite length_replicate, length_ordered. lia. }
  { by rewrite length_ordered. }
  assert (∀ i p, place i p → remap !! i = Some (N.of_nat p)) as Hplace by (intros i p [l Hl]; by eapply Hpos).
  set (pos i := default 0 (remap !! i)).
  assert (∀ i, (i < length ms)%nat → index_or_crash (E:=NativeError) remap i = Ok (pos i) ∧ ∃ p, place i p ∧ pos i = N.of_nat p) as Hindex.
  { intros i (p & Hp & _)%place_total. unfold index_or_crash, pos. rewrite (Hplace i p Hp). split; [done|]. eauto. }
  assert (∀ i j, (i, j) ∈ mh_edges h → (i < length ms)%nat ∧ (j < length ms)%nat) as Hin by (intros i j; by eapply tax_inside).
  unfold freeze, frozen. rewrite Er, bind_Ok_l.
  rewrite (collectM_fmap (remap_edge remap) (λ e, (pos e.1, pos e.2))).
  2: { intros [i j] He%elem_of_btree_elements. destruct (Hin i j He) as [Hi Hj]. unfold remap_edge. cbn [fst snd].
       by rewrite (proj1 (Hindex i Hi)), bind_Ok_l, (proj1 (Hindex j Hj)), bind_Ok_l. }
  rewrite bind_Ok_l. destruct (Hindex (mh_top_node h)) as [-> Htop]; [eapply lies_lt, (tax_top _ _ _ _ _ Ht)|]. rewrite bind_Ok_l.
  destruct (Hindex (mh_bottom_node h)) as [-> Hbot]; [eapply lies_lt, (tax_bottom _ _ _ _ _ Ht)|]. rewrite bind_Ok_l.
  eexists. split; [done|]. unfold frozen_as. cbn [h_nodes h_edges h_top_node h_bottom_node]. split_and!; [done| |apply sort_le_sorted| | |].
  - rewrite sort_Permutation. apply NoDup_fmap_2_strong; [|apply StronglySorted_lt_NoDup, btree_elements_sorted].
    intros [i j] [i' j'] He%elem_of_btree_elements He'%elem_of_btree_elements. cbn. intros [= H1 H2].
    destruct (Hin i j He) as [[_ (p & Hp & Ep)]%Hindex [_ (q & Hq & Eq)]%Hindex].
    destruct (Hin i' j' He') as [[_ (p' & Hp' & Ep')]%Hindex [_ (q' & Hq' & Eq')]%Hindex].
    assert (p = p') as <- by lia. assert (q = q') as <- by lia. f_equal; by eapply place_fun.
  - intros c d. rewrite elem_of_sort, list_elem_of_fmap. split.
    + intros ([i j] & [= -> ->] & He%elem_of_btree_elements). destruct (Hin i j He) as [[_ (p & Hp & Ep)]%Hindex [_ (q & Hq & Eq)]%Hindex].
      by exists i, j, p, q.
    + intros (i & j & p & q & He & Hp & Hq & -> & ->). exists (i, j). split; [|by apply elem_of_btree_elements]. cbn. unfold pos.
      by rewrite (Hplace i p Hp), (Hplace j q Hq).
  - done.
  - done.
Qed.

Section frozen.
Context (f : HierarchyIds) (Hf : frozen_as f).

Lemma in_node_place p e : in_node f p e ↔ ∃ i, place i p ∧ lies ms i e.
Proof.
  destruct Hf as [Hnodes _]. unfold in_node. rewrite Hnodes. setoid_rewrite list_lookup_fmap. split.
  - intros (node & Hn & He). destruct (ordered !! p) as [[i l]|] eqn:Eo; [|done]. injection Hn as <-.
    destruct (ordered_lookup _ _ _ _ Eo) as (m & Hm & ->). exists i. split; [by eexists|]. exists m. split; [done|]. by apply elem_of_btree_elements.
  - intros (i & [l Hl] & m & Hm & He). rewrite Hl. cbn. destruct (ordered_lookup _ _ _ _ Hl) as (m' & Hm' & ->).
    rewrite Hm in Hm'. injection Hm' as <-. eexists. split; [done|]. by apply elem_of_btree_elements.
Qed.

Lemma below_place i j p q : place i p → place j q → below sub f p q ↔ node_le sub ms i j.
Proof.
  intros Hp Hq. unfold below. setoid_rewrite in_node_place. split.
  - intros (a & b & (i' & Hi' & Ha) & (j' & Hj' & Hb) & Hab). rewrite <-(place_fun _ _ _ Hp Hi') in Ha. rewrite <-(place_fun _ _ _ Hq Hj') in Hb.
    by apply (node_le_iff sub E ms (tax_part _ _ _ _ _ Ht) i j a b).
  - intros Hij. destruct (node_le_inside _ _ _ _ Hij) as [Hi Hj]. destruct (node_lies sub top bottom E h Ht i Hi) as [a Ha], (node_lies sub top bottom E h Ht j Hj) as [b Hb].
    exists a, b. split_and!; [by exists i|by exists j|]. by apply (node_le_iff sub E ms (tax_part _ _ _ _ _ Ht) i j a b).
Qed.

Lemma below_places p q : below sub f p q → ∃ i j, place i p ∧ place j q.
Proof. intros (a & b & (i & Hi & _)%in_node_place & (j & Hj & _)%in_node_place & _). eauto. Qed.

Lemma above_place i j p q : place i p → place j q → above (below sub f) p q ↔ above (node_le sub ms) i j.
Proof.
  intros Hp Hq. unfold above. rewrite (below_place i j p q Hp Hq). apply and_iff_compat_l.
  split; intros Hne ->; apply Hne; [by eapply place_inj|by eapply place_fun].
Qed.

Lemma cover_place i j p q : place i p → place j q → cover (below sub f) p q ↔ cover (node_le sub ms) i j.
Proof.
  intros Hp Hq. unfold cover. rewrite (above_place i j p q Hp Hq). apply and_iff_compat_l. split; intros Hz.
  - intros k Hik Hkj. destruct (node_le_inside _ _ _ _ (proj1 Hik)) as [_ (r & Hr & _)%place_total].
    apply (Hz r); by eapply above_place.
  - intros r Hpr Hrq. destruct (below_places _ _ (proj1 Hpr)) as (_ & k & _ & Hk). apply (Hz k); by eapply above_place.
Qed.

Lemma frozen_exact : exact sub E top bottom f.
Proof.
  pose proof (tax_part _ _ _ _ _ Ht) as Hpart. pose proof Hf as (_ & _ & _ & Hedges & (pt & Hpt & Et) & (pb & Hpb & Eb)). split.
  - intros e. rewrite (part_all _ _ _ Hpart). setoid_rewrite in_node_place. split; [|naive_solver]. intros (i & Hi).
    destruct (place_total i (lies_lt _ _ _ Hi)) as (p & Hp & _). eauto.
  - intros p q a b (i & Hp & Ha)%in_node_place (j & Hq & Hb)%in_node_place. rewrite <-(part_class _ _ _ Hpart i j a b Ha Hb).
    split; intros ->; [by eapply place_fun|by eapply place_inj].
  - intros p q. unfold hedge. rewrite Hedges. split.
    + intros (i & j & k & l & He & Hi & Hj & ->%Nat2N.inj & ->%Nat2N.inj). apply (cover_place i j); [done|done|]. by apply (tax_edges _ _ _ _ _ Ht).
    + intros Hc. destruct (below_places _ _ (proj1 (proj1 Hc))) as (i & j & Hi & Hj). apply (cover_place i j) in Hc; [|done|done].
      exists i, j, p, q. by rewrite (tax_edges _ _ _ _ _ Ht).
  - rewrite Et, Nat2N.id. apply in_node_place. exists (mh_top_node h). split; [done|apply Ht].
  - rewrite Eb, Nat2N.id. apply in_node_place. exists (mh_bottom_node h). split; [done|apply Ht].
Qed.

Lemma frozen_nodes : h_nodes f = ordered.*2 ∧ length (h_nodes f) = length ms ∧
  ∀ p node, h_nodes f !! p = Some node → node ≠ [] ∧ StronglySorted ord_lt node.
Proof.
  destruct Hf as [Hnodes _]. split_and!; [done|by rewrite Hnodes, length_fmap, length_ordered|].
  intros p node Hp. rewrite Hnodes, list_lookup_fmap in Hp. destruct (ordered !! p) as [[i l]|] eqn:Eo; [|done]. injection Hp as <-.
  destruct (ordered_lookup _ _ _ _ Eo) as (m & Hm & ->). split; [|apply btree_elements_sorted].
  cbn. rewrite btree_elements_nil. by eapply part_nonempty; [apply Ht|].
Qed.

Lemma frozen_sorted : StronglySorted ord_lt (h_nodes f).
Proof.
  destruct frozen_nodes as (Hnodes & Hlen & Hne). rewrite Hnodes in *. apply StronglySorted_le_NoDup.
  - assert (Total (λ l r : nat * list N, ord_le l.2 r.2)) by (intros [? l] [? r]; apply (total ord_le)).
    assert (Transitive (λ l r : nat * list N, ord_le l.2 r.2)) by (intros [? l] [? r] [? t]; cbn; apply transitivity).
    pose proof (StronglySorted_merge_sort (λ l r : nat * list N, ord_le l.2 r.2) (imap (λ i m, (i, btree_elements m)) ms)) as Hs.
    fold (order_nodes ms) in Hs. clear -Hs. induction Hs as [|x l _ IH Hx]; cbn; constructor; [done|by apply Forall_fmap].
  - apply NoDup_alt. intros p q node Hp Hq. destruct (Hne p node Hp) as [Hn _]. destruct node as [|e node]; [done|].
    apply (ex_classes _ _ _ _ _ frozen_exact p q e e); [eexists; split; [by rewrite Hnodes|left]..|done].
Qed.

Lemma frozen_audited : audited f.
Proof.
  destruct frozen_nodes as (Hnodes & Hlen & Hne). pose proof Hf as (_ & Hnd & Hsorted & Hedges & (pt & Hpt & Et) & (pb & Hpb & Eb)).
  assert (∀ i p, place i p → (p < length (h_nodes f))%nat) as Hlt.
  { intros i p [l Hl]. rewrite Hlen, <-(length_ordered ms). by eapply lookup_lt_Some. }
  split.
  - split; [|apply Forall_lookup; intros p node Hp; by apply (Hne p)]. intros En. apply Hlt in Hpt. rewrite En in Hpt. cbn in Hpt. lia.
  - by rewrite Hlen.
  - apply frozen_sorted.
  - apply Forall_lookup. intros p node Hp. by apply (Hne p).
  - apply NoDup_concat.
    + apply Forall_lookup. intros p node Hp. by apply StronglySorted_lt_NoDup, (Hne p).
    + intros p q a b x Hp Hq Ha Hb. apply (ex_classes _ _ _ _ _ frozen_exact p q x x); [by eexists|by eexists|done].
  - rewrite Et, Eb. apply Hlt in Hpt, Hpb. lia.
  - by apply StronglySorted_le_NoDup.
  - intros [c p] (i & j & k & l & _ & Hi%Hlt & Hj%Hlt & -> & ->)%Hedges. cbn. lia.
  - apply (exact_acyclic sub _ _ _ _ frozen_exact).
  - apply (exact_reduced sub _ _ _ _ frozen_exact).
Qed.
End frozen.
End freeze.

(** * Classification returns the taxonomy

    From the told relations and a tester that answers right, insertion computes the
    classes and direct subsumptions of the whole domain. *)

Import Classify Condense.

Lemma binary_search_found `{OrdLaws A} (l : list A) x : found (binary_search l x) = true → x ∈ l.
Proof.
  induction l as [|y l IH]; cbn; [done|]. destruct (compare y x) eqn:Ec; cbn; [|destruct (binary_search l x); cbn in *; [|done]|done].
  - intros _. apply compare_eq in Ec as ->. left.
  - intros _. right. by apply IH.
Qed.

Lemma elem_of_seed elements top bottom known r :
  r ∈ seed_relations elements top bottom known ↔ r ∈ known ∨ ∃ e, e ∈ elements ∧ (r = (e, e) ∨ r = (e, top) ∨ r = (bottom, e)).
Proof.
  unfold seed_relations. rewrite <-(elem_of_list_to_set (C:=gset (N * N)) r known). generalize (list_to_set known : gset (N * N)). intros X.
  revert X. induction elements as [|e elements IH]; intros X; cbn [foldl]; [set_solver|]. rewrite IH. set_solver.
Qed.

Section oracle.
Context (sub : N → N → Prop) `{!RelDecision sub, !PreOrder sub}.
Context (elements : list N).
Abbreviation All := (list_to_set elements : gset N).

Lemma lookup_empty_sets (l : list N) (m : gmap N (gset N)) e :
  foldl (λ m e, <[e := ∅]> m) m l !! e = if decide (e ∈ l) then Some ∅ else m !! e.
Proof.
  revert m. induction l as [|x l IH]; intros m; cbn [foldl]; [by rewrite decide_False by apply not_elem_of_nil|]. rewrite IH.
  destruct (decide (e ∈ l)); [by rewrite decide_True by (by right)|]. destruct (decide (e = x)) as [->|Hne].
  - rewrite lookup_insert_eq. by rewrite decide_True by left.
  - rewrite lookup_insert_ne by done. rewrite decide_False; [done|]. by apply not_elem_of_cons.
Qed.

(** The parents of every element hold. *)
Definition told (successors : gmap N (gset N)) : Prop :=
  (∀ e, e ∈ All → is_Some (successors !! e)) ∧ ∀ c out p, successors !! c = Some out → p ∈ out → p ∈ All ∧ sub c p.

Lemma successors_of_spec known successors :
  told successors → Forall (λ r, r.1 ∈ All ∧ r.2 ∈ All ∧ sub r.1 r.2) known →
  ∃ successors', successors_of known successors = Ok successors' ∧ told successors'.
Proof.
  revert successors. induction known as [|[c p] known IH]; intros successors Ht Hk; cbn [successors_of]; [by eexists|].
  apply Forall_cons in Hk as [(Hc & Hp & Hs) Hk]. destruct Ht as [Hd Ho]. destruct (Hd c Hc) as [out Eout]. rewrite Eout. cbn [ok_or]. rewrite bind_Ok_l.
  apply IH; [|done]. split.
  - intros e He. destruct (decide (e = c)) as [->|Hne]; [rewrite lookup_insert_eq; by eexists|]. rewrite lookup_insert_ne by done. auto.
  - intros c' out' p'. destruct (decide (c' = c)) as [->|Hne]; [|rewrite lookup_insert_ne by done; apply Ho].
    rewrite lookup_insert_eq. intros [= <-] [->%elem_of_singleton|Hp']%elem_of_union; [done|by eapply Ho].
Qed.

Lemma new_oracle_ok known :
  (∀ r, r ∈ known → r.1 ∈ All ∧ r.2 ∈ All ∧ sub r.1 r.2) →
  ∃ o, new_oracle elements known = Ok o ∧ oracle_ok sub All o.
Proof.
  intros Hk. unfold new_oracle. destruct (successors_of_spec (btree_elements known) (foldl (λ m e, <[e := ∅]> m) ∅ elements)) as (ss & Hss & Hd & Ho).
  - split; [intros e He|intros c out p]; rewrite lookup_empty_sets.
    + rewrite decide_True by set_solver. by eexists.
    + case_decide; [intros [= <-]; set_solver|done].
  - apply Forall_forall. intros r Hr%elem_of_btree_elements. auto.
  - rewrite Hss, bind_Ok_l. eexists. split; [done|]. split; cbn; [|done|done].
    intros r b Hr. apply lookup_set_to_map in Hr; [|by intros ?? _ _ ?]. destruct Hr as (r' & Hr' & [= -> <-]).
    symmetry. apply bool_decide_eq_true. by apply Hk.
Qed.
End oracle.

Section classify.
Context {C : Type} `{OperationControl C} `{!CalmControl C}.
Context (layout : ClassificationLayout).
Context (sub : N → N → Prop) `{!RelDecision sub, !PreOrder sub}.
Context (tester : list (N * N) → st C NativeError (list bool)) (foreign : NativeError → Prop).
Context (Htester : right_tester sub tester foreign) (Hcontrol : control_errors foreign).

(** The problem is about [sub]: what is told holds, and all elements lie between a
    bottom and a top that differ. *)
Record posed (p : ClassificationProblem) : Prop := {
  posed_known r : r ∈ pb_known p → sub r.1 r.2;
  posed_bounds e : e ∈ pb_elements p → sub (pb_bottom p) e ∧ sub e (pb_top p);
  posed_proper : ¬ sub (pb_top p) (pb_bottom p)
}.

(** The problem passes the checks of its form. *)
Definition accepted (p : ClassificationProblem) : Prop :=
  Hierarchy.validate_limits (pb_limits p) = Ok (pb_limits p) ∧
  validate_inputs (pb_elements p) (pb_top p) (pb_bottom p) (pb_known p) (pb_limits p) = Ok tt.

Lemma accepted_inside p : accepted p →
  pb_top p ∈ pb_elements p ∧ pb_bottom p ∈ pb_elements p ∧
  ∀ r, r ∈ pb_known p → r.1 ∈ pb_elements p ∧ r.2 ∈ pb_elements p.
Proof.
  intros [_ Hv]. unfold validate_inputs in Hv.
  apply outcome_bind_Ok in Hv as ([] & _ & Hv). apply outcome_bind_Ok in Hv as ([] & _ & Hv).
  apply outcome_bind_Ok in Hv as ([] & [[_ Ht%negb_false_iff]%orb_false_iff Hb%negb_false_iff]%reject_if_Ok%orb_false_iff & Hv).
  apply outcome_bind_Ok in Hv as ([] & _ & Hv%reject_if_Ok). split_and!; [by apply binary_search_found|by apply binary_search_found|].
  intros r Hr. apply not_true_iff_false in Hv. rewrite existsb_exists in Hv.
  destruct (present (pb_elements p) r.1 && present (pb_elements p) r.2) eqn:Ep.
  - apply andb_true_iff in Ep as [H1 H2]. split; by apply binary_search_found.
  - exfalso. apply Hv. exists r. split; [by apply list_elem_of_In|]. rewrite <-negb_andb, Ep. done.
Qed.

Abbreviation result p := (λ r (_ : C), exact sub (list_to_set (pb_elements p)) (pb_top p) (pb_bottom p) (cn_hierarchy r) ∧ audited (cn_hierarchy r)).
Abbreviation failed := (λ (e : NativeError) (_ : C), excused foreign e).

Lemma meets_within {T X} (t : T) (m : st (C * T) NativeError X) c (Q : X → C * T → Prop) (R : NativeError → Prop) :
  meets m (c, t) Q (λ e _, R e) → meets (within t m) c (λ r c', Q r.1 (c', r.2)) (λ e _, R e).
Proof. unfold meets, within. by destruct (m (c, t)) as [[x|e|] [c' t']]. Qed.

Lemma meets_stop l o a (c : C) (P : unit → C → Prop) : P tt c → meets (lift (Hierarchy.check_count l o a)) c P failed.
Proof. intros HP. apply meets_reject; [done|]. right. by left. Qed.

Lemma insertion_order_elements p counts :
  pb_top p ∈ pb_elements p → pb_bottom p ∈ pb_elements p →
  list_to_set (insertion_order (pb_elements p) (pb_top p) (pb_bottom p) counts) ∪ {[pb_top p; pb_bottom p]} = (list_to_set (pb_elements p) : gset N).
Proof.
  intros Ht Hb. apply set_eq. intros e. unfold insertion_order. rewrite elem_of_union, !elem_of_list_to_set, merge_sort_Permutation, list_elem_of_filter.
  destruct (decide (e = pb_top p)), (decide (e = pb_bottom p)); set_solver.
Qed.

(** There are no more nodes than elements. *)
Lemma nodes_bound (l : list N) ms : partitioned sub (list_to_set l) ms → (length ms ≤ length l)%nat.
Proof.
  intros Hp. set (reps := (λ i, default 0%N (rep ms i)) <$> seq 0 (length ms)).
  assert (∀ i, (i < length ms)%nat → lies ms i (default 0%N (rep ms i))) as Hr.
  { intros i Hi. destruct (rep_Some sub _ ms Hp i Hi) as [a Ea]. rewrite Ea. by apply rep_lies. }
  assert (NoDup reps) as Hnd.
  { apply NoDup_fmap_2_strong; [|apply NoDup_seq]. intros i j Hi%elem_of_seq Hj%elem_of_seq E.
    apply (part_class _ _ _ Hp i j _ _ (Hr i ltac:(lia)) (Hr j ltac:(lia))). by rewrite E. }
  replace (length ms) with (length reps) by (unfold reps; by rewrite length_fmap, length_seq).
  apply submseteq_length, NoDup_submseteq; [done|]. intros e (i & -> & Hi%elem_of_seq)%list_elem_of_fmap.
  apply (elem_of_list_to_set (C:=gset N)), (part_all _ _ _ Hp). exists i. apply Hr. lia.
Qed.

Lemma classify_by_insertion_spec p c :
  accepted p → posed p → N.of_nat (length (pb_elements p)) ≤ u32_max →
  meets (classify_by_insertion layout tester p (pb_limits p)) c (result p) failed.
Proof.
  intros Hacc [Hknown Hbounds Hproper] Hmax. destruct (accepted_inside p Hacc) as (Htop & Hbot & Hin).
  unfold classify_by_insertion. set (seed := seed_relations (pb_elements p) (pb_top p) (pb_bottom p) (pb_known p)).
  eapply meets_bind; [by apply (meets_stop _ _ _ c (λ _ _, True))|intros [] c1 _].
  eapply meets_bind; [by apply (meets_stop _ _ _ c1 (λ _ _, True))|intros [] c2 _].
  eapply (meets_bind _ _ _ (λ _ _, True)).
  { pose proof (calm_observe (estimate_initial_memory layout (length (pb_elements p)) (size seed)) c2) as Hcalm.
    pose proof (observe_error _ Hcontrol (estimate_initial_memory layout (length (pb_elements p)) (size seed)) c2) as Herr.
    unfold meets. destruct (control_observe_memory _ c2) as [[]]; [done|left; by apply Herr|done]. }
  intros [] c3 _. destruct (new_oracle_ok sub (pb_elements p) seed) as (o & Ho & Hok).
  { intros r Hr. apply elem_of_seed in Hr as [Hr|(e & He & [-> |[-> | ->]])]; cbn; rewrite ?elem_of_list_to_set.
    - destruct (Hin r Hr). auto.
    - done.
    - split_and!; [done|done|by apply Hbounds].
    - split_and!; [done|done|by apply Hbounds]. }
  rewrite Ho. eapply meets_bind; [by apply (meets_ret o _ (λ x _, x = o))|]. intros ? c4 ->.
  set (order := insertion_order _ _ _ _).
  pose proof (insertion_order_elements p (child_counts (pb_elements p) o) Htop Hbot) as Horder. fold order in Horder.
  eapply meets_bind.
  { apply meets_within, (insert_all_spec sub (pb_top p) (pb_bottom p) layout (pb_mode p) (pb_limits p) tester foreign Htester Hcontrol (list_to_set (pb_elements p))).
    - intros a Ha%elem_of_list_to_set. by apply Hbounds.
    - apply (taxonomy_new sub); [by apply Hbounds|done].
    - set_solver.
    - apply Forall_forall. intros e He. rewrite <-Horder. set_solver.
    - exact Hok. }
  intros [h o'] c5 Ht. cbn [fst snd] in Ht. rewrite Horder in Ht.
  pose proof (nodes_bound _ _ (tax_part _ _ _ _ _ Ht)) as Hle.
  destruct (freeze_returns sub (pb_top p) (pb_bottom p) _ h Ht) as (f & Ef & Hf); [lia|]. rewrite Ef.
  assert (audited f) as Ha by (apply (frozen_audited sub (pb_top p) (pb_bottom p) _ h Ht); [lia|done]).
  eapply meets_bind; [by apply (meets_ret f _ (λ x _, x = f))|]. intros ? c6 ->. rewrite (proj2 (validate_iff f) Ha).
  eapply meets_bind; [by apply (meets_ret tt _ (λ _ _, True))|]. intros [] c7 _. rewrite (proj2 (u32_try_from_Some _ _) (conj eq_refl Hmax)).
  eapply meets_bind; [by apply (meets_ret _ _ (λ _ _, True))|]. intros ? c8 _. apply meets_ret. cbn. split; [by eapply frozen_exact|done].
Qed.
End classify.

(** ** Results are audited *)

Section validated.
Context {C : Type} `{OperationControl C} (layout : ClassificationLayout).
Context (tester : list (N * N) → st C NativeError (list bool)).

Lemma within_Ok {T X} (t : T) (m : st (C * T) NativeError X) c r c' :
  within t m c = (Ok r, c') → m (c, t) = (Ok r.1, (c', r.2)).
Proof. unfold within. destruct (m (c, t)) as [[x|e|] [c2 t2]]; cbn; [|done|done]. by intros [= <- <-]. Qed.

Lemma freeze_partition_validated components edges top bottom h :
  freeze_partition components edges top bottom = Ok h → Hierarchy.validate h = Ok tt.
Proof. unfold freeze_partition. intros Hf. by inv_ok. Qed.

Lemma build_validated elements top bottom known limits s h s' :
  build_complete_hierarchy (C:=C) layout elements top bottom known limits s = (Ok h, s') → Hierarchy.validate h = Ok tt.
Proof. unfold build_complete_hierarchy. intros Hb. inv_ok. by eapply freeze_partition_validated. Qed.

Lemma classify_complete_validated p limits (c c' : C) r :
  classify_complete layout p limits c = (Ok r, c') → Hierarchy.validate (cn_hierarchy r) = Ok tt.
Proof.
  unfold classify_complete. intros Hr. inv_ok. cbn [cn_hierarchy].
  match goal with H : within _ _ _ = _ |- _ => apply within_Ok in H end. by eapply build_validated.
Qed.

Lemma classify_by_insertion_validated p limits (c c' : C) r :
  classify_by_insertion layout tester p limits c = (Ok r, c') → Hierarchy.validate (cn_hierarchy r) = Ok tt.
Proof. unfold classify_by_insertion. intros Hr. inv_ok. match goal with x : (MutableHierarchy * Oracle)%type |- _ => destruct x end. inv_ok. done. Qed.
End validated.
