(* ===== verification/ClassifyTheorems.v ===== *)
(** * Theorems on classification (native/src/services/classification.rs) *)

From S2P Require Import Prelude Order Errors Cancel Contracts SessionSpec Hierarchy HierarchyAudit Classify Condense InsertSpec OracleSpec ClassifySpec.
Import Classify Condense.

(** ** A domain of bit masks

    Elements are masks of four bits, up to the bits above; one subsumes another when
    it has its bits. *)

Definition within_mask (a b : N) : Prop := N.land (a mod 16) (b mod 16) = a mod 16.

#[global] Instance within_mask_dec : RelDecision within_mask.
Proof. intros a b. unfold within_mask. apply _. Defined.

#[global] Instance within_mask_preorder : PreOrder within_mask.
Proof.
  split; unfold within_mask; [intros a; apply N.land_diag|]. intros a b c Hab Hbc. by rewrite <-Hab, <-N.land_assoc, Hbc.
Qed.

Definition mask_tester (rs : list (N * N)) : st unit NativeError (list bool) := mret (verdicts within_mask rs).

Definition mask_problem : ClassificationProblem :=
  mkProblem [0; 1; 2; 3; 6; 15; 19] 15 0 [(1, 3)] false QuasiOrder Hierarchy.default_classification_limits.

Definition mask_layout : ClassificationLayout := mkClassificationLayout 4 24 8 12.

Definition mask_taxonomy : HierarchyIds :=
  mkHierarchy [[0]; [1]; [2]; [3; 19]; [6]; [15]] [(0, 1); (0, 2); (1, 3); (2, 3); (2, 4); (3, 5); (4, 5)] 5 0.

(** The same problem with all that holds told. *)
Definition complete_masks (p : ClassificationProblem) : ClassificationProblem :=
  mkProblem (pb_elements p) (pb_top p) (pb_bottom p)
    (filter (λ r, within_mask r.1 r.2) (pb_elements p ≫= λ a, pair a <$> pb_elements p)) true (pb_mode p) (pb_limits p).

(** ** The theorems *)

(** C12: classification without a complete told relation returns the taxonomy of the
    domain: for a tester whose answers are right, told relations that hold and a
    bottom and a top around all elements that differ, a problem that passes the
    checks of its form gives a hierarchy whose nodes are the classes of mutually
    subsuming elements, whose edges are the direct subsumptions between them and
    which passes the audit; the only errors are those of the tester and the
    control, a passed limit and an overflow of the two counters.  It never panics. *)
Theorem classification_exact {C : Type} `{OperationControl C, !CalmControl C} layout (sub : N → N → Prop) `{!RelDecision sub, !PreOrder sub}
    tester foreign p c :
  right_tester sub tester foreign → control_errors foreign →
  accepted p → posed sub p → pb_known_complete p = false → N.of_nat (length (pb_elements p)) ≤ u32_max →
  meets (classify_ids layout tester p) c
    (λ r _, exact sub (list_to_set (pb_elements p)) (pb_top p) (pb_bottom p) (cn_hierarchy r) ∧ audited (cn_hierarchy r))
    (λ e _, excused foreign e).
Proof.
  intros Ht Hc Hacc Hp Hk Hmax. unfold classify_ids. eapply (meets_bind _ _ _ (λ _ _, True)).
  { pose proof (calm_poll c). pose proof (poll_error _ Hc c). unfold meets. destruct (control_poll c) as [[]]; [done|left; auto|done]. }
  intros [] c1 _. destruct Hacc as [Hl Hv]. rewrite Hl. eapply meets_bind; [by apply (meets_ret _ _ (λ x _, x = pb_limits p))|].
  intros ? c2 ->. rewrite Hv. eapply meets_bind; [by apply (meets_ret _ _ (λ _ _, True))|]. intros [] c3 _. rewrite Hk.
  by apply (classify_by_insertion_spec layout sub tester foreign).
Qed.

(** Masks under inclusion: 3 and 19 share a node, and 3 has the children 1 and 2. *)
Lemma classification_exact_witness :
  exact within_mask (list_to_set [0; 1; 2; 3; 6; 15; 19]) 15 0 mask_taxonomy ∧ audited mask_taxonomy.
Proof.
  pose proof (classification_exact (C:=unit) mask_layout within_mask mask_tester (λ _, False) mask_problem tt) as Hx.
  assert (∃ stats, classify_ids mask_layout mask_tester mask_problem tt = (Ok (mkClassification mask_taxonomy stats), tt)) as [stats Hrun].
  { eexists. vm_compute. reflexivity. }
  unfold meets in Hx. rewrite Hrun in Hx. cbn [cn_hierarchy] in Hx.
  apply Hx.
  - intros rs []. done.
  - split; done.
  - split; vm_compute; reflexivity.
  - split.
    + intros r ->%list_elem_of_singleton. vm_compute. reflexivity.
    + apply Forall_forall. eapply bool_decide_eq_true_1. vm_compute. reflexivity.
    + intros Hm. vm_compute in Hm. done.
  - reflexivity.
  - vm_compute. done.
Defined.

(** C25: the audit of a hierarchy decides its soundness: it returns on every
    hierarchy, and accepts exactly those with nodes that are not empty, in canonical
    order and without a common member, a top and a bottom among them, and edges
    between nodes in canonical order that have no cycle and none of which follows
    from others. *)
Theorem audit_exact h :
  Hierarchy.validate h ≠ Crash ∧ (Hierarchy.validate h = Ok tt ↔ audited h).
Proof. split; [apply validate_returns|apply validate_iff]. Qed.

(** A hierarchy that classification returns has passed the audit, whatever the
    tester answers and whether or not the told relation was complete. *)
Theorem classification_audited {C : Type} `{OperationControl C} layout tester p (c c' : C) r :
  classify_ids layout tester p c = (Ok r, c') → audited (cn_hierarchy r).
Proof.
  intros Hrun. apply validate_iff. unfold classify_ids in Hrun. inv_ok. destruct (pb_known_complete p).
  - by eapply classify_complete_validated.
  - by eapply classify_by_insertion_validated.
Qed.

Lemma classification_audited_witness :
  audited mask_taxonomy ∧ pb_known_complete (complete_masks mask_problem) = true.
Proof.
  split; [|reflexivity].
  assert (∃ r, classify_ids (C:=unit) mask_layout mask_tester (complete_masks mask_problem) tt = (Ok r, tt) ∧ cn_hierarchy r = mask_taxonomy) as (r & Hrun & <-).
  { eexists. split; [vm_compute; reflexivity|vm_compute; reflexivity]. }
  exact (classification_audited mask_layout mask_tester (complete_masks mask_problem) tt tt r Hrun).
Defined.
