(* ===== verification/Branching.v ===== *)
(** * Ground-disjunction branching and backjumping (native/src/branching/mod.rs)

    [DisjunctionBrancher] takes a pending disjunction, drops its refuted
    disjuncts and branches over the rest; on a clash it advances the branch the
    clash depends on last, or propagates the clash below it.  Ground atoms are
    reached through the [GroundAtomAccess] interface. *)

From S2P Require Import Prelude Order Errors Model Queue Store Kernel KernelBase Arena Facts FactOps.
From S2P Require Import StateInv NodeOps Merge Prune KernelInv Totality Cancel.
Import Kernel.

Inductive BranchTransition :=
| NoWork | Satisfied | Deterministic | Branched | Advanced | Exhausted | Unsat.

#[global] Instance BranchTransition_eq_dec : EqDecision BranchTransition.
Proof. solve_decision. Defined.

(** ** The interface to ground atoms *)

Class GroundAtomAccess (A : Type) := {
  atom_is_satisfied : A → TableauKernel → N → NativeResult bool;
  atom_refutation_dependency : A → TableauKernel → N → NativeResult (option DependencySet);
  dispatch_atom : N → DependencySet → st (A * TableauKernel) NativeError bool
}.

(** What the brancher relies on.  [access_ok] is the invariant that ties the atoms
    to a state; it depends on the rows alone.  Under it the methods return,
    refutations are dependency sets, and asserting an atom stays inside the
    current branch; no call invalidates the states that were saved before. *)
Class GroundAtomLaws (A : Type) `{GroundAtomAccess A} := {
  access_ok : A → MutableState → Prop;
  access_facts a s s' : facts s' = facts s → access_ok a s → access_ok a s';
  satisfied_returns a k atom :
    state_ok (top k) (state k) → access_ok a (state k) → atom_is_satisfied a k atom ≠ Crash;
  refutation_returns a k atom :
    state_ok (top k) (state k) → access_ok a (state k) → atom_refutation_dependency a k atom ≠ Crash;
  dispatch_returns a k atom d :
    state_ok (top k) (state k) → access_ok a (state k) → canonical d → (dispatch_atom atom d (a, k)).1 ≠ Crash;
  refutation_canonical a k atom d : atom_refutation_dependency a k atom = Ok (Some d) → canonical d;
  dispatch_root a k atom d : operation_root (dispatch_atom atom d (a, k)).2.2 = operation_root k;
  dispatch_evolves a k atom d s : access_ok a s → access_ok (dispatch_atom atom d (a, k)).2.1 s;
  dispatch_inside a k atom d b a' k' :
    state_ok (top k) (state k) → access_ok a (state k) → canonical d → dispatch_atom atom d (a, k) = (Ok b, (a', k')) →
    kframe k k' ∧ state_ok (top k) (state k') ∧ access_ok a' (state k')
}.

(** The brancher's world: the kernel, the atoms and the shared cancellation
    state, with the number of polls so far. *)
Record World (A : Type) := mkWorld {
  w_kernel : TableauKernel;
  w_access : A;
  w_cancel : CancellationState;
  w_polls : nat
}.
Arguments mkWorld {A}.
Arguments w_kernel {A}.
Arguments w_access {A}.
Arguments w_cancel {A}.
Arguments w_polls {A}.

Section brancher.
Context {A : Type} `{GroundAtomAccess A}.
(** What other threads do to the cancellation state before the n-th poll, and
    the time of that poll. *)
Context (others : nat → CancellationState → CancellationState) (clock : nat → N).

Abbreviation B X := (st (World A) NativeError X).

Definition kern {X} (m : K X) : B X := λ w,
  let '(r, k') := m (w_kernel w) in (r, mkWorld k' (w_access w) (w_cancel w) (w_polls w)).

Definition poll : B unit := λ w,
  let '(r, c') := Cancel.poll (clock (w_polls w)) (others (w_polls w) (w_cancel w)) in
  (r, mkWorld (w_kernel w) (w_access w) c' (S (w_polls w))).

Definition dispatch (atom : N) (d : DependencySet) : B bool := λ w,
  let '(r, (a', k')) := dispatch_atom atom d (w_access w, w_kernel w) in
  (r, mkWorld k' a' (w_cancel w) (w_polls w)).

(** The loop that looks for a satisfied disjunct. *)
Fixpoint any_satisfied (atoms : list N) : B bool :=
  match atoms with
  | [] => mret false
  | atom :: atoms =>
      _ ← poll;
      reads (λ w, atom_is_satisfied (w_access w) (w_kernel w) atom) ≫= λ satisfied : bool,
      if satisfied then mret true else any_satisfied atoms
  end.

(** The loop that splits the disjuncts into refutations and the rest. *)
Fixpoint split_refuted (atoms : list N) (remaining : list N) (dependencies : list DependencySet) :
    B (list N * list DependencySet) :=
  match atoms with
  | [] => mret (remaining, dependencies)
  | atom :: atoms =>
      _ ← poll;
      refutation ← reads (λ w, atom_refutation_dependency (w_access w) (w_kernel w) atom);
      match refutation with
      | Some d => split_refuted atoms remaining (dependencies ++ [d])
      | None => split_refuted atoms (remaining ++ [atom]) dependencies
      end
  end.

Definition process_next_inner : B BranchTransition :=
  _ ← poll;
  taken ← kern take_disjunction;
  match taken with
  | None => _ ← poll; mret NoWork
  | Some did =>
      record ← kern (reads (disjunction did));
      any_satisfied (disjunct_ids record) ≫= λ satisfied : bool,
      if satisfied then _ ← poll; mret Satisfied
      else
        split ← split_refuted (disjunct_ids record) [] [d_base_dependency record];
        let '(remaining, dependencies) := split in
        let combined := Dep.union dependencies in
        match remaining with
        | [] =>
            _ ← kern (install_clash "empty_head" combined [did] None);
            _ ← poll; mret Deterministic
        | [atom] =>
            _ ← dispatch atom combined;
            _ ← poll; mret Deterministic
        | first :: _ =>
            lvl ← kern (push_branch "ground_disjunction" remaining did combined);
            _ ← dispatch first (Dep.add combined lvl);
            _ ← poll; mret Branched
        end
  end.

Definition resolve_clash_inner (learning : bool) : B BranchTransition :=
  _ ← poll;
  current ← kern (gets clash);
  match current with
  | None => mret NoWork
  | Some c =>
      target ← (if learning then mret (Dep.maximum (clash_dependency c))
                else kern (gets highest_branch_level));
      match target with
      | None => mret Unsat
      | Some target =>
          b ← kern (reads (branch target));
          let restored_base := initial_base_dependency b in
          let without_level := Dep.without (clash_dependency c) target in
          alternative ← kern (advance_branch target without_level);
          _ ← poll;
          match alternative with
          | Some atom =>
              current ← kern (reads (branch target));
              _ ← dispatch atom (Dep.add (base_dependency current) target);
              _ ← poll; mret Advanced
          | None =>
              let learned := Dep.union [learned_dependency b; without_level] in
              let propagated := Dep.union [restored_base; learned; without_level] in
              _ ← kern (install_clash "empty_head" propagated [source_id b] None);
              _ ← poll; mret Exhausted
          end
      end
  end.

(** [error.code] and the reset error go into one message. *)
Definition recovery_error (e reset_error : NativeError) : NativeError :=
  NativeErr.invariant ("branch operation recovery failed after " +:+ err_code e +:+ ": " +:+
    err_code reset_error +:+ ": " +:+ err_message reset_error).

Definition recover_on_error {X} (m : B X) : B X := λ w,
  match m w with
  | (Ok x, w') => (Ok x, w')
  | (Err e, w') =>
      match kern reset_to_operation_root w' with
      | (Ok _, w'') => (Err e, w'')
      | (Err e', w'') => (Err (recovery_error e e'), w'')
      | (Crash, w'') => (Crash, w'')
      end
  | (Crash, w') => (Crash, w')
  end.

Definition process_next : B BranchTransition := recover_on_error process_next_inner.

Definition resolve_clash (learning : bool) : B BranchTransition :=
  recover_on_error (resolve_clash_inner learning).

(** Every turn that comes back [Exhausted] drops a branch, so one more turn
    than there are branches is enough. *)
Fixpoint resolve_loop (fuel : nat) (learning : bool) : B BranchTransition :=
  match fuel with
  | O => lift Crash
  | S fuel =>
      transition ← resolve_clash learning;
      if bool_decide (transition = Exhausted) then resolve_loop fuel learning else mret transition
  end.

Definition resolve_until_choice_or_unsat (learning : bool) : B BranchTransition := λ w,
  resolve_loop (S (length (branches (w_kernel w)))) learning w.

(** ** The step relation of a clash *)

(** The level a clash is resolved at: the last level it depends on, or the
    top of the stack when nothing is learned. *)
Definition clash_target (learning : bool) (k : TableauKernel) (c : Clash) : option N :=
  if learning then Dep.maximum (clash_dependency c) else highest_branch_level k.

(** The clash handed down when branch [b] at level [target] has no alternative left. *)
Definition propagated (target : N) (b : Branch) (c : Clash) : DependencySet :=
  let without_level := Dep.without (clash_dependency c) target in
  Dep.union [initial_base_dependency b; Dep.union [learned_dependency b; without_level]; without_level].

Inductive clash_step (learning : bool) (a : A) (k : TableauKernel) : BranchTransition → A → TableauKernel → Prop :=
| step_no_work : current_clash (state k) = None → clash_step learning a k NoWork a k
| step_unsat c :
    current_clash (state k) = Some c → clash_target learning k c = None → clash_step learning a k Unsat a k
| step_advanced c target b atom k1 r a' k' :
    current_clash (state k) = Some c → clash_target learning k c = Some target →
    branches k !! N.to_nat target = Some b →
    advance_branch target (Dep.without (clash_dependency c) target) k = (Ok (Some atom), k1) →
    dispatch_atom atom (Dep.add (initial_base_dependency b) target) (a, k1) = (Ok r, (a', k')) →
    clash_step learning a k Advanced a' k'
| step_exhausted c target b k1 r k' :
    current_clash (state k) = Some c → clash_target learning k c = Some target →
    branches k !! N.to_nat target = Some b →
    advance_branch target (Dep.without (clash_dependency c) target) k = (Ok None, k1) →
    install_clash "empty_head" (propagated target b c) [source_id b] None k1 = (Ok r, k') →
    clash_step learning a k Exhausted a k'.

Lemma kern_Ok {X} (m : K X) w x w' :
  kern m w = (Ok x, w') →
  ∃ k', m (w_kernel w) = (Ok x, k') ∧ w' = mkWorld k' (w_access w) (w_cancel w) (w_polls w).
Proof. unfold kern. destruct (m (w_kernel w)) as [r k']. intros [= -> <-]. eauto. Qed.

Lemma poll_kernel w r w' :
  poll w = (r, w') → w_kernel w' = w_kernel w ∧ w_access w' = w_access w ∧ r ≠ Crash.
Proof.
  unfold poll. rewrite poll_cases. intros [= <- <-]. split_and!; [done..|]. repeat case_match; done.
Qed.

Lemma dispatch_Ok atom d w x w' :
  dispatch atom d w = (Ok x, w') →
  dispatch_atom atom d (w_access w, w_kernel w) = (Ok x, (w_access w', w_kernel w')).
Proof. unfold dispatch. destruct (dispatch_atom _ _ _) as [r [a' k']]. by intros [= -> <-]. Qed.

Lemma resolve_clash_inner_Ok learning w t w' :
  resolve_clash_inner learning w = (Ok t, w') →
  clash_step learning (w_access w) (w_kernel w) t (w_access w') (w_kernel w').
Proof.
  intros H0. unfold resolve_clash_inner in H0.
  apply st_bind_Ok in H0 as ([] & w1 & (Ek & Ea & _)%poll_kernel & H0).
  apply st_bind_Ok in H0 as (o & w2 & (k2 & [-> ->]%gets_Ok & ->)%kern_Ok & H0).
  unfold clash in H0. rewrite Ek in H0. destruct (current_clash (state (w_kernel w))) as [c|] eqn:Ec; cbn in H0.
  2:{ inv_ok. cbn. rewrite Ea. by apply step_no_work. }
  apply st_bind_Ok in H0 as (target & w3 & Ht & H0).
  assert (target = clash_target learning (w_kernel w) c ∧ w_kernel w3 = w_kernel w ∧ w_access w3 = w_access w) as (-> & Ek3 & Ea3).
  { destruct learning; [inv_ok; done|]. apply kern_Ok in Ht as (k3 & [-> ->]%gets_Ok & ->). done. }
  destruct (clash_target learning (w_kernel w) c) as [target|] eqn:Et.
  2:{ inv_ok. rewrite Ek3, Ea3. by eapply step_unsat. }
  apply st_bind_Ok in H0 as (b & w4 & (k4 & [Hb ->]%reads_Ok & ->)%kern_Ok & H0).
  rewrite Ek3 in Hb, H0. unfold branch in Hb. apply ok_or_Ok in Hb. cbv zeta in H0.
  apply st_bind_Ok in H0 as (alt & w5 & (k5 & Hadv & ->)%kern_Ok & H0). cbn in Hadv.
  apply st_bind_Ok in H0 as ([] & w6 & (Ek6 & Ea6 & _)%poll_kernel & H0). cbn in Ek6, Ea6. rewrite Ea3 in Ea6.
  destruct alt as [atom|].
  - apply st_bind_Ok in H0 as (b' & w7 & (k7 & [Hb' ->]%reads_Ok & ->)%kern_Ok & H0).
    rewrite Ek6 in Hb', H0. unfold branch in Hb'. apply ok_or_Ok in Hb'. rewrite Ea6 in H0.
    apply st_bind_Ok in H0 as (r & w8 & Hd%dispatch_Ok & H0). cbn in Hd.
    apply st_bind_Ok in H0 as ([] & w9 & (Ek9 & Ea9 & _)%poll_kernel & [-> ->]%mret_Ok).
    rewrite Ek9, Ea9. eapply step_advanced; try done.
    pose proof (advance_branch_Ok _ _ _ _ _ Hadv) as (b0 & Hb0 & _ & Hk5).
    assert (b0 = b) as -> by congruence.
    assert (base_dependency b' = initial_base_dependency b) as <-; [|done].
    assert (N.to_nat target < length (branches (w_kernel w)))%nat by (by eapply lookup_lt_Some).
    rewrite Hk5 in Hb'. cbn in Hb'. rewrite lookup_app_r in Hb' by (rewrite length_take; lia).
    rewrite length_take in Hb'. replace (_ - _)%nat with 0%nat in Hb' by lia. by injection Hb' as <-.
  - apply st_bind_Ok in H0 as (r & w7 & (k7 & Hi & ->)%kern_Ok & H0). rewrite Ek6 in Hi.
    apply st_bind_Ok in H0 as ([] & w8 & (Ek8 & Ea8 & _)%poll_kernel & [-> ->]%mret_Ok).
    rewrite Ek8, Ea8. cbn. rewrite Ea6. by eapply step_exhausted.
Qed.

Lemma recover_on_error_Ok {X} (m : B X) w x w' : recover_on_error m w = (Ok x, w') → m w = (Ok x, w').
Proof.
  unfold recover_on_error. destruct (m w) as [[y|e|] w1]; [done| |done].
  destruct (kern reset_to_operation_root w1) as [[]]; done.
Qed.
End brancher.

(** ** The step relation of a disjunction *)

Section choice.
Context {A : Type} `{GroundAtomAccess A}.
Context (others : nat → CancellationState → CancellationState) (clock : nat → N).

(** The disjuncts without a refutation, in order, and the refutations of the others. *)
Definition unrefuted (a : A) (k : TableauKernel) (atoms : list N) : list N :=
  omap (λ atom, match atom_refutation_dependency a k atom with Ok None => Some atom | _ => None end) atoms.
Definition refutations (a : A) (k : TableauKernel) (atoms : list N) : list DependencySet :=
  omap (λ atom, match atom_refutation_dependency a k atom with Ok (Some d) => Some d | _ => None end) atoms.

Lemma any_satisfied_Ok atoms w r w' :
  any_satisfied others clock atoms w = (Ok r, w') →
  w_kernel w' = w_kernel w ∧ w_access w' = w_access w ∧
  if r then ∃ atom, atom ∈ atoms ∧ atom_is_satisfied (w_access w) (w_kernel w) atom = Ok true
  else ∀ atom, atom ∈ atoms → atom_is_satisfied (w_access w) (w_kernel w) atom = Ok false.
Proof.
  revert w. induction atoms as [|atom atoms IH]; intros w H0; cbn [any_satisfied] in H0.
  { inv_ok. split_and!; [done..|set_solver]. }
  apply st_bind_Ok in H0 as ([] & w1 & (Ek & Ea & _)%poll_kernel & H0).
  apply st_bind_Ok in H0 as (s & w2 & [Hs ->]%reads_Ok & H0). rewrite Ek, Ea in Hs. destruct s.
  - inv_ok. rewrite Ek, Ea. split_and!; [done..|]. exists atom. split; [by left|done].
  - apply IH in H0 as (Ek' & Ea' & Hr). rewrite Ek, Ea in *. split_and!; [done..|]. destruct r.
    + destruct Hr as (x & ? & ?). exists x. split; [by right|done].
    + intros x [->|?]%elem_of_cons; auto.
Qed.

Lemma split_refuted_Ok atoms rem deps w out w' :
  split_refuted others clock atoms rem deps w = (Ok out, w') →
  w_kernel w' = w_kernel w ∧ w_access w' = w_access w ∧
  out = (rem ++ unrefuted (w_access w) (w_kernel w) atoms, deps ++ refutations (w_access w) (w_kernel w) atoms) ∧
  ∀ atom, atom ∈ atoms → is_ok (atom_refutation_dependency (w_access w) (w_kernel w) atom) = true.
Proof.
  revert rem deps w. induction atoms as [|atom atoms IH]; intros rem deps w H0; cbn [split_refuted] in H0.
  { inv_ok. split_and!; [done..|by rewrite !app_nil_r|set_solver]. }
  apply st_bind_Ok in H0 as ([] & w1 & (Ek & Ea & _)%poll_kernel & H0).
  apply st_bind_Ok in H0 as (s & w2 & [Hs ->]%reads_Ok & H0). rewrite Ek, Ea in Hs.
  unfold unrefuted, refutations in *. csimpl. rewrite Hs.
  destruct s; apply IH in H0 as (Ek' & Ea' & -> & Hok); rewrite Ek, Ea in *;
    (split_and!; [done..|by rewrite <-app_assoc|]);
    intros x [->|?]%elem_of_cons; auto; by rewrite Hs.
Qed.

Inductive choice_step (a : A) (k : TableauKernel) : BranchTransition → A → TableauKernel → Prop :=
| choice_none k1 : take_disjunction k = (Ok None, k1) → choice_step a k NoWork a k1
| choice_satisfied did k1 record atom :
    take_disjunction k = (Ok (Some did), k1) → disjunction did k1 = Ok record →
    atom ∈ disjunct_ids record → atom_is_satisfied a k1 atom = Ok true →
    choice_step a k Satisfied a k1
| choice_refuted did k1 record r k' :
    take_disjunction k = (Ok (Some did), k1) → disjunction did k1 = Ok record →
    (∀ atom, atom ∈ disjunct_ids record → atom_is_satisfied a k1 atom = Ok false) →
    unrefuted a k1 (disjunct_ids record) = [] →
    install_clash "empty_head" (Dep.union (d_base_dependency record :: refutations a k1 (disjunct_ids record)))
      [did] None k1 = (Ok r, k') →
    choice_step a k Deterministic a k'
| choice_unit did k1 record atom r a' k' :
    take_disjunction k = (Ok (Some did), k1) → disjunction did k1 = Ok record →
    (∀ atom, atom ∈ disjunct_ids record → atom_is_satisfied a k1 atom = Ok false) →
    unrefuted a k1 (disjunct_ids record) = [atom] →
    dispatch_atom atom (Dep.union (d_base_dependency record :: refutations a k1 (disjunct_ids record))) (a, k1)
      = (Ok r, (a', k')) →
    choice_step a k Deterministic a' k'
| choice_branched did k1 record first second rest lvl k2 r a' k' :
    take_disjunction k = (Ok (Some did), k1) → disjunction did k1 = Ok record →
    (∀ atom, atom ∈ disjunct_ids record → atom_is_satisfied a k1 atom = Ok false) →
    unrefuted a k1 (disjunct_ids record) = first :: second :: rest →
    push_branch "ground_disjunction" (first :: second :: rest) did
      (Dep.union (d_base_dependency record :: refutations a k1 (disjunct_ids record))) k1 = (Ok lvl, k2) →
    dispatch_atom first
      (Dep.add (Dep.union (d_base_dependency record :: refutations a k1 (disjunct_ids record))) lvl) (a, k2)
      = (Ok r, (a', k')) →
    choice_step a k Branched a' k'.

Lemma process_next_inner_Ok w t w' :
  process_next_inner others clock w = (Ok t, w') →
  choice_step (w_access w) (w_kernel w) t (w_access w') (w_kernel w').
Proof.
  intros H0. unfold process_next_inner in H0.
  apply st_bind_Ok in H0 as ([] & w1 & (Ek & Ea & _)%poll_kernel & H0).
  apply st_bind_Ok in H0 as (o & w2 & (k2 & Htake & ->)%kern_Ok & H0). rewrite Ek in Htake. rewrite Ea in H0.
  destruct o as [did|].
  2:{ apply st_bind_Ok in H0 as ([] & w3 & (Ek3 & Ea3 & _)%poll_kernel & [-> ->]%mret_Ok).
      rewrite Ek3, Ea3. cbn. by apply choice_none. }
  apply st_bind_Ok in H0 as (record & w3 & (k3 & [Hrec ->]%reads_Ok & ->)%kern_Ok & H0). cbn in Hrec, H0.
  apply st_bind_Ok in H0 as (s & w4 & (Ek4 & Ea4 & Hsat)%any_satisfied_Ok & H0). cbn in Ek4, Ea4, Hsat. destruct s.
  { destruct Hsat as (atom & Hin & Hsat).
    apply st_bind_Ok in H0 as ([] & w5 & (Ek5 & Ea5 & _)%poll_kernel & [-> ->]%mret_Ok).
    rewrite Ek5, Ea5, Ek4, Ea4. by eapply choice_satisfied. }
  apply st_bind_Ok in H0 as ([rem deps] & w5 & (Ek5 & Ea5 & Hout & _)%split_refuted_Ok & H0).
  rewrite Ek4, Ea4 in *. cbn [app] in Hout. injection Hout as -> ->.
  destruct (unrefuted (w_access w) k2 (disjunct_ids record)) as [|first [|second rest]] eqn:Er.
  - apply st_bind_Ok in H0 as (r & w6 & (k6 & Hi & ->)%kern_Ok & H0). rewrite Ek5 in Hi.
    apply st_bind_Ok in H0 as ([] & w7 & (Ek7 & Ea7 & _)%poll_kernel & [-> ->]%mret_Ok).
    rewrite Ek7, Ea7. cbn. rewrite Ea5. by eapply choice_refuted.
  - apply st_bind_Ok in H0 as (r & w6 & Hd%dispatch_Ok & H0). rewrite Ek5, Ea5 in Hd.
    apply st_bind_Ok in H0 as ([] & w7 & (Ek7 & Ea7 & _)%poll_kernel & [-> ->]%mret_Ok).
    rewrite Ek7, Ea7. by eapply choice_unit.
  - apply st_bind_Ok in H0 as (lvl & w6 & (k6 & Hp & ->)%kern_Ok & H0). rewrite Ek5 in Hp. rewrite Ea5 in H0.
    apply st_bind_Ok in H0 as (r & w7 & Hd%dispatch_Ok & H0). cbn in Hd.
    apply st_bind_Ok in H0 as ([] & w8 & (Ek8 & Ea8 & _)%poll_kernel & [-> ->]%mret_Ok).
    rewrite Ek8, Ea8. by eapply choice_branched.
Qed.
End choice.

(** ** What the steps keep *)

Section brancher_laws.
Context {A : Type} `{GroundAtomLaws A}.
Context (others : nat → CancellationState → CancellationState) (clock : nat → N).

(** A kernel and its atoms: every state that can be restored fits the atoms. *)
Record world_ok (a : A) (k : TableauKernel) : Prop := {
  world_wf : wf k;
  world_state : access_ok a (state k);
  world_branches i b : branches k !! i = Some b → access_ok a (cp_state (b_snapshot b));
  world_root : access_ok a (cp_state (operation_root k))
}.

Lemma facts_restored gens s : facts (restore_state gens s) = facts s.
Proof. done. Qed.

(** A kernel operation inside the branch that does not touch the rows. *)
Lemma world_keeps {X} (m : K X) a k x k' :
  keeps m → moves same_facts m → world_ok a k → m k = (Ok x, k') → world_ok a k'.
Proof.
  intros Hm Hf [Hk Hs Hb Hr] Hop. destruct (Hm _ _ _ (wf_state _ Hk) Hop) as [F S]. specialize (Hf k). rewrite Hop in Hf.
  split; [by eapply wf_frame|by eapply access_facts|by rewrite (frame_branches _ _ F)|by rewrite (frame_root _ _ F)].
Qed.

Lemma world_push kind alts sid base a k lvl k' :
  canonical base → world_ok a k → push_branch kind alts sid base k = (Ok lvl, k') → world_ok a k'.
Proof.
  intros Hc [Hk Hs Hb Hr] Hop. pose proof (preserves_push_branch _ _ _ _ Hc _ _ _ Hk Hop) as Hk'.
  apply push_branch_Ok in Hop as (_ & _ & _ & _ & _ & _ & _ & b & -> & _ & _ & _ & _ & _ & _ & _ & _ & Hsn & _).
  split; [done|done| |done]. cbn. intros i c [Hi|[_ Hc']]%lookup_app_Some; [by eapply Hb|].
  apply list_lookup_singleton_Some in Hc' as [_ <-]. by rewrite Hsn.
Qed.

Lemma world_advance target learned a k o k' :
  world_ok a k → advance_branch target learned k = (Ok o, k') → world_ok a k'.
Proof.
  intros [Hk Hs Hb Hr] Hop. pose proof (preserves_advance_branch _ _ _ _ _ Hk Hop) as Hk'.
  apply advance_branch_Ok in Hop as (b & Hlb & Hcase).
  assert (∀ i c, take (N.to_nat target) (branches k) !! i = Some c → access_ok a (cp_state (b_snapshot c))) as Htake.
  { intros i c [Hi _]%lookup_take_Some. by eapply Hb. }
  destruct o as [alt|]; destruct Hcase as [_ ->]; (split; [done| | |done]); cbn.
  - eapply access_facts, (Hb _ _ Hlb). apply facts_restored.
  - intros i c [Hi|[_ Hc]]%lookup_app_Some; [by eapply Htake|]. apply list_lookup_singleton_Some in Hc as [_ <-]. by apply (Hb _ _ Hlb).
  - eapply access_facts, (Hb _ _ Hlb). apply facts_restored.
  - done.
Qed.

Lemma world_dispatch atom d a k r a' k' :
  canonical d → world_ok a k → dispatch_atom atom d (a, k) = (Ok r, (a', k')) → world_ok a' k'.
Proof.
  intros Hd [Hk Hs Hb Hr] Hop. destruct (dispatch_inside _ _ _ _ _ _ _ (wf_state _ Hk) Hs Hd Hop) as (F & S & Hs').
  assert (∀ s, access_ok a s → access_ok a' s) as Hev.
  { intros s Hx. pose proof (dispatch_evolves a k atom d s Hx) as Hy. by rewrite Hop in Hy. }
  split; [by eapply wf_frame|done| |rewrite (frame_root _ _ F); by apply Hev].
  intros i b. rewrite (frame_branches _ _ F). intros Hib. eapply Hev, Hb, Hib.
Qed.

Lemma world_install kind d ps p a k x k' :
  canonical d → world_ok a k → install_clash kind d ps p k = (Ok x, k') → world_ok a k'.
Proof.
  intros Hd. apply world_keeps; [by apply keeps_install_clash|]. unfold install_clash. by moves_steps.
Qed.

Lemma world_take a k x k' : world_ok a k → take_disjunction k = (Ok x, k') → world_ok a k'.
Proof.
  apply world_keeps; [apply keeps_take_disjunction|]. unfold take_disjunction.
  apply moves_bind; [apply _|by moves_steps|]. intros q. generalize (S (size (entries q))). intros fuel.
  induction fuel as [|fuel IH]; cbn [take_disjunction_loop]; [by moves_steps|]. by moves_steps.
Qed.

Lemma clash_step_world learning (a a' : A) k t k' :
  world_ok a k → clash_step learning a k t a' k' → world_ok a' k'.
Proof.
  intros Hw Hs. pose proof (world_wf _ _ Hw) as Hk.
  destruct Hs as [|c Hc Ht|c target b atom k1 r a' k' Hc Ht Hb Hadv Hd|c target b k1 r k' Hc Ht Hb Hadv Hi]; [done|done| |].
  - eapply world_dispatch; [|by eapply world_advance|done]. apply canonical_add, (branch_initial _ _ (wf_branches _ Hk _ _ Hb)).
  - eapply world_install; [apply canonical_union|by eapply world_advance|done].
Qed.

(** The clash installed once a branch and those above it are gone mentions only
    the levels below it. *)
Lemma install_below kind d ps p target b k k1 r k' :
  wf k → branches k !! N.to_nat target = Some b → canonical d →
  k1 = restore (b_snapshot b) k <| branches := take (N.to_nat target) (branches k) |> →
  install_clash kind d ps p k1 = (Ok r, k') →
  branches k' = take (N.to_nat target) (branches k) ∧ current_clash (state k') = Some (mkClash kind d ps p) ∧
  ∀ l, l ∈ levels d → l < target.
Proof.
  intros Hk Hb Hd Hk1eq Hi.
  assert (current_clash (state k1) = None) as Hnc.
  { rewrite Hk1eq. apply (branch_no_clash _ _ (wf_branches _ Hk _ _ Hb)). }
  assert (N.to_nat target < length (branches k))%nat as Hlt by (by eapply lookup_lt_Some).
  assert (branches k1 = take (N.to_nat target) (branches k)) as Hb1 by (by rewrite Hk1eq).
  unfold install_clash in Hi. inv_ok. rewrite Hnc in Hi.
  match goal with G : validate_dependency _ _ = Ok _ |- _ => rename G into Hv end. inv_ok. repeat kstep.
  split_and!.
  - by rewrite (frame_branches _ _ Hfr), (frame_branches _ _ Hfr0), Hb1.
  - by rewrite Hst, Hst0.
  - intros l Hl%elem_of_levels. apply validate_dependency_Ok in Hv; [|done].
    unfold highest_branch_level in Hv. rewrite Hb1, last_lookup, length_take in Hv.
    destruct (take (N.to_nat target) (branches k) !! _) as [d'|] eqn:E;
      cbn [fmap option_fmap option_map] in Hv.
    + apply Hv in Hl. apply lookup_take_Some in E as [E Hlt'].
      rewrite (branch_level _ _ (wf_branches _ Hk _ _ E)) in Hl. lia.
    + rewrite Hv in Hl. set_solver.
Qed.

(** An exhausted branch disappears with everything above it, and the clash it
    hands down mentions only the levels below it. *)
Lemma clash_step_exhausted learning (a a' : A) k k' :
  wf k → clash_step learning a k Exhausted a' k' →
  a' = a ∧ ∃ c target b, current_clash (state k) = Some c ∧ clash_target learning k c = Some target ∧
    branches k !! N.to_nat target = Some b ∧ branches k' = take (N.to_nat target) (branches k) ∧
    (length (alternatives b) ≤ S (next_alternative b))%nat ∧
    current_clash (state k') = Some (mkClash "empty_head" (propagated target b c) [source_id b] None) ∧
    ∀ l, l ∈ levels (propagated target b c) → l < target.
Proof.
  intros Hk Hs. inversion Hs as [| | |c target b k1 r k'' Hc Ht Hb Hadv Hi]; subst. split; [done|].
  destruct (advance_branch_Ok _ _ _ _ _ Hadv) as (b0 & Hb0 & Hlen & Hk1eq).
  assert (b0 = b) as -> by congruence. exists c, target, b.
  destruct (install_below _ _ _ _ target b k k1 r k' Hk Hb (canonical_union _) Hk1eq Hi) as (Hbr & Hcl & Hlv).
  by split_and!.
Qed.

(** ** Every call answers *)

Lemma recover_returns {X} (m : st (World A) NativeError X) w :
  (m w).1 ≠ Crash →
  length (generations (cp_state (operation_root (w_kernel (m w).2)))) =
  length (nodes (cp_state (operation_root (w_kernel (m w).2)))) →
  (recover_on_error m w).1 ≠ Crash.
Proof.
  intros Hm Hl. unfold recover_on_error. destruct (m w) as [[x|e|] w1]; [done| |done]. cbn in Hl.
  unfold kern. pose proof (reset_returns _ Hl) as Hr.
  destruct (reset_to_operation_root (w_kernel w1)) as [[|e'|] k']; done.
Qed.

(** Whatever its outcome, the inner step keeps the operation root. *)
Definition same_root (w w' : World A) : Prop := operation_root (w_kernel w') = operation_root (w_kernel w).

#[local] Instance same_root_preorder : PreOrder same_root.
Proof. split; [done|]. intros w1 w2 w3 E1 E2. unfold same_root in *. congruence. Qed.

(** [calm m P]: from a world that satisfies [P], [m] answers and keeps the root. *)
Definition calm {X} (m : st (World A) NativeError X) (w : World A) : Prop :=
  (m w).1 ≠ Crash ∧ same_root w (m w).2.

Lemma calm_bind {X Y} (m : st (World A) NativeError X) (f : X → st (World A) NativeError Y) w :
  calm m w → (∀ x w', m w = (Ok x, w') → calm (f x) w') → calm (m ≫= f) w.
Proof.
  intros [Hm Hr] Hf. unfold calm, mbind, st_bind. destruct (m w) as [[x|e|] w1] eqn:E; [|done|done].
  destruct (Hf x w1 eq_refl) as [? ?]. cbn in Hr. split; [done|by etrans].
Qed.

Lemma calm_poll w : calm (poll others clock) w.
Proof.
  unfold calm. destruct (poll others clock w) as [r w'] eqn:E. apply poll_kernel in E as (Ek & _ & Hr).
  split; [done|]. unfold same_root. cbn. by rewrite Ek.
Qed.

Lemma calm_kern {X} (m : K X) w :
  (m (w_kernel w)).1 ≠ Crash → operation_root (m (w_kernel w)).2 = operation_root (w_kernel w) → calm (kern m) w.
Proof. unfold calm, kern, same_root. by destruct (m (w_kernel w)) as [r k']. Qed.

Abbreviation wok w := (world_ok (w_access w) (w_kernel w)).

Lemma calm_dispatch atom d w : wok w → canonical d → calm (dispatch atom d) w.
Proof.
  intros [Hk Hs _ _] Hd. unfold calm, dispatch, same_root.
  pose proof (dispatch_returns (w_access w) (w_kernel w) atom d (wf_state _ Hk) Hs Hd) as Hr.
  pose proof (dispatch_root (w_access w) (w_kernel w) atom d) as Hroot.
  by destruct (dispatch_atom atom d _) as [r [a' k']].
Qed.

Lemma calm_mret {X} (x : X) w : calm (mret x) w.
Proof. split; done. Qed.

Lemma root_moves {X} (m : K X) k :
  moves (λ k k', operation_root k' = operation_root k) m → operation_root (m k).2 = operation_root k.
Proof. intros Hm. apply Hm. Qed.

#[local] Instance root_preorder : PreOrder (λ k k' : TableauKernel, operation_root k' = operation_root k).
Proof. split; [done|]. intros k1 k2 k3 E1 E2. congruence. Qed.

Lemma calm_advance target learned w : wf (w_kernel w) → calm (kern (advance_branch target learned)) w.
Proof.
  intros Hk. apply calm_kern; [by apply advance_branch_returns|]. apply root_moves.
  unfold advance_branch, backtrack_to. by moves_steps.
Qed.

Lemma calm_install kind d ps p w : calm (kern (install_clash kind d ps p)) w.
Proof.
  apply calm_kern; [apply install_clash_returns|]. apply root_moves. unfold install_clash. by moves_steps.
Qed.

Lemma calm_gets {X} (f : TableauKernel → X) w : calm (kern (gets f)) w.
Proof. by apply calm_kern. Qed.

Lemma calm_branch target w : calm (kern (reads (branch target))) w.
Proof. apply calm_kern; [apply ok_or_not_crash|done]. Qed.

Lemma resolve_clash_inner_calm learning w : wok w → calm (resolve_clash_inner others clock learning) w.
Proof.
  intros Hw. unfold resolve_clash_inner. apply calm_bind; [apply calm_poll|].
  intros [] w1 (Ek1 & Ea1 & _)%poll_kernel. apply calm_bind; [apply calm_gets|].
  intros o w2 (k2 & [-> ->]%gets_Ok & ->)%kern_Ok. cbn. rewrite Ek1, Ea1.
  destruct (clash (w_kernel w)) as [c|]; [|apply calm_mret].
  apply calm_bind; [destruct learning; [apply calm_mret|apply calm_gets]|]. intros target w3 Ht.
  assert (w_kernel w3 = w_kernel w ∧ w_access w3 = w_access w) as [Ek3 Ea3].
  { destruct learning; [by inv_ok|]. apply kern_Ok in Ht as (? & [_ ->]%gets_Ok & ->). done. }
  destruct target as [target|]; [|apply calm_mret]. apply calm_bind; [apply calm_branch|].
  intros b w4 (k4 & [_ ->]%reads_Ok & ->)%kern_Ok.
  apply calm_bind; [apply calm_advance; cbn; rewrite Ek3; apply (world_wf _ _ Hw)|].
  intros alt w5 (k5 & Hadv & ->)%kern_Ok. cbn in Hadv. rewrite Ek3 in Hadv. pose proof (world_advance _ _ _ _ _ _ Hw Hadv) as Hw5.
  apply calm_bind; [apply calm_poll|]. intros [] w6 (Ek6 & Ea6 & _)%poll_kernel. cbn in Ek6, Ea6. rewrite Ea3 in Ea6. destruct alt.
  - apply calm_bind; [apply calm_branch|]. intros b' w7 (k7 & [Hb' ->]%reads_Ok & ->)%kern_Ok. rewrite Ek6, Ea6 in *.
    apply ok_or_Ok in Hb'. apply calm_bind; [apply calm_dispatch; cbn; [done|]|].
    { apply canonical_add, (branch_base _ _ (wf_branches _ (world_wf _ _ Hw5) _ _ Hb')). }
    intros ? w8 _. apply calm_bind; [apply calm_poll|]. intros; apply calm_mret.
  - apply calm_bind; [apply calm_install|]. intros ? w7 _. apply calm_bind; [apply calm_poll|].
    intros; apply calm_mret.
Qed.

Lemma calm_reads {X} (f : World A → NativeResult X) w : f w ≠ Crash → calm (reads f) w.
Proof. unfold calm, reads. intros Hf. by split. Qed.

Lemma any_satisfied_calm atoms w : wok w → calm (any_satisfied others clock atoms) w.
Proof.
  revert w. induction atoms as [|atom atoms IH]; intros w Hw; cbn [any_satisfied]; [apply calm_mret|].
  apply calm_bind; [apply calm_poll|]. intros [] w1 (Ek & Ea & _)%poll_kernel.
  apply calm_bind; [apply calm_reads; rewrite Ek, Ea; apply satisfied_returns; [apply wf_state|]; apply Hw|].
  intros s w2 [_ ->]%reads_Ok. destruct s; [apply calm_mret|]. apply IH. by rewrite Ek, Ea.
Qed.

Lemma split_refuted_calm atoms rem deps w : wok w → calm (split_refuted others clock atoms rem deps) w.
Proof.
  revert rem deps w. induction atoms as [|atom atoms IH]; intros rem deps w Hw; cbn [split_refuted]; [apply calm_mret|].
  apply calm_bind; [apply calm_poll|]. intros [] w1 (Ek & Ea & _)%poll_kernel.
  apply calm_bind; [apply calm_reads; rewrite Ek, Ea; apply refutation_returns; [apply wf_state|]; apply Hw|].
  intros o w2 [_ ->]%reads_Ok. destruct o; apply IH; by rewrite Ek, Ea.
Qed.

Lemma calm_take w : calm (kern take_disjunction) w.
Proof.
  apply calm_kern; [apply take_disjunction_returns|]. apply root_moves. unfold take_disjunction.
  apply moves_bind; [apply _|by moves_steps|]. intros q. generalize (S (size (entries q))). intros fuel.
  induction fuel as [|fuel IH]; cbn [take_disjunction_loop]; [by moves_steps|].
  moves_steps; try done. apply IH.
Qed.

Lemma calm_push kind alts sid d w : calm (kern (push_branch kind alts sid d)) w.
Proof.
  apply calm_kern; [apply push_branch_returns|]. apply root_moves. unfold push_branch. by moves_steps.
Qed.

Lemma calm_done {X} (x : X) w : calm (_ ← poll others clock; mret x) w.
Proof. apply calm_bind; [apply calm_poll|]. intros; apply calm_mret. Qed.

Lemma process_next_inner_calm w : wok w → calm (process_next_inner others clock) w.
Proof.
  intros Hw. unfold process_next_inner. apply calm_bind; [apply calm_poll|]. intros [] w1 (Ek1 & Ea1 & _)%poll_kernel.
  apply calm_bind; [apply calm_take|]. intros o w2 (k2 & Htake & ->)%kern_Ok. rewrite Ek1 in Htake. rewrite Ea1.
  pose proof (world_take _ _ _ _ Hw Htake) as Hw2. destruct o as [did|]; [|apply calm_done].
  apply calm_bind; [apply calm_kern; [apply ok_or_not_crash|done]|]. intros record w3 (k3 & [_ ->]%reads_Ok & ->)%kern_Ok.
  apply calm_bind; [by apply any_satisfied_calm|]. intros s w4 (Ek4 & Ea4 & _)%any_satisfied_Ok. cbn in Ek4, Ea4.
  destruct s; [apply calm_done|]. rewrite <-Ek4, <-Ea4 in Hw2.
  apply calm_bind; [by apply split_refuted_calm|]. intros [rem deps] w5 (Ek5 & Ea5 & _ & _)%split_refuted_Ok.
  rewrite <-Ek5, <-Ea5 in Hw2. destruct rem as [|first [|second rest]].
  - apply calm_bind; [apply calm_install|]. intros. apply calm_done.
  - apply calm_bind; [apply calm_dispatch; [done|apply canonical_union]|]. intros. apply calm_done.
  - apply calm_bind; [apply calm_push|]. intros lvl w6 (k6 & Hp & ->)%kern_Ok.
    apply calm_bind; [apply calm_dispatch; [|apply canonical_add, canonical_union]|intros; apply calm_done].
    eapply world_push; [apply canonical_union|exact Hw2|exact Hp].
Qed.

Lemma recover_calm {X} (m : st (World A) NativeError X) w :
  wok w → calm m w → (recover_on_error m w).1 ≠ Crash.
Proof.
  intros Hw [Hm Hr]. apply recover_returns; [done|]. rewrite Hr.
  apply (arena_length _ _ (state_arena _ _ (wf_root _ (world_wf _ _ Hw)))).
Qed.

Lemma resolve_loop_returns learning fuel w :
  wok w → (length (branches (w_kernel w)) < fuel)%nat → (resolve_loop others clock fuel learning w).1 ≠ Crash.
Proof.
  revert w. induction fuel as [|fuel IH]; intros w Hw Hf; [lia|]. cbn [resolve_loop].
  unfold mbind, st_bind.
  pose proof (recover_calm (resolve_clash_inner others clock learning) w Hw (resolve_clash_inner_calm learning w Hw)) as Hc.
  fold (resolve_clash others clock learning) in Hc.
  destruct (resolve_clash others clock learning w) as [[t|e|] w1] eqn:E; [|done|done].
  apply recover_on_error_Ok, resolve_clash_inner_Ok in E.
  case_bool_decide as Ht; [subst t|done]. apply IH; [by eapply clash_step_world|].
  destruct (clash_step_exhausted _ _ _ _ _ (world_wf _ _ Hw) E) as (_ & c & target & b & _ & _ & Hb & Hbs & _).
  rewrite Hbs, length_take. apply lookup_lt_Some in Hb. lia.
Qed.

Lemma choice_step_world (a a' : A) k t k' : world_ok a k → choice_step a k t a' k' → world_ok a' k'.
Proof.
  intros Hw Hs. pose proof (λ o k1, world_take a k o k1 Hw) as Htake.
  destruct Hs as [k1 Ht|did k1 rec atom Ht|did k1 rec r k' Ht Hr Hsat Hu Hi|did k1 rec atom r a' k' Ht Hr Hsat Hu Hd
    |did k1 rec first second rest lvl k2 r a' k' Ht Hr Hsat Hu Hp Hd].
  - by eapply Htake.
  - by eapply Htake.
  - eapply world_install; [apply canonical_union|by eapply Htake|exact Hi].
  - eapply world_dispatch; [apply canonical_union|by eapply Htake|exact Hd].
  - eapply world_dispatch; [apply canonical_add, canonical_union| |exact Hd].
    eapply world_push; [apply canonical_union|by eapply Htake|exact Hp].
Qed.

(** A failed step leaves the operation root restored and no branches, or says
    that the recovery itself failed. *)
Lemma recover_on_error_Err {X} (m : st (World A) NativeError X) w e w' :
  recover_on_error m w = (Err e, w') →
  ∃ e0 w0, m w = (Err e0, w0) ∧
    w_kernel w' = restore (operation_root (w_kernel w0)) (w_kernel w0) <| branches := [] |> ∧
    (e = e0 ∧ check_invariants (w_kernel w') = Ok tt ∨
     ∃ e1, e = recovery_error e0 e1 ∧ check_invariants (w_kernel w') = Err e1).
Proof.
  unfold recover_on_error. destruct (m w) as [[x|e0|] w0]; [done| |done].
  unfold kern, reset_to_operation_root, mbind, st_bind, gets, modify, reads, id.
  intros E. exists e0, w0. split; [done|].
  destruct (check_invariants _) as [[]|e1|] eqn:Ec; simplify_eq/=; eauto 10.
Qed.
End brancher_laws.
