(* ===== verification/RuleModel.v ===== *)
(** * Rule programs (native/src/rules/model.rs)

    The records of compiled DL clauses, their constructors and the validation
    of a program: predicate kinds and signatures, terms, atoms, clauses, ground
    atoms, join matches and the limits of a join. *)

From stdpp Require Import pretty.
From S2P Require Import Prelude Order Errors Model.

(** ** Sorts and predicates *)

(** [Data] precedes [Object] in the derived order. *)
Inductive TermSort := TData | TObject.

#[global] Instance TermSort_eq_dec : EqDecision TermSort.
Proof. solve_decision. Defined.

#[global] Instance TermSort_countable : Countable TermSort.
Proof.
  apply (inj_countable' (λ s, match s with TData => false | TObject => true end)
    (λ b, match b with false => TData | true => TObject end)). by intros [].
Defined.

Definition sort_index (s : TermSort) : N := match s with TData => 0 | TObject => 1 end.

#[global] Instance sort_index_inj : Inj (=) (=) sort_index.
Proof. by intros [] []. Qed.
#[global] Instance TermSort_ord : Ord TermSort := compare_by sort_index.
#[global] Instance TermSort_ord_laws : OrdLaws TermSort.
Proof. apply compare_by_laws. apply _. Qed.

Definition node_sort_of (s : TermSort) : NodeSort :=
  match s with TData => Data | TObject => Object end.

Inductive PredicateKind :=
| Concept | NegatedConcept | Nominal | NegatedNominal | ObjectRole | NegatedObjectRole | DataRole
| NegatedDataRole | DataRange | NegatedDataRange | Equality | Inequality | AtLeastObject | AtLeastData
| AnnotatedEquality | AutomatonState | DisjointGuard | OrderingGuard | NamedIndividual.

#[global] Instance PredicateKind_eq_dec : EqDecision PredicateKind.
Proof. solve_decision. Defined.

(** The position of a kind in the declaration, which is what its derived order
    compares. *)
Definition kind_index (kind : PredicateKind) : N :=
  match kind with
  | Concept => 0 | NegatedConcept => 1 | Nominal => 2 | NegatedNominal => 3 | ObjectRole => 4
  | NegatedObjectRole => 5 | DataRole => 6 | NegatedDataRole => 7 | DataRange => 8 | NegatedDataRange => 9
  | Equality => 10 | Inequality => 11 | AtLeastObject => 12 | AtLeastData => 13 | AnnotatedEquality => 14
  | AutomatonState => 15 | DisjointGuard => 16 | OrderingGuard => 17 | NamedIndividual => 18
  end.

#[global] Instance kind_index_inj : Inj (=) (=) kind_index.
Proof. by intros [] []. Qed.
#[global] Instance PredicateKind_ord : Ord PredicateKind := compare_by kind_index.
#[global] Instance PredicateKind_ord_laws : OrdLaws PredicateKind.
Proof. apply compare_by_laws. apply _. Qed.

Definition is_virtual_filter (kind : PredicateKind) : bool :=
  match kind with Equality | OrderingGuard => true | _ => false end.

Definition can_trigger (kind : PredicateKind) : bool :=
  match kind with OrderingGuard => false | _ => true end.

Record RulePredicate := mkRulePredicate {
  rp_predicate_id : N;
  rp_kind : PredicateKind;
  rp_argument_sorts : list TermSort;
  rp_symbol_id : option N;
  rp_role_id : option N;
  rp_cardinality : option N;
  rp_filler_predicate_id : option N;
  rp_annotation : list N;
  rp_internal_key : option string;
  rp_opposite_predicate_id : option N
}.

#[global] Instance RulePredicate_eta : Eta RulePredicate := λ p,
  mkRulePredicate (rp_predicate_id p) (rp_kind p) (rp_argument_sorts p) (rp_symbol_id p) (rp_role_id p)
    (rp_cardinality p) (rp_filler_predicate_id p) (rp_annotation p) (rp_internal_key p)
    (rp_opposite_predicate_id p).

#[global] Instance RulePredicate_eq_dec : EqDecision RulePredicate.
Proof. solve_decision. Defined.

(** ** Terms and atoms *)

Inductive Term :=
| Variable_ (sort : TermSort) (variable_id : N)
| Individual (individual_id : N)
| DataConstant (source_literal_id data_identity_id : N).

#[global] Instance Term_eq_dec : EqDecision Term.
Proof. solve_decision. Defined.

(** The derived order compares the constructor, then the fields in order. *)
Definition term_key (t : Term) : N * (N * N) :=
  match t with
  | Variable_ sort v => (0, (sort_index sort, v))
  | Individual i => (1, (i, 0))
  | DataConstant literal identity => (2, (literal, identity))
  end.

#[global] Instance term_key_inj : Inj (=) (=) term_key.
Proof. intros [[]| |] [[]| |]; cbn; congruence. Qed.
#[global] Instance Term_ord : Ord Term := compare_by term_key.
#[global] Instance Term_ord_laws : OrdLaws Term.
Proof. apply compare_by_laws. apply _. Qed.

Definition term_sort (t : Term) : TermSort :=
  match t with Variable_ sort _ => sort | Individual _ => TObject | DataConstant _ _ => TData end.

Definition variable_key (t : Term) : option (TermSort * N) :=
  match t with Variable_ sort v => Some (sort, v) | _ => None end.

Record RuleAtom := mkRuleAtom { ra_predicate_id : N; ra_arguments : list Term }.

#[global] Instance RuleAtom_eq_dec : EqDecision RuleAtom.
Proof. solve_decision. Defined.

Definition atom_key (a : RuleAtom) : N * list Term := (ra_predicate_id a, ra_arguments a).

#[global] Instance atom_key_inj : Inj (=) (=) atom_key.
Proof. intros [] []; cbn. by intros [= -> ->]. Qed.
#[global] Instance RuleAtom_ord : Ord RuleAtom := compare_by atom_key.
#[global] Instance RuleAtom_ord_laws : OrdLaws RuleAtom.
Proof. apply compare_by_laws. apply _. Qed.

(** The variables of a list of terms, in order of occurrence. *)
Definition term_variables (ts : list Term) : list (TermSort * N) := omap variable_key ts.

Record GroundAtom := mkGroundAtom { ga_predicate_id : N; ga_arguments : list NodeHandle }.

#[global] Instance GroundAtom_eq_dec : EqDecision GroundAtom.
Proof. solve_decision. Defined.

Definition ground_key (a : GroundAtom) : N * list NodeHandle := (ga_predicate_id a, ga_arguments a).

#[global] Instance ground_key_inj : Inj (=) (=) ground_key.
Proof. intros [] []; cbn. by intros [= -> ->]. Qed.
#[global] Instance GroundAtom_ord : Ord GroundAtom := compare_by ground_key.
#[global] Instance GroundAtom_ord_laws : OrdLaws GroundAtom.
Proof. apply compare_by_laws. apply _. Qed.
#[global] Instance GroundAtom_countable : Countable GroundAtom.
Proof. apply (inj_countable' ground_key (λ p, mkGroundAtom p.1 p.2)). by intros []. Defined.

(** ** The canonical bytes of an atom *)

Definition quote : string := String (Ascii.ascii_of_nat 34) EmptyString.
Definition quoted (s : string) : string := quote +:+ s +:+ quote.

(** A JSON field, and the version field that every record carries. *)
Definition json_field (name value : string) : string := quoted name +:+ ":" +:+ value.
Definition schema_field : string := json_field "schema_version" "1".

Definition sort_name (s : TermSort) : string := match s with TData => "data" | TObject => "object" end.

Definition push_term_json (t : Term) : string :=
  match t with
  | Variable_ sort v =>
      "{" +:+ json_field "index" (pretty v) +:+ "," +:+ schema_field +:+ "," +:+
      json_field "sort" (quoted (sort_name sort)) +:+ "," +:+ json_field "type" (quoted "Variable") +:+ "}"
  | Individual i =>
      "{" +:+ json_field "individual_id" (pretty i) +:+ "," +:+ schema_field +:+ "," +:+
      json_field "type" (quoted "IndividualTerm") +:+ "}"
  | DataConstant literal identity =>
      "{" +:+ json_field "data_identity_id" (pretty identity) +:+ "," +:+ schema_field +:+ "," +:+
      json_field "source_literal_id" (pretty literal) +:+ "," +:+ json_field "type" (quoted "DataConstant") +:+ "}"
  end.

Fixpoint comma_separated (l : list string) : string :=
  match l with
  | [] => EmptyString
  | [s] => s
  | s :: l => s +:+ "," +:+ comma_separated l
  end.

Definition canonical_bytes (a : RuleAtom) : string :=
  "{" +:+ quoted "arguments" +:+ ":[" +:+ comma_separated (push_term_json <$> ra_arguments a) +:+ "]," +:+
  json_field "predicate_id" (pretty (ra_predicate_id a)) +:+ "," +:+ schema_field +:+ "," +:+
  json_field "type" (quoted "Atom") +:+ "}".

Definition strictly_canonical_atoms (values : list RuleAtom) : bool :=
  strictly_ascending (canonical_bytes <$> values).

(** ** Clauses and programs *)

Record RuleClause := mkRuleClause {
  rc_clause_id : N;
  rc_body : list RuleAtom;
  rc_head : list RuleAtom;
  rc_provenance_ids : list N;
  rc_join_order : list N
}.

#[global] Instance RuleClause_eq_dec : EqDecision RuleClause.
Proof. solve_decision. Defined.

Record RuleProgram := mkRuleProgram { predicates : list RulePredicate; clauses : list RuleClause }.

(** The range [0..n]. *)
Definition range (n : nat) : list N := N.of_nat <$> seq 0 n.

Module Rule.
Import NativeErr.

(** [sorts.len() == 2 && sorts[0] == sorts[1]]. *)
Definition paired_sorts (sorts : list TermSort) : bool :=
  match sorts with [a; b] => bool_decide (a = b) | _ => false end.

Definition valid_signature (kind : PredicateKind) (sorts : list TermSort) : bool :=
  match kind with
  | Concept | NegatedConcept | Nominal | NegatedNominal | AtLeastObject | AtLeastData | AutomatonState
  | DisjointGuard | NamedIndividual => bool_decide (sorts = [TObject])
  | ObjectRole | NegatedObjectRole => bool_decide (sorts = [TObject; TObject])
  | DataRole | NegatedDataRole => bool_decide (sorts = [TObject; TData])
  | DataRange | NegatedDataRange =>
      negb (bool_decide (sorts = [])) && forallb (λ s, bool_decide (s = TData)) sorts
  | Equality | Inequality | OrderingGuard => paired_sorts sorts
  | AnnotatedEquality => bool_decide (sorts = [TObject; TObject; TObject])
  end.

Definition validate_predicate_signature (kind : PredicateKind) (sorts : list TermSort) : NativeResult unit :=
  reject_if (negb (valid_signature kind sorts)) (wire "predicate argument signature does not match its kind").

Definition new_predicate (pid : N) (kind : PredicateKind) (sorts : list TermSort) : NativeResult RulePredicate :=
  _ ← validate_predicate_signature kind sorts;
  Ok (mkRulePredicate pid kind sorts None None None None [] None None).

Definition new_atom (pid : N) (args : list Term) : NativeResult RuleAtom :=
  _ ← reject_if (bool_decide (args = [])) (wire "rule atoms must have positive arity");
  Ok (mkRuleAtom pid args).

Definition new_ground (pid : N) (args : list NodeHandle) : NativeResult GroundAtom :=
  _ ← reject_if (bool_decide (args = [])) (wire "ground rule atoms must have positive arity");
  Ok (mkGroundAtom pid args).

Definition new_clause (cid : N) (body head : list RuleAtom) (provenance join_order : list N) :
    NativeResult RuleClause :=
  _ ← reject_if (negb (strictly_canonical_atoms body))
    (wire "clause body atoms must be canonically sorted and unique");
  _ ← reject_if (negb (strictly_canonical_atoms head))
    (wire "clause head atoms must be canonically sorted and unique");
  _ ← reject_if (bool_decide (provenance = []) || negb (strictly_ascending provenance))
    (wire "clause provenance IDs must be nonempty, sorted, and unique");
  _ ← ok_or (u32_try_from (length body)) (wire "clause body exceeds u32 atom positions");
  _ ← reject_if (negb (bool_decide (sort join_order = range (length body))))
    (wire "join order must be a permutation of the canonical body");
  Ok (mkRuleClause cid body head provenance join_order).

Definition with_symbol_id (p : RulePredicate) (symbol : N) : RulePredicate := p <| rp_symbol_id := Some symbol |>.
Definition with_role_id (p : RulePredicate) (role : N) : RulePredicate := p <| rp_role_id := Some role |>.
Definition with_cardinality (p : RulePredicate) (cardinality role filler : N) : RulePredicate :=
  p <| rp_cardinality := Some cardinality |> <| rp_role_id := Some role |>
    <| rp_filler_predicate_id := Some filler |>.
Definition with_annotation (p : RulePredicate) (annotation : list N) : RulePredicate :=
  p <| rp_annotation := annotation |>.
Definition with_internal_key (p : RulePredicate) (key : string) : RulePredicate :=
  p <| rp_internal_key := Some key |>.
Definition with_opposite (p : RulePredicate) (opposite : N) : RulePredicate :=
  p <| rp_opposite_predicate_id := Some opposite |>.

Definition arity (p : RulePredicate) : nat := length (rp_argument_sorts p).

(** ** Validation of a predicate *)

Definition concept_kind (kind : PredicateKind) : bool :=
  match kind with
  | Concept | NegatedConcept | Nominal | NegatedNominal | DataRange | NegatedDataRange => true
  | _ => false
  end.

Definition cardinality_kind (kind : PredicateKind) : bool :=
  match kind with AtLeastObject | AtLeastData | AnnotatedEquality => true | _ => false end.

Definition role_kind (kind : PredicateKind) : bool :=
  match kind with ObjectRole | NegatedObjectRole | DataRole | NegatedDataRole => true | _ => false end.

Definition annotation_kind (kind : PredicateKind) : bool :=
  match kind with
  | Nominal | NegatedNominal | AtLeastData | AutomatonState | DisjointGuard => true
  | _ => false
  end.

Definition internal_kind (kind : PredicateKind) : bool :=
  match kind with
  | AutomatonState | DisjointGuard | OrderingGuard | NamedIndividual => true
  | _ => false
  end.

Definition present {A} (o : option A) : bool := match o with Some _ => true | None => false end.

(** The [match] on the kind of the predicate in [validate_predicate_semantics]. *)
Definition validate_annotation (p : RulePredicate) : NativeResult unit :=
  match rp_kind p with
  | Nominal | NegatedNominal =>
      reject_if (bool_decide (rp_annotation p = []) || negb (strictly_ascending (rp_annotation p)))
        (wire "nominal annotation IDs must be nonempty, sorted, and unique")
  | AtLeastData =>
      reject_if (negb (bool_decide (head (rp_annotation p) = rp_role_id p))
          || negb (bool_decide (size (list_to_set (rp_annotation p) : gset N) = length (rp_annotation p))))
        (wire "data at-least annotations must list unique role IDs beginning with role_id")
  | AutomatonState =>
      reject_if (negb (bool_decide (length (rp_annotation p) = 2%nat)))
        (wire "automaton-state annotation requires component and state IDs")
  | DisjointGuard =>
      reject_if (negb (bool_decide (length (rp_annotation p) = 1%nat)))
        (wire "disjoint-guard annotation requires one sequence ID")
  | _ => Ok tt
  end.

Definition validate_predicate_semantics (p : RulePredicate) : NativeResult unit :=
  let kind := rp_kind p in
  _ ← reject_if (negb (Bool.eqb (concept_kind kind) (present (rp_symbol_id p))))
    (wire "symbol IDs are required exactly for concept, nominal, and data-range predicates");
  _ ← (if cardinality_kind kind then
         reject_if (bool_decide (rp_cardinality p = Some 0) || negb (present (rp_cardinality p))
             || negb (present (rp_role_id p)) || negb (present (rp_filler_predicate_id p)))
           (wire "cardinality predicates require positive cardinality, role, and filler IDs")
       else
         reject_if (present (rp_cardinality p) || present (rp_filler_predicate_id p))
           (wire "cardinality and filler IDs are reserved for cardinality predicates"));
  _ ← reject_if (negb (Bool.eqb (cardinality_kind kind || role_kind kind) (present (rp_role_id p))))
    (wire "role IDs are required exactly for role and cardinality predicates");
  _ ← reject_if (negb (annotation_kind kind) && negb (bool_decide (rp_annotation p = [])))
    (wire "predicate annotation is not valid for this predicate kind");
  _ ← validate_annotation p;
  _ ← reject_if (negb (Bool.eqb (internal_kind kind) (present (rp_internal_key p))))
    (wire "internal keys are required exactly for strategy predicates");
  if bool_decide (kind = OrderingGuard) then
    sort ← index_or_crash (rp_argument_sorts p) 0;
    reject_if (negb (bool_decide (rp_internal_key p = Some ("canonical-" +:+ sort_name sort +:+ "-order"))))
      (wire "ordering-guard internal key does not match its term sort")
  else Ok tt.

Definition opposite_kinds (left right : PredicateKind) : bool :=
  match left, right with
  | Concept, NegatedConcept | NegatedConcept, Concept | Nominal, NegatedNominal | NegatedNominal, Nominal
  | ObjectRole, NegatedObjectRole | NegatedObjectRole, ObjectRole | DataRole, NegatedDataRole
  | NegatedDataRole, DataRole | DataRange, NegatedDataRange | NegatedDataRange, DataRange
  | Equality, Inequality | Inequality, Equality => true
  | _, _ => false
  end.

(** ** Access to a program *)

Definition predicate (pid : N) (prog : RuleProgram) : NativeResult RulePredicate :=
  ok_or (predicates prog !! N.to_nat pid) (wire "predicate ID is dangling").

Definition predicate_kind (pid : N) (prog : RuleProgram) : NativeResult PredicateKind :=
  p ← predicate pid prog; Ok (rp_kind p).

Definition predicate_argument_sorts (pid : N) (prog : RuleProgram) : NativeResult (list TermSort) :=
  p ← predicate pid prog; Ok (rp_argument_sorts p).

Definition opposite_predicate (pid : N) (prog : RuleProgram) : NativeResult (option RulePredicate) :=
  p ← predicate pid prog;
  match rp_opposite_predicate_id p with
  | None => Ok None
  | Some opposite => o ← predicate opposite prog; Ok (Some o)
  end.

Definition clause (cid : N) (prog : RuleProgram) : NativeResult RuleClause :=
  ok_or (clauses prog !! N.to_nat cid) (wire "clause ID is dangling").

Definition validate_ground_atom (a : GroundAtom) (prog : RuleProgram) : NativeResult unit :=
  p ← predicate (ga_predicate_id a) prog;
  reject_if (negb (bool_decide (length (ga_arguments a) = arity p)))
    (wire "ground atom arity does not match its predicate").

(** ** Validation of clauses *)

Definition validate_atom (a : RuleAtom) (prog : RuleProgram) : NativeResult unit :=
  p ← predicate (ra_predicate_id a) prog;
  _ ← reject_if (negb (bool_decide (length (ra_arguments a) = arity p)))
    (wire "atom arity does not match its predicate");
  _ ← reject_if (negb (bool_decide (term_sort <$> ra_arguments a = rp_argument_sorts p)))
    (wire "atom argument sorts do not match its predicate");
  _ ← (if bool_decide (rp_kind p = Equality) || bool_decide (rp_kind p = Inequality) then
         second ← index_or_crash (ra_arguments a) 1;
         first ← index_or_crash (ra_arguments a) 0;
         reject_if (bool_decide (ord_lt second first))
           (wire "equality and inequality arguments must be canonically ordered")
       else Ok tt);
  _ ← (if bool_decide (rp_kind p = OrderingGuard) then
         first ← index_or_crash (ra_arguments a) 0;
         second ← index_or_crash (ra_arguments a) 1;
         reject_if (bool_decide (ord_le second first))
           (wire "ordering-guard arguments must be in strict canonical order")
       else Ok tt);
  if bool_decide (rp_kind p = AnnotatedEquality) then
    second ← index_or_crash (ra_arguments a) 1;
    first ← index_or_crash (ra_arguments a) 0;
    reject_if (bool_decide (ord_lt second first))
      (wire "annotated-equality pair arguments must be canonically ordered")
  else Ok tt.

(** What the loop over the atoms of a clause accumulates. *)
Record ClauseScan := mkClauseScan {
  variable_sorts : gmap N TermSort;
  first_occurrence : list N;
  body_variables : gset (TermSort * N);
  head_variables : gset (TermSort * N)
}.

#[global] Instance ClauseScan_eta : Eta ClauseScan := λ c,
  mkClauseScan (variable_sorts c) (first_occurrence c) (body_variables c) (head_variables c).

(** The body of the loop over the terms of one atom. *)
Definition scan_term (is_head : bool) (kind : PredicateKind) (c : ClauseScan) (t : Term) : NativeResult ClauseScan :=
  match variable_key t with
  | None => Ok c
  | Some (sort, v) =>
      let known := variable_sorts c !! v in
      let c := c <| variable_sorts ::= <[v := sort]> |> in
      _ ← reject_if (match known with Some s => negb (bool_decide (s = sort)) | None => false end)
        (wire "one variable ID cannot have object and data sorts");
      let c := match known with None => c <| first_occurrence ::= λ l, l ++ [v] |> | Some _ => c end in
      Ok (if is_head then c <| head_variables ::= λ s, {[(sort, v)]} ∪ s |>
          else if bool_decide (kind = OrderingGuard) then c
          else c <| body_variables ::= λ s, {[(sort, v)]} ∪ s |>)
  end.

(** The body of the loop over the atoms. *)
Definition scan_atom (prog : RuleProgram) (is_head : bool) (c : ClauseScan) (a : RuleAtom) : NativeResult ClauseScan :=
  _ ← validate_atom a prog;
  kind ← predicate_kind (ra_predicate_id a) prog;
  _ ← reject_if (is_head && bool_decide (kind = OrderingGuard)) (wire "ordering guards cannot occur in clause heads");
  foldM (scan_term is_head kind) (ra_arguments a) c.

Definition validate_clause (c : RuleClause) (prog : RuleProgram) : NativeResult unit :=
  _ ← reject_if (negb (strictly_canonical_atoms (rc_body c)) || negb (strictly_canonical_atoms (rc_head c)))
    (wire "clause atoms lost canonical ordering");
  _ ← reject_if (existsb (λ a, bool_decide (a ∈ rc_head c)) (rc_body c)) (wire "tautological clauses must be removed");
  scan ← foldM (scan_atom prog false) (rc_body c) (mkClauseScan ∅ [] ∅ ∅);
  scan ← foldM (scan_atom prog true) (rc_head c) scan;
  _ ← ok_or (u32_try_from (length (first_occurrence scan))) (wire "clause variable count exceeds the u32 IR limit");
  _ ← reject_if (negb (bool_decide (first_occurrence scan = range (length (first_occurrence scan)))))
    (wire "clause variables must follow canonical first-occurrence numbering");
  reject_if (negb (bool_decide (head_variables scan ⊆ body_variables scan)))
    (wire "head variables must be range-restricted by the body").

(** The loop of [validate_clauses]; the identities seen so far come first. *)
Fixpoint validate_clauses_from (seen : list (list RuleAtom * list RuleAtom * list N)) (cs : list RuleClause)
    (prog : RuleProgram) : NativeResult unit :=
  match cs with
  | [] => Ok tt
  | c :: cs =>
      let identity := (rc_body c, rc_head c, rc_join_order c) in
      _ ← reject_if (bool_decide (identity ∈ seen)) (wire "clauses must have unique semantic identities");
      _ ← validate_clause c prog;
      validate_clauses_from (identity :: seen) cs prog
  end.

Definition validate_clauses (prog : RuleProgram) : NativeResult unit := validate_clauses_from [] (clauses prog) prog.

(** Whether [filler] can fill the cardinality predicate [p]. *)
Definition valid_filler (p filler : RulePredicate) : bool :=
  match rp_kind p with
  | AtLeastObject | AnnotatedEquality =>
      bool_decide (rp_argument_sorts filler = [TObject]) &&
      match rp_kind filler with Concept | NegatedConcept | Nominal | NegatedNominal => true | _ => false end
  | AtLeastData =>
      match rp_kind filler with DataRange | NegatedDataRange => true | _ => false end &&
      bool_decide (length (rp_argument_sorts filler) = length (rp_annotation p))
  | _ => false
  end.

Definition validate_predicate_references (prog : RuleProgram) : NativeResult unit :=
  iterM (λ p,
    match rp_filler_predicate_id p with
    | None => Ok tt
    | Some filler_id =>
        _ ← reject_if (bool_decide (filler_id = rp_predicate_id p))
          (wire "a cardinality predicate cannot be its own filler");
        filler ← predicate filler_id prog;
        reject_if (negb (valid_filler p filler)) (wire "cardinality predicate has an incompatible filler predicate")
    end) (predicates prog).

(** The loop over the predicates in [RuleProgram::new]. *)
Definition validate_predicate (entry : nat * RulePredicate) : NativeResult unit :=
  let '(expected, p) := entry in
  _ ← reject_if (negb (bool_decide (N.to_nat (rp_predicate_id p) = expected)))
    (wire "predicate IDs must be dense and ordered");
  _ ← validate_predicate_signature (rp_kind p) (rp_argument_sorts p);
  validate_predicate_semantics p.

(** The loop over the opposites. *)
Definition validate_opposite (ps : list RulePredicate) (p : RulePredicate) : NativeResult unit :=
  match rp_opposite_predicate_id p with
  | None => Ok tt
  | Some opposite_id =>
      _ ← reject_if (bool_decide (opposite_id = rp_predicate_id p))
        (wire "a predicate cannot be its own logical opposite");
      o ← ok_or (ps !! N.to_nat opposite_id) (wire "opposite predicate ID is dangling");
      reject_if (negb (bool_decide (rp_opposite_predicate_id o = Some (rp_predicate_id p)))
          || negb (bool_decide (rp_argument_sorts o = rp_argument_sorts p))
          || negb (opposite_kinds (rp_kind p) (rp_kind o))
          || negb (bool_decide (rp_symbol_id p = rp_symbol_id o))
          || negb (bool_decide (rp_role_id p = rp_role_id o)))
        (wire "opposite predicate links must be reciprocal and sort-compatible")
  end.

Definition new_program (ps : list RulePredicate) (cs : list RuleClause) : NativeResult RuleProgram :=
  _ ← iterM validate_predicate (imap pair ps);
  _ ← iterM (validate_opposite ps) ps;
  _ ← iterM (λ entry : nat * RuleClause,
        reject_if (negb (bool_decide (N.to_nat (rc_clause_id entry.2) = entry.1)))
          (wire "clause IDs must be dense and ordered")) (imap pair cs);
  let prog := mkRuleProgram ps cs in
  _ ← validate_predicate_references prog;
  _ ← validate_clauses prog;
  Ok prog.

End Rule.

(** ** Queued equalities, join matches and limits *)

Record PendingAnnotatedEquality := mkPending {
  pe_action_id : N;
  pe_atom : GroundAtom;
  pe_supports : list DependencySet;
  pe_provenance_ids : list N
}.

Definition new_pending (action : N) (atom : GroundAtom) (supports : list DependencySet) (provenance : list N) :
    NativeResult PendingAnnotatedEquality :=
  _ ← reject_if (bool_decide (supports = [])) (NativeErr.invariant "annotated equality action has no dependency support");
  Ok (mkPending action atom (dedup (sort supports)) (dedup (sort provenance))).

Record VariableBinding := mkBinding { vb_sort : TermSort; vb_variable_id : N; vb_node : NodeHandle }.

#[global] Instance VariableBinding_eq_dec : EqDecision VariableBinding.
Proof. solve_decision. Defined.

Definition binding_key (b : VariableBinding) : TermSort * N * NodeHandle := (vb_sort b, vb_variable_id b, vb_node b).

#[global] Instance binding_key_inj : Inj (=) (=) binding_key.
Proof. intros [] []; cbn. by intros [= -> -> ->]. Qed.
#[global] Instance VariableBinding_ord : Ord VariableBinding := compare_by binding_key.
#[global] Instance VariableBinding_ord_laws : OrdLaws VariableBinding.
Proof. apply compare_by_laws. apply _. Qed.
#[global] Instance VariableBinding_countable : Countable VariableBinding.
Proof. apply (inj_countable' binding_key (λ p, mkBinding p.1.1 p.1.2 p.2)). by intros []. Defined.

Record JoinMatch := mkJoinMatch {
  jm_clause_id : N;
  jm_delta_body_index : N;
  jm_bindings : list VariableBinding;
  jm_dependency : DependencySet;
  jm_premise_row_ids : list N
}.

Definition new_match (cid delta : N) (bindings : list VariableBinding) (dependency : DependencySet)
    (premises : list N) : NativeResult JoinMatch :=
  _ ← reject_if (negb (strictly_ascending ((λ b, (vb_sort b, vb_variable_id b)) <$> bindings)))
    (NativeErr.wire "join bindings must be uniquely sorted by variable");
  Ok (mkJoinMatch cid delta bindings dependency (dedup (sort premises))).

Record RuleLimits := mkRuleLimits {
  max_join_steps : N;
  max_matches_per_generation : N;
  cancellation_interval : N
}.

Definition new_limits (steps matches interval : N) : NativeResult RuleLimits :=
  _ ← reject_if ((steps =? 0)%N || (matches =? 0)%N || (interval =? 0)%N)
    (NativeErr.wire "rule limits must be strictly positive");
  Ok (mkRuleLimits steps matches interval).

Definition default_rule_limits : RuleLimits := mkRuleLimits 10000000 2000000 256.
