(* ===== verification/Merging.v ===== *)
(** * The merging manager (native/src/merging/mod.rs)

    One equality consequence: detect an inequality clash, prune the children of
    the merge source, hand its pending existentials to the target and merge,
    all inside one checkpoint. *)

From S2P Require Import Prelude Order Errors Model Queue Store Kernel KernelBase Arena Facts FactOps.
From S2P Require Import StateInv NodeOps Merge Prune KernelInv Cancel Branching RuleModel.
Import Kernel.

Record MergeResult := mkMergeResult {
  mr_representative : NodeHandle;
  mr_merged : option NodeHandle;
  mr_pruned : list NodeHandle;
  mr_clashed : bool
}.

Record MergingManager := mkMergingManager { inequality_by_sort : gmap TermSort N }.

Module Merging.

(** [MergingManager::new], over the predicates of the program. *)
Definition new (predicates : list RulePredicate) : NativeResult MergingManager :=
  by_sort ← foldM (λ (m : gmap TermSort N) p,
      sort ← ok_or (head (rp_argument_sorts p)) (NativeErr.invariant "inequality predicate has no sort");
      _ ← reject_if (bool_decide (is_Some (m !! sort)))
        (NativeErr.wire "a rule program cannot contain two inequalities for one term sort");
      Ok (<[sort := rp_predicate_id p]> m))
    (List.filter (λ p, bool_decide (rp_kind p = Inequality)) predicates) ∅;
  Ok (mkMergingManager by_sort).

Definition rank_priority (rank : N * N * N) : list Z :=
  [Z.of_N rank.1.1; Z.of_N rank.1.2; Z.of_N rank.2].

(** The ids and dependencies of the inequality rows between two nodes. *)
Definition inequality_clash (m : MergingManager) (left right : NodeHandle) (sort : NodeSort)
    (support : DependencySet) : K (option MergeResult) :=
  let term_sort := match sort with Object => TObject | Data => TData end in
  match inequality_by_sort m !! term_sort with
  | None => mret None
  | Some predicate =>
      left_rank ← reads (node_rank left);
      right_rank ← reads (node_rank right);
      let '(first, second) :=
        if bool_decide (ord_le left_rank right_rank) then (left, right) else (right, left) in
      let bindings : gmap N NodeHandle := <[0 := first]> (<[1 := second]> ∅) in
      rows ← reads (candidate_fact_ids predicate bindings);
      if bool_decide (rows = []) then mret None
      else
        supports ← reads (λ k, collectM (λ rid, row ← fact rid k; Ok (supports row)) rows);
        inequality ← lift (ok_or (min_by (λ l r, compare (dependency_rank l) (dependency_rank r)) (mjoin supports))
          (NativeErr.invariant "inequality row has no dependency support"));
        let participants := dedup (Order.sort rows) in
        _ ← install_clash "equality_inequality" (Dep.union [support; inequality]) participants None;
        mret (Some (mkMergeResult left None [] true))
  end.

Section manager.
Context (others : nat → CancellationState → CancellationState) (clock : nat → N).
(** Whether the caller supplied a cancellation state. *)
Context (supplied : bool).

Abbreviation M X := (st (World unit) NativeError X).

Definition poll : M unit := if supplied then Branching.poll others clock else mret tt.

(** [kernel.atomic] around a closure that also polls. *)
Definition watomic {X} (m : M X) : M X := λ w,
  match m w with
  | (Err e, w') =>
      (Err e, mkWorld (restore (snapshot (w_kernel w)) (w_kernel w')) (w_access w') (w_cancel w') (w_polls w'))
  | r => r
  end.

(** The loop over the children of the merge source. *)
Fixpoint prune_children (children : list NodeHandle) (pruned : list NodeHandle) : M (list NodeHandle) :=
  match children with
  | [] => mret pruned
  | child :: children =>
      _ ← poll;
      more ← kern (prune_subtree_in_transaction child);
      prune_children children (pruned ++ more)
  end.

Definition merge_inner (m : MergingManager) (left right : NodeHandle) (dependency : DependencySet) :
    M MergeResult :=
  l ← kern (reads (canonical_handle left));
  r ← kern (reads (canonical_handle right));
  let support := Dep.union [dependency; l.2; r.2] in
  if bool_decide (l.1 = r.1) then mret (mkMergeResult l.1 None [] false)
  else
    sort ← kern (reads (node_sort l.1));
    sort' ← kern (reads (node_sort r.1));
    _ ← lift (reject_if (negb (bool_decide (sort' = sort)))
      (NativeErr.invariant "cannot merge object and concrete nodes"));
    clash ← kern (inequality_clash m l.1 r.1 sort support);
    match clash with
    | Some result => mret result
    | None =>
        orientation ← kern (reads (merge_orientation l.1 r.1));
        let '(target, source) := orientation in
        children ← kern (reads (direct_children source));
        source_node ← kern (reads (active_node source));
        let pending := btree_elements (n_unprocessed_existentials source_node) in
        pruned ← prune_children children [];
        _ ← kern (forM (λ eid, mark_existential target eid true) pending);
        representative ← kern (merge_nodes_in_transaction source target support);
        _ ← lift (reject_if (negb (bool_decide (representative = target)))
          (NativeErr.invariant "state merge orientation changed after it was selected"));
        rank ← kern (reads (node_rank target));
        target_node ← kern (reads (active_node target));
        _ ← (if bool_decide (n_unprocessed_existentials target_node = ∅) then mret tt
             else kern (enqueue_node "existential_candidates" target (rank_priority rank)));
        _ ← kern (enqueue_node "blocking_invalidations" target (rank_priority rank));
        mret (mkMergeResult representative (Some source) pruned false)
    end.

Definition merge (m : MergingManager) (left right : NodeHandle) (dependency : DependencySet) :
    M MergeResult :=
  _ ← poll;
  watomic (result ← merge_inner m left right dependency; _ ← poll; mret result).

End manager.
End Merging.

(** ** Rollback *)

Section manager_laws.
Context (others : nat → CancellationState → CancellationState) (clock : nat → N) (supplied : bool).
Abbreviation M X := (st (World unit) NativeError X).

(** However [m] ends, the kernels before and after are related by [R]. *)
Definition wmoves {X} (R : relation TableauKernel) (m : M X) : Prop :=
  ∀ w, R (w_kernel w) (w_kernel (m w).2).

Lemma wmoves_kern {X} R (m : K X) : moves R m → wmoves R (kern m).
Proof. intros Hm w. unfold kern. specialize (Hm (w_kernel w)). by destruct (m (w_kernel w)). Qed.

Lemma wmoves_bind {X Y} R `{!PreOrder R} (m : M X) (f : X → M Y) :
  wmoves R m → (∀ x, wmoves R (f x)) → wmoves R (m ≫= f).
Proof.
  intros Hm Hf w. unfold mbind, st_bind. specialize (Hm w). destruct (m w) as [[x|e|] w1]; [|done..].
  etrans; [exact Hm|]. apply Hf.
Qed.

Lemma wmoves_pure {X} R `{!PreOrder R} (m : M X) : (∀ w, w_kernel (m w).2 = w_kernel w) → wmoves R m.
Proof. intros Hm w. by rewrite Hm. Qed.

Lemma poll_same_kernel w : w_kernel (Merging.poll others clock supplied w).2 = w_kernel w.
Proof.
  unfold Merging.poll. destruct supplied; [|done].
  destruct (Branching.poll others clock w) as [r w'] eqn:E. by apply poll_kernel in E as [? _].
Qed.

Ltac wsteps :=
  repeat first
    [ apply wmoves_bind; [apply _| |intros ?]
    | apply wmoves_pure; [apply _|]; (apply poll_same_kernel || done)
    | apply wmoves_kern; moves_steps; done
    | match goal with |- wmoves _ (match ?x with _ => _ end) => destruct x end ].

Lemma prune_children_steady children pruned : wmoves steady (Merging.prune_children others clock supplied children pruned).
Proof.
  revert pruned. induction children as [|c children IH]; intros pruned; cbn [Merging.prune_children]; [by wsteps|].
  apply wmoves_bind; [apply _|apply wmoves_pure; [apply _|apply poll_same_kernel]|]. intros [].
  apply wmoves_bind; [apply _| |intros; apply IH]. apply wmoves_kern. unfold prune_subtree_in_transaction.
  apply moves_bind; [apply _|apply moves_reads, _|]. intros _. apply steady_prune_subtree_inner.
Qed.

Lemma steady_merge_in_transaction l r d : moves steady (merge_nodes_in_transaction l r d).
Proof.
  unfold merge_nodes_in_transaction. apply moves_bind; [apply _|apply moves_reads, _|]. intros _.
  apply steady_merge_nodes_inner.
Qed.

Lemma steady_enqueue_node queue v p : moves steady (enqueue_node queue v p).
Proof.
  unfold enqueue_node. apply moves_bind; [apply _|apply moves_reads, _|]. intros _.
  apply moves_lift_bind; [apply _|]. intros sel Hsel%ok_or_Ok. unfold node_queue in Hsel.
  repeat case_bool_decide; simplify_eq; unfold enqueue_into; by moves_steps.
Qed.

Lemma merge_inner_steady m l r d : wmoves steady (Merging.merge_inner others clock supplied m l r d).
Proof.
  unfold Merging.merge_inner.
  repeat first
    [ apply wmoves_bind; [apply _| |intros ?]
    | apply prune_children_steady
    | apply wmoves_kern, steady_merge_in_transaction
    | apply wmoves_kern, steady_enqueue_node
    | match goal with |- wmoves _ (match ?x with _ => _ end) => destruct x end
    | apply wmoves_pure; [apply _|done]
    | apply wmoves_kern; unfold Merging.inequality_clash; by moves_steps ].
Qed.

Lemma merge_rollback_state hi m l r d w e w' :
  arena_ok hi (state (w_kernel w)) → Merging.merge others clock supplied m l r d w = (Err e, w') →
  state (w_kernel w') = state (w_kernel w) ∧ branches (w_kernel w') = branches (w_kernel w) ∧
  operation_root (w_kernel w') = operation_root (w_kernel w) ∧
  trail_length (w_kernel w') = trail_length (w_kernel w).
Proof.
  intros Ha H. unfold Merging.merge, mbind at 1, st_bind at 1 in H.
  pose proof (poll_same_kernel w) as Hp.
  destruct (Merging.poll others clock supplied w) as [[[]|e0|] w1]; cbn in Hp; [|simplify_eq; by rewrite Hp|done].
  unfold Merging.watomic in H. rewrite <-Hp in Ha |- *.
  match type of H with context [match ?m w1 with _ => _ end] => set (body := m) in H end.
  assert (wmoves steady body) as Hs.
  { apply wmoves_bind; [apply _|apply merge_inner_steady|]. intros x.
    apply wmoves_bind; [apply _|apply wmoves_pure; [apply _|apply poll_same_kernel]|].
    intros []. apply wmoves_pure; [apply _|done]. }
  destruct (Hs w1) as (Hg & Hb & Hr). destruct (body w1) as [[x|e1|] w2]; [done| |done].
  injection H as <- <-. cbn in *. split_and!; [|done|done|done]. rewrite Hg. by eapply restore_state_id.
Qed.

(** ** Success *)

Lemma keeps_inequality_clash m l r sort support : keeps (Merging.inequality_clash m l r sort support).
Proof.
  unfold Merging.inequality_clash. destruct (inequality_by_sort m !! _); [|apply keeps_mret].
  apply keeps_bind; [apply keeps_reads|intros lr]. apply keeps_bind; [apply keeps_reads|intros rr].
  destruct (if bool_decide _ then _ else _) as [first second].
  apply keeps_bind; [apply keeps_reads|intros rows]. case_bool_decide; [apply keeps_mret|].
  apply keeps_bind; [apply keeps_reads|intros ss]. apply keeps_bind; [apply keeps_lift|intros ineq].
  apply keeps_bind; [apply keeps_install_clash, canonical_union|intros; apply keeps_mret].
Qed.

(** A merge that clashed reports the clash and nothing else. *)
Lemma inequality_clash_Some m l r sort support k res k' :
  Merging.inequality_clash m l r sort support k = (Ok (Some res), k') → res = mkMergeResult l None [] true.
Proof.
  intros H. unfold Merging.inequality_clash in H. destruct (inequality_by_sort m !! _); [|by apply mret_Ok in H as [? _]].
  apply st_bind_Ok in H as (? & ? & _ & H). apply st_bind_Ok in H as (? & ? & _ & H).
  destruct (if bool_decide _ then _ else _) as [first second].
  apply st_bind_Ok in H as (? & ? & _ & H). case_bool_decide; [by apply mret_Ok in H as [? _]|].
  apply st_bind_Ok in H as (? & ? & _ & H). apply st_bind_Ok in H as (? & ? & _ & H).
  apply st_bind_Ok in H as (? & ? & _ & [[= ->] _]%mret_Ok). done.
Qed.

Lemma inequality_clash_None m l r sort support k k' :
  Merging.inequality_clash m l r sort support k = (Ok None, k') → k' = k.
Proof.
  intros H. unfold Merging.inequality_clash in H. destruct (inequality_by_sort m !! _); [|by apply mret_Ok in H as [_ ?]].
  apply st_bind_Ok in H as (? & ? & [_ ->]%reads_Ok & H). apply st_bind_Ok in H as (? & ? & [_ ->]%reads_Ok & H).
  destruct (if bool_decide _ then _ else _) as [first second].
  apply st_bind_Ok in H as (? & ? & [_ ->]%reads_Ok & H). case_bool_decide; [by apply mret_Ok in H as [_ ?]|].
  apply st_bind_Ok in H as (? & ? & _ & H). apply st_bind_Ok in H as (? & ? & _ & H).
  by apply st_bind_Ok in H as (? & ? & _ & [? _]%mret_Ok).
Qed.

(** Pruning the children: every active node below one of them is reported. *)
Lemma prune_children_Ok children pruned w out w' :
  state_ok (top (w_kernel w)) (state (w_kernel w)) →
  Merging.prune_children others clock supplied children pruned w = (Ok out, w') →
  kframe (w_kernel w) (w_kernel w') ∧ state_ok (top (w_kernel w)) (state (w_kernel w')) ∧
  ∃ more, out = pruned ++ more ∧
    (∀ c, c ∈ children → c ∈ more) ∧
    (∀ h, h ∈ more → ∃ n, stored (nodes (state (w_kernel w'))) h n ∧ n_lifecycle n = Pruned) ∧
    (∀ h n, stored (nodes (state (w_kernel w))) h n → ∃ n', stored (nodes (state (w_kernel w'))) h n' ∧
      same_identity n n' ∧ n_representative n' = n_representative n ∧ (h ∉ more → n_lifecycle n' = n_lifecycle n)).
Proof.
  revert pruned w. induction children as [|c children IH]; intros pruned w Hk H; cbn [Merging.prune_children] in H.
  { inv_ok. split_and!; [done..|]. exists []. rewrite app_nil_r. split_and!; [done|set_solver..|].
    intros h n Hn. exists n. split_and!; [done|reflexivity|done|done]. }
  apply st_bind_Ok in H as ([] & w1 & Hp & H). pose proof (poll_same_kernel w) as Ek. rewrite Hp in Ek. cbn in Ek.
  apply st_bind_Ok in H as (hs & w2 & (k2 & Hk2 & ->)%kern_Ok & H). rewrite Ek in Hk2.
  unfold prune_subtree_in_transaction in Hk2. apply st_bind_Ok in Hk2 as (cn & ? & [[Hcn Hca]%require_active_Ok ->]%reads_Ok & Hk2).
  apply prune_subtree_inner_Ok in Hk2; [|done]. destruct Hk2 as [Hf2 Hs2 _ Hex Hnodes _].
  apply IH in H; [|cbn; by rewrite (top_frame _ _ Hf2)]. cbn in H.
  destruct H as (Hf & Hs & more & -> & Hin & Hpr & Hst). rewrite (top_frame _ _ Hf2) in Hs.
  split_and!; [by etrans|done|]. exists (hs ++ more). split_and!; [by rewrite app_assoc| | |].
  - intros x [->|Hx]%elem_of_cons; [|set_solver]. apply elem_of_app. left. apply Hex. exists cn.
    split; [done|]. split; [done|]. left.
    by rewrite (stored_handle _ _ _ (arena_slots _ _ (state_arena _ _ Hk)) Hcn).
  - intros h [Hh|Hh]%elem_of_app; [|by apply Hpr].
    pose proof Hh as (n & Hn & _)%Hex. destruct (Hnodes _ _ Hn) as (n2 & Hn2 & _ & _ & Hl2).
    rewrite decide_True in Hl2 by done. destruct (Hst _ _ Hn2) as (n3 & Hn3 & _ & _ & Hl3).
    destruct (decide (h ∈ more)) as [Hm|Hm]; [by apply Hpr|]. exists n3. split; [done|].
    by rewrite (Hl3 Hm).
  - intros h n Hn. destruct (Hnodes _ _ Hn) as (n2 & Hn2 & Hi2 & Hr2 & Hl2).
    destruct (Hst _ _ Hn2) as (n3 & Hn3 & Hi3 & Hr3 & Hl3). exists n3. split_and!; [done|by etrans|congruence|].
    intros [Hh Hm]%not_elem_of_app. rewrite (Hl3 Hm), Hl2. by rewrite decide_False.
Qed.

(** Every node keeps its link. *)
Definition keeps_links (s s' : MutableState) : Prop :=
  ∀ h n, stored (nodes s) h n → ∃ n', stored (nodes s') h n' ∧ n_handle n' = n_handle n ∧
    n_representative n' = n_representative n.

#[local] Instance keeps_links_preorder : PreOrder keeps_links.
Proof.
  split; [intros s h n Hn; eauto|]. intros s1 s2 s3 H12 H23 h n Hn.
  destruct (H12 _ _ Hn) as (n2 & Hn2 & E2 & F2). destruct (H23 _ _ Hn2) as (n3 & Hn3 & E3 & F3).
  exists n3. split_and!; [done|congruence..].
Qed.

Lemma keeps_links_resolves s s' h r ds :
  keeps_links s s' → resolves (nodes s) h r ds → ∃ ds', resolves (nodes s') h r ds'.
Proof.
  intros Hl. induction 1 as [h n Hn Hr|h n h' r ds Hn Hr _ [ds' IH]].
  - destruct (Hl _ _ Hn) as (n' & Hn' & <- & E). exists []. apply resolves_here; [done|congruence].
  - destruct (Hl _ _ Hn) as (n' & Hn' & _ & E). exists (n_merge_dependency n' :: ds').
    eapply resolves_step; [done|by rewrite E|done].
Qed.

(** Marking existentials on [h] adds them there and changes nothing else. *)
Lemma mark_all_Ok h pending k k' :
  state_ok (top k) (state k) →
  forM (λ eid, mark_existential h eid true) pending k = (Ok tt, k') →
  kframe k k' ∧ state_ok (top k) (state k') ∧ keeps_links (state k) (state k') ∧
  (∀ x n, stored (nodes (state k)) x n → ∃ n', stored (nodes (state k')) x n' ∧
    n_lifecycle n' = n_lifecycle n ∧ n_unprocessed_existentials n ⊆ n_unprocessed_existentials n' ∧
    (x = h → ∀ e, e ∈ pending → e ∈ n_unprocessed_existentials n')).
Proof.
  revert k. induction pending as [|e pending IH]; intros k Hk H; cbn [forM] in H.
  { inv_ok. split_and!; [done|done|reflexivity|]. intros x n Hn. exists n. split_and!; [done..|set_solver]. }
  apply st_bind_Ok in H as ([] & k1 & H1 & H).
  destruct (keeps_mark_existential _ _ _ _ _ _ Hk H1) as [Hf1 Hk1].
  rewrite <-(top_frame _ _ Hf1) in Hk1. destruct (IH _ Hk1 H) as (Hf2 & Hk2 & Hl2 & Hn2).
  rewrite (top_frame _ _ Hf1) in Hk2.
  assert (∀ x n, stored (nodes (state k)) x n → ∃ n', stored (nodes (state k1)) x n' ∧ n_handle n' = n_handle n ∧
    n_representative n' = n_representative n ∧ n_lifecycle n' = n_lifecycle n ∧
    n_unprocessed_existentials n ⊆ n_unprocessed_existentials n' ∧ (x = h → e ∈ n_unprocessed_existentials n')) as Hn1.
  { clear -Hk H1. intros x n Hn. unfold mark_existential in H1. inv_kernel.
    match goal with G : stored _ h ?m ∧ _ |- _ => rename m into hn; destruct G as [Hhn _] end.
    match goal with G : _ = _ ∧ (∃ m, _) |- _ => destruct G as [-> _] end.
    destruct (bool_decide (e ∈ n_unprocessed_existentials hn)) eqn:E; cbn in H1; inv_ok.
    - exists n. split_and!; try done. intros ->. rewrite <-(stored_fun _ _ _ _ Hhn Hn). by apply bool_decide_eq_true in E.
    - match goal with G : update_node _ _ _ _ = _ |- _ => apply update_node_Ok in G as (m & Hm & _ & Hst) end.
      kstep. assert (m = hn) as -> by (destruct Hhn; congruence). rewrite Hst0, Hst. cbn.
      pose proof (arena_slots _ _ (state_arena _ _ Hk)) as Hslots.
      pose proof (node_not_retired _ _ _ _ (arena_node _ _ (state_arena _ _ Hk) _ _ Hm)) as Hnr.
      match goal with |- context [Some ?v] => assert (same_identity hn v) as Hid by done end.
      destruct (update_stored _ _ _ _ Hslots Hm Hid Hnr _ _ Hn) as (n' & Hn' & [[-> Hne]|[-> ->]]).
      + exists n. split_and!; try done. intros ->. destruct Hne. by rewrite (stored_fun _ _ _ _ Hhn Hn).
      + eexists. split_and!; [done|done|done|done| |]; cbn; set_solver. }
  split_and!; [by etrans|done| |].
  - etrans; [|exact Hl2]. intros x n Hn. destruct (Hn1 _ _ Hn) as (n' & ? & ? & ? & _). eauto.
  - intros x n Hn. destruct (Hn1 _ _ Hn) as (n1 & Hs1 & _ & _ & Hl1 & Hu1 & He1).
    destruct (Hn2 _ _ Hs1) as (n2 & Hs2 & Hlc2 & Hu2 & He2). exists n2. split_and!; [done|congruence|set_solver|].
    intros Hx e' [->|?]%elem_of_cons; [|by apply He2]. by apply Hu2, He1.
Qed.

Lemma enqueue_node_Ok queue v p k u k' :
  state_ok (top k) (state k) → enqueue_node queue v p k = (Ok u, k') →
  kframe k k' ∧ state_ok (top k) (state k') ∧ nodes (state k') = nodes (state k) ∧ facts (state k') = facts (state k).
Proof.
  intros Hk H. destruct (keeps_enqueue_node _ _ _ _ _ _ Hk H) as [Hf Hs]. split_and!; [done|done|..];
  unfold enqueue_node in H; inv_ok; unfold node_queue, enqueue_into in *;
  match goal with G : _ = Some ?sel |- _ => repeat case_bool_decide; simplify_eq/= end;
  inv_ok; destruct (Queue.enqueue _ _ _) as [r q']; inv_ok; repeat kstep; kstates; done.
Qed.

Lemma elem_of_direct_children parent k l c :
  slots_ok (nodes (state k)) → direct_children parent k = Ok l →
  c ∈ l ↔ ∃ n, stored (nodes (state k)) c n ∧ n_lifecycle n = Active ∧ n_parent n = Some parent.
Proof.
  intros Hs H. unfold direct_children in H. inv_ok. rewrite list_elem_of_fmap. setoid_rewrite elem_of_sort.
  split.
  - intros ([cid h] & -> & (n & [= -> ->] & Hn)%list_elem_of_fmap). apply list_elem_of_filter in Hn as [[Ha Hp] Hn].
    apply elem_of_live_nodes in Hn as [i Hi]. exists n. split_and!; [|done|done].
    eapply stored_self; [done|done|congruence].
  - intros (n & Hn & Ha & Hp). exists (n_creation_id n, n_handle n). split; [by rewrite (stored_handle _ _ _ Hs Hn)|].
    apply list_elem_of_fmap. exists n. split; [done|]. apply list_elem_of_filter. split; [done|].
    by eapply stored_live.
Qed.

(** What a merge that linked [source] to [target] leaves behind. *)
Record joined (left right source target : NodeHandle) (hs : list NodeHandle) (k k' : TableauKernel) : Prop := {
  joined_left : ∃ ds, resolves (nodes (state k')) left target ds;
  joined_right : ∃ ds, resolves (nodes (state k')) right target ds;
  joined_active : active_handle (nodes (state k')) target;
  joined_link : ∃ n, stored (nodes (state k')) source n ∧ n_lifecycle n = Merged ∧ n_representative n = Some target;
  joined_children c n : stored (nodes (state k)) c n → n_lifecycle n = Active → n_parent n = Some source → c ∈ hs;
  joined_pruned h : h ∈ hs → ∃ n, stored (nodes (state k')) h n ∧ n_lifecycle n = Pruned;
  joined_pending n n' : stored (nodes (state k)) source n → stored (nodes (state k')) target n' →
    n_unprocessed_existentials n ⊆ n_unprocessed_existentials n';
  joined_rows i r : active_row (state k') i r → source ∉ arguments (row_key r);
  joined_before : active_handle (nodes (state k)) source
}.

Definition merge_success (left right : NodeHandle) (res : MergeResult) (k k' : TableauKernel) : Prop :=
  match mr_merged res with
  | Some source => mr_clashed res = false ∧ joined left right source (mr_representative res) (mr_pruned res) k k'
  | None =>
      mr_pruned res = [] ∧
      if mr_clashed res then is_Some (current_clash (state k')) ∧ nodes (state k') = nodes (state k)
      else k' = k ∧ (∃ ds, resolves (nodes (state k)) left (mr_representative res) ds) ∧
           (∃ ds, resolves (nodes (state k)) right (mr_representative res) ds)
  end.

Lemma inequality_clash_frame m l r sort support k res k' :
  Merging.inequality_clash m l r sort support k = (Ok (Some res), k') →
  is_Some (current_clash (state k')) ∧ nodes (state k') = nodes (state k).
Proof.
  intros H. unfold Merging.inequality_clash in H. destruct (inequality_by_sort m !! _); [|by apply mret_Ok in H as [? _]].
  apply st_bind_Ok in H as (? & ? & [_ ->]%reads_Ok & H). apply st_bind_Ok in H as (? & ? & [_ ->]%reads_Ok & H).
  destruct (if bool_decide _ then _ else _) as [first second].
  apply st_bind_Ok in H as (rows & ? & [_ ->]%reads_Ok & H). case_bool_decide; [by apply mret_Ok in H as [? _]|].
  apply st_bind_Ok in H as (? & ? & [_ ->]%reads_Ok & H). apply st_bind_Ok in H as (? & ? & [_ ->]%lift_Ok & H).
  apply st_bind_Ok in H as (b & k1 & H & [_ ->]%mret_Ok). unfold install_clash in H. inv_ok.
  destruct (current_clash (state k)) as [c|] eqn:Ec.
  - case_bool_decide; inv_ok; [by rewrite Ec|]. repeat kstep. kstates. done.
  - inv_ok. repeat kstep. kstates. done.
Qed.

(** The joining phase, once the orientation is known. *)
Lemma join_steps left right l r dsl dsr source target support sn children hs w w1 k2 k3 :
  let k := w_kernel w in
  state_ok (top k) (state k) → canonical support →
  resolves (nodes (state k)) left l dsl → resolves (nodes (state k)) right r dsr →
  l ≠ r → (target = l ∧ source = r ∨ target = r ∧ source = l) →
  direct_children source k = Ok children → stored (nodes (state k)) source sn → n_lifecycle sn = Active →
  Merging.prune_children others clock supplied children [] w = (Ok hs, w1) →
  forM (λ eid, mark_existential target eid true) (btree_elements (n_unprocessed_existentials sn)) (w_kernel w1) = (Ok tt, k2) →
  merge_nodes_in_transaction source target support k2 = (Ok target, k3) →
  kframe k k3 ∧ state_ok (top k) (state k3) ∧ joined left right source target hs k k3.
Proof.
  intros k Hk Hsup Hl Hr Hne Hor Hch Hsn Hsa H1 H2 H3.
  pose proof (arena_slots _ _ (state_arena _ _ Hk)) as Hslots.
  apply prune_children_Ok in H1 as (Hf1 & Hs1 & more & -> & Hin & Hpr & Hst1); [|done]. cbn [app].
  rewrite <-(top_frame _ _ Hf1) in Hs1.
  apply mark_all_Ok in H2 as (Hf2 & Hs2 & Hl2 & Hn2); [|done]. rewrite <-(top_frame _ _ Hf2) in Hs2.
  assert (keeps_links (state k) (state k2)) as Hlinks.
  { etrans; [|exact Hl2]. intros h n Hn. destruct (Hst1 _ _ Hn) as (n' & Hn' & Hid & Hrep & _).
    exists n'. split_and!; [done|apply same_handle, Hid|done]. }
  unfold merge_nodes_in_transaction in H3.
  apply st_bind_Ok in H3 as ([] & ? & [Hv ->]%reads_Ok & H3).
  pose proof (validate_dependency_bounded _ _ _ Hsup Hv) as Hb.
  destruct (merge_nodes_inner_Ok _ _ _ _ _ _ Hs2 Hsup Hb H3) as (ms & dms & mt & dmt & Hms & Hmt & Hm). cbv zeta in Hm.
  assert (∀ x y dx, resolves (nodes (state k)) x y dx → ∃ d', resolves (nodes (state k2)) x y d') as Htr.
  { intros x y dx. by apply keeps_links_resolves. }
  assert (∀ x y dx, resolves (nodes (state k)) x y dx → ∃ d', resolves (nodes (state k2)) y y d') as Hself.
  { intros x y dx Hx. destruct (resolves_target _ Hslots _ _ _ Hx) as (n & Hn & Hrn).
    eapply Htr. by eapply resolves_self. }
  assert (∃ d1 d2, resolves (nodes (state k2)) source source d1 ∧ resolves (nodes (state k2)) target target d2)
    as (d1 & d2 & Hss & Htt).
  { destruct (Hself _ _ _ Hl) as [? ?], (Hself _ _ _ Hr) as [? ?]. destruct Hor as [[-> ->]|[-> ->]]; eauto. }
  destruct (resolves_det _ _ _ _ _ _ Hms Hss) as [-> _]. destruct (resolves_det _ _ _ _ _ _ Hmt Htt) as [-> _].
  assert (source ≠ target) as Hst by (destruct Hor as [[-> ->]|[-> ->]]; congruence).
  rewrite decide_False in Hm by done. destruct Hm as (s & Hor' & Hm).
  assert (s = source) as -> by (destruct Hor' as [[? ?]|[? ?]]; congruence).
  destruct Hm as [Hmf Hmok _ Hmt' (sn2 & Hsn2 & Hsa2) (n & Hn & Hnm & Hnr & _) Hoth Hrows _].
  rewrite (top_frame _ _ Hf2), (top_frame _ _ Hf1) in Hmok.
  pose proof (arena_slots _ _ (state_arena _ _ Hs2)) as Hslots2.
  assert (∀ x y dx, resolves (nodes (state k2)) x y dx → y = source ∨ y = target → ∃ d', resolves (nodes (state k3)) x target d') as Hfin.
  { assert (∃ d', resolves (nodes (state k3)) target target d') as [dt Hdt].
    { eexists. by apply (active_resolves _ _ _ (state_arena _ _ Hmok)). }
    intros x y dx Hx. induction Hx as [x nx Hnx Hrx|x nx x' y dx Hnx Hrx _ IH]; intros Hy.
    - assert (n_handle nx = x) as Ex by (by apply (stored_handle _ _ _ Hslots2)).
      rewrite Ex in Hy. destruct Hy as [->| ->]; [|by eauto]. eexists. by eapply resolves_step.
    - destruct (IH Hy) as [d' IH']. destruct (decide (x = source)) as [->|Hxs].
      + destruct (resolves_target _ Hslots2 _ _ _ Hss) as (ns & Hns & Hnone).
        rewrite (stored_fun _ _ _ _ Hnx Hns) in Hrx. congruence.
      + destruct (Hoth _ _ Hxs Hnx) as (nx' & Hnx' & _ & _ & Hrep & _). eexists.
        eapply resolves_step; [exact Hnx'|by rewrite Hrep|exact IH']. }
  split_and!; [by etrans; [|etrans]|done|]. split.
  - destruct (Htr _ _ _ Hl) as [d' Hd']. eapply Hfin; [exact Hd'|]. destruct Hor as [[-> ->]|[-> ->]]; auto.
  - destruct (Htr _ _ _ Hr) as [d' Hd']. eapply Hfin; [exact Hd'|]. destruct Hor as [[-> ->]|[-> ->]]; auto.
  - done.
  - eauto.
  - intros c cn Hcn Hca Hcp. apply Hin, (elem_of_direct_children _ _ _ _ Hslots Hch). eauto.
  - intros h (hn & Hhn & Hhl)%Hpr. destruct (Hn2 _ _ Hhn) as (hn2 & Hhn2 & Hhl2 & _).
    assert (h ≠ source) as Hhs.
    { intros ->. rewrite (stored_fun _ _ _ _ Hhn2 Hsn2) in Hhl2. congruence. }
    destruct (Hoth _ _ Hhs Hhn2) as (hn3 & Hhn3 & _ & Hhl3 & _). exists hn3. split; [done|congruence].
  - intros n0 n' Hn0 Hn'. rewrite (stored_fun _ _ _ _ Hn0 Hsn).
    destruct (resolves_target _ Hslots2 _ _ _ Htt) as (tn2 & Htn2 & _).
    destruct (Hoth _ _ (not_eq_sym Hst) Htn2) as (tn3 & Htn3 & _ & _ & _ & _ & Hex).
    rewrite (stored_fun _ _ _ _ Hn' Htn3), Hex. intros e He.
    assert (∃ tn1, stored (nodes (state (w_kernel w1))) target tn1) as [tn1 Htn1].
    { destruct Hor as [[-> _]|[-> _]];
        [destruct (resolves_target _ Hslots _ _ _ Hl) as (x & Hx & _)|destruct (resolves_target _ Hslots _ _ _ Hr) as (x & Hx & _)];
        destruct (Hst1 _ _ Hx) as (x' & Hx' & _); eauto. }
    destruct (Hn2 _ _ Htn1) as (tn2' & Htn2' & _ & _ & Hpend). rewrite (stored_fun _ _ _ _ Htn2 Htn2').
    apply Hpend; [done|]. by apply elem_of_btree_elements.
  - done.
  - by exists sn.
Qed.

Lemma merge_inner_Ok m left right d w res w' :
  let k := w_kernel w in let k' := w_kernel w' in
  state_ok (top k) (state k) → Merging.merge_inner others clock supplied m left right d w = (Ok res, w') →
  kframe k k' ∧ state_ok (top k) (state k') ∧ merge_success left right res k k'.
Proof.
  intros k k' Hk H. pose proof (arena_slots _ _ (state_arena _ _ Hk)) as Hslots. unfold Merging.merge_inner in H.
  apply st_bind_Ok in H as ([l dl] & ? & (? & [Hl ->]%reads_Ok & ->)%kern_Ok & H). cbn in H.
  apply st_bind_Ok in H as ([r dr] & ? & (? & [Hr ->]%reads_Ok & ->)%kern_Ok & H). cbn in H, Hr.
  apply canonical_handle_Ok in Hl as [(dsl & Hl & ->) Hla]; [|done].
  apply canonical_handle_Ok in Hr as [(dsr & Hr & ->) Hra]; [|done].
  case_bool_decide as Hlr.
  { inv_ok. cbn in k'. subst r. split_and!; [done|done|]. split; [done|]. cbn. eauto. }
  apply st_bind_Ok in H as (sort & ? & (? & [_ ->]%reads_Ok & ->)%kern_Ok & H). cbn in H.
  apply st_bind_Ok in H as (sort' & ? & (? & [_ ->]%reads_Ok & ->)%kern_Ok & H). cbn in H.
  apply st_bind_Ok in H as ([] & ? & [_ ->]%lift_Ok & H).
  apply st_bind_Ok in H as (clash & ? & (k1 & Hcl & ->)%kern_Ok & H). cbn in H, Hcl.
  destruct clash as [res'|].
  { inv_ok. cbn in k'. destruct (keeps_inequality_clash _ _ _ _ _ _ _ _ Hk Hcl). split_and!; [done..|].
    rewrite (inequality_clash_Some _ _ _ _ _ _ _ _ Hcl). split; [done|]. by eapply inequality_clash_frame. }
  apply inequality_clash_None in Hcl as ->.
  apply st_bind_Ok in H as ([target source] & ? & (? & [Hor ->]%reads_Ok & ->)%kern_Ok & H). cbn in H, Hor.
  apply st_bind_Ok in H as (children & ? & (? & [Hch ->]%reads_Ok & ->)%kern_Ok & H). cbn in H, Hch.
  apply st_bind_Ok in H as (sn & ? & (? & [[Hsn Hsa]%require_active_Ok ->]%reads_Ok & ->)%kern_Ok & H). cbn in H, Hsn.
  fold k in Hor, Hch, Hsn, H.
  assert (target = l ∧ source = r ∨ target = r ∧ source = l) as Hts.
  { clear -Hor Hslots Hl Hr. unfold merge_orientation in Hor. inv_kernel.
    match goal with G : stored _ l _ ∧ _, G' : stored _ r _ ∧ _, D : merge_direction _ _ _ = Ok ?p |- _ =>
      destruct G as [G _], G' as [G' _], p as [t s]; apply merge_direction_cases in D;
      pose proof (stored_handle _ _ _ Hslots G) as <-; pose proof (stored_handle _ _ _ Hslots G') as <- end.
    cbn in *. naive_solver. }
  apply st_bind_Ok in H as (hs & w1 & H1 & H).
  apply st_bind_Ok in H as ([] & ? & (k2 & H2 & ->)%kern_Ok & H).
  apply st_bind_Ok in H as (rep & ? & (k3 & H3 & ->)%kern_Ok & H). cbn in H3, H.
  apply st_bind_Ok in H as ([] & ? & [Hrep ->]%lift_Ok & H).
  apply reject_if_Ok, negb_false_iff, bool_decide_eq_true in Hrep as ->.
  destruct (join_steps left right l r dsl dsr source target (Dep.union [d; Dep.union dsl; Dep.union dsr]) sn children hs
    (mkWorld k (w_access w) (w_cancel w) (w_polls w)) w1 k2 k3) as (Hf3 & Hs3 & Hj);
    try done; [apply canonical_union|]. cbn in Hf3, Hs3, Hj. fold k in Hf3, Hs3, Hj.
  rewrite <-(top_frame _ _ Hf3) in Hs3.
  apply st_bind_Ok in H as (rank & ? & (? & [_ ->]%reads_Ok & ->)%kern_Ok & H). cbn in H.
  apply st_bind_Ok in H as (tn & ? & (? & [_ ->]%reads_Ok & ->)%kern_Ok & H). cbn in H.
  apply st_bind_Ok in H as ([] & w4 & H4 & H).
  assert (kframe k3 (w_kernel w4) ∧ state_ok (top k3) (state (w_kernel w4)) ∧
    nodes (state (w_kernel w4)) = nodes (state k3) ∧ facts (state (w_kernel w4)) = facts (state k3)) as (Hf4 & Hs4 & Hn4 & Hr4).
  { case_bool_decide; [by inv_ok|]. apply kern_Ok in H4 as (k4 & H4 & ->). by apply enqueue_node_Ok in H4. }
  apply st_bind_Ok in H as ([] & ? & (k5 & H5 & ->)%kern_Ok & [-> ->]%mret_Ok). cbn in k'.
  rewrite <-(top_frame _ _ Hf4) in Hs4.
  apply enqueue_node_Ok in H5 as (Hf5 & Hs5 & Hn5 & Hr5); [|done].
  rewrite (top_frame _ _ Hf4), (top_frame _ _ Hf3) in Hs5.
  split_and!; [subst k'; by do 2 (etrans; [eassumption|])|done|]. split; [done|]. cbn.
  assert (nodes (state k') = nodes (state k3)) as En by (subst k'; congruence).
  assert (facts (state k') = facts (state k3)) as Er by (subst k'; congruence).
  destruct Hj as [J1 J2 J3 J4 J5 J6 J7 J8 J9]. split; rewrite ?En; try done.
  intros i row. unfold active_row. rewrite Er. apply J8.
Qed.

Lemma merge_Ok m left right d w res w' :
  let k := w_kernel w in let k' := w_kernel w' in
  state_ok (top k) (state k) → Merging.merge others clock supplied m left right d w = (Ok res, w') →
  kframe k k' ∧ state_ok (top k) (state k') ∧ merge_success left right res k k'.
Proof.
  cbv zeta. intros Hk H. unfold Merging.merge in H. apply st_bind_Ok in H as ([] & w1 & Hp & H).
  pose proof (poll_same_kernel w) as Ep. rewrite Hp in Ep. cbn in Ep. unfold Merging.watomic in H.
  match type of H with context [match ?m w1 with _ => _ end] => set (body := m) in H end.
  destruct (body w1) as [[x|e|] w2] eqn:E; [injection H as <- <-|done|done]. unfold body in E.
  apply st_bind_Ok in E as (res' & w3 & E & E'). apply st_bind_Ok in E' as ([] & w4 & Hp' & [-> ->]%mret_Ok).
  pose proof (poll_same_kernel w3) as Ep'. rewrite Hp' in Ep'. cbn in Ep'. rewrite <-Ep in Hk |- *. rewrite Ep'.
  by apply merge_inner_Ok in E.
Qed.

End manager_laws.
