(* ===== verification/ReasonerTheorems.v ===== *)
(** * Theorems about cancellation, branching and merging

    The brancher is proved against the interface [GroundAtomLaws]; the instance
    below, which looks atoms up as unary facts about one node, discharges it and
    lets the theorems be evaluated. *)

From S2P Require Import Prelude Order Errors Model Queue Store Kernel KernelBase Arena Facts FactOps.
From S2P Require Import StateInv NodeOps Merge Prune KernelInv Totality Cancel Branching RuleModel Merging AuditSpec StoreTheorems.
Import Kernel.

(** ** Unary facts as ground atoms *)

(** An atom is the predicate of a fact about this node; nothing is refuted. *)
Record FactAccess := mkFactAccess { fa_node : NodeHandle }.

#[global] Instance FactAccess_access : GroundAtomAccess FactAccess := {|
  atom_is_satisfied a k atom :=
    rows ← candidate_fact_ids atom {[0 := fa_node a]} k; Ok (negb (bool_decide (rows = [])));
  atom_refutation_dependency _ _ _ := Ok None;
  dispatch_atom atom d := λ '(a, k),
    match add_fact_detailed atom [fa_node a] d false None k with
    | (Ok out, k') => (Ok (out_created out || out_support_changed out), (a, k'))
    | (Err e, k') => (Err e, (a, k'))
    | (Crash, k') => (Crash, (a, k'))
    end
|}.

#[global] Instance FactAccess_laws : GroundAtomLaws FactAccess.
Proof.
  refine {| access_ok _ _ := True |};
    cbn [atom_is_satisfied atom_refutation_dependency dispatch_atom FactAccess_access]; try done.
  - intros a k atom _ _. apply bind_not_crash; [apply candidate_fact_ids_not_crash|done].
  - intros a k atom d _ _ _. pose proof (add_fact_detailed_returns atom [fa_node a] d false None k) as Hr.
    by destruct (add_fact_detailed _ _ _ _ _ k) as [[]].
  - intros a k atom d. assert (moves same_operation_root (add_fact_detailed atom [fa_node a] d false None)) as Hm.
    { unfold add_fact_detailed, update_existing_fact, insert_new_fact, record_mutation. by moves_steps. }
    specialize (Hm k). by destruct (add_fact_detailed _ _ _ _ _ k) as [[]].
  - intros a k atom d b a' k' Hk _ Hd H. destruct (add_fact_detailed _ _ _ _ _ k) as [[out| |] k1] eqn:E; simplify_eq.
    split_and!; [by eapply keeps_add_fact_detailed..|done].
Defined.

Lemma facts_world_ok (a : FactAccess) k : wf k → world_ok a k.
Proof. by split. Qed.

(** Nobody interferes, and time stands still. *)
Definition quiet_others (_ : nat) (c : CancellationState) : CancellationState := c.
Definition frozen (_ : nat) : N := 1.
Definition idle : CancellationState := mkCancel false None 0 0 0 0.

Definition world_of (k : TableauKernel) : World FactAccess := mkWorld k (mkFactAccess t0) idle 0.

(** ** Cancellation *)

(** A poll reports an expired deadline first, then an interrupt, then
    exhausted memory, and otherwise succeeds; it only counts the call. *)
Theorem poll_priority now c :
  Cancel.poll now c =
    (if decide (expired now c) then Err Cancel.timeout_error
     else if interrupted c then Err (Cancel.interrupted_error (reason c))
     else if decide (exhausted c) then Err (Cancel.memory_error (memory_bytes c) (max_memory_bytes c))
     else Ok tt,
     c <| poll_count ::= λ n, saturating_add u64_max n 1 |>).
Proof. apply poll_cases. Qed.

(** Until the next reset, an interrupted state stays interrupted with its
    first reason whatever the threads that share it do, so every later poll
    fails. *)
Theorem interrupt_is_sticky evs now c :
  forallb (negb ∘ is_reset) evs = true → interrupted c = true →
  interrupted (cancel_run evs c) = true ∧ reason (cancel_run evs c) = reason c ∧
  is_err (Cancel.poll now (cancel_run evs c)).1 = true.
Proof.
  intros Hr Hi. destruct (cancel_run_interrupted evs c Hr Hi) as [Hi' Hr']. split_and!; [done|done|].
  rewrite poll_cases, Hi'. cbn. by case_decide.
Qed.

Lemma interrupt_is_sticky_witness :
  let c := mkCancel true (Some "stop"%string) 0 0 0 0 in
  let evs := [EvInterrupt (Some "again"%string); EvObserve 5; EvPoll 9] in
  interrupted (cancel_run evs c) = true ∧ reason (cancel_run evs c) = reason c ∧
  is_err (Cancel.poll 10 (cancel_run evs c)).1 = true.
Proof.
  apply (interrupt_is_sticky [EvInterrupt (Some "again"%string); EvObserve 5; EvPoll 9] 10
    (mkCancel true (Some "stop"%string) 0 0 0 0)); reflexivity.
Defined.

(** ** Branching *)

Section branching.
Context {A : Type} `{GroundAtomLaws A}.
Context (others : nat → CancellationState → CancellationState) (clock : nat → N).

(** C7: processing a disjunction answers, and a success is one of five steps:
    nothing pending, a disjunct already holds, all disjuncts are refuted and
    the clash depends on the refutations, one is left and asserted, or a branch
    opens over the unrefuted ones and the first is asserted at its level.  An
    error drops all branches. *)
Theorem process_next_refines w :
  world_ok (w_access w) (w_kernel w) →
  match process_next others clock w with
  | (Ok t, w') => choice_step (w_access w) (w_kernel w) t (w_access w') (w_kernel w') ∧ world_ok (w_access w') (w_kernel w')
  | (Err _, w') => branches (w_kernel w') = []
  | (Crash, _) => False
  end.
Proof.
  intros Hk. pose proof (recover_calm _ w Hk (process_next_inner_calm others clock w Hk)) as Hr.
  fold (process_next others clock) in Hr. destruct (process_next others clock w) as [[t|e|] w'] eqn:E; [| |done].
  - apply recover_on_error_Ok, process_next_inner_Ok in E. split; [done|]. by eapply choice_step_world.
  - apply recover_on_error_Err in E as (e0 & w0 & _ & -> & _). done.
Qed.

(** C8: resolving a clash answers, and a success is one of four steps: no
    clash, no level to return to, the target branch advances and its next
    alternative is asserted, or the branch is exhausted and the clash is handed
    down.  An error drops all branches. *)
Theorem resolve_clash_refines learning w :
  world_ok (w_access w) (w_kernel w) →
  match resolve_clash others clock learning w with
  | (Ok t, w') => clash_step learning (w_access w) (w_kernel w) t (w_access w') (w_kernel w') ∧ world_ok (w_access w') (w_kernel w')
  | (Err _, w') => branches (w_kernel w') = []
  | (Crash, _) => False
  end.
Proof.
  intros Hk. pose proof (recover_calm _ w Hk (resolve_clash_inner_calm others clock learning w Hk)) as Hr.
  fold (resolve_clash others clock learning) in Hr.
  destruct (resolve_clash others clock learning w) as [[t|e|] w'] eqn:E; [| |done].
  - apply recover_on_error_Ok, resolve_clash_inner_Ok in E. split; [done|]. by eapply clash_step_world.
  - apply recover_on_error_Err in E as (e0 & w0 & _ & -> & _). done.
Qed.

(** When a branch is exhausted it disappears with all branches above it,
    and the clash that replaces it depends only on levels below. *)
Theorem exhausted_clash_moves_down learning w w' :
  world_ok (w_access w) (w_kernel w) → resolve_clash others clock learning w = (Ok Exhausted, w') →
  ∃ c target b, current_clash (state (w_kernel w)) = Some c ∧
    clash_target learning (w_kernel w) c = Some target ∧
    branches (w_kernel w) !! N.to_nat target = Some b ∧
    branches (w_kernel w') = take (N.to_nat target) (branches (w_kernel w)) ∧
    (length (alternatives b) ≤ S (next_alternative b))%nat ∧
    current_clash (state (w_kernel w')) = Some (mkClash "empty_head" (propagated target b c) [source_id b] None) ∧
    ∀ l, l ∈ levels (propagated target b c) → l < target.
Proof.
  intros Hk Hp%recover_on_error_Ok%resolve_clash_inner_Ok.
  by destruct (clash_step_exhausted _ _ _ _ _ (world_wf _ _ Hk) Hp) as [_ Hc].
Qed.

(** C35: resolving clashes until a choice is found or the branches run out
    terminates: it comes back with a transition other than [Exhausted], or
    with an error. *)
Theorem resolve_until_terminates learning w :
  world_ok (w_access w) (w_kernel w) →
  ∃ r w', resolve_until_choice_or_unsat others clock learning w = (r, w') ∧
    match r with Ok t => t ≠ Exhausted | Err _ => True | Crash => False end.
Proof.
  intros Hk. destruct (resolve_until_choice_or_unsat others clock learning w) as [r w'] eqn:E. exists r, w'.
  split; [done|]. pose proof (resolve_loop_returns others clock learning (S (length (branches (w_kernel w)))) w Hk ltac:(lia)) as Hr.
  unfold resolve_until_choice_or_unsat in E. rewrite E in Hr. destruct r as [t|e|]; [|done|done]. clear Hr.
  revert w Hk E. generalize (S (length (branches (w_kernel w')))). intros _.
  intros w _. generalize (S (length (branches (w_kernel w)))). intros fuel. revert w.
  induction fuel as [|fuel IH]; intros w E; cbn [resolve_loop] in E; [done|].
  apply st_bind_Ok in E as (t0 & w1 & _ & E). case_bool_decide; [by eapply IH|]. by apply mret_Ok in E as [-> _].
Qed.

(** A step that fails, by an error or by cancellation, puts the kernel
    back to the operation root without branches; only when that state does not
    pass the audit is the reported error a recovery error. *)
Theorem failed_step_resets learning w e w' :
  resolve_clash others clock learning w = (Err e, w') →
  ∃ e0 w0, resolve_clash_inner others clock learning w = (Err e0, w0) ∧
    w_kernel w' = restore (operation_root (w_kernel w0)) (w_kernel w0) <| branches := [] |> ∧
    (e = e0 ∧ check_invariants (w_kernel w') = Ok tt ∨
     ∃ e1, e = recovery_error e0 e1 ∧ check_invariants (w_kernel w') = Err e1).
Proof. apply recover_on_error_Err. Qed.
End branching.

(** The branch of the tableau clashes at its level. *)
Definition clashing : TableauKernel := (install_clash "bottom" (at_level 0) [] None demo).2.

Lemma clashing_wf : wf clashing.
Proof.
  assert ((install_clash "bottom" (at_level 0) [] None demo).1 = Ok true) as E by (vm_compute; reflexivity).
  unfold clashing. destruct (install_clash "bottom" (at_level 0) [] None demo) as [r k'] eqn:Em. cbn in E |- *. subst r.
  eapply (keeps_preserves _ (keeps_install_clash "bottom" (at_level 0) [] None ltac:(repeat constructor))); [apply demo_wf|exact Em].
Qed.

Lemma process_next_refines_witness :
  let w := world_of demo in let w' := (process_next quiet_others frozen w).2 in
  choice_step (w_access w) (w_kernel w) Branched (w_access w') (w_kernel w') ∧ world_ok (w_access w') (w_kernel w').
Proof.
  pose proof (process_next_refines quiet_others frozen (world_of demo) (facts_world_ok _ _ demo_wf)) as H.
  assert ((process_next quiet_others frozen (world_of demo)).1 = Ok Branched) as E by (vm_compute; reflexivity).
  cbv zeta. revert E H. destruct (process_next quiet_others frozen (world_of demo)) as [[t|e|] w']; intros [= ->] H. exact H.
Defined.

Lemma resolve_clash_refines_witness :
  let w := world_of clashing in let w' := (resolve_clash quiet_others frozen true w).2 in
  clash_step true (w_access w) (w_kernel w) Advanced (w_access w') (w_kernel w') ∧ world_ok (w_access w') (w_kernel w').
Proof.
  pose proof (resolve_clash_refines quiet_others frozen true (world_of clashing) (facts_world_ok _ _ clashing_wf)) as H.
  assert ((resolve_clash quiet_others frozen true (world_of clashing)).1 = Ok Advanced) as E by (vm_compute; reflexivity).
  cbv zeta. revert E H. destruct (resolve_clash quiet_others frozen true (world_of clashing)) as [[t|e|] w']; intros [= ->] H. exact H.
Defined.

Lemma resolve_until_terminates_witness :
  ∃ r w', resolve_until_choice_or_unsat quiet_others frozen true (world_of clashing) = (r, w') ∧
    match r with Ok t => t ≠ Exhausted | Err _ => True | Crash => False end.
Proof. apply (resolve_until_terminates quiet_others frozen true (world_of clashing)). apply facts_world_ok, clashing_wf. Defined.

(** The second alternative clashes too. *)
Definition last_alternative : TableauKernel := (advance_branch 0 Dep.empty demo).2.

Definition exhausting : TableauKernel := (install_clash "bottom" (at_level 0) [] None last_alternative).2.

Lemma last_alternative_wf : wf last_alternative.
Proof.
  assert ((advance_branch 0 Dep.empty demo).1 = Ok (Some 1)) as E by (vm_compute; reflexivity).
  unfold last_alternative. destruct (advance_branch 0 Dep.empty demo) as [r k'] eqn:Em. cbn in E |- *. subst r.
  eapply (preserves_advance_branch 0 Dep.empty); [apply demo_wf|exact Em].
Qed.

Lemma exhausting_wf : wf exhausting.
Proof.
  assert ((install_clash "bottom" (at_level 0) [] None last_alternative).1 = Ok true) as E by (vm_compute; reflexivity).
  unfold exhausting. destruct (install_clash "bottom" (at_level 0) [] None last_alternative) as [r k'] eqn:Em. cbn in E |- *. subst r.
  eapply (keeps_preserves _ (keeps_install_clash "bottom" (at_level 0) [] None ltac:(repeat constructor)));
    [apply last_alternative_wf|exact Em].
Qed.

Lemma exhausted_clash_moves_down_witness :
  let w := world_of exhausting in let w' := (resolve_clash quiet_others frozen true w).2 in
  ∃ c target b, current_clash (state (w_kernel w)) = Some c ∧
    clash_target true (w_kernel w) c = Some target ∧
    branches (w_kernel w) !! N.to_nat target = Some b ∧
    branches (w_kernel w') = take (N.to_nat target) (branches (w_kernel w)) ∧
    (length (alternatives b) ≤ S (next_alternative b))%nat ∧
    current_clash (state (w_kernel w')) = Some (mkClash "empty_head" (propagated target b c) [source_id b] None) ∧
    ∀ l, l ∈ levels (propagated target b c) → l < target.
Proof.
  apply (exhausted_clash_moves_down quiet_others frozen true (world_of exhausting));
    [apply facts_world_ok, exhausting_wf|vm_compute; reflexivity].
Defined.

(** A caller interrupted the run. *)
Definition interrupted_world : World FactAccess :=
  mkWorld clashing (mkFactAccess t0) (mkCancel true (Some "stop"%string) 0 0 0 0) 0.

Lemma failed_step_resets_witness :
  let w' := (resolve_clash quiet_others frozen true interrupted_world).2 in
  ∃ e0 w0, resolve_clash_inner quiet_others frozen true interrupted_world = (Err e0, w0) ∧
    w_kernel w' = restore (operation_root (w_kernel w0)) (w_kernel w0) <| branches := [] |> ∧
    (Cancel.interrupted_error (Some "stop"%string) = e0 ∧ check_invariants (w_kernel w') = Ok tt ∨
     ∃ e1, Cancel.interrupted_error (Some "stop"%string) = recovery_error e0 e1 ∧ check_invariants (w_kernel w') = Err e1).
Proof. apply (failed_step_resets quiet_others frozen true interrupted_world). vm_compute. reflexivity. Defined.

(** ** Merging with pruning *)

Section merging.
Context (others : nat → CancellationState → CancellationState) (clock : nat → N) (supplied : bool).


(** A merge that fails half-way, by an error or by cancellation, leaves
    the kernel's state, branches, root and trail as they were. *)
Theorem manager_merge_rolls_back m left right d w e w' :
  wf (w_kernel w) → Merging.merge others clock supplied m left right d w = (Err e, w') →
  state (w_kernel w') = state (w_kernel w) ∧ branches (w_kernel w') = branches (w_kernel w) ∧
  operation_root (w_kernel w') = operation_root (w_kernel w) ∧
  trail_length (w_kernel w') = trail_length (w_kernel w).
Proof. intros Hk. eapply merge_rollback_state, (state_arena _ _ (wf_state _ Hk)). Qed.
End merging.

(** A manager for object inequality [40], and the tableau without atoms. *)
Definition manager : MergingManager := mkMergingManager {[TObject := 40]}.
Definition merging_world (c : CancellationState) : World unit := mkWorld demo tt c 0.

(** The caller interrupts after the first poll. *)
Definition interrupting (n : nat) (c : CancellationState) : CancellationState :=
  match n with O => c | S _ => c <| interrupted := true |> end.


Lemma manager_merge_rolls_back_witness :
  let w := merging_world idle in let w' := (Merging.merge interrupting frozen true manager s0 t0 (at_level 0) w).2 in
  state (w_kernel w') = state (w_kernel w) ∧ branches (w_kernel w') = branches (w_kernel w) ∧
  operation_root (w_kernel w') = operation_root (w_kernel w) ∧
  trail_length (w_kernel w') = trail_length (w_kernel w).
Proof.
  apply (manager_merge_rolls_back interrupting frozen true manager s0 t0 (at_level 0) (merging_world idle)
    (Cancel.interrupted_error None)); [apply demo_wf|vm_compute; reflexivity].
Defined.

(** Two roots, and two tree children of the second. *)
Definition sibling_ops : list operation :=
  [ OpCreateNode Root None false None None None;
    OpCreateNode Root None false None None None;
    OpCreateNode Tree (Some (mkHandle 1 1)) false None None None;
    OpCreateNode Tree (Some (mkHandle 1 1)) false None None None ].

(** The merging manager itself produces the dead link of [links_live]:
    merge two siblings, then merge their parent into another root, which prunes
    the surviving sibling.  Both merges succeed, a branch can be opened, and
    backtracking to it fails. *)
Theorem manager_merge_leaves_dead_link :
  ∃ k hs w1 r1 w2 r2 k3 e k4,
    perform_all sibling_ops TableauKernel_new = (Ok hs, k) ∧
    Merging.merge quiet_others frozen true manager c1 c2 Dep.empty (mkWorld k tt idle 0) = (Ok r1, w1) ∧
    Merging.merge quiet_others frozen true manager s0 t0 Dep.empty w1 = (Ok r2, w2) ∧
    mr_pruned r2 = [c1] ∧ push_branch "merge" [0; 1] 7 Dep.empty (w_kernel w2) = (Ok 0, k3) ∧
    backtrack_to 0 k3 = (Err e, k4).
Proof.
  set (k := (perform_all sibling_ops TableauKernel_new).2).
  set (w1 := (Merging.merge quiet_others frozen true manager c1 c2 Dep.empty (mkWorld k tt idle 0)).2).
  set (w2 := (Merging.merge quiet_others frozen true manager s0 t0 Dep.empty w1).2).
  set (k3 := (push_branch "merge" [0; 1] 7 Dep.empty (w_kernel w2)).2).
  exists k, [s0; t0; c1; c2], w1, (mkMergeResult c1 (Some c2) [] false), w2, (mkMergeResult s0 (Some t0) [c1] false), k3,
    (NativeErr.invariant "merged node representative is invalid"), (backtrack_to 0 k3).2.
  do 5 (split; [vm_compute; reflexivity|]). vm_compute. reflexivity.
Qed.
