(* ===== verification/RulePlans.v ===== *)
(** * Join plans (native/src/rules/plans.rs)

    For every clause and every body atom that can trigger it, a plan lists the
    other atoms in the order in which a join visits them, with the argument
    positions that are bound by then. *)

From S2P Require Import Prelude Order Errors Model RuleModel.
Import NativeErr.

(** [std::cmp::Reverse]. *)
Record Reverse (A : Type) := mkReverse { reversed : A }.
Arguments mkReverse {A}.
Arguments reversed {A}.

#[global] Instance Reverse_ord `{Ord A} : Ord (Reverse A) := λ x y, compare (reversed y) (reversed x).
#[global] Instance Reverse_ord_laws `{OrdLaws A} : OrdLaws (Reverse A).
Proof.
  split.
  - intros [x] [y]. unfold compare, Reverse_ord. cbn. rewrite compare_eq. naive_solver.
  - intros [x] [y]. unfold compare, Reverse_ord. cbn. apply compare_antisym.
  - intros [x] [y] [z]. unfold compare, Reverse_ord. cbn. intros Hxy Hyz. by eapply compare_lt_trans.
Qed.

Definition PlanRank : Type := N * Reverse nat * nat * nat * RuleAtom.

Record JoinStep := mkJoinStep { js_body_index : N; js_bound_positions : list N }.

#[global] Instance JoinStep_eq_dec : EqDecision JoinStep.
Proof. solve_decision. Defined.

Record ClauseJoinPlan := mkPlan { pl_clause_id : N; pl_delta_body_index : N; pl_steps : list JoinStep }.

#[global] Instance ClauseJoinPlan_eq_dec : EqDecision ClauseJoinPlan.
Proof. solve_decision. Defined.

Record JoinProgram := mkJoinProgram {
  jp_plans : list ClauseJoinPlan;
  unconditional_clause_ids : list N;
  plans_by_predicate : gmap N (list nat)
}.

Module Plans.

Definition new_step (body_index : N) (bound_positions : list N) : NativeResult JoinStep :=
  _ ← reject_if (negb (strictly_ascending bound_positions))
    (wire "join-step bound positions must be sorted and unique");
  Ok (mkJoinStep body_index bound_positions).

(** [steps.iter().any(|step| !indices.insert(step.body_index))]. *)
Fixpoint repeats (indices : gset N) (steps : list JoinStep) : bool :=
  match steps with
  | [] => false
  | step :: steps =>
      bool_decide (js_body_index step ∈ indices) || repeats ({[js_body_index step]} ∪ indices) steps
  end.

Definition new_plan (cid delta : N) (steps : list JoinStep) : NativeResult ClauseJoinPlan :=
  _ ← reject_if (repeats {[delta]} steps) (wire "join-plan body indices must be unique");
  Ok (mkPlan cid delta steps).

(** The variables of an atom, as a set. *)
Definition atom_variables (a : RuleAtom) : gset (TermSort * N) := list_to_set (term_variables (ra_arguments a)).

(** The rank of one remaining atom. *)
Definition plan_rank (prog : RuleProgram) (c : RuleClause) (join_rank : gmap N nat)
    (bound : gset (TermSort * N)) (body_index : N) : NativeResult PlanRank :=
  a ← index_or_crash (rc_body c) (N.to_nat body_index);
  p ← Rule.predicate (ra_predicate_id a) prog;
  let variables := atom_variables a in
  let bound_count := size (variables ∩ bound) in
  let unbound_count := size (variables ∖ bound) in
  rank ← ok_or (join_rank !! body_index) (invariant "validated join order lost one body index");
  Ok (if is_virtual_filter (rp_kind p) && negb (unbound_count =? 0)%nat then 1 else 0,
      mkReverse bound_count, unbound_count, rank, a).

(** The [for] loop that selects the next atom: a later one only when its rank is
    strictly smaller. *)
Fixpoint select_atom (prog : RuleProgram) (c : RuleClause) (join_rank : gmap N nat)
    (bound : gset (TermSort * N)) (remaining : list N) (selected : option (N * PlanRank)) :
    NativeResult (option (N * PlanRank)) :=
  match remaining with
  | [] => Ok selected
  | body_index :: remaining =>
      rank ← plan_rank prog c join_rank bound body_index;
      select_atom prog c join_rank bound remaining
        (if match selected with None => true | Some (_, best) => bool_decide (ord_lt rank best) end
         then Some (body_index, rank) else selected)
  end.

(** The positions of [args] that are constants or bound variables. *)
Definition bound_positions (bound : gset (TermSort * N)) (args : list Term) : NativeResult (list N) :=
  foldM (λ positions entry,
      if match variable_key (entry.2 : Term) with None => true | Some v => bool_decide (v ∈ bound) end
      then position ← ok_or (u32_try_from entry.1) (wire "atom position exceeds the u32 IR limit");
           Ok (positions ++ [position])
      else Ok positions)
    (imap pair args) [].

(** The [while] loop of [compile_clause_plan]; every turn removes one index, so
    as many turns as there are indices are enough. *)
Fixpoint plan_loop (fuel : nat) (prog : RuleProgram) (c : RuleClause) (join_rank : gmap N nat)
    (bound : gset (TermSort * N)) (remaining : gset N) (steps : list JoinStep) : NativeResult (list JoinStep) :=
  if bool_decide (remaining = ∅) then Ok steps
  else
    match fuel with
    | O => Crash
    | S fuel =>
        selected ← select_atom prog c join_rank bound (btree_elements remaining) None;
        best ← ok_or selected (invariant "join planner could not select an atom");
        a ← index_or_crash (rc_body c) (N.to_nat best.1);
        positions ← bound_positions bound (ra_arguments a);
        step ← new_step best.1 positions;
        plan_loop fuel prog c join_rank (bound ∪ atom_variables a) (remaining ∖ {[best.1]}) (steps ++ [step])
    end.

(** [join_rank]: the position of each body index in the join order. *)
Definition join_ranks (order : list N) : gmap N nat :=
  foldl (λ m entry, <[entry.2 := entry.1]> m) ∅ (imap pair order).

Definition compile_clause_plan (prog : RuleProgram) (c : RuleClause) (trigger : N) : NativeResult ClauseJoinPlan :=
  a ← ok_or (rc_body c !! N.to_nat trigger) (wire "delta body index is out of bounds");
  let bound := atom_variables a in
  body_len ← ok_or (u32_try_from (length (rc_body c))) (wire "clause body exceeds u32 positions");
  let remaining : gset N := list_to_set (List.filter (λ i, negb (i =? trigger)%N) (range (length (rc_body c)))) in
  steps ← plan_loop (length (rc_body c)) prog c (join_ranks (rc_join_order c)) bound remaining [];
  new_plan (rc_clause_id c) trigger steps.

(** The loop over the steps in [validate_plan]. *)
Fixpoint validate_steps (c : RuleClause) (indices : gset N) (steps : list JoinStep) : NativeResult unit :=
  match steps with
  | [] => Ok tt
  | step :: steps =>
      _ ← reject_if (bool_decide (js_body_index step ∈ indices)) (wire "join-plan body indices must be unique");
      a ← ok_or (rc_body c !! N.to_nat (js_body_index step)) (wire "join body index is out of bounds");
      _ ← reject_if (existsb (λ position, (length (ra_arguments a) <=? N.to_nat position)%nat) (js_bound_positions step))
        (wire "join-step bound position is out of bounds");
      validate_steps c ({[js_body_index step]} ∪ indices) steps
  end.

Definition validate_plan (prog : RuleProgram) (plan : ClauseJoinPlan) : NativeResult unit :=
  c ← Rule.clause (pl_clause_id plan) prog;
  delta ← ok_or (rc_body c !! N.to_nat (pl_delta_body_index plan)) (wire "delta body index is out of bounds");
  kind ← Rule.predicate_kind (ra_predicate_id delta) prog;
  _ ← reject_if (negb (can_trigger kind)) (wire "ordering guards cannot designate a delta atom");
  _ ← reject_if (negb (bool_decide (S (length (pl_steps plan)) = length (rc_body c))))
    (wire "join plan must cover every body atom exactly once");
  validate_steps c {[pl_delta_body_index plan]} (pl_steps plan).

(** The body of the loop of [JoinProgram::new] over the plans. *)
Definition index_plan (prog : RuleProgram) (m : gmap N (list nat)) (entry : nat * ClauseJoinPlan) :
    NativeResult (gmap N (list nat)) :=
  let '(plan_index, plan) := entry in
  _ ← validate_plan prog plan;
  c ← Rule.clause (pl_clause_id plan) prog;
  a ← index_or_crash (rc_body c) (N.to_nat (pl_delta_body_index plan));
  Ok (<[ra_predicate_id a := default [] (m !! ra_predicate_id a) ++ [plan_index]]> m).

Definition plan_key (plan : ClauseJoinPlan) : N * N := (pl_clause_id plan, pl_delta_body_index plan).

Definition triggerable (prog : RuleProgram) (a : RuleAtom) : bool :=
  match Rule.predicate_kind (ra_predicate_id a) prog with Ok kind => can_trigger kind | _ => false end.

Definition new_join_program (prog : RuleProgram) (plans : list ClauseJoinPlan) (unconditional : list N) :
    NativeResult JoinProgram :=
  _ ← reject_if (negb (strictly_ascending (plan_key <$> plans))) (wire "join plans must be uniquely sorted");
  _ ← reject_if (negb (strictly_ascending unconditional)) (wire "unconditional clause IDs must be sorted and unique");
  by_predicate ← foldM (index_plan prog) (imap pair plans) ∅;
  _ ← iterM (λ cid,
        c ← Rule.clause cid prog;
        reject_if (existsb (triggerable prog) (rc_body c)) (wire "triggerable clause cannot be marked unconditional"))
      unconditional;
  Ok (mkJoinProgram plans unconditional by_predicate).

Definition for_predicate (jp : JoinProgram) (pid : N) : NativeResult (list ClauseJoinPlan) :=
  match plans_by_predicate jp !! pid with
  | None => Ok []
  | Some indices => collectM (index_or_crash (jp_plans jp)) indices
  end.

(** The body positions of the atoms that can trigger a clause. *)
Definition clause_triggers (prog : RuleProgram) (c : RuleClause) : NativeResult (list N) :=
  foldM (λ triggers entry,
      kind ← Rule.predicate_kind (ra_predicate_id (entry.2 : RuleAtom)) prog;
      if can_trigger kind then
        index ← ok_or (u32_try_from entry.1) (wire "clause body index exceeds the u32 IR limit");
        Ok (triggers ++ [index])
      else Ok triggers)
    (imap pair (rc_body c)) [].

(** The body of the loop of [compile_join_program] over the clauses. *)
Definition compile_clause (prog : RuleProgram) (acc : list ClauseJoinPlan * list N) (c : RuleClause) :
    NativeResult (list ClauseJoinPlan * list N) :=
  triggers ← clause_triggers prog c;
  if bool_decide (triggers = []) then Ok (acc.1, acc.2 ++ [rc_clause_id c])
  else
    plans ← collectM (compile_clause_plan prog c) triggers;
    Ok (acc.1 ++ plans, acc.2).

Definition plan_le (p q : ClauseJoinPlan) : Prop := ord_le (plan_key p) (plan_key q).

#[global] Instance plan_le_dec : RelDecision plan_le.
Proof. intros p q. unfold plan_le. apply _. Defined.

Definition compile_join_program (prog : RuleProgram) : NativeResult JoinProgram :=
  acc ← foldM (compile_clause prog) (clauses prog) ([], []);
  new_join_program prog (merge_sort plan_le acc.1) acc.2.

End Plans.
