(* ===== verification/Joins.v ===== *)
(** * Joins (native/src/rules/joins.rs)

    [IndexedJoinEvaluator] runs one plan from one row of the current generation
    over the store's indexes; [NaiveJoinEvaluator] tries every assignment.  What
    an evaluator borrows is the record [JoinEnv], what it counts is [JoinState];
    the cancellation state is shared with other threads. *)

From stdpp Require Import pretty.
From S2P Require Import Prelude Order Errors Model Queue Store Kernel Cancel RuleModel RulePlans.
Import NativeErr.

Abbreviation Bindings := (gmap (TermSort * N) NodeHandle).
Abbreviation MatchKey := (list VariableBinding * list N)%type.
Abbreviation Matches := (gmap MatchKey JoinMatch).

Record FactCandidate := mkFactCandidate {
  fc_row_id : N;
  fc_handles : list NodeHandle;
  fc_lookup_dependency : DependencySet
}.

Record JoinEnv := mkJoinEnv {
  je_program : RuleProgram;
  je_kernel : TableauKernel;
  je_source_nodes : gmap N NodeHandle;
  je_data_nodes : gmap N NodeHandle;
  je_limits : RuleLimits
}.

Record JoinState := mkJoinState {
  steps : N;
  poll_work : N;
  matches_emitted : N;
  j_cancel : CancellationState;
  j_polls : nat
}.

#[global] Instance JoinState_eta : Eta JoinState := λ j,
  mkJoinState (steps j) (poll_work j) (matches_emitted j) (j_cancel j) (j_polls j).

Definition resource_limit (message limit : string) (observed allowed : N) : NativeError :=
  with_context (with_context (with_context (NativeErr.new Resource "RESOURCE_LIMIT" message)
    "limit" limit) "observed" (pretty observed)) "allowed" (pretty allowed).

Module Join.

(** ** Reading the kernel *)

Section reading.
Context (env : JoinEnv).

Definition resolved_constant (t : Term) : NativeResult (NodeHandle * DependencySet) :=
  entry ← (match t with
    | Individual i => Ok (je_source_nodes env !! i, "individual ID " +:+ pretty i)
    | DataConstant _ identity => Ok (je_data_nodes env !! identity, "data identity ID " +:+ pretty identity)
    | Variable_ _ _ => Err (invariant "unbound variables cannot resolve as constants")
    end);
  handle ← ok_or entry.1 (invariant ("compiled " +:+ entry.2 +:+ " has no tableau node"));
  r ← Kernel.canonical_handle handle (je_kernel env);
  sort ← Kernel.node_sort r.1 (je_kernel env);
  _ ← reject_if (negb (bool_decide (sort = node_sort_of (term_sort t))))
    (invariant ("compiled " +:+ entry.2 +:+ " maps to the wrong node sort"));
  Ok r.

Definition resolved_term (t : Term) (bindings : Bindings) : NativeResult (option (NodeHandle * DependencySet)) :=
  match variable_key t with
  | Some key =>
      match bindings !! key with
      | None => Ok None
      | Some handle => r ← Kernel.canonical_handle handle (je_kernel env); Ok (Some r)
      end
  | None => r ← resolved_constant t; Ok (Some r)
  end.

(** The loop of [unify_handles]; [None] is its early return. *)
Fixpoint unify_loop (pairs : list (Term * NodeHandle)) (result : Bindings) (dependencies : list DependencySet) :
    NativeResult (option (Bindings * list DependencySet)) :=
  match pairs with
  | [] => Ok (Some (result, dependencies))
  | (t, raw) :: pairs =>
      r ← Kernel.canonical_handle raw (je_kernel env);
      sort ← Kernel.node_sort r.1 (je_kernel env);
      if negb (bool_decide (sort = node_sort_of (term_sort t))) then Ok None
      else
        let dependencies := dependencies ++ [r.2] in
        match variable_key t with
        | Some key =>
            if match result !! key with Some known => negb (bool_decide (known = r.1)) | None => false end
            then Ok None
            else unify_loop pairs (<[key := r.1]> result) dependencies
        | None =>
            expected ← resolved_constant t;
            if negb (bool_decide (expected.1 = r.1)) then Ok None
            else unify_loop pairs result (dependencies ++ [expected.2])
        end
  end.

Definition unify_handles (a : RuleAtom) (handles : list NodeHandle) (bindings : Bindings) :
    NativeResult (option (Bindings * DependencySet)) :=
  if negb (bool_decide (length (ra_arguments a) = length handles)) then Ok None
  else
    o ← unify_loop (zip (ra_arguments a) handles) bindings [];
    Ok (match o with None => None | Some (result, dependencies) => Some (result, Dep.union dependencies) end).

Definition bind_unresolved (t : Term) (handle : NodeHandle) (bindings : Bindings) : NativeResult (option Bindings) :=
  match variable_key t with
  | None => Ok None
  | Some key =>
      sort ← Kernel.node_sort handle (je_kernel env);
      if negb (bool_decide (sort = node_sort_of key.1)) then Ok None
      else Ok (Some (<[key := handle]> bindings))
  end.

(** The loop of [lookup_bindings]. *)
Fixpoint lookup_loop (args : list (nat * Term)) (bindings : Bindings) (result : gmap N NodeHandle)
    (dependencies : list DependencySet) : NativeResult (gmap N NodeHandle * DependencySet) :=
  match args with
  | [] => Ok (result, Dep.union dependencies)
  | (position, t) :: args =>
      o ← resolved_term t bindings;
      match o with
      | None => lookup_loop args bindings result dependencies
      | Some (handle, dependency) =>
          p ← ok_or (u32_try_from position) (wire "atom position exceeds the u32 IR limit");
          lookup_loop args bindings (<[p := handle]> result) (dependencies ++ [dependency])
      end
  end.

Definition lookup_bindings (a : RuleAtom) (bindings : Bindings) : NativeResult (gmap N NodeHandle * DependencySet) :=
  lookup_loop (imap pair (ra_arguments a)) bindings ∅ [].

Definition ordering_guard (a : RuleAtom) (bindings : Bindings) : NativeResult (option (Bindings * DependencySet)) :=
  let unscheduled := invariant "ordering guard was scheduled before its variables bound" in
  first ← index_or_crash (ra_arguments a) 0;
  o ← resolved_term first bindings;
  left ← ok_or o unscheduled;
  second ← index_or_crash (ra_arguments a) 1;
  o ← resolved_term second bindings;
  right ← ok_or o unscheduled;
  left_rank ← Kernel.node_rank left.1 (je_kernel env);
  right_rank ← Kernel.node_rank right.1 (je_kernel env);
  if bool_decide (ord_le right_rank left_rank) then Ok None
  else Ok (Some (bindings, Dep.union [left.2; right.2])).

Definition in_plan_view (derivation : N) (plan : ClauseJoinPlan) (body_index : N) : bool :=
  let generation := read_generation (state (je_kernel env)) in
  if (body_index <? pl_delta_body_index plan)%N then (derivation <? generation)%N else (derivation <=? generation)%N.

Definition freeze_bindings (bindings : Bindings) : list VariableBinding :=
  (λ e : TermSort * N * NodeHandle, mkBinding e.1.1 e.1.2 e.2) <$> btree_entries bindings.

(** [validate_plan] of the evaluator. *)
Fixpoint validate_indices (c : RuleClause) (indices : gset N) (steps : list JoinStep) : NativeResult unit :=
  match steps with
  | [] => Ok tt
  | step :: steps =>
      _ ← reject_if (bool_decide (js_body_index step ∈ indices)
                     || (length (rc_body c) <=? N.to_nat (js_body_index step))%nat)
        (wire "join plan contains a duplicate or dangling body index");
      validate_indices c ({[js_body_index step]} ∪ indices) steps
  end.

Definition validate_plan (plan : ClauseJoinPlan) : NativeResult unit :=
  c ← Rule.clause (pl_clause_id plan) (je_program env);
  trigger ← ok_or (rc_body c !! N.to_nat (pl_delta_body_index plan)) (wire "delta body index is out of bounds");
  kind ← Rule.predicate_kind (ra_predicate_id trigger) (je_program env);
  _ ← reject_if (negb (can_trigger kind)) (wire "ordering guards cannot designate a delta atom");
  _ ← reject_if (negb (bool_decide (S (length (pl_steps plan)) = length (rc_body c))))
    (wire "join plan must cover every body atom exactly once");
  validate_indices c {[pl_delta_body_index plan]} (pl_steps plan).

(** The queries of [inequality_candidates], from the resolved arguments. *)
Definition inequality_queries (resolved : list (option (NodeHandle * DependencySet))) :
    NativeResult (list (gmap N NodeHandle)) :=
  let known := omap (λ e : nat * option (NodeHandle * DependencySet), match e.2 with Some _ => Some e.1 | None => None end)
    (imap pair resolved) in
  match known with
  | [0%nat; 1%nat] =>
      l ← index_or_crash resolved 0;
      left ← ok_or l (invariant "resolved inequality lost its left term");
      r ← index_or_crash resolved 1;
      right ← ok_or r (invariant "resolved inequality lost its right term");
      left_rank ← Kernel.node_rank left.1 (je_kernel env);
      right_rank ← Kernel.node_rank right.1 (je_kernel env);
      let '(first, second) :=
        if bool_decide (ord_le left_rank right_rank) then (left.1, right.1) else (right.1, left.1) in
      Ok [<[0 := first]> (<[1 := second]> ∅)]
  | [one] =>
      o ← index_or_crash resolved one;
      handle ← ok_or o (invariant "resolved inequality term disappeared");
      Ok [{[0 := handle.1]}; {[1 := handle.1]}]
  | [] => Ok [∅]
  | _ => Err (invariant "inequality predicate does not have binary arity")
  end.

(** The stored order of a row's arguments and its reverse, as a set. *)
Definition orientations (args : list NodeHandle) : list (list NodeHandle) :=
  btree_elements (list_to_set [args; reverse args] : gset (list NodeHandle)).

End reading.

(** ** Counting work *)

Section evaluator.
Context (others : nat → CancellationState → CancellationState) (clock : nat → N).
Context (env : JoinEnv).

Abbreviation J X := (st JoinState NativeError X).

Definition poll : J unit := λ j,
  let '(r, c') := Cancel.poll (clock (j_polls j)) (others (j_polls j) (j_cancel j)) in
  (r, j <| j_cancel := c' |> <| j_polls ::= S |>).

Definition poll_inner : J unit :=
  j ← gets id;
  work ← lift (ok_or (checked_add u64_max (poll_work j) 1) (invariant "join poll counter overflow"));
  _ ← modify (λ j : JoinState, j <| poll_work := work |>);
  if (work mod cancellation_interval (je_limits env) =? 0)%N then poll else mret tt.

Definition tick_join : J unit :=
  j ← gets id;
  n ← lift (ok_or (checked_add u64_max (steps j) 1) (invariant "join-step counter overflow"));
  _ ← modify (λ j : JoinState, j <| steps := n |>);
  _ ← lift (reject_if (max_join_steps (je_limits env) <? n)%N
    (resource_limit "hyperresolution join-step limit exceeded" "max_join_steps" n (max_join_steps (je_limits env))));
  poll_inner.

Definition match_key (m : JoinMatch) : MatchKey := (jm_bindings m, reverse (as_slice (jm_dependency m))).

Definition insert_match (found : Matches) (candidate : JoinMatch) : J Matches :=
  let key := match_key candidate in
  match found !! key with
  | Some previous =>
      mret (if bool_decide (ord_lt (jm_premise_row_ids candidate) (jm_premise_row_ids previous))
            then <[key := candidate]> found else found)
  | None =>
      j ← gets id;
      observed ← lift (ok_or (checked_add u64_max (matches_emitted j) 1) (invariant "join-match counter overflow"));
      _ ← lift (reject_if (max_matches_per_generation (je_limits env) <? observed)%N
        (resource_limit "hyperresolution match limit exceeded" "max_matches_per_generation" observed
          (max_matches_per_generation (je_limits env))));
      _ ← modify (λ j : JoinState, j <| matches_emitted := observed |>);
      mret (<[key := candidate]> found)
  end.

(** ** Candidates *)

Definition relation_candidates (a : RuleAtom) (bindings : Bindings) (plan : ClauseJoinPlan) (body_index : N) :
    J (list FactCandidate) :=
  lookup ← lift (lookup_bindings env a bindings);
  row_ids ← lift (Kernel.candidate_fact_ids (ra_predicate_id a) lookup.1 (je_kernel env));
  foldST (λ result row_id,
      _ ← poll_inner;
      row ← lift (Kernel.fact row_id (je_kernel env));
      mret (if in_plan_view env (derivation_generation row) plan body_index
            then result ++ [mkFactCandidate row_id (arguments (row_key row)) lookup.2] else result))
    row_ids [].

(** The first loop of [inequality_candidates]: the rows in the plan's view. *)
Definition inequality_rows (pid : N) (plan : ClauseJoinPlan) (body_index : N) (queries : list (gmap N NodeHandle)) :
    J (gset N) :=
  foldST (λ rows query,
      row_ids ← lift (Kernel.candidate_fact_ids pid query (je_kernel env));
      foldST (λ (rows : gset N) row_id,
          _ ← poll_inner;
          row ← lift (Kernel.fact row_id (je_kernel env));
          mret (if in_plan_view env (derivation_generation row) plan body_index then {[row_id]} ∪ rows else rows))
        row_ids rows)
    queries ∅.

Definition inequality_candidates (a : RuleAtom) (bindings : Bindings) (plan : ClauseJoinPlan) (body_index : N) :
    J (list FactCandidate) :=
  resolved ← lift (collectM (λ t, resolved_term env t bindings) (ra_arguments a));
  let dependency := Dep.union (omap (fmap snd) resolved) in
  queries ← lift (inequality_queries env resolved);
  row_ids ← inequality_rows (ra_predicate_id a) plan body_index queries;
  foldST (λ result row_id,
      row ← lift (Kernel.fact row_id (je_kernel env));
      foldST (λ result handles,
          _ ← poll_inner;
          unified ← lift (unify_handles env a handles bindings);
          mret (if bool_decide (is_Some unified) then result ++ [mkFactCandidate row_id handles dependency] else result))
        (orientations (arguments (row_key row))) result)
    (btree_elements row_ids) [].

Definition equality_candidates (a : RuleAtom) (bindings : Bindings) : J (list (Bindings * DependencySet)) :=
  let absent := invariant "unresolved equality constants are absent from node maps" in
  first ← lift (index_or_crash (ra_arguments a) 0);
  left ← lift (resolved_term env first bindings);
  second ← lift (index_or_crash (ra_arguments a) 1);
  right ← lift (resolved_term env second bindings);
  match left, right with
  | Some l, Some r =>
      mret (if negb (bool_decide (l.1 = r.1)) then [] else [(bindings, Dep.union [l.2; r.2])])
  | Some l, None =>
      next ← lift (bind_unresolved env second l.1 bindings);
      mret (match next with Some b => [(b, l.2)] | None => [] end)
  | None, Some r =>
      next ← lift (bind_unresolved env first r.1 bindings);
      mret (match next with Some b => [(b, r.2)] | None => [] end)
  | None, None =>
      first_key ← lift (ok_or (variable_key first) absent);
      second_key ← lift (ok_or (variable_key second) absent);
      foldST (λ result handle,
          _ ← poll_inner;
          sort ← lift (Kernel.node_sort handle (je_kernel env));
          mret (if negb (bool_decide (sort = node_sort_of first_key.1)) then result
                else result ++ [(<[(first_key.1, second_key.2) := handle]> (<[first_key := handle]> bindings), Dep.empty)]))
        (Kernel.active_node_handles (je_kernel env)) []
  end.

(** ** The indexed evaluator *)

(** The body of [join_steps] for a stored atom: one candidate row, each of its
    supports. *)
Definition join_row (continue : Bindings → DependencySet → list N → Matches → J Matches) (a : RuleAtom)
    (bindings : Bindings) (dependency : DependencySet) (row_ids : list N) (found : Matches) (c : FactCandidate) :
    J Matches :=
  _ ← poll_inner;
  unified ← lift (unify_handles env a (fc_handles c) bindings);
  match unified with
  | None => mret found
  | Some (next, unification) =>
      row ← lift (Kernel.fact (fc_row_id c) (je_kernel env));
      _ ← lift (reject_if (bool_decide (supports row = [])) (invariant "active fact row has no dependency support"));
      foldST (λ found support,
          _ ← poll_inner;
          continue next (Dep.union [dependency; fc_lookup_dependency c; unification; support])
            (row_ids ++ [fc_row_id c]) found)
        (supports row) found
  end.

(** [step_index] is the number of steps already taken: [remaining] are the others. *)
Fixpoint join_steps (plan : ClauseJoinPlan) (c : RuleClause) (remaining : list JoinStep) (bindings : Bindings)
    (dependency : DependencySet) (row_ids : list N) (found : Matches) : J Matches :=
  _ ← tick_join;
  match remaining with
  | [] =>
      candidate ← lift (new_match (pl_clause_id plan) (pl_delta_body_index plan) (freeze_bindings bindings)
        dependency row_ids);
      insert_match found candidate
  | step :: remaining =>
      let body_index := js_body_index step in
      a ← lift (ok_or (rc_body c !! N.to_nat body_index) (wire "join body index is out of bounds"));
      kind ← lift (Rule.predicate_kind (ra_predicate_id a) (je_program env));
      if bool_decide (kind = OrderingGuard) then
        guard ← lift (ordering_guard env a bindings);
        match guard with
        | None => mret found
        | Some (next, guard_dependency) =>
            join_steps plan c remaining next (Dep.union [dependency; guard_dependency]) row_ids found
        end
      else if bool_decide (kind = Equality) then
        candidates ← equality_candidates a bindings;
        foldST (λ found (e : Bindings * DependencySet),
            _ ← poll_inner;
            join_steps plan c remaining e.1 (Dep.union [dependency; e.2]) row_ids found)
          candidates found
      else
        candidates ← (if bool_decide (kind = Inequality) then inequality_candidates a bindings plan body_index
                      else relation_candidates a bindings plan body_index);
        foldST (join_row (join_steps plan c remaining) a bindings dependency row_ids) candidates found
  end.

(** [IndexedJoinEvaluator::matches]. *)
Definition matches (plan : ClauseJoinPlan) (delta_row_id : N) : J (list JoinMatch) :=
  _ ← poll;
  _ ← lift (validate_plan env plan);
  c ← lift (Rule.clause (pl_clause_id plan) (je_program env));
  trigger ← lift (ok_or (rc_body c !! N.to_nat (pl_delta_body_index plan)) (wire "delta body index is out of bounds"));
  row ← lift (Kernel.fact delta_row_id (je_kernel env));
  if negb (active row) || negb (derivation_generation row =? read_generation (state (je_kernel env)))%N
     || negb (predicate_id (row_key row) =? ra_predicate_id trigger)%N
  then mret []
  else
    unified ← lift (unify_handles env trigger (arguments (row_key row)) ∅);
    match unified with
    | None => mret []
    | Some (bindings, seed) =>
        _ ← lift (reject_if (bool_decide (supports row = [])) (invariant "active delta fact row has no dependency support"));
        found ← foldST (λ found support,
            _ ← poll_inner;
            join_steps plan c (pl_steps plan) bindings (Dep.union [seed; support]) [delta_row_id] found)
          (supports row) ∅;
        _ ← poll;
        mret (btree_values found)
    end.

(** ** The naive evaluator *)

(** [row_satisfies]. *)
Definition row_satisfies (a : RuleAtom) (handles : list NodeHandle) (kind : PredicateKind) (bindings : Bindings) :
    NativeResult bool :=
  o ← unify_handles env a handles bindings;
  if bool_decide (is_Some o) then Ok true
  else if negb (bool_decide (kind = Inequality)) then Ok false
  else
    o ← unify_handles env a (reverse handles) bindings;
    Ok (bool_decide (is_Some o)).

Fixpoint enumerate_supports (c : RuleClause) (bindings : Bindings) (row_ids rest : list N) (dependency : DependencySet)
    (selected : list DependencySet) (found : Matches) : J Matches :=
  _ ← poll_inner;
  match rest with
  | [] =>
      candidate ← lift (new_match (rc_clause_id c) 0 (freeze_bindings bindings)
        (Dep.union [dependency; Dep.union selected]) row_ids);
      insert_match found candidate
  | row_id :: rest =>
      row ← lift (Kernel.fact row_id (je_kernel env));
      _ ← lift (reject_if (bool_decide (supports row = [])) (invariant "active fact row has no dependency support"));
      foldST (λ found support, enumerate_supports c bindings row_ids rest dependency (selected ++ [support]) found)
        (supports row) found
  end.

(** Whether one of the rows was derived in the current generation. *)
Definition any_new (row_ids : list N) : NativeResult bool :=
  foldM (λ (found_new : bool) row_id,
      if found_new then Ok true
      else row ← Kernel.fact row_id (je_kernel env);
           Ok (derivation_generation row =? read_generation (state (je_kernel env)))%N)
    row_ids false.

Fixpoint enumerate_row_choices (c : RuleClause) (bindings : Bindings) (rows_by_atom : list (list (option N)))
    (selected : list N) (require_new : bool) (virtual_dependency : DependencySet) (found : Matches) : J Matches :=
  _ ← poll_inner;
  match rows_by_atom with
  | [] =>
      is_new ← lift (if require_new then any_new selected else Ok true);
      if negb is_new then mret found
      else enumerate_supports c bindings selected selected virtual_dependency [] found
  | rows :: rows_by_atom =>
      foldST (λ found row_id,
          enumerate_row_choices c bindings rows_by_atom
            (match row_id with Some value => selected ++ [value] | None => selected end)
            require_new virtual_dependency found)
        rows found
  end.

(** The rows that satisfy one stored atom. *)
Definition matching_rows (a : RuleAtom) (kind : PredicateKind) (bindings : Bindings) : J (list (option N)) :=
  foldST (λ matching row_id,
      _ ← poll_inner;
      row ← lift (Kernel.fact row_id (je_kernel env));
      if negb (predicate_id (row_key row) =? ra_predicate_id a)%N then mret matching
      else
        ok ← lift (row_satisfies a (arguments (row_key row)) kind bindings);
        mret (if ok : bool then matching ++ [Some row_id] else matching))
    (Kernel.active_fact_ids (je_kernel env)) [].

(** The loop of [evaluate_assignment]; [None] is its early return. *)
Fixpoint evaluate_atoms (atoms : list RuleAtom) (bindings : Bindings) (rows_by_atom : list (list (option N)))
    (virtual_dependencies : list DependencySet) : J (option (list (list (option N)) * list DependencySet)) :=
  match atoms with
  | [] => mret (Some (rows_by_atom, virtual_dependencies))
  | a :: atoms =>
      kind ← lift (Rule.predicate_kind (ra_predicate_id a) (je_program env));
      if bool_decide (kind = OrderingGuard) then
        guard ← lift (ordering_guard env a bindings);
        match guard with
        | None => mret None
        | Some (_, dependency) =>
            evaluate_atoms atoms bindings (rows_by_atom ++ [[None]]) (virtual_dependencies ++ [dependency])
        end
      else if bool_decide (kind = Equality) then
        equality ← equality_candidates a bindings;
        match equality with
        | [] => mret None
        | (_, dependency) :: _ =>
            evaluate_atoms atoms bindings (rows_by_atom ++ [[None]]) (virtual_dependencies ++ [dependency])
        end
      else
        matching ← matching_rows a kind bindings;
        if bool_decide (matching = []) then mret None
        else evaluate_atoms atoms bindings (rows_by_atom ++ [matching]) virtual_dependencies
  end.

Definition evaluate_assignment (c : RuleClause) (bindings : Bindings) (require_new : bool) (found : Matches) : J Matches :=
  evaluated ← evaluate_atoms (rc_body c) bindings [] [];
  match evaluated with
  | None => mret found
  | Some (rows_by_atom, virtual_dependencies) =>
      enumerate_row_choices c bindings rows_by_atom [] require_new (Dep.union virtual_dependencies) found
  end.

Fixpoint enumerate_assignments (c : RuleClause) (domains : list (TermSort * N * list NodeHandle)) (bindings : Bindings)
    (require_new : bool) (found : Matches) : J Matches :=
  _ ← tick_join;
  match domains with
  | [] => evaluate_assignment c bindings require_new found
  | (variable, domain) :: domains =>
      foldST (λ found handle,
          _ ← poll_inner;
          enumerate_assignments c domains (<[variable := handle]> bindings) require_new found)
        domain found
  end.

(** The active nodes of a sort. *)
Definition sort_domain (sort : TermSort) : J (list NodeHandle) :=
  foldST (λ domain handle,
      _ ← poll_inner;
      s ← lift (Kernel.node_sort handle (je_kernel env));
      mret (if bool_decide (s = node_sort_of sort) then domain ++ [handle] else domain))
    (Kernel.active_node_handles (je_kernel env)) [].

Definition clause_variables (c : RuleClause) : list (TermSort * N) :=
  btree_elements (list_to_set (mjoin ((λ a, term_variables (ra_arguments a)) <$> rc_body c)) : gset (TermSort * N)).

(** [NaiveJoinEvaluator::matches]. *)
Definition naive_matches (cid : N) (require_new : bool) : J (list JoinMatch) :=
  _ ← poll;
  c ← lift (Rule.clause cid (je_program env));
  domains ← foldST (λ domains (variable : TermSort * N),
      domain ← sort_domain variable.1;
      mret (domains ++ [(variable, domain)]))
    (clause_variables c) [];
  found ← enumerate_assignments c domains ∅ require_new ∅;
  _ ← poll;
  mret (btree_values found).

End evaluator.

(** ** Building an evaluator *)

(** A node map may only contain nodes of one sort. *)
Definition validate_node_map (k : TableauKernel) (sort : TermSort) (message : string) (m : gmap N NodeHandle) :
    NativeResult unit :=
  iterM (λ handle,
    r ← Kernel.canonical_handle handle k;
    s ← Kernel.node_sort r.1 k;
    reject_if (negb (bool_decide (s = node_sort_of sort))) (wire message)) (btree_values m).

Definition validate_node_maps (k : TableauKernel) (source_nodes data_nodes : gmap N NodeHandle) : NativeResult unit :=
  _ ← validate_node_map k TObject "source individual map contains a non-object node" source_nodes;
  validate_node_map k TData "data identity map contains a non-data node" data_nodes.

End Join.
