(* ===== verification/RuleEngine.v ===== *)
(** * The rule engine (native/src/rules/engine.rs)

    Consequences of a join are grounded, normalised and dispatched: a fact is
    added, two nodes are merged, a clash is installed or a disjunction is
    recorded.  The engine keeps the registry of ground atoms that disjunctions
    refer to, and snapshots of it.  It is the implementation of
    [GroundAtomAccess] behind the brancher. *)

From stdpp Require Import pretty.
From S2P Require Import Prelude Order Errors Model Queue Store Kernel Cancel Branching RuleModel Merging.
From S2P Require Import RulePlans Joins.
Import NativeErr.

Record RuleCheckpointLimits := mkCheckpointLimits { max_checkpoints : N; max_total_checkpoint_bytes : N }.

Record RuleEngineCheckpoint := mkRuleCheckpoint { cp_owner : N; cp_sequence : N }.

Record RuleEngineMutableSnapshot := mkSnapshot {
  sn_atom_ids : gmap GroundAtom N;
  sn_atoms : list GroundAtom;
  sn_disjunction_keys : gmap (list GroundAtom) N;
  sn_initialized : bool
}.

Record StoredRuleCheckpoint := mkStored { st_snapshot : RuleEngineMutableSnapshot; st_estimated_bytes : N }.

Record RuleEngine := mkRuleEngine {
  re_program : RuleProgram;
  re_join_program : JoinProgram;
  re_source_nodes : gmap N NodeHandle;
  re_data_nodes : gmap N NodeHandle;
  re_atom_ids : gmap GroundAtom N;
  re_atoms : list GroundAtom;
  re_disjunction_keys : gmap (list GroundAtom) N;
  re_learning : bool;
  re_merger : MergingManager;
  re_limits : RuleLimits;
  re_initialized : bool;
  checkpoint_owner : N;
  next_checkpoint_sequence : N;
  checkpoint_limits : RuleCheckpointLimits;
  checkpoint_bytes : N;
  checkpoints : gmap N StoredRuleCheckpoint
}.

#[global] Instance RuleEngine_eta : Eta RuleEngine := λ e,
  mkRuleEngine (re_program e) (re_join_program e) (re_source_nodes e) (re_data_nodes e) (re_atom_ids e) (re_atoms e)
    (re_disjunction_keys e) (re_learning e) (re_merger e) (re_limits e) (re_initialized e) (checkpoint_owner e)
    (next_checkpoint_sequence e) (checkpoint_limits e) (checkpoint_bytes e) (checkpoints e).

Record AppliedDelta := mkAppliedDelta { processed_rows : N; rule_matches : N }.

Abbreviation EK X := (st (RuleEngine * TableauKernel) NativeError X).

Module Engine.

(** ** Access to the two owners *)

Definition ker {X} (m : K X) : EK X := λ s, let '(r, k') := m s.2 in (r, (s.1, k')).
Definition looks {X} (f : RuleEngine → TableauKernel → NativeResult X) : EK X := reads (λ s, f s.1 s.2).
Definition upd_engine (f : RuleEngine → RuleEngine) : EK unit := modify (λ s, (f s.1, s.2)).

(** ** Building an engine *)

Definition new_checkpoint_limits (count bytes : N) : NativeResult RuleCheckpointLimits :=
  _ ← reject_if (count =? 0)%N (wire "max_checkpoints must be strictly positive");
  _ ← reject_if (bytes =? 0)%N (wire "max_total_checkpoint_bytes must be strictly positive");
  Ok (mkCheckpointLimits count bytes).

Definition default_checkpoint_limits : RuleCheckpointLimits := mkCheckpointLimits 8 (64 * 1024 * 1024).

(** The process-wide counter of engine owners. *)
Definition next_rule_engine_owner : st N NativeError N :=
  owner ← gets id;
  next ← lift (ok_or (checked_add u64_max owner 1) (invariant "rule engine owner sequence exhausted"));
  _ ← modify (λ _, next);
  mret owner.

Definition with_limits_and_checkpoint_limits (prog : RuleProgram) (sources data : gmap N NodeHandle)
    (limits : RuleLimits) (checkpoint_limits : RuleCheckpointLimits) (learning : bool) : st N NativeError RuleEngine :=
  limits ← lift (new_limits (max_join_steps limits) (max_matches_per_generation limits) (cancellation_interval limits));
  cp_limits ← lift (new_checkpoint_limits (max_checkpoints checkpoint_limits) (max_total_checkpoint_bytes checkpoint_limits));
  join_program ← lift (Plans.compile_join_program prog);
  merger ← lift (Merging.new (predicates prog));
  owner ← next_rule_engine_owner;
  mret (mkRuleEngine prog join_program sources data ∅ [] ∅ learning merger limits false owner 1 cp_limits 0 ∅).

Definition new (prog : RuleProgram) (sources data : gmap N NodeHandle) (learning : bool) : st N NativeError RuleEngine :=
  with_limits_and_checkpoint_limits prog sources data default_rule_limits default_checkpoint_limits learning.

(** ** The registry of ground atoms *)

Definition atom_for_id (atom_id : N) (e : RuleEngine) : NativeResult GroundAtom :=
  ok_or (re_atoms e !! N.to_nat atom_id) (invariant "ground disjunction references an absent atom").

Definition atom_id (a : GroundAtom) : EK N :=
  s ← gets id;
  match re_atom_ids s.1 !! a with
  | Some identifier => mret identifier
  | None =>
      identifier ← lift (ok_or (u32_try_from (length (re_atoms s.1))) (invariant "ground-atom registry exceeds u32 IDs"));
      _ ← lift (Rule.validate_ground_atom a (re_program s.1));
      _ ← upd_engine (λ e, e <| re_atoms ::= λ l, l ++ [a] |>);
      _ ← upd_engine (λ e, e <| re_atom_ids ::= <[a := identifier]> |>);
      mret identifier
  end.

Definition validate_mutable_state (ids : gmap GroundAtom N) (atoms : list GroundAtom) : NativeResult unit :=
  _ ← reject_if (negb (bool_decide (size ids = length atoms)))
    (invariant "rule atom registry maps and vectors have different lengths");
  iterM (λ entry : nat * GroundAtom,
      expected ← ok_or (u32_try_from entry.1) (invariant "rule atom registry exceeds u32");
      reject_if (negb (bool_decide (ids !! entry.2 = Some expected)))
        (invariant "rule atom registry is not a canonical bijection"))
    (imap pair atoms).

(** ** Ground atoms *)

(** Kinds whose first two arguments are ordered by rank. *)
Definition symmetric_kind (kind : PredicateKind) : bool :=
  match kind with Equality | Inequality | OrderingGuard | AnnotatedEquality => true | _ => false end.

(** [arguments.swap(0, 1)]. *)
Definition swap_first (args : list NodeHandle) : list NodeHandle :=
  match args with a :: b :: args => b :: a :: args | _ => args end.

Definition canonical_atom (a : GroundAtom) (e : RuleEngine) (k : TableauKernel) :
    NativeResult (GroundAtom * DependencySet) :=
  _ ← Rule.validate_ground_atom a (re_program e);
  p ← Rule.predicate (ga_predicate_id a) (re_program e);
  resolved ← collectM (λ '(handle, sort),
      r ← Kernel.canonical_handle handle k;
      s ← Kernel.node_sort r.1 k;
      _ ← reject_if (negb (bool_decide (s = node_sort_of sort))) (invariant "ground atom argument has the wrong node sort");
      Ok r) (zip (ga_arguments a) (rp_argument_sorts p));
  let args := resolved.*1 in
  args ← (if symmetric_kind (rp_kind p) then
            first ← index_or_crash args 0;
            first_rank ← Kernel.node_rank first k;
            second ← index_or_crash args 1;
            second_rank ← Kernel.node_rank second k;
            Ok (if bool_decide (ord_lt second_rank first_rank) then swap_first args else args)
          else Ok args);
  atom ← Rule.new_ground (ga_predicate_id a) args;
  Ok (atom, Dep.union resolved.*2).

Definition ground_atom (a : RuleAtom) (bindings : Bindings) (e : RuleEngine) (k : TableauKernel) :
    NativeResult (GroundAtom * DependencySet) :=
  resolved ← collectM (λ t,
      handle ← (match t with
        | Variable_ sort v => ok_or (bindings !! (sort, v)) (invariant "head variable is absent from the join substitution")
        | Individual i => ok_or (re_source_nodes e !! i) (invariant "compiled individual has no tableau node")
        | DataConstant _ identity =>
            ok_or (re_data_nodes e !! identity) (invariant "compiled data identity has no tableau node")
        end);
      Kernel.canonical_handle handle k) (ra_arguments a);
  atom ← Rule.new_ground (ra_predicate_id a) resolved.*1;
  grounded ← canonical_atom atom e k;
  Ok (grounded.1, Dep.union [Dep.union resolved.*2; grounded.2]).

Definition fact_dependency (pid : N) (args : list NodeHandle) (k : TableauKernel) : NativeResult (option DependencySet) :=
  bindings ← foldM (λ (m : gmap N NodeHandle) entry,
      position ← ok_or (u32_try_from entry.1) (invariant "ground atom arity exceeds u32");
      Ok (<[position := entry.2]> m)) (imap pair args) ∅;
  rows ← Kernel.candidate_fact_ids pid bindings k;
  supports ← collectM (λ rid, row ← Kernel.fact rid k; Ok (supports row)) rows;
  Ok (min_by (λ l r, compare (dependency_rank l) (dependency_rank r)) (mjoin supports)).

Definition atom_is_satisfied_impl (a : GroundAtom) (e : RuleEngine) (k : TableauKernel) : NativeResult bool :=
  r ← canonical_atom a e k;
  kind ← Rule.predicate_kind (ga_predicate_id r.1) (re_program e);
  if bool_decide (kind = Equality) then
    left ← index_or_crash (ga_arguments r.1) 0;
    right ← index_or_crash (ga_arguments r.1) 1;
    Ok (bool_decide (left = right))
  else
    d ← fact_dependency (ga_predicate_id r.1) (ga_arguments r.1) k;
    Ok (bool_decide (is_Some d)).

Definition atom_refutation_impl (a : GroundAtom) (e : RuleEngine) (k : TableauKernel) :
    NativeResult (option DependencySet) :=
  r ← canonical_atom a e k;
  p ← Rule.predicate (ga_predicate_id r.1) (re_program e);
  equal ← (if bool_decide (rp_kind p = Inequality) then
             left ← index_or_crash (ga_arguments r.1) 0;
             right ← index_or_crash (ga_arguments r.1) 1;
             Ok (bool_decide (left = right))
           else Ok false);
  if equal : bool then Ok (Some r.2)
  else
    match rp_opposite_predicate_id p with
    | None => Ok None
    | Some opposite =>
        d ← fact_dependency opposite (ga_arguments r.1) k;
        Ok ((λ dependency, Dep.union [r.2; dependency]) <$> d)
    end.

(** ** Order of disjuncts *)

Definition DisjunctRank : Type := N * PredicateKind * N * list (N * N * N).

Definition kind_rank (kind : PredicateKind) : N :=
  match kind with
  | Equality => 0
  | AnnotatedEquality => 1
  | Inequality => 2
  | Concept | NegatedConcept | Nominal | NegatedNominal => 3
  | _ => 4
  end.

Definition disjunct_rank (a : GroundAtom) (e : RuleEngine) (k : TableauKernel) : NativeResult DisjunctRank :=
  kind ← Rule.predicate_kind (ga_predicate_id a) (re_program e);
  ranks ← collectM (λ handle, Kernel.node_rank handle k) (ga_arguments a);
  Ok (kind_rank kind, kind, ga_predicate_id a, ranks).

Definition order_disjuncts (atoms : list GroundAtom) (e : RuleEngine) (k : TableauKernel) : NativeResult (list GroundAtom) :=
  ranked ← collectM (λ a, rank ← disjunct_rank a e k; Ok (rank, a)) atoms;
  Ok (sort ranked).*2.

Definition single_atom_clash_kind (a : GroundAtom) (e : RuleEngine) : NativeResult string :=
  p ← Rule.predicate (ga_predicate_id a) (re_program e);
  Ok (if bool_decide (rp_kind p = Equality) || bool_decide (rp_kind p = Inequality) then "equality_inequality"
      else if bool_decide (is_Some (rp_opposite_predicate_id p)) then "positive_negative_atom"
      else "empty_head").

(** ** Adding a fact *)

Definition add_extension_atom (a : GroundAtom) (dependency : DependencySet) (core : bool) (provenance : list N) : K bool :=
  let provenance := dedup (sort provenance) in
  outcome ← Kernel.add_fact_detailed (ga_predicate_id a) (ga_arguments a) dependency core (head provenance);
  _ ← forM (λ p, _ ← Kernel.add_fact (ga_predicate_id a) (ga_arguments a) dependency core (Some p); mret tt)
    (drop 1 provenance);
  mret (out_created outcome || out_support_changed outcome).

(** The last predicate of a list that satisfies a test. *)
Definition last_predicate (test : RulePredicate → bool) (ps : list RulePredicate) : option N :=
  rp_predicate_id <$> last (List.filter test ps).

Definition fixed_data_values_differ (left right : NodeHandle) (e : RuleEngine) (k : TableauKernel) : NativeResult bool :=
  l ← Kernel.canonical_handle left k;
  r ← Kernel.canonical_handle right k;
  identities ← collectM (λ entry : N * NodeHandle,
      rep ← Kernel.canonical_handle entry.2 k; Ok (entry.1, rep.1)) (btree_entries (re_data_nodes e));
  let identities_of (h : NodeHandle) : gset N := list_to_set (List.filter (λ p, bool_decide (p.2 = h)) identities).*1 in
  Ok (negb (bool_decide (identities_of l.1 = ∅)) && negb (bool_decide (identities_of r.1 = ∅)) && bool_decide (identities_of l.1 ## identities_of r.1)).

(** ** Dispatching an atom

    [dispatch_ground_atom], [dispatch_normalized], [dispatch_equality],
    [derive_concrete_role_inequalities] and [merge_nodes_semantic] call each
    other.  Each is written over [dispatch], the function that dispatches an atom
    from inside it; [dispatch_loop] ties the knot. *)

(** Runs without a cancellation state. *)
Definition uncancelled {X} (m : st (World RuleEngine) NativeError X) : EK X := λ s,
  let '(r, w) := m (mkWorld s.2 s.1 (mkCancel false None 0 0 0 0) 0) in (r, (w_access w, w_kernel w)).

(** An operation on the engine and its kernel, in the brancher's world. *)
Definition engine {X} (m : EK X) : st (World RuleEngine) NativeError X := λ w,
  let '(r, s) := m (w_access w, w_kernel w) in (r, mkWorld s.2 s.1 (w_cancel w) (w_polls w)).

(** An operation of the merging manager, which does not see the engine. *)
Definition merger {X} (m : st (World unit) NativeError X) : st (World RuleEngine) NativeError X := λ w,
  let '(r, w') := m (mkWorld (w_kernel w) tt (w_cancel w) (w_polls w)) in
  (r, mkWorld (w_kernel w') (w_access w) (w_cancel w') (w_polls w')).

Section dispatching.
Context (dispatch : GroundAtom → DependencySet → bool → list N → EK bool).

(** The loop over the supports of one row: [true] when a clash was installed. *)
Fixpoint redispatch_supports (a : GroundAtom) (core : bool) (provenance : list N) (supports : list DependencySet) :
    EK bool :=
  match supports with
  | [] => mret false
  | support :: supports =>
      _ ← dispatch a support core provenance;
      s ← gets id;
      if bool_decide (is_Some (Kernel.clash s.2)) then mret true
      else redispatch_supports a core provenance supports
  end.

Section merging.
Context (others : nat → CancellationState → CancellationState) (clock : nat → N) (supplied : bool).
Abbreviation W X := (st (World RuleEngine) NativeError X).

(** The loop over the rows of the surviving node. *)
Fixpoint redispatch_rows (rows : list FactRow) : W bool :=
  match rows with
  | [] => mret false
  | row :: rows =>
      _ ← (if supplied then Branching.poll others clock else mret tt);
      a ← lift (Rule.new_ground (predicate_id (row_key row)) (arguments (row_key row)));
      clashed ← engine (redispatch_supports a (core row) (btree_elements (provenance_ids row)) (supports row));
      if clashed : bool then mret true else redispatch_rows rows
  end.

Definition merge_nodes_semantic (left right : NodeHandle) (dependency : DependencySet) : W MergeResult :=
  e ← gets w_access;
  result ← merger (Merging.merge others clock supplied (re_merger e) left right dependency);
  if mr_clashed result || bool_decide (mr_merged result = None) then mret result
  else
    rows ← kern (reads (Kernel.facts_for_node (mr_representative result)));
    redispatch_rows rows ≫= λ clashed : bool,
    mret (if clashed then mkMergeResult (mr_representative result) (mr_merged result) (mr_pruned result) true else result).
End merging.

Definition first_two (a : GroundAtom) : NativeResult (NodeHandle * NodeHandle) :=
  left ← index_or_crash (ga_arguments a) 0;
  right ← index_or_crash (ga_arguments a) 1;
  Ok (left, right).

Definition dispatch_equality (a : GroundAtom) (dependency : DependencySet) (core : bool) (provenance : list N) : EK bool :=
  pair ← lift (first_two a);
  let '(l, r) := pair in
  looks (fixed_data_values_differ l r) ≫= λ differ : bool,
  if differ then
    aid ← atom_id a;
    ker (Kernel.install_clash "equality_inequality" dependency [aid] (head provenance))
  else
    p ← looks (λ e _, Rule.predicate (ga_predicate_id a) (re_program e));
    inequality ← (match rp_opposite_predicate_id p with
      | None => mret None
      | Some opposite => looks (λ _ k, fact_dependency opposite [l; r] k)
      end);
    match inequality with
    | Some inequality =>
        aid ← atom_id a;
        ker (Kernel.install_clash "equality_inequality" (Dep.union [dependency; inequality]) [aid] (head provenance))
    | None =>
        let changed := negb (bool_decide (l = r)) in
        merged ← (if changed then
                    result ← uncancelled (merge_nodes_semantic (λ _ c, c) (λ _, 0) false l r dependency);
                    mret (mr_clashed result, mr_representative result)
                  else mret (false, l));
        if (merged.1 : bool) then mret true
        else
          reflexive ← lift (Rule.new_ground (ga_predicate_id a) [merged.2; merged.2]);
          ker (add_extension_atom reflexive dependency core provenance) ≫= λ added : bool,
          mret (added || changed)
    end.

(** The loop of [derive_concrete_role_inequalities] over the opposite facts. *)
Fixpoint derive_inequalities (inequality_id : option N) (target : NodeHandle) (dependency : DependencySet)
    (core : bool) (provenance : list N) (candidates : list (NodeHandle * list DependencySet * bool)) : EK unit :=
  match candidates with
  | [] => mret tt
  | (other, supports, opposite_core) :: candidates =>
      _ ← (match inequality_id with
        | None =>
            looks (fixed_data_values_differ target other) ≫= λ differ : bool,
            if differ then mret tt
            else lift (Err (invariant "non-fixed data-role negation requires a compiled inequality predicate"))
        | Some pid =>
            forM (λ support,
                a ← lift (Rule.new_ground pid [target; other]);
                _ ← dispatch a (Dep.union [dependency; support]) (core || opposite_core) provenance;
                mret tt)
              supports
        end);
      derive_inequalities inequality_id target dependency core provenance candidates
  end.

Definition is_data_inequality (p : RulePredicate) : bool :=
  bool_decide (rp_kind p = Inequality) && bool_decide (rp_argument_sorts p = [TData; TData]).

Definition derive_concrete_role_inequalities (a : GroundAtom) (opposite : N) (dependency : DependencySet) (core : bool)
    (provenance : list N) : EK unit :=
  pair ← lift (first_two a);
  let '(source, target) := pair in
  inequality_id ← looks (λ e _, Ok (last_predicate is_data_inequality (predicates (re_program e))));
  candidates ← looks (λ _ k,
    rows ← Kernel.candidate_fact_ids opposite {[0 := source]} k;
    collectM (λ rid,
      row ← Kernel.fact rid k;
      other ← index_or_crash (arguments (row_key row)) 1;
      Ok (other, supports row, Store.core row)) rows);
  derive_inequalities inequality_id target dependency core provenance candidates.

(** The clash of a stored atom with its opposite: [true] when there is one. *)
Definition contradict (a : GroundAtom) (opposite : option N) (dependency : DependencySet) (provenance : list N) : EK bool :=
  match opposite with
  | None => mret false
  | Some opposite =>
      refutation ← looks (λ _ k, fact_dependency opposite (ga_arguments a) k);
      match refutation with
      | None => mret false
      | Some refutation =>
          aid ← atom_id a;
          _ ← ker (Kernel.install_clash "positive_negative_atom" (Dep.union [dependency; refutation]) [aid] (head provenance));
          mret true
      end
  end.

Definition is_data_role_kind (kind : PredicateKind) : bool :=
  match kind with DataRole | NegatedDataRole => true | _ => false end.

Definition is_at_least_kind (kind : PredicateKind) : bool :=
  match kind with AtLeastObject | AtLeastData => true | _ => false end.

Definition dispatch_normalized (a : GroundAtom) (dependency : DependencySet) (core : bool) (provenance : list N) : EK bool :=
  p ← looks (λ e _, Rule.predicate (ga_predicate_id a) (re_program e));
  let kind := rp_kind p in
  if bool_decide (kind = OrderingGuard) then lift (Err (invariant "ordering guards cannot be dispatched as heads"))
  else if bool_decide (kind = Equality) then dispatch_equality a dependency core provenance
  else if bool_decide (kind = AnnotatedEquality) then
    aid ← atom_id a;
    changed ← ker (add_extension_atom a dependency core provenance);
    _ ← ker (Kernel.enqueue_integer "annotated_equalities" aid [Z.of_N aid]);
    mret changed
  else
    changed ← ker (add_extension_atom a dependency core provenance);
    _ ← (if bool_decide (kind = Inequality) then
           pair ← lift (first_two a);
           if bool_decide (pair.1 = pair.2) then
             aid ← atom_id a;
             _ ← ker (Kernel.install_clash "equality_inequality" dependency [aid] (head provenance));
             mret tt
           else mret tt
         else mret tt);
    contradict a (rp_opposite_predicate_id p) dependency provenance ≫= λ contradicted : bool,
    _ ← (if negb contradicted && is_data_role_kind kind then
           match rp_opposite_predicate_id p with
           | None => mret tt
           | Some opposite => derive_concrete_role_inequalities a opposite dependency core provenance
           end
         else mret tt);
    _ ← (if is_at_least_kind kind then
           root ← lift (index_or_crash (ga_arguments a) 0);
           _ ← ker (Kernel.mark_existential root (ga_predicate_id a) true);
           rank ← ker (reads (Kernel.node_rank root));
           ker (Kernel.enqueue_node "existential_candidates" root [Z.of_N rank.1.1; Z.of_N rank.1.2; Z.of_N rank.2])
         else mret tt);
    mret changed.

Definition dispatch_body (a : GroundAtom) (dependency : DependencySet) (core : bool) (provenance : list N) : EK bool :=
  normalized ← looks (canonical_atom a);
  dispatch_normalized normalized.1 (Dep.union [dependency; normalized.2]) core provenance.
End dispatching.

Fixpoint dispatch_loop (fuel : nat) (a : GroundAtom) (dependency : DependencySet) (core : bool) (provenance : list N) :
    EK bool :=
  match fuel with
  | O => lift Crash
  | S fuel => dispatch_body (dispatch_loop fuel) a dependency core provenance
  end.

(** Only an equality of two nodes dispatches further equalities, and then one of
    the two has left the active nodes; below that, a data role may dispatch an
    inequality, which dispatches nothing. *)
Definition dispatch_fuel (k : TableauKernel) : nat := S (S (length (Kernel.active_node_handles k))).

Definition dispatch_ground_atom (a : GroundAtom) (dependency : DependencySet) (core : bool) (provenance : list N) : EK bool :=
  s ← gets id;
  dispatch_loop (dispatch_fuel s.2) a dependency core provenance.

(** [merge_nodes_semantic] as other components call it. *)
Definition merge_nodes (others : nat → CancellationState → CancellationState) (clock : nat → N) (supplied : bool)
    (left right : NodeHandle) (dependency : DependencySet) : st (World RuleEngine) NativeError MergeResult :=
  merge_nodes_semantic dispatch_ground_atom others clock supplied left right dependency.

(** The implementation of the brancher's interface. *)
#[global] Instance RuleEngine_access : GroundAtomAccess RuleEngine := {|
  atom_is_satisfied e k aid := a ← atom_for_id aid e; atom_is_satisfied_impl a e k;
  atom_refutation_dependency e k aid := a ← atom_for_id aid e; atom_refutation_impl a e k;
  dispatch_atom aid dependency :=
    a ← looks (λ e _, atom_for_id aid e);
    dispatch_ground_atom a dependency false []
|}.

(** ** Heads of clauses *)

(** The loop of [install_disjunction] over the branches of a strengthened disjunction. *)
Definition redispatch_choices (dependency : DependencySet) (choices : list (N * N)) : EK unit :=
  forM (λ choice : N * N, _ ← dispatch_atom choice.2 (Dep.add dependency choice.1); mret tt) choices.

Definition install_disjunction (atoms : list GroundAtom) (dependency : DependencySet) : EK bool :=
  ordered ← looks (order_disjuncts atoms);
  let atoms := dedup ordered in
  s ← gets id;
  strengthened ← (match re_disjunction_keys s.1 !! atoms with
    | None => mret false
    | Some did =>
        match Kernel.disjunction did s.2 with
        | Crash => lift Crash
        | Ok record =>
            if d_active record then
              ker (Kernel.strengthen_disjunction did dependency) ≫= λ stronger : bool,
              _ ← (if stronger then
                     s ← gets id;
                     redispatch_choices dependency (Kernel.branch_choices_for_source did s.2)
                   else mret tt);
              mret true
            else _ ← upd_engine (λ e, e <| re_disjunction_keys ::= delete atoms |>); mret false
        | Err _ => _ ← upd_engine (λ e, e <| re_disjunction_keys ::= delete atoms |>); mret false
        end
    end);
  if strengthened : bool then mret false
  else
    identifiers ← foldST (λ ids a, aid ← atom_id a; mret (ids ++ [aid])) atoms [];
    did ← ker (Kernel.add_disjunction identifiers dependency);
    _ ← upd_engine (λ e, e <| re_disjunction_keys ::= <[atoms := did]> |>);
    mret true.

(** Whether some atom already holds: the loop stops at the first. *)
Fixpoint some_satisfied (atoms : list GroundAtom) (e : RuleEngine) (k : TableauKernel) : NativeResult bool :=
  match atoms with
  | [] => Ok false
  | a :: atoms =>
      atom_is_satisfied_impl a e k ≫= λ satisfied : bool,
      if satisfied then Ok true else some_satisfied atoms e k
  end.

(** The atoms that are not refuted, and the refutations of the others. *)
Fixpoint split_head (atoms : list GroundAtom) (e : RuleEngine) (k : TableauKernel) (remaining : list GroundAtom)
    (dependencies : list DependencySet) : NativeResult (list GroundAtom * list DependencySet) :=
  match atoms with
  | [] => Ok (remaining, dependencies)
  | a :: atoms =>
      refutation ← atom_refutation_impl a e k;
      match refutation with
      | Some d => split_head atoms e k remaining (dependencies ++ [d])
      | None => split_head atoms e k (remaining ++ [a]) dependencies
      end
  end.

Definition apply_ground_head (atoms : list GroundAtom) (dependency : DependencySet) (provenance participants : list N) :
    EK bool :=
  canonicalized ← looks (λ e k, collectM (λ a, canonical_atom a e k) atoms);
  normalized ← looks (order_disjuncts (btree_elements (list_to_set canonicalized.*1 : gset GroundAtom)));
  looks (some_satisfied normalized) ≫= λ satisfied : bool,
  if satisfied then mret false
  else
    split ← looks (λ e k, split_head normalized e k [] (dependency :: canonicalized.*2));
    let '(remaining, dependencies) := split in
    let support := Dep.union dependencies in
    match remaining with
    | [] =>
        kind ← looks (λ e _, match normalized with [a] => single_atom_clash_kind a e | _ => Ok "empty_head"%string end);
        ker (Kernel.install_clash kind support (dedup (sort participants)) (head provenance))
    | [a] =>
        s ← gets id;
        dispatch_normalized (dispatch_loop (dispatch_fuel s.2)) a support false provenance
    | _ => install_disjunction remaining support
    end.

Definition apply_match (m : JoinMatch) : EK bool :=
  c ← looks (λ e _, Rule.clause (jm_clause_id m) (re_program e));
  let bindings : Bindings := list_to_map (reverse ((λ b, ((vb_sort b, vb_variable_id b), vb_node b)) <$> jm_bindings m)) in
  grounded ← looks (λ e k, collectM (λ a, ground_atom a bindings e k) (rc_head c));
  apply_ground_head grounded.*1 (Dep.union (jm_dependency m :: grounded.*2)) (rc_provenance_ids c) (jm_premise_row_ids m).

(** ** Nodes and queued equalities *)

Definition sort_of_node (s : NodeSort) : TermSort := match s with Object => TObject | Data => TData end.

Definition register_node (handle : NodeHandle) (dependency : DependencySet) : EK bool :=
  s ← looks (λ _ k, Kernel.node_sort handle k);
  pid ← looks (λ e _, Ok (last_predicate (λ p, bool_decide (rp_kind p = Equality) &&
    bool_decide (head (rp_argument_sorts p) = Some (sort_of_node s))) (predicates (re_program e))));
  match pid with
  | None => mret false
  | Some pid =>
      a ← lift (Rule.new_ground pid [handle; handle]);
      dispatch_ground_atom a dependency true []
  end.

Definition take_pending_annotated_equality : EK (option PendingAnnotatedEquality) :=
  taken ← ker (Kernel.take_integer "annotated_equalities");
  match taken with
  | None => mret None
  | Some action =>
      a ← looks (λ e _, atom_for_id action e);
      kind ← looks (λ e _, Rule.predicate_kind (ga_predicate_id a) (re_program e));
      _ ← lift (reject_if (negb (bool_decide (kind = AnnotatedEquality)))
        (invariant "annotated-equality queue references a different predicate kind"));
      rows ← ker (gets (Kernel.fact_history (ga_predicate_id a) (ga_arguments a)));
      pending ← lift (new_pending action a (mjoin (supports <$> rows))
        (mjoin ((λ row, btree_elements (provenance_ids row)) <$> rows)));
      mret (Some pending)
  end.

(** [equality_by_sort]: the last equality predicate of each sort. *)
Definition equality_by_sort (ps : list RulePredicate) : NativeResult (gmap TermSort N) :=
  foldM (λ (m : gmap TermSort N) p,
      s ← index_or_crash (rp_argument_sorts p) 0;
      Ok (<[s := rp_predicate_id p]> m))
    (List.filter (λ p, bool_decide (rp_kind p = Equality)) ps) ∅.

Definition seed_reflexive_equalities : EK unit :=
  by_sort ← looks (λ e _, equality_by_sort (predicates (re_program e)));
  handles ← ker (gets Kernel.active_node_handles);
  forM (λ handle,
      s ← looks (λ _ k, Kernel.node_sort handle k);
      match by_sort !! sort_of_node s with
      | None => mret tt
      | Some pid =>
          a ← lift (Rule.new_ground pid [handle; handle]);
          _ ← ker (add_extension_atom a Dep.empty true []);
          mret tt
      end)
    handles.

(** ** Limits of a join *)

Definition remaining_join_limits (limits : RuleLimits) (completed : N) : NativeResult RuleLimits :=
  _ ← reject_if (max_join_steps limits <? completed)%N (invariant "completed join steps exceed the configured limit");
  let remaining := max_join_steps limits - completed in
  _ ← reject_if (remaining =? 0)%N
    (resource_limit "hyperresolution join-step limit exceeded" "max_join_steps" (saturating_add u64_max completed 1)
      (max_join_steps limits));
  new_limits remaining (max_matches_per_generation limits) (cancellation_interval limits).

Definition adjust_join_limit (error : NativeError) (completed : N) (limits : RuleLimits) : NativeError :=
  if bool_decide (err_kind error = Resource) && bool_decide (err_context error !! "limit" = Some "max_join_steps"%string)
  then
    let local_observed := default 1 (err_context error !! "observed" ≫= parse_u64) in
    error <| err_context ::= <["observed" := pretty (saturating_add u64_max completed local_observed)]> |>
          <| err_context ::= <["allowed" := pretty (max_join_steps limits)]> |>
  else error.

(** ** Running rules *)

Section running.
Context (others : nat → CancellationState → CancellationState) (clock : nat → N).
Abbreviation W X := (st (World RuleEngine) NativeError X).

Definition recover_rule_operation {X} (m : W X) : W X := λ w,
  match m w with
  | (Ok x, w') => (Ok x, w')
  | (Err e, w') =>
      match kern Kernel.reset_to_operation_root w' with
      | (Ok _, w'') => (Err e, w'')
      | (Err e', w'') =>
          (Err (invariant ("rule operation recovery failed after " +:+ err_code e +:+ ": " +:+
            err_code e' +:+ ": " +:+ err_message e')), w'')
      | (Crash, w'') => (Crash, w'')
      end
  | (Crash, w') => (Crash, w')
  end.

(** The evaluator over the engine's program and the kernel as it is now. *)
Definition join_env (limits : RuleLimits) (w : World RuleEngine) : JoinEnv :=
  mkJoinEnv (re_program (w_access w)) (w_kernel w) (re_source_nodes (w_access w)) (re_data_nodes (w_access w)) limits.

(** One run of an evaluator: its value with the steps it took. *)
Definition run_evaluator {X} (limits : RuleLimits) (adjust : NativeError → NativeError)
    (run : JoinEnv → st JoinState NativeError X) : W (X * N) := λ w,
  let '(r, j) := run (join_env limits w) (mkJoinState 0 0 0 (w_cancel w) (w_polls w)) in
  (match r with Ok x => Ok (x, steps j) | Err e => Err (adjust e) | Crash => Crash end,
   mkWorld (w_kernel w) (w_access w) (j_cancel j) (j_polls j)).

(** [from_prevalidated_maps], then the run. *)
Definition with_evaluator {X} (limits : RuleLimits) (adjust : NativeError → NativeError)
    (run : JoinEnv → st JoinState NativeError X) : W (X * N) :=
  _ ← Branching.poll others clock;
  run_evaluator limits adjust run.

(** The loop over the matches of one unconditional clause: [true] when a clash
    ended it. *)
Fixpoint apply_unconditional (limit : N) (ms : list JoinMatch) (count : N) : W (N * bool) :=
  match ms with
  | [] => mret (count, false)
  | m :: ms =>
      _ ← Branching.poll others clock;
      count ← lift (ok_or (checked_add u64_max count 1) (invariant "native unconditional-match counter overflow"));
      _ ← lift (reject_if (limit <? count)%N
        (resource_limit "hyperresolution match limit exceeded" "max_matches_per_generation" count limit));
      _ ← engine (apply_match m);
      w ← gets id;
      if bool_decide (is_Some (Kernel.clash (w_kernel w))) then mret (count, true)
      else apply_unconditional limit ms count
  end.

Fixpoint fire_clauses (cids : list N) (join_steps match_count : N) : W unit :=
  match cids with
  | [] => mret tt
  | cid :: cids =>
      _ ← Branching.poll others clock;
      w ← gets id;
      let own := re_limits (w_access w) in
      limits ← lift (remaining_join_limits own join_steps);
      found ← with_evaluator limits (λ e, adjust_join_limit e join_steps own)
        (λ env, Join.naive_matches others clock env cid false);
      join_steps ← lift (ok_or (checked_add u64_max join_steps found.2) (invariant "native join-step counter overflow"));
      applied ← apply_unconditional (max_matches_per_generation own) found.1 match_count;
      if applied.2 : bool then mret tt else fire_clauses cids join_steps applied.1
  end.

Definition fire_unconditional : W unit :=
  w ← gets id;
  fire_clauses (unconditional_clause_ids (re_join_program (w_access w))) 0 0.

Definition initialize_inner : W unit :=
  w ← gets id;
  _ ← lift (Join.validate_node_maps (w_kernel w) (re_source_nodes (w_access w)) (re_data_nodes (w_access w)));
  _ ← engine seed_reflexive_equalities;
  _ ← fire_unconditional;
  _ ← kern (reads Kernel.check_invariants);
  kern Kernel.begin_operation.

Definition initialize : W unit :=
  w ← gets id;
  _ ← lift (reject_if (re_initialized (w_access w)) (wire "native hyperresolution engine is already initialized"));
  _ ← Branching.poll others clock;
  _ ← kern Kernel.begin_operation;
  _ ← recover_rule_operation initialize_inner;
  engine (upd_engine (λ e, e <| re_initialized := true |>)).

(** What the loops of [apply_next_delta_inner] carry along: the matches applied
    so far, their number and the join steps taken. *)
Record DeltaRun := mkDeltaRun {
  applied : list (N * list VariableBinding * DependencySet);
  match_count : N;
  delta_steps : N
}.

#[global] Instance DeltaRun_eta : Eta DeltaRun := λ d, mkDeltaRun (applied d) (match_count d) (delta_steps d).

(** The loop over the rows of this generation. *)
Fixpoint delta_rows_of (generation interval : N) (rows : list (nat * N)) (acc : list N) : W (list N) :=
  match rows with
  | [] => mret acc
  | (index, rid) :: rows =>
      _ ← (if (N.of_nat index mod interval =? 0)%N then Branching.poll others clock else mret tt);
      row ← kern (reads (Kernel.fact rid));
      delta_rows_of generation interval rows (if (derivation_generation row =? generation)%N then acc ++ [rid] else acc)
  end.

(** The loop over the matches of one plan; a clash ends it. *)
Fixpoint apply_matches (ms : list JoinMatch) (d : DeltaRun) : W DeltaRun :=
  match ms with
  | [] => mret d
  | m :: ms =>
      _ ← Branching.poll others clock;
      let key := (jm_clause_id m, jm_bindings m, jm_dependency m) in
      if bool_decide (key ∈ applied d) then apply_matches ms d
      else
        w ← gets id;
        let limit := max_matches_per_generation (re_limits (w_access w)) in
        count ← lift (ok_or (checked_add u64_max (match_count d) 1) (invariant "native rule-match counter overflow"));
        _ ← lift (reject_if (limit <? count)%N
          (resource_limit "hyperresolution match limit exceeded" "max_matches_per_generation" count limit));
        _ ← engine (apply_match m);
        let d := d <| applied ::= cons key |> <| match_count := count |> in
        w ← gets id;
        if bool_decide (is_Some (Kernel.clash (w_kernel w))) then mret d else apply_matches ms d
  end.

(** The loop over the plans that a row triggers; an inactive row or a clash ends it. *)
Fixpoint run_plans (rid : N) (plans : list ClauseJoinPlan) (d : DeltaRun) : W DeltaRun :=
  match plans with
  | [] => mret d
  | plan :: plans =>
      row ← kern (reads (Kernel.fact rid));
      w ← gets id;
      if negb (active row) || bool_decide (is_Some (Kernel.clash (w_kernel w))) then mret d
      else
        let own := re_limits (w_access w) in
        limits ← lift (remaining_join_limits own (delta_steps d));
        found ← with_evaluator limits (λ e, adjust_join_limit e (delta_steps d) own)
          (λ env, Join.matches others clock env plan rid);
        total ← lift (ok_or (checked_add u64_max (delta_steps d) found.2) (invariant "native join-step counter overflow"));
        d ← apply_matches found.1 (d <| delta_steps := total |>);
        run_plans rid plans d
  end.

Fixpoint run_rows (rids : list N) (d : DeltaRun) : W DeltaRun :=
  match rids with
  | [] => mret d
  | rid :: rids =>
      _ ← Branching.poll others clock;
      row ← kern (reads (Kernel.fact rid));
      if negb (active row) then run_rows rids d
      else
        w ← gets id;
        plans ← lift (Plans.for_predicate (re_join_program (w_access w)) (predicate_id (row_key row)));
        d ← run_plans rid plans d;
        run_rows rids d
  end.

Definition apply_next_delta_inner : W AppliedDelta :=
  _ ← Branching.poll others clock;
  _ ← kern Kernel.prepare_next_delta;
  w ← gets id;
  let generation := read_generation (state (w_kernel w)) in
  rids ← delta_rows_of generation (cancellation_interval (re_limits (w_access w)))
    (imap pair (Kernel.active_fact_ids (w_kernel w))) [];
  d ← run_rows rids (mkDeltaRun [] 0 0);
  _ ← Branching.poll others clock;
  mret (mkAppliedDelta (N.of_nat (length rids)) (match_count d)).

Definition apply_next_delta : W AppliedDelta :=
  w ← gets id;
  _ ← lift (reject_if (negb (re_initialized (w_access w))) (wire "native hyperresolution engine must be initialized first"));
  recover_rule_operation apply_next_delta_inner.

(** One turn of [saturate_hyperresolution]: [inr] ends the loop. *)
Definition saturate_turn (generations : N) : W (N + N) :=
  w ← gets id;
  if bool_decide (is_Some (Kernel.clash (w_kernel w))) then mret (inr generations)
  else
    delta ← apply_next_delta;
    if (processed_rows delta =? 0)%N then mret (inr generations)
    else
      next ← lift (ok_or (checked_add u64_max generations 1) (invariant "hyperresolution generation counter overflow"));
      mret (inl next).

(** Every turn opens a new delta generation, and there are [2 ^ 32] of them. *)
Definition saturate_hyperresolution : W N := loopM (2 ^ 32)%positive saturate_turn 0.

Definition process_next_disjunction : W BranchTransition := Branching.process_next others clock.

Definition resolve_clash : W BranchTransition :=
  w ← gets id;
  Branching.resolve_until_choice_or_unsat others clock (re_learning (w_access w)).

(** The evaluators behind a validation of the node maps, for conformance runs. *)
Definition indexed_matches (plan : ClauseJoinPlan) (rid : N) : W (list JoinMatch) :=
  w ← gets id;
  _ ← lift (Join.validate_node_maps (w_kernel w) (re_source_nodes (w_access w)) (re_data_nodes (w_access w)));
  r ← with_evaluator (re_limits (w_access w)) id (λ env, Join.matches others clock env plan rid);
  mret r.1.

Definition naive_matches (cid : N) (require_new : bool) : W (list JoinMatch) :=
  w ← gets id;
  _ ← lift (Join.validate_node_maps (w_kernel w) (re_source_nodes (w_access w)) (re_data_nodes (w_access w)));
  r ← with_evaluator (re_limits (w_access w)) id (λ env, Join.naive_matches others clock env cid require_new);
  mret r.1.

End running.

(** ** Snapshots of the engine *)

(** The compiler's sizes of the types whose allocations are estimated. *)
Record Layout := mkLayout {
  size_checkpoint_entry : N;
  size_atom_entry : N;
  size_handle : N;
  size_ground_atom : N;
  size_key_entry : N
}.

Definition allocation_bytes (element : N) (count : nat) : NativeResult N :=
  ok_or (checked_mul u64_max (N.of_nat count) element) (invariant "rule snapshot allocation estimate overflow").

Definition btree_allocation_bytes (element : N) (count : nat) : NativeResult N :=
  if (count =? 0)%nat then Ok 0
  else
    entry_bytes ← allocation_bytes element count;
    overhead ← ok_or (checked_mul u64_max (N.of_nat count) 256)
      (invariant "rule snapshot tree overhead estimate overflow");
    ok_or (checked_add u64_max entry_bytes overhead) (invariant "rule snapshot tree estimate overflow").

Definition vector_allocation_bytes (element : N) (count : nat) : NativeResult N :=
  if (count =? 0)%nat then Ok 0
  else
    bytes ← allocation_bytes element count;
    ok_or (checked_add u64_max bytes 64) (invariant "rule snapshot vector estimate overflow").

Definition checked_estimate_add (total amount : N) : NativeResult N :=
  ok_or (checked_add u64_max total amount) (invariant "rule snapshot byte estimate overflow").

(** [for atom in atoms]: the vectors of arguments. *)
Definition add_argument_vectors (layout : Layout) (total : N) (atoms : list GroundAtom) : NativeResult N :=
  foldM (λ total a,
      amount ← vector_allocation_bytes (size_handle layout) (length (ga_arguments a));
      checked_estimate_add total amount) atoms total.

Definition estimate_snapshot_bytes (layout : Layout) (ids : gmap GroundAtom N) (atoms : list GroundAtom)
    (keys : gmap (list GroundAtom) N) : NativeResult N :=
  total ← btree_allocation_bytes (size_checkpoint_entry layout) 1;
  amount ← btree_allocation_bytes (size_atom_entry layout) (size ids);
  total ← checked_estimate_add total amount;
  total ← add_argument_vectors layout total (btree_keys ids);
  amount ← vector_allocation_bytes (size_ground_atom layout) (length atoms);
  total ← checked_estimate_add total amount;
  total ← add_argument_vectors layout total atoms;
  amount ← btree_allocation_bytes (size_key_entry layout) (size keys);
  total ← checked_estimate_add total amount;
  foldM (λ total (key : list GroundAtom),
      amount ← vector_allocation_bytes (size_ground_atom layout) (length key);
      total ← checked_estimate_add total amount;
      add_argument_vectors layout total key) (btree_keys keys) total.

Definition check_checkpoint_registry_invariants (e : RuleEngine) : NativeResult unit :=
  bytes ← foldM (λ bytes (entry : N * StoredRuleCheckpoint),
      _ ← reject_if (next_checkpoint_sequence e <=? entry.1)%N
        (invariant "active rule checkpoint is outside the issued sequence");
      ok_or (checked_add u64_max bytes (st_estimated_bytes entry.2))
        (invariant "active rule checkpoint byte counter overflow"))
    (btree_entries (checkpoints e)) 0;
  _ ← reject_if (negb (bytes =? checkpoint_bytes e)%N)
    (invariant "active rule checkpoint byte accounting is inconsistent");
  _ ← reject_if (N.to_nat (max_checkpoints (checkpoint_limits e)) <? size (checkpoints e))%nat
    (invariant "active rule checkpoint count exceeds its configured bound");
  reject_if (max_total_checkpoint_bytes (checkpoint_limits e) <? bytes)%N
    (invariant "active rule checkpoint bytes exceed their configured bound").

Section checkpoints.
Context {C : Type} `{OperationControl C} (layout : Layout).

Abbreviation CE X := (st (C * RuleEngine) NativeError X).

Definition controlled {X} (m : st C NativeError X) : CE X := λ s, let '(r, c') := m s.1 in (r, (c', s.2)).

Definition take_snapshot (e : RuleEngine) : RuleEngineMutableSnapshot :=
  mkSnapshot (re_atom_ids e) (re_atoms e) (re_disjunction_keys e) (re_initialized e).

Definition checkpoint : CE RuleEngineCheckpoint :=
  _ ← controlled control_poll;
  s ← gets id;
  let e := s.2 in
  _ ← lift (check_checkpoint_registry_invariants e);
  _ ← lift (validate_mutable_state (re_atom_ids e) (re_atoms e));
  count ← lift (ok_or (checked_add u64_max (N.of_nat (size (checkpoints e))) 1) (invariant "rule checkpoint count overflow"));
  let allowed := max_checkpoints (checkpoint_limits e) in
  _ ← lift (reject_if (allowed <? count)%N
    (resource_limit "rule checkpoint count limit exceeded" "max_checkpoints" count allowed));
  estimated ← lift (estimate_snapshot_bytes layout (re_atom_ids e) (re_atoms e) (re_disjunction_keys e));
  observed ← lift (ok_or (checked_add u64_max (checkpoint_bytes e) estimated)
    (invariant "rule checkpoint byte counter overflow"));
  let allowed_bytes := max_total_checkpoint_bytes (checkpoint_limits e) in
  _ ← lift (reject_if (allowed_bytes <? observed)%N
    (resource_limit "rule checkpoint memory limit exceeded" "max_total_checkpoint_bytes" observed allowed_bytes));
  _ ← controlled (control_observe_memory observed);
  let sequence := next_checkpoint_sequence e in
  next ← lift (ok_or (checked_add u64_max sequence 1) (invariant "rule checkpoint sequence exhausted"));
  _ ← lift (reject_if (bool_decide (is_Some (checkpoints e !! sequence)))
    (invariant "rule checkpoint sequence is already active"));
  _ ← controlled control_poll;
  _ ← modify (λ s, (s.1, s.2 <| checkpoints ::= <[sequence := mkStored (take_snapshot e) estimated]> |>));
  _ ← modify (λ s, (s.1, s.2 <| checkpoint_bytes := observed |>));
  _ ← modify (λ s, (s.1, s.2 <| next_checkpoint_sequence := next |>));
  mret (mkRuleCheckpoint (checkpoint_owner e) sequence).
End checkpoints.

Definition validate_checkpoint (cp : RuleEngineCheckpoint) (e : RuleEngine) : NativeResult unit :=
  _ ← reject_if (negb (cp_owner cp =? checkpoint_owner e)%N) (wire "rule checkpoint belongs to a different engine");
  _ ← check_checkpoint_registry_invariants e;
  stored ← ok_or (checkpoints e !! cp_sequence cp) (wire "rule checkpoint is stale or already consumed");
  validate_mutable_state (sn_atom_ids (st_snapshot stored)) (sn_atoms (st_snapshot stored)).

(** [values().map(|stored| stored.estimated_bytes).sum()]; [u64] wraps. *)
Definition stored_bytes (m : gmap N StoredRuleCheckpoint) : N :=
  foldr (λ stored total, (st_estimated_bytes stored + total) mod 2 ^ 64) 0 (btree_values m).

Abbreviation E X := (st RuleEngine NativeError X).

Definition consume_rollback (sequence : N) : E RuleEngineMutableSnapshot :=
  e ← gets id;
  selected ← lift (ok_or (checkpoints e !! sequence) (invariant "validated rule checkpoint disappeared"));
  _ ← modify (λ e : RuleEngine, e <| checkpoints ::= λ m, filter (λ entry, entry.1 < sequence) (delete sequence m) |>);
  _ ← modify (λ e : RuleEngine, e <| checkpoint_bytes := stored_bytes (checkpoints e) |>);
  mret (st_snapshot selected).

Definition restore_mutable_snapshot (s : RuleEngineMutableSnapshot) (e : RuleEngine) : RuleEngine :=
  e <| re_atom_ids := sn_atom_ids s |> <| re_atoms := sn_atoms s |> <| re_disjunction_keys := sn_disjunction_keys s |>
    <| re_initialized := sn_initialized s |>.

Definition rollback (cp : RuleEngineCheckpoint) : E unit :=
  _ ← reads (validate_checkpoint cp);
  snapshot ← consume_rollback (cp_sequence cp);
  modify (restore_mutable_snapshot snapshot).

Definition rollback_with_kernel (saved : TableauKernel) (cp : RuleEngineCheckpoint) : EK unit :=
  _ ← looks (λ e _, validate_checkpoint cp e);
  _ ← lift (Kernel.check_invariants saved);
  snapshot ← (λ s, let '(r, e') := consume_rollback (cp_sequence cp) s.1 in (r, (e', s.2)));
  _ ← upd_engine (restore_mutable_snapshot snapshot);
  ker (modify (Kernel.restore_full_checkpoint saved)).

Definition release_checkpoint (cp : RuleEngineCheckpoint) : E unit :=
  _ ← reads (validate_checkpoint cp);
  e ← gets id;
  stored ← lift (ok_or (checkpoints e !! cp_sequence cp) (invariant "validated rule checkpoint disappeared"));
  _ ← modify (λ e : RuleEngine, e <| checkpoints ::= delete (cp_sequence cp) |>);
  modify (λ e : RuleEngine, e <| checkpoint_bytes := checkpoint_bytes e - st_estimated_bytes stored |>).

(** The audit of an engine against its kernel. *)
Definition check_invariants (e : RuleEngine) (k : TableauKernel) : NativeResult unit :=
  _ ← check_checkpoint_registry_invariants e;
  _ ← validate_mutable_state (re_atom_ids e) (re_atoms e);
  _ ← Join.validate_node_maps k (re_source_nodes e) (re_data_nodes e);
  reject_if (negb (re_initialized e)) (invariant "production rule engine is not initialized").

End Engine.
