(* ===== verification/RuleSpec.v ===== *)
(** * What validation of a rule program guarantees

    [program_ok] is what [RuleProgram::new] checks, as a statement about the
    program instead of a sequence of tests: dense ids, signatures that fit the
    kinds, reciprocal opposites, well-sorted atoms, one sort per variable and
    range-restricted heads. *)

From S2P Require Import Prelude Order Errors Model RuleModel KernelBase.
Import Rule.

(** ** Predicates *)

Record predicate_ok (ps : list RulePredicate) (p : RulePredicate) : Prop := {
  predicate_signature : valid_signature (rp_kind p) (rp_argument_sorts p) = true;
  predicate_opposite o : rp_opposite_predicate_id p = Some o →
    o ≠ rp_predicate_id p ∧ ∃ q, ps !! N.to_nat o = Some q ∧
      rp_opposite_predicate_id q = Some (rp_predicate_id p) ∧ rp_argument_sorts q = rp_argument_sorts p ∧
      opposite_kinds (rp_kind p) (rp_kind q) = true ∧ rp_symbol_id p = rp_symbol_id q ∧ rp_role_id p = rp_role_id q;
  predicate_cardinality : cardinality_kind (rp_kind p) = true →
    ∃ n role filler q, rp_cardinality p = Some n ∧ 0 < n ∧ rp_role_id p = Some role ∧
      rp_filler_predicate_id p = Some filler ∧ filler ≠ rp_predicate_id p ∧
      ps !! N.to_nat filler = Some q ∧ valid_filler p q = true
}.

(** ** Atoms and clauses *)

(** The arguments of an atom have the sorts of its predicate, and the two sides
    of an equality-like atom are in canonical order. *)
Definition ordered_arguments (kind : PredicateKind) (a : RuleAtom) : Prop :=
  ∀ t u rest, ra_arguments a = t :: u :: rest →
    (kind = Equality ∨ kind = Inequality ∨ kind = AnnotatedEquality → ¬ ord_lt u t) ∧
    (kind = OrderingGuard → ¬ ord_le u t).

Definition atom_ok (prog : RuleProgram) (a : RuleAtom) : Prop :=
  ∃ p, predicates prog !! N.to_nat (ra_predicate_id a) = Some p ∧
    term_sort <$> ra_arguments a = rp_argument_sorts p ∧ ordered_arguments (rp_kind p) a.

Definition is_guard (prog : RuleProgram) (a : RuleAtom) : Prop :=
  predicate_kind (ra_predicate_id a) prog = Ok OrderingGuard.

(** A variable occurs in an atom. *)
Definition occurs (v : TermSort * N) (a : RuleAtom) : Prop := v ∈ term_variables (ra_arguments a).

Record clause_ok (prog : RuleProgram) (c : RuleClause) : Prop := {
  clause_atoms a : a ∈ rc_body c ∨ a ∈ rc_head c → atom_ok prog a;
  clause_head_guard a : a ∈ rc_head c → ¬ is_guard prog a;
  clause_sorts v s s' a a' : a ∈ rc_body c ++ rc_head c → a' ∈ rc_body c ++ rc_head c →
    occurs (s, v) a → occurs (s', v) a' → s = s';
  clause_restricted v a : a ∈ rc_head c → occurs v a → ∃ b, b ∈ rc_body c ∧ ¬ is_guard prog b ∧ occurs v b;
  clause_nodup : NoDup (rc_body c);
  clause_no_tautology a : a ∈ rc_body c → a ∉ rc_head c
}.

Record program_ok (prog : RuleProgram) : Prop := {
  program_ids i p : predicates prog !! i = Some p → N.to_nat (rp_predicate_id p) = i;
  program_predicates i p : predicates prog !! i = Some p → predicate_ok (predicates prog) p;
  program_clause_ids i c : clauses prog !! i = Some c → N.to_nat (rc_clause_id c) = i;
  program_clauses c : c ∈ clauses prog → clause_ok prog c
}.

(** ** Signatures *)

Lemma paired_sorts_spec sorts : paired_sorts sorts = true ↔ ∃ s, sorts = [s; s].
Proof.
  destruct sorts as [|a [|b [|]]]; cbn; try naive_solver.
  rewrite bool_decide_eq_true. naive_solver.
Qed.

(** Kinds whose atoms have at least two arguments. *)
Lemma signature_two kind sorts :
  valid_signature kind sorts = true →
  match kind with
  | Equality | Inequality | OrderingGuard | AnnotatedEquality | DataRole | NegatedDataRole => true
  | _ => false
  end = true → ∃ a b rest, sorts = a :: b :: rest.
Proof.
  destruct kind; try done; cbn; intros H _;
    first [apply paired_sorts_spec in H as [s ->] | apply bool_decide_eq_true in H as ->]; eauto.
Qed.

Lemma signature_one kind sorts : valid_signature kind sorts = true → ∃ s rest, sorts = s :: rest.
Proof.
  destruct kind; cbn; intros H;
    first [apply paired_sorts_spec in H as [s ->] | apply bool_decide_eq_true in H as ->
          | destruct sorts; [done|]]; eauto.
Qed.

Lemma predicate_Ok pid prog p : predicate pid prog = Ok p ↔ predicates prog !! N.to_nat pid = Some p.
Proof. apply ok_or_Ok. Qed.

Lemma predicate_kind_Ok pid prog kind :
  predicate_kind pid prog = Ok kind ↔ ∃ p, predicates prog !! N.to_nat pid = Some p ∧ kind = rp_kind p.
Proof.
  unfold predicate_kind. rewrite outcome_bind_Ok. setoid_rewrite predicate_Ok. split.
  - intros (p & Hp & [= <-]). eauto.
  - intros (p & Hp & ->). eauto.
Qed.

(** ** Scanning a clause *)

(** What the scan of the atoms [done_] and the terms [seen] has recorded. *)
Record scanned (occ : (TermSort * N) → Prop) (body head : (TermSort * N) → Prop) (c : ClauseScan) : Prop := {
  scanned_sorts v s : variable_sorts c !! v = Some s ↔ occ (s, v);
  scanned_one v s s' : occ (s, v) → occ (s', v) → s = s';
  scanned_body v : v ∈ body_variables c ↔ body v;
  scanned_head v : v ∈ head_variables c ↔ head v
}.

Lemma scan_term_spec is_head kind occ body hd c t c' :
  scanned occ body hd c → scan_term is_head kind c t = Ok c' →
  scanned (λ v, occ v ∨ variable_key t = Some v)
    (λ v, body v ∨ (is_head = false ∧ kind ≠ OrderingGuard ∧ variable_key t = Some v))
    (λ v, hd v ∨ (is_head = true ∧ variable_key t = Some v)) c'.
Proof.
  intros Hc. unfold scan_term. destruct (variable_key t) as [[s v]|] eqn:Ht; cbn.
  2: { intros [= <-]. destruct Hc as [Hs Ho Hb Hh]. split; intros; naive_solver. }
  destruct (match variable_sorts c !! v with Some s' => negb (bool_decide (s' = s)) | None => false end) eqn:Ek;
    [done|]. cbn. intros [= <-].
  assert (∀ s', occ (s', v) → s' = s) as Hone.
  { intros s' Hs'. apply (scanned_sorts _ _ _ _ Hc) in Hs'. rewrite Hs' in Ek.
    by apply negb_false_iff, bool_decide_eq_true in Ek. }
  assert (∀ v' s', <[v := s]> (variable_sorts c) !! v' = Some s' ↔ occ (s', v') ∨ Some (s, v) = Some (s', v')) as Hins.
  { intros v' s'. destruct (decide (v' = v)) as [->|Hne].
    - rewrite lookup_insert_eq. split; [intros [= ->]; by right|]. intros [Ho|[= ->]]; [|done]. f_equal. by rewrite (Hone _ Ho).
    - rewrite lookup_insert_ne by done. rewrite (scanned_sorts _ _ _ _ Hc). naive_solver. }
  assert (∀ v' s1 s2, occ (s1, v') ∨ Some (s, v) = Some (s1, v') → occ (s2, v') ∨ Some (s, v) = Some (s2, v') → s1 = s2) as Huniq.
  { intros v' s1 s2 [H1|[= <- <-]] [H2|H2]; [by eapply (scanned_one _ _ _ _ Hc)| | |by simplify_eq].
    - injection H2 as <- <-. by apply Hone.
    - symmetry. by apply Hone. }
  pose proof (scanned_body _ _ _ _ Hc) as Hb. pose proof (scanned_head _ _ _ _ Hc) as Hh.
  destruct is_head; [|case_bool_decide]; (split; [intros v' s' | exact Huniq | intros v' | intros v']);
    destruct (variable_sorts c !! v); cbn; try apply Hins; rewrite ?elem_of_union, ?elem_of_singleton, ?Hb, ?Hh; naive_solver.
Qed.

Lemma scan_terms_spec is_head kind occ body hd c ts c' :
  scanned occ body hd c → foldM (scan_term is_head kind) ts c = Ok c' →
  scanned (λ v, occ v ∨ v ∈ term_variables ts)
    (λ v, body v ∨ (is_head = false ∧ kind ≠ OrderingGuard ∧ v ∈ term_variables ts))
    (λ v, hd v ∨ (is_head = true ∧ v ∈ term_variables ts)) c'.
Proof.
  revert occ body hd c. induction ts as [|t ts IH]; intros occ body hd c Hc; cbn.
  { intros [= <-]. destruct Hc as [Hs Ho Hb Hh]. unfold term_variables. cbn.
    split; intros; rewrite ?elem_of_nil in *; naive_solver. }
  intros (c1 & H1 & H2)%outcome_bind_Ok. specialize (IH _ _ _ _ (scan_term_spec _ _ _ _ _ _ _ _ Hc H1) H2).
  destruct IH as [Hs Ho Hb Hh].
  assert (∀ v, v ∈ term_variables (t :: ts) ↔ variable_key t = Some v ∨ v ∈ term_variables ts) as Hv.
  { intros v. unfold term_variables. cbn. destruct (variable_key t); [rewrite elem_of_cons|]; naive_solver. }
  split; intros *; rewrite ?Hv; [rewrite Hs|intros H3 H4; eapply Ho|rewrite Hb|rewrite Hh]; naive_solver.
Qed.

(** The scan of an atom adds its variables. *)
Lemma scan_atom_spec prog is_head occ body hd c a c' :
  scanned occ body hd c → scan_atom prog is_head c a = Ok c' →
  (∃ kind, validate_atom a prog = Ok tt ∧ predicate_kind (ra_predicate_id a) prog = Ok kind ∧
    (is_head = true → kind ≠ OrderingGuard)) ∧
  scanned (λ v, occ v ∨ occurs v a)
    (λ v, body v ∨ (is_head = false ∧ ¬ is_guard prog a ∧ occurs v a))
    (λ v, hd v ∨ (is_head = true ∧ occurs v a)) c'.
Proof.
  intros Hc H. unfold scan_atom in H. apply outcome_bind_Ok in H as ([] & Hv & H).
  apply outcome_bind_Ok in H as (kind & Hk & H). apply outcome_bind_Ok in H as ([] & Hg & H).
  apply reject_if_Ok, andb_false_iff in Hg. split.
  { exists kind. split_and!; [done|done|]. intros -> ->. by destruct Hg as [|Hg%bool_decide_eq_false]. }
  apply (scan_terms_spec _ _ _ _ _ _ _ _ Hc) in H as [Hs Ho Hb Hh].
  assert (is_guard prog a ↔ kind = OrderingGuard) as Hgk by (unfold is_guard; rewrite Hk; naive_solver).
  unfold occurs. split; [done|done|intros v; rewrite Hb|done]. rewrite Hgk. done.
Qed.

Lemma scan_atoms_spec prog is_head occ body hd c atoms c' :
  scanned occ body hd c → foldM (scan_atom prog is_head) atoms c = Ok c' →
  (∀ a, a ∈ atoms → validate_atom a prog = Ok tt ∧ (is_head = true → ¬ is_guard prog a)) ∧
  scanned (λ v, occ v ∨ ∃ a, a ∈ atoms ∧ occurs v a)
    (λ v, body v ∨ (is_head = false ∧ ∃ a, a ∈ atoms ∧ ¬ is_guard prog a ∧ occurs v a))
    (λ v, hd v ∨ (is_head = true ∧ ∃ a, a ∈ atoms ∧ occurs v a)) c'.
Proof.
  revert occ body hd c. induction atoms as [|a atoms IH]; intros occ body hd c Hc; cbn.
  { intros [= <-]. split; [set_solver|]. destruct Hc as [Hs Ho Hb Hh]. split; intros *.
    - rewrite Hs. set_solver.
    - intros [?|(? & []%elem_of_nil & _)] [?|(? & []%elem_of_nil & _)]. by eapply Ho.
    - rewrite Hb. set_solver.
    - rewrite Hh. set_solver. }
  intros (c1 & H1 & H2)%outcome_bind_Ok. apply (scan_atom_spec _ _ _ _ _ _ _ _ Hc) in H1 as [(kind & Hv & Hk & Hg) Hc1].
  apply (IH _ _ _ _ Hc1) in H2 as [Hall [Hs Ho Hb Hh]]. split.
  { intros b [->|Hb']%elem_of_cons; [|by apply Hall]. split; [done|]. intros Hi Hgb. unfold is_guard in Hgb.
    apply Hg; [done|congruence]. }
  assert (∀ (P : RuleAtom → Prop), (∃ b, b ∈ a :: atoms ∧ P b) ↔ P a ∨ ∃ b, b ∈ atoms ∧ P b) as Hex.
  { intros P. setoid_rewrite elem_of_cons. naive_solver. }
  split; [intros v s|intros v s s'|intros v|intros v]; rewrite ?Hex.
  - rewrite Hs. tauto.
  - intros H3 H4. apply (Ho v); tauto.
  - rewrite Hb. tauto.
  - rewrite Hh. tauto.
Qed.

(** ** Validation *)

Lemma validate_atom_ok a prog : validate_atom a prog = Ok tt → atom_ok prog a.
Proof.
  intros H. unfold validate_atom in H. apply outcome_bind_Ok in H as (p & Hp%predicate_Ok & H).
  apply outcome_bind_Ok in H as (_ & _ & H). apply outcome_bind_Ok in H as ([] & Hs & H).
  apply reject_if_Ok, negb_false_iff, bool_decide_eq_true in Hs.
  exists p. split_and!; [done|done|]. intros t u rest Ea. rewrite Ea in H. cbn in H.
  apply outcome_bind_Ok in H as ([] & He & H). apply outcome_bind_Ok in H as ([] & Hg & Ha).
  split; [intros [Hk|[Hk|Hk]]|intros Hk]; rewrite Hk in *; cbn in He, Hg, Ha;
    [apply reject_if_Ok, bool_decide_eq_false in He|apply reject_if_Ok, bool_decide_eq_false in He
    |apply reject_if_Ok, bool_decide_eq_false in Ha|apply reject_if_Ok, bool_decide_eq_false in Hg]; done.
Qed.

Lemma strictly_canonical_NoDup atoms : strictly_canonical_atoms atoms = true → NoDup atoms.
Proof.
  unfold strictly_canonical_atoms. intros H%strictly_ascending_spec. apply StronglySorted_lt_NoDup in H.
  by apply NoDup_fmap_1 in H.
Qed.

Lemma validate_clause_ok c prog : validate_clause c prog = Ok tt → clause_ok prog c.
Proof.
  intros H. unfold validate_clause in H. apply outcome_bind_Ok in H as ([] & Hcan & H).
  apply outcome_bind_Ok in H as ([] & Htaut & H). apply outcome_bind_Ok in H as (s1 & H1 & H).
  apply outcome_bind_Ok in H as (s2 & H2 & H). apply outcome_bind_Ok in H as (n & _ & H).
  apply outcome_bind_Ok in H as ([] & _ & Hsub).
  apply reject_if_Ok, orb_false_iff in Hcan as [Hbody%negb_false_iff _].
  apply reject_if_Ok, negb_false_iff, bool_decide_eq_true in Hsub. apply reject_if_Ok in Htaut.
  apply (scan_atoms_spec _ _ (λ _, False) (λ _, False) (λ _, False)) in H1 as [Hb1 Hs1]; [|split; set_solver].
  apply (scan_atoms_spec _ _ _ _ _ _ _ _ Hs1) in H2 as [Hb2 [Hs Ho Hb Hh]]. split.
  - intros a [Ha|Ha]; [destruct (Hb1 _ Ha)|destruct (Hb2 _ Ha)]; by apply validate_atom_ok.
  - intros a Ha. by apply Hb2.
  - intros v s s' a a' Ha Ha' Hv Hv'. apply (Ho v); set_solver.
  - intros v a Ha Hv. assert (v ∈ head_variables s2) as Hin by (apply Hh; set_solver).
    apply Hsub, Hb in Hin. naive_solver.
  - by apply strictly_canonical_NoDup.
  - intros a Ha Hin. assert (existsb (λ a, bool_decide (a ∈ rc_head c)) (rc_body c) = true) as E; [|congruence].
    apply existsb_exists. exists a. split; [by apply list_elem_of_In|by apply bool_decide_eq_true].
Qed.

(** ** Programs *)

Lemma validate_clauses_ok seen cs prog :
  validate_clauses_from seen cs prog = Ok tt → ∀ c, c ∈ cs → clause_ok prog c.
Proof.
  revert seen. induction cs as [|c cs IH]; intros seen H; [set_solver|]. cbn in H. inv_ok.
  intros c' [->|Hc']%elem_of_cons; [by apply validate_clause_ok|]. by eapply IH.
Qed.

Lemma present_true {A} (o : option A) : present o = true ↔ is_Some o.
Proof. destruct o; cbn; split; naive_solver. Qed.

(** What the loop over the predicates checks. *)
Lemma validate_predicate_ok i p :
  validate_predicate (i, p) = Ok tt →
  N.to_nat (rp_predicate_id p) = i ∧ valid_signature (rp_kind p) (rp_argument_sorts p) = true ∧
  (cardinality_kind (rp_kind p) = true →
    ∃ n role filler, rp_cardinality p = Some n ∧ 0 < n ∧ rp_role_id p = Some role ∧ rp_filler_predicate_id p = Some filler).
Proof.
  unfold validate_predicate, validate_predicate_signature. intros H.
  apply outcome_bind_Ok in H as ([] & Hi & H). apply outcome_bind_Ok in H as ([] & Hs & H).
  apply reject_if_Ok, negb_false_iff, bool_decide_eq_true in Hi. apply reject_if_Ok, negb_false_iff in Hs.
  split_and!; [done|done|]. intros Hk. unfold validate_predicate_semantics in H. rewrite Hk in H.
  apply outcome_bind_Ok in H as (_ & _ & H). apply outcome_bind_Ok in H as ([] & Hc & _). apply reject_if_Ok in Hc.
  rewrite !orb_false_iff, bool_decide_eq_false, !negb_false_iff, !present_true in Hc.
  destruct Hc as [[[Hz [n Hn]] [role Hr]] [filler Hf]]. exists n, role, filler. split_and!; [done| |done|done].
  destruct n; [congruence|lia].
Qed.

Lemma validate_opposite_ok ps p o :
  validate_opposite ps p = Ok tt → rp_opposite_predicate_id p = Some o →
  o ≠ rp_predicate_id p ∧ ∃ q, ps !! N.to_nat o = Some q ∧
    rp_opposite_predicate_id q = Some (rp_predicate_id p) ∧ rp_argument_sorts q = rp_argument_sorts p ∧
    opposite_kinds (rp_kind p) (rp_kind q) = true ∧ rp_symbol_id p = rp_symbol_id q ∧ rp_role_id p = rp_role_id q.
Proof.
  unfold validate_opposite. intros H Ho. rewrite Ho in H. apply outcome_bind_Ok in H as ([] & Hne & H).
  apply outcome_bind_Ok in H as (q & Hq%ok_or_Ok & H). apply reject_if_Ok, bool_decide_eq_false in Hne.
  apply reject_if_Ok in H. rewrite !orb_false_iff, !negb_false_iff, !bool_decide_eq_true in H.
  split; [done|]. exists q. naive_solver.
Qed.

(** A program that [RuleProgram::new] accepts is well formed, and it holds the
    predicates and clauses it was given. *)
Lemma new_program_ok ps cs prog :
  new_program ps cs = Ok prog → prog = mkRuleProgram ps cs ∧ program_ok prog.
Proof.
  intros H. unfold new_program in H. apply outcome_bind_Ok in H as ([] & Hp & H).
  apply outcome_bind_Ok in H as ([] & Ho & H). apply outcome_bind_Ok in H as ([] & Hi & H).
  apply outcome_bind_Ok in H as ([] & Hr & H). apply outcome_bind_Ok in H as ([] & Hc & [= <-]).
  apply iterM_Ok in Hp, Ho, Hi, Hr. rewrite !Forall_forall in *.
  assert (∀ A (l : list A) i x, l !! i = Some x → (i, x) ∈ imap pair l) as Hpair.
  { intros A l i x Hx. apply elem_of_lookup_imap. eauto. }
  split; [done|]. split; cbn [predicates clauses].
  - intros i p Hl. by apply validate_predicate_ok, Hp, Hpair.
  - intros i p Hl. destruct (validate_predicate_ok i p) as (Hid & Hsig & Hcard); [by apply Hp, Hpair|].
    assert (p ∈ ps) as Hin by (by eapply list_elem_of_lookup_2). split; [done|intros o; by apply validate_opposite_ok, Ho|].
    intros (n & role & filler & Hn & Hpos & Hrole & Hf)%Hcard. specialize (Hr _ Hin). cbn in Hr. rewrite Hf in Hr.
    apply outcome_bind_Ok in Hr as ([] & Hne & Hr). apply outcome_bind_Ok in Hr as (q & Hq%predicate_Ok & Hr).
    apply reject_if_Ok, bool_decide_eq_false in Hne. apply reject_if_Ok, negb_false_iff in Hr.
    exists n, role, filler, q. done.
  - intros i c Hl. specialize (Hi _ (Hpair _ _ _ _ Hl)). by apply reject_if_Ok, negb_false_iff, bool_decide_eq_true in Hi.
  - by eapply validate_clauses_ok.
Qed.

(** ** Validation never panics *)

Lemma validate_predicate_not_crash entry : validate_predicate entry ≠ Crash.
Proof.
  destruct entry as [i p]. unfold validate_predicate, validate_predicate_signature. apply bind_not_crash; [not_crash|intros _ _].
  apply bind_not_crash; [not_crash|intros [] Hs%reject_if_Ok%negb_false_iff].
  unfold validate_predicate_semantics, validate_annotation. not_crash.
  unfold index_or_crash. apply signature_one in Hs as (s & rest & ->). done.
Qed.

Lemma validate_atom_not_crash a prog :
  (∀ i p, predicates prog !! i = Some p → valid_signature (rp_kind p) (rp_argument_sorts p) = true) →
  validate_atom a prog ≠ Crash.
Proof.
  intros Hsig. unfold validate_atom. apply bind_not_crash; [not_crash|]. intros p Hp%predicate_Ok.
  apply bind_not_crash; [not_crash|]. intros [] Hl%reject_if_Ok%negb_false_iff%bool_decide_eq_true.
  apply bind_not_crash; [not_crash|]. intros [] _. pose proof (signature_two _ _ (Hsig _ _ Hp)) as Htwo.
  assert (match rp_kind p with Equality | Inequality | OrderingGuard | AnnotatedEquality => true | _ => false end = true →
    ∃ t u rest, ra_arguments a = t :: u :: rest) as Hargs.
  { intros Hk. destruct Htwo as (s & s' & rest & E); [by destruct (rp_kind p)|]. unfold arity in Hl. rewrite E in Hl.
    destruct (ra_arguments a) as [|t [|u l]]; try done. eauto. }
  destruct (rp_kind p); cbn in Hargs |- *; try done; destruct (Hargs eq_refl) as (t & u & rest & ->); cbn; not_crash.
Qed.

Lemma new_program_not_crash ps cs : new_program ps cs ≠ Crash.
Proof.
  unfold new_program. apply bind_not_crash.
  { apply iterM_not_crash. intros e _. apply validate_predicate_not_crash. }
  intros [] Hp%iterM_Ok. rewrite Forall_forall in Hp.
  apply bind_not_crash; [apply iterM_not_crash; intros p _; unfold validate_opposite; not_crash|]. intros [] _.
  apply bind_not_crash; [not_crash|]. intros [] _. apply bind_not_crash.
  { apply iterM_not_crash. intros p _. unfold predicate. not_crash. }
  intros [] _. apply bind_not_crash; [|done]. unfold validate_clauses. cbn.
  generalize (@nil (list RuleAtom * list RuleAtom * list N)). set (prog := mkRuleProgram ps cs).
  assert (∀ a, validate_atom a prog ≠ Crash) as Ha.
  { intros a. apply validate_atom_not_crash. intros i p Hl. cbn in Hl. apply (validate_predicate_ok i), Hp, elem_of_lookup_imap. eauto. }
  assert (∀ h l c, foldM (scan_atom prog h) l c ≠ Crash) as Hscan.
  { intros h l c. apply foldM_not_crash. intros a c' _. unfold scan_atom, predicate_kind, predicate, scan_term. 
    apply bind_not_crash; [apply Ha|]. intros [] _. not_crash. }
  generalize cs at 1. intros l. induction l as [|c l IH]; intros seen; cbn; [done|].
  apply bind_not_crash; [not_crash|intros _ _]. apply bind_not_crash; [|intros _ _; apply IH].
  unfold validate_clause. repeat (apply bind_not_crash; [first [apply Hscan|not_crash]|intros ? ?]). not_crash.
Qed.
