(* ===== verification/PlanSpec.v ===== *)
(** * What the join planner guarantees

    Every plan visits each other body atom of its clause once, the positions it
    marks as bound are the ones that are bound, and a filter waits until its
    variables are bound as long as a stored atom is left.  The planner ends and
    answers on every clause that [RuleClause::new] built. *)

From S2P Require Import Prelude Order Errors Model RuleModel RulePlans KernelBase RuleSpec.
Import Rule Plans.

(** ** Clauses that the constructor built *)

Definition built (c : RuleClause) : Prop :=
  ∃ cid body head provenance order, new_clause cid body head provenance order = Ok c.

Lemma length_range n : length (range n) = n.
Proof. unfold range. by rewrite length_fmap, length_seq. Qed.

Lemma elem_of_range n i : i ∈ range n ↔ (N.to_nat i < n)%nat.
Proof.
  unfold range. rewrite list_elem_of_fmap. setoid_rewrite elem_of_seq. split.
  - intros (j & -> & ?). lia.
  - intros Hi. exists (N.to_nat i). lia.
Qed.

Lemma NoDup_range n : NoDup (range n).
Proof. unfold range. apply NoDup_fmap; [apply _|apply NoDup_seq]. Qed.

Lemma built_spec c :
  built c → rc_join_order c ≡ₚ range (length (rc_body c)) ∧ N.of_nat (length (rc_body c)) ≤ u32_max.
Proof.
  intros (cid & body & hd & provenance & order & H). unfold new_clause in H.
  do 3 apply outcome_bind_Ok in H as (_ & _ & H). apply outcome_bind_Ok in H as (n & [_ Hn]%ok_or_Ok%u32_try_from_Some & H).
  apply outcome_bind_Ok in H as ([] & Ho & [= <-]). apply reject_if_Ok, negb_false_iff, bool_decide_eq_true in Ho. cbn [rc_join_order rc_body].
  split; [|done]. by rewrite <-Ho, sort_Permutation.
Qed.

(** The arity of the atoms of a clause fits a [u32]. *)
Definition narrow (c : RuleClause) : Prop :=
  ∀ a, a ∈ rc_body c → N.of_nat (length (ra_arguments a)) ≤ u32_max.

(** ** Schedules *)

Definition virtual (prog : RuleProgram) (a : RuleAtom) : Prop :=
  ∃ kind, predicate_kind (ra_predicate_id a) prog = Ok kind ∧ is_virtual_filter kind = true.

Definition body_atom (c : RuleClause) (i : N) : option RuleAtom := rc_body c !! N.to_nat i.

(** The positions of constants and of bound variables, in ascending order. *)
Definition bound_at (bound : gset (TermSort * N)) (t : Term) : bool :=
  match variable_key t with None => true | Some v => bool_decide (v ∈ bound) end.

(** [schedule bound steps]: the steps follow the atoms that bind [bound]. *)
Inductive schedule (prog : RuleProgram) (c : RuleClause) : gset (TermSort * N) → list JoinStep → Prop :=
| schedule_nil bound : schedule prog c bound []
| schedule_cons bound step steps a :
    body_atom c (js_body_index step) = Some a →
    StronglySorted ord_lt (js_bound_positions step) →
    (∀ p, p ∈ js_bound_positions step ↔ ∃ t, ra_arguments a !! N.to_nat p = Some t ∧ bound_at bound t = true) →
    (virtual prog a → atom_variables a ⊆ bound ∨
      ∀ step' b, step' ∈ steps → body_atom c (js_body_index step') = Some b → virtual prog b) →
    schedule prog c (bound ∪ atom_variables a) steps →
    schedule prog c bound (step :: steps).

(** ** Ranks *)

Lemma join_ranks_Some order i : i ∈ order → is_Some (join_ranks order !! i).
Proof.
  unfold join_ranks. assert (∀ (l : list N) n (m : gmap N nat), (i ∈ l ∨ is_Some (m !! i)) →
    is_Some (foldl (λ m entry, <[entry.2 := entry.1]> m) m (imap (λ j x, (n + j, x)%nat) l) !! i)) as H.
  { induction l as [|x l IH]; intros n m Hi; cbn; [by destruct Hi as [?%elem_of_nil|?]|].
    rewrite (imap_ext _ (λ j y, (S n + j, y)%nat)) by (intros; cbn; f_equal; lia). apply IH.
    destruct (decide (x = i)) as [->|Hne]; [right; rewrite lookup_insert_eq; eauto|].
    rewrite lookup_insert_ne by done. destruct Hi as [[->|Hi]%elem_of_cons|Hi]; [done|by left|by right]. }
  intros Hi. specialize (H order 0%nat ∅ (or_introl Hi)). done.
Qed.

Lemma prod_lt_fst `{OrdLaws A, OrdLaws B} (p q : A * B) : ord_lt p.1 q.1 → ord_lt p q.
Proof. intros E. unfold ord_lt in *. change (prod_cmp p q = Lt). unfold prod_cmp. by rewrite E. Qed.

(** The planner's first criterion: filters with unbound variables come last. *)
Definition rank_flag (r : PlanRank) : N := r.1.1.1.1.

Lemma rank_flag_lt (r s : PlanRank) : rank_flag r < rank_flag s → ord_lt r s.
Proof. intros Hlt. do 4 apply prod_lt_fst. by apply ord_lt_N. Qed.

(** A loop that collects the positions of the elements that satisfy [p]. *)
Lemma collect_positions {A} (f : list N → nat * A → NativeResult (list N)) (p : A → bool) (l : list A) e :
  N.of_nat (length l) ≤ u32_max →
  (∀ acc i x, l !! i = Some x →
    f acc (i, x) = if p x then position ← ok_or (u32_try_from i) e; Ok (acc ++ [position]) else Ok acc) →
  ∃ r, foldM f (imap pair l) [] = Ok r ∧ StronglySorted ord_lt r ∧ ∀ i, i ∈ r ↔ ∃ x, l !! N.to_nat i = Some x ∧ p x = true.
Proof.
  intros Hlen Hf.
  assert (∀ ts n acc, (∀ j x, ts !! j = Some x → l !! (n + j)%nat = Some x) → length l = (n + length ts)%nat →
    StronglySorted ord_lt acc → (∀ i, i ∈ acc ↔ (N.to_nat i < n)%nat ∧ ∃ x, l !! N.to_nat i = Some x ∧ p x = true) →
    ∃ r, foldM f (imap (λ j x, ((n + j)%nat, x)) ts) acc = Ok r ∧ StronglySorted ord_lt r ∧
      ∀ i, i ∈ r ↔ ∃ x, l !! N.to_nat i = Some x ∧ p x = true) as H.
  { induction ts as [|t ts IH]; intros n acc Hts Hn Hs Hacc; cbn.
    { exists acc. split_and!; [done|done|]. intros i. rewrite Hacc. split; [naive_solver|]. intros (x & Hx & Hp).
      apply lookup_lt_Some in Hx as ?. cbn in Hn. split; [lia|eauto]. }
    pose proof (Hts 0%nat t eq_refl) as Ht. rewrite Nat.add_0_r in *. cbn in Hn.
    rewrite (imap_ext _ (λ j u, ((S n + j)%nat, u))) by (intros; cbn; f_equal; lia). rewrite Hf by done.
    assert (∀ j x, ts !! j = Some x → l !! (S n + j)%nat = Some x) as Hts'.
    { intros j x Hj. rewrite <-(Hts (S j) x Hj). f_equal. lia. }
    destruct (p t) eqn:Ep.
    - apply lookup_lt_Some in Ht as Hlt. unfold u32_try_from. destruct (N.leb_spec (N.of_nat n) u32_max); [|lia].
      cbn [ok_or]. rewrite !bind_Ok_l. apply IH; [done|lia| |].
      + apply StronglySorted_app_iff. split_and!; [done|repeat constructor|].
        intros x y [Hx _]%Hacc ->%list_elem_of_singleton. apply ord_lt_N. lia.
      + intros i. rewrite elem_of_app, list_elem_of_singleton, Hacc. split.
        * intros [[Hi Hx]| ->]; [split; [lia|done]|]. rewrite Nat2N.id. split; [lia|eauto].
        * intros [Hi Hx]. destruct (decide (N.to_nat i = n)) as [<-|]; [right; lia|left; split; [lia|done]].
    - rewrite bind_Ok_l. apply IH; [done|lia|done|]. intros i. rewrite Hacc. split; [naive_solver lia|].
      intros [Hi (x & Hx & Hp)]. split; [|eauto]. destruct (decide (N.to_nat i = n)) as [<-|]; [congruence|lia]. }
  apply (H l 0%nat []); [done|done|constructor|]. intros i. rewrite elem_of_nil. naive_solver lia.
Qed.

Lemma collect_indices {A} (l : list A) (ids : list nat) :
  (∀ i, i ∈ ids → is_Some (l !! i)) →
  ∃ r, collectM (E:=NativeError) (index_or_crash l) ids = Ok r ∧ ∀ x, x ∈ r ↔ ∃ i, i ∈ ids ∧ l !! i = Some x.
Proof.
  induction ids as [|i ids IH]; intros Hids; cbn [collectM]; [exists []; split; [done|]; set_solver|].
  destruct (Hids i) as [x Hi]; [by left|]. rewrite (proj2 (index_or_crash_Ok l i x) Hi), bind_Ok_l.
  destruct IH as (r & -> & Hr); [intros j Hj; apply Hids; by right|]. exists (x :: r). split; [done|].
  intros y. rewrite elem_of_cons, Hr. split.
  - intros [->|(j & Hj & Hy)]; [exists i|exists j]; set_solver.
  - intros (j & [->|Hj]%elem_of_cons & Hy); [left; congruence|right; eauto].
Qed.

Section planner.
Context (prog : RuleProgram) (c : RuleClause) (ranks : gmap N nat).
Hypothesis Hatoms : ∀ a, a ∈ rc_body c → atom_ok prog a.
Hypothesis Hnarrow : narrow c.
Hypothesis Hranks : ∀ i, (N.to_nat i < length (rc_body c))%nat → is_Some (ranks !! i).

Lemma body_atom_lookup i : (N.to_nat i < length (rc_body c))%nat → ∃ a, body_atom c i = Some a ∧ a ∈ rc_body c.
Proof.
  intros [a Ha]%lookup_lt_is_Some. exists a. split; [done|]. by eapply list_elem_of_lookup_2.
Qed.

Lemma plan_rank_Ok bound i :
  (N.to_nat i < length (rc_body c))%nat →
  ∃ r a, plan_rank prog c ranks bound i = Ok r ∧ body_atom c i = Some a ∧
    (rank_flag r = 0 ∨ rank_flag r = 1) ∧ (rank_flag r = 1 ↔ virtual prog a ∧ ¬ atom_variables a ⊆ bound).
Proof.
  intros Hi. destruct (body_atom_lookup i Hi) as (a & Ha & Hin). destruct (Hatoms a Hin) as (p & Hp & _ & _).
  destruct (Hranks i Hi) as [rank Hrank]. unfold plan_rank, index_or_crash, body_atom in *. rewrite Ha. cbn.
  unfold predicate. rewrite Hp. cbn. rewrite Hrank. cbn. eexists _, a. split_and!; [done|done| |]; unfold rank_flag; cbn.
  { destruct (_ && _); auto. }
  assert (virtual prog a ↔ is_virtual_filter (rp_kind p) = true) as ->.
  { unfold virtual. setoid_rewrite predicate_kind_Ok. rewrite Hp. naive_solver. }
  assert (atom_variables a ⊆ bound ↔ size (atom_variables a ∖ bound) = 0%nat) as ->.
  { rewrite size_empty_iff. split; [set_solver|]. intros He v Hv. destruct (decide (v ∈ bound)); [done|].
    destruct (not_elem_of_empty (C:=gset (TermSort * N)) v). rewrite <-He. by apply elem_of_difference. }
  destruct (is_virtual_filter (rp_kind p)), (Nat.eqb_spec (size (atom_variables a ∖ bound)) 0); cbn; naive_solver.
Qed.

Lemma select_atom_spec bound remaining selected :
  (∀ i, i ∈ remaining → (N.to_nat i < length (rc_body c))%nat) →
  ∃ o, select_atom prog c ranks bound remaining selected = Ok o ∧
    (o = selected ∨ ∃ i r, o = Some (i, r) ∧ i ∈ remaining ∧ plan_rank prog c ranks bound i = Ok r) ∧
    ∀ i r, (i ∈ remaining ∧ plan_rank prog c ranks bound i = Ok r) ∨ selected = Some (i, r) →
      ∃ i' r', o = Some (i', r') ∧ ord_le r' r.
Proof.
  revert selected. induction remaining as [|i remaining IH]; intros selected Hin; cbn.
  { exists selected. split_and!; [done|by left|]. intros j r [[[]%elem_of_nil _]| ->]. by exists j, r. }
  destruct (plan_rank_Ok bound i) as (r & a & Hr & _); [apply Hin; by left|]. rewrite Hr. cbn.
  set (better := match selected with None => true | Some (_, best) => bool_decide (ord_lt r best) end).
  destruct (IH (if better then Some (i, r) else selected)) as (o & -> & Hfrom & Hmin); [set_solver|].
  exists o. split; [done|]. split.
  - destruct Hfrom as [->|(j & s & -> & Hj & Hs)]; [|right; exists j, s; set_solver].
    destruct better; [right; exists i, r; set_solver|by left].
  - assert (∃ j s, (if better then Some (i, r) else selected) = Some (j, s) ∧ ord_le s r ∧
      ∀ j' s', selected = Some (j', s') → ord_le s s') as (j & s & Hsel & Hle & Hold).
    { subst better. destruct selected as [[j best]|]; [case_bool_decide as Hb|].
      - exists i, r. split_and!; [done|done|]. intros ? ? [= <- <-]. apply ord_le_lt_eq. by left.
      - exists j, best. split_and!; [done| |by intros ? ? [= <- <-]]. by destruct (ord_le_total best r) as [|[|<-]%ord_le_lt_eq].
      - exists i, r. done. }
    destruct (Hmin j s (or_intror Hsel)) as (i' & r' & -> & Hle').
    intros j' s' [[[->|Hj']%elem_of_cons Hs']|Hs'].
    + rewrite Hr in Hs'. injection Hs' as <-. exists i', r'. split; [done|]. by etrans.
    + apply (Hmin j' s'). by left.
    + exists i', r'. split; [done|]. etrans; [done|]. by eapply Hold.
Qed.

Lemma bound_positions_spec bound args :
  N.of_nat (length args) ≤ u32_max →
  ∃ l, bound_positions bound args = Ok l ∧ StronglySorted ord_lt l ∧
    ∀ p, p ∈ l ↔ ∃ t, args !! N.to_nat p = Some t ∧ bound_at bound t = true.
Proof.
  intros Hlen. unfold bound_positions. by eapply collect_positions; [|intros acc i t _; cbn].
Qed.

(** Each turn of the loop schedules one atom, so it ends before its fuel. *)
Lemma plan_loop_spec fuel bound remaining steps :
  (size remaining ≤ fuel)%nat → (∀ i, i ∈ remaining → (N.to_nat i < length (rc_body c))%nat) →
  ∃ new, plan_loop fuel prog c ranks bound remaining steps = Ok (steps ++ new) ∧
    js_body_index <$> new ≡ₚ elements remaining ∧ schedule prog c bound new.
Proof.
  revert bound remaining steps. induction fuel as [|fuel IH]; intros bound remaining steps Hsize Hin; cbn.
  { assert (remaining = ∅) as -> by (apply leibniz_equiv, size_empty_iff; lia). exists [].
    rewrite bool_decide_eq_true_2 by done. rewrite app_nil_r, elements_empty. split_and!; [done|done|constructor]. }
  case_bool_decide as He. { subst. exists []. rewrite app_nil_r, elements_empty. split_and!; [done|done|constructor]. }
  destruct (select_atom_spec bound (btree_elements remaining) None) as (o & -> & Hfrom & Hmin).
  { intros i Hi%elem_of_btree_elements. by apply Hin. }
  assert (∃ i r, o = Some (i, r) ∧ i ∈ remaining ∧ plan_rank prog c ranks bound i = Ok r) as (i & r & -> & Hi & Hr).
  { destruct (set_choose_L _ He) as [j Hj]. destruct (plan_rank_Ok bound j) as (s & _ & Hs & _); [by apply Hin|].
    destruct (Hmin j s) as (i & r & -> & _); [left; by rewrite elem_of_btree_elements|].
    destruct Hfrom as [|(i' & r' & [= <- <-] & Hi%elem_of_btree_elements & Hr)]; [done|eauto]. }
  cbn. destruct (plan_rank_Ok bound i) as (r' & a & Hr' & Ha & Hflag & Hfil); [by apply Hin|].
  rewrite Hr in Hr'. injection Hr' as <-. unfold index_or_crash. unfold body_atom in Ha. rewrite Ha. cbn.
  assert (a ∈ rc_body c) as Hain by (by eapply list_elem_of_lookup_2).
  destruct (bound_positions_spec bound (ra_arguments a)) as (l & -> & Hl & Hpos); [by apply Hnarrow|]. cbn.
  unfold new_step. rewrite (proj2 (strictly_ascending_spec l) Hl). cbn.
  destruct (IH (bound ∪ atom_variables a) (remaining ∖ {[i]}) (steps ++ [mkJoinStep i l])) as (new & -> & Hperm & Hsched).
  { rewrite size_difference by set_solver. rewrite size_singleton. lia. }
  { intros j Hj. apply Hin. set_solver. }
  exists (mkJoinStep i l :: new). rewrite <-app_assoc. cbn. split_and!; [done| |].
  - rewrite Hperm. rewrite (union_difference_singleton_L i remaining) at 2 by done.
    by rewrite elements_disj_union, elements_singleton by set_solver.
  - apply schedule_cons with a; [done|done|done| |done]. intros Hv.
    destruct (decide (atom_variables a ⊆ bound)) as [|Hnb]; [by left|]. right. intros step b Hstep Hb.
    assert (js_body_index step ∈ remaining) as Hj.
    { assert (js_body_index step ∈ js_body_index <$> new) as Hj by (by apply list_elem_of_fmap_2).
      rewrite Hperm, elem_of_elements in Hj. set_solver. }
    destruct (plan_rank_Ok bound (js_body_index step)) as (s & b' & Hs & Hb' & Hsf & Hsv); [by apply Hin|].
    rewrite Hb in Hb'. injection Hb' as <-. destruct (Hmin (js_body_index step) s) as (i' & r' & [= <- <-] & Hle).
    { left. by rewrite elem_of_btree_elements. }
    apply Hsv. assert (rank_flag r = 1) as Hr1 by (by apply Hfil). destruct Hsf as [Hs0|]; [|done].
    destruct (proj2 (ord_not_le r s)); [|done]. apply rank_flag_lt. lia.
Qed.
End planner.

(** ** Plans *)

(** What a plan of [c] promises to the join that follows it. *)
Record plan_ok (prog : RuleProgram) (c : RuleClause) (plan : ClauseJoinPlan) : Prop := {
  plan_clause : pl_clause_id plan = rc_clause_id c;
  plan_covers : pl_delta_body_index plan :: (js_body_index <$> pl_steps plan) ≡ₚ range (length (rc_body c));
  plan_schedule : ∃ a, body_atom c (pl_delta_body_index plan) = Some a ∧ schedule prog c (atom_variables a) (pl_steps plan)
}.

Lemma repeats_false indices steps :
  NoDup (js_body_index <$> steps) → (∀ i, i ∈ js_body_index <$> steps → i ∉ indices) → repeats indices steps = false.
Proof.
  revert indices. induction steps as [|step steps IH]; intros indices Hnd Hdis; csimpl in *; [done|].
  apply NoDup_cons in Hnd as [Hn Hnd]. rewrite bool_decide_eq_false_2; [|apply Hdis; by left]. cbn.
  apply IH; [done|]. intros i Hi. rewrite elem_of_union, elem_of_singleton. intros [->|Hi']; [done|].
  eapply Hdis; [by right|done].
Qed.

Section programs.
Context (prog : RuleProgram) (Hprog : program_ok prog).
Hypothesis Hbuilt : ∀ c, c ∈ clauses prog → built c ∧ narrow c.

Lemma clause_body_small c : c ∈ clauses prog → N.of_nat (length (rc_body c)) ≤ u32_max.
Proof. intros Hc. by apply built_spec, (Hbuilt c Hc). Qed.

Lemma body_atom_ok c a : c ∈ clauses prog → a ∈ rc_body c → atom_ok prog a.
Proof. intros Hc Ha. apply (clause_atoms _ _ (program_clauses _ Hprog _ Hc)). by left. Qed.

Lemma compile_clause_plan_ok c trigger :
  c ∈ clauses prog → (N.to_nat trigger < length (rc_body c))%nat →
  ∃ plan, compile_clause_plan prog c trigger = Ok plan ∧ plan_ok prog c plan ∧ pl_delta_body_index plan = trigger.
Proof.
  intros Hc Ht. destruct (Hbuilt c Hc) as [Hb Hn]. destruct (built_spec c Hb) as [Horder Hlen].
  unfold compile_clause_plan. destruct (body_atom_lookup c trigger Ht) as (a & Ha & Hin). unfold body_atom in Ha.
  rewrite Ha. cbn [ok_or]. rewrite bind_Ok_l. unfold u32_try_from. destruct (N.leb_spec (N.of_nat (length (rc_body c))) u32_max); [|lia].
  cbn [ok_or]. rewrite bind_Ok_l. set (remaining := list_to_set _ : gset N).
  assert (∀ i, i ∈ remaining ↔ (N.to_nat i < length (rc_body c))%nat ∧ i ≠ trigger) as Hrem.
  { intros i. subst remaining. rewrite elem_of_list_to_set, list_elem_of_In, filter_In, <-list_elem_of_In, elem_of_range.
    destruct (N.eqb_spec i trigger); naive_solver. }
  assert (trigger ∉ elements remaining) as Hnin by (rewrite elem_of_elements, Hrem; naive_solver).
  assert (trigger :: elements remaining ≡ₚ range (length (rc_body c))) as Hperm.
  { apply NoDup_Permutation; [|apply NoDup_range|].
    - apply NoDup_cons. split; [done|apply NoDup_elements].
    - intros i. rewrite elem_of_cons, elem_of_elements, Hrem, elem_of_range.
      destruct (decide (i = trigger)) as [->|]; naive_solver. }
  destruct (plan_loop_spec prog c (join_ranks (rc_join_order c))) with (fuel := length (rc_body c))
    (bound := atom_variables a) (remaining := remaining) (steps := @nil JoinStep) as (new & -> & Hnew & Hsched).
  { intros b Hb'. by eapply body_atom_ok. }
  { done. }
  { intros i Hi. apply join_ranks_Some. by rewrite Horder, elem_of_range. }
  { apply Permutation_length in Hperm. rewrite length_range in Hperm. cbn in Hperm. unfold size, set_size. cbn. lia. }
  { intros i Hi. by apply Hrem. }
  rewrite app_nil_l, bind_Ok_l. unfold new_plan. rewrite repeats_false.
  - eexists. split_and!; [done| |done]. split; cbn; [done| |].
    + by rewrite Hnew.
    + exists a. done.
  - rewrite Hnew. apply NoDup_elements.
  - intros i. rewrite Hnew, elem_of_singleton. by intros Hi ->.
Qed.
Lemma triggerable_spec a : atom_ok prog a → triggerable prog a = true ↔ ¬ is_guard prog a.
Proof.
  intros (p & Hp & _). unfold triggerable, is_guard, predicate_kind, predicate. rewrite Hp. cbn.
  destruct (rp_kind p); cbn; naive_solver.
Qed.

Lemma clause_triggers_ok c :
  c ∈ clauses prog →
  ∃ l, clause_triggers prog c = Ok l ∧ StronglySorted ord_lt l ∧
    ∀ i, i ∈ l ↔ ∃ a, body_atom c i = Some a ∧ triggerable prog a = true.
Proof.
  intros Hc. unfold clause_triggers. eapply collect_positions; [by apply clause_body_small|].
  intros acc i a Ha. destruct (body_atom_ok c a Hc) as (p & Hp & _); [by eapply list_elem_of_lookup_2|].
  cbn. unfold triggerable, predicate_kind, predicate. rewrite Hp. cbn. by destruct (can_trigger (rp_kind p)).
Qed.

Lemma clause_Ok c : c ∈ clauses prog → clause (rc_clause_id c) prog = Ok c.
Proof.
  intros [i Hi]%list_elem_of_lookup. apply ok_or_Ok. by rewrite (program_clause_ids _ Hprog _ _ Hi).
Qed.

Lemma clause_id_inj c d : c ∈ clauses prog → d ∈ clauses prog → rc_clause_id c = rc_clause_id d → c = d.
Proof. intros Hc%clause_Ok Hd%clause_Ok E. rewrite E in Hc. congruence. Qed.

(** The steps of a schedule pass the checks of [JoinProgram::new]. *)
Lemma validate_steps_ok c bound indices steps :
  schedule prog c bound steps → NoDup (js_body_index <$> steps) →
  (∀ i, i ∈ js_body_index <$> steps → i ∉ indices) → validate_steps c indices steps = Ok tt.
Proof.
  intros Hsched. revert indices.
  induction Hsched as [|bound step steps a Ha Hs Hpos Hv _ IH]; intros indices Hnd Hdis; cbn; [done|].
  csimpl in Hnd. csimpl in Hdis. apply NoDup_cons in Hnd as [Hn Hnd].
  rewrite bool_decide_eq_false_2; [|apply Hdis; by left]. cbn. unfold body_atom in Ha. rewrite Ha. cbn.
  destruct (existsb _ _) eqn:Ep; cbn.
  - apply existsb_exists in Ep as (p & Hp & Hle%Nat.leb_le).
    apply list_elem_of_In, Hpos in Hp as (t & Ht%lookup_lt_Some & _). lia.
  - apply IH; [done|]. intros i Hi. rewrite elem_of_union, elem_of_singleton. intros [->|Hi']; [done|].
    eapply Hdis; [by right|done].
Qed.

Lemma plan_indices c plan :
  plan_ok prog c plan →
  NoDup (js_body_index <$> pl_steps plan) ∧ S (length (pl_steps plan)) = length (rc_body c) ∧
  ∀ i, i ∈ js_body_index <$> pl_steps plan → (N.to_nat i < length (rc_body c))%nat ∧ i ≠ pl_delta_body_index plan.
Proof.
  intros [_ Hcov _]. pose proof (NoDup_range (length (rc_body c))) as Hnd. rewrite <-Hcov in Hnd.
  apply NoDup_cons in Hnd as [Hn Hnd]. apply Permutation_length in Hcov as Hlen. rewrite length_range in Hlen.
  cbn in Hlen. rewrite length_fmap in Hlen. split_and!; [done|done|]. intros i Hi. split; [|by intros ->].
  apply elem_of_range. rewrite <-Hcov. by right.
Qed.

Lemma validate_plan_ok c plan a :
  c ∈ clauses prog → plan_ok prog c plan → body_atom c (pl_delta_body_index plan) = Some a → triggerable prog a = true →
  validate_plan prog plan = Ok tt.
Proof.
  intros Hc Hplan Ha Ht. destruct (plan_indices c plan Hplan) as (Hnd & Hlen & Hin). destruct Hplan as [Hid _ (a' & Ha' & Hsched)].
  unfold validate_plan. rewrite Hid, clause_Ok by done. rewrite bind_Ok_l. unfold body_atom in Ha. rewrite Ha. cbn [ok_or].
  rewrite bind_Ok_l. unfold triggerable in Ht. destruct (predicate_kind _ prog); try done. rewrite bind_Ok_l, Ht. cbn [negb reject_if].
  rewrite bind_Ok_l, bool_decide_eq_true_2 by done. cbn [negb reject_if]. rewrite bind_Ok_l.
  eapply validate_steps_ok; [done|done|]. intros i Hi ->%elem_of_singleton. by destruct (Hin _ Hi).
Qed.

(** ** The compiled program *)

Definition triggered (c : RuleClause) (i : N) : Prop := ∃ a, body_atom c i = Some a ∧ triggerable prog a = true.

Definition inert (c : RuleClause) : Prop := ∀ i, ¬ triggered c i.

Lemma compile_clauses_ok cs acc :
  (∀ c, c ∈ cs → c ∈ clauses prog) → NoDup cs →
  ∃ plans unconditional, foldM (compile_clause prog) cs acc = Ok (acc.1 ++ plans, acc.2 ++ unconditional) ∧
    (∀ plan, plan ∈ plans → ∃ c, c ∈ cs ∧ plan_ok prog c plan ∧ triggered c (pl_delta_body_index plan)) ∧
    (∀ c i, c ∈ cs → triggered c i → ∃ plan, plan ∈ plans ∧ plan_key plan = (rc_clause_id c, i)) ∧
    NoDup (plan_key <$> plans) ∧ sublist unconditional (rc_clause_id <$> cs) ∧
    ∀ c, c ∈ cs → rc_clause_id c ∈ unconditional ↔ inert c.
Proof.
  revert acc. induction cs as [|c cs IH]; intros acc Hcs Hnd; cbn [foldM].
  { exists [], []. rewrite !app_nil_r. destruct acc; cbn. split_and!; try done; try constructor; set_solver. }
  apply NoDup_cons in Hnd as [Hnc Hnd]. assert (c ∈ clauses prog) as Hc by (apply Hcs; by left).
  assert (∀ d, d ∈ cs → rc_clause_id d ≠ rc_clause_id c) as Hids.
  { intros d Hd E. apply Hnc. rewrite <-(clause_id_inj d c); [done|apply Hcs; by right|done|done]. }
  destruct (clause_triggers_ok c Hc) as (l & Hl & Hs & Hin). unfold compile_clause at 2. rewrite Hl, bind_Ok_l.
  assert (∀ d, d ∈ cs → d ∈ clauses prog) as Hcs' by (intros d Hd; apply Hcs; by right).
  case_bool_decide as El.
  - rewrite bind_Ok_l. destruct (IH (acc.1, acc.2 ++ [rc_clause_id c]) Hcs' Hnd) as (plans & unc & -> & H1 & H2 & H3 & H4 & H5).
    exists plans, (rc_clause_id c :: unc). cbn. rewrite <-app_assoc. cbn.
    assert (inert c) as Hc0 by (intros i Hi%Hin; subst l; set_solver). split_and!; [done| | |done| |].
    + intros plan Hp. destruct (H1 plan Hp) as (d & Hd & ?). exists d. split; [by right|done].
    + intros d i [->|Hd]%elem_of_cons Hi; [by destruct (Hc0 i)|by apply H2].
    + by constructor.
    + intros d [->|Hd]%elem_of_cons; [split; [done|by left]|]. rewrite <-H5 by done.
      rewrite elem_of_cons. split; [|by right]. intros [E|]; [|done]. by destruct (Hids d Hd).
  - assert (∃ new, collectM (compile_clause_plan prog c) l = Ok new ∧
      Forall2 (λ i plan, plan_ok prog c plan ∧ pl_delta_body_index plan = i) l new) as (new & Hnew & Hall).
    { clear Hl Hs El. assert (∀ i, i ∈ l → (N.to_nat i < length (rc_body c))%nat) as Hlt.
      { intros i (a & Ha%lookup_lt_Some & _)%Hin. done. }
      clear Hin. induction l as [|i l IHl]; [exists []; by split|]. cbn.
      destruct (compile_clause_plan_ok c i Hc) as (plan & -> & Hplan & Hd); [apply Hlt; by left|].
      destruct IHl as (new & -> & Hall); [set_solver|]. exists (plan :: new). split; [done|]. by constructor. }
    rewrite Hnew, !bind_Ok_l. destruct (IH (acc.1 ++ new, acc.2) Hcs' Hnd) as (plans & unc & -> & H1 & H2 & H3 & H4 & H5).
    exists (new ++ plans), unc. cbn. rewrite <-app_assoc.
    assert (∀ plan, plan ∈ new → plan_ok prog c plan ∧ pl_delta_body_index plan ∈ l) as Hnewin.
    { intros plan [j Hj]%list_elem_of_lookup. destruct (Forall2_lookup_r _ _ _ _ _ Hall Hj) as (i & Hi & Hp & ->).
      split; [done|]. by eapply list_elem_of_lookup_2. }
    assert (plan_key <$> new = pair (rc_clause_id c) <$> l) as Hkeys.
    { clear -Hall. induction Hall as [|i plan l new [Hp <-] _ IHl]; [done|]. csimpl. rewrite IHl. unfold plan_key at 1.
      by rewrite (plan_clause _ _ _ Hp). }
    split_and!; [done| | | | |].
    + intros plan [Hp|Hp]%elem_of_app.
      * destruct (Hnewin plan Hp) as [Hok Hi%Hin]. exists c. split; [by left|done].
      * destruct (H1 plan Hp) as (d & Hd & ?). exists d. split; [by right|done].
    + intros d i [->|Hd]%elem_of_cons Hi.
      * apply Hin in Hi. assert ((rc_clause_id c, i) ∈ plan_key <$> new) as (plan & E & Hp)%list_elem_of_fmap.
        { rewrite Hkeys. by apply list_elem_of_fmap_2. }
        exists plan. split; [set_solver|done].
      * destruct (H2 d i Hd Hi) as (plan & Hp & E). exists plan. split; [set_solver|done].
    + rewrite fmap_app. apply NoDup_app. split_and!; [|intros key Hk1 Hk2|done].
      * rewrite Hkeys. apply NoDup_fmap; [by intros ? ? [= ->]|]. by apply StronglySorted_lt_NoDup.
      * rewrite Hkeys in Hk1. apply list_elem_of_fmap in Hk1 as (i & -> & _).
        apply list_elem_of_fmap in Hk2 as (plan & E & (d & Hd & Hp & _)%H1). injection E as E _.
        destruct (Hids d Hd). by rewrite E, (plan_clause _ _ _ Hp).
    + by apply sublist_cons.
    + intros d [->|Hd]%elem_of_cons; [|by apply H5]. split.
      * intros Hu. assert (rc_clause_id c ∈ rc_clause_id <$> cs) as (d & E & Hd)%list_elem_of_fmap.
        { by eapply elem_of_submseteq, sublist_submseteq. } by destruct (Hids d Hd).
      * intros Hc0. destruct l as [|i l]; [done|]. destruct (Hc0 i). apply Hin. by left.
Qed.

(** The predicate whose rows trigger a plan. *)
Definition triggers_on (plan : ClauseJoinPlan) (pid : N) : Prop :=
  ∃ c a, c ∈ clauses prog ∧ rc_clause_id c = pl_clause_id plan ∧
    body_atom c (pl_delta_body_index plan) = Some a ∧ ra_predicate_id a = pid.

Definition valid_plan (plan : ClauseJoinPlan) : Prop :=
  ∃ c, c ∈ clauses prog ∧ plan_ok prog c plan ∧ triggered c (pl_delta_body_index plan).

Lemma index_plans_ok l n m :
  (∀ plan, plan ∈ l → valid_plan plan) →
  ∃ m', foldM (index_plan prog) (imap (λ j plan, ((n + j)%nat, plan)) l) m = Ok m' ∧
    ∀ pid i, i ∈ default [] (m' !! pid) ↔
      i ∈ default [] (m !! pid) ∨ ∃ j plan, i = (n + j)%nat ∧ l !! j = Some plan ∧ triggers_on plan pid.
Proof.
  revert n m. induction l as [|plan l IH]; intros n m Hl.
  { exists m. split; [done|]. intros pid i. split; [by left|]. intros [|(j & ? & _ & Hj & _)]; [done|]. by rewrite lookup_nil in Hj. }
  destruct (Hl plan) as (c & Hc & Hplan & a & Ha & Ht); [by left|].
  cbn [imap foldM]. rewrite (imap_ext _ (λ j u, ((S n + j)%nat, u))) by (intros; cbn; f_equal; lia).
  unfold index_plan at 2. rewrite (validate_plan_ok c plan a) by done. rewrite bind_Ok_l, (plan_clause _ _ _ Hplan), clause_Ok by done.
  rewrite bind_Ok_l. unfold index_or_crash. unfold body_atom in Ha. rewrite Ha, !bind_Ok_l.
  destruct (IH (S n) (<[ra_predicate_id a := default [] (m !! ra_predicate_id a) ++ [(n + 0)%nat]]> m)) as (m' & -> & Hm').
  { intros p Hp. apply Hl. by right. }
  exists m'. split; [done|]. intros pid i. rewrite Hm'.
  assert (triggers_on plan pid ↔ pid = ra_predicate_id a) as Hon.
  { split.
    - intros (d & b & Hd & E & Hb & <-). rewrite (plan_clause _ _ _ Hplan) in E. apply clause_id_inj in E as ->; [|done|done].
      unfold body_atom in Hb. congruence.
    - intros ->. exists c, a. by rewrite (plan_clause _ _ _ Hplan). }
  assert (i ∈ default [] (<[ra_predicate_id a := default [] (m !! ra_predicate_id a) ++ [(n + 0)%nat]]> m !! pid) ↔
    i ∈ default [] (m !! pid) ∨ (i = (n + 0)%nat ∧ triggers_on plan pid)) as ->.
  { rewrite Hon. destruct (decide (pid = ra_predicate_id a)) as [->|Hne].
    - rewrite lookup_insert_eq. cbn. rewrite elem_of_app, list_elem_of_singleton. naive_solver.
    - rewrite lookup_insert_ne by done. naive_solver. }
  split.
  - intros [[Hi|[-> Ht']]|(j & p & -> & Hj & Hp)]; [by left|right; by exists 0%nat, plan|].
    right. exists (S j), p. split; [lia|done].
  - intros [Hi|([|j] & p & -> & Hj & Hp)]; [by do 2 left| |].
    + injection Hj as <-. left. by right.
    + right. exists j, p. split; [lia|done].
Qed.

(** What [compile_join_program] promises: one valid plan for each body atom that
    can trigger a clause, found under the predicate of that atom, and the clauses
    that nothing triggers in a list of their own. *)
Record join_program_ok (jp : JoinProgram) : Prop := {
  jp_valid plan : plan ∈ jp_plans jp → valid_plan plan;
  jp_complete c i : c ∈ clauses prog → triggered c i →
    ∃ plan, plan ∈ jp_plans jp ∧ plan_key plan = (rc_clause_id c, i);
  jp_sorted : StronglySorted ord_lt (plan_key <$> jp_plans jp);
  jp_unconditional c : c ∈ clauses prog → rc_clause_id c ∈ unconditional_clause_ids jp ↔ inert c;
  jp_for_predicate pid : ∃ plans, for_predicate jp pid = Ok plans ∧
    ∀ plan, plan ∈ plans ↔ plan ∈ jp_plans jp ∧ triggers_on plan pid
}.

Lemma clause_ids_sorted : StronglySorted ord_lt (rc_clause_id <$> clauses prog).
Proof.
  assert (∀ (l : list RuleClause) n, (∀ i c, l !! i = Some c → N.to_nat (rc_clause_id c) = (n + i)%nat) →
    StronglySorted ord_lt (rc_clause_id <$> l)) as H.
  { induction l as [|c l IH]; intros n Hl; csimpl; constructor.
    - apply (IH (S n)). intros i d Hd. rewrite (Hl (S i) d Hd). lia.
    - apply Forall_forall. intros x (d & -> & [i Hi]%list_elem_of_lookup)%list_elem_of_fmap. apply ord_lt_N.
      pose proof (Hl 0%nat c eq_refl). pose proof (Hl (S i) d Hi). lia. }
  apply (H _ 0%nat). apply (program_clause_ids _ Hprog).
Qed.

Lemma sublist_sorted (l k : list N) : sublist l k → StronglySorted ord_lt k → StronglySorted ord_lt l.
Proof.
  induction 1 as [|x l k Hs IH|x l k Hs IH]; intros Hk; [done|..]; apply StronglySorted_inv in Hk as [Hk Hx]; [|by apply IH].
  constructor; [by apply IH|]. rewrite Forall_forall in *. intros y Hy. apply Hx. by eapply elem_of_sublist.
Qed.

(** Sorting by the key gives the strict order, as no two plans share a key. *)
Lemma sorted_plans plans :
  NoDup (plan_key <$> plans) → StronglySorted ord_lt (plan_key <$> merge_sort plan_le plans).
Proof.
  intros Hnd. apply StronglySorted_le_NoDup.
  - assert (StronglySorted plan_le (merge_sort plan_le plans)) as Hs.
    { apply StronglySorted_merge_sort; unfold plan_le; [intros p q r; apply ord_le_trans|intros p q; apply ord_le_total]. }
    induction Hs as [|p l Hs IH Hp]; csimpl; constructor; [done|].
    apply Forall_fmap. done.
  - by rewrite merge_sort_Permutation.
Qed.

Lemma compile_join_program_ok : ∃ jp, compile_join_program prog = Ok jp ∧ join_program_ok jp.
Proof.
  pose proof clause_ids_sorted as Hsort.
  assert (NoDup (clauses prog)) as Hnd by (by apply StronglySorted_lt_NoDup, NoDup_fmap_1 in Hsort).
  destruct (compile_clauses_ok (clauses prog) ([], []) (λ c Hc, Hc) Hnd) as (plans & unc & Hf & H1 & H2 & H3 & H4 & H5).
  unfold compile_join_program. rewrite Hf, bind_Ok_l. cbn [fst snd app]. unfold new_join_program.
  pose proof (sorted_plans plans H3) as Hs. pose proof (sublist_sorted _ _ H4 Hsort) as Hu.
  rewrite (proj2 (strictly_ascending_spec _) Hs), (proj2 (strictly_ascending_spec _) Hu). cbn [negb reject_if]. rewrite !bind_Ok_l.
  set (sorted := merge_sort plan_le plans) in *.
  assert (∀ plan, plan ∈ sorted ↔ plan ∈ plans) as Hin by (intros plan; unfold sorted; by rewrite merge_sort_Permutation).
  destruct (index_plans_ok sorted 0 ∅) as (m & Hm & Hidx); [intros plan Hp%Hin; by apply H1|].
  change (foldM (index_plan prog) (imap pair sorted) ∅ = Ok m) in Hm. rewrite Hm, bind_Ok_l, (proj2 (iterM_Ok _ _)).
  2: { apply Forall_forall. intros cid Hcid.
    assert (cid ∈ rc_clause_id <$> clauses prog) as (c & -> & Hc)%list_elem_of_fmap by (by eapply elem_of_sublist).
    rewrite clause_Ok by done. rewrite bind_Ok_l. apply reject_if_Ok, not_true_iff_false. intros (a & Ha & Ht)%existsb_exists.
    apply list_elem_of_In, list_elem_of_lookup in Ha as [i Hi]. apply (H5 c Hc) in Hcid. apply (Hcid (N.of_nat i)).
    exists a. unfold body_atom. by rewrite Nat2N.id. }
  rewrite bind_Ok_l. eexists. split; [done|]. split; cbn [jp_plans unconditional_clause_ids]; [| |done|done|].
  - intros plan Hp%Hin. by apply H1.
  - intros c i Hc Hi. destruct (H2 c i Hc Hi) as (plan & Hp & E). exists plan. by rewrite Hin.
  - intros pid. unfold for_predicate. cbn [plans_by_predicate jp_plans]. specialize (Hidx pid).
    rewrite lookup_empty in Hidx. cbn [default] in Hidx.
    assert (∀ plan, (∃ i, i ∈ default [] (m !! pid) ∧ sorted !! i = Some plan) ↔ plan ∈ sorted ∧ triggers_on plan pid) as Hmem.
    { intros plan. setoid_rewrite Hidx. split.
      - intros (i & [[]%elem_of_nil|(j & q & -> & Hj & Ht)] & Hi). cbn in Hi. rewrite Hj in Hi. injection Hi as <-.
        split; [by eapply list_elem_of_lookup_2|done].
      - intros [[i Hi]%list_elem_of_lookup Ht]. exists i. split; [right; by exists i, plan|done]. }
    destruct (m !! pid) as [ids|] eqn:Ep; cbn [default] in *.
    + destruct (collect_indices sorted ids) as (ps & Hps & Hpin); [|exists ps; split; [done|]; intros plan; by rewrite Hpin, Hmem].
      intros i Hi. apply Hidx in Hi as [[]%elem_of_nil|(j & q & -> & Hj & _)]. by exists q.
    + exists []. split; [done|]. intros plan. rewrite <-Hmem. set_solver.
Qed.
End programs.
