(* ===== verification/JoinBase.v ===== *)
(** * Reading a well-formed kernel during a join

    What the evaluator's accessors answer when the kernel is well formed and the
    constants of a clause have nodes: terms have values, active handles stand for
    themselves, and unification finds the least extension of the bindings. *)

From S2P Require Import Prelude Order Errors Model Queue Store Kernel KernelBase Arena Facts FactOps StateInv.
From S2P Require Import Cancel RuleModel RulePlans Joins RuleSpec.
Import Kernel Join.

#[local] Opaque Dep.union Dep.empty.

(** ** Computations that count work *)

(** The reasons for which a join gives up: the limits of the operation, and the
    exhaustion of a 64-bit counter. *)
Definition refused (e : NativeError) : Prop :=
  err_kind e = Timeout ∨ err_kind e = Cancelled ∨ err_kind e = Resource ∨
  e = NativeErr.invariant "join poll counter overflow" ∨ e = NativeErr.invariant "join-step counter overflow" ∨
  e = NativeErr.invariant "join-match counter overflow".

(** [m] ends, and either gives up or yields a value that satisfies [P]. *)
Definition yields {S A} (m : st S NativeError A) (P : A → Prop) : Prop :=
  ∀ s, match m s with (Ok a, _) => P a | (Err e, _) => refused e | (Crash, _) => False end.

Section yields.
Context {S : Type}.
Implicit Types A B : Type.

Lemma yields_bind {A B} (m : st S NativeError A) (f : A → st S NativeError B) (P : A → Prop) (Q : B → Prop) :
  yields m P → (∀ a, P a → yields (f a) Q) → yields (m ≫= f) Q.
Proof.
  intros Hm Hf s. unfold mbind, st_bind. specialize (Hm s). destruct (m s) as [[a|e|] s']; try done. by apply Hf.
Qed.

Lemma yields_impl {A} (m : st S NativeError A) (P Q : A → Prop) : yields m P → (∀ a, P a → Q a) → yields m Q.
Proof. intros Hm Hi s. specialize (Hm s). destruct (m s) as [[a|e|] s']; auto. Qed.

Lemma yields_ret {A} (a : A) (P : A → Prop) : P a → yields (mret a : st S NativeError A) P.
Proof. by intros Hp s. Qed.

Lemma yields_lift {A} (r : NativeResult A) (a : A) (P : A → Prop) : r = Ok a → P a → yields (lift r : st S NativeError A) P.
Proof. intros -> Hp s. done. Qed.

(** A [for] loop with an invariant on the elements already visited. *)
Lemma yields_fold {A B} (f : B → A → st S NativeError B) (I : list A → B → Prop) l b :
  I [] b → (∀ done x rest b, l = done ++ x :: rest → I done b → yields (f b x) (I (done ++ [x]))) →
  yields (foldST f l b) (I l).
Proof.
  intros H0 Hf. assert (∀ rest done b, l = done ++ rest → I done b → yields (foldST f rest b) (I l)) as H.
  { induction rest as [|x rest IH]; intros dn b' Hl Hb; cbn.
    - apply yields_ret. rewrite Hl, app_nil_r. done.
    - eapply yields_bind; [by eapply Hf|]. intros b'' Hb''. apply (IH (dn ++ [x])); [by rewrite <-app_assoc|done]. }
  by apply (H l []).
Qed.

(** A loop that filters and maps its list. *)
Lemma yields_omap {A B} (f : list B → A → st S NativeError (list B)) (g : A → list B) l acc :
  (∀ acc x, x ∈ l → yields (f acc x) (λ r, r = acc ++ g x)) →
  yields (foldST f l acc) (λ r, r = acc ++ mjoin (g <$> l)).
Proof.
  intros Hf. apply (yields_fold f (λ dn r, r = acc ++ mjoin (g <$> dn))); [by rewrite app_nil_r|].
  intros dn x rest b -> ->. eapply yields_impl; [apply Hf; set_solver|].
  intros r ->. rewrite fmap_app, join_app, <-app_assoc. cbn. by rewrite app_nil_r.
Qed.

(** A loop that adds to a set. *)
Lemma yields_union {A} `{Countable B} (f : gset B → A → st S NativeError (gset B)) (P : A → B → Prop) l acc :
  (∀ acc x, x ∈ l → yields (f acc x) (λ r, ∀ y, y ∈ r ↔ y ∈ acc ∨ P x y)) →
  yields (foldST f l acc) (λ r, ∀ y, y ∈ r ↔ y ∈ acc ∨ ∃ x, x ∈ l ∧ P x y).
Proof.
  intros Hf. apply (yields_fold f (λ dn r, ∀ y, y ∈ r ↔ y ∈ acc ∨ ∃ x, x ∈ dn ∧ P x y)); [set_solver|].
  intros dn x rest b -> Hb. eapply yields_impl; [apply Hf; set_solver|]. intros r Hr y. cbn beta in Hr, Hb. rewrite Hr, Hb.
  setoid_rewrite elem_of_app. setoid_rewrite list_elem_of_singleton. naive_solver.
Qed.

End yields.

Section counting.
Context (others : nat → CancellationState → CancellationState) (clock : nat → N) (env : JoinEnv).

Lemma poll_returns : yields (poll others clock) (λ _, True).
Proof.
  intros j. unfold poll. rewrite poll_cases. cbv beta iota. unfold refused. case_decide; [cbn; tauto|].
  destruct (interrupted _); [cbn; tauto|]. case_decide; cbn; tauto.
Qed.

Lemma poll_inner_returns : yields (poll_inner others clock env) (λ _, True).
Proof.
  intros j. unfold poll_inner, gets, lift, modify, mbind, st_bind, id. unfold checked_add.
  destruct (_ <=? _)%N; cbn; [|unfold refused; tauto]. destruct (_ =? _)%N; [apply poll_returns|done].
Qed.

Lemma tick_join_returns : yields (tick_join others clock env) (λ _, True).
Proof.
  intros j. unfold tick_join, gets, lift, modify, mbind, st_bind, id. unfold checked_add.
  destruct (_ <=? _)%N; cbn; [|unfold refused; tauto].
  destruct (_ <? _)%N; cbn; [unfold refused; cbn; tauto|]. apply poll_inner_returns.
Qed.
End counting.

(** ** Values of terms *)

Section values.
Context (env : JoinEnv) (hi : N).
Abbreviation k := (je_kernel env).
Abbreviation ns := (nodes (state (je_kernel env))).

(** [h] is an active node of the sort. *)
Definition sorted_handle (s : TermSort) (h : NodeHandle) : Prop :=
  ∃ n, stored ns h n ∧ n_lifecycle n = Active ∧ n_sort n = node_sort_of s.

(** Bindings of variables to active nodes of their sorts. *)
Definition good (σ : Bindings) : Prop := ∀ key h, σ !! key = Some h → sorted_handle key.1 h.

(** The active node of a constant and the merges it depends on. *)
Definition constant (t : Term) : NodeHandle * DependencySet :=
  match resolved_constant env t with Ok r => r | _ => (mkHandle 0 0, Dep.empty) end.

(** A constant has a node. *)
Definition grounded (t : Term) : Prop := variable_key t = None → is_ok (resolved_constant env t) = true.

Definition value (σ : Bindings) (t : Term) : option NodeHandle :=
  match variable_key t with Some key => σ !! key | None => Some (constant t).1 end.

Definition term_dependency (t : Term) : DependencySet :=
  match variable_key t with Some _ => Dep.empty | None => (constant t).2 end.

Definition atom_dependency (a : RuleAtom) : DependencySet := Dep.union (term_dependency <$> ra_arguments a).

Hypothesis Hk : state_ok hi (state k).

Lemma kernel_slots : slots_ok ns.
Proof. apply (arena_slots _ _ (state_arena _ _ Hk)). Qed.

Lemma canonical_active h : active_handle ns h → canonical_handle h k = Ok (h, Dep.empty).
Proof.
  intros Hh. apply (canonical_handle_Ok k kernel_slots). split; [|done]. exists [].
  split; [|done]. by apply (active_resolves hi (state k)), Hh; apply (state_arena _ _ Hk).
Qed.

Lemma sorted_active s h : sorted_handle s h → active_handle ns h.
Proof. intros (n & Hn & Ha & _). by exists n. Qed.

Lemma node_sort_Ok h s : active_handle ns h → ∃ sort, node_sort h k = Ok sort ∧ (sort = node_sort_of s ↔ sorted_handle s h).
Proof.
  intros (n & Hn & Ha). exists (n_sort n). unfold node_sort. rewrite (proj2 (require_active_Ok h k n)) by done.
  split; [done|]. split; [intros E; by exists n|]. intros (m & Hm & _ & <-). by rewrite (stored_fun _ _ _ _ Hn Hm).
Qed.

Lemma node_rank_Ok h : active_handle ns h → ∃ r, node_rank h k = Ok r.
Proof.
  intros (n & Hn & Ha). unfold node_rank. rewrite (proj2 (require_active_Ok h k n)) by done. by eexists.
Qed.

Lemma resolved_constant_sorted t r : resolved_constant env t = Ok r → sorted_handle (term_sort t) r.1.
Proof.
  intros H. unfold resolved_constant in H. apply outcome_bind_Ok in H as (e & _ & H).
  apply outcome_bind_Ok in H as (h & _ & H). apply outcome_bind_Ok in H as ([h' d] & Hc & H).
  apply (canonical_handle_Ok k kernel_slots) in Hc as [_ Ha]. cbn in H. apply outcome_bind_Ok in H as (sort & Hs & H).
  apply outcome_bind_Ok in H as ([] & Hr & [= <-]). apply reject_if_Ok, negb_false_iff, bool_decide_eq_true in Hr.
  destruct (node_sort_Ok h' (term_sort t) Ha) as (sort' & Hs' & E). apply E. cbn in Hs. rewrite Hs in Hs'. congruence.
Qed.

Lemma constant_Ok t : grounded t → variable_key t = None →
  resolved_constant env t = Ok (constant t) ∧ sorted_handle (term_sort t) (constant t).1.
Proof.
  intros Hg Hv. specialize (Hg Hv). unfold constant. destruct (resolved_constant env t) as [r| |] eqn:E; try done.
  split; [done|]. by apply resolved_constant_sorted.
Qed.

Lemma variable_key_sort t key : variable_key t = Some key → key.1 = term_sort t.
Proof. destruct t; try done. by intros [= <-]. Qed.

(** The value of a term is an active node of its sort. *)
Lemma value_sorted σ t h : good σ → grounded t → value σ t = Some h → sorted_handle (term_sort t) h.
Proof.
  intros Hσ Hg. unfold value. destruct (variable_key t) as [key|] eqn:E.
  - intros Hh%Hσ. by rewrite <-(variable_key_sort _ _ E).
  - intros [= <-]. by apply constant_Ok.
Qed.

Lemma value_mono σ σ' t h : σ ⊆ σ' → value σ t = Some h → value σ' t = Some h.
Proof. intros Hs. unfold value. destruct (variable_key t); [|done]. intros Hh. by eapply lookup_weaken. Qed.

Lemma resolved_term_Ok t b :
  good b → grounded t → resolved_term env t b = Ok ((λ h, (h, term_dependency t)) <$> value b t).
Proof.
  intros Hb Hg. unfold resolved_term, value, term_dependency. destruct (variable_key t) as [key|] eqn:E.
  - destruct (b !! key) as [h|] eqn:Eh; [|done]. cbn. by rewrite canonical_active by (by eapply sorted_active, Hb).
  - destruct (constant_Ok t Hg E) as [-> _]. cbn. by destruct (constant t).
Qed.

(** ** Unification *)

Lemma elem_of_union_app ds es l :
  l ∈ as_slice (Dep.union (ds ++ es)) ↔ l ∈ as_slice (Dep.union ds) ∨ l ∈ as_slice (Dep.union es).
Proof. rewrite !elem_of_union_dep. setoid_rewrite elem_of_app. naive_solver. Qed.

Lemma elem_of_union_cons d es l :
  l ∈ as_slice (Dep.union (d :: es)) ↔ l ∈ as_slice d ∨ l ∈ as_slice (Dep.union es).
Proof. rewrite !elem_of_union_dep. setoid_rewrite elem_of_cons. naive_solver. Qed.

Lemma elem_of_union_nil l : l ∈ as_slice (Dep.union []) ↔ False.
Proof. rewrite elem_of_union_dep. setoid_rewrite elem_of_nil. naive_solver. Qed.

Lemma elem_of_dep_empty l : l ∈ as_slice Dep.empty ↔ False.
Proof. apply elem_of_nil. Qed.

(** The bindings that unify the pairs, and their dependencies. *)
Record unifier (pairs : list (Term * NodeHandle)) (b b' : Bindings) : Prop := {
  unifier_grows : b ⊆ b';
  unifier_good : good b';
  unifier_values t h : (t, h) ∈ pairs → value b' t = Some h;
  unifier_dom : dom b' = dom b ∪ list_to_set (term_variables pairs.*1)
}.

Lemma unifier_least pairs b b' σ :
  unifier pairs b b' → b ⊆ σ → (∀ t h, (t, h) ∈ pairs → value σ t = Some h) → b' ⊆ σ.
Proof.
  intros [Hg _ Hv Hd] Hb Hσ. apply map_subseteq_spec. intros key h Hh.
  assert (key ∈ dom b') as Hin by (by eapply elem_of_dom_2). rewrite Hd, elem_of_union, elem_of_list_to_set in Hin.
  destruct Hin as [[h' Hh']%elem_of_dom|Hin].
  - rewrite (lookup_weaken _ _ _ _ Hh' Hb), <-Hh. symmetry. by eapply lookup_weaken.
  - unfold term_variables in Hin. apply list_elem_of_omap in Hin as (t & ([t' h'] & -> & Hp)%list_elem_of_fmap & Et).
    pose proof (Hv _ _ Hp) as H1. pose proof (Hσ _ _ Hp) as H2. cbn in Et. unfold value in *. rewrite Et in *. congruence.
Qed.

Lemma good_insert b key h : good b → sorted_handle key.1 h → good (<[key := h]> b).
Proof.
  intros Hb Hs key' h'. destruct (decide (key = key')) as [<-|]; [rewrite lookup_insert_eq; by intros [= <-]|].
  rewrite lookup_insert_ne by done. apply Hb.
Qed.

Definition unifiable (pairs : list (Term * NodeHandle)) (σ : Bindings) : Prop := ∀ t h, (t, h) ∈ pairs → value σ t = Some h.

(** One more pair whose term is bound to the handle. *)
Lemma unifier_cons t h pairs b b1 b' :
  b ⊆ b1 → value b1 t = Some h → dom b1 = dom b ∪ list_to_set (term_variables [t]) →
  unifier pairs b1 b' → unifier ((t, h) :: pairs) b b'.
Proof.
  intros Hb Hv Hd [Hg Hgood Hvals Hdom]. split; [by etrans|done| |].
  - intros u g [[= -> ->]|Hin]%elem_of_cons; [by eapply value_mono|by apply Hvals].
  - rewrite Hdom, Hd. unfold term_variables. cbn. destruct (variable_key t); cbn; set_solver.
Qed.

Lemma unify_loop_spec pairs b deps :
  good b → Forall (λ p, grounded p.1 ∧ active_handle ns p.2) pairs →
  ∃ o, unify_loop env pairs b deps = Ok o ∧
    match o with
    | Some (b', deps') => unifier pairs b b' ∧ ∀ l, l ∈ as_slice (Dep.union deps') ↔
        l ∈ as_slice (Dep.union deps) ∨ l ∈ as_slice (Dep.union (term_dependency <$> pairs.*1))
    | None => ∀ σ, good σ → b ⊆ σ → ¬ unifiable pairs σ
    end.
Proof.
  revert b deps. induction pairs as [|[t h] pairs IH]; intros b deps Hb Hall; cbn [unify_loop].
  { exists (Some (b, deps)). split; [done|]. split; [|intros l; cbn [fmap list_fmap]; rewrite (elem_of_union_nil l); tauto].
    split; [done|done|set_solver|]. cbn. set_solver. }
  apply Forall_cons in Hall as [[Hg Ha] Hall]. cbn in Hg, Ha. rewrite canonical_active by done. rewrite bind_Ok_l.
  cbn [fst snd]. destruct (node_sort_Ok h (term_sort t) Ha) as (sort & -> & Hsort). rewrite bind_Ok_l.
  assert (∀ σ, good σ → unifiable ((t, h) :: pairs) σ → value σ t = Some h) as Hhead.
  { intros σ _ Hu. apply Hu. by left. }
  case_bool_decide as Es; cbn [negb].
  2: { exists None. split; [done|]. intros σ Hσ _ Hu. apply Es, Hsort. apply (value_sorted σ); [done|done|by apply Hhead]. }
  assert (term_dependency t = match variable_key t with Some _ => Dep.empty | None => (constant t).2 end) as Htd by done.
  destruct (variable_key t) as [key|] eqn:Et.
  - destruct (match b !! key with Some known => negb (bool_decide (known = h)) | None => false end) eqn:Ek.
    { exists None. split; [done|]. intros σ Hσ Hsub Hu%(Hhead σ Hσ). destruct (b !! key) as [known|] eqn:Eb; [|done].
      apply negb_true_iff, bool_decide_eq_false in Ek. apply Ek. apply (lookup_weaken _ σ) in Eb; [|done].
      unfold value in Hu. rewrite Et in Hu. congruence. }
    assert (b ⊆ <[key := h]> b) as Hsub.
    { apply map_subseteq_spec. intros key' h' Hh'. destruct (decide (key = key')) as [<-|]; [|by rewrite lookup_insert_ne].
      rewrite Hh' in Ek. apply negb_false_iff, bool_decide_eq_true in Ek as ->. by rewrite lookup_insert_eq. }
    assert (value (<[key := h]> b) t = Some h) as Hval by (unfold value; rewrite Et; by rewrite lookup_insert_eq).
    destruct (IH (<[key := h]> b) (deps ++ [Dep.empty])) as (o & -> & Ho); [|done|].
    { apply good_insert; [done|]. rewrite (variable_key_sort _ _ Et). by apply Hsort. }
    exists o. split; [done|]. destruct o as [[b' deps']|].
    + destruct Ho as [Hu Hl]. split.
      * eapply unifier_cons; [done|done| |done]. rewrite dom_insert_L. unfold term_variables. cbn. rewrite Et. cbn. set_solver.
      * intros l. rewrite Hl, elem_of_union_app. csimpl. rewrite !elem_of_union_cons, elem_of_union_nil.
        rewrite Htd, elem_of_dep_empty. tauto.
    + intros σ Hσ Hbσ Hu. apply (Ho σ Hσ); [|intros u g Hin; apply Hu; by right].
      apply insert_subseteq_l; [|done]. pose proof (Hhead σ Hσ Hu) as Hv. unfold value in Hv. by rewrite Et in Hv.
  - destruct (constant_Ok t Hg Et) as [Hc _]. rewrite Hc, bind_Ok_l.
    assert (∀ σ, value σ t = Some (constant t).1) as Hval by (intros σ; unfold value; by rewrite Et).
    case_bool_decide as Ec; cbn [negb].
    2: { exists None. split; [done|]. intros σ Hσ _ Hu%(Hhead σ Hσ). rewrite Hval in Hu. congruence. }
    destruct (IH b ((deps ++ [Dep.empty]) ++ [(constant t).2])) as (o & -> & Ho); [done|done|].
    exists o. split; [done|]. destruct o as [[b' deps']|].
    + destruct Ho as [Hu Hl]. split.
      * eapply unifier_cons; [done|by rewrite Hval, Ec| |done]. unfold term_variables. cbn. rewrite Et. cbn. set_solver.
      * intros l. rewrite Hl, !elem_of_union_app. csimpl. rewrite !elem_of_union_cons, elem_of_union_nil.
        rewrite Htd, elem_of_dep_empty. tauto.
    + intros σ Hσ Hbσ Hu. apply (Ho σ Hσ Hbσ). intros u g Hin. apply Hu. by right.
Qed.

Lemma zip_Forall2 {A B} (P : A → B → Prop) (l : list A) (m : list B) :
  length l = length m → (∀ x y, (x, y) ∈ zip l m → P x y) ↔ Forall2 P l m.
Proof.
  intros Hlen. split.
  - revert m Hlen. induction l as [|x l IH]; intros [|y m] Hlen Hp; try done. cbn in *.
    constructor; [apply Hp; by left|]. apply IH; [lia|]. intros. apply Hp. by right.
  - clear Hlen. induction 1 as [|x y l m Hxy Hlm IH]; intros x' y'; cbn; [set_solver|].
    intros [[= -> ->]|Hin]%elem_of_cons; [done|]. by apply IH.
Qed.

(** The arguments of an atom have the values [handles]. *)
Definition instance_of (a : RuleAtom) (handles : list NodeHandle) (σ : Bindings) : Prop :=
  Forall2 (λ t h, value σ t = Some h) (ra_arguments a) handles.

Definition atom_grounded (a : RuleAtom) : Prop := ∀ t, t ∈ ra_arguments a → grounded t.

(** [unify_handles] finds the least bindings that make the atom an instance. *)
Lemma unify_handles_spec a handles b :
  good b → atom_grounded a → (∀ h, h ∈ handles → active_handle ns h) →
  ∃ o, unify_handles env a handles b = Ok o ∧
    match o with
    | Some (b', d) => d = atom_dependency a ∧ b ⊆ b' ∧ good b' ∧ instance_of a handles b' ∧
        dom b' = dom b ∪ Plans.atom_variables a ∧ ∀ σ, b ⊆ σ → instance_of a handles σ → b' ⊆ σ
    | None => ∀ σ, good σ → b ⊆ σ → ¬ instance_of a handles σ
    end.
Proof.
  intros Hb Hg Ha. unfold unify_handles. case_bool_decide as Hlen; cbn [negb].
  2: { exists None. split; [done|]. intros σ _ _ Hi%Forall2_length. done. }
  destruct (unify_loop_spec (zip (ra_arguments a) handles) b []) as (o & -> & Ho); [done| |].
  { apply Forall_forall. intros [t h] Hin. cbn. split; [apply Hg; by eapply elem_of_zip_l|apply Ha; by eapply elem_of_zip_r]. }
  rewrite bind_Ok_l. assert (∀ σ, unifiable (zip (ra_arguments a) handles) σ ↔ instance_of a handles σ) as Hiff.
  { intros σ. by apply zip_Forall2. }
  eexists. split; [done|]. destruct o as [[b' deps']|]; cbn beta iota.
  - destruct Ho as [Hu Hd]. assert ((zip (ra_arguments a) handles).*1 = ra_arguments a) as Hz by (apply fst_zip; lia).
    rewrite Hz in Hd. split_and!.
    + apply canonical_ext; [apply canonical_union..|]. intros l. rewrite Hd, elem_of_union_nil. unfold atom_dependency. tauto.
    + apply Hu.
    + apply Hu.
    + apply Hiff. intros t h. apply (unifier_values _ _ _ Hu).
    + by rewrite (unifier_dom _ _ _ Hu), Hz.
    + intros σ Hσ Hi. apply (unifier_least _ _ _ _ Hu); [done|]. by apply Hiff.
  - intros σ Hσ Hsub Hi%Hiff. by apply (Ho σ).
Qed.

End values.
