(* ===== verification/JoinSpec.v ===== *)
(** * The indexed join finds exactly the matches

    [satisfied] says when a binding of the variables makes one body atom true,
    [extension] what a partial join stands for.  The join over the indexes
    yields, for every binding and dependency, the match with the least list of
    premises; it never panics and fails only when its limits are reached. *)

From S2P Require Import Prelude Order Errors Model Queue Store Kernel KernelBase Arena Facts FactOps StateInv.
From S2P Require Import Cancel RuleModel RulePlans Joins RuleSpec PlanSpec JoinBase.
Import Kernel Join.

#[local] Opaque Dep.union Dep.empty.

(** ** Sets of matches *)

(** [found'] is [found] with all the matches of [T], and possibly others of [S],
    inserted. *)
Record added (S T : JoinMatch → Prop) (found found' : Matches) : Prop := {
  added_from key m : found' !! key = Some m → found !! key = Some m ∨ (S m ∧ key = match_key m);
  added_all m : T m → ∃ m', found' !! match_key m = Some m' ∧ ord_le (jm_premise_row_ids m') (jm_premise_row_ids m);
  added_keeps key m : found !! key = Some m →
    ∃ m', found' !! key = Some m' ∧ ord_le (jm_premise_row_ids m') (jm_premise_row_ids m)
}.

Lemma added_none S T found : (∀ m, ¬ T m) → added S T found found.
Proof. intros HT. split; [by left|by intros m ?%HT|]. intros key m Hm. by exists m. Qed.

Lemma added_trans S S' T T' found found1 found2 :
  added S T found found1 → added S' T' found1 found2 → added (λ m, S m ∨ S' m) (λ m, T m ∨ T' m) found found2.
Proof.
  intros [F1 A1 K1] [F2 A2 K2]. split.
  - intros key m [[|[]]%F1|[]]%F2; auto.
  - intros m [(m1 & Hm1 & Hle)%A1|Hm%A2]; [|done]. destruct (K2 _ _ Hm1) as (m2 & Hm2 & Hle2).
    exists m2. split; [done|]. by etrans.
  - intros key m (m1 & Hm1 & Hle)%K1. destruct (K2 _ _ Hm1) as (m2 & Hm2 & Hle2). exists m2. split; [done|]. by etrans.
Qed.

Lemma added_impl S S' T T' found found' :
  (∀ m, S m → S' m) → (∀ m, T' m → T m) → added S T found found' → added S' T' found found'.
Proof.
  intros HS HT [F A K]. split; [|intros m ?%HT; by apply A|done].
  intros key m [|[]]%F; [by left|right; auto].
Qed.

Lemma added_fold {St A} (f : Matches → A → st St NativeError Matches) (S T : A → JoinMatch → Prop) l found :
  (∀ x found, x ∈ l → yields (f found x) (added (S x) (T x) found)) →
  yields (foldST f l found) (added (λ m, ∃ x, x ∈ l ∧ S x m) (λ m, ∃ x, x ∈ l ∧ T x m) found).
Proof.
  intros Hf. apply (yields_fold f (λ dn, added (λ m, ∃ x, x ∈ dn ∧ S x m) (λ m, ∃ x, x ∈ dn ∧ T x m) found)).
  { apply added_none. intros m (x & Hx & _). set_solver. }
  intros dn x rest b -> Hb. eapply yields_impl; [apply Hf; set_solver|]. intros b' Hb'.
  eapply added_impl; [| |by eapply added_trans]; intros m; cbn; setoid_rewrite elem_of_app;
    setoid_rewrite list_elem_of_singleton; naive_solver.
Qed.

Section insertion.
Context (env : JoinEnv).

Lemma insert_match_returns candidate found :
  yields (insert_match env found candidate) (added (λ m, m = candidate) (λ m, m = candidate) found).
Proof.
  unfold insert_match. set (key := match_key candidate). destruct (found !! key) as [previous|] eqn:E.
  - apply yields_ret. case_bool_decide as Hlt.
    + split.
      * intros key' m. destruct (decide (key = key')) as [<-|]; [rewrite lookup_insert_eq; intros [= <-]; by right|].
        rewrite lookup_insert_ne by done. by left.
      * intros m ->. exists candidate. by rewrite lookup_insert_eq.
      * intros key' m Hm. destruct (decide (key = key')) as [<-|].
        -- exists candidate. rewrite lookup_insert_eq. split; [done|]. apply ord_le_lt_eq. left. congruence.
        -- exists m. by rewrite lookup_insert_ne.
    + split; [by left| |intros key' m Hm; by exists m]. intros m ->. exists previous. split; [done|].
      by destruct (ord_le_total (jm_premise_row_ids previous) (jm_premise_row_ids candidate)) as [|[|<-]%ord_le_lt_eq].
  - intros j. unfold gets, lift, modify, mbind, st_bind, id, checked_add. destruct (_ <=? _)%N; cbn [ok_or]; [|unfold refused; tauto].
    destruct (_ <? _)%N; cbn [reject_if]; [unfold refused; cbn; tauto|]. split.
    + intros key' m. destruct (decide (key = key')) as [<-|]; [rewrite lookup_insert_eq; intros [= <-]; by right|].
      rewrite lookup_insert_ne by done. by left.
    + intros m ->. exists candidate. by rewrite lookup_insert_eq.
    + intros key' m Hm. assert (key ≠ key') by congruence. exists m. by rewrite lookup_insert_ne.
Qed.
End insertion.

(** ** Satisfied atoms *)

Abbreviation choice := (option (N * DependencySet)).

Section semantics.
Context (env : JoinEnv).
Abbreviation k := (je_kernel env).
Abbreviation prog := (je_program env).

Definition rank_below (h h' : NodeHandle) : Prop :=
  ∃ r r', node_rank h k = Ok r ∧ node_rank h' k = Ok r' ∧ ord_lt r r'.

(** The two nodes of an inequality are stored in the order of their ranks. *)
Definition rank_ordered (args : list NodeHandle) : Prop := ∀ h h', args = [h; h'] → ¬ rank_below h' h.

(** With [strict], only rows of inequalities that are stored in rank order count:
    the others are left behind by merges, next to a row in rank order. *)
Context (strict : bool).

(** A row that the plan may use for the atom, read in one of its orientations:
    an inequality holds in both. *)
Definition usable (plan : ClauseJoinPlan) (i : N) (kind : PredicateKind) (a : RuleAtom) (rid : N) (handles : list NodeHandle)
    (row : FactRow) : Prop :=
  active_row (state k) (N.to_nat rid) row ∧ predicate_id (row_key row) = ra_predicate_id a ∧
  in_plan_view env (derivation_generation row) plan i = true ∧
  (strict = true → kind = Inequality → rank_ordered (arguments (row_key row))) ∧
  (handles = arguments (row_key row) ∨ (kind = Inequality ∧ handles = reverse (arguments (row_key row)))).

(** [satisfied plan i σ a ch]: under [σ] the atom [a] at body position [i] holds,
    by the row and the support that [ch] names when it is a stored atom. *)
Inductive satisfied (plan : ClauseJoinPlan) (i : N) (σ : Bindings) (a : RuleAtom) : choice → Prop :=
| satisfied_guard t u h h' :
    Rule.predicate_kind (ra_predicate_id a) prog = Ok OrderingGuard → ra_arguments a = [t; u] →
    value env σ t = Some h → value env σ u = Some h' → rank_below h h' → satisfied plan i σ a None
| satisfied_equality t u h :
    Rule.predicate_kind (ra_predicate_id a) prog = Ok Equality → ra_arguments a = [t; u] →
    value env σ t = Some h → value env σ u = Some h → satisfied plan i σ a None
| satisfied_row kind rid row handles support :
    Rule.predicate_kind (ra_predicate_id a) prog = Ok kind → kind ≠ OrderingGuard → kind ≠ Equality →
    usable plan i kind a rid handles row → instance_of env a handles σ → support ∈ supports row →
    satisfied plan i σ a (Some (rid, support)).

Definition step_atoms (c : RuleClause) (steps : list JoinStep) : list RuleAtom := omap (λ s, body_atom c (js_body_index s)) steps.

Definition variables (atoms : list RuleAtom) : gset (TermSort * N) := ⋃ (Plans.atom_variables <$> atoms).

Definition step_satisfied (plan : ClauseJoinPlan) (c : RuleClause) (σ : Bindings) (step : JoinStep) (ch : choice) : Prop :=
  ∃ a, body_atom c (js_body_index step) = Some a ∧ satisfied plan (js_body_index step) σ a ch.

Definition chosen_rows (chs : list choice) : list N := omap (fmap fst) chs.
Definition chosen_supports (chs : list choice) : list DependencySet := omap (fmap snd) chs.

Definition found_match (plan : ClauseJoinPlan) (σ : Bindings) (d : DependencySet) (rows : list N) : JoinMatch :=
  mkJoinMatch (pl_clause_id plan) (pl_delta_body_index plan) (freeze_bindings σ) d (dedup (sort rows)).

(** The matches that complete the bindings [b], the dependency [d] and the rows
    already chosen by satisfying the remaining steps. *)
Definition extension (plan : ClauseJoinPlan) (c : RuleClause) (steps : list JoinStep) (b : Bindings) (d : DependencySet)
    (rows : list N) (m : JoinMatch) : Prop :=
  ∃ σ chs, good env σ ∧ b ⊆ σ ∧ dom σ = dom b ∪ variables (step_atoms c steps) ∧
    Forall2 (step_satisfied plan c σ) steps chs ∧
    m = found_match plan σ (Dep.union (d :: (atom_dependency env <$> step_atoms c steps) ++ chosen_supports chs))
      (rows ++ chosen_rows chs).

(** ** One step *)

(** The ways to satisfy one atom by binding its variables. *)
Record atom_branch (plan : ClauseJoinPlan) (i : N) (a : RuleAtom) (b b' : Bindings) (ch : choice) : Prop := {
  branch_grows : b ⊆ b';
  branch_good : good env b';
  branch_dom : dom b' = dom b ∪ Plans.atom_variables a;
  branch_satisfied : satisfied plan i b' a ch
}.

Lemma instance_mono a handles b σ : b ⊆ σ → instance_of env a handles b → instance_of env a handles σ.
Proof. intros Hs Hi. eapply Forall2_impl; [done|]. intros t h. by apply value_mono. Qed.

Lemma satisfied_mono plan i a b σ ch : b ⊆ σ → satisfied plan i b a ch → satisfied plan i σ a ch.
Proof.
  intros Hs [t u h h' Hk Ha Ht Hu Hr|t u h Hk Ha Ht Hu|kind rid row handles support Hk Hg He Hu Hi Hsup].
  - by apply (satisfied_guard _ _ _ _ t u h h'); [done|done|eapply value_mono|eapply value_mono|done].
  - by apply (satisfied_equality _ _ _ _ t u h); [done|done|eapply value_mono|eapply value_mono].
  - by apply (satisfied_row _ _ _ _ kind rid row handles); [done|done|done|done|eapply instance_mono|done].
Qed.

(** Only the variables of the atom matter. *)
Lemma value_restrict (X : gset (TermSort * N)) σ t h :
  (∀ key, variable_key t = Some key → key ∈ X) → value env σ t = Some h → value env (filter (λ e, e.1 ∈ X) σ) t = Some h.
Proof.
  unfold value. destruct (variable_key t) as [key|]; [|done]. intros HX Hh. apply map_lookup_filter_Some.
  split; [done|]. by apply HX.
Qed.

Lemma elem_of_atom_variables a t key : t ∈ ra_arguments a → variable_key t = Some key → key ∈ Plans.atom_variables a.
Proof.
  intros Ht Hkey. unfold Plans.atom_variables. rewrite elem_of_list_to_set. unfold term_variables.
  apply list_elem_of_omap. eauto.
Qed.

Lemma satisfied_restrict (plan : ClauseJoinPlan) (i : N) (a : RuleAtom) (X : gset (TermSort * N)) (σ : Bindings) (ch : choice) :
  Plans.atom_variables a ⊆ X → satisfied plan i σ a ch → satisfied plan i (filter (λ e, e.1 ∈ X) σ) a ch.
Proof.
  intros HX Hs. assert (∀ t h, t ∈ ra_arguments a → value env σ t = Some h → value env (filter (λ e, e.1 ∈ X) σ) t = Some h) as Hv.
  { intros t h Ht. apply value_restrict. intros key Hkey. by eapply HX, elem_of_atom_variables. }
  destruct Hs as [t u h h' Hk Ha Ht Hu Hr|t u h Hk Ha Ht Hu|kind rid row handles support Hk Hg He Hu Hi Hsup].
  - by apply (satisfied_guard _ _ _ _ t u h h'); [done|done|apply Hv; [rewrite Ha; set_solver|]|apply Hv; [rewrite Ha; set_solver|]|].
  - by apply (satisfied_equality _ _ _ _ t u h); [done|done|apply Hv; [rewrite Ha; set_solver|]|apply Hv; [rewrite Ha; set_solver|]].
  - apply (satisfied_row _ _ _ _ kind rid row handles); [done|done|done|done| |done]. unfold instance_of in *.
    apply Forall2_same_length_lookup. split; [by eapply Forall2_length|]. intros j t h Ht Hh.
    apply Hv; [by eapply list_elem_of_lookup_2|]. by eapply (Forall2_lookup_lr _ _ _ _ _ _ Hi).
Qed.

Lemma union_same ds es : (∀ l, l ∈ as_slice (Dep.union ds) ↔ l ∈ as_slice (Dep.union es)) → Dep.union ds = Dep.union es.
Proof. intros H. apply canonical_ext; [apply canonical_union..|done]. Qed.

Definition choice_row (ch : choice) : list N := chosen_rows [ch].
Definition choice_support (ch : choice) : list DependencySet := chosen_supports [ch].

Lemma dependency_cons d d' a atoms ch chs :
  (∀ l, l ∈ as_slice d' ↔ l ∈ as_slice d ∨ l ∈ as_slice (atom_dependency env a) ∨ l ∈ as_slice (Dep.union (choice_support ch))) →
  Dep.union (d :: (atom_dependency env <$> a :: atoms) ++ chosen_supports (ch :: chs)) =
  Dep.union (d' :: (atom_dependency env <$> atoms) ++ chosen_supports chs).
Proof.
  intros Hd'. apply union_same. intros l. rewrite fmap_cons. cbn [app].
  assert (chosen_supports (ch :: chs) = choice_support ch ++ chosen_supports chs) as -> by (by destruct ch as [[]|]).
  rewrite !elem_of_union_cons, Hd', !elem_of_union_app. tauto.
Qed.

Lemma rows_cons rows ch chs : rows ++ chosen_rows (ch :: chs) = (rows ++ choice_row ch) ++ chosen_rows chs.
Proof. rewrite <-app_assoc. f_equal. by destruct ch as [[]|]. Qed.

(** Satisfying the first step and then the others is satisfying all of them. *)
Lemma extension_cons plan c step steps a b d d' rows m :
  body_atom c (js_body_index step) = Some a → 
  (∀ ch l, l ∈ as_slice (d' ch) ↔ l ∈ as_slice d ∨ l ∈ as_slice (atom_dependency env a) ∨ l ∈ as_slice (Dep.union (choice_support ch))) →
  extension plan c (step :: steps) b d rows m ↔
  ∃ b' ch, atom_branch plan (js_body_index step) a b b' ch ∧ extension plan c steps b' (d' ch) (rows ++ choice_row ch) m.
Proof.
  intros Ha Hd'. unfold extension, step_atoms. cbn [omap list_omap]. rewrite Ha. split.
  - intros (σ & chs0 & Hσ & Hb & Hdom & (ch & chs & (a' & Ha' & Hs) & Hss & ->)%Forall2_cons_inv_l & ->).
    rewrite Ha in Ha'. injection Ha' as <-. set (X := dom b ∪ Plans.atom_variables a).
    assert (variables (a :: omap (λ s, body_atom c (js_body_index s)) steps) = Plans.atom_variables a ∪
      variables (omap (λ s, body_atom c (js_body_index s)) steps)) as Ev by done. rewrite Ev in Hdom.
    exists (filter (λ e, e.1 ∈ X) σ), ch. assert (dom (filter (λ e, e.1 ∈ X) σ) = X) as HX.
    { apply set_eq. intros key. rewrite elem_of_dom. split.
      - intros [h [_ Hh]%map_lookup_filter_Some]. done.
      - intros Hkey. assert (key ∈ dom σ) as [h Hh]%elem_of_dom by (rewrite Hdom; set_solver).
        exists h. by apply map_lookup_filter_Some. }
    split; [split|].
    + apply map_subseteq_spec. intros key h Hh. apply map_lookup_filter_Some. split; [by eapply lookup_weaken|].
      cbn. apply elem_of_union_l. by eapply elem_of_dom_2.
    + intros key h [Hh _]%map_lookup_filter_Some. by apply Hσ.
    + done.
    + apply satisfied_restrict; [subst X; set_solver|done].
    + exists σ, chs. split_and!; [done|apply map_filter_subseteq| |done|].
      * rewrite HX, Hdom. subst X. set_solver.
      * rewrite <-rows_cons. f_equal. by apply dependency_cons.
  - intros (b' & ch & [Hg Hgood Hdom Hsat] & σ & chs & Hσ & Hb & Hdom' & Hss & ->). exists σ, (ch :: chs).
    split_and!; [done|by etrans| | |].
    + rewrite Hdom', Hdom. assert (∀ l, variables (a :: l) = Plans.atom_variables a ∪ variables l) as -> by done. set_solver.
    + constructor; [|done]. exists a. split; [done|]. by eapply satisfied_mono.
    + rewrite <-rows_cons. f_equal. symmetry. by apply dependency_cons.
Qed.
End semantics.

(** ** Candidates *)

Section candidates.
Context (others : nat → CancellationState → CancellationState) (clock : nat → N).
Context (env : JoinEnv) (hi : N) (Hk : state_ok hi (state (je_kernel env))) (Hprog : program_ok (je_program env)).
Abbreviation k := (je_kernel env).
Abbreviation prog := (je_program env).
Abbreviation ns := (nodes (state (je_kernel env))).

Lemma lookup_bindings_spec a b :
  good env b → atom_grounded env a → N.of_nat (length (ra_arguments a)) ≤ u32_max →
  ∃ m, lookup_bindings env a b = Ok (m, atom_dependency env a) ∧
    ∀ p h, m !! p = Some h ↔ ∃ t, ra_arguments a !! N.to_nat p = Some t ∧ value env b t = Some h.
Proof.
  intros Hb Hg Hlen. unfold lookup_bindings.
  assert (∀ ts n m deps, (∀ j t, ts !! j = Some t → ra_arguments a !! (n + j)%nat = Some t) →
    length (ra_arguments a) = (n + length ts)%nat →
    (∀ p h, m !! p = Some h ↔ (N.to_nat p < n)%nat ∧ ∃ t, ra_arguments a !! N.to_nat p = Some t ∧ value env b t = Some h) →
    ∃ m', lookup_loop env (imap (λ j t, ((n + j)%nat, t)) ts) b m deps =
        Ok (m', Dep.union (deps ++ (term_dependency env <$> ts))) ∧
      ∀ p h, m' !! p = Some h ↔ ∃ t, ra_arguments a !! N.to_nat p = Some t ∧ value env b t = Some h) as H.
  { induction ts as [|t ts IH]; intros n m deps Hts Hn Hm; cbn [imap lookup_loop].
    { exists m. rewrite app_nil_r. split; [done|]. intros p h. rewrite Hm. split; [naive_solver|]. intros (t & Ht & Hv).
      apply lookup_lt_Some in Ht as ?. cbn in Hn. split; [lia|eauto]. }
    pose proof (Hts 0%nat t eq_refl) as Ht. rewrite Nat.add_0_r in *. cbn in Hn.
    rewrite (imap_ext _ (λ j u, ((S n + j)%nat, u))) by (intros; cbn; f_equal; lia).
    assert (∀ j x, ts !! j = Some x → ra_arguments a !! (S n + j)%nat = Some x) as Hts'.
    { intros j x Hj. rewrite <-(Hts (S j) x Hj). f_equal. lia. }
    rewrite (resolved_term_Ok env hi Hk) by (done || by eapply Hg, list_elem_of_lookup_2). rewrite bind_Ok_l.
    destruct (value env b t) as [h|] eqn:Ev; cbn [fmap option_fmap option_map].
    - apply lookup_lt_Some in Ht as Hlt. unfold u32_try_from. destruct (N.leb_spec (N.of_nat n) u32_max); [|lia].
      cbn [ok_or]. rewrite bind_Ok_l.
      destruct (IH (S n) (<[N.of_nat n := h]> m) (deps ++ [term_dependency env t])) as (m' & -> & Hm'); [done|lia| |].
      + intros p h'. destruct (decide (N.of_nat n = p)) as [<-|Hne].
        * rewrite lookup_insert_eq, Nat2N.id. split; [intros [= <-]; split; [lia|eauto]|]. intros (_ & u & Hu & Hv). congruence.
        * rewrite lookup_insert_ne by done. rewrite Hm. split; [naive_solver lia|]. intros [Hp Hu]. split; [lia|done].
      + exists m'. split; [|done]. by rewrite <-app_assoc.
    - destruct (IH (S n) m deps) as (m' & -> & Hm'); [done|lia| |].
      + intros p h'. rewrite Hm. split; [naive_solver lia|]. intros [Hp (u & Hu & Hv)].
        destruct (decide (N.to_nat p = n)) as [<-|]; [congruence|]. split; [lia|eauto].
      + exists m'. split; [|done]. do 2 f_equal. apply union_same. intros l. rewrite fmap_cons, !elem_of_union_app, elem_of_union_cons.
        assert (term_dependency env t = Dep.empty) as ->.
        { unfold term_dependency, value in *. by destruct (variable_key t). }
        rewrite elem_of_dep_empty. tauto. }
  destruct (H (ra_arguments a) 0%nat ∅ []) as (m & Hm & Hspec); [done|done| |exists m; by split].
  intros p h. rewrite lookup_empty. naive_solver lia.
Qed.

(** The rows of a list that the plan may see. *)
Lemma fact_Ok rid row : facts (state k) !! N.to_nat rid = Some row → fact rid k = Ok row.
Proof. intros H. unfold fact. by rewrite H. Qed.

(** The candidates are usable rows, and they are all the rows that fit. *)
Record candidates_ok (plan : ClauseJoinPlan) (i : N) (kind : PredicateKind) (a : RuleAtom) (b : Bindings)
    (l : list FactCandidate) : Prop := {
  candidates_sound fc : fc ∈ l → fc_lookup_dependency fc = atom_dependency env a ∧
    ∃ row, usable env false plan i kind a (fc_row_id fc) (fc_handles fc) row;
  candidates_complete rid handles row σ : usable env true plan i kind a rid handles row → good env σ → b ⊆ σ →
    instance_of env a handles σ → ∃ fc, fc ∈ l ∧ fc_row_id fc = rid ∧ fc_handles fc = handles
}.

Lemma elem_of_scan pid m rid row :
  (∀ p h, m !! p = Some h → active_handle ns h) → facts (state k) !! N.to_nat rid = Some row →
  rid ∈ row_id <$> List.filter (row_matches pid (btree_entries m)) (facts (state k)) ↔
  row_matches pid (btree_entries m) row = true.
Proof.
  intros _ Hr. pose proof (state_facts _ _ Hk) as Hf. rewrite list_elem_of_fmap. split.
  - intros (row' & E & [Hin Hm]%list_elem_of_In%filter_In). apply list_elem_of_In, list_elem_of_lookup in Hin as [j Hj].
    rewrite (facts_ids _ _ Hf _ _ Hj) in E. subst rid. rewrite Nat2N.id in Hr. congruence.
  - intros Hm. exists row. split; [by rewrite (facts_ids _ _ Hf _ _ Hr), N2Nat.id|].
    apply list_elem_of_In, filter_In. split; [|done]. by eapply list_elem_of_In, list_elem_of_lookup_2.
Qed.

Lemma scanned_row pid m rid :
  rid ∈ row_id <$> List.filter (row_matches pid m) (facts (state k)) →
  ∃ row, facts (state k) !! N.to_nat rid = Some row ∧ row_matches pid m row = true.
Proof.
  pose proof (state_facts _ _ Hk) as Hf. intros (row & -> & [Hin Hm]%list_elem_of_In%filter_In)%list_elem_of_fmap.
  apply list_elem_of_In, list_elem_of_lookup in Hin as [j Hj]. exists row. by rewrite (facts_ids _ _ Hf _ _ Hj), Nat2N.id.
Qed.

Lemma elem_of_mjoin_fmap {A B} (f : A → list B) l y : y ∈ mjoin (f <$> l) ↔ ∃ x, x ∈ l ∧ y ∈ f x.
Proof.
  rewrite list_elem_of_join. split.
  - intros (ys & Hy & (x & -> & Hx)%list_elem_of_fmap). eauto.
  - intros (x & Hx & Hy). exists (f x). split; [done|]. apply list_elem_of_fmap. eauto.
Qed.

Lemma row_active_arguments rid row h :
  active_row (state k) (N.to_nat rid) row → h ∈ arguments (row_key row) → active_handle ns h.
Proof. intros Hr. apply (row_arguments _ _ _ (facts_rows _ _ (state_facts _ _ Hk) _ _ Hr)). Qed.

Lemma relation_candidates_returns plan i kind a b :
  good env b → atom_grounded env a → N.of_nat (length (ra_arguments a)) ≤ u32_max → kind ≠ Inequality →
  yields (relation_candidates others clock env a b plan i) (candidates_ok plan i kind a b).
Proof.
  intros Hb Hg Hlen Hkind. unfold relation_candidates.
  destruct (lookup_bindings_spec a b Hb Hg Hlen) as (m & Hm & Hspec).
  eapply yields_bind; [by eapply (yields_lift _ _ (eq (m, _)))|]. intros ? <-. cbn [fst snd].
  assert (∀ p h, m !! p = Some h → active_handle ns h) as Hact.
  { intros p h (t & Ht & Hv)%Hspec. eapply (sorted_active env), (value_sorted env hi Hk b t); [done| |done].
    by eapply Hg, list_elem_of_lookup_2. }
  eapply yields_bind; [eapply (yields_lift _ _ (eq _)); [by apply (candidate_fact_ids_scan hi), Hact; apply (state_facts _ _ Hk)|done]|].
  intros ? <-. set (g rid := match facts (state k) !! N.to_nat rid with
    | Some row => if in_plan_view env (derivation_generation row) plan i
                  then [mkFactCandidate rid (arguments (row_key row)) (atom_dependency env a)] else []
    | None => [] end).
  eapply yields_impl; [apply (yields_omap _ g)|].
  - intros acc rid (row & Hr & _)%scanned_row. eapply yields_bind; [apply poll_inner_returns|]. intros _ _.
    eapply yields_bind; [by eapply (yields_lift _ row (eq row)), eq_refl; apply fact_Ok|]. intros ? <-.
    apply yields_ret. unfold g. rewrite Hr. destruct (in_plan_view _ _ _ _); [done|by rewrite app_nil_r].
  - intros l ->. split.
    + intros fc (rid & (row & Hr & Hmatch)%scanned_row & Hfc)%elem_of_mjoin_fmap. unfold g in Hfc. rewrite Hr in Hfc.
      destruct (in_plan_view _ _ _ _) eqn:Ev; [|set_solver]. apply list_elem_of_singleton in Hfc as ->. cbn.
      split; [done|]. exists row. apply row_matches_spec in Hmatch as (Ha & Hp & _). split_and!; [done|done|done|done|by left].
    + intros rid handles row σ (Hr & Hp & Hv & _ & Hh) Hσ Hbσ Hi.
      destruct Hh as [->|[? _]]; [|done]. exists (mkFactCandidate rid (arguments (row_key row)) (atom_dependency env a)).
      split; [|done]. apply elem_of_mjoin_fmap. exists rid. split; [|unfold g; destruct Hr as [-> _]; rewrite Hv; by left].
      apply (elem_of_scan _ _ _ row Hact); [apply Hr|]. apply row_matches_spec. split_and!; [apply Hr|done|].
      intros p h (t & Ht & Hvt)%elem_of_btree_entries%Hspec. destruct (Forall2_lookup_l _ _ _ _ _ Hi Ht) as (h' & Hh' & Hv').
      apply (value_mono env b σ) in Hvt; [|done]. congruence.
Qed.

(** ** Inequalities *)

Lemma paired_atom a kind :
  atom_ok prog a → Rule.predicate_kind (ra_predicate_id a) prog = Ok kind →
  kind = Equality ∨ kind = Inequality ∨ kind = OrderingGuard →
  ∃ t u, ra_arguments a = [t; u] ∧ term_sort t = term_sort u.
Proof.
  intros (p & Hp & Hs & _) (p' & Hp' & ->)%predicate_kind_Ok Hkind. rewrite Hp in Hp'. injection Hp' as <-.
  pose proof (predicate_signature _ _ (program_predicates _ Hprog _ _ Hp)) as Hsig.
  assert (Rule.paired_sorts (rp_argument_sorts p) = true) as (s & E)%paired_sorts_spec by (by destruct Hkind as [E|[E|E]]; rewrite E in Hsig).
  rewrite E in Hs. destruct (ra_arguments a) as [|t [|u [|]]]; try done. injection Hs as Ht Hu. exists t, u. split; [done|congruence].
Qed.

Lemma rank_inj h h' r : node_rank h k = Ok r → node_rank h' k = Ok r → h = h'.
Proof.
  unfold node_rank. intros (n & _ & [= <-])%outcome_bind_Ok (n' & _ & [= _ Hs Hg])%outcome_bind_Ok.
  destruct h, h'. cbn in *. congruence.
Qed.

Lemma instance_two a t u handles σ :
  ra_arguments a = [t; u] →
  instance_of env a handles σ ↔ ∃ h h', handles = [h; h'] ∧ value env σ t = Some h ∧ value env σ u = Some h'.
Proof.
  intros E. unfold instance_of. rewrite E. split.
  - intros (h & l & Ht & (h' & l' & Hu & ->%Forall2_nil_inv_l & ->)%Forall2_cons_inv_l & ->)%Forall2_cons_inv_l. eauto.
  - intros (h & h' & -> & Ht & Hu). by repeat constructor.
Qed.

(** A query that a row in rank order answers, whichever way round it is read. *)
Definition answers (q : gmap N NodeHandle) (args : list NodeHandle) : Prop :=
  ∀ p h, q !! p = Some h → args !! N.to_nat p = Some h.

Lemma answers_insert p h q args : args !! N.to_nat p = Some h → answers q args → answers (<[p := h]> q) args.
Proof.
  intros Hp Hq p' h'. destruct (decide (p = p')) as [<-|]; [rewrite lookup_insert_eq; by intros [= <-]|].
  rewrite lookup_insert_ne by done. apply Hq.
Qed.

Lemma answers_empty args : answers ∅ args.
Proof. intros p h. by rewrite lookup_empty. Qed.

Definition resolution (b : Bindings) (t : Term) : option (NodeHandle * DependencySet) :=
  (λ h, (h, term_dependency env t)) <$> value env b t.

Lemma inequality_queries_spec a b t u :
  ra_arguments a = [t; u] → good env b → atom_grounded env a →
  ∃ qs, inequality_queries env [resolution b t; resolution b u] = Ok qs ∧
    (∀ q p h, q ∈ qs → q !! p = Some h → active_handle ns h) ∧
    ∀ σ args handles, b ⊆ σ → instance_of env a handles σ → handles = args ∨ handles = reverse args →
      rank_ordered env args → ∃ q, q ∈ qs ∧ answers q args.
Proof.
  intros Ea Hb Hg.
  assert (∀ v h, v ∈ [t; u] → value env b v = Some h → active_handle ns h) as Hact.
  { intros v h Hv Hh. eapply (sorted_active env), (value_sorted env hi Hk b v); [done| |done]. apply Hg. by rewrite Ea. }
  assert (∀ σ args handles, b ⊆ σ → instance_of env a handles σ → handles = args ∨ handles = reverse args →
    ∃ h h', value env σ t = Some h ∧ value env σ u = Some h' ∧ (args = [h; h'] ∨ args = [h'; h])) as Hinst.
  { intros σ args handles _ Hi Hh. apply (instance_two _ _ _ _ _ Ea) in Hi as (h & h' & -> & Ht & Hu). exists h, h'.
    split_and!; [done|done|]. destruct Hh as [<-|Hr]; [by left|]. right. apply (inj reverse). by rewrite <-Hr. }
  unfold resolution. destruct (value env b t) as [h|] eqn:Et, (value env b u) as [h'|] eqn:Eu; cbn.
  - destruct (node_rank_Ok env h) as [r Hr]; [apply (Hact t); [set_solver|done]|].
    destruct (node_rank_Ok env h') as [r' Hr']; [apply (Hact u); [set_solver|done]|]. rewrite Hr. cbn. rewrite Hr'. cbn.
    set (ordered := bool_decide (ord_le r r')).
    exists [<[0 := if ordered then h else h']> (<[1 := if ordered then h' else h]> ∅)]. split_and!.
    + by destruct ordered.
    + intros q p x ->%list_elem_of_singleton. rewrite !lookup_insert_Some, lookup_empty.
      destruct ordered; intros [[_ <-]|[_ [[_ <-]|[_ ?]]]]; try done; first [apply (Hact t); [set_solver|done]|apply (Hact u); [set_solver|done]].
    + intros σ args handles Hσ Hi Hh Hord. destruct (Hinst _ _ _ Hσ Hi Hh) as (x & x' & Hx & Hx' & Hargs).
      apply (value_mono env b σ) in Et, Eu; [|done..]. assert (x = h) as -> by congruence. assert (x' = h') as -> by congruence.
      eexists. split; [by left|]. subst ordered. case_bool_decide as Hle.
      * destruct Hargs as [->| ->]; [by repeat apply answers_insert; [..|apply answers_empty]|].
        assert (r = r') as <-.
        { destruct (proj1 (ord_le_lt_eq r r') Hle) as [Hlt|]; [|done]. destruct (Hord h' h eq_refl). by exists r, r'. }
        rewrite (rank_inj h h' r Hr Hr'). by repeat apply answers_insert; [..|apply answers_empty].
      * destruct Hargs as [->| ->]; [|by repeat apply answers_insert; [..|apply answers_empty]].
        apply ord_not_le in Hle. destruct (Hord h h' eq_refl). by exists r', r.
  - exists [{[0 := h]}; {[1 := h]}]. split_and!; [done| |].
    + intros q p x Hq Hx. assert (x = h) as ->; [|apply (Hact t); [set_solver|done]].
      apply elem_of_cons in Hq as [->|Hq]; [|apply list_elem_of_singleton in Hq as ->]; by apply lookup_singleton_Some in Hx as [_ <-].
    + intros σ args handles Hσ Hi Hh _. destruct (Hinst _ _ _ Hσ Hi Hh) as (x & x' & Hx & Hx' & Hargs).
      apply (value_mono env b σ) in Et; [|done]. assert (x = h) as -> by congruence.
      destruct Hargs as [->| ->]; [exists {[0 := h]}|exists {[1 := h]}]; (split; [set_solver|]);
        intros p y [<- <-]%lookup_singleton_Some; done.
  - exists [{[0 := h']}; {[1 := h']}]. split_and!; [done| |].
    + intros q p x Hq Hx. assert (x = h') as ->; [|apply (Hact u); [set_solver|done]].
      apply elem_of_cons in Hq as [->|Hq]; [|apply list_elem_of_singleton in Hq as ->]; by apply lookup_singleton_Some in Hx as [_ <-].
    + intros σ args handles Hσ Hi Hh _. destruct (Hinst _ _ _ Hσ Hi Hh) as (x & x' & Hx & Hx' & Hargs).
      apply (value_mono env b σ) in Eu; [|done]. assert (x' = h') as -> by congruence.
      destruct Hargs as [->| ->]; [exists {[1 := h']}|exists {[0 := h']}]; (split; [set_solver|]);
        intros p y [<- <-]%lookup_singleton_Some; done.
  - exists [∅]. split_and!; [done|intros q p x ->%list_elem_of_singleton; by rewrite lookup_empty|].
    intros σ args handles _ _ _ _. exists ∅. split; [by left|apply answers_empty].
Qed.

(** The rows in the plan's view that answer one of the queries. *)
Lemma inequality_rows_returns pid plan i qs :
  (∀ q p h, q ∈ qs → q !! p = Some h → active_handle ns h) →
  yields (inequality_rows others clock env pid plan i qs) (λ rows, ∀ rid, rid ∈ rows ↔ ∃ q row, q ∈ qs ∧
    facts (state k) !! N.to_nat rid = Some row ∧ row_matches pid (btree_entries q) row = true ∧
    in_plan_view env (derivation_generation row) plan i = true).
Proof.
  intros Hact. unfold inequality_rows. eapply yields_impl; [eapply (yields_union _ (λ q rid, ∃ row,
    facts (state k) !! N.to_nat rid = Some row ∧ row_matches pid (btree_entries q) row = true ∧
    in_plan_view env (derivation_generation row) plan i = true))|].
  2: { intros rows Hrows rid. cbn beta in Hrows. rewrite Hrows. split; [intros [?|(q & ? & row & ?)]; [set_solver|by exists q, row]|].
    intros (q & row & ? & ?). right. eauto. }
  intros acc q Hq. eapply yields_bind;
    [eapply (yields_lift _ _ (eq _)); [apply (candidate_fact_ids_scan hi); [apply (state_facts _ _ Hk)|intros p h; by apply Hact]|done]|].
  intros ? <-. eapply yields_impl; [eapply (yields_union _ (λ x rid, x = rid ∧ ∃ row,
    facts (state k) !! N.to_nat rid = Some row ∧ in_plan_view env (derivation_generation row) plan i = true))|].
  - intros acc' x (row & Hr & _)%scanned_row. eapply yields_bind; [apply poll_inner_returns|]. intros _ _.
    eapply yields_bind; [by eapply (yields_lift _ row (eq row)), eq_refl; apply fact_Ok|]. intros ? <-.
    apply yields_ret. intros y. destruct (in_plan_view _ _ _ _) eqn:Ev.
    + rewrite elem_of_union, elem_of_singleton. split; [intros [->|]; [right; eauto|by left]|]. intros [|[-> _]]; [by right|by left].
    + split; [by left|]. intros [|(-> & row' & Hr' & Hv)]; [done|]. congruence.
  - intros rows Hrows rid. cbn beta in Hrows. rewrite Hrows. split.
    + intros [|(x & Hx & -> & row & Hr & Hv)]; [by left|]. right. exists row. split_and!; [done| |done].
      by apply (elem_of_scan _ _ _ row) in Hx; [|intros p h; by apply Hact|].
    + intros [|(row & Hr & Hm & Hv)]; [by left|]. right. exists rid. split; [|eauto].
      apply (elem_of_scan _ _ _ row); [intros p h; by apply Hact|done|done].
Qed.

Lemma elem_of_orientations handles args : handles ∈ orientations args ↔ handles = args ∨ handles = reverse args.
Proof. unfold orientations. rewrite elem_of_btree_elements, elem_of_list_to_set. set_solver. Qed.

Lemma inequality_candidates_returns plan i a b :
  good env b → atom_grounded env a → atom_ok prog a → Rule.predicate_kind (ra_predicate_id a) prog = Ok Inequality →
  yields (inequality_candidates others clock env a b plan i) (candidates_ok plan i Inequality a b).
Proof.
  intros Hb Hg Ha Hkind. destruct (paired_atom a Inequality Ha Hkind) as (t & u & Et & _); [auto|].
  unfold inequality_candidates. rewrite Et.
  assert (collectM (λ t, resolved_term env t b) [t; u] = Ok [resolution b t; resolution b u]) as Hres.
  { cbn [collectM]. rewrite !(resolved_term_Ok env hi Hk) by (done || apply Hg; rewrite Et; set_solver). done. }
  eapply yields_bind; [by eapply (yields_lift _ _ (eq _))|]. intros ? <-.
  assert (Dep.union (omap (fmap snd) [resolution b t; resolution b u]) = atom_dependency env a) as ->.
  { unfold atom_dependency. rewrite Et. apply union_same. intros l.
    assert (∀ v, value env b v = None → term_dependency env v = Dep.empty) as Hno.
    { intros v. unfold value, term_dependency. by destruct (variable_key v). }
    unfold resolution. destruct (value env b t) eqn:E1, (value env b u) eqn:E2; cbn;
      rewrite ?(Hno t), ?(Hno u), ?elem_of_union_cons, ?elem_of_dep_empty, ?elem_of_union_nil by done; tauto. }
  destruct (inequality_queries_spec a b t u Et Hb Hg) as (qs & Hqs & Hact & Hcomplete).
  eapply yields_bind; [by eapply (yields_lift _ _ (eq _))|]. intros ? <-.
  eapply yields_bind; [by apply inequality_rows_returns|]. intros rows Hrows. cbn beta in Hrows.
  assert (∀ rid, rid ∈ rows → ∃ row, active_row (state k) (N.to_nat rid) row ∧ predicate_id (row_key row) = ra_predicate_id a ∧
    in_plan_view env (derivation_generation row) plan i = true) as Hrow.
  { intros rid (q & row & _ & Hr & Hm & Hv)%Hrows. apply row_matches_spec in Hm as (Hm & Hp & _). by exists row. }
  set (fits handles := match unify_handles env a handles b with Ok o => bool_decide (is_Some o) | _ => false end).
  set (g rid := match facts (state k) !! N.to_nat rid with
    | Some row => mjoin ((λ handles, if fits handles then [mkFactCandidate rid handles (atom_dependency env a)] else [])
        <$> orientations (arguments (row_key row)))
    | None => [] end).
  assert (∀ rid row handles h, active_row (state k) (N.to_nat rid) row → handles ∈ orientations (arguments (row_key row)) →
    h ∈ handles → active_handle ns h) as Horient.
  { intros rid row handles h Hr Ho%elem_of_orientations Hh. apply (row_active_arguments rid row); [done|].
    destruct Ho as [->| ->]; [done|by rewrite elem_of_reverse in Hh]. }
  eapply yields_impl; [apply (yields_omap _ g)|].
  - intros acc rid Hin%elem_of_btree_elements. destruct (Hrow rid Hin) as (row & Hr & _).
    eapply yields_bind; [eapply (yields_lift _ row (eq row)); [apply fact_Ok, Hr|done]|]. intros ? <-.
    unfold g. destruct Hr as [Hr Hra]. rewrite Hr. apply (yields_omap _ (λ handles, if fits handles then _ else [])).
    intros acc' handles Ho. eapply yields_bind; [apply poll_inner_returns|]. intros _ _.
    destruct (unify_handles_spec env hi Hk a handles b Hb Hg) as (o & Hu & _); [intros h Hin'; by eapply (Horient rid row); [split|..]|].
    eapply yields_bind; [by eapply (yields_lift _ _ (eq _))|]. intros ? <-. apply yields_ret. unfold fits. rewrite Hu.
    case_bool_decide; [done|by rewrite app_nil_r].
  - intros l ->. cbn [app]. split.
    + intros fc (rid & Hin%elem_of_btree_elements & Hfc)%elem_of_mjoin_fmap. destruct (Hrow rid Hin) as (row & Hr & Hp & Hv).
      unfold g in Hfc. destruct Hr as [Hr Hra]. rewrite Hr in Hfc. apply elem_of_mjoin_fmap in Hfc as (handles & Ho & Hfc).
      destruct (fits handles); [|set_solver]. apply list_elem_of_singleton in Hfc as ->. cbn. split; [done|]. exists row.
      apply elem_of_orientations in Ho. split_and!; [done|done|done|done|]. naive_solver.
    + intros rid handles row σ (Hr & Hp & Hv & Hord & Hh) Hσ Hbσ Hi.
      assert (handles = arguments (row_key row) ∨ handles = reverse (arguments (row_key row))) as Ho by naive_solver.
      destruct (Hcomplete σ (arguments (row_key row)) handles) as (q & Hq & Hans); [done|done|done|by apply Hord|].
      exists (mkFactCandidate rid handles (atom_dependency env a)). split; [|done]. apply elem_of_mjoin_fmap. exists rid. split.
      * apply elem_of_btree_elements, Hrows. exists q, row. split_and!; [done|apply Hr| |done]. apply row_matches_spec.
        split_and!; [apply Hr|done|]. intros p h Hph%elem_of_btree_entries. by apply Hans.
      * apply elem_of_orientations in Ho as Hor. unfold g. destruct Hr as [Hr Hra]. rewrite Hr. apply elem_of_mjoin_fmap. exists handles. split; [done|].
        destruct (unify_handles_spec env hi Hk a handles b Hb Hg) as (o & Hu & Hspec); [intros h Hin'; by eapply (Horient rid row); [split|..]|].
        unfold fits. rewrite Hu. destruct o as [[b' d]|]; [by left|]. by destruct (Hspec σ Hσ Hbσ).
Qed.

(** ** Filters *)

Lemma branch_unique strict strict' plan i a b b' b'' ch ch' :
  atom_branch env strict plan i a b b' ch → atom_branch env strict' plan i a b b'' ch' → b' ⊆ b'' → b' = b''.
Proof.
  intros [_ _ Hd _] [_ _ Hd' _] Hs. apply map_eq. intros key. destruct (b' !! key) as [h|] eqn:E.
  - symmetry. by eapply lookup_weaken.
  - symmetry. apply not_elem_of_dom. rewrite Hd', <-Hd. by apply not_elem_of_dom.
Qed.

Lemma variable_bound b t : value env b t = None → ∃ key, variable_key t = Some key ∧ b !! key = None.
Proof. unfold value. destruct (variable_key t) as [key|]; [eauto|done]. Qed.

Lemma variables_two a t u :
  ra_arguments a = [t; u] → Plans.atom_variables a = list_to_set (term_variables [t]) ∪ list_to_set (term_variables [u]).
Proof.
  intros E. unfold Plans.atom_variables. rewrite E. unfold term_variables. cbn.
  destruct (variable_key t), (variable_key u); cbn; set_solver.
Qed.

(** A bound term contributes no new variable. *)
Lemma value_dom b t h : value env b t = Some h → list_to_set (term_variables [t]) ⊆ dom b.
Proof.
  unfold value, term_variables. cbn. destruct (variable_key t) as [key|]; cbn; [|set_solver].
  intros Hh%elem_of_dom_2. set_solver.
Qed.

Lemma value_insert b t key h : variable_key t = Some key → value env (<[key := h]> b) t = Some h.
Proof. intros E. unfold value. by rewrite E, lookup_insert_eq. Qed.

Lemma key_variables t key : variable_key t = Some key → list_to_set (term_variables [t]) = ({[key]} : gset (TermSort * N)).
Proof. intros E. unfold term_variables. cbn. rewrite E. cbn. set_solver. Qed.

Lemma elem_of_active_handles h : h ∈ active_node_handles k ↔ active_handle ns h.
Proof. apply elem_of_active_node_handles, (kernel_slots env hi Hk). Qed.

Section equality.
Context (strict : bool) (plan : ClauseJoinPlan) (i : N) (a : RuleAtom) (t u : Term) (b : Bindings).
Hypothesis Hkind : Rule.predicate_kind (ra_predicate_id a) prog = Ok Equality.
Hypothesis Et : ra_arguments a = [t; u].
Hypothesis Hsort : term_sort t = term_sort u.
Hypothesis Hb : good env b.
Hypothesis Hg : atom_grounded env a.

Lemma equality_branch b' :
  atom_branch env strict plan i a b b' None ↔
  b ⊆ b' ∧ good env b' ∧ dom b' = dom b ∪ Plans.atom_variables a ∧ ∃ h, value env b' t = Some h ∧ value env b' u = Some h.
Proof.
  split.
  - intros [H1 H2 H3 Hs]. split_and!; [done..|]. inversion Hs as [t' u' ? ? Hk'|t' u' h Hk' Et' Ht' Hu'|]; subst; [congruence|].
    rewrite Et in Et'. injection Et' as <- <-. eauto.
  - intros (H1 & H2 & H3 & h & Ht & Hu). split; [done..|]. by eapply satisfied_equality.
Qed.

(** One side is bound and the other a fresh variable. *)
Lemma equality_bind v key h :
  (v = t ∨ v = u) → (value env b t = Some h ∧ v = u ∨ value env b u = Some h ∧ v = t) →
  variable_key v = Some key → b !! key = None →
  node_sort h k = Ok (node_sort_of key.1) ∧ ∀ b', atom_branch env strict plan i a b b' None ↔ b' = <[key := h]> b.
Proof.
  intros _ Hcase Hkey Hfree.
  assert (grounded env t ∧ grounded env u) as [Hgt Hgu] by (split; apply Hg; rewrite Et; set_solver).
  assert (sorted_handle env key.1 h) as Hsh.
  { rewrite (variable_key_sort _ _ Hkey). destruct Hcase as [[Hv ->]|[Hv ->]]; [rewrite <-Hsort|rewrite Hsort];
      by apply (value_sorted env hi Hk b). }
  split.
  { destruct (node_sort_Ok env h key.1) as (sort & -> & E); [by eapply sorted_active|]. by rewrite (proj2 E). }
  assert (b ⊆ <[key := h]> b) as Hsub by (by apply insert_subseteq).
  assert (value env (<[key := h]> b) t = Some h ∧ value env (<[key := h]> b) u = Some h) as [Ht Hu].
  { destruct Hcase as [[Hv ->]|[Hv ->]]; (split; [|]); try (by apply value_insert); by eapply value_mono. }
  assert (dom (<[key := h]> b) = dom b ∪ Plans.atom_variables a) as Hdom.
  { rewrite dom_insert_L, (variables_two a t u Et). destruct Hcase as [[Hv ->]|[Hv ->]]; apply value_dom in Hv;
      rewrite (key_variables _ _ Hkey); set_solver. }
  assert (atom_branch env strict plan i a b (<[key := h]> b) None) as Hbr.
  { apply equality_branch. split_and!; [done|by apply good_insert|done|eauto]. }
  intros b'. split; [|by intros ->]. intros Hb'. symmetry. apply (branch_unique _ _ _ _ _ _ _ _ _ _ Hbr Hb').
  apply equality_branch in Hb' as (Hs & _ & _ & h' & Ht' & Hu'). apply insert_subseteq_l; [|done].
  assert (∀ x, value env b' v = Some x → b' !! key = Some x) as Hval by (intros x; unfold value; by rewrite Hkey).
  apply Hval. destruct Hcase as [[Hv ->]|[Hv ->]]; apply (value_mono env b b') in Hv; congruence || done.
Qed.

Lemma equality_bound h h' :
  value env b t = Some h → value env b u = Some h' → ∀ b', atom_branch env strict plan i a b b' None ↔ h = h' ∧ b' = b.
Proof.
  intros Ht Hu b'. assert (dom b ∪ Plans.atom_variables a = dom b) as Hdom.
  { rewrite (variables_two a t u Et). apply value_dom in Ht, Hu. set_solver. }
  split.
  - intros Hb'. pose proof Hb' as (Hs & _ & _ & x & Htx & Hux)%equality_branch. apply (value_mono env b b') in Ht, Hu; [|done..].
    assert (h = h') as <- by congruence. split; [done|]. symmetry. apply map_eq. intros key. destruct (b !! key) eqn:E.
    + symmetry. by eapply lookup_weaken.
    + symmetry. apply not_elem_of_dom. rewrite (branch_dom _ _ _ _ _ _ _ _ Hb'), Hdom. by apply not_elem_of_dom.
  - intros [<- ->]. apply equality_branch. split_and!; [done|done|done|eauto].
Qed.

Lemma equality_free key key' h :
  variable_key t = Some key → variable_key u = Some key' → b !! key = None → b !! key' = None → sorted_handle env key.1 h →
  atom_branch env strict plan i a b (<[(key.1, key'.2) := h]> (<[key := h]> b)) None.
Proof.
  intros Hkt Hku Hf Hf' Hsh. assert (key.1 = key'.1) as Es by (by rewrite (variable_key_sort _ _ Hkt), (variable_key_sort _ _ Hku)).
  rewrite Es in *. rewrite <-surjective_pairing. apply equality_branch. split_and!.
  - destruct (decide (key = key')) as [->|]; [rewrite insert_insert_eq; by apply insert_subseteq|].
    etrans; [by apply (insert_subseteq b key h)|]. apply insert_subseteq. by rewrite lookup_insert_ne.
  - apply good_insert; [apply good_insert; [done|]|]; [by rewrite Es|done].
  - rewrite !dom_insert_L, (variables_two a t u Et), (key_variables _ _ Hkt), (key_variables _ _ Hku). set_solver.
  - exists h. split; [|by apply value_insert]. unfold value. rewrite Hkt.
    destruct (decide (key' = key)) as [->|]; [by rewrite lookup_insert_eq|]. by rewrite lookup_insert_ne, lookup_insert_eq.
Qed.
End equality.

(** The bindings that satisfy an equality, with the merges they depend on. *)
Lemma equality_candidates_returns strict plan i a b :
  good env b → atom_grounded env a → atom_ok prog a → Rule.predicate_kind (ra_predicate_id a) prog = Ok Equality →
  yields (equality_candidates others clock env a b) (λ l,
    (∀ b' d, (b', d) ∈ l → atom_branch env strict plan i a b b' None ∧ ∀ x, x ∈ as_slice d ↔ x ∈ as_slice (atom_dependency env a)) ∧
    ∀ b', atom_branch env strict plan i a b b' None → ∃ d, (b', d) ∈ l).
Proof.
  intros Hb Hg Ha Hkind. destruct (paired_atom a Equality Ha Hkind) as (t & u & Et & Hsort); [auto|].
  assert (grounded env t ∧ grounded env u) as [Hgt Hgu] by (split; apply Hg; rewrite Et; set_solver).
  unfold equality_candidates. rewrite Et. cbn [index_or_crash lookup list_lookup].
  eapply yields_bind; [by eapply (yields_lift _ _ (eq t))|]. intros ? <-.
  eapply yields_bind; [eapply (yields_lift _ _ (eq _)); [by apply (resolved_term_Ok env hi Hk)|done]|]. intros ? <-.
  eapply yields_bind; [by eapply (yields_lift _ _ (eq u))|]. intros ? <-.
  eapply yields_bind; [eapply (yields_lift _ _ (eq _)); [by apply (resolved_term_Ok env hi Hk)|done]|]. intros ? <-.
  assert (∀ v, value env b v = None → term_dependency env v = Dep.empty) as Hno.
  { intros v. unfold value, term_dependency. by destruct (variable_key v). }
  assert (∀ x, x ∈ as_slice (atom_dependency env a) ↔ x ∈ as_slice (term_dependency env t) ∨ x ∈ as_slice (term_dependency env u)) as Hdep.
  { intros x. unfold atom_dependency. rewrite Et. cbn. rewrite !elem_of_union_cons, elem_of_union_nil. tauto. }
  destruct (value env b t) as [h|] eqn:Ht, (value env b u) as [h'|] eqn:Hu; cbn [fmap option_fmap option_map].
  - pose proof (equality_bound strict plan i a t u b Hkind Et Hsort Hb Hg h h' Ht Hu) as Hbr. apply yields_ret. cbn [fst snd].
    case_bool_decide as E; cbn [negb]; (split; [intros b' d Hin|intros b' [Hh ->]%Hbr]); [|by eexists; left|by apply elem_of_nil in Hin|done].
    apply list_elem_of_singleton in Hin as [= -> ->]. split; [by apply Hbr|]. intros x.
    rewrite Hdep, !elem_of_union_cons, elem_of_union_nil. tauto.
  - destruct (variable_bound b u Hu) as (key & Hkey & Hfree).
    destruct (equality_bind strict plan i a t u b Hkind Et Hsort Hb Hg u key h) as [Hs Hbr]; [by right|by left|done|done|].
    eapply yields_bind; [eapply (yields_lift _ _ (eq (Some (<[key := h]> b)))); [|done]|].
    { unfold bind_unresolved. rewrite Hkey. cbn [fst snd]. rewrite Hs, bind_Ok_l. by rewrite bool_decide_eq_true_2. }
    intros ? <-. apply yields_ret. split; [|intros b' ->%Hbr; eexists; by left].
    intros b' d [= -> ->]%list_elem_of_singleton. split; [by apply Hbr|]. intros x. rewrite Hdep, (Hno u), elem_of_dep_empty by done. tauto.
  - destruct (variable_bound b t Ht) as (key & Hkey & Hfree).
    destruct (equality_bind strict plan i a t u b Hkind Et Hsort Hb Hg t key h') as [Hs Hbr]; [by left|by right|done|done|].
    eapply yields_bind; [eapply (yields_lift _ _ (eq (Some (<[key := h']> b)))); [|done]|].
    { unfold bind_unresolved. rewrite Hkey. cbn [fst snd]. rewrite Hs, bind_Ok_l. by rewrite bool_decide_eq_true_2. }
    intros ? <-. apply yields_ret. split; [|intros b' ->%Hbr; eexists; by left].
    intros b' d [= -> ->]%list_elem_of_singleton. split; [by apply Hbr|]. intros x. rewrite Hdep, (Hno t), elem_of_dep_empty by done. tauto.
  - destruct (variable_bound b t Ht) as (key & Hkey & Hfree), (variable_bound b u Hu) as (key' & Hkey' & Hfree').
    rewrite Hkey, Hkey'. cbn [ok_or].
    eapply yields_bind; [by eapply (yields_lift _ _ (eq key))|]. intros ? <-.
    eapply yields_bind; [by eapply (yields_lift _ _ (eq key'))|]. intros ? <-.
    set (bound h := <[(key.1, key'.2) := h]> (<[key := h]> b)).
    eapply yields_impl; [apply (yields_omap _ (λ h, match node_sort h k with
      Ok sort => if bool_decide (sort = node_sort_of key.1) then [(bound h, Dep.empty)] else [] | _ => [] end))|].
    + intros acc h Hh%elem_of_active_handles. eapply yields_bind; [apply poll_inner_returns|]. intros _ _.
      destruct (node_sort_Ok env h key.1 Hh) as (sort & -> & _). eapply yields_bind; [by eapply (yields_lift _ _ (eq sort))|].
      intros ? <-. apply yields_ret. case_bool_decide; cbn [negb]; [done|by rewrite app_nil_r].
    + intros l ->. cbn [app]. split.
      * intros b' d (h & Hh%elem_of_active_handles & Hin)%elem_of_mjoin_fmap.
        destruct (node_sort_Ok env h key.1 Hh) as (sort & Es & Hs). rewrite Es in Hin. case_bool_decide; [|set_solver].
        apply list_elem_of_singleton in Hin as [= -> ->]. split; [apply (equality_free strict plan i a t u); try done; by apply Hs|].
        intros x. rewrite Hdep, (Hno t), (Hno u), elem_of_dep_empty by done. tauto.
      * intros b' Hb'. pose proof Hb' as (Hs & Hgood & _ & h & Hth & Huh)%(equality_branch strict plan i a t u b Hkind Et).
        unfold value in Hth, Huh. rewrite Hkey in Hth. rewrite Hkey' in Huh. pose proof (Hgood _ _ Hth) as Hsh.
        exists Dep.empty. apply elem_of_mjoin_fmap. exists h. split; [by eapply elem_of_active_handles, sorted_active|].
        destruct (node_sort_Ok env h key.1) as (sort & -> & Es); [by eapply sorted_active|]. rewrite bool_decide_eq_true_2 by (by apply Es).
        apply list_elem_of_singleton. f_equal. symmetry.
        apply (branch_unique strict strict plan i a b (bound h) b' None None); [by apply (equality_free strict plan i a t u)|done|].
        unfold bound. assert (key.1 = key'.1) as E1 by (by rewrite (variable_key_sort _ _ Hkey), (variable_key_sort _ _ Hkey')).
        rewrite E1, <-surjective_pairing. apply insert_subseteq_l; [done|]. by apply insert_subseteq_l.
Qed.

(** A guard whose variables are bound answers. *)
Lemma ordering_guard_Ok strict plan i a b :
  good env b → atom_grounded env a → atom_ok prog a → is_guard prog a → Plans.atom_variables a ⊆ dom b →
  ∃ o, ordering_guard env a b = Ok o ∧
    match o with
    | Some (b', d) => b' = b ∧ (∀ x, x ∈ as_slice d ↔ x ∈ as_slice (atom_dependency env a)) ∧ atom_branch env strict plan i a b b None
    | None => ∀ b', ¬ atom_branch env strict plan i a b b' None
    end.
Proof.
  intros Hb Hg Ha Hkind Hvars. destruct (paired_atom a OrderingGuard Ha Hkind) as (t & u & Et & _); [auto|].
  assert (∀ v, v ∈ [t; u] → ∃ h, value env b v = Some h ∧ active_handle ns h) as Hval.
  { intros v Hv. destruct (value env b v) as [h|] eqn:E.
    - exists h. split; [done|]. eapply (sorted_active env), (value_sorted env hi Hk b v); [done| |done]. apply Hg. by rewrite Et.
    - apply variable_bound in E as (key & Hkey & Hfree). apply not_elem_of_dom in Hfree. destruct Hfree. apply Hvars.
      apply (elem_of_atom_variables a v); [by rewrite Et|done]. }
  destruct (Hval t) as (h & Ht & Hh); [set_solver|]. destruct (Hval u) as (h' & Hu & Hh'); [set_solver|].
  unfold ordering_guard. rewrite Et. cbn [index_or_crash lookup list_lookup]. rewrite !bind_Ok_l.
  rewrite (resolved_term_Ok env hi Hk t) by (done || apply Hg; rewrite Et; set_solver). rewrite Ht, !bind_Ok_l.
  cbn [fmap option_fmap option_map ok_or]. rewrite !bind_Ok_l.
  rewrite (resolved_term_Ok env hi Hk u) by (done || apply Hg; rewrite Et; set_solver). rewrite Hu, !bind_Ok_l.
  cbn [fmap option_fmap option_map ok_or]. rewrite !bind_Ok_l. cbn [fst snd].
  destruct (node_rank_Ok env h Hh) as [r Hr], (node_rank_Ok env h' Hh') as [r' Hr']. rewrite Hr, bind_Ok_l, Hr', bind_Ok_l.
  assert (∀ b', atom_branch env strict plan i a b b' None → ord_lt r r') as Hlt.
  { intros b' [Hs _ _ Hsat]. inversion Hsat as [t' u' x x' Hk' Et' Hx Hx' (s & s' & Hs1 & Hs2 & Hlt)|? ? ? Hk'|]; subst;
      [|unfold is_guard in Hkind; congruence].
    rewrite Et in Et'. injection Et' as <- <-. apply (value_mono env b b') in Ht, Hu; [|done..].
    assert (x = h) as -> by congruence. assert (x' = h') as -> by congruence. congruence. }
  case_bool_decide as Hle.
  - exists None. split; [done|]. intros b' Hb'%Hlt. by apply ord_not_le in Hb'.
  - apply ord_not_le in Hle. eexists. split; [done|]. split_and!; [done| |].
    + intros x. unfold atom_dependency. rewrite Et. cbn. rewrite !elem_of_union_cons. tauto.
    + split; [done|done|set_solver|]. by apply (satisfied_guard _ _ _ _ _ _ t u h h'); [..|exists r, r'].
Qed.
End candidates.
