(* ===== verification/JoinExact.v ===== *)
(** * Exactness of the indexed join

    The join of one plan over the rows of a kernel, step by step and as a whole:
    the matches of [IndexedJoinEvaluator::matches] are the solutions of the clause
    in which the delta row is read in its stored order. *)

From S2P Require Import Prelude Order Errors Model Queue Store Kernel KernelBase Arena Facts FactOps StateInv.
From S2P Require Import Cancel RuleModel RulePlans Joins RuleSpec PlanSpec JoinBase JoinSpec.
Import Kernel Join.

#[local] Opaque Dep.union Dep.empty.

(** The order of the atoms and of the choices does not matter. *)
#[global] Instance chosen_rows_perm : Proper ((≡ₚ) ==> (≡ₚ)) chosen_rows.
Proof. intros chs chs' H. unfold chosen_rows. by rewrite H. Qed.

#[global] Instance chosen_supports_perm : Proper ((≡ₚ) ==> (≡ₚ)) chosen_supports.
Proof. intros chs chs' H. unfold chosen_supports. by rewrite H. Qed.

#[global] Instance union_perm : Proper ((≡ₚ) ==> (=)) Dep.union.
Proof. intros ds es H. apply union_same. intros l. rewrite !elem_of_union_dep. by setoid_rewrite H. Qed.

#[global] Instance variables_perm : Proper ((≡ₚ) ==> (=)) variables.
Proof. intros l l' H. unfold variables. by rewrite H. Qed.

Section join.
Context (others : nat → CancellationState → CancellationState) (clock : nat → N).
Context (env : JoinEnv) (hi : N) (Hk : state_ok hi (state (je_kernel env))) (Hprog : program_ok (je_program env)).
Abbreviation k := (je_kernel env).
Abbreviation prog := (je_program env).
Abbreviation ns := (nodes (state (je_kernel env))).

Context (plan : ClauseJoinPlan) (c : RuleClause) (Hc : c ∈ clauses prog).
Hypothesis Hground : ∀ a, a ∈ rc_body c → atom_grounded env a.
Hypothesis Hnarrow : narrow c.

(** ** Guards find their variables bound *)

Definition guards_ready (bound : gset (TermSort * N)) (steps : list JoinStep) : Prop :=
  ∀ a v, a ∈ step_atoms c steps → is_guard prog a → v ∈ Plans.atom_variables a →
    v ∈ bound ∨ ∃ b, b ∈ step_atoms c steps ∧ ¬ virtual prog b ∧ v ∈ Plans.atom_variables b.

Lemma step_atoms_cons step steps a :
  body_atom c (js_body_index step) = Some a → step_atoms c (step :: steps) = a :: step_atoms c steps.
Proof. intros Ha. unfold step_atoms. cbn. by rewrite Ha. Qed.

Lemma guard_virtual a : is_guard prog a → virtual prog a.
Proof. intros Ha. by exists OrderingGuard. Qed.

Lemma guards_ready_cons bound step steps a :
  body_atom c (js_body_index step) = Some a → guards_ready bound (step :: steps) →
  guards_ready (bound ∪ Plans.atom_variables a) steps.
Proof.
  intros Ha Hr g v Hg Hguard Hv. unfold guards_ready in Hr. rewrite (step_atoms_cons _ _ _ Ha) in Hr.
  destruct (Hr g v) as [Hin|(b & [->|Hb]%elem_of_cons & Hnv & Hvb)]; [by right|done|done|set_solver|set_solver|].
  right. eauto.
Qed.

Lemma guard_bound bound step steps a :
  body_atom c (js_body_index step) = Some a → is_guard prog a → guards_ready bound (step :: steps) →
  (virtual prog a → Plans.atom_variables a ⊆ bound ∨
    ∀ step' b, step' ∈ steps → body_atom c (js_body_index step') = Some b → virtual prog b) →
  Plans.atom_variables a ⊆ bound.
Proof.
  intros Ha Hg Hr Hsched. destruct (Hsched (guard_virtual a Hg)) as [|Hrest]; [done|]. intros v Hv.
  unfold guards_ready in Hr. rewrite (step_atoms_cons _ _ _ Ha) in Hr.
  destruct (Hr a v) as [|(b & [->|Hb]%elem_of_cons & Hnv & _)]; [by left|done|done|done| |].
  - by destruct Hnv; apply guard_virtual.
  - apply list_elem_of_omap in Hb as (step' & Hs & Hb). by destruct Hnv; eapply Hrest.
Qed.

(** ** One step *)

Definition next_dependency (d : DependencySet) (a : RuleAtom) (ch : choice) : DependencySet :=
  Dep.union (d :: atom_dependency env a :: choice_support ch).

Lemma extension_step strict step steps a b d rows m :
  body_atom c (js_body_index step) = Some a →
  extension env strict plan c (step :: steps) b d rows m ↔
  ∃ b' ch, atom_branch env strict plan (js_body_index step) a b b' ch ∧
    extension env strict plan c steps b' (next_dependency d a ch) (rows ++ choice_row ch) m.
Proof.
  intros Ha. apply extension_cons; [done|]. intros ch l. unfold next_dependency. by rewrite !elem_of_union_cons.
Qed.

(** The matches of the steps that remain, after one branch. *)
Definition continues (continue : Bindings → DependencySet → list N → Matches → st JoinState NativeError Matches)
    (steps : list JoinStep) (bound : gset (TermSort * N)) : Prop :=
  ∀ b d rows found, good env b → canonical d → dom b = bound →
    yields (continue b d rows found)
      (added (extension env false plan c steps b d rows) (extension env true plan c steps b d rows) found).

Lemma dep_equal d e ds es :
  (∀ l, l ∈ as_slice d ↔ l ∈ as_slice e) → Dep.union (ds ++ d :: es) = Dep.union (ds ++ e :: es).
Proof. intros H. apply union_same. intros l. rewrite !elem_of_union_app, !elem_of_union_cons. by rewrite H. Qed.

Lemma row_has_support rid row : active_row (state k) rid row → supports row ≠ [].
Proof. intros Hr. apply (row_supports _ _ _ (facts_rows _ _ (state_facts _ _ Hk) _ _ Hr)). Qed.

(** A stored atom: the candidates, their unifiers and their supports. *)
Lemma stored_step_returns continue step steps a kind b d rows found candidates :
  body_atom c (js_body_index step) = Some a → Rule.predicate_kind (ra_predicate_id a) prog = Ok kind →
  kind ≠ OrderingGuard → kind ≠ Equality → good env b →
  continues continue steps (dom b ∪ Plans.atom_variables a) →
  candidates_ok env plan (js_body_index step) kind a b candidates →
  yields (foldST (join_row others clock env continue a b d rows) candidates found)
    (added (extension env false plan c (step :: steps) b d rows) (extension env true plan c (step :: steps) b d rows) found).
Proof.
  intros Ha Hkind Hng Hne Hb Hcont [Hsound Hcomplete].
  assert (a ∈ rc_body c) as Hin by (by eapply list_elem_of_lookup_2). pose proof (Hground a Hin) as Hg.
  set (i := js_body_index step) in *.
  set (found_by strict (fc : FactCandidate) m := ∃ b' d' row support, unify_handles env a (fc_handles fc) b = Ok (Some (b', d')) ∧
    active_row (state k) (N.to_nat (fc_row_id fc)) row ∧ support ∈ supports row ∧
    extension env strict plan c steps b' (next_dependency d a (Some (fc_row_id fc, support)))
      (rows ++ choice_row (Some (fc_row_id fc, support))) m).
  assert (∀ fc, fc ∈ candidates → ∃ o, unify_handles env a (fc_handles fc) b = Ok o ∧
    match o with
    | Some (b', d) => d = atom_dependency env a ∧ b ⊆ b' ∧ good env b' ∧ instance_of env a (fc_handles fc) b' ∧
        dom b' = dom b ∪ Plans.atom_variables a ∧ ∀ σ, b ⊆ σ → instance_of env a (fc_handles fc) σ → b' ⊆ σ
    | None => ∀ σ, good env σ → b ⊆ σ → ¬ instance_of env a (fc_handles fc) σ
    end) as Hunify.
  { intros fc (_ & row & Hr & _ & _ & _ & Hh)%Hsound. apply (unify_handles_spec env hi Hk); [done|done|]. intros h Hh'.
    apply (row_active_arguments env hi Hk (fc_row_id fc) row); [done|].
    destruct Hh as [<-|[_ E]]; [done|]. rewrite E in Hh'. by rewrite elem_of_reverse in Hh'. }
  eapply yields_impl; [apply (added_fold _ (found_by false) (found_by true))|].
  - intros fc found' Hfc. destruct (Hsound fc Hfc) as (Hlook & row & Hr & _). destruct (Hunify fc Hfc) as (o & Hu & Ho).
    unfold join_row. eapply yields_bind; [apply poll_inner_returns|]. intros _ _.
    eapply yields_bind; [by eapply (yields_lift _ _ (eq o))|]. intros ? <-. destruct o as [[b' d']|].
    2: { apply yields_ret, added_none. intros m (b' & d' & ? & ? & Hu' & _). congruence. }
    destruct Ho as (-> & Hsub & Hgood & Hi & Hdom & _).
    eapply yields_bind; [eapply (yields_lift _ row (eq row)); [apply fact_Ok, Hr|done]|]. intros ? <-.
    eapply yields_bind; [eapply (yields_lift _ tt (eq tt)); [|done]|intros ? <-].
    { rewrite bool_decide_eq_false_2; [done|]. by eapply row_has_support. }
    eapply yields_impl; [eapply (added_fold _
      (λ support, extension env false plan c steps b' (next_dependency d a (Some (fc_row_id fc, support))) (rows ++ choice_row (Some (fc_row_id fc, support))))
      (λ support, extension env true plan c steps b' (next_dependency d a (Some (fc_row_id fc, support))) (rows ++ choice_row (Some (fc_row_id fc, support)))))|].
    + intros support found'' Hsup. eapply yields_bind; [apply poll_inner_returns|]. intros _ _.
      assert (Dep.union [d; fc_lookup_dependency fc; atom_dependency env a; support] =
        next_dependency d a (Some (fc_row_id fc, support))) as ->.
      { rewrite Hlook. apply union_same. intros l. cbn. rewrite !elem_of_union_cons. tauto. }
      apply Hcont; [done|apply canonical_union|done].
    + intros found''. apply added_impl.
      * intros m (support & Hsup & Hm). by exists b', (atom_dependency env a), row, support.
      * intros m (b2 & d2 & row' & support & Hu' & Hr' & Hsup & Hm). rewrite Hu in Hu'. injection Hu' as <- <-.
        assert (row' = row) as -> by (destruct Hr, Hr'; congruence). eauto.
  - intros found'. apply added_impl.
    + intros m (fc & Hfc & b' & d' & row & support & Hu & Hr & Hsup & Hm). apply (extension_step false _ _ a); [done|].
      exists b', (Some (fc_row_id fc, support)). split; [|done].
      destruct (Hsound fc Hfc) as (_ & row' & Husable). destruct (Hunify fc Hfc) as (o & Hu' & Ho). rewrite Hu in Hu'.
      injection Hu' as <-. destruct Ho as (_ & Hsub & Hgood & Hi & Hdom & _). split; [done|done|done|].
      assert (row' = row) as -> by (destruct Husable as [[] _], Hr; congruence).
      by apply (satisfied_row _ _ _ _ _ _ kind _ row (fc_handles fc)).
    + intros m (b' & ch & Hbr & Hm)%(extension_step true _ _ a); [|done]. pose proof Hbr as [Hsub Hgood Hdom Hsat].
      inversion Hsat as [? ? ? ? Hk'|? ? ? Hk'|kind' rid row handles support Hk' _ _ Husable Hi Hsup]; subst ch; [congruence|congruence|].
      assert (kind' = kind) as -> by congruence.
      destruct (Hcomplete rid handles row b') as (fc & Hfc & Hrid & Hhandles); [done|done|done|done|].
      exists fc. split; [done|]. destruct (Hunify fc Hfc) as (o & Hu & Ho). rewrite Hhandles in Ho.
      destruct o as [[b2 d2]|]; [|by destruct (Ho b')]. destruct Ho as (_ & Hsub2 & Hgood2 & Hi2 & Hdom2 & Hleast).
      assert (b2 = b') as ->.
      { apply (branch_unique env true true plan i a b b2 b' (Some (rid, support)) (Some (rid, support))); [|done|by apply Hleast].
        split; [done|done|done|]. by apply (satisfied_row _ _ _ _ _ _ kind _ row handles). }
      exists b', d2, row, support. rewrite Hrid. split_and!; [done|apply Husable|done|done].
Qed.

(** ** The whole join *)

Lemma freeze_sorted σ :
  strictly_ascending ((λ b, (vb_sort b, vb_variable_id b)) <$> freeze_bindings σ) = true.
Proof.
  apply strictly_ascending_spec. unfold freeze_bindings. rewrite <-list_fmap_compose.
  assert (((λ b, (vb_sort b, vb_variable_id b)) ∘ λ e : TermSort * N * NodeHandle, mkBinding e.1.1 e.1.2 e.2) <$> btree_entries σ =
    (btree_entries σ).*1) as ->; [|apply btree_entries_sorted].
  apply list_fmap_ext. intros _ [[s v] h] _. done.
Qed.

Lemma extension_nil strict b d rows m :
  good env b → canonical d → extension env strict plan c [] b d rows m ↔ m = found_match plan b d rows.
Proof.
  intros Hb Hd. assert (Dep.union [d] = d) as Ed.
  { apply canonical_ext; [apply canonical_union|done|]. intros l. rewrite elem_of_union_cons, elem_of_union_nil. tauto. }
  split.
  - intros (σ & chs & _ & Hsub & Hdom & ->%Forall2_nil_inv_l & ->). cbn. rewrite app_nil_r, Ed. f_equal.
    apply map_eq. intros key. destruct (b !! key) eqn:E; [by eapply lookup_weaken|].
    apply not_elem_of_dom. rewrite Hdom. cbn. rewrite union_empty_r_L. by apply not_elem_of_dom.
  - intros ->. exists b, []. cbn. rewrite app_nil_r, Ed. split_and!; [done|done| |constructor|done]. cbn. set_solver.
Qed.

Lemma branch_kind strict i a b b' ch kind :
  atom_branch env strict plan i a b b' ch → Rule.predicate_kind (ra_predicate_id a) prog = Ok kind →
  kind = OrderingGuard ∨ kind = Equality → ch = None.
Proof. intros [_ _ _ Hs] Hkind Hor. destruct Hs; [done|done|]. destruct Hor; congruence. Qed.

Lemma join_steps_returns steps b d rows found :
  schedule prog c (dom b) steps → guards_ready (dom b) steps → good env b → canonical d →
  yields (join_steps others clock env plan c steps b d rows found)
    (added (extension env false plan c steps b d rows) (extension env true plan c steps b d rows) found).
Proof.
  intros Hsched. remember (dom b) as bound eqn:Hbound. revert b d rows found Hbound.
  induction Hsched as [bound|bound step steps a Ha Hs Hpos Hv Hsched IH]; intros b d rows found -> Hready Hb Hd;
    cbn [join_steps]; (eapply yields_bind; [apply tick_join_returns|intros _ _]).
  { eapply yields_bind; [eapply (yields_lift _ _ (eq (found_match plan b d rows))); [|done]|intros ? <-].
    { unfold new_match. by rewrite freeze_sorted. }
    eapply yields_impl; [apply insert_match_returns|]. intros found'. apply added_impl; intros m; by rewrite extension_nil. }
  assert (a ∈ rc_body c) as Hin by (by eapply list_elem_of_lookup_2). pose proof (Hground a Hin) as Hg.
  pose proof (body_atom_ok prog Hprog c a Hc Hin) as Hok. unfold body_atom in Ha. rewrite Ha. cbn [ok_or].
  eapply yields_bind; [by eapply (yields_lift _ _ (eq a))|intros ? <-].
  assert (∃ kind, Rule.predicate_kind (ra_predicate_id a) prog = Ok kind) as [kind Hkind].
  { destruct Hok as (p & Hp & _). exists (rp_kind p). apply predicate_kind_Ok. eauto. }
  eapply yields_bind; [by eapply (yields_lift _ _ (eq kind))|intros ? <-].
  assert (continues (join_steps others clock env plan c steps) steps (dom b ∪ Plans.atom_variables a)) as Hcont.
  { intros b' d' rows' found' Hb' Hd' Hdom. apply IH; [done|by apply (guards_ready_cons _ step)|done|done]. }
  case_bool_decide as Eg; [|case_bool_decide as Ee].
  - subst kind. assert (Plans.atom_variables a ⊆ dom b) as Hvars by (by eapply (guard_bound _ step)).
    assert (∀ strict, ∃ o, ordering_guard env a b = Ok o ∧ match o with
      | Some (b', d') => b' = b ∧ (∀ x, x ∈ as_slice d' ↔ x ∈ as_slice (atom_dependency env a)) ∧
          atom_branch env strict plan (js_body_index step) a b b None
      | None => ∀ b', ¬ atom_branch env strict plan (js_body_index step) a b b' None end) as Hguard.
    { intros strict. by apply (ordering_guard_Ok env hi Hk Hprog strict plan). }
    destruct (Hguard true) as (o & Ho & Htrue), (Hguard false) as (o' & Ho' & Hfalse). rewrite Ho in Ho'. injection Ho' as <-.
    eapply yields_bind; [by eapply (yields_lift _ _ (eq o))|intros ? <-]. destruct o as [[b' d']|].
    + destruct Htrue as (-> & Hd' & Htrue), Hfalse as (_ & _ & Hfalse).
      assert (Dep.union [d; d'] = next_dependency d a None) as ->.
      { apply union_same. intros l. cbn. rewrite !elem_of_union_cons, Hd'. done. }
      eapply yields_impl; [apply Hcont; [done|apply canonical_union|set_solver]|]. intros found'. apply added_impl; intros m.
      * intros Hm. apply (extension_step false _ _ a); [done|]. exists b, None. split; [done|]. cbn. by rewrite app_nil_r.
      * intros (b2 & ch & Hbr & Hm)%(extension_step true _ _ a); [|done].
        assert (ch = None) as -> by (by eapply branch_kind; [..|left]). cbn in Hm. rewrite app_nil_r in Hm.
        assert (b = b2) as <-; [|done]. by apply (branch_unique env true true plan _ a b b b2 None None Htrue Hbr), Hbr.
    + apply yields_ret, added_none. intros m (b2 & ch & Hbr & Hm)%(extension_step true _ _ a); [|done].
      assert (ch = None) as -> by (by eapply branch_kind; [..|left]). by apply (Htrue b2).
  - subst kind. eapply yields_bind.
    { intros j. pose proof (equality_candidates_returns others clock env hi Hk Hprog true plan (js_body_index step) a b Hb Hg Hok Hkind j) as H1.
      pose proof (equality_candidates_returns others clock env hi Hk Hprog false plan (js_body_index step) a b Hb Hg Hok Hkind j) as H2.
      destruct (equality_candidates _ _ _ _ _ _) as [[l|e|] j']; [exact (conj H1 H2)|done|done]. }
    cbv beta. intros l [[_ Hcomplete] [Hsound _]].
    eapply yields_impl; [apply (added_fold _
      (λ e, extension env false plan c steps e.1 (next_dependency d a None) rows)
      (λ e, extension env true plan c steps e.1 (next_dependency d a None) rows))|].
    + intros [b' d'] found' Hl. destruct (Hsound b' d' Hl) as [Hbr Hd'].
      eapply yields_bind; [apply poll_inner_returns|intros _ _]. cbn [fst snd].
      assert (Dep.union [d; d'] = next_dependency d a None) as ->.
      { apply union_same. intros x. cbn. rewrite !elem_of_union_cons, Hd'. done. }
      apply Hcont; [apply Hbr|apply canonical_union|apply Hbr].
    + intros found'. apply added_impl; intros m.
      * intros ([b' d'] & Hl & Hm). apply (extension_step false _ _ a); [done|]. exists b', None.
        cbn. rewrite app_nil_r. split; [by apply (Hsound b' d')|done].
      * intros (b' & ch & Hbr & Hm)%(extension_step true _ _ a); [|done].
        assert (ch = None) as -> by (by eapply branch_kind; [..|right]). cbn in Hm. rewrite app_nil_r in Hm.
        destruct (Hcomplete b' Hbr) as [d' Hl]. by exists (b', d').
  - eapply (yields_bind _ _ (candidates_ok env plan (js_body_index step) kind a b)).
    + case_bool_decide as Ei; [subst kind; by apply (inequality_candidates_returns others clock env hi Hk Hprog)|].
      apply (relation_candidates_returns others clock env hi Hk Hprog); [done|done|by apply Hnarrow|done].
    + intros candidates Hcand. by eapply stored_step_returns.
Qed.

(** ** Solutions of a clause *)

(** [delta_row i σ rid support]: the atom at [i] is the row [rid], derived in the
    current generation and read in its stored order. *)
Definition delta_row (i : N) (σ : Bindings) (rid : N) (support : DependencySet) : Prop :=
  ∃ a row, body_atom c i = Some a ∧ active_row (state k) (N.to_nat rid) row ∧
    derivation_generation row = read_generation (state k) ∧ predicate_id (row_key row) = ra_predicate_id a ∧
    instance_of env a (arguments (row_key row)) σ ∧ support ∈ supports row.

(** A solution binds the variables of the body and chooses a row and a support
    for every stored atom; the delta atom is the row [rid]. *)
Record solution (strict : bool) (rid : N) (σ : Bindings) (ρ : N → choice) : Prop := {
  solution_good : good env σ;
  solution_dom : dom σ = variables (rc_body c);
  solution_delta : ∃ support, ρ (pl_delta_body_index plan) = Some (rid, support) ∧ delta_row (pl_delta_body_index plan) σ rid support;
  solution_atoms i a : body_atom c i = Some a → i ≠ pl_delta_body_index plan → satisfied env strict plan i σ a (ρ i)
}.

(** The match of a solution: its dependency joins the supports of the rows with
    the merges behind the constants of the body. *)
Definition match_of (σ : Bindings) (ρ : N → choice) : JoinMatch :=
  let choices := ρ <$> range (length (rc_body c)) in
  found_match plan σ (Dep.union ((atom_dependency env <$> rc_body c) ++ chosen_supports choices)) (chosen_rows choices).

Hypothesis Hplan : plan_ok prog c plan.

Lemma choices_function (delta : N) (x : choice) (ids : list N) (chs : list choice) :
  NoDup ids → delta ∉ ids → length ids = length chs → ∃ ρ : N → choice, ρ delta = x ∧ ρ <$> ids = chs.
Proof.
  intros Hnd Hdelta. revert chs. induction Hnd as [|i ids Hi Hnd IH]; intros [|ch chs] Hlen; try done; [by exists (λ _, x)|].
  destruct (IH ltac:(set_solver) chs) as (ρ & Hd & Hρ); [by injection Hlen|].
  exists (λ j, if decide (j = i) then ch else ρ j). rewrite decide_False by set_solver. split; [done|].
  csimpl. rewrite decide_True by done. f_equal. rewrite <-Hρ. apply list_fmap_ext. intros n j Hj. apply decide_False.
  intros ->. apply Hi. by eapply list_elem_of_lookup_2.
Qed.

Lemma step_body_atom i : (N.to_nat i < length (rc_body c))%nat → is_Some (body_atom c i).
Proof. apply lookup_lt_is_Some. Qed.

(** The atoms of the plan are the atoms of the body. *)
Lemma plan_atoms a :
  body_atom c (pl_delta_body_index plan) = Some a → a :: step_atoms c (pl_steps plan) ≡ₚ rc_body c.
Proof.
  intros Ha. destruct Hplan as [_ Hcov _].
  assert (a :: step_atoms c (pl_steps plan) = omap (body_atom c) (pl_delta_body_index plan :: (js_body_index <$> pl_steps plan))) as ->.
  { cbn. rewrite Ha. f_equal. unfold step_atoms. clear. induction (pl_steps plan) as [|s l IH]; [done|]. csimpl.
    destruct (body_atom c (js_body_index s)); by rewrite IH. }
  rewrite Hcov. unfold range, body_atom. clear. 
  assert (∀ (l : list RuleAtom) pre, omap (λ i, (pre ++ l) !! N.to_nat i) (N.of_nat <$> seq (length pre) (length l)) = l) as H.
  { induction l as [|x l IH]; intros pre; [done|]. csimpl. rewrite Nat2N.id, lookup_app_r, Nat.sub_diag by lia. cbn. f_equal.
    specialize (IH (pre ++ [x])). rewrite length_app, <-app_assoc in IH. cbn in IH. by rewrite Nat.add_1_r in IH. }
  specialize (H (rc_body c) []). cbn [app length] in H. by rewrite H.
Qed.

(** What the join computes from a delta row are the matches of its solutions. *)
Lemma solutions_extend strict rid a row b m :
  body_atom c (pl_delta_body_index plan) = Some a → active_row (state k) (N.to_nat rid) row →
  derivation_generation row = read_generation (state k) → predicate_id (row_key row) = ra_predicate_id a →
  good env b → instance_of env a (arguments (row_key row)) b → dom b = Plans.atom_variables a →
  (∀ σ, instance_of env a (arguments (row_key row)) σ → b ⊆ σ) →
  (∃ support, support ∈ supports row ∧
    extension env strict plan c (pl_steps plan) b (Dep.union [atom_dependency env a; support]) [rid] m) ↔
  ∃ σ ρ, solution strict rid σ ρ ∧ m = match_of σ ρ.
Proof.
  intros Ha Hr Hgen Hp Hb Hi Hdom Hleast. pose proof (plan_atoms a Ha) as Hatoms.
  destruct (plan_indices prog c plan Hplan) as (Hnd & Hlen & Hidx).
  assert (∀ σ ρ support, ρ (pl_delta_body_index plan) = Some (rid, support) →
    found_match plan σ (Dep.union (Dep.union [atom_dependency env a; support] ::
        (atom_dependency env <$> step_atoms c (pl_steps plan)) ++ chosen_supports (ρ <$> (js_body_index <$> pl_steps plan))))
      ([rid] ++ chosen_rows (ρ <$> (js_body_index <$> pl_steps plan))) = match_of σ ρ) as Hmatch.
  { intros σ ρ support Hρ. unfold match_of. cbv zeta. destruct Hplan as [_ Hcov _]. unfold found_match. f_equal.
    - rewrite <-Hcov, <-Hatoms. csimpl. unfold chosen_supports. cbn [omap list_omap]. rewrite Hρ. cbn.
      apply union_same. intros l. rewrite !elem_of_union_cons, !elem_of_union_app, !elem_of_union_cons, elem_of_union_nil. tauto.
    - f_equal. apply sort_Permutation_eq. rewrite <-Hcov. csimpl. unfold chosen_rows. cbn [omap list_omap]. by rewrite Hρ. }
  split.
  - intros (support & Hsup & σ & chs & Hσ & Hsub & Hdom' & Hall & ->).
    destruct (choices_function (pl_delta_body_index plan) (Some (rid, support)) (js_body_index <$> pl_steps plan) chs)
      as (ρ & Hρ & Hchs); [done|intros [_ ?]%Hidx; done|rewrite length_fmap; by eapply Forall2_length|].
    exists σ, ρ. rewrite <-(Hmatch σ ρ support Hρ), Hchs. split; [|done]. split; [done| | |].
    + rewrite Hdom', Hdom. by rewrite <-Hatoms.
    + exists support. split; [done|]. exists a, row. split_and!; [done..| |done]. by eapply instance_mono.
    + intros i a' Ha' Hne. assert (i ∈ js_body_index <$> pl_steps plan) as Hin.
      { assert (i ∈ range (length (rc_body c))) as Hin by (apply elem_of_range; by eapply lookup_lt_Some).
        rewrite <-(plan_covers _ _ _ Hplan) in Hin. by apply elem_of_cons in Hin as [|]. }
      apply list_elem_of_fmap in Hin as (step & -> & [j Hj]%list_elem_of_lookup).
      destruct (Forall2_lookup_l _ _ _ _ _ Hall Hj) as (ch & Hch & a2 & Ha2 & Hs). rewrite Ha' in Ha2. injection Ha2 as <-.
      rewrite <-Hchs, <-list_fmap_compose, list_lookup_fmap, Hj in Hch. injection Hch as <-. done.
  - intros (σ & ρ & [Hσ Hdom' (support & Hρ & a' & row' & Ha' & Hr' & _ & _ & Hi' & Hsup) Hatoms'] & ->).
    assert (row' = row) as -> by (destruct Hr, Hr'; congruence). assert (a' = a) as -> by congruence.
    exists support. split; [done|]. exists σ, (ρ <$> (js_body_index <$> pl_steps plan)). split_and!; [done|by apply Hleast| | |].
    + rewrite Hdom', Hdom. by rewrite <-Hatoms.
    + rewrite <-list_fmap_compose. apply Forall2_fmap_r. apply Forall_Forall2_diag, Forall_forall. intros step Hstep.
      destruct (Hidx (js_body_index step)) as [Hlt Hne]; [by apply list_elem_of_fmap_2|].
      destruct (step_body_atom _ Hlt) as [a2 Ha2]. exists a2. split; [done|]. by apply Hatoms'.
    + symmetry. by apply (Hmatch σ ρ support).
Qed.

(** Every variable of a guard occurs in a stored atom of the body. *)
Definition guards_restricted : Prop :=
  ∀ a v, a ∈ rc_body c → is_guard prog a → v ∈ Plans.atom_variables a →
    ∃ b, b ∈ rc_body c ∧ ¬ virtual prog b ∧ v ∈ Plans.atom_variables b.

Hypothesis Hguards : guards_restricted.

Lemma plan_guards_ready a :
  body_atom c (pl_delta_body_index plan) = Some a → guards_ready (Plans.atom_variables a) (pl_steps plan).
Proof.
  intros Ha g v Hg Hguard Hv. pose proof (plan_atoms a Ha) as Hatoms.
  destruct (Hguards g v) as (b & Hb & Hnv & Hvb); [rewrite <-Hatoms; by right|done|done|].
  rewrite <-Hatoms in Hb. apply elem_of_cons in Hb as [->|Hb]; [by left|]. right. eauto.
Qed.

Lemma validate_plan_returns a :
  body_atom c (pl_delta_body_index plan) = Some a → Plans.triggerable prog a = true → Join.validate_plan env plan = Ok tt.
Proof.
  intros Ha Ht. destruct (plan_indices prog c plan Hplan) as (Hnd & Hlen & Hin). unfold Join.validate_plan.
  rewrite (plan_clause _ _ _ Hplan), (clause_Ok prog Hprog c Hc), bind_Ok_l. unfold body_atom in Ha. rewrite Ha. cbn [ok_or].
  rewrite bind_Ok_l. unfold Plans.triggerable in Ht. destruct (Rule.predicate_kind _ prog); try done. rewrite bind_Ok_l, Ht.
  cbn [negb reject_if]. rewrite bind_Ok_l, bool_decide_eq_true_2 by done. cbn [negb reject_if]. rewrite bind_Ok_l.
  assert (∀ steps indices, NoDup (js_body_index <$> steps) → (∀ i, i ∈ js_body_index <$> steps →
    (N.to_nat i < length (rc_body c))%nat ∧ i ∉ indices) → validate_indices c indices steps = Ok tt) as H.
  { clear. induction steps as [|s steps IH]; intros indices Hnd Hi; cbn; [done|]. csimpl in *. apply NoDup_cons in Hnd as [Hn Hnd].
    destruct (Hi (js_body_index s)) as [Hlt Hni]; [by left|]. rewrite bool_decide_eq_false_2 by done.
    destruct (Nat.leb_spec (length (rc_body c)) (N.to_nat (js_body_index s))); [lia|]. cbn. apply IH; [done|].
    intros i Hi'. destruct (Hi i) as [Hlt' Hni']; [by right|]. split; [done|]. rewrite elem_of_union, elem_of_singleton.
    intros [->|]; done. }
  apply H; [done|]. intros i Hi. destruct (Hin i Hi) as [Hlt Hne]. split; [done|]. by intros ->%elem_of_singleton.
Qed.

(** The matches of a plan and a row: [ms] holds, for every binding and
    dependency, the match with the least list of premises. *)
Record exact (rid : N) (ms : list JoinMatch) : Prop := {
  exact_sound m : m ∈ ms → ∃ σ ρ, solution false rid σ ρ ∧ m = match_of σ ρ;
  exact_complete σ ρ : solution true rid σ ρ →
    ∃ m, m ∈ ms ∧ match_key m = match_key (match_of σ ρ) ∧ ord_le (jm_premise_row_ids m) (jm_premise_row_ids (match_of σ ρ));
  exact_unique m m' : m ∈ ms → m' ∈ ms → match_key m = match_key m' → m = m'
}.

Lemma exact_nil rid : (∀ σ ρ, ¬ solution true rid σ ρ) → exact rid [].
Proof. intros H. split; [set_solver|by intros σ ρ ?%H|set_solver]. Qed.

Lemma matches_returns rid :
  is_Some (facts (state k) !! N.to_nat rid) →
  (∃ a, body_atom c (pl_delta_body_index plan) = Some a ∧ Plans.triggerable prog a = true) →
  yields (matches others clock env plan rid) (exact rid).
Proof.
  intros [row Hrow] (a & Ha & Ht). assert (a ∈ rc_body c) as Hin by (by eapply list_elem_of_lookup_2).
  unfold matches. eapply yields_bind; [apply poll_returns|intros _ _].
  eapply yields_bind; [eapply (yields_lift _ tt (eq tt)); [by apply (validate_plan_returns a)|done]|intros ? <-].
  eapply yields_bind; [eapply (yields_lift _ c (eq c)); [|done]|intros ? <-].
  { by rewrite (plan_clause _ _ _ Hplan), (clause_Ok prog Hprog c Hc). }
  eapply yields_bind; [eapply (yields_lift _ a (eq a)); [|done]|intros ? <-]. { unfold body_atom in Ha. by rewrite Ha. }
  eapply yields_bind; [eapply (yields_lift _ row (eq row)); [by apply fact_Ok|done]|intros ? <-].
  assert (∀ σ ρ, solution true rid σ ρ → active row = true ∧ derivation_generation row = read_generation (state k) ∧
    predicate_id (row_key row) = ra_predicate_id a ∧ instance_of env a (arguments (row_key row)) σ ∧ good env σ) as Hsol.
  { intros σ ρ [Hσ _ (support & _ & a' & row' & Ha' & Hr' & Hgen & Hp & Hi & _) _].
    assert (row' = row) as -> by (destruct Hr'; congruence). assert (a' = a) as -> by congruence. split_and!; [apply Hr'|done..]. }
  destruct (active row) eqn:Eact; cbn [negb orb].
  2: { apply yields_ret, exact_nil. intros σ ρ (? & _)%Hsol. done. }
  destruct (N.eqb_spec (derivation_generation row) (read_generation (state k))) as [Hgen|Hgen]; cbn [negb orb].
  2: { apply yields_ret, exact_nil. intros σ ρ (_ & ? & _)%Hsol. done. }
  destruct (N.eqb_spec (predicate_id (row_key row)) (ra_predicate_id a)) as [Hp|Hp]; cbn [negb].
  2: { apply yields_ret, exact_nil. intros σ ρ (_ & _ & ? & _)%Hsol. done. }
  assert (active_row (state k) (N.to_nat rid) row) as Hr by done.
  destruct (unify_handles_spec env hi Hk a (arguments (row_key row)) ∅) as (o & Hu & Ho).
  { intros key h. by rewrite lookup_empty. }
  { by apply Hground. }
  { intros h. by apply (row_active_arguments env hi Hk rid row). }
  eapply yields_bind; [by eapply (yields_lift _ _ (eq o))|intros ? <-]. destruct o as [[b d]|].
  2: { apply yields_ret, exact_nil. intros σ ρ (_ & _ & _ & Hi & Hσ)%Hsol. apply (Ho σ); [done|apply map_empty_subseteq|done]. }
  destruct Ho as (-> & _ & Hb & Hi & Hdom & Hleast). rewrite dom_empty_L, union_empty_l_L in Hdom.
  eapply yields_bind; [eapply (yields_lift _ tt (eq tt)); [|done]|intros ? <-].
  { rewrite bool_decide_eq_false_2; [done|]. by eapply row_has_support. }
  assert (∀ strict m, (∃ support, support ∈ supports row ∧
    extension env strict plan c (pl_steps plan) b (Dep.union [atom_dependency env a; support]) [rid] m) ↔
    ∃ σ ρ, solution strict rid σ ρ ∧ m = match_of σ ρ) as Hext.
  { intros strict m. apply solutions_extend; try done. intros σ Hσ. apply Hleast; [apply map_empty_subseteq|done]. }
  eapply yields_bind; [apply (added_fold _
    (λ support, extension env false plan c (pl_steps plan) b (Dep.union [atom_dependency env a; support]) [rid])
    (λ support, extension env true plan c (pl_steps plan) b (Dep.union [atom_dependency env a; support]) [rid]))|].
  - intros support found Hsup. eapply yields_bind; [apply poll_inner_returns|intros _ _].
    destruct (plan_schedule _ _ _ Hplan) as (a' & Ha' & Hsched). assert (a' = a) as -> by congruence.
    apply join_steps_returns; rewrite ?Hdom; [done|by apply plan_guards_ready|done|apply canonical_union].
  - intros found [Hfrom Hall _]. eapply yields_bind; [apply poll_returns|intros _ _]. apply yields_ret.
    assert (∀ m, m ∈ btree_values found → found !! match_key m = Some m) as Hkey.
    { intros m [key Hm]%elem_of_btree_values. pose proof Hm as [?|[_ ->]]%Hfrom; [|done]. by rewrite lookup_empty in *. }
    split.
    + intros m [key Hm]%elem_of_btree_values. apply Hfrom in Hm as [Hm|[Hm _]]; [by rewrite lookup_empty in Hm|]. by apply Hext.
    + intros σ ρ Hs. destruct (Hall (match_of σ ρ)) as (m & Hm & Hle); [apply Hext; eauto|].
      exists m. split_and!; [apply elem_of_btree_values; eauto| |done].
      apply Hfrom in Hm as [Hm|[_ ->]]; [by rewrite lookup_empty in Hm|done].
    + intros m m' Hm%Hkey Hm'%Hkey E. rewrite E in Hm. congruence.
Qed.
End join.

(** ** Semi-naive evaluation *)

Section seminaive.
Context (env : JoinEnv) (c : RuleClause).
Abbreviation k := (je_kernel env).
Abbreviation prog := (je_program env).

(** A plan whose view is every row of the read generation and of earlier ones. *)
Definition whole_view : ClauseJoinPlan := mkPlan (rc_clause_id c) 0 [].

(** A choice of rows, supports and bindings that satisfies the whole body. *)
Record body_solution (strict : bool) (σ : Bindings) (ρ : N → choice) : Prop := {
  body_good : good env σ;
  body_dom : dom σ = variables (rc_body c);
  body_atoms i a : body_atom c i = Some a → satisfied env strict whole_view i σ a (ρ i)
}.

(** [i] is the first body position whose row was derived in this generation. *)
Definition first_new (ρ : N → choice) (i rid : N) (row : FactRow) : Prop :=
  active_row (state k) (N.to_nat rid) row ∧ derivation_generation row = read_generation (state k) ∧
  (∃ support, ρ i = Some (rid, support)) ∧
  ∀ j rid' support' row', j < i → ρ j = Some (rid', support') → active_row (state k) (N.to_nat rid') row' →
    derivation_generation row' ≠ read_generation (state k).

(** Moving a satisfied atom into the view of a plan. *)
Lemma satisfied_view strict plan plan' i σ a ch :
  (∀ rid support row, ch = Some (rid, support) → active_row (state k) (N.to_nat rid) row →
    in_plan_view env (derivation_generation row) plan i = true → in_plan_view env (derivation_generation row) plan' i = true) →
  satisfied env strict plan i σ a ch → satisfied env strict plan' i σ a ch.
Proof.
  intros Hv Hs. revert Hv.
  destruct Hs as [t u h h' Hk Ha Ht Hu Hr|t u h Hk Ha Ht Hu|kind rid row handles support Hk Hg He (Hrow & Hp & Hview & Ho & Hh) Hi Hsup];
    intros Hv.
  - by eapply satisfied_guard.
  - by eapply satisfied_equality.
  - apply (satisfied_row _ _ _ _ _ _ kind rid row handles); [done|done|done| |done|done]. split_and!; [done|done|by apply (Hv rid support row)|done|done].
Qed.

Lemma solution_of_body strict plan σ ρ rid row a support :
  body_solution strict σ ρ → first_new ρ (pl_delta_body_index plan) rid row → ρ (pl_delta_body_index plan) = Some (rid, support) →
  body_atom c (pl_delta_body_index plan) = Some a → instance_of env a (arguments (row_key row)) σ →
  solution env plan c strict rid σ ρ.
Proof.
  intros [Hσ Hdom Hatoms] (Hr & Hgen & _ & Hfirst) Hρ Ha Hi. split; [done|done| |].
  - exists support. split; [done|]. exists a, row. pose proof (Hatoms _ _ Ha) as Hs. rewrite Hρ in Hs.
    inversion Hs as [| |kind rid' row' handles support' _ _ _ (Hr' & Hp & _) _ Hsup]; subst.
    assert (row' = row) as -> by (destruct Hr, Hr'; congruence). done.
  - intros i b Hb Hne. eapply satisfied_view; [|by apply Hatoms]. intros rid' support' row' Hρ' Hr' Hview.
    unfold in_plan_view in *. cbn [pl_delta_body_index whole_view] in Hview. rewrite (proj2 (N.ltb_ge i 0)) in Hview by lia.
    destruct (N.ltb_spec i (pl_delta_body_index plan)) as [Hlt|]; [|done]. apply N.leb_le in Hview. apply N.ltb_lt.
    specialize (Hfirst i rid' support' row' Hlt Hρ' Hr'). lia.
Qed.
End seminaive.
