(* ===== verification/EngineBase.v ===== *)
(** * The kernel under the rule engine

    What the engine relies on while it dispatches an atom: no operation it calls
    activates a node, the rows keep the arities of their predicates, and a merge
    that succeeds takes a node out of the active ones.  These are the facts that
    bound the recursion of the dispatcher and rule out its index panics. *)

From S2P Require Import Prelude Order Errors Model Queue Store Kernel KernelBase Arena Facts FactOps StateInv NodeOps Merge Prune KernelInv Totality Cancel Branching RuleModel Merging RulePlans Joins RuleEngine RuleSpec.
Import Kernel.

(** ** Rows that fit their predicates *)

Definition fits (prog : RuleProgram) (pid : N) (len : nat) : Prop :=
  ∀ p, predicates prog !! N.to_nat pid = Some p → len = Rule.arity p.

Definition typed (prog : RuleProgram) (s : MutableState) : Prop :=
  ∀ i row, active_row s i row → fits prog (predicate_id (row_key row)) (length (arguments (row_key row))).

Lemma typed_facts prog s s' : facts s' = facts s → typed prog s → typed prog s'.
Proof. intros E Ht i row. unfold active_row. rewrite E. apply Ht. Qed.

Lemma typed_new prog : typed prog MutableState_new.
Proof. intros i row [Hr _]. by destruct i. Qed.

(** ** Active nodes *)

(** No slot becomes active. *)
Definition shrinks (s s' : MutableState) : Prop :=
  ∀ i n', nodes s' !! i = Some (Some n') → n_lifecycle n' = Active →
    ∃ n, nodes s !! i = Some (Some n) ∧ n_lifecycle n = Active ∧ n_handle n' = n_handle n.

#[global] Instance shrinks_preorder : PreOrder shrinks.
Proof.
  split; [intros s i n Hn Ha; eauto|]. intros s1 s2 s3 H12 H23 i n3 Hn3 Ha3.
  destruct (H23 _ _ Hn3 Ha3) as (n2 & Hn2 & Ha2 & E2). destruct (H12 _ _ Hn2 Ha2) as (n1 & Hn1 & Ha1 & E1).
  exists n1. split_and!; [done|done|congruence].
Qed.

(** The delta generations do not move. *)
Definition same_generations (s s' : MutableState) : Prop :=
  read_generation s' = read_generation s ∧ write_generation s' = write_generation s.

#[global] Instance same_generations_preorder : PreOrder same_generations.
Proof. split; [done|]. intros s1 s2 s3 [R1 W1] [R2 W2]. split; congruence. Qed.

Definition kshrinks (k k' : TableauKernel) : Prop :=
  shrinks (state k) (state k') ∧ same_generations (state k) (state k').

#[global] Instance kshrinks_preorder : PreOrder kshrinks.
Proof. split; [intros k; by split|]. intros k1 k2 k3 [N1 G1] [N2 G2]. split; by etrans. Qed.

Lemma shrinks_nodes s s' : nodes s' = nodes s → shrinks s s'.
Proof. intros E i n. rewrite E. eauto. Qed.

Lemma shrinks_update_node i e f :
  (∀ n, n_handle (f n) = n_handle n) → (∀ n, n_lifecycle (f n) = Active → n_lifecycle n = Active) →
  moves kshrinks (update_node i e f).
Proof.
  intros Hh Hl k. unfold update_node, mbind, st_bind, reads, lift, index_or_crash.
  destruct (nodes (state k) !! i) as [[n|]|] eqn:E; cbn; [|reflexivity..]. unfold upd, modify. cbn. split; [|done].
  intros j n'. cbn. rewrite list_lookup_insert_Some. intros [(<- & [= <-] & _)|[_ Hn]] Ha; [|eauto].
  exists n. split_and!; [done|by apply Hl|done].
Qed.

Ltac shrinks_steps :=
  repeat first
    [ apply shrinks_update_node; [done|done]
    | apply moves_reads; [apply _] | apply moves_gets; [apply _] | apply moves_lift; [apply _]
    | apply moves_mret; [apply _]
    | apply moves_bind; [apply _| |intros ?]
    | apply moves_forM; [apply _|intros ?]
    | match goal with
      | |- moves _ (match ?x with _ => _ end) => destruct x
      | |- moves _ (let _ := _ in _) => cbv zeta
      end
    | progress unfold upd
    | apply moves_modify; intros ?; split; [by apply shrinks_nodes|done] ].

Lemma shrinks_bump i e : moves kshrinks (bump_blocking i e).
Proof.
  unfold bump_blocking. do 3 (apply moves_bind; [apply _|by shrinks_steps|intros ?]). by apply shrinks_update_node.
Qed.

Lemma shrinks_add_fact pid args d c p : moves kshrinks (add_fact_detailed pid args d c p).
Proof. unfold add_fact_detailed, update_existing_fact, insert_new_fact, record_mutation. by shrinks_steps. Qed.

Lemma shrinks_deactivate rid : moves kshrinks (deactivate_fact rid).
Proof. unfold deactivate_fact, remove_from_index, record_mutation. by shrinks_steps. Qed.

Lemma shrinks_install_clash kind d ps p : moves kshrinks (install_clash kind d ps p).
Proof. unfold install_clash, record_mutation. by shrinks_steps. Qed.

Lemma shrinks_mark_existential h e b : moves kshrinks (mark_existential h e b).
Proof.
  unfold mark_existential. do 2 (apply moves_bind; [apply _|by shrinks_steps|intros ?]). destruct (Bool.eqb _ _); [by shrinks_steps|].
  apply moves_bind; [apply _|by apply shrinks_update_node|intros _]. unfold record_mutation. by shrinks_steps.
Qed.

Lemma shrinks_set_blocked h b d : moves kshrinks (set_blocked h b d).
Proof.
  unfold set_blocked, record_mutation.
  repeat first [ apply shrinks_update_node; [done|done] | apply shrinks_bump
    | apply moves_bind; [apply _| |intros ?] | progress shrinks_steps ]; done.
Qed.

Lemma shrinks_rewrite_row source target combined rid : moves kshrinks (rewrite_row source target combined rid).
Proof.
  unfold rewrite_row, add_fact. repeat first [ apply shrinks_add_fact | apply shrinks_deactivate
    | apply moves_bind; [apply _| |intros ?] | apply moves_forM; [apply _|intros ?] | progress shrinks_steps ]; done.
Qed.

Lemma shrinks_merge left right d : moves kshrinks (merge_nodes_inner left right d).
Proof.
  unfold merge_nodes_inner, bump_sequence, record_mutation.
  repeat first [ apply shrinks_update_node; [done|done] | apply shrinks_bump | apply shrinks_set_blocked
    | apply shrinks_rewrite_row | apply moves_bind; [apply _| |intros ?] | apply moves_forM; [apply _|intros ?]
    | progress shrinks_steps ]; done.
Qed.

Lemma shrinks_prune root : moves kshrinks (prune_subtree_inner root).
Proof.
  unfold prune_subtree_inner, bump_sequence, record_mutation.
  repeat first [ apply shrinks_update_node; [done|done] | apply shrinks_bump | apply shrinks_set_blocked
    | apply shrinks_deactivate | apply moves_bind; [apply _| |intros ?] | apply moves_forM; [apply _|intros ?]
    | progress shrinks_steps ]; done.
Qed.

(** Enqueueing touches neither nodes nor rows. *)
Lemma enqueue_into_frame sel v p k u k' :
  (∀ q s, nodes (sel.2 q s) = nodes s ∧ facts (sel.2 q s) = facts s ∧ same_generations s (sel.2 q s)) → enqueue_into sel v p k = (Ok u, k') →
  nodes (state k') = nodes (state k) ∧ facts (state k') = facts (state k) ∧ same_generations (state k) (state k').
Proof.
  intros Hq H. unfold enqueue_into in H. inv_ok. destruct (Queue.enqueue _ _ _) as [r q']. inv_ok. repeat kstep. kstates. apply Hq.
Qed.

Lemma integer_queue_frame queue sel q s :
  integer_queue queue = Some sel → nodes (sel.2 q s) = nodes s ∧ facts (sel.2 q s) = facts s ∧ same_generations s (sel.2 q s).
Proof. unfold integer_queue. repeat case_bool_decide; intros [= <-]; done. Qed.

Lemma enqueue_integer_frame queue v p k u k' :
  enqueue_integer queue v p k = (Ok u, k') → nodes (state k') = nodes (state k) ∧ facts (state k') = facts (state k) ∧ same_generations (state k) (state k').
Proof.
  intros H. unfold enqueue_integer in H. apply st_bind_Ok in H as (sel & ? & [Hsel%ok_or_Ok ->]%lift_Ok & H).
  eapply enqueue_into_frame; [|done]. intros q s. by eapply integer_queue_frame.
Qed.

Lemma enqueue_node_frame queue v p k u k' :
  enqueue_node queue v p k = (Ok u, k') →
  nodes (state k') = nodes (state k) ∧ facts (state k') = facts (state k) ∧ same_generations (state k) (state k').
Proof.
  intros H. unfold enqueue_node in H. apply st_bind_Ok in H as (? & ? & [_ ->]%reads_Ok & H).
  apply st_bind_Ok in H as (sel & ? & [Hsel%ok_or_Ok ->]%lift_Ok & H). eapply enqueue_into_frame; [|done].
  intros q s. revert Hsel. unfold node_queue. repeat case_bool_decide; intros [= <-]; done.
Qed.

(** ** Tame operations *)

(** [tame prog k k']: a step inside the current branch that keeps the arities
    and activates no node. *)
Record tame (prog : RuleProgram) (k k' : TableauKernel) : Prop := {
  tame_frame : kframe k k';
  tame_ok : state_ok (top k) (state k');
  tame_typed : typed prog (state k) → typed prog (state k');
  tame_nodes : shrinks (state k) (state k');
  tame_generations : same_generations (state k) (state k')
}.

Lemma tame_refl prog k : state_ok (top k) (state k) → tame prog k k.
Proof. intros Hk. by split. Qed.

Lemma tame_trans prog k1 k2 k3 : tame prog k1 k2 → tame prog k2 k3 → tame prog k1 k3.
Proof.
  intros [F1 S1 T1 N1 G1] [F2 S2 T2 N2 G2]. split; [by etrans| |auto|by etrans|by etrans]. by rewrite (top_frame _ _ F1) in S2.
Qed.

Lemma tame_next prog k k' : tame prog k k' → state_ok (top k') (state k').
Proof. intros [F S _ _ _]. by rewrite (top_frame _ _ F). Qed.

Definition tames {X} (prog : RuleProgram) (m : K X) : Prop :=
  ∀ k x k', state_ok (top k) (state k) → m k = (Ok x, k') → tame prog k k'.

(** An operation that keeps the invariant, the rows and the nodes. *)
Lemma tames_still {X} prog (m : K X) :
  keeps m → (∀ k x k', state_ok (top k) (state k) → m k = (Ok x, k') →
    facts (state k') = facts (state k) ∧ kshrinks k k') → tames prog m.
Proof.
  intros Hm Hs k x k' Hk H. destruct (Hm _ _ _ Hk H) as [F S]. destruct (Hs _ _ _ Hk H) as (E & N & G).
  split; [done|done|by apply typed_facts|done|done].
Qed.

Lemma tames_bind {X Y} prog (m : K X) (f : X → K Y) : tames prog m → (∀ x, tames prog (f x)) → tames prog (m ≫= f).
Proof.
  intros Hm Hf k y k' Hk H. apply st_bind_Ok in H as (x & k1 & H1 & H2). pose proof (Hm _ _ _ Hk H1) as T1.
  eapply tame_trans; [exact T1|]. eapply Hf; [by eapply tame_next|done].
Qed.

Lemma tames_mret {X} prog (x : X) : tames prog (mret x).
Proof. intros k y k' Hk [_ ->]%mret_Ok. by apply tame_refl. Qed.

Lemma tames_forM {X} prog (f : X → K unit) l : (∀ x, x ∈ l → tames prog (f x)) → tames prog (forM f l).
Proof.
  induction l as [|x l IH]; intros Hf; cbn [forM]; [apply tames_mret|].
  apply tames_bind; [apply Hf; by left|]. intros _. apply IH. intros y Hy. apply Hf. by right.
Qed.

Lemma moves_Ok {X} R (m : K X) k x k' : moves R m → m k = (Ok x, k') → R k k'.
Proof. intros Hm H. specialize (Hm k). by rewrite H in Hm. Qed.

Lemma facts_moves {X} (m : K X) k x k' : moves same_facts m → m k = (Ok x, k') → facts (state k') = facts (state k).
Proof. apply moves_Ok. Qed.

Lemma tames_install_clash prog kind d ps p : canonical d → tames prog (install_clash kind d ps p).
Proof.
  intros Hd. apply tames_still; [by apply keeps_install_clash|]. intros k x k' _ H.
  split; [|by apply (moves_Ok _ _ _ _ _ (shrinks_install_clash kind d ps p) H)].
  eapply facts_moves, H. unfold install_clash, record_mutation. by moves_steps.
Qed.

Lemma tames_mark_existential prog h e b : tames prog (mark_existential h e b).
Proof.
  apply tames_still; [apply keeps_mark_existential|]. intros k x k' _ H.
  split; [|by apply (moves_Ok _ _ _ _ _ (shrinks_mark_existential h e b) H)].
  eapply facts_moves, H. unfold mark_existential, update_node, record_mutation. by moves_steps.
Qed.

Lemma tames_enqueue_node prog queue v p : tames prog (enqueue_node queue v p).
Proof.
  apply tames_still; [apply keeps_enqueue_node|]. intros k x k' _ (N & E & G)%enqueue_node_frame.
  split; [done|split; [by apply shrinks_nodes|done]].
Qed.

Lemma tames_enqueue_integer prog queue v p : tames prog (enqueue_integer queue v p).
Proof.
  apply tames_still; [apply keeps_enqueue_integer|]. intros k x k' _ (N & E & G)%enqueue_integer_frame.
  split; [done|split; [by apply shrinks_nodes|done]].
Qed.

Lemma fact_added_shapes key support c p s i r :
  active_row (fact_added key support c p s) i r → row_key r = key ∨ ∃ j r0, active_row s j r0 ∧ row_key r0 = row_key r.
Proof.
  unfold fact_added. destruct (facts_by_key s !! key) as [rid|] eqn:E; intros [Hl Ha]; cbn in Hl.
  - apply list_lookup_alter_inv in Hl as [(-> & r0 & Hl & ->)|[_ Hl]]; right; [by exists (N.to_nat rid), r0|by exists i, r].
  - apply lookup_app_Some in Hl as [Hl|[_ Hl]]; [right; by exists i, r|]. left. by apply list_lookup_singleton_Some in Hl as [_ <-].
Qed.

Lemma tames_add_fact_detailed prog pid args d c p :
  canonical d → fits prog pid (length args) → tames prog (add_fact_detailed pid args d c p).
Proof.
  intros Hd Hfit k out k' Hk H. destruct (keeps_add_fact_detailed pid args d c p Hd _ _ _ Hk H) as [F S].
  destruct (moves_Ok _ _ _ _ _ (shrinks_add_fact pid args d c p) H) as [N G].
  split; [done|done| |done|done]. intros Ht i row Hrow.
  apply add_fact_detailed_Ok in H as (Hne & Hlen & Hv & resolved & Hres & _ & Hst & Ho); [|by eapply arena_slots, state_arena].
  apply Forall2_length in Hres. rewrite Hst in Hrow.
  apply fact_added_shapes in Hrow as [->|(j & r0 & Hr0 & <-)]; [|by apply (Ht j)].
  cbn. rewrite length_fmap, <-Hres. apply Hfit.
Qed.

(** ** Merging and pruning *)

Lemma row_derivable hi s i row : facts_ok hi s → active_row s i row → ∃ d, derivable s (row_key row) d.
Proof.
  intros Hf Hr. pose proof (row_supports _ _ _ (facts_rows _ _ Hf _ _ Hr)) as [Hne _ _ _ _].
  destruct (supports row) as [|d ds] eqn:E; [done|]. exists d, i, row. split_and!; [done|done|]. exists d. rewrite E.
  split; [by left|done].
Qed.

(** A merge redirects arguments, which keeps the arities. *)
Lemma merged_typed prog source target combined k k' :
  state_ok (top k) (state k) → merged source target combined k k' → typed prog (state k) → typed prog (state k').
Proof.
  intros Hk Hm Ht i row Hr. destruct (row_derivable _ _ _ _ (state_facts _ _ (merged_ok _ _ _ _ _ Hm)) Hr) as [d Hd].
  apply (merged_facts _ _ _ _ _ Hm) in Hd; [|by eapply merged_rows]. destruct Hd as [(j & r0 & Hr0 & <- & _)|(j & r0 & e & Hr0 & _ & _ & -> & _)].
  - by apply (Ht j).
  - unfold redirect_key. cbn. rewrite length_fmap. by apply (Ht j).
Qed.

Lemma tames_merge prog left right d : canonical d → tames prog (merge_nodes_in_transaction left right d).
Proof.
  intros Hd k t k' Hk H. pose proof H as H0. unfold merge_nodes_in_transaction in H.
  apply st_bind_Ok in H as ([] & ? & [Hv ->]%reads_Ok & H). pose proof (validate_dependency_bounded _ _ _ Hd Hv) as Hb.
  destruct (moves_Ok _ _ _ _ _ (shrinks_merge left right d) H) as [N G].
  destruct (merge_nodes_inner_Ok _ _ _ _ _ _ Hk Hd Hb H) as (l & dl & r & dr & _ & _ & Hm). cbv zeta in Hm.
  case_decide; [destruct Hm as [_ ->]; by apply tame_refl|]. destruct Hm as (s & _ & Hm).
  split; [apply Hm|apply Hm|by eapply merged_typed|done|done].
Qed.

Lemma tames_prune prog root : tames prog (prune_subtree_in_transaction root).
Proof.
  intros k hs k' Hk H. unfold prune_subtree_in_transaction in H. apply st_bind_Ok in H as (n & ? & [_ ->]%reads_Ok & H).
  destruct (moves_Ok _ _ _ _ _ (shrinks_prune root) H) as [N G]. apply prune_subtree_inner_Ok in H as [F S _ _ _ Hrows]; [|done].
  split; [done|done| |done|done]. intros Ht i row [Hr _]%Hrows. by apply (Ht i).
Qed.

(** ** The merging manager *)

Section manager.
Context (prog : RuleProgram) (others : nat → CancellationState → CancellationState) (clock : nat → N) (supplied : bool).
Abbreviation M X := (st (World unit) NativeError X).

Definition wtames {X} (m : M X) : Prop :=
  ∀ w x w', state_ok (top (w_kernel w)) (state (w_kernel w)) → m w = (Ok x, w') → tame prog (w_kernel w) (w_kernel w').

Lemma wtames_bind {X Y} (m : M X) (f : X → M Y) : wtames m → (∀ x, wtames (f x)) → wtames (m ≫= f).
Proof.
  intros Hm Hf w y w' Hk H. apply st_bind_Ok in H as (x & w1 & H1 & H2). pose proof (Hm _ _ _ Hk H1) as T1.
  eapply tame_trans; [exact T1|]. eapply Hf; [by eapply tame_next|done].
Qed.

Lemma wtames_kern {X} (m : K X) : tames prog m → wtames (kern m).
Proof. intros Hm w x w' Hk (k' & H & ->)%kern_Ok. by eapply Hm. Qed.

Lemma wtames_reads {X} (f : TableauKernel → NativeResult X) : wtames (kern (reads f)).
Proof. intros w x w' Hk (k' & [_ ->]%reads_Ok & ->)%kern_Ok. by apply tame_refl. Qed.

Lemma wtames_still {X} (m : M X) : (∀ w, w_kernel (m w).2 = w_kernel w) → wtames m.
Proof. intros Hm w x w' Hk H. specialize (Hm w). rewrite H in Hm. cbn in Hm. rewrite Hm. by apply tame_refl. Qed.

Lemma wtames_poll : wtames (Merging.poll others clock supplied).
Proof. apply wtames_still. apply poll_same_kernel. Qed.

Lemma wtames_prune_children children pruned : wtames (Merging.prune_children others clock supplied children pruned).
Proof.
  revert pruned. induction children as [|c children IH]; intros pruned; cbn [Merging.prune_children]; [by apply wtames_still|].
  apply wtames_bind; [apply wtames_poll|intros _]. apply wtames_bind; [apply wtames_kern, tames_prune|intros; apply IH].
Qed.

Lemma wtames_inequality_clash m l r sort support : wtames (kern (Merging.inequality_clash m l r sort support)).
Proof.
  apply wtames_kern. unfold Merging.inequality_clash. destruct (inequality_by_sort m !! _); [|apply tames_mret].
  assert (∀ X (f : TableauKernel → NativeResult X), tames prog (reads f)) as Hreads.
  { intros X f k x k' Hk [_ ->]%reads_Ok. by apply tame_refl. }
  apply tames_bind; [apply Hreads|intros lr]. apply tames_bind; [apply Hreads|intros rr].
  destruct (if bool_decide _ then _ else _) as [first second]. apply tames_bind; [apply Hreads|intros rows].
  case_bool_decide; [apply tames_mret|]. apply tames_bind; [apply Hreads|intros ss]. apply tames_bind.
  { intros k x k' Hk [_ ->]%lift_Ok. by apply tame_refl. }
  intros ineq. apply tames_bind; [apply tames_install_clash, canonical_union|intros; apply tames_mret].
Qed.

Lemma wtames_merge_inner m l r d : wtames (Merging.merge_inner others clock supplied m l r d).
Proof.
  unfold Merging.merge_inner.
  repeat first
    [ apply wtames_bind; [|intros ?]
    | apply wtames_reads | apply wtames_prune_children | apply wtames_inequality_clash
    | apply wtames_kern, tames_merge, canonical_union
    | apply wtames_kern, tames_enqueue_node
    | apply wtames_kern, tames_forM; intros ? _; apply tames_mark_existential
    | match goal with |- wtames (match ?x with _ => _ end) => destruct x end
    | by apply wtames_still ].
Qed.

Lemma merge_tame m l r d : wtames (Merging.merge others clock supplied m l r d).
Proof.
  unfold Merging.merge. apply wtames_bind; [apply wtames_poll|intros _]. intros w x w' Hk H. unfold Merging.watomic in H.
  destruct ((Merging.merge_inner others clock supplied m l r d ≫= _) w) as [[y|e|] w1] eqn:E; [|done|done].
  injection H as <- <-. revert Hk E. apply wtames_bind; [apply wtames_merge_inner|intros res].
  apply wtames_bind; [apply wtames_poll|intros _]. by apply wtames_still.
Qed.
End manager.

(** * What dispatching an atom does (native/src/rules/engine.rs)

    The dispatcher calls itself through merges and data roles.  It always comes
    back: every equality it redispatches has taken a node out of the active
    ones.  However it ends it keeps the operation root and only extends the
    registry of ground atoms; when it succeeds it stays inside the current
    branch and keeps the invariants of the kernel. *)

Import Kernel.

#[local] Opaque Dep.union Dep.empty.

(** ** The registry *)

(** The map and the vector are inverse to each other. *)
Definition registry (ids : gmap GroundAtom N) (atoms : list GroundAtom) : Prop :=
  ∀ a i, ids !! a = Some i ↔ atoms !! N.to_nat i = Some a.

Lemma registry_empty : registry ∅ [].
Proof. intros a i. rewrite lookup_empty, lookup_nil. done. Qed.

Lemma registry_push ids atoms a :
  ids !! a = None → registry ids atoms → registry (<[a := N.of_nat (length atoms)]> ids) (atoms ++ [a]).
Proof.
  intros Hn Hr b i. rewrite lookup_insert_Some, lookup_app_Some, list_lookup_singleton_Some, (Hr b i). split.
  - intros [[-> <-]|[Hne Hb]]; [right|by left]. rewrite Nat2N.id. split; [lia|]. by rewrite Nat.sub_diag.
  - intros [Hb|(Hle & Hi & ->)].
    + right. split; [|done]. intros ->. apply Hr in Hb. congruence.
    + left. split; [done|]. lia.
Qed.

(** Registered atoms have the arity of their predicates. *)
Definition atoms_valid (e : RuleEngine) : Prop :=
  ∀ a, a ∈ re_atoms e → Rule.validate_ground_atom a (re_program e) = Ok tt.

(** How the engine may change while an atom is dispatched. *)
Record grows (e e' : RuleEngine) : Prop := {
  grows_program : re_program e' = re_program e;
  grows_nodes : re_source_nodes e' = re_source_nodes e ∧ re_data_nodes e' = re_data_nodes e;
  grows_fixed : re_merger e' = re_merger e ∧ re_join_program e' = re_join_program e ∧ re_limits e' = re_limits e ∧
    re_learning e' = re_learning e ∧ re_initialized e' = re_initialized e;
  grows_atoms : re_atoms e `prefix_of` re_atoms e';
  grows_registry : registry (re_atom_ids e) (re_atoms e) → registry (re_atom_ids e') (re_atoms e');
  grows_valid : atoms_valid e → atoms_valid e'
}.

#[global] Instance grows_preorder : PreOrder grows.
Proof.
  split; [by split|]. intros e1 e2 e3 [P1 [S1 D1] (M1 & J1 & L1 & X1 & I1) A1 R1 V1] [P2 [S2 D2] (M2 & J2 & L2 & X2 & I2) A2 R2 V2].
  split; [congruence|split; congruence|split_and!; congruence|by etrans|auto|auto].
Qed.

Definition drift (s s' : RuleEngine * TableauKernel) : Prop := same_operation_root s.2 s'.2 ∧ grows s.1 s'.1.

#[global] Instance drift_preorder : PreOrder drift.
Proof.
  split; [by intros s|]. intros s1 s2 s3 [K1 G1] [K2 G2]. split; [by etrans|by etrans].
Qed.

(** ** Computations that only drift *)

Definition drifts {X} (m : EK X) : Prop := ∀ s, drift s (m s).2.

Lemma drifts_bind {X Y} (m : EK X) (f : X → EK Y) : drifts m → (∀ x, drifts (f x)) → drifts (m ≫= f).
Proof.
  intros Hm Hf s. unfold mbind, st_bind. specialize (Hm s). destruct (m s) as [[x|e|] s1]; [|done..].
  etrans; [exact Hm|]. apply Hf.
Qed.

Lemma drifts_mret {X} (x : X) : drifts (mret x).
Proof. intros s. reflexivity. Qed.

Lemma drifts_looks {X} (f : RuleEngine → TableauKernel → NativeResult X) : drifts (Engine.looks f).
Proof. intros s. reflexivity. Qed.

Lemma drifts_lift {X} (r : NativeResult X) : drifts (lift r).
Proof. intros s. reflexivity. Qed.

Lemma drifts_gets {X} (f : RuleEngine * TableauKernel → X) : drifts (gets f).
Proof. intros s. reflexivity. Qed.

Lemma drifts_ker {X} (m : K X) : moves same_operation_root m → drifts (Engine.ker m).
Proof. intros Hm s. unfold Engine.ker. specialize (Hm s.2). destruct (m s.2) as [r k']. by split. Qed.

Lemma drifts_forM {X} (f : X → EK unit) l : (∀ x, drifts (f x)) → drifts (forM f l).
Proof. intros Hf. induction l as [|x l IH]; cbn [forM]; [apply drifts_mret|]. apply drifts_bind; auto. Qed.

Lemma drifts_atom_id a : drifts (Engine.atom_id a).
Proof.
  intros s. unfold Engine.atom_id, mbind, st_bind, gets, lift, Engine.upd_engine, modify. cbn.
  destruct (re_atom_ids s.1 !! a) as [i|] eqn:E; [reflexivity|].
  destruct (u32_try_from (length (re_atoms s.1))) as [i|] eqn:Ei; [|reflexivity]. cbn.
  destruct (Rule.validate_ground_atom a (re_program s.1)) as [[]| |] eqn:Ev; [|reflexivity..]. split; [done|]. cbn.
  split; cbn; [done|done|done|by apply prefix_app_r| |].
  - intros Hr. unfold u32_try_from in Ei. case_match; [|done]. injection Ei as <-. by apply registry_push.
  - intros Hv b. cbn. rewrite elem_of_app, list_elem_of_singleton. intros [Hb| ->]; [by apply Hv|done].
Qed.

Lemma root_steady {X} (m : K X) : moves steady m → moves same_operation_root m.
Proof. intros Hm k. apply Hm. Qed.

Lemma root_install kind d ps p : moves same_operation_root (install_clash kind d ps p).
Proof. unfold install_clash. by moves_steps. Qed.

Lemma root_add_fact pid args d c p : moves same_operation_root (add_fact_detailed pid args d c p).
Proof. unfold add_fact_detailed, update_existing_fact, insert_new_fact, record_mutation. by moves_steps. Qed.

Lemma root_add_extension a d c ps : moves same_operation_root (Engine.add_extension_atom a d c ps).
Proof.
  unfold Engine.add_extension_atom. apply moves_bind; [apply _|apply root_add_fact|intros out].
  apply moves_bind; [apply _| |intros _; by moves_steps]. apply moves_forM; [apply _|intros p]. unfold add_fact.
  repeat (apply moves_bind; [apply _| |intros ?]); try apply root_add_fact; by moves_steps.
Qed.

Lemma root_enqueue_integer queue v p : moves same_operation_root (enqueue_integer queue v p).
Proof. unfold enqueue_integer, enqueue_into. by moves_steps. Qed.

Lemma root_mark h e b : moves same_operation_root (mark_existential h e b).
Proof. unfold mark_existential, update_node, record_mutation. by moves_steps. Qed.

(** Recursing through a section is a matter of the steps alone. *)
Ltac drifts_steps :=
  repeat first
    [ apply drifts_looks | apply drifts_gets | apply drifts_lift | apply drifts_mret | apply drifts_atom_id
    | apply drifts_ker;
      first [ apply root_install | apply root_add_extension | apply root_enqueue_integer | apply root_mark
            | apply root_steady, steady_enqueue_node | by moves_steps ]
    | apply drifts_forM; intros ?
    | apply drifts_bind; [|intros ?]
    | match goal with
      | |- drifts (match ?x with _ => _ end) => destruct x
      | |- drifts (let _ := _ in _) => cbv zeta
      | H : ∀ a d c p, drifts (?f a d c p) |- drifts (?f _ _ _ _) => apply H
      end ].

(** The same in the brancher's world. *)
Definition at_world (w : World RuleEngine) : RuleEngine * TableauKernel := (w_access w, w_kernel w).

Definition wdrifts {X} (m : st (World RuleEngine) NativeError X) : Prop := ∀ w, drift (at_world w) (at_world (m w).2).

Lemma wdrifts_bind {X Y} (m : st (World RuleEngine) NativeError X) (f : X → st (World RuleEngine) NativeError Y) :
  wdrifts m → (∀ x, wdrifts (f x)) → wdrifts (m ≫= f).
Proof.
  intros Hm Hf w. unfold mbind, st_bind. specialize (Hm w). destruct (m w) as [[x|e|] w1]; [|done..].
  etrans; [exact Hm|]. apply Hf.
Qed.

Lemma wdrifts_engine {X} (m : EK X) : drifts m → wdrifts (Engine.engine m).
Proof. intros Hm w. unfold Engine.engine. specialize (Hm (at_world w)). unfold at_world in *. by destruct (m _) as [r s]. Qed.

Lemma wdrifts_still {X} (m : st (World RuleEngine) NativeError X) :
  (∀ w, at_world (m w).2 = at_world w) → wdrifts m.
Proof. intros Hm w. by rewrite Hm. Qed.

Lemma poll_still others clock w : at_world (Branching.poll (A := RuleEngine) others clock w).2 = at_world w.
Proof.
  destruct (Branching.poll others clock w) as [r w'] eqn:E. apply poll_kernel in E as (Ek & Ea & _). unfold at_world. cbn. congruence.
Qed.

Lemma drifts_uncancelled {X} (m : st (World RuleEngine) NativeError X) : wdrifts m → drifts (Engine.uncancelled m).
Proof. intros Hm [e k]. unfold Engine.uncancelled. specialize (Hm (mkWorld k e (mkCancel false None 0 0 0 0) 0)). by destruct (m _). Qed.

Lemma merge_same_root others clock supplied m l r d : wmoves same_operation_root (Merging.merge others clock supplied m l r d).
Proof.
  unfold Merging.merge. apply wmoves_bind; [apply _|apply wmoves_pure; [apply _|apply poll_same_kernel]|intros _].
  intros w. unfold Merging.watomic.
  match goal with |- context [match ?m w with _ => _ end] => set (body := m) end.
  assert (wmoves steady body) as Hs.
  { apply wmoves_bind; [apply _|apply merge_inner_steady|]. intros x.
    apply wmoves_bind; [apply _|apply wmoves_pure; [apply _|apply poll_same_kernel]|].
    intros []. apply wmoves_pure; [apply _|done]. }
  destruct (Hs w) as (_ & _ & Hr). by destruct (body w) as [[x|e1|] w2].
Qed.

Lemma wdrifts_merger {X} (m : st (World unit) NativeError X) :
  wmoves same_operation_root m → wdrifts (Engine.merger m).
Proof.
  intros Hm w. unfold Engine.merger. specialize (Hm (mkWorld (w_kernel w) tt (w_cancel w) (w_polls w))).
  destruct (m _) as [r w']. by split.
Qed.

Section drifting.
Context (dispatch : GroundAtom → DependencySet → bool → list N → EK bool).
Hypothesis Hd : ∀ a d c p, drifts (dispatch a d c p).

Lemma drifts_supports a c p ds : drifts (Engine.redispatch_supports dispatch a c p ds).
Proof. induction ds as [|d ds IH]; cbn [Engine.redispatch_supports]; [by drifts_steps|]. drifts_steps. apply IH. Qed.

Lemma wdrifts_rows others clock supplied rows : wdrifts (Engine.redispatch_rows dispatch others clock supplied rows).
Proof.
  induction rows as [|row rows IH]; cbn [Engine.redispatch_rows]; [by apply wdrifts_still|].
  apply wdrifts_bind; [apply wdrifts_still; destruct supplied; [apply poll_still|done]|intros _].
  apply wdrifts_bind; [by apply wdrifts_still|intros a]. apply wdrifts_bind; [apply wdrifts_engine, drifts_supports|].
  intros []; [by apply wdrifts_still|apply IH].
Qed.

Lemma wdrifts_merge others clock supplied l r d : wdrifts (Engine.merge_nodes_semantic dispatch others clock supplied l r d).
Proof.
  unfold Engine.merge_nodes_semantic. apply wdrifts_bind; [by apply wdrifts_still|intros e].
  apply wdrifts_bind; [apply wdrifts_merger, merge_same_root|intros res]. destruct (_ || _); [by apply wdrifts_still|].
  apply wdrifts_bind; [by apply wdrifts_still|intros rows]. apply wdrifts_bind; [apply wdrifts_rows|intros b; by apply wdrifts_still].
Qed.

Lemma drifts_derive pid t d c p cs : drifts (Engine.derive_inequalities dispatch pid t d c p cs).
Proof. induction cs as [|[[o ds] oc] cs IH]; cbn [Engine.derive_inequalities]; [by drifts_steps|]. drifts_steps; apply IH. Qed.

Lemma drifts_normalized a d c p : drifts (Engine.dispatch_normalized dispatch a d c p).
Proof.
  unfold Engine.dispatch_normalized, Engine.dispatch_equality, Engine.contradict,
    Engine.derive_concrete_role_inequalities.
  drifts_steps; first [apply drifts_uncancelled, wdrifts_merge | apply drifts_derive].
Qed.

Lemma drifts_body a d c p : drifts (Engine.dispatch_body dispatch a d c p).
Proof. unfold Engine.dispatch_body. apply drifts_bind; [apply drifts_looks|intros r]. apply drifts_normalized. Qed.
End drifting.

Lemma drifts_dispatch fuel a d c p : drifts (Engine.dispatch_loop fuel a d c p).
Proof.
  revert a d c p. induction fuel as [|fuel IH]; intros a d c p; cbn [Engine.dispatch_loop]; [apply drifts_lift|].
  by apply drifts_body.
Qed.
