(* ===== verification/EngineSafe.v ===== *)
(** * Dispatching an atom succeeds safely (native/src/rules/engine.rs)

    No index panic and no runaway recursion: on a validated program and rows of
    the right arity, the dispatcher answers for every atom, and a success is a
    step of the kernel inside the current branch. *)

From S2P Require Import Prelude Order Errors Model Queue Store Kernel KernelBase Arena Facts FactOps.
From S2P Require Import StateInv NodeOps Merge Prune KernelInv Totality Cancel Branching RuleModel Merging.
From S2P Require Import RulePlans Joins RuleEngine RuleSpec EngineBase.
Import Kernel.

#[local] Opaque Dep.union Dep.empty.

(** ** The methods that only read *)

Lemma node_sort_not_crash h k : node_sort h k ≠ Crash.
Proof. apply bind_not_crash; [apply require_active_not_crash|done]. Qed.

Lemma node_rank_not_crash h k : node_rank h k ≠ Crash.
Proof. apply bind_not_crash; [apply require_active_not_crash|done]. Qed.

Lemma new_ground_not_crash pid args : Rule.new_ground pid args ≠ Crash.
Proof. apply bind_not_crash; [apply reject_if_not_crash|done]. Qed.

Lemma predicate_not_crash pid prog : Rule.predicate pid prog ≠ Crash.
Proof. apply ok_or_not_crash. Qed.

Lemma validate_ground_not_crash a prog : Rule.validate_ground_atom a prog ≠ Crash.
Proof. apply bind_not_crash; [apply predicate_not_crash|]. intros. apply reject_if_not_crash. Qed.

Lemma index_not_crash {X} (l : list X) i : (i < length l)%nat → index_or_crash (E := NativeError) l i ≠ Crash.
Proof. intros [x Hx]%lookup_lt_is_Some. unfold index_or_crash. by rewrite Hx. Qed.

(** A ground atom with as many arguments as its predicate has. *)
Definition shaped (prog : RuleProgram) (a : GroundAtom) (p : RulePredicate) : Prop :=
  predicates prog !! N.to_nat (ga_predicate_id a) = Some p ∧ length (ga_arguments a) = Rule.arity p.

Lemma validate_ground_Ok a prog : Rule.validate_ground_atom a prog = Ok tt ↔ ∃ p, shaped prog a p.
Proof.
  unfold Rule.validate_ground_atom, shaped. rewrite outcome_bind_Ok. setoid_rewrite predicate_Ok.
  setoid_rewrite reject_if_Ok. setoid_rewrite negb_false_iff. by setoid_rewrite bool_decide_eq_true.
Qed.

Lemma new_ground_Ok pid args a : Rule.new_ground pid args = Ok a → a = mkGroundAtom pid args ∧ args ≠ [].
Proof.
  unfold Rule.new_ground. intros ([] & E%reject_if_Ok & [= <-])%outcome_bind_Ok. split; [done|].
  by apply bool_decide_eq_false in E.
Qed.

(** Kinds whose atoms have two arguments. *)
Definition paired_kind (kind : PredicateKind) : bool :=
  match kind with
  | Equality | Inequality | OrderingGuard | AnnotatedEquality | DataRole | NegatedDataRole => true
  | _ => false
  end.

Lemma candidate_rows pid b k rids rid :
  candidate_fact_ids pid b k = Ok rids → rid ∈ rids →
  ∃ row, fact rid k = Ok row ∧ active row = true ∧ predicate_id (row_key row) = pid.
Proof.
  unfold candidate_fact_ids. destruct (facts_by_predicate (state k) !! pid) as [rows0|]; [|intros [= <-]; set_solver].
  intros H Hin. apply outcome_bind_Ok in H as ([rows|] & _ & H); [|injection H as <-; set_solver].
  assert (∀ l acc, foldM (λ result rid, row ← fact rid k;
      Ok (if row_matches pid (btree_entries b) row then result ++ [rid] else result)) l acc = Ok rids →
    rid ∈ acc ∨ ∃ row, fact rid k = Ok row ∧ active row = true ∧ predicate_id (row_key row) = pid) as Hf.
  { intros l. induction l as [|r l IH]; intros acc Hl; cbn [foldM] in Hl; [injection Hl as <-; by left|].
    apply outcome_bind_Ok in Hl as (acc' & Hr & Hl). apply outcome_bind_Ok in Hr as (row & Hrow & [= <-]).
    destruct (IH _ Hl) as [Hx|Hx]; [|by right]. destruct (row_matches _ _ row) eqn:Em; [|by left].
    apply elem_of_app in Hx as [Hx|Hx%list_elem_of_singleton]; [by left|subst r]. right. exists row. split; [done|].
    unfold row_matches in Em. apply andb_true_iff in Em as [Em _]. apply andb_true_iff in Em as [Ea Ep].
    by apply bool_decide_eq_true in Ep. }
  destruct (Hf _ _ H) as [Hx|Hx]; [set_solver|done].
Qed.

Section reading.
Context (prog : RuleProgram) (Hprog : program_ok prog).

Lemma shaped_one a p : shaped prog a p → (0 < length (ga_arguments a))%nat.
Proof.
  intros [Hp ->]. pose proof (predicate_signature _ _ (program_predicates _ Hprog _ _ Hp)) as Hs.
  apply signature_one in Hs as (s & rest & E). unfold Rule.arity. rewrite E. cbn. lia.
Qed.

Lemma kind_two i p : predicates prog !! i = Some p → paired_kind (rp_kind p) = true → (1 < Rule.arity p)%nat.
Proof.
  intros Hp Hk. pose proof (predicate_signature _ _ (program_predicates _ Hprog _ _ Hp)) as Hs.
  destruct (signature_two _ _ Hs Hk) as (s & t & rest & E). unfold Rule.arity. rewrite E. cbn. lia.
Qed.

Lemma shaped_two a p : shaped prog a p → paired_kind (rp_kind p) = true → (1 < length (ga_arguments a))%nat.
Proof. intros [Hp ->]. by apply kind_two with (N.to_nat (ga_predicate_id a)). Qed.

Lemma first_two_not_crash a p : shaped prog a p → paired_kind (rp_kind p) = true → Engine.first_two a ≠ Crash.
Proof.
  intros Hs Hk. pose proof (shaped_two _ _ Hs Hk). unfold Engine.first_two.
  apply bind_not_crash; [apply index_not_crash; lia|intros l _].
  apply bind_not_crash; [by apply index_not_crash|done].
Qed.

Lemma symmetric_paired kind : Engine.symmetric_kind kind = true → paired_kind kind = true.
Proof. by destruct kind. Qed.

Lemma length_swap args : length (Engine.swap_first args) = length args.
Proof. by destruct args as [|? []]. Qed.

Lemma canonical_atom_not_crash a e k : re_program e = prog → Engine.canonical_atom a e k ≠ Crash.
Proof.
  intros Ep. unfold Engine.canonical_atom. rewrite Ep. apply bind_not_crash; [apply validate_ground_not_crash|].
  intros [] (p & Hs)%validate_ground_Ok. apply bind_not_crash; [apply predicate_not_crash|]. intros q Hq%predicate_Ok.
  pose proof Hs as [Hp Hlen]. assert (q = p) as -> by congruence. apply bind_not_crash.
  { apply collectM_not_crash. intros [h s] _. apply bind_not_crash; [apply canonical_handle_not_crash|intros r _].
    apply bind_not_crash; [apply node_sort_not_crash|intros t _]. apply bind_not_crash; [apply reject_if_not_crash|done]. }
  intros resolved Hres%collectM_Ok%Forall2_length. rewrite length_zip in Hres. unfold Rule.arity in Hlen.
  apply bind_not_crash.
  - destruct (Engine.symmetric_kind (rp_kind p)) eqn:Ek; [|done].
    pose proof (shaped_two _ _ Hs (symmetric_paired _ Ek)) as H2.
    apply bind_not_crash; [apply index_not_crash; rewrite length_fmap; lia|intros first _].
    apply bind_not_crash; [apply node_rank_not_crash|intros fr _].
    apply bind_not_crash; [apply index_not_crash; rewrite length_fmap; lia|intros second _].
    by apply bind_not_crash; [apply node_rank_not_crash|].
  - intros args _. by apply bind_not_crash; [apply new_ground_not_crash|].
Qed.

Lemma canonical_atom_Ok a e k a' d :
  re_program e = prog → Engine.canonical_atom a e k = Ok (a', d) →
  ga_predicate_id a' = ga_predicate_id a ∧ canonical d ∧ ∃ p, shaped prog a' p.
Proof.
  intros Ep H. unfold Engine.canonical_atom in H. rewrite Ep in H.
  apply outcome_bind_Ok in H as ([] & (p & Hs)%validate_ground_Ok & H).
  apply outcome_bind_Ok in H as (q & Hq%predicate_Ok & H). destruct Hs as [Hp Hlen]. assert (q = p) as -> by congruence.
  apply outcome_bind_Ok in H as (resolved & Hres%collectM_Ok%Forall2_length & H).
  apply outcome_bind_Ok in H as (args & Hargs & H). apply outcome_bind_Ok in H as (a1 & [-> _]%new_ground_Ok & H).
  injection H as <- <-. split_and!; [done|apply canonical_union|]. exists p. split; [done|]. cbn.
  assert (length args = length resolved) as ->.
  { destruct (Engine.symmetric_kind _); inv_ok; [|by rewrite length_fmap]. case_bool_decide; by rewrite ?length_swap, length_fmap. }
  rewrite <-Hres, length_zip. unfold Rule.arity in *. lia.
Qed.

Lemma fact_dependency_not_crash pid args k : Engine.fact_dependency pid args k ≠ Crash.
Proof.
  unfold Engine.fact_dependency. apply bind_not_crash.
  { apply foldM_not_crash. intros [i h] m _. apply bind_not_crash; [apply ok_or_not_crash|done]. }
  intros b _. apply bind_not_crash; [apply candidate_fact_ids_not_crash|intros rows _].
  apply bind_not_crash; [|done]. apply collectM_not_crash. intros rid _. by apply bind_not_crash; [apply fact_not_crash|].
Qed.

Lemma atom_refutation_not_crash a e k : re_program e = prog → Engine.atom_refutation_impl a e k ≠ Crash.
Proof.
  intros Ep. unfold Engine.atom_refutation_impl. apply bind_not_crash; [by apply canonical_atom_not_crash|].
  intros [a' d] (Hid & Hd & p & Hs)%canonical_atom_Ok; [|done]. cbn. rewrite Ep.
  apply bind_not_crash; [apply predicate_not_crash|]. intros q Hq%predicate_Ok. destruct Hs as [Hp Hl].
  assert (q = p) as -> by congruence. apply bind_not_crash.
  - case_bool_decide as Hk; [|done]. pose proof (kind_two _ _ Hp) as H2. rewrite Hk in H2. specialize (H2 eq_refl).
    apply bind_not_crash; [apply index_not_crash; lia|intros l _]. by apply bind_not_crash; [apply index_not_crash; lia|].
  - intros [] _; [done|]. destruct (rp_opposite_predicate_id p); [|done].
    by apply bind_not_crash; [apply fact_dependency_not_crash|].
Qed.

Lemma atom_satisfied_not_crash a e k : re_program e = prog → Engine.atom_is_satisfied_impl a e k ≠ Crash.
Proof.
  intros Ep. unfold Engine.atom_is_satisfied_impl. apply bind_not_crash; [by apply canonical_atom_not_crash|].
  intros [a' d] (Hid & Hd & p & Hs)%canonical_atom_Ok; [|done]. cbn. rewrite Ep. destruct Hs as [Hp Hl].
  apply bind_not_crash; [by apply bind_not_crash; [apply predicate_not_crash|]|].
  intros kind (q & Hq & ->)%predicate_kind_Ok. assert (q = p) as -> by congruence. case_bool_decide as Hk.
  - pose proof (kind_two _ _ Hp) as H2. rewrite Hk in H2. specialize (H2 eq_refl).
    apply bind_not_crash; [apply index_not_crash; lia|intros l _]. by apply bind_not_crash; [apply index_not_crash; lia|].
  - by apply bind_not_crash; [apply fact_dependency_not_crash|].
Qed.

Lemma fixed_data_not_crash l r e k : Engine.fixed_data_values_differ l r e k ≠ Crash.
Proof.
  unfold Engine.fixed_data_values_differ. apply bind_not_crash; [apply canonical_handle_not_crash|intros a _].
  apply bind_not_crash; [apply canonical_handle_not_crash|intros b _]. apply bind_not_crash; [|done].
  apply collectM_not_crash. intros x _. by apply bind_not_crash; [apply canonical_handle_not_crash|].
Qed.
End reading.

Lemma refutation_union a e k d : Engine.atom_refutation_impl a e k = Ok (Some d) → canonical d.
Proof.
  unfold Engine.atom_refutation_impl, Engine.canonical_atom. intros ([a' d'] & Hc & H)%outcome_bind_Ok.
  assert (canonical d') as Hd'.
  { do 5 (apply outcome_bind_Ok in Hc as (? & _ & Hc)). injection Hc as _ <-. apply canonical_union. }
  apply outcome_bind_Ok in H as (p & _ & H). apply outcome_bind_Ok in H as (b & _ & H).
  destruct b; [by injection H as <-|]. destruct (rp_opposite_predicate_id p); [|done].
  apply outcome_bind_Ok in H as ([d1|] & _ & H); [|done]. injection H as <-. apply canonical_union.
Qed.

(** ** The merging manager answers *)

Definition wreturns {S X} (m : st S NativeError X) : Prop := ∀ w, (m w).1 ≠ Crash.

Lemma wreturns_bind {S X Y} (m : st S NativeError X) (f : X → st S NativeError Y) :
  wreturns m → (∀ x, wreturns (f x)) → wreturns (m ≫= f).
Proof.
  intros Hm Hf w. unfold mbind, st_bind. specialize (Hm w). destruct (m w) as [[x|e|] w1]; [apply Hf|done..].
Qed.

Lemma wreturns_kern {A X} (m : K X) : returns m → wreturns (Branching.kern (A := A) m).
Proof. intros Hm w. unfold kern. specialize (Hm (w_kernel w)). by destruct (m (w_kernel w)). Qed.

Lemma wreturns_read {A X} (f : TableauKernel → NativeResult X) :
  (∀ k, f k ≠ Crash) → wreturns (Branching.kern (A := A) (reads f)).
Proof. intros Hf. by apply wreturns_kern, returns_reads. Qed.

Lemma enqueue_node_returns queue h p : returns (enqueue_node queue h p).
Proof. unfold enqueue_node. do 2 (apply returns_bind; [by returns_steps|intros ?]). apply enqueue_into_returns. Qed.

Lemma enqueue_integer_returns queue v p : returns (enqueue_integer queue v p).
Proof. unfold enqueue_integer. apply returns_bind; [by returns_steps|intros sel]. apply enqueue_into_returns. Qed.

Section manager.
Context (others : nat → CancellationState → CancellationState) (clock : nat → N) (supplied : bool).

Lemma wreturns_poll : wreturns (Merging.poll others clock supplied).
Proof.
  intros w. unfold Merging.poll. destruct supplied; [|done]. destruct (Branching.poll others clock w) as [r w'] eqn:E.
  by apply poll_kernel in E as (_ & _ & ?).
Qed.

Lemma inequality_clash_returns m l r sort d : returns (Merging.inequality_clash m l r sort d).
Proof.
  unfold Merging.inequality_clash. destruct (inequality_by_sort m !! _); [|by returns_steps].
  do 2 (apply returns_bind; [apply returns_reads; intros ?; apply node_rank_not_crash|intros ?]).
  destruct (if bool_decide _ then _ else _) as [first second].
  apply returns_bind; [apply returns_reads; intros ?; apply candidate_fact_ids_not_crash|intros rows].
  case_bool_decide; [by returns_steps|]. apply returns_bind; [|intros ?; by returns_steps].
  apply returns_reads. intros k. apply collectM_not_crash. intros rid _. by apply bind_not_crash; [apply fact_not_crash|].
Qed.

Lemma merge_orientation_not_crash l r k : merge_orientation l r k ≠ Crash.
Proof.
  unfold merge_orientation. repeat (apply bind_not_crash; [first [apply require_active_not_crash | apply reject_if_not_crash
    | apply merge_direction_not_crash]|intros ? _]); done.
Qed.

Lemma wreturns_prune children pruned : wreturns (Merging.prune_children others clock supplied children pruned).
Proof.
  revert pruned. induction children as [|c cs IH]; intros pruned; cbn [Merging.prune_children]; [done|].
  apply wreturns_bind; [apply wreturns_poll|intros _]. apply wreturns_bind; [|intros; apply IH].
  apply wreturns_kern. unfold prune_subtree_in_transaction. apply returns_bind; [by returns_steps|intros _].
  apply prune_subtree_inner_returns.
Qed.

Lemma merge_inner_returns m l r d : wreturns (Merging.merge_inner others clock supplied m l r d).
Proof.
  unfold Merging.merge_inner.
  repeat first
    [ apply wreturns_bind; [|intros ?]
    | apply wreturns_read; intros ?;
      first [ apply canonical_handle_not_crash | apply node_sort_not_crash | apply node_rank_not_crash
            | apply merge_orientation_not_crash | apply require_active_not_crash
            | apply bind_not_crash; [apply require_active_not_crash|done] ]
    | apply wreturns_kern;
      first [ apply inequality_clash_returns | apply enqueue_node_returns
            | apply returns_forM; intros ?; apply mark_existential_returns
            | unfold merge_nodes_in_transaction; apply returns_bind;
              [by returns_steps|intros ?; apply merge_nodes_inner_returns] ]
    | apply wreturns_prune
    | match goal with
      | |- wreturns (match ?x with _ => _ end) => destruct x
      | |- wreturns (lift (reject_if _ _)) => intros ?; apply reject_if_not_crash
      | |- wreturns (let _ := _ in _) => cbv zeta
      end
    | done ].
Qed.

Lemma merge_returns m l r d : wreturns (Merging.merge others clock supplied m l r d).
Proof.
  unfold Merging.merge. apply wreturns_bind; [apply wreturns_poll|intros _]. intros w. unfold Merging.watomic.
  match goal with |- context [match ?m w with _ => _ end] => set (body := m) end.
  assert (wreturns body) as Hb.
  { apply wreturns_bind; [apply merge_inner_returns|intros x]. apply wreturns_bind; [apply wreturns_poll|done]. }
  specialize (Hb w). by destruct (body w) as [[]].
Qed.
End manager.

(** ** Active nodes *)

Definition weight (k : TableauKernel) : nat := length (active_node_handles k).

Lemma NoDup_active k : slots_ok (nodes (state k)) → NoDup (active_node_handles k).
Proof.
  intros Hs. unfold active_node_handles. rewrite sort_Permutation, <-list_fmap_compose.
  eapply sublist_NoDup; [by apply NoDup_live_handles|]. apply (fmap_sublist n_handle), sublist_filter.
Qed.

Lemma shrinks_active s s' h : slots_ok (nodes s) → shrinks s s' → active_handle (nodes s') h → active_handle (nodes s) h.
Proof.
  intros Hs Hsh (n & (Hn & Hg & Hr) & Ha). destruct (Hsh _ _ Hn Ha) as (m & Hm & Hma & Hh). exists m.
  split; [|done]. split_and!; [done|congruence|congruence].
Qed.

Lemma weight_tame prog k k' : state_ok (top k) (state k) → tame prog k k' → (weight k' ≤ weight k)%nat.
Proof.
  intros Hk Ht. pose proof (arena_slots _ _ (state_arena _ _ Hk)) as Hs.
  pose proof (arena_slots _ _ (state_arena _ _ (tame_next _ _ _ Ht))) as Hs'.
  apply submseteq_length, NoDup_submseteq; [by apply NoDup_active|]. intros h.
  rewrite !elem_of_active_node_handles by done. apply shrinks_active; [done|apply Ht].
Qed.

(** A merge that linked a node has one active node less. *)
Lemma weight_joined prog left right source target hs k k' :
  state_ok (top k) (state k) → tame prog k k' → joined left right source target hs k k' → (weight k' < weight k)%nat.
Proof.
  intros Hk Ht Hj. pose proof (arena_slots _ _ (state_arena _ _ Hk)) as Hs.
  pose proof (arena_slots _ _ (state_arena _ _ (tame_next _ _ _ Ht))) as Hs'.
  assert (source :: active_node_handles k' ⊆+ active_node_handles k) as Hsub; [|by apply submseteq_length in Hsub].
  destruct (joined_link _ _ _ _ _ _ _ Hj) as (n & Hn & Hm & _). apply NoDup_submseteq.
  - constructor; [|by apply NoDup_active]. rewrite elem_of_active_node_handles by done. intros (m & Hm' & Ha).
    rewrite (stored_fun _ _ _ _ Hm' Hn) in Ha. congruence.
  - intros h [->|Hh]%elem_of_cons; rewrite elem_of_active_node_handles by done; [apply Hj|].
    apply elem_of_active_node_handles in Hh; [|done]. eapply shrinks_active; [done|apply Ht|done].
Qed.

(** ** Safe computations

    An invariant of the states and a relation between them that composes. *)
Record Mode (S : Type) := mkMode {
  Inv : S → Prop;
  step : relation S;
  step_refl s : Inv s → step s s;
  step_trans s1 s2 s3 : step s1 s2 → step s2 s3 → step s1 s3;
  step_inv s s' : Inv s → step s s' → Inv s'
}.
Arguments mkMode {S}.
Arguments Inv {S}.
Arguments step {S}.

Section judgement.
Context {S : Type} (M : Mode S).
#[local] Abbreviation Inv := (Inv M).
#[local] Abbreviation R := (step M).

(** Under the invariant the computation answers; a success is a step of [R] and
    satisfies [Q]. *)
Definition safe {X} (m : st S NativeError X) (s : S) (Q : X → S → Prop) : Prop :=
  Inv s → (m s).1 ≠ Crash ∧ ∀ x s', m s = (Ok x, s') → R s s' ∧ Q x s'.

Lemma safe_bind {X Y} (m : st S NativeError X) (f : X → st S NativeError Y) s Q P :
  Inv s → safe m s Q → (∀ x s', R s s' → Inv s' → Q x s' → safe (f x) s' P) → safe (m ≫= f) s P.
Proof.
  intros Hs Hm Hf _. destruct (Hm Hs) as [Hc HQ]. unfold mbind, st_bind. destruct (m s) as [[x|e|] s1]; [|done|done].
  destruct (HQ x s1 eq_refl) as [Ho Hq]. pose proof (step_inv _ M _ _ Hs Ho) as Hs1.
  destruct (Hf x s1 Ho Hs1 Hq Hs1) as [Hr HP].
  split; [done|]. intros y s2 H. destruct (HP y s2 H) as [Ho' Hy]. split; [by eapply step_trans|done].
Qed.

Lemma safe_impl {X} (m : st S NativeError X) s (Q P : X → S → Prop) :
  safe m s Q → (∀ x s', R s s' → Q x s' → P x s') → safe m s P.
Proof. intros Hm Hi Hs. destruct (Hm Hs) as [Hc HQ]. split; [done|]. intros x s' H. destruct (HQ x s' H) as [Ho Hq]. auto. Qed.

Lemma safe_mret {X} (x : X) s (Q : X → S → Prop) : Inv s → Q x s → safe (mret x) s Q.
Proof. intros Hs Hq _. split; [done|]. intros y s' [= <- <-]. split; [by apply step_refl|done]. Qed.

Lemma safe_lift {X} (r : NativeResult X) s (Q : X → S → Prop) :
  Inv s → r ≠ Crash → (∀ x, r = Ok x → Q x s) → safe (lift r) s Q.
Proof. intros Hs Hr Hq _. split; [done|]. intros y s' [= E <-]. split; [by apply step_refl|auto]. Qed.

Lemma safe_reads {X} (f : S → NativeResult X) s (Q : X → S → Prop) :
  Inv s → f s ≠ Crash → (∀ x, f s = Ok x → Q x s) → safe (reads f) s Q.
Proof. intros Hs Hr Hq _. split; [done|]. intros y s' [= E <-]. split; [by apply step_refl|auto]. Qed.

Lemma safe_gets {X} (f : S → X) s (Q : X → S → Prop) : Inv s → Q (f s) s → safe (gets f) s Q.
Proof. intros Hs Hq _. split; [done|]. intros y s' [= <- <-]. split; [by apply step_refl|done]. Qed.

Lemma safe_forM {X} (f : X → st S NativeError unit) l s :
  Inv s → (∀ x s', x ∈ l → Inv s' → safe (f x) s' (λ _ _, True)) → safe (forM f l) s (λ _ _, True).
Proof.
  revert s. induction l as [|x l IH]; intros s Hs Hf; cbn [forM]; [by apply safe_mret|].
  eapply safe_bind; [done|apply Hf; [by left|done]|]. intros [] s1 Ho Hs1 _.
  apply IH; [done|]. intros y s2 Hy Hs2. apply Hf; [by right|done].
Qed.

Lemma safe_foldST {X Y} (f : Y → X → st S NativeError Y) l y s :
  Inv s → (∀ y x s', x ∈ l → Inv s' → safe (f y x) s' (λ _ _, True)) → safe (foldST f l y) s (λ _ _, True).
Proof.
  revert y s. induction l as [|x l IH]; intros y s Hs Hf; cbn [foldST]; [by apply safe_mret|].
  eapply safe_bind; [done|apply Hf; [by left|done]|]. intros y' s1 Ho Hs1 _.
  apply IH; [done|]. intros z x' s2 Hx Hs2. apply Hf; [by right|done].
Qed.
End judgement.

(** ** Computations with a postcondition *)

Definition answers {S X} (m : st S NativeError X) (s : S) (Q : X → S → Prop) : Prop :=
  (m s).1 ≠ Crash ∧ ∀ x s', m s = (Ok x, s') → Q x s'.

Section answering.
Context {S : Type}.

Lemma answers_bind {X Y} (m : st S NativeError X) (f : X → st S NativeError Y) s Q P :
  answers m s Q → (∀ x s', Q x s' → answers (f x) s' P) → answers (m ≫= f) s P.
Proof.
  intros [Hr Hx] Hf. unfold answers, mbind, st_bind. destruct (m s) as [[x|e|] s1]; [|done|done]. by apply Hf, Hx.
Qed.

Lemma answers_impl {X} (m : st S NativeError X) s (Q P : X → S → Prop) :
  answers m s Q → (∀ x s', Q x s' → P x s') → answers m s P.
Proof. intros [Hr Hx] HP. split; [done|]. intros x s' E. by apply HP, Hx. Qed.

Lemma answers_mret {X} (x : X) s (Q : X → S → Prop) : Q x s → answers (mret x) s Q.
Proof. intros HQ. split; [done|]. by intros y s' [= <- <-]. Qed.

Lemma answers_lift {X} (r : NativeResult X) s (Q : X → S → Prop) :
  r ≠ Crash → (∀ x, r = Ok x → Q x s) → answers (lift r) s Q.
Proof. intros Hr HQ. split; [done|]. intros y s' [= E <-]. by apply HQ. Qed.

Lemma answers_reads {X} (f : S → NativeResult X) s (Q : X → S → Prop) :
  f s ≠ Crash → (∀ x, f s = Ok x → Q x s) → answers (reads f) s Q.
Proof. intros Hr HQ. split; [done|]. intros y s' [= E <-]. by apply HQ. Qed.

Lemma answers_gets {X} (f : S → X) s (Q : X → S → Prop) : Q (f s) s → answers (gets f) s Q.
Proof. intros HQ. split; [done|]. by intros y s' [= <- <-]. Qed.

Lemma answers_safe {X} (M : Mode S) (m : st S NativeError X) s Q :
  Inv M s → safe M m s Q → answers m s (λ x s', step M s s' ∧ Inv M s' ∧ Q x s').
Proof.
  intros Hs Hm. destruct (Hm Hs) as [Hr Hx]. split; [done|]. intros x s' E. destruct (Hx x s' E) as [Ho Hq].
  split_and!; [done|by eapply step_inv|done].
Qed.
End answering.

(** ** Steps inside a branch *)


Section safety.
Context (prog : RuleProgram) (Hprog : program_ok prog).

Record ready (s : RuleEngine * TableauKernel) : Prop := {
  ready_state : state_ok (top s.2) (state s.2);
  ready_typed : typed prog (state s.2);
  ready_program : re_program s.1 = prog
}.

Record onward (s s' : RuleEngine * TableauKernel) : Prop := {
  onward_kernel : tame prog s.2 s'.2;
  onward_engine : grows s.1 s'.1
}.

Lemma onward_refl s : ready s → onward s s.
Proof. intros [Hs _ _]. split; [by apply tame_refl|reflexivity]. Qed.

Lemma onward_trans s1 s2 s3 : onward s1 s2 → onward s2 s3 → onward s1 s3.
Proof. intros [K1 G1] [K2 G2]. split; [by eapply tame_trans|by etrans]. Qed.

Lemma ready_onward s s' : ready s → onward s s' → ready s'.
Proof.
  intros [Hs Ht Hp] [K G]. split; [by eapply tame_next|by apply K|]. by rewrite (grows_program _ _ G).
Qed.

Lemma weight_onward s s' : ready s → onward s s' → (weight s'.2 ≤ weight s.2)%nat.
Proof. intros Hr Ho. eapply weight_tame; [apply Hr|apply Ho]. Qed.

Definition inside : Mode (RuleEngine * TableauKernel) := mkMode ready onward onward_refl onward_trans ready_onward.

(** The same with the cancellation state around it. *)
Definition inside_world : Mode (World RuleEngine) := mkMode
  (λ w, ready (at_world w)) (λ w w', onward (at_world w) (at_world w'))
  (λ w, onward_refl (at_world w)) (λ w1 w2 w3, onward_trans _ _ _) (λ w w', ready_onward _ _).
End safety.
