(* ===== verification/EngineDispatch.v ===== *)
(** * The dispatcher terminates and keeps the invariants (native/src/rules/engine.rs)

    The recursion of the dispatcher is bounded by the number of active nodes, so
    [dispatch_ground_atom] answers; the engine therefore discharges the interface
    the brancher is proved against. *)

From S2P Require Import Prelude Order Errors Model Queue Store Kernel KernelBase Arena Facts FactOps StateInv NodeOps Merge Prune KernelInv Totality Cancel Branching RuleModel Merging RulePlans Joins RuleEngine RuleSpec EngineBase EngineSafe.
Import Kernel.

#[local] Opaque Dep.union Dep.empty.

Section dispatcher.
Context (prog : RuleProgram) (Hprog : program_ok prog).

Abbreviation ready := (EngineSafe.ready prog).
Abbreviation onward := (EngineSafe.onward prog).
Abbreviation esafe := (safe (inside prog)).
Abbreviation wsafe := (safe (inside_world prog)).
Abbreviation any := (λ _ _, True).

(** ** Leaves *)

Lemma safe_ker {X} (m : K X) s : ready s → tames prog m → returns m → esafe (Engine.ker m) s any.
Proof.
  intros Hs Ht Hr _. unfold Engine.ker. specialize (Hr s.2). destruct (m s.2) as [r k'] eqn:E. split; [done|].
  intros x s' [= -> <-]. split; [|done]. split; [|reflexivity]. by apply (Ht _ _ _ (ready_state _ _ Hs) E).
Qed.

Lemma safe_atom_id a s : ready s → esafe (Engine.atom_id a) s any.
Proof.
  intros Hs _. pose proof (drifts_atom_id a s) as [_ Hg]. revert Hg. unfold Engine.atom_id, mbind, st_bind, gets, lift, Engine.upd_engine, modify. cbn.
  destruct (re_atom_ids s.1 !! a) as [i|]; [|destruct (u32_try_from _) as [i|]; cbn;
    [pose proof (validate_ground_not_crash a (re_program s.1)); destruct (Rule.validate_ground_atom a _) as [[]| |]|]];
    cbn; intros Hg; (split; [done|]); try done; intros x s' Hx; injection Hx as <- <-; (split; [|done]); (split; [apply tame_refl, Hs|done]).
Qed.

Lemma safe_install kind d ps p s : ready s → canonical d → esafe (Engine.ker (install_clash kind d ps p)) s any.
Proof. intros Hs Hd. apply safe_ker; [done|by apply tames_install_clash|apply install_clash_returns]. Qed.

Lemma shaped_fits a p : shaped prog a p → fits prog (ga_predicate_id a) (length (ga_arguments a)).
Proof. intros [Hp ->] q Hq. congruence. Qed.

Lemma safe_add_extension a p d c ps s :
  ready s → canonical d → shaped prog a p → esafe (Engine.ker (Engine.add_extension_atom a d c ps)) s any.
Proof.
  intros Hs Hd Ha%shaped_fits. apply safe_ker; [done|..]; unfold Engine.add_extension_atom.
  - apply tames_bind; [by apply tames_add_fact_detailed|intros out]. apply tames_bind; [|intros _; apply tames_mret].
    apply tames_forM. intros x _. apply tames_bind; [|intros _; apply tames_mret]. unfold add_fact.
    apply tames_bind; [by apply tames_add_fact_detailed|intros; apply tames_mret].
  - apply returns_bind; [apply add_fact_detailed_returns|intros out]. apply returns_bind; [|done].
    apply returns_forM. intros x. apply returns_bind; [apply add_fact_returns|done].
Qed.

(** ** Redispatching after a merge *)

Lemma safe_engine {X} (m : EK X) w Q :
  esafe m (at_world w) Q → wsafe (Engine.engine m) w (λ x w', Q x (at_world w')).
Proof.
  intros Hsafe Hs. destruct (Hsafe Hs) as [Hr Hm]. unfold Engine.engine. change (w_access w, w_kernel w) with (at_world w).
  destruct (m (at_world w)) as [r [e' k']]. split; [done|]. intros x w' [= -> <-]. by apply Hm.
Qed.

Lemma safe_uncancelled {X} (m : st (World RuleEngine) NativeError X) s Q :
  wsafe m (mkWorld s.2 s.1 (mkCancel false None 0 0 0 0) 0) Q → esafe (Engine.uncancelled m) s any.
Proof.
  intros Hsafe Hs. destruct Hsafe as [Hr Hm]; [by destruct s|]. unfold Engine.uncancelled. destruct (m _) as [r w']. split; [done|].
  intros x s' [= -> <-]. destruct (Hm x w' eq_refl) as [Ho _]. destruct s. by split.
Qed.

Lemma safe_poll others clock w : ready (at_world w) → wsafe (Branching.poll others clock) w any.
Proof.
  intros Hs _. destruct (Branching.poll others clock w) as [r w'] eqn:E.
  pose proof (poll_still others clock w) as Ew. rewrite E in Ew. cbn in Ew. apply poll_kernel in E as (_ & _ & Hr).
  split; [done|]. intros x w1 [= -> <-]. cbn [step inside_world]. rewrite Ew. split; [by apply onward_refl|done].
Qed.

Lemma safe_kern_reads {X} (f : TableauKernel → NativeResult X) w :
  ready (at_world w) → (∀ k, f k ≠ Crash) → wsafe (kern (reads f)) w any.
Proof.
  intros Hs Hf _. unfold kern, reads. split; [apply Hf|]. intros x w' [= E <-]. split; [by apply onward_refl|done].
Qed.

(** What the merging manager adds: a linked node is no longer active. *)
Lemma safe_merger others clock supplied m l r d w :
  ready (at_world w) →
  wsafe (Engine.merger (Merging.merge others clock supplied m l r d)) w
    (λ res w', mr_clashed res = false → is_Some (mr_merged res) → (weight (w_kernel w') < weight (w_kernel w))%nat).
Proof.
  intros Hs _. unfold Engine.merger. set (u := mkWorld (w_kernel w) tt (w_cancel w) (w_polls w)).
  pose proof (merge_returns others clock supplied m l r d u) as Hr.
  destruct (Merging.merge others clock supplied m l r d u) as [res w'] eqn:E. split; [done|]. intros x w1 [= -> <-].
  assert (state_ok (top (w_kernel u)) (state (w_kernel u))) as Hk by apply Hs.
  pose proof (merge_tame prog _ _ _ _ _ _ _ _ _ _ Hk E) as Ht.
  destruct (merge_Ok others clock supplied m l r d u x w' Hk E) as (_ & _ & Hm). split; [split; [exact Ht|reflexivity]|].
  intros _ [source Hsrc]. unfold merge_success in Hm. rewrite Hsrc in Hm. destruct Hm as [_ Hj].
  exact (weight_joined prog _ _ _ _ _ _ _ Hk Ht Hj).
Qed.

Section recursion.
Context (dispatch : GroundAtom → DependencySet → bool → list N → EK bool) (n : nat).
(** The dispatcher may be called once fewer than [n] nodes are active. *)
Hypothesis Hdis : ∀ a d c p s, ready s → (weight s.2 < n)%nat → esafe (dispatch a d c p) s any.

Lemma safe_supports a c p ds s :
  ready s → (weight s.2 < n)%nat → esafe (Engine.redispatch_supports dispatch a c p ds) s any.
Proof.
  revert s. induction ds as [|d ds IH]; intros s Hs Hn; cbn [Engine.redispatch_supports]; [by apply safe_mret|].
  eapply safe_bind; [done|by apply Hdis|]. intros _ s1 Ho1 Hs1 _. eapply safe_bind; [done|by apply safe_gets with (Q := any)|].
  intros t s2 Ho2 Hs2 _. case_bool_decide; [by apply safe_mret|]. apply IH; [done|].
  pose proof (weight_onward _ _ _ Hs Ho1). pose proof (weight_onward _ _ _ Hs1 Ho2). lia.
Qed.

Lemma safe_rows others clock supplied rows w :
  ready (at_world w) → (weight (w_kernel w) < n)%nat →
  wsafe (Engine.redispatch_rows dispatch others clock supplied rows) w any.
Proof.
  revert w. induction rows as [|row rows IH]; intros w Hs Hn; cbn [Engine.redispatch_rows]; [by apply safe_mret|].
  eapply safe_bind; [done|instantiate (1 := any); destruct supplied; [by apply safe_poll|by apply safe_mret]|]. intros _ w1 Ho1 Hs1 _.
  pose proof (weight_onward _ _ _ Hs Ho1) as W1.
  eapply safe_bind; [done|by apply safe_lift with (Q := any); [|apply new_ground_not_crash|]|]. intros a w2 Ho2 Hs2 _.
  pose proof (weight_onward _ _ _ Hs1 Ho2) as W2. cbn in W1, W2.
  eapply safe_bind; [done|apply safe_engine, safe_supports; [done|cbn; lia]|]. intros b w3 Ho3 Hs3 _.
  pose proof (weight_onward _ _ _ Hs2 Ho3) as W3. cbn in W3. destruct b; [by apply safe_mret|]. apply IH; [done|lia].
Qed.

Lemma facts_for_node_not_crash h k : facts_for_node h k ≠ Crash.
Proof.
  apply bind_not_crash; [apply require_active_not_crash|intros ? _]. apply collectM_not_crash. intros. apply fact_not_crash.
Qed.

Lemma safe_merge others clock supplied l r d w :
  ready (at_world w) → (weight (w_kernel w) ≤ n)%nat →
  wsafe (Engine.merge_nodes_semantic dispatch others clock supplied l r d) w any.
Proof.
  intros Hs Hn. unfold Engine.merge_nodes_semantic. eapply safe_bind; [done|by apply safe_gets with (Q := λ _ w', w' = w)|].
  intros e w1 _ Hs1 ->. eapply safe_bind; [done|by apply safe_merger|]. intros res w2 Ho2 Hs2 Hw. cbn beta in Hw.
  destruct (mr_clashed res) eqn:Ec; [by apply safe_mret|]. cbn [orb]. case_bool_decide as Em; [by apply safe_mret|].
  assert (weight (w_kernel w2) < n)%nat as Hw2.
  { eapply Nat.lt_le_trans; [apply Hw; [done|by apply not_eq_None_Some]|done]. }
  eapply safe_bind; [done|apply safe_kern_reads; [done|apply facts_for_node_not_crash]|]. intros rows w3 Ho3 Hs3 _.
  pose proof (weight_onward _ _ _ Hs2 Ho3) as W3. cbn in W3.
  eapply safe_bind; [done|apply safe_rows; [done|lia]|]. intros b w4 Ho4 Hs4 _. by apply safe_mret.
Qed.

Lemma equality_arity i p : predicates prog !! i = Some p → rp_kind p = Equality → Rule.arity p = 2%nat.
Proof.
  intros Hp Hk. pose proof (predicate_signature _ _ (program_predicates _ Hprog _ _ Hp)) as Hsig. rewrite Hk in Hsig.
  apply paired_sorts_spec in Hsig as [t E]. unfold Rule.arity. by rewrite E.
Qed.

Lemma safe_equality a p d c ps s :
  ready s → (weight s.2 ≤ n)%nat → canonical d → shaped prog a p → rp_kind p = Equality →
  esafe (Engine.dispatch_equality dispatch a d c ps) s any.
Proof.
  intros Hs Hn Hd Ha Hk. unfold Engine.dispatch_equality.
  eapply safe_bind; [done|apply safe_lift with (Q := any); [done|by eapply first_two_not_crash; [..|rewrite Hk]|done]|].
  intros [l r] s1 Ho1 Hs1 _. pose proof (weight_onward _ _ _ Hs Ho1) as W1. cbn in W1.
  eapply safe_bind; [done|apply safe_reads with (Q := any); [done|apply fixed_data_not_crash|done]|].
  intros differ s2 Ho2 Hs2 _. pose proof (weight_onward _ _ _ Hs1 Ho2) as W2. cbn in W2. destruct differ.
  { eapply safe_bind; [done|by apply safe_atom_id|]. intros aid s3 _ Hs3 _. by apply safe_install. }
  eapply safe_bind; [done|apply safe_reads with (Q := any); [done|apply predicate_not_crash|done]|].
  intros q s3 Ho3 Hs3 _. pose proof (weight_onward _ _ _ Hs2 Ho3) as W3. cbn in W3.
  eapply safe_bind with (Q := any); [done| |].
  { destruct (rp_opposite_predicate_id q); [|by apply safe_mret].
    apply safe_reads; [done|apply fact_dependency_not_crash|done]. }
  intros inequality s4 Ho4 Hs4 _. pose proof (weight_onward _ _ _ Hs3 Ho4) as W4. cbn in W4. destruct inequality as [di|].
  { eapply safe_bind; [done|by apply safe_atom_id|]. intros aid s5 _ Hs5 _. apply safe_install; [done|apply canonical_union]. }
  eapply safe_bind with (Q := any); [done| |].
  { destruct (negb _); [|by apply safe_mret]. eapply safe_bind; [done|eapply safe_uncancelled, safe_merge; [by destruct s4|cbn; lia]|].
    intros res s5 _ Hs5 _. by apply safe_mret. }
  intros [clashed rep] s5 _ Hs5 _. cbn [fst snd]. destruct clashed; [by apply safe_mret|].
  eapply safe_bind; [done|apply safe_lift with (Q := λ a' _, shaped prog a' p); [done|apply new_ground_not_crash|]|].
  { intros a' [-> _]%new_ground_Ok. destruct Ha as [Hp _]. split; [done|]. cbn. by rewrite (equality_arity _ _ Hp Hk). }
  intros a' s6 _ Hs6 Ha'. cbn beta in Ha'. eapply safe_bind; [done|by eapply safe_add_extension|]. intros b s7 _ Hs7 _. by apply safe_mret.
Qed.
End recursion.

(** ** Data roles *)

Definition inequality_atom (a : GroundAtom) : Prop :=
  ∃ p, predicates prog !! N.to_nat (ga_predicate_id a) = Some p ∧ rp_kind p = Inequality.

Lemma last_predicate_Some test pid :
  Engine.last_predicate test (predicates prog) = Some pid →
  ∃ p, predicates prog !! N.to_nat pid = Some p ∧ test p = true.
Proof.
  unfold Engine.last_predicate. intros (p & Hp%last_Some_elem_of & ->)%fmap_Some.
  apply list_elem_of_In, filter_In in Hp as [Hin Ht]. apply list_elem_of_In, list_elem_of_lookup in Hin as [i Hi].
  exists p. by rewrite (program_ids _ Hprog _ _ Hi).
Qed.

Section roles.
Context (dispatch : GroundAtom → DependencySet → bool → list N → EK bool).
Hypothesis Hineq : ∀ a d c p s, ready s → inequality_atom a → esafe (dispatch a d c p) s any.

Lemma safe_derive pid t d c ps cs s :
  (∀ i, pid = Some i → ∃ p, predicates prog !! N.to_nat i = Some p ∧ rp_kind p = Inequality) →
  ready s → esafe (Engine.derive_inequalities dispatch pid t d c ps cs) s any.
Proof.
  intros Hpid. revert s. induction cs as [|[[o ds] oc] cs IH]; intros s Hs; cbn [Engine.derive_inequalities];
    [by apply safe_mret|].
  eapply safe_bind with (Q := any); [done| |intros; by apply IH]. destruct pid as [i|].
  - apply safe_forM; [done|]. intros support s1 _ Hs1.
    eapply safe_bind; [done|apply safe_lift with (Q := λ a _, inequality_atom a); [done|apply new_ground_not_crash|]|].
    { intros a [-> _]%new_ground_Ok. destruct (Hpid i eq_refl) as (p & Hp & Hk). by exists p. }
    intros a s2 _ Hs2 Ha. cbn beta in Ha. eapply safe_bind; [done|by apply Hineq|]. intros b s3 _ Hs3 _. by apply safe_mret.
  - eapply safe_bind; [done|apply safe_reads with (Q := any); [done|apply fixed_data_not_crash|done]|].
    intros b s1 _ Hs1 _. destruct b; [by apply safe_mret|by apply safe_lift].
Qed.

(** The rows of the opposite role have a second argument. *)
Lemma opposite_arguments s p o rid row :
  ready s → (∃ i, predicates prog !! i = Some p) → paired_kind (rp_kind p) = true → rp_opposite_predicate_id p = Some o →
  fact rid s.2 = Ok row → active row = true → predicate_id (row_key row) = o → (1 < length (arguments (row_key row)))%nat.
Proof.
  intros Hs [i Hp] Hk Ho Hf Ha Hpid.
  destruct (predicate_opposite _ _ (program_predicates _ Hprog _ _ Hp) _ Ho) as (_ & q & Hq & _ & Hsorts & _).
  rewrite (ready_typed _ _ Hs (N.to_nat rid) row) with (p := q); [|split; [by apply ok_or_Ok in Hf|done]|by rewrite Hpid].
  unfold Rule.arity. rewrite Hsorts. exact (kind_two prog Hprog _ _ Hp Hk).
Qed.

Lemma safe_roles a p o d c ps s :
  ready s → shaped prog a p → Engine.is_data_role_kind (rp_kind p) = true → rp_opposite_predicate_id p = Some o →
  esafe (Engine.derive_concrete_role_inequalities dispatch a o d c ps) s any.
Proof.
  intros Hs Ha Hk Ho. assert (paired_kind (rp_kind p) = true) as Hk2 by (by destruct (rp_kind p)).
  unfold Engine.derive_concrete_role_inequalities.
  eapply safe_bind; [done|apply safe_lift with (Q := any); [done|by eapply first_two_not_crash|done]|].
  intros [source target] s1 _ Hs1 _.
  eapply safe_bind; [done|apply safe_reads with (Q := λ pid _,
    ∀ i, pid = Some i → ∃ p, predicates prog !! N.to_nat i = Some p ∧ rp_kind p = Inequality); [done|done|]|].
  { intros pid [= <-] i Hi. rewrite (ready_program _ _ Hs1) in Hi. apply last_predicate_Some in Hi as (q & Hq & Ht).
    exists q. split; [done|]. unfold Engine.is_data_inequality in Ht. apply andb_true_iff in Ht as [Ht _].
    by apply bool_decide_eq_true in Ht. }
  intros pid s2 _ Hs2 Hpid. cbn beta in Hpid.
  eapply safe_bind; [done|apply safe_reads with (Q := any); [done| |done]|intros cs s3 _ Hs3 _; by apply safe_derive].
  apply bind_not_crash; [apply candidate_fact_ids_not_crash|]. intros rids Hr. apply collectM_not_crash. intros rid Hin.
  destruct (candidate_rows _ _ _ _ _ Hr Hin) as (row & Hf & Hact & Hpr). rewrite Hf, bind_Ok_l.
  apply bind_not_crash; [|done]. apply index_not_crash. eapply opposite_arguments; try done.
  exists (N.to_nat (ga_predicate_id a)). apply Ha.
Qed.
End roles.

(** ** A normalised atom *)

Section normalized.
Context (dispatch : GroundAtom → DependencySet → bool → list N → EK bool).

Lemma safe_contradict a o d ps s : ready s → esafe (Engine.contradict a o d ps) s any.
Proof.
  intros Hs. unfold Engine.contradict. destruct o; [|by apply safe_mret].
  eapply safe_bind; [done|apply safe_reads with (Q := any); [done|apply fact_dependency_not_crash|done]|].
  intros [r|] s1 _ Hs1 _; [|by apply safe_mret]. eapply safe_bind; [done|by apply safe_atom_id|]. intros aid s2 _ Hs2 _.
  eapply safe_bind; [done|apply safe_install; [done|apply canonical_union]|]. intros b s3 _ Hs3 _. by apply safe_mret.
Qed.

Lemma safe_reflexive_inequality a p d ps s :
  ready s → canonical d → shaped prog a p →
  esafe (if bool_decide (rp_kind p = Inequality) then
           pair ← lift (Engine.first_two a);
           if bool_decide (pair.1 = pair.2) then
             aid ← Engine.atom_id a;
             _ ← Engine.ker (install_clash "equality_inequality" d [aid] (head ps));
             mret tt
           else mret tt
         else mret tt) s any.
Proof.
  intros Hs Hd Ha. case_bool_decide as Hk; [|by apply safe_mret].
  eapply safe_bind; [done|apply safe_lift with (Q := any); [done|by eapply first_two_not_crash; [..|rewrite Hk]|done]|].
  intros pair s1 _ Hs1 _. case_bool_decide; [|by apply safe_mret]. eapply safe_bind; [done|by apply safe_atom_id|].
  intros aid s2 _ Hs2 _. eapply safe_bind; [done|by apply safe_install|]. intros b s3 _ Hs3 _. by apply safe_mret.
Qed.

Lemma safe_existential a p s :
  ready s → shaped prog a p →
  esafe (if Engine.is_at_least_kind (rp_kind p) then
           root ← lift (index_or_crash (ga_arguments a) 0);
           _ ← Engine.ker (mark_existential root (ga_predicate_id a) true);
           rank ← Engine.ker (reads (node_rank root));
           Engine.ker (enqueue_node "existential_candidates" root [Z.of_N rank.1.1; Z.of_N rank.1.2; Z.of_N rank.2])
         else mret tt) s any.
Proof.
  intros Hs Ha. destruct (Engine.is_at_least_kind _); [|by apply safe_mret].
  eapply safe_bind; [done|apply safe_lift with (Q := any); [done|by eapply index_not_crash, shaped_one|done]|].
  intros root s1 _ Hs1 _. eapply safe_bind; [done|apply safe_ker; [done|apply tames_mark_existential|apply mark_existential_returns]|].
  intros b s2 _ Hs2 _. eapply safe_bind; [done|apply safe_ker; [done| |apply returns_reads; intros; apply node_rank_not_crash]|].
  { intros k x k' Hk [_ ->]%reads_Ok. by apply tame_refl. }
  intros rank s3 _ Hs3 _. apply safe_ker; [done|apply tames_enqueue_node|apply enqueue_node_returns].
Qed.

(** Equalities and data roles are the cases that dispatch further atoms. *)
Lemma safe_normalized a p d c ps s :
  ready s → canonical d → shaped prog a p →
  (rp_kind p = Equality → esafe (Engine.dispatch_equality dispatch a d c ps) s any) →
  (Engine.is_data_role_kind (rp_kind p) = true → ∀ o s', rp_opposite_predicate_id p = Some o → ready s' →
    esafe (Engine.derive_concrete_role_inequalities dispatch a o d c ps) s' any) →
  esafe (Engine.dispatch_normalized dispatch a d c ps) s any.
Proof.
  intros Hs Hd Ha Heq Hrole. unfold Engine.dispatch_normalized.
  eapply safe_bind; [done|apply safe_reads with (Q := λ q s', q = p ∧ s' = s); [done|apply predicate_not_crash|]|].
  { intros q Hq%predicate_Ok. rewrite (ready_program _ _ Hs) in Hq. destruct Ha as [Hp _]. split; congruence. }
  intros q s1 _ _ [-> ->]. cbv zeta. case_bool_decide; [by apply safe_lift|]. case_bool_decide; [by apply Heq|].
  case_bool_decide.
  { eapply safe_bind; [done|by apply safe_atom_id|]. intros aid s1 _ Hs1 _. eapply safe_bind; [done|by eapply safe_add_extension|].
    intros b s2 _ Hs2 _. eapply safe_bind; [done|apply safe_ker; [done|apply tames_enqueue_integer|apply enqueue_integer_returns]|].
    intros [] s3 _ Hs3 _. by apply safe_mret. }
  eapply safe_bind; [done|by eapply safe_add_extension|]. intros changed s1 _ Hs1 _.
  eapply safe_bind; [done|by eapply safe_reflexive_inequality|]. intros [] s2 _ Hs2 _.
  eapply safe_bind; [done|by apply safe_contradict|]. intros contradicted s3 _ Hs3 _.
  eapply safe_bind with (Q := any); [done| |intros [] s4 _ Hs4 _; eapply safe_bind; [done|by apply safe_existential|];
    intros [] s5 _ Hs5 _; by apply safe_mret].
  destruct (negb contradicted && Engine.is_data_role_kind (rp_kind p)) eqn:Eb; [|by apply safe_mret].
  apply andb_true_iff in Eb as [_ Er]. destruct (rp_opposite_predicate_id p); [by apply Hrole|by apply safe_mret].
Qed.
End normalized.

(** ** The knot *)

(** Enough fuel for the atoms dispatched from here: two more than the active
    nodes, or one for an inequality. *)
Definition fuelled (fuel : nat) (a : GroundAtom) (s : RuleEngine * TableauKernel) : Prop :=
  (2 + weight s.2 ≤ fuel)%nat ∨ inequality_atom a ∧ (1 ≤ fuel)%nat.

Lemma safe_step dispatch fuel a p d c ps s :
  (∀ a d c ps s, ready s → fuelled fuel a s → esafe (dispatch a d c ps) s any) →
  ready s → canonical d → shaped prog a p → fuelled (S fuel) a s →
  esafe (Engine.dispatch_normalized dispatch a d c ps) s any.
Proof.
  intros IH Hs Hd Ha Hf. assert (inequality_atom a → rp_kind p = Inequality) as Hin.
  { intros (r & Hr & Hkr). destruct Ha as [Hp _]. congruence. }
  apply safe_normalized with p; [done|done|done|..].
  - intros Hk. destruct Hf as [Hf|[Hf _]]; [|by rewrite (Hin Hf) in Hk].
    eapply safe_equality with (n := weight s.2); [|done|done|done|done|done].
    intros a1 d1 c1 p1 s1 Hs1 Hw. apply IH; [done|left; lia].
  - intros Hk o s1 Ho Hs1. destruct Hf as [Hf|[Hf _]]; [|by rewrite (Hin Hf) in Hk].
    eapply safe_roles; [|done|done|done|done]. intros a1 d1 c1 p1 s2 Hs2 Hi. apply IH; [done|right; split; [done|lia]].
Qed.

Lemma safe_loop fuel a d c ps s : ready s → fuelled fuel a s → esafe (Engine.dispatch_loop fuel a d c ps) s any.
Proof.
  revert a d c ps s. induction fuel as [|fuel IH]; intros a d c ps s Hs Hf.
  { destruct Hf as [Hf|[_ Hf]]; lia. }
  cbn [Engine.dispatch_loop]. unfold Engine.dispatch_body.
  eapply safe_bind; [done|apply safe_reads with (Q := λ r s', s' = s ∧ ga_predicate_id r.1 = ga_predicate_id a ∧ ∃ p, shaped prog r.1 p);
    [done|eapply canonical_atom_not_crash, Hs; exact Hprog|]|].
  { intros [a' d'] (Hid & _ & p & Hp)%(canonical_atom_Ok prog); [by eauto|done|apply Hs]. }
  intros [a' d'] s1 _ _ (-> & Hid & p & Ha). cbn [fst snd] in *.
  apply (safe_step _ fuel a' p); [done|done|apply canonical_union|done|].
  destruct Hf as [Hf|[(q & Hq & Hk) Hf]]; [by left|right]. split; [|done]. exists q. by rewrite Hid.
Qed.

Lemma safe_dispatch a d c ps s : ready s → esafe (Engine.dispatch_ground_atom a d c ps) s any.
Proof.
  intros Hs. unfold Engine.dispatch_ground_atom. eapply safe_bind; [done|by apply safe_gets with (Q := λ x s', x = s ∧ s' = s)|].
  intros x s' _ _ [-> ->]. apply safe_loop; [done|left]. by unfold Engine.dispatch_fuel, weight.
Qed.
Lemma safe_dispatch_atom aid d s : ready s → esafe (dispatch_atom (A := RuleEngine) aid d) s any.
Proof.
  intros Hs. cbn. eapply safe_bind; [done|apply safe_reads with (Q := any); [done|apply ok_or_not_crash|done]|].
  intros a s1 _ Hs1 _. by apply safe_dispatch.
Qed.
End dispatcher.

Lemma drifts_dispatch_atom aid d : drifts (dispatch_atom (A := RuleEngine) aid d).
Proof.
  cbn. apply drifts_bind; [apply drifts_looks|intros a]. apply drifts_bind; [apply drifts_gets|intros s]. apply drifts_dispatch.
Qed.

(** ** The engine is an implementation of the brancher's interface *)

#[global] Instance RuleEngine_laws : GroundAtomLaws RuleEngine.
Proof.
  refine {| access_ok e s := program_ok (re_program e) ∧ typed (re_program e) s |}.
  - intros e s s' Ef [Hp Ht]. split; [done|by eapply typed_facts].
  - intros e k aid Hk [Hp Ht]. cbn. apply bind_not_crash; [apply ok_or_not_crash|]. intros a _. by eapply atom_satisfied_not_crash.
  - intros e k aid Hk [Hp Ht]. cbn. apply bind_not_crash; [apply ok_or_not_crash|]. intros a _. by eapply atom_refutation_not_crash.
  - intros e k aid d Hk [Hp Ht] Hd. apply (safe_dispatch_atom _ Hp); done.
  - intros e k aid d H. cbn in H. apply outcome_bind_Ok in H as (a & _ & H). by eapply refutation_union.
  - intros e k aid d. apply (drifts_dispatch_atom aid d (e, k)).
  - intros e k aid d s. destruct (drifts_dispatch_atom aid d (e, k)) as [_ Hg].
    cbn [fst] in Hg. by rewrite (grows_program _ _ Hg).
  - intros e k aid d b e' k' Hk [Hp Ht] Hd H.
    assert (EngineSafe.ready (re_program e) (e, k)) as Hs by done.
    destruct (safe_dispatch_atom _ Hp aid d (e, k) Hs Hs) as [_ Hok].
    destruct (Hok _ _ H) as [[[F S T _ _] G] _]. cbn in *. split_and!; [done|done| |]; rewrite (grows_program _ _ G); auto.
Defined.

(** * Applying a rule keeps the world well formed (native/src/rules/engine.rs)

    The head of a match is grounded and becomes a clash, a dispatched atom or a
    disjunction.  A disjunction that is met again with a stronger dependency
    rewrites the branches it opened, so these operations leave the current
    branch; they keep what the brancher relies on. *)

Import Kernel.

#[local] Opaque Dep.union Dep.empty.

(** ** The engine at work *)

(** A kernel that fits the engine, and plans that can be looked up. *)
Record live (s : RuleEngine * TableauKernel) : Prop := {
  live_world : world_ok s.1 s.2;
  live_plans pid : Plans.for_predicate (re_join_program s.1) pid ≠ Crash
}.

Record runs (s s' : RuleEngine * TableauKernel) : Prop := {
  runs_world : world_ok s.1 s.2 → world_ok s'.1 s'.2;
  runs_engine : grows s.1 s'.1;
  runs_generations : same_generations (state s.2) (state s'.2)
}.

Lemma runs_refl s : live s → runs s s.
Proof. by split. Qed.

Lemma runs_trans s1 s2 s3 : runs s1 s2 → runs s2 s3 → runs s1 s3.
Proof. intros [W1 G1 D1] [W2 G2 D2]. split; [auto|by etrans|by etrans]. Qed.

Lemma live_runs s s' : live s → runs s s' → live s'.
Proof.
  intros [Hw Hp] [W G _]. split; [auto|]. destruct (grows_fixed _ _ G) as (_ & -> & _). done.
Qed.

Definition working : Mode (RuleEngine * TableauKernel) := mkMode live runs runs_refl runs_trans live_runs.

Definition working_world : Mode (World RuleEngine) := mkMode
  (λ w, live (at_world w)) (λ w w', runs (at_world w) (at_world w'))
  (λ w, runs_refl (at_world w)) (λ w1 w2 w3, runs_trans _ _ _) (λ w w', live_runs _ _).

Abbreviation hsafe := (safe working).
Abbreviation any := (λ _ _, True).

Lemma live_ready s : live s → ready (re_program s.1) s.
Proof. intros [[Hk Hs _ _] _]. split; [apply (wf_state _ Hk)|apply Hs|done]. Qed.

Lemma live_program s : live s → program_ok (re_program s.1).
Proof. intros [[_ [Hp _] _ _] _]. done. Qed.

(** A step inside the branch is a step of the engine. *)
Lemma runs_inside s s' : onward (re_program s.1) s s' → runs s s'.
Proof.
  intros [[F S T N D] G]. split; [|done|done]. intros [Hk [Hp Ht] Hb Hr].
  assert (∀ x, access_ok s.1 x → access_ok s'.1 x) as Hev.
  { intros x. cbn. by rewrite (grows_program _ _ G). }
  split; [by eapply wf_frame| | |].
  - apply Hev. split; [done|auto].
  - rewrite (frame_branches _ _ F). intros i b Hi. by apply Hev, (Hb i).
  - rewrite (frame_root _ _ F). by apply Hev.
Qed.

Lemma hsafe_inside {X} (m : EK X) s Q : safe (inside (re_program s.1)) m s Q → hsafe m s Q.
Proof.
  intros Hm Hs. destruct (Hm (live_ready _ Hs)) as [Hr HQ]. split; [done|]. intros x s' H.
  destruct (HQ x s' H) as [Ho Hq]. split; [by apply runs_inside|done].
Qed.

(** ** Disjunctions *)

Lemma tames_add_disjunction prog ids d : canonical d → tames prog (add_disjunction ids d).
Proof.
  intros Hd. apply tames_still; [by apply keeps_add_disjunction|]. intros k x k' _ H.
  assert (moves (λ k k', facts (state k') = facts (state k) ∧ kshrinks k k') (add_disjunction ids d)) as Hm; [|by apply (moves_Ok _ _ _ _ _ Hm H)].
  assert (PreOrder (λ k k' : TableauKernel, facts (state k') = facts (state k) ∧ kshrinks k k')).
  { split; [done|]. intros k1 k2 k3 [E1 N1] [E2 N2]. split; [congruence|by etrans]. }
  unfold add_disjunction, record_mutation. moves_steps; (split; [done|split; [by apply shrinks_nodes|done]]).
Qed.

Lemma strengthen_world did d e k b k' :
  canonical d → world_ok e k → strengthen_disjunction did d k = (Ok b, k') →
  world_ok e k' ∧ same_generations (state k) (state k').
Proof.
  intros Hd [Hk Hs Hb Hr] H. pose proof (preserves_strengthen_disjunction did d Hd _ _ _ Hk H) as Hk'.
  assert (moves (λ k k', facts (state k') = facts (state k) ∧ same_generations (state k) (state k') ∧
    operation_root k' = operation_root k ∧ (b_snapshot <$> branches k' = b_snapshot <$> branches k)) (strengthen_disjunction did d)) as Hm.
  { assert (PreOrder (λ k k' : TableauKernel, facts (state k') = facts (state k) ∧ same_generations (state k) (state k') ∧
      operation_root k' = operation_root k ∧ (b_snapshot <$> branches k' = b_snapshot <$> branches k))).
    { split; [done|]. intros k1 k2 k3 (E1 & G1 & R1 & B1) (E2 & G2 & R2 & B2).
      split_and!; [congruence|by etrans|congruence|congruence]. }
    unfold strengthen_disjunction, record_mutation. moves_steps; split_and!; try done. cbn.
    rewrite <-list_fmap_compose. apply list_fmap_ext. intros i br _. cbn. by destruct (_ && _). }
  destruct (moves_Ok _ _ _ _ _ Hm H) as (Ef & Eg & Er & Eb). split; [|done]. split; [done| | |by rewrite Er].
  - by eapply access_facts.
  - intros i br Hi. assert (b_snapshot <$> branches k' !! i = Some (b_snapshot br)) as Hx by (by rewrite Hi).
    rewrite <-list_lookup_fmap, Eb, list_lookup_fmap in Hx. apply fmap_Some in Hx as (br0 & Hi0 & ->). by eapply Hb.
Qed.

Lemma strengthen_returns did d : returns (strengthen_disjunction did d).
Proof. unfold strengthen_disjunction. by returns_steps. Qed.

Lemma hsafe_strengthen did d s : canonical d → hsafe (Engine.ker (strengthen_disjunction did d)) s any.
Proof.
  intros Hd Hs. unfold Engine.ker. pose proof (strengthen_returns did d s.2) as Hr.
  destruct (strengthen_disjunction did d s.2) as [r k'] eqn:E. split; [done|]. intros x s' [= -> <-]. split; [|done].
  split; [|reflexivity|]; [intros Hw; by eapply strengthen_world|].
  eapply (strengthen_world did d s.1); [done|apply (live_world _ Hs)|done].
Qed.

Lemma hsafe_keys (f : gmap (list GroundAtom) N → gmap (list GroundAtom) N) s :
  hsafe (Engine.upd_engine (λ e, e <| re_disjunction_keys ::= f |>)) s any.
Proof.
  intros Hs. split; [done|]. intros x s' [= <- <-]. split; [|done]. split; [|by split|done]. by intros [Hk Hp Hb Hr].
Qed.

Lemma hsafe_dispatch_atom aid d s : live s → hsafe (dispatch_atom (A := RuleEngine) aid d) s any.
Proof. intros Hs. apply hsafe_inside, safe_dispatch_atom; [by apply live_program|by apply live_ready]. Qed.

Lemma hsafe_atom_id a s : live s → hsafe (Engine.atom_id a) s any.
Proof. intros Hs. apply hsafe_inside, safe_atom_id. by apply live_ready. Qed.

Lemma disjunct_rank_not_crash a e k : Engine.disjunct_rank a e k ≠ Crash.
Proof.
  unfold Engine.disjunct_rank. apply bind_not_crash; [by apply bind_not_crash; [apply predicate_not_crash|]|intros kind _].
  apply bind_not_crash; [|done]. apply collectM_not_crash. intros. apply node_rank_not_crash.
Qed.

Lemma order_disjuncts_not_crash atoms e k : Engine.order_disjuncts atoms e k ≠ Crash.
Proof.
  unfold Engine.order_disjuncts. apply bind_not_crash; [|done]. apply collectM_not_crash. intros a _.
  by apply bind_not_crash; [apply disjunct_rank_not_crash|].
Qed.

Lemma hsafe_install_disjunction atoms d s : live s → canonical d → hsafe (Engine.install_disjunction atoms d) s any.
Proof.
  intros Hs Hd. unfold Engine.install_disjunction.
  eapply safe_bind; [done|apply safe_reads with (Q := any); [done|apply order_disjuncts_not_crash|done]|].
  intros ordered s1 _ Hs1 _. cbv zeta. eapply safe_bind; [done|by apply safe_gets with (Q := any)|]. intros x s2 _ Hs2 _.
  eapply safe_bind with (Q := any); [done| |].
  { destruct (re_disjunction_keys x.1 !! _) as [did|]; [|by apply safe_mret].
    pose proof (disjunction_not_crash did x.2) as Hdc. destruct (disjunction did x.2) as [record|e|]; [| |done].
    - destruct (d_active record).
      + eapply safe_bind; [done|by apply hsafe_strengthen|]. intros stronger s3 _ Hs3 _.
        eapply safe_bind with (Q := any); [done| |intros [] s4 _ Hs4 _; by apply safe_mret].
        destruct stronger; [|by apply safe_mret]. eapply safe_bind; [done|by apply safe_gets with (Q := any)|].
        intros y s4 _ Hs4 _. apply safe_forM; [done|]. intros choice s5 _ Hs5.
        eapply safe_bind; [done|by apply hsafe_dispatch_atom|]. intros b s6 _ Hs6 _. by apply safe_mret.
      + eapply safe_bind; [done|apply hsafe_keys|]. intros [] s3 _ Hs3 _. by apply safe_mret.
    - eapply safe_bind; [done|apply hsafe_keys|]. intros [] s3 _ Hs3 _. by apply safe_mret. }
  intros strengthened s3 _ Hs3 _. destruct strengthened; [by apply safe_mret|].
  eapply safe_bind; [done|apply safe_foldST; [done|]|].
  { intros ids a s4 _ Hs4. eapply safe_bind; [done|by apply hsafe_atom_id|]. intros aid s5 _ Hs5 _. by apply safe_mret. }
  intros ids s4 _ Hs4 _. eapply safe_bind; [done|apply hsafe_inside, safe_ker;
    [by apply live_ready|by apply tames_add_disjunction|apply add_disjunction_returns]|].
  intros did s5 _ Hs5 _. eapply safe_bind; [done|apply hsafe_keys|]. intros [] s6 _ Hs6 _. by apply safe_mret.
Qed.

(** ** Heads *)

Section heads.
Context (prog : RuleProgram) (Hprog : program_ok prog).

Lemma some_satisfied_not_crash atoms e k : re_program e = prog → Engine.some_satisfied atoms e k ≠ Crash.
Proof.
  intros Ep. induction atoms as [|a atoms IH]; cbn [Engine.some_satisfied]; [done|].
  apply bind_not_crash; [by eapply atom_satisfied_not_crash|]. by intros [] _.
Qed.

Lemma split_head_not_crash atoms e k rem deps : re_program e = prog → Engine.split_head atoms e k rem deps ≠ Crash.
Proof.
  intros Ep. revert rem deps. induction atoms as [|a atoms IH]; intros rem deps; cbn [Engine.split_head]; [done|].
  apply bind_not_crash; [by eapply atom_refutation_not_crash|]. by intros [d|] _.
Qed.

Lemma single_clash_not_crash a e : Engine.single_atom_clash_kind a e ≠ Crash.
Proof. by apply bind_not_crash; [apply predicate_not_crash|]. Qed.

Lemma ground_atom_not_crash a b e k : re_program e = prog → Engine.ground_atom a b e k ≠ Crash.
Proof.
  intros Ep. unfold Engine.ground_atom. apply bind_not_crash.
  - apply collectM_not_crash. intros t _. apply bind_not_crash; [by destruct t; apply ok_or_not_crash|].
    intros h _. apply canonical_handle_not_crash.
  - intros resolved _. apply bind_not_crash; [apply new_ground_not_crash|intros a' _].
    by apply bind_not_crash; [by eapply canonical_atom_not_crash|].
Qed.
End heads.

(** The remaining atoms of a head are among its atoms. *)
Lemma split_head_remaining atoms e k rem deps rem' deps' a :
  Engine.split_head atoms e k rem deps = Ok (rem', deps') → a ∈ rem' → a ∈ rem ∨ a ∈ atoms.
Proof.
  revert rem deps. induction atoms as [|b atoms IH]; intros rem deps H Ha; cbn [Engine.split_head] in H.
  { injection H as <- <-. by left. }
  apply outcome_bind_Ok in H as ([d|] & _ & H); apply IH in H; set_solver.
Qed.

Lemma order_disjuncts_elements atoms e k l a : Engine.order_disjuncts atoms e k = Ok l → a ∈ l → a ∈ atoms.
Proof.
  unfold Engine.order_disjuncts. intros (ranked & Hr%collectM_Ok & [= <-])%outcome_bind_Ok.
  intros ([rank b] & -> & Hin)%list_elem_of_fmap. cbn. rewrite elem_of_sort in Hin.
  apply list_elem_of_lookup in Hin as [i Hi]. destruct (Forall2_lookup_r _ _ _ _ _ Hr Hi) as (x & Hx & E).
  apply outcome_bind_Ok in E as (r & _ & [= _ <-]). by eapply list_elem_of_lookup_2.
Qed.

Lemma hsafe_ground_head atoms d prov parts s :
  live s → hsafe (Engine.apply_ground_head atoms d prov parts) s any.
Proof.
  intros Hs. pose proof (live_program _ Hs) as Hprog. unfold Engine.apply_ground_head.
  eapply safe_bind; [done|apply safe_reads with (Q := λ l s', s' = s ∧ ∀ r, r ∈ l → ∃ p, shaped (re_program s.1) r.1 p); [done| |]|].
  { apply collectM_not_crash. intros a _. by eapply canonical_atom_not_crash. }
  { intros l Hl%collectM_Ok. split; [done|]. intros [a' d'] [i Hi]%list_elem_of_lookup.
    destruct (Forall2_lookup_r _ _ _ _ _ Hl Hi) as (a & _ & Ha).
    by apply (canonical_atom_Ok (re_program s.1)) in Ha as (_ & _ & Hp). }
  intros l s1 _ _ [-> Hl].
  eapply safe_bind; [done|apply safe_reads with (Q := λ n s', s' = s ∧ ∀ a, a ∈ n → ∃ p, shaped (re_program s.1) a p); [done|apply order_disjuncts_not_crash|]|].
  { intros n Hn. split; [done|]. intros a Ha%(order_disjuncts_elements _ _ _ _ _ Hn).
    apply elem_of_btree_elements, elem_of_list_to_set, list_elem_of_fmap in Ha as (r & -> & Hr). by apply Hl. }
  intros normalized s1 _ _ [-> Hn].
  eapply safe_bind; [done|apply safe_reads with (Q := λ _ s', s' = s); [done|by eapply some_satisfied_not_crash|done]|].
  intros satisfied s1 _ _ ->. destruct satisfied; [by apply safe_mret|].
  eapply safe_bind; [done|apply safe_reads with (Q := λ x s', s' = s ∧ ∀ a, a ∈ x.1 → ∃ p, shaped (re_program s.1) a p);
    [done|by eapply split_head_not_crash|]|].
  { intros [rem deps] Hx. split; [done|]. intros a Ha. destruct (split_head_remaining _ _ _ _ _ _ _ _ Hx Ha) as [?|?]; [set_solver|auto]. }
  intros [rem deps] s1 _ _ [-> Hrem]. cbn [fst] in Hrem. destruct rem as [|a [|b rem]].
  - eapply safe_bind; [done|apply safe_reads with (Q := any); [done| |done]|].
    { destruct normalized as [|a []]; [done|apply single_clash_not_crash|done]. }
    intros kind s1 _ Hs1 _. apply hsafe_inside, safe_install; [by apply live_ready|apply canonical_union].
  - eapply safe_bind; [done|by apply safe_gets with (Q := λ x s', x = s ∧ s' = s)|]. intros x s1 _ _ [-> ->].
    destruct (Hrem a) as [p Hp]; [by left|].
    apply hsafe_inside. eapply safe_step; [done| |by apply live_ready|apply canonical_union|done|].
    + intros a1 d1 c1 ps1 s1 Hs1 Hf. by apply safe_loop.
    + left. unfold Engine.dispatch_fuel, weight. lia.
  - apply hsafe_install_disjunction; [done|apply canonical_union].
Qed.

Lemma hsafe_apply_match m s : live s → hsafe (Engine.apply_match m) s any.
Proof.
  intros Hs. pose proof (live_program _ Hs) as Hprog. unfold Engine.apply_match.
  eapply safe_bind; [done|apply safe_reads with (Q := λ _ s', s' = s); [done|apply ok_or_not_crash|done]|].
  intros c s1 _ _ ->. cbv zeta. eapply safe_bind; [done|apply safe_reads with (Q := any); [done| |done]|].
  { apply collectM_not_crash. intros a _. by eapply ground_atom_not_crash. }
  intros grounded s1 _ Hs1 _. by apply hsafe_ground_head.
Qed.

(** ** However a rule ends *)

Lemma drifts_foldST {X Y} (f : Y → X → EK Y) l y : (∀ y x, drifts (f y x)) → drifts (foldST f l y).
Proof.
  intros Hf. revert y. induction l as [|x l IH]; intros y; cbn [foldST]; [apply drifts_mret|]. apply drifts_bind; auto.
Qed.

Lemma drifts_keys (f : gmap (list GroundAtom) N → gmap (list GroundAtom) N) :
  drifts (Engine.upd_engine (λ e, e <| re_disjunction_keys ::= f |>)).
Proof. intros s. split; [done|]. by split. Qed.

Lemma root_strengthen did d : moves same_operation_root (strengthen_disjunction did d).
Proof. unfold strengthen_disjunction, record_mutation. by moves_steps. Qed.

Lemma root_add_disjunction ids d : moves same_operation_root (add_disjunction ids d).
Proof. unfold add_disjunction, record_mutation. by moves_steps. Qed.

Lemma drifts_apply_match m : drifts (Engine.apply_match m).
Proof.
  unfold Engine.apply_match, Engine.apply_ground_head, Engine.install_disjunction, Engine.redispatch_choices.
  repeat match goal with
    | |- drifts (_ ≫= _) => apply drifts_bind; [|intros ?]
    | |- drifts (forM _ _) => apply drifts_forM; intros ?
    | |- drifts (foldST _ _ _) => apply drifts_foldST; intros ? ?
    | |- drifts (Engine.looks _) => apply drifts_looks
    | |- drifts (gets _) => apply drifts_gets
    | |- drifts (lift _) => apply drifts_lift
    | |- drifts (mret _) => apply drifts_mret
    | |- drifts (Engine.atom_id _) => apply drifts_atom_id
    | |- drifts (Engine.upd_engine _) => apply drifts_keys
    | |- drifts (dispatch_atom _ _) => apply drifts_dispatch_atom
    | |- drifts (Engine.dispatch_normalized _ _ _ _ _) => apply drifts_normalized; intros; apply drifts_dispatch
    | |- drifts (Engine.ker _) =>
        apply drifts_ker; first [apply root_strengthen | apply root_add_disjunction | apply root_install]
    | |- drifts (match ?x with _ => _ end) => destruct x
    | |- drifts (let _ := _ in _) => cbv zeta
    end.
Qed.
