(* ===== verification/EngineRun.v ===== *)
(** * The join evaluators answer (native/src/rules/joins.rs)

    On a validated program neither evaluator panics, whatever the rows, the node
    maps and the plan are: every failure is an error value. *)

From S2P Require Import Prelude Order Errors Model Queue Store Kernel KernelBase Arena Facts FactOps StateInv NodeOps Merge Prune KernelInv Totality Cancel Branching RuleModel Merging RulePlans Joins RuleEngine RuleSpec PlanSpec EngineBase EngineSafe EngineDispatch.

(** ** Pieces that cannot panic *)

Lemma wreturns_lift {S X} (r : NativeResult X) : r ≠ Crash → wreturns (lift r : st S NativeError X).
Proof. by intros Hr w. Qed.

Lemma wreturns_foldST {S X Y} (f : Y → X → st S NativeError Y) l y :
  (∀ y x, x ∈ l → wreturns (f y x)) → wreturns (foldST f l y).
Proof.
  revert y. induction l as [|x l IH]; intros y Hf; cbn [foldST]; [done|].
  apply wreturns_bind; [apply Hf; by left|]. intros y'. apply IH. intros z x' Hx. apply Hf. by right.
Qed.

Section reading.
Context (env : JoinEnv).
Abbreviation prog := (je_program env).

Lemma resolved_constant_not_crash t : Join.resolved_constant env t ≠ Crash.
Proof.
  unfold Join.resolved_constant. apply bind_not_crash; [by destruct t|intros entry _].
  apply bind_not_crash; [apply ok_or_not_crash|intros h _]. apply bind_not_crash; [apply canonical_handle_not_crash|intros r _].
  apply bind_not_crash; [apply node_sort_not_crash|intros s _]. by apply bind_not_crash; [apply reject_if_not_crash|].
Qed.

Lemma resolved_term_not_crash t b : Join.resolved_term env t b ≠ Crash.
Proof.
  unfold Join.resolved_term. destruct (variable_key t) as [key|].
  - destruct (b !! key); [|done]. by apply bind_not_crash; [apply canonical_handle_not_crash|].
  - by apply bind_not_crash; [apply resolved_constant_not_crash|].
Qed.

Lemma unify_handles_not_crash a handles b : Join.unify_handles env a handles b ≠ Crash.
Proof.
  unfold Join.unify_handles. destruct (negb _); [done|]. apply bind_not_crash; [|done].
  generalize (zip (ra_arguments a) handles) as pairs. intros pairs. generalize (@nil DependencySet). revert b.
  induction pairs as [|[t raw] pairs IH]; intros b deps; cbn [Join.unify_loop]; [done|].
  apply bind_not_crash; [apply canonical_handle_not_crash|intros r _]. apply bind_not_crash; [apply node_sort_not_crash|intros s _].
  destruct (negb _); [done|]. destruct (variable_key t) as [key|].
  - destruct (match b !! key with Some _ => _ | None => _ end); [done|apply IH].
  - apply bind_not_crash; [apply resolved_constant_not_crash|intros e _]. by destruct (negb _).
Qed.

Lemma bind_unresolved_not_crash t h b : Join.bind_unresolved env t h b ≠ Crash.
Proof.
  unfold Join.bind_unresolved. destruct (variable_key t); [|done].
  apply bind_not_crash; [apply node_sort_not_crash|intros s _]. by destruct (negb _).
Qed.

Lemma lookup_bindings_not_crash a b : Join.lookup_bindings env a b ≠ Crash.
Proof.
  unfold Join.lookup_bindings. generalize (imap pair (ra_arguments a)) as args. intros args.
  generalize (@nil DependencySet). generalize (∅ : gmap N NodeHandle).
  induction args as [|[p t] args IH]; intros m deps; cbn [Join.lookup_loop]; [done|].
  apply bind_not_crash; [apply resolved_term_not_crash|]. intros [[h d]|] _; [|apply IH].
  by apply bind_not_crash; [apply ok_or_not_crash|].
Qed.

(** Atoms with two arguments: equalities, inequalities and guards. *)
Definition binary (a : RuleAtom) : Prop := (1 < length (ra_arguments a))%nat.

Lemma ordering_guard_not_crash a b : binary a → Join.ordering_guard env a b ≠ Crash.
Proof.
  intros Ha. unfold binary in Ha. unfold Join.ordering_guard.
  apply bind_not_crash; [apply index_not_crash; lia|intros first _]. apply bind_not_crash; [apply resolved_term_not_crash|intros o _].
  apply bind_not_crash; [apply ok_or_not_crash|intros l _]. apply bind_not_crash; [apply index_not_crash; lia|intros second _].
  apply bind_not_crash; [apply resolved_term_not_crash|intros o' _]. apply bind_not_crash; [apply ok_or_not_crash|intros r _].
  do 2 (apply bind_not_crash; [apply node_rank_not_crash|intros ? _]). by case_bool_decide.
Qed.

Lemma inequality_queries_not_crash resolved : Join.inequality_queries env resolved ≠ Crash.
Proof.
  unfold Join.inequality_queries.
  set (known := omap _ (imap pair resolved)).
  assert (∀ i, i ∈ known → (i < length resolved)%nat) as Hin.
  { intros i ([j o] & Hj & Hi)%list_elem_of_omap. apply list_elem_of_lookup in Hj as [p Hp].
    rewrite list_lookup_imap in Hp. apply fmap_Some in Hp as (o' & Ho & [= -> ->]). cbn in Hi.
    destruct o'; [|done]. injection Hi as <-. by eapply lookup_lt_Some. }
  destruct known as [|i [|j [|]]]; [done| | |].
  - assert (index_or_crash (E := NativeError) resolved i ≠ Crash) as Hc by (apply index_not_crash, Hin; by left).
    destruct i as [|[|i]]; (apply bind_not_crash; [done|intros o _]); by apply bind_not_crash; [apply ok_or_not_crash|].
  - destruct i as [|i]; [|done]. destruct j as [|[|j]]; [done| |done].
    assert (1 < length resolved)%nat by (apply Hin; set_solver).
    apply bind_not_crash; [apply index_not_crash; lia|intros l _]. apply bind_not_crash; [apply ok_or_not_crash|intros l' _].
    apply bind_not_crash; [apply index_not_crash; lia|intros r _]. apply bind_not_crash; [apply ok_or_not_crash|intros r' _].
    do 2 (apply bind_not_crash; [apply node_rank_not_crash|intros ? _]). by destruct (if bool_decide _ then _ else _).
  - by destruct i as [|[|]]; destruct j as [|[|]].
Qed.

Lemma validate_plan_not_crash plan : Join.validate_plan env plan ≠ Crash.
Proof.
  unfold Join.validate_plan. apply bind_not_crash; [apply ok_or_not_crash|intros c _].
  apply bind_not_crash; [apply ok_or_not_crash|intros t _].
  apply bind_not_crash; [by apply bind_not_crash; [apply ok_or_not_crash|]|intros kind _].
  do 2 (apply bind_not_crash; [apply reject_if_not_crash|intros _ _]). generalize ({[pl_delta_body_index plan]} : gset N).
  induction (pl_steps plan) as [|step steps IH]; intros seen; cbn [Join.validate_indices]; [done|].
  by apply bind_not_crash; [apply reject_if_not_crash|].
Qed.
End reading.

Create HintDb answers.
#[export] Hint Resolve resolved_term_not_crash unify_handles_not_crash bind_unresolved_not_crash lookup_bindings_not_crash
  inequality_queries_not_crash validate_plan_not_crash candidate_fact_ids_not_crash fact_not_crash node_sort_not_crash
  predicate_not_crash ok_or_not_crash reject_if_not_crash : answers.

(** Splits a computation into its steps. *)
Ltac answer_steps :=
  repeat first
    [ match goal with
      | |- wreturns (_ ≫= _) => apply wreturns_bind; [|intros ?]
      | |- wreturns (foldST _ _ _) => apply wreturns_foldST; intros ? ? ?
      | |- wreturns (lift _) =>
          apply wreturns_lift; first [solve [eauto with answers] | by apply bind_not_crash; [eauto with answers|]]
      | |- wreturns (match ?x with _ => _ end) => destruct x
      | |- wreturns (let _ := _ in _) => cbv zeta
      | |- wreturns (mret _) => by intros ?
      | |- wreturns (gets _) => by intros ?
      | |- wreturns (modify _) => by intros ?
      end
    | assumption ].

Section evaluators.
Context (others : nat → CancellationState → CancellationState) (clock : nat → N).
Context (env : JoinEnv) (Hprog : program_ok (je_program env)).
Abbreviation prog := (je_program env).

Lemma join_poll_returns : wreturns (Join.poll others clock).
Proof. intros j. unfold Join.poll. rewrite poll_cases. repeat case_match; done. Qed.

Lemma poll_inner_answers : wreturns (Join.poll_inner others clock env).
Proof. unfold Join.poll_inner. answer_steps. apply join_poll_returns. Qed.

Lemma tick_answers : wreturns (Join.tick_join others clock env).
Proof. unfold Join.tick_join. answer_steps. apply poll_inner_answers. Qed.

Lemma insert_match_answers found m : wreturns (Join.insert_match env found m).
Proof. unfold Join.insert_match. answer_steps. Qed.

Lemma relation_answers a b plan i : wreturns (Join.relation_candidates others clock env a b plan i).
Proof. unfold Join.relation_candidates. answer_steps. apply poll_inner_answers. Qed.

Lemma inequality_answers a b plan i : wreturns (Join.inequality_candidates others clock env a b plan i).
Proof.
  unfold Join.inequality_candidates, Join.inequality_rows. apply wreturns_bind.
  { apply wreturns_lift, collectM_not_crash. intros. apply resolved_term_not_crash. }
  intros resolved. answer_steps; apply poll_inner_answers.
Qed.

Lemma equality_answers a b : binary a → wreturns (Join.equality_candidates others clock env a b).
Proof.
  intros Ha. unfold binary in Ha. unfold Join.equality_candidates.
  assert (∀ i, (i < 2)%nat → index_or_crash (E := NativeError) (ra_arguments a) i ≠ Crash) as Hi.
  { intros i ?. apply index_not_crash. lia. }
  apply wreturns_bind; [apply wreturns_lift, Hi; lia|intros first].
  apply wreturns_bind; [apply wreturns_lift, resolved_term_not_crash|intros l].
  apply wreturns_bind; [apply wreturns_lift, Hi; lia|intros second]. answer_steps. apply poll_inner_answers.
Qed.

(** The two-argument atoms of a validated program. *)
Lemma kind_binary c a kind :
  c ∈ clauses prog → a ∈ rc_body c → Rule.predicate_kind (ra_predicate_id a) prog = Ok kind →
  kind = OrderingGuard ∨ kind = Equality → binary a.
Proof.
  intros Hc Ha (p & Hp & ->)%predicate_kind_Ok Hk.
  destruct (clause_atoms _ _ (program_clauses _ Hprog _ Hc) a) as (q & Hq & Hs & _); [by left|].
  assert (q = p) as -> by congruence. unfold binary. rewrite <-(length_fmap term_sort), Hs.
  apply (kind_two _ Hprog _ _ Hp). by destruct Hk as [-> | ->].
Qed.

Lemma new_match_not_crash cid i b d rows : new_match cid i b d rows ≠ Crash.
Proof. by apply bind_not_crash; [apply reject_if_not_crash|]. Qed.

Lemma join_row_answers continue a b d rows found fc :
  (∀ b d rows found, wreturns (continue b d rows found)) →
  wreturns (Join.join_row others clock env continue a b d rows found fc).
Proof.
  intros Hc. unfold Join.join_row. apply wreturns_bind; [apply poll_inner_answers|intros _].
  answer_steps; [apply poll_inner_answers|apply Hc].
Qed.

Lemma join_steps_answers plan c rest b d rows found :
  c ∈ clauses prog → wreturns (Join.join_steps others clock env plan c rest b d rows found).
Proof.
  intros Hc. revert b d rows found. induction rest as [|step rest IH]; intros b d rows found; cbn [Join.join_steps];
    (apply wreturns_bind; [apply tick_answers|intros _]).
  { apply wreturns_bind; [apply wreturns_lift, new_match_not_crash|intros m]. apply insert_match_answers. }
  cbv zeta. intros j. unfold mbind at 1, st_bind at 1. unfold lift at 1.
  destruct (rc_body c !! N.to_nat (js_body_index step)) as [a|] eqn:Ea; cbn [ok_or]; [|done].
  assert (a ∈ rc_body c) as Ha by (by eapply list_elem_of_lookup_2). revert j.
  intros j. unfold mbind at 1, st_bind at 1. unfold lift at 1.
  destruct (Rule.predicate_kind (ra_predicate_id a) prog) as [kind|e|] eqn:Ek; [|done|].
  2: { exfalso. revert Ek. by apply bind_not_crash; [apply predicate_not_crash|]. }
  revert j. match goal with |- ∀ j, (?m j).1 ≠ Crash => change (wreturns m) end. case_bool_decide as Hg.
  { apply wreturns_bind; [apply wreturns_lift, ordering_guard_not_crash, (kind_binary _ _ _ Hc Ha Ek); auto|].
    intros [[b' d']|]; [apply IH|done]. }
  case_bool_decide as He.
  { apply wreturns_bind; [apply equality_answers, (kind_binary _ _ _ Hc Ha Ek); auto|]. intros cands.
    apply wreturns_foldST. intros f e _. apply wreturns_bind; [apply poll_inner_answers|]. intros _. apply IH. }
  apply wreturns_bind; [case_bool_decide; [apply inequality_answers|apply relation_answers]|]. intros cands.
  apply wreturns_foldST. intros f e _. by apply join_row_answers.
Qed.

Lemma clause_in cid c : Rule.clause cid prog = Ok c → c ∈ clauses prog.
Proof. intros Hc%ok_or_Ok. by eapply list_elem_of_lookup_2. Qed.

(** A lifted result is known in the continuation. *)
Lemma wreturns_lift_bind {S X Y} (r : NativeResult X) (f : X → st S NativeError Y) :
  r ≠ Crash → (∀ x, r = Ok x → wreturns (f x)) → wreturns (lift r ≫= f).
Proof. intros Hr Hf w. unfold mbind, st_bind, lift. destruct r as [x|e|]; [by apply Hf|done|done]. Qed.

Lemma matches_answers plan rid : wreturns (Join.matches others clock env plan rid).
Proof.
  unfold Join.matches. apply wreturns_bind; [apply join_poll_returns|intros _].
  apply wreturns_bind; [apply wreturns_lift, validate_plan_not_crash|intros _].
  apply wreturns_lift_bind; [apply ok_or_not_crash|]. intros c Hc%clause_in.
  answer_steps; first [apply poll_inner_answers | by apply join_steps_answers | apply join_poll_returns].
Qed.

(** ** The naive evaluator *)

Lemma row_satisfies_not_crash a handles kind b : Join.row_satisfies env a handles kind b ≠ Crash.
Proof.
  unfold Join.row_satisfies. apply bind_not_crash; [apply unify_handles_not_crash|intros o _].
  case_bool_decide; [done|]. destruct (negb _); [done|]. by apply bind_not_crash; [apply unify_handles_not_crash|].
Qed.

Lemma any_new_not_crash rows : Join.any_new env rows ≠ Crash.
Proof. apply foldM_not_crash. intros rid [] _; [done|]. by apply bind_not_crash; [apply fact_not_crash|]. Qed.

Lemma enumerate_supports_answers c b rows rest d sel found :
  wreturns (Join.enumerate_supports others clock env c b rows rest d sel found).
Proof.
  revert sel found. induction rest as [|rid rest IH]; intros sel found; cbn [Join.enumerate_supports];
    (apply wreturns_bind; [apply poll_inner_answers|intros _]).
  - apply wreturns_bind; [apply wreturns_lift, new_match_not_crash|intros m]. apply insert_match_answers.
  - answer_steps. apply IH.
Qed.

Lemma row_choices_answers c b rows sel rn d found :
  wreturns (Join.enumerate_row_choices others clock env c b rows sel rn d found).
Proof.
  revert sel found. induction rows as [|r rows IH]; intros sel found; cbn [Join.enumerate_row_choices];
    (apply wreturns_bind; [apply poll_inner_answers|intros _]).
  - apply wreturns_bind; [apply wreturns_lift; destruct rn; [apply any_new_not_crash|done]|intros []]; cbn [negb]; [|done].
    apply enumerate_supports_answers.
  - apply wreturns_foldST. intros f o _. apply IH.
Qed.

Lemma matching_rows_answers a kind b : wreturns (Join.matching_rows others clock env a kind b).
Proof.
  unfold Join.matching_rows. apply wreturns_foldST. intros l rid _. apply wreturns_bind; [apply poll_inner_answers|intros _].
  apply wreturns_bind; [apply wreturns_lift, fact_not_crash|intros row]. destruct (negb _); [done|].
  apply wreturns_bind; [apply wreturns_lift, row_satisfies_not_crash|done].
Qed.

Lemma evaluate_atoms_answers c atoms b rows deps :
  c ∈ clauses prog → (∀ a, a ∈ atoms → a ∈ rc_body c) → wreturns (Join.evaluate_atoms others clock env atoms b rows deps).
Proof.
  intros Hc. revert rows deps. induction atoms as [|a atoms IH]; intros rows deps Hin; cbn [Join.evaluate_atoms]; [done|].
  assert (∀ rows deps, wreturns (Join.evaluate_atoms others clock env atoms b rows deps)) as Hrest.
  { intros. apply IH. intros x Hx. apply Hin. by right. }
  apply wreturns_lift_bind; [by apply bind_not_crash; [apply predicate_not_crash|]|]. intros kind Ek.
  assert (a ∈ rc_body c) as Ha by (apply Hin; by left). case_bool_decide.
  { apply wreturns_bind; [apply wreturns_lift, ordering_guard_not_crash, (kind_binary _ _ _ Hc Ha Ek); auto|].
    intros [[]|]; [apply Hrest|done]. }
  case_bool_decide.
  { apply wreturns_bind; [apply equality_answers, (kind_binary _ _ _ Hc Ha Ek); auto|]. intros [|[]]; [done|apply Hrest]. }
  apply wreturns_bind; [apply matching_rows_answers|]. intros l. case_bool_decide; [done|apply Hrest].
Qed.

Lemma enumerate_assignments_answers c domains b rn found :
  c ∈ clauses prog → wreturns (Join.enumerate_assignments others clock env c domains b rn found).
Proof.
  intros Hc. revert b found. induction domains as [|[v dom] domains IH]; intros b found; cbn [Join.enumerate_assignments];
    (apply wreturns_bind; [apply tick_answers|intros _]).
  - unfold Join.evaluate_assignment. apply wreturns_bind; [by eapply evaluate_atoms_answers|]. intros [[]|]; [|done].
    apply row_choices_answers.
  - apply wreturns_foldST. intros f h _. apply wreturns_bind; [apply poll_inner_answers|]. intros _. apply IH.
Qed.

Lemma naive_matches_answers cid rn : wreturns (Join.naive_matches others clock env cid rn).
Proof.
  unfold Join.naive_matches, Join.sort_domain. apply wreturns_bind; [apply join_poll_returns|intros _].
  apply wreturns_lift_bind; [apply ok_or_not_crash|]. intros c Hc%clause_in.
  answer_steps; first [apply poll_inner_answers | by apply enumerate_assignments_answers | apply join_poll_returns].
Qed.
End evaluators.

(** * Running the rules (native/src/rules/engine.rs)

    One generation of deltas and the saturation loop: they answer, keep what the
    kernel and the brancher rely on, and saturation stops with a clash or with
    every row seen by the rules. *)

Import Kernel.

(** ** One generation *)

Section running.
Context (others : nat → CancellationState → CancellationState) (clock : nat → N).
Abbreviation rsafe := (safe working_world).

Lemma rsafe_poll w : rsafe (Branching.poll others clock) w any.
Proof.
  intros Hs. destruct (Branching.poll others clock w) as [r w'] eqn:E. pose proof (poll_still others clock w) as Ew.
  rewrite E in Ew. cbn in Ew. apply poll_kernel in E as (_ & _ & Hr). split; [done|]. intros x w1 [= -> <-].
  cbn [step working_world]. rewrite Ew. split; [by apply runs_refl|done].
Qed.

Lemma rsafe_engine {X} (m : EK X) w Q : hsafe m (at_world w) Q → rsafe (Engine.engine m) w (λ x w', Q x (at_world w')).
Proof.
  intros Hm Hs. destruct (Hm Hs) as [Hr Hx]. unfold Engine.engine. change (w_access w, w_kernel w) with (at_world w).
  destruct (m (at_world w)) as [r [e' k']]. split; [done|]. intros x w' [= -> <-]. by apply Hx.
Qed.

Lemma rsafe_reads {X} (f : TableauKernel → NativeResult X) w (Q : X → World RuleEngine → Prop) :
  (∀ k, f k ≠ Crash) → (∀ x, f (w_kernel w) = Ok x → Q x w) → rsafe (kern (reads f)) w Q.
Proof.
  intros Hf HQ Hs. unfold kern, reads. split; [apply Hf|]. intros x w' [= E <-]. split; [by apply runs_refl|].
  destruct w. by apply HQ.
Qed.

Lemma rsafe_evaluator {X} limits adjust (run : JoinEnv → st JoinState NativeError X) w :
  live (at_world w) → (∀ env, je_program env = re_program (w_access w) → wreturns (run env)) →
  rsafe (Engine.with_evaluator others clock limits adjust run) w any.
Proof.
  intros Hs Hrun. unfold Engine.with_evaluator.
  eapply safe_bind; [done|apply rsafe_poll|]. intros [] w1 [_ G _] Hs1 _ _. unfold Engine.run_evaluator.
  match goal with |- context [run ?env ?j] => pose proof (Hrun env (grows_program _ _ G) j) as Hr; destruct (run env j) as [r j'] end.
  split; [by destruct r|]. intros x w' [= E <-]. split; [by apply runs_refl|done].
Qed.

Lemma remaining_limits_not_crash limits n : Engine.remaining_join_limits limits n ≠ Crash.
Proof.
  unfold Engine.remaining_join_limits. apply bind_not_crash; [apply reject_if_not_crash|intros _ _]. cbv zeta.
  apply bind_not_crash; [apply reject_if_not_crash|intros _ _]. by apply bind_not_crash; [apply reject_if_not_crash|].
Qed.

Lemma rsafe_apply_matches ms d w : live (at_world w) → rsafe (Engine.apply_matches others clock ms d) w any.
Proof.
  revert d w. induction ms as [|m ms IH]; intros d w Hs; cbn [Engine.apply_matches]; [by apply safe_mret|].
  eapply safe_bind; [done|apply rsafe_poll|]. intros [] w1 _ Hs1 _. cbv zeta. case_bool_decide; [by apply IH|].
  eapply safe_bind; [done|by apply safe_gets with (Q := any)|]. intros x w2 _ Hs2 _.
  eapply safe_bind; [done|apply safe_lift with (Q := any); [done|apply ok_or_not_crash|done]|]. intros n w3 _ Hs3 _.
  eapply safe_bind; [done|apply safe_lift with (Q := any); [done|apply reject_if_not_crash|done]|]. intros _ w4 _ Hs4 _.
  eapply safe_bind; [done|by apply rsafe_engine, hsafe_apply_match|]. intros b w5 _ Hs5 _.
  eapply safe_bind; [done|by apply safe_gets with (Q := any)|]. intros y w6 _ Hs6 _. case_bool_decide; [by apply safe_mret|by apply IH].
Qed.

Lemma rsafe_run_plans rid plans d w : live (at_world w) → rsafe (Engine.run_plans others clock rid plans d) w any.
Proof.
  revert d w. induction plans as [|plan plans IH]; intros d w Hs; cbn [Engine.run_plans]; [by apply safe_mret|].
  eapply safe_bind; [done|apply rsafe_reads with (Q := any); [intros; apply fact_not_crash|done]|]. intros row w1 _ Hs1 _.
  eapply safe_bind; [done|by apply safe_gets with (Q := any)|]. intros x w2 _ Hs2 _. destruct (_ || _); [by apply safe_mret|].
  cbv zeta. eapply safe_bind; [done|apply safe_lift with (Q := any); [done|apply remaining_limits_not_crash|done]|].
  intros limits w3 _ Hs3 _. eapply safe_bind; [done|apply rsafe_evaluator; [done|]|].
  { intros env Ee. apply matches_answers. rewrite Ee. apply (live_program _ Hs3). }
  intros found w4 _ Hs4 _. eapply safe_bind; [done|apply safe_lift with (Q := any); [done|apply ok_or_not_crash|done]|].
  intros total w5 _ Hs5 _. eapply safe_bind; [done|by apply rsafe_apply_matches|]. intros d' w6 _ Hs6 _. by apply IH.
Qed.

Lemma rsafe_run_rows rids d w : live (at_world w) → rsafe (Engine.run_rows others clock rids d) w any.
Proof.
  revert d w. induction rids as [|rid rids IH]; intros d w Hs; cbn [Engine.run_rows]; [by apply safe_mret|].
  eapply safe_bind; [done|apply rsafe_poll|]. intros [] w1 _ Hs1 _.
  eapply safe_bind; [done|apply rsafe_reads with (Q := any); [intros; apply fact_not_crash|done]|]. intros row w2 _ Hs2 _.
  destruct (negb _); [by apply IH|].
  eapply safe_bind; [done|by apply safe_gets with (Q := λ x w', x = w2 ∧ w' = w2)|]. intros x w3 _ _ [-> ->].
  eapply safe_bind; [done|apply safe_lift with (Q := any); [done|apply (live_plans _ Hs2)|done]|]. intros plans w3 _ Hs3 _.
  eapply safe_bind; [done|by apply rsafe_run_plans|]. intros d' w4 _ Hs4 _. by apply IH.
Qed.

(** The rows of the delta are those of its generation; nothing is written. *)
Lemma delta_rows_Ok generation interval rows acc w l w' :
  Engine.delta_rows_of others clock generation interval rows acc w = (Ok l, w') →
  at_world w' = at_world w ∧ (∀ rid, rid ∈ acc → rid ∈ l) ∧
  ∀ i rid row, (i, rid) ∈ rows → fact rid (w_kernel w) = Ok row → derivation_generation row = generation → rid ∈ l.
Proof.
  revert acc w. induction rows as [|[i rid] rows IH]; intros acc w H; cbn [Engine.delta_rows_of] in H.
  { apply mret_Ok in H as [-> ->]. split_and!; [done|done|set_solver]. }
  apply st_bind_Ok in H as ([] & w1 & H1 & H).
  assert (at_world w1 = at_world w) as E1.
  { destruct (_ =? 0); [|by apply mret_Ok in H1 as [_ ->]]. pose proof (poll_still others clock w) as Ew. by rewrite H1 in Ew. }
  apply st_bind_Ok in H as (row & w2 & (k2 & [Hrow ->]%reads_Ok & ->)%kern_Ok & H).
  assert (w_kernel w1 = w_kernel w ∧ w_access w1 = w_access w) as [Ek Ea] by (injection E1; auto).
  apply IH in H as (E2 & Hacc & Hin). split_and!.
  - rewrite E2. unfold at_world. cbn. congruence.
  - intros x Hx. apply Hacc. case_match; set_solver.
  - intros j x r [[= -> ->]|Hj]%elem_of_cons Hr Hg.
    + apply Hacc. rewrite Ek, Hr in Hrow. injection Hrow as <-. rewrite Hg, N.eqb_refl. set_solver.
    + eapply Hin; [done| |done]. cbn. by rewrite Ek.
Qed.

Lemma rsafe_delta_rows generation interval rows acc w :
  live (at_world w) → rsafe (Engine.delta_rows_of others clock generation interval rows acc) w any.
Proof.
  revert acc w. induction rows as [|[i rid] rows IH]; intros acc w Hs; cbn [Engine.delta_rows_of]; [by apply safe_mret|].
  eapply safe_bind with (Q := any); [done|destruct (_ =? 0); [apply rsafe_poll|by apply safe_mret]|]. intros [] w1 _ Hs1 _.
  eapply safe_bind; [done|apply rsafe_reads with (Q := any); [intros; apply fact_not_crash|done]|]. intros row w2 _ Hs2 _. by apply IH.
Qed.
(** Every active row was derived before the current generation. *)
Definition drained (s : MutableState) : Prop :=
  ∀ i row, active_row s i row → derivation_generation row < read_generation s.

Lemma prepare_Ok k u k' :
  prepare_next_delta k = (Ok u, k') →
  facts (state k') = facts (state k) ∧ read_generation (state k') = write_generation (state k) ∧
  write_generation (state k') = write_generation (state k) + 1 ∧ write_generation (state k) + 1 ≤ u32_max.
Proof.
  intros H. unfold prepare_next_delta in H. inv_ok.
  assert (state s0 = state k <| read_generation := write_generation (state k) |>) as Hst.
  { case_bool_decide as E; [inv_ok; by destruct (state k); cbn in *; subst|]. by apply upd_frame in H1 as [_ ?]. }
  repeat kstep. rewrite Hst0, Hst1, Hst. done.
Qed.

Lemma prepare_live w x w' : live (at_world w) → kern prepare_next_delta w = (Ok x, w') → live (at_world w').
Proof.
  intros [Hw Hp] (k' & H & ->)%kern_Ok. split; [|done].
  eapply world_keeps; [apply keeps_prepare_next_delta| |exact Hw|exact H].
  unfold prepare_next_delta, record_mutation. by moves_steps.
Qed.

Lemma prepare_returns : returns prepare_next_delta.
Proof. unfold prepare_next_delta. by returns_steps. Qed.

(** What one generation does when it succeeds. *)
Record delta_done (d : AppliedDelta) (w w' : World RuleEngine) : Prop := {
  delta_live : live (at_world w');
  delta_engine : grows (w_access w) (w_access w');
  delta_read : read_generation (state (w_kernel w')) = write_generation (state (w_kernel w));
  delta_write : write_generation (state (w_kernel w')) = write_generation (state (w_kernel w)) + 1;
  delta_bound : write_generation (state (w_kernel w')) ≤ u32_max;
  delta_drained : processed_rows d = 0 → drained (state (w_kernel w'))
}.

(** The rest of a generation, once the rows to read are fixed. *)
Definition delta_rest : st (World RuleEngine) NativeError AppliedDelta :=
  w ← gets id;
  let generation := read_generation (state (w_kernel w)) in
  rids ← Engine.delta_rows_of others clock generation (cancellation_interval (re_limits (w_access w)))
    (imap pair (active_fact_ids (w_kernel w))) [];
  d ← Engine.run_rows others clock rids (Engine.mkDeltaRun [] 0 0);
  _ ← Branching.poll others clock;
  mret (mkAppliedDelta (N.of_nat (length rids)) (Engine.match_count d)).

(** With no row of this generation, all rows are older. *)
Lemma no_delta_drained hi w w' interval :
  facts_ok hi (state (w_kernel w)) →
  (∀ i row, active_row (state (w_kernel w)) i row → derivation_generation row ≤ read_generation (state (w_kernel w))) →
  Engine.delta_rows_of others clock (read_generation (state (w_kernel w))) interval
    (imap pair (active_fact_ids (w_kernel w))) [] w = (Ok [], w') →
  drained (state (w_kernel w')).
Proof.
  intros Hf Hle H. apply delta_rows_Ok in H as (E & _ & Hin). injection E as _ ->. intros i row Hr.
  specialize (Hle i row Hr). destruct (decide (derivation_generation row = read_generation (state (w_kernel w)))) as [Eg|]; [|lia].
  destruct Hr as [Hr Ha]. pose proof (facts_ids _ _ Hf _ _ Hr) as Hid.
  assert (row_id row ∈ active_fact_ids (w_kernel w)) as Hact.
  { unfold active_fact_ids. apply list_elem_of_fmap. exists row. split; [done|]. apply list_elem_of_In, filter_In.
    split; [|done]. by eapply list_elem_of_In, list_elem_of_lookup_2. }
  apply list_elem_of_lookup in Hact as [j Hj]. exfalso.
  assert (row_id row ∈ (@nil N)) as Hbad; [|by apply not_elem_of_nil in Hbad]. eapply (Hin j _ row); [| |done].
  - apply list_elem_of_lookup. exists j. by rewrite list_lookup_imap, Hj.
  - unfold fact. by rewrite Hid, Nat2N.id, Hr.
Qed.

Lemma rsafe_delta_rest w :
  live (at_world w) →
  (∀ i row, active_row (state (w_kernel w)) i row → derivation_generation row ≤ read_generation (state (w_kernel w))) →
  rsafe delta_rest w (λ d w', processed_rows d = 0 → drained (state (w_kernel w'))).
Proof.
  intros Hs Hle. unfold delta_rest.
  eapply safe_bind; [done|by apply safe_gets with (Q := λ x w', x = w ∧ w' = w)|]. intros x w0 _ _ [-> ->]. cbv zeta.
  eapply safe_bind with (Q := λ l w', l = [] → drained (state (w_kernel w'))); [done| |].
  { intros _. destruct (rsafe_delta_rows (read_generation (state (w_kernel w))) (cancellation_interval (re_limits (w_access w)))
      (imap pair (active_fact_ids (w_kernel w))) [] w Hs Hs) as [Hr Hx]. split; [exact Hr|]. intros l w' E.
    split; [by apply (Hx l w')|]. intros ->. eapply no_delta_drained; [|done|exact E].
    apply (state_facts _ _ (wf_state _ (world_wf _ _ (live_world _ Hs)))). }
  intros rids w1 _ Hs1 Hd. destruct rids as [|rid rids].
  - eapply safe_bind; [done|by apply safe_mret with (Q := λ _ w', w' = w1)|]. intros d w2 _ _ ->.
    eapply safe_bind with (Q := λ _ w', at_world w' = at_world w1); [done| |].
    { intros _. destruct (rsafe_poll w1 Hs1) as [Hr Hx]. split; [done|]. intros [] w' E. split; [by apply (Hx tt w')|].
      pose proof (poll_still others clock w1) as Ew. by rewrite E in Ew. }
    intros [] w2 _ Hs2 E. apply safe_mret; [done|]. intros _. injection E as _ ->. by apply Hd.
  - eapply safe_bind; [done|by apply rsafe_run_rows|]. intros d w2 _ Hs2 _. eapply safe_bind; [done|apply rsafe_poll|].
    intros [] w3 _ Hs3 _. apply safe_mret; [done|]. cbn. lia.
Qed.

Lemma delta_inner_safe w :
  live (at_world w) → let m := Engine.apply_next_delta_inner others clock in
  (m w).1 ≠ Crash ∧ ∀ d w', m w = (Ok d, w') → delta_done d w w'.
Proof.
  intros Hs m. destruct (rsafe_poll w Hs) as [Hr1 Hx1].
  change m with (Branching.poll others clock ≫= λ _, kern prepare_next_delta ≫= λ _, delta_rest). unfold mbind, st_bind.
  pose proof (poll_still others clock w) as Ew.
  destruct (Branching.poll others clock w) as [[[]|e|] w1]; [|done|done]. cbn in Ew.
  destruct (Hx1 tt w1 eq_refl) as [Hst1 _]. assert (live (at_world w1)) as Hs1 by (by rewrite Ew).
  pose proof (prepare_returns (w_kernel w1)) as Hr2. destruct (kern prepare_next_delta w1) as [r2 w2] eqn:E2.
  unfold kern in E2. destruct (prepare_next_delta (w_kernel w1)) as [r k2] eqn:Ep. injection E2 as <- <-.
  destruct r as [[]|e|]; [|done|done]. destruct (prepare_Ok _ _ _ Ep) as (Ef & Er & Ewr & Hb).
  assert (live (at_world (mkWorld k2 (w_access w1) (w_cancel w1) (w_polls w1)))) as Hs2.
  { eapply (prepare_live w1 tt); [done|]. unfold kern. by rewrite Ep. }
  injection Ew as Ea Ek. destruct (rsafe_delta_rest _ Hs2) as [Hr3 Hx3]; [|done|].
  { cbn. intros i row. rewrite Er. unfold active_row. rewrite Ef. intros Hrow.
    exact (row_generation _ _ _ (facts_rows _ _ (state_facts _ _ (wf_state _ (world_wf _ _ (live_world _ Hs1)))) _ _ Hrow)). }
  split; [exact Hr3|]. intros d w' H. destruct (Hx3 d w' H) as [Hrun Hd].
  pose proof (live_runs _ _ Hs2 Hrun) as Hl. destruct Hrun as [Hw G [Gr Gw]]. cbn in G, Gr, Gw.
  rewrite Ea in G. rewrite Ek in Er, Ewr, Hb.
  split; [done|done|congruence|congruence|rewrite Gw, Ewr; lia|done].
Qed.
End running.

(** ** Errors *)

Lemma wdrifts_kern {X} (m : K X) : moves same_operation_root m → wdrifts (kern m).
Proof. intros Hm w. unfold kern. specialize (Hm (w_kernel w)). destruct (m (w_kernel w)) as [r k']. by split. Qed.

Lemma wdrifts_evaluator {X} others clock limits adjust (run : JoinEnv → st JoinState NativeError X) :
  wdrifts (Engine.with_evaluator others clock limits adjust run).
Proof.
  apply wdrifts_bind; [apply wdrifts_still, poll_still|intros _]. apply wdrifts_still. intros w.
  unfold Engine.run_evaluator. by destruct (run _ _).
Qed.

Ltac wdrift_steps :=
  repeat match goal with
    | |- wdrifts (_ ≫= _) => apply wdrifts_bind; [|intros ?]
    | |- wdrifts (Branching.poll _ _) => apply wdrifts_still, poll_still
    | |- wdrifts (Engine.with_evaluator _ _ _ _ _) => apply wdrifts_evaluator
    | |- wdrifts (Engine.engine _) => apply wdrifts_engine, drifts_apply_match
    | |- wdrifts (match ?x with _ => _ end) => destruct x
    | |- wdrifts (let _ := _ in _) => cbv zeta
    | |- wdrifts (mret _) => by apply wdrifts_still
    | |- wdrifts (gets _) => by apply wdrifts_still
    | |- wdrifts (lift _) => by apply wdrifts_still
    | |- wdrifts (kern (reads _)) => by apply wdrifts_still; intros []
    | |- _ => assumption
    end.

Section errors.
Context (others : nat → CancellationState → CancellationState) (clock : nat → N).

Lemma wdrifts_apply_matches ms d : wdrifts (Engine.apply_matches others clock ms d).
Proof. revert d. induction ms as [|m ms IH]; intros d; cbn [Engine.apply_matches]; wdrift_steps; apply IH. Qed.

Lemma wdrifts_run_plans rid plans d : wdrifts (Engine.run_plans others clock rid plans d).
Proof.
  revert d. induction plans as [|plan plans IH]; intros d; cbn [Engine.run_plans]; wdrift_steps; [apply wdrifts_apply_matches|apply IH].
Qed.

Lemma wdrifts_run_rows rids d : wdrifts (Engine.run_rows others clock rids d).
Proof.
  revert d. induction rids as [|rid rids IH]; intros d; cbn [Engine.run_rows]; wdrift_steps; try apply IH. apply wdrifts_run_plans.
Qed.

Lemma wdrifts_delta_rows generation interval rows acc : wdrifts (Engine.delta_rows_of others clock generation interval rows acc).
Proof. revert acc. induction rows as [|[i rid] rows IH]; intros acc; cbn [Engine.delta_rows_of]; wdrift_steps; apply IH. Qed.

Lemma wdrifts_delta : wdrifts (Engine.apply_next_delta_inner others clock).
Proof.
  unfold Engine.apply_next_delta_inner. wdrift_steps; [|apply wdrifts_delta_rows|apply wdrifts_run_rows].
  apply wdrifts_kern. unfold prepare_next_delta, record_mutation. by moves_steps.
Qed.

Lemma recover_rule_Ok {X} (m : st (World RuleEngine) NativeError X) w x w' :
  Engine.recover_rule_operation m w = (Ok x, w') → m w = (Ok x, w').
Proof.
  unfold Engine.recover_rule_operation. destruct (m w) as [[y|e|] w1]; [done| |done].
  destruct (kern reset_to_operation_root w1) as [[]]; done.
Qed.

(** An error leaves the operation root where it was. *)
Definition keeps_root {X} (m : st (World RuleEngine) NativeError X) : Prop :=
  ∀ w e w', m w = (Err e, w') → same_operation_root (w_kernel w) (w_kernel w').

Lemma wdrifts_keeps_root {X} (m : st (World RuleEngine) NativeError X) : wdrifts m → keeps_root m.
Proof. intros Hd w e w' E. destruct (Hd w) as [Hr _]. by rewrite E in Hr. Qed.

Lemma recover_rule_returns {X} (m : st (World RuleEngine) NativeError X) w :
  live (at_world w) → keeps_root m → (m w).1 ≠ Crash → (Engine.recover_rule_operation m w).1 ≠ Crash.
Proof.
  intros Hs Hd Hm. unfold Engine.recover_rule_operation. specialize (Hd w).
  destruct (m w) as [[x|e|] w1]; [done| |done]. pose proof (Hd e w1 eq_refl) as Hr. unfold kern.
  assert ((reset_to_operation_root (w_kernel w1)).1 ≠ Crash) as Hc.
  { apply reset_returns. rewrite Hr. apply (arena_length _ _ (state_arena _ _ (wf_root _ (world_wf _ _ (live_world _ Hs))))). }
  by destruct (reset_to_operation_root (w_kernel w1)) as [[|e'|] k'].
Qed.

(** A failed operation leaves the state saved at its root, without branches. *)
Lemma recover_rule_Err {X} (m : st (World RuleEngine) NativeError X) w e w' :
  keeps_root m → Engine.recover_rule_operation m w = (Err e, w') →
  operation_root (w_kernel w') = operation_root (w_kernel w) ∧ branches (w_kernel w') = [] ∧
  ∃ gens, state (w_kernel w') = restore_state gens (cp_state (operation_root (w_kernel w))).
Proof.
  intros Hd. unfold Engine.recover_rule_operation. specialize (Hd w).
  destruct (m w) as [[x|e0|] w1]; [done| |done]. pose proof (Hd e0 w1 eq_refl) as Hr. unfold same_operation_root in Hr.
  unfold kern, reset_to_operation_root, mbind, st_bind, gets, modify, reads, id.
  intros H. assert (∃ k', w_kernel w' = k' ∧ k' = restore (operation_root (w_kernel w1)) (w_kernel w1) <| branches := [] |>) as (k' & -> & ->).
  { destruct (check_invariants _) as [[]|e1|]; simplify_eq/=; eauto. }
  unfold restore. cbn. rewrite <-Hr. split_and!; [done|done|eauto].
Qed.

Lemma apply_next_delta_safe w :
  live (at_world w) → let m := Engine.apply_next_delta others clock in
  (m w).1 ≠ Crash ∧ ∀ d w', m w = (Ok d, w') → delta_done d w w'.
Proof.
  intros Hs m. destruct (delta_inner_safe others clock w Hs) as [Hr Hx]. unfold m, Engine.apply_next_delta, mbind, st_bind, gets, lift. cbn.
  destruct (reject_if _ _) as [[]|e|] eqn:E; [|done|by apply reject_if_not_crash in E].
  split; [by apply recover_rule_returns, Hr; [|apply wdrifts_keeps_root, wdrifts_delta]|]. intros d w' H%recover_rule_Ok. by apply Hx.
Qed.

(** ** Saturation *)

(** Generations left before the counter overflows. *)
Definition generations_left (w : World RuleEngine) : N := 2 ^ 32 - write_generation (state (w_kernel w)).

Definition saturated (w : World RuleEngine) : Prop :=
  live (at_world w) ∧ (is_Some (current_clash (state (w_kernel w))) ∨ drained (state (w_kernel w))).

Lemma saturate_turns :
  turns (λ _ w, live (at_world w)) (λ _ w, generations_left w) (λ _ w, saturated w) 1 (Engine.saturate_turn others clock).
Proof.
  intros n w Hs. unfold Engine.saturate_turn, mbind, st_bind, gets, id. cbn. case_bool_decide as Hc.
  { split; [done|]. intros x w' [= <- <-]. split; [done|by left]. }
  destruct (apply_next_delta_safe w Hs) as [Hr Hx].
  destruct (Engine.apply_next_delta others clock w) as [[d|e|] w1]; [|done|done].
  destruct (Hx d w1 eq_refl) as [Hl _ _ Hw Hb Hd]. destruct (processed_rows d =? 0) eqn:E0.
  { split; [done|]. intros x w' [= <- <-]. split; [done|right]. by apply Hd, N.eqb_eq. }
  unfold lift. destruct (ok_or _ _) as [next|e|] eqn:E; [|done|by apply ok_or_not_crash in E].
  split; [done|]. intros x w' [= <- <-]. split; [done|]. unfold generations_left. unfold u32_max in Hb. lia.
Qed.

Lemma saturate_safe w :
  live (at_world w) → let m := Engine.saturate_hyperresolution others clock in
  (m w).1 ≠ Crash ∧ ∀ n w', m w = (Ok n, w') → saturated w'.
Proof.
  intros Hs m. apply (loopM_returns _ _ (λ _ w, saturated w) _ (2 ^ 32)%positive 0 w saturate_turns Hs).
  unfold generations_left. lia.
Qed.
End errors.

(** * Building and initialising a rule engine (native/src/rules/engine.rs)

    A validated program yields an engine whose plans can be looked up; seeding the
    reflexive equalities and firing the clauses without triggers keeps the kernel
    fit for it. *)

Import Kernel.

#[local] Opaque Dep.union Dep.empty.

(** ** Seeding *)

Lemma equality_by_sort_Ok prog m :
  program_ok prog → Engine.equality_by_sort (predicates prog) = Ok m →
  ∀ s pid, m !! s = Some pid → ∃ p, predicates prog !! N.to_nat pid = Some p ∧ Rule.arity p = 2%nat.
Proof.
  intros Hprog. unfold Engine.equality_by_sort.
  assert (∀ l m0 m1, (∀ p, p ∈ l → p ∈ predicates prog ∧ rp_kind p = Equality) →
    (∀ s pid, m0 !! s = Some pid → ∃ p, predicates prog !! N.to_nat pid = Some p ∧ Rule.arity p = 2%nat) →
    foldM (E := NativeError) (λ (m : gmap TermSort N) p, s ← index_or_crash (rp_argument_sorts p) 0; Ok (<[s := rp_predicate_id p]> m)) l m0 = Ok m1 →
    ∀ s pid, m1 !! s = Some pid → ∃ p, predicates prog !! N.to_nat pid = Some p ∧ Rule.arity p = 2%nat) as Hgen.
  { induction l as [|p l IH]; intros m0 m1 Hl Hm0 H; cbn [foldM] in H; [injection H as <-; done|].
    apply outcome_bind_Ok in H as (m2 & H2 & H). apply outcome_bind_Ok in H2 as (s & _ & [= <-]).
    eapply IH, H; [intros; apply Hl; by right|]. intros s' pid [[-> <-]|[_ Hm]]%lookup_insert_Some; [|by apply (Hm0 s')].
    destruct (Hl p) as [[i Hi]%list_elem_of_lookup Hk]; [by left|]. exists p. rewrite (program_ids _ Hprog _ _ Hi).
    split; [done|]. exact (equality_arity prog Hprog _ _ Hi Hk). }
  intros H. eapply (Hgen _ ∅); [|by intros s pid; rewrite lookup_empty|exact H].
  intros p [Hp Hk]%list_elem_of_In%filter_In. split; [by apply list_elem_of_In|by apply bool_decide_eq_true in Hk].
Qed.

Lemma equality_by_sort_not_crash prog : program_ok prog → Engine.equality_by_sort (predicates prog) ≠ Crash.
Proof.
  intros Hprog. apply foldM_not_crash. intros p m [Hp _]%list_elem_of_In%filter_In.
  apply list_elem_of_In, list_elem_of_lookup in Hp as [i Hi]. apply bind_not_crash; [|done]. apply index_not_crash.
  destruct (signature_one _ _ (predicate_signature _ _ (program_predicates _ Hprog _ _ Hi))) as (s & rest & ->). cbn. lia.
Qed.

Lemma hsafe_seed s : live s → hsafe Engine.seed_reflexive_equalities s any.
Proof.
  intros Hs. pose proof (live_program _ Hs) as Hprog. unfold Engine.seed_reflexive_equalities.
  eapply safe_bind; [done|apply safe_reads with (Q := λ m s', ∀ sort pid, m !! sort = Some pid →
    ∃ p, predicates (re_program s.1) !! N.to_nat pid = Some p ∧ Rule.arity p = 2%nat); [done|by apply equality_by_sort_not_crash|]|].
  { intros m Hm. by apply equality_by_sort_Ok. }
  intros by_sort s1 [_ G1 _] Hs1 Hby. cbn beta in Hby.
  assert (∃ handles, Engine.ker (gets active_node_handles) s1 = (Ok handles, s1)) as [handles Eh] by (destruct s1; eauto).
  eapply safe_bind with (Q := λ _ s', s' = s1); [done| |].
  { intros _. rewrite Eh. split; [done|]. intros x s' [= <- <-]. split; [by apply runs_refl|done]. }
  intros hs s2 _ _ ->. clear handles Eh.
  assert (∀ l s2, live s2 → re_program s2.1 = re_program s.1 → hsafe (forM (λ handle,
      s ← Engine.looks (λ _ k, node_sort handle k);
      match by_sort !! Engine.sort_of_node s with
      | None => mret tt
      | Some pid => a ← lift (Rule.new_ground pid [handle; handle]);
          _ ← Engine.ker (Engine.add_extension_atom a Dep.empty true []); mret tt
      end) l) s2 any) as Hloop; [|by apply Hloop; [|apply (grows_program _ _ G1)]].
  induction l as [|h l IH]; intros s2 Hs2 Ep; cbn [forM]; [by apply safe_mret|].
  eapply safe_bind with (Q := any); [done| |intros [] s3 [_ G _] Hs3 _; apply IH; [done|by rewrite (grows_program _ _ G)]].
  eapply safe_bind; [done|apply safe_reads with (Q := λ _ s', s' = s2); [done|apply node_sort_not_crash|done]|].
  intros sort s3 _ _ ->. destruct (by_sort !! _) as [pid|] eqn:Eb; [|by apply safe_mret].
  destruct (Hby _ _ Eb) as (p & Hp & Ha).
  eapply safe_bind; [done|apply safe_lift with (Q := λ a s', s' = s2 ∧ shaped (re_program s2.1) a p);
    [done|apply new_ground_not_crash|]|].
  { intros a [-> _]%new_ground_Ok. split; [done|]. split; [by rewrite Ep|]. cbn. by rewrite Ha. }
  intros a s3 _ _ [-> Hshape]. eapply safe_bind; [done|apply hsafe_inside; eapply safe_add_extension;
    [by apply live_ready|apply canonical_empty|exact Hshape]|]. intros b s4 _ Hs4 _. by apply safe_mret.
Qed.

(** ** Clauses without triggers *)

Section running.
Context (others : nat → CancellationState → CancellationState) (clock : nat → N).
Abbreviation rsafe := (safe working_world).

Lemma rsafe_unconditional limit ms n w : live (at_world w) → rsafe (Engine.apply_unconditional others clock limit ms n) w any.
Proof.
  revert n w. induction ms as [|m ms IH]; intros n w Hs; cbn [Engine.apply_unconditional]; [by apply safe_mret|].
  eapply safe_bind; [done|apply rsafe_poll|]. intros [] w1 _ Hs1 _.
  eapply safe_bind; [done|apply safe_lift with (Q := any); [done|apply ok_or_not_crash|done]|]. intros c w2 _ Hs2 _.
  eapply safe_bind; [done|apply safe_lift with (Q := any); [done|apply reject_if_not_crash|done]|]. intros _ w3 _ Hs3 _.
  eapply safe_bind; [done|by apply rsafe_engine, hsafe_apply_match|]. intros b w4 _ Hs4 _.
  eapply safe_bind; [done|by apply safe_gets with (Q := any)|]. intros x w5 _ Hs5 _. case_bool_decide; [by apply safe_mret|by apply IH].
Qed.

Lemma rsafe_fire_clauses cids n c w : live (at_world w) → rsafe (Engine.fire_clauses others clock cids n c) w any.
Proof.
  revert n c w. induction cids as [|cid cids IH]; intros n c w Hs; cbn [Engine.fire_clauses]; [by apply safe_mret|].
  eapply safe_bind; [done|apply rsafe_poll|]. intros [] w1 _ Hs1 _.
  eapply safe_bind; [done|by apply safe_gets with (Q := any)|]. intros x w2 _ Hs2 _. cbv zeta.
  eapply safe_bind; [done|apply safe_lift with (Q := any); [done|apply remaining_limits_not_crash|done]|]. intros limits w3 _ Hs3 _.
  eapply safe_bind; [done|apply rsafe_evaluator; [done|]|].
  { intros env Ee. apply naive_matches_answers. rewrite Ee. apply (live_program _ Hs3). }
  intros found w4 _ Hs4 _. eapply safe_bind; [done|apply safe_lift with (Q := any); [done|apply ok_or_not_crash|done]|].
  intros total w5 _ Hs5 _. eapply safe_bind; [done|by apply rsafe_unconditional|]. intros [c' b] w6 _ Hs6 _.
  destruct b; [by apply safe_mret|by apply IH].
Qed.

Lemma wdrifts_unconditional limit ms n : wdrifts (Engine.apply_unconditional others clock limit ms n).
Proof. revert n. induction ms as [|m ms IH]; intros n; cbn [Engine.apply_unconditional]; wdrift_steps; apply IH. Qed.

Lemma wdrifts_fire_clauses cids n c : wdrifts (Engine.fire_clauses others clock cids n c).
Proof.
  revert n c. induction cids as [|cid cids IH]; intros n c; cbn [Engine.fire_clauses]; wdrift_steps;
    [apply wdrifts_unconditional|apply IH].
Qed.

Lemma drifts_seed : drifts Engine.seed_reflexive_equalities.
Proof.
  unfold Engine.seed_reflexive_equalities. apply drifts_bind; [apply drifts_looks|intros m].
  apply drifts_bind; [apply drifts_ker; intros k; reflexivity|intros hs]. apply drifts_forM. intros h.
  apply drifts_bind; [apply drifts_looks|intros s]. destruct (m !! _); [|apply drifts_mret].
  apply drifts_bind; [apply drifts_lift|intros a]. apply drifts_bind; [apply drifts_ker, root_add_extension|intros; apply drifts_mret].
Qed.

(** ** Initialising *)

(** Everything before the operation root is set. *)
Definition seeding : st (World RuleEngine) NativeError unit :=
  w ← gets id;
  _ ← lift (Join.validate_node_maps (w_kernel w) (re_source_nodes (w_access w)) (re_data_nodes (w_access w)));
  _ ← Engine.engine Engine.seed_reflexive_equalities;
  _ ← Engine.fire_unconditional others clock;
  kern (reads check_invariants).

Lemma initialize_inner_split w :
  Engine.initialize_inner others clock w = (seeding ≫= λ _, kern begin_operation) w.
Proof.
  unfold Engine.initialize_inner, seeding, mbind, st_bind, gets, lift. cbn.
  destruct (Join.validate_node_maps _ _ _) as [[]|e|]; [|done|done].
  destruct (Engine.engine Engine.seed_reflexive_equalities w) as [[[]|e|] w1]; [|done|done].
  destruct (Engine.fire_unconditional others clock w1) as [[[]|e|] w2]; [|done|done].
  by destruct (kern (reads check_invariants) w2) as [[[]|e|] w3].
Qed.

Lemma validate_node_maps_not_crash k m1 m2 : Join.validate_node_maps k m1 m2 ≠ Crash.
Proof.
  assert (∀ s msg m, Join.validate_node_map k s msg m ≠ Crash) as Hm.
  { intros s msg m. apply iterM_not_crash. intros h _. apply bind_not_crash; [apply canonical_handle_not_crash|intros r _].
    apply bind_not_crash; [apply node_sort_not_crash|intros t _]. apply reject_if_not_crash. }
  by apply bind_not_crash.
Qed.

Lemma wdrifts_seeding : wdrifts seeding.
Proof.
  unfold seeding, Engine.fire_unconditional.
  apply wdrifts_bind; [by apply wdrifts_still|intros w0]. apply wdrifts_bind; [by apply wdrifts_still|intros []].
  apply wdrifts_bind; [apply wdrifts_engine, drifts_seed|intros []].
  apply wdrifts_bind; [|intros []; by apply wdrifts_still; intros []].
  apply wdrifts_bind; [by apply wdrifts_still|intros w1]. apply wdrifts_fire_clauses.
Qed.
Lemma rsafe_seeding w : live (at_world w) → rsafe seeding w any.
Proof.
  intros Hs. unfold seeding, Engine.fire_unconditional.
  eapply safe_bind; [done|by apply safe_gets with (Q := any)|]. intros x w1 _ Hs1 _.
  eapply safe_bind; [done|apply safe_lift with (Q := any); [done|apply validate_node_maps_not_crash|done]|]. intros _ w2 _ Hs2 _.
  eapply safe_bind; [done|by apply rsafe_engine, hsafe_seed|]. intros [] w3 _ Hs3 _.
  eapply safe_bind with (Q := any); [done| |].
  { eapply safe_bind; [done|by apply safe_gets with (Q := any)|]. intros y w4 _ Hs4 _. by apply rsafe_fire_clauses. }
  intros [] w4 _ Hs4 _ _. unfold kern, reads. split.
  - apply check_invariants_not_crash, (arena_length (top (w_kernel w4))), state_arena.
    apply (wf_state _ (world_wf _ _ (live_world _ Hs4))).
  - intros y w' [= E <-]. split; [by apply runs_refl|done].
Qed.

Lemma begin_Ok k u k' :
  begin_operation k = (Ok u, k') →
  branches k = [] ∧ branches k' = [] ∧ state k' = state k ∧ cp_state (operation_root k') = state k.
Proof.
  intros H. unfold begin_operation in H. apply st_bind_Ok in H as (? & ? & [-> ->]%gets_Ok & H).
  apply st_bind_Ok in H as (? & ? & [Hb ->]%lift_Ok & H). apply reject_if_Ok, negb_false_iff, bool_decide_eq_true in Hb.
  apply st_bind_Ok in H as ([] & k1 & [Hf Hs]%bump_sequence_frame & ->%modify_Ok). unfold id in Hb. cbn.
  rewrite (frame_branches _ _ Hf), Hs. done.
Qed.

Lemma begin_live w u w' :
  live (at_world w) → kern begin_operation w = (Ok u, w') → live (at_world w') ∧ w_access w' = w_access w.
Proof.
  intros [[Hk Hs Hb Hr] Hp] (k' & H & ->)%kern_Ok. split; [|done]. destruct (begin_Ok _ _ _ H) as (_ & Eb & Est & Er).
  split; [|done]. split; cbn.
  - by eapply preserves_begin_operation.
  - rewrite Est. apply Hs.
  - intros i b. rewrite Eb. by rewrite lookup_nil.
  - rewrite Er. apply Hs.
Qed.

Lemma begin_keeps_root : keeps_root (kern begin_operation).
Proof.
  intros w e w'. unfold kern, begin_operation, mbind, st_bind, gets, lift, modify. cbn.
  destruct (reject_if _ _) as [[]|e0|]; [|by intros [= _ <-]|done].
  assert (moves same_operation_root bump_sequence) as Hm by (unfold bump_sequence; by moves_steps).
  specialize (Hm (w_kernel w)). destruct (bump_sequence (w_kernel w)) as [[[]|e1|] k1]; [done| |done]. by intros [= _ <-].
Qed.

Lemma begin_returns : returns begin_operation.
Proof. unfold begin_operation. by returns_steps. Qed.

(** The engine is ready: no branch is open and the state is its own root. *)
Record initialized (w : World RuleEngine) : Prop := {
  init_live : live (at_world w);
  init_flag : re_initialized (w_access w) = true;
  init_branches : branches (w_kernel w) = [];
  init_root : cp_state (operation_root (w_kernel w)) = state (w_kernel w)
}.

Lemma initialize_inner_keeps_root : keeps_root (Engine.initialize_inner others clock).
Proof.
  intros w0 e w'. rewrite initialize_inner_split. unfold mbind, st_bind. pose proof (wdrifts_seeding w0) as [Hr _].
  destruct (seeding w0) as [[[]|e1|] w1]; [|by intros [= _ <-]|done]. intros E. etrans; [exact Hr|]. by eapply begin_keeps_root.
Qed.

Lemma initialize_inner_safe w :
  live (at_world w) → let m := Engine.initialize_inner others clock in
  (m w).1 ≠ Crash ∧ ∀ u w', m w = (Ok u, w') →
    live (at_world w') ∧ branches (w_kernel w') = [] ∧ cp_state (operation_root (w_kernel w')) = state (w_kernel w').
Proof.
  intros Hs m.
  unfold m. rewrite initialize_inner_split. destruct (rsafe_seeding w Hs Hs) as [Hr Hx]. unfold mbind, st_bind.
  destruct (seeding w) as [[[]|e|] w1]; [|done|done]. destruct (Hx tt w1 eq_refl) as [Hrun _].
  pose proof (live_runs _ _ Hs Hrun) as Hs1. split.
  - unfold kern. pose proof (begin_returns (w_kernel w1)) as Hb. by destruct (begin_operation (w_kernel w1)).
  - intros u w' E. destruct (begin_live _ _ _ Hs1 E) as [Hl _]. apply kern_Ok in E as (k' & E & ->).
    destruct (begin_Ok _ _ _ E) as (_ & Eb & Est & Er). cbn. split_and!; [done|done|congruence].
Qed.

Lemma initialize_safe w :
  live (at_world w) → let m := Engine.initialize others clock in
  (m w).1 ≠ Crash ∧ ∀ u w', m w = (Ok u, w') → initialized w'.
Proof.
  intros Hs m. unfold m, Engine.initialize.
  assert (∀ w1, at_world w1 = at_world w → let n := (_ ← kern begin_operation; _ ← Engine.recover_rule_operation (Engine.initialize_inner others clock);
    Engine.engine (Engine.upd_engine (λ e, e <| re_initialized := true |>))) in
    (n w1).1 ≠ Crash ∧ ∀ u w', n w1 = (Ok u, w') → initialized w') as Hrest.
  { intros w1 E1 n. assert (live (at_world w1)) as Hs1 by (by rewrite E1). unfold n, mbind, st_bind.
    pose proof (begin_returns (w_kernel w1)) as Hb.
    destruct (kern begin_operation w1) as [r2 w2] eqn:E2. assert (r2 = (begin_operation (w_kernel w1)).1) as Er2.
    { unfold kern in E2. destruct (begin_operation (w_kernel w1)). by injection E2 as <- _. }
    rewrite <-Er2 in Hb. destruct r2 as [[]|e|]; [|done|done]. destruct (begin_live _ _ _ Hs1 E2) as [Hs2 _].
    destruct (initialize_inner_safe w2 Hs2) as (Hr & Hx).
    pose proof (recover_rule_returns _ _ Hs2 initialize_inner_keeps_root Hr) as Hc.
    destruct (Engine.recover_rule_operation (Engine.initialize_inner others clock) w2) as [[[]|e|] w3] eqn:E3; [|done|done].
    apply recover_rule_Ok in E3. destruct (Hx _ _ E3) as ([Hl Hpl] & Hbr & Hro). split; [done|].
    intros u w' [= <- <-]. split; cbn; [|done|done|done]. split; [|done]. by destruct Hl as [? [? ?] ? ?]. }
  unfold mbind, st_bind, gets, lift, id in *. cbn in *.
  destruct (reject_if _ _) as [[]|e|] eqn:E; [|done|by apply reject_if_not_crash in E].
  destruct (rsafe_poll others clock w Hs) as [Hp _]. pose proof (poll_still others clock w) as Ew.
  destruct (Branching.poll others clock w) as [[[]|e|] w1]; [|done|done]. by apply Hrest.
Qed.
(** However initialising ends, the program is kept, and after an error no branch
    is open. *)
Lemma kern_access {X} (m : K X) (w : World RuleEngine) r w' : kern m w = (r, w') → w_access w' = w_access w.
Proof. unfold kern. destruct (m (w_kernel w)). by intros [= _ <-]. Qed.

Lemma initialize_inner_program w r w' :
  Engine.initialize_inner others clock w = (r, w') → re_program (w_access w') = re_program (w_access w).
Proof.
  rewrite initialize_inner_split. unfold mbind, st_bind. pose proof (wdrifts_seeding w) as [_ Hg].
  destruct (seeding w) as [[[]|e|] w1]; [|intros [= _ <-]; apply (grows_program _ _ Hg)..].
  intros E%kern_access. rewrite E. apply (grows_program _ _ Hg).
Qed.

Lemma initialize_program w u w' :
  Engine.initialize others clock w = (Ok u, w') → re_program (w_access w') = re_program (w_access w).
Proof.
  intros H. unfold Engine.initialize in H. apply st_bind_Ok in H as (x & ? & [-> ->]%gets_Ok & H).
  apply st_bind_Ok in H as ([] & ? & [_ ->]%lift_Ok & H). apply st_bind_Ok in H as ([] & w1 & H1 & H).
  apply poll_kernel in H1 as (_ & E1 & _). apply st_bind_Ok in H as ([] & w2 & E2%kern_access & H).
  apply st_bind_Ok in H as ([] & w3 & H3%recover_rule_Ok%initialize_inner_program & H).
  unfold Engine.engine, Engine.upd_engine, modify in H. injection H as _ <-. cbn. congruence.
Qed.

Lemma begin_branches (w : World RuleEngine) r w' : kern begin_operation w = (r, w') → branches (w_kernel w') = branches (w_kernel w).
Proof.
  assert (moves (λ k k', branches k' = branches k) begin_operation) as Hm.
  { assert (PreOrder (λ k k' : TableauKernel, branches k' = branches k)).
    { split; [done|]. intros k1 k2 k3 E1 E2. congruence. }
    unfold begin_operation, bump_sequence. by moves_steps. }
  unfold kern. specialize (Hm (w_kernel w)). destruct (begin_operation (w_kernel w)) as [r' k']. by intros [= _ <-].
Qed.

Lemma initialize_Err w e w' :
  Engine.initialize others clock w = (Err e, w') → branches (w_kernel w) = [] → branches (w_kernel w') = [].
Proof.
  intros H Hb. unfold Engine.initialize, mbind, st_bind, gets, lift, id in H. cbn in H.
  destruct (reject_if _ _) as [[]|e0|]; [|by injection H as _ <-|done].
  destruct (Branching.poll others clock w) as [[[]|e1|] w1] eqn:E1; apply poll_kernel in E1 as (Ek1 & _); [|by injection H as _ <-; rewrite Ek1|done].
  destruct (kern begin_operation w1) as [[[]|e2|] w2] eqn:E2; pose proof (begin_branches _ _ _ E2) as Eb; rewrite Ek1, Hb in Eb;
    [|by injection H as _ <-|done].
  destruct (Engine.recover_rule_operation (Engine.initialize_inner others clock) w2) as [[[]|e3|] w3] eqn:E3; [done| |done].
  injection H as _ <-. apply recover_rule_Err in E3 as (_ & E & _); [done|].
  apply initialize_inner_keeps_root.
Qed.
End running.

(** ** A new engine *)

Section construction.
Context (prog : RuleProgram) (Hprog : program_ok prog).
Context (Hbuilt : ∀ c, c ∈ clauses prog → built c ∧ narrow c).

Lemma merging_new_not_crash ps : Merging.new ps ≠ Crash.
Proof.
  apply bind_not_crash; [|done]. apply foldM_not_crash. intros p m _. apply bind_not_crash; [apply ok_or_not_crash|intros s _].
  by apply bind_not_crash; [apply reject_if_not_crash|].
Qed.

Lemma new_engine_Ok sources data limits cp learning :
  wreturns (Engine.with_limits_and_checkpoint_limits prog sources data limits cp learning) ∧
  ∀ o e o', Engine.with_limits_and_checkpoint_limits prog sources data limits cp learning o = (Ok e, o') →
    re_program e = prog ∧ join_program_ok prog (re_join_program e) ∧ re_initialized e = false ∧
    registry (re_atom_ids e) (re_atoms e) ∧ checkpoint_owner e = o ∧ o' = o + 1 ∧ checkpoints e = ∅.
Proof.
  destruct (compile_join_program_ok prog Hprog) as (jp & Hjp & Hok); [by apply Hbuilt..|].
  unfold Engine.with_limits_and_checkpoint_limits, Engine.next_rule_engine_owner. rewrite Hjp. split.
  - assert (∀ a b c, new_limits a b c ≠ Crash) as Hl by (intros; by apply bind_not_crash; [apply reject_if_not_crash|]).
    assert (∀ a b, Engine.new_checkpoint_limits a b ≠ Crash) as Hc.
    { intros. do 2 (apply bind_not_crash; [apply reject_if_not_crash|intros _ _]). done. }
    apply wreturns_bind; [by apply wreturns_lift|intros l]. apply wreturns_bind; [by apply wreturns_lift|intros c].
    apply wreturns_bind; [by apply wreturns_lift|intros j]. apply wreturns_bind; [apply wreturns_lift, merging_new_not_crash|intros m].
    apply wreturns_bind; [|done]. apply wreturns_bind; [done|intros own]. apply wreturns_bind; [apply wreturns_lift, ok_or_not_crash|done].
  - intros o e o' H. apply st_bind_Ok in H as (l & ? & [_ ->]%lift_Ok & H). apply st_bind_Ok in H as (c & ? & [_ ->]%lift_Ok & H).
    apply st_bind_Ok in H as (j & ? & [[= <-] ->]%lift_Ok & H). apply st_bind_Ok in H as (m & ? & [_ ->]%lift_Ok & H).
    apply st_bind_Ok in H as (own & o1 & H1 & [-> ->]%mret_Ok). apply st_bind_Ok in H1 as (x & ? & [-> ->]%gets_Ok & H1).
    apply st_bind_Ok in H1 as (next & ? & [Hn%ok_or_Ok ->]%lift_Ok & H1). apply checked_add_Some in Hn as [-> _].
    apply st_bind_Ok in H1 as ([] & ? & ->%modify_Ok & [-> ->]%mret_Ok). cbn. split_and!; done.
Qed.

(** A fresh engine over a kernel whose rows fit its program is ready to work. *)
Lemma new_engine_live e k : re_program e = prog → join_program_ok prog (re_join_program e) → world_ok e k → live (e, k).
Proof.
  intros Ep Hj Hw. split; [done|]. intros pid. destruct (jp_for_predicate _ _ Hj pid) as (plans & E & _). cbn. by rewrite E.
Qed.
End construction.
