(* ===== verification/EngineCheckpoint.v ===== *)
(** * Snapshots of the rule engine (native/src/rules/engine.rs)

    A checkpoint stores the mutable part of the engine under a fresh sequence
    number within the configured count and byte limits; rolling back to it
    restores that part, consumes it and every later checkpoint, and keeps the
    earlier ones. *)

From S2P Require Import Prelude Order Errors Model Queue Store Kernel KernelBase Cancel Branching RuleModel Merging.
From S2P Require Import RulePlans Joins RuleEngine EngineBase.

(** ** Bytes in use *)

Definition total_bytes (m : gmap N StoredRuleCheckpoint) : N :=
  foldr N.add 0 (st_estimated_bytes <$> (map_to_list m).*2).

Lemma sum_permutation (l l' : list N) : l ≡ₚ l' → foldr N.add 0 l = foldr N.add 0 l'.
Proof. induction 1; cbn; lia. Qed.

Lemma total_insert m s x : m !! s = None → total_bytes (<[s := x]> m) = st_estimated_bytes x + total_bytes m.
Proof.
  intros Hn. unfold total_bytes.
  rewrite (sum_permutation _ (st_estimated_bytes <$> ((s, x) :: map_to_list m).*2)); [done|].
  by do 2 apply fmap_Permutation; apply map_to_list_insert.
Qed.

Lemma total_delete m s x : m !! s = Some x → total_bytes m = st_estimated_bytes x + total_bytes (delete s m).
Proof.
  intros Hx. rewrite <-(insert_delete_id m s x Hx) at 1. by rewrite total_insert; [|apply lookup_delete_eq].
Qed.

Lemma total_lookup m s x : m !! s = Some x → st_estimated_bytes x ≤ total_bytes m.
Proof. intros Hx. rewrite (total_delete _ _ _ Hx). lia. Qed.

(** The checkpoints the engine may hold: issued sequence numbers, exact byte
    accounting and both limits respected. *)
Record checkpoints_ok (e : RuleEngine) : Prop := {
  checkpoints_issued s x : checkpoints e !! s = Some x → s < next_checkpoint_sequence e;
  checkpoints_accounted : checkpoint_bytes e = total_bytes (checkpoints e);
  checkpoints_width : total_bytes (checkpoints e) ≤ u64_max;
  checkpoints_count : N.of_nat (size (checkpoints e)) ≤ max_checkpoints (checkpoint_limits e);
  checkpoints_bytes : total_bytes (checkpoints e) ≤ max_total_checkpoint_bytes (checkpoint_limits e)
}.

Lemma sum_entries next l b r :
  foldM (λ bytes (entry : N * StoredRuleCheckpoint),
      _ ← reject_if (next <=? entry.1)%N (NativeErr.invariant "active rule checkpoint is outside the issued sequence");
      ok_or (checked_add u64_max bytes (st_estimated_bytes entry.2))
        (NativeErr.invariant "active rule checkpoint byte counter overflow")) l b = Ok r → b ≤ u64_max →
  (∀ entry, entry ∈ l → entry.1 < next) ∧ r = b + foldr N.add 0 (st_estimated_bytes <$> l.*2) ∧ r ≤ u64_max.
Proof.
  revert b. induction l as [|[s x] l IH]; intros b H Hb; cbn [foldM] in H.
  { injection H as <-. split_and!; [set_solver|cbn; lia|done]. }
  apply outcome_bind_Ok in H as (b1 & H1 & H). apply outcome_bind_Ok in H1 as ([] & Hs%reject_if_Ok & H1%ok_or_Ok).
  apply checked_add_Some in H1 as [-> Hle]. apply IH in H as (Hl & -> & Hr); [|done]. split_and!; [|cbn in *; lia|done].
  intros entry [->|Hin]%elem_of_cons; [|by apply Hl]. cbn in *. by apply N.leb_gt.
Qed.

Lemma sum_entries_Ok next l b :
  (∀ entry, entry ∈ l → entry.1 < next) → b + foldr N.add 0 (st_estimated_bytes <$> l.*2) ≤ u64_max →
  foldM (λ bytes (entry : N * StoredRuleCheckpoint),
      _ ← reject_if (next <=? entry.1)%N (NativeErr.invariant "active rule checkpoint is outside the issued sequence");
      ok_or (checked_add u64_max bytes (st_estimated_bytes entry.2))
        (NativeErr.invariant "active rule checkpoint byte counter overflow")) l b
  = Ok (b + foldr N.add 0 (st_estimated_bytes <$> l.*2)).
Proof.
  revert b. induction l as [|[s x] l IH]; intros b Hl Hb; cbn [foldM]; [cbn; by rewrite N.add_0_r|].
  cbn in Hb |- *. assert (s < next) as Hs by (apply (Hl (s, x)); by left).
  apply N.leb_gt in Hs. rewrite Hs. cbn [reject_if]. rewrite bind_Ok_l.
  assert (checked_add u64_max b (st_estimated_bytes x) = Some (b + st_estimated_bytes x)) as -> by (apply checked_add_Some; lia).
  cbn [ok_or]. rewrite bind_Ok_l, IH; [f_equal; lia|intros; apply Hl; by right|lia].
Qed.

Lemma entries_permutation (m : gmap N StoredRuleCheckpoint) : btree_entries m ≡ₚ map_to_list m.
Proof.
  apply NoDup_Permutation; [|apply NoDup_map_to_list|].
  - apply (NoDup_fmap_1 fst). apply (StronglySorted_lt_NoDup (A := N)), btree_entries_sorted.
  - intros [s x]. by rewrite elem_of_btree_entries, elem_of_map_to_list.
Qed.

Lemma entries_total (m : gmap N StoredRuleCheckpoint) :
  foldr N.add 0 (st_estimated_bytes <$> (btree_entries m).*2) = total_bytes m.
Proof. apply sum_permutation. do 2 apply fmap_Permutation. apply entries_permutation. Qed.

(** The audit of the checkpoints is exact. *)
Lemma check_registry_Ok e : Engine.check_checkpoint_registry_invariants e = Ok tt ↔ checkpoints_ok e.
Proof.
  unfold Engine.check_checkpoint_registry_invariants. split.
  - intros (bytes & Hf & H)%outcome_bind_Ok. apply sum_entries in Hf as (Hi & -> & Hw); [|done].
    apply outcome_bind_Ok in H as ([] & Hb%reject_if_Ok & H). apply outcome_bind_Ok in H as ([] & Hc%reject_if_Ok & H%reject_if_Ok).
    rewrite N.add_0_l, entries_total in *. apply negb_false_iff, N.eqb_eq in Hb. apply Nat.ltb_ge in Hc. apply N.ltb_ge in H.
    split; [|done|done|lia|done]. intros s x Hx. apply (Hi (s, x)). by apply elem_of_btree_entries.
  - intros [Hi Ha Hw Hc Hb]. rewrite sum_entries_Ok; rewrite ?N.add_0_l, ?entries_total; [|intros [s x] Hx; eapply Hi; by apply elem_of_btree_entries|done].
    rewrite bind_Ok_l, Ha, N.eqb_refl. cbn [negb reject_if]. rewrite bind_Ok_l.
    assert ((N.to_nat (max_checkpoints (checkpoint_limits e)) <? size (checkpoints e))%nat = false) as -> by (apply Nat.ltb_ge; lia).
    cbn [reject_if]. rewrite bind_Ok_l. by apply N.ltb_ge in Hb as ->.
Qed.

(** ** The atom registry *)

(** The audit accepts exactly the bijections whose identifiers fit in 32 bits. *)
Lemma validate_mutable_state_Ok ids atoms :
  Engine.validate_mutable_state ids atoms = Ok tt ↔ registry ids atoms ∧ N.of_nat (length atoms) ≤ u32_max + 1.
Proof.
  unfold Engine.validate_mutable_state. rewrite outcome_bind_Ok.
  assert (∀ (P : nat → GroundAtom → Prop), (∀ entry, entry ∈ imap pair atoms → P entry.1 entry.2) ↔ ∀ i a, atoms !! i = Some a → P i a) as Himap.
  { intros P. split.
    - intros H i a Hi. apply (H (i, a)). apply list_elem_of_lookup. exists i. by rewrite list_lookup_imap, Hi.
    - intros H [i a] [j Hj]%list_elem_of_lookup. rewrite list_lookup_imap in Hj.
      apply fmap_Some in Hj as (b & Hb & [= -> ->]). by apply H. }
  match goal with |- context [iterM ?f ?l] => assert (iterM f l = Ok tt ↔
    ∀ i a, atoms !! i = Some a → N.of_nat i ≤ u32_max ∧ ids !! a = Some (N.of_nat i)) as Hiter end.
  { rewrite iterM_Ok, Forall_forall, <-Himap. split; intros H entry Hin; specialize (H entry Hin).
    - apply outcome_bind_Ok in H as (n & Hn%ok_or_Ok & H%reject_if_Ok). unfold u32_try_from in Hn. case_match eqn:E; [|done].
      injection Hn as <-. apply N.leb_le in E. split; [done|]. by apply negb_false_iff, bool_decide_eq_true in H.
    - destruct H as [Hle Hid]. apply outcome_bind_Ok. exists (N.of_nat entry.1). split.
      + apply ok_or_Ok. unfold u32_try_from. apply N.leb_le in Hle. by rewrite Hle.
      + apply reject_if_Ok, negb_false_iff, bool_decide_eq_true. done. }
  split.
  - intros ([] & Hsz%reject_if_Ok & Hall). rewrite Hiter in Hall. apply negb_false_iff, bool_decide_eq_true in Hsz.
    assert (NoDup atoms) as Hnd.
    { apply NoDup_alt. intros i j a Hi Hj. destruct (Hall _ _ Hi) as [_ E1], (Hall _ _ Hj) as [_ E2].
      rewrite E1 in E2. injection E2. lia. }
    assert ((list_to_set atoms : gset GroundAtom) = dom ids) as Hdom.
    { apply set_subseteq_size_eq; [|by rewrite size_dom, size_list_to_set, Hsz].
      intros a [i Hi]%elem_of_list_to_set%list_elem_of_lookup. apply elem_of_dom. destruct (Hall _ _ Hi) as [_ ->]. eauto. }
    split.
    + intros a i. split.
      * intros Hi. assert (a ∈ atoms) as [j Hj]%list_elem_of_lookup.
        { apply (elem_of_list_to_set (C := gset GroundAtom)). rewrite Hdom. apply elem_of_dom. eauto. }
        destruct (Hall _ _ Hj) as [_ E]. rewrite Hi in E. injection E as ->. by rewrite Nat2N.id.
      * intros Hi. destruct (Hall _ _ Hi) as [_ E]. by rewrite N2Nat.id in E.
    + destruct (decide (length atoms = 0)%nat) as [->|Hne]; [done|].
      destruct (lookup_lt_is_Some_2 atoms (length atoms - 1)) as [a Ha]; [lia|]. destruct (Hall _ _ Ha) as [Hle _]. lia.
  - intros [Hr Hlen]. exists tt. split.
    + apply reject_if_Ok, negb_false_iff, bool_decide_eq_true. rewrite <-size_dom.
      assert (dom ids = (list_to_set atoms : gset GroundAtom)) as ->.
      { apply set_eq. intros a. rewrite elem_of_dom, elem_of_list_to_set, list_elem_of_lookup. split.
        - intros [i Hi]. apply Hr in Hi. eauto.
        - intros [i Hi]. exists (N.of_nat i). apply Hr. by rewrite Nat2N.id. }
      apply size_list_to_set, NoDup_alt. intros i j a Hi Hj.
      assert (ids !! a = Some (N.of_nat i)) as E1 by (apply Hr; by rewrite Nat2N.id).
      assert (ids !! a = Some (N.of_nat j)) as E2 by (apply Hr; by rewrite Nat2N.id). rewrite E1 in E2. injection E2. lia.
    + rewrite Hiter. intros i a Hi. split; [apply lookup_lt_Some in Hi; lia|]. apply Hr. by rewrite Nat2N.id.
Qed.

(** ** Taking a checkpoint *)

Section checkpoints.
Context {C : Type} `{OperationControl C} (layout : Engine.Layout).

(** What taking a checkpoint does to the engine. *)
Record checkpointed (cp : RuleEngineCheckpoint) (e e' : RuleEngine) : Prop := {
  checkpointed_owner : cp_owner cp = checkpoint_owner e;
  checkpointed_fresh : checkpoints e !! cp_sequence cp = None;
  checkpointed_state : ∃ bytes, e' = e <| checkpoints := <[cp_sequence cp := mkStored (Engine.take_snapshot e) bytes]> (checkpoints e) |>
    <| checkpoint_bytes := checkpoint_bytes e + bytes |> <| next_checkpoint_sequence := next_checkpoint_sequence e + 1 |>;
  checkpointed_sequence : cp_sequence cp = next_checkpoint_sequence e;
  checkpointed_before : checkpoints_ok e;
  checkpointed_after : checkpoints_ok e';
  checkpointed_registry : Engine.validate_mutable_state (re_atom_ids e) (re_atoms e) = Ok tt
}.

Lemma controlled_engine {X} (m : st C NativeError X) s r s' : Engine.controlled m s = (r, s') → s'.2 = s.2.
Proof. unfold Engine.controlled. destruct (m s.1). by intros [= _ <-]. Qed.

Lemma checkpoint_Ok s cp s' : Engine.checkpoint layout s = (Ok cp, s') → checkpointed cp s.2 s'.2.
Proof.
  intros Hc. unfold Engine.checkpoint in Hc. apply st_bind_Ok in Hc as ([] & s1 & E1%controlled_engine & Hc).
  apply st_bind_Ok in Hc as (x & ? & [-> ->]%gets_Ok & Hc). cbv zeta in Hc. unfold id in Hc.
  apply st_bind_Ok in Hc as ([] & ? & [Hreg%check_registry_Ok ->]%lift_Ok & Hc).
  apply st_bind_Ok in Hc as ([] & ? & [Hval ->]%lift_Ok & Hc).
  apply st_bind_Ok in Hc as (count & ? & [Hcount%ok_or_Ok ->]%lift_Ok & Hc). apply checked_add_Some in Hcount as [-> _].
  apply st_bind_Ok in Hc as ([] & ? & [Hmax%reject_if_Ok ->]%lift_Ok & Hc). apply N.ltb_ge in Hmax.
  apply st_bind_Ok in Hc as (bytes & ? & [_ ->]%lift_Ok & Hc).
  apply st_bind_Ok in Hc as (observed & ? & [Hobs%ok_or_Ok ->]%lift_Ok & Hc). apply checked_add_Some in Hobs as [-> Hw].
  apply st_bind_Ok in Hc as ([] & ? & [Hmb%reject_if_Ok ->]%lift_Ok & Hc). apply N.ltb_ge in Hmb.
  apply st_bind_Ok in Hc as ([] & s2 & E2%controlled_engine & Hc).
  apply st_bind_Ok in Hc as (next & ? & [Hnext%ok_or_Ok ->]%lift_Ok & Hc). apply checked_add_Some in Hnext as [-> _].
  apply st_bind_Ok in Hc as ([] & ? & [Hfresh%reject_if_Ok ->]%lift_Ok & Hc).
  apply st_bind_Ok in Hc as ([] & s3 & E3%controlled_engine & Hc).
  do 3 (apply st_bind_Ok in Hc as ([] & ? & ->%modify_Ok & Hc)). apply mret_Ok in Hc as [-> ->].
  apply bool_decide_eq_false, eq_None_not_Some in Hfresh.
  assert (s3.2 = s.2) as Es3 by congruence. rewrite E1 in *. cbn. rewrite Es3. destruct Hreg as [Hi Ha Hwd Hcn Hbt].
  split; cbn; [done|done|by eexists|done|by split| |done]. split; cbn.
  - intros q st [[<- _]|[_ Hq]]%lookup_insert_Some; [lia|]. apply Hi in Hq. lia.
  - rewrite total_insert by done. cbn. rewrite Ha. lia.
  - rewrite total_insert by done. cbn. rewrite <-Ha. lia.
  - rewrite map_size_insert_None by done. lia.
  - rewrite total_insert by done. cbn. rewrite <-Ha. lia.
Qed.
End checkpoints.

(** ** Rolling back *)

(** What the engine does between a checkpoint and the rollback may change the
    registry of atoms, but not the checkpoints. *)
Definition same_checkpoints (e e' : RuleEngine) : Prop :=
  checkpoints e' = checkpoints e ∧ checkpoint_bytes e' = checkpoint_bytes e ∧ checkpoint_owner e' = checkpoint_owner e ∧
  next_checkpoint_sequence e' = next_checkpoint_sequence e ∧ checkpoint_limits e' = checkpoint_limits e.

Lemma same_checkpoints_ok e e' : same_checkpoints e e' → checkpoints_ok e → checkpoints_ok e'.
Proof. intros (Ec & Eb & _ & En & El) [Hi Ha Hw Hc Hb]. split; rewrite ?Ec, ?Eb, ?En, ?El; done. Qed.

Lemma stored_bytes_total m : total_bytes m ≤ u64_max → Engine.stored_bytes m = total_bytes m.
Proof.
  rewrite <-entries_total. unfold Engine.stored_bytes, btree_values. generalize (btree_entries m).*2. intros l.
  induction l as [|x l IH]; cbn; [done|]. intros Hle. rewrite IH by lia. apply N.mod_small. unfold u64_max in Hle. lia.
Qed.

Lemma validate_checkpoint_Ok cp e x :
  checkpoints_ok e → cp_owner cp = checkpoint_owner e → checkpoints e !! cp_sequence cp = Some x →
  Engine.validate_mutable_state (sn_atom_ids (st_snapshot x)) (sn_atoms (st_snapshot x)) = Ok tt →
  Engine.validate_checkpoint cp e = Ok tt.
Proof.
  intros Hok Ho Hx Hv. unfold Engine.validate_checkpoint. rewrite Ho, N.eqb_refl. cbn [negb reject_if]. rewrite bind_Ok_l.
  apply check_registry_Ok in Hok as ->. rewrite bind_Ok_l, Hx. cbn [ok_or]. by rewrite bind_Ok_l.
Qed.

(** The rollback itself: the selected snapshot comes back and the checkpoints
    from it on are gone. *)
Lemma rollback_spec cp e x :
  checkpoints_ok e → cp_owner cp = checkpoint_owner e → checkpoints e !! cp_sequence cp = Some x →
  Engine.validate_mutable_state (sn_atom_ids (st_snapshot x)) (sn_atoms (st_snapshot x)) = Ok tt →
  ∃ e', Engine.rollback cp e = (Ok tt, e') ∧ Engine.take_snapshot e' = st_snapshot x ∧
    checkpoints e' = filter (λ entry, entry.1 < cp_sequence cp) (delete (cp_sequence cp) (checkpoints e)) ∧
    checkpoint_bytes e' = Engine.stored_bytes (checkpoints e') ∧
    re_program e' = re_program e ∧ next_checkpoint_sequence e' = next_checkpoint_sequence e ∧
    checkpoint_owner e' = checkpoint_owner e ∧ checkpoint_limits e' = checkpoint_limits e.
Proof.
  intros Hok Ho Hx Hv. unfold Engine.rollback, Engine.consume_rollback, mbind, st_bind, reads, gets, lift, modify, id.
  rewrite (validate_checkpoint_Ok _ _ _ Hok Ho Hx Hv), Hx. cbn. eexists. split; [done|]. cbn. by destruct (st_snapshot x).
Qed.
