(* ===== verification/RuleTheorems.v ===== *)
(** * A small rule program

    Concepts [A], [B] and [C], equality and inequality of objects, and the clause
    [x0 ≠ x1 ∧ A(x0) ∧ B(x1) → C(x0)], over a kernel with two nodes.  The theorems
    about rules are evaluated on it. *)

From S2P Require Import Prelude Order Errors Model Queue Store Kernel KernelBase Arena Facts FactOps StateInv NodeOps Merge Prune KernelInv Totality StoreTheorems Cancel Branching RuleModel Merging RulePlans Joins RuleEngine RuleSpec PlanSpec JoinBase JoinSpec JoinExact EngineBase EngineSafe EngineDispatch EngineRun.
Import Kernel.

Definition object_variable (v : N) : Term := Variable_ TObject v.

Definition plain_predicate (pid : N) (kind : PredicateKind) (sorts : list TermSort) : RulePredicate :=
  mkRulePredicate pid kind sorts None None None None [] None None.

Definition sample_predicates : list RulePredicate :=
  [ Rule.with_symbol_id (plain_predicate 0 Concept [TObject]) 0;
    Rule.with_symbol_id (plain_predicate 1 Concept [TObject]) 1;
    Rule.with_opposite (plain_predicate 2 Equality [TObject; TObject]) 3;
    Rule.with_opposite (plain_predicate 3 Inequality [TObject; TObject]) 2;
    Rule.with_symbol_id (plain_predicate 4 Concept [TObject]) 2 ].

Definition sample_body : list RuleAtom :=
  [ mkRuleAtom 3 [object_variable 0; object_variable 1]; mkRuleAtom 0 [object_variable 0]; mkRuleAtom 1 [object_variable 1] ].

Definition sample_clause : RuleClause :=
  mkRuleClause 0 sample_body [mkRuleAtom 4 [object_variable 0]] [0] [0; 1; 2].

Definition sample_program : RuleProgram := mkRuleProgram sample_predicates [sample_clause].

Lemma sample_clause_new :
  Rule.new_clause 0 sample_body [mkRuleAtom 4 [object_variable 0]] [0] [0; 1; 2] = Ok sample_clause.
Proof. vm_compute. reflexivity. Qed.

Lemma sample_program_new : Rule.new_program sample_predicates [sample_clause] = Ok sample_program.
Proof. vm_compute. reflexivity. Qed.

Lemma sample_program_ok : program_ok sample_program.
Proof. apply (new_program_ok _ _ _ sample_program_new). Qed.

Lemma sample_clause_unique c : c ∈ clauses sample_program → c = sample_clause.
Proof. apply list_elem_of_singleton. Qed.

Lemma sample_built c : c ∈ clauses sample_program → built c ∧ narrow c.
Proof.
  intros ->%sample_clause_unique. split; [do 5 eexists; exact sample_clause_new|].
  intros a Ha. repeat (apply elem_of_cons in Ha as [->|Ha]; [done|]). by apply not_elem_of_nil in Ha.
Qed.

Definition sample_plans : JoinProgram :=
  match Plans.compile_join_program sample_program with Ok jp => jp | _ => mkJoinProgram [] [] ∅ end.

Definition sample_engine : RuleEngine :=
  mkRuleEngine sample_program sample_plans ∅ ∅ ∅ [] ∅ true (mkMergingManager {[TObject := 3]}) default_rule_limits false 1 1
    Engine.default_checkpoint_limits 0 ∅.

Lemma sample_plans_new : Plans.compile_join_program sample_program = Ok sample_plans.
Proof. vm_compute. reflexivity. Qed.

Lemma sample_plans_ok : join_program_ok sample_program sample_plans.
Proof.
  destruct (compile_join_program_ok sample_program sample_program_ok) as (jp & E & Hok); [by apply sample_built..|].
  rewrite sample_plans_new in E. by injection E as <-.
Qed.

Lemma sample_engine_new : Engine.new sample_program ∅ ∅ true 1 = (Ok sample_engine, 2).
Proof. vm_compute. reflexivity. Qed.

(** Two nodes without facts. *)
Definition two_roots : list operation :=
  [ OpCreateNode Root None false None None None; OpCreateNode Root None false None None None ].

Definition sample_kernel : TableauKernel := (perform_all two_roots TableauKernel_new).2.

Lemma sample_kernel_wf : wf sample_kernel.
Proof.
  apply reachable_wf. eapply (perform_all_reachable two_roots _ [s0; t0]); [apply reachable_new|reflexivity|].
  vm_compute. reflexivity.
Qed.

Lemma no_facts_typed prog s : facts s = [] → typed prog s.
Proof. intros E i row [Hr _]. by rewrite E in Hr. Qed.

Lemma sample_live : live (sample_engine, sample_kernel).
Proof.
  apply (new_engine_live sample_program); [done|apply sample_plans_ok|]. split.
  - apply sample_kernel_wf.
  - split; [apply sample_program_ok|]. apply no_facts_typed. vm_compute. reflexivity.
  - assert (branches sample_kernel = []) as E by (vm_compute; reflexivity). intros i b. by rewrite E.
  - split; [apply sample_program_ok|]. apply no_facts_typed. vm_compute. reflexivity.
Qed.

(** ** Running it *)

Definition alone (_ : nat) (c : CancellationState) : CancellationState := c.
Definition stopped (_ : nat) : N := 0.
Definition unlimited : CancellationState := mkCancel false None 0 0 0 0.

Definition sample_world : World RuleEngine := mkWorld sample_kernel sample_engine unlimited 0.

Definition assert_atom (pid : N) (args : list NodeHandle) : st (World RuleEngine) NativeError unit :=
  _ ← Engine.engine (Engine.dispatch_ground_atom (mkGroundAtom pid args) Dep.empty false []); mret tt.

(** [A(s0)], [B(t0)] and [s0 ≠ t0]: the clause applies. *)
Definition assert_all : st (World RuleEngine) NativeError unit :=
  _ ← Engine.initialize alone stopped;
  _ ← assert_atom 0 [s0];
  _ ← assert_atom 1 [t0];
  assert_atom 3 [s0; t0].

Definition sample_facts : World RuleEngine := (assert_all sample_world).2.

Lemma assert_live pid args w u w' : live (at_world w) → assert_atom pid args w = (Ok u, w') → live (at_world w').
Proof.
  intros Hw H. unfold assert_atom in H. apply st_bind_Ok in H as (b & w1 & H1 & [_ ->]%mret_Ok).
  assert (safe working_world (Engine.engine (Engine.dispatch_ground_atom (mkGroundAtom pid args) Dep.empty false [])) w
    (λ x w', True)) as Hs.
  { apply (rsafe_engine _ w (λ _ _, True)), hsafe_inside, safe_dispatch; [by apply live_program|by apply live_ready]. }
  destruct (Hs Hw) as [_ Hx]. destruct (Hx b w1 H1) as [Hr _]. by eapply (live_runs (at_world w)).
Qed.

Lemma sample_facts_live : live (at_world sample_facts).
Proof.
  assert (assert_all sample_world = (Ok tt, sample_facts)) as H by (vm_compute; reflexivity). revert H. generalize sample_facts as w'.
  intros w' H. unfold assert_all in H. apply st_bind_Ok in H as ([] & w1 & H1 & H).
  destruct (initialize_safe alone stopped sample_world sample_live) as [_ Hi]. destruct (Hi tt w1 H1) as [Hl _ _ _].
  apply st_bind_Ok in H as ([] & w2 & H2 & H). apply st_bind_Ok in H as ([] & w3 & H3 & H).
  eapply assert_live, H. eapply assert_live, H3. by eapply assert_live, H2.
Qed.

(** The same with the rows of the clause opened for reading. *)
Definition sample_delta : World RuleEngine := Eval vm_compute in (kern prepare_next_delta sample_facts).2.

Lemma sample_delta_live : live (at_world sample_delta).
Proof.
  eapply (prepare_live sample_facts tt); [apply sample_facts_live|]. vm_compute. reflexivity.
Qed.

(** * Theorems about rule programs, plans and joins *)

(** ** Programs *)

(** C39: validating a rule program answers, and an accepted program is the given
    one with all signatures fitting their kinds, opposites that point at each
    other, cardinality fillers that exist, and clauses whose atoms are well sorted
    and whose head variables occur in a body atom that is not a guard. *)
Theorem new_program_validates ps cs :
  match Rule.new_program ps cs with
  | Ok prog => prog = mkRuleProgram ps cs ∧ program_ok prog
  | Err _ => True
  | Crash => False
  end.
Proof.
  pose proof (new_program_not_crash ps cs) as Hc. destruct (Rule.new_program ps cs) as [prog|e|] eqn:E; [|done|done].
  by apply new_program_ok.
Qed.

(** ** Plans *)

(** C23: on a validated program the planner terminates and succeeds; every plan
    covers its clause's body exactly once from an atom that can trigger it, with
    the lookup positions its bindings allow, there is one plan for each such atom,
    the lookup by predicate finds exactly the plans triggered by it, and the
    clauses without a trigger are the unconditional ones. *)
Theorem compile_join_program_exact prog :
  program_ok prog → (∀ c, c ∈ clauses prog → built c ∧ narrow c) →
  ∃ jp, Plans.compile_join_program prog = Ok jp ∧ join_program_ok prog jp.
Proof. intros Hp Hb. apply compile_join_program_ok; [done|by apply Hb..]. Qed.

Lemma compile_join_program_exact_witness :
  ∃ jp, Plans.compile_join_program sample_program = Ok jp ∧ join_program_ok sample_program jp.
Proof. apply (compile_join_program_exact sample_program); [apply sample_program_ok|apply sample_built]. Defined.

(** ** Joins *)

Section joins.
Context (others : nat → CancellationState → CancellationState) (clock : nat → N) (env : JoinEnv).
Abbreviation prog := (je_program env).
Abbreviation k := (je_kernel env).

(** What the evaluator is handed: a well-formed kernel, a validated program and a
    clause whose constants have nodes and whose guards can be evaluated. *)
Record joinable (c : RuleClause) : Prop := {
  joinable_kernel : wf k;
  joinable_program : program_ok prog;
  joinable_clause : c ∈ clauses prog;
  joinable_narrow : narrow c;
  joinable_grounded a : a ∈ rc_body c → atom_grounded env a;
  joinable_guards : guards_restricted env c
}.

(** C4: the indexed join of a plan from a row ends, and gives up only at a limit
    or counter overflow.  Otherwise every match it returns is a solution of the
    body with that row at the trigger; every solution that reads inequality rows
    in rank order is returned, with the least premises of its key; and no two
    matches share bindings and dependency. *)
Theorem matches_exact c plan rid :
  joinable c → plan_ok prog c plan → triggered prog c (pl_delta_body_index plan) →
  is_Some (facts (state k) !! N.to_nat rid) →
  yields (Join.matches others clock env plan rid) (exact env plan c rid).
Proof.
  intros [Hk Hp Hc Hn Hg Hr] Hplan Ht Hrow.
  exact (matches_returns others clock env (top k) (wf_state _ Hk) Hp plan c Hc Hg Hn Hplan Hr rid Hrow Ht).
Qed.

(** C24: semi-naive evaluation is complete.  For every solution of a clause body,
    the plan triggered at its first new row finds it, provided that row satisfies
    the trigger in its stored order. *)
Theorem seminaive_complete c jp σ ρ i rid row support a :
  joinable c → join_program_ok prog jp →
  body_solution env c true σ ρ → first_new env ρ i rid row → ρ i = Some (rid, support) →
  body_atom c i = Some a → instance_of env a (arguments (row_key row)) σ →
  ∃ plan, plan ∈ jp_plans jp ∧ Plans.plan_key plan = (rc_clause_id c, i) ∧
    yields (Join.matches others clock env plan rid) (λ ms, ∃ m, m ∈ ms ∧
      Join.match_key m = Join.match_key (match_of env plan c σ ρ)).
Proof.
  intros [Hk Hp Hc Hn Hg Hr] Hjp Hb Hf Hρ Ha Hi.
  assert (triggered prog c i) as Ht.
  { exists a. split; [done|]. pose proof (body_atoms _ _ _ _ _ Hb _ _ Ha) as Hs. rewrite Hρ in Hs.
    inversion Hs as [| |kind rid' row' handles support' Hkind Hgd Heq _ _ _]; subst. unfold Plans.triggerable. rewrite Hkind. by destruct kind. }
  destruct (jp_complete _ _ Hjp c i Hc Ht) as (plan & Hin & Hkey). exists plan. split_and!; [done|done|].
  assert (pl_clause_id plan = rc_clause_id c ∧ pl_delta_body_index plan = i) as [Ec Ei] by (by injection Hkey).
  destruct (jp_valid _ _ Hjp plan Hin) as (c' & Hc' & Hplan & _).
  assert (c' = c) as -> by (apply (clause_id_inj prog Hp c' c); [done|done|by rewrite <-(plan_clause _ _ _ Hplan)]). subst i.
  pose proof (solution_of_body env c true plan σ ρ rid row a support Hb Hf Hρ Ha Hi) as Hsol.
  destruct Hf as ((Hrow & _) & _).
  pose proof (matches_returns others clock env (top k) (wf_state _ Hk) Hp plan c Hc Hg Hn Hplan Hr rid ltac:(by eexists) Ht) as Hm.
  intros j. specialize (Hm j). destruct (Join.matches others clock env plan rid j) as [[ms|e|] j']; [|done|done].
  destruct (exact_complete _ _ _ _ _ Hm σ ρ Hsol) as (m & Hin' & Hmk & _). eauto.
Qed.

(** Neither evaluator panics on a validated program, whatever the rows, the
    node maps, the plan and the clause it is given. *)
Theorem evaluators_answer plan rid cid require_new j :
  program_ok prog →
  (Join.matches others clock env plan rid j).1 ≠ Crash ∧ (Join.naive_matches others clock env cid require_new j).1 ≠ Crash.
Proof. intros Hp. split; [by apply matches_answers|by apply naive_matches_answers]. Qed.
End joins.

(** ** The theorems evaluated *)

Definition sample_env : JoinEnv := Engine.join_env default_rule_limits sample_delta.

(** One goal for each element of an explicit list. *)
Ltac in_cases H :=
  first [exfalso; exact (not_elem_of_nil _ H) | apply elem_of_cons in H as [->|H]; [|in_cases H]].

Lemma sample_env_program : je_program sample_env = sample_program.
Proof. vm_compute. reflexivity. Qed.

Lemma sample_joinable : joinable sample_env sample_clause.
Proof.
  split; rewrite ?sample_env_program.
  - apply (world_wf _ _ (live_world _ sample_delta_live)).
  - apply sample_program_ok.
  - by left.
  - by apply sample_built; left.
  - intros a Ha t Ht Hv. exfalso. cbn in Ha. in_cases Ha; cbn in Ht; in_cases Ht; done.
  - intros a v Ha Hg. exfalso. revert Hg. unfold is_guard. rewrite sample_env_program.
    cbn in Ha. in_cases Ha; done.
Qed.

Definition sample_plan : ClauseJoinPlan := default (whole_view sample_clause) (head (jp_plans sample_plans)).

Lemma sample_plan_in : sample_plan ∈ jp_plans sample_plans.
Proof. apply list_elem_of_lookup. exists 0%nat. vm_compute. reflexivity. Qed.

Lemma sample_plan_ok : plan_ok sample_program sample_clause sample_plan ∧
  triggered sample_program sample_clause (pl_delta_body_index sample_plan).
Proof.
  destruct (jp_valid _ _ sample_plans_ok _ sample_plan_in) as (c & ->%sample_clause_unique & Hp & Ht). done.
Qed.

Lemma matches_exact_witness :
  yields (Join.matches alone stopped sample_env sample_plan 4) (exact sample_env sample_plan sample_clause 4) ∧
  length <$> (option_map fst (Some (Join.matches alone stopped sample_env sample_plan 4 (mkJoinState 0 0 0 unlimited 0)))
    ≫= λ r, match r with Ok ms => Some ms | _ => None end) = Some 1%nat.
Proof.
  split; [|vm_compute; reflexivity].
  apply (matches_exact alone stopped sample_env sample_clause sample_plan 4); [apply sample_joinable|..].
  - rewrite sample_env_program. apply sample_plan_ok.
  - rewrite sample_env_program. apply sample_plan_ok.
  - vm_compute. by eexists.
Defined.

(** [x0] is [s0] and [x1] is [t0]; the rows are [4], [2] and [3]. *)
Definition sample_bindings : gmap (TermSort * N) NodeHandle := <[(TObject, 0) := s0]> {[(TObject, 1) := t0]}.
Definition sample_choice (i : N) : choice := match i with 0 => Some (4, Dep.empty) | 1 => Some (2, Dep.empty) | _ => Some (3, Dep.empty) end.

Definition sample_row (i : nat) : FactRow :=
  nth i (facts (state (w_kernel sample_delta))) (mkFactRow 0 (mkFactKey 0 []) [] false false 0 ∅).

(** A stored atom whose row holds in its stored order. *)
Lemma sample_satisfied i a kind rid handles :
  Rule.predicate_kind (ra_predicate_id a) sample_program = Ok kind → can_trigger kind = true → kind ≠ Equality →
  facts (state (w_kernel sample_delta)) !! N.to_nat rid = Some (sample_row (N.to_nat rid)) →
  active (sample_row (N.to_nat rid)) = true → row_key (sample_row (N.to_nat rid)) = mkFactKey (ra_predicate_id a) handles →
  Join.in_plan_view sample_env (derivation_generation (sample_row (N.to_nat rid))) (whole_view sample_clause) i = true →
  Dep.empty ∈ supports (sample_row (N.to_nat rid)) → handles = [s0; t0] ∨ kind ≠ Inequality →
  value sample_env sample_bindings <$> ra_arguments a = Some <$> handles →
  satisfied sample_env true (whole_view sample_clause) i sample_bindings a (Some (rid, Dep.empty)).
Proof.
  intros Hk Hg He Hr Ha Hkey Hv Hs Ho Hi. apply (satisfied_row _ _ _ _ _ _ kind rid (sample_row (N.to_nat rid)) handles).
  - by rewrite sample_env_program.
  - by intros ->.
  - done.
  - split_and!; [done|by rewrite Hkey|done| |by left; rewrite Hkey].
    intros _ ->. destruct Ho as [->|]; [|done]. rewrite Hkey. intros h h' [= <- <-] (r & r' & Er & Er' & Hlt).
    revert Er Er' Hlt. vm_compute. intros [= <-] [= <-]. discriminate.
  - apply list_eq_Forall2, Forall2_fmap_1 in Hi. eapply Forall2_impl; [exact Hi|]. intros t h E. exact E.
  - done.
Qed.

Ltac sample_fact := first [vm_compute; reflexivity | discriminate | by left | by right | by constructor].

Lemma sample_solution : body_solution sample_env sample_clause true sample_bindings sample_choice.
Proof.
  split.
  - unfold sample_bindings.
    intros key h [[<- <-]|[_ [<- <-]%lookup_singleton_Some]]%lookup_insert_Some; vm_compute; eexists; split_and!; try done; reflexivity.
  - vm_compute. reflexivity.
  - intros i a Ha. unfold body_atom in Ha. destruct (N.to_nat i) as [|[|[|n]]] eqn:Ei; try done; injection Ha as <-.
    + assert (i = 0) as -> by lia. apply (sample_satisfied 0 _ Inequality 4 [s0; t0]); sample_fact.
    + assert (i = 1) as -> by lia. apply (sample_satisfied 1 _ Concept 2 [s0]); sample_fact.
    + assert (i = 2) as -> by lia. apply (sample_satisfied 2 _ Concept 3 [t0]); sample_fact.
Qed.

Lemma seminaive_complete_witness :
  ∃ plan, plan ∈ jp_plans sample_plans ∧ Plans.plan_key plan = (0, 0) ∧
    yields (Join.matches alone stopped sample_env plan 4) (λ ms, ∃ m, m ∈ ms ∧
      Join.match_key m = Join.match_key (match_of sample_env plan sample_clause sample_bindings sample_choice)).
Proof.
  apply (seminaive_complete alone stopped sample_env sample_clause sample_plans sample_bindings sample_choice 0 4 (sample_row 4)
    Dep.empty (mkRuleAtom 3 [object_variable 0; object_variable 1])).
  - apply sample_joinable.
  - rewrite sample_env_program. apply sample_plans_ok.
  - apply sample_solution.
  - split_and!; [vm_compute; split; reflexivity|vm_compute; reflexivity|by exists Dep.empty|]. intros j ? ? ? Hj. lia.
  - reflexivity.
  - reflexivity.
  - repeat constructor.
Defined.

Lemma evaluators_answer_witness :
  (Join.matches alone stopped sample_env sample_plan 9 (mkJoinState 0 0 0 unlimited 0)).1 ≠ Crash ∧
  (Join.naive_matches alone stopped sample_env 7 true (mkJoinState 0 0 0 unlimited 0)).1 ≠ Crash.
Proof.
  apply (evaluators_answer alone stopped sample_env sample_plan 9 7 true (mkJoinState 0 0 0 unlimited 0)).
  rewrite sample_env_program. apply sample_program_ok.
Defined.

(** ** A match that semi-naive evaluation misses *)

(** [A(t0)] and [B(s0)] are saturated first; then [s0 ≠ t0] arrives, which is
    stored as it is and read as [t0 ≠ s0] by the clause. *)
Definition missed_run : st (World RuleEngine) NativeError N :=
  _ ← Engine.initialize alone stopped;
  _ ← assert_atom 0 [t0];
  _ ← assert_atom 1 [s0];
  _ ← Engine.saturate_hyperresolution alone stopped;
  _ ← assert_atom 3 [s0; t0];
  Engine.saturate_hyperresolution alone stopped.

Definition missed_world : World RuleEngine := (missed_run sample_world).2.

(** Saturation can end without a clash and without firing a clause whose body
    holds: an inequality row that arrives last triggers its clause only in the
    stored order of its arguments, while the rows joined to a trigger, and the
    naive evaluator, read it in both.  Here no [C] is derived although the naive
    evaluator finds the match with [x0] the second node. *)
Theorem missed_inequality_match :
  (missed_run sample_world).1 = Ok 1 ∧
  Kernel.clash (w_kernel missed_world) = None ∧
  forallb (λ row, negb (predicate_id (row_key row) =? 4)%N) (facts (state (w_kernel missed_world))) = true ∧
  (Engine.naive_matches alone stopped 0 false missed_world).1 =
    Ok [mkJoinMatch 0 0 [mkBinding TObject 0 t0; mkBinding TObject 1 s0] Dep.empty [2; 3; 4]].
Proof. vm_compute. repeat split. Qed.
