(* ===== verification/EngineTheorems.v ===== *)
(** * Theorems about the rule engine

    The engine is the implementation of [GroundAtomAccess] behind the brancher:
    [RuleEngine_laws] discharges the interface, so the theorems about branching
    hold for it. *)

From S2P Require Import Prelude Order Errors Model Queue Store Kernel KernelBase Arena Facts FactOps.
From S2P Require Import StateInv NodeOps Merge Prune KernelInv Totality StoreTheorems Cancel Branching RuleModel Merging.
From S2P Require Import RulePlans Joins RuleEngine RuleSpec PlanSpec EngineBase EngineSafe EngineDispatch.
From S2P Require Import EngineRun EngineCheckpoint RuleTheorems.
Import Kernel.

(** ** Dispatching *)

(** C6: dispatching an atom comes back, however many merges and inequalities it
    sets off: every merge it redispatches takes a node out of the active ones.  A
    success stays inside the current branch and keeps the invariants of kernel and
    engine; whatever the outcome, the operation root is kept and the registry of
    atoms only grows. *)
Theorem dispatch_terminates a d core prov e k :
  world_ok e k →
  let '(r, (e', k')) := Engine.dispatch_ground_atom a d core prov (e, k) in
  match r with
  | Ok _ => world_ok e' k' ∧ kframe k k' ∧ (weight k' ≤ weight k)%nat
  | Err _ => True
  | Crash => False
  end ∧ operation_root k' = operation_root k ∧ grows e e'.
Proof.
  intros Hw. assert (ready (re_program e) (e, k)) as Hs.
  { destruct Hw as [Hk [_ Ht] _ _]. split; [apply (wf_state _ Hk)|done|done]. }
  assert (program_ok (re_program e)) as Hp by apply (world_state _ _ Hw).
  destruct (safe_dispatch _ Hp a d core prov (e, k) Hs Hs) as [Hr Hx].
  assert (drifts (Engine.dispatch_ground_atom a d core prov)) as Hd.
  { apply drifts_bind; [apply drifts_gets|intros s; apply drifts_dispatch]. }
  destruct (Hd (e, k)) as [Hroot Hg]. destruct (Engine.dispatch_ground_atom a d core prov (e, k)) as [[b|err|] [e' k']]; [| |done].
  - destruct (Hx b (e', k') eq_refl) as [Ho _]. split; [|done]. split_and!.
    + by apply (runs_inside (e, k) (e', k') Ho).
    + apply Ho.
    + exact (weight_onward _ _ _ Hs Ho).
  - done.
Qed.

Lemma dispatch_terminates_witness :
  let s := at_world sample_delta in
  let '(r, (e', k')) := Engine.dispatch_ground_atom (mkGroundAtom 2 [s0; t0]) Dep.empty false [] s in
  match r with
  | Ok _ => world_ok e' k' ∧ kframe s.2 k' ∧ (weight k' ≤ weight s.2)%nat
  | Err _ => True
  | Crash => False
  end ∧ operation_root k' = operation_root s.2 ∧ grows s.1 e'.
Proof.
  apply (dispatch_terminates (mkGroundAtom 2 [s0; t0]) Dep.empty false [] (w_access sample_delta) (w_kernel sample_delta)).
  apply (live_world _ sample_delta_live).
Defined.

(** ** Branching over the engine's atoms *)

Section branching.
Context (others : nat → CancellationState → CancellationState) (clock : nat → N).

Lemma dispatch_atom_grows aid d (e e' : RuleEngine) k r k' :
  dispatch_atom aid d (e, k) = (r, (e', k')) → grows e e'.
Proof. intros E. destruct (drifts_dispatch_atom aid d (e, k)) as [_ Hg]. by rewrite E in Hg. Qed.

Lemma choice_step_grows (e e' : RuleEngine) k t k' : choice_step e k t e' k' → grows e e'.
Proof. intros H. destruct H; try reflexivity; by eapply dispatch_atom_grows. Qed.

Lemma clash_step_grows learning (e e' : RuleEngine) k t k' : clash_step learning e k t e' k' → grows e e'.
Proof. intros H. destruct H; try reflexivity; by eapply dispatch_atom_grows. Qed.

Lemma live_grows e k e' k' : live (e, k) → world_ok e' k' → grows e e' → live (e', k').
Proof. intros [_ Hp] Hw G. split; [done|]. cbn. destruct (grows_fixed _ _ G) as (_ & -> & _). done. Qed.

Lemma resolve_loop_live learning fuel w t w' :
  live (at_world w) → resolve_loop others clock fuel learning w = (Ok t, w') → live (at_world w') ∧ t ≠ Exhausted.
Proof.
  revert w. induction fuel as [|fuel IH]; intros w Hw H; cbn [resolve_loop] in H; [done|].
  apply st_bind_Ok in H as (t0 & w1 & H1 & H). apply recover_on_error_Ok, resolve_clash_inner_Ok in H1.
  assert (live (at_world w1)) as Hw1.
  { eapply live_grows; [exact Hw|by eapply clash_step_world; [apply (live_world _ Hw)|]|by eapply clash_step_grows]. }
  case_bool_decide as Ht; [by apply (IH w1)|]. apply mret_Ok in H as [-> ->]. done.
Qed.

(** C9: over the rule engine, processing a disjunction is one of the steps of the
    choice relation and resolving a clash ends with a transition other than
    [Exhausted]; both answer and keep the engine and the kernel fit for each
    other. *)
Theorem engine_branching w :
  live (at_world w) →
  match Engine.process_next_disjunction others clock w with
  | (Ok t, w') => choice_step (w_access w) (w_kernel w) t (w_access w') (w_kernel w') ∧ live (at_world w')
  | (Err _, w') => branches (w_kernel w') = []
  | (Crash, _) => False
  end ∧
  match Engine.resolve_clash others clock w with
  | (Ok t, w') => t ≠ Exhausted ∧ live (at_world w')
  | (Err _, _) => True
  | (Crash, _) => False
  end.
Proof.
  intros Hw. pose proof (live_world _ Hw) as Hwok. split.
  - unfold Engine.process_next_disjunction. pose proof (recover_calm _ w Hwok (process_next_inner_calm others clock w Hwok)) as Hr.
    fold (process_next others clock) in Hr. destruct (process_next others clock w) as [[t|e|] w'] eqn:E; [| |done].
    + apply recover_on_error_Ok, process_next_inner_Ok in E. split; [done|].
      eapply live_grows; [exact Hw|by eapply choice_step_world|by eapply choice_step_grows].
    + apply recover_on_error_Err in E as (e0 & w0 & _ & -> & _). done.
  - unfold Engine.resolve_clash, mbind, st_bind, gets, id, resolve_until_choice_or_unsat. cbn -[resolve_loop].
    pose proof (resolve_loop_returns others clock (re_learning (w_access w)) (S (length (branches (w_kernel w)))) w Hwok ltac:(lia)) as Hr.
    destruct (resolve_loop others clock _ _ w) as [[t|e|] w'] eqn:E; [|done|done].
    by destruct (resolve_loop_live _ _ _ _ _ Hw E).
Qed.
End branching.

Lemma engine_branching_witness :
  let w := sample_delta in
  match Engine.process_next_disjunction alone stopped w with
  | (Ok t, w') => choice_step (w_access w) (w_kernel w) t (w_access w') (w_kernel w') ∧ live (at_world w')
  | (Err _, w') => branches (w_kernel w') = []
  | (Crash, _) => False
  end ∧
  match Engine.resolve_clash alone stopped w with
  | (Ok t, w') => t ≠ Exhausted ∧ live (at_world w')
  | (Err _, _) => True
  | (Crash, _) => False
  end.
Proof. apply (engine_branching alone stopped sample_delta). apply sample_delta_live. Defined.

(** ** Running the rules *)

Section running.
Context (others : nat → CancellationState → CancellationState) (clock : nat → N).

(** One generation of rules answers.  A success opened the next delta, kept
    kernel and engine fit for each other, and if it read no row then every row is
    older than the generation read.  An error leaves the world as it was when the
    engine is not initialised, and otherwise the state of the operation root
    without branches. *)
Theorem delta_advances w :
  live (at_world w) →
  match Engine.apply_next_delta others clock w with
  | (Ok d, w') => delta_done d w w'
  | (Err _, w') =>
      re_initialized (w_access w) = false ∧ w' = w ∨
      operation_root (w_kernel w') = operation_root (w_kernel w) ∧ branches (w_kernel w') = [] ∧
      ∃ gens, state (w_kernel w') = restore_state gens (cp_state (operation_root (w_kernel w)))
  | (Crash, _) => False
  end.
Proof.
  intros Hw. destruct (apply_next_delta_safe others clock w Hw) as [Hr Hx].
  destruct (Engine.apply_next_delta others clock w) as [[d|e|] w'] eqn:E; [by apply Hx| |done].
  unfold Engine.apply_next_delta, mbind, st_bind, gets, lift, id in E. cbn in E.
  destruct (re_initialized (w_access w)) eqn:Ei; cbn in E; [right|left; by injection E as _ <-].
  by apply recover_rule_Err in E; [|apply wdrifts_keeps_root, wdrifts_delta].
Qed.

End running.

Lemma delta_advances_witness :
  match Engine.apply_next_delta alone stopped sample_facts with
  | (Ok d, w') => delta_done d sample_facts w'
  | (Err _, w') =>
      re_initialized (w_access sample_facts) = false ∧ w' = sample_facts ∨
      operation_root (w_kernel w') = operation_root (w_kernel sample_facts) ∧ branches (w_kernel w') = [] ∧
      ∃ gens, state (w_kernel w') = restore_state gens (cp_state (operation_root (w_kernel sample_facts)))
  | (Crash, _) => False
  end ∧ (Engine.apply_next_delta alone stopped sample_facts).1 = Ok (mkAppliedDelta 5 1).
Proof.
  split; [|vm_compute; reflexivity]. apply (delta_advances alone stopped sample_facts). apply sample_facts_live.
Defined.


(** ** Building and initialising *)

(** Over a kernel without open branches whose rows have the arities of a
    validated program, a new engine initialises: either it ends ready for
    saturation, with its state as the operation root, or it reports an error with
    no branch open. *)
Theorem initialize_ready others clock prog sources data learning o e o' k c n :
  program_ok prog → (∀ c, c ∈ clauses prog → built c ∧ narrow c) →
  Engine.new prog sources data learning o = (Ok e, o') →
  wf k → branches k = [] → typed prog (state k) → typed prog (cp_state (operation_root k)) →
  match Engine.initialize others clock (mkWorld k e c n) with
  | (Ok _, w') => initialized w' ∧ re_program (w_access w') = prog
  | (Err _, w') => branches (w_kernel w') = []
  | (Crash, _) => False
  end.
Proof.
  intros Hp Hb Hnew Hk Hbr Ht Htr. destruct (new_engine_Ok prog Hp Hb sources data default_rule_limits Engine.default_checkpoint_limits learning)
    as [_ Hok]. destruct (Hok _ _ _ Hnew) as (Ep & Hj & Hi & _).
  assert (live (e, k)) as Hl.
  { apply (new_engine_live prog); [done|done|]. split; [done| | |]; cbn; rewrite Ep; [done| |done]. rewrite Hbr. intros i b Hib. by rewrite lookup_nil in Hib. }
  set (w := mkWorld k e c n). destruct (initialize_safe others clock w Hl) as [Hr Hx].
  destruct (Engine.initialize others clock w) as [[u|err|] w'] eqn:E; [| |done].
  - split; [by apply (Hx u)|]. rewrite (initialize_program others clock w u w' E). exact Ep.
  - by apply (initialize_Err others clock w err w').
Qed.

Lemma initialize_ready_witness :
  match Engine.initialize alone stopped (mkWorld sample_kernel sample_engine unlimited 0) with
  | (Ok _, w') => initialized w' ∧ re_program (w_access w') = sample_program
  | (Err _, w') => branches (w_kernel w') = []
  | (Crash, _) => False
  end ∧ (Engine.initialize alone stopped (mkWorld sample_kernel sample_engine unlimited 0)).1 = Ok tt.
Proof.
  split; [|vm_compute; reflexivity].
  apply (initialize_ready alone stopped sample_program ∅ ∅ true 1 sample_engine 2 sample_kernel unlimited 0).
  - apply sample_program_ok.
  - apply sample_built.
  - apply sample_engine_new.
  - apply sample_kernel_wf.
  - vm_compute. reflexivity.
  - apply no_facts_typed. vm_compute. reflexivity.
  - apply no_facts_typed. vm_compute. reflexivity.
Defined.

(** ** The registry of atoms *)

(** The audit of the registry accepts exactly the maps and vectors that are
    inverse to each other and whose identifiers fit in 32 bits. *)
Theorem registry_audit_exact ids atoms :
  Engine.validate_mutable_state ids atoms = Ok tt ↔
  (∀ a i, ids !! a = Some i ↔ atoms !! N.to_nat i = Some a) ∧ N.of_nat (length atoms) ≤ 2 ^ 32.
Proof. apply validate_mutable_state_Ok. Qed.

(** ** Checkpoints *)

Section checkpoints.
Context {C : Type} `{OperationControl C} (layout : Engine.Layout).

(** A checkpoint is granted only within the limits: afterwards the number of
    checkpoints and the bytes they are estimated at are at most the configured
    ones, the byte counter is exact and fits in 64 bits, and the token names the
    engine and a sequence number that was not in use. *)
Theorem checkpoint_within_limits s cp s' :
  Engine.checkpoint layout s = (Ok cp, s') →
  N.of_nat (size (checkpoints s'.2)) ≤ max_checkpoints (checkpoint_limits s.2) ∧
  checkpoint_bytes s'.2 ≤ max_total_checkpoint_bytes (checkpoint_limits s.2) ∧
  checkpoint_bytes s'.2 = total_bytes (checkpoints s'.2) ∧ checkpoint_bytes s'.2 ≤ u64_max ∧
  cp_owner cp = checkpoint_owner s.2 ∧ checkpoints s.2 !! cp_sequence cp = None ∧
  ∃ bytes, checkpoints s'.2 !! cp_sequence cp = Some (mkStored (Engine.take_snapshot s.2) bytes).
Proof.
  intros [Ho Hf (bytes & E) _ _ [Hi Ha Hw Hc Hb] _]%checkpoint_Ok.
  assert (checkpoint_limits s'.2 = checkpoint_limits s.2) as El by (by rewrite E). rewrite El in *. rewrite Ha.
  split_and!; try done. exists bytes. rewrite E. cbn. by rewrite lookup_insert_eq.
Qed.

(** C37: whatever happened to the registry since, rolling back to a checkpoint
    restores the mutable part of the engine and the checkpoints that were there
    when it was taken, and the token cannot be used again. *)
Theorem rollback_restores s cp s' e :
  Engine.checkpoint layout s = (Ok cp, s') → same_checkpoints s'.2 e →
  ∃ e', Engine.rollback cp e = (Ok tt, e') ∧
    Engine.take_snapshot e' = Engine.take_snapshot s.2 ∧
    checkpoints e' = checkpoints s.2 ∧ checkpoint_bytes e' = checkpoint_bytes s.2 ∧ checkpoints_ok e' ∧
    (Engine.rollback cp e').1 = Err (NativeErr.wire "rule checkpoint is stale or already consumed").
Proof.
  intros Hc Hs. apply checkpoint_Ok in Hc as [Ho Hf (bytes & E) Hseq Hbefore Hafter Hreg].
  pose proof (same_checkpoints_ok _ _ Hs Hafter) as Hok. destruct Hs as (Ec & Eb & Eo & En & El).
  assert (checkpoints e = <[cp_sequence cp := mkStored (Engine.take_snapshot s.2) bytes]> (checkpoints s.2)) as Echk by (by rewrite Ec, E).
  destruct (rollback_spec cp e (mkStored (Engine.take_snapshot s.2) bytes)) as (e' & Hr & Hsnap & Hcp & Hby & _ & En' & Eo' & El');
    [done|by rewrite Eo, E, Ho|by rewrite Echk, lookup_insert_eq|done|]. exists e'.
  assert (checkpoints e' = checkpoints s.2) as Ecp.
  { rewrite Hcp, Echk, delete_insert_id by done. apply map_filter_id. intros q x Hq. cbn. rewrite Hseq.
    by apply (checkpoints_issued _ Hbefore q x). }
  assert (checkpoint_bytes e' = checkpoint_bytes s.2) as Ebytes.
  { rewrite Hby, Ecp, (checkpoints_accounted _ Hbefore). apply stored_bytes_total, (checkpoints_width _ Hbefore). }
  assert (checkpoints_ok e') as Hok'.
  { destruct Hbefore as [Hi Ha Hw Hcn Hb]. assert (checkpoint_limits e' = checkpoint_limits s.2) as El2 by (by rewrite El', El, E).
    split; rewrite ?Ecp, ?Ebytes, ?El2; try done. intros q x Hq. rewrite En', En, E. cbn. apply Hi in Hq. lia. }
  split_and!; [done|done|done|done|done|].
  assert (cp_owner cp = checkpoint_owner e') as Eown by (rewrite Eo', Eo, E; exact Ho).
  assert (Engine.validate_checkpoint cp e' = Err (NativeErr.wire "rule checkpoint is stale or already consumed")) as Hstale.
  { unfold Engine.validate_checkpoint. rewrite Eown, N.eqb_refl. cbn [negb reject_if]. rewrite bind_Ok_l.
    apply check_registry_Ok in Hok' as ->. by rewrite bind_Ok_l, Ecp, Hf. }
  unfold Engine.rollback, mbind, st_bind, reads. by rewrite Hstale.
Qed.
End checkpoints.

(** A layout and an engine with two atoms and one checkpoint allowed. *)
Definition sample_layout : Engine.Layout := Engine.mkLayout 64 48 8 32 40.
Definition registered : RuleEngine :=
  (Engine.atom_id (mkGroundAtom 0 [s0]) (sample_engine, sample_kernel)).2.1.

Lemma checkpoint_within_limits_witness :
  let s' := (Engine.checkpoint sample_layout (tt, registered)).2 in
  N.of_nat (size (checkpoints s'.2)) ≤ 8 ∧ checkpoint_bytes s'.2 ≤ 64 * 1024 * 1024 ∧
  checkpoint_bytes s'.2 = total_bytes (checkpoints s'.2) ∧ checkpoint_bytes s'.2 ≤ u64_max ∧
  1 = checkpoint_owner registered ∧ checkpoints registered !! 1 = None ∧
  ∃ bytes, checkpoints s'.2 !! 1 = Some (mkStored (Engine.take_snapshot registered) bytes).
Proof.
  apply (checkpoint_within_limits sample_layout (tt, registered) (mkRuleCheckpoint 1 1)). vm_compute. reflexivity.
Defined.

(** After the checkpoint another atom is registered. *)
Definition registered_more : RuleEngine :=
  (Engine.atom_id (mkGroundAtom 1 [t0]) ((Engine.checkpoint sample_layout (tt, registered)).2.2, sample_kernel)).2.1.

Lemma rollback_restores_witness :
  ∃ e', Engine.rollback (mkRuleCheckpoint 1 1) registered_more = (Ok tt, e') ∧
    Engine.take_snapshot e' = Engine.take_snapshot registered ∧
    checkpoints e' = checkpoints registered ∧ checkpoint_bytes e' = checkpoint_bytes registered ∧ checkpoints_ok e' ∧
    (Engine.rollback (mkRuleCheckpoint 1 1) e').1 = Err (NativeErr.wire "rule checkpoint is stale or already consumed").
Proof.
  apply (rollback_restores sample_layout (tt, registered) (mkRuleCheckpoint 1 1)
    (Engine.checkpoint sample_layout (tt, registered)).2 registered_more); [vm_compute; reflexivity|].
  vm_compute. repeat split.
Defined.
