(* ===== verification/Roles.v ===== *)
(** * Object-role automata (native/src/roles/mod.rs)

    Epsilon NFAs over role ids, run without determinisation: the active states
    are a bitset of 64-bit words, closed under epsilon transitions after every
    step.  [RoleControl] is the trait through which a run can be cancelled. *)

From S2P Require Import Prelude Order.

Inductive RoleErrorKind := RInvalid | RResource | RCancelled.

Record RoleError := mkRoleError {
  re_kind : RoleErrorKind;
  re_message : string;
  re_limit : option string;
  re_observed : option N;
  re_allowed : option N
}.

Definition invalid (message : string) : RoleError := mkRoleError RInvalid message None None None.
Definition resource (limit : string) (observed allowed : N) : RoleError :=
  mkRoleError RResource ("native role resource limit exceeded: " +:+ limit) (Some limit) (Some observed) (Some allowed).
Definition cancelled (message : string) : RoleError := mkRoleError RCancelled message None None None.

(** The n-th call of [poll] or [observe_memory] gets the n-th answer. *)
Class RoleControl := {
  answer_poll : nat → outcome RoleError unit;
  answer_memory : nat → N → outcome RoleError unit
}.

Definition NeverCancel : RoleControl := {| answer_poll := λ _, Ok tt; answer_memory := λ _ _, Ok tt |}.

Abbreviation R A := (st nat RoleError A).

Definition POLL_STRIDE : nat := Nat.pow 2 10.

Record RoleLimits := mkRoleLimits {
  max_roles : N;
  max_automata : N;
  max_states : N;
  max_transitions : N;
  max_word_length : N;
  max_role_memory : N
}.

Definition default_limits : RoleLimits :=
  mkRoleLimits 1000000 1000000 5000000 20000000 1000000 (512 * 1024 * 1024).

Record RoleTransition := mkTransition {
  source_state : N;
  target_state : N;
  role_id : option N
}.

#[global] Instance RoleTransition_eq_dec : EqDecision RoleTransition.
Proof. solve_decision. Defined.

Definition transition_key (t : RoleTransition) : N * N * option N := (source_state t, target_state t, role_id t).
#[global] Instance transition_key_inj : Inj (=) (=) transition_key.
Proof. by intros [] [] [= -> -> ->]. Qed.
#[global] Instance RoleTransition_ord : Ord RoleTransition := compare_by transition_key.
#[global] Instance RoleTransition_ord_laws : OrdLaws RoleTransition.
Proof. apply compare_by_laws. apply _. Qed.

Definition epsilon (source target : N) : RoleTransition := mkTransition source target None.
Definition labelled (source role target : N) : RoleTransition := mkTransition source target (Some role).

Record RoleAutomatonWire := mkWire {
  w_component_id : N;
  w_state_count : N;
  w_initial_state : N;
  w_final_states : list N;
  w_transitions : list RoleTransition
}.

Record RoleAutomaton := mkAutomaton {
  component_id : N;
  state_count : N;
  initial_state : N;
  final_states : list N;
  transitions : list RoleTransition;
  by_source : list (list (option N * N))
}.

(** ** Sets of states *)

Record StateSet := mkStateSet { words : list N; ss_count : N }.

#[global] Instance StateSet_eta : Eta StateSet := λ s, mkStateSet (words s) (ss_count s).

Record RoleCursor := mkCursor { cur_component_id : N; cur_active : StateSet }.

Module Bits.

Definition new (count : N) : outcome RoleError StateSet :=
  padded ← ok_or (checked_add u32_max count 63) (invalid "role state bitset length overflow");
  Ok (mkStateSet (replicate (N.to_nat (padded / 64)) 0) count).

Definition insert (s : StateSet) (x : N) : outcome RoleError (bool * StateSet) :=
  _ ← reject_if (ss_count s <=? x)%N (invalid "role state is outside its state set");
  let i := N.to_nat (x / 64) in
  word ← index_or_crash (words s) i;
  let mask := N.shiftl 1 (x mod 64) in
  let present := negb (N.land word mask =? 0)%N in
  Ok (negb present, s <| words ::= <[i := N.lor word mask]> |>).

Definition contains (s : StateSet) (x : N) : outcome RoleError bool :=
  if (ss_count s <=? x)%N then Ok false
  else
    word ← index_or_crash (words s) (N.to_nat (x / 64));
    Ok (negb (N.land word (N.shiftl 1 (x mod 64)) =? 0)%N).

Definition is_empty (s : StateSet) : bool := forallb (λ word, (word =? 0)%N) (words s).

Fixpoint trailing_zeros_pos (p : positive) : N :=
  match p with xO p => 1 + trailing_zeros_pos p | _ => 0 end.

Definition trailing_zeros (n : N) : N := match n with 0 => 64 | Npos p => trailing_zeros_pos p end.

(** The [from_fn] iterator over one word: at most 64 bits are set. *)
Fixpoint word_bits (fuel : nat) (word_index : nat) (remaining : N) : list N :=
  match fuel with
  | O => []
  | S fuel =>
      if (remaining =? 0)%N then []
      else
        let bit := trailing_zeros remaining in
        match u32_try_from word_index ≫= λ index,
          checked_mul u32_max index 64 ≫= λ base, checked_add u32_max base bit with
        | None => []
        | Some x => x :: word_bits fuel word_index (N.land remaining (remaining - 1))
        end
  end.

Definition iter (s : StateSet) : list N :=
  mjoin (imap (λ i word, word_bits 64 i word) (words s)).

End Bits.

(** ** Automata *)

Section automaton.
Context `{RoleControl}.

Definition poll : R unit := λ n, (answer_poll n, S n).
Definition observe_memory (bytes : N) : R unit := λ n, (answer_memory n bytes, S n).

Definition poll_every (i : nat) : R unit :=
  if (i mod POLL_STRIDE =? 0)%nat then poll else mret tt.

Definition estimate_automaton_bytes (states : N) (transition_count : nat) : outcome RoleError N :=
  s ← ok_or (checked_mul u64_max states 32) (invalid "role state allocation estimate overflow");
  t ← ok_or (checked_mul u64_max (N.of_nat transition_count) 32)
    (invalid "role transition allocation estimate overflow");
  ok_or (checked_add u64_max s t) (invalid "role allocation estimate overflow").

(** One turn of a [for] loop over the outgoing transitions of a state:
    [follow] selects the labels, and fresh targets join the queue. *)
Definition visit_edge (follow : option N → bool) (acc : nat * StateSet * list N) (edge : option N * N) :
    R (nat * StateSet * list N) :=
  let '(visited, states, pending) := acc in
  let visited := S visited in
  _ ← poll_every visited;
  if follow edge.1 then
    lift (Bits.insert states edge.2) ≫= λ r : bool * StateSet,
    mret (visited, r.2, if r.1 then pending ++ [edge.2] else pending)
  else mret (visited, states, pending).

Definition is_epsilon (label : option N) : bool := bool_decide (label = None).

(** The [while let Some(source) = pending.pop_front()] loop of [epsilon_close]. *)
Fixpoint close_loop (fuel : nat) (a : RoleAutomaton) (visited : nat) (states : StateSet) (pending : list N) :
    R StateSet :=
  match fuel with
  | O => lift Crash
  | S fuel =>
      match pending with
      | [] => mret states
      | source :: pending =>
          edges ← lift (index_or_crash (by_source a) (N.to_nat source));
          acc ← foldST (visit_edge is_epsilon) edges (visited, states, pending);
          let '(visited, states, pending) := acc in
          close_loop fuel a visited states pending
      end
  end.

(** A state enters the queue when it enters the set, so the set's capacity
    bounds the number of turns. *)
Definition epsilon_close (a : RoleAutomaton) (states : StateSet) : R StateSet :=
  close_loop (S (N.to_nat (state_count a))) a 0 states (Bits.iter states).

Fixpoint reach_loop (fuel : nat) (a : RoleAutomaton) (visited : nat) (reached : StateSet) (pending : list N) :
    R bool :=
  match fuel with
  | O => lift Crash
  | S fuel =>
      match pending with
      | [] => mret false
      | source :: pending =>
          match binary_search (final_states a) source with
          | inl _ => mret true
          | inr _ =>
              edges ← lift (index_or_crash (by_source a) (N.to_nat source));
              acc ← foldST (visit_edge (λ _, true)) edges (visited, reached, pending);
              let '(visited, reached, pending) := acc in
              reach_loop fuel a visited reached pending
          end
      end
  end.

Definition has_accepting_path (a : RoleAutomaton) : R bool :=
  reached ← lift (Bits.new (state_count a));
  lift (Bits.insert reached (initial_state a)) ≫= λ r : bool * StateSet,
  reach_loop (S (N.to_nat (state_count a))) a 0 r.2 [initial_state a].

(** The loop of [from_wire] over the sorted transitions. *)
Definition file_transition (states roles : N) (acc : list (list (option N * N))) (entry : nat * RoleTransition) :
    R (list (list (option N * N))) :=
  let '(offset, t) := entry in
  _ ← poll_every offset;
  _ ← lift (reject_if ((states <=? source_state t)%N || (states <=? target_state t)%N)
    (invalid "role automaton transition references an absent state"));
  _ ← lift (reject_if (match role_id t with Some r => (roles <=? r)%N | None => false end)
    (invalid "role automaton transition references an absent role"));
  row ← lift (index_or_crash acc (N.to_nat (source_state t)));
  mret (<[N.to_nat (source_state t) := row ++ [(role_id t, target_state t)]]> acc).

Definition from_wire (wire : RoleAutomatonWire) (role_count : N) (limits : RoleLimits) : R RoleAutomaton :=
  _ ← poll;
  _ ← lift (reject_if (w_state_count wire =? 0)%N (invalid "role automata require at least one state"));
  _ ← lift (reject_if (max_states limits <? w_state_count wire)%N
    (resource "max_states" (w_state_count wire) (max_states limits)));
  _ ← lift (reject_if (w_state_count wire <=? w_initial_state wire)%N
    (invalid "role automaton initial state is outside its state range"));
  _ ← lift (reject_if (bool_decide (w_final_states wire = []))
    (invalid "role automata require at least one final state"));
  _ ← lift (reject_if (max_transitions limits <? N.of_nat (length (w_transitions wire)))%N
    (resource "max_transitions" (N.of_nat (length (w_transitions wire))) (max_transitions limits)));
  let finals := dedup (sort (w_final_states wire)) in
  _ ← lift (reject_if (existsb (λ x, (w_state_count wire <=? x)%N) finals)
    (invalid "role automaton final state is outside its state range"));
  let ts := dedup (sort (w_transitions wire)) in
  table ← foldST (file_transition (w_state_count wire) role_count) (imap pair ts)
    (replicate (N.to_nat (w_state_count wire)) []);
  memory ← lift (estimate_automaton_bytes (w_state_count wire) (length ts));
  _ ← lift (reject_if (max_role_memory limits <? memory)%N
    (resource "max_memory_bytes" memory (max_role_memory limits)));
  _ ← observe_memory memory;
  let a := mkAutomaton (w_component_id wire) (w_state_count wire) (w_initial_state wire) finals ts table in
  has_accepting_path a ≫= λ live : bool,
  if live then mret a else lift (Err (invalid "role automaton has no accepting path")).

Definition cursor (a : RoleAutomaton) : R RoleCursor :=
  active ← lift (Bits.new (state_count a));
  lift (Bits.insert active (initial_state a)) ≫= λ r : bool * StateSet,
  closed ← epsilon_close a r.2;
  mret (mkCursor (component_id a) closed).

(** The double loop of [advance] over the active states and their edges. *)
Definition follow_source (a : RoleAutomaton) (role : N) (acc : nat * StateSet * list N) (source : N) :
    R (nat * StateSet * list N) :=
  edges ← lift (index_or_crash (by_source a) (N.to_nat source));
  foldST (visit_edge (λ label, bool_decide (label = Some role))) edges acc.

Definition advance (a : RoleAutomaton) (c : RoleCursor) (role role_count : N) : R (bool * RoleCursor) :=
  _ ← lift (reject_if (negb (cur_component_id c =? component_id a)%N
                       || negb (ss_count (cur_active c) =? state_count a)%N)
    (invalid "role cursor belongs to a different automaton"));
  _ ← lift (reject_if (role_count <=? role)%N (invalid "role word references an absent role"));
  _ ← poll;
  following ← lift (Bits.new (state_count a));
  acc ← foldST (follow_source a role) (Bits.iter (cur_active c)) (0%nat, following, []);
  let following := acc.1.2 in
  if Bits.is_empty following then mret (false, mkCursor (cur_component_id c) following)
  else
    closed ← epsilon_close a following;
    mret (true, mkCursor (cur_component_id c) closed).

Fixpoint any_contained (s : StateSet) (finals : list N) : outcome RoleError bool :=
  match finals with
  | [] => Ok false
  | x :: finals => Bits.contains s x ≫= λ b : bool, if b then Ok true else any_contained s finals
  end.

Definition is_accepting (a : RoleAutomaton) (c : RoleCursor) : outcome RoleError bool :=
  any_contained (cur_active c) (final_states a).

Fixpoint run_word (a : RoleAutomaton) (c : RoleCursor) (word : list N) (role_count : N) : R bool :=
  match word with
  | [] => lift (is_accepting a c)
  | role :: word =>
      advance a c role role_count ≫= λ r : bool * RoleCursor,
      if r.1 then run_word a r.2 word role_count else mret false
  end.

Definition accepts (a : RoleAutomaton) (word : list N) (role_count : N) (limits : RoleLimits) : R bool :=
  _ ← lift (reject_if (max_word_length limits <? N.of_nat (length word))%N
    (resource "max_word_length" (N.of_nat (length word)) (max_word_length limits)));
  c ← cursor a;
  run_word a c word role_count.
End automaton.

(** ** The runtime *)

Inductive BuiltinRoleSemantics := Normal | Universal | EmptyRole.

Record RoleRuntime := mkRuntime {
  role_count : N;
  inverse_role_ids : list N;
  top_role_id : N;
  bottom_role_id : N;
  automata : gmap N RoleAutomaton;
  limits : RoleLimits
}.

Section runtime.
Context `{RoleControl}.

(** The involution check of [RoleRuntime::new]. *)
Definition check_inverse (count : N) (inverses : list N) (entry : nat * N) : outcome RoleError unit :=
  let '(role, inverse) := entry in
  reject_if ((count <=? inverse)%N || negb (bool_decide (N.to_nat <$> inverses !! N.to_nat inverse = Some role)))
    (invalid "inverse role map must be an involution").

(** The totals of the loop over the automata. *)
Record Totals := mkTotals { t_states : N; t_transitions : N; t_memory : N }.

Definition compile_automaton (count : N) (lim : RoleLimits) (acc : gmap N RoleAutomaton * Totals)
    (entry : nat * RoleAutomatonWire) : R (gmap N RoleAutomaton * Totals) :=
  let '(offset, wire) := entry in
  let '(compiled, totals) := acc in
  _ ← poll_every offset;
  a ← from_wire wire count lim;
  states ← lift (ok_or (checked_add u64_max (t_states totals) (state_count a))
    (invalid "aggregate role state count overflow"));
  ts ← lift (ok_or (checked_add u64_max (t_transitions totals) (N.of_nat (length (transitions a))))
    (invalid "aggregate role transition count overflow"));
  bytes ← lift (estimate_automaton_bytes (state_count a) (length (transitions a)));
  memory ← lift (ok_or (checked_add u64_max (t_memory totals) bytes)
    (invalid "aggregate role memory estimate overflow"));
  _ ← lift (reject_if (max_states lim <? states)%N (resource "max_states" states (max_states lim)));
  _ ← lift (reject_if (max_transitions lim <? ts)%N (resource "max_transitions" ts (max_transitions lim)));
  _ ← lift (reject_if (max_role_memory lim <? memory)%N (resource "max_memory_bytes" memory (max_role_memory lim)));
  _ ← lift (reject_if (bool_decide (is_Some (compiled !! component_id a)))
    (invalid "role automata must have unique component IDs"));
  mret (<[component_id a := a]> compiled, mkTotals states ts memory).

Definition new_runtime (count : N) (inverses : list N) (top bottom : N) (wires : list RoleAutomatonWire)
    (lim : RoleLimits) : R RoleRuntime :=
  _ ← poll;
  _ ← lift (reject_if (count =? 0)%N (invalid "role runtimes require at least one role"));
  _ ← lift (reject_if (max_roles lim <? count)%N (resource "max_roles" count (max_roles lim)));
  _ ← lift (reject_if (negb (N.of_nat (length inverses) =? count)%N) (invalid "inverse role map is incomplete"));
  _ ← lift (reject_if ((count <=? top)%N || (count <=? bottom)%N) (invalid "built-in role ID is dangling"));
  _ ← lift (iterM (check_inverse count inverses) (imap pair inverses));
  inverse_top ← lift (index_or_crash inverses (N.to_nat top));
  inverse_bottom ← lift (index_or_crash inverses (N.to_nat bottom));
  _ ← lift (reject_if (negb (inverse_top =? top)%N || negb (inverse_bottom =? bottom)%N)
    (invalid "top and bottom object roles must be self-inverse"));
  _ ← lift (reject_if (max_automata lim <? N.of_nat (length wires))%N
    (resource "max_automata" (N.of_nat (length wires)) (max_automata lim)));
  acc ← foldST (compile_automaton count lim) (imap pair wires) (∅, mkTotals 0 0 0);
  _ ← observe_memory (t_memory acc.2);
  mret (mkRuntime count inverses top bottom acc.1 lim).

Definition builtin_semantics (r : RoleRuntime) (role : N) : option BuiltinRoleSemantics :=
  if (role_count r <=? role)%N then None
  else Some (if (role =? top_role_id r)%N then Universal
             else if (role =? bottom_role_id r)%N then EmptyRole else Normal).

Definition inverse_word (r : RoleRuntime) (word : list N) : outcome RoleError (list N) :=
  _ ← reject_if (max_word_length (limits r) <? N.of_nat (length word))%N
    (resource "max_word_length" (N.of_nat (length word)) (max_word_length (limits r)));
  collectM (λ role, ok_or (inverse_role_ids r !! N.to_nat role) (invalid "role word references an absent role"))
    (reverse word).

Definition runtime_accepts (r : RoleRuntime) (component : N) (word : list N) : R bool :=
  if bool_decide (bottom_role_id r ∈ word) then mret true
  else
    a ← lift (ok_or (automata r !! component) (invalid "requested role component has no automaton"));
    accepts a word (role_count r) (limits r).

(** One turn of the loop of [accepted_components]. *)
Definition accept_component (r : RoleRuntime) (word : list N) (result : list N)
    (entry : nat * (N * RoleAutomaton)) : R (list N) :=
  let '(offset, (component, a)) := entry in
  _ ← poll_every offset;
  (if bool_decide (bottom_role_id r ∈ word) then mret true else accepts a word (role_count r) (limits r))
    ≫= λ accepted : bool,
  mret (if accepted then result ++ [component] else result).

Definition accepted_components (r : RoleRuntime) (word : list N) : R (list N) :=
  foldST (accept_component r word) (imap pair (btree_entries (automata r))) [].

Definition component_ids (r : RoleRuntime) : gset N := dom (automata r).
End runtime.
