(* ===== verification/RoleTheorems.v ===== *)
(** * Correctness of the role automata

    The bitset refines a finite set of states, the closure loops terminate, and
    a run accepts a word exactly when the automaton has a path for it. *)

From S2P Require Import Prelude Order Model Roles.

(** ** Bits *)

Definition mem (s : StateSet) (x : N) : bool :=
  match words s !! N.to_nat (x / 64) with Some w => N.testbit w (x mod 64) | None => false end.

Record set_ok (s : StateSet) : Prop := {
  set_length : length (words s) = N.to_nat ((ss_count s + 63) / 64);
  set_count : ss_count s + 63 ≤ u32_max;
  set_word i w : words s !! i = Some w → w < 2 ^ 64;
  set_bound x : mem s x = true → x < ss_count s
}.

Lemma land_bit_test w i : negb (N.land w (N.shiftl 1 i) =? 0)%N = N.testbit w i.
Proof.
  apply eq_true_iff_eq. rewrite negb_true_iff, N.eqb_neq. split.
  - intros Hne. destruct (N.testbit w i) eqn:E; [done|]. destruct Hne. apply N.bits_inj. intros j.
    rewrite N.land_spec, N.bits_0, N.shiftl_1_l, N.pow2_bits_eqb. destruct (N.eqb_spec i j) as [->|]; [by rewrite E|].
    by rewrite andb_false_r.
  - intros Hi E. apply (f_equal (λ n, N.testbit n i)) in E.
    by rewrite N.land_spec, N.bits_0, N.shiftl_1_l, N.pow2_bits_true, Hi in E.
Qed.

Lemma lor_bit_test w i j : N.testbit (N.lor w (N.shiftl 1 i)) j = N.testbit w j || (i =? j)%N.
Proof. by rewrite N.lor_spec, N.shiftl_1_l, N.pow2_bits_eqb. Qed.

Lemma testbit_lt w i : w < 2 ^ 64 → 64 ≤ i → N.testbit w i = false.
Proof.
  intros Hw Hi. destruct (decide (w = 0)) as [->|Hne]; [apply N.bits_0|]. apply N.bits_above_log2.
  apply N.log2_lt_pow2 in Hw; [|lia]. lia.
Qed.

Lemma lt_of_testbit w : (∀ i, 64 ≤ i → N.testbit w i = false) → w < 2 ^ 64.
Proof.
  intros Hb. destruct (decide (w = 0)) as [->|Hne]; [done|]. apply N.log2_lt_pow2; [lia|].
  destruct (N.lt_ge_cases (N.log2 w) 64) as [|Hge]; [done|]. pose proof (N.bit_log2 w Hne) as Hl.
  by rewrite Hb in Hl.
Qed.

Lemma new_spec count s : Bits.new count = Ok s → set_ok s ∧ ss_count s = count ∧ ∀ x, mem s x = false.
Proof.
  unfold Bits.new. intros H. inv_ok.
  assert (∀ x, mem (mkStateSet (replicate (N.to_nat ((count + 63) / 64)) 0) count) x = false) as Hm.
  { intros x. unfold mem; cbn. destruct (replicate _ _ !! _) eqn:E; [|done].
    apply lookup_replicate in E as [-> _]. apply N.bits_0. }
  split_and!; [|done|done]. split; cbn.
  - by rewrite length_replicate.
  - done.
  - intros i w [-> _]%lookup_replicate. done.
  - intros x. by rewrite Hm.
Qed.

Section set.
Context (s : StateSet).
Hypothesis Hs : set_ok s.

Lemma word_exists x : x < ss_count s → ∃ w, words s !! N.to_nat (x / 64) = Some w ∧ w < 2 ^ 64.
Proof.
  intros Hx. destruct (lookup_lt_is_Some_2 (words s) (N.to_nat (x / 64))) as [w Hw].
  - rewrite (set_length _ Hs). pose proof (N.Div0.div_le_mono x (ss_count s - 1) 64 ltac:(lia)).
    assert ((ss_count s - 1) / 64 + 1 ≤ (ss_count s + 63) / 64); [|lia].
    replace (ss_count s + 63) with (ss_count s - 1 + 1 * 64) by lia. rewrite N.div_add by done. lia.
  - exists w. split; [done|]. by eapply set_word.
Qed.

Lemma contains_spec x : Bits.contains s x = Ok (mem s x).
Proof.
  unfold Bits.contains. destruct (N.leb_spec (ss_count s) x) as [Hx|Hx].
  - f_equal. symmetry. apply not_true_iff_false. intros Hm%(set_bound _ Hs). lia.
  - destruct (word_exists x Hx) as (w & Hw & _). unfold index_or_crash, mem. rewrite Hw. simpl.
    by rewrite land_bit_test.
Qed.

Lemma div_mod_inj x y : x / 64 = y / 64 → x mod 64 = y mod 64 → x = y.
Proof. intros Hd Hm. rewrite (N.div_mod x 64), (N.div_mod y 64) by done. congruence. Qed.

(** [insert] adds one state and says whether it was new. *)
Lemma insert_spec x :
  x < ss_count s →
  ∃ s', Bits.insert s x = Ok (negb (mem s x), s') ∧ set_ok s' ∧ ss_count s' = ss_count s ∧
    ∀ y, mem s' y = (x =? y)%N || mem s y.
Proof.
  intros Hx. destruct (word_exists x Hx) as (w & Hw & Hlt).
  set (s' := s <| words ::= <[N.to_nat (x / 64) := N.lor w (N.shiftl 1 (x mod 64))]> |>).
  assert (∀ y, mem s' y = (x =? y)%N || mem s y) as Hmem.
  { intros y. unfold mem, s'; cbn. destruct (decide (x / 64 = y / 64)) as [Hd|Hd].
    - rewrite <-Hd, list_lookup_insert_eq, Hw by (by eapply lookup_lt_Some).
      rewrite lor_bit_test. destruct (N.eqb_spec x y) as [->|Hne]; [by rewrite N.eqb_refl, orb_true_r|].
      destruct (N.eqb_spec (x mod 64) (y mod 64)) as [Hm|]; [by destruct Hne; apply div_mod_inj|].
      by rewrite orb_false_r.
    - rewrite list_lookup_insert_ne by lia. destruct (N.eqb_spec x y) as [->|]; [done|done]. }
  exists s'. split_and!; [| |done|done].
  - unfold Bits.insert. destruct (N.leb_spec (ss_count s) x); [lia|]. simpl.
    unfold index_or_crash, mem. rewrite Hw. simpl. by rewrite land_bit_test.
  - split; cbn.
    + rewrite length_insert. apply (set_length _ Hs).
    + apply (set_count _ Hs).
    + intros i v [(_ & <- & _)|[_ Hv]]%list_lookup_insert_Some; [|by eapply set_word].
      apply lt_of_testbit. intros j Hj. rewrite lor_bit_test, testbit_lt by done. simpl.
      apply N.eqb_neq. pose proof (N.mod_lt x 64). lia.
    + intros y. rewrite Hmem. intros [->%N.eqb_eq|Hy]%orb_true_iff; [done|]. by apply (set_bound _ Hs).
Qed.

Lemma is_empty_spec : Bits.is_empty s = true ↔ ∀ x, mem s x = false.
Proof.
  unfold Bits.is_empty. rewrite forallb_forall. split.
  - intros Hall x. unfold mem. destruct (words s !! _) as [w|] eqn:E; [|done].
    assert (w = 0) as ->; [|apply N.bits_0]. apply N.eqb_eq, Hall, list_elem_of_In. by eapply list_elem_of_lookup_2.
  - intros Hall w [i Hi]%list_elem_of_In%list_elem_of_lookup. apply N.eqb_eq, N.bits_inj. intros j.
    rewrite N.bits_0. destruct (N.lt_ge_cases j 64) as [Hj|Hj]; [|apply testbit_lt; [by eapply set_word|done]].
    specialize (Hall (N.of_nat i * 64 + j)). unfold mem in Hall.
    rewrite N.div_add_l, N.div_small, N.add_0_r, Nat2N.id, Hi in Hall by done.
    by rewrite N.add_comm, N.Div0.mod_add, N.mod_small in Hall.
Qed.
End set.

(** ** Iterating over the set bits *)

Lemma trailing_zeros_spec p :
  N.testbit (Npos p) (Bits.trailing_zeros_pos p) = true ∧
  (∀ j, j < Bits.trailing_zeros_pos p → N.testbit (Npos p) j = false) ∧
  ∀ j, N.testbit (N.land (Npos p) (Npos p - 1)) j = N.testbit (Npos p) j && negb (Bits.trailing_zeros_pos p =? j)%N.
Proof.
  induction p as [p _|p (IH1 & IH2 & IH3)|]; cbn [Bits.trailing_zeros_pos].
  - split_and!; [done|lia|]. intros j. replace (Npos (xI p) - 1) with (Npos (xO p)) by lia.
    destruct (N.eq_0_gt_0_cases j) as [->|Hj]; [by rewrite N.land_spec|].
    replace j with (N.succ (N.pred j)) by lia.
    change (Npos (xI p)) with (2 * Npos p + 1). change (Npos (xO p)) with (2 * Npos p).
    rewrite N.land_spec, N.testbit_odd_succ, N.testbit_even_succ by lia.
    destruct (N.eqb_spec 0 (N.succ (N.pred j))); [lia|]. by rewrite andb_diag, andb_true_r.
  - rewrite N.add_1_l. change (Npos (xO p)) with (2 * Npos p). split_and!.
    + by rewrite N.testbit_even_succ by lia.
    + intros j Hj. destruct (N.eq_0_gt_0_cases j) as [->|Hj0]; [apply N.testbit_even_0|].
      replace j with (N.succ (N.pred j)) by lia. rewrite N.testbit_even_succ by lia. apply IH2. lia.
    + intros j. replace (2 * Npos p - 1) with (2 * (Npos p - 1) + 1) by lia. rewrite N.land_spec.
      destruct (N.eq_0_gt_0_cases j) as [->|Hj0]; [by rewrite N.testbit_even_0|].
      replace j with (N.succ (N.pred j)) by lia. rewrite N.testbit_even_succ, N.testbit_odd_succ by lia.
      rewrite <-N.land_spec, IH3. f_equal. f_equal.
      destruct (N.eqb_spec (Bits.trailing_zeros_pos p) (N.pred j)), (N.eqb_spec (N.succ (Bits.trailing_zeros_pos p)) (N.succ (N.pred j))); lia.
  - split_and!; [done|lia|]. intros j. by destruct j as [|[]].
Qed.

Lemma word_bits_spec fuel index lo w :
  w < 2 ^ 64 → (∀ j, j < lo → N.testbit w j = false) → (64 - N.to_nat lo ≤ fuel)%nat →
  N.of_nat index * 64 + 63 ≤ u32_max →
  (∀ x, x ∈ Bits.word_bits fuel index w ↔ ∃ j, N.testbit w j = true ∧ x = N.of_nat index * 64 + j) ∧
  StronglySorted ord_lt (Bits.word_bits fuel index w).
Proof.
  revert lo w. induction fuel as [|fuel IH]; intros lo w Hw Hlo Hfuel Hidx.
  { assert (w = 0) as ->; [|split; [|constructor]; intros x; split; [set_solver|]; intros (j & Hj & _); by rewrite N.bits_0 in Hj].
    apply N.bits_inj. intros j. rewrite N.bits_0. destruct (N.lt_ge_cases j 64); [apply Hlo; lia|by apply testbit_lt]. }
  cbn [Bits.word_bits]. destruct w as [|p]; cbn [N.eqb].
  { split; [|constructor]. intros x. split; [set_solver|]. intros (j & Hj & _). by rewrite N.bits_0 in Hj. }
  destruct (trailing_zeros_spec p) as (Ht & Hbelow & Hclear). cbn [Bits.trailing_zeros].
  set (t := Bits.trailing_zeros_pos p) in *.
  assert (t < 64) as Ht64.
  { destruct (N.lt_ge_cases t 64) as [|Hge]; [done|]. by rewrite (testbit_lt _ _ Hw Hge) in Ht. }
  assert (lo ≤ t) as Hlot.
  { destruct (N.lt_ge_cases t lo) as [Hlt|]; [|done]. by rewrite Hlo in Ht. }
  assert (u32_try_from index = Some (N.of_nat index)) as -> by (apply u32_try_from_Some; lia).
  assert (checked_mul u32_max (N.of_nat index) 64 = Some (N.of_nat index * 64)) as Hmul.
  { unfold checked_mul. destruct (N.leb_spec (N.of_nat index * 64) u32_max); [done|lia]. }
  assert (checked_add u32_max (N.of_nat index * 64) t = Some (N.of_nat index * 64 + t)) as Hadd.
  { apply checked_add_Some. split; [done|lia]. }
  cbn [mbind option_bind]. rewrite Hmul. cbn [mbind option_bind]. rewrite Hadd.
  destruct (IH (t + 1) (N.land (Npos p) (Npos p - 1))) as [Hel Hsort].
  { apply lt_of_testbit. intros j Hj. by rewrite Hclear, testbit_lt. }
  { intros j Hj. rewrite Hclear. destruct (N.eqb_spec t j) as [->|]; [apply andb_false_r|].
    rewrite Hbelow; [done|lia]. }
  { lia. }
  { done. }
  split.
  - intros x. rewrite elem_of_cons, Hel. split.
    + intros [->|(j & Hj & ->)]; [by exists t|]. exists j. split; [|done]. rewrite Hclear in Hj.
      by apply andb_true_iff in Hj as [? _].
    + intros (j & Hj & ->). destruct (N.eqb_spec t j) as [->|Hne]; [by left|right]. exists j. split; [|done].
      rewrite Hclear, Hj. by apply N.eqb_neq in Hne as ->.
  - constructor; [done|]. rewrite Forall_forall. intros x (j & Hj & ->)%Hel. rewrite ord_lt_N.
    rewrite Hclear in Hj. apply andb_true_iff in Hj as [Hj Hne]. apply negb_true_iff, N.eqb_neq in Hne.
    destruct (N.lt_ge_cases j t) as [Hlt|]; [by rewrite Hbelow in Hj|]. lia.
Qed.

Lemma iter_words_spec fuel ws start :
  (64 ≤ fuel)%nat →
  (∀ i w, ws !! i = Some w → w < 2 ^ 64) → N.of_nat (start + length ws) * 64 ≤ u32_max + 1 →
  (∀ x, x ∈ mjoin (imap (λ i w, Bits.word_bits fuel (start + i) w) ws) ↔
    ∃ i w j, ws !! i = Some w ∧ N.testbit w j = true ∧ x = N.of_nat (start + i) * 64 + j) ∧
  StronglySorted ord_lt (mjoin (imap (λ i w, Bits.word_bits fuel (start + i) w) ws)).
Proof.
  intros Hfuel. revert start. induction ws as [|w ws IH]; intros start Hws Hlen; csimpl.
  { split; [|constructor]. intros x. split; [set_solver|]. by intros ([] & ? & ? & ? & _). }
  destruct (IH (S start)) as [Hel Hsort].
  { intros i v Hi. by apply (Hws (S i)). }
  { cbn in Hlen. lia. }
  assert (w < 2 ^ 64) as Hw by (by apply (Hws 0%nat)).
  destruct (word_bits_spec fuel (start + 0) 0 w) as [Hel0 Hsort0]; [done|lia|lia|cbn in Hlen; lia|].
  assert (imap ((λ i w0, Bits.word_bits fuel (start + i) w0) ∘ S) ws = imap (λ i w0, Bits.word_bits fuel (S start + i) w0) ws) as Eq.
  { apply imap_ext. intros i v _. cbn. f_equal. lia. }
  rewrite Eq. split.
  - intros x. rewrite elem_of_app, Hel0, Hel. split.
    + intros [(j & Hj & ->)|(i & v & j & Hi & Hj & ->)]; [by exists 0%nat, w, j|].
      exists (S i), v, j. split_and!; [done|done|]. f_equal. f_equal. lia.
    + intros ([|i] & v & j & Hi & Hj & ->); [left|right].
      * injection Hi as <-. eauto.
      * exists i, v, j. split_and!; [done|done|]. f_equal. f_equal. lia.
  - assert (∀ l k : list N, StronglySorted ord_lt l → StronglySorted ord_lt k →
      (∀ x y, x ∈ l → y ∈ k → ord_lt x y) → StronglySorted ord_lt (l ++ k)) as Happ.
    { induction 1 as [|z l Hl IHl Hz]; intros Hk Hlk; [done|]. cbn. constructor.
      - apply IHl; [done|]. intros; apply Hlk; [by right|done].
      - rewrite Forall_forall in *. intros y [Hy|Hy]%elem_of_app; [by apply Hz|]. apply Hlk; [by left|done]. }
    apply Happ; [done|done|]. intros x y (j & Hj & ->)%Hel0 (i & v & j' & _ & _ & ->)%Hel. rewrite ord_lt_N.
    destruct (N.lt_ge_cases j 64); [lia|]. rewrite testbit_lt in Hj; done.
Qed.

(** [iter] lists the members in ascending order. *)
Lemma iter_spec s :
  set_ok s → (∀ x, x ∈ Bits.iter s ↔ mem s x = true) ∧ StronglySorted ord_lt (Bits.iter s).
Proof.
  intros Hs. destruct (iter_words_spec 64 (words s) 0) as [Hel Hsort].
  { done. }
  { intros i w. by apply (set_word _ Hs). }
  { rewrite (set_length _ Hs). pose proof (set_count _ Hs). pose proof (N.Div0.mul_div_le (ss_count s + 63) 64). cbn. lia. }
  split; [|done]. intros x. unfold Bits.iter. etrans; [apply Hel|]. unfold mem. split.
  - intros (i & w & j & Hi & Hj & ->). cbn [Nat.add].
    assert (j < 64) as Hj64.
    { destruct (N.lt_ge_cases j 64); [done|]. rewrite testbit_lt in Hj; [done|by eapply set_word|done]. }
    rewrite N.div_add_l, N.div_small, N.add_0_r, Nat2N.id, Hi by done.
    by rewrite N.add_comm, N.Div0.mod_add, N.mod_small.
  - destruct (words s !! N.to_nat (x / 64)) as [w|] eqn:E; [|done]. intros Hx.
    exists (N.to_nat (x / 64)), w, (x mod 64). split_and!; [done|done|]. cbn [Nat.add].
    rewrite N2Nat.id, (N.div_mod x 64) at 1 by done. lia.
Qed.

(** ** Runs under a control

    [yields m Q]: from any point of the control's history, [m] returns a value
    that satisfies [Q], or fails with an error that the control itself
    answered.  It never panics. *)

Class ControlLaws `{RoleControl} : Prop := {
  poll_returns n : answer_poll n ≠ Crash;
  memory_returns n b : answer_memory n b ≠ Crash
}.

#[global] Instance NeverCancel_laws : ControlLaws (H:=NeverCancel).
Proof. by split. Qed.

Section yields.
Context `{ControlLaws}.

Definition refused (e : RoleError) : Prop := ∃ n, answer_poll n = Err e ∨ ∃ b, answer_memory n b = Err e.

Definition yields {A} (m : R A) (Q : A → Prop) : Prop :=
  ∀ n, match m n with (Ok a, _) => Q a | (Err e, _) => refused e | (Crash, _) => False end.

Lemma role_yields_ret {A} (a : A) (Q : A → Prop) : Q a → yields (mret a) Q.
Proof. by intros Ha n. Qed.

Lemma role_yields_bind {A B} (m : R A) (f : A → R B) (P : A → Prop) (Q : B → Prop) :
  yields m P → (∀ a, P a → yields (f a) Q) → yields (m ≫= f) Q.
Proof.
  intros Hm Hf n. specialize (Hm n). unfold mbind, st_bind.
  destruct (m n) as [[a|e|] n']; [by apply Hf|done|done].
Qed.

Lemma role_yields_lift {A} (r : outcome RoleError A) (a : A) (Q : A → Prop) : r = Ok a → Q a → yields (lift r) Q.
Proof. intros -> Ha n. done. Qed.

Lemma yields_bind_lift {A B} (r : outcome RoleError A) (a : A) (f : A → R B) (Q : B → Prop) :
  r = Ok a → yields (f a) Q → yields (lift r ≫= f) Q.
Proof. intros -> Hf n. apply Hf. Qed.

Lemma yields_weaken {A} (m : R A) (P Q : A → Prop) : yields m P → (∀ a, P a → Q a) → yields m Q.
Proof. intros Hm HPQ n. specialize (Hm n). destruct (m n) as [[a|e|] n']; auto. Qed.

Lemma yields_poll : yields poll (λ _, True).
Proof. intros n. unfold poll. pose proof (poll_returns n). destruct (answer_poll n) eqn:E; [done|exists n; auto|done]. Qed.

Lemma yields_memory b : yields (observe_memory b) (λ _, True).
Proof. intros n. unfold observe_memory. pose proof (memory_returns n b). destruct (answer_memory n b) eqn:E; [done|exists n; eauto|done]. Qed.

Lemma yields_poll_every i : yields (poll_every i) (λ _, True).
Proof. unfold poll_every. destruct (_ =? _)%nat; [apply yields_poll|by apply role_yields_ret]. Qed.

Lemma yields_foldST {A B} (f : B → A → R B) (I : list A → B → Prop) l done b :
  (∀ done x b, x ∈ l → I done b → yields (f b x) (I (done ++ [x]))) →
  I done b → yields (foldST f l b) (I (done ++ l)).
Proof.
  revert done b. induction l as [|x l IH]; intros done b Hf Hb; cbn [foldST].
  - rewrite app_nil_r. by apply role_yields_ret.
  - eapply role_yields_bind; [apply Hf; [by left|done]|]. cbn. intros b' Hb'.
    replace (done ++ x :: l) with ((done ++ [x]) ++ l) by (by rewrite <-app_assoc).
    apply IH; [|done]. intros done' y b1 Hy. apply Hf. by right.
Qed.
End yields.

(** ** Well-formed automata and their paths *)

(** What [from_wire] establishes: the table [by_source] lists the transitions
    and every index is in range. *)
Record automaton_ok (a : RoleAutomaton) : Prop := {
  ao_count : state_count a + 63 ≤ u32_max;
  ao_initial : initial_state a < state_count a;
  ao_finals : Forall (λ x, x < state_count a) (final_states a);
  ao_sorted : StronglySorted ord_lt (final_states a);
  ao_length : length (by_source a) = N.to_nat (state_count a);
  ao_rows x row l y : by_source a !! N.to_nat x = Some row → (l, y) ∈ row ↔ mkTransition x y l ∈ transitions a;
  ao_source t : t ∈ transitions a → source_state t < state_count a;
  ao_target t : t ∈ transitions a → target_state t < state_count a
}.

(** [path a x word y]: the transitions lead from [x] to [y] reading [word]. *)
Inductive path (a : RoleAutomaton) : N → list N → N → Prop :=
| path_nil x : path a x [] x
| path_epsilon x y z word :
    epsilon x y ∈ transitions a → path a y word z → path a x word z
| path_role x r y z word :
    labelled x r y ∈ transitions a → path a y word z → path a x (r :: word) z.

Definition language (a : RoleAutomaton) (word : list N) : Prop :=
  ∃ y, path a (initial_state a) word y ∧ y ∈ final_states a.

Lemma path_app a x u y v z : path a x u y → path a y v z → path a x (u ++ v) z.
Proof. induction 1; intros Hz; cbn; [done|eapply path_epsilon; eauto|eapply path_role; eauto]. Qed.

(** One transition whose label the search follows. *)
Definition arc (follow : option N → bool) (a : RoleAutomaton) (x y : N) : Prop :=
  ∃ l, follow l = true ∧ mkTransition x y l ∈ transitions a.

Lemma rtc_epsilon a x y : rtc (arc is_epsilon a) x y ↔ path a x [] y.
Proof.
  split.
  - induction 1 as [x|x y z (l & Hl & Ht) _ IH]; [constructor|].
    apply bool_decide_eq_true in Hl as ->. by eapply path_epsilon.
  - intros Hp. remember [] as word. induction Hp as [x|x y z word Ht _ IH|]; [done| |done].
    eapply rtc_l; [|by apply IH]. by exists None.
Qed.

Lemma rtc_any a x y : rtc (arc (λ _, true) a) x y ↔ ∃ word, path a x word y.
Proof.
  split.
  - induction 1 as [x|x y z ([r|] & _ & Ht) _ [word IH]]; [exists []; constructor| |].
    + exists (r :: word). by eapply path_role.
    + exists word. by eapply path_epsilon.
  - intros [word Hp]. induction Hp as [x|x y z word Ht _ IH|x r y z word Ht _ IH]; [done| |];
      (eapply rtc_l; [|exact IH]); [by exists None|by exists (Some r)].
Qed.

(** ** Exploring the edges of a state *)

Section search.
Context `{ControlLaws} (follow : option N → bool).

Record explored (edges : list (option N * N)) (s : StateSet) (p : list N) (s' : StateSet) (p' : list N) : Prop := {
  ex_ok : set_ok s';
  ex_count : ss_count s' = ss_count s;
  ex_queue : ∃ fresh, p' = p ++ fresh ∧ NoDup fresh ∧ ∀ x, x ∈ fresh ↔ mem s x = false ∧ mem s' x = true;
  ex_mem x : mem s' x = true ↔ mem s x = true ∨ ∃ l, (l, x) ∈ edges ∧ follow l = true
}.

Lemma explored_refl s p : set_ok s → explored [] s p s p.
Proof.
  intros Hs. split; [done|done| |set_solver]. exists []. rewrite app_nil_r. split_and!; [done|constructor|].
  intros x. split; [set_solver|]. intros [? ?]; congruence.
Qed.

Lemma explored_skip edges s p s' p' e :
  follow e.1 = false → explored edges s p s' p' → explored (edges ++ [e]) s p s' p'.
Proof.
  intros He [Hok Hc Hq Hm]. split; [done|done|done|]. intros x. rewrite Hm. split; [set_solver|].
  intros [?|(l & [?|<-%list_elem_of_singleton]%elem_of_app & Hl)]; [by left|right; eauto|]. cbn in He. congruence.
Qed.

Lemma explored_insert edges s p s' p' e s'' :
  follow e.1 = true → explored edges s p s' p' → set_ok s'' → ss_count s'' = ss_count s' →
  (∀ y, mem s'' y = (e.2 =? y) || mem s' y) →
  explored (edges ++ [e]) s p s'' (if negb (mem s' e.2) then p' ++ [e.2] else p').
Proof.
  intros He [Hok Hc (fresh & -> & Hnd & Hf) Hm] Hok' Hc' Hm'.
  assert (∀ y, mem s'' y = true ↔ e.2 = y ∨ mem s' y = true) as Hm''.
  { intros y. by rewrite Hm', orb_true_iff, N.eqb_eq. }
  split; [done|congruence| |].
  - destruct (mem s' e.2) eqn:E; cbn [negb].
    + exists fresh. split_and!; [done|done|]. intros x. rewrite Hf, Hm''. split; [tauto|].
      intros [? [<-|?]]; done.
    + exists (fresh ++ [e.2]). split_and!; [by rewrite app_assoc| |].
      * apply NoDup_app. split_and!; [done| |apply NoDup_singleton].
        intros x [_ Hx]%Hf ->%list_elem_of_singleton. congruence.
      * intros x. rewrite elem_of_app, list_elem_of_singleton, Hf, Hm''.
        assert (mem s e.2 = false); [|split; [intros [[? ?]| ->]; auto|intros [? [<-|?]]; auto]].
        apply not_true_iff_false. intros Hx. apply not_true_iff_false in E. destruct E. apply Hm. by left.
  - intros x. rewrite Hm'', Hm. split.
    + intros [<-|[?|(l & ? & ?)]]; [|by left|right; exists l; set_solver].
      right. exists e.1. split; [|done]. apply elem_of_app. right. destruct e; cbn. set_solver.
    + intros [?|(l & [?|<-%list_elem_of_singleton]%elem_of_app & ?)]; [by right; left|right; right; eauto|by left].
Qed.

Lemma visit_edges_spec edges v s p :
  set_ok s → Forall (λ e, e.2 < ss_count s) edges →
  yields (foldST (visit_edge follow) edges (v, s, p)) (λ acc, explored edges s p acc.1.2 acc.2).
Proof.
  intros Hs Hb. rewrite Forall_forall in Hb.
  apply (yields_foldST _ (λ seen acc, explored seen s p acc.1.2 acc.2) _ []); [|by apply explored_refl].
  intros seen e [[v' s'] p'] He Hex. cbn in Hex. unfold visit_edge.
  eapply role_yields_bind; [apply yields_poll_every|]. intros _ _.
  destruct (follow e.1) eqn:Hfo; [|apply role_yields_ret; by apply explored_skip].
  destruct (insert_spec s' (ex_ok _ _ _ _ _ Hex) e.2) as (s'' & Hins & Hok & Hc & Hm).
  { rewrite (ex_count _ _ _ _ _ Hex). by apply Hb. }
  eapply yields_bind_lift; [done|]. apply role_yields_ret. by apply explored_insert.
Qed.
End search.

Lemma NoDup_bounded_length (l : list N) n : NoDup l → (∀ x, x ∈ l → x < n) → (length l ≤ N.to_nat n)%nat.
Proof.
  intros Hnd Hb. etrans; [apply (submseteq_length _ (N.of_nat <$> seq 0 (N.to_nat n)))|by rewrite length_fmap, length_seq].
  apply NoDup_submseteq; [done|]. intros x Hx%Hb. apply list_elem_of_fmap. exists (N.to_nat x).
  split; [lia|]. apply elem_of_seq. lia.
Qed.

(** ** Breadth-first search *)

Section loops.
Context `{ControlLaws} (a : RoleAutomaton) (follow : option N → bool) (init : N → Prop).
Hypothesis Ha : automaton_ok a.

(** The states already expanded and the queue together are the set, the
    expanded ones have all their successors in it, and everything in it is
    reachable. *)
Record search (expanded : list N) (s : StateSet) (pending : list N) : Prop := {
  se_ok : set_ok s;
  se_count : ss_count s = state_count a;
  se_nodup : NoDup (expanded ++ pending);
  se_mem x : mem s x = true ↔ x ∈ expanded ++ pending;
  se_closed x y : x ∈ expanded → arc follow a x y → mem s y = true;
  se_sound x : mem s x = true → ∃ x0, init x0 ∧ rtc (arc follow a) x0 x;
  se_init x : init x → mem s x = true
}.

Lemma row_of x : x < state_count a → ∃ row, by_source a !! N.to_nat x = Some row.
Proof. intros Hx. apply lookup_lt_is_Some_2. rewrite (ao_length _ Ha). lia. Qed.

Lemma row_targets x row : by_source a !! N.to_nat x = Some row → Forall (λ e, e.2 < state_count a) row.
Proof. intros Hrow. apply Forall_forall. intros [l y] Ht%(ao_rows _ Ha _ _ _ _ Hrow). by apply (ao_target _ Ha) in Ht. Qed.

Lemma search_pending expanded s x pending :
  search expanded s (x :: pending) → ∃ row, by_source a !! N.to_nat x = Some row.
Proof.
  intros Hse. apply row_of. rewrite <-(se_count _ _ _ Hse). apply (set_bound _ (se_ok _ _ _ Hse)).
  apply (se_mem _ _ _ Hse). set_solver.
Qed.

Lemma search_step expanded s x pending row v :
  search expanded s (x :: pending) → by_source a !! N.to_nat x = Some row →
  yields (foldST (visit_edge follow) row (v, s, pending)) (λ acc, search (expanded ++ [x]) acc.1.2 acc.2).
Proof.
  intros Hse Hrow. eapply yields_weaken.
  { apply visit_edges_spec; [apply (se_ok _ _ _ Hse)|]. rewrite (se_count _ _ _ Hse). by eapply row_targets. }
  intros [[v' s'] p'] Hex; cbn in *. destruct Hse as [Hok Hc Hnd Hm Hcl Hsound Hinit].
  destruct Hex as [Hok' Hc' (fresh & -> & Hfn & Hf) Hm']. split.
  - done.
  - congruence.
  - replace ((expanded ++ [x]) ++ pending ++ fresh) with ((expanded ++ x :: pending) ++ fresh) by (by rewrite <-!app_assoc).
    apply NoDup_app. split_and!; [done| |done]. intros y Hy%Hm [Hy' _]%Hf. congruence.
  - intros y. replace ((expanded ++ [x]) ++ pending ++ fresh) with ((expanded ++ x :: pending) ++ fresh) by (by rewrite <-!app_assoc).
    rewrite elem_of_app, <-Hm, Hf. split; [|intros [?|[? ?]]; [|done]; apply Hm'; by left].
    intros Hy. destruct (mem s y) eqn:E; auto.
  - intros y z [Hy| ->%list_elem_of_singleton]%elem_of_app Harc; apply Hm'; [left; by eapply Hcl|].
    destruct Harc as (l & Hl & Ht). right. exists l. split; [|done]. by apply (ao_rows _ Ha _ _ _ _ Hrow).
  - intros y [Hy|(l & Hl & Hfo)]%Hm'; [by apply Hsound|].
    destruct (Hsound x) as (x0 & Hx0 & Hr); [apply Hm; set_solver|]. exists x0. split; [done|].
    eapply rtc_r; [done|]. exists l. split; [done|]. by apply (ao_rows _ Ha _ _ _ _ Hrow).
  - intros y Hy. apply Hm'. left. by apply Hinit.
Qed.

(** An empty queue: the set is what is reachable. *)
Lemma search_done expanded s x :
  search expanded s [] → mem s x = true ↔ ∃ x0, init x0 ∧ rtc (arc follow a) x0 x.
Proof.
  intros Hse. split; [apply (se_sound _ _ _ Hse)|]. intros (x0 & Hx0 & Hr).
  apply (se_init _ _ _ Hse) in Hx0. revert Hx0. induction Hr as [y|y z w Hyz _ IH]; [done|].
  intros Hy. apply IH. eapply (se_closed _ _ _ Hse); [|done].
  apply (se_mem _ _ _ Hse) in Hy. by rewrite app_nil_r in Hy.
Qed.

Lemma search_in_fuel expanded s pending :
  search expanded s pending → (length (expanded ++ pending) ≤ N.to_nat (state_count a))%nat.
Proof.
  intros Hse. apply NoDup_bounded_length; [apply (se_nodup _ _ _ Hse)|]. intros x Hx%(se_mem _ _ _ Hse).
  rewrite <-(se_count _ _ _ Hse). by apply (set_bound _ (se_ok _ _ _ Hse)).
Qed.
End loops.

(** ** The loops of [epsilon_close] and [has_accepting_path] *)

Section closing.
Context `{ControlLaws} (a : RoleAutomaton).
Hypothesis Ha : automaton_ok a.

Lemma close_loop_spec init fuel expanded v s pending :
  search a is_epsilon init expanded s pending → (N.to_nat (state_count a) < length expanded + fuel)%nat →
  yields (close_loop fuel a v s pending) (λ s', ∃ expanded', search a is_epsilon init expanded' s' []).
Proof.
  revert expanded v s pending. induction fuel as [|fuel IH]; intros expanded v s pending Hse Hfuel.
  - pose proof (search_in_fuel a is_epsilon init _ _ _ Hse) as Hle. rewrite length_app in Hle. lia.
  - cbn [close_loop]. destruct pending as [|x pending]; [apply role_yields_ret; eauto|].
    destruct (search_pending a is_epsilon init Ha _ _ _ _ Hse) as [row Hrow].
    eapply yields_bind_lift; [by apply index_or_crash_Ok|].
    eapply role_yields_bind; [by eapply search_step|]. intros [[v' s'] p'] Hse'.
    apply (IH (expanded ++ [x])); [done|]. rewrite length_app. cbn. lia.
Qed.

(** [epsilon_close] adds the states that epsilon transitions reach. *)
Lemma epsilon_close_spec s :
  set_ok s → ss_count s = state_count a →
  yields (epsilon_close a s) (λ s', set_ok s' ∧ ss_count s' = state_count a ∧
    ∀ y, mem s' y = true ↔ ∃ x, mem s x = true ∧ path a x [] y).
Proof.
  intros Hs Hc. destruct (iter_spec s Hs) as [Hel Hsort]. unfold epsilon_close.
  eapply yields_weaken.
  { apply (close_loop_spec (λ x, mem s x = true) _ []); [|cbn; lia]. split; rewrite ?app_nil_l; try done.
    - by apply StronglySorted_lt_NoDup.
    - intros x y Hx. by apply not_elem_of_nil in Hx.
    - intros x Hx. by exists x. }
  intros s' [expanded Hse]. split_and!; [apply (se_ok _ _ _ _ _ _ Hse)|apply (se_count _ _ _ _ _ _ Hse)|].
  intros y. rewrite (search_done _ _ _ _ _ _ Hse). by setoid_rewrite rtc_epsilon.
Qed.

Lemma reach_loop_spec fuel expanded v s pending :
  search a (λ _, true) (λ x, x = initial_state a) expanded s pending →
  Forall (λ x, x ∉ final_states a) expanded →
  (N.to_nat (state_count a) < length expanded + fuel)%nat →
  yields (reach_loop fuel a v s pending) (λ b, b = true ↔ ∃ word, language a word).
Proof.
  revert expanded v s pending. induction fuel as [|fuel IH]; intros expanded v s pending Hse Hfin Hfuel.
  - pose proof (search_in_fuel a _ _ _ _ _ Hse) as Hle. rewrite length_app in Hle. lia.
  - cbn [reach_loop]. destruct pending as [|x pending].
    { apply role_yields_ret. split; [done|]. intros (word & y & Hp & Hy). rewrite Forall_forall in Hfin.
      destruct (Hfin y); [|done]. rewrite <-(app_nil_r expanded). apply (se_mem _ _ _ _ _ _ Hse).
      apply (search_done _ _ _ _ _ _ Hse). exists (initial_state a). split; [done|]. apply rtc_any. eauto. }
    pose proof (binary_search_elem_of (final_states a) x (ao_sorted _ Ha)) as Hbs.
    destruct (binary_search (final_states a) x) eqn:E.
    { apply role_yields_ret. split; [|done]. intros _.
      destruct (se_sound _ _ _ _ _ _ Hse x) as (x0 & -> & Hr); [apply (se_mem _ _ _ _ _ _ Hse); set_solver|].
      apply rtc_any in Hr as [word Hp]. exists word, x. split; [done|]. apply Hbs. eauto. }
    destruct (search_pending a _ _ Ha _ _ _ _ Hse) as [row Hrow].
    eapply yields_bind_lift; [by apply index_or_crash_Ok|].
    eapply role_yields_bind; [by eapply search_step|]. intros [[v' s'] p'] Hse'.
    apply (IH (expanded ++ [x])); [done| |rewrite length_app; cbn; lia].
    apply Forall_app_2; [done|]. apply Forall_singleton. naive_solver.
Qed.
End closing.

(** ** Reading a word *)

Lemma path_split a x u v z : path a x (u ++ v) z → ∃ y, path a x u y ∧ path a y v z.
Proof.
  intros Hp. remember (u ++ v) as w. revert u Heqw.
  induction Hp as [x|x y z w Ht Hp IH|x r y z w Ht Hp IH]; intros u Heq.
  - symmetry in Heq. apply app_eq_nil in Heq as [-> ->]. exists x. split; constructor.
  - destruct (IH u Heq) as (m & Hm & Hz). exists m. split; [by eapply path_epsilon|done].
  - destruct u as [|r' u]; cbn in Heq.
    + subst v. exists x. split; [constructor|by eapply path_role].
    + injection Heq as <- ->. destruct (IH u eq_refl) as (m & Hm & Hz). exists m. split; [by eapply path_role|done].
Qed.

(** The last letter of a word is read by one transition, between two closures. *)
Lemma path_snoc a x word r z :
  path a x (word ++ [r]) z ↔
  ∃ u v, path a x word u ∧ labelled u r v ∈ transitions a ∧ path a v [] z.
Proof.
  split.
  - intros (m & Hm & Hz)%path_split. remember [r] as w. revert Hm.
    induction Hz as [|m y z w Ht Hz IH|m r' y z w Ht Hz IH]; intros Hm; [done| |].
    + apply IH; [done|]. rewrite <-(app_nil_r word). eapply path_app; [done|]. eapply path_epsilon; [done|constructor].
    + injection Heqw as -> ->. eauto 10.
  - intros (u & v & Hu & Ht & Hz). eapply path_app; [done|]. by eapply path_role.
Qed.

Section run.
Context `{ControlLaws} (a : RoleAutomaton).
Hypothesis Ha : automaton_ok a.

(** The cursor after [word]: its states are those that [word] leads to. *)
Record cursor_ok (word : list N) (c : RoleCursor) : Prop := {
  co_component : cur_component_id c = component_id a;
  co_set : set_ok (cur_active c);
  co_count : ss_count (cur_active c) = state_count a;
  co_mem y : mem (cur_active c) y = true ↔ path a (initial_state a) word y
}.

Lemma new_set : ∃ s, Bits.new (state_count a) = Ok s ∧ set_ok s ∧ ss_count s = state_count a ∧ ∀ x, mem s x = false.
Proof.
  assert (∃ s, Bits.new (state_count a) = Ok s) as [s Hs]; [|exists s; split; [done|by apply new_spec]].
  unfold Bits.new, checked_add. pose proof (ao_count _ Ha) as Hc. apply N.leb_le in Hc as ->. cbn. eauto.
Qed.

Lemma initial_set :
  ∃ s s', Bits.new (state_count a) = Ok s ∧ Bits.insert s (initial_state a) = Ok (true, s') ∧ set_ok s' ∧
    ss_count s' = state_count a ∧ ∀ x, mem s' x = true ↔ x = initial_state a.
Proof.
  destruct new_set as (s & Hs & Hok & Hc & Hm).
  destruct (insert_spec s Hok (initial_state a)) as (s' & Hi & Hok' & Hc' & Hm').
  { rewrite Hc. apply (ao_initial _ Ha). }
  exists s, s'. rewrite Hm in Hi. split_and!; [done|done|done|congruence|].
  intros x. rewrite Hm', Hm, orb_false_r, N.eqb_eq. naive_solver.
Qed.

Lemma has_accepting_path_spec : yields (has_accepting_path a) (λ b, b = true ↔ ∃ word, language a word).
Proof.
  destruct initial_set as (s & s' & Hs & Hi & Hok & Hc & Hm). unfold has_accepting_path.
  eapply yields_bind_lift; [done|]. eapply yields_bind_lift; [done|].
  apply (reach_loop_spec a Ha _ []); [|constructor|cbn; lia]. split; rewrite ?app_nil_l; try done.
  - apply NoDup_singleton.
  - intros x. by rewrite Hm, list_elem_of_singleton.
  - intros x y Hx. by apply not_elem_of_nil in Hx.
  - intros x ->%Hm. eauto using rtc_refl.
  - intros x ->. by apply Hm.
Qed.

Lemma cursor_spec : yields (cursor a) (cursor_ok []).
Proof.
  destruct initial_set as (s & s' & Hs & Hi & Hok & Hc & Hm). unfold cursor.
  eapply yields_bind_lift; [done|]. eapply yields_bind_lift; [done|].
  eapply role_yields_bind; [by apply (epsilon_close_spec a Ha)|]. intros s'' (Hok'' & Hc'' & Hm'').
  apply role_yields_ret. split; [done|done|done|]. intros y. cbn. rewrite Hm''. split.
  - by intros (x & ->%Hm & Hp).
  - intros Hp. exists (initial_state a). split; [by apply Hm|done].
Qed.

(** The double loop of [advance]: one labelled transition from an active state. *)
Lemma follow_sources_spec role active s0 :
  set_ok active → ss_count active = state_count a →
  set_ok s0 → ss_count s0 = state_count a → (∀ x, mem s0 x = false) →
  yields (foldST (follow_source a role) (Bits.iter active) (0%nat, s0, []))
    (λ acc, set_ok acc.1.2 ∧ ss_count acc.1.2 = state_count a ∧
      ∀ y, mem acc.1.2 y = true ↔ ∃ x, mem active x = true ∧ labelled x role y ∈ transitions a).
Proof.
  intros Hac Hacc Hok Hc Hm. destruct (iter_spec active Hac) as [Hel _].
  eapply yields_weaken.
  { apply (yields_foldST _ (λ seen acc, set_ok acc.1.2 ∧ ss_count acc.1.2 = state_count a ∧
      ∀ y, mem acc.1.2 y = true ↔ ∃ x, x ∈ seen ∧ labelled x role y ∈ transitions a) _ []).
    2: { split_and!; [done|done|]. intros y. cbn. rewrite Hm. set_solver. }
    intros seen x [[v s] p] Hx (Hs & Hsc & Hsm). unfold follow_source. cbn in Hs, Hsc, Hsm.
    destruct (row_of a Ha x) as [row Hrow].
    { apply Hel in Hx. rewrite <-Hacc. by apply (set_bound _ Hac). }
    eapply yields_bind_lift; [by apply index_or_crash_Ok|].
    eapply yields_weaken; [apply visit_edges_spec; [done|rewrite Hsc; by eapply (row_targets a Ha)]|].
    intros [[v' s'] p'] [Hok' Hc' _ Hm']. split_and!; [done|cbn in *; congruence|]. intros y. rewrite Hm'. cbn.
    rewrite Hsm. split.
    + intros [(x' & Hx' & Ht)|(l & Hl & ->%bool_decide_eq_true)]; [exists x'; set_solver|].
      exists x. split; [set_solver|]. by apply (ao_rows _ Ha _ _ _ _ Hrow).
    + intros (x' & [Hx'| ->%list_elem_of_singleton]%elem_of_app & Ht); [left; eauto|right].
      exists (Some role). split; [by apply (ao_rows _ Ha _ _ _ _ Hrow)|by apply bool_decide_eq_true]. }
  intros acc (? & ? & Hfin). split_and!; [done|done|]. intros y. rewrite Hfin. cbn. by setoid_rewrite Hel.
Qed.

Lemma advance_spec word c role count :
  cursor_ok word c → role < count →
  yields (advance a c role count) (λ r,
    if r.1 then cursor_ok (word ++ [role]) r.2 else ∀ y, ¬ path a (initial_state a) (word ++ [role]) y).
Proof.
  intros [Hcomp Hset Hcnt Hmem] Hrole. unfold advance. rewrite Hcomp, Hcnt, !N.eqb_refl. cbn [negb orb].
  destruct (N.leb_spec count role); [lia|]. cbn [reject_if].
  eapply yields_bind_lift; [done|]. eapply yields_bind_lift; [done|].
  eapply role_yields_bind; [apply yields_poll|]. intros _ _.
  destruct new_set as (s & Hs & Hok & Hc & Hm). eapply yields_bind_lift; [done|].
  eapply role_yields_bind; [by apply follow_sources_spec|]. intros [[v s'] p] (Hok' & Hc' & Hm'). cbn in *.
  destruct (Bits.is_empty s') eqn:Hemp.
  - apply role_yields_ret. cbn. intros y (u & w & Hu & Ht & _)%path_snoc.
    pose proof (proj1 (is_empty_spec s' Hok') Hemp w) as Hw. apply not_true_iff_false in Hw. apply Hw, Hm'.
    exists u. split; [by apply Hmem|done].
  - eapply role_yields_bind; [by apply (epsilon_close_spec a Ha)|]. intros s'' (Hok'' & Hc'' & Hm'').
    apply role_yields_ret. split; [done|done|done|]. intros y. cbn. rewrite Hm'', path_snoc. split.
    + intros (w & (u & Hu%Hmem & Ht)%Hm' & Hp). eauto.
    + intros (u & w & Hu & Ht & Hp). exists w. split; [|done]. apply Hm'. exists u. split; [by apply Hmem|done].
Qed.

Lemma any_contained_spec s finals :
  set_ok s → any_contained s finals = Ok (existsb (mem s) finals).
Proof.
  intros Hs. induction finals as [|x finals IH]; [done|]. cbn. rewrite contains_spec by done. cbn.
  destruct (mem s x); [done|]. cbn. apply IH.
Qed.

Lemma is_accepting_spec word c :
  cursor_ok word c → ∃ b, is_accepting a c = Ok b ∧ (b = true ↔ language a word).
Proof.
  intros [_ Hset _ Hmem]. exists (existsb (mem (cur_active c)) (final_states a)).
  split; [by apply any_contained_spec|]. rewrite existsb_exists. unfold language.
  split; intros (y & ? & ?); exists y; (split; [|]); rewrite ?list_elem_of_In in *; (done || by apply Hmem).
Qed.

Lemma run_word_spec rest word c count :
  cursor_ok word c → Forall (λ r, r < count) rest →
  yields (run_word a c rest count) (λ b, b = true ↔ language a (word ++ rest)).
Proof.
  revert word c. induction rest as [|role rest IH]; intros word c Hc Hrest; cbn [run_word].
  - rewrite app_nil_r. destruct (is_accepting_spec word c Hc) as (b & Hb & Hl). by eapply role_yields_lift.
  - apply Forall_cons in Hrest as [Hrole Hrest].
    eapply role_yields_bind; [by eapply advance_spec|]. intros [[] c']; cbn; intros Hc'.
    + replace (word ++ role :: rest) with ((word ++ [role]) ++ rest) by (by rewrite <-app_assoc). by apply IH.
    + apply role_yields_ret. split; [done|]. intros (y & Hp & _). replace (word ++ role :: rest) with ((word ++ [role]) ++ rest) in Hp by (by rewrite <-app_assoc).
      apply path_split in Hp as (m & Hm & _). by destruct (Hc' m).
Qed.

Lemma accepts_spec word count lim :
  Forall (λ r, r < count) word → N.of_nat (length word) ≤ max_word_length lim →
  yields (accepts a word count lim) (λ b, b = true ↔ language a word).
Proof.
  intros Hw Hlen. unfold accepts. destruct (N.ltb_spec (max_word_length lim) (N.of_nat (length word))); [lia|].
  eapply yields_bind_lift; [done|]. eapply role_yields_bind; [apply cursor_spec|]. intros c Hc.
  by apply (run_word_spec word []).
Qed.
End run.

(** ** Compiling a wire automaton *)

Section compile.
Context `{ControlLaws}.

(** [safe m Q]: [m] does not panic, and a value it returns satisfies [Q]. *)
Definition safe {A} (m : R A) (Q : A → Prop) : Prop :=
  ∀ n, match m n with (Ok a, _) => Q a | (Err _, _) => True | (Crash, _) => False end.

Lemma safe_yields {A} (m : R A) (Q : A → Prop) : yields m Q → safe m Q.
Proof. intros Hm n. specialize (Hm n). by destruct (m n) as [[]]. Qed.

Lemma safe_ret {A} (a : A) (Q : A → Prop) : Q a → safe (mret a) Q.
Proof. by intros Ha n. Qed.

Lemma role_safe_bind {A B} (m : R A) (f : A → R B) (P : A → Prop) (Q : B → Prop) :
  safe m P → (∀ a, P a → safe (f a) Q) → safe (m ≫= f) Q.
Proof.
  intros Hm Hf n. specialize (Hm n). unfold mbind, st_bind.
  destruct (m n) as [[a|e|] n']; [by apply Hf|done|done].
Qed.

Lemma role_safe_lift {A B} (r : outcome RoleError A) (f : A → R B) (Q : B → Prop) :
  r ≠ Crash → (∀ a, r = Ok a → safe (f a) Q) → safe (lift r ≫= f) Q.
Proof. intros Hr Hf n. unfold mbind, st_bind, lift. destruct r as [a|e|]; [by apply Hf|done|done]. Qed.

Lemma safe_reject {B} b e (f : unit → R B) (Q : B → Prop) :
  (b = false → safe (f tt) Q) → safe (lift (reject_if b e) ≫= f) Q.
Proof. intros Hf. apply role_safe_lift; [by destruct b|]. intros [] Hb%reject_if_Ok. auto. Qed.

Lemma safe_skip {A B} (m : R A) (f : A → R B) (Q : B → Prop) :
  yields m (λ _, True) → (∀ a, safe (f a) Q) → safe (m ≫= f) Q.
Proof. intros Hm Hf. eapply role_safe_bind; [by apply safe_yields|]. auto. Qed.

Lemma role_safe_foldST {A B} (f : B → A → R B) (I : list A → B → Prop) l seen b :
  (∀ seen x b, x ∈ l → I seen b → safe (f b x) (I (seen ++ [x]))) →
  I seen b → safe (foldST f l b) (I (seen ++ l)).
Proof.
  revert seen b. induction l as [|x l IH]; intros seen b Hf Hb; cbn [foldST].
  - rewrite app_nil_r. by apply safe_ret.
  - eapply role_safe_bind; [apply Hf; [by left|done]|]. cbn. intros b' Hb'.
    replace (seen ++ x :: l) with ((seen ++ [x]) ++ l) by (by rewrite <-app_assoc).
    apply IH; [|done]. intros seen' y b1 Hy. apply Hf. by right.
Qed.

(** The table after some transitions. *)
Record filed (count : N) (seen : list RoleTransition) (table : list (list (option N * N))) : Prop := {
  fi_length : length table = N.to_nat count;
  fi_rows x row l y : table !! N.to_nat x = Some row → (l, y) ∈ row ↔ mkTransition x y l ∈ seen;
  fi_bound : Forall (λ t, source_state t < count ∧ target_state t < count) seen
}.

Lemma file_transition_spec count roles seen table entry :
  filed count seen table →
  safe (file_transition count roles table entry) (filed count (seen ++ [entry.2])).
Proof.
  destruct entry as [offset t]. intros [Hlen Hrows Hbound]. unfold file_transition.
  apply safe_skip; [apply yields_poll_every|]. intros _. apply safe_reject. intros [Hsrc Htgt]%orb_false_iff.
  apply N.leb_gt in Hsrc, Htgt. apply safe_reject. intros _.
  destruct (lookup_lt_is_Some_2 table (N.to_nat (source_state t))) as [row Hrow]; [lia|].
  apply role_safe_lift; [unfold index_or_crash; by rewrite Hrow|]. intros row' Hrow'%index_or_crash_Ok.
  rewrite Hrow in Hrow'. injection Hrow' as <-. apply safe_ret. split; cbn.
  - by rewrite length_insert.
  - intros x row' l y. rewrite elem_of_app, list_elem_of_singleton.
    intros [(Hx & <- & _)|[Hne Hr]]%list_lookup_insert_Some.
    + apply N2Nat.inj in Hx as <-. rewrite elem_of_app, list_elem_of_singleton, (Hrows _ _ _ _ Hrow).
      destruct t; cbn. naive_solver.
    + rewrite (Hrows _ _ _ _ Hr). split; [by left|]. intros [?|<-]; [done|]. by destruct Hne.
  - apply Forall_app_2; [done|]. by apply Forall_singleton.
Qed.

Lemma file_transitions_spec count roles ts start :
  safe (foldST (file_transition count roles) (imap (λ i t, ((start + i)%nat, t)) ts) (replicate (N.to_nat count) []))
    (filed count ts).
Proof.
  set (entries := imap _ ts).
  assert (entries.*2 = ts) as Hts.
  { unfold entries. rewrite fmap_imap. clear. induction ts as [|t ts IH]; csimpl; [done|].
    f_equal. etrans; [|apply IH]. by apply imap_ext. }
  clearbody entries. subst ts.
  apply (role_safe_foldST _ (λ seen table, filed count seen.*2 table) entries []).
  - intros seen e table _ Hf. rewrite fmap_app. by apply file_transition_spec.
  - split; cbn; [by rewrite length_replicate| |constructor].
    intros x row l y [-> _]%lookup_replicate. set_solver.
Qed.

(** What a compiled automaton has to do with its wire form. *)
Record compiled_from (wire : RoleAutomatonWire) (a : RoleAutomaton) : Prop := {
  cf_ok : automaton_ok a;
  cf_component : component_id a = w_component_id wire;
  cf_count : state_count a = w_state_count wire;
  cf_initial : initial_state a = w_initial_state wire;
  cf_finals x : x ∈ final_states a ↔ x ∈ w_final_states wire;
  cf_transitions t : t ∈ transitions a ↔ t ∈ w_transitions wire;
  cf_live : ∃ word, language a word
}.

Lemma estimate_not_crash states n : estimate_automaton_bytes states n ≠ Crash.
Proof.
  unfold estimate_automaton_bytes. destruct (checked_mul u64_max states 32); [|done]. cbn.
  destruct (checked_mul _ _ _); [|done]. cbn. by destruct (checked_add _ _ _).
Qed.

Lemma has_accepting_path_safe a (Q : bool → Prop) :
  (state_count a + 63 ≤ u32_max → safe (has_accepting_path a) Q) → safe (has_accepting_path a) Q.
Proof.
  destruct (N.leb_spec (state_count a + 63) u32_max) as [Hle|Hgt]; [auto|]. intros _ n.
  unfold has_accepting_path, mbind, st_bind, lift, Bits.new, checked_add. apply N.leb_gt in Hgt as ->. done.
Qed.

Lemma from_wire_spec wire roles lim : safe (from_wire wire roles lim) (compiled_from wire).
Proof.
  unfold from_wire. apply safe_skip; [apply yields_poll|]. intros _.
  do 2 (apply safe_reject; intros _). apply safe_reject. intros Hinit%N.leb_gt.
  do 2 (apply safe_reject; intros _). apply safe_reject. intros Hfin.
  set (finals := dedup (sort (w_final_states wire))) in *. set (ts := dedup (sort (w_transitions wire))).
  eapply role_safe_bind; [apply (file_transitions_spec _ _ _ 0)|]. intros table [Hlen Hrows Hbound].
  apply role_safe_lift; [apply estimate_not_crash|]. intros memory _.
  apply safe_reject. intros _. apply safe_skip; [apply yields_memory|]. intros _.
  eapply (role_safe_bind _ _ (λ b, b = true → compiled_from wire _)).
  2: { intros [] Hb; [apply safe_ret; by apply Hb|done]. }
  apply has_accepting_path_safe. cbn [state_count]. intros Hcount.
  rewrite Forall_forall in Hbound.
  match goal with |- safe (has_accepting_path ?a) _ => assert (automaton_ok a) as Ha end.
  { split; cbn; try done.
    - apply Forall_forall. intros x Hx. destruct (N.lt_ge_cases x (w_state_count wire)) as [|Hge]; [done|].
      apply not_true_iff_false in Hfin. destruct Hfin. apply existsb_exists. exists x.
      split; [by apply list_elem_of_In|by apply N.leb_le].
    - apply dedup_sort_sorted.
    - intros t Ht. by apply Hbound.
    - intros t Ht. by apply Hbound. }
  apply safe_yields. eapply yields_weaken; [by apply has_accepting_path_spec|].
  intros b Hb Hbt. split; cbn; try done.
  - intros x. apply elem_of_dedup_sort.
  - intros t. apply elem_of_dedup_sort.
  - by apply Hb.
Qed.
End compile.

(** ** The runtime *)

Record runtime_ok (r : RoleRuntime) : Prop := {
  ro_length : N.of_nat (length (inverse_role_ids r)) = role_count r;
  ro_involution x y : inverse_role_ids r !! N.to_nat x = Some y → inverse_role_ids r !! N.to_nat y = Some x;
  ro_top : inverse_role_ids r !! N.to_nat (top_role_id r) = Some (top_role_id r);
  ro_bottom : inverse_role_ids r !! N.to_nat (bottom_role_id r) = Some (bottom_role_id r);
  ro_automata c a : automata r !! c = Some a → ∃ wire, compiled_from wire a ∧ w_component_id wire = c
}.

Lemma check_inverse_spec count inverses :
  iterM (check_inverse count inverses) (imap pair inverses) = Ok tt →
  ∀ x y, inverses !! N.to_nat x = Some y → inverses !! N.to_nat y = Some x.
Proof.
  rewrite iterM_Ok, Forall_forall. intros Hall x y Hx.
  specialize (Hall (N.to_nat x, y) ltac:(apply elem_of_lookup_imap; eauto)). unfold check_inverse in Hall.
  apply reject_if_Ok, orb_false_iff in Hall as [_ Hb%negb_false_iff%bool_decide_eq_true].
  apply fmap_Some in Hb as (z & Hz & Hzx). by apply N2Nat.inj in Hzx as ->.
Qed.

Section runtime_spec.
Context `{ControlLaws}.

Lemma compile_automaton_spec count lim acc entry :
  (∀ c a, acc.1 !! c = Some a → ∃ wire, compiled_from wire a ∧ w_component_id wire = c) →
  safe (compile_automaton count lim acc entry)
    (λ acc', ∀ c a, acc'.1 !! c = Some a → ∃ wire, compiled_from wire a ∧ w_component_id wire = c).
Proof.
  destruct entry as [offset wire], acc as [compiled totals]. cbn. intros Hacc.
  apply safe_skip; [apply yields_poll_every|]. intros _.
  eapply role_safe_bind; [apply from_wire_spec|]. intros a Ha.
  apply role_safe_lift; [by destruct (checked_add _ _ _)|]. intros states _.
  apply role_safe_lift; [by destruct (checked_add _ _ _)|]. intros ts _.
  apply role_safe_lift; [apply estimate_not_crash|]. intros bytes _.
  apply role_safe_lift; [by destruct (checked_add _ _ _)|]. intros memory _.
  do 4 (apply safe_reject; intros _). apply safe_ret. cbn. intros c a' [[<- <-]|[_ Hc]]%lookup_insert_Some.
  - exists wire. split; [done|]. symmetry. apply (cf_component _ _ Ha).
  - by apply Hacc.
Qed.

Lemma new_runtime_spec count inverses top bottom wires lim :
  safe (new_runtime count inverses top bottom wires lim) runtime_ok.
Proof.
  unfold new_runtime. apply safe_skip; [apply yields_poll|]. intros _.
  do 2 (apply safe_reject; intros _). apply safe_reject. intros Hlen%negb_false_iff%N.eqb_eq.
  apply safe_reject. intros [Htop%N.leb_gt Hbot%N.leb_gt]%orb_false_iff.
  apply role_safe_lift.
  { generalize (imap pair inverses). intros l. induction l as [|[i x] l IH]; [done|]. cbn [iterM].
    unfold check_inverse, reject_if. by case_match. }
  intros [] Hinv. assert (∀ x, x < count → ∃ y, inverses !! N.to_nat x = Some y) as Hlk.
  { intros x Hx. apply lookup_lt_is_Some_2. lia. }
  destruct (Hlk _ Htop) as [t Ht], (Hlk _ Hbot) as [b Hb].
  apply role_safe_lift; [unfold index_or_crash; by rewrite Ht|]. intros t' Ht'%index_or_crash_Ok.
  apply role_safe_lift; [unfold index_or_crash; by rewrite Hb|]. intros b' Hb'%index_or_crash_Ok.
  apply safe_reject. intros [->%negb_false_iff%N.eqb_eq ->%negb_false_iff%N.eqb_eq]%orb_false_iff.
  apply safe_reject. intros _.
  eapply role_safe_bind.
  { apply (role_safe_foldST _ (λ _ (acc : gmap N RoleAutomaton * Totals), ∀ c a, acc.1 !! c = Some a → ∃ wire, compiled_from wire a ∧ w_component_id wire = c) _ []).
    - intros _ e acc _. apply compile_automaton_spec.
    - intros c a. cbn. by rewrite lookup_empty. }
  intros acc Hacc. apply safe_skip; [apply yields_memory|]. intros _. apply safe_ret.
  split; cbn; try done. by apply (check_inverse_spec count).
Qed.

(** A word with the bottom role is accepted; otherwise the automaton decides. *)
Lemma runtime_accepts_spec r component a word :
  runtime_ok r → automata r !! component = Some a → Forall (λ x, x < role_count r) word →
  N.of_nat (length word) ≤ max_word_length (limits r) →
  yields (runtime_accepts r component word) (λ b, b = true ↔ bottom_role_id r ∈ word ∨ language a word).
Proof.
  intros Hr Ha Hw Hlen. unfold runtime_accepts. case_bool_decide as Hb; [apply role_yields_ret; tauto|].
  rewrite Ha. eapply yields_bind_lift; [done|]. destruct (ro_automata _ Hr _ _ Ha) as (wire & Hc & _).
  eapply yields_weaken; [apply accepts_spec; [apply (cf_ok _ _ Hc)|done|done]|]. intros b ->. tauto.
Qed.
End runtime_spec.

(** [inverse_word] reverses the word and inverts each role. *)
Lemma inverse_word_Ok r word w :
  inverse_word r word = Ok w ↔
  N.of_nat (length word) ≤ max_word_length (limits r) ∧
  Forall2 (λ x y, inverse_role_ids r !! N.to_nat x = Some y) word (reverse w).
Proof.
  unfold inverse_word. rewrite outcome_bind_Ok. split.
  - intros ([] & Hlen%reject_if_Ok%N.ltb_ge & Hw). split; [done|]. apply collectM_Ok, Forall2_reverse in Hw.
    rewrite reverse_involutive in Hw. eapply Forall2_impl; [done|]. intros x y. apply ok_or_Ok.
  - intros [Hlen Hw]. exists tt. split; [by apply reject_if_Ok, N.ltb_ge|]. apply collectM_Ok.
    apply Forall2_reverse in Hw. rewrite reverse_involutive in Hw. eapply Forall2_impl; [done|]. intros x y. apply ok_or_Ok.
Qed.

Lemma inverse_word_involutive r word w :
  runtime_ok r → inverse_word r word = Ok w → inverse_word r w = Ok word.
Proof.
  intros Hr [Hlen Hw]%inverse_word_Ok. apply inverse_word_Ok. split.
  - apply Forall2_length in Hw. rewrite length_reverse in Hw. by rewrite <-Hw.
  - apply Forall2_flip, Forall2_reverse in Hw. rewrite reverse_involutive in Hw.
    eapply Forall2_impl; [done|]. intros x y. apply (ro_involution _ Hr).
Qed.

(** * Theorems about the role automata

    The run of an automaton decides its language, compilation validates the
    wire form, and inverting a word is an involution. *)

Section automata.
Context `{ControlLaws}.

(** Compiling a wire automaton never panics, and what it accepts has the
    wire's states, final states and transitions, an index of its transitions
    by source, every index in range, and at least one word to accept. *)
Theorem from_wire_validates wire roles lim n :
  match from_wire wire roles lim n with
  | (Ok a, _) => compiled_from wire a
  | (Err _, _) => True
  | (Crash, _) => False
  end.
Proof. apply (from_wire_spec wire roles lim). Qed.

(** C40: running a compiled automaton on a word of valid roles answers whether
    the automaton has a path from its initial to a final state that reads the
    word, and fails only with an error of the control. *)
Theorem accepts_decides_language wire a word count lim n :
  compiled_from wire a → Forall (λ r, r < count) word → N.of_nat (length word) ≤ max_word_length lim →
  match accepts a word count lim n with
  | (Ok b, _) => b = true ↔ language a word
  | (Err e, _) => refused e
  | (Crash, _) => False
  end.
Proof. intros Ha Hw Hl. apply (accepts_spec a (cf_ok _ _ Ha) word count lim Hw Hl). Qed.

(** The closure of a set of states under epsilon transitions terminates
    and adds exactly the states they reach. *)
Theorem epsilon_close_exact wire a s n :
  compiled_from wire a → set_ok s → ss_count s = state_count a →
  match epsilon_close a s n with
  | (Ok s', _) => set_ok s' ∧ ss_count s' = state_count a ∧
      ∀ y, mem s' y = true ↔ ∃ x, mem s x = true ∧ path a x [] y
  | (Err e, _) => refused e
  | (Crash, _) => False
  end.
Proof. intros Ha Hs Hc. apply (epsilon_close_spec a (cf_ok _ _ Ha) s Hs Hc). Qed.

(** A new role runtime has an involutive map of inverse roles, with top
    and bottom their own inverses, and compiled automata under their ids. *)
Theorem new_runtime_validates count inverses top bottom wires lim n :
  match new_runtime count inverses top bottom wires lim n with
  | (Ok r, _) => runtime_ok r
  | (Err _, _) => True
  | (Crash, _) => False
  end.
Proof. apply (new_runtime_spec count inverses top bottom wires lim). Qed.
End automata.

(** Inverting a role word twice gives the word back. *)
Theorem inverse_word_round_trip r word w :
  runtime_ok r → inverse_word r word = Ok w → inverse_word r w = Ok word.
Proof. apply inverse_word_involutive. Qed.

(** The bitset of states is a set: insertion reports whether the state was
    new and adds it alone, and iteration lists the members in ascending order. *)
Theorem state_set_refines s x :
  set_ok s → x < ss_count s →
  (∃ s', Bits.insert s x = Ok (negb (mem s x), s') ∧ set_ok s' ∧ ∀ y, mem s' y = true ↔ y = x ∨ mem s y = true) ∧
  (∀ y, y ∈ Bits.iter s ↔ mem s y = true) ∧ StronglySorted ord_lt (Bits.iter s) ∧
  Bits.contains s x = Ok (mem s x).
Proof.
  intros Hs Hx. split; [|destruct (iter_spec s Hs); split_and!; [done|done|by apply contains_spec]].
  destruct (insert_spec s Hs x Hx) as (s' & Hi & Hs' & _ & Hm). exists s'. split_and!; [done|done|].
  intros y. rewrite Hm, orb_true_iff, N.eqb_eq. naive_solver.
Qed.

(** ** An automaton for a transitive role *)

Definition transitive_wire : RoleAutomatonWire :=
  mkWire 7 3 0 [2] [labelled 0 1 1; epsilon 1 0; epsilon 1 2].

Definition transitive : RoleAutomaton :=
  match (from_wire (H:=NeverCancel) transitive_wire 4 default_limits 0%nat).1 with
  | Ok a => a
  | _ => mkAutomaton 0 0 0 [] [] []
  end.

Lemma transitive_compiled : compiled_from transitive_wire transitive.
Proof.
  pose proof (from_wire_spec (H:=NeverCancel) transitive_wire 4 default_limits 0%nat) as Hs.
  unfold transitive. assert (is_ok (from_wire (H:=NeverCancel) transitive_wire 4 default_limits 0%nat).1 = true) as E by (vm_compute; reflexivity).
  destruct (from_wire (H:=NeverCancel) transitive_wire 4 default_limits 0%nat) as [[a|e|] n]; [exact Hs|done|done].
Qed.

Lemma accepts_decides_language_witness :
  match accepts (H:=NeverCancel) transitive [1; 1] 4 default_limits 0%nat with
  | (Ok b, _) => b = true ↔ language transitive [1; 1]
  | (Err e, _) => refused (H:=NeverCancel) e
  | (Crash, _) => False
  end.
Proof.
  apply (accepts_decides_language (H:=NeverCancel) transitive_wire transitive [1; 1] 4 default_limits 0%nat).
  - apply transitive_compiled.
  - repeat constructor.
  - vm_compute. discriminate.
Defined.

(** The set with the state [1] alone. *)
Definition just_one : StateSet := mkStateSet [2] 3.

Lemma just_one_ok : set_ok just_one.
Proof.
  destruct (new_spec 3 (mkStateSet [0] 3) ltac:(vm_compute; reflexivity)) as [Hs _].
  destruct (insert_spec _ Hs 1 ltac:(vm_compute; reflexivity)) as (s' & Hi & Hs' & _).
  assert (Bits.insert (mkStateSet [0] 3) 1 = Ok (true, just_one)) as E by (vm_compute; reflexivity).
  assert (s' = just_one) as <- by congruence. exact Hs'.
Qed.

Lemma epsilon_close_exact_witness :
  match epsilon_close (H:=NeverCancel) transitive just_one 0%nat with
  | (Ok s', _) => set_ok s' ∧ ss_count s' = state_count transitive ∧
      ∀ y, mem s' y = true ↔ ∃ x, mem just_one x = true ∧ path transitive x [] y
  | (Err e, _) => refused (H:=NeverCancel) e
  | (Crash, _) => False
  end.
Proof.
  apply (epsilon_close_exact (H:=NeverCancel) transitive_wire transitive just_one 0%nat);
    [apply transitive_compiled|apply just_one_ok|vm_compute; reflexivity].
Defined.

Lemma state_set_refines_witness :
  (∃ s', Bits.insert just_one 2 = Ok (negb (mem just_one 2), s') ∧ set_ok s' ∧
    ∀ y, mem s' y = true ↔ y = 2 ∨ mem just_one y = true) ∧
  (∀ y, y ∈ Bits.iter just_one ↔ mem just_one y = true) ∧ StronglySorted ord_lt (Bits.iter just_one) ∧
  Bits.contains just_one 2 = Ok (mem just_one 2).
Proof. apply (state_set_refines just_one 2); [apply just_one_ok|vm_compute; reflexivity]. Defined.

(** Roles 0 (top) and 3 (bottom) are their own inverses; 1 and 2 invert each other. *)
Definition small_runtime : RoleRuntime := mkRuntime 4 [0; 2; 1; 3] 0 3 ∅ default_limits.

Lemma small_runtime_ok : runtime_ok small_runtime.
Proof.
  pose proof (new_runtime_spec (H:=NeverCancel) 4 [0; 2; 1; 3] 0 3 [] default_limits 0%nat) as Hs.
  assert (new_runtime (H:=NeverCancel) 4 [0; 2; 1; 3] 0 3 [] default_limits 0%nat = (Ok small_runtime, 2%nat)) as E by (vm_compute; reflexivity).
  rewrite E in Hs. exact Hs.
Qed.

Lemma inverse_word_round_trip_witness :
  inverse_word small_runtime [1; 1; 0] = Ok [0; 2; 2] ∧ inverse_word small_runtime [0; 2; 2] = Ok [1; 1; 0].
Proof.
  split; [vm_compute; reflexivity|].
  apply (inverse_word_round_trip small_runtime [1; 1; 0]); [apply small_runtime_ok|vm_compute; reflexivity].
Defined.

Lemma from_wire_validates_witness : compiled_from transitive_wire transitive.
Proof.
  pose proof (from_wire_validates (H:=NeverCancel) transitive_wire 4 default_limits 0%nat) as Hs.
  unfold transitive.
  assert (is_ok (from_wire (H:=NeverCancel) transitive_wire 4 default_limits 0%nat).1 = true) as E by (vm_compute; reflexivity).
  destruct (from_wire (H:=NeverCancel) transitive_wire 4 default_limits 0%nat) as [[a|e|] n]; [exact Hs|done|done].
Defined.

Lemma new_runtime_validates_witness : runtime_ok small_runtime.
Proof.
  pose proof (new_runtime_validates (H:=NeverCancel) 4 [0; 2; 1; 3] 0 3 [] default_limits 0%nat) as Hs.
  assert (new_runtime (H:=NeverCancel) 4 [0; 2; 1; 3] 0 3 [] default_limits 0%nat = (Ok small_runtime, 2%nat)) as E by (vm_compute; reflexivity).
  rewrite E in Hs. exact Hs.
Defined.
