(* ===== verification/Trace.v ===== *)
(** * State traces (native/src/store/trace.rs and the snapshots of state.rs)

    A trace is a JSON document that lists kernel operations; replaying it
    applies them one by one, audits the kernel after each and takes a canonical
    snapshot.  The JSON values are modelled here; the text parser and printer
    are those of serde_json and are parameters. *)

From stdpp Require Import pretty.
From S2P Require Import Prelude Order Errors Model Queue Store Kernel.
Import NativeErr.

(** ** JSON values *)

#[local] Unset Elimination Schemes.

(** A number is an integer: the visitor refuses floating-point tokens.  The
    fields of an object are a [BTreeMap], in ascending order of their names. *)
Inductive Value :=
| VNull
| VBool (b : bool)
| VNumber (n : Z)
| VString (s : string)
| VArray (items : list Value)
| VObject (fields : list (string * Value)).

Abbreviation Fields := (list (string * Value)).

Module Json.

Fixpoint get (fields : Fields) (name : string) : option Value :=
  match fields with
  | [] => None
  | (field, v) :: fields => if bool_decide (field = name) then Some v else get fields name
  end.

(** [map.insert(name, value)] for a name that is not in the map. *)
Fixpoint insert (name : string) (v : Value) (fields : Fields) : Fields :=
  match fields with
  | [] => [(name, v)]
  | (field, w) :: rest =>
      if bool_decide (ord_lt name field) then (name, v) :: fields else (field, w) :: insert name v rest
  end.

Definition as_object (v : Value) : option Fields := match v with VObject fields => Some fields | _ => None end.
Definition as_array (v : Value) : option (list Value) := match v with VArray items => Some items | _ => None end.
Definition as_str (v : Value) : option string := match v with VString s => Some s | _ => None end.
Definition as_bool (v : Value) : option bool := match v with VBool b => Some b | _ => None end.
Definition as_u64 (v : Value) : option N :=
  match v with
  | VNumber n => if (0 <=? n)%Z && (Z.to_N n <=? u64_max)%N then Some (Z.to_N n) else None
  | _ => None
  end.
Definition as_i64 (v : Value) : option Z :=
  match v with
  | VNumber n => if (- 2 ^ 63 <=? n)%Z && (n <? 2 ^ 63)%Z then Some n else None
  | _ => None
  end.

End Json.

(** ** What the deserializer hands to the visitor *)

Inductive Raw :=
| RNull
| RBool (b : bool)
| RInteger (n : Z)
| RFloat
| RString (s : string)
| RSeq (items : list Raw)
| RMap (fields : list (string * Raw)).

(** The methods of [UniqueValueVisitor] for sequences and maps; the error is the
    message of [de::Error::custom]. *)
Section visitor.
Context (deserialize : Raw → outcome string Value).

Fixpoint visit_seq (items : list Raw) (values : list Value) : outcome string Value :=
  match items with
  | [] => Ok (VArray values)
  | item :: items => v ← deserialize item; visit_seq items (values ++ [v])
  end.

Fixpoint visit_map (fields : list (string * Raw)) (names : gset string) (values : Fields) : outcome string Value :=
  match fields with
  | [] => Ok (VObject values)
  | (name, item) :: fields =>
      _ ← reject_if (bool_decide (name ∈ names)) ("duplicate JSON key '" +:+ name +:+ "'");
      v ← deserialize item;
      visit_map fields ({[name]} ∪ names) (Json.insert name v values)
  end.
End visitor.

Fixpoint unique_value (raw : Raw) : outcome string Value :=
  match raw with
  | RNull => Ok VNull
  | RBool b => Ok (VBool b)
  | RInteger n => Ok (VNumber n)
  | RFloat => Err "floating-point values are forbidden in state traces"
  | RString s => Ok (VString s)
  | RSeq items => visit_seq unique_value items []
  | RMap fields => visit_map unique_value fields ∅ []
  end.

(** ** Typed access to fields *)

Definition exact_fields (object : Fields) (required optional : list string) : NativeResult unit :=
  _ ← iterM (λ field, reject_if (bool_decide (Json.get object field = None))
        (wire ("state trace operation is missing field '" +:+ field +:+ "'"))) required;
  reject_if (existsb (λ field, negb (bool_decide (field ∈ required)) && negb (bool_decide (field ∈ optional))) object.*1)
    (wire "state trace object contains unknown fields").

Definition exact_object (value : Value) (required optional : list string) : NativeResult Fields :=
  object ← ok_or (Json.as_object value) (wire "state trace value must be an object");
  _ ← exact_fields object required optional;
  Ok object.

Definition required_object (values : Fields) (name : string) : NativeResult Fields :=
  ok_or (Json.get values name ≫= Json.as_object) (wire (name +:+ " must be an object")).

Definition required_array (values : Fields) (name : string) : NativeResult (list Value) :=
  ok_or (Json.get values name ≫= Json.as_array) (wire (name +:+ " must be an array")).

(** [.filter(|value| !value.is_empty())]. *)
Definition nonempty (s : string) : option string := if bool_decide (s = "") then None else Some s.

Definition required_string (values : Fields) (name : string) : NativeResult string :=
  ok_or ((Json.get values name ≫= Json.as_str) ≫= nonempty) (wire (name +:+ " must be a nonempty string")).

Definition value_u32 (value : Value) (name : string) : NativeResult N :=
  ok_or (Json.as_u64 value ≫= λ n, if (n <=? u32_max)%N then Some n else None)
    (wire (name +:+ " must be an unsigned 32-bit integer")).

Definition required_u32 (values : Fields) (name : string) : NativeResult N :=
  v ← ok_or (Json.get values name) (wire (name +:+ " is required"));
  value_u32 v name.

Definition optional_u32 (values : Fields) (name : string) : NativeResult (option N) :=
  match Json.get values name with
  | None | Some VNull => Ok None
  | Some value => n ← value_u32 value name; Ok (Some n)
  end.

Definition required_bool (values : Fields) (name : string) : NativeResult bool :=
  ok_or (Json.get values name ≫= Json.as_bool) (wire (name +:+ " must be bool")).

Definition optional_bool (values : Fields) (name : string) : NativeResult (option bool) :=
  match Json.get values name with
  | None => Ok None
  | Some value => ok_or (Some <$> Json.as_bool value) (wire (name +:+ " must be bool"))
  end.

Definition u32_array (values : list Value) : NativeResult (list N) :=
  collectM (λ value, value_u32 value "array item") values.

Definition i64_array (values : list Value) : NativeResult (list Z) :=
  collectM (λ value, ok_or (Json.as_i64 value) (wire "priority items must be signed 64-bit integers")) values.

Definition dependency (values : Fields) : NativeResult DependencySet :=
  items ← required_array values "dependency";
  levels ← u32_array items;
  Dep.new levels.

Definition optional_alias (value : option Value) (aliases : gmap string NodeHandle) : NativeResult (option NodeHandle) :=
  match value with
  | None | Some VNull => Ok None
  | Some (VString name) =>
      if bool_decide (name = "") then Err (wire "optional node alias must be a nonempty string or null")
      else ok_or (Some <$> aliases !! name) (wire ("unknown node alias '" +:+ name +:+ "'"))
  | Some _ => Err (wire "optional node alias must be a nonempty string or null")
  end.

(** ** Snapshots *)

Module Snapshot.

Definition number (n : N) : Value := VNumber (Z.of_N n).
Definition numbers (ns : list N) : Value := VArray (number <$> ns).
Definition opt {A} (f : A → Value) (o : option A) : Value := match o with Some a => f a | None => VNull end.

Definition handle_value (h : NodeHandle) : Value := numbers [slot h; generation h].

Definition lifecycle_name (l : NodeLifecycle) : string :=
  match l with Active => "active" | Merged => "merged" | Pruned => "pruned" | Retired => "retired" end.

Definition sort_name (s : NodeSort) : string := match s with Object => "object" | Data => "data" end.

Definition kind_name (k : NodeKind) : string :=
  match k with Root => "root" | Tree => "tree" | Ni => "ni" | Concrete => "concrete" end.

Definition dep_value (d : DependencySet) : Value := numbers (as_slice d).

Definition node_value (n : Node) : Value := VObject
  [ ("blocker", opt handle_value (n_blocker n));
    ("blocking_generation", number (n_blocking_generation n));
    ("cardinality_tag", opt number (n_cardinality_tag n));
    ("creation_id", number (n_creation_id n));
    ("directly_blocked", VBool (n_directly_blocked n));
    ("existentials", numbers (btree_elements (n_unprocessed_existentials n)));
    ("handle", handle_value (n_handle n));
    ("is_owl_named_individual", VBool (n_is_owl_named_individual n));
    ("kind", VString (kind_name (n_kind n)));
    ("lifecycle", VString (lifecycle_name (n_lifecycle n)));
    ("merge_dependency", dep_value (n_merge_dependency n));
    ("nominal_level", opt number (n_nominal_level n));
    ("parent", opt handle_value (n_parent n));
    ("representative", opt handle_value (n_representative n));
    ("sort", VString (sort_name (n_sort n)));
    ("source_individual_id", opt number (n_source_individual_id n));
    ("tree_depth", number (n_tree_depth n)) ].

Definition fact_value (r : FactRow) : Value := VObject
  [ ("arguments", VArray (handle_value <$> arguments (row_key r)));
    ("core", VBool (core r));
    ("generation", number (derivation_generation r));
    ("predicate_id", number (predicate_id (row_key r)));
    ("provenance_ids", numbers (btree_elements (provenance_ids r)));
    ("row_id", number (row_id r));
    ("supports", VArray (dep_value <$> supports r)) ].

Definition disjunction_value (d : GroundDisjunction) : Value := VObject
  [ ("active", VBool (d_active d));
    ("base_dependency", dep_value (d_base_dependency d));
    ("creation_checkpoint", number (d_creation_checkpoint d));
    ("disjunct_ids", numbers (disjunct_ids d));
    ("disjunction_id", number (disjunction_id d));
    ("processed", VBool (d_processed d)) ].

Definition clash_value (c : Clash) : Value := VObject
  [ ("dependency", dep_value (clash_dependency c));
    ("kind", VString (clash_kind c));
    ("participants", numbers (clash_participants c));
    ("provenance_id", opt number (clash_provenance_id c)) ].

Definition checkpoint_value (m : CheckpointMeta) : Value := VObject
  [ ("label", VString (meta_label m));
    ("sequence", number (meta_sequence m));
    ("trail_length", number (meta_trail_length m)) ].

Definition branch_value (b : Branch) : Value := VObject
  [ ("alternatives", numbers (alternatives b));
    ("base_dependency", dep_value (base_dependency b));
    ("checkpoint", checkpoint_value (checkpoint b));
    ("choice_kind", VString (choice_kind b));
    ("learned_dependency", dep_value (learned_dependency b));
    ("level", number (level b));
    ("next_alternative", number (N.of_nat (next_alternative b)));
    ("source_id", number (source_id b)) ].

Definition integer_queue_values (q : StableQueue) : Value :=
  numbers (omap (λ v, match v with Integer n => Some n | QNode _ => None end) (Queue.values q)).

Definition node_queue_values (q : StableQueue) : Value :=
  VArray (omap (λ v, match v with QNode h => Some (handle_value h) | Integer _ => None end) (Queue.values q)).

Definition logical_value (k : TableauKernel) : Value :=
  let s := state k in
  VObject
  [ ("branches", VArray (branch_value <$> branches k));
    ("clash", opt clash_value (current_clash s));
    ("delta", VObject [("read_generation", number (read_generation s)); ("write_generation", number (write_generation s))]);
    ("disjunctions", VArray (disjunction_value <$> disjunctions s));
    ("facts", VArray (fact_value <$> List.filter active (facts s)));
    ("nodes", VArray (node_value <$> filter (λ n, n_lifecycle n ≠ Retired) (live_nodes s)));
    ("queues", VObject
      [ ("annotated_equalities", integer_queue_values (annotated_equalities s));
        ("blocking_invalidations", node_queue_values (blocking_invalidations s));
        ("datatype_components", integer_queue_values (datatype_components s));
        ("delta_rows", integer_queue_values (delta_rows s));
        ("disjunctions", integer_queue_values (disjunction_queue s));
        ("existential_candidates", node_queue_values (existential_candidates s)) ]) ].

End Snapshot.

(** ** The runner *)

Record TraceRunner := mkRunner {
  tr_kernel : TableauKernel;
  tr_aliases : gmap string NodeHandle
}.

#[global] Instance TraceRunner_eta : Eta TraceRunner := λ r, mkRunner (tr_kernel r) (tr_aliases r).

Abbreviation T A := (st TraceRunner NativeError A).

Module Trace.

Definition STATE_TRACE_MAGIC : string := "PYHERMIT-STATE-TRACE".
Definition STATE_TRACE_VERSION : N := 1.
Definition MAX_TRACE_OPERATIONS : N := 10000.
Definition MAX_SNAPSHOT_BYTES : N := 128 * 1024 * 1024.

Definition new : TraceRunner := mkRunner TableauKernel_new ∅.

(** A call of a kernel method; its result is dropped by [.map(|_| ())]. *)
Definition run_kernel {A} (m : K A) : T A := λ r,
  let '(x, k') := m (tr_kernel r) in (x, mkRunner k' (tr_aliases r)).

Definition run_kernel_ {A} (m : K A) : T unit := _ ← run_kernel m; mret tt.

Definition alias (value : Value) (r : TraceRunner) : NativeResult NodeHandle :=
  name ← ok_or (Json.as_str value ≫= nonempty) (wire "node alias must be a nonempty string");
  ok_or (tr_aliases r !! name) (wire ("unknown node alias '" +:+ name +:+ "'")).

(** [self.alias(values.get(name).ok_or_else(error)?)?]. *)
Definition alias_field (values : Fields) (name : string) (error : NativeError) (r : TraceRunner) :
    NativeResult NodeHandle :=
  v ← ok_or (Json.get values name) error;
  alias v r.

Definition parse_kind (kind : string) : NativeResult NodeKind :=
  if bool_decide (kind = "root") then Ok Root
  else if bool_decide (kind = "tree") then Ok Tree
  else if bool_decide (kind = "ni") then Ok Ni
  else if bool_decide (kind = "concrete") then Ok Concrete
  else Err (wire "state trace node kind is unknown").

Definition create_node (values : Fields) : T unit :=
  _ ← lift (exact_fields values ["kind"; "name"]
    ["cardinality_tag"; "is_owl_named_individual"; "nominal_level"; "parent"; "source_individual_id"]);
  name ← lift (required_string values "name");
  r ← gets id;
  _ ← lift (reject_if (bool_decide (is_Some (tr_aliases r !! name))) (wire "state trace node alias already exists"));
  kind_name ← lift (required_string values "kind");
  kind ← lift (parse_kind kind_name);
  parent ← lift (optional_alias (Json.get values "parent") (tr_aliases r));
  named ← lift (optional_bool values "is_owl_named_individual");
  source ← lift (optional_u32 values "source_individual_id");
  nominal ← lift (optional_u32 values "nominal_level");
  tag ← lift (optional_u32 values "cardinality_tag");
  handle ← run_kernel (Kernel.create_node kind parent (default false named) source nominal tag);
  modify (λ r : TraceRunner, r <| tr_aliases ::= <[name := handle]> |>).

Definition add_fact (values : Fields) : T unit :=
  _ ← lift (exact_fields values ["arguments"; "dependency"; "predicate_id"] ["core"; "provenance_id"]);
  items ← lift (required_array values "arguments");
  args ← reads (λ r, collectM (λ v, alias v r) items);
  pid ← lift (required_u32 values "predicate_id");
  d ← lift (dependency values);
  is_core ← lift (optional_bool values "core");
  provenance ← lift (optional_u32 values "provenance_id");
  run_kernel_ (Kernel.add_fact pid args d (default false is_core) provenance).

Definition push_branch (values : Fields) : T unit :=
  _ ← lift (exact_fields values ["alternatives"; "choice_kind"; "dependency"; "source_id"] []);
  kind ← lift (required_string values "choice_kind");
  items ← lift (required_array values "alternatives");
  alts ← lift (u32_array items);
  sid ← lift (required_u32 values "source_id");
  d ← lift (dependency values);
  run_kernel_ (Kernel.push_branch kind alts sid d).

Definition advance_branch (values : Fields) : T unit :=
  _ ← lift (exact_fields values ["dependency"; "level"] []);
  lvl ← lift (required_u32 values "level");
  d ← lift (dependency values);
  run_kernel_ (Kernel.advance_branch lvl d).

Definition backtrack (values : Fields) : T unit :=
  _ ← lift (exact_fields values ["level"] []);
  lvl ← lift (required_u32 values "level");
  run_kernel (Kernel.backtrack_to lvl).

Definition merge (values : Fields) : T unit :=
  _ ← lift (exact_fields values ["dependency"; "left"; "right"] []);
  left ← reads (alias_field values "left" (wire "merge lacks left alias"));
  right ← reads (alias_field values "right" (wire "merge lacks right alias"));
  d ← lift (dependency values);
  run_kernel_ (Kernel.merge_nodes left right d).

Definition prune (values : Fields) : T unit :=
  _ ← lift (exact_fields values ["root"] []);
  root ← reads (alias_field values "root" (wire "prune lacks root alias"));
  run_kernel_ (Kernel.prune_subtree root).

Definition add_disjunction (values : Fields) : T unit :=
  _ ← lift (exact_fields values ["dependency"; "disjunct_ids"] []);
  items ← lift (required_array values "disjunct_ids");
  ids ← lift (u32_array items);
  d ← lift (dependency values);
  run_kernel_ (Kernel.add_disjunction ids d).

Definition participants_of (values : Fields) : NativeResult (list N) :=
  match Json.get values "participants" with
  | None => Ok []
  | Some value =>
      match Json.as_array value with
      | None => Err (wire "participants must be an array")
      | Some items => u32_array items
      end
  end.

Definition install_clash (values : Fields) : T unit :=
  _ ← lift (exact_fields values ["dependency"; "kind"] ["participants"; "provenance_id"]);
  participants ← lift (participants_of values);
  kind ← lift (required_string values "kind");
  d ← lift (dependency values);
  provenance ← lift (optional_u32 values "provenance_id");
  run_kernel_ (Kernel.install_clash kind d participants provenance).

Definition enqueue (values : Fields) : T unit :=
  _ ← lift (exact_fields values ["priority"; "queue"; "value"] []);
  queue ← lift (required_string values "queue");
  items ← lift (required_array values "priority");
  priority ← lift (i64_array items);
  value ← lift (ok_or (Json.get values "value") (wire "enqueue lacks a value"));
  if bool_decide (queue ∈ ["delta_rows"; "annotated_equalities"; "datatype_components"]) then
    n ← lift (value_u32 value "queue.value");
    run_kernel (Kernel.enqueue_integer queue n priority)
  else if bool_decide (queue ∈ ["existential_candidates"; "blocking_invalidations"]) then
    h ← reads (alias value);
    run_kernel (Kernel.enqueue_node queue h priority)
  else lift (Err (wire "state trace queue is unknown")).

Definition mark_existential (values : Fields) : T unit :=
  _ ← lift (exact_fields values ["existential_id"; "node"; "pending"] []);
  h ← reads (alias_field values "node" (wire "existential lacks node alias"));
  eid ← lift (required_u32 values "existential_id");
  pending ← lift (required_bool values "pending");
  run_kernel (Kernel.mark_existential h eid pending).

Definition set_blocked (values : Fields) : T unit :=
  _ ← lift (exact_fields values ["blocker"; "directly"; "node"] []);
  blocker ← reads (λ r, optional_alias (Json.get values "blocker") (tr_aliases r));
  h ← reads (alias_field values "node" (wire "blocking lacks node alias"));
  directly ← lift (required_bool values "directly");
  run_kernel (Kernel.set_blocked h blocker directly).

(** The [match kind] of [apply]. *)
Definition dispatch (kind : string) (arguments : Fields) : T unit :=
  if bool_decide (kind = "create_node") then create_node arguments
  else if bool_decide (kind = "begin_operation") then
    _ ← lift (exact_fields arguments [] []); run_kernel Kernel.begin_operation
  else if bool_decide (kind = "add_fact") then add_fact arguments
  else if bool_decide (kind = "prepare_delta") then
    _ ← lift (exact_fields arguments [] []); run_kernel Kernel.prepare_next_delta
  else if bool_decide (kind = "push_branch") then push_branch arguments
  else if bool_decide (kind = "advance_branch") then advance_branch arguments
  else if bool_decide (kind = "backtrack") then backtrack arguments
  else if bool_decide (kind = "merge") then merge arguments
  else if bool_decide (kind = "prune") then prune arguments
  else if bool_decide (kind = "add_disjunction") then add_disjunction arguments
  else if bool_decide (kind = "take_disjunction") then
    _ ← lift (exact_fields arguments [] []); run_kernel_ Kernel.take_disjunction
  else if bool_decide (kind = "install_clash") then install_clash arguments
  else if bool_decide (kind = "enqueue") then enqueue arguments
  else if bool_decide (kind = "mark_existential") then mark_existential arguments
  else if bool_decide (kind = "set_blocked") then set_blocked arguments
  else if bool_decide (kind = "check") then
    _ ← lift (exact_fields arguments [] []); run_kernel (reads Kernel.check_invariants)
  else lift (Err (version ("unknown state operation '" +:+ kind +:+ "'"))).

Definition apply (operation : Value) : T unit :=
  value ← lift (exact_object operation ["arguments"; "kind"] []);
  kind ← lift (required_string value "kind");
  arguments ← lift (required_object value "arguments");
  dispatch kind arguments.

Section run.
(** [serde_json::to_string], the printer of a value. *)
Context (to_string : Value → NativeResult string).

Definition canonical_snapshot (k : TableauKernel) : NativeResult string :=
  _ ← Kernel.check_invariants k;
  to_string (Snapshot.logical_value k).

Definition operation_limit (observed : N) : NativeError :=
  with_context (with_context (with_context
    (NativeErr.new Resource "NATIVE_TRACE_OPERATION_LIMIT" "state trace exceeds the native operation limit")
    "limit" "state_trace_operations") "observed" (pretty observed)) "allowed" (pretty MAX_TRACE_OPERATIONS).

Definition output_limit (observed : N) : NativeError :=
  with_context (with_context (with_context
    (NativeErr.new Resource "NATIVE_TRACE_OUTPUT_LIMIT" "state trace snapshots exceed the native output limit")
    "limit" "state_trace_snapshot_bytes") "observed" (pretty observed)) "allowed" (pretty MAX_SNAPSHOT_BYTES).

(** One turn of the loop of [run]: the snapshots and their size so far. *)
Definition replay_operation (acc : list string * N) (operation : Value) : T (list string * N) :=
  let '(snapshots, bytes) := acc in
  _ ← apply operation;
  _ ← reads (λ r, Kernel.check_invariants (tr_kernel r));
  snapshot ← reads (λ r, canonical_snapshot (tr_kernel r));
  bytes ← lift (ok_or (checked_add u64_max bytes (N.of_nat (String.length snapshot)))
    (invariant "state trace snapshot size overflow"));
  _ ← lift (reject_if (MAX_SNAPSHOT_BYTES <? bytes)%N (output_limit bytes));
  mret (snapshots ++ [snapshot], bytes).

Definition run (document : Value) : T (list string) :=
  root ← lift (exact_object document ["magic"; "operations"; "version"] []);
  magic ← lift (required_string root "magic");
  _ ← lift (reject_if (negb (bool_decide (magic = STATE_TRACE_MAGIC))) (version "state trace magic is invalid"));
  v ← lift (required_u32 root "version");
  _ ← lift (reject_if (negb (v =? STATE_TRACE_VERSION)%N) (version "state trace version is unsupported"));
  operations ← lift (required_array root "operations");
  _ ← lift (reject_if (MAX_TRACE_OPERATIONS <? N.of_nat (length operations))%N
    (operation_limit (N.of_nat (length operations))));
  acc ← foldST replay_operation operations ([], 0);
  mret acc.1.

(** [serde_json]'s reading of the text, as the events its visitor gets. *)
Context (parse : string → outcome string Raw).
(** How it displays an error of the visitor, with its position in the text. *)
Context (locate : string → string).

(** [replay_state_trace] on a payload that is valid UTF-8. *)
Definition replay_state_trace (text : string) : NativeResult (list string) :=
  raw ← (match parse text with
         | Err message => Err (wire ("invalid canonical JSON: " +:+ message))
         | Ok raw => Ok raw | Crash => Crash
         end);
  document ← (match unique_value raw with
         | Err message => Err (wire ("invalid canonical JSON: " +:+ locate message))
         | Ok document => Ok document | Crash => Crash
         end);
  (run document new).1.
End run.

End Trace.
