(* ===== verification/TraceSpec.v ===== *)
(** * Correctness of trace replay

    Every operation of a trace is one public operation of the kernel, so every
    kernel that a replay snapshots is reachable and has passed the audit. *)

From S2P Require Import Prelude Order Errors Model Queue Store Kernel KernelBase Arena Facts FactOps StateInv NodeOps Merge Prune KernelInv Totality AuditSpec Trace.

(** ** The accessors return *)

Lemma exact_fields_not_crash fields req opt : exact_fields fields req opt ≠ Crash.
Proof.
  unfold exact_fields. apply bind_not_crash; [apply iterM_not_crash; intros; apply reject_if_not_crash|].
  intros _ _. apply reject_if_not_crash.
Qed.

Lemma value_u32_not_crash v name : value_u32 v name ≠ Crash.
Proof. apply ok_or_not_crash. Qed.

Lemma required_string_not_crash fields name : required_string fields name ≠ Crash.
Proof. apply ok_or_not_crash. Qed.

Lemma required_array_not_crash fields name : required_array fields name ≠ Crash.
Proof. apply ok_or_not_crash. Qed.

Lemma required_object_not_crash fields name : required_object fields name ≠ Crash.
Proof. apply ok_or_not_crash. Qed.

Lemma required_bool_not_crash fields name : required_bool fields name ≠ Crash.
Proof. apply ok_or_not_crash. Qed.

Lemma required_u32_not_crash fields name : required_u32 fields name ≠ Crash.
Proof. apply bind_not_crash; [apply ok_or_not_crash|]. intros v _. apply value_u32_not_crash. Qed.

Lemma optional_u32_not_crash fields name : optional_u32 fields name ≠ Crash.
Proof.
  unfold optional_u32. destruct (Json.get fields name) as [[]|]; try done;
    (apply bind_not_crash; [apply value_u32_not_crash|done]).
Qed.

Lemma optional_bool_not_crash fields name : optional_bool fields name ≠ Crash.
Proof. unfold optional_bool. destruct (Json.get fields name); [apply ok_or_not_crash|done]. Qed.

Lemma u32_array_not_crash items : u32_array items ≠ Crash.
Proof. apply collectM_not_crash. intros v _. apply value_u32_not_crash. Qed.

Lemma i64_array_not_crash items : i64_array items ≠ Crash.
Proof. apply collectM_not_crash. intros v _. apply ok_or_not_crash. Qed.

Lemma dependency_not_crash fields : dependency fields ≠ Crash.
Proof.
  apply bind_not_crash; [apply ok_or_not_crash|]. intros items _.
  apply bind_not_crash; [apply u32_array_not_crash|]. intros levels _. unfold Dep.new. by case_match.
Qed.

Lemma dependency_canonical fields d : dependency fields = Ok d → canonical d.
Proof.
  unfold dependency. intros (items & _ & H)%outcome_bind_Ok. apply outcome_bind_Ok in H as (ls & _ & H).
  unfold Dep.new in H. case_match eqn:E; [|done]. injection H as <-. by apply strictly_ascending_spec.
Qed.

Lemma optional_alias_not_crash v aliases : optional_alias v aliases ≠ Crash.
Proof.
  unfold optional_alias. destruct v as [[]|]; try done. case_bool_decide; [done|apply ok_or_not_crash].
Qed.

Lemma alias_not_crash v r : Trace.alias v r ≠ Crash.
Proof. apply bind_not_crash; [apply ok_or_not_crash|]. intros. apply ok_or_not_crash. Qed.

Lemma alias_field_not_crash fields name e r : Trace.alias_field fields name e r ≠ Crash.
Proof. apply bind_not_crash; [apply ok_or_not_crash|]. intros. apply alias_not_crash. Qed.

Lemma participants_not_crash fields : Trace.participants_of fields ≠ Crash.
Proof.
  unfold Trace.participants_of. destruct (Json.get _ _) as [v|]; [|done]. destruct (Json.as_array v); [apply u32_array_not_crash|done].
Qed.

Lemma parse_kind_not_crash kind : Trace.parse_kind kind ≠ Crash.
Proof. unfold Trace.parse_kind. by repeat case_bool_decide. Qed.

#[global] Hint Resolve required_string_not_crash required_array_not_crash required_object_not_crash
  required_bool_not_crash collectM_not_crash exact_fields_not_crash value_u32_not_crash required_u32_not_crash optional_u32_not_crash
  optional_bool_not_crash u32_array_not_crash i64_array_not_crash dependency_not_crash optional_alias_not_crash
  alias_not_crash alias_field_not_crash participants_not_crash parse_kind_not_crash ok_or_not_crash
  reject_if_not_crash : tableau.

(** ** Handlers *)

(** [m] either leaves the runner alone, or is one operation of the kernel. *)
Definition handled (m : T unit) : Prop := ∀ r, wf (tr_kernel r) →
  ((m r).2 = r ∧ (m r).1 ≠ Crash) ∨
  ∃ op, op_ok op ∧ tr_kernel (m r).2 = (perform op (tr_kernel r)).2 ∧
    match (perform op (tr_kernel r)).1 with
    | Ok _ => (m r).1 = Ok tt
    | Err e => (m r).1 = Err e
    | Crash => (m r).1 = Crash
    end.

Lemma handled_lift {A} (x : NativeResult A) (f : A → T unit) :
  x ≠ Crash → (∀ a, x = Ok a → handled (f a)) → handled (lift x ≫= f).
Proof.
  intros Hx Hf r Hr. unfold mbind, st_bind, lift. destruct x as [a|e|]; [by apply Hf|by left|done].
Qed.

Lemma handled_reads {A} (g : TraceRunner → NativeResult A) (f : A → T unit) :
  (∀ r, g r ≠ Crash) → (∀ a, handled (f a)) → handled (reads g ≫= f).
Proof.
  intros Hg Hf r Hr. unfold mbind, st_bind, reads. specialize (Hg r). destruct (g r) as [a|e|]; [by apply Hf|by left|done].
Qed.

Lemma handled_gets {A} (g : TraceRunner → A) (f : A → T unit) : (∀ a, handled (f a)) → handled (gets g ≫= f).
Proof. intros Hf r Hr. by apply Hf. Qed.

Lemma handled_error e : handled (lift (Err e)).
Proof. intros r _. by left. Qed.

(** A kernel call is the operation it performs. *)
Lemma handled_run_ {A} (m : K A) op : op_ok op → perform op = quiet m → handled (Trace.run_kernel_ m).
Proof.
  intros Hop E r Hr. right. exists op. split; [done|]. rewrite E.
  unfold Trace.run_kernel_, Trace.run_kernel, quiet, mbind, st_bind.
  destruct (m (tr_kernel r)) as [[a|e|] k']; done.
Qed.

Lemma handled_run (m : K unit) op : op_ok op → perform op = quiet m → handled (Trace.run_kernel m).
Proof.
  intros Hop E r Hr. right. exists op. split; [done|]. rewrite E.
  unfold Trace.run_kernel, quiet, mbind, st_bind. destruct (m (tr_kernel r)) as [[[]|e|] k']; done.
Qed.

(** Steps over the parsing of the arguments. *)
Ltac handle_steps :=
  repeat first
    [ apply handled_error
    | apply handled_gets; intros ?
    | apply handled_lift; [by auto with tableau|intros ? ?]
    | apply handled_reads; [by intros; auto with tableau|intros ?] ].

Lemma handled_create_node fields : handled (Trace.create_node fields).
Proof.
  unfold Trace.create_node. handle_steps. intros r Hr. right.
  match goal with |- context [Kernel.create_node ?k ?p ?n ?s ?o ?t] => exists (OpCreateNode k p n s o t) end.
  split; [done|]. cbn [perform]. unfold Trace.run_kernel, mbind, st_bind.
  destruct (Kernel.create_node _ _ _ _ _ _ (tr_kernel r)) as [[h|e|] k']; done.
Qed.

Lemma handled_enqueue fields : handled (Trace.enqueue fields).
Proof.
  unfold Trace.enqueue. handle_steps. repeat case_bool_decide; handle_steps.
  - by eapply (handled_run _ (OpEnqueueInteger _ _ _)).
  - by eapply (handled_run _ (OpEnqueueNode _ _ _)).
Qed.

Lemma handled_dispatch kind fields : handled (Trace.dispatch kind fields).
Proof.
  unfold Trace.dispatch. repeat (case_bool_decide; [shelve|]). apply handled_error.
  Unshelve.
  - apply handled_create_node.
  - handle_steps. by apply (handled_run _ OpBegin).
  - unfold Trace.add_fact. handle_steps. eapply (handled_run_ _ (OpAddFact _ _ _ _ _)); [|done]. by eapply dependency_canonical.
  - handle_steps. by apply (handled_run _ OpPrepareNextDelta).
  - unfold Trace.push_branch. handle_steps. eapply (handled_run_ _ (OpPushBranch _ _ _ _)); [|done]. by eapply dependency_canonical.
  - unfold Trace.advance_branch. handle_steps. by eapply (handled_run_ _ (OpAdvanceBranch _ _)).
  - unfold Trace.backtrack. handle_steps. by eapply (handled_run _ (OpBacktrackTo _)).
  - unfold Trace.merge. handle_steps. eapply (handled_run_ _ (OpMerge _ _ _)); [|done]. by eapply dependency_canonical.
  - unfold Trace.prune. handle_steps. by eapply (handled_run_ _ (OpPrune _)).
  - unfold Trace.add_disjunction. handle_steps. eapply (handled_run_ _ (OpAddDisjunction _ _)); [|done]. by eapply dependency_canonical.
  - handle_steps. by apply (handled_run_ _ OpTakeDisjunction).
  - unfold Trace.install_clash. handle_steps. eapply (handled_run_ _ (OpInstallClash _ _ _ _)); [|done]. by eapply dependency_canonical.
  - apply handled_enqueue.
  - unfold Trace.mark_existential. handle_steps. by eapply (handled_run _ (OpMarkExistential _ _ _)).
  - unfold Trace.set_blocked. handle_steps. by eapply (handled_run _ (OpSetBlocked _ _ _)).
  - handle_steps. intros r Hr. left. unfold Trace.run_kernel, reads.
    pose proof (check_invariants_not_crash (tr_kernel r) (arena_length _ _ (state_arena _ _ (wf_state _ Hr)))) as Hc.
    destruct r as [k al]. done.
Qed.

Lemma exact_object_not_crash v req opt : exact_object v req opt ≠ Crash.
Proof.
  apply bind_not_crash; [apply ok_or_not_crash|]. intros fields _.
  apply bind_not_crash; [apply exact_fields_not_crash|done].
Qed.

#[global] Hint Resolve exact_object_not_crash : tableau.

Lemma handled_apply operation : handled (Trace.apply operation).
Proof. unfold Trace.apply. handle_steps. apply handled_dispatch. Qed.

(** ** Replay *)

(** A validation step: errors are let through. *)
Lemma lift_then {A B} (Q : NativeResult B → Prop) (x : NativeResult A) (f : A → T B) r :
  x ≠ Crash → (∀ e, Q (Err e)) → (∀ a, x = Ok a → Q (f a r).1) → Q ((lift x ≫= f) r).1.
Proof. intros Hx He Hf. unfold mbind, st_bind, lift. destruct x as [a|e|]; [by apply Hf|apply He|done]. Qed.

Section replay.
Context (to_string : Value → NativeResult string).
Hypothesis to_string_returns : ∀ v, to_string v ≠ Crash.

(** A snapshot of a reachable kernel that passed the audit. *)
Definition audited (snapshot : string) (k : TableauKernel) : Prop :=
  reachable k ∧ Kernel.check_invariants k = Ok tt ∧ to_string (Snapshot.logical_value k) = Ok snapshot.

Lemma apply_reachable operation r u r' :
  reachable (tr_kernel r) → Trace.apply operation r = (Ok u, r') → reachable (tr_kernel r').
Proof.
  intros Hr H. destruct (handled_apply operation r (reachable_wf _ Hr)) as [[E _]|(op & Hop & Ek & Eo)]; rewrite H in *; cbn in *.
  - by subst.
  - destruct (perform op (tr_kernel r)) as [[hs|e|] k'] eqn:Ep; cbn in *; [|done|done]. rewrite Ek. by eapply reachable_step.
Qed.

Lemma apply_returns operation r : reachable (tr_kernel r) → (Trace.apply operation r).1 ≠ Crash.
Proof.
  intros Hr%reachable_wf. destruct (handled_apply operation r Hr) as [[_ Hn]|(op & _ & _ & Eo)]; [done|].
  pose proof (perform_returns op _ Hr) as Hp. by destruct (perform op (tr_kernel r)) as [[hs|e|] k']; cbn in *; rewrite ?Eo.
Qed.

(** What one turn of the loop does, however it ends. *)
Lemma replay_operation_spec acc operation r :
  reachable (tr_kernel r) →
  match Trace.replay_operation to_string acc operation r with
  | (Ok acc', r') => reachable (tr_kernel r') ∧ ∃ s, acc'.1 = acc.1 ++ [s] ∧ audited s (tr_kernel r')
  | (Err _, _) => True
  | (Crash, _) => False
  end.
Proof.
  intros Hr. unfold Trace.replay_operation. destruct acc as [snapshots bytes].
  unfold mbind at 1, st_bind at 1. pose proof (apply_returns operation r Hr) as Ha.
  destruct (Trace.apply operation r) as [[[]|e|] r1] eqn:E; [|done|done]. apply apply_reachable in E; [|done].
  unfold mbind at 1, st_bind at 1, reads at 1.
  pose proof (check_invariants_not_crash (tr_kernel r1) (arena_length _ _ (state_arena _ _ (wf_state _ (reachable_wf _ E))))) as Hc.
  destruct (Kernel.check_invariants (tr_kernel r1)) as [[]|e|] eqn:Ec; [|done|done].
  unfold mbind at 1, st_bind at 1, reads at 1, Trace.canonical_snapshot. rewrite Ec, bind_Ok_l.
  pose proof (to_string_returns (Snapshot.logical_value (tr_kernel r1))) as Hts.
  destruct (to_string (Snapshot.logical_value (tr_kernel r1))) as [s|e|] eqn:Es; [|done|done].
  unfold mbind at 1, st_bind at 1, lift at 1. destruct (checked_add _ _ _); [|done]. cbn [ok_or].
  unfold mbind at 1, st_bind at 1, lift at 1, reject_if. destruct (_ <? _); [done|]. cbn. split; [done|].
  exists s. split; [done|]. by split_and!.
Qed.

Lemma replay_loop_spec operations acc ks r :
  reachable (tr_kernel r) → Forall2 audited acc.1 ks →
  match foldST (Trace.replay_operation to_string) operations acc r with
  | (Ok acc', r') => ∃ ks', Forall2 audited acc'.1 (ks ++ ks') ∧ length ks' = length operations
  | (Err _, _) => True
  | (Crash, _) => False
  end.
Proof.
  revert acc ks r. induction operations as [|operation operations IH]; intros acc ks r Hr Hks; cbn [foldST].
  { exists []. by rewrite app_nil_r. }
  unfold mbind, st_bind. pose proof (replay_operation_spec acc operation r Hr) as Hs.
  destruct (Trace.replay_operation to_string acc operation r) as [[acc1|e|] r1]; [|done|done].
  destruct Hs as (Hr1 & s & E1 & Haud).
  specialize (IH acc1 (ks ++ [tr_kernel r1]) r1 Hr1).
  destruct (foldST (Trace.replay_operation to_string) operations acc1 r1) as [[acc2|e|] r2].
  - destruct IH as (ks' & Hks' & Hl). { rewrite E1. apply Forall2_app; [done|]. by constructor. }
    exists (tr_kernel r1 :: ks'). split; [by rewrite <-app_assoc in Hks'|cbn; lia].
  - done.
  - apply IH. rewrite E1. apply Forall2_app; [done|]. by constructor.
Qed.

Lemma run_spec document :
  match (Trace.run to_string document Trace.new).1 with
  | Ok snapshots => ∃ ks operations,
      Json.get (default [] (Json.as_object document)) "operations" = Some (VArray operations) ∧
      length ks = length operations ∧ Forall2 audited snapshots ks
  | Err _ => True
  | Crash => False
  end.
Proof.
  unfold Trace.run. apply lift_then; [by auto with tableau|done|]. intros root E0.
  assert (Json.as_object document = Some root) as Eroot.
  { unfold exact_object in E0. apply outcome_bind_Ok in E0 as (o & Ho%ok_or_Ok & E0).
    apply outcome_bind_Ok in E0 as (? & _ & [= <-]). done. }
  do 4 (apply lift_then; [by auto with tableau|done|]; intros ? _).
  apply lift_then; [by auto with tableau|done|]. intros ops E5.
  apply lift_then; [by auto with tableau|done|]. intros _ _.
  unfold mbind, st_bind.
  pose proof (replay_loop_spec ops ([], 0) [] Trace.new reachable_new (Forall2_nil_2 _ _ _)) as Hl.
  destruct (foldST _ ops ([], 0) Trace.new) as [[acc|e|] r']; cbn; [|done|done].
  destruct Hl as (ks & Hks & Hlen). exists ks, ops. split_and!; [|done|done]. rewrite Eroot.
  unfold required_array in E5. apply ok_or_Ok, bind_Some in E5 as (v' & Hv' & Hv). destruct v'; try discriminate Hv.
  injection Hv as <-. exact Hv'.
Qed.
End replay.

(** ** Documents without duplicate keys *)

(** The fields of every object are in strictly ascending order. *)
Fixpoint distinct_keys (v : Value) : bool :=
  match v with
  | VArray items => forallb distinct_keys items
  | VObject fields => strictly_ascending fields.*1 && forallb (λ field, distinct_keys field.2) fields
  | _ => true
  end.

(** No floating-point token, and no key twice in one object. *)
Fixpoint acceptable (raw : Raw) : bool :=
  match raw with
  | RFloat => false
  | RSeq items => forallb acceptable items
  | RMap fields => bool_decide (NoDup fields.*1) && forallb (λ field, acceptable field.2) fields
  | _ => true
  end.

Lemma insert_fields name v fields x : x ∈ (Json.insert name v fields).*1 ↔ x = name ∨ x ∈ fields.*1.
Proof.
  induction fields as [|[field w] fields IH]; csimpl; [set_solver|]. case_bool_decide; csimpl; [set_solver|].
  rewrite !elem_of_cons, IH. tauto.
Qed.

Lemma insert_ascending name v fields :
  StronglySorted ord_lt fields.*1 → name ∉ fields.*1 → StronglySorted ord_lt (Json.insert name v fields).*1.
Proof.
  induction fields as [|[field w] fields IH]; csimpl; intros Hs Hn; [repeat constructor|].
  pose proof Hs as [Hs' Hf]%StronglySorted_inv. rewrite Forall_forall in Hf. case_bool_decide as Hlt; csimpl.
  - constructor; [done|]. apply Forall_forall. intros x [->|Hx]%elem_of_cons; [done|]. transitivity field; auto.
  - constructor; [apply IH; set_solver|]. apply Forall_forall. intros x [->|Hx]%insert_fields; [|auto].
    destruct (decide (ord_le name field)) as [Hle|Hle]; [|by apply ord_not_le].
    apply ord_le_lt_eq in Hle as [| ->]; [done|set_solver].
Qed.

Lemma insert_distinct name v fields :
  distinct_keys v = true → forallb (λ field, distinct_keys field.2) fields = true →
  forallb (λ field, distinct_keys field.2) (Json.insert name v fields) = true.
Proof.
  intros Hv. induction fields as [|[field w] fields IH]; cbn; intros Hf; [by rewrite Hv|].
  apply andb_true_iff in Hf as [Hw Hf]. case_bool_decide; cbn; rewrite ?Hv, Hw; auto.
Qed.

Lemma insert_perm name v fields : Json.insert name v fields ≡ₚ (name, v) :: fields.
Proof.
  induction fields as [|[field w] fields IH]; cbn; [done|]. case_bool_decide; [done|].
  rewrite IH. by constructor.
Qed.

(** The value that a document stands for, up to the order of fields. *)
Inductive denotes : Raw → Value → Prop :=
| denotes_null : denotes RNull VNull
| denotes_bool b : denotes (RBool b) (VBool b)
| denotes_integer n : denotes (RInteger n) (VNumber n)
| denotes_string s : denotes (RString s) (VString s)
| denotes_seq items values : Forall2 denotes items values → denotes (RSeq items) (VArray values)
| denotes_map fields values sorted :
    Forall2 (λ field value, field.1 = value.1 ∧ denotes field.2 value.2) fields values → sorted ≡ₚ values →
    denotes (RMap fields) (VObject sorted).

(** What the visitor answers: a value with ascending keys that satisfies [P],
    exactly for an acceptable document. *)
Definition visited (P : Value → Prop) (accepted : bool) (r : outcome string Value) : Prop :=
  match r with
  | Ok v => accepted = true ∧ distinct_keys v = true ∧ P v
  | Err _ => accepted = false
  | Crash => False
  end.

Lemma visited_mono (P Q : Value → Prop) accepted r : (∀ v, P v → Q v) → visited P accepted r → visited Q accepted r.
Proof. destruct r; cbn; [|done|done]. intros HPQ (? & ? & ?). auto. Qed.

Lemma visit_seq_spec items values :
  Forall (λ raw, visited (denotes raw) (acceptable raw) (unique_value raw)) items → forallb distinct_keys values = true →
  visited (λ v, ∃ vs, v = VArray (values ++ vs) ∧ Forall2 denotes items vs)
    (forallb acceptable items) (visit_seq unique_value items values).
Proof.
  intros Hall. revert values. induction Hall as [|item items Hi _ IH]; intros values Hv; cbn.
  { split_and!; [done|done|]. exists []. by rewrite app_nil_r. }
  destruct (unique_value item) as [v|e|]; cbn in Hi; [|by rewrite Hi|done].
  destruct Hi as (-> & Hd & Hv1). cbn. eapply visited_mono; [|apply IH].
  - intros ? (vs & -> & Hvs). exists (v :: vs). rewrite <-app_assoc. split; [done|by constructor].
  - by rewrite forallb_app, Hv; cbn; rewrite Hd.
Qed.

Lemma visit_map_spec fields names values :
  Forall (λ field, visited (denotes field.2) (acceptable field.2) (unique_value field.2)) fields →
  StronglySorted ord_lt values.*1 → (∀ x, x ∈ values.*1 ↔ x ∈ names) →
  forallb (λ field, distinct_keys field.2) values = true →
  visited (λ v, ∃ vs sorted, v = VObject sorted ∧ sorted ≡ₚ vs ++ values ∧
      Forall2 (λ field value, field.1 = value.1 ∧ denotes field.2 value.2) fields vs)
    (bool_decide (NoDup fields.*1 ∧ Forall (.∉ names) fields.*1) && forallb (λ field, acceptable field.2) fields)
    (visit_map unique_value fields names values).
Proof.
  intros Hall. revert names values. induction Hall as [|[name item] fields Hi _ IH]; intros names values Hs Hn Hv.
  { rewrite bool_decide_eq_true_2 by (split; constructor). cbn [visit_map visited distinct_keys andb forallb].
    split; [done|]. split; [by rewrite (proj2 (strictly_ascending_spec _) Hs), Hv|]. by exists [], values. }
  cbn [visit_map]. destruct (decide (name ∈ names)) as [Hdup|Hdup];
    [rewrite (bool_decide_eq_true_2 (name ∈ names)) by done|rewrite (bool_decide_eq_false_2 (name ∈ names)) by done];
    cbn [reject_if].
  { rewrite bool_decide_eq_false_2; [exact eq_refl|]. intros [_ Hno]. csimpl in *. by apply Forall_cons in Hno as [? _]. }
  rewrite bind_Ok_l. cbn in Hi. destruct (unique_value item) as [v|e|]; [| |done].
  2: { cbn in Hi. cbn [forallb snd]. rewrite Hi, andb_false_r. exact eq_refl. }
  destruct Hi as (Ha & Hd & Hden). rewrite bind_Ok_l.
  specialize (IH ({[name]} ∪ names) (Json.insert name v values)).
  assert (bool_decide (NoDup fields.*1 ∧ Forall (.∉ {[name]} ∪ names) fields.*1) =
    bool_decide (NoDup ((name, item) :: fields).*1 ∧ Forall (.∉ names) ((name, item) :: fields).*1)) as E.
  { apply bool_decide_ext. csimpl. rewrite NoDup_cons, Forall_cons, !Forall_forall. split.
    - intros [Hnd Hno]. split_and!; [intros Hin; apply (Hno _ Hin); set_solver|done|done|]. set_solver.
    - intros [[Hnin Hnd] [_ Hno]]. split; [done|]. set_solver. }
  rewrite <-E. cbn [forallb snd]. rewrite Ha. cbn [andb]. eapply visited_mono; [|apply IH].
  - intros ? (vs & sorted & -> & Hp & Hvs). exists ((name, v) :: vs), sorted. split; [done|].
    split; [|by constructor]. rewrite Hp, insert_perm. symmetry. apply Permutation_middle.
  - apply insert_ascending; [done|]. by rewrite Hn.
  - intros x. rewrite insert_fields, Hn. set_solver.
  - by apply insert_distinct.
Qed.

Lemma unique_value_spec : ∀ raw, visited (denotes raw) (acceptable raw) (unique_value raw).
Proof.
  fix IH 1. intros [| | | | |items|fields];
    [by split_and!; constructor|by split_and!; constructor|by split_and!; constructor|reflexivity|by split_and!; constructor| |].
  - assert (Forall (λ raw, visited (denotes raw) (acceptable raw) (unique_value raw)) items) as Hall.
    { induction items as [|item items IHl]; constructor; [apply IH|apply IHl]. }
    eapply visited_mono; [|apply (visit_seq_spec items []); [exact Hall|reflexivity]].
    intros v (vs & -> & Hvs). by constructor.
  - assert (Forall (λ field, visited (denotes field.2) (acceptable field.2) (unique_value field.2)) fields) as Hall.
    { induction fields as [|[name item] fields IHl]; constructor; [apply IH|apply IHl]. }
    pose proof (visit_map_spec fields ∅ [] Hall) as Hs. cbn [acceptable].
    match type of Hs with context [?b && _] => replace (bool_decide (NoDup fields.*1)) with b end.
    + eapply visited_mono; [|apply Hs; [constructor|set_solver|reflexivity]].
      intros v (vs & sorted & -> & Hp & Hvs). rewrite app_nil_r in Hp. by econstructor.
    + apply bool_decide_ext. rewrite Forall_forall. set_solver.
Qed.

(** * Theorems about trace replay *)

(** Replaying any document returns, and when it succeeds there is one
    snapshot per operation, each the printed state of a kernel that public
    operations reach and that passed the audit.  The printer is only required
    to return. *)
Theorem replay_snapshots_audited (to_string : Value → NativeResult string) document :
  (∀ v, to_string v ≠ Crash) →
  match (Trace.run to_string document Trace.new).1 with
  | Ok snapshots => ∃ ks operations,
      Json.get (default [] (Json.as_object document)) "operations" = Some (VArray operations) ∧
      length ks = length operations ∧
      Forall2 (λ snapshot k, reachable k ∧ Kernel.check_invariants k = Ok tt ∧
        to_string (Snapshot.logical_value k) = Ok snapshot) snapshots ks
  | Err _ => True
  | Crash => False
  end.
Proof. intros Hts. apply (run_spec to_string Hts document). Qed.

(** Two roots that are merged. *)
Definition root_operation (name : string) : Value :=
  VObject [("arguments", VObject [("kind", VString "root"); ("name", VString name)]); ("kind", VString "create_node")].

Definition merge_document : Value := VObject
  [ ("magic", VString "PYHERMIT-STATE-TRACE");
    ("operations", VArray
      [ root_operation "a"; root_operation "b";
        VObject [("arguments", VObject [("dependency", VArray []); ("left", VString "a"); ("right", VString "b")]);
                 ("kind", VString "merge")] ]);
    ("version", VNumber 1) ].

(** A printer that shows the kind of value. *)
Definition kind_printer (v : Value) : NativeResult string :=
  match v with VObject _ => Ok "object" | VArray _ => Ok "array" | _ => Ok "scalar" end.

Lemma replay_snapshots_audited_witness :
  ∃ ks operations,
    Json.get (default [] (Json.as_object merge_document)) "operations" = Some (VArray operations) ∧
    length ks = length operations ∧
    Forall2 (λ snapshot k, reachable k ∧ Kernel.check_invariants k = Ok tt ∧
      kind_printer (Snapshot.logical_value k) = Ok snapshot) ["object"; "object"; "object"]%string ks.
Proof.
  pose proof (replay_snapshots_audited kind_printer merge_document ltac:(by intros [])) as H.
  replace (Trace.run kind_printer merge_document Trace.new).1 with (Ok (E:=NativeError) ["object"; "object"; "object"]%string) in H
    by (vm_compute; reflexivity).
  exact H.
Defined.

(** The trace reader accepts exactly the JSON documents without
    floating-point tokens and without a key that occurs twice in an object, and
    what it builds is the document's value, with the fields of every object in
    ascending order. *)
Theorem unique_value_accepts raw :
  match unique_value raw with
  | Ok v => acceptable raw = true ∧ distinct_keys v = true ∧ denotes raw v
  | Err _ => acceptable raw = false
  | Crash => False
  end.
Proof. apply (unique_value_spec raw). Qed.
