(* ===== verification/Nominals.v ===== *)
(** * Nominal introduction (native/src/nominals/mod.rs)

    An annotated equality says that two nodes are equal or equal to one of
    finitely many nominal roots.  The manager takes queued annotated equalities,
    forgets the annotation where plain equality suffices, and otherwise opens a
    branch over the roots; on a clash it advances the branch.  Kernel and manager
    are checkpointed together. *)

From S2P Require Import Prelude Order Errors Model Queue Store Kernel Cancel Branching RuleModel Merging.
From S2P Require Import RulePlans Joins RuleEngine.
Import NativeErr.

Record NominalLimits := mkNominalLimits { max_branch_choices : N; max_actions_per_run : N }.

Record NominalRootKey := mkRootKey {
  rk_root : NodeHandle;
  rk_predicate_id : N;
  rk_role_id : N;
  rk_filler_predicate_id : N;
  rk_cardinality : N;
  rk_level : N
}.

#[global] Instance NominalRootKey_eq_dec : EqDecision NominalRootKey.
Proof. solve_decision. Defined.

(** The derived order: by fields. *)
Definition root_key_fields (k : NominalRootKey) : NodeHandle * N * N * N * N * N :=
  (rk_root k, rk_predicate_id k, rk_role_id k, rk_filler_predicate_id k, rk_cardinality k, rk_level k).

#[global] Instance root_key_fields_inj : Inj (=) (=) root_key_fields.
Proof. intros [] []; cbn. by intros [= -> -> -> -> -> ->]. Qed.
#[global] Instance NominalRootKey_ord : Ord NominalRootKey := compare_by root_key_fields.
#[global] Instance NominalRootKey_ord_laws : OrdLaws NominalRootKey.
Proof. apply compare_by_laws. apply _. Qed.
#[global] Instance NominalRootKey_countable : Countable NominalRootKey.
Proof.
  apply (inj_countable' root_key_fields (λ p, mkRootKey p.1.1.1.1.1 p.1.1.1.1.2 p.1.1.1.2 p.1.1.2 p.1.2 p.2)). by intros [].
Defined.

Inductive NominalEvent :=
| IgnoredPruned | ForgotAnnotation | BranchCreated | BranchAdvanced | BranchExhausted
| RootCreated | RootReused | TargetMerged | OtherMerged.

Record NominalTraceEvent := mkTraceEvent {
  te_sequence : nat;
  te_event : NominalEvent;
  te_action_id : N;
  te_predicate_id : N;
  te_dependency : DependencySet;
  te_handles : list NodeHandle;
  te_choice : option N
}.

Record BranchContext := mkContext {
  bc_action_id : N;
  bc_predicate_id : N;
  bc_root : NodeHandle;
  bc_target : NodeHandle;
  bc_other : NodeHandle;
  bc_cardinality : N;
  bc_provenance_ids : list N;
  bc_trace_checkpoint : nat
}.

Record NominalIntroductionManager := mkNominals {
  nm_limits : NominalLimits;
  nm_roots : gmap NominalRootKey NodeHandle;
  nm_branch_contexts : gmap N BranchContext;
  nm_trace : list NominalTraceEvent
}.

#[global] Instance NominalIntroductionManager_eta : Eta NominalIntroductionManager := λ m,
  mkNominals (nm_limits m) (nm_roots m) (nm_branch_contexts m) (nm_trace m).

Record ManagerCheckpoint := mkManagerCheckpoint {
  mc_roots : gmap NominalRootKey NodeHandle;
  mc_branch_contexts : gmap N BranchContext;
  mc_trace : list NominalTraceEvent
}.

Module Nominals.

(** ** Building *)

Definition new_limits (choices actions : N) : NativeResult NominalLimits :=
  _ ← reject_if ((choices =? 0)%N || (actions =? 0)%N) (wire "nominal-introduction limits must be strictly positive");
  Ok (mkNominalLimits choices actions).

Definition default_limits : NominalLimits := mkNominalLimits 1000000 1000000.

Definition required (value : option N) (label : string) : NativeResult N :=
  ok_or value (invariant (label +:+ " is absent")).

Definition new_root_key (root : NodeHandle) (p : RulePredicate) (lvl : N) : NativeResult NominalRootKey :=
  _ ← reject_if (negb (bool_decide (rp_kind p = AnnotatedEquality)))
    (wire "nominal root keys require an annotated equality predicate");
  cardinality ← required (rp_cardinality p) "annotation cardinality";
  _ ← reject_if ((lvl =? 0)%N || (cardinality <? lvl)%N)
    (wire "nominal root level must lie within the annotation cardinality");
  role ← required (rp_role_id p) "annotation role";
  filler ← required (rp_filler_predicate_id p) "annotation filler";
  Ok (mkRootKey root (rp_predicate_id p) role filler cardinality lvl).

Definition as_str (e : NominalEvent) : string :=
  match e with
  | IgnoredPruned => "ignored_pruned"
  | ForgotAnnotation => "forgot_annotation"
  | BranchCreated => "branch_created"
  | BranchAdvanced => "branch_advanced"
  | BranchExhausted => "branch_exhausted"
  | RootCreated => "root_created"
  | RootReused => "root_reused"
  | TargetMerged => "target_merged"
  | OtherMerged => "other_merged"
  end.

Definition new (limits : NominalLimits) : NativeResult NominalIntroductionManager :=
  limits ← new_limits (max_branch_choices limits) (max_actions_per_run limits);
  Ok (mkNominals limits ∅ ∅ []).

(** ** Reading the kernel *)

(** The loop of [canonical_nodes]: [None] when a handle is gone. *)
Fixpoint canonical_loop (k : TableauKernel) (handles : list NodeHandle) (result : list NodeHandle)
    (dependencies : list DependencySet) : NativeResult (option (list NodeHandle * list DependencySet)) :=
  match handles with
  | [] => Ok (Some (result, dependencies))
  | h :: handles =>
      found ← tried (Kernel.node h k);
      match found with
      | None => Ok None
      | Some n =>
          if bool_decide (n_lifecycle n = Pruned) || bool_decide (n_lifecycle n = Retired) then Ok None
          else
            r ← Kernel.canonical_handle h k;
            canonical_loop k handles (result ++ [r.1]) (dependencies ++ [r.2])
      end
  end.

Definition canonical_nodes (k : TableauKernel) (handles : list NodeHandle) (dependency : DependencySet)
    (sort_pair : bool) : NativeResult (option (list NodeHandle * DependencySet)) :=
  resolved ← canonical_loop k handles [] [dependency];
  match resolved with
  | None => Ok None
  | Some (nodes, dependencies) =>
      nodes ← (if sort_pair && (length nodes =? 3)%nat then
        second ← index_or_crash nodes 1;
        second_rank ← Kernel.node_rank second k;
        first ← index_or_crash nodes 0;
        first_rank ← Kernel.node_rank first k;
        Ok (if bool_decide (ord_lt second_rank first_rank) then Engine.swap_first nodes else nodes)
      else Ok nodes);
      Ok (Some (nodes, Dep.union dependencies))
  end.

(** [nodes[0]], [nodes[1]] and [nodes[2]]. *)
Definition first_three (nodes : list NodeHandle) : NativeResult (NodeHandle * NodeHandle * NodeHandle) :=
  a ← index_or_crash nodes 0;
  b ← index_or_crash nodes 1;
  c ← index_or_crash nodes 2;
  Ok (a, b, c).

Definition can_forget_canonical (k : TableauKernel) (first second root : NodeHandle) : NativeResult bool :=
  first_node ← Kernel.active_node first k;
  second_node ← Kernel.active_node second k;
  root_node ← Kernel.active_node root k;
  Ok (bool_decide (n_parent first_node = None) || bool_decide (n_parent second_node = None)
      || negb (bool_decide (n_parent root_node = None))
      || bool_decide (n_parent first_node = Some root) && bool_decide (n_parent second_node = Some root)).

Definition can_forget (k : TableauKernel) (first second root : NodeHandle) : NativeResult bool :=
  found ← canonical_nodes k [first; second; root] Dep.empty true;
  match found with
  | None => Ok true
  | Some (nodes, _) =>
      t ← first_three nodes;
      can_forget_canonical k t.1.1 t.1.2 t.2
  end.

(** Which of the two nodes is merged into the nominal root, and the other one. *)
Definition oriented (k : TableauKernel) (first second root : NodeHandle) : NativeResult (NodeHandle * NodeHandle) :=
  n ← Kernel.active_node first k;
  Ok (if bool_decide (n_parent n = Some root) then (second, first) else (first, second)).

Definition target_for (k : TableauKernel) (first second root : NodeHandle) :
    NativeResult (option (NodeHandle * NodeHandle)) :=
  found ← canonical_nodes k [first; second; root] Dep.empty true;
  match found with
  | None => Ok None
  | Some (nodes, _) =>
      t ← first_three nodes;
      can_forget_canonical k t.1.1 t.1.2 t.2 ≫= λ forget : bool,
      if forget then Ok None
      else pair ← oriented k t.1.1 t.1.2 t.2; Ok (Some pair)
  end.

Definition annotation_predicate (e : RuleEngine) (pid : N) : NativeResult RulePredicate :=
  p ← Rule.predicate pid (re_program e);
  _ ← reject_if (negb (bool_decide (rp_kind p = AnnotatedEquality)) || bool_decide (rp_cardinality p = None)
      || bool_decide (rp_role_id p = None) || bool_decide (rp_filler_predicate_id p = None))
    (invariant "pending nominal action has incomplete annotated-equality metadata");
  Ok p.

(** ** The manager's state *)

(** A computation on the manager next to the engine and its kernel. *)
Abbreviation NM X := (st (NominalIntroductionManager * World RuleEngine) NativeError X).

Definition world {X} (m : st (World RuleEngine) NativeError X) : NM X := λ s,
  let '(r, w') := m s.2 in (r, (s.1, w')).
Definition upd_manager (f : NominalIntroductionManager → NominalIntroductionManager) : NM unit :=
  modify (λ s, (f s.1, s.2)).
(** A look at the kernel. *)
Definition sees {X} (f : TableauKernel → NativeResult X) : NM X := reads (λ s, f (w_kernel s.2)).

Definition append_trace (event : NominalEvent) (action pid : N) (dependency : DependencySet) (handles : list NodeHandle)
    (choice : option N) (m : NominalIntroductionManager) : NominalIntroductionManager :=
  m <| nm_trace ::= λ t, t ++ [mkTraceEvent (length t) event action pid dependency handles choice] |>.

Definition record (event : NominalEvent) (pending : PendingAnnotatedEquality) (dependency : DependencySet)
    (handles : list NodeHandle) (choice : option N) : NM unit :=
  upd_manager (append_trace event (pe_action_id pending) (ga_predicate_id (pe_atom pending)) dependency handles choice).

Definition record_context (event : NominalEvent) (c : BranchContext) (dependency : DependencySet)
    (handles : list NodeHandle) (choice : option N) : NM unit :=
  upd_manager (append_trace event (bc_action_id c) (bc_predicate_id c) dependency handles choice).

Definition checkpoint (m : NominalIntroductionManager) : ManagerCheckpoint :=
  mkManagerCheckpoint (nm_roots m) (nm_branch_contexts m) (nm_trace m).

Definition restore (c : ManagerCheckpoint) (m : NominalIntroductionManager) : NominalIntroductionManager :=
  m <| nm_roots := mc_roots c |> <| nm_branch_contexts := mc_branch_contexts c |> <| nm_trace := mc_trace c |>.

(** [kernel.canonical_handle(h).is_ok()]. *)
Definition available (k : TableauKernel) (h : NodeHandle) : bool := is_ok (Kernel.canonical_handle h k).

Definition purge_unavailable_roots : NM unit := λ s,
  upd_manager (λ m, m <| nm_roots ::= filter (λ e, available (w_kernel s.2) e.2 = true) |>) s.

(** ** Nominal roots *)

(** The keys that differ from [direct] at most in their root. *)
Definition same_annotation (direct candidate : NominalRootKey) : bool :=
  (rk_predicate_id candidate =? rk_predicate_id direct)%N && (rk_role_id candidate =? rk_role_id direct)%N
  && (rk_filler_predicate_id candidate =? rk_filler_predicate_id direct)%N
  && (rk_cardinality candidate =? rk_cardinality direct)%N && (rk_level candidate =? rk_level direct)%N.

(** The loop over the keys: those whose root leads to [root], dead ones are dropped. *)
Fixpoint scan_keys (direct : NominalRootKey) (keys found : list NominalRootKey) : NM (list NominalRootKey) :=
  match keys with
  | [] => mret found
  | candidate :: keys =>
      if negb (same_annotation direct candidate) then scan_keys direct keys found
      else
        resolved ← sees (λ k, tried (Kernel.canonical_handle (rk_root candidate) k));
        match resolved with
        | None =>
            _ ← upd_manager (λ m, m <| nm_roots ::= delete candidate |>);
            scan_keys direct keys found
        | Some r =>
            s ← gets id;
            stored ← lift (match nm_roots s.1 !! candidate with Some h => Ok h | None => Crash end);
            if negb (available (w_kernel s.2) stored) then
              _ ← upd_manager (λ m, m <| nm_roots ::= delete candidate |>);
              scan_keys direct keys found
            else scan_keys direct keys (if bool_decide (r.1 = rk_root direct) then found ++ [candidate] else found)
        end
  end.

Definition find_root_key (root : NodeHandle) (p : RulePredicate) (lvl : N) : NM (option NominalRootKey) :=
  direct ← lift (new_root_key root p lvl);
  s ← gets id;
  let search :=
    s ← gets id;
    found ← scan_keys direct (btree_keys (nm_roots s.1)) [];
    mret (head (Order.sort found)) in
  match nm_roots s.1 !! direct with
  | Some stored =>
      if available (w_kernel s.2) stored then mret (Some direct)
      else _ ← upd_manager (λ m, m <| nm_roots ::= delete direct |>); search
  | None => search
  end.

Definition stored_root (key : NominalRootKey) : NM NodeHandle :=
  s ← gets id;
  lift (match nm_roots s.1 !! key with Some h => Ok h | None => Crash end).

Definition root_for (root : NodeHandle) (p : RulePredicate) (lvl : N) : NM (option NodeHandle) :=
  resolved ← sees (λ k, tried (Kernel.canonical_handle root k));
  match resolved with
  | None => mret None
  | Some r =>
      found ← find_root_key r.1 p lvl;
      match found with
      | None => mret None
      | Some key =>
          stored ← stored_root key;
          answer ← sees (λ k, tried (Kernel.canonical_handle stored k));
          match answer with
          | Some representative => mret (Some representative.1)
          | None => lift (Err (invariant "nominal root key references an unavailable node"))
          end
      end
  end.

Definition get_or_create_root (root : NodeHandle) (p : RulePredicate) (lvl : N) (dependency : DependencySet)
    (c : BranchContext) : NM (NodeHandle * DependencySet) :=
  found ← find_root_key root p lvl;
  match found with
  | Some key =>
      stored ← stored_root key;
      r ← sees (Kernel.canonical_handle stored);
      let support := Dep.union [dependency; r.2] in
      _ ← record_context RootReused c support [root; r.1] (Some lvl);
      mret (r.1, support)
  | None =>
      key ← lift (new_root_key root p lvl);
      created ← world (kern (Kernel.create_node Ni None false None (Some lvl) (Some (rp_predicate_id p))));
      _ ← world (Engine.engine (Engine.register_node created dependency));
      _ ← upd_manager (λ m, m <| nm_roots ::= <[key := created]> |>);
      _ ← record_context RootCreated c dependency [root; created] (Some lvl);
      mret (created, dependency)
  end.

(** ** Choices *)

Section manager.
Context (others : nat → CancellationState → CancellationState) (clock : nat → N).

Definition poll : NM unit := world (Branching.poll others clock).
Definition merge (left right : NodeHandle) (dependency : DependencySet) : NM MergeResult :=
  world (Engine.merge_nodes others clock true left right dependency).

(** What is left of [apply_choice] after the target was merged. *)
Definition merge_other (c : BranchContext) (choice : N) (other ni_root : NodeHandle) (support : DependencySet) : NM unit :=
  _ ← poll;
  found ← sees (λ k, tried (Kernel.node other k));
  match found with
  | None => mret tt
  | Some n =>
      if bool_decide (n_lifecycle n = Pruned) then mret tt
      else
        o ← sees (Kernel.canonical_handle other);
        ni ← sees (Kernel.canonical_handle ni_root);
        let other_support := Dep.union [support; o.2; ni.2] in
        result ← merge o.1 ni.1 other_support;
        record_context OtherMerged c other_support [o.1; ni.1; mr_representative result] (Some choice)
  end.

Definition apply_choice (c : BranchContext) (choice : N) (dependency : DependencySet) : NM unit :=
  _ ← poll;
  p ← reads (λ s, annotation_predicate (w_access s.2) (bc_predicate_id c));
  found ← sees (λ k, canonical_nodes k [bc_target c; bc_other c; bc_root c] dependency false);
  match found with
  | None => mret tt
  | Some (nodes, support) =>
      t ← lift (first_three nodes);
      let '(target, other, root) := t in
      created ← get_or_create_root root p choice support c;
      let '(ni_root, support) := created in
      result ← merge target ni_root support;
      _ ← record_context TargetMerged c support [target; ni_root; mr_representative result] (Some choice);
      if mr_clashed result then mret tt else merge_other c choice other ni_root support
  end.

(** ** Queued equalities *)

(** [(1..=cardinality).collect()]. *)
Definition choices (cardinality : N) : list N := N.succ <$> range (N.to_nat cardinality).

(** The branch over the nominal roots, or the only choice. *)
Definition branch_choices (c : BranchContext) (dependency : DependencySet) : NM BranchTransition :=
  s ← gets id;
  if (bc_cardinality c =? 1)%N then _ ← apply_choice c 1 dependency; mret Deterministic
  else
    let allowed := max_branch_choices (nm_limits s.1) in
    _ ← lift (reject_if (allowed <? bc_cardinality c)%N
      (resource_limit "nominal-introduction cardinality exceeds the branch-choice limit" "max_branch_choices"
        (bc_cardinality c) allowed));
    _ ← upd_manager (λ m, m <| nm_branch_contexts ::= <[bc_action_id c := c]> |>);
    _ ← lift (reject_if (bool_decide (is_Some (nm_branch_contexts s.1 !! bc_action_id c)))
      (invariant "annotated equality already owns a nominal branch"));
    lvl ← world (kern (Kernel.push_branch "merge" (choices (bc_cardinality c)) (bc_action_id c) dependency));
    _ ← record_context BranchCreated c dependency [bc_root c; bc_target c; bc_other c] (Some 1);
    _ ← apply_choice c 1 (Dep.add dependency lvl);
    mret Branched.

(** What is done with an equality that was taken from the queue. *)
Definition process_pending (pending : PendingAnnotatedEquality) : NM BranchTransition :=
  _ ← poll;
  p ← reads (λ s, annotation_predicate (w_access s.2) (ga_predicate_id (pe_atom pending)));
  support ← lift (ok_or (min_by (λ l r, compare (dependency_rank l) (dependency_rank r)) (pe_supports pending))
    (invariant "nominal action has no support"));
  found ← sees (λ k, canonical_nodes k (ga_arguments (pe_atom pending)) support true);
  match found with
  | None =>
      _ ← record IgnoredPruned pending support (ga_arguments (pe_atom pending)) None;
      mret Satisfied
  | Some (nodes, dependency) =>
      t ← lift (first_three nodes);
      let '(first, second, root) := t in
      sees (λ k, can_forget_canonical k first second root) ≫= λ forget : bool,
      if forget then
        _ ← merge first second dependency;
        _ ← record ForgotAnnotation pending dependency [first; second; root] None;
        mret Deterministic
      else
        pair ← sees (λ k, oriented k first second root);
        cardinality ← lift (required (rp_cardinality p) "annotation cardinality");
        s ← gets id;
        branch_choices (mkContext (pe_action_id pending) (rp_predicate_id p) root pair.1 pair.2 cardinality
          (pe_provenance_ids pending) (length (nm_trace s.1))) dependency
  end.

Definition process_next_inner : NM BranchTransition :=
  _ ← poll;
  _ ← purge_unavailable_roots;
  taken ← world (Engine.engine Engine.take_pending_annotated_equality);
  match taken with
  | None => mret NoWork
  | Some pending => process_pending pending
  end.

(** The alternative that the kernel moved to is applied; without one the clash is
    handed down. *)
Definition follow_alternative (c : BranchContext) (b : Branch) (clash_dep without_level : DependencySet)
    (alternative : option N) : NM BranchTransition :=
  match alternative with
  | Some choice =>
      let dependency := if (choice =? bc_cardinality c)%N then without_level else clash_dep in
      _ ← record_context BranchAdvanced c dependency [bc_root c; bc_target c; bc_other c] (Some choice);
      _ ← apply_choice c choice dependency;
      mret Advanced
  | None =>
      _ ← upd_manager (λ m, m <| nm_branch_contexts ::= delete (bc_action_id c) |>);
      let propagated := Dep.union [base_dependency b; learned_dependency b; without_level] in
      _ ← world (kern (Kernel.install_clash "impossible_cardinality" propagated [bc_action_id c]
        (head (bc_provenance_ids c))));
      _ ← record_context BranchExhausted c propagated [bc_root c; bc_target c; bc_other c] None;
      mret Exhausted
  end.

Definition resolve_clash_inner : NM BranchTransition :=
  _ ← poll;
  s ← gets id;
  match Kernel.clash (w_kernel s.2) with
  | None => mret NoWork
  | Some clash =>
      match Dep.maximum (clash_dependency clash) with
      | None => mret Unsat
      | Some lvl =>
          b ← sees (Kernel.branch lvl);
          match nm_branch_contexts s.1 !! source_id b with
          | None => mret NoWork
          | Some c =>
              if negb (bool_decide (choice_kind b = "merge"%string)) then mret NoWork
              else
                let without_level := Dep.without (clash_dependency clash) lvl in
                alternative ← world (kern (Kernel.advance_branch lvl without_level));
                _ ← poll;
                _ ← purge_unavailable_roots;
                _ ← upd_manager (λ m, m <| nm_trace ::= take (bc_trace_checkpoint c) |>);
                follow_alternative c b (clash_dependency clash) without_level alternative
          end
      end
  end.

(** [kernel.atomic] around a closure, and the manager's own checkpoint around it. *)
Definition paired {X} (m : NM X) : NM X := λ s,
  match m s with
  | (Err e, s') =>
      let w' := s'.2 in
      (Err e, (restore (checkpoint s.1) s'.1,
        mkWorld (Kernel.restore (Kernel.snapshot (w_kernel s.2)) (w_kernel w')) (w_access w') (w_cancel w') (w_polls w')))
  | r => r
  end.

Definition process_next : NM BranchTransition := paired process_next_inner.
Definition resolve_clash : NM BranchTransition := paired resolve_clash_inner.

(** One turn of [process_all]: [inr] ends the loop. *)
Definition process_turn (processed : N) : NM (N + N) :=
  s ← gets id;
  let allowed := max_actions_per_run (nm_limits s.1) in
  if (processed <? allowed)%N then
    transition ← process_next;
    if bool_decide (transition = NoWork) then mret (inr processed)
    else
      next ← lift (ok_or (checked_add u64_max processed 1) (invariant "nominal action counter overflow"));
      mret (inl next)
  else
    lift (Err (resource_limit "nominal-introduction action limit exceeded" "max_actions_per_run"
      (saturating_add u64_max processed 1) allowed)).

(** Each turn counts one action, up to the limit. *)
Definition process_all : NM N :=
  s ← gets id;
  loopM (N.succ_pos (max_actions_per_run (nm_limits s.1))) process_turn 0.
End manager.
End Nominals.
