(* ===== verification/NominalSpec.v ===== *)
(** * Nominal introduction answers and keeps its invariants (native/src/nominals/mod.rs)

    The manager's maps stay tied to the program, its lookups never index a key
    that is gone, and everything it does between opening and advancing a branch
    stays inside the branch. *)

From S2P Require Import Prelude Order Errors Model Queue Store Kernel KernelBase Arena Facts FactOps.
From S2P Require Import StateInv NodeOps Merge Prune KernelInv Totality Cancel Branching RuleModel Merging.
From S2P Require Import RulePlans Joins RuleEngine RuleSpec EngineBase EngineSafe EngineDispatch EngineRun Nominals.
Import Kernel.

#[local] Opaque Dep.union Dep.empty.

Abbreviation NominalState := (NominalIntroductionManager * World RuleEngine)%type.
Abbreviation kernel_of s := (w_kernel (snd s)).

(** ** The invariant of the manager *)

Section invariant.
Context (prog : RuleProgram).

(** A key carries the annotation of its predicate, and a level within it. *)
Definition root_key_ok (key : NominalRootKey) : Prop :=
  ∃ p, predicates prog !! N.to_nat (rk_predicate_id key) = Some p ∧ rp_kind p = AnnotatedEquality ∧
    rp_cardinality p = Some (rk_cardinality key) ∧ rp_role_id p = Some (rk_role_id key) ∧
    rp_filler_predicate_id p = Some (rk_filler_predicate_id key) ∧ 1 ≤ rk_level key ≤ rk_cardinality key.

(** A branch context belongs to the action it is filed under and has a choice to make. *)
Definition context_ok (action : N) (c : BranchContext) : Prop :=
  bc_action_id c = action ∧ bc_cardinality c ≠ 1 ∧
  ∃ p, predicates prog !! N.to_nat (bc_predicate_id c) = Some p ∧ rp_cardinality p = Some (bc_cardinality c).

Record nominals_ok (m : NominalIntroductionManager) : Prop := {
  nominal_roots key h : nm_roots m !! key = Some h → root_key_ok key;
  nominal_contexts action c : nm_branch_contexts m !! action = Some c → context_ok action c;
  nominal_trace i e : nm_trace m !! i = Some e → te_sequence e = i
}.

(** ** Steps inside a branch *)

Record fit (s : NominalState) : Prop := {
  fit_ready : ready prog (at_world s.2);
  fit_atoms : atoms_valid (w_access s.2);
  fit_manager : nominals_ok s.1
}.

Record within (s s' : NominalState) : Prop := {
  within_frame : kframe (kernel_of s) (kernel_of s');
  within_fit : fit s';
  within_engine : grows (w_access s.2) (w_access s'.2);
  within_contexts : nm_branch_contexts s'.1 = nm_branch_contexts s.1;
  within_limits : nm_limits s'.1 = nm_limits s.1
}.

Lemma within_refl s : fit s → within s s.
Proof. by split. Qed.

Lemma within_trans s1 s2 s3 : within s1 s2 → within s2 s3 → within s1 s3.
Proof. intros [F1 _ G1 C1 L1] [F2 I2 G2 C2 L2]. split; [by etrans|done|by etrans|congruence|congruence]. Qed.

Definition introducing : Mode NominalState := mkMode fit within within_refl within_trans (λ s s' _, within_fit s s').
End invariant.

Lemma live_within s s' : live (at_world s.2) → within (re_program (w_access s.2)) s s' → live (at_world s'.2).
Proof.
  intros [[Hk [Hp Ht] Hb Hr] Hpl] [F [[S T E] _ _] G _ _]. split; cbn in *.
  - split; [eapply wf_frame; [done|done|by rewrite <-(top_frame _ _ F)]|cbn; by rewrite E| |].
    + rewrite (frame_branches _ _ F). intros i b Hi. cbn. rewrite E. by apply (Hb i).
    + rewrite (frame_root _ _ F). cbn. by rewrite E.
  - destruct (grows_fixed _ _ G) as (_ & -> & _). done.
Qed.

Section manager.
Context (prog : RuleProgram) (Hprog : program_ok prog).
Context (others : nat → CancellationState → CancellationState) (clock : nat → N).
Abbreviation nsafe := (safe (introducing prog)).
Abbreviation any := (λ _ _, True).

Lemma within_world s w :
  fit prog s → onward prog (at_world s.2) (at_world w) → within prog s (s.1, w).
Proof.
  intros [R A M] Ho. pose proof (ready_onward _ _ _ R Ho) as R'. destruct Ho as [[F _ _ _ _] G].
  split; [done| |done|done|done]. split; [done|by apply (grows_valid _ _ G)|done].
Qed.

Lemma nsafe_world {X} (m : st (World RuleEngine) NativeError X) s Q :
  safe (inside_world prog) m s.2 Q → nsafe (Nominals.world m) s (λ x s', s'.1 = s.1 ∧ Q x s'.2).
Proof.
  intros Hm Hs. destruct (Hm (fit_ready _ _ Hs)) as [Hr Hx]. unfold Nominals.world. destruct (m s.2) as [r w'].
  split; [done|]. intros x s' [= -> <-]. destruct (Hx x w' eq_refl) as [Ho Hq]. split; [by apply within_world|done].
Qed.

Lemma nsafe_poll s : fit prog s → nsafe (Nominals.poll others clock) s (λ _ s', s'.1 = s.1).
Proof.
  intros Hs. eapply safe_impl; [apply nsafe_world, safe_poll, (fit_ready _ _ Hs)|]. by intros x s' _ [? _].
Qed.

Lemma nsafe_sees {X} (f : TableauKernel → NativeResult X) s :
  fit prog s → f (kernel_of s) ≠ Crash → nsafe (Nominals.sees f) s (λ x s', s' = s ∧ f (kernel_of s) = Ok x).
Proof. intros Hs Hf. by apply safe_reads. Qed.

Lemma nsafe_manager f s :
  fit prog s → nominals_ok prog (f s.1) → nm_branch_contexts (f s.1) = nm_branch_contexts s.1 → nm_limits (f s.1) = nm_limits s.1 →
  nsafe (Nominals.upd_manager f) s (λ _ s', s' = (f s.1, s.2)).
Proof. intros [R A M] Hf Hc Hl _. split; [done|]. intros x s' [= <- <-]. split; [|done]. by split. Qed.

Lemma append_trace_ok event action pid d hs choice m :
  nominals_ok prog m → nominals_ok prog (Nominals.append_trace event action pid d hs choice m).
Proof.
  intros [R C T]. split; cbn; [done|done|]. intros i e [Hi|[Hi Hx]]%lookup_app_Some; [by apply T|].
  apply list_lookup_singleton_Some in Hx as [Hz <-]. cbn. lia.
Qed.

Lemma nsafe_record event pending d hs choice s : fit prog s → nsafe (Nominals.record event pending d hs choice) s any.
Proof.
  intros Hs. eapply safe_impl; [apply nsafe_manager; [done|apply append_trace_ok, (fit_manager _ _ Hs)|done|done]|done].
Qed.

Lemma nsafe_context event c d hs choice s : fit prog s → nsafe (Nominals.record_context event c d hs choice) s any.
Proof.
  intros Hs. eapply safe_impl; [apply nsafe_manager; [done|apply append_trace_ok, (fit_manager _ _ Hs)|done|done]|done].
Qed.

Lemma fewer_roots_ok roots m : nominals_ok prog m → roots ⊆ nm_roots m → nominals_ok prog (m <| nm_roots := roots |>).
Proof. intros [R C T] Hsub. split; cbn; [|done|done]. intros key h Hk. eapply R, lookup_weaken, Hsub. exact Hk. Qed.

Lemma nsafe_purge s : fit prog s → nsafe Nominals.purge_unavailable_roots s any.
Proof.
  intros Hs. unfold Nominals.purge_unavailable_roots. intros Hs'.
  destruct (nsafe_manager (λ m, m <| nm_roots ::= filter (λ e, Nominals.available (kernel_of s) e.2 = true) |>) s) as [Hr Hx];
    [done|apply (fewer_roots_ok _ _ (fit_manager _ _ Hs)), map_filter_subseteq|done|done|done|].
  split; [exact Hr|]. intros x s' H. destruct (Hx x s' H) as [Hw _]. by split.
Qed.
End manager.

(** ** Looking up nominal roots *)

Lemma NoDup_btree_keys {K V} `{Ord K, Countable K} `{!OrdLaws K} (m : gmap K V) : NoDup (btree_keys m).
Proof. apply StronglySorted_lt_NoDup, btree_elements_sorted. Qed.

Lemma tried_not_crash {E X} (r : outcome E X) : r ≠ Crash → tried r ≠ Crash.
Proof. by destruct r. Qed.

(** The map after a lookup: dead entries may be gone. *)
Definition pruned_roots (s s' : NominalState) (roots : gmap NominalRootKey NodeHandle) : Prop :=
  s' = (s.1 <| nm_roots := roots |>, s.2) ∧ roots ⊆ nm_roots s.1.

Lemma scan_keys_spec direct keys found s :
  NoDup keys → (∀ key, key ∈ keys → is_Some (nm_roots s.1 !! key)) →
  (∀ key, key ∈ found → ¬ (key ∈ keys) ∧ is_Some (nm_roots s.1 !! key)) →
  ∃ l s' roots, Nominals.scan_keys direct keys found s = (Ok l, s') ∧ pruned_roots s s' roots ∧
    ∀ key, key ∈ l → is_Some (roots !! key).
Proof.
  revert found s. induction keys as [|key keys IH]; intros found [m w] Hnd Hin Hf; cbn [Nominals.scan_keys].
  { exists found, (m, w), (nm_roots m). split_and!; [done|split; [by destruct m|done]|]. intros key Hk. by apply Hf. }
  apply NoDup_cons in Hnd as [Hnew Hnd]. cbn [fst] in Hin, Hf.
  assert (∀ found', (∀ k, k ∈ found' → ¬ (k ∈ keys) ∧ is_Some (nm_roots m !! k)) →
    ∃ l s' roots, Nominals.scan_keys direct keys found' (m, w) = (Ok l, s') ∧ pruned_roots (m, w) s' roots ∧
      ∀ key, key ∈ l → is_Some (roots !! key)) as Hkeep.
  { intros found' Hf'. apply IH; [done| |done]. intros k Hk. apply Hin. by right. }
  assert (∀ k, k ∈ found → ¬ (k ∈ keys) ∧ is_Some (nm_roots m !! k)) as Hf'.
  { intros k Hk. destruct (Hf k Hk) as [Hn Hs]. split; [|done]. intros Hk'. apply Hn. by right. }
  assert (∃ l s' roots, (_ ← Nominals.upd_manager (λ m, m <| nm_roots ::= delete key |>); Nominals.scan_keys direct keys found) (m, w)
      = (Ok l, s') ∧ pruned_roots (m, w) s' roots ∧ ∀ key, key ∈ l → is_Some (roots !! key)) as Hdrop.
  { unfold mbind, st_bind, Nominals.upd_manager, modify. cbn [fst snd].
    destruct (IH found (m <| nm_roots ::= delete key |>, w)) as (l & s' & roots & E & [-> Hsub] & Hl); [done| | |].
    - cbn. intros k Hk. rewrite lookup_delete_ne by (by intros ->). apply Hin. by right.
    - cbn. intros k Hk. destruct (Hf k Hk) as [Hn Hs]. rewrite lookup_delete_ne; [by apply Hf'|]. intros ->. apply Hn. by left.
    - exists l, (m <| nm_roots := roots |>, w), roots. split_and!; [by rewrite E; destruct m|split; [done|]|done].
      cbn in Hsub. etrans; [exact Hsub|apply delete_subseteq]. }
  destruct (negb _); [by apply Hkeep|]. unfold mbind at 1, st_bind at 1, Nominals.sees, reads. cbn [snd].
  pose proof (canonical_handle_not_crash (rk_root key) (w_kernel w)) as Hnc.
  destruct (canonical_handle (rk_root key) (w_kernel w)) as [r|e|]; cbn [tried]; [|exact Hdrop|done].
  unfold mbind at 1, st_bind at 1, gets, id. cbn [fst snd]. unfold mbind at 1, st_bind at 1, lift.
  destruct (Hin key) as [stored ->]; [by left|]. destruct (negb (Nominals.available (w_kernel w) stored)); [exact Hdrop|].
  apply Hkeep. intros k. case_bool_decide; [|apply Hf'].
  rewrite elem_of_app, list_elem_of_singleton. intros [Hk| ->]; [by apply Hf'|]. split; [done|]. apply Hin. by left.
Qed.

Lemma find_root_key_spec root p lvl s :
  match Nominals.find_root_key root p lvl s with
  | (Ok o, s') => ∃ roots, pruned_roots s s' roots ∧ ∀ key, o = Some key → is_Some (roots !! key)
  | (Err _, s') => s' = s
  | (Crash, _) => False
  end.
Proof.
  unfold Nominals.find_root_key. unfold mbind at 1, st_bind at 1, lift at 1.
  assert (Nominals.new_root_key root p lvl ≠ Crash) as Hn.
  { unfold Nominals.new_root_key, Nominals.required.
    repeat (apply bind_not_crash; [first [apply reject_if_not_crash|apply ok_or_not_crash]|intros ? _]). done. }
  destruct (Nominals.new_root_key root p lvl) as [direct|e|]; [|done|done].
  unfold mbind at 1, st_bind at 1, gets, id. cbv zeta.
  assert (∀ s1 : NominalState, match (x ← gets (λ x, x); found ← Nominals.scan_keys direct (btree_keys (nm_roots x.1)) [];
      mret (head (Order.sort found))) s1 with
    | (Ok o, s') => ∃ roots, pruned_roots s1 s' roots ∧ ∀ key, o = Some key → is_Some (roots !! key)
    | (Err _, s') => s' = s1
    | (Crash, _) => False
    end) as Hsearch.
  { intros s1. unfold mbind, st_bind, gets.
    destruct (scan_keys_spec direct (btree_keys (nm_roots s1.1)) [] s1) as (l & s' & roots & -> & Hp & Hl).
    - apply NoDup_btree_keys.
    - intros key. by rewrite elem_of_btree_keys.
    - set_solver.
    - exists roots. split; [done|]. intros key Hk. apply Hl, (elem_of_sort l), head_Some_elem_of, Hk. }
  destruct (nm_roots s.1 !! direct) as [stored|] eqn:Ed; [|apply Hsearch].
  destruct (Nominals.available (kernel_of s) stored).
  - exists (nm_roots s.1). split; [split; [by destruct s as [[] ?]|done]|]. intros key [= <-]. by exists stored.
  - unfold mbind at 1, st_bind at 1, Nominals.upd_manager, modify. specialize (Hsearch (s.1 <| nm_roots ::= delete direct |>, s.2)).
    destruct (_ ≫= _) as [[o|e|] s'] eqn:E; [| |done].
    + destruct Hsearch as (roots & [-> Hsub] & Hk). exists roots. split; [split; [done|]|done].
      cbn in Hsub. etrans; [exact Hsub|apply delete_subseteq].
    + exfalso. revert E. unfold mbind, st_bind, gets. destruct (scan_keys_spec direct (btree_keys (delete direct (nm_roots s.1))) []
        (s.1 <| nm_roots ::= delete direct |>, s.2)) as (l & s1 & roots & Hs & _); [apply NoDup_btree_keys|intros key; by rewrite elem_of_btree_keys|set_solver|].
      cbn in Hs |- *. by rewrite Hs.
Qed.

(** ** Nominal roots *)

Section introduction.
Context (prog : RuleProgram) (Hprog : program_ok prog).
Context (others : nat → CancellationState → CancellationState) (clock : nat → N).
Abbreviation nsafe := (safe (introducing prog)).
Abbreviation esafe := (safe (inside prog)).
Abbreviation any := (λ _ _, True).

Lemma nsafe_find root p lvl s :
  nsafe (Nominals.find_root_key root p lvl) s (λ o s', s'.2 = s.2 ∧ ∀ key, o = Some key → is_Some (nm_roots s'.1 !! key)).
Proof.
  intros Hs. pose proof (find_root_key_spec root p lvl s) as Hf.
  destruct (Nominals.find_root_key root p lvl s) as [[o|e|] s1]; [|done|done]. split; [done|]. intros x s' [= <- <-].
  destruct Hf as (roots & [-> Hsub] & Hk). split; [|done]. destruct Hs as [R A M].
  split; [done| |done|done|done]. split; [done|done|by apply fewer_roots_ok].
Qed.

Lemma safe_register h d s : ready prog s → esafe (Engine.register_node h d) s any.
Proof.
  intros Hs. unfold Engine.register_node.
  eapply safe_bind; [done|apply safe_reads with (Q := any); [done|apply node_sort_not_crash|done]|]. intros sort s1 _ Hs1 _.
  eapply safe_bind; [done|by apply safe_reads with (Q := any)|]. intros [pid|] s2 _ Hs2 _; [|by apply safe_mret].
  eapply safe_bind; [done|apply safe_lift with (Q := any); [done|apply new_ground_not_crash|done]|]. intros a s3 _ Hs3 _.
  by apply safe_dispatch.
Qed.

Lemma create_node_facts kind parent named sid nominal tag k h k' :
  create_node kind parent named sid nominal tag k = (Ok h, k') → facts (state k') = facts (state k).
Proof.
  intros H%create_node_Ok. destruct (arena_slot (state k)) as [[i ns] gens].
  by destruct H as (? & ? & _ & _ & _ & _ & _ & _ & _ & _ & ->).
Qed.

Lemma nsafe_create kind parent named sid nominal tag s :
  nsafe (Nominals.world (kern (create_node kind parent named sid nominal tag))) s (λ _ s', s'.1 = s.1).
Proof.
  intros [[S T E] A M]. unfold Nominals.world, kern, at_world in *. cbn [fst snd] in *.
  pose proof (create_node_returns kind parent named sid nominal tag _ _ (state_arena _ _ S)) as Hr.
  destruct (create_node kind parent named sid nominal tag (w_kernel s.2)) as [r k'] eqn:Ec.
  split; [done|]. intros h s' [= -> <-]. destruct (keeps_create_node _ _ _ _ _ _ _ _ _ S Ec) as [F S'].
  split; [|done]. split; [done| |reflexivity|done|done]. split; [|done|done]. split; cbn; [by rewrite (top_frame _ _ F)| |done].
  eapply typed_facts, T. by apply create_node_facts in Ec.
Qed.

Lemma new_root_key_Ok root p lvl key :
  predicates prog !! N.to_nat (rp_predicate_id p) = Some p → Nominals.new_root_key root p lvl = Ok key → root_key_ok prog key.
Proof.
  intros Hp. unfold Nominals.new_root_key, Nominals.required. intros ([] & Hk%reject_if_Ok & H)%outcome_bind_Ok.
  apply negb_false_iff, bool_decide_eq_true in Hk. apply outcome_bind_Ok in H as (c & Hc%ok_or_Ok & H).
  apply outcome_bind_Ok in H as ([] & [H0 H1]%reject_if_Ok%orb_false_iff & H).
  apply outcome_bind_Ok in H as (r & Hr%ok_or_Ok & H). apply outcome_bind_Ok in H as (f & Hf%ok_or_Ok & [= <-]).
  exists p. cbn. apply N.eqb_neq in H0. apply N.ltb_ge in H1. split_and!; try done; lia.
Qed.

Lemma nsafe_get_root root p lvl d c s :
  predicates prog !! N.to_nat (rp_predicate_id p) = Some p → fit prog s →
  nsafe (Nominals.get_or_create_root root p lvl d c) s any.
Proof.
  intros Hp Hs. unfold Nominals.get_or_create_root. eapply safe_bind; [done|apply nsafe_find|].
  intros [key|] s1 _ Hs1 [_ Hk].
  - destruct (Hk key eq_refl) as [h Hh].
    eapply safe_bind with (Q := any); [done| |].
    { unfold Nominals.stored_root. eapply safe_bind; [done|by apply safe_gets with (Q := λ x s', x = s1 ∧ s' = s1)|].
      intros x s2 _ _ [-> ->]. rewrite Hh. by apply safe_lift. }
    intros stored s2 _ Hs2 _. eapply safe_bind; [done|apply nsafe_sees; [done|apply canonical_handle_not_crash]|].
    intros r s3 _ Hs3 _. cbv zeta. eapply safe_bind; [done|by apply nsafe_context|]. intros [] s4 _ Hs4 _. by apply safe_mret.
  - eapply safe_bind; [done|apply safe_lift with (Q := λ key _, root_key_ok prog key); [done| |]|].
    { unfold Nominals.new_root_key, Nominals.required.
      repeat (apply bind_not_crash; [first [apply reject_if_not_crash|apply ok_or_not_crash]|intros ? _]). done. }
    { intros key. by apply new_root_key_Ok. }
    intros key s2 _ Hs2 Hkey. cbn beta in Hkey. eapply safe_bind; [done|apply nsafe_create|]. intros h s3 _ Hs3 _.
    eapply safe_bind; [done|apply nsafe_world, safe_engine, safe_register, (fit_ready _ _ Hs3)|]. intros b s4 _ Hs4 _.
    eapply safe_bind; [done|apply nsafe_manager; [done| |done|done]|].
    { destruct (fit_manager _ _ Hs4) as [R C T]. split; cbn; [|done|done].
      intros key' h' [[<- _]|[_ Hk']]%lookup_insert_Some; [done|by apply (R _ h')]. }
    intros [] s5 _ Hs5 _. eapply safe_bind; [done|by apply nsafe_context|]. intros [] s6 _ Hs6 _. by apply safe_mret.
Qed.

(** ** Choices *)

Lemma canonical_loop_spec k hs ns ds :
  Nominals.canonical_loop k hs ns ds ≠ Crash ∧
  ∀ ns' ds', Nominals.canonical_loop k hs ns ds = Ok (Some (ns', ds')) → (length ns' = length ns + length hs)%nat.
Proof.
  revert ns ds. induction hs as [|h hs IH]; intros ns ds; cbn [Nominals.canonical_loop].
  { split; [done|]. intros ns' ds' [= <- <-]. cbn. lia. }
  pose proof (require_node_not_crash h k) as Hn. unfold node. destruct (require_node h k) as [n|e|]; cbn [tried]; [|done|done].
  rewrite bind_Ok_l. destruct (_ || _); [done|]. pose proof (canonical_handle_not_crash h k) as Hc.
  destruct (canonical_handle h k) as [r|e|]; [|done|done]. rewrite bind_Ok_l. destruct (IH (ns ++ [r.1]) (ds ++ [r.2])) as [Hr Hx].
  split; [done|]. intros ns' ds' H. rewrite (Hx _ _ H), length_app. cbn. lia.
Qed.

Lemma canonical_nodes_spec k hs d sorted :
  Nominals.canonical_nodes k hs d sorted ≠ Crash ∧
  ∀ ns ds, Nominals.canonical_nodes k hs d sorted = Ok (Some (ns, ds)) → length ns = length hs ∧ canonical ds.
Proof.
  unfold Nominals.canonical_nodes. destruct (canonical_loop_spec k hs [] [d]) as [Hr Hx].
  destruct (Nominals.canonical_loop k hs [] [d]) as [[[ns ds]|]|e|]; [|done|done|done].
  rewrite bind_Ok_l. specialize (Hx ns ds eq_refl). cbn in Hx. destruct (sorted && (length ns =? 3)%nat) eqn:Es.
  - apply andb_true_iff in Es as [_ E3%Nat.eqb_eq]. split.
    + apply bind_not_crash; [|done]. apply bind_not_crash; [apply index_not_crash; lia|intros b _].
      apply bind_not_crash; [apply node_rank_not_crash|intros rb _]. apply bind_not_crash; [apply index_not_crash; lia|intros a _].
      by apply bind_not_crash; [apply node_rank_not_crash|].
    + intros ns' ds' (l & Hl & [= <- <-])%outcome_bind_Ok. split; [|apply canonical_union]. rewrite <-Hx.
      do 4 (apply outcome_bind_Ok in Hl as (? & _ & Hl)). injection Hl as <-. case_bool_decide; [apply length_swap|done].
  - rewrite bind_Ok_l. split; [done|]. intros ns' ds' [= <- <-]. split; [lia|apply canonical_union].
Qed.

Lemma first_three_not_crash l : length l = 3%nat → Nominals.first_three l ≠ Crash.
Proof.
  intros Hl. unfold Nominals.first_three. repeat (apply bind_not_crash; [apply index_not_crash; lia|intros ? _]). done.
Qed.

Lemma annotation_not_crash e pid : Nominals.annotation_predicate e pid ≠ Crash.
Proof.
  unfold Nominals.annotation_predicate. apply bind_not_crash; [apply predicate_not_crash|intros p _].
  by apply bind_not_crash; [apply reject_if_not_crash|].
Qed.

Lemma annotation_Ok e pid p :
  re_program e = prog → Nominals.annotation_predicate e pid = Ok p →
  predicates prog !! N.to_nat pid = Some p ∧ predicates prog !! N.to_nat (rp_predicate_id p) = Some p.
Proof.
  intros <- (q & Hq%predicate_Ok & H)%outcome_bind_Ok. apply outcome_bind_Ok in H as ([] & _ & [= <-]).
  split; [done|]. by rewrite (program_ids _ Hprog _ _ Hq).
Qed.

Lemma nsafe_merge l r d s : fit prog s → nsafe (Nominals.merge others clock l r d) s any.
Proof.
  intros Hs. eapply safe_impl; [apply nsafe_world; unfold Engine.merge_nodes;
    eapply safe_merge with (n := weight (kernel_of s)); [|apply (fit_ready _ _ Hs)|done]|done].
  intros a d' c p s' Hs' _. by apply safe_dispatch.
Qed.

Lemma nsafe_merge_other c choice o h d s : fit prog s → nsafe (Nominals.merge_other others clock c choice o h d) s any.
Proof.
  intros Hs. unfold Nominals.merge_other. eapply safe_bind; [done|by apply nsafe_poll|]. intros [] s1 _ Hs1 _.
  eapply safe_bind; [done|apply nsafe_sees; [done|apply tried_not_crash, require_node_not_crash]|].
  intros [n|] s2 _ Hs2 _; [|by apply safe_mret]. case_bool_decide; [by apply safe_mret|].
  eapply safe_bind; [done|apply nsafe_sees; [done|apply canonical_handle_not_crash]|]. intros ro s3 _ Hs3 _.
  eapply safe_bind; [done|apply nsafe_sees; [done|apply canonical_handle_not_crash]|]. intros rn s4 _ Hs4 _. cbv zeta.
  eapply safe_bind; [done|by apply nsafe_merge|]. intros res s5 _ Hs5 _. by apply nsafe_context.
Qed.

Lemma nsafe_apply_choice c choice d s : fit prog s → nsafe (Nominals.apply_choice others clock c choice d) s any.
Proof.
  intros Hs. unfold Nominals.apply_choice. eapply safe_bind; [done|by apply nsafe_poll|]. intros [] s1 _ Hs1 _.
  eapply safe_bind; [done|apply safe_reads with (Q := λ p _, predicates prog !! N.to_nat (rp_predicate_id p) = Some p);
    [done|apply annotation_not_crash|]|].
  { intros p Hp. eapply annotation_Ok, Hp. apply (fit_ready _ _ Hs1). }
  intros p s2 _ Hs2 Hp. cbn beta in Hp.
  eapply safe_bind; [done|apply nsafe_sees; [done|apply canonical_nodes_spec]|]. intros [[ns d']|] s3 _ Hs3 [-> Hn]; [|by apply safe_mret].
  apply canonical_nodes_spec in Hn as [Hlen _].
  eapply safe_bind; [done|apply safe_lift with (Q := any); [done|by apply first_three_not_crash|done]|].
  intros [[target o] root] s4 _ Hs4 _. eapply safe_bind; [done|by apply nsafe_get_root|]. intros [h d2] s5 _ Hs5 _.
  eapply safe_bind; [done|by apply nsafe_merge|]. intros res s6 _ Hs6 _.
  eapply safe_bind; [done|by apply nsafe_context|]. intros [] s7 _ Hs7 _.
  destruct (mr_clashed res); [by apply safe_mret|by apply nsafe_merge_other].
Qed.
End introduction.
