(* ===== verification/NominalRun.v ===== *)
(** * Running nominal introduction (native/src/nominals/mod.rs)

    What a queued equality and a clash do to the branch stack and to the
    manager's contexts, and what is left when one of them fails. *)

From S2P Require Import Prelude Order Errors Model Queue Store Kernel KernelBase Arena Facts FactOps.
From S2P Require Import StateInv NodeOps Merge Prune KernelInv Totality Cancel Branching RuleModel Merging.
From S2P Require Import RulePlans Joins RuleEngine RuleSpec EngineBase EngineSafe EngineDispatch EngineRun Nominals NominalSpec.
Import Kernel.

#[local] Opaque Dep.union Dep.empty.

(** ** Queued equalities *)

Lemma take_integer_returns queue : returns (take_integer queue).
Proof. unfold take_integer. by returns_steps. Qed.

Lemma take_integer_frame queue k o k' :
  take_integer queue k = (Ok o, k') →
  nodes (state k') = nodes (state k) ∧ facts (state k') = facts (state k) ∧ same_generations (state k) (state k').
Proof.
  intros H. unfold take_integer in H. apply st_bind_Ok in H as (sel & ? & [Hsel%ok_or_Ok ->]%lift_Ok & H). inv_ok.
  pose proof (λ q s, integer_queue_frame queue sel q s Hsel) as Hq.
  destruct (Queue.pop (sel.1 (state k))) as [[v q]|]; [|by inv_ok]. inv_ok. repeat kstep.
  match goal with G : match v with _ => _ end ?s1 = (Ok _, k') |- _ => assert (k' = s1) as -> by (by destruct v; inv_ok) end.
  rewrite Hst, Hst0. apply Hq.
Qed.

Lemma tames_take_integer prog queue : tames prog (take_integer queue).
Proof.
  apply tames_still; [apply keeps_take_integer|]. intros k x k' _ (N & E & G)%take_integer_frame.
  split; [done|split; [by apply shrinks_nodes|done]].
Qed.

Lemma new_pending_not_crash i a ds ps : new_pending i a ds ps ≠ Crash.
Proof. unfold new_pending. by apply bind_not_crash; [apply reject_if_not_crash|]. Qed.

Lemma annotated_arity prog i p :
  program_ok prog → predicates prog !! i = Some p → rp_kind p = AnnotatedEquality → Rule.arity p = 3%nat.
Proof.
  intros Hp Hi Hk. pose proof (predicate_signature _ _ (program_predicates _ Hp _ _ Hi)) as Hs. rewrite Hk in Hs.
  cbn in Hs. apply bool_decide_eq_true in Hs. unfold Rule.arity. by rewrite Hs.
Qed.

(** Nothing is queued, or an equality with three arguments was taken. *)
Definition taken (s s' : RuleEngine * TableauKernel) (o : option PendingAnnotatedEquality) : Prop :=
  match o with
  | None => s' = s ∧ Queue.pop (annotated_equalities (state s.2)) = None
  | Some pending => length (ga_arguments (pe_atom pending)) = 3%nat
  end.

Lemma safe_take prog s :
  program_ok prog → ready prog s → atoms_valid s.1 →
  safe (inside prog) Engine.take_pending_annotated_equality s (λ o s', taken s s' o).
Proof.
  intros Hprog Hs Ha. unfold Engine.take_pending_annotated_equality.
  eapply safe_bind with (Q := λ o s', s'.1 = s.1 ∧ (o = None → s' = s ∧ Queue.pop (annotated_equalities (state s.2)) = None)); [done| |].
  { intros _. destruct (safe_ker prog (take_integer "annotated_equalities") s Hs) as [Hr Hx];
      [apply tames_take_integer|apply take_integer_returns|done|].
    split; [done|]. intros o s' E. destruct (Hx o s' E) as [Ho _]. split; [done|].
    unfold Engine.ker in E. destruct (take_integer _ s.2) as [r k'] eqn:Et. injection E as -> <-. split; [done|].
    intros ->. unfold take_integer in Et. inv_ok.
    match goal with G : integer_queue _ = Some ?sel |- _ =>
      assert (sel.1 (state s.2) = annotated_equalities (state s.2)) as Esel by (by injection G as <-) end. rewrite Esel in Et.
    destruct (Queue.pop (annotated_equalities (state s.2))) as [[v q]|]; [|apply mret_Ok in Et as [_ ->]; by destruct s].
    exfalso. apply st_bind_Ok in Et as (? & ? & _ & Et). apply st_bind_Ok in Et as (? & ? & _ & Et). destruct v; inv_ok; done. }
  intros [action|] s1 _ Hs1 [E1 Hn]; [|by apply safe_mret; [|by apply Hn]].
  eapply safe_bind; [done|apply safe_reads with (Q := λ a s', s' = s1 ∧ Rule.validate_ground_atom a prog = Ok tt); [done|apply ok_or_not_crash|]|].
  { intros a Hi%ok_or_Ok. split; [done|]. rewrite <-(ready_program _ _ Hs), E1 in *. apply Ha. by eapply list_elem_of_lookup_2. }
  intros a s2 _ _ [-> Hv]. apply validate_ground_Ok in Hv as (p & Hp & Hlen).
  eapply safe_bind; [done|apply safe_reads with (Q := λ kind s', kind = rp_kind p); [done|by apply bind_not_crash; [apply predicate_not_crash|]|]|].
  { intros kind. rewrite (ready_program _ _ Hs1), predicate_kind_Ok. intros (q & Hq & E). congruence. }
  intros kind s3 _ Hs3 ->.
  eapply safe_bind; [done|apply safe_lift with (Q := λ _ _, length (ga_arguments a) = 3%nat); [done|apply reject_if_not_crash|]|].
  { intros [] Hk%reject_if_Ok. apply negb_false_iff, bool_decide_eq_true in Hk. rewrite Hlen. by eapply annotated_arity. }
  intros [] s4 _ Hs4 Ha3. cbn beta in Ha3.
  eapply safe_bind; [done|apply safe_ker; [done| |by returns_steps]|].
  { intros k x k' Hk [_ ->]%gets_Ok. by apply tame_refl. }
  intros rows s5 _ Hs5 _.
  eapply safe_bind; [done|apply safe_lift with (Q := λ pending _, pe_atom pending = a); [done|apply new_pending_not_crash|]|].
  { intros pending ([] & _ & [= <-])%outcome_bind_Ok. done. }
  intros pending s6 _ Hs6 E. cbn beta in E. apply safe_mret; [done|]. cbn. by rewrite E.
Qed.

Lemma can_forget_not_crash k a b c : Nominals.can_forget_canonical k a b c ≠ Crash.
Proof.
  unfold Nominals.can_forget_canonical. repeat (apply bind_not_crash; [apply require_active_not_crash|intros ? _]). done.
Qed.

(** ** The step of a queued equality *)

(** Kernel, engine and manager fit each other. *)
Record introduced (s : NominalState) : Prop := {
  introduced_live : live (at_world s.2);
  introduced_atoms : atoms_valid (w_access s.2);
  introduced_manager : nominals_ok (re_program (w_access s.2)) s.1
}.

Lemma introduced_fit s : introduced s → fit (re_program (w_access s.2)) s.
Proof. intros [L A M]. split; [by apply (live_ready _ L)|done|done]. Qed.

Lemma introduced_within s s' : introduced s → within (re_program (w_access s.2)) s s' → introduced s'.
Proof.
  intros [L A M] W. pose proof W as [_ [_ A' M'] G _ _]. split; [by eapply live_within|done|].
  by rewrite (grows_program _ _ G).
Qed.

(** The branch that was opened, and the context filed for it. *)
Record opened (s s' : NominalState) (c : BranchContext) (b : Branch) : Prop := {
  opened_branches : branches (kernel_of s') = branches (kernel_of s) ++ [b];
  opened_kind : choice_kind b = "merge"%string;
  opened_alternatives : alternatives b = Nominals.choices (bc_cardinality c);
  opened_first : next_alternative b = 0%nat;
  opened_source : source_id b = bc_action_id c;
  opened_fresh : nm_branch_contexts s.1 !! bc_action_id c = None;
  opened_contexts : nm_branch_contexts s'.1 = <[bc_action_id c := c]> (nm_branch_contexts s.1)
}.

(** What processing a queued equality does to the stack and the contexts. *)
Definition processed (s : NominalState) (t : BranchTransition) (s' : NominalState) : Prop :=
  introduced s' ∧ nm_limits s'.1 = nm_limits s.1 ∧
  match t with
  | NoWork => at_world s'.2 = at_world s.2 ∧ Queue.pop (annotated_equalities (state (kernel_of s))) = None
  | Satisfied | Deterministic =>
      branches (kernel_of s') = branches (kernel_of s) ∧ nm_branch_contexts s'.1 = nm_branch_contexts s.1
  | Branched => ∃ c b, opened s s' c b
  | _ => False
  end.

Lemma processed_after s s1 t s' :
  within (re_program (w_access s.2)) s s1 → t ≠ NoWork → processed s1 t s' → processed s t s'.
Proof.
  intros [F _ _ C L] Ht (I & L' & Hm). split; [done|]. split; [congruence|].
  destruct t; try done; rewrite <-?C, <-?(frame_branches _ _ F); try done.
  destruct Hm as (c & b & [Ob Ok' Oa Of Os Ofr Oc]). exists c, b. rewrite (frame_branches _ _ F) in Ob. rewrite C in Ofr, Oc. by split.
Qed.

Section running.
Context (others : nat → CancellationState → CancellationState) (clock : nat → N).

(** A safe computation from a state where everything fits. *)
Lemma answers_within {X} (m : st NominalState NativeError X) s Q :
  introduced s → safe (introducing (re_program (w_access s.2))) m s Q →
  answers m s (λ x s', within (re_program (w_access s.2)) s s' ∧ introduced s' ∧ Q x s').
Proof.
  intros Hs Hm. eapply answers_impl; [apply (answers_safe (introducing (re_program (w_access s.2))) _ _ _ (introduced_fit _ Hs) Hm)|].
  intros x s' (W & _ & HQ). split_and!; [done|by eapply introduced_within|done].
Qed.

Lemma push_introduced kind alts sid d s lvl k' :
  canonical d → introduced s → push_branch kind alts sid d (kernel_of s) = (Ok lvl, k') →
  introduced (s.1, mkWorld k' (w_access s.2) (w_cancel s.2) (w_polls s.2)).
Proof.
  intros Hd [[W P] A M] H. split; [|done|done]. split; [|done]. by eapply world_push.
Qed.

Lemma branch_choices_spec c d s :
  introduced s → canonical d →
  (∃ p, predicates (re_program (w_access s.2)) !! N.to_nat (bc_predicate_id c) = Some p ∧ rp_cardinality p = Some (bc_cardinality c)) →
  answers (Nominals.branch_choices others clock c d) s (λ t s', t ≠ NoWork ∧ processed s t s').
Proof.
  intros Hs Hd Hc. pose proof (live_program _ (introduced_live _ Hs)) as Hprog.
  unfold Nominals.branch_choices. eapply answers_bind; [by apply answers_gets with (Q := λ x s', x = s ∧ s' = s)|].
  intros x s' [-> ->]. destruct (bc_cardinality c =? 1)%N eqn:E1.
  { eapply answers_bind; [apply answers_within; [done|by apply nsafe_apply_choice; [|apply introduced_fit]]|].
    intros [] s1 (W & I & _). apply answers_mret. split; [done|]. split_and!; [done|apply W|apply (frame_branches _ _ (within_frame _ _ _ W))|apply W]. }
  cbv zeta. eapply answers_bind; [apply answers_lift with (Q := λ _ s', s' = s); [apply reject_if_not_crash|done]|]. intros [] s' ->.
  set (s1 := (s.1 <| nm_branch_contexts ::= <[bc_action_id c := c]> |>, s.2) : NominalState).
  eapply answers_bind with (Q := λ _ s', s' = s1); [split; [done|]; by intros [] s' [= <-]|]. intros [] s' ->.
  eapply answers_bind; [apply answers_lift with (Q := λ _ s', s' = s1 ∧ nm_branch_contexts s.1 !! bc_action_id c = None);
    [apply reject_if_not_crash|]|].
  { intros [] Hn%reject_if_Ok. apply bool_decide_eq_false, eq_None_not_Some in Hn. done. }
  intros [] s' [-> Hfresh]. assert (introduced s1) as Hs1.
  { destruct Hs as [L A [R C T]]. split; [done|done|]. split; cbn; [done| |done].
    intros a c' [[<- <-]|[_ Ha]]%lookup_insert_Some; [|by apply C]. split_and!; [done|by apply N.eqb_neq|done]. }
  eapply answers_bind with (Q := λ lvl s', ∃ b, s'.1 = s1.1 ∧ introduced s' ∧ w_access s'.2 = w_access s.2 ∧
    branches (kernel_of s') = branches (kernel_of s) ++ [b] ∧ choice_kind b = "merge"%string ∧
    alternatives b = Nominals.choices (bc_cardinality c) ∧ next_alternative b = 0%nat ∧ source_id b = bc_action_id c).
  { unfold Nominals.world, kern. split.
    - cbn. pose proof (push_branch_returns "merge" (Nominals.choices (bc_cardinality c)) (bc_action_id c) d (kernel_of s)) as Hr.
      by destruct (push_branch _ _ _ _ _).
    - intros lvl s'. destruct (push_branch _ _ _ _ _) as [r k'] eqn:Ep. intros [= -> <-].
      pose proof (push_introduced _ _ _ _ s1 _ _ Hd Hs1 Ep) as Hi.
      apply push_branch_Ok in Ep as (_ & _ & _ & _ & _ & _ & _ & b & -> & _ & Hkind & Halt & Hsrc & _ & _ & Hnext & _).
      exists b. by split_and!. }
  intros lvl s2 (b & E2 & Hs2 & Ea & Hb & Hkind & Halt & Hnext & Hsrc).
  assert (program_ok (re_program (w_access s2.2))) as Hprog2 by (by rewrite Ea).
  eapply answers_bind; [apply answers_within; [done|by apply nsafe_context, introduced_fit]|]. intros [] s3 (W3 & Hs3 & _).
  eapply answers_bind; [apply answers_within; [done|apply nsafe_apply_choice; [|by apply introduced_fit]]|].
  { by rewrite (grows_program _ _ (within_engine _ _ _ W3)). }
  intros [] s4 (W4 & Hs4 & _). apply answers_mret. split; [done|].
  destruct W3 as [F3 _ G3 C3 L3], W4 as [F4 _ G4 C4 L4]. split; [done|]. split; [by rewrite L4, L3, E2|]. exists c, b. split; try done.
  - by rewrite (frame_branches _ _ F4), (frame_branches _ _ F3).
  - by rewrite C4, C3, E2.
Qed.
(** ** The program of a state *)

Abbreviation program_of s := (re_program (w_access (snd s))).

Lemma within_next s s1 s2 : within (program_of s) s s1 → within (program_of s1) s1 s2 → within (program_of s) s s2.
Proof. intros W1 W2. rewrite (grows_program _ _ (within_engine _ _ _ W1)) in W2. by eapply within_trans. Qed.

Lemma introduced_program s : introduced s → program_ok (program_of s).
Proof. intros Hs. apply (live_program _ (introduced_live _ Hs)). Qed.

(** Looking at the clock and dropping dead roots leave engine and kernel alone. *)
Definition idle (s s' : NominalState) : Prop :=
  within (program_of s) s s' ∧ introduced s' ∧ at_world s'.2 = at_world s.2.

Lemma idle_trans s1 s2 s3 : idle s1 s2 → idle s2 s3 → idle s1 s3.
Proof. intros (W1 & _ & E1) (W2 & I2 & E2). split_and!; [by eapply within_next|done|congruence]. Qed.

Lemma answers_poll s : introduced s → answers (Nominals.poll others clock) s (λ _ s', idle s s' ∧ s'.1 = s.1).
Proof.
  intros Hs. destruct (answers_within _ _ _ Hs (nsafe_poll _ others clock s (introduced_fit _ Hs))) as [Hr Hx]. split; [done|].
  intros [] s' E. destruct (Hx _ _ E) as (W & I & E1). split; [split_and!; [done|done|]|done].
  unfold Nominals.poll, Nominals.world in E. pose proof (poll_still others clock s.2) as Ew.
  destruct (Branching.poll others clock s.2) as [r w']. by injection E as -> <-.
Qed.

Lemma answers_purge s : introduced s → answers Nominals.purge_unavailable_roots s (λ _ s', idle s s').
Proof.
  intros Hs. destruct (answers_within _ _ _ Hs (nsafe_purge _ s (introduced_fit _ Hs))) as [Hr Hx]. split; [done|].
  intros [] s' E. destruct (Hx _ _ E) as (W & I & _). split_and!; [done|done|by injection E as <-].
Qed.

Lemma answers_take s :
  introduced s → answers (Nominals.world (Engine.engine Engine.take_pending_annotated_equality)) s (λ o s',
    within (program_of s) s s' ∧ introduced s' ∧ taken (at_world s.2) (at_world s'.2) o).
Proof.
  intros Hs. eapply answers_impl; [eapply (answers_within _ _ _ Hs), nsafe_world, safe_engine, safe_take;
    [by apply introduced_program|apply (live_ready _ (introduced_live _ Hs))|apply Hs]|].
  cbn beta. by intros o s' (W & I & _ & Ht).
Qed.

Lemma process_pending_spec pending s :
  introduced s → length (ga_arguments (pe_atom pending)) = 3%nat →
  answers (Nominals.process_pending others clock pending) s (λ t s', t ≠ NoWork ∧ processed s t s').
Proof.
  intros Hs Hlen. unfold Nominals.process_pending.
  assert (∀ s1 t s', within (program_of s) s s1 → t ≠ NoWork ∧ processed s1 t s' → t ≠ NoWork ∧ processed s t s') as Hafter.
  { intros s1 t s' W [Ht Hp]. split; [done|by eapply processed_after]. }
  assert (∀ s1 t s', within (program_of s) s s1 → introduced s1 → t = Satisfied ∨ t = Deterministic →
      (mret t : st NominalState NativeError _) s1 = (Ok t, s') → t ≠ NoWork ∧ processed s t s') as Hdone.
  { intros s1 t s' W I Ht [= <-]. split; [by destruct Ht as [->| ->]|]. destruct W as [F _ _ C L]. split_and!; [done|done|].
    destruct Ht as [->| ->]; (split; [apply (frame_branches _ _ F)|done]). }
  eapply answers_bind; [by apply answers_poll|]. intros [] s1 [(W1 & Hs1 & _) _].
  pose proof (introduced_program _ Hs1) as Hprog.
  eapply answers_bind; [apply answers_reads with (Q := λ p s', s' = s1 ∧ predicates (program_of s1) !! N.to_nat (rp_predicate_id p) = Some p);
    [apply annotation_not_crash|]|].
  { intros p Hp. split; [done|]. by eapply annotation_Ok. }
  intros p s' [-> Hp].
  eapply answers_bind; [apply answers_lift with (Q := λ _ s', s' = s1); [apply ok_or_not_crash|done]|]. intros support s' ->.
  eapply answers_bind; [apply answers_reads with (Q := λ o s', s' = s1 ∧ ∀ ns d, o = Some (ns, d) → length ns = 3%nat ∧ canonical d);
    [apply canonical_nodes_spec|]|].
  { intros o Ho. split; [done|]. intros ns d ->. rewrite <-Hlen. by eapply canonical_nodes_spec. }
  intros [[ns d]|] s' [-> Hn].
  2:{ eapply answers_bind; [apply answers_within; [done|apply nsafe_record, (introduced_fit _ Hs1)]|].
      intros [] s2 (W2 & Hs2 & _). split; [done|]. intros t s' E. assert (t = Satisfied) as -> by (by injection E).
      eapply Hdone; [by eapply within_next|done|by left|done]. }
  destruct (Hn ns d eq_refl) as [Hlen3 Hd].
  eapply answers_bind; [apply answers_lift with (Q := λ _ s', s' = s1); [by apply first_three_not_crash|done]|].
  intros [[first second] root] s' ->.
  eapply answers_bind; [apply answers_reads with (Q := λ _ s', s' = s1); [apply can_forget_not_crash|done]|]. intros forget s' ->.
  destruct forget.
  { eapply answers_bind; [apply answers_within; [done|by apply nsafe_merge, (introduced_fit _ Hs1)]|].
    intros res s2 (W2 & Hs2 & _). eapply answers_bind; [apply answers_within; [done|apply nsafe_record, (introduced_fit _ Hs2)]|].
    intros [] s3 (W3 & Hs3 & _). split; [done|]. intros t s' E. assert (t = Deterministic) as -> by (by injection E).
    eapply Hdone; [by eapply within_next; [|eapply within_next]|done|by right|done]. }
  eapply answers_bind; [apply answers_reads with (Q := λ _ s', s' = s1); [by apply bind_not_crash; [apply require_active_not_crash|]|done]|].
  intros pair s' ->.
  eapply answers_bind; [apply answers_lift with (Q := λ c s', s' = s1 ∧ rp_cardinality p = Some c); [apply ok_or_not_crash|by intros c Hc%ok_or_Ok]|].
  intros card s' [-> Hc]. eapply answers_bind; [by apply answers_gets with (Q := λ x s', s' = s1)|]. intros x s' ->.
  eapply answers_impl; [apply branch_choices_spec; [done|done|by exists p]|]. intros t s'. by apply Hafter.
Qed.

Lemma process_next_inner_spec s :
  introduced s → answers (Nominals.process_next_inner others clock) s (processed s).
Proof.
  intros Hs. unfold Nominals.process_next_inner.
  eapply answers_bind; [by apply answers_poll|]. intros [] s1 [H1 _].
  eapply answers_bind; [apply answers_purge, H1|]. intros [] s2 H2. pose proof (idle_trans _ _ _ H1 H2) as (W2 & Hs2 & E2).
  eapply answers_bind; [by apply answers_take|]. intros [pending|] s3 (W3 & Hs3 & Ht).
  - eapply answers_impl; [by apply process_pending_spec|]. intros t s' [Ht' Hp].
    eapply processed_after; [by eapply within_next|done|done].
  - apply answers_mret. destruct Ht as [E3 Hpop]. assert (at_world s3.2 = at_world s.2) as E by congruence.
    split_and!; [done| |done|].
    + by rewrite (within_limits _ _ _ W3), (within_limits _ _ _ W2).
    + by injection E2 as _ <-.
Qed.
(** ** The step of a clash *)

(** The clash at hand belongs to the nominal branch [b] at level [lvl]. *)
Record owned (s : NominalState) (clash : Clash) (lvl : N) (b : Branch) (c : BranchContext) : Prop := {
  owned_clash : current_clash (state (kernel_of s)) = Some clash;
  owned_level : Dep.maximum (clash_dependency clash) = Some lvl;
  owned_branch : branches (kernel_of s) !! N.to_nat lvl = Some b;
  owned_context : nm_branch_contexts s.1 !! source_id b = Some c;
  owned_kind : choice_kind b = "merge"%string
}.

(** The dependency of the clash without the level of the branch. *)
Abbreviation below_branch clash lvl := (Dep.without (clash_dependency clash) lvl).

(** What resolving a clash does: nothing, when there is none or it belongs to
    another component; otherwise the branch moves on, or disappears and hands down
    a clash that only depends on the levels below. *)
Definition resolved (s : NominalState) (t : BranchTransition) (s' : NominalState) : Prop :=
  introduced s' ∧
  match t with
  | NoWork => at_world s'.2 = at_world s.2 ∧ s'.1 = s.1 ∧ ∀ clash lvl b c, ¬ owned s clash lvl b c
  | Unsat => at_world s'.2 = at_world s.2 ∧ ∃ clash, current_clash (state (kernel_of s)) = Some clash ∧ levels (clash_dependency clash) = ∅
  | Advanced => ∃ clash lvl b c choice, owned s clash lvl b c ∧
      alternatives b !! S (next_alternative b) = Some choice ∧
      branches (kernel_of s') = take (N.to_nat lvl) (branches (kernel_of s)) ++ [advanced (below_branch clash lvl) b] ∧
      nm_branch_contexts s'.1 = nm_branch_contexts s.1
  | Exhausted => ∃ clash lvl b c d, owned s clash lvl b c ∧
      (length (alternatives b) ≤ S (next_alternative b))%nat ∧
      branches (kernel_of s') = take (N.to_nat lvl) (branches (kernel_of s)) ∧
      nm_branch_contexts s'.1 = delete (source_id b) (nm_branch_contexts s.1) ∧
      current_clash (state (kernel_of s')) = Some (mkClash "impossible_cardinality" d [bc_action_id c] (head (bc_provenance_ids c))) ∧
      ∀ l, l ∈ levels d → l < lvl
  | _ => False
  end.

Lemma answers_advance lvl learned s :
  introduced s → answers (Nominals.world (kern (advance_branch lvl learned))) s (λ o s',
    introduced s' ∧ s'.1 = s.1 ∧ w_access s'.2 = w_access s.2 ∧ advance_branch lvl learned (kernel_of s) = (Ok o, kernel_of s')).
Proof.
  intros Hs. pose proof (advance_branch_returns lvl learned (kernel_of s) (world_wf _ _ (live_world _ (introduced_live _ Hs)))) as Hr.
  unfold answers, Nominals.world, kern. destruct (advance_branch lvl learned (w_kernel s.2)) as [r k'] eqn:E. split; [done|].
  intros o s' [= -> <-]. split_and!; [|done|done|done]. destruct Hs as [[W P] A M]. split; [|done|done]. split; [|done].
  by eapply world_advance.
Qed.

Lemma answers_install kind d ps p s :
  canonical d → introduced s → answers (Nominals.world (kern (install_clash kind d ps p))) s (λ r s',
    introduced s' ∧ s'.1 = s.1 ∧ install_clash kind d ps p (kernel_of s) = (Ok r, kernel_of s')).
Proof.
  intros Hd Hs. pose proof (install_clash_returns kind d ps p (kernel_of s)) as Hr.
  unfold answers, Nominals.world, kern. destruct (install_clash kind d ps p (w_kernel s.2)) as [r k'] eqn:E. split; [done|].
  intros o s' [= -> <-]. split_and!; [|done|done]. destruct Hs as [[W P] A M]. split; [|done|done]. split; [|done].
  by eapply world_install.
Qed.

(** Applying the alternative that the kernel moved to. *)
Lemma follow_advanced c b d dw choice s :
  introduced s → answers (Nominals.follow_alternative others clock c b d dw (Some choice)) s (λ t s',
    t = Advanced ∧ introduced s' ∧ branches (kernel_of s') = branches (kernel_of s) ∧ nm_branch_contexts s'.1 = nm_branch_contexts s.1).
Proof.
  intros Hs. cbn [Nominals.follow_alternative]. cbv zeta.
  eapply answers_bind; [apply answers_within; [done|apply nsafe_context, (introduced_fit _ Hs)]|]. intros [] s1 (W1 & Hs1 & _).
  eapply answers_bind; [apply answers_within; [done|apply nsafe_apply_choice, (introduced_fit _ Hs1); by apply introduced_program]|].
  intros [] s2 (W2 & Hs2 & _). apply answers_mret. pose proof (within_next _ _ _ W1 W2) as [F _ _ C _].
  split_and!; [done|done|apply (frame_branches _ _ F)|done].
Qed.

(** Handing the clash down. *)
Lemma follow_exhausted c b d dw s :
  introduced s → answers (Nominals.follow_alternative others clock c b d dw None) s (λ t s',
    t = Exhausted ∧ introduced s' ∧ nm_branch_contexts s'.1 = delete (bc_action_id c) (nm_branch_contexts s.1) ∧
    ∃ d' r k', canonical d' ∧ install_clash "impossible_cardinality" d' [bc_action_id c] (head (bc_provenance_ids c)) (kernel_of s) = (Ok r, k') ∧
      branches (kernel_of s') = branches k' ∧ current_clash (state (kernel_of s')) = current_clash (state k')).
Proof.
  intros Hs. cbn [Nominals.follow_alternative]. cbv zeta.
  set (s1 := (s.1 <| nm_branch_contexts ::= delete (bc_action_id c) |>, s.2) : NominalState).
  eapply answers_bind with (Q := λ _ s', s' = s1); [split; [done|]; by intros [] s' [= <-]|]. intros [] s' ->.
  assert (introduced s1) as Hs1.
  { destruct Hs as [L A [R C T]]. split; [done|done|]. split; cbn; [done| |done]. intros a c' [_ Ha]%lookup_delete_Some. by apply C. }
  eapply answers_bind; [apply answers_install; [apply canonical_union|done]|]. intros r s2 (Hs2 & E2 & Hi).
  eapply answers_bind with (Q := λ _ s', introduced s' ∧ s'.2 = s2.2 ∧ nm_branch_contexts s'.1 = nm_branch_contexts s2.1).
  { destruct (answers_within _ _ _ Hs2 (nsafe_context _ BranchExhausted c (Dep.union [base_dependency b; learned_dependency b; dw])
      [bc_root c; bc_target c; bc_other c] None s2 (introduced_fit _ Hs2))) as [Hr Hx]. split; [done|].
    intros [] s' E. destruct (Hx _ _ E) as (_ & I & _). by injection E as <-. }
  intros [] s3 (Hs3 & E3 & C3). apply answers_mret. split_and!; [done|done|by rewrite C3, E2|].
  eexists _, r, (kernel_of s2). split_and!; [apply canonical_union|exact Hi|by rewrite E3|by rewrite E3].
Qed.

Lemma resolve_clash_inner_spec s :
  introduced s → answers (Nominals.resolve_clash_inner others clock) s (resolved s).
Proof.
  intros Hs. unfold Nominals.resolve_clash_inner.
  eapply answers_bind; [by apply answers_poll|]. intros [] s1 [(W1 & Hs1 & E1) M1].
  eapply answers_bind; [by apply answers_gets with (Q := λ x s', x = s1 ∧ s' = s1)|]. intros x s' [-> ->]. unfold clash.
  assert (w_kernel s1.2 = kernel_of s) as Ek by (by injection E1).
  assert (∀ (Hn : ∀ clash lvl b c, ¬ owned s clash lvl b c), answers (mret NoWork : st NominalState NativeError _) s1 (resolved s)) as Hno.
  { intros Hn. by apply answers_mret. }
  rewrite Ek. destruct (current_clash (state (kernel_of s))) as [clash|] eqn:Ec.
  2:{ apply Hno. intros clash lvl b c [Hc _ _ _ _]. congruence. }
  destruct (Dep.maximum (clash_dependency clash)) as [lvl|] eqn:Em.
  2:{ apply answers_mret. split_and!; [done|done|]. exists clash. split; [done|]. apply maximum_None in Em. apply set_eq.
      intros l. rewrite elem_of_levels, Em. set_solver. }
  eapply answers_bind; [apply answers_reads with (Q := λ b s', s' = s1 ∧ branches (kernel_of s) !! N.to_nat lvl = Some b);
    [apply ok_or_not_crash|rewrite Ek; by intros b Hb%ok_or_Ok]|].
  intros b s' [-> Hb]. rewrite M1. destruct (nm_branch_contexts s.1 !! source_id b) as [c|] eqn:Ectx.
  2:{ apply Hno. intros clash' lvl' b' c' [Hc Hl Hb' Hctx _]. congruence. }
  case_bool_decide as Hkind; cbn [negb].
  2:{ apply Hno. intros clash' lvl' b' c' [Hc Hl Hb' _ Hk']. congruence. }
  assert (owned s clash lvl b c) as Hown by done. cbv zeta.
  eapply answers_bind; [by apply answers_advance|]. intros o s2 (Hs2 & M2 & Ea2 & Hadv). rewrite Ek in Hadv.
  eapply answers_bind; [by apply answers_poll|]. intros [] s3 [H3 M3].
  eapply answers_bind; [apply answers_purge, H3|]. intros [] s4 H4. pose proof (idle_trans _ _ _ H3 H4) as (W4 & Hs4 & E4).
  set (s5 := (s4.1 <| nm_trace ::= take (bc_trace_checkpoint c) |>, s4.2) : NominalState).
  eapply answers_bind with (Q := λ _ s', s' = s5); [split; [done|]; by intros [] s' [= <-]|]. intros [] s' ->.
  assert (introduced s5) as Hs5.
  { destruct Hs4 as [L A [R C T]]. split; [done|done|]. split; cbn; [done|done|]. intros i e [Hi _]%lookup_take_Some. by apply T. }
  assert (kernel_of s5 = kernel_of s2) as Ek5 by (by injection E4).
  assert (nm_branch_contexts s5.1 = nm_branch_contexts s.1) as Ec5 by (cbn; by rewrite (within_contexts _ _ _ W4), M2, M1).
  pose proof (world_wf _ _ (live_world _ (introduced_live _ Hs))) as Hwf.
  destruct (advance_branch_Ok _ _ _ _ _ Hadv) as (b0 & Hb0 & Hcase). assert (b0 = b) as -> by congruence.
  destruct o as [choice|].
  - destruct Hcase as [Halt Ek2]. eapply answers_impl; [by apply follow_advanced|].
    intros t s' (-> & I & Ebr & Ectx'). split; [done|]. exists clash, lvl, b, c, choice. split_and!; [done|done| |congruence].
    rewrite Ebr, Ek5, Ek2. done.
  - destruct Hcase as [Hlen Ek2]. eapply answers_impl; [by apply follow_exhausted|].
    intros t s' (-> & I & Ectx' & d & r & k' & Hd & Hi & Ebr & Ecl). rewrite Ek5 in Hi.
    destruct (install_below _ _ _ _ lvl b _ _ _ _ Hwf Hb Hd Ek2 Hi) as (Hbr & Hcl & Hlv).
    destruct (nominal_contexts _ _ (introduced_manager _ Hs) _ _ Ectx) as [Eact _].
    split; [done|]. exists clash, lvl, b, c, d. split_and!; [done|done|by rewrite Ebr|by rewrite Ectx', Ec5, Eact|by rewrite Ecl|done].
Qed.
End running.

(** ** However it ends *)

(** The operation root is kept, the registry of atoms only grows and the limits stay. *)
Definition slides {X} (m : st NominalState NativeError X) : Prop :=
  ∀ s, nm_limits (m s).2.1 = nm_limits s.1 ∧ drift (at_world s.2) (at_world (m s).2.2).

Lemma slides_bind {X Y} (m : st NominalState NativeError X) (f : X → st NominalState NativeError Y) :
  slides m → (∀ x, slides (f x)) → slides (m ≫= f).
Proof.
  intros Hm Hf s. unfold mbind, st_bind. specialize (Hm s). destruct (m s) as [[x|e|] s1]; [|done..].
  destruct Hm as [L1 D1], (Hf x s1) as [L2 D2]. cbn in *. split; [congruence|by etrans].
Qed.

Lemma slides_still {X} (m : st NominalState NativeError X) : (∀ s, (m s).2 = s) → slides m.
Proof. intros Hm s. by rewrite Hm. Qed.

Lemma slides_manager f : (∀ m, nm_limits (f m) = nm_limits m) → slides (Nominals.upd_manager f).
Proof. intros Hf s. split; [apply Hf|done]. Qed.

Lemma slides_world {X} (m : st (World RuleEngine) NativeError X) : wdrifts m → slides (Nominals.world m).
Proof. intros Hm s. unfold Nominals.world. specialize (Hm s.2). by destruct (m s.2) as [r w']. Qed.

Lemma slides_kern {X} (m : K X) : moves same_operation_root m → slides (Nominals.world (kern m)).
Proof. intros Hm. by apply slides_world, wdrifts_kern. Qed.

Ltac slide_steps :=
  repeat match goal with
    | |- slides (_ ≫= _) => apply slides_bind; [|intros ?]
    | |- slides (Nominals.upd_manager _) => by apply slides_manager
    | |- slides (Nominals.sees _) => by apply slides_still
    | |- slides (gets _) => by apply slides_still
    | |- slides (reads _) => by apply slides_still
    | |- slides (lift _) => by apply slides_still
    | |- slides (mret _) => by apply slides_still
    | |- slides (match ?x with _ => _ end) => destruct x
    | |- slides (let _ := _ in _) => cbv zeta
    | |- _ => assumption
    end.

Lemma slides_scan direct keys found : slides (Nominals.scan_keys direct keys found).
Proof. revert found. induction keys as [|key keys IH]; intros found; cbn [Nominals.scan_keys]; slide_steps; apply IH. Qed.

Lemma slides_find root p lvl : slides (Nominals.find_root_key root p lvl).
Proof. unfold Nominals.find_root_key. slide_steps; apply slides_scan. Qed.

Lemma root_create kind parent named sid nominal tag : moves same_operation_root (create_node kind parent named sid nominal tag).
Proof. unfold create_node, record_mutation. by moves_steps. Qed.

Lemma drifts_register h d : drifts (Engine.register_node h d).
Proof.
  unfold Engine.register_node, Engine.dispatch_ground_atom. apply drifts_bind; [apply drifts_looks|intros sort].
  apply drifts_bind; [apply drifts_looks|intros [pid|]]; [|apply drifts_mret]. apply drifts_bind; [apply drifts_lift|intros a].
  apply drifts_bind; [apply drifts_gets|intros s]. apply drifts_dispatch.
Qed.

Lemma slides_get_root root p lvl d c : slides (Nominals.get_or_create_root root p lvl d c).
Proof.
  unfold Nominals.get_or_create_root, Nominals.stored_root, Nominals.record_context. slide_steps.
  - apply slides_find.
  - apply slides_kern, root_create.
  - apply slides_world, wdrifts_engine, drifts_register.
Qed.

Lemma drifts_take : drifts Engine.take_pending_annotated_equality.
Proof.
  unfold Engine.take_pending_annotated_equality. apply drifts_bind.
  { apply drifts_ker. unfold take_integer, record_mutation. cbn. by moves_steps. }
  intros [action|]; [|apply drifts_mret]. apply drifts_bind; [apply drifts_looks|intros a].
  apply drifts_bind; [apply drifts_looks|intros kind]. apply drifts_bind; [apply drifts_lift|intros _].
  apply drifts_bind; [apply drifts_ker; by moves_steps|intros rows]. apply drifts_bind; [apply drifts_lift|intros pending]. apply drifts_mret.
Qed.

Section errors.
Context (others : nat → CancellationState → CancellationState) (clock : nat → N).

Lemma slides_poll : slides (Nominals.poll others clock).
Proof. apply slides_world, wdrifts_still, poll_still. Qed.

Lemma slides_merge l r d : slides (Nominals.merge others clock l r d).
Proof.
  apply slides_world. unfold Engine.merge_nodes. apply wdrifts_merge. intros a d' c p. unfold Engine.dispatch_ground_atom.
  apply drifts_bind; [apply drifts_gets|intros s; apply drifts_dispatch].
Qed.

Lemma slides_apply_choice c choice d : slides (Nominals.apply_choice others clock c choice d).
Proof.
  unfold Nominals.apply_choice, Nominals.merge_other, Nominals.record_context. slide_steps;
    first [apply slides_poll | apply slides_get_root | apply slides_merge].
Qed.

Lemma slides_purge : slides Nominals.purge_unavailable_roots.
Proof. intros s. by split. Qed.

Lemma root_push kind alts sid d : moves same_operation_root (push_branch kind alts sid d).
Proof. unfold push_branch, bump_sequence. by moves_steps. Qed.

Lemma slides_process : slides (Nominals.process_next_inner others clock).
Proof.
  unfold Nominals.process_next_inner, Nominals.process_pending, Nominals.branch_choices, Nominals.record, Nominals.record_context.
  slide_steps; first [apply slides_poll | apply slides_purge | apply slides_merge | apply slides_apply_choice
    | apply slides_kern, root_push | apply slides_world, wdrifts_engine, drifts_take].
Qed.

Lemma root_advance lvl d : moves same_operation_root (advance_branch lvl d).
Proof. unfold advance_branch, backtrack_to. by moves_steps. Qed.

Lemma slides_resolve : slides (Nominals.resolve_clash_inner others clock).
Proof.
  unfold Nominals.resolve_clash_inner, Nominals.follow_alternative, Nominals.record_context.
  slide_steps; first [apply slides_poll | apply slides_purge | apply slides_apply_choice
    | apply slides_kern, root_advance | apply slides_kern, root_install].
Qed.

(** What a failed operation leaves: the manager as it was, and the kernel's state
    up to the generation table. *)
Record undone (s s' : NominalState) : Prop := {
  undone_manager : s'.1 = s.1;
  undone_state : ∃ gens, state (kernel_of s') = restore_state gens (state (kernel_of s));
  undone_trail : trail_length (kernel_of s') = trail_length (kernel_of s);
  undone_root : operation_root (kernel_of s') = operation_root (kernel_of s);
  undone_engine : grows (w_access s.2) (w_access s'.2)
}.

Lemma paired_spec {X} (m : st NominalState NativeError X) s Q :
  slides m → answers m s Q →
  match Nominals.paired m s with
  | (Ok x, s') => Q x s'
  | (Err _, s') => undone s s'
  | (Crash, _) => False
  end.
Proof.
  intros Hs [Hr Hx]. unfold Nominals.paired. specialize (Hs s). destruct (m s) as [[x|e|] s1]; [by apply Hx| |done].
  destruct Hs as [L [R G]]. cbn in *. split; [|by eexists|done|done|done].
  unfold Nominals.restore, Nominals.checkpoint. cbn. destruct s as [[] w], s1 as [[] w1]. cbn in *. by rewrite L.
Qed.

(** ** Draining the queue *)

Definition drained_nominals (s : NominalState) : Prop :=
  introduced s ∧ Queue.pop (annotated_equalities (state (kernel_of s))) = None.

Lemma process_turns limits :
  turns (λ n s, introduced s ∧ nm_limits s.1 = limits ∧ n ≤ max_actions_per_run limits)
    (λ n _, max_actions_per_run limits + 1 - n) (λ n s, n < max_actions_per_run limits ∧ drained_nominals s) 1 (Nominals.process_turn others clock).
Proof.
  intros n s (Hs & El & Hn). unfold Nominals.process_turn, mbind, st_bind, gets, id, lift. cbn. rewrite El.
  destruct (n <? max_actions_per_run limits)%N eqn:E; [|done]. apply N.ltb_lt in E.
  pose proof (paired_spec _ _ _ slides_process (process_next_inner_spec others clock s Hs)) as Hp.
  fold (Nominals.process_next others clock) in Hp. destruct (Nominals.process_next others clock s) as [[t|e|] s1]; [|done|done].
  destruct Hp as (Hs1 & El1 & Ht). case_bool_decide as Hnw.
  - split; [done|]. intros x s' [= <- <-]. subst t. split; [done|]. split; [done|]. destruct Ht as [E1 Hpop]. by injection E1 as _ ->.
  - pose proof (ok_or_not_crash (checked_add u64_max n 1) (NativeErr.invariant "nominal action counter overflow")) as Hc.
    destruct (ok_or _ _) as [next|e|] eqn:En; [|done|done]. apply ok_or_Ok, checked_add_Some in En as [-> _].
    split; [done|]. intros x s' [= <- <-]. split_and!; [done|congruence|lia|lia|lia].
Qed.

Lemma process_all_spec s :
  introduced s → answers (Nominals.process_all others clock) s (λ n s', n < max_actions_per_run (nm_limits s.1) ∧ drained_nominals s').
Proof.
  intros Hs. unfold Nominals.process_all, answers, mbind, st_bind, gets, id.
  apply (loopM_returns _ _ (λ n s', n < max_actions_per_run (nm_limits s.1) ∧ drained_nominals s') _ _ 0 s (process_turns (nm_limits s.1))); [split_and!; [done|done|lia]|].
  lia.
Qed.
End errors.
