(* ===== verification/NominalTheorems.v ===== *)
(** * Theorems about nominal introduction

    Over the program of this file: concepts [A] and [B] that exclude each other,
    equality and inequality of objects, and an annotated equality with two
    nominal roots to choose from. *)

From S2P Require Import Prelude Order Errors Model Queue Store Kernel KernelBase Arena Facts FactOps.
From S2P Require Import StateInv NodeOps Merge Prune KernelInv Totality StoreTheorems Cancel Branching RuleModel Merging.
From S2P Require Import RulePlans Joins RuleEngine RuleSpec PlanSpec JoinBase EngineBase EngineSafe EngineDispatch EngineRun RuleTheorems.
From S2P Require Import Nominals NominalSpec NominalRun.
Import Kernel.

(** ** The theorems *)

Section nominals.
Context (others : nat → CancellationState → CancellationState) (clock : nat → N).


(** C18: resolving a clash answers.  A success leaves a clash of another component
    alone, moves the nominal branch the clash depends on last to its next root, or
    drops an exhausted branch and hands down a clash on lower levels. *)
Theorem nominal_resolve_refines s :
  introduced s →
  match Nominals.resolve_clash others clock s with
  | (Ok t, s') => resolved s t s'
  | (Err _, s') => undone s s'
  | (Crash, _) => False
  end.
Proof. intros Hs. apply paired_spec; [apply slides_resolve|by apply resolve_clash_inner_spec]. Qed.

(** C19: processing all queued equalities comes back; when it succeeds it took
    fewer actions than allowed and the queue is empty. *)
Theorem nominal_drain_terminates s :
  introduced s →
  match Nominals.process_all others clock s with
  | (Ok n, s') => n < max_actions_per_run (nm_limits s.1) ∧ drained_nominals s'
  | (Err _, _) => True
  | (Crash, _) => False
  end.
Proof.
  intros Hs. destruct (process_all_spec others clock s Hs) as [Hr Hx].
  destruct (Nominals.process_all others clock s) as [[n|e|] s']; [by apply Hx|done|done].
Qed.
End nominals.

(** ** A program with nominals *)

Definition nominal_predicates : list RulePredicate :=
  [ Rule.with_symbol_id (plain_predicate 0 Concept [TObject]) 0;
    Rule.with_symbol_id (plain_predicate 1 Concept [TObject]) 1;
    Rule.with_opposite (plain_predicate 2 Equality [TObject; TObject]) 3;
    Rule.with_opposite (plain_predicate 3 Inequality [TObject; TObject]) 2;
    Rule.with_cardinality (plain_predicate 4 AnnotatedEquality [TObject; TObject; TObject]) 2 7 0 ].

Definition nominal_body : list RuleAtom := [mkRuleAtom 0 [object_variable 0]; mkRuleAtom 1 [object_variable 0]].
Definition nominal_clause : RuleClause := mkRuleClause 0 nominal_body [] [0] [0; 1].
Definition nominal_program : RuleProgram := mkRuleProgram nominal_predicates [nominal_clause].

Lemma nominal_program_ok : program_ok nominal_program.
Proof.
  assert (Rule.new_program nominal_predicates [nominal_clause] = Ok nominal_program) as E by (vm_compute; reflexivity).
  apply (new_program_ok _ _ _ E).
Qed.

Lemma nominal_built c : c ∈ clauses nominal_program → built c ∧ narrow c.
Proof.
  intros ->%list_elem_of_singleton. split.
  - exists 0, nominal_body, [], [0], [0; 1]. vm_compute. reflexivity.
  - intros a Ha. repeat (apply elem_of_cons in Ha as [->|Ha]; [done|]). by apply not_elem_of_nil in Ha.
Qed.

Definition nominal_engine : RuleEngine :=
  match (Engine.new nominal_program ∅ ∅ true 1).1 with Ok e => e | _ => sample_engine end.

Lemma nominal_engine_new : Engine.new nominal_program ∅ ∅ true 1 = (Ok nominal_engine, 2).
Proof. vm_compute. reflexivity. Qed.

(** A root with two children, each with a child of its own. *)
Definition ancestor_node : NodeHandle := mkHandle 0 1.
Definition direct1 : NodeHandle := mkHandle 1 1.
Definition nested1 : NodeHandle := mkHandle 2 1.
Definition direct2 : NodeHandle := mkHandle 3 1.
Definition nested2 : NodeHandle := mkHandle 4 1.

Definition forest : list operation :=
  [ OpCreateNode Root None false None None None;
    OpCreateNode Tree (Some ancestor_node) false None None None;
    OpCreateNode Tree (Some direct1) false None None None;
    OpCreateNode Tree (Some ancestor_node) false None None None;
    OpCreateNode Tree (Some direct2) false None None None ].

Definition forest_kernel : TableauKernel := (perform_all forest TableauKernel_new).2.

Lemma forest_wf : wf forest_kernel.
Proof.
  apply reachable_wf. eapply (perform_all_reachable forest _ [ancestor_node; direct1; nested1; direct2; nested2]);
    [apply reachable_new|reflexivity|]. vm_compute. reflexivity.
Qed.

Definition forest_world : World RuleEngine := mkWorld forest_kernel nominal_engine unlimited 0.

Lemma forest_live : live (at_world forest_world).
Proof.
  destruct (new_engine_Ok nominal_program nominal_program_ok nominal_built ∅ ∅ default_rule_limits Engine.default_checkpoint_limits true)
    as [_ Hok]. destruct (Hok _ _ _ nominal_engine_new) as (Ep & Hj & Hi & _).
  apply (new_engine_live nominal_program); [done|done|]. split; cbn; rewrite ?Ep.
  - apply forest_wf.
  - split; [apply nominal_program_ok|]. apply no_facts_typed. vm_compute. reflexivity.
  - assert (branches forest_kernel = []) as E by (vm_compute; reflexivity). intros i b. by rewrite E.
  - split; [apply nominal_program_ok|]. apply no_facts_typed. vm_compute. reflexivity.
Qed.

(** The equation of a run, from its answer. *)
Lemma run_Ok {S E X} (m : st S E X) s x : (m s).1 = Ok x → m s = (Ok x, (m s).2).
Proof. destruct (m s) as [r s']. cbn. by intros ->. Qed.

(** [A] below the first child, [B] below that, and two annotated equalities. *)
Definition two_actions : st (World RuleEngine) NativeError unit :=
  _ ← Engine.initialize alone stopped;
  _ ← assert_atom 0 [direct1];
  _ ← assert_atom 1 [nested1];
  _ ← assert_atom 4 [direct1; nested1; ancestor_node];
  assert_atom 4 [direct2; nested2; ancestor_node].

Definition queued_world : World RuleEngine := (two_actions forest_world).2.

Lemma queued_live : live (at_world queued_world).
Proof.
  assert (two_actions forest_world = (Ok tt, queued_world)) as H by (unfold queued_world; apply run_Ok; vm_compute; reflexivity).
  revert H. generalize queued_world as w'. intros w' H. unfold two_actions in H. apply st_bind_Ok in H as ([] & w1 & H1 & H).
  destruct (initialize_safe alone stopped forest_world forest_live) as [_ Hi]. destruct (Hi tt w1 H1) as [Hl _ _ _].
  apply st_bind_Ok in H as ([] & w2 & H2 & H). apply st_bind_Ok in H as ([] & w3 & H3 & H). apply st_bind_Ok in H as ([] & w4 & H4 & H).
  eapply assert_live, H. eapply assert_live, H4. eapply assert_live, H3. by eapply assert_live, H2.
Qed.

Definition queued : NominalState := (mkNominals Nominals.default_limits ∅ ∅ [], queued_world).

(** [atoms_valid], as a check. *)
Lemma atoms_checked e :
  forallb (λ a, is_ok (Rule.validate_ground_atom a (re_program e))) (re_atoms e) = true → atoms_valid e.
Proof.
  rewrite forallb_forall. intros Hv a Ha%list_elem_of_In. specialize (Hv a Ha).
  destruct (Rule.validate_ground_atom _ _) as [[]| |]; done.
Qed.

Lemma queued_introduced : introduced queued.
Proof.
  split; [apply queued_live|apply atoms_checked; vm_compute; reflexivity|].
  split; cbn; [intros key h Hk|intros a c Hk|intros i e Hk]; [by rewrite lookup_empty in Hk|by rewrite lookup_empty in Hk|done].
Qed.


Lemma nominal_drain_terminates_witness :
  match Nominals.process_all alone stopped queued with
  | (Ok n, s') => n < 1000000 ∧ drained_nominals s'
  | (Err _, _) => True
  | (Crash, _) => False
  end ∧ (Nominals.process_all alone stopped queued).1 = Ok 5.
Proof.
  split; [|vm_compute; reflexivity]. apply (nominal_drain_terminates alone stopped queued). apply queued_introduced.
Defined.

(** The first equality opened a branch, and a clash depends on it. *)
Definition first_open : NominalState := (Nominals.process_next alone stopped queued).2.
Definition clashing : NominalState :=
  (Nominals.world (kern (install_clash "empty_head" (Dep.add Dep.empty 0) [] None)) first_open).2.

Lemma clashing_introduced : introduced clashing.
Proof.
  assert (introduced first_open) as Ho.
  { pose proof (paired_spec _ _ _ (slides_process alone stopped) (process_next_inner_spec alone stopped queued queued_introduced)) as Hp.
    assert (Nominals.paired (Nominals.process_next_inner alone stopped) queued = (Ok Branched, first_open)) as E by (unfold first_open, Nominals.process_next; apply run_Ok; vm_compute; reflexivity).
    rewrite E in Hp. apply Hp. }
  destruct (answers_install "empty_head" (Dep.add Dep.empty 0) [] None first_open (canonical_add _ _ canonical_empty) Ho) as [_ Hx].
  unfold clashing. eapply Hx, run_Ok. vm_compute. reflexivity.
Qed.

Lemma nominal_resolve_refines_witness :
  match Nominals.resolve_clash alone stopped clashing with
  | (Ok t, s') => resolved clashing t s'
  | (Err _, s') => undone clashing s'
  | (Crash, _) => False
  end ∧ (Nominals.resolve_clash alone stopped clashing).1 = Ok Advanced.
Proof.
  split; [|vm_compute; reflexivity]. apply (nominal_resolve_refines alone stopped clashing). apply clashing_introduced.
Defined.

(** ** Backtracking over two nominal branches *)

(** Both equalities opened a branch; saturation then finds [A] and [B] on one node,
    a clash that depends on the first branch alone. *)
Definition both_open : NominalState := (Nominals.process_all alone stopped queued).2.
Definition found_clash : NominalState :=
  (Nominals.world (Engine.saturate_hyperresolution alone stopped) both_open).2.

(** The context of a branch that backtracking dropped stays filed.  Resolving
    the clash moves the first branch on and drops the second, whose equality is
    queued again; taking it up again is refused as already owning a branch. *)
Theorem dropped_branch_keeps_context :
  let resolved := Nominals.resolve_clash alone stopped found_clash in
  length (branches (kernel_of found_clash)) = 2%nat ∧
  resolved.1 = Ok Advanced ∧ length (branches (kernel_of resolved.2)) = 1%nat ∧
  (Nominals.process_all alone stopped resolved.2).1
    = Err (NativeErr.invariant "annotated equality already owns a nominal branch").
Proof. cbv zeta. split_and!; vm_compute; reflexivity. Qed.

(** Another thread interrupts the operation right before the [n]th look at the token. *)
Definition interrupted_at (n i : nat) (c : CancellationState) : CancellationState :=
  if (i =? n)%nat then (Cancel.interrupt None c).2 else c.

(** Rolling back does not give back the branches.  An interrupt that is seen
    after the first branch was advanced fails the operation; the kernel's state is
    restored, the branch stack is not, and the kernel no longer passes its own
    check, which it passed before. *)
Theorem interrupted_rollback_loses_branches :
  let failed := Nominals.resolve_clash (interrupted_at (S (w_polls found_clash.2))) stopped found_clash in
  check_invariants (kernel_of found_clash) = Ok tt ∧
  failed.1 = Err (Cancel.interrupted_error None) ∧
  length (branches (kernel_of found_clash)) = 2%nat ∧ length (branches (kernel_of failed.2)) = 1%nat ∧
  check_invariants (kernel_of failed.2) = Err (NativeErr.invariant "merged node representative is invalid").
Proof. cbv zeta. split_and!; vm_compute; reflexivity. Qed.
