(* ===== verification/Sha256.v ===== *)
(** * SHA-256 (native/src/blocking/sha256.rs)

    The digest that tells states of blocking apart: bytes are absorbed in pieces of
    any length, and compressed in blocks of 64. *)

From S2P Require Import Prelude Order.

(** Bytes and words are numbers below their width. *)

Record Sha256 := mkSha256 {
  sha_state : list N;
  sha_block : list N;
  sha_block_len : nat;
  sha_byte_len : N
}.

#[global] Instance Sha256_eta : Eta Sha256 := λ d, mkSha256 (sha_state d) (sha_block d) (sha_block_len d) (sha_byte_len d).

Module Sha.

Definition INITIAL : list N :=
  [0x6a09_e667; 0xbb67_ae85; 0x3c6e_f372; 0xa54f_f53a; 0x510e_527f; 0x9b05_688c;
   0x1f83_d9ab; 0x5be0_cd19].

Definition ROUND : list N :=
  [0x428a_2f98; 0x7137_4491; 0xb5c0_fbcf; 0xe9b5_dba5; 0x3956_c25b; 0x59f1_11f1;
   0x923f_82a4; 0xab1c_5ed5; 0xd807_aa98; 0x1283_5b01; 0x2431_85be; 0x550c_7dc3;
   0x72be_5d74; 0x80de_b1fe; 0x9bdc_06a7; 0xc19b_f174; 0xe49b_69c1; 0xefbe_4786;
   0x0fc1_9dc6; 0x240c_a1cc; 0x2de9_2c6f; 0x4a74_84aa; 0x5cb0_a9dc; 0x76f9_88da;
   0x983e_5152; 0xa831_c66d; 0xb003_27c8; 0xbf59_7fc7; 0xc6e0_0bf3; 0xd5a7_9147;
   0x06ca_6351; 0x1429_2967; 0x27b7_0a85; 0x2e1b_2138; 0x4d2c_6dfc; 0x5338_0d13;
   0x650a_7354; 0x766a_0abb; 0x81c2_c92e; 0x9272_2c85; 0xa2bf_e8a1; 0xa81a_664b;
   0xc24b_8b70; 0xc76c_51a3; 0xd192_e819; 0xd699_0624; 0xf40e_3585; 0x106a_a070;
   0x19a4_c116; 0x1e37_6c08; 0x2748_774c; 0x34b0_bcb5; 0x391c_0cb3; 0x4ed8_aa4a;
   0x5b9c_ca4f; 0x682e_6ff3; 0x748f_82ee; 0x78a5_636f; 0x84c8_7814; 0x8cc7_0208;
   0x90be_fffa; 0xa450_6ceb; 0xbef9_a3f7; 0xc671_78f2].

(** ** Words *)

Definition wrapping_add (a b : N) : N := (a + b) mod 2 ^ 32.
Definition rotate_right (x n : N) : N := N.lor (N.shiftr x n) (N.shiftl x (32 - n) mod 2 ^ 32).

Definition of_be_bytes (bytes : list N) : N := foldl (λ w b, w * 256 + b) 0 bytes.
Definition to_be_bytes (width : nat) (w : N) : list N :=
  (λ i, N.shiftr w (8 * N.of_nat i) mod 256) <$> rev (seq 0 width).
Definition to_le_bytes (width : nat) (w : N) : list N :=
  (λ i, N.shiftr w (8 * N.of_nat i) mod 256) <$> seq 0 width.

(** [chunks_exact(n)], as many as [count]. *)
Definition chunks_exact (n count : nat) (bytes : list N) : list (list N) :=
  (λ i, take n (drop (i * n) bytes)) <$> seq 0 count.

(** ** Compression *)

(** Word [index] of the schedule, from those before it. *)
Definition extend_words (words : list N) (index : nat) : list N :=
  let left := nth (index - 15) words 0 in
  let right := nth (index - 2) words 0 in
  let s0 := N.lxor (N.lxor (rotate_right left 7) (rotate_right left 18)) (N.shiftr left 3) in
  let s1 := N.lxor (N.lxor (rotate_right right 17) (rotate_right right 19)) (N.shiftr right 10) in
  words ++ [wrapping_add (wrapping_add (wrapping_add (nth (index - 16) words 0) s0) (nth (index - 7) words 0)) s1].

Definition schedule (block : list N) : list N :=
  foldl extend_words (of_be_bytes <$> chunks_exact 4 16 block) (seq 16 48).

Record Registers := mkRegisters { ra : N; rb : N; rc : N; rd : N; re : N; rf : N; rg : N; rh : N }.

Definition round (words : list N) (r : Registers) (index : nat) : Registers :=
  let '(mkRegisters a b c d e f g h) := r in
  let big1 := N.lxor (N.lxor (rotate_right e 6) (rotate_right e 11)) (rotate_right e 25) in
  let choose := N.lxor (N.land e f) (N.land (N.lnot e 32) g) in
  let first := wrapping_add (wrapping_add (wrapping_add (wrapping_add h big1) choose) (nth index ROUND 0)) (nth index words 0) in
  let big0 := N.lxor (N.lxor (rotate_right a 2) (rotate_right a 13)) (rotate_right a 22) in
  let majority := N.lxor (N.lxor (N.land a b) (N.land a c)) (N.land b c) in
  let second := wrapping_add big0 majority in
  mkRegisters (wrapping_add first second) a b c (wrapping_add d first) e f g.

Definition registers (state : list N) : Registers :=
  mkRegisters (nth 0 state 0) (nth 1 state 0) (nth 2 state 0) (nth 3 state 0)
    (nth 4 state 0) (nth 5 state 0) (nth 6 state 0) (nth 7 state 0).

Definition compress (state block : list N) : list N :=
  let words := schedule block in
  let '(mkRegisters a b c d e f g h) := foldl (round words) (registers state) (seq 0 64) in
  zip_with wrapping_add state [a; b; c; d; e; f; g; h].

(** ** The stream *)

Definition new : Sha256 := mkSha256 INITIAL (replicate 64 0) 0 0.

(** [block[at..at + bytes.len()].copy_from_slice(bytes)]. *)
Definition copy_at (at_ : nat) (bytes block : list N) : list N :=
  take at_ block ++ bytes ++ drop (at_ + length bytes) block.

(** The loop over whole blocks, and what is left. *)
Fixpoint absorb_blocks (fuel : nat) (state input : list N) : list N * list N :=
  match fuel with
  | O => (state, input)
  | S fuel =>
      if (length input <? 64)%nat then (state, input)
      else absorb_blocks fuel (compress state (take 64 input)) (drop 64 input)
  end.

(** Whole blocks from an empty buffer, the rest into it. *)
Definition absorb_rest (d : Sha256) (input : list N) : Sha256 :=
  let '(state, rest) := absorb_blocks (length input) (sha_state d) input in
  d <| sha_state := state |> <| sha_block ::= copy_at 0 rest |> <| sha_block_len := length rest |>.

Definition update (d : Sha256) (input : list N) : Sha256 :=
  let d := d <| sha_byte_len := saturating_add u64_max (sha_byte_len d) (N.of_nat (length input)) |> in
  if (sha_block_len d =? 0)%nat then absorb_rest d input
  else
    let taken := Nat.min (64 - sha_block_len d) (length input) in
    let d := d <| sha_block ::= copy_at (sha_block_len d) (take taken input) |> <| sha_block_len ::= λ n, (n + taken)%nat |> in
    if (sha_block_len d <? 64)%nat then d
    else absorb_rest (d <| sha_state ::= λ s, compress s (sha_block d) |> <| sha_block_len := 0%nat |>) (drop taken input).

(** The zeros after the mark: up to the length, or to the end of a block that is
    compressed first. *)
Definition finalize (d : Sha256) : list N :=
  let bit_len := (sha_byte_len d * 8) mod 2 ^ 64 in
  let block := copy_at (sha_block_len d) [0x80] (sha_block d) in
  let len := S (sha_block_len d) in
  let '(state, block) :=
    if (56 <? len)%nat then (compress (sha_state d) (copy_at len (replicate (64 - len) 0) block), replicate 64 0)
    else (sha_state d, copy_at len (replicate (56 - len) 0) block) in
  let block := copy_at 56 (to_be_bytes 8 bit_len) block in
  concat (to_be_bytes 4 <$> compress state block).

Definition digest (input : list N) : list N := finalize (update new input).

Definition hex_digit (n : N) : Ascii.ascii :=
  Ascii.ascii_of_N (if (n <? 10)%N then 48 + n else 87 + n).

Definition hex (value : list N) : string :=
  String.string_of_list_ascii (value ≫= λ byte, [hex_digit (N.shiftr byte 4); hex_digit (N.land byte 0x0f)]).
End Sha.

(** * The stream digests what it was fed

    However a message is cut into pieces, the digest is that of the padded message,
    block by block. *)

Import Sha.

#[local] Opaque compress.
#[local] Arguments copy_at : simpl never.

(** ** The digest of a message at once *)

Definition padded (m : list N) : list N :=
  m ++ [0x80] ++ replicate ((119 - length m mod 64) mod 64) 0 ++ to_be_bytes 8 ((N.of_nat (length m) * 8) mod 2 ^ 64).

Definition sha256 (m : list N) : list N :=
  concat (to_be_bytes 4 <$> foldl compress INITIAL (chunks_exact 64 (length (padded m) / 64) (padded m))).

(** ** Absorbing blocks *)

Definition absorb (state m : list N) : list N * list N := absorb_blocks (length m) state m.

Lemma absorb_fuel n state m : (length m ≤ n)%nat → absorb_blocks n state m = absorb state m.
Proof.
  unfold absorb. revert state m. induction n as [n IH] using lt_wf_ind. intros state m Hn.
  destruct n as [|n]; [by destruct m; [|cbn in Hn; lia]|]. destruct (decide (length m < 64)%nat) as [Hs|Hs].
  - cbn [absorb_blocks]. rewrite (proj2 (Nat.ltb_lt _ _) Hs). destruct (length m) eqn:El; [done|]. cbn [absorb_blocks].
    by rewrite El, (proj2 (Nat.ltb_lt _ _) Hs).
  - cbn [absorb_blocks]. rewrite (proj2 (Nat.ltb_ge _ _)) by lia. destruct (length m) as [|k] eqn:El; [lia|]. cbn [absorb_blocks].
    rewrite El, (proj2 (Nat.ltb_ge _ _)) by lia.
    assert (length (drop 64 m) = (length m - 64)%nat) as Hd by apply length_drop.
    rewrite (IH n), (IH k) by lia. done.
Qed.

Lemma absorb_small state m : (length m < 64)%nat → absorb state m = (state, m).
Proof. intros Hm. unfold absorb. destruct (length m) as [|n] eqn:El; [done|]. cbn [absorb_blocks]. by rewrite El, (proj2 (Nat.ltb_lt _ _) Hm). Qed.

Lemma absorb_large state m : (64 ≤ length m)%nat → absorb state m = absorb (compress state (take 64 m)) (drop 64 m).
Proof.
  intros Hm. unfold absorb at 1. destruct (length m) as [|n] eqn:El; [lia|]. cbn [absorb_blocks]. rewrite El, (proj2 (Nat.ltb_ge _ _)) by lia.
  apply absorb_fuel. rewrite length_drop. lia.
Qed.

Lemma absorb_rest_small state m : (length (absorb state m).2 < 64)%nat.
Proof.
  remember (length m) as n eqn:En. revert state m En. induction n as [n IH] using lt_wf_ind. intros state m ->.
  destruct (decide (length m < 64)%nat); [by rewrite absorb_small|]. rewrite absorb_large by lia. eapply IH; [|done]. rewrite length_drop. lia.
Qed.

Lemma absorb_app state m b : absorb state (m ++ b) = absorb (absorb state m).1 ((absorb state m).2 ++ b).
Proof.
  remember (length m) as n eqn:En. revert state m En. induction n as [n IH] using lt_wf_ind. intros state m ->.
  destruct (decide (length m < 64)%nat); [by rewrite (absorb_small state m)|].
  rewrite (absorb_large state m), (absorb_large state (m ++ b)) by (rewrite ?length_app; lia).
  rewrite take_app_le, drop_app_le by lia. eapply IH; [|done]. rewrite length_drop. lia.
Qed.

Lemma absorb_chunks state m k : length m = (k * 64)%nat → absorb state m = (foldl compress state (chunks_exact 64 k m), []).
Proof.
  revert state m. induction k as [|k IH]; intros state m Hm; [rewrite absorb_small by lia; by destruct m|].
  rewrite absorb_large by lia. rewrite IH by (rewrite length_drop; lia). f_equal.
  unfold chunks_exact. rewrite <-cons_seq, fmap_cons. cbn [foldl Nat.mul]. rewrite drop_0. f_equal.
  rewrite <-fmap_S_seq, <-list_fmap_compose. apply list_fmap_ext. intros i x _. cbn. rewrite drop_drop. by do 2 f_equal.
Qed.

(** ** The buffer *)

(** [d] was fed [m]. *)
Record fed (d : Sha256) (m : list N) : Prop := {
  fed_absorb : absorb INITIAL m = (sha_state d, take (sha_block_len d) (sha_block d));
  fed_block : length (sha_block d) = 64%nat;
  fed_len : (sha_block_len d < 64)%nat;
  fed_bytes : sha_byte_len d = N.of_nat (length m)
}.

Lemma length_copy_at i bytes block : (i + length bytes ≤ length block)%nat → length (copy_at i bytes block) = length block.
Proof. intros Hi. unfold copy_at. rewrite !length_app, length_take, length_drop. lia. Qed.

Lemma take_copy_at i bytes block : (i + length bytes ≤ length block)%nat → take (i + length bytes) (copy_at i bytes block) = take i block ++ bytes.
Proof.
  intros Hi. unfold copy_at. rewrite app_assoc. apply take_app_length'. rewrite length_app, length_take. lia.
Qed.

Lemma fed_new : fed new [].
Proof. split; [done|done|cbn; lia|done]. Qed.

Lemma fed_rest d m input :
  absorb INITIAL m = (sha_state d, []) → length (sha_block d) = 64%nat → sha_byte_len d = N.of_nat (length (m ++ input)) →
  fed (absorb_rest d input) (m ++ input).
Proof.
  intros Ha Hb Hl. unfold absorb_rest. fold (absorb (sha_state d) input). pose proof (absorb_rest_small (sha_state d) input) as Hs.
  pose proof (absorb_app INITIAL m input) as Happ. rewrite Ha in Happ. cbn [fst snd app] in Happ.
  destruct (absorb (sha_state d) input) as [state rest]. cbn [snd] in Hs. split; cbn; [|rewrite length_copy_at; cbn; lia|done|done].
  pose proof (take_copy_at 0 rest (sha_block d)) as Ht. cbn in Ht. by rewrite Happ, Ht by lia.
Qed.

Lemma fed_update d m input :
  fed d m → N.of_nat (length (m ++ input)) ≤ u64_max → fed (update d input) (m ++ input).
Proof.
  intros [Ha Hb Hl Hn] Hmax. unfold update. set (d1 := d <| sha_byte_len := _ |>).
  assert (sha_byte_len d1 = N.of_nat (length (m ++ input))) as Hn1.
  { cbn. rewrite Hn. rewrite length_app in *. unfold saturating_add. lia. }
  change (sha_block_len d1) with (sha_block_len d). destruct (sha_block_len d =? 0)%nat eqn:Ez.
  { apply Nat.eqb_eq in Ez. apply fed_rest; [|done|done]. rewrite Ha, Ez. by rewrite take_0. }
  apply Nat.eqb_neq in Ez. set (taken := Nat.min (64 - sha_block_len d) (length input)).
  assert (length (take taken input) = taken) as Ht by (rewrite length_take; unfold taken; lia).
  set (d2 := _ <| sha_block_len ::= _ |>).
  assert (sha_block_len d2 = (sha_block_len d + taken)%nat) as E2 by done.
  assert (length (sha_block d2) = 64%nat) as Hb2 by (cbn; rewrite length_copy_at; [done|]; rewrite Ht; unfold taken; lia).
  assert (take (sha_block_len d2) (sha_block d2) = take (sha_block_len d) (sha_block d) ++ take taken input) as Hp.
  { rewrite E2. cbn. rewrite <-Ht at 1. apply take_copy_at. rewrite Ht. unfold taken. lia. }
  assert (absorb INITIAL (m ++ take taken input) = absorb (sha_state d) (take (sha_block_len d2) (sha_block d2))) as Happ.
  { by rewrite absorb_app, Ha, Hp. }
  destruct (sha_block_len d2 <? 64)%nat eqn:Ef.
  - apply Nat.ltb_lt in Ef. assert (taken = length input) as Eall by (unfold taken in *; rewrite E2 in Ef; lia).
    rewrite Eall, firstn_all in Happ. split; [|done|done|done]. rewrite Happ, absorb_small; [done|]. rewrite length_take. lia.
  - apply Nat.ltb_ge in Ef. assert (sha_block_len d2 = 64%nat) as E64 by (unfold taken in *; lia).
    replace (m ++ input) with ((m ++ take taken input) ++ drop taken input) by (by rewrite <-app_assoc, take_drop).
    apply fed_rest; [|done|].
    + assert (take 64 (sha_block d2) = sha_block d2) as Eb by (apply firstn_all2; lia).
      rewrite Happ, E64, Eb, absorb_large, Eb by lia. rewrite skipn_all2 by lia. by rewrite absorb_small by (cbn [length]; lia).
    + rewrite <-app_assoc, take_drop. exact Hn1.
Qed.

(** ** The end *)

Lemma length_to_be_bytes n w : length (to_be_bytes n w) = n.
Proof. unfold to_be_bytes. by rewrite length_fmap, length_rev, length_seq. Qed.

Lemma absorb_length state m : length (absorb state m).2 = (length m mod 64)%nat.
Proof.
  remember (length m) as n eqn:En. revert state m En. induction n as [n IH] using lt_wf_ind. intros state m ->.
  destruct (decide (length m < 64)%nat); [by rewrite absorb_small, Nat.mod_small|]. rewrite absorb_large by lia.
  rewrite (IH (length (drop 64 m))) by (rewrite ?length_drop; lia || done). rewrite length_drop.
  replace (length m) with ((length m - 64) + 1 * 64)%nat at 2 by lia. by rewrite Nat.Div0.mod_add.
Qed.

Lemma copy_at_end i bytes block : (i + length bytes = length block)%nat → copy_at i bytes block = take i block ++ bytes.
Proof. intros Hl. unfold copy_at. rewrite drop_ge by lia. by rewrite app_nil_r. Qed.

Lemma pad_zeros l : (l < 64)%nat → ((119 - l) mod 64)%nat = if (l <? 56)%nat then (55 - l)%nat else (119 - l)%nat.
Proof.
  intros Hl. destruct (Nat.ltb_spec l 56).
  - replace (119 - l)%nat with ((55 - l) + 1 * 64)%nat by lia. rewrite Nat.Div0.mod_add, Nat.mod_small by lia. done.
  - by rewrite Nat.mod_small by lia.
Qed.

(** The last blocks that [finalize] compresses are those of the padding. *)
Lemma finalize_blocks d m :
  fed d m → finalize d = concat (to_be_bytes 4 <$> (absorb INITIAL (padded m)).1) ∧ (absorb INITIAL (padded m)).2 = [].
Proof.
  intros [Ha Hb Hl Hn]. pose proof (absorb_length INITIAL m) as Hmod. rewrite Ha in Hmod. cbn [snd] in Hmod.
  set (r := take (sha_block_len d) (sha_block d)) in *. assert (length r = sha_block_len d) as Hr by (unfold r; rewrite length_take; lia).
  unfold padded. rewrite absorb_app, Ha, <-Hmod, Hr, pad_zeros, <-Hn by done. cbn [fst snd].
  unfold finalize. set (bits := to_be_bytes 8 ((sha_byte_len d * 8) mod 2 ^ 64)).
  assert (length bits = 8%nat) as Hbits by apply length_to_be_bytes. generalize dependent bits. intros bits Hbits.
  set (l := sha_block_len d) in *. set (marked := copy_at l [0x80] (sha_block d)).
  assert (length marked = 64%nat) as Hm by (unfold marked; rewrite length_copy_at; cbn [length]; lia).
  assert (take (S l) marked = r ++ [0x80]) as Ht.
  { unfold marked. replace (S l) with (l + length [0x80%N])%nat by (cbn [length]; lia). apply take_copy_at. cbn [length]. lia. }
  destruct (Nat.ltb_spec l 56) as [Hs|Hs].
  - rewrite (proj2 (Nat.ltb_ge 56 (S l))) by lia.
    assert (copy_at 56 bits (copy_at (S l) (replicate (56 - S l) 0) marked) = r ++ [0x80] ++ replicate (55 - l) 0 ++ bits) as ->.
    { rewrite copy_at_end by (rewrite length_copy_at; rewrite ?length_replicate; lia).
      pose proof (take_copy_at (S l) (replicate (56 - S l) 0) marked) as Hz. rewrite length_replicate in Hz.
      replace (S l + (56 - S l))%nat with 56%nat in Hz by lia. rewrite Hz, Ht by lia. rewrite <-!app_assoc. done. }
    assert (length (r ++ [0x80] ++ replicate (55 - l) 0 ++ bits) = 64%nat) as H64.
    { rewrite !length_app, length_replicate. cbn [length]. lia. }
    rewrite absorb_large by lia. rewrite firstn_all2 by lia. rewrite skipn_all2 by lia. by rewrite absorb_small by (cbn [length]; lia).
  - rewrite (proj2 (Nat.ltb_lt 56 (S l))) by lia.
    assert (copy_at (S l) (replicate (64 - S l) 0) marked = r ++ [0x80] ++ replicate (63 - l) 0) as ->.
    { rewrite copy_at_end by (rewrite length_replicate; lia). rewrite Ht, <-app_assoc. done. }
    rewrite copy_at_end by (rewrite length_replicate; lia). rewrite take_replicate.
    replace (119 - l)%nat with ((63 - l) + 56)%nat by lia.
    assert (r ++ [0x80] ++ replicate ((63 - l) + 56) 0 ++ bits = (r ++ [0x80] ++ replicate (63 - l) 0) ++ replicate 56 0 ++ bits) as ->.
    { rewrite replicate_add, <-!app_assoc. done. }
    assert (length (r ++ [0x80] ++ replicate (63 - l) 0) = 64%nat) as H64.
    { rewrite !length_app, length_replicate. cbn [length]. lia. }
    rewrite absorb_large by (rewrite length_app; lia). rewrite take_app_length' by done. rewrite drop_app_length' by done.
    change (Nat.min 56 64) with 56%nat.
    assert (length (replicate 56 0 ++ bits) = 64%nat) as H64' by (rewrite length_app, length_replicate; lia).
    rewrite absorb_large by lia. rewrite firstn_all2 by lia. rewrite skipn_all2 by lia. by rewrite absorb_small by (cbn [length]; lia).
Qed.

Lemma finalize_fed d m : fed d m → finalize d = sha256 m.
Proof.
  intros Hf. destruct (finalize_blocks d m Hf) as [-> Hend]. unfold sha256. do 2 f_equal.
  assert (length (padded m) mod 64 = 0)%nat as Hdiv by (rewrite <-(absorb_length INITIAL), Hend; done).
  pose proof (Nat.div_mod_eq (length (padded m)) 64) as Heq. rewrite (absorb_chunks INITIAL (padded m) (length (padded m) / 64)) by lia. done.
Qed.

Lemma fed_stream chunks d m :
  fed d m → N.of_nat (length (m ++ concat chunks)) ≤ u64_max → fed (foldl update d chunks) (m ++ concat chunks).
Proof.
  revert d m. induction chunks as [|c chunks IH]; intros d m Hf Hmax; cbn [foldl concat] in *; [by rewrite app_nil_r|].
  rewrite app_assoc in Hmax |- *. apply IH; [|done]. apply fed_update; [done|]. rewrite length_app in Hmax. lia.
Qed.
