(* ===== verification/BlockingModel.v ===== *)
(** * Values of blocking (native/src/blocking/model.rs)

    Kinds of checkers and managers and the plan that chooses them, the records that
    a state shows to blocking, vocabularies, assignments, errors, control and limits.
    Node kinds and lifecycles are those of [Model]: the crate has two copies of them
    that the adapter translates into each other. *)

From S2P Require Import Prelude Order Errors Model.

Inductive DirectCheckerKind := SingleChecker | Pairwise | ValidatedSingle | ValidatedPairwise.
Inductive BlockingManagerKind := Ancestor | Anywhere | ValidatedAnywhere.
Inductive CoreBlockingMode := CoreNone | CoreSimple | CoreComplex.
Inductive BlockingMode := ModeAuto | ModeAncestor | ModeAnywhere | ModeValidatedAnywhere.

#[global] Instance DirectCheckerKind_eq_dec : EqDecision DirectCheckerKind.
Proof. solve_decision. Defined.
#[global] Instance BlockingManagerKind_eq_dec : EqDecision BlockingManagerKind.
Proof. solve_decision. Defined.
#[global] Instance CoreBlockingMode_eq_dec : EqDecision CoreBlockingMode.
Proof. solve_decision. Defined.
#[global] Instance BlockingMode_eq_dec : EqDecision BlockingMode.
Proof. solve_decision. Defined.

Record BlockingRequirements := mkRequirements {
  rq_has_inverse_roles : bool;
  rq_has_nominals : bool;
  rq_requires_validated_core : bool;
  rq_complex_core : bool;
  rq_has_additional_ontology : bool;
  rq_query_local_axioms : bool;
  rq_direct_checker_kind : option DirectCheckerKind
}.

Record BlockingPlan := mkPlan {
  pl_manager_kind : BlockingManagerKind;
  pl_direct_checker_kind : DirectCheckerKind;
  pl_core_mode : CoreBlockingMode;
  pl_cache_allowed : bool
}.

Record NodeKey := mkKey { key_slot : N; key_generation : N }.

#[global] Instance NodeKey_eq_dec : EqDecision NodeKey.
Proof. solve_decision. Defined.
#[global] Instance NodeKey_countable : Countable NodeKey.
Proof. apply (inj_countable' (λ k, (key_slot k, key_generation k)) (λ p, mkKey p.1 p.2)). by intros []. Defined.

Definition node_key_pair (k : NodeKey) : N * N := (key_slot k, key_generation k).
#[global] Instance node_key_pair_inj : Inj (=) (=) node_key_pair.
Proof. intros [] [] [= -> ->]. done. Qed.
#[global] Instance NodeKey_ord : Ord NodeKey := compare_by node_key_pair.
#[global] Instance NodeKey_ord_laws : OrdLaws NodeKey.
Proof. apply compare_by_laws. apply _. Qed.

Record NodeRecord (A : Type) := mkNodeRecord {
  nr_node : A;
  nr_key : NodeKey;
  nr_creation_id : N;
  nr_kind : NodeKind;
  nr_lifecycle : NodeLifecycle;
  nr_parent : option A;
  nr_has_pending_existentials : bool
}.
Arguments mkNodeRecord {A}.
Arguments nr_node {A}.
Arguments nr_key {A}.
Arguments nr_creation_id {A}.
Arguments nr_kind {A}.
Arguments nr_lifecycle {A}.
Arguments nr_parent {A}.
Arguments nr_has_pending_existentials {A}.

#[global] Instance NodeRecord_eq_dec `{EqDecision A} : EqDecision (NodeRecord A).
Proof. solve_decision. Defined.

Record FactRecord (A : Type) := mkFactRecord {
  fr_row_id : N;
  fr_predicate_id : N;
  fr_arguments : list A;
  fr_core : bool;
  fr_active : bool
}.
Arguments mkFactRecord {A}.
Arguments fr_row_id {A}.
Arguments fr_predicate_id {A}.
Arguments fr_arguments {A}.
Arguments fr_core {A}.
Arguments fr_active {A}.

Record BlockingVocabulary := mkVocabulary {
  vc_atomic_concepts : gset N;
  vc_atomic_object_roles : gset N
}.

Record BlockingAssignment (A : Type) := mkAssignment {
  ba_node : A;
  ba_blocker : option A;
  ba_directly : bool;
  ba_from_cache : bool
}.
Arguments mkAssignment {A}.
Arguments ba_node {A}.
Arguments ba_blocker {A}.
Arguments ba_directly {A}.
Arguments ba_from_cache {A}.

#[global] Instance BlockingAssignment_eq_dec `{EqDecision A} : EqDecision (BlockingAssignment A).
Proof. solve_decision. Defined.

Inductive BlockingErrorKind := InvalidInput | BlockCancelled | BlockResource | BlockInvariant.

Record BlockingError := mkBlockingError {
  be_kind : BlockingErrorKind;
  be_message : string;
  be_limit : option string;
  be_observed : option N;
  be_allowed : option N
}.

Abbreviation BlockingResult := (outcome BlockingError).

(** The trait [BlockingStateRead]. *)
Class BlockingStateRead (S A : Type) := {
  revision : S → N;
  node_records : S → BlockingResult (list (NodeRecord A));
  active_fact_records : S → BlockingResult (list (FactRecord A))
}.

(** The trait [BlockingControl]. *)
Class BlockingControl (C : Type) := {
  blocking_poll : st C BlockingError unit;
  blocking_observe_memory : N → st C BlockingError unit
}.

Record BlockingLimits := mkBlockingLimits {
  bl_max_nodes : N;
  bl_max_facts : N;
  bl_max_candidate_checks : N;
  bl_max_validation_blocks : N;
  bl_cancellation_poll_interval : N
}.

Module Blocking.

(** ** Errors *)

Definition new_error (kind : BlockingErrorKind) (message : string) : BlockingError :=
  mkBlockingError kind message None None None.
Definition invalid (message : string) : BlockingError := new_error InvalidInput message.
Definition cancelled (message : string) : BlockingError := new_error BlockCancelled message.
Definition invariant (message : string) : BlockingError := new_error BlockInvariant message.
Definition resource (message limit : string) (observed allowed : N) : BlockingError :=
  mkBlockingError BlockResource message (Some limit) (Some observed) (Some allowed).

(** ** Kinds *)

Definition checker_as_str (k : DirectCheckerKind) : string :=
  match k with
  | SingleChecker => "single" | Pairwise => "pairwise"
  | ValidatedSingle => "validated_single" | ValidatedPairwise => "validated_pairwise"
  end.

Definition checker_validated (k : DirectCheckerKind) : bool :=
  match k with ValidatedSingle | ValidatedPairwise => true | SingleChecker | Pairwise => false end.

Definition core_as_str (m : CoreBlockingMode) : string :=
  match m with CoreNone => "none" | CoreSimple => "simple" | CoreComplex => "complex" end.

Definition kind_as_str (k : NodeKind) : string :=
  match k with Root => "root" | Tree => "tree" | Ni => "ni" | Concrete => "concrete" end.

Definition plan_validated (p : BlockingPlan) : bool := bool_decide (pl_manager_kind p = ValidatedAnywhere).

Definition select_blocking_plan (mode : BlockingMode) (r : BlockingRequirements) : BlockingResult BlockingPlan :=
  _ ← reject_if (rq_complex_core r && negb (rq_requires_validated_core r))
    (invalid "complex core blocking requires validated core blocking");
  let validated := bool_decide (mode = ModeValidatedAnywhere)
    || (bool_decide (mode = ModeAuto) && rq_requires_validated_core r) in
  if validated then
    Ok (mkPlan ValidatedAnywhere
      (match rq_direct_checker_kind r with Some Pairwise | Some ValidatedPairwise => ValidatedPairwise | _ => ValidatedSingle end)
      (if rq_complex_core r then CoreComplex else CoreSimple) false)
  else
    _ ← reject_if (match rq_direct_checker_kind r with Some k => checker_validated k | None => false end)
      (invalid "validated direct checkers require validated-anywhere blocking");
    Ok (mkPlan (if bool_decide (mode = ModeAncestor) then Ancestor else Anywhere)
      (default (if rq_has_inverse_roles r then Pairwise else SingleChecker) (rq_direct_checker_kind r))
      CoreNone
      (negb (rq_has_nominals r) && negb (rq_has_additional_ontology r) && negb (rq_query_local_axioms r))).

(** ** Vocabularies, assignments, limits *)

Definition new_vocabulary (atomic_concepts atomic_object_roles : list N) : BlockingResult BlockingVocabulary :=
  let concepts : gset N := list_to_set atomic_concepts in
  let roles : gset N := list_to_set atomic_object_roles in
  _ ← reject_if (negb (bool_decide (concepts ## roles))) (invalid "concept and object-role predicate IDs must be disjoint");
  Ok (mkVocabulary concepts roles).

Section assignment.
Context {A : Type}.

Definition unblocked (node : A) : BlockingAssignment A := mkAssignment node None false false.
Definition direct (node blocker : A) : BlockingAssignment A := mkAssignment node (Some blocker) true false.
Definition indirect (node parent : A) : BlockingAssignment A := mkAssignment node (Some parent) false false.
Definition cached (node : A) : BlockingAssignment A := mkAssignment node None true true.
Definition blocked (a : BlockingAssignment A) : bool := bool_decide (is_Some (ba_blocker a)) || ba_from_cache a.
End assignment.

Definition default_blocking_limits : BlockingLimits := mkBlockingLimits 2000000 20000000 100000000 2000000 256.

Definition validate_limits (l : BlockingLimits) : BlockingResult BlockingLimits :=
  _ ← reject_if ((bl_max_nodes l =? 0)%N || (bl_max_facts l =? 0)%N || (bl_max_candidate_checks l =? 0)%N
      || (bl_max_validation_blocks l =? 0)%N || (bl_cancellation_poll_interval l =? 0)%N)
    (invalid "all blocking limits must be strictly positive");
  Ok l.
End Blocking.

(** [NeverCancel]. *)
#[global] Instance NeverCancelBlocking : BlockingControl unit := {|
  blocking_poll := mret tt;
  blocking_observe_memory _ := mret tt
|}.
