(* ===== verification/Projection.v ===== *)
(** * Projections of a tableau (native/src/blocking/projection.rs)

    What blocking looks at: the active nodes in the order of their creation, their
    concept labels and the role labels between them, each also restricted to core
    facts, and a digest of all of it.  Signatures are the labels that decide whether
    one node blocks another. *)

From S2P Require Import Prelude Order Errors Model Sha256 BlockingModel.
Import Blocking.

Record BlockingKey := mkBlockingKey {
  bk_kind : DirectCheckerKind;
  bk_node_concepts : list N;
  bk_parent_concepts : list N;
  bk_from_parent_roles : list N;
  bk_to_parent_roles : list N
}.

Record BlockingSignature := mkSignature {
  sg_kind : DirectCheckerKind;
  sg_blocking_node_concepts : list N;
  sg_blocking_parent_concepts : list N;
  sg_blocking_from_parent_roles : list N;
  sg_blocking_to_parent_roles : list N;
  sg_full_node_concepts : list N;
  sg_full_parent_concepts : list N;
  sg_full_from_parent_roles : list N;
  sg_full_to_parent_roles : list N
}.

#[global] Instance BlockingKey_eq_dec : EqDecision BlockingKey.
Proof. solve_decision. Defined.
#[global] Instance BlockingSignature_eq_dec : EqDecision BlockingSignature.
Proof. solve_decision. Defined.

(** The position of a kind in its declaration, which the derived order follows. *)
Definition kind_rank (k : DirectCheckerKind) : N :=
  match k with SingleChecker => 0 | Pairwise => 1 | ValidatedSingle => 2 | ValidatedPairwise => 3 end.
Definition kind_of_rank (n : N) : DirectCheckerKind :=
  match n with 0 => SingleChecker | 1 => Pairwise | 2 => ValidatedSingle | _ => ValidatedPairwise end.

Definition key_fields (k : BlockingKey) : N * (list N * (list N * (list N * list N))) :=
  (kind_rank (bk_kind k), (bk_node_concepts k, (bk_parent_concepts k, (bk_from_parent_roles k, bk_to_parent_roles k)))).

#[global] Instance key_fields_inj : Inj (=) (=) key_fields.
Proof. intros [[]????] [[]????] [= -> -> -> ->]; done. Qed.
#[global] Instance BlockingKey_countable : Countable BlockingKey.
Proof.
  apply (inj_countable' key_fields (λ f, mkBlockingKey (kind_of_rank f.1) f.2.1 f.2.2.1 f.2.2.2.1 f.2.2.2.2)). by intros [[]].
Defined.
#[global] Instance BlockingKey_ord : Ord BlockingKey := compare_by key_fields.
#[global] Instance BlockingKey_ord_laws : OrdLaws BlockingKey.
Proof. apply compare_by_laws. apply _. Qed.

Record RelevantFact (A : Type) := mkRelevant {
  rf_predicate_id : N;
  rf_argument_keys : list NodeKey;
  rf_arguments : list A;
  rf_core : bool
}.
Arguments mkRelevant {A}.
Arguments rf_predicate_id {A}.
Arguments rf_argument_keys {A}.
Arguments rf_arguments {A}.
Arguments rf_core {A}.

#[global] Instance RelevantFact_eq_dec `{EqDecision A} : EqDecision (RelevantFact A).
Proof. solve_decision. Defined.

Record BlockingProjection (A : Type) `{Countable A} := mkProjection {
  bp_revision : N;
  bp_ordered_nodes : list A;
  bp_nodes : gmap A (NodeRecord A);
  bp_concepts : gmap A (list N);
  bp_core_concepts : gmap A (list N);
  bp_roles : gmap (A * A) (list N);
  bp_core_roles : gmap (A * A) (list N);
  bp_state_digest : list N
}.
Arguments mkProjection {A _ _}.
Arguments bp_revision {A _ _}.
Arguments bp_ordered_nodes {A _ _}.
Arguments bp_nodes {A _ _}.
Arguments bp_concepts {A _ _}.
Arguments bp_core_concepts {A _ _}.
Arguments bp_roles {A _ _}.
Arguments bp_core_roles {A _ _}.
Arguments bp_state_digest {A _ _}.

Module Signature.

Definition canonical (values : list N) : bool := strictly_ascending values.

Definition check_field (field : string * list N) : BlockingResult unit :=
  reject_if (negb (canonical field.2)) (invalid (field.1 +:+ " must be sorted and unique")).

Definition new (kind : DirectCheckerKind) (bn bp bf bt fn fp ff ft : list N) : BlockingResult BlockingSignature :=
  _ ← iterM check_field
    [("blocking_node_concepts", bn); ("blocking_parent_concepts", bp);
     ("blocking_from_parent_roles", bf); ("blocking_to_parent_roles", bt);
     ("full_node_concepts", fn); ("full_parent_concepts", fp);
     ("full_from_parent_roles", ff); ("full_to_parent_roles", ft)];
  Ok (mkSignature kind bn bp bf bt fn fp ff ft).

Definition blocking_key (s : BlockingSignature) : BlockingKey :=
  mkBlockingKey (sg_kind s) (sg_blocking_node_concepts s) (sg_blocking_parent_concepts s)
    (sg_blocking_from_parent_roles s) (sg_blocking_to_parent_roles s).

Definition blocks (s other : BlockingSignature) : bool :=
  bool_decide (sg_kind s = sg_kind other)
  && bool_decide (sg_blocking_node_concepts s = sg_blocking_node_concepts other)
  && bool_decide (sg_blocking_parent_concepts s = sg_blocking_parent_concepts other)
  && bool_decide (sg_blocking_from_parent_roles s = sg_blocking_from_parent_roles other)
  && bool_decide (sg_blocking_to_parent_roles s = sg_blocking_to_parent_roles other).

(** [u32::try_from(values.len()).unwrap_or(u32::MAX)], then the values. *)
Definition encode_ids (values : list N) : list N :=
  Sha.to_le_bytes 4 (N.min u32_max (N.of_nat (length values))) ++ concat (Sha.to_le_bytes 4 <$> values).

Definition fields (s : BlockingSignature) : list (list N) :=
  [sg_blocking_node_concepts s; sg_blocking_parent_concepts s; sg_blocking_from_parent_roles s; sg_blocking_to_parent_roles s;
   sg_full_node_concepts s; sg_full_parent_concepts s; sg_full_from_parent_roles s; sg_full_to_parent_roles s].

Definition canonical_bytes (s : BlockingSignature) : list N :=
  string_bytes "PYHBLK1" ++ [0] ++ string_bytes (checker_as_str (sg_kind s)) ++ [0] ++ concat (encode_ids <$> fields s).

Definition sha256 (s : BlockingSignature) : string :=
  Sha.hex (Sha.finalize (Sha.update Sha.new (canonical_bytes s))).
End Signature.

Module Projection.

Definition fingerprint_bytes (v : BlockingVocabulary) : list N :=
  let absorb_ids d values :=
    foldl (λ d value, Sha.update d (Sha.to_le_bytes 4 value))
      (Sha.update d (Sha.to_le_bytes 4 (N.min u32_max (N.of_nat (size values))))) (btree_elements (A:=N) values) in
  Sha.finalize (foldl absorb_ids (Sha.update Sha.new (string_bytes "pyhermit:blocking-vocabulary:v1" ++ [0]))
    [vc_atomic_concepts v; vc_atomic_object_roles v]).

Definition fingerprint (v : BlockingVocabulary) : string := Sha.hex (fingerprint_bytes v).

Definition check_limit (observed allowed : N) (limit message : string) : BlockingResult unit :=
  reject_if (allowed <? observed)%N (resource message limit observed allowed).

Definition estimate_bytes (nodes facts : nat) : N :=
  let mul a b := N.min u64_max (a * b) in
  saturating_add u64_max (mul (N.of_nat nodes) 256) (mul (N.of_nat facts) 96).

Section projection.
Context {A : Type} `{OrdLaws A} `{!EqDecision A} `{!Countable A}.
Abbreviation Nodes := (gmap A (NodeRecord A)).

(** ** Nodes *)

(** The owners of keys and creation numbers, and the active nodes. *)
Record Owners := mkOwners {
  ow_keys : gmap NodeKey A;
  ow_creations : gmap N A;
  ow_nodes : Nodes
}.

Definition add_record (o : Owners) (record : NodeRecord A) : BlockingResult Owners :=
  if bool_decide (nr_lifecycle record ≠ Active) then Ok o
  else
    _ ← reject_if (bool_decide (is_Some (ow_keys o !! nr_key record)))
      (invariant "two active nodes share a generation-safe blocking key");
    _ ← reject_if (bool_decide (is_Some (ow_creations o !! nr_creation_id record)))
      (invariant "two active nodes share a blocking creation ID");
    _ ← reject_if (bool_decide (is_Some (ow_nodes o !! nr_node record)))
      (invariant "duplicate active node in blocking projection");
    Ok (mkOwners (<[nr_key record := nr_node record]> (ow_keys o)) (<[nr_creation_id record := nr_node record]> (ow_creations o))
      (<[nr_node record := record]> (ow_nodes o))).

Definition check_parent (nodes : Nodes) (record : NodeRecord A) : BlockingResult unit :=
  if bool_decide (nr_kind record = Tree) then
    parent ← ok_or (nr_parent record) (invariant "active tree blocking node has no parent");
    reject_if (negb (bool_decide (is_Some (nodes !! parent)))) (invariant "active tree blocking node has no active parent")
  else reject_if (bool_decide (is_Some (nr_parent record))) (invariant "non-tree node unexpectedly has a blocking parent").

Definition node_rank (nodes : Nodes) (node : A) : N * NodeKey :=
  match nodes !! node with Some r => (nr_creation_id r, nr_key r) | None => (0, mkKey 0 0) end.

Definition order_nodes (nodes : Nodes) : list A :=
  merge_sort (λ x y, ord_le (node_rank nodes x) (node_rank nodes y)) (btree_keys nodes).

(** ** Facts *)

Definition arity_matches (v : BlockingVocabulary) (fact : FactRecord A) : bool :=
  (bool_decide (length (fr_arguments fact) = 1%nat) && bool_decide (fr_predicate_id fact ∈ vc_atomic_concepts v))
  || (bool_decide (length (fr_arguments fact) = 2%nat) && bool_decide (fr_predicate_id fact ∈ vc_atomic_object_roles v)).

Definition relevant_fact (fact : FactRecord A) (nodes : Nodes) : BlockingResult (RelevantFact A) :=
  keys ← collectM (λ argument,
    record ← ok_or (nodes !! argument) (invariant "relevant blocking fact refers to an inactive node");
    Ok (nr_key record)) (fr_arguments fact);
  Ok (mkRelevant (fr_predicate_id fact) keys (fr_arguments fact) (fr_core fact)).

Definition add_fact (v : BlockingVocabulary) (nodes : Nodes) (relevant : list (RelevantFact A)) (fact : FactRecord A) :
    BlockingResult (list (RelevantFact A)) :=
  if negb (fr_active fact) then Ok relevant
  else if negb (arity_matches v fact) || existsb (λ node, negb (bool_decide (is_Some (nodes !! node)))) (fr_arguments fact)
  then Ok relevant
  else
    fact ← relevant_fact fact nodes;
    Ok (relevant ++ [fact]).

(** The derived order of [RelevantFact]; [false] is below [true]. *)
Definition relevant_fields (f : RelevantFact A) : N * (list NodeKey * (list A * N)) :=
  (rf_predicate_id f, (rf_argument_keys f, (rf_arguments f, if rf_core f then 1 else 0))).

#[global] Instance RelevantFact_ord : Ord (RelevantFact A) := compare_by relevant_fields.

(** ** Labels *)

Definition add_label {K} `{Countable K} (key : K) (id : N) (sets : gmap K (gset N)) : gmap K (gset N) :=
  <[key := {[id]} ∪ default ∅ (sets !! key)]> sets.

Record Labels := mkLabels {
  lb_concepts : gmap A (gset N);
  lb_core_concepts : gmap A (gset N);
  lb_roles : gmap (A * A) (gset N);
  lb_core_roles : gmap (A * A) (gset N)
}.

#[global] Instance Labels_eta : Eta Labels := λ l, mkLabels (lb_concepts l) (lb_core_concepts l) (lb_roles l) (lb_core_roles l).

Definition label_fact (l : Labels) (fact : RelevantFact A) : BlockingResult Labels :=
  match rf_arguments fact with
  | [node] =>
      let l := l <| lb_concepts ::= add_label node (rf_predicate_id fact) |> in
      Ok (if rf_core fact then l <| lb_core_concepts ::= add_label node (rf_predicate_id fact) |> else l)
  | source :: target :: _ =>
      let l := l <| lb_roles ::= add_label (source, target) (rf_predicate_id fact) |> in
      Ok (if rf_core fact then l <| lb_core_roles ::= add_label (source, target) (rf_predicate_id fact) |> else l)
  | [] => Crash
  end.

Definition freeze {K} `{Countable K} (sets : gmap K (gset N)) : gmap K (list N) := btree_elements <$> sets.

(** ** The digest *)

Definition digest_key (d : Sha256) (key : NodeKey) : Sha256 :=
  Sha.update (Sha.update d (Sha.to_le_bytes 4 (key_slot key))) (Sha.to_le_bytes 4 (key_generation key)).

Definition digest_node (nodes : Nodes) (d : Sha256) (node : A) : BlockingResult Sha256 :=
  record ← ok_or (nodes !! node) (invariant "ordered blocking node is missing");
  let d := digest_key d (nr_key record) in
  let d := Sha.update d (Sha.to_le_bytes 8 (nr_creation_id record)) in
  let d := Sha.update d (string_bytes (kind_as_str (nr_kind record))) in
  let d := Sha.update d [0] in
  match nr_parent record with
  | None => Ok (Sha.update d (string_bytes "N"))
  | Some parent =>
      parent ← ok_or (nodes !! parent) (invariant "blocking node parent is missing from projection");
      Ok (digest_key (Sha.update d (string_bytes "P")) (nr_key parent))
  end.

Definition digest_fact (d : Sha256) (fact : RelevantFact A) : BlockingResult Sha256 :=
  let d := Sha.update d (Sha.to_le_bytes 4 (rf_predicate_id fact)) in
  let arity := N.of_nat (length (rf_argument_keys fact)) in
  _ ← reject_if (255 <? arity)%N (invariant "relevant blocking fact arity exceeds one byte");
  let d := foldl digest_key (Sha.update d [arity]) (rf_argument_keys fact) in
  Ok (Sha.update d (string_bytes (if rf_core fact then "1" else "0"))).

Definition state_digest (ordered_nodes : list A) (nodes : Nodes) (facts : list (RelevantFact A)) (v : BlockingVocabulary) :
    BlockingResult (list N) :=
  let d := Sha.update (Sha.update Sha.new (string_bytes "pyhermit:blocking-label-state:v1" ++ [0])) (fingerprint_bytes v) in
  d ← foldM (digest_node nodes) ordered_nodes d;
  d ← foldM digest_fact facts d;
  Ok (Sha.finalize d).

(** ** The projection of a state *)

Section state.
Context {S C : Type} `{BlockingStateRead S A} `{BlockingControl C}.

(** A loop body that polls at every [interval]th index. *)
Definition polled {X Y} (interval : N) (f : Y → X → BlockingResult Y) (acc : Y) (entry : nat * X) : st C BlockingError Y :=
  _ ← (if (N.of_nat entry.1 mod interval =? 0)%N then blocking_poll else mret tt);
  lift (f acc entry.2).

Definition from_state (s : S) (v : BlockingVocabulary) (limits : BlockingLimits) : st C BlockingError (BlockingProjection A) :=
  limits ← lift (validate_limits limits);
  _ ← blocking_poll;
  records ← lift (node_records s);
  _ ← lift (check_limit (N.of_nat (length records)) (bl_max_nodes limits) "blocking_nodes" "blocking node projection limit exceeded");
  owners ← foldST (polled (bl_cancellation_poll_interval limits) add_record) (imap pair records) (mkOwners ∅ ∅ ∅);
  let nodes := ow_nodes owners in
  _ ← lift (iterM (check_parent nodes) (btree_values nodes));
  let ordered_nodes := order_nodes nodes in
  facts ← lift (active_fact_records s);
  _ ← lift (check_limit (N.of_nat (length facts)) (bl_max_facts limits) "blocking_facts" "blocking fact projection limit exceeded");
  relevant ← foldST (polled (bl_cancellation_poll_interval limits) (add_fact v nodes)) (imap pair facts) [];
  let relevant := dedup (sort relevant) in
  labels ← lift (foldM label_fact relevant (mkLabels ∅ ∅ ∅ ∅));
  digest ← lift (state_digest ordered_nodes nodes relevant v);
  _ ← blocking_observe_memory (estimate_bytes (size nodes) (length relevant));
  _ ← blocking_poll;
  mret (mkProjection (revision s) ordered_nodes nodes (freeze (lb_concepts labels)) (freeze (lb_core_concepts labels))
    (freeze (lb_roles labels)) (freeze (lb_core_roles labels)) digest).
End state.

(** ** Reading a projection *)

Abbreviation P := (BlockingProjection A).

Definition concept_label (p : P) (node : A) (core_only : bool) : list N :=
  default [] ((if core_only then bp_core_concepts p else bp_concepts p) !! node).

Definition role_label (p : P) (source target : A) (core_only : bool) : list N :=
  default [] ((if core_only then bp_core_roles p else bp_roles p) !! (source, target)).

Definition same_blocking_node (left right : option (NodeRecord A)) : bool :=
  match left, right with
  | None, None => true
  | Some l, Some r =>
      bool_decide (nr_node l = nr_node r) && bool_decide (nr_key l = nr_key r) && (nr_creation_id l =? nr_creation_id r)%N
      && bool_decide (nr_kind l = nr_kind r) && bool_decide (nr_lifecycle l = nr_lifecycle r) && bool_decide (nr_parent l = nr_parent r)
  | _, _ => false
  end.

(** The creation numbers that a changed node contributes. *)
Definition node_changes (p other : P) (node : A) : list N :=
  let before := bp_nodes p !! node in
  let after := bp_nodes other !! node in
  (if same_blocking_node before after then [] else nr_creation_id <$> option_list before ++ option_list after)
  ++ (if bool_decide (bp_concepts p !! node ≠ bp_concepts other !! node)
         || bool_decide (bp_core_concepts p !! node ≠ bp_core_concepts other !! node)
      then nr_creation_id <$> option_list (union before after) else []).

Definition edge_changes (p other : P) (edge : A * A) : list N :=
  if bool_decide (bp_roles p !! edge ≠ bp_roles other !! edge) || bool_decide (bp_core_roles p !! edge ≠ bp_core_roles other !! edge)
  then [edge.1; edge.2] ≫= λ node, nr_creation_id <$> option_list (union (bp_nodes p !! node) (bp_nodes other !! node))
  else [].

Definition earliest_difference (p other : P) : option N :=
  let changed := ((btree_keys (bp_nodes p) ++ btree_keys (bp_nodes other)) ≫= node_changes p other)
    ++ ((btree_keys (bp_roles p) ++ btree_keys (bp_roles other)) ≫= edge_changes p other) in
  min_by compare changed.

Fixpoint ancestor_loop (p : P) (ancestor node : A) (remaining : nat) : bool :=
  match remaining with
  | O => false
  | Datatypes.S remaining =>
      match bp_nodes p !! node ≫= nr_parent with
      | None => false
      | Some parent => if bool_decide (parent = ancestor) then true else ancestor_loop p ancestor parent remaining
      end
  end.

Definition is_ancestor (p : P) (ancestor node : A) : bool := ancestor_loop p ancestor node (size (bp_nodes p)).
End projection.
End Projection.
