(* ===== verification/BlockingChecker.v ===== *)
(** * Direct checkers and the signature cache (native/src/blocking/checker.rs, cache.rs)

    A checker says which nodes can take part in blocking and with which signature;
    the cache remembers signatures of nodes in models that were found. *)

From S2P Require Import Prelude Order Errors Model Sha256 BlockingModel Projection.
Import Blocking.

Record DirectChecker := mkChecker {
  dc_kind : DirectCheckerKind;
  dc_vocabulary : BlockingVocabulary;
  dc_has_inverses : bool
}.

Module Checker.

Definition new (kind : DirectCheckerKind) (vocabulary : BlockingVocabulary) (has_inverses : bool) : BlockingResult DirectChecker :=
  _ ← reject_if (has_inverses && bool_decide (kind = SingleChecker))
    (invalid "single direct blocking is unsound when inverse roles are enabled");
  Ok (mkChecker kind vocabulary has_inverses).

Section checker.
Context {A : Type} `{OrdLaws A} `{!EqDecision A} `{!Countable A}.
Implicit Types (c : DirectChecker) (p : BlockingProjection A).
Abbreviation concept_label := Projection.concept_label.
Abbreviation role_label := Projection.role_label.

Definition active_tree (record : NodeRecord A) : bool :=
  bool_decide (nr_lifecycle record = Active) && bool_decide (nr_kind record = Tree).

Definition eligible c p (node : A) : bool :=
  match bp_nodes p !! node with
  | None => false
  | Some record =>
      if negb (active_tree record) then false
      else
        let needs_tree_parent := bool_decide (dc_kind c = Pairwise) || (checker_validated (dc_kind c) && dc_has_inverses c) in
        if negb needs_tree_parent then true
        else match nr_parent record ≫= λ parent, bp_nodes p !! parent with
             | Some parent => active_tree parent
             | None => false
             end
  end.

Definition can_be_blocker c p (node : A) : bool := eligible c p node.
Definition can_be_blocked c p (node : A) : bool := eligible c p node.

Definition parent p (node : A) : BlockingResult A :=
  ok_or (bp_nodes p !! node ≫= nr_parent) (invariant "tree blocking signature requires a parent").

Definition signature c p (node : A) : BlockingResult BlockingSignature :=
  _ ← reject_if (negb (can_be_blocked c p node)) (invalid "node is not eligible for the selected direct blocking checker");
  let concepts := concept_label p node false in
  match dc_kind c with
  | SingleChecker => Signature.new (dc_kind c) concepts [] [] [] concepts [] [] []
  | Pairwise =>
      parent ← parent p node;
      let parent_concepts := concept_label p parent false in
      let from_parent := role_label p parent node false in
      let to_parent := role_label p node parent false in
      Signature.new (dc_kind c) concepts parent_concepts from_parent to_parent concepts parent_concepts from_parent to_parent
  | ValidatedSingle =>
      parent ← parent p node;
      Signature.new (dc_kind c) (concept_label p node true) [] [] [] concepts
        (concept_label p parent false) (role_label p parent node false) (role_label p node parent false)
  | ValidatedPairwise =>
      parent ← parent p node;
      Signature.new (dc_kind c) (concept_label p node true) (concept_label p parent true) [] [] concepts
        (concept_label p parent false) (role_label p parent node false) (role_label p node parent false)
  end.

Definition is_blocked_by c p (blocker blocked : A) : BlockingResult bool :=
  if negb (can_be_blocker c p blocker) || negb (can_be_blocked c p blocked) then Ok false
  else
    blocker_record ← ok_or (bp_nodes p !! blocker) (invariant "eligible blocker is absent");
    blocked_record ← ok_or (bp_nodes p !! blocked) (invariant "eligible blockee is absent");
    if (nr_creation_id blocked_record <=? nr_creation_id blocker_record)%N || Projection.is_ancestor p blocked blocker then Ok false
    else
      s ← signature c p blocker;
      t ← signature c p blocked;
      Ok (Signature.blocks s t).
End checker.
End Checker.

(** ** The cache *)

Record BlockingCacheNamespace := mkNamespace {
  ns_ontology_fingerprint : string;
  ns_vocabulary_fingerprint : string;
  ns_checker_kind : DirectCheckerKind;
  ns_core_mode : CoreBlockingMode;
  ns_configuration_fingerprint : string
}.

Record CachePromotionContext := mkPromotionContext {
  pc_satisfiable : bool;
  pc_completed : bool;
  pc_has_nominals : bool;
  pc_has_additional_ontology : bool;
  pc_query_local_axioms : bool;
  pc_aborted : bool
}.

Record CachePromotion := mkPromotion {
  cp_inserted : N;
  cp_entry_count : N;
  cp_size_bytes : N
}.

Record CacheEntry := mkCacheEntry {
  ce_signature : BlockingSignature;
  ce_size_bytes : N;
  ce_last_used : N
}.

#[global] Instance CacheEntry_eta : Eta CacheEntry := λ e, mkCacheEntry (ce_signature e) (ce_size_bytes e) (ce_last_used e).

Record BlockingSignatureCache := mkCache {
  ch_namespace : BlockingCacheNamespace;
  ch_max_entries : N;
  ch_max_bytes : N;
  ch_size_bytes : N;
  ch_clock : N;
  ch_entries : gmap (list N) CacheEntry
}.

#[global] Instance BlockingSignatureCache_eta : Eta BlockingSignatureCache := λ c,
  mkCache (ch_namespace c) (ch_max_entries c) (ch_max_bytes c) (ch_size_bytes c) (ch_clock c) (ch_entries c).

Module Cache.

Definition new_namespace (ontology vocabulary : string) (kind : DirectCheckerKind) (mode : CoreBlockingMode) (configuration : string) :
    BlockingResult BlockingCacheNamespace :=
  _ ← reject_if (bool_decide (ontology = "") || bool_decide (vocabulary = "") || bool_decide (configuration = ""))
    (invalid "blocking cache fingerprints must be nonempty");
  Ok (mkNamespace ontology vocabulary kind mode configuration).

Definition new_cache (namespace : BlockingCacheNamespace) (max_entries max_bytes : N) : BlockingResult BlockingSignatureCache :=
  _ ← reject_if ((max_entries =? 0)%N || (max_bytes =? 0)%N) (invalid "blocking cache bounds must be strictly positive");
  Ok (mkCache namespace max_entries max_bytes 0 0 ∅).

Abbreviation K X := (st BlockingSignatureCache BlockingError X).

Definition entry_count (c : BlockingSignatureCache) : N := N.of_nat (size (ch_entries c)).

Definition require_compatible (signature : BlockingSignature) : K unit :=
  c ← gets id;
  lift (reject_if (bool_decide (sg_kind signature ≠ ns_checker_kind (ch_namespace c)))
    (invalid "blocking signature checker kind does not match cache namespace")).

Definition next_clock : K N :=
  c ← gets id;
  next ← lift (ok_or (checked_add u64_max (ch_clock c) 1) (invariant "blocking cache LRU clock overflow"));
  _ ← modify (λ c, c <| ch_clock := next |>);
  mret next.

Definition collision : BlockingError := invariant "canonical blocking signature collision".

(** An entry under the key is refreshed; is there one? *)
Definition touch (key : list N) (signature : BlockingSignature) (next : N) : K bool :=
  c ← gets id;
  match ch_entries c !! key with
  | None => mret false
  | Some entry =>
      _ ← lift (reject_if (bool_decide (ce_signature entry ≠ signature)) collision);
      _ ← modify (λ c, c <| ch_entries ::= <[key := entry <| ce_last_used := next |>]> |>);
      mret true
  end.

Definition contains (signature : BlockingSignature) : K bool :=
  _ ← require_compatible signature;
  let key := Signature.canonical_bytes signature in
  next ← next_clock;
  touch key signature next.

(** ** Eviction *)

(** [min_by_key] over the entries in key order, by use and key. *)
Definition victim (entries : gmap (list N) CacheEntry) : option (list N) :=
  fst <$> min_by (λ x y, compare (ce_last_used x.2, x.1) (ce_last_used y.2, y.1)) (btree_entries entries).

Fixpoint evict_loop (fuel : nat) (c : BlockingSignatureCache) : BlockingSignatureCache :=
  match fuel with
  | O => c
  | S fuel =>
      if (ch_max_entries c <? entry_count c)%N || (ch_max_bytes c <? ch_size_bytes c)%N then
        match victim (ch_entries c) with
        | None => c <| ch_size_bytes := 0 |>
        | Some key =>
            evict_loop fuel
              (match ch_entries c !! key with
               | Some entry => c <| ch_entries ::= delete key |> <| ch_size_bytes ::= λ n, n - ce_size_bytes entry |>
               | None => c
               end)
        end
      else c
  end.

(** Each turn removes an entry. *)
Definition evict : K unit := modify (λ c, evict_loop (S (size (ch_entries c))) c).

Definition add (signature : BlockingSignature) : K bool :=
  _ ← require_compatible signature;
  let key := Signature.canonical_bytes signature in
  let size_bytes := saturating_add u64_max (N.of_nat (length key)) 128 in
  c ← gets id;
  if (ch_max_bytes c <? size_bytes)%N then mret false
  else
    next ← next_clock;
    touch key signature next ≫= λ present : bool,
    if present then mret false
    else
      _ ← modify (λ c, c <| ch_entries ::= <[key := mkCacheEntry signature size_bytes next]> |>
        <| ch_size_bytes ::= λ n, saturating_add u64_max n size_bytes |>);
      _ ← evict;
      gets (λ c, existsb (λ e, (ce_last_used e =? next)%N) (btree_values (ch_entries c))).

Definition clear : K unit := modify (λ c, c <| ch_entries := ∅ |> <| ch_size_bytes := 0 |> <| ch_clock := 0 |>).

Definition promotion (inserted : N) (c : BlockingSignatureCache) : CachePromotion :=
  mkPromotion inserted (entry_count c) (ch_size_bytes c).

(** ** Promotion of a model *)

Section promote.
Context {C : Type} `{BlockingControl C}.
Abbreviation PM X := (st (C * BlockingSignatureCache) BlockingError X).

Definition on_control {X} (m : st C BlockingError X) : PM X := λ s, let '(r, c) := m s.1 in (r, (c, s.2)).
Definition on_cache {X} (m : K X) : PM X := λ s, let '(r, k) := m s.2 in (r, (s.1, k)).

Definition promote_one (inserted : N) (entry : nat * BlockingSignature) : PM N :=
  _ ← (if (N.of_nat entry.1 mod 256 =? 0)%N then on_control blocking_poll else mret tt);
  on_cache (add entry.2) ≫= λ fresh : bool,
  s ← gets snd;
  _ ← on_control (blocking_observe_memory (ch_size_bytes s));
  mret (saturating_add u64_max inserted (if fresh then 1 else 0)).

Definition promotable (c : BlockingSignatureCache) (context : CachePromotionContext) : bool :=
  pc_satisfiable context && pc_completed context && negb (pc_has_nominals context) && negb (pc_has_additional_ontology context)
  && negb (pc_query_local_axioms context) && negb (pc_aborted context) && bool_decide (ns_core_mode (ch_namespace c) = CoreNone).

Definition promote_inner (signatures : list BlockingSignature) : PM CachePromotion :=
  inserted ← foldST promote_one (imap pair signatures) 0;
  _ ← on_control blocking_poll;
  gets (λ s, promotion inserted s.2).

(** An error restores the cache. *)
Definition promote_model (signatures : list BlockingSignature) (context : CachePromotionContext) : PM CachePromotion := λ s,
  if negb (promotable s.2 context) then (Ok (promotion 0 s.2), s)
  else
    match promote_inner signatures s with
    | (Ok x, s') => (Ok x, s')
    | (Err e, s') => (Err e, (s'.1, s.2))
    | (Crash, s') => (Crash, s')
    end.
End promote.

Definition fingerprints (c : BlockingSignatureCache) : list string :=
  (λ e, Signature.sha256 (ce_signature e)) <$> merge_sort (λ x y, ord_le (ce_last_used x) (ce_last_used y)) (btree_values (ch_entries c)).
End Cache.
