(* ===== verification/BlockingManager.v ===== *)
(** * The blocking manager (native/src/blocking/manager.rs)

    Nodes are assigned in the order of their creation: below a blocked parent
    indirectly, by a signature in the cache, or directly by an earlier unblocked node
    with the same blocking key, found through an index.  When only later nodes have
    changed, the assignments of the earlier ones are kept. *)

From S2P Require Import Prelude Order Errors Model Sha256 BlockingModel Projection BlockingChecker.
Import Blocking.

Inductive BlockingEvent :=
| Invalidated | DirectBlock | IndirectBlock | CacheBlock | Unblocked | Recomputed | BlockValidated | BlockRejected.

Record BlockingTraceEvent (A : Type) := mkBlockingTrace {
  bt_sequence : N;
  bt_event : BlockingEvent;
  bt_node : option A;
  bt_blocker : option A;
  bt_state_digest : option string;
  bt_details : list N
}.
Arguments mkBlockingTrace {A}.

Record ComputeStats := mkStats {
  cs_nodes_visited : N;
  cs_signatures_built : N;
  cs_candidate_checks : N;
  cs_indexed_blockers : N
}.

#[global] Instance ComputeStats_eta : Eta ComputeStats := λ s,
  mkStats (cs_nodes_visited s) (cs_signatures_built s) (cs_candidate_checks s) (cs_indexed_blockers s).

Record AssignmentChange (A : Type) := mkChange {
  ac_node : A;
  ac_before : option (BlockingAssignment A);
  ac_after : option (BlockingAssignment A)
}.
Arguments mkChange {A}.
Arguments ac_node {A}.
Arguments ac_before {A}.
Arguments ac_after {A}.

Record ComputeResult (A : Type) := mkComputeResult {
  cr_changed : list (AssignmentChange A);
  cr_reschedule_nodes : list A;
  cr_earliest_recomputed_creation_id : option N;
  cr_state_digest : string;
  cr_stats : ComputeStats
}.
Arguments mkComputeResult {A}.
Arguments cr_changed {A}.
Arguments cr_reschedule_nodes {A}.
Arguments cr_earliest_recomputed_creation_id {A}.
Arguments cr_state_digest {A}.
Arguments cr_stats {A}.

Record BlockingManager (A : Type) `{Countable A} := mkManager {
  bm_plan : BlockingPlan;
  bm_checker : DirectChecker;
  bm_limits : BlockingLimits;
  bm_cache : option BlockingSignatureCache;
  bm_assignments : gmap A (BlockingAssignment A);
  bm_blocker_index : gmap BlockingKey (list A);
  bm_last_projection : option (BlockingProjection A);
  bm_dirty_creation_id : option N;
  bm_last_recomputed_from : option N;
  bm_rejected_blocks : gmap (A * A) (list N);
  bm_validated_digest : option (list N);
  bm_trace : list (BlockingTraceEvent A);
  bm_max_trace_events : N
}.
Arguments mkManager {A _ _}.
Arguments bm_plan {A _ _}.
Arguments bm_checker {A _ _}.
Arguments bm_limits {A _ _}.
Arguments bm_cache {A _ _}.
Arguments bm_assignments {A _ _}.
Arguments bm_blocker_index {A _ _}.
Arguments bm_last_projection {A _ _}.
Arguments bm_dirty_creation_id {A _ _}.
Arguments bm_last_recomputed_from {A _ _}.
Arguments bm_rejected_blocks {A _ _}.
Arguments bm_validated_digest {A _ _}.
Arguments bm_trace {A _ _}.
Arguments bm_max_trace_events {A _ _}.

#[global] Instance BlockingManager_eta `{Countable A} : Eta (BlockingManager A) := λ m,
  mkManager (bm_plan m) (bm_checker m) (bm_limits m) (bm_cache m) (bm_assignments m) (bm_blocker_index m) (bm_last_projection m)
    (bm_dirty_creation_id m) (bm_last_recomputed_from m) (bm_rejected_blocks m) (bm_validated_digest m) (bm_trace m) (bm_max_trace_events m).

Module Manager.

Definition no_stats : ComputeStats := mkStats 0 0 0 0.

(** [usize::saturating_add(1)]. *)
Definition succ (n : N) : N := saturating_add u64_max n 1.

Section manager.
Context {A : Type} `{OrdLaws A} `{!EqDecision A} `{!Countable A} {C : Type} `{BlockingControl C}.
Abbreviation P := (BlockingProjection A).
Abbreviation M := (BlockingManager A).

Definition new (plan : BlockingPlan) (checker : DirectChecker) (cache : option BlockingSignatureCache) (limits : BlockingLimits)
    (max_trace_events : N) : BlockingResult M :=
  limits ← validate_limits limits;
  _ ← reject_if (bool_decide (dc_kind checker ≠ pl_direct_checker_kind plan)) (invalid "direct checker kind does not match blocking plan");
  _ ← match cache with
      | None => Ok tt
      | Some value =>
          _ ← reject_if (negb (pl_cache_allowed plan)) (invalid "selected blocking plan forbids signature caching");
          _ ← reject_if (bool_decide (ns_checker_kind (ch_namespace value) ≠ dc_kind checker))
            (invalid "blocking cache checker kind does not match manager");
          _ ← reject_if (bool_decide (ns_core_mode (ch_namespace value) ≠ pl_core_mode plan))
            (invalid "blocking cache core mode does not match manager");
          reject_if (bool_decide (ns_vocabulary_fingerprint (ch_namespace value) ≠ Projection.fingerprint (dc_vocabulary checker)))
            (invalid "blocking cache vocabulary does not match manager")
      end;
  Ok (mkManager plan checker limits cache ∅ ∅ None (Some 0) None ∅ None [] max_trace_events).

(** ** Finding a blocker *)

Definition candidate_step (limits : BlockingLimits) (stats : ComputeStats) : st C BlockingError ComputeStats :=
  let stats := stats <| cs_candidate_checks ::= succ |> in
  _ ← lift (reject_if (bl_max_candidate_checks limits <? cs_candidate_checks stats)%N
    (resource "blocking candidate limit exceeded" "blocking_candidate_checks" (cs_candidate_checks stats) (bl_max_candidate_checks limits)));
  _ ← (if (cs_candidate_checks stats mod bl_cancellation_poll_interval limits =? 0)%N then blocking_poll else mret tt);
  mret stats.

Section recompute.
Context (p : P) (checker : DirectChecker) (plan : BlockingPlan) (rejected : gmap (A * A) (list N)) (limits : BlockingLimits).
Abbreviation digest := (bp_state_digest p).

Definition free (assignments : gmap A (BlockingAssignment A)) (node : A) : bool :=
  match assignments !! node with Some a => negb (blocked a) | None => false end.

Definition is_rejected (node candidate : A) : bool := bool_decide (rejected !! (node, candidate) = Some digest).

(** An ancestor that blocks the node. *)
Definition ancestor_blocks (node : A) (signature : BlockingSignature) (assignments : gmap A (BlockingAssignment A)) (candidate : A) :
    BlockingResult bool :=
  if free assignments candidate && Checker.can_be_blocker checker p candidate then
    s ← Checker.signature checker p candidate;
    Ok (Signature.blocks s signature && negb (is_rejected node candidate))
  else Ok false.

Fixpoint search_ancestors (node : A) (signature : BlockingSignature) (assignments : gmap A (BlockingAssignment A))
    (parent : option A) (remaining : nat) (stats : ComputeStats) {struct remaining} : st C BlockingError (option A * ComputeStats) :=
  match parent with
  | None => mret (None, stats)
  | Some candidate =>
      stats ← candidate_step limits stats;
      lift (ancestor_blocks node signature assignments candidate) ≫= λ found : bool,
      if found then mret (Some candidate, stats)
      else
        match remaining with
        | O => lift (Err (invariant "cycle detected in blocking parent chain"))
        | Datatypes.S remaining =>
            search_ancestors node signature assignments (bp_nodes p !! candidate ≫= nr_parent) remaining stats
        end
  end.

Fixpoint search_candidates (node : A) (assignments : gmap A (BlockingAssignment A)) (candidates : list A) (stats : ComputeStats) :
    st C BlockingError (option A * ComputeStats) :=
  match candidates with
  | [] => mret (None, stats)
  | candidate :: candidates =>
      stats ← candidate_step limits stats;
      if free assignments candidate && negb (Projection.is_ancestor p node candidate) && negb (is_rejected node candidate)
      then mret (Some candidate, stats)
      else search_candidates node assignments candidates stats
  end.

Definition find_blocker (node : A) (signature : BlockingSignature) (assignments : gmap A (BlockingAssignment A))
    (index : gmap BlockingKey (list A)) (stats : ComputeStats) : st C BlockingError (option A * ComputeStats) :=
  if bool_decide (pl_manager_kind plan = Ancestor)
  then search_ancestors node signature assignments (bp_nodes p !! node ≫= nr_parent) (size (bp_nodes p)) stats
  else search_candidates node assignments (default [] (index !! Signature.blocking_key signature)) stats.

(** ** The assignment of a node *)

Record Run := mkRun {
  rn_assignments : gmap A (BlockingAssignment A);
  rn_index : gmap BlockingKey (list A);
  rn_stats : ComputeStats
}.

#[global] Instance Run_eta : Eta Run := λ r, mkRun (rn_assignments r) (rn_index r) (rn_stats r).

Abbreviation RM X := (st (C * option BlockingSignatureCache) BlockingError X).

Definition steer {X} (m : st C BlockingError X) : RM X := λ s, let '(r, c) := m s.1 in (r, (c, s.2)).

(** A look into the cache, if there is one and the plan allows it. *)
Definition cache_hit (signature : BlockingSignature) : RM bool := λ s,
  if pl_cache_allowed plan then
    match s.2 with
    | Some cache => let '(r, cache') := Cache.contains signature cache in (r, (s.1, Some cache'))
    | None => (Ok false, s)
    end
  else (Ok false, s).

(** A tree node: below its parent, by the cache, or by a blocker. *)
Definition assign_tree (r : Run) (node : A) (record : NodeRecord A) : RM (BlockingAssignment A * ComputeStats) :=
  parent ← lift (ok_or (nr_parent record) (invariant "active tree blocking node has no parent"));
  if match rn_assignments r !! parent with Some a => blocked a | None => false end then mret (indirect node parent, rn_stats r)
  else if Checker.can_be_blocked checker p node then
    signature ← lift (Checker.signature checker p node);
    let stats := rn_stats r <| cs_signatures_built ::= succ |> in
    cache_hit signature ≫= λ hit : bool,
    if hit then mret (cached node, stats)
    else
      found ← steer (find_blocker node signature (rn_assignments r) (rn_index r) stats);
      mret (match found.1 with Some blocker => direct node blocker | None => unblocked node end, found.2)
  else mret (unblocked node, rn_stats r).

(** An unblocked node that can block enters the index. *)
Definition index_node (r : Run) (node : A) (a : BlockingAssignment A) : BlockingResult Run :=
  if negb (blocked a) && Checker.can_be_blocker checker p node then
    signature ← Checker.signature checker p node;
    Ok (r <| rn_index ::= λ i, <[Signature.blocking_key signature := default [] (i !! Signature.blocking_key signature) ++ [node]]> i |>
          <| rn_stats ::= λ s, s <| cs_signatures_built ::= succ |> <| cs_indexed_blockers ::= succ |> |>)
  else Ok r.

Definition assign_node (r : Run) (node : A) : RM Run :=
  let r := r <| rn_stats ::= λ s, s <| cs_nodes_visited ::= succ |> |> in
  _ ← (if (cs_nodes_visited (rn_stats r) mod bl_cancellation_poll_interval limits =? 0)%N then steer blocking_poll else mret tt);
  record ← lift (ok_or (bp_nodes p !! node) (invariant "ordered blocking node is absent"));
  x ← (if bool_decide (nr_kind record = Tree) then assign_tree r node record else mret (unblocked node, rn_stats r));
  lift (index_node (mkRun (<[node := x.1]> (rn_assignments r)) (rn_index r) x.2) node x.1).

(** ** All nodes *)

Definition before_frontier (frontier : N) (node : A) : bool :=
  match bp_nodes p !! node with Some r => (nr_creation_id r <? frontier)%N | None => false end.

(** The assignments and the index of the nodes before the frontier. *)
Definition keep_prefix (assignments : gmap A (BlockingAssignment A)) (index : gmap BlockingKey (list A)) (frontier : N) :
    gmap A (BlockingAssignment A) * gmap BlockingKey (list A) :=
  (filter (λ e, before_frontier frontier e.1 = true) assignments,
   filter (λ e, e.2 ≠ []) (filter (λ node, before_frontier frontier node = true) <$> index)).

(** [ordered_nodes.partition_point(..)]: the nodes are sorted by the predicate. *)
Fixpoint partition_point (f : A → bool) (l : list A) : nat :=
  match l with
  | [] => 0
  | x :: l => if f x then Datatypes.S (partition_point f l) else 0
  end.

Definition recompute_internal (prefix : option (gmap A (BlockingAssignment A) * gmap BlockingKey (list A) * N)) : RM Run :=
  _ ← lift (reject_if (bool_decide (dc_kind checker ≠ pl_direct_checker_kind plan)) (invalid "direct checker kind does not match blocking plan"));
  let '(assignments, index) :=
    match prefix with Some (previous, previous_index, frontier) => keep_prefix previous previous_index frontier | None => (∅, ∅) end in
  let first_recomputed :=
    match prefix with Some (_, _, frontier) => partition_point (before_frontier frontier) (bp_ordered_nodes p) | None => 0%nat end in
  r ← foldST assign_node (drop first_recomputed (bp_ordered_nodes p)) (mkRun assignments index no_stats);
  _ ← steer blocking_poll;
  mret r.
End recompute.
End manager.
End Manager.

(** * Operations of the blocking manager (native/src/blocking/manager.rs, validation.rs)

    Invalidation, computation with rollback, the manager's audits, promotion of
    models, validation passes that reject a block at a time, and the application of
    the changes to the tableau. *)

Import Blocking Manager.

Record ValidationDecision (A : Type) := mkDecision {
  vd_valid : bool;
  vd_promote_fact_ids : list N;
  vd_reschedule_nodes : list A;
  vd_violation_ids : list N
}.
Arguments mkDecision {A}.
Arguments vd_valid {A}.
Arguments vd_promote_fact_ids {A}.
Arguments vd_reschedule_nodes {A}.
Arguments vd_violation_ids {A}.

Record ValidationPassResult (A : Type) := mkPassResult {
  vp_valid : bool;
  vp_checked_blocks : N;
  vp_invalidated_blocks : N;
  vp_promote_fact_ids : list N;
  vp_reschedule_nodes : list A;
  vp_violation_ids : list N;
  vp_state_digest : string;
  vp_assignment_changes : list (AssignmentChange A)
}.
Arguments mkPassResult {A}.
Arguments vp_valid {A}.
Arguments vp_checked_blocks {A}.
Arguments vp_invalidated_blocks {A}.
Arguments vp_promote_fact_ids {A}.
Arguments vp_reschedule_nodes {A}.
Arguments vp_violation_ids {A}.
Arguments vp_state_digest {A}.
Arguments vp_assignment_changes {A}.

(** The trait [BlockValidator]. *)
Class BlockValidator (S A V C : Type) `{Countable A} := {
  begin_pass : S → BlockingProjection A → st (C * V) BlockingError unit;
  validate_block : S → BlockingProjection A → A → A → BlockingSignature → st (C * V) BlockingError (ValidationDecision A);
  end_pass : V → V
}.

(** The trait [BlockingStateMutate]; [X] is the state that the closure captures. *)
Class BlockingStateMutate (S A : Type) `{BlockingStateRead S A} := {
  blocking_atomic {X Y} : st (X * S) BlockingError Y → st (X * S) BlockingError Y;
  apply_assignment_change : AssignmentChange A → st S BlockingError unit;
  promote_core_fact : N → st S BlockingError unit;
  reschedule_existentials : A → st S BlockingError unit
}.

Module Ops.

Definition min_option (left right : option N) : option N :=
  match left, right with
  | Some l, Some r => Some (N.min l r)
  | Some v, None | None, Some v => Some v
  | None, None => None
  end.

Section ops.
Context {A : Type} `{OrdLaws A} `{!EqDecision A} `{!Countable A} {C : Type} `{BlockingControl C}.
Abbreviation P := (BlockingProjection A).
Abbreviation M := (BlockingManager A).
Abbreviation MM X := (st (C * M) BlockingError X).

(** ** Trace and invalidation *)

Definition record (event : BlockingEvent) (node blocker : option A) (digest : option string) (details : list N) (m : M) : M :=
  if (bm_max_trace_events m <=? N.of_nat (length (bm_trace m)))%N then m
  else m <| bm_trace ::= λ t, t ++ [mkBlockingTrace (N.of_nat (length t)) event node blocker digest details] |>.

Definition invalidate_creation (creation_id : N) (node : option A) (m : M) : M :=
  record Invalidated node None None [creation_id]
    (m <| bm_dirty_creation_id := Some (match bm_dirty_creation_id m with Some known => N.min known creation_id | None => creation_id end) |>
       <| bm_validated_digest := None |>).

Definition invalidate_all (m : M) : M := invalidate_creation 0 None m.

(** The creation number of a node of the last projection. *)
Definition known_creation (m : M) (node : A) : option N :=
  bm_last_projection m ≫= λ p, nr_creation_id <$> bp_nodes p !! node.

Definition invalidate_node (node : A) (m : M) : M := invalidate_creation (default 0 (known_creation m node)) (Some node) m.

Definition notify_fact_change (fact : FactRecord A) (m : M) : M :=
  let v := dc_vocabulary (bm_checker m) in
  if bool_decide (fr_predicate_id fact ∈ vc_atomic_concepts v) || bool_decide (fr_predicate_id fact ∈ vc_atomic_object_roles v)
  then invalidate_creation (default 0 (min_by compare (omap (known_creation m) (fr_arguments fact)))) (head (fr_arguments fact)) m
  else m.

(** ** Changes *)

Definition assignment_change (before after : gmap A (BlockingAssignment A)) (node : A) : option (AssignmentChange A) :=
  let old := before !! node in
  let new := after !! node in
  let unchanged_default :=
    match old, new with None, Some value | Some value, None => negb (blocked value) | _, _ => false end in
  if unchanged_default then None
  else if bool_decide (old ≠ new) then Some (mkChange node old new) else None.

Definition assignment_changes (before after : gmap A (BlockingAssignment A)) : list (AssignmentChange A) :=
  omap (assignment_change before after) (btree_elements (dom before ∪ dom after)).

Definition was (a : option (BlockingAssignment A)) : bool := match a with Some a => blocked a | None => false end.

(** A node that is free again and has work waiting. *)
Definition reschedules (p : P) (c : AssignmentChange A) : bool :=
  was (ac_before c) && negb (was (ac_after c))
  && match bp_nodes p !! ac_node c with Some r => nr_has_pending_existentials r | None => false end.

Definition node_order (p : P) (node : A) : N * NodeKey :=
  match bp_nodes p !! node with Some r => (nr_creation_id r, nr_key r) | None => (u32_max, mkKey u32_max u32_max) end.

Definition rescheduled (p : P) (changes : list (AssignmentChange A)) : list A :=
  dedup (merge_sort (λ x y, ord_le (node_order p x) (node_order p y)) (ac_node <$> filter (λ c, reschedules p c = true) changes)).

(** The event of a change, if the node is still there. *)
Definition record_change (digest : string) (m : M) (c : AssignmentChange A) : M :=
  match ac_after c with
  | None => m
  | Some after =>
      let event := if ba_from_cache after then CacheBlock
        else if bool_decide (ba_blocker after = None) then Unblocked
        else if ba_directly after then DirectBlock else IndirectBlock in
      record event (Some (ac_node c)) (ba_blocker after) (Some digest) [] m
  end.

(** ** Audits *)

(** The assignments in the order of the nodes. *)
Definition assignments (m : M) : list (BlockingAssignment A) :=
  match bm_last_projection m with
  | None => []
  | Some p => omap (λ node, bm_assignments m !! node) (bp_ordered_nodes p)
  end.

Definition check_assignment (p : P) (a : BlockingAssignment A) : BlockingResult unit :=
  record ← ok_or (bp_nodes p !! ba_node a) (invariant "blocking assignment refers to a stale node");
  match ba_blocker a with
  | None => Ok tt
  | Some blocker =>
      blocker_record ← ok_or (bp_nodes p !! blocker) (invariant "blocking assignment has a stale blocker");
      reject_if (nr_creation_id record <=? nr_creation_id blocker_record)%N (invariant "blocker does not precede blocked node")
  end.

Definition check_indexed (m : M) (p : P) (node : A) : BlockingResult unit :=
  a ← ok_or (bm_assignments m !! node) (invariant "blocking index refers to an unassigned node");
  reject_if (blocked a || negb (Checker.can_be_blocker (bm_checker m) p node)) (invariant "blocking index contains an ineligible or stale entry").

Definition check_structural_invariants (m : M) : BlockingResult unit :=
  p ← ok_or (bm_last_projection m) (invariant "blocking projection is unavailable");
  _ ← reject_if (bool_decide (size (bm_assignments m) ≠ length (bp_ordered_nodes p)))
    (invariant "blocking assignment count differs from the projected node count");
  _ ← iterM (check_assignment p) (assignments m);
  iterM (iterM (check_indexed m p)) (btree_values (bm_blocker_index m)).

(** ** Computation *)

Definition on_control {X} (m : st C BlockingError X) : MM X := λ s, let '(r, c) := m s.1 in (r, (c, s.2)).
Definition upd (f : M → M) : MM unit := modify (λ s, (s.1, f s.2)).

(** The recomputation on the manager's cache. *)
Definition recompute (p : P) (prefix : option (gmap A (BlockingAssignment A) * gmap BlockingKey (list A) * N)) : MM Run := λ s,
  let '(r, (c, cache)) :=
    recompute_internal p (bm_checker s.2) (bm_plan s.2) (bm_rejected_blocks s.2) (bm_limits s.2) prefix (s.1, bm_cache s.2) in
  (r, (c, s.2 <| bm_cache := cache |>)).

Definition compute_inner (p : P) (before : M) (force_full digest_changed : bool) (earliest : N) : MM (ComputeResult A) :=
  _ ← on_control blocking_poll;
  _ ← upd (λ m, m <| bm_rejected_blocks ::= filter (λ e, e.2 = bp_state_digest p) |>);
  _ ← upd (λ m, m <| bm_assignments := ∅ |> <| bm_blocker_index := ∅ |>);
  let prefix := if negb force_full && (0 <? earliest)%N then Some (bm_assignments before, bm_blocker_index before, earliest) else None in
  run ← recompute p prefix;
  let changes := assignment_changes (bm_assignments before) (rn_assignments run) in
  let reschedule_nodes := rescheduled p changes in
  _ ← upd (λ m, if digest_changed then m <| bm_validated_digest := None |> else m);
  _ ← upd (λ m, m <| bm_assignments := rn_assignments run |> <| bm_blocker_index := rn_index run |>
                  <| bm_last_projection := Some p |> <| bm_dirty_creation_id := None |> <| bm_last_recomputed_from := Some earliest |>);
  let digest := Sha.hex (bp_state_digest p) in
  _ ← upd (λ m, foldl (record_change digest) m changes);
  _ ← upd (λ m, record Recomputed None None (Some digest)
    [earliest; N.of_nat (size (bm_assignments m)); N.of_nat (length changes); cs_candidate_checks (rn_stats run)] m);
  _ ← reads (λ s, check_structural_invariants s.2);
  mret (mkComputeResult changes reschedule_nodes (Some earliest) digest (rn_stats run)).

(** [if result.is_err() { *self = before }]. *)
Definition restoring {X} (before : M) (m : MM X) : MM X := λ s,
  match m s with
  | (Err e, s') => (Err e, (s'.1, before))
  | r => r
  end.

Definition compute {S} `{BlockingStateRead S A} (state : S) (force_full : bool) : MM (ComputeResult A) :=
  m ← gets snd;
  p ← on_control (Projection.from_state state (dc_vocabulary (bm_checker m)) (bm_limits m));
  let previous_digest := bp_state_digest <$> bm_last_projection m in
  let same_digest := bool_decide (previous_digest = Some (bp_state_digest p)) in
  if negb force_full && bool_decide (bm_dirty_creation_id m = None) && same_digest then
    _ ← upd (λ m, m <| bm_last_projection := Some p |>);
    mret (mkComputeResult [] [] None (Sha.hex (bp_state_digest p)) no_stats)
  else
    let earliest :=
      if force_full || bool_decide (previous_digest = None) then 0
      else default 0 (min_option (bm_dirty_creation_id m)
                       (bm_last_projection m ≫= λ last, Projection.earliest_difference last p)) in
    restoring m (compute_inner p m force_full (negb same_digest) earliest).

(** ** References and queries *)

Definition reference_assignments (m : M) : st C BlockingError (list (BlockingAssignment A)) := λ c,
  match bm_last_projection m with
  | None => (Err (invalid "blocking manager has not computed a state"), c)
  | Some p =>
      let '(r, (c', _)) :=
        recompute_internal p (bm_checker m) (bm_plan m) (bm_rejected_blocks m) (bm_limits m) None (c, bm_cache m) in
      (run ← r; Ok (omap (λ node, rn_assignments run !! node) (bp_ordered_nodes p)), c')
  end.

Definition full_recompute (p : P) (checker : DirectChecker) (plan : BlockingPlan) (cache : option BlockingSignatureCache) (limits : BlockingLimits) :
    st C BlockingError (list (BlockingAssignment A) * ComputeStats) := λ c,
  match validate_limits limits with
  | Ok limits =>
      let '(r, (c', _)) := recompute_internal p checker plan ∅ limits None (c, cache) in
      (run ← r; Ok (omap (λ node, rn_assignments run !! node) (bp_ordered_nodes p), rn_stats run), c')
  | Err e => (Err e, c)
  | Crash => (Crash, c)
  end.

Definition check_invariants (m : M) : st C BlockingError unit :=
  _ ← lift (check_structural_invariants m);
  expected ← reference_assignments m;
  lift (reject_if (bool_decide (assignments m ≠ expected)) (invariant "incremental blocking assignments differ from full recomputation")).

Definition is_blocked (m : M) (node : A) : bool := was (bm_assignments m !! node).
Definition is_directly_blocked (m : M) (node : A) : bool :=
  match bm_assignments m !! node with Some a => ba_directly a && blocked a | None => false end.
Definition blocker (m : M) (node : A) : option A := bm_assignments m !! node ≫= ba_blocker.

Definition ready_for_sat {S} `{BlockingStateRead S A} (state : S) : MM bool :=
  _ ← compute state false;
  m ← gets snd;
  mret (if negb (plan_validated (bm_plan m)) then true
        else match bm_last_projection m with
             | Some p => bool_decide (bm_validated_digest m = Some (bp_state_digest p))
             | None => false
             end).

(** The signatures of the nodes that can block. *)
Definition model_signatures (m : M) (p : P) : BlockingResult (list BlockingSignature) :=
  collectM (Checker.signature (bm_checker m) p)
    (filter (λ node, is_blocked m node = false ∧ Checker.can_be_blocker (bm_checker m) p node = true) (bp_ordered_nodes p)).

(** The manager's cache learns them, if it has one. *)
Definition promote_signatures (signatures : list BlockingSignature) (context : CachePromotionContext) : MM CachePromotion := λ s,
  match bm_cache s.2 with
  | None => (Ok (mkPromotion 0 0 0), s)
  | Some cache =>
      let '(r, (c, cache')) := Cache.promote_model signatures context (s.1, cache) in (r, (c, s.2 <| bm_cache := Some cache' |>))
  end.

Definition model_found {S} `{BlockingStateRead S A} (state : S) (context : CachePromotionContext) : MM CachePromotion :=
  _ ← compute state false;
  _ ← (if pc_satisfiable context && pc_completed context then
         ready_for_sat state ≫= λ ready : bool,
         lift (reject_if (negb ready) (invariant "SAT cannot be reported before blocking validation"))
       else mret tt);
  m ← gets snd;
  p ← lift (ok_or (bm_last_projection m) (invariant "blocking projection is unavailable"));
  signatures ← lift (model_signatures m p);
  promote_signatures signatures context.

(** ** Validation *)

Definition valid_decision : ValidationDecision A := mkDecision true [] [] [].

Definition invalid_decision (promote : list N) (reschedule : list A) (violations : list N) : BlockingResult (ValidationDecision A) :=
  let violations := dedup (sort violations) in
  _ ← reject_if (bool_decide (violations = [])) (invalid "invalid blocking validation decision requires a violation ID");
  Ok (mkDecision false (dedup (sort promote)) (dedup (sort reschedule)) violations).

Definition validate_decision (d : ValidationDecision A) : BlockingResult unit :=
  _ ← reject_if (vd_valid d && (negb (bool_decide (vd_promote_fact_ids d = [])) || negb (bool_decide (vd_reschedule_nodes d = []))
      || negb (bool_decide (vd_violation_ids d = []))))
    (invalid "valid blocking decision cannot request repair side effects");
  _ ← reject_if (negb (strictly_ascending (vd_promote_fact_ids d)) || negb (strictly_ascending (vd_reschedule_nodes d))
      || negb (strictly_ascending (vd_violation_ids d)))
    (invalid "blocking validation actions must be sorted and unique");
  reject_if (negb (vd_valid d) && bool_decide (vd_violation_ids d = [])) (invalid "invalid blocking decision requires a violation ID").

Section validation.
Context {S V : Type} `{BlockingStateRead S A} `{!BlockValidator S A V C}.

(** The control, the validator and the manager. *)
Abbreviation VM X := (st (C * (V * M)) BlockingError X).

Definition on_manager {X} (m : MM X) : VM X := λ s, let '(r, (c, k)) := m (s.1, s.2.2) in (r, (c, (s.2.1, k))).
Definition on_validator {X} (m : st (C * V) BlockingError X) : VM X := λ s, let '(r, (c, v)) := m (s.1, s.2.1) in (r, (c, (v, s.2.2))).

(** What a rejected block leads to. *)
Definition reject_block (p : P) (node blocker : A) (d : ValidationDecision A) (checked : N) : VM (ValidationPassResult A) :=
  let digest := Sha.hex (bp_state_digest p) in
  _ ← on_manager (upd (λ m, m <| bm_rejected_blocks ::= <[(node, blocker) := bp_state_digest p]> |> <| bm_validated_digest := None |>));
  m ← gets (λ s, s.2.2);
  let before := bm_assignments m !! node in
  _ ← on_manager (upd (λ m, m <| bm_assignments ::= <[node := unblocked node]> |>));
  let reschedule_nodes := dedup (sort (vd_reschedule_nodes d ++ [node])) in
  _ ← on_manager (upd (record BlockRejected (Some node) (Some blocker) (Some digest) (vd_violation_ids d)));
  _ ← on_manager (upd (invalidate_node node));
  mret (mkPassResult false checked 1 (vd_promote_fact_ids d) reschedule_nodes (vd_violation_ids d) digest
    [mkChange node before (Some (unblocked node))]).

Fixpoint validate_blocks (state : S) (p : P) (direct : list (BlockingAssignment A)) (checked : N) : VM (ValidationPassResult A) :=
  match direct with
  | [] =>
      _ ← on_manager (upd (λ m, m <| bm_validated_digest := Some (bp_state_digest p) |>));
      _ ← on_manager (on_control blocking_poll);
      mret (mkPassResult true checked 0 [] [] [] (Sha.hex (bp_state_digest p)) [])
  | a :: direct =>
      _ ← on_manager (on_control blocking_poll);
      blocker ← lift (ok_or (ba_blocker a) (invariant "direct provisional block has no blocker"));
      m ← gets (λ s, s.2.2);
      signature ← lift (Checker.signature (bm_checker m) p (ba_node a));
      d ← on_validator (validate_block state p (ba_node a) blocker signature);
      _ ← lift (validate_decision d);
      let checked := succ checked in
      _ ← on_manager (on_control blocking_poll);
      if vd_valid d then
        _ ← on_manager (upd (record BlockValidated (Some (ba_node a)) (Some blocker) (Some (Sha.hex (bp_state_digest p))) []));
        validate_blocks state p direct checked
      else reject_block p (ba_node a) blocker d checked
  end.

(** The pass between its begin and its end; an error restores the manager. *)
Definition validation_run (state : S) (p : P) (direct : list (BlockingAssignment A)) : VM (ValidationPassResult A) := λ s,
  let started := (_ ← (if bool_decide (direct = []) then mret tt else on_validator (begin_pass state p)); mret tt : VM unit) s in
  let ended :=
    match started with
    | (Ok _, s1) =>
        let '(r, s2) := validate_blocks state p direct 0 s1 in
        (r, if bool_decide (direct = []) then s2 else (s2.1, (end_pass (C:=C) (S:=S) (A:=A) s2.2.1, s2.2.2)))
    | (Err e, s1) => (Err e, s1)
    | (Crash, s1) => (Crash, s1)
    end in
  match ended with
  | (Err e, s') => (Err e, (s'.1, (s'.2.1, s.2.2)))
  | r => r
  end.

Definition validation_pass (state : S) : VM (ValidationPassResult A) :=
  m ← gets (λ s, s.2.2);
  _ ← lift (reject_if (negb (plan_validated (bm_plan m))) (invalid "validation is available only for validated-anywhere blocking"));
  _ ← on_manager (compute state false);
  m ← gets (λ s, s.2.2);
  p ← lift (ok_or (bm_last_projection m) (invariant "blocking projection is unavailable"));
  let direct := filter (λ a, ba_directly a = true ∧ ba_from_cache a = false ∧ is_Some (ba_blocker a)) (assignments m) in
  let count := N.of_nat (length direct) in
  _ ← lift (reject_if (bl_max_validation_blocks (bm_limits m) <? count)%N
    (resource "blocking validation block limit exceeded" "blocking_validation_blocks" count (bl_max_validation_blocks (bm_limits m))));
  validation_run state p direct.
End validation.

(** ** Applying to the tableau *)

Section apply.
Context {S V : Type} `{BlockingStateMutate S A} `{!BlockValidator S A V C}.

(** The control, the validator and the manager are captured by the closure. *)
Abbreviation AM X := (st ((C * (V * M)) * S) BlockingError X).

Definition on_outer {X} (m : st (C * (V * M)) BlockingError X) : AM X := λ s, let '(r, o) := m s.1 in (r, (o, s.2)).
Definition on_state {X} (m : st S BlockingError X) : AM X := λ s, let '(r, t) := m s.2 in (r, (s.1, t)).
Definition poll_outer : AM unit := on_outer (on_manager (on_control blocking_poll)).

(** [f] on each, with a poll after each. *)
Definition apply_each {X} (f : X → st S BlockingError unit) (l : list X) : AM unit :=
  forM (λ x, _ ← on_state (f x); poll_outer) l.

Definition restoring_outer {X} (m : AM X) : AM X := λ s,
  match m s with
  | (Err e, s') => (Err e, ((s'.1.1, (s'.1.2.1, s.1.2.2)), s'.2))
  | r => r
  end.

Definition compute_applied (force_full : bool) : AM (ComputeResult A) :=
  state ← gets snd;
  result ← on_outer (on_manager (compute state force_full));
  _ ← poll_outer;
  _ ← apply_each apply_assignment_change (cr_changed result);
  _ ← apply_each reschedule_existentials (cr_reschedule_nodes result);
  mret result.

Definition compute_and_apply (force_full : bool) : AM (ComputeResult A) :=
  restoring_outer (blocking_atomic (compute_applied force_full)).

Definition validation_and_apply (force_full : bool) : AM (ComputeResult A * ValidationPassResult A) :=
  restoring_outer (blocking_atomic (
    result ← compute_applied force_full;
    state ← gets snd;
    validation ← on_outer (validation_pass state);
    _ ← poll_outer;
    _ ← apply_each apply_assignment_change (vp_assignment_changes validation);
    _ ← apply_each promote_core_fact (vp_promote_fact_ids validation);
    _ ← apply_each reschedule_existentials (vp_reschedule_nodes validation);
    mret (result, validation))).
End apply.
End ops.
End Ops.
