(* ===== verification/CacheSpec.v ===== *)
(** * Signatures and their bytes

    The bytes under which the cache files a signature determine it. *)

From S2P Require Import Prelude Order Errors Model Sha256 BlockingModel Projection BlockingChecker.
Import Blocking Signature.

(** ** Little-endian words *)

Definition of_le_bytes (bytes : list N) : N := foldr (λ b w, b + 256 * w)%N 0 bytes.

Lemma to_le_bytes_S n w : Sha.to_le_bytes (S n) w = (w mod 256)%N :: Sha.to_le_bytes n (w / 256)%N.
Proof.
  unfold Sha.to_le_bytes. rewrite <-cons_seq, fmap_cons. f_equal.
  rewrite <-fmap_S_seq, <-list_fmap_compose. apply list_fmap_ext. intros i j _. cbn. f_equal.
  change 256%N with (2 ^ 8)%N. rewrite <-(N.shiftr_div_pow2 w 8), N.shiftr_shiftr. f_equal. lia.
Qed.

Lemma of_to_le_bytes n w : (w < 256 ^ N.of_nat n)%N → of_le_bytes (Sha.to_le_bytes n w) = w.
Proof.
  revert w. induction n as [|n IH]; intros w Hw; [cbn in *; lia|]. rewrite to_le_bytes_S. cbn [of_le_bytes foldr]. fold (of_le_bytes (Sha.to_le_bytes n (w / 256))).
  rewrite IH.
  - pose proof (N.div_mod w 256). lia.
  - apply N.Div0.div_lt_upper_bound. rewrite Nat2N.inj_succ, N.pow_succ_r' in Hw. lia.
Qed.

Lemma length_to_le_bytes n w : length (Sha.to_le_bytes n w) = n.
Proof. unfold Sha.to_le_bytes. by rewrite length_fmap, length_seq. Qed.

Definition is_u32 (w : N) : Prop := (w <= u32_max)%N.

Lemma to_le_bytes_app v w r r' : is_u32 v → is_u32 w → Sha.to_le_bytes 4 v ++ r = Sha.to_le_bytes 4 w ++ r' → v = w ∧ r = r'.
Proof.
  intros Hv Hw E. apply app_inj_1 in E as [E ->]; [|by rewrite !length_to_le_bytes]. split; [|done].
  rewrite <-(of_to_le_bytes 4 v), E, of_to_le_bytes; [done|..]; unfold is_u32, u32_max in *; cbn in *; lia.
Qed.

(** ** Lists of identifiers *)

(** Identifiers and lengths fit their fields. *)
Definition fits (l : list N) : Prop := Forall is_u32 l ∧ (N.of_nat (length l) <= u32_max)%N.

Lemma encode_values_app l k r r' :
  length l = length k → Forall is_u32 l → Forall is_u32 k →
  concat (Sha.to_le_bytes 4 <$> l) ++ r = concat (Sha.to_le_bytes 4 <$> k) ++ r' → l = k ∧ r = r'.
Proof.
  revert k. induction l as [|v l IH]; intros [|w k] Hlen Hl Hk E; try done. rewrite !fmap_cons in E. cbn [concat] in E. rewrite <-!app_assoc in E.
  inversion_clear Hl. inversion_clear Hk. apply to_le_bytes_app in E as [-> E]; [|done..].
  apply IH in E as [-> ->]; [done|by injection Hlen|done..].
Qed.

Lemma encode_ids_app l k r r' : fits l → fits k → encode_ids l ++ r = encode_ids k ++ r' → l = k ∧ r = r'.
Proof.
  intros [Hl Hln] [Hk Hkn] E. unfold encode_ids in E. rewrite <-!app_assoc in E.
  apply to_le_bytes_app in E as [Hlen E]; [|unfold is_u32; lia..].
  rewrite !N.min_r in Hlen by done. apply encode_values_app in E; [done|lia|done..].
Qed.

Lemma encode_fields_inj ls ks :
  length ls = length ks → Forall fits ls → Forall fits ks → concat (encode_ids <$> ls) = concat (encode_ids <$> ks) → ls = ks.
Proof.
  revert ks. induction ls as [|l ls IH]; intros [|k ks] Hlen Hl Hk E; try done. rewrite !fmap_cons in E. cbn [concat] in E. inversion_clear Hl. inversion_clear Hk.
  apply encode_ids_app in E as [-> E]; [|done..]. f_equal. apply IH; [by injection Hlen|done..].
Qed.

(** ** Signatures *)

Definition sized (s : BlockingSignature) : Prop := Forall fits (fields s).

(** The name of the kind ends at the first zero. *)
Lemma kind_bytes_app k k' r r' :
  string_bytes (checker_as_str k) ++ [0%N] ++ r = string_bytes (checker_as_str k') ++ [0%N] ++ r' → k = k' ∧ r = r'.
Proof. destruct k, k'; cbn; intros E; try discriminate E; by simplify_eq. Qed.

Lemma canonical_bytes_inj s t : sized s → sized t → canonical_bytes s = canonical_bytes t → s = t.
Proof.
  intros Hs Ht E. unfold canonical_bytes in E. apply app_inv_head, app_inv_head in E. apply kind_bytes_app in E as [Hk E].
  apply encode_fields_inj in E; [|done..]. destruct s, t. cbn in *. unfold fields in E. cbn in E. by simplify_eq.
Qed.

(** * The signature cache keeps its bounds

    The cache accounts for the bytes of its entries, stays within its limits, files
    each signature under its own bytes, and gives up the entries that were used
    longest ago. *)

Import Blocking Cache.

#[local] Arguments Signature.canonical_bytes : simpl never.

Abbreviation Entries := (gmap (list N) CacheEntry).
Implicit Types (c : BlockingSignatureCache) (entries : Entries) (k : list N) (e : CacheEntry).

(** ** Accounting *)

Definition total entries : N := map_fold (λ _ e n, ce_size_bytes e + n)%N 0 entries.

Lemma cached_insert entries k e : entries !! k = None → total (<[k := e]> entries) = (ce_size_bytes e + total entries)%N.
Proof. intros Hk. apply (map_fold_insert_L (λ _ e n, ce_size_bytes e + n)%N); [|done]. intros. lia. Qed.

Lemma cached_delete entries k e : entries !! k = Some e → total entries = (ce_size_bytes e + total (delete k entries))%N.
Proof. intros Hk. apply (map_fold_delete_L (λ _ e n, ce_size_bytes e + n)%N); [|done]. intros. lia. Qed.

(** A use does not change the size. *)
Lemma total_touch entries k e n : entries !! k = Some e → total (<[k := e <| ce_last_used := n |>]> entries) = total entries.
Proof.
  intros Hk. rewrite <-(insert_delete_eq entries), cached_insert by apply lookup_delete_eq. cbn. symmetry. by apply cached_delete.
Qed.

(** ** The invariant *)

Record cache_ok c : Prop := {
  ck_entry k e : ch_entries c !! k = Some e → k = Signature.canonical_bytes (ce_signature e) ∧ sized (ce_signature e) ∧ (ce_last_used e <= ch_clock c)%N;
  ck_distinct k k' e e' : ch_entries c !! k = Some e → ch_entries c !! k' = Some e' → ce_last_used e = ce_last_used e' → k = k';
  ck_size : ch_size_bytes c = total (ch_entries c);
  ck_count : (entry_count c <= ch_max_entries c)%N;
  ck_bytes : (ch_size_bytes c <= ch_max_bytes c)%N;
  ck_limits : (0 < ch_max_entries c)%N ∧ (2 * ch_max_bytes c <= u64_max)%N
}.

Lemma new_ok ns count bytes c : (2 * bytes <= u64_max)%N → new_cache ns count bytes = Ok c → cache_ok c.
Proof.
  intros Hb Hc. unfold new_cache in Hc. inv_ok. match goal with E : _ || _ = false |- _ => apply orb_false_iff in E as [E1%N.eqb_neq E2%N.eqb_neq] end.
  split; cbn; try done; [..|lia]; unfold entry_count; cbn; rewrite ?map_size_empty; lia.
Qed.

(** ** Eviction *)

(** The least recently used entry. *)
Lemma victim_least entries k : victim entries = Some k →
  ∃ e, entries !! k = Some e ∧ ∀ k' e', entries !! k' = Some e' → (ce_last_used e <= ce_last_used e')%N.
Proof.
  unfold victim. intros ([k0 e] & Hm & ->)%fmap_Some. cbn in *.
  assert ((k0, e) ∈ btree_entries entries) as Hin by (by eapply elem_of_min_by).
  exists e. split; [by apply elem_of_btree_entries|]. intros k' e' He'. apply elem_of_btree_entries in He'.
  pose proof (min_by_least (λ x : list N * CacheEntry, (ce_last_used x.2, x.1)) _ _ _ Hm He') as Hle.
  unfold ord_le, compare, prod_ord, prod_cmp, then_cmp in Hle. cbn in Hle. unfold compare at 1, N_ord at 1 in Hle.
  destruct (N.compare_spec (ce_last_used e) (ce_last_used e')); [lia|lia|done].
Qed.

(** The eviction of entries older than [newest], which stays. *)
Record evicted c c' (newest : list N) : Prop := {
  ev_max : ch_max_entries c' = ch_max_entries c ∧ ch_max_bytes c' = ch_max_bytes c;
  ev_rest : ch_namespace c' = ch_namespace c ∧ ch_clock c' = ch_clock c;
  ev_sub : ch_entries c' ⊆ ch_entries c;
  ev_newest : is_Some (ch_entries c' !! newest);
  ev_size : ch_size_bytes c' = total (ch_entries c');
  ev_bounds : (entry_count c' <= ch_max_entries c)%N ∧ (ch_size_bytes c' <= ch_max_bytes c)%N;
  ev_oldest k k' e e' : ch_entries c !! k = Some e → ch_entries c' !! k = None → ch_entries c' !! k' = Some e' →
    (ce_last_used e < ce_last_used e')%N
}.

Section evict.
Context (newest : list N) (en : CacheEntry).

Record evictable c : Prop := {
  eb_newest : ch_entries c !! newest = Some en;
  eb_older k e : ch_entries c !! k = Some e → k ≠ newest → (ce_last_used e < ce_last_used en)%N;
  eb_distinct k k' e e' : ch_entries c !! k = Some e → ch_entries c !! k' = Some e' → ce_last_used e = ce_last_used e' → k = k';
  eb_size : ch_size_bytes c = total (ch_entries c);
  eb_fits : (ce_size_bytes en <= ch_max_bytes c)%N ∧ (0 < ch_max_entries c)%N
}.

Definition over c : bool := (ch_max_entries c <? entry_count c)%N || (ch_max_bytes c <? ch_size_bytes c)%N.

(** A cache with one entry that fits is not over its limits. *)
Lemma over_others c : evictable c → over c = true → ∃ k e, k ≠ newest ∧ ch_entries c !! k = Some e.
Proof.
  intros [Hn _ _ Hs [Hf Hm]] Ho. destruct (decide (delete newest (ch_entries c) = ∅)) as [He|He].
  - exfalso. unfold over, entry_count in Ho. rewrite Hs, (cached_delete _ _ _ Hn), He in Ho.
    assert (size (ch_entries c) = 1%nat) as Hsz.
    { rewrite <-(insert_delete_id _ _ _ Hn), He, map_size_insert_None by done. by rewrite map_size_empty. }
    rewrite Hsz in Ho. change (total ∅) with 0%N in Ho. apply orb_true_iff in Ho as [?%N.ltb_lt|?%N.ltb_lt]; lia.
  - apply map_choose in He as (k & e & [Hk He]%lookup_delete_Some). eauto.
Qed.

Lemma over_victim c : evictable c → over c = true → ∃ k e, victim (ch_entries c) = Some k ∧ ch_entries c !! k = Some e ∧ k ≠ newest ∧
  ∀ k' e', ch_entries c !! k' = Some e' → k' ≠ k → (ce_last_used e < ce_last_used e')%N.
Proof.
  intros Hc Ho. destruct (over_others c Hc Ho) as (k0 & e0 & Hk0 & He0). destruct (victim (ch_entries c)) as [k|] eqn:Ev.
  - destruct (victim_least _ _ Ev) as (e & He & Hle). exists k, e. split; [done|]. split; [done|]. split.
    + intros ->. rewrite (eb_newest c Hc) in He. injection He as <-. pose proof (Hle _ _ He0). pose proof (eb_older c Hc _ _ He0 Hk0). lia.
    + intros k' e' He' Hne. pose proof (Hle _ _ He'). destruct (decide (ce_last_used e = ce_last_used e')) as [E|]; [|lia].
      destruct Hne. symmetry. by eapply (eb_distinct c Hc).
  - exfalso. unfold victim in Ev. apply fmap_None in Ev. apply elem_of_btree_entries in He0. destruct (btree_entries _); [by apply not_elem_of_nil in He0|done].
Qed.

Definition without c k e : BlockingSignatureCache := c <| ch_entries ::= delete k |> <| ch_size_bytes ::= λ n, (n - ce_size_bytes e)%N |>.

Lemma without_evictable c k e : evictable c → ch_entries c !! k = Some e → k ≠ newest → evictable (without c k e).
Proof.
  intros [Hn Ho Hd Hs Hf] Hk Hne. split; cbn.
  - by rewrite lookup_delete_ne.
  - intros k' e' [_ He']%lookup_delete_Some. by apply Ho.
  - intros k1 k2 e1 e2 [_ H1]%lookup_delete_Some [_ H2]%lookup_delete_Some. by apply Hd.
  - rewrite Hs, (cached_delete _ _ _ Hk). lia.
  - done.
Qed.

Lemma evict_loop_evicted fuel c : evictable c → (size (ch_entries c) ≤ fuel)%nat → evicted c (evict_loop fuel c) newest.
Proof.
  revert c. induction fuel as [|fuel IH]; intros c Hc Hfuel.
  - exfalso. assert (ch_entries c = ∅) as E by (apply map_size_empty_iff; lia). pose proof (eb_newest c Hc) as Hn. by rewrite E in Hn.
  - cbn [evict_loop]. fold (over c). destruct (over c) eqn:Ho.
    + destruct (over_victim c Hc Ho) as (k & e & -> & Hk & Hne & Hold). rewrite Hk. fold (without c k e).
      destruct (IH (without c k e) (without_evictable c k e Hc Hk Hne)) as [Hm Hr Hsub Hn Hs Hb Hev].
      { cbn. rewrite map_size_delete, Hk. cbn. lia. }
      split; try done; [etrans; [exact Hsub|apply delete_subseteq]|].
      intros k1 k2 e1 e2 H1 Hgone H2. destruct (decide (k1 = k)) as [->|Hk1].
      * assert (e1 = e) as -> by congruence. pose proof (lookup_weaken _ _ _ _ H2 Hsub) as H3. cbn in H3.
        apply lookup_delete_Some in H3 as [Hne2 H3]. by eapply Hold.
      * eapply Hev; [|done..]. cbn. by rewrite lookup_delete_ne.
    + unfold over in Ho. apply orb_false_iff in Ho as [Ho1%N.ltb_ge Ho2%N.ltb_ge]. split; try done.
      * rewrite (eb_newest c Hc). done.
      * by apply eb_size.
      * intros k k' e e' H1 H2. congruence.
Qed.
End evict.

(** ** Looking up *)

Definition key_bytes (s : BlockingSignature) : list N := Signature.canonical_bytes s.
#[local] Arguments key_bytes : simpl never.

(** The cache holds [s]. *)
Definition holds c (s : BlockingSignature) : Prop := ∃ k e, ch_entries c !! k = Some e ∧ ce_signature e = s.

Lemma holds_key c s : cache_ok c → holds c s ↔ sized s ∧ is_Some (ch_entries c !! key_bytes s).
Proof.
  intros Hc. split.
  - intros (k & e & He & <-). destruct (ck_entry c Hc k e He) as (Hk & Hs & _). unfold key_bytes. by rewrite <-Hk, He.
  - intros [Hs [e He]]. exists (key_bytes s), e. split; [done|]. destruct (ck_entry c Hc _ e He) as (Hk & Hs' & _). symmetry.
    by apply canonical_bytes_inj.
Qed.

(** What an operation relies on. *)
Record usable c (s : BlockingSignature) : Prop := {
  us_ok : cache_ok c;
  us_sized : sized s;
  us_kind : sg_kind s = ns_checker_kind (ch_namespace c);
  us_clock : (ch_clock c < u64_max)%N
}.

Definition ticked c : BlockingSignatureCache := c <| ch_clock := (ch_clock c + 1)%N |>.

Definition touched c k e : BlockingSignatureCache := ticked c <| ch_entries ::= <[k := e <| ce_last_used := (ch_clock c + 1)%N |>]> |>.

Lemma ticked_ok c : cache_ok c → cache_ok (ticked c).
Proof. intros [He Hd Hs Hn Hb Hl]. split; cbn; try done. intros k e Hk. destruct (He k e Hk) as (? & ? & ?). repeat split; [done|done|lia]. Qed.

Lemma touched_ok c k e : cache_ok c → ch_entries c !! k = Some e → cache_ok (touched c k e).
Proof.
  intros [He Hd Hs Hn Hb Hl] Hk. split; cbn; try done.
  - intros k' e' [[<- <-]|[_ He']]%lookup_insert_Some; [destruct (He k e Hk) as (? & ? & _); repeat split; cbn; [done|done|lia]|].
    destruct (He k' e' He') as (? & ? & ?). repeat split; [done|done|lia].
  - intros k1 k2 e1 e2 [[<- <-]|[_ H1]]%lookup_insert_Some [[<- <-]|[_ H2]]%lookup_insert_Some; cbn; try done; [| |by apply Hd].
    + destruct (He _ _ H2) as (_ & _ & ?). lia.
    + destruct (He _ _ H1) as (_ & _ & ?). lia.
  - rewrite Hs. symmetry. by apply total_touch.
  - unfold entry_count in *. cbn. by rewrite map_size_insert, Hk.
Qed.

Lemma compatible c s : sg_kind s = ns_checker_kind (ch_namespace c) → require_compatible s c = (Ok tt, c).
Proof. intros E. unfold require_compatible, mbind, st_bind, gets, lift. by rewrite bool_decide_false by (intros []; done). Qed.

Lemma next_clock_ticks c : (ch_clock c < u64_max)%N → next_clock c = (Ok (ch_clock c + 1)%N, ticked c).
Proof. intros Hc. unfold next_clock, mbind, st_bind, gets, lift, id, checked_add. by rewrite (proj2 (N.leb_le _ _)) by lia. Qed.

Lemma touch_filed c s : usable c s → touch (key_bytes s) s (ch_clock c + 1) (ticked c) =
  match ch_entries c !! key_bytes s with Some e => (Ok true, touched c (key_bytes s) e) | None => (Ok false, ticked c) end.
Proof.
  intros [Hc Hs _ _]. unfold touch, mbind, st_bind, gets, id. change (ch_entries (ticked c)) with (ch_entries c).
  destruct (ch_entries c !! key_bytes s) as [e|] eqn:He; [|done]. destruct (ck_entry c Hc _ e He) as (Hk & Hs' & _). unfold lift, reject_if.
  rewrite bool_decide_false; [done|]. intros Hne. apply Hne. symmetry. by apply canonical_bytes_inj.
Qed.

Lemma contains_filed c s : usable c s → contains s c =
  match ch_entries c !! key_bytes s with Some e => (Ok true, touched c (key_bytes s) e) | None => (Ok false, ticked c) end.
Proof.
  intros Hu. unfold contains. unfold mbind at 1, st_bind at 1. rewrite compatible by apply Hu.
  unfold mbind at 1, st_bind at 1. rewrite next_clock_ticks by apply Hu. by apply touch_filed.
Qed.

(** ** Adding *)

Definition bytes_of s : N := N.of_nat (length (key_bytes s)) + 128.

Definition inserted c s : BlockingSignatureCache :=
  ticked c <| ch_entries ::= <[key_bytes s := mkCacheEntry s (bytes_of s) (ch_clock c + 1)%N]> |> <| ch_size_bytes ::= N.add (bytes_of s) |>.

Lemma inserted_evictable c s : usable c s → ch_entries c !! key_bytes s = None → (bytes_of s <= ch_max_bytes c)%N →
  evictable (key_bytes s) (mkCacheEntry s (bytes_of s) (ch_clock c + 1)%N) (inserted c s).
Proof.
  intros [[He Hd Hs Hn Hb [Hl _]] _ _ _] Hk Hf. split; cbn.
  - apply lookup_insert_eq.
  - intros k e [[<- _]|[_ Hke]]%lookup_insert_Some; [done|]. destruct (He _ _ Hke) as (_ & _ & ?). lia.
  - intros k1 k2 e1 e2 [[<- <-]|[_ H1]]%lookup_insert_Some [[<- <-]|[_ H2]]%lookup_insert_Some; cbn; try done; [| |by apply Hd].
    + destruct (He _ _ H2) as (_ & _ & ?). lia.
    + destruct (He _ _ H1) as (_ & _ & ?). lia.
  - rewrite cached_insert by done. cbn. lia.
  - done.
Qed.

Lemma evicted_ok c c' s : usable c s → evicted (inserted c s) c' (key_bytes s) → cache_ok c'.
Proof.
  intros [[He Hd Hs Hn Hb Hl] Hsz _ _] [Hm [_ Hck] Hsub _ Hsize Hbounds _]. cbn in *.
  assert (∀ k e, ch_entries c' !! k = Some e → <[key_bytes s := mkCacheEntry s (bytes_of s) (ch_clock c + 1)%N]> (ch_entries c) !! k = Some e) as Hin.
  { intros k e Hk. by eapply lookup_weaken. }
  split.
  - intros k e [[<- <-]|[_ Hk]]%Hin%lookup_insert_Some; cbn; [repeat split; [done|lia]|]. destruct (He _ _ Hk) as (? & ? & ?). repeat split; [done|done|lia].
  - intros k1 k2 e1 e2 [[<- <-]|[_ H1]]%Hin%lookup_insert_Some [[<- <-]|[_ H2]]%Hin%lookup_insert_Some; cbn; try done; [| |by apply Hd].
    + destruct (He _ _ H2) as (_ & _ & ?). lia.
    + destruct (He _ _ H1) as (_ & _ & ?). lia.
  - done.
  - destruct Hm as [-> _]. apply Hbounds.
  - destruct Hm as [_ ->]. apply Hbounds.
  - destruct Hm as [-> ->]. done.
Qed.

(** What an addition leads to. *)
Record added c s (fresh : bool) c' : Prop := {
  ad_ok : cache_ok c';
  ad_limits : ch_namespace c' = ch_namespace c ∧ ch_max_entries c' = ch_max_entries c ∧ ch_max_bytes c' = ch_max_bytes c;
  ad_clock : (ch_clock c' <= ch_clock c + 1)%N;
  ad_holds : (bytes_of s <= ch_max_bytes c)%N → holds c' s;
  ad_fresh : fresh = true ↔ ¬ holds c s ∧ (bytes_of s <= ch_max_bytes c)%N;
  ad_only t : holds c' t → t = s ∨ holds c t;
  ad_oldest k k' e e' : ch_entries c !! k = Some e → ch_entries c' !! k = None → ch_entries c' !! k' = Some e' →
    (ce_last_used e < ce_last_used e')%N
}.

Lemma touched_added c s e : usable c s → ch_entries c !! key_bytes s = Some e → added c s false (touched c (key_bytes s) e).
Proof.
  intros Hu Hk. assert (cache_ok c) as Hc by apply Hu. assert (cache_ok (touched c (key_bytes s) e)) as Hc' by (by apply touched_ok).
  assert (sized s) as Hs by apply Hu. split; try done.
  - intros _. apply (holds_key _ s Hc'). split; [done|]. cbn. by rewrite lookup_insert_eq.
  - split; [done|]. intros [Hn _]. destruct Hn. apply (holds_key c s Hc). rewrite Hk. done.
  - intros t (k & e' & Hk' & <-). right. cbn in Hk'. apply lookup_insert_Some in Hk' as [[<- <-]|[_ Hk']]; [by exists (key_bytes s), e|by exists k, e'].
  - intros k k' e1 e2 H1 H2. cbn in H2. apply lookup_insert_None in H2 as [H2 _]. congruence.
Qed.

Lemma inserted_added c s c' : usable c s → ch_entries c !! key_bytes s = None → (bytes_of s <= ch_max_bytes c)%N →
  evicted (inserted c s) c' (key_bytes s) → added c s true c'.
Proof.
  intros Hu Hk Hf Hev. pose proof (evicted_ok c c' s Hu Hev) as Hc'. assert (cache_ok c) as Hc by apply Hu.
  assert (sized s) as Hs by apply Hu. destruct Hev as [Hm Hr Hsub Hn Hsize Hb Hold]. cbn in *. split.
  - done.
  - destruct Hm, Hr. done.
  - destruct Hr as [_ ->]. done.
  - intros _. by apply holds_key.
  - split; [|done]. intros _. split; [|done]. intros [_ Hx]%(holds_key c s Hc). rewrite Hk in Hx. by destruct Hx.
  - intros t (k & e & He & <-). apply (lookup_weaken _ _ _ _ He), lookup_insert_Some in Hsub as [[_ <-]|[_ He']]; [by left|right]. by exists k, e.
  - intros k k' e e' H1 H2 H3. eapply Hold; [|done..]. rewrite lookup_insert_ne; [done|]. intros <-. congruence.
Qed.

(** The newest entry is the one with the last clock. *)
Lemma newest_present c s c' : usable c s → evicted (inserted c s) c' (key_bytes s) →
  existsb (λ e, (ce_last_used e =? ch_clock c + 1)%N) (btree_values (ch_entries c')) = true.
Proof.
  intros Hu [_ _ Hsub [e He] _ _ _]. apply existsb_exists. exists e. cbn in Hsub.
  split; [apply list_elem_of_In, elem_of_btree_values; eauto|].
  pose proof (lookup_weaken _ _ _ _ He Hsub) as [[_ Hx]|[[] _]]%lookup_insert_Some; [|done]. rewrite <-Hx. by apply N.eqb_eq.
Qed.

Lemma set_size_ext c (f g : N → N) : f (ch_size_bytes c) = g (ch_size_bytes c) → c <| ch_size_bytes ::= f |> = c <| ch_size_bytes ::= g |>.
Proof. destruct c. unfold set_field. cbn. by intros ->. Qed.

Lemma add_added c s : usable c s → ∃ fresh c', add s c = (Ok fresh, c') ∧ added c s fresh c'.
Proof.
  intros Hu. assert (cache_ok c) as Hc by apply Hu. unfold add. unfold mbind at 1, st_bind at 1. rewrite compatible by apply Hu.
  unfold mbind at 1, st_bind at 1, gets at 1, id at 1. fold (key_bytes s).
  destruct (ch_max_bytes c <? saturating_add u64_max (N.of_nat (length (key_bytes s))) 128)%N eqn:Hf.
  { apply N.ltb_lt in Hf. exists false, c. split; [done|]. assert (ch_max_bytes c < bytes_of s)%N by (unfold bytes_of, saturating_add in *; lia).
    split; try done; [lia|lia|split; [done|lia]|by right|]. intros. congruence. }
  apply N.ltb_ge in Hf. destruct (ck_limits c Hc) as [_ Hmax].
  assert (saturating_add u64_max (N.of_nat (length (key_bytes s))) 128 = bytes_of s) as Hsat.
  { unfold saturating_add, bytes_of in *. assert (0 < u64_max)%N by done. lia. }
  rewrite Hsat in *. unfold mbind at 1, st_bind at 1. rewrite next_clock_ticks by apply Hu.
  unfold mbind at 1, st_bind at 1. rewrite touch_filed by done. destruct (ch_entries c !! key_bytes s) as [e|] eqn:Hk.
  { exists false, (touched c (key_bytes s) e). split; [done|]. by apply touched_added. }
  unfold mbind at 1, st_bind at 1, modify at 1.
  assert (ticked c <| ch_entries ::= <[key_bytes s := mkCacheEntry s (bytes_of s) (ch_clock c + 1)%N]> |>
    <| ch_size_bytes ::= λ n, saturating_add u64_max n (bytes_of s) |> = inserted c s) as ->.
  { assert (saturating_add u64_max (ch_size_bytes c) (bytes_of s) = bytes_of s + ch_size_bytes c)%N as E.
    { pose proof (ck_bytes c Hc). unfold saturating_add. lia. }
    by apply set_size_ext. }
  pose proof (inserted_evictable c s Hu Hk Hf) as Hev.
  pose proof (evict_loop_evicted (key_bytes s) _ (S (size (ch_entries (inserted c s)))) _ Hev ltac:(lia)) as Hevd.
  unfold evict. unfold mbind at 1, st_bind at 1, modify at 1, gets.
  exists true, (evict_loop (S (size (ch_entries (inserted c s)))) (inserted c s)).
  split; [by rewrite (newest_present c s _ Hu Hevd)|]. by apply inserted_added.
Qed.
