(* ===== verification/ProjectionSpec.v ===== *)
(** * Well-formed projections

    The nodes of a projection in the order of their creation, parents before their
    children and labels in order; and what two projections share below the first
    creation number at which they differ. *)

From S2P Require Import Prelude Order Errors Model Sha256 BlockingModel Projection.
Import Blocking Projection.

Lemma StronglySorted_weaken {B} (R R' : B → B → Prop) l :
  (∀ x y, x ∈ l → y ∈ l → R x y → R' x y) → StronglySorted R l → StronglySorted R' l.
Proof.
  intros HR. induction 1 as [|x l Hl IH Hx]; constructor; [apply IH; intros ????; apply HR; by right|].
  rewrite Forall_forall in *. intros y Hy. apply HR; [left|by right|by apply Hx].
Qed.

Lemma StronglySorted_take {B} (R : B → B → Prop) k l : StronglySorted R l → StronglySorted R (take k l).
Proof. intros Hl. revert k. induction Hl as [|x l Hl IH Hx]; intros [|k]; constructor; [done|]. by apply Forall_take. Qed.

Lemma NoDup_take {B} k (l : list B) : NoDup l → NoDup (take k l).
Proof. intros Hl. rewrite <-(take_drop k l) in Hl. by apply NoDup_app in Hl as [? _]. Qed.

Lemma filter_ext_in {B} (P Q : B → Prop) `{∀ b, Decision (P b), ∀ b, Decision (Q b)} (l : list B) :
  (∀ b, b ∈ l → P b ↔ Q b) → filter P l = filter Q l.
Proof.
  induction l as [|b l IH]; intros Hl; [done|]. rewrite !filter_cons, IH by (intros; apply Hl; by right).
  destruct (decide (P b)) as [Hb|Hb]; destruct (decide (Q b)) as [Hb'|Hb']; [done|..|done]; exfalso; pose proof (Hl b ltac:(left)); tauto.
Qed.

Lemma filter_nil_in {B} (P : B → Prop) `{∀ b, Decision (P b)} (l : list B) : (∀ b, b ∈ l → ¬ P b) → filter P l = [].
Proof.
  induction l as [|b l IH]; intros Hl; [done|]. rewrite filter_cons, decide_False by (apply Hl; left). apply IH. intros; apply Hl; by right.
Qed.

Lemma filter_all_in {B} (P : B → Prop) `{∀ b, Decision (P b)} (l : list B) : (∀ b, b ∈ l → P b) → filter P l = l.
Proof.
  induction l as [|b l IH]; intros Hl; [done|]. rewrite filter_cons, decide_True by (apply Hl; left). f_equal. apply IH. intros; apply Hl; by right.
Qed.

Section wf.
Context {A : Type} `{OrdLaws A} `{!EqDecision A} `{!Countable A}.
Implicit Types (p q : BlockingProjection A) (x y z : A).

(** ** Well-formedness *)

Definition creation p x : N := match bp_nodes p !! x with Some r => nr_creation_id r | None => 0 end.

Definition parent_of p x : option A := bp_nodes p !! x ≫= nr_parent.

Definition ascending {K} `{Countable K} (labels : gmap K (list N)) : Prop := ∀ k l, labels !! k = Some l → strictly_ascending l = true.

Record wf_projection p : Prop := {
  wp_nodes x : x ∈ bp_ordered_nodes p ↔ is_Some (bp_nodes p !! x);
  wp_sorted : StronglySorted (λ x y, creation p x < creation p y)%N (bp_ordered_nodes p);
  wp_tree x r : bp_nodes p !! x = Some r → nr_kind r = Tree ↔ is_Some (nr_parent r);
  wp_parent x y : parent_of p x = Some y → is_Some (bp_nodes p !! y) ∧ (creation p y < creation p x)%N;
  wp_concepts : ascending (bp_concepts p);
  wp_core_concepts : ascending (bp_core_concepts p);
  wp_roles : ascending (bp_roles p);
  wp_core_roles : ascending (bp_core_roles p);
  wp_role_keys e : is_Some (bp_core_roles p !! e) → is_Some (bp_roles p !! e)
}.

Section facts.
Context p (Hp : wf_projection p).

Lemma ordered_nodes_NoDup : NoDup (bp_ordered_nodes p).
Proof.
  pose proof (wp_sorted p Hp) as Hs. induction Hs as [|x l Hs IH Hx]; constructor; [|done].
  intros Hin. rewrite Forall_forall in Hx. specialize (Hx x Hin). lia.
Qed.

Lemma ordered_lt i j x y :
  bp_ordered_nodes p !! i = Some x → bp_ordered_nodes p !! j = Some y → (i < j)%nat ↔ (creation p x < creation p y)%N.
Proof.
  intros Hi Hj. assert (∀ i j x y, bp_ordered_nodes p !! i = Some x → bp_ordered_nodes p !! j = Some y → (i < j)%nat →
    (creation p x < creation p y)%N) as Hlt.
  { clear i j x y Hi Hj. intros i j x y Hi Hj Hij. pose proof (wp_sorted p Hp) as Hs. revert i j Hi Hj Hij.
    induction Hs as [|z l Hs IH Hz]; intros [|i] [|j] Hi Hj Hij; simplify_eq/=; try lia; [|by eapply IH; eauto; lia].
    rewrite Forall_forall in Hz. apply Hz. by eapply list_elem_of_lookup_2. }
  split; [by apply Hlt|]. intros Hc. destruct (decide (i < j)%nat) as [|Hn]; [done|]. exfalso.
  destruct (decide (i = j)) as [->|]; [simplify_eq; lia|]. specialize (Hlt j i y x Hj Hi ltac:(lia)). lia.
Qed.

Lemma ordered_before i x y :
  bp_ordered_nodes p !! i = Some x → y ∈ take i (bp_ordered_nodes p) ↔ is_Some (bp_nodes p !! y) ∧ (creation p y < creation p x)%N.
Proof.
  intros Hi. rewrite <-(wp_nodes p Hp), elem_of_take, list_elem_of_lookup. split.
  - intros (j & Hj & Hji). split; [by exists j|]. by apply (ordered_lt j i).
  - intros [[j Hj] Hc]. exists j. split; [done|]. by apply (ordered_lt j i x y) in Hc || (apply (ordered_lt j i y x) in Hc).
Qed.

Lemma parent_before i x y : bp_ordered_nodes p !! i = Some x → parent_of p x = Some y → y ∈ take i (bp_ordered_nodes p).
Proof. intros Hi Hy. by apply (ordered_before i x), (wp_parent p Hp). Qed.

Lemma label_ascending node core : strictly_ascending (concept_label p node core) = true.
Proof.
  unfold concept_label. destruct core.
  - destruct (_ !! _) eqn:E; [|done]. by eapply (wp_core_concepts p Hp).
  - destruct (_ !! _) eqn:E; [|done]. by eapply (wp_concepts p Hp).
Qed.

Lemma role_ascending x y core : strictly_ascending (role_label p x y core) = true.
Proof.
  unfold role_label. destruct core.
  - destruct (_ !! _) eqn:E; [|done]. by eapply (wp_core_roles p Hp).
  - destruct (_ !! _) eqn:E; [|done]. by eapply (wp_roles p Hp).
Qed.

(** A node is no ancestor of an earlier one. *)
Lemma not_ancestor x y : (creation p y < creation p x)%N → is_ancestor p x y = false.
Proof.
  unfold is_ancestor. generalize (size (bp_nodes p)). intros n. revert y. induction n as [|n IH]; intros y Hy; [done|]. cbn.
  destruct (bp_nodes p !! y ≫= nr_parent) as [z|] eqn:Ez; [|done]. destruct (wp_parent p Hp y z Ez) as [_ Hz].
  rewrite bool_decide_false by (intros ->; lia). apply IH. lia.
Qed.

Lemma ordered_size : length (bp_ordered_nodes p) = size (bp_nodes p).
Proof.
  rewrite <-(proj2 (size_list_to_set_NoDup _) ordered_nodes_NoDup), <-size_dom. f_equal.
  apply set_eq. intros x. rewrite elem_of_list_to_set, (wp_nodes p Hp), elem_of_dom. done.
Qed.
End facts.

(** ** Differences *)

(** [p] and [q] agree below [f] on all that blocking reads. *)
Record agree_below (f : N) p q : Prop := {
  ag_nodes x r : bp_nodes p !! x = Some r → (nr_creation_id r < f)%N → ∃ r', bp_nodes q !! x = Some r' ∧
    nr_creation_id r' = nr_creation_id r ∧ nr_kind r' = nr_kind r ∧ nr_lifecycle r' = nr_lifecycle r ∧ nr_parent r' = nr_parent r;
  ag_back x r : bp_nodes q !! x = Some r → (nr_creation_id r < f)%N → is_Some (bp_nodes p !! x) ∧ (creation p x < f)%N;
  ag_concepts x core : is_Some (bp_nodes p !! x) → (creation p x < f)%N → concept_label q x core = concept_label p x core;
  ag_roles x y core : is_Some (bp_nodes p !! x) → (creation p x < f)%N → role_label q x y core = role_label p x y core
}.

(** The creation numbers of all that changed. *)
Definition differences p q : list N :=
  ((btree_keys (bp_nodes p) ++ btree_keys (bp_nodes q)) ≫= node_changes p q)
  ++ ((btree_keys (bp_roles p) ++ btree_keys (bp_roles q)) ≫= edge_changes p q).

Definition above (f : N) (d : option N) : Prop := ∀ n, d = Some n → (f <= n)%N.

Lemma earliest_above f p q c : above f (earliest_difference p q) → c ∈ differences p q → (f <= c)%N.
Proof.
  unfold above, earliest_difference. fold (differences p q). intros Hf Hc.
  destruct (min_by compare (differences p q)) as [d|] eqn:E; [|by destruct (differences p q); [apply not_elem_of_nil in Hc|]].
  etrans; [by apply Hf|]. apply ord_le_N. by eapply (min_by_least (λ n : N, n)).
Qed.

Lemma node_difference f p q x c :
  above f (earliest_difference p q) → is_Some (bp_nodes p !! x) ∨ is_Some (bp_nodes q !! x) → c ∈ node_changes p q x → (f <= c)%N.
Proof.
  intros Hf Hx Hc. apply (earliest_above f p q); [done|]. apply elem_of_app. left. apply list_elem_of_bind. exists x. split; [done|].
  apply elem_of_app. by rewrite !elem_of_btree_keys.
Qed.

Lemma edge_difference f p q e c :
  above f (earliest_difference p q) → is_Some (bp_roles p !! e) ∨ is_Some (bp_roles q !! e) → c ∈ edge_changes p q e → (f <= c)%N.
Proof.
  intros Hf He Hc. apply (earliest_above f p q); [done|]. apply elem_of_app. right. apply list_elem_of_bind. exists e. split; [done|].
  apply elem_of_app. by rewrite !elem_of_btree_keys.
Qed.

Lemma same_record f p q x r :
  above f (earliest_difference p q) → bp_nodes p !! x = Some r → (nr_creation_id r < f)%N →
  same_blocking_node (Some r) (bp_nodes q !! x) = true.
Proof.
  intros Hf Hr Hc. destruct (same_blocking_node (Some r) _) eqn:E; [done|]. exfalso.
  enough (f <= nr_creation_id r)%N by lia. eapply (node_difference f p q x); [done|rewrite Hr; eauto|].
  unfold node_changes. rewrite Hr, E. apply elem_of_app. left. cbn. constructor.
Qed.

Lemma same_concepts f p q x :
  above f (earliest_difference p q) → is_Some (bp_nodes p !! x) → (creation p x < f)%N →
  bp_concepts q !! x = bp_concepts p !! x ∧ bp_core_concepts q !! x = bp_core_concepts p !! x.
Proof.
  intros Hf [r Hr] Hc. unfold creation in Hc. rewrite Hr in Hc.
  destruct (bool_decide (bp_concepts p !! x ≠ bp_concepts q !! x) || bool_decide (bp_core_concepts p !! x ≠ bp_core_concepts q !! x)) eqn:E.
  - exfalso. enough (f <= nr_creation_id r)%N by lia. eapply (node_difference f p q x); [done|rewrite Hr; eauto|].
    unfold node_changes. rewrite E, Hr. apply elem_of_app. right. destruct (bp_nodes q !! x); cbn; constructor.
  - apply orb_false_iff in E as [E1%bool_decide_eq_false E2%bool_decide_eq_false]. split; symmetry; by apply dec_stable.
Qed.

Lemma same_roles f p q x y :
  above f (earliest_difference p q) → is_Some (bp_nodes p !! x) → (creation p x < f)%N →
  is_Some (bp_roles p !! (x, y)) ∨ is_Some (bp_roles q !! (x, y)) →
  bp_roles q !! (x, y) = bp_roles p !! (x, y) ∧ bp_core_roles q !! (x, y) = bp_core_roles p !! (x, y).
Proof.
  intros Hf [r Hr] Hc He. unfold creation in Hc. rewrite Hr in Hc.
  destruct (bool_decide (bp_roles p !! (x, y) ≠ bp_roles q !! (x, y)) || bool_decide (bp_core_roles p !! (x, y) ≠ bp_core_roles q !! (x, y))) eqn:E.
  - exfalso. enough (f <= nr_creation_id r)%N by lia. eapply (edge_difference f p q (x, y)); [done..|].
    unfold edge_changes. rewrite E. apply list_elem_of_bind. exists x. split; [|constructor]. cbn. rewrite Hr. destruct (bp_nodes q !! x); cbn; constructor.
  - apply orb_false_iff in E as [E1%bool_decide_eq_false E2%bool_decide_eq_false]. split; symmetry; by apply dec_stable.
Qed.

Lemma earliest_agree f p q : wf_projection p → wf_projection q → above f (earliest_difference p q) → agree_below f p q.
Proof.
  intros Hp Hq Hf. split.
  - intros x r Hr Hc. pose proof (same_record f p q x r Hf Hr Hc) as Hs. destruct (bp_nodes q !! x) as [r'|]; [|done].
    exists r'. cbn in Hs. rewrite !andb_true_iff, !bool_decide_eq_true in Hs.
    destruct Hs as [[[[[_ _] Hid%N.eqb_eq] Hk] Hl] Hpar]. done.
  - intros x r Hr Hc. destruct (same_blocking_node (bp_nodes p !! x) (Some r)) eqn:E.
    + unfold creation. destruct (bp_nodes p !! x) as [r'|]; [|done]. cbn in E. rewrite !andb_true_iff, N.eqb_eq in E. split; [done|].
      by destruct E as [[[[_ ->] _] _] _].
    + exfalso. enough (f <= nr_creation_id r)%N by lia. eapply (node_difference f p q x); [done|rewrite Hr; eauto|]. unfold node_changes.
      rewrite Hr, E. apply elem_of_app. left. destruct (bp_nodes p !! x); cbn; set_solver.
  - intros x core Hx Hc. destruct (same_concepts f p q x Hf Hx Hc) as [E1 E2]. unfold concept_label. destruct core; congruence.
  - intros x y core Hx Hc. unfold role_label.
    destruct (bp_roles p !! (x, y)) eqn:E1; destruct (bp_roles q !! (x, y)) eqn:E2.
    4: { assert (bp_core_roles p !! (x, y) = None).
         { apply eq_None_not_Some. intros []%(wp_role_keys p Hp). congruence. }
         assert (bp_core_roles q !! (x, y) = None).
         { apply eq_None_not_Some. intros []%(wp_role_keys q Hq). congruence. }
         by destruct core; simplify_option_eq. }
    all: destruct (same_roles f p q x y Hf Hx Hc) as [H1 H2]; [rewrite E1, E2; eauto|]; destruct core; congruence.
Qed.
End wf.

(** ** The projection of a state is well-formed *)

Section from_state.
Context {A : Type} `{OrdLaws A} `{!EqDecision A} `{!Countable A}.
Implicit Types (records : list (NodeRecord A)) (o : Owners (A:=A)).

(** Parents are created before their children. *)
Definition parents_first records : Prop := ∀ r s,
  r ∈ records → s ∈ records → nr_parent r = Some (nr_node s) → (nr_creation_id s < nr_creation_id r)%N.

Record owned records o : Prop := {
  on_node x r : ow_nodes o !! x = Some r → nr_node r = x ∧ r ∈ records;
  on_creation x r : ow_nodes o !! x = Some r → ow_creations o !! nr_creation_id r = Some x
}.

Lemma add_record_owned records o r o' : owned records o → r ∈ records → add_record o r = Ok o' → owned records o'.
Proof.
  intros [Hn Hc] Hr Ho. unfold add_record in Ho. case_bool_decide; inv_ok; simplify_eq; [done|]. split; cbn.
  - intros x r0 [[<- <-]|[_ Hx]]%lookup_insert_Some; [done|]. by apply Hn.
  - intros x r0 [[<- <-]|[Hne Hx]]%lookup_insert_Some; [by rewrite lookup_insert_eq|].
    rewrite lookup_insert_ne; [by apply Hc|]. intros E. specialize (Hc x r0 Hx). rewrite <-E in Hc.
    by rewrite Hc, bool_decide_true in * by done.
Qed.

Lemma foldM_add_record records l o o' : owned records o → l ⊆ records → foldM add_record l o = Ok o' → owned records o'.
Proof.
  revert o. induction l as [|r l IH]; intros o Ho Hl Hf; cbn in Hf; inv_ok; simplify_eq; [done|].
  apply (IH a); [|by intros x Hx; apply Hl; right|done]. eapply add_record_owned; [done| |done]. apply Hl. left.
Qed.

Context {C : Type} `{BlockingControl C}.

Lemma polled_foldM {X Y} interval (f : Y → X → BlockingResult Y) (g : nat → X → nat * X) l acc (c c' : C) y :
  (∀ i x, (g i x).2 = x) → foldST (polled interval f) (imap g l) acc c = (Ok y, c') → foldM f l acc = Ok y.
Proof.
  revert g acc c. induction l as [|x l IH]; intros g acc c Hg Hf; cbn in Hf; inv_ok; [done|].
  unfold polled in *. inv_ok. rewrite Hg in *. cbn [foldM]. match goal with E : f acc x = Ok _ |- _ => rewrite E end.
  rewrite bind_Ok_l. eapply (IH (g ∘ Datatypes.S)); [by intros; apply Hg|done].
Qed.

(** Nodes that differ in creation numbers are ordered by them. *)
Lemma order_nodes_sorted (nodes : gmap A (NodeRecord A)) :
  (∀ x y r s, nodes !! x = Some r → nodes !! y = Some s → nr_creation_id r = nr_creation_id s → x = y) →
  StronglySorted (λ x y, (node_rank nodes x).1 < (node_rank nodes y).1)%N (order_nodes nodes).
Proof.
  intros Hinj. assert (order_nodes nodes ≡ₚ btree_keys nodes) as Hperm by apply merge_sort_Permutation.
  assert (NoDup (order_nodes nodes)) as Hnd.
  { rewrite Hperm. apply StronglySorted_lt_NoDup. rewrite <-btree_entries_keys. apply btree_entries_sorted. }
  assert (∀ x, x ∈ order_nodes nodes → is_Some (nodes !! x)) as Hin.
  { intros x. rewrite Hperm. apply elem_of_btree_keys. }
  assert (StronglySorted (λ x y, ord_le (node_rank nodes x) (node_rank nodes y)) (order_nodes nodes)) as Hs.
  { apply StronglySorted_merge_sort.
    - intros x y z Hxy Hyz. by trans (node_rank nodes y).
    - intros x y. apply (total ord_le). }
  revert Hnd Hin Hs. generalize (order_nodes nodes). intros l Hnd Hin Hs. clear Hperm. induction Hs as [|x l Hs IH Hx]; constructor.
  - apply IH; [by inversion Hnd|]. intros z Hz. apply Hin. by right.
  - rewrite Forall_forall in Hx |- *. intros y Hy. specialize (Hx y Hy). inversion_clear Hnd as [|?? Hxl _].
    destruct (Hin x ltac:(left)) as [r Hr], (Hin y ltac:(by right)) as [s Hs']. unfold node_rank in *. rewrite Hr, Hs' in *. cbn.
    apply ord_le_lt_eq in Hx as [Hx|[=]]; [|exfalso; apply Hxl; replace x with y; [done|]; by apply (Hinj y x s r)].
    unfold ord_lt, compare, prod_ord, prod_cmp, then_cmp in Hx. cbn in Hx.
    destruct (compare (nr_creation_id r) (nr_creation_id s)) eqn:E; [|by apply ord_lt_N|done].
    apply compare_eq in E. exfalso. apply Hxl. replace x with y; [done|]. by apply (Hinj y x s r).
Qed.

Lemma check_parents_ok (nodes : gmap A (NodeRecord A)) :
  iterM (check_parent nodes) (btree_values nodes) = Ok tt →
  ∀ x r, nodes !! x = Some r →
    if decide (nr_kind r = Tree) then ∃ y, nr_parent r = Some y ∧ is_Some (nodes !! y) else nr_parent r = None.
Proof.
  intros Hc x r Hr. rewrite iterM_Ok, Forall_forall in Hc. specialize (Hc r (proj2 (elem_of_btree_values _ _) (ex_intro _ x Hr))).
  unfold check_parent in Hc. destruct (decide _) as [Ht|Ht].
  - rewrite bool_decide_true in Hc by done. inv_ok. apply negb_false_iff, bool_decide_eq_true in Hc. eauto.
  - rewrite bool_decide_false in Hc by done. inv_ok. apply bool_decide_eq_false in Hc. by apply eq_None_not_Some.
Qed.

Lemma freeze_ascending {K} `{Countable K} (sets : gmap K (gset N)) : ascending (freeze sets).
Proof.
  intros k l. unfold freeze. rewrite lookup_fmap. intros (s & _ & ->)%fmap_Some. apply strictly_ascending_spec, btree_elements_sorted.
Qed.

(** A core edge is an edge. *)
Definition core_edges (l : Labels (A:=A)) : Prop := ∀ e, is_Some (lb_core_roles l !! e) → is_Some (lb_roles l !! e).

Lemma label_core_edges facts l l' : core_edges l → foldM label_fact facts l = Ok l' → core_edges l'.
Proof.
  revert l. induction facts as [|fact facts IH]; intros l Hl Hf; cbn in Hf; inv_ok; [done|]. eapply IH; [|done].
  unfold label_fact in *. destruct (rf_arguments fact) as [|x [|y args]]; inv_ok; [by destruct (rf_core fact)|].
  intros e. unfold core_edges, add_label in *. destruct (rf_core fact); cbn; rewrite ?lookup_insert_is_Some'; naive_solver.
Qed.

Lemma parts_wf records o labels n digest :
  owned records o → parents_first records → iterM (check_parent (ow_nodes o)) (btree_values (ow_nodes o)) = Ok tt → core_edges labels →
  wf_projection (mkProjection n (order_nodes (ow_nodes o)) (ow_nodes o) (freeze (lb_concepts labels)) (freeze (lb_core_concepts labels))
    (freeze (lb_roles labels)) (freeze (lb_core_roles labels)) digest).
Proof.
  intros [Hn Hc] Hpar Hchk Hcore. set (p := mkProjection _ _ _ _ _ _ _ _). pose proof (check_parents_ok _ Hchk) as Hchk'.
  split; cbn; try apply freeze_ascending.
  - intros x. unfold order_nodes. rewrite merge_sort_Permutation. apply elem_of_btree_keys.
  - assert (∀ x, creation p x = (node_rank (ow_nodes o) x).1) as Hcr.
    { intros x. unfold creation, node_rank. cbn. by destruct (ow_nodes o !! x). }
    eapply StronglySorted_weaken; [|apply order_nodes_sorted].
    + intros x y _ _ Hxy. by rewrite !Hcr.
    + intros x y r s Hr Hs E. apply Hc in Hr, Hs. congruence.
  - intros x r Hr. specialize (Hchk' x r Hr). destruct (decide _) as [Ht|Ht]; [by destruct Hchk' as (y & -> & _)|].
    rewrite Hchk'. split; [done|by intros []].
  - intros x y Hy. unfold parent_of in Hy. cbn in Hy. destruct (ow_nodes o !! x) as [r|] eqn:Hr; [|done]. cbn in Hy.
    specialize (Hchk' x r Hr). destruct (decide _); [|congruence]. destruct Hchk' as (z & Hz & [s Hs]). simplify_eq. split; [by rewrite Hs|].
    unfold creation. cbn. rewrite Hr, Hs. destruct (Hn _ _ Hr), (Hn _ _ Hs). apply Hpar; congruence.
  - intros e. unfold freeze. rewrite !lookup_fmap, !fmap_is_Some. apply Hcore.
Qed.

Context {S : Type} `{BlockingStateRead S A}.

Lemma from_state_wf (s : S) v limits records (c c' : C) p :
  node_records s = Ok records → parents_first records → from_state s v limits c = (Ok p, c') → wf_projection p.
Proof.
  intros Hrec Hpar Hp. unfold from_state in Hp. inv_ok. rewrite Hrec in *. simplify_eq.
  repeat match goal with E : foldST (polled _ _) _ _ _ = _ |- _ => apply polled_foldM in E; [|done] end.
  eapply parts_wf; [|done..|].
  - eapply foldM_add_record; [|reflexivity|done]. by split.
  - eapply label_core_edges; [|done]. by intros ? [].
Qed.
End from_state.

(** * A projection shows the active part of a state

    Its nodes are the active nodes, and its labels are the predicates of the
    vocabulary that hold of them in active facts. *)

Import Blocking Projection.

#[local] Arguments add_label : simpl never.

Section exact.
Context {A : Type} `{OrdLaws A} `{!EqDecision A} `{!Countable A}.
Implicit Types (records : list (NodeRecord A)) (o : Owners (A:=A)) (f : FactRecord A) (rf : RelevantFact A) (x y : A).

(** ** Nodes *)

Lemma add_record_nodes o r o' x r' : add_record o r = Ok o' →
  ow_nodes o' !! x = Some r' ↔ ow_nodes o !! x = Some r' ∨ (r' = r ∧ nr_lifecycle r = Active ∧ nr_node r = x).
Proof.
  unfold add_record. case_bool_decide as Ha; intros Ho; inv_ok; [naive_solver|]. cbn.
  match goal with E : bool_decide (is_Some (ow_nodes o !! _)) = false |- _ => apply bool_decide_eq_false, eq_None_not_Some in E as Hfresh end.
  rewrite lookup_insert_Some. split.
  - intros [[<- <-]|[_ Hx]]; auto.
  - intros [Hx|(-> & _ & <-)]; [|by left]. right. split; [|done]. intros <-. congruence.
Qed.

Lemma records_nodes l o o' x r : foldM add_record l o = Ok o' →
  ow_nodes o' !! x = Some r ↔ ow_nodes o !! x = Some r ∨ (r ∈ l ∧ nr_lifecycle r = Active ∧ nr_node r = x).
Proof.
  revert o. induction l as [|r0 l IH]; intros o Ho; cbn in Ho; inv_ok; [set_solver|].
  match goal with E : add_record o r0 = Ok ?o1 |- _ => rewrite (IH _ Ho), (add_record_nodes _ _ _ _ _ E) end. rewrite elem_of_cons. naive_solver.
Qed.

(** ** Facts *)

Definition visible (v : BlockingVocabulary) (nodes : gmap A (NodeRecord A)) f : Prop :=
  fr_active f = true ∧ arity_matches v f = true ∧ ∀ x, x ∈ fr_arguments f → is_Some (nodes !! x).

(** A relevant fact shows what a fact says. *)
Definition shows rf f : Prop := rf_predicate_id rf = fr_predicate_id f ∧ rf_arguments rf = fr_arguments f ∧ rf_core rf = fr_core f.

Lemma missing_argument (P : A → Prop) `{∀ x, Decision (P x)} (l : list A) :
  existsb (λ x, negb (bool_decide (P x))) l = false ↔ ∀ x, x ∈ l → P x.
Proof.
  rewrite <-not_true_iff_false, existsb_exists. setoid_rewrite negb_true_iff. setoid_rewrite bool_decide_eq_false. split.
  - intros Hn x Hx. destruct (decide (P x)) as [|Hm]; [done|]. destruct Hn. exists x. split; [by apply list_elem_of_In|done].
  - intros Hl (x & Hx%list_elem_of_In & Hn). by apply Hn, Hl.
Qed.

Lemma add_fact_relevant v nodes relevant f relevant' : add_fact v nodes relevant f = Ok relevant' →
  relevant' = relevant ∧ ¬ visible v nodes f ∨ ∃ rf, relevant' = relevant ++ [rf] ∧ shows rf f ∧ visible v nodes f.
Proof.
  unfold add_fact. destruct (fr_active f) eqn:Ha; cbn; [|intros [= <-]; left; split; [done|]; intros [? _]; congruence].
  destruct (arity_matches v f) eqn:Hm; cbn; [|intros [= <-]; left; split; [done|]; intros (_ & ? & _); congruence].
  destruct (existsb _ _) eqn:Ex.
  - intros [= <-]. left. split; [done|]. intros (_ & _ & Hall). apply (missing_argument (λ x, is_Some (nodes !! x))) in Hall. congruence.
  - pose proof (proj1 (missing_argument (λ x, is_Some (nodes !! x)) _) Ex) as Hall. intros Hr. inv_ok. right. unfold relevant_fact in *. inv_ok. eexists. split; [done|]. split; [by repeat split|by split].
Qed.

Lemma relevant_shown v nodes facts relevant relevant' : foldM (add_fact v nodes) facts relevant = Ok relevant' →
  (∀ rf, rf ∈ relevant' → rf ∈ relevant ∨ ∃ f, f ∈ facts ∧ visible v nodes f ∧ shows rf f) ∧
  (∀ rf, rf ∈ relevant → rf ∈ relevant') ∧ (∀ f, f ∈ facts → visible v nodes f → ∃ rf, rf ∈ relevant' ∧ shows rf f).
Proof.
  revert relevant. induction facts as [|f facts IH]; intros relevant Hf; cbn in Hf; inv_ok; [set_solver|].
  destruct (IH _ Hf) as (I1 & I2 & I3). match goal with E : add_fact _ _ _ _ = _ |- _ => apply add_fact_relevant in E as [[-> Hn]|(rf & -> & Hs & Hv)] end.
  - split_and!; [|done|].
    + intros rf [?|(f' & ? & ?)]%I1; [by left|right]. exists f'. rewrite elem_of_cons. auto.
    + intros f' [->|Hin]%elem_of_cons Hv'; [done|by apply I3].
  - split_and!.
    + intros rf' [[?| ->%list_elem_of_singleton]%elem_of_app|(f' & ? & ?)]%I1; [by left|right; exists f; rewrite elem_of_cons; auto|].
      right. exists f'. rewrite elem_of_cons. auto.
    + intros rf' Hin. apply I2, elem_of_app. by left.
    + intros f' [->|Hin]%elem_of_cons Hv'; [exists rf; split; [|done]; apply I2, elem_of_app; right; by apply list_elem_of_singleton|by apply I3].
Qed.

(** ** Labels *)

Definition label {K} `{Countable K} (sets : gmap K (gset N)) (k : K) : gset N := default ∅ (sets !! k).

Lemma add_label_elem {K} `{Countable K} (k k' : K) i i' (sets : gmap K (gset N)) :
  i' ∈ label (add_label k i sets) k' ↔ i' ∈ label sets k' ∨ (k' = k ∧ i' = i).
Proof.
  unfold label, add_label. destruct (decide (k' = k)) as [->|Hne].
  - rewrite lookup_insert_eq. cbn. set_solver.
  - rewrite lookup_insert_ne by done. naive_solver.
Qed.

(** The labels that a fact adds. *)
Definition adds rf core x i : Prop := rf_arguments rf = [x] ∧ rf_predicate_id rf = i ∧ (core = true → rf_core rf = true).
Definition adds_edge rf core x y i : Prop :=
  (∃ rest, rf_arguments rf = x :: y :: rest) ∧ rf_predicate_id rf = i ∧ (core = true → rf_core rf = true).

Definition concepts_of (l : Labels (A:=A)) (core : bool) : gmap A (gset N) := if core then lb_core_concepts l else lb_concepts l.
Definition roles_of (l : Labels (A:=A)) (core : bool) : gmap (A * A) (gset N) := if core then lb_core_roles l else lb_roles l.

Lemma label_fact_concepts l rf l' core x i : label_fact l rf = Ok l' →
  i ∈ label (concepts_of l' core) x ↔ i ∈ label (concepts_of l core) x ∨ adds rf core x i.
Proof.
  unfold label_fact, adds. destruct (rf_arguments rf) as [|z [|w args]] eqn:Ea; intros Hl; inv_ok.
  - destruct core, (rf_core rf); cbn; rewrite ?add_label_elem; naive_solver.
  - destruct core, (rf_core rf); cbn; naive_solver.
Qed.

Lemma label_fact_roles l rf l' core x y i : label_fact l rf = Ok l' →
  i ∈ label (roles_of l' core) (x, y) ↔ i ∈ label (roles_of l core) (x, y) ∨ adds_edge rf core x y i.
Proof.
  unfold label_fact, adds_edge. destruct (rf_arguments rf) as [|z [|w args]] eqn:Ea; intros Hl; inv_ok.
  - destruct core, (rf_core rf); cbn; naive_solver.
  - assert ((∃ rest, z :: w :: args = x :: y :: rest) ↔ (x, y) = (z, w)) as ->.
    { split; [by intros [? [= -> -> _]]|intros [= -> ->]; by eexists]. }
    destruct core, (rf_core rf); cbn; rewrite ?add_label_elem; intuition congruence.
Qed.

Lemma labels_exact facts l l' : foldM label_fact facts l = Ok l' →
  (∀ core x i, i ∈ label (concepts_of l' core) x ↔ i ∈ label (concepts_of l core) x ∨ ∃ rf, rf ∈ facts ∧ adds rf core x i) ∧
  (∀ core x y i, i ∈ label (roles_of l' core) (x, y) ↔ i ∈ label (roles_of l core) (x, y) ∨ ∃ rf, rf ∈ facts ∧ adds_edge rf core x y i).
Proof.
  revert l. induction facts as [|rf facts IH]; intros l Hl; cbn in Hl; inv_ok; [set_solver|]. destruct (IH _ Hl) as [I1 I2].
  match goal with E : label_fact l rf = Ok ?l1 |- _ => rename E into Hrf end. split.
  - intros core x i. rewrite I1, (label_fact_concepts _ _ _ _ _ _ Hrf). setoid_rewrite elem_of_cons. naive_solver.
  - intros core x y i. rewrite I2, (label_fact_roles _ _ _ _ _ _ _ Hrf). setoid_rewrite elem_of_cons. naive_solver.
Qed.

Lemma elem_of_freeze {K} `{Countable K} (sets : gmap K (gset N)) (k : K) i : i ∈ default [] (freeze sets !! k) ↔ i ∈ label sets k.
Proof. unfold freeze, label. rewrite lookup_fmap. destruct (sets !! k); cbn; [apply elem_of_btree_elements|set_solver]. Qed.

(** ** The projection *)

#[global] Instance relevant_fields_inj : Inj (=) (=) (relevant_fields (A:=A)).
Proof. intros [p k a []] [p' k' a' []] E; unfold relevant_fields in E; cbn in E; by simplify_eq. Qed.

#[global] Instance RelevantFact_ord_laws : OrdLaws (RelevantFact A).
Proof. apply compare_by_laws. apply _. Qed.

(** An active fact says that [i] holds of [args]. *)
Definition says (facts : list (FactRecord A)) (core : bool) (i : N) (args : list A) : Prop :=
  ∃ f, f ∈ facts ∧ fr_active f = true ∧ fr_predicate_id f = i ∧ fr_arguments f = args ∧ (core = true → fr_core f = true).

Lemma shown_concepts v nodes facts relevant core x i : foldM (add_fact v nodes) facts [] = Ok relevant →
  (∃ rf, rf ∈ relevant ∧ adds rf core x i) ↔ is_Some (nodes !! x) ∧ i ∈ vc_atomic_concepts v ∧ says facts core i [x].
Proof.
  intros (S1 & _ & S3)%relevant_shown. split.
  - intros (rf & Hrf & Ha & Hi & Hc). destruct (S1 rf Hrf) as [?%not_elem_of_nil|(f & Hf & (Hact & Har & Hin) & Hp & Hargs & Hcore)]; [done|].
    unfold arity_matches in Har. rewrite <-Hargs, Ha in Har, Hin. cbn in Har. rewrite bool_decide_true in Har by done. cbn in Har.
    rewrite (bool_decide_false (1 = 2)%nat), orb_false_r, bool_decide_eq_true in Har by done.
    split_and!; [apply Hin; left|by rewrite <-Hi, Hp|]. exists f. split_and!; [done..|congruence|congruence|rewrite <-Hcore; done].
  - intros (Hx & Hi & f & Hf & Hact & Hp & Hargs & Hcore). destruct (S3 f Hf) as (rf & Hrf & Hp' & Hargs' & Hcore').
    + split_and!; [done| |rewrite Hargs; by intros ? ->%list_elem_of_singleton]. unfold arity_matches. rewrite Hargs, Hp. cbn.
      rewrite !bool_decide_true by done. done.
    + exists rf. split; [done|]. split_and!; [congruence|congruence|]. rewrite Hcore'. done.
Qed.

Lemma shown_roles v nodes facts relevant core x y i : foldM (add_fact v nodes) facts [] = Ok relevant →
  (∃ rf, rf ∈ relevant ∧ adds_edge rf core x y i) ↔
  (is_Some (nodes !! x) ∧ is_Some (nodes !! y)) ∧ i ∈ vc_atomic_object_roles v ∧ says facts core i [x; y].
Proof.
  intros (S1 & _ & S3)%relevant_shown. split.
  - intros (rf & Hrf & [rest Ha] & Hi & Hc). destruct (S1 rf Hrf) as [?%not_elem_of_nil|(f & Hf & (Hact & Har & Hin) & Hp & Hargs & Hcore)]; [done|].
    unfold arity_matches in Har. rewrite <-Hargs, Ha in Har, Hin. cbn in Har. rewrite (bool_decide_false (Datatypes.S (Datatypes.S _) = 1)%nat) in Har by done.
    cbn in Har. rewrite andb_true_iff, !bool_decide_eq_true in Har. destruct Har as [Hlen Hr]. destruct rest; [|done].
    split_and!; [apply Hin; left|apply Hin; right; left|by rewrite <-Hi, Hp|]. exists f. split_and!; [done..|congruence|congruence|rewrite <-Hcore; done].
  - intros ([Hx Hy] & Hi & f & Hf & Hact & Hp & Hargs & Hcore). destruct (S3 f Hf) as (rf & Hrf & Hp' & Hargs' & Hcore').
    + split_and!; [done| |rewrite Hargs; by intros ? [->| ->%list_elem_of_singleton]%elem_of_cons]. unfold arity_matches. rewrite Hargs, Hp. cbn.
      rewrite (bool_decide_true (2 = 2)%nat), (bool_decide_true (i ∈ vc_atomic_object_roles v)) by done. by rewrite orb_true_r.
    + exists rf. split; [done|]. split_and!; [exists []; congruence|congruence|]. rewrite Hcore'. done.
Qed.

Context {C S : Type} `{BlockingControl C} `{BlockingStateRead S A}.

Record shown (v : BlockingVocabulary) records (facts : list (FactRecord A)) (p : BlockingProjection A) : Prop := {
  sh_nodes x r : bp_nodes p !! x = Some r ↔ r ∈ records ∧ nr_lifecycle r = Active ∧ nr_node r = x;
  sh_concepts x core i : i ∈ concept_label p x core ↔ is_Some (bp_nodes p !! x) ∧ i ∈ vc_atomic_concepts v ∧ says facts core i [x];
  sh_roles x y core i : i ∈ role_label p x y core ↔
    (is_Some (bp_nodes p !! x) ∧ is_Some (bp_nodes p !! y)) ∧ i ∈ vc_atomic_object_roles v ∧ says facts core i [x; y]
}.

Lemma from_state_shown (s : S) v limits records facts (c c' : C) p :
  node_records s = Ok records → active_fact_records s = Ok facts → from_state s v limits c = (Ok p, c') → shown v records facts p.
Proof.
  intros Hrec Hfacts Hp. unfold from_state in Hp. inv_ok. rewrite Hrec, Hfacts in *. simplify_eq.
  repeat match goal with E : foldST (polled _ _) _ _ _ = _ |- _ => apply polled_foldM in E; [|done] end.
  match goal with E : foldM add_record _ _ = _ |- _ => rename E into Hn end.
  match goal with E : foldM (add_fact _ _) _ _ = _ |- _ => rename E into Hf end.
  match goal with E : foldM label_fact _ _ = Ok ?l |- _ => rename l into labels; apply labels_exact in E as [Hc Hr] end. split; cbn.
  - intros x r. rewrite (records_nodes _ _ _ _ _ Hn). cbn. rewrite lookup_empty. naive_solver.
  - intros x core i. rewrite <-(shown_concepts _ _ _ _ core x i Hf).
    transitivity (i ∈ label (concepts_of labels core) x); [destruct core; apply elem_of_freeze|]. rewrite Hc.
    setoid_rewrite elem_of_dedup_sort. destruct core; cbn; unfold label; rewrite lookup_empty; set_solver.
  - intros x y core i. rewrite <-(shown_roles _ _ _ _ core x y i Hf).
    transitivity (i ∈ label (roles_of labels core) (x, y)); [destruct core; apply elem_of_freeze|]. rewrite Hr.
    setoid_rewrite elem_of_dedup_sort. destruct core; cbn; unfold label; rewrite lookup_empty; set_solver.
Qed.
End exact.
