(* ===== verification/BlockingSpec.v ===== *)
(** * What blocking computes

    A labelling says of each node, in terms of the nodes before it, whether and by
    which of them it is blocked, without an index and without caches.  The
    computation of the manager is a labelling, from scratch or from a prefix that
    it keeps. *)

From S2P Require Import Prelude Order Errors Contracts Model Sha256 BlockingModel Projection BlockingChecker BlockingManager ProjectionSpec.
Import Blocking Manager.

#[local] Arguments Signature.new : simpl never.

Section spec.
Context {A : Type} `{OrdLaws A} `{!EqDecision A} `{!Countable A}.
Implicit Types (p q : BlockingProjection A) (x y : A) (asg : gmap A (BlockingAssignment A)) (index : gmap BlockingKey (list A)).

(** ** The specification *)

Fixpoint ancestors p (fuel : nat) x : list A :=
  match fuel with
  | O => []
  | S fuel => match parent_of p x with None => [] | Some y => y :: ancestors p fuel y end
  end.

Section labelling.
Context p (checker : DirectChecker) (plan : BlockingPlan) (rejected : gmap (A * A) (list N)).
Abbreviation nodes := (bp_ordered_nodes p).

Definition key_of x : option BlockingKey :=
  match Checker.signature checker p x with Ok s => Some (Signature.blocking_key s) | _ => None end.

(** [y] blocks [x] if it comes first. *)
Definition may_block asg x y : bool :=
  free asg y && Checker.can_be_blocker checker p y && bool_decide (key_of y = key_of x) && negb (is_rejected p rejected x y).

(** The nearest ancestor first, or the oldest node. *)
Definition candidates (earlier : list A) x : list A :=
  if bool_decide (pl_manager_kind plan = Ancestor) then ancestors p (size (bp_nodes p)) x else earlier.

Definition first_blocker asg (earlier : list A) x : option A :=
  head (filter (λ y, may_block asg x y = true) (candidates earlier x)).

Definition blocked_in asg x : bool := match asg !! x with Some a => blocked a | None => false end.

Definition expected asg (earlier : list A) x : BlockingAssignment A :=
  match parent_of p x with
  | None => unblocked x
  | Some y =>
      if blocked_in asg y then indirect x y
      else if Checker.can_be_blocked checker p x then
        match first_blocker asg earlier x with Some b => direct x b | None => unblocked x end
      else unblocked x
  end.

(** The first [k] nodes are assigned as expected, and indexed if they can block. *)
Record labelling (k : nat) asg index : Prop := {
  lb_dom x : is_Some (asg !! x) ↔ x ∈ take k nodes;
  lb_expected i x : (i < k)%nat → nodes !! i = Some x → asg !! x = Some (expected asg (take i nodes) x);
  lb_index key : default [] (index !! key) =
    filter (λ y, free asg y = true ∧ Checker.can_be_blocker checker p y = true ∧ key_of y = Some key) (take k nodes)
}.
End labelling.

(** ** Signatures *)

Section signatures.
Context p (Hp : wf_projection p) (checker : DirectChecker).

Lemma signature_new kind bn bp bf bt fn fp ff ft :
  Forall (λ l, strictly_ascending l = true) [bn; bp; bf; bt; fn; fp; ff; ft] →
  Signature.new kind bn bp bf bt fn fp ff ft = Ok (mkSignature kind bn bp bf bt fn fp ff ft).
Proof.
  rewrite !Forall_cons. intros (E1 & E2 & E3 & E4 & E5 & E6 & E7 & E8 & _).
  unfold Signature.new. cbn. unfold Signature.check_field, Signature.canonical. cbn. by rewrite E1, E2, E3, E4, E5, E6, E7, E8.
Qed.

Lemma eligible_parent x : Checker.eligible checker p x = true → is_Some (parent_of p x).
Proof.
  unfold Checker.eligible, Checker.active_tree, parent_of. destruct (bp_nodes p !! x) as [r|] eqn:Hr; [|done]. cbn.
  destruct (decide (nr_kind r = Tree)) as [Ht|Ht]; [|by rewrite (bool_decide_false _ Ht), andb_false_r]. intros _. by apply (wp_tree p Hp x r Hr).
Qed.

Lemma signature_ok x : Checker.eligible checker p x = true → ∃ s, Checker.signature checker p x = Ok s.
Proof.
  intros Hx. destruct (eligible_parent x Hx) as [y Hy]. unfold Checker.signature, Checker.can_be_blocked. rewrite Hx. cbn.
  unfold Checker.parent. fold (parent_of p x). rewrite Hy. cbn.
  destruct (dc_kind checker); cbn; rewrite signature_new; eauto;
    repeat (constructor; [done || apply label_ascending || apply role_ascending; done|]); constructor.
Qed.

Lemma blocks_key s t : Signature.blocks s t = bool_decide (Signature.blocking_key s = Signature.blocking_key t).
Proof.
  destruct s as [k1 a1 b1 c1 d1], t as [k2 a2 b2 c2 d2]. unfold Signature.blocks, Signature.blocking_key. cbn.
  destruct (bool_decide_reflect (mkBlockingKey k1 a1 b1 c1 d1 = mkBlockingKey k2 a2 b2 c2 d2)) as [[= -> -> -> -> ->]|Hn].
  - by rewrite !bool_decide_true.
  - apply not_true_iff_false. rewrite !andb_true_iff, !bool_decide_eq_true. intros [[[[-> ->] ->] ->] ->]. done.
Qed.
End signatures.

(** ** Ancestors *)

Section ancestors.
Context p (Hp : wf_projection p).
Abbreviation nodes := (bp_ordered_nodes p).

Lemma ancestors_before n i x y : nodes !! i = Some x → y ∈ ancestors p n x → y ∈ take i nodes.
Proof.
  revert i x. induction n as [|n IH]; intros i x Hi Hy; [by apply not_elem_of_nil in Hy|]. cbn in Hy.
  destruct (parent_of p x) as [z|] eqn:Ez; [|by apply not_elem_of_nil in Hy].
  pose proof (parent_before p Hp i x z Hi Ez) as Hz. apply elem_of_cons in Hy as [->|Hy]; [done|].
  apply elem_of_take in Hz as (j & Hj & Hji). specialize (IH j z Hj Hy). rewrite elem_of_take in IH |- *. destruct IH as (k & Hk & ?).
  exists k. split; [done|lia].
Qed.

Lemma ancestors_fuel n m i x : nodes !! i = Some x → (i ≤ n)%nat → (i ≤ m)%nat → ancestors p n x = ancestors p m x.
Proof.
  assert (∀ x, nodes !! O = Some x → parent_of p x = None) as H0'.
  { intros z Hz. destruct (parent_of p z) as [w|] eqn:Ew; [|done]. by apply (parent_before p Hp 0 z w Hz) in Ew as ?%not_elem_of_nil. }
  revert m i x. induction n as [|n IH]; intros m i x Hi Hn Hm.
  - assert (i = O) as -> by lia. destruct m; cbn; [done|]. by rewrite H0'.
  - destruct m as [|m]; [assert (i = O) as -> by lia; cbn; by rewrite H0'|]. cbn.
    destruct (parent_of p x) as [z|] eqn:Ez; [|done]. f_equal.
    apply (parent_before p Hp i x z Hi), elem_of_take in Ez as (j & Hj & ?). apply (IH m j); [done|lia..].
Qed.
End ancestors.

(** ** Finding the blocker *)

Context {C : Type} `{BlockingControl C}.

(** The errors of a computation that takes at most [n] steps: the control's, or of
    a limit on steps that is too low. *)
Definition stopped (limits : BlockingLimits) (n : N) (e : BlockingError) : Prop :=
  (∃ c c' : C, blocking_poll c = (Err e, c')) ∨ (be_kind e = BlockResource ∧ bl_max_candidate_checks limits < n)%N.

Definition polls : Prop := ∀ c : C, (blocking_poll c).1 ≠ Crash.

Lemma stopped_mono limits n m e : (n <= m)%N → stopped limits n e → stopped limits m e.
Proof. intros Hnm [He|[He Hn]]; [by left|right]. split; [done|lia]. Qed.

Lemma meets_reject_if {S E} b (e : E) (s : S) (Q : unit → S → Prop) (R : E → S → Prop) :
  (b = false → Q tt s) → (b = true → R e s) → meets (lift (reject_if b e)) s Q R.
Proof. unfold meets, lift, reject_if. destruct b; auto. Qed.

Lemma meets_blocking_poll limits n c (Q : unit → C → Prop) : polls → (∀ c, Q tt c) → meets blocking_poll c Q (λ e _, stopped limits n e).
Proof.
  intros Hpoll HQ. unfold meets. specialize (Hpoll c). destruct (blocking_poll c) as [[[]|e|] c'] eqn:E; [done|by left; eauto|done].
Qed.

Lemma candidate_step_meets limits stats c n :
  polls → (cs_candidate_checks stats + 1 <= n)%N →
  meets (candidate_step limits stats) c (λ stats' _, cs_candidate_checks stats' <= cs_candidate_checks stats + 1)%N (λ e _, stopped limits n e).
Proof.
  intros Hpoll Hn. unfold candidate_step. cbn [cs_candidate_checks set_field].
  set (stats' := stats <| cs_candidate_checks ::= succ |>).
  assert (cs_candidate_checks stats' <= cs_candidate_checks stats + 1)%N as Hs by (cbn; unfold succ, saturating_add; lia).
  eapply meets_bind with (Q := λ _ _, True).
  - apply meets_reject_if; [done|]. intros Hmax%N.ltb_lt. right. split; [done|]. eapply N.lt_le_trans; [exact Hmax|]. etrans; [exact Hs|done].
  - intros _ c1 _. eapply meets_bind with (Q := λ _ _, True); [|by intros _ c2 _]. destruct (_ =? 0)%N; [by apply meets_blocking_poll|done].
Qed.

Section search.
Context p (Hp : wf_projection p) (checker : DirectChecker) (plan : BlockingPlan) (rejected : gmap (A * A) (list N)) (limits : BlockingLimits).
Context (Hpoll : polls).
Abbreviation nodes := (bp_ordered_nodes p).
Abbreviation blocks_at := (may_block p checker rejected).

Lemma ancestor_blocks_ok x s asg y :
  Checker.signature checker p x = Ok s → ancestor_blocks p checker rejected x s asg y = Ok (blocks_at asg x y).
Proof.
  intros Hs. unfold ancestor_blocks, may_block. destruct (free asg y); [|done]. cbn.
  destruct (Checker.can_be_blocker checker p y) eqn:Hy; [|done]. destruct (signature_ok p Hp checker y Hy) as [t Ht]. rewrite Ht. cbn.
  rewrite blocks_key. unfold key_of. rewrite Hs, Ht. do 2 f_equal. apply bool_decide_ext. split; congruence.
Qed.

Lemma search_ancestors_meets x s asg j z rem stats c n :
  Checker.signature checker p x = Ok s → nodes !! j = Some z → (j ≤ rem)%nat → (cs_candidate_checks stats + N.of_nat j <= n)%N →
  meets (search_ancestors p checker rejected limits x s asg (parent_of p z) rem stats) c
    (λ r _, r.1 = head (filter (λ y, blocks_at asg x y = true) (ancestors p j z)) ∧
      (cs_candidate_checks r.2 <= cs_candidate_checks stats + N.of_nat j)%N) (λ e _, stopped limits n e).
Proof.
  intros Hs. revert j z stats c. induction rem as [|rem IH]; intros j z stats c Hj Hrem Hn.
  - assert (j = O) as -> by lia. destruct (parent_of p z) as [y|] eqn:Ey.
    { by apply (parent_before p Hp 0 z y Hj) in Ey as ?%not_elem_of_nil. }
    apply meets_ret. split; [done|cbn [fst snd]; lia].
  - destruct (parent_of p z) as [y|] eqn:Ey.
    2: { apply meets_ret. split; [|cbn [fst snd]; lia]. by destruct j; cbn; rewrite ?Ey. }
    pose proof (parent_before p Hp j z y Hj Ey) as (i & Hi & Hij)%elem_of_take. cbn [search_ancestors].
    eapply meets_bind; [apply (candidate_step_meets limits stats c n); [done|lia]|]. intros stats1 c1 Hstep; cbn beta in Hstep.
    rewrite (ancestor_blocks_ok x s asg y Hs). eapply meets_bind with (Q := λ b _, b = blocks_at asg x y); [done|]. intros b c2 ->.
    destruct j as [|j]; [lia|]. cbn [ancestors]. rewrite Ey, filter_cons. destruct (blocks_at asg x y) eqn:Eb.
    + rewrite decide_True by done. apply meets_ret. split; [done|cbn [fst snd]; lia].
    + rewrite decide_False by congruence. rewrite (ancestors_fuel p Hp j i i y) by (done || lia).
      eapply meets_impl; [apply IH; [done|lia|lia]| |done]. intros r c3 [Hr Hc]. split; [done|lia].
Qed.

Lemma search_candidates_meets x asg cs stats c n :
  (∀ y, y ∈ cs → creation p y < creation p x)%N → (cs_candidate_checks stats + N.of_nat (length cs) <= n)%N →
  meets (search_candidates p rejected limits x asg cs stats) c
    (λ r _, r.1 = head (filter (λ y, free asg y = true ∧ is_rejected p rejected x y = false) cs) ∧
      (cs_candidate_checks r.2 <= cs_candidate_checks stats + N.of_nat (length cs))%N) (λ e _, stopped limits n e).
Proof.
  revert stats c. induction cs as [|y cs IH]; intros stats c Hcs Hn; [apply meets_ret; split; [done|cbn [fst snd]; lia]|].
  cbn [search_candidates length] in *. eapply meets_bind; [apply (candidate_step_meets limits stats c n); [done|lia]|]. intros stats1 c1 Hstep; cbn beta in Hstep.
  rewrite (not_ancestor p Hp x y) by (apply Hcs; left). rewrite andb_true_r, filter_cons.
  destruct (free asg y) eqn:Ef; [destruct (is_rejected p rejected x y) eqn:Er|]; cbn [andb negb].
  2: { rewrite decide_True by done. apply meets_ret. split; [done|cbn [fst snd]; lia]. }
  all: rewrite decide_False by naive_solver.
  all: eapply meets_impl; [apply IH; [by intros; apply Hcs; right|lia]|intros r c2 [Hr Hc]; split; [done|lia]|done].
Qed.

(** The index leads to the oldest node that may block. *)
Lemma find_blocker_meets k asg index x s stats c n :
  labelling p checker plan rejected k asg index → nodes !! k = Some x → Checker.signature checker p x = Ok s →
  (cs_candidate_checks stats + N.of_nat k <= n)%N →
  meets (find_blocker p checker plan rejected limits x s asg index stats) c
    (λ r _, r.1 = first_blocker p checker plan rejected asg (take k nodes) x ∧
      (cs_candidate_checks r.2 <= cs_candidate_checks stats + N.of_nat k)%N) (λ e _, stopped limits n e).
Proof.
  intros [_ _ Hindex] Hk Hs Hn. unfold find_blocker, first_blocker, candidates. case_bool_decide.
  - assert (k ≤ size (bp_nodes p))%nat by (rewrite <-(ordered_size p Hp); apply lookup_lt_Some in Hk; lia).
    rewrite (ancestors_fuel p Hp _ k k x) by done. by apply search_ancestors_meets.
  - rewrite Hindex. set (cs := filter _ (take k nodes)). assert (length cs ≤ k)%nat.
    { unfold cs. etrans; [apply length_filter|]. rewrite length_take. lia. }
    eapply meets_impl; [apply (search_candidates_meets x asg cs stats c n); [|lia]| |done].
    + intros y [_ Hy]%list_elem_of_filter. by apply (ordered_before p Hp k x y Hk) in Hy as [_ ?].
    + intros r c1 [-> Hc]. split; [|lia]. f_equal. unfold cs. rewrite list_filter_filter. apply list_filter_iff. intros y.
      unfold may_block. rewrite !andb_true_iff, negb_true_iff, bool_decide_eq_true. unfold key_of at 3. rewrite Hs. tauto.
Qed.

(** ** One more node *)

Lemma expected_ext asg asg' i x :
  nodes !! i = Some x → (∀ y, y ∈ take i nodes → asg !! y = asg' !! y) →
  expected p checker plan rejected asg (take i nodes) x = expected p checker plan rejected asg' (take i nodes) x.
Proof.
  intros Hi Heq. unfold expected. destruct (parent_of p x) as [y|] eqn:Ey; [|done].
  unfold blocked_in. rewrite (Heq y) by (by apply (parent_before p Hp i x)). destruct (match asg' !! y with Some _ => _ | None => _ end); [done|].
  destruct (Checker.can_be_blocked checker p x); [|done]. unfold first_blocker.
  rewrite (filter_ext_in _ (λ y, blocks_at asg' x y = true)); [done|]. intros z Hz. unfold may_block, free.
  rewrite (Heq z); [done|]. unfold candidates in Hz. case_bool_decide; [by eapply ancestors_before|done].
Qed.

(** The index after [x] was assigned [a]. *)
Definition indexed index x (a : BlockingAssignment A) index' : Prop := ∀ key,
  default [] (index' !! key) = default [] (index !! key) ++
    (if bool_decide (blocked a = false ∧ Checker.can_be_blocker checker p x = true ∧ key_of p checker x = Some key) then [x] else []).

Lemma labelling_extend k asg index index' x a :
  labelling p checker plan rejected k asg index → nodes !! k = Some x →
  a = expected p checker plan rejected asg (take k nodes) x → indexed index x a index' →
  labelling p checker plan rejected (S k) (<[x := a]> asg) index'.
Proof.
  intros [Hdom Hexp Hindex] Hk -> Hi. set (a := expected _ _ _ _ _ _ _) in *.
  assert (∀ i y, (i ≤ k)%nat → y ∈ take i nodes → asg !! y = <[x := a]> asg !! y) as Hold.
  { intros i y Hik Hy. rewrite lookup_insert_ne; [done|]. intros <-. apply elem_of_take in Hy as (j & Hj & ?).
    pose proof (NoDup_lookup _ _ _ _ (ordered_nodes_NoDup p Hp) Hk Hj). lia. }
  split.
  - intros y. rewrite (take_S_r _ _ _ Hk), elem_of_app, list_elem_of_singleton, <-Hdom. rewrite lookup_insert_is_Some'. naive_solver.
  - intros i y Hik Hy. destruct (decide (i = k)) as [->|].
    + assert (y = x) as -> by congruence. rewrite lookup_insert_eq. f_equal. apply expected_ext; [done|]. intros z. by apply Hold.
    + rewrite lookup_insert_ne. 2: { intros ->. pose proof (NoDup_lookup _ _ _ _ (ordered_nodes_NoDup p Hp) Hk Hy). lia. }
      rewrite (Hexp i y) by (done || lia). f_equal. apply expected_ext; [done|]. intros z. apply Hold. lia.
  - intros key. rewrite Hi, Hindex, (take_S_r _ _ _ Hk), filter_app. f_equal.
    + apply filter_ext_in. intros y Hy. unfold free. by rewrite <-(Hold k y).
    + rewrite filter_cons, filter_nil. unfold free. rewrite lookup_insert_eq.
      repeat case_decide; try case_bool_decide; rewrite ?negb_true_iff in *; naive_solver.
Qed.

Definition uncached (cache : option BlockingSignatureCache) : Prop := pl_cache_allowed plan = false ∨ cache = None.

Lemma meets_steer {X} (m : st C BlockingError X) (s : C * option BlockingSignatureCache) (Q : X → C → Prop) R :
  meets m s.1 Q (λ e _, R e) → meets (steer m) s (λ v s', Q v s'.1 ∧ s'.2 = s.2) (λ e _, R e).
Proof. unfold meets, steer. destruct (m s.1) as [[x|e|] c]; auto. Qed.

Lemma cache_hit_uncached (s : C * option BlockingSignatureCache) sg : uncached s.2 → cache_hit plan sg s = (Ok false, s).
Proof. unfold cache_hit. intros [->| ->]; [done|]. by destruct (pl_cache_allowed plan). Qed.

Lemma assign_tree_meets k r x rec s n :
  labelling p checker plan rejected k (rn_assignments r) (rn_index r) → nodes !! k = Some x → bp_nodes p !! x = Some rec →
  nr_kind rec = Tree → uncached s.2 → (cs_candidate_checks (rn_stats r) + N.of_nat k <= n)%N →
  meets (assign_tree p checker plan rejected limits r x rec) s
    (λ a s', s'.2 = s.2 ∧ a.1 = expected p checker plan rejected (rn_assignments r) (take k nodes) x ∧
      (cs_candidate_checks a.2 <= cs_candidate_checks (rn_stats r) + N.of_nat k)%N) (λ e _, stopped limits n e).
Proof.
  intros Hl Hk Hx Ht Hs Hn. unfold assign_tree, expected, parent_of. rewrite Hx. cbn [mbind option_bind].
  destruct (proj1 (wp_tree p Hp x rec Hx) Ht) as [y Hy]. rewrite Hy. cbn [ok_or].
  eapply meets_bind with (Q := λ z s', z = y ∧ s' = s); [done|]. intros z s' [-> ->]. unfold blocked_in.
  destruct (match rn_assignments r !! y with Some _ => _ | None => _ end); [apply meets_ret; cbn; repeat split; lia|].
  destruct (Checker.can_be_blocked checker p x) eqn:Hc; [|apply meets_ret; cbn; repeat split; lia].
  destruct (signature_ok p Hp checker x Hc) as [sg Hsg]. rewrite Hsg.
  eapply meets_bind with (Q := λ z s', z = sg ∧ s' = s); [done|]. intros z s' [-> ->].
  eapply meets_bind with (Q := λ hit s', hit = false ∧ s' = s). { unfold meets. by rewrite cache_hit_uncached. }
  intros hit s' [-> ->]. eapply meets_bind.
  - apply meets_steer, (find_blocker_meets k _ _ x sg _ _ n Hl Hk Hsg). cbn. done.
  - intros found s' [[Hf Hc'] Hs']. apply meets_ret. cbn [fst snd]. split; [done|]. split; [by rewrite Hf|exact Hc'].
Qed.

Lemma index_node_ok r x a :
  ∃ r', index_node p checker r x a = Ok r' ∧ rn_assignments r' = rn_assignments r ∧
    cs_candidate_checks (rn_stats r') = cs_candidate_checks (rn_stats r) ∧ indexed (rn_index r) x a (rn_index r').
Proof.
  unfold index_node, indexed. destruct (blocked a) eqn:Hb; cbn [negb andb].
  { exists r. repeat split. intros key. rewrite bool_decide_false by naive_solver. by rewrite app_nil_r. }
  destruct (Checker.can_be_blocker checker p x) eqn:Hx.
  2: { exists r. repeat split. intros key. rewrite bool_decide_false by naive_solver. by rewrite app_nil_r. }
  destruct (signature_ok p Hp checker x Hx) as [sg Hsg]. rewrite Hsg, bind_Ok_l. eexists. do 3 (split; [done|]).
  intros key. cbn. unfold key_of. rewrite Hsg. destruct (decide (Signature.blocking_key sg = key)) as [<-|Hne].
  - by rewrite lookup_insert_eq, bool_decide_true.
  - rewrite lookup_insert_ne, bool_decide_false by naive_solver. by rewrite app_nil_r.
Qed.

Lemma assign_node_meets k r x s n :
  labelling p checker plan rejected k (rn_assignments r) (rn_index r) → nodes !! k = Some x → uncached s.2 →
  (cs_candidate_checks (rn_stats r) + N.of_nat k <= n)%N →
  meets (assign_node p checker plan rejected limits r x) s
    (λ r' s', s'.2 = s.2 ∧ labelling p checker plan rejected (S k) (rn_assignments r') (rn_index r') ∧
      (cs_candidate_checks (rn_stats r') <= cs_candidate_checks (rn_stats r) + N.of_nat k)%N) (λ e _, stopped limits n e).
Proof.
  intros Hl Hk Hs Hn. unfold assign_node. set (r0 := r <| rn_stats ::= _ |>).
  assert (is_Some (bp_nodes p !! x)) as [rec Hrec] by (apply (wp_nodes p Hp); by eapply list_elem_of_lookup_2).
  eapply meets_bind with (Q := λ _ s', s'.2 = s.2).
  { destruct (_ =? 0)%N; [|done]. eapply meets_impl; [by apply meets_steer, (meets_blocking_poll limits n s.1 (λ _ _, True))| |done]. by intros ? s' [_ ?]. }
  intros [] s1 Hs1. rewrite Hrec. eapply meets_bind with (Q := λ z s', z = rec ∧ s' = s1); [done|]. intros z s' [-> ->].
  eapply meets_bind with (Q := λ a s', s'.2 = s.2 ∧ a.1 = expected p checker plan rejected (rn_assignments r) (take k nodes) x ∧
    (cs_candidate_checks a.2 <= cs_candidate_checks (rn_stats r) + N.of_nat k)%N).
  - case_bool_decide as Ht.
    + eapply meets_impl; [apply (assign_tree_meets k r0 x rec s1 n Hl Hk Hrec Ht); [by rewrite Hs1|done]| |done].
      intros a s' (? & ? & ?). split; [congruence|done].
    + apply meets_ret. split; [done|]. split; [|cbn [snd]; apply N.le_add_r].
      unfold expected, parent_of. rewrite Hrec. cbn [mbind option_bind fst]. destruct (nr_parent rec) as [y|] eqn:Ey; [|done].
      exfalso. apply Ht, (wp_tree p Hp x rec Hrec). by rewrite Ey.
  - intros a s' (Hs' & Ha & Hc). set (r1 := mkRun _ _ _). destruct (index_node_ok r1 x a.1) as (r' & Hr' & Hasg & Hch & Hidx). rewrite Hr'.
    unfold meets, lift. split; [done|]. rewrite Hasg, Hch. split; [|done]. by apply (labelling_extend k _ (rn_index r)).
Qed.

(** ** All nodes *)

Abbreviation total := (N.of_nat (length nodes)).

Lemma assign_all_meets k r s :
  labelling p checker plan rejected k (rn_assignments r) (rn_index r) → (k ≤ length nodes)%nat → uncached s.2 →
  (cs_candidate_checks (rn_stats r) <= N.of_nat k * total)%N →
  meets (foldST (assign_node p checker plan rejected limits) (drop k nodes) r) s
    (λ r' s', s'.2 = s.2 ∧ labelling p checker plan rejected (length nodes) (rn_assignments r') (rn_index r'))
    (λ e _, stopped limits (total * total) e).
Proof.
  remember (length nodes - k)%nat as j eqn:Ej. revert k r s Ej. induction j as [|j IH]; intros k r s Ej Hl Hk Hs Hn.
  - rewrite drop_ge by lia. apply meets_ret. split; [done|]. by replace (length nodes) with k by lia.
  - destruct (lookup_lt_is_Some_2 nodes k) as [x Hx]; [lia|]. rewrite (drop_S _ _ _ Hx). cbn [foldST].
    assert (N.of_nat k < total)%N by lia.
    eapply meets_bind; [apply (assign_node_meets k r x s (total * total) Hl Hx Hs); nia|].
    intros r' s' (Hs' & Hl' & Hc). eapply meets_impl; [apply (IH (S k) r' s'); [lia|done|lia|by rewrite Hs'|nia]| |done].
    intros r2 s2 [E ?]. split; [congruence|done].
Qed.

Lemma recompute_meets prefix k asg index s :
  match prefix with
  | None => k = O ∧ asg = ∅ ∧ index = ∅
  | Some (previous, previous_index, frontier) =>
      keep_prefix p previous previous_index frontier = (asg, index) ∧ partition_point (before_frontier p frontier) nodes = k
  end → labelling p checker plan rejected k asg index → (k ≤ length nodes)%nat → uncached s.2 →
  dc_kind checker = pl_direct_checker_kind plan →
  meets (recompute_internal p checker plan rejected limits prefix) s
    (λ r s', s'.2 = s.2 ∧ labelling p checker plan rejected (length nodes) (rn_assignments r) (rn_index r))
    (λ e _, stopped limits (total * total) e).
Proof.
  intros Hpre Hl Hk Hs Hkind. unfold recompute_internal. rewrite bool_decide_false by (intros []; done).
  eapply meets_bind with (Q := λ _ s', s' = s); [done|]. intros [] s' ->.
  assert (match prefix with Some (previous, previous_index, frontier) => keep_prefix p previous previous_index frontier | None => (∅, ∅) end
    = (asg, index)) as ->. { destruct prefix as [[[??]?]|]; [by destruct Hpre|]. by destruct Hpre as (_ & -> & ->). }
  assert (match prefix with Some (_, _, frontier) => partition_point (before_frontier p frontier) nodes | None => O end = k) as ->.
  { destruct prefix as [[[??]?]|]; [by destruct Hpre|]. by destruct Hpre as (-> & _). }
  eapply meets_bind; [apply assign_all_meets; [done|done|done|cbn; lia]|]. intros r s' [Hs' Hr].
  eapply meets_bind; [by apply meets_steer, (meets_blocking_poll limits _ s'.1 (λ _ _, True))|]. intros [] s2 [_ Hs2]. apply meets_ret.
  split; [congruence|done].
Qed.

Lemma labelling_empty : labelling p checker plan rejected 0 ∅ ∅.
Proof. split; [|lia|done]. intros x. rewrite lookup_empty. split; [by intros []|by intros ?%not_elem_of_nil]. Qed.
End search.

(** ** Uniqueness *)

Lemma labelling_unique p (Hp : wf_projection p) checker plan rejected k asg asg' index index' :
  labelling p checker plan rejected k asg index → labelling p checker plan rejected k asg' index' → asg = asg'.
Proof.
  intros [Hd He _] [Hd' He' _]. apply map_eq. intros x. destruct (decide (x ∈ take k (bp_ordered_nodes p))) as [Hx|Hx].
  - apply elem_of_take in Hx as (i & Hi & Hik). revert x Hi. induction i as [i IH] using lt_wf_ind. intros x Hi.
    rewrite (He i x), (He' i x) by done. f_equal. apply (expected_ext p Hp); [done|].
    intros y (j & Hj & Hji)%elem_of_take. apply (IH j); [done|lia|done].
  - rewrite (proj2 (eq_None_not_Some (asg !! x))), (proj2 (eq_None_not_Some (asg' !! x))); [done|by rewrite Hd'|by rewrite Hd].
Qed.

(** ** The prefix that is kept *)

(** ** What is settled below a creation number *)

Section settled.
Context p (Hp : wf_projection p) (checker : DirectChecker) (plan : BlockingPlan) (rejected : gmap (A * A) (list N)) (f : N).
Abbreviation nodes := (bp_ordered_nodes p).
Abbreviation kf := (partition_point (before_frontier p f) nodes).

(** The nodes that can block. *)
Definition blocks_with asg key y : Prop :=
  free asg y = true ∧ Checker.can_be_blocker checker p y = true ∧ key_of p checker y = Some key.

#[global] Instance blocks_with_dec asg key y : Decision (blocks_with asg key y).
Proof. unfold blocks_with. apply _. Defined.

Record settled asg index : Prop := {
  se_expected i x : nodes !! i = Some x → (creation p x < f)%N → asg !! x = Some (expected p checker plan rejected asg (take i nodes) x);
  se_index key : filter (λ y, before_frontier p f y = true) (default [] (index !! key)) = filter (blocks_with asg key) (take kf nodes)
}.

Lemma before_frontier_spec x : before_frontier p f x = true ↔ is_Some (bp_nodes p !! x) ∧ (creation p x < f)%N.
Proof. unfold before_frontier, creation. destruct (bp_nodes p !! x) as [r|]; [rewrite N.ltb_lt|]; naive_solver. Qed.

Lemma partition_take x : x ∈ take kf nodes ↔ is_Some (bp_nodes p !! x) ∧ (creation p x < f)%N.
Proof.
  rewrite <-(wp_nodes p Hp). pose proof (wp_sorted p Hp) as Hs. assert (∀ y, y ∈ nodes → is_Some (bp_nodes p !! y)) as Hin
    by (intros y; apply (wp_nodes p Hp)). revert Hs Hin. generalize nodes. intros l Hs Hin.
  induction Hs as [|y l Hs IH Hy]; [cbn; set_solver|]. cbn [partition_point]. rewrite Forall_forall in Hy.
  destruct (before_frontier p f y) eqn:E; cbn [take].
  - apply before_frontier_spec in E. rewrite !elem_of_cons, IH by (intros z Hz; apply Hin; by right). naive_solver.
  - split; [by intros ?%not_elem_of_nil|]. intros [[->|Hx]%elem_of_cons Hc].
    + apply not_true_iff_false in E. destruct E. apply before_frontier_spec. split; [apply Hin; left|done].
    + apply not_true_iff_false in E. destruct E. apply before_frontier_spec. split; [apply Hin; left|]. specialize (Hy x Hx). lia.
Qed.

Lemma partition_le : (kf ≤ length nodes)%nat.
Proof. induction nodes as [|x l IH]; cbn; [done|]. destruct (before_frontier p f x); lia. Qed.

Lemma filter_before (P : A → Prop) `{∀ x, Decision (P x)} :
  filter (λ x, before_frontier p f x = true) (filter P nodes) = filter P (take kf nodes).
Proof.
  rewrite list_filter_filter. rewrite <-(take_drop kf nodes) at 1. rewrite filter_app, (filter_nil_in _ (drop kf nodes)), app_nil_r.
  - apply filter_ext_in. intros x Hx%partition_take. rewrite before_frontier_spec. tauto.
  - intros x Hx [Hb%before_frontier_spec%partition_take _]. apply list_elem_of_lookup in Hx as [j Hj], Hb as [i Hi].
    rewrite lookup_drop in Hj. apply lookup_take_Some in Hi as [Hi ?]. pose proof (NoDup_lookup _ _ _ _ (ordered_nodes_NoDup p Hp) Hi Hj). lia.
Qed.

Lemma labelling_settled asg index : labelling p checker plan rejected (length nodes) asg index → settled asg index.
Proof.
  intros [_ Hexp Hindex]. split.
  - intros i x Hi _. apply Hexp; [by eapply lookup_lt_Some|done].
  - intros key. rewrite Hindex, take_ge by done. apply filter_before.
Qed.

Lemma keep_index key index :
  default [] (filter (λ e, e.2 ≠ []) (filter (λ node, before_frontier p f node = true) <$> index) !! key) =
  filter (λ node, before_frontier p f node = true) (default [] (index !! key)).
Proof.
  destruct (index !! key) as [l|] eqn:E; cbn.
  - destruct (decide (filter (λ node, before_frontier p f node = true) l = [])) as [El|El].
    + rewrite El. rewrite (proj2 (map_lookup_filter_None _ _ _)); [done|]. right. rewrite lookup_fmap, E. intros ? [= <-]. cbn. tauto.
    + erewrite (proj2 (map_lookup_filter_Some _ _ _ _)); [done|]. split; [by rewrite lookup_fmap, E|done].
  - rewrite (proj2 (map_lookup_filter_None _ _ _)); [done|]. left. by rewrite lookup_fmap, E.
Qed.

(** What is settled below [f] labels the nodes below it. *)
Lemma settled_keep asg index asg' index' :
  settled asg index → keep_prefix p asg index f = (asg', index') → labelling p checker plan rejected kf asg' index'.
Proof.
  intros [Hexp Hindex] [= <- <-].
  assert (∀ x, x ∈ take kf nodes → filter (λ e, before_frontier p f e.1 = true) asg !! x = asg !! x) as Hold.
  { intros x Hx%partition_take%before_frontier_spec. destruct (asg !! x) as [a|] eqn:E; [by apply map_lookup_filter_Some|].
    apply map_lookup_filter_None. by left. }
  split.
  - intros x. split; [by intros [a [_ Hx%before_frontier_spec%partition_take]%map_lookup_filter_Some]|].
    intros Hx. rewrite Hold by done. pose proof Hx as [_ Hc]%partition_take. apply elem_of_take in Hx as (i & Hi & _). by rewrite (Hexp i).
  - intros i x Hi Hx. assert (x ∈ take kf nodes) as Hin by (apply elem_of_take; eauto).
    rewrite Hold, (Hexp i) by (done || by apply partition_take). f_equal. apply (expected_ext p Hp); [done|].
    intros y (j & Hj & ?)%elem_of_take. symmetry. apply Hold, elem_of_take. exists j. split; [done|lia].
  - intros key. rewrite keep_index, Hindex. apply filter_ext_in. intros y Hy. unfold blocks_with, free. by rewrite Hold.
Qed.
End settled.

Section transfer.
Context p q (Hp : wf_projection p) (Hq : wf_projection q) (checker : DirectChecker) (plan : BlockingPlan) (f : N).
Context (rejected rejected' : gmap (A * A) (list N)) (Hag : agree_below f p q).
Context (Hrej : ∀ x y, (creation p x < f)%N → is_rejected p rejected x y = is_rejected q rejected' x y).

Definition inside x : Prop := is_Some (bp_nodes p !! x) ∧ (creation p x < f)%N.

Lemma inside_record x : inside x → ∃ r r', bp_nodes p !! x = Some r ∧ bp_nodes q !! x = Some r' ∧
  nr_creation_id r' = nr_creation_id r ∧ nr_kind r' = nr_kind r ∧ nr_lifecycle r' = nr_lifecycle r ∧ nr_parent r' = nr_parent r.
Proof.
  intros [[r Hr] Hc]. unfold creation in Hc. rewrite Hr in Hc. destruct (ag_nodes f p q Hag x r Hr Hc) as (r' & Hr' & ?). eauto.
Qed.

Lemma inside_creation x : inside x → creation q x = creation p x.
Proof. intros (r & r' & Hr & Hr' & E & _)%inside_record. unfold creation. by rewrite Hr, Hr'. Qed.

Lemma inside_parent x : inside x → parent_of q x = parent_of p x.
Proof. intros (r & r' & Hr & Hr' & _ & _ & _ & E)%inside_record. unfold parent_of. by rewrite Hr, Hr'. Qed.

Lemma parent_inside x y : inside x → parent_of p x = Some y → inside y.
Proof. intros [_ Hc] Hy. destruct (wp_parent p Hp x y Hy). split; [done|lia]. Qed.

Lemma inside_eligible x : inside x → Checker.eligible checker q x = Checker.eligible checker p x.
Proof.
  intros Hx. destruct (inside_record x Hx) as (r & r' & Hr & Hr' & _ & Ek & El & Ep).
  unfold Checker.eligible. rewrite Hr, Hr'. unfold Checker.active_tree at 1 3. rewrite Ek, El.
  destruct (negb _); [done|]. destruct (negb _); [done|]. rewrite Ep. destruct (nr_parent r) as [y|] eqn:Ey; [|done]. cbn.
  assert (inside y) as Hy by (apply (parent_inside x); [done|]; unfold parent_of; by rewrite Hr).
  destruct (inside_record y Hy) as (s & s' & Hs & Hs' & _ & Ek' & El' & _). rewrite Hs, Hs'. unfold Checker.active_tree. by rewrite Ek', El'.
Qed.

Lemma inside_signature x : inside x → Checker.signature checker q x = Checker.signature checker p x.
Proof.
  intros Hx. pose proof (inside_parent x Hx) as Epar. unfold Checker.signature, Checker.can_be_blocked, Checker.parent.
  rewrite inside_eligible by done. fold (parent_of p x) (parent_of q x). rewrite Epar.
  assert (∀ core, Projection.concept_label q x core = Projection.concept_label p x core) as Hc by (intros; by apply (ag_concepts f p q Hag); destruct Hx).
  destruct (reject_if _ _) as [[]| |]; [|done..]. rewrite !bind_Ok_l, !Hc. destruct (parent_of p x) as [y|] eqn:Ey; [|done].
  destruct (parent_inside x y Hx Ey) as [Hy1 Hy2], Hx as [Hx1 Hx2]. destruct (dc_kind checker); cbn [ok_or]; rewrite ?bind_Ok_l;
    by rewrite ?(ag_concepts f p q Hag y), ?(ag_roles f p q Hag y x), ?(ag_roles f p q Hag x y).
Qed.

Lemma inside_ancestors n x : inside x → ancestors q n x = ancestors p n x.
Proof.
  revert x. induction n as [|n IH]; intros x Hx; [done|]. cbn. rewrite inside_parent by done.
  destruct (parent_of p x) as [y|] eqn:Ey; [|done]. f_equal. apply IH. by eapply parent_inside.
Qed.

Abbreviation kp := (partition_point (before_frontier p f) (bp_ordered_nodes p)).
Abbreviation kq := (partition_point (before_frontier q f) (bp_ordered_nodes q)).

Lemma q_inside x : is_Some (bp_nodes q !! x) ∧ (creation q x < f)%N ↔ inside x.
Proof.
  split.
  - intros [[r Hr] Hc]. unfold creation in Hc. rewrite Hr in Hc. by apply (ag_back f p q Hag x r).
  - intros Hx. rewrite (inside_creation x Hx). destruct (inside_record x Hx) as (r & r' & _ & -> & _), Hx. done.
Qed.

Lemma same_prefix : take kp (bp_ordered_nodes p) = take kq (bp_ordered_nodes q).
Proof.
  assert (∀ x, x ∈ take kp (bp_ordered_nodes p) ↔ x ∈ take kq (bp_ordered_nodes q)) as Hin.
  { intros x. rewrite (partition_take p Hp f), (partition_take q Hq f), q_inside. done. }
  apply (StronglySorted_unique_strong (λ x y, creation p x < creation p y)%N).
  - intros x y _ _ ??. lia.
  - apply StronglySorted_take, (wp_sorted p Hp).
  - eapply StronglySorted_weaken; [|apply StronglySorted_take, (wp_sorted q Hq)]. intros x y Hx Hy.
    apply (partition_take q Hq f), q_inside in Hx, Hy. cbn beta. by rewrite !inside_creation.
  - apply NoDup_Permutation; [apply NoDup_take, ordered_nodes_NoDup, Hp|apply NoDup_take, ordered_nodes_NoDup, Hq|done].
Qed.

Lemma inside_expected asg asg' i x :
  take kp (bp_ordered_nodes p) !! i = Some x → (∀ y, inside y → asg' !! y = asg !! y) →
  expected q checker plan rejected' asg' (take i (bp_ordered_nodes p)) x = expected p checker plan rejected asg (take i (bp_ordered_nodes p)) x.
Proof.
  intros Hi Hasg. assert (inside x) as Hx by (apply (partition_take p Hp f); by eapply list_elem_of_lookup_2).
  pose proof Hi as Hi'. rewrite same_prefix in Hi'. apply lookup_take_Some in Hi as [Hi Hik], Hi' as [Hi' _].
  assert (i ≤ size (bp_nodes p))%nat by (rewrite <-(ordered_size p Hp); apply lookup_lt_Some in Hi; lia).
  assert (i ≤ size (bp_nodes q))%nat by (rewrite <-(ordered_size q Hq); apply lookup_lt_Some in Hi'; lia).
  assert (candidates q plan (take i (bp_ordered_nodes p)) x = candidates p plan (take i (bp_ordered_nodes p)) x) as Hcand.
  { unfold candidates. case_bool_decide; [|done]. rewrite inside_ancestors by done. by apply (ancestors_fuel p Hp _ _ i). }
  unfold expected. rewrite inside_parent by done. destruct (parent_of p x) as [y|] eqn:Ey; [|done].
  unfold blocked_in, Checker.can_be_blocked. rewrite Hasg, inside_eligible by (done || by eapply parent_inside).
  destruct (match asg !! y with Some _ => _ | None => _ end); [done|]. destruct (Checker.eligible checker p x); [|done].
  unfold first_blocker. rewrite Hcand.
  rewrite (filter_ext_in _ (λ y, may_block p checker rejected asg x y = true)); [done|]. intros z Hz.
  assert (inside z) as Hzi.
  { assert (z ∈ take i (bp_ordered_nodes p)) as Hz'.
    { unfold candidates in Hz. case_bool_decide; [by eapply (ancestors_before p Hp)|done]. }
    apply (ordered_before p Hp i x z Hi) in Hz' as [? ?]. split; [done|]. destruct Hx. lia. }
  unfold may_block, free, key_of, Checker.can_be_blocker. rewrite Hasg, inside_eligible, !inside_signature, Hrej by (done || by destruct Hx). done.
Qed.

Lemma settled_transfer asg index : settled p checker plan rejected f asg index → settled q checker plan rejected' f asg index.
Proof.
  intros [Hexp Hindex]. split.
  - intros i x Hi Hc. assert (inside x) as Hx by (apply q_inside; split; [apply (wp_nodes q Hq); by eapply list_elem_of_lookup_2|done]).
    assert (i < kq)%nat as Hik.
    { pose proof (proj2 (partition_take q Hq f x) (proj2 (q_inside x) Hx)) as (j & Hj & ?)%elem_of_take.
      by rewrite (NoDup_lookup _ _ _ _ (ordered_nodes_NoDup q Hq) Hi Hj). }
    assert (take kp (bp_ordered_nodes p) !! i = Some x) as Hx' by (rewrite same_prefix; by rewrite lookup_take_lt).
    pose proof Hx' as [Hx'' Hik']%lookup_take_Some. rewrite (Hexp i x) by (done || by destruct Hx). f_equal. symmetry.
    replace (take i (bp_ordered_nodes q)) with (take i (bp_ordered_nodes p)); [by apply inside_expected|].
    pose proof (f_equal (take i) same_prefix) as E. rewrite !take_take, !Nat.min_l in E by lia. done.
  - intros key. rewrite <-same_prefix.
    rewrite (filter_ext_in _ (λ y, before_frontier p f y = true)), Hindex.
    + apply filter_ext_in. intros y Hy%(partition_take p Hp f). unfold blocks_with, key_of, Checker.can_be_blocker.
      by rewrite inside_eligible, inside_signature.
    + intros y _. by rewrite !before_frontier_spec, q_inside.
Qed.
End transfer.
End spec.
