(* ===== verification/BlockingInv.v ===== *)
(** * The invariant of the blocking manager

    Below the first creation number that is out of date the manager's assignments
    and index are those of a labelling of its last projection; invalidation and
    computation keep it so. *)

From S2P Require Import Prelude Order Errors Model Contracts Sha256 BlockingModel Projection BlockingChecker BlockingManager ProjectionSpec BlockingSpec.
Import Blocking Manager Ops.

Section inv.
Context {A : Type} `{OrdLaws A} `{!EqDecision A} `{!Countable A}.
Implicit Types (p q : BlockingProjection A) (m : BlockingManager A) (x y : A).

(** ** The audit of a labelling *)

Section audit.
Context p (Hp : wf_projection p) (checker : DirectChecker) (plan : BlockingPlan) (rejected : gmap (A * A) (list N)).
Abbreviation nodes := (bp_ordered_nodes p).

Lemma expected_node asg earlier x : ba_node (expected p checker plan rejected asg earlier x) = x.
Proof. unfold expected. by repeat case_match. Qed.

(** A blocker is one of the earlier nodes. *)
Lemma expected_blocker asg i x y :
  nodes !! i = Some x → ba_blocker (expected p checker plan rejected asg (take i nodes) x) = Some y → y ∈ take i nodes.
Proof.
  intros Hi. unfold expected. destruct (parent_of p x) as [z|] eqn:Ez; [|done].
  destruct (blocked_in asg z); [intros [= <-]; by eapply parent_before|]. destruct (Checker.can_be_blocked checker p x); [|done].
  destruct (first_blocker _ _ _ _ _ _ _) as [b|] eqn:Eb; [|done]. intros [= <-]. unfold first_blocker in Eb.
  apply head_Some_elem_of, list_elem_of_filter in Eb as [_ Hb]. unfold candidates in Hb. case_bool_decide; [by eapply ancestors_before|done].
Qed.

Lemma labelling_size asg index : labelling p checker plan rejected (length nodes) asg index → size asg = length nodes.
Proof.
  intros [Hdom _ _]. rewrite <-(proj2 (size_list_to_set_NoDup _) (ordered_nodes_NoDup p Hp)), <-size_dom. f_equal.
  apply set_eq. intros x. by rewrite elem_of_list_to_set, elem_of_dom, Hdom, take_ge.
Qed.

Lemma labelling_structural m :
  bm_last_projection m = Some p → bm_checker m = checker →
  labelling p checker plan rejected (length nodes) (bm_assignments m) (bm_blocker_index m) → check_structural_invariants m = Ok tt.
Proof.
  intros Hlast Hchk Hl. unfold check_structural_invariants. rewrite Hlast. cbn [ok_or]. rewrite bind_Ok_l.
  rewrite (labelling_size _ _ Hl), bool_decide_false by (intros []; done). cbn [reject_if]. rewrite bind_Ok_l.
  destruct Hl as [Hdom Hexp Hindex].
  rewrite (proj2 (iterM_Ok (check_assignment p) (assignments m))).
  - rewrite bind_Ok_l. apply iterM_Ok, Forall_forall. intros l [key Hkey]%elem_of_btree_values. apply iterM_Ok, Forall_forall. intros y Hy.
    specialize (Hindex key). rewrite Hkey in Hindex. cbn in Hindex. rewrite Hindex in Hy. apply list_elem_of_filter in Hy as [(Hf & Hc & _) _].
    unfold check_indexed, free in *. destruct (bm_assignments m !! y) as [a|]; [|done]. cbn. rewrite Hchk, Hc. by apply negb_true_iff in Hf as ->.
  - apply Forall_forall. intros a Ha. unfold assignments in Ha. rewrite Hlast in Ha. apply list_elem_of_omap in Ha as (x & Hx & Ha).
    apply list_elem_of_lookup in Hx as [i Hi]. rewrite (Hexp i x) in Ha by (done || by eapply lookup_lt_Some). injection Ha as <-.
    unfold check_assignment. rewrite expected_node. assert (is_Some (bp_nodes p !! x)) as [r Hr].
    { apply (wp_nodes p Hp). by eapply list_elem_of_lookup_2. }
    rewrite Hr. cbn [ok_or]. rewrite bind_Ok_l. destruct (ba_blocker _) as [y|] eqn:Ey; [|done].
    apply (expected_blocker _ i x y Hi), (ordered_before p Hp i x y Hi) in Ey as [[s Hs] Hc]. rewrite Hs. cbn [ok_or]. rewrite bind_Ok_l.
    unfold creation in Hc. rewrite Hr, Hs in Hc. unfold reject_if. by rewrite (proj2 (N.leb_gt _ _) Hc).
Qed.
End audit.

(** ** The invariant *)

Definition within (f : N) (d : option N) : Prop := match d with None => True | Some n => (f <= n)%N end.

Record exact m : Prop := {
  ex_kind : dc_kind (bm_checker m) = pl_direct_checker_kind (bm_plan m);
  ex_cache : uncached (bm_plan m) (bm_cache m);
  ex_wf p : bm_last_projection m = Some p → wf_projection p;
  ex_rejected p e d : bm_last_projection m = Some p → bm_rejected_blocks m !! e = Some d → d = bp_state_digest p;
  ex_settled p f : bm_last_projection m = Some p → within f (bm_dirty_creation_id m) →
    settled p (bm_checker m) (bm_plan m) (bm_rejected_blocks m) f (bm_assignments m) (bm_blocker_index m);
  ex_labelling p : bm_last_projection m = Some p → bm_dirty_creation_id m = None →
    labelling p (bm_checker m) (bm_plan m) (bm_rejected_blocks m) (length (bp_ordered_nodes p)) (bm_assignments m) (bm_blocker_index m)
}.

(** Managers that differ in their traces. *)
Definition traced m m' : Prop := ∃ t, m' = m <| bm_trace := t |>.

Lemma traced_refl m : traced m m.
Proof. exists (bm_trace m). by destruct m. Qed.

Lemma traced_trans m m' m'' : traced m m' → traced m' m'' → traced m m''.
Proof. intros [t ->] [t' ->]. by exists t'. Qed.

Lemma record_traced event node blocker digest details m : traced m (record event node blocker digest details m).
Proof. unfold record. case_match; [apply traced_refl|]. by eexists. Qed.

Lemma record_changes_traced digest changes m : traced m (foldl (record_change digest) m changes).
Proof.
  revert m. induction changes as [|c changes IH]; intros m; [apply traced_refl|]. cbn. eapply traced_trans; [|apply IH].
  unfold record_change. destruct (ac_after c); [apply record_traced|apply traced_refl].
Qed.

Lemma exact_traced m m' : traced m m' → exact m → exact m'.
Proof. intros [t ->] [????? ?]. by split. Qed.

Lemma invalidate_creation_exact n node m : exact m → exact (invalidate_creation n node m).
Proof.
  intros [Hk Hc Hw Hr Hs Hl]. unfold invalidate_creation. eapply exact_traced; [apply record_traced|]. split; cbn; try done.
  intros p f Hlast Hf. apply (Hs p f Hlast). destruct (bm_dirty_creation_id m); cbn in *; [lia|done].
Qed.

Lemma invalidate_node_exact x m : exact m → exact (invalidate_node x m).
Proof. apply invalidate_creation_exact. Qed.

Lemma invalidate_all_exact m : exact m → exact (invalidate_all m).
Proof. apply invalidate_creation_exact. Qed.

Lemma notify_fact_change_exact fact m : exact m → exact (notify_fact_change fact m).
Proof. unfold notify_fact_change. case_match; [apply invalidate_creation_exact|done]. Qed.

Lemma new_exact plan checker limits max m : new plan checker None limits max = Ok m → exact m.
Proof.
  intros Hm. unfold new in Hm. inv_ok. match goal with E : bool_decide _ = false |- _ => apply bool_decide_eq_false in E end.
  split; cbn; try done; [by apply dec_stable|by right].
Qed.

(** ** What agrees everywhere *)

Lemma creation_bound p (Hp : wf_projection p) : ∃ f, ∀ x, is_Some (bp_nodes p !! x) → (creation p x < f)%N.
Proof.
  assert (∀ l : list A, ∃ f, ∀ x, x ∈ l → (creation p x < f)%N) as Hl.
  { induction l as [|x l [f Hf]]; [exists 0; by intros ? ?%not_elem_of_nil|]. exists (N.max f (creation p x + 1)).
    intros y [->|Hy]%elem_of_cons; [lia|]. specialize (Hf y Hy). lia. }
  destruct (Hl (bp_ordered_nodes p)) as [f Hf]. exists f. intros x Hx. by apply Hf, (wp_nodes p Hp).
Qed.

Lemma settled_labelling p (Hp : wf_projection p) checker plan rejected asg index :
  (∀ f, settled p checker plan rejected f asg index) → (∀ x, is_Some (asg !! x) ↔ is_Some (bp_nodes p !! x)) →
  (∀ key x, x ∈ default [] (index !! key) → is_Some (bp_nodes p !! x)) →
  labelling p checker plan rejected (length (bp_ordered_nodes p)) asg index.
Proof.
  intros Hs Hdom Hin. destruct (creation_bound p Hp) as [f Hf]. split.
  - intros x. by rewrite Hdom, take_ge, (wp_nodes p Hp).
  - intros i x _ Hi. apply (se_expected p checker plan rejected f _ _ (Hs f)); [done|]. apply Hf, (wp_nodes p Hp). by eapply list_elem_of_lookup_2.
  - intros key. pose proof (se_index p checker plan rejected f _ _ (Hs f) key) as Hi. rewrite <-(filter_before p Hp f) in Hi.
    rewrite !(filter_all_in (λ y, before_frontier p f y = true)) in Hi.
    + by rewrite take_ge.
    + intros x [_ Hx]%list_elem_of_filter. apply before_frontier_spec. apply (wp_nodes p Hp) in Hx. auto.
    + intros x Hx%Hin. apply before_frontier_spec. auto.
Qed.

(** ** Computation *)

(** [q] may follow [p]: equal digests mean equal projections, and rejections are
    given up with the digest they were made for. *)
Definition continues m p q : Prop :=
  (bp_state_digest q = bp_state_digest p → Projection.earliest_difference p q = None) ∧
  (bp_state_digest q = bp_state_digest p ∨ bm_rejected_blocks m = ∅).

Definition current (rejected : gmap (A * A) (list N)) q : gmap (A * A) (list N) := filter (λ e, e.2 = bp_state_digest q) rejected.

Lemma rejected_agree m p q x y :
  continues m p q → is_rejected p (bm_rejected_blocks m) x y = is_rejected q (current (bm_rejected_blocks m) q) x y.
Proof.
  intros [_ Hd]. unfold is_rejected, current. apply bool_decide_ext. destruct Hd as [Hd| ->].
  - rewrite <-Hd. split; [intros Hr; by apply map_lookup_filter_Some|by intros [? _]%map_lookup_filter_Some].
  - rewrite map_filter_empty, !lookup_empty. done.
Qed.

Lemma current_same m p q :
  exact m → bm_last_projection m = Some p → bp_state_digest q = bp_state_digest p → current (bm_rejected_blocks m) q = bm_rejected_blocks m.
Proof.
  intros Hm Hlast Hd. apply map_eq. intros e. unfold current. destruct (bm_rejected_blocks m !! e) as [d|] eqn:E.
  - apply map_lookup_filter_Some. split; [done|]. rewrite Hd. cbn. by eapply ex_rejected.
  - apply map_lookup_filter_None. by left.
Qed.

Section compute.
Context m p q (Hm : exact m) (Hlast : bm_last_projection m = Some p) (Hq : wf_projection q) (Hcont : continues m p q).

(** Below the frontier nothing changes. *)
Lemma continue_settled f :
  within f (bm_dirty_creation_id m) → above f (Projection.earliest_difference p q) →
  settled q (bm_checker m) (bm_plan m) (current (bm_rejected_blocks m) q) f (bm_assignments m) (bm_blocker_index m).
Proof.
  intros Hf Hd. pose proof (ex_wf m Hm p Hlast) as Hp. apply (settled_transfer p q Hp Hq _ _ f (bm_rejected_blocks m)).
  - by apply earliest_agree.
  - intros x y _. by apply rejected_agree.
  - by apply (ex_settled m Hm).
Qed.

Lemma continue_labelling :
  bm_dirty_creation_id m = None → bp_state_digest q = bp_state_digest p →
  labelling q (bm_checker m) (bm_plan m) (bm_rejected_blocks m) (length (bp_ordered_nodes q)) (bm_assignments m) (bm_blocker_index m).
Proof.
  intros Hdirty Hd. pose proof (ex_wf m Hm p Hlast) as Hp. pose proof (proj1 Hcont Hd) as Hnone.
  assert (∀ f, agree_below f p q) as Hag by (intros f; apply earliest_agree; [done..|]; by rewrite Hnone).
  assert (∀ x, is_Some (bp_nodes p !! x) ↔ is_Some (bp_nodes q !! x)) as Hnodes.
  { intros x. split; intros [r Hr].
    - destruct (ag_nodes _ _ _ (Hag (nr_creation_id r + 1)%N) x r Hr) as (r' & Hr' & _); [lia|]. by rewrite Hr'.
    - by eapply (ag_back _ _ _ (Hag (nr_creation_id r + 1)%N) x r Hr); lia. }
  destruct (ex_labelling m Hm p Hlast Hdirty) as [Hdom _ Hindex]. apply (settled_labelling q Hq).
  - intros f. rewrite <-(current_same m p q) by done. apply continue_settled; [by rewrite Hdirty|by rewrite Hnone].
  - intros x. by rewrite Hdom, take_ge, (wp_nodes p Hp), Hnodes.
  - intros key x. rewrite Hindex, take_ge by done. intros [_ Hx]%list_elem_of_filter. by apply Hnodes, (wp_nodes p Hp).
Qed.
End compute.

Context {C : Type} `{BlockingControl C} (Hpoll : polls (C:=C)).

Abbreviation MM X := (st (C * BlockingManager A) BlockingError X).

Lemma meets_control {X} (o : st C BlockingError X) (s : C * BlockingManager A) (Q : X → C → Prop) (R : BlockingError → Prop) :
  meets o s.1 Q (λ e _, R e) → meets (on_control o) s (λ v s', Q v s'.1 ∧ s'.2 = s.2) (λ e _, R e).
Proof. unfold meets, on_control. destruct (o s.1) as [[v|e|] c]; auto. Qed.

Lemma meets_restoring {X} before (o : MM X) s (Q : X → C * BlockingManager A → Prop) (R : BlockingError → Prop) :
  meets o s Q (λ e _, R e) → meets (restoring before o) s Q (λ e s', s'.2 = before ∧ R e).
Proof. unfold meets, restoring. destruct (o s) as [[v|e|] s']; auto. Qed.

Lemma recompute_prefix_meets q (Hq : wf_projection q) prefix k asg index (s : C * BlockingManager A) :
  match prefix with
  | None => k = O ∧ asg = ∅ ∧ index = ∅
  | Some (previous, previous_index, frontier) =>
      keep_prefix q previous previous_index frontier = (asg, index) ∧ partition_point (before_frontier q frontier) (bp_ordered_nodes q) = k
  end → labelling q (bm_checker s.2) (bm_plan s.2) (bm_rejected_blocks s.2) k asg index → (k ≤ length (bp_ordered_nodes q))%nat →
  uncached (bm_plan s.2) (bm_cache s.2) → dc_kind (bm_checker s.2) = pl_direct_checker_kind (bm_plan s.2) →
  meets (recompute q prefix) s
    (λ r s', s'.2 = s.2 ∧ labelling q (bm_checker s.2) (bm_plan s.2) (bm_rejected_blocks s.2) (length (bp_ordered_nodes q)) (rn_assignments r) (rn_index r))
    (λ e _, stopped (C:=C) (bm_limits s.2) (N.of_nat (length (bp_ordered_nodes q)) * N.of_nat (length (bp_ordered_nodes q))) e).
Proof.
  intros Hpre Hl Hk Hc Hkind.
  pose proof (recompute_meets q Hq _ _ _ (bm_limits s.2) Hpoll prefix k asg index (s.1, bm_cache s.2) Hpre Hl Hk Hc Hkind) as Hr.
  unfold meets, recompute in *. destruct (recompute_internal _ _ _ _ _ _ _) as [[r|e|] [c cache]]; [|done..].
  destruct Hr as [Hcache Hr]. cbn in Hcache. subst cache. split; [by destruct s as [? []]|done].
Qed.

(** Every node looks at no more candidates than there are nodes. *)
Definition limit_of q : N := N.of_nat (length (bp_ordered_nodes q)) * N.of_nat (length (bp_ordered_nodes q)).

(** The manager after a computation on [q]. *)
Record computed m q m' : Prop := {
  cm_checker : bm_checker m' = bm_checker m;
  cm_plan : bm_plan m' = bm_plan m;
  cm_limits : bm_limits m' = bm_limits m;
  cm_cache : bm_cache m' = bm_cache m;
  cm_rejected : bm_rejected_blocks m' = current (bm_rejected_blocks m) q;
  cm_last : bm_last_projection m' = Some q;
  cm_dirty : bm_dirty_creation_id m' = None;
  cm_validated : bm_validated_digest m' = None ∨
    bm_validated_digest m' = bm_validated_digest m ∧ bp_state_digest <$> bm_last_projection m = Some (bp_state_digest q);
  cm_labelling : labelling q (bm_checker m') (bm_plan m') (bm_rejected_blocks m') (length (bp_ordered_nodes q)) (bm_assignments m') (bm_blocker_index m')
}.

Lemma computed_traced m q m' m'' : traced m' m'' → computed m q m' → computed m q m''.
Proof. intros [t ->] []. by split. Qed.

Lemma computed_exact m q m' : exact m → wf_projection q → computed m q m' → exact m'.
Proof.
  intros Hm Hq [Hc Hp _ Hca Hr Hl Hd _ Hlab]. split.
  - rewrite Hc, Hp. apply (ex_kind m Hm).
  - rewrite Hp, Hca. apply (ex_cache m Hm).
  - intros p Hlast. by simplify_eq/=.
  - intros p e d Hlast He. rewrite Hl in Hlast. injection Hlast as <-. rewrite Hr in He. by apply map_lookup_filter_Some in He as [_ ?].
  - intros p f Hlast _. rewrite Hl in Hlast. injection Hlast as <-. by apply labelling_settled.
  - intros p Hlast _. rewrite Hl in Hlast. by injection Hlast as <-.
Qed.

Lemma compute_inner_meets m q force changed earliest c :
  exact m → wf_projection q → (changed = false → bp_state_digest <$> bm_last_projection m = Some (bp_state_digest q)) →
  (force = false → (0 < earliest)%N →
    settled q (bm_checker m) (bm_plan m) (current (bm_rejected_blocks m) q) earliest (bm_assignments m) (bm_blocker_index m)) →
  meets (compute_inner q m force changed earliest) (c, m) (λ r s', computed m q s'.2 ∧ cr_state_digest r = Sha.hex (bp_state_digest q))
    (λ e _, stopped (C:=C) (bm_limits m) (limit_of q) e).
Proof.
  intros Hm Hq Hchanged Hset. unfold compute_inner.
  eapply meets_bind; [apply meets_control, (meets_blocking_poll (bm_limits m) _ _ (λ _ _, True)); done|]. intros [] [c1 m1] [_ Hm1]. cbn in Hm1. subst m1.
  eapply meets_bind; [by apply (meets_modify _ _ (λ _ s', s' = (c1, m <| bm_rejected_blocks := current (bm_rejected_blocks m) q |>)))|].
  intros [] s' ->.
  set (m2 := m <| bm_rejected_blocks := current (bm_rejected_blocks m) q |> <| bm_assignments := ∅ |> <| bm_blocker_index := ∅ |>).
  eapply meets_bind; [by apply (meets_modify _ _ (λ _ s', s' = (c1, m2)))|]. intros [] s' ->.
  set (prefix := if negb force && (0 <? earliest)%N then _ else _).
  assert (∃ k asg index, match prefix with
    | None => k = O ∧ asg = ∅ ∧ index = ∅
    | Some (previous, previous_index, frontier) =>
        keep_prefix q previous previous_index frontier = (asg, index) ∧ partition_point (before_frontier q frontier) (bp_ordered_nodes q) = k
    end ∧ labelling q (bm_checker m) (bm_plan m) (current (bm_rejected_blocks m) q) k asg index ∧ (k ≤ length (bp_ordered_nodes q))%nat)
    as (k & asg & index & Hpre & Hl & Hk).
  { unfold prefix. destruct (negb force && (0 <? earliest)%N) eqn:E.
    - apply andb_true_iff in E as [Ef%negb_true_iff Ee%N.ltb_lt]. destruct (keep_prefix q (bm_assignments m) (bm_blocker_index m) earliest) as [asg index] eqn:Ek.
      eexists _, asg, index. split; [done|]. split; [|apply partition_le]. eapply settled_keep; [done|by apply Hset|done].
    - exists O, ∅, ∅. split; [done|]. split; [apply labelling_empty|lia]. }
  eapply meets_bind; [apply (recompute_prefix_meets q Hq prefix k asg index (c1, m2) Hpre Hl Hk); [apply (ex_cache m Hm)|apply (ex_kind m Hm)]|].
  intros run [c3 m3] [Hm3 Hrun]. cbn in Hm3. subst m3. clearbody prefix. clear Hpre Hl Hk.
  eapply meets_bind with (Q := λ _ s', ∃ d, s'.2 = m2 <| bm_validated_digest := d |> ∧
    (d = None ∨ d = bm_validated_digest m ∧ bp_state_digest <$> bm_last_projection m = Some (bp_state_digest q))).
  { apply meets_modify. cbn. destruct changed; [exists None; auto|]. exists (bm_validated_digest m). split; [by destruct m|auto]. }
  intros [] [c4 m4] (d & Hm4 & Hd). cbn in Hm4. subst m4.
  eapply meets_bind with (Q := λ _ s', computed m q s'.2); [by apply meets_modify|]. intros [] [c5 m5] Hm5.
  eapply meets_bind with (Q := λ _ s', computed m q s'.2); [apply meets_modify; eapply computed_traced; [apply record_changes_traced|done]|].
  intros [] [c6 m6] Hm6.
  eapply meets_bind with (Q := λ _ s', computed m q s'.2); [apply meets_modify; eapply computed_traced; [apply record_traced|done]|].
  intros [] [c7 m7] Hm7.
  eapply meets_bind with (Q := λ _ s', s' = (c7, m7)); [|by intros [] s' ->].
  unfold meets, reads. cbn [fst snd] in *. rewrite (labelling_structural q Hq (bm_checker m7) (bm_plan m7) (bm_rejected_blocks m7)); [done|..]; by destruct Hm7.
Qed.

Lemma compute_meets {S} `{BlockingStateRead S A} (state : S) m q force c c1 :
  exact m → wf_projection q → (∀ p, bm_last_projection m = Some p → continues m p q) →
  Projection.from_state state (dc_vocabulary (bm_checker m)) (bm_limits m) c = (Ok q, c1) →
  meets (compute state force) (c, m) (λ r s', computed m q s'.2 ∧ exact s'.2 ∧ cr_state_digest r = Sha.hex (bp_state_digest q))
    (λ e s', s'.2 = m ∧ stopped (C:=C) (bm_limits m) (limit_of q) e).
Proof.
  intros Hm Hq Hcont Hfrom. unfold compute. eapply meets_bind with (Q := λ v s', v = m ∧ s' = (c, m)); [done|]. intros v s' [-> ->].
  eapply meets_bind with (Q := λ v s', v = q ∧ s' = (c1, m)). { unfold meets, on_control. cbn [fst snd]. by rewrite Hfrom. }
  intros v s' [-> ->]. case_match eqn:Efast.
  - rewrite !andb_true_iff, !bool_decide_eq_true, negb_true_iff in Efast. destruct Efast as [[-> Hdirty] Hsame].
    destruct (bm_last_projection m) as [p|] eqn:Hlast; [|done]. injection Hsame as Hd.
    pose proof (continue_labelling m p q Hm Hlast Hq (Hcont p eq_refl) Hdirty (eq_sym Hd)) as Hl.
    assert (computed m q (m <| bm_last_projection := Some q |>)) as Hc.
    { split; cbn; try done; [by erewrite current_same|]. right. split; [done|]. by rewrite Hlast, <-Hd. }
    eapply meets_bind with (Q := λ _ s', s'.2 = m <| bm_last_projection := Some q |>); [by apply meets_modify|]. intros [] s' Hs'. apply meets_ret.
    rewrite Hs'. split; [done|]. split; [by eapply computed_exact|done].
  - eapply meets_impl; [apply (meets_restoring m _ _ _ (stopped (C:=C) (bm_limits m) (limit_of q))), compute_inner_meets; [done|done| |]| |done].
    { intros Hsame%negb_false_iff%bool_decide_eq_true. done. }
    2: { intros r s' [Hc Hr]. split; [done|]. split; [by eapply computed_exact|done]. }
    intros -> Hpos. cbn [orb] in *. destruct (bm_last_projection m) as [p|] eqn:Hlast; cbn [fmap option_fmap option_map] in *.
    2: { rewrite bool_decide_true in Hpos by done. lia. }
    rewrite bool_decide_false in Hpos |- * by done. cbn [mbind option_bind] in *.
    apply (continue_settled m p q Hm Hlast Hq (Hcont p eq_refl)); destruct (bm_dirty_creation_id m) as [n|], (Projection.earliest_difference p q) as [n'|];
      cbn in *; try lia; unfold above; intros; simplify_eq/=; lia.
Qed.

(** An error leaves the manager as it was. *)
Lemma compute_error {S} `{BlockingStateRead S A} (state : S) force (s s' : C * BlockingManager A) e :
  compute state force s = (Err e, s') → s'.2 = s.2.
Proof.
  unfold compute. destruct s as [c m]. unfold mbind at 1, st_bind at 1, gets at 1. cbn [fst snd]. unfold mbind at 1, st_bind at 1, on_control at 1. cbn [fst snd].
  destruct (Projection.from_state _ _ _ c) as [[q|e'|] c1]; [|by intros [= <- <-]|done]. case_match; [done|].
  unfold restoring. destruct (compute_inner _ _ _ _ _ _) as [[r|e'|] s2]; [done|by intros [= <- <-]|done].
Qed.

(** The audit by recomputation finds nothing. *)
Lemma check_invariants_meets m p c :
  exact m → bm_last_projection m = Some p → bm_dirty_creation_id m = None →
  meets (check_invariants m) c (λ _ _, True) (λ e _, stopped (C:=C) (bm_limits m) (limit_of p) e).
Proof.
  intros Hm Hlast Hdirty. pose proof (ex_wf m Hm p Hlast) as Hp. pose proof (ex_labelling m Hm p Hlast Hdirty) as Hl.
  unfold check_invariants. rewrite (labelling_structural p Hp _ _ _ m Hlast eq_refl Hl).
  eapply meets_bind with (Q := λ _ s', s' = c); [done|]. intros [] s' ->.
  eapply meets_bind with (Q := λ v _, v = assignments m).
  - unfold reference_assignments, assignments. rewrite Hlast.
    pose proof (recompute_meets p Hp (bm_checker m) (bm_plan m) (bm_rejected_blocks m) (bm_limits m) Hpoll None O ∅ ∅ (c, bm_cache m)
      ltac:(done) ltac:(apply labelling_empty) ltac:(lia) (ex_cache m Hm) (ex_kind m Hm)) as Hr.
    unfold meets in *. destruct (recompute_internal _ _ _ _ _ _ _) as [[r|e|] [c' cache]]; cbn; [|done..].
    destruct Hr as [_ Hr]. by rewrite (labelling_unique p Hp _ _ _ _ _ _ _ _ Hl Hr).
  - intros v s' ->. by rewrite bool_decide_false by (intros []; done).
Qed.
End inv.

(** * The gate before a model is reported

    With validated blocking a model may be reported only when the validator has
    accepted every direct block of the current labels. *)

Import Blocking Manager Ops.

Section gate.
Context {A : Type} `{OrdLaws A} `{!EqDecision A} `{!Countable A} {C : Type} `{BlockingControl C} (Hpoll : polls (C:=C)).
Context {S V : Type} `{BlockingStateRead S A} `{!BlockValidator S A V C}.
Implicit Types (p q : BlockingProjection A) (m : BlockingManager A) (x y : A).

(** The validator accepted that [b] blocks [x] for labels with this digest. *)
Definition accepted (digest : list N) x b : Prop := ∃ (state : S) p (signature : BlockingSignature) (s s' : C * V) d,
  bp_state_digest p = digest ∧ validate_block state p x b signature s = (Ok d, s') ∧ vd_valid d = true.

Definition provisional (a : BlockingAssignment A) b : Prop := ba_directly a = true ∧ ba_from_cache a = false ∧ ba_blocker a = Some b.

Definition vouched m : Prop := ∀ d, bm_validated_digest m = Some d →
  bm_dirty_creation_id m = None ∧ bp_state_digest <$> bm_last_projection m = Some d ∧
  ∀ x a b, bm_assignments m !! x = Some a → provisional a b → accepted d x b.

Lemma vouched_none m : bm_validated_digest m = None → vouched m.
Proof. intros Hm d. by rewrite Hm. Qed.

Lemma vouched_traced m m' : traced m m' → vouched m → vouched m'.
Proof. intros [t ->] Hm. exact Hm. Qed.

Lemma new_vouched plan checker cache limits max m : new plan checker cache limits max = Ok m → vouched m.
Proof. intros Hm. unfold new in Hm. inv_ok. by apply vouched_none. Qed.

Lemma invalidate_creation_vouched n node m : vouched (invalidate_creation n node m).
Proof. unfold invalidate_creation. eapply vouched_traced; [apply record_traced|]. by apply vouched_none. Qed.

(** A computation keeps the acceptance only with the digest and the blocks. *)
Lemma computed_vouched m q m' :
  exact m → wf_projection q → (∀ p, bm_last_projection m = Some p → continues m p q) → computed m q m' → vouched m → vouched m'.
Proof.
  intros Hm Hq Hcont Hc Hv. destruct (cm_validated _ _ _ Hc) as [Hnone|[Hval Hsame]]; [by apply vouched_none|].
  intros d Hd. rewrite Hval in Hd. destruct (Hv d Hd) as (Hdirty & Hdig & Hacc).
  split; [apply (cm_dirty _ _ _ Hc)|]. rewrite (cm_last _ _ _ Hc). cbn. split; [congruence|].
  destruct (bm_last_projection m) as [p|] eqn:Hlast; [|done]. injection Hsame as Hsame.
  pose proof (continue_labelling m p q Hm Hlast Hq (Hcont p eq_refl) Hdirty (eq_sym Hsame)) as Hl.
  pose proof (cm_labelling _ _ _ Hc) as Hl'. rewrite (cm_checker _ _ _ Hc), (cm_plan _ _ _ Hc), (cm_rejected _ _ _ Hc), (current_same m p q) in Hl' by done.
  by rewrite <-(labelling_unique q Hq _ _ _ _ _ _ _ _ Hl Hl').
Qed.

(** ** A rejected block *)

Lemma expected_rejected p checker plan rejected rejected' asg earlier x :
  (∀ y, is_rejected p rejected x y = is_rejected p rejected' x y) →
  expected p checker plan rejected asg earlier x = expected p checker plan rejected' asg earlier x.
Proof.
  intros Hr. unfold expected. destruct (parent_of p x); [|done]. destruct (blocked_in _ _); [done|]. destruct (Checker.can_be_blocked _ _ _); [|done].
  unfold first_blocker. rewrite (filter_ext_in _ (λ y, may_block p checker rejected' asg x y = true)); [done|]. intros y _. unfold may_block. by rewrite Hr.
Qed.

(** The manager after the block of [x] by [b] was rejected. *)
Definition rejecting p x b m : BlockingManager A :=
  m <| bm_rejected_blocks ::= <[(x, b) := bp_state_digest p]> |> <| bm_validated_digest := None |> <| bm_assignments ::= <[x := unblocked x]> |>
    <| bm_dirty_creation_id := Some (creation p x) |>.

Lemma settled_reject p (Hp : wf_projection p) checker plan rejected f asg index x b a :
  settled p checker plan rejected f asg index → (f <= creation p x)%N →
  settled p checker plan (<[(x, b) := bp_state_digest p]> rejected) f (<[x := a]> asg) index.
Proof.
  intros [Hexp Hindex] Hf. assert (∀ y, (creation p y < f)%N → <[x := a]> asg !! y = asg !! y) as Hold.
  { intros y Hy. apply lookup_insert_ne. intros <-. lia. }
  split.
  - intros i y Hi Hy. rewrite Hold, (Hexp i y) by done. f_equal. rewrite (expected_rejected _ _ _ _ (<[(x, b) := bp_state_digest p]> rejected)).
    + apply (expected_ext p Hp); [done|]. intros z [_ Hz]%(ordered_before p Hp i y z Hi). rewrite Hold; [done|lia].
    + intros z. unfold is_rejected. rewrite lookup_insert_ne; [done|]. intros [= -> _]. lia.
  - intros key. rewrite Hindex. apply filter_ext_in. intros y [_ Hy]%(partition_take p Hp f). unfold blocks_with, free. by rewrite Hold.
Qed.

Lemma rejecting_exact p x b m :
  exact m → bm_last_projection m = Some p → bm_dirty_creation_id m = None → exact (rejecting p x b m).
Proof.
  intros Hm Hlast Hdirty. pose proof (ex_wf m Hm p Hlast) as Hp. split; cbn.
  - apply (ex_kind m Hm).
  - apply (ex_cache m Hm).
  - apply (ex_wf m Hm).
  - intros p' e d Hlast' [[_ <-]|[_ He]]%lookup_insert_Some; [congruence|by eapply (ex_rejected m Hm)].
  - intros p' f Hlast' Hf. assert (p' = p) as -> by congruence. apply settled_reject; [done| |done]. apply (ex_settled m Hm p f Hlast). by rewrite Hdirty.
  - done.
Qed.

Lemma invalidate_rejected p x b m event node blocker digest details :
  bm_last_projection m = Some p → bm_dirty_creation_id m = None → is_Some (bp_nodes p !! x) →
  traced (rejecting p x b m) (invalidate_node x (record event node blocker digest details
    (m <| bm_rejected_blocks ::= <[(x, b) := bp_state_digest p]> |> <| bm_validated_digest := None |> <| bm_assignments ::= <[x := unblocked x]> |>))).
Proof.
  intros Hlast Hdirty [r Hr]. set (m1 := m <| bm_rejected_blocks ::= _ |> <| bm_validated_digest := _ |> <| bm_assignments ::= _ |>).
  destruct (record_traced event node blocker digest details m1) as [t ->]. unfold invalidate_node, invalidate_creation.
  eapply traced_trans; [|apply record_traced]. exists t.
  assert (known_creation (m1 <| bm_trace := t |>) x = Some (creation p x)) as ->.
  { unfold known_creation, creation. cbn. rewrite Hlast. cbn. by rewrite Hr. }
  cbn. rewrite Hdirty. unfold rejecting. by destruct m.
Qed.

Abbreviation VM X := (st (C * (V * BlockingManager A)) BlockingError X).

Lemma reject_block_meets p x b d checked (s : C * (V * BlockingManager A)) :
  exact s.2.2 → bm_last_projection s.2.2 = Some p → bm_dirty_creation_id s.2.2 = None → is_Some (bp_nodes p !! x) →
  meets (reject_block p x b d checked : VM _) s
    (λ r s', exact s'.2.2 ∧ bm_validated_digest s'.2.2 = None ∧ vp_valid r = false) (λ _ _, False).
Proof.
  intros Hm Hlast Hdirty Hx. destruct s as [c [v m]]. cbn in Hm, Hlast, Hdirty. unfold meets, reject_block, on_manager, upd, modify, gets, mret, st_ret, mbind, st_bind. cbn -[rejecting invalidate_node record].
  match goal with |- exact ?m' ∧ _ => assert (traced (rejecting p x b m) m') as [t ->] by (by apply invalidate_rejected) end.
  split; [|done]. eapply exact_traced; [by eexists|]. by apply rejecting_exact.
Qed.

(** ** A pass *)

(** What the validator does not do: panic. *)
Definition total_validator : Prop :=
  (∀ (state : S) p (s : C * V), (begin_pass state p s).1 ≠ Crash) ∧
  (∀ (state : S) p x b sg (s : C * V), (validate_block state p x b sg s).1 ≠ Crash).

Context (Hval : total_validator).

Lemma signature_total checker p x : Checker.signature checker p x ≠ Crash.
Proof.
  assert (∀ e, Signature.check_field e ≠ Crash) as He by (intros e; unfold Signature.check_field, reject_if; by case_match).
  assert (∀ l, iterM Signature.check_field l ≠ Crash) as Hi.
  { induction l as [|e l IH]; [done|]. cbn [iterM]. specialize (He e). by destruct (Signature.check_field e). }
  assert (∀ k a1 a2 a3 a4 a5 a6 a7 a8, Signature.new k a1 a2 a3 a4 a5 a6 a7 a8 ≠ Crash) as Hn.
  { intros. unfold Signature.new. match goal with |- context [iterM ?g ?l] => specialize (Hi l); destruct (iterM g l) end; done. }
  unfold Checker.signature. destruct (negb (Checker.can_be_blocked checker p x)); cbn [reject_if]; [done|]. rewrite bind_Ok_l. unfold Checker.parent.
  destruct (dc_kind checker), (bp_nodes p !! x ≫= nr_parent); try done; apply Hn.
Qed.

Lemma validate_decision_total (d : ValidationDecision A) : validate_decision d ≠ Crash.
Proof. unfold validate_decision, reject_if. by repeat case_match. Qed.

(** Every provisional block is in [direct] or was accepted before. *)
Definition pending p m (direct : list (BlockingAssignment A)) : Prop :=
  (∀ a, a ∈ direct → is_Some (bp_nodes p !! ba_node a)) ∧
  ∀ x a b, bm_assignments m !! x = Some a → provisional a b → ba_node a = x ∧ (a ∈ direct ∨ accepted (bp_state_digest p) x b).

Lemma on_manager_poll (s : C * (V * BlockingManager A)) (Q : unit → C * (V * BlockingManager A) → Prop) (R : BlockingError → _ → Prop) :
  (∀ c, Q tt (c, s.2)) → (∀ e s', R e s') → meets (on_manager (on_control blocking_poll) : VM unit) s Q R.
Proof.
  intros HQ HR. unfold meets, on_manager, on_control. cbn. specialize (Hpoll s.1). destruct s as [c [v m]]. cbn in *.
  destruct (blocking_poll c) as [[[]|e|] c']; [apply HQ|apply HR|done].
Qed.

Lemma validate_blocks_meets (state : S) p direct checked (s : C * (V * BlockingManager A)) :
  exact s.2.2 → bm_last_projection s.2.2 = Some p → bm_dirty_creation_id s.2.2 = None → pending p s.2.2 direct →
  meets (validate_blocks state p direct checked) s
    (λ r s', exact s'.2.2 ∧ vouched s'.2.2 ∧ bm_validated_digest s'.2.2 = (if vp_valid r then Some (bp_state_digest p) else None)) (λ _ _, True).
Proof.
  revert checked s. induction direct as [|a direct IH]; intros checked s Hm Hlast Hdirty [Hin Hpend].
  - cbn [validate_blocks].
    eapply meets_bind with (Q := λ _ s', s'.2.2 = s.2.2 <| bm_validated_digest := Some (bp_state_digest p) |>); [by destruct s as [? []]|].
    intros [] s1 Hs1. eapply meets_bind; [by apply (on_manager_poll s1 (λ _ s', s'.2 = s1.2))|]. intros [] s2 Hs2. apply meets_ret.
    rewrite Hs2, Hs1. split; [by destruct Hm; split|]. split; [|done]. intros d [= <-]. split; [done|]. cbn. rewrite Hlast. split; [done|].
    intros x a b Ha Hb. destruct (Hpend x a b Ha Hb) as [_ [Hn|]]; [by apply not_elem_of_nil in Hn|done].
  - cbn [validate_blocks]. eapply meets_bind; [by apply (on_manager_poll s (λ _ s', s'.2 = s.2))|]. intros [] s1 Hs1.
    eapply meets_bind with (Q := λ b s', s' = s1 ∧ ba_blocker a = Some b). { apply meets_ok_or; [|done]. by intros b Hb. }
    intros b s2 [-> Hb]. eapply meets_bind with (Q := λ v s', v = s1.2.2 ∧ s' = s1); [done|]. intros m1 s2 [-> ->].
    eapply meets_bind with (Q := λ _ s', s' = s1); [by apply meets_lift; [apply signature_total|..]|]. intros sg s2 ->.
    eapply meets_bind with (Q := λ d s', s'.2.2 = s1.2.2 ∧ (vd_valid d = true → accepted (bp_state_digest p) (ba_node a) b)).
    { unfold meets, on_validator. pose proof (proj2 Hval state p (ba_node a) b sg (s1.1, s1.2.1)) as Hnc.
      destruct (validate_block state p (ba_node a) b sg (s1.1, s1.2.1)) as [[d|e|] [c' v']] eqn:E; [|done..]. split; [done|]. intros Hd.
      exists state, p, sg, (s1.1, s1.2.1), (c', v'), d. done. }
    intros d s2 [Hs2 Hacc].
    eapply meets_bind with (Q := λ _ s', s' = s2); [by apply meets_lift; [apply validate_decision_total|..]|]. intros [] s3 ->.
    eapply meets_bind; [by apply (on_manager_poll s2 (λ _ s', s'.2 = s2.2))|]. intros [] s4 Hs4.
    assert (s4.2.2 = s.2.2) as Hsame by (by rewrite Hs4, Hs2, Hs1).
    destruct (vd_valid d) eqn:Hd.
    + eapply meets_bind with (Q := λ _ s', traced s.2.2 s'.2.2).
      { unfold meets, on_manager, upd, modify. cbn. rewrite Hsame. apply record_traced. }
      intros [] s5 [t Ht]. assert (exact s5.2.2) by (rewrite Ht; eapply exact_traced; [by eexists|done]).
      apply IH; [done|by rewrite Ht|by rewrite Ht|]. rewrite Ht. split; [intros a' Ha'; apply Hin; by right|].
      intros x a' b' Ha' Hb'. destruct (Hpend x a' b' Ha' Hb') as [Hn [[->|Hin']%elem_of_cons|]]; [|by auto..].
      split; [done|]. right. destruct Hb' as (_ & _ & Hb'). assert (b' = b) as -> by congruence. rewrite <-Hn. by apply Hacc.
    + eapply meets_impl; [apply reject_block_meets; rewrite ?Hsame; [done..|apply Hin; left]| |done].
      intros r s5 (He & Hn & Hv). split; [done|]. split; [by apply vouched_none|]. by rewrite Hv.
Qed.

Lemma validation_run_meets (state : S) p direct (s : C * (V * BlockingManager A)) :
  exact s.2.2 → bm_last_projection s.2.2 = Some p → bm_dirty_creation_id s.2.2 = None → pending p s.2.2 direct →
  meets (validation_run state p direct) s
    (λ r s', exact s'.2.2 ∧ vouched s'.2.2 ∧ bm_validated_digest s'.2.2 = (if vp_valid r then Some (bp_state_digest p) else None))
    (λ _ s', s'.2.2 = s.2.2).
Proof.
  intros Hm Hlast Hdirty Hpend. unfold validation_run.
  assert (meets (_ ← (if bool_decide (direct = []) then mret tt else on_validator (begin_pass state p)); mret tt : VM unit) s
    (λ _ s', s'.2.2 = s.2.2) (λ _ _, True)) as Hstart.
  { eapply meets_bind with (Q := λ _ s', s'.2.2 = s.2.2); [|by intros [] s' ?]. case_bool_decide; [done|]. unfold meets, on_validator.
    pose proof (proj1 Hval state p (s.1, s.2.1)) as Hnc. by destruct (begin_pass state p _) as [[[]|e|] [c v]]. }
  match type of Hstart with meets ?o _ _ _ => set (start := o) in * end.
  unfold meets in Hstart. unfold meets. cbv zeta. fold start. destruct (start s) as [[[]|e|] s1]; [|done..].
  pose proof (validate_blocks_meets state p direct 0 s1) as Hb. rewrite Hstart in Hb. specialize (Hb Hm Hlast Hdirty Hpend). unfold meets in Hb.
  destruct (validate_blocks state p direct 0 s1) as [[r|e|] s2]; [|done..]. cbn. by case_bool_decide.
Qed.

(** The blocks of a pass are all that are provisional. *)
Lemma pending_assignments p m :
  exact m → bm_last_projection m = Some p → bm_dirty_creation_id m = None →
  pending p m (filter (λ a, ba_directly a = true ∧ ba_from_cache a = false ∧ is_Some (ba_blocker a)) (assignments m)).
Proof.
  intros Hm Hlast Hdirty. pose proof (ex_wf m Hm p Hlast) as Hp. destruct (ex_labelling m Hm p Hlast Hdirty) as [Hdom Hexp _].
  assert (∀ x a, bm_assignments m !! x = Some a → ba_node a = x ∧ is_Some (bp_nodes p !! x) ∧ a ∈ assignments m) as Hall.
  { intros x a Ha. assert (x ∈ bp_ordered_nodes p) as Hx by (rewrite <-(take_ge _ (length (bp_ordered_nodes p))) by done; apply Hdom; by rewrite Ha).
    split; [|split; [by apply (wp_nodes p Hp)|]].
    - apply list_elem_of_lookup in Hx as [i Hi]. rewrite (Hexp i x) in Ha by (done || by eapply lookup_lt_Some). injection Ha as <-. apply expected_node.
    - unfold assignments. rewrite Hlast. apply list_elem_of_omap. eauto. }
  split.
  - intros a [_ Ha]%list_elem_of_filter. unfold assignments in Ha. rewrite Hlast in Ha. apply list_elem_of_omap in Ha as (x & _ & Ha).
    by destruct (Hall x a Ha) as (-> & ? & _).
  - intros x a b Ha (Hd & Hc & Hb). destruct (Hall x a Ha) as (Hn & _ & Hin). split; [done|]. left. apply list_elem_of_filter. rewrite Hb. eauto.
Qed.

(** ** Reachable managers *)

(** The projection of [state] that the manager sees, and how it relates to its last. *)
Record projects (state : S) (c c' : C) m q : Prop := {
  pj_from : Projection.from_state state (dc_vocabulary (bm_checker m)) (bm_limits m) c = (Ok q, c');
  pj_first : ∃ records, node_records state = Ok records ∧ parents_first records;
  pj_continues p : bm_last_projection m = Some p → continues m p q
}.

Lemma projects_wf state c c' m q : projects state c c' m q → wf_projection q.
Proof. intros [Hf (records & Hr & Hpar) _]. by eapply from_state_wf. Qed.

Lemma compute_managed state c c' m q force :
  exact m → vouched m → projects state c c' m q →
  meets (compute state force) (c, m) (λ r s', computed m q s'.2 ∧ exact s'.2 ∧ vouched s'.2)
    (λ e s', s'.2 = m ∧ stopped (C:=C) (bm_limits m) (limit_of q) e).
Proof.
  intros Hm Hv Hq. pose proof (projects_wf _ _ _ _ _ Hq) as Hwf. destruct Hq as [Hf _ Hcont].
  eapply meets_impl; [by eapply (compute_meets Hpoll)| |done]. intros r s' (Hc & He & _). split; [done|]. split; [done|]. by apply (computed_vouched m q).
Qed.

Lemma validation_pass_managed state c c' v m q :
  exact m → vouched m → projects state c c' m q →
  meets (validation_pass state) (c, (v, m))
    (λ r s', exact s'.2.2 ∧ vouched s'.2.2 ∧ bm_validated_digest s'.2.2 = (if vp_valid r then Some (bp_state_digest q) else None))
    (λ _ s', exact s'.2.2 ∧ vouched s'.2.2).
Proof.
  intros Hm Hv Hq. unfold validation_pass. eapply meets_bind with (Q := λ k s', k = m ∧ s' = (c, (v, m))); [done|]. intros k s' [-> ->].
  eapply meets_bind with (Q := λ _ s', s' = (c, (v, m))); [by apply meets_reject|]. intros [] s' ->.
  eapply meets_bind with (Q := λ _ s', computed m q s'.2.2 ∧ exact s'.2.2 ∧ vouched s'.2.2).
  { pose proof (compute_managed state c c' m q false Hm Hv Hq) as Hc. unfold meets, on_manager in *. cbn [fst snd].
    destruct (compute state false (c, m)) as [[r|e|] [c1 m1]]; [done| |done]. destruct Hc as [Hc _]. cbn in *. by subst. }
  intros r0 [c1 [v1 m1]] (Hc & He & Hv1). cbn [fst snd] in *.
  eapply meets_bind with (Q := λ k s', k = m1 ∧ s' = (c1, (v1, m1))); [done|]. intros k s' [-> ->].
  rewrite (cm_last _ _ _ Hc). eapply meets_bind with (Q := λ p s', p = q ∧ s' = (c1, (v1, m1))); [done|]. intros p s' [-> ->].
  eapply meets_bind with (Q := λ _ s', s' = (c1, (v1, m1))); [by apply meets_reject|]. intros [] s' ->.
  eapply meets_impl; [apply validation_run_meets; cbn; [done|by destruct Hc|by destruct Hc|]|done|].
  - apply pending_assignments; [done|by destruct Hc..].
  - cbn. by intros e s' ->.
Qed.

(** The managers that its operations lead to, without a cache. *)
Inductive managed : BlockingManager A → Prop :=
| managed_new plan checker limits max m : new plan checker None limits max = Ok m → managed m
| managed_invalidate n node m : managed m → managed (invalidate_creation n node m)
| managed_compute state c c' m q force r s' :
    managed m → projects state c c' m q → compute state force (c, m) = (r, s') → managed s'.2
| managed_validation state c c' v m q r s' :
    managed m → projects state c c' m q → validation_pass state (c, (v, m)) = (r, s') → managed s'.2.2.

Lemma managed_invariant m : managed m → exact m ∧ vouched m.
Proof.
  induction 1 as [plan checker limits max m Hm|n node m Hm [He Hv]|state c c' m q force r s' Hm [He Hv] Hq Hr|state c c' v m q r s' Hm [He Hv] Hq Hr].
  - split; [by eapply new_exact|by eapply new_vouched].
  - split; [by apply invalidate_creation_exact|apply invalidate_creation_vouched].
  - pose proof (compute_managed state c c' m q force He Hv Hq) as Hc. unfold meets in Hc. rewrite Hr in Hc.
    destruct r as [r|e|]; [by destruct Hc as (_ & ? & ?)| |done]. by destruct Hc as [-> _].
  - pose proof (validation_pass_managed state c c' v m q He Hv Hq) as Hc. unfold meets in Hc. rewrite Hr in Hc.
    destruct r as [r|e|]; [by destruct Hc as (? & ? & _)|done|done].
Qed.
End gate.
