(* ===== verification/BlockingAdapter.v ===== *)
(** * The tableau as a state of blocking (native/src/store/state.rs)

    What the kernel shows to the blocking manager and how it takes its changes. *)

From S2P Require Import Prelude Order Errors Model Queue Store Kernel KernelBase Arena StateInv KernelInv BlockingModel Projection BlockingChecker BlockingManager ProjectionSpec.

Module Adapter.

Definition node_record (n : Node) : NodeRecord NodeHandle :=
  mkNodeRecord (n_handle n) (mkKey (slot (n_handle n)) (generation (n_handle n))) (n_creation_id n) (n_kind n) (n_lifecycle n)
    (n_parent n) (negb (bool_decide (n_unprocessed_existentials n = ∅))).

Definition fact_record (row : FactRow) : FactRecord NodeHandle :=
  mkFactRecord (row_id row) (predicate_id (row_key row)) (arguments (row_key row)) (core row) true.

#[global] Instance TableauKernel_read : BlockingStateRead TableauKernel NodeHandle := {|
  revision := trail_length;
  node_records k := Ok (node_record <$> live_nodes (state k));
  active_fact_records k := Ok (fact_record <$> filter (λ row, active row = true) (facts (state k)))
|}.

Definition blocking_error (error : NativeError) : BlockingError :=
  match err_kind error with
  | Wire | Version => Blocking.invalid (err_message error)
  | Cancelled | Timeout => Blocking.cancelled (err_message error)
  | Resource =>
      Blocking.resource (err_message error) "native_resource"
        (default 0%N (err_context error !! "observed" ≫= parse_u64)) (default 0%N (err_context error !! "allowed" ≫= parse_u64))
  | _ => Blocking.invariant (err_message error)
  end.

(** [.map_err(blocking_error)]. *)
Definition converted {X} (m : st TableauKernel NativeError X) : st TableauKernel BlockingError X := λ k,
  let '(r, k') := m k in (match r with Ok x => Ok x | Err e => Err (blocking_error e) | Crash => Crash end, k').

Definition atomically {X Y} (operation : st (X * TableauKernel) BlockingError Y) : st (X * TableauKernel) BlockingError Y := λ s,
  match operation s with
  | (Err e, s') => (Err e, (s'.1, Kernel.restore (Kernel.snapshot s.2) s'.2))
  | r => r
  end.

Definition apply_change (change : AssignmentChange NodeHandle) : st TableauKernel BlockingError unit :=
  let after :=
    match ac_after change with
    | None => (None, false)
    | Some a => if ba_from_cache a then (None, false) else (ba_blocker a, ba_directly a)
    end in
  converted (Kernel.set_blocked (ac_node change) after.1 after.2).

Definition promote_fact (id : N) : st TableauKernel BlockingError unit :=
  row ← reads (λ k, ok_or (facts (state k) !! N.to_nat id) (Blocking.invalid "fact row ID is unavailable"));
  _ ← lift (reject_if (negb (active row)) (Blocking.invalid "cannot promote an inactive fact row"));
  if core row then mret tt
  else
    _ ← modify (λ k : TableauKernel, k <| state ::= λ s, s <| facts ::= alter (λ row, row <| core := true |>) (N.to_nat id) |> |>);
    converted Kernel.record_mutation.

Definition reschedule (h : NodeHandle) : st TableauKernel BlockingError unit :=
  node ← converted (reads (Kernel.require_active h));
  if bool_decide (n_unprocessed_existentials node = ∅) then mret tt
  else
    rank ← converted (reads (Kernel.node_rank h));
    converted (Kernel.enqueue_node "existential_candidates" h [Z.of_N rank.1.1; Z.of_N rank.1.2; Z.of_N rank.2]).

#[global] Instance TableauKernel_mutate : BlockingStateMutate TableauKernel NodeHandle := {|
  blocking_atomic X Y := atomically;
  apply_assignment_change := apply_change;
  promote_core_fact := promote_fact;
  reschedule_existentials := reschedule
|}.
End Adapter.

(** ** What a projection of the kernel shows *)

Section kernel.
Context (k : TableauKernel) (Hk : wf k).
Import Adapter.

Lemma live_stored n : n ∈ live_nodes (state k) → stored (nodes (state k)) (n_handle n) n.
Proof. intros [i Hi]%elem_of_live_nodes. by eapply arena_stored_not_retired, Hi; apply (state_arena _ _ (wf_state _ Hk)). Qed.

(** Parents are created before their children. *)
Lemma kernel_parents_first : parents_first (node_record <$> live_nodes (state k)).
Proof.
  intros r s (n & -> & Hn)%list_elem_of_fmap (m & -> & Hm)%list_elem_of_fmap Hp. cbn in *.
  pose proof (state_arena _ _ (wf_state _ Hk)) as Ha. pose proof (live_stored m Hm) as Hsm.
  apply elem_of_live_nodes in Hn as [i Hi]. pose proof (node_tree _ _ _ _ (arena_node _ _ Ha _ _ Hi)) as Ht.
  case_bool_decide; [|destruct Ht; congruence]. destruct Ht as (p & m' & Hp' & Hm' & _ & Hc). assert (p = n_handle m) as -> by congruence.
  by rewrite (stored_fun _ _ _ _ Hsm Hm').
Qed.

(** The active nodes of the kernel. *)
Definition active_at (h : NodeHandle) (n : Node) : Prop := stored (nodes (state k)) h n ∧ n_lifecycle n = Active.

(** An active row of the kernel says that [i] holds of [args]. *)
Definition row_says (core_only : bool) (i : N) (args : list NodeHandle) : Prop :=
  ∃ row, row ∈ facts (state k) ∧ active row = true ∧ row_key row = mkFactKey i args ∧ (core_only = true → core row = true).

Record shows_kernel (v : BlockingVocabulary) (p : BlockingProjection NodeHandle) : Prop := {
  sk_nodes h r : bp_nodes p !! h = Some r ↔ ∃ n, active_at h n ∧ r = node_record n;
  sk_concepts h c i : i ∈ Projection.concept_label p h c ↔ (∃ n, active_at h n) ∧ i ∈ vc_atomic_concepts v ∧ row_says c i [h];
  sk_roles g h c i : i ∈ Projection.role_label p g h c ↔
    ((∃ n, active_at g n) ∧ (∃ n, active_at h n)) ∧ i ∈ vc_atomic_object_roles v ∧ row_says c i [g; h]
}.

Lemma record_active h r :
  r ∈ node_record <$> live_nodes (state k) ∧ nr_lifecycle r = Active ∧ nr_node r = h ↔ ∃ n, active_at h n ∧ r = node_record n.
Proof.
  split.
  - intros ((n & -> & Hn)%list_elem_of_fmap & Hl & <-). exists n. split; [split; [by apply live_stored|done]|done].
  - intros (n & [Hs Hl] & ->). split; [apply list_elem_of_fmap; exists n; split; [done|by eapply stored_live]|]. split; [done|].
    cbn. eapply stored_handle; [|done]. apply (state_arena _ _ (wf_state _ Hk)).
Qed.

Lemma says_row c i args :
  says (fact_record <$> filter (λ row, active row = true) (facts (state k))) c i args ↔ row_says c i args.
Proof.
  split.
  - intros (f & (row & -> & [Ha Hr]%list_elem_of_filter)%list_elem_of_fmap & _ & Hp & Hargs & Hc). exists row. split_and!; [done|done| |done].
    cbn in *. destruct (row_key row). cbn in *. congruence.
  - intros (row & Hr & Ha & Hkey & Hc). exists (fact_record row). split_and!; [|done|cbn; by rewrite Hkey|cbn; by rewrite Hkey|done].
    apply list_elem_of_fmap. exists row. split; [done|]. by apply list_elem_of_filter.
Qed.

Lemma from_kernel_shows {C} `{BlockingControl C} v limits (c c' : C) p :
  Projection.from_state k v limits c = (Ok p, c') → wf_projection p ∧ shows_kernel v p.
Proof.
  intros Hp. split; [eapply from_state_wf; [done|apply kernel_parents_first|done]|].
  assert (node_records k = Ok (node_record <$> live_nodes (state k))) as E1 by done.
  assert (active_fact_records k = Ok (fact_record <$> filter (λ row, active row = true) (facts (state k)))) as E2 by done.
  destruct (from_state_shown k v limits _ _ c c' p E1 E2 Hp) as [Hn Hc Hr].
  assert (∀ h, is_Some (bp_nodes p !! h) ↔ ∃ n, active_at h n) as Hs.
  { intros h. unfold is_Some. setoid_rewrite Hn. setoid_rewrite record_active. naive_solver. }
  split.
  - intros h r. rewrite Hn. apply record_active.
  - intros h core i. by rewrite Hc, Hs, says_row.
  - intros g h core i. by rewrite Hr, !Hs, says_row.
Qed.
End kernel.
