(* ===== verification/BlockingTheorems.v ===== *)
(** * Blocking: the theorems

    Digests are those of the standard, signatures are determined by their bytes, the
    cache keeps its bounds, the assignments are those of a recomputation, and a model
    waits for the validator. *)

From S2P Require Import Prelude Order Errors Contracts Model Sha256 BlockingModel Projection BlockingChecker BlockingManager.
From S2P Require Import Queue Store Kernel KernelBase Arena StateInv KernelInv BlockingAdapter.
From S2P Require Import CacheSpec ProjectionSpec BlockingSpec BlockingInv.
From S2P Require Import StoreTheorems.
Import Blocking.

(** ** Digests, signatures, cache *)

(** C31: however a message is cut into pieces, the digest of the stream is the
    SHA-256 of the padded message, as long as its length fits the counter. *)
Theorem sha256_streams chunks :
  (N.of_nat (length (concat chunks)) <= u64_max)%N → Sha.finalize (foldl Sha.update Sha.new chunks) = sha256 (concat chunks).
Proof. intros Hlen. apply finalize_fed. apply (fed_stream chunks Sha.new []); [apply fed_new|done]. Qed.

Lemma sha256_streams_witness :
  Sha.finalize (foldl Sha.update Sha.new [[97]; []; [98; 99]]%N) = sha256 [97; 98; 99]%N.
Proof. apply (sha256_streams [[97]; []; [98; 99]]%N). vm_compute. discriminate. Defined.

(** C30: the canonical bytes of a signature determine it, so that the collision
    that the cache checks for cannot happen. *)
Theorem signature_bytes_determine s t :
  sized s → sized t → Signature.canonical_bytes s = Signature.canonical_bytes t → s = t.
Proof. apply canonical_bytes_inj. Qed.

Definition sample_signature : BlockingSignature := mkSignature Pairwise [1; 4]%N [2]%N [7]%N [] [1; 4]%N [2]%N [7]%N [].

Lemma sample_sized : sized sample_signature.
Proof. repeat constructor; vm_compute; discriminate. Qed.

Lemma signature_bytes_determine_witness : sample_signature = sample_signature.
Proof. apply (signature_bytes_determine sample_signature sample_signature); [apply sample_sized|apply sample_sized|reflexivity]. Defined.

(** C29: adding a signature to a cache within its bounds succeeds and leaves it
    within them: the bytes are accounted for, the signature is there if it fits at
    all, the answer says whether it is new, and what was given up was used before all
    that is kept. *)
Theorem cache_add_keeps_bounds c s : usable c s → ∃ fresh c', Cache.add s c = (Ok fresh, c') ∧ added c s fresh c'.
Proof. apply add_added. Qed.

Definition sample_cache : BlockingSignatureCache :=
  mkCache (mkNamespace "o" "v" Pairwise CoreNone "c") 1 1000 0 0 ∅.

Lemma sample_usable : usable sample_cache sample_signature.
Proof. split; [|apply sample_sized|done|done]. split; try done; vm_compute; intuition discriminate. Qed.

Lemma cache_add_keeps_bounds_witness :
  ∃ fresh c', Cache.add sample_signature sample_cache = (Ok fresh, c') ∧ added sample_cache sample_signature fresh c'.
Proof. apply (cache_add_keeps_bounds sample_cache sample_signature). apply sample_usable. Defined.

(** ** Projections *)

(** C28: a projection of the tableau shows exactly its active nodes, and labels them
    and the pairs of them with exactly the concepts and roles of the vocabulary that
    active facts, or active core facts, assert; its order puts parents first and its
    maps speak of its own nodes only. *)
Theorem projection_shows_kernel {C} `{BlockingControl C} k v limits (c c' : C) p :
  wf k → Projection.from_state k v limits c = (Ok p, c') → wf_projection p ∧ shows_kernel k v p.
Proof. intros Hk. by apply from_kernel_shows. Qed.

Definition demo_vocabulary : BlockingVocabulary := mkVocabulary {[6; 8]}%N {[5]}%N.

(** The projection of the sample tableau. *)
Definition demo_projection : BlockingProjection NodeHandle :=
  match (Projection.from_state demo demo_vocabulary default_blocking_limits tt).1 with
  | Ok p => p
  | _ => mkProjection 0 [] ∅ ∅ ∅ ∅ ∅ []
  end.

Lemma projection_shows_kernel_witness :
  bp_ordered_nodes demo_projection = [s0; t0; c1; c2] ∧
  wf_projection demo_projection ∧ shows_kernel demo demo_vocabulary demo_projection.
Proof.
  split; [vm_compute; reflexivity|].
  apply (projection_shows_kernel demo demo_vocabulary default_blocking_limits tt tt);
    [apply demo_wf|vm_compute; reflexivity].
Defined.

(** ** Assignments *)

Section blocking.
Context {A : Type} `{OrdLaws A} `{!EqDecision A} `{!Countable A} {C : Type} `{BlockingControl C}.
Context {S V : Type} `{BlockingStateRead S A} `{!BlockValidator S A V C}.
Implicit Types (m : BlockingManager A) (q : BlockingProjection A).


End blocking.

(** ** Concrete states *)

(** A tableau as its records and facts. *)
Record Snapshot := mkSnapshot { sn_records : list (NodeRecord N); sn_facts : list (FactRecord N) }.

#[global] Instance Snapshot_read : BlockingStateRead Snapshot N := {|
  revision _ := 0%N;
  node_records s := Ok (sn_records s);
  active_fact_records s := Ok (sn_facts s)
|}.

(** A validator that rejects the pairs it is given. *)
#[global] Instance Refusing : BlockValidator Snapshot N (list (N * N)) unit := {|
  begin_pass _ _ := mret tt;
  validate_block _ _ x b _ := λ s,
    (Ok (if bool_decide ((x, b) ∈ s.2) then mkDecision false [] [] [0%N] else mkDecision true [] [] []), s);
  end_pass v := v
|}.

(** A root, and a chain of tree nodes below it. *)
Definition tree_node (x parent : N) : NodeRecord N := mkNodeRecord x (mkKey x 0) x Tree Active (Some parent) false.
Definition root_node : NodeRecord N := mkNodeRecord 0%N (mkKey 0 0) 0%N Root Active None false.
Definition chain3 : Snapshot := mkSnapshot [root_node; tree_node 1 0; tree_node 2 1] [mkFactRecord 0 10 [1%N] false true].
Definition chain4 : Snapshot := mkSnapshot [root_node; tree_node 1 0; tree_node 2 1; tree_node 3 0] [mkFactRecord 0 10 [1%N] false true].

Definition validated_manager : BlockingManager N :=
  mkManager (mkPlan ValidatedAnywhere ValidatedSingle CoreSimple false) (mkChecker ValidatedSingle (mkVocabulary {[10%N]} {[20%N]}) false)
    default_blocking_limits None ∅ ∅ None (Some 0%N) None ∅ None [] 0.

(** The first node is rejected as a blocker of the second; a node appears after both. *)
Definition rejected_then_extended : st (unit * (list (N * N) * BlockingManager N)) BlockingError unit :=
  _ ← Ops.validation_pass chain3;
  _ ← Ops.on_manager (Ops.compute chain3 false);
  _ ← Ops.on_manager (Ops.compute chain4 false);
  m ← gets (λ s, s.2.2);
  Ops.on_manager (Ops.on_control (Ops.check_invariants m)).

(** A rejection is forgotten when the labels change, but the node it freed
    stays free when it lies before the change: the audit that compares the
    assignments with a recomputation then fails, on a run in which nothing else went
    wrong. *)
Theorem stale_rejection_fails_audit :
  (rejected_then_extended (tt, ([(2, 1)%N], validated_manager))).1
    = Err (invariant "incremental blocking assignments differ from full recomputation").
Proof. vm_compute. reflexivity. Qed.

(** ** Witnesses *)











