(* ===== verification/Expansion.v ===== *)
(** * Existential expansion (native/src/existentials: model.rs, distinct.rs, manager.rs)

    At-least obligations are satisfied by successors that exist already, or by new
    witnesses.  The state, the services of rules and datatypes, and the control are
    traits; here they are classes over one world [W], because at run time the
    services and the manager poll the same control.  The dependency sets and node
    kinds of this part of the crate have the representation and the operations of
    those in [Model], and are not declared again. *)

From S2P Require Import Prelude Order Errors Model.

Module Expansion.

(** ** Values (model.rs) *)

Inductive ObligationKind := ObjectObligation | DataObligation.
Inductive ExpansionStrategy := CreationOrder | IndividualReuse.
Inductive ExpansionStatus := NoWork | Blocked | Satisfied | Expanded | Clashed.
(** The source's [BranchTransition::NoWork] is [NoClash] here. *)
Inductive BranchTransition := NoClash | Unsat | Advanced | Exhausted.
Inductive ClashKind := ImpossibleCardinality | EmptyHead | Other.
Inductive ExpansionErrorKind := InvalidInput | Cancelled | Resource | Invariant.

#[global] Instance ObligationKind_eq_dec : EqDecision ObligationKind.
Proof. solve_decision. Defined.
#[global] Instance ExpansionStrategy_eq_dec : EqDecision ExpansionStrategy.
Proof. solve_decision. Defined.

Record ExpansionResult (A : Type) := mkResult {
  xr_status : ExpansionStatus;
  xr_root : option A;
  xr_existential_id : option N;
  xr_witnesses : list A
}.
Arguments mkResult {A}.
Arguments xr_status {A}.
Arguments xr_root {A}.
Arguments xr_existential_id {A}.
Arguments xr_witnesses {A}.

Definition idle {A} (status : ExpansionStatus) : ExpansionResult A := mkResult status None None [].
Definition for_obligation {A} (status : ExpansionStatus) (root : A) (id : N) (witnesses : list A) : ExpansionResult A :=
  mkResult status (Some root) (Some id) witnesses.

Record ExpansionError := mkExpansionError {
  xe_kind : ExpansionErrorKind;
  xe_message : string;
  xe_limit : option string;
  xe_observed : option N;
  xe_allowed : option N
}.

Abbreviation ER := (outcome ExpansionError).

Definition new_error (kind : ExpansionErrorKind) (message : string) : ExpansionError := mkExpansionError kind message None None None.
Definition invalid (message : string) : ExpansionError := new_error InvalidInput message.
Definition cancelled (message : string) : ExpansionError := new_error Cancelled message.
Definition invariant (message : string) : ExpansionError := new_error Invariant message.
Definition resource (message limit : string) (observed allowed : N) : ExpansionError :=
  mkExpansionError Resource message (Some limit) (Some observed) (Some allowed).

Definition new_dependency (levels : list N) : ER DependencySet :=
  if strictly_ascending levels then Ok (mkDep levels) else Err (invalid "dependency levels must be ascending and unique").

Record ExpansionLimits := mkExpansionLimits {
  max_witnesses_per_obligation : N;
  max_distinct_search_steps : N;
  cancellation_interval : N
}.

Definition new_limits (witnesses steps interval : N) : ER ExpansionLimits :=
  if (witnesses =? 0) || (steps =? 0) || (interval =? 0) then Err (invalid "expansion limits must be strictly positive")
  else Ok (mkExpansionLimits witnesses steps interval).

Definition default_expansion_limits : ExpansionLimits := mkExpansionLimits 1000000 10000000 256.

Record AtLeastPredicate := mkAtLeast {
  al_predicate_id : N;
  al_kind : ObligationKind;
  al_cardinality : N;
  al_role_ids : list N;
  al_filler_predicate_id : N;
  al_reusable_filler : bool
}.

#[global] Instance AtLeastPredicate_eta : Eta AtLeastPredicate := λ p,
  mkAtLeast (al_predicate_id p) (al_kind p) (al_cardinality p) (al_role_ids p) (al_filler_predicate_id p) (al_reusable_filler p).

Definition object (pid cardinality role filler : N) : AtLeastPredicate := mkAtLeast pid ObjectObligation cardinality [role] filler false.
Definition data (pid cardinality : N) (roles : list N) (filler : N) : AtLeastPredicate := mkAtLeast pid DataObligation cardinality roles filler false.
Definition with_reusable_filler (p : AtLeastPredicate) (reusable : bool) : AtLeastPredicate := p <| al_reusable_filler := reusable |>.

Definition validate_obligation (p : AtLeastPredicate) : ER unit :=
  match al_kind p with
  | ObjectObligation =>
      reject_if (negb (length (al_role_ids p) =? 1)%nat) (invalid "an object at-least predicate requires exactly one role")
  | DataObligation =>
      _ ← reject_if (bool_decide (al_role_ids p = [])) (invalid "a data at-least predicate requires at least one role");
      reject_if ((1 <? length (al_role_ids p))%nat && negb (al_cardinality p =? 1)%N)
        (invalid "an n-ary data existential must have cardinality one")
  end.

Record RoleVocabulary := mkRoleVocabulary {
  rv_object_role_predicates : gmap N N;
  rv_data_role_predicates : gmap N N;
  rv_top_object_role_id : N;
  rv_bottom_object_role_id : N;
  rv_top_data_role_id : N;
  rv_bottom_data_role_id : N;
  rv_object_inequality_predicate_id : option N;
  rv_data_inequality_predicate_id : option N
}.

Definition validate_roles (r : RoleVocabulary) : ER unit :=
  reject_if ((rv_top_object_role_id r =? rv_bottom_object_role_id r) || (rv_top_data_role_id r =? rv_bottom_data_role_id r))
    (invalid "top and bottom roles must have distinct identifiers").

Definition role_predicate (r : RoleVocabulary) (sort : NodeSort) (role : N) : option N :=
  match sort with
  | Object => rv_object_role_predicates r !! role
  | Data => rv_data_role_predicates r !! role
  end.

Definition inequality_predicate (r : RoleVocabulary) (sort : NodeSort) : option N :=
  match sort with
  | Object => rv_object_inequality_predicate_id r
  | Data => rv_data_inequality_predicate_id r
  end.

Record ExpansionProgram := mkProgram { xp_obligations : gmap N AtLeastPredicate; xp_roles : RoleVocabulary }.

Definition obligation_sort (p : AtLeastPredicate) : NodeSort :=
  match al_kind p with ObjectObligation => Object | DataObligation => Data end.

Definition special_role (r : RoleVocabulary) (sort : NodeSort) (role : N) : bool :=
  match sort with
  | Object => (role =? rv_top_object_role_id r) || (role =? rv_bottom_object_role_id r)
  | Data => (role =? rv_top_data_role_id r) || (role =? rv_bottom_data_role_id r)
  end.

Definition validate_role_links (p : ExpansionProgram) : ER unit :=
  iterM (λ o, iterM (λ role,
      reject_if (negb (special_role (xp_roles p) (obligation_sort o) role) &&
                 bool_decide (role_predicate (xp_roles p) (obligation_sort o) role = None))
        (invalid "an existential role has no extension predicate")) (al_role_ids o))
    (btree_values (xp_obligations p)).

Definition add_obligation (indexed : gmap N AtLeastPredicate) (o : AtLeastPredicate) : ER (gmap N AtLeastPredicate) :=
  _ ← validate_obligation o;
  _ ← reject_if (bool_decide (is_Some (indexed !! al_predicate_id o))) (invalid "existential predicate identifiers must be unique");
  Ok (<[al_predicate_id o := o]> indexed).

Definition new_program (obligations : list AtLeastPredicate) (roles : RoleVocabulary) : ER ExpansionProgram :=
  _ ← validate_roles roles;
  indexed ← foldM add_obligation obligations ∅;
  let program := mkProgram indexed roles in
  _ ← validate_role_links program;
  Ok program.

Record CandidatePriority := mkPriority { cp_creation_id : N; cp_slot : N; cp_generation : N }.

Definition priority_fields (p : CandidatePriority) : N * (N * N) := (cp_creation_id p, (cp_slot p, cp_generation p)).

#[global] Instance priority_fields_inj : Inj (=) (=) priority_fields.
Proof. by intros [] [] [= -> -> ->]. Qed.
#[global] Instance CandidatePriority_ord : Ord CandidatePriority := compare_by priority_fields.
#[global] Instance CandidatePriority_ord_laws : OrdLaws CandidatePriority.
Proof. apply compare_by_laws. apply _. Qed.

Record NodeRecord (A : Type) := mkNodeRecord {
  nd_node : A;
  nd_priority : CandidatePriority;
  nd_kind : NodeKind;
  nd_parent : option A;
  nd_pending_existentials : gset N
}.
Arguments mkNodeRecord {A}.
Arguments nd_node {A}.
Arguments nd_priority {A}.
Arguments nd_kind {A}.
Arguments nd_parent {A}.
Arguments nd_pending_existentials {A}.

Record CanonicalNode (A : Type) := mkCanonical { cn_node : A; cn_dependency : DependencySet }.
Arguments mkCanonical {A}.
Arguments cn_node {A}.
Arguments cn_dependency {A}.

Record FactBinding (A : Type) := mkBinding { fb_position : N; fb_node : A }.
Arguments mkBinding {A}.
Arguments fb_position {A}.
Arguments fb_node {A}.

Record FactRecord (A : Type) := mkFactRecord {
  fc_row_id : N;
  fc_predicate_id : N;
  fc_arguments : list A;
  fc_supports : list DependencySet;
  fc_core : bool
}.
Arguments mkFactRecord {A}.
Arguments fc_row_id {A}.
Arguments fc_predicate_id {A}.
Arguments fc_arguments {A}.
Arguments fc_supports {A}.
Arguments fc_core {A}.

Record ClashRecord := mkClashRecord { cl_kind : ClashKind; cl_dependency : DependencySet; cl_details : list N }.

Record BranchRecord := mkBranchRecord {
  br_level : N;
  br_base_dependency : DependencySet;
  br_learned_dependency : DependencySet;
  br_current_alternative : N
}.

Record ReuseBranchRecord (A : Type) := mkReuseBranch {
  ru_level : N;
  ru_root : A;
  ru_predicate_id : N;
  ru_supports : list DependencySet
}.
Arguments mkReuseBranch {A}.
Arguments ru_level {A}.
Arguments ru_root {A}.
Arguments ru_predicate_id {A}.
Arguments ru_supports {A}.

(** The trait [ExpansionControl]. *)
Class ExpansionControl (W : Type) := {
  exp_poll : st W ExpansionError unit;
  exp_add_work : N → st W ExpansionError unit
}.

(** The trait [ExpansionStateRead]. *)
Class ExpansionStateRead (W A : Type) := {
  candidate_count : W → ER nat;
  node_record : A → W → ER (option (NodeRecord A));
  canonical_node : A → W → ER (option (CanonicalNode A));
  active_nodes : W → ER (list (NodeRecord A));
  is_blocked : A → W → ER bool;
  facts : N → list (FactBinding A) → W → ER (list (FactRecord A));
  current_clash : W → ER (option ClashRecord);
  branch : N → W → ER (option BranchRecord);
  reuse_branch : N → W → ER (option (ReuseBranchRecord A));
  reuse_node : N → W → ER (option A);
  reuse_disabled : N → W → ER bool
}.

(** The trait [ExpansionStateMutation]. *)
Class ExpansionStateMutation (W A : Type) := {
  Checkpoint : Type;
  checkpoint : W → ER Checkpoint;
  restore : Checkpoint → st W ExpansionError unit;
  pop_candidate : st W ExpansionError (option A);
  enqueue_candidate : A → CandidatePriority → st W ExpansionError unit;
  create_node : NodeKind → option A → st W ExpansionError A;
  mark_node_processed : A → N → st W ExpansionError unit;
  install_clash : ClashRecord → st W ExpansionError unit;
  push_reuse_branch : A → N → list DependencySet → DependencySet → st W ExpansionError BranchRecord;
  advance_reuse_branch : N → DependencySet → st W ExpansionError (option N);
  remove_reuse_branch : N → st W ExpansionError unit;
  set_reuse_node : N → A → st W ExpansionError unit;
  remove_reuse_node : N → st W ExpansionError unit;
  set_reuse_disabled : N → bool → st W ExpansionError unit
}.

(** The trait [ExpansionRuleAccess]. *)
Class ExpansionRuleAccess (W A : Type) := {
  dispatch_ground_atom : N → list A → DependencySet → bool → st W ExpansionError bool;
  register_node : A → DependencySet → st W ExpansionError unit;
  data_values_known_different : A → A → W → ER bool;
  data_value_satisfies : A → N → st W ExpansionError bool
}.

(** ** The search for pairwise different successors (distinct.rs) *)

Record DistinctSearchResult := mkDistinct { ds_satisfied : bool; ds_steps : N; ds_selected_indices : list nat }.

(** The vectors of the search, used as stacks: the top comes first. *)
Record Search := mkSearch { se_selected : list nat; se_next_indices : list nat; se_steps : N }.

Section distinct.
Context {W : Type} `{ExpansionControl W} {T : Type} (candidates : list T) (cardinality : nat) (limits : ExpansionLimits).
Context (known_different : T → T → W → ER bool).
Abbreviation M := (st W ExpansionError).

(** The loop over the selected indices, in the order of their selection. *)
Fixpoint all_different (candidate : T) (selected : list nat) : M bool :=
  match selected with
  | [] => mret true
  | i :: selected =>
      other ← lift (index_or_crash candidates i);
      reads (known_different candidate other) ≫= λ different : bool,
      if different then all_different candidate selected else mret false
  end.

Definition count_step (steps : N) : M N :=
  steps ← lift (ok_or (checked_add u64_max steps 1) (invariant "distinct-search step counter overflow"));
  _ ← lift (reject_if (max_distinct_search_steps limits <? steps)%N
    (resource "pairwise-distinct successor search limit exceeded" "max_distinct_search_steps" steps (max_distinct_search_steps limits)));
  _ ← (if (steps mod cancellation_interval limits =? 0)%N then
         _ ← exp_add_work (cancellation_interval limits);
         exp_poll
       else mret tt);
  mret steps.

(** One turn of the [while let] loop. *)
Definition search_turn (s : Search) : M (Search + DistinctSearchResult) :=
  match se_next_indices s with
  | [] =>
      _ ← exp_add_work (se_steps s mod cancellation_interval limits);
      mret (inr (mkDistinct false (se_steps s) []))
  | index :: next =>
      steps ← count_step (se_steps s);
      let still_needed := (cardinality - length (se_selected s))%nat in
      if (length candidates <=? index)%nat || (length candidates - index <? still_needed)%nat then
        mret (inl (mkSearch (tail (se_selected s)) next steps))
      else
        let next := S index :: next in
        candidate ← lift (index_or_crash candidates index);
        all_different candidate (reverse (se_selected s)) ≫= λ different : bool,
        if negb different then mret (inl (mkSearch (se_selected s) next steps))
        else
          let selected := index :: se_selected s in
          if (length selected =? cardinality)%nat then
            _ ← exp_add_work (steps mod cancellation_interval limits);
            mret (inr (mkDistinct true steps (reverse selected)))
          else mret (inl (mkSearch selected (S index :: next) steps))
  end.

(** Every turn but the last counts a step, and the steps are limited. *)
Definition pairwise_distinct_subset : M DistinctSearchResult :=
  _ ← exp_poll;
  if (cardinality =? 0)%nat then mret (mkDistinct true 0 [])
  else if (length candidates <? cardinality)%nat then mret (mkDistinct false 0 [])
  else if (cardinality =? 1)%nat then mret (mkDistinct true 0 [0%nat])
  else loopM (N.succ_pos (max_distinct_search_steps limits + 1)) search_turn (mkSearch [] [0%nat] 0).
End distinct.

(** ** The expansion manager (manager.rs) *)

Record ExistentialExpansionManager := mkExpansionManager {
  xm_program : ExpansionProgram;
  xm_strategy : ExpansionStrategy;
  xm_limits : ExpansionLimits
}.

Definition new (program : ExpansionProgram) (strategy : ExpansionStrategy) (limits : ExpansionLimits) : ER ExistentialExpansionManager :=
  limits ← new_limits (max_witnesses_per_obligation limits) (max_distinct_search_steps limits) (cancellation_interval limits);
  Ok (mkExpansionManager program strategy limits).

Definition only_role (p : AtLeastPredicate) : ER N :=
  match al_role_ids p with
  | [role] => Ok role
  | _ => Err (invariant "unary existential does not have exactly one role")
  end.

Definition binary_target {A} (arguments : list A) : ER A :=
  match arguments with
  | [_; target] => Ok target
  | _ => Err (invariant "role extension row is not binary")
  end.

Definition support_rank (d : DependencySet) : nat * option N * list N := (length (as_slice d), Dep.maximum d, as_slice d).

Definition minimal_support (supports : list DependencySet) : ER DependencySet :=
  ok_or (min_by (compare_by support_rank) supports) (invariant "existential obligation has no support").

Section manager.
Context {W A : Type} `{Ord A} `{Countable A}.
Context `{!ExpansionControl W} `{!ExpansionStateRead W A} `{!ExpansionStateMutation W A} `{!ExpansionRuleAccess W A}.
Abbreviation M := (st W ExpansionError).
Implicit Types (p : AtLeastPredicate) (root : A) (w : W).

Definition has_fact (pid : N) (arguments : list A) w : ER bool :=
  bindings ← collectM (λ e, position ← ok_or (u32_try_from e.1) (invariant "fact binding position exceeds u32"); Ok (mkBinding position e.2))
    (imap pair arguments);
  rows ← facts pid bindings w;
  Ok (negb (bool_decide (length rows = 0%nat))).

Definition dispatch (pid : N) (arguments : list A) (dependency : DependencySet) : M unit :=
  _ ← dispatch_ground_atom pid arguments dependency true;
  exp_poll.

Definition ordered_pair (left right : A) w : ER (A * A) :=
  l ← node_record left w;
  l ← ok_or l (invariant "left distinctness node is unavailable");
  r ← node_record right w;
  r ← ok_or r (invariant "right distinctness node is unavailable");
  Ok (if bool_decide (compare (nd_priority l, left) (nd_priority r, right) = Gt) then (right, left) else (left, right)).

Definition sorted_nodes (values : gmap A CandidatePriority) : list A :=
  (sort ((λ e, (e.2, e.1)) <$> btree_entries values)).*2.

Definition row_target (row : FactRecord A) : ER A := binary_target (fc_arguments row).

(** ** Candidates *)

(** The loop that pops until it meets a candidate that is not blocked; the blocked
    ones are put aside. *)
Fixpoint scan_candidates (count : nat) (deferred : list (A * CandidatePriority)) : M (option A * list (A * CandidatePriority)) :=
  match count with
  | O => mret (None, deferred)
  | S count =>
      pop_candidate ≫= λ popped : option A,
      match popped with
      | None => mret (None, deferred)
      | Some node =>
          reads (node_record node) ≫= λ record : option (NodeRecord A),
          match record with
          | None => scan_candidates count deferred
          | Some record =>
              if bool_decide (nd_pending_existentials record = ∅) then scan_candidates count deferred
              else
                reads (is_blocked node) ≫= λ blocked : bool,
                if blocked then scan_candidates count (deferred ++ [(node, nd_priority record)])
                else mret (Some node, deferred)
          end
      end
  end.

Definition take_unblocked_candidate : M (option A) :=
  count ← reads candidate_count;
  scanned ← scan_candidates count [];
  _ ← forM (λ e : A * CandidatePriority, enqueue_candidate e.1 e.2) scanned.2;
  mret scanned.1.

Definition obligation_supports (pid : N) root w : ER (list DependencySet) :=
  rows ← facts pid [mkBinding 0 root] w;
  Ok (rows ≫= fc_supports).

Definition mark_processed root (pid : N) : M unit :=
  _ ← mark_node_processed root pid;
  _ ← exp_poll;
  record ← reads (node_record root);
  node ← lift (ok_or record (invariant "processed existential node disappeared"));
  if bool_decide (nd_pending_existentials node = ∅) then mret tt
  else
    _ ← enqueue_candidate root (nd_priority node);
    exp_poll.

Section program.
Context (m : ExistentialExpansionManager).
Abbreviation roles := (xp_roles (xm_program m)).

(** ** Satisfaction *)

(** The targets of a role: all nodes of the sort for the top role, and otherwise the
    second arguments of its rows. *)
Definition role_targets (sort : NodeSort) (top role : N) (missing : string) root w : ER (list A) :=
  if (role =? top)%N then
    active_nodes w ≫= λ nodes : list (NodeRecord A),
    Ok (nd_node <$> filter (λ r, kind_sort (nd_kind r) = sort) nodes)
  else
    pid ← ok_or (role_predicate roles sort role) (invariant missing);
    rows ← facts pid [mkBinding 0 root] w;
    collectM row_target rows.

Definition object_satisfier p root w (result : gmap A CandidatePriority) (target : A) : ER (gmap A CandidatePriority) :=
  canonical ← canonical_node target w;
  match canonical with
  | None => Ok result
  | Some canonical =>
      record ← node_record (cn_node canonical) w;
      match record with
      | None => Ok result
      | Some record =>
          _ ← reject_if (bool_decide (kind_sort (nd_kind record) ≠ Object)) (invariant "object role points to a concrete node");
          is_blocked (cn_node canonical) w ≫= λ blocked : bool,
          if blocked && negb (bool_decide (nd_parent record = Some root)) then Ok result
          else
            has_fact (al_filler_predicate_id p) [cn_node canonical] w ≫= λ holds : bool,
            Ok (if holds then <[cn_node canonical := nd_priority record]> result else result)
      end
  end.

Definition object_satisfiers p root w : ER (list A) :=
  role ← only_role p;
  if (role =? rv_bottom_object_role_id roles)%N then Ok []
  else
    targets ← role_targets Object (rv_top_object_role_id roles) role "object role predicate is unavailable" root w;
    result ← foldM (object_satisfier p root w) targets ∅;
    Ok (sorted_nodes result).

Definition data_satisfier p (result : gmap A CandidatePriority) (target : A) : M (gmap A CandidatePriority) :=
  canonical ← reads (canonical_node target);
  match canonical with
  | None => mret result
  | Some canonical =>
      reads (node_record (cn_node canonical)) ≫= λ record : option (NodeRecord A),
      match record with
      | None => mret result
      | Some record =>
          _ ← lift (reject_if (bool_decide (kind_sort (nd_kind record) ≠ Data)) (invariant "data role points to an object node"));
          reads (has_fact (al_filler_predicate_id p) [cn_node canonical]) ≫= λ asserted : bool,
          (if asserted then mret true else data_value_satisfies (cn_node canonical) (al_filler_predicate_id p)) ≫= λ holds : bool,
          mret (if holds then <[cn_node canonical := nd_priority record]> result else result)
      end
  end.

Definition data_satisfiers p root : M (list A) :=
  role ← lift (only_role p);
  if (role =? rv_bottom_data_role_id roles)%N then mret []
  else
    targets ← reads (role_targets Data (rv_top_data_role_id roles) role "data role predicate is unavailable" root);
    result ← foldST (data_satisfier p) targets ∅;
    mret (sorted_nodes result).

(** The domain of one role of an n-ary data obligation. *)
Definition add_canonical w (domain : gset A) (row : FactRecord A) : ER (gset A) :=
  target ← row_target row;
  canonical ← canonical_node target w;
  Ok (match canonical with Some canonical => {[cn_node canonical]} ∪ domain | None => domain end).

Definition role_domain root (role : N) w : ER (gset A) :=
  if (role =? rv_top_data_role_id roles)%N then
    active_nodes w ≫= λ nodes : list (NodeRecord A),
    Ok (list_to_set (nd_node <$> filter (λ r, kind_sort (nd_kind r) = Data) nodes))
  else
    pid ← ok_or (role_predicate roles Data role) (invariant "n-ary data role predicate is unavailable");
    rows ← facts pid [mkBinding 0 root] w;
    foldM (add_canonical w) rows ∅.

(** [None] stands for the early return at the bottom role. *)
Fixpoint role_domains root (role_ids : list N) : M (option (list (gset A))) :=
  match role_ids with
  | [] => mret (Some [])
  | role :: role_ids =>
      _ ← exp_poll;
      if (role =? rv_bottom_data_role_id roles)%N then mret None
      else
        domain ← reads (role_domain root role);
        rest ← role_domains root role_ids;
        mret (cons domain <$> rest)
  end.

Definition tuple_in (domains : list (gset A)) (row : FactRecord A) : bool :=
  (length (fc_arguments row) =? length domains)%nat && forallb (λ e, bool_decide (e.1 ∈ e.2)) (zip (fc_arguments row) domains).

Definition count_tuple (domains : list (gset A)) (count : N) (row : FactRecord A) : M N :=
  _ ← exp_poll;
  if tuple_in domains row then lift (ok_or (checked_add u64_max count 1) (invariant "n-ary tuple count overflow")) else mret count.

Definition data_tuple_satisfiers p root : M N :=
  role_domains root (al_role_ids p) ≫= λ domains : option (list (gset A)),
  match domains with
  | None => mret 0
  | Some domains =>
      rows ← reads (facts (al_filler_predicate_id p) []);
      foldST (count_tuple domains) rows 0
  end.

Definition known_different (sort : NodeSort) (left right : A) w : ER bool :=
  if bool_decide (left = right) then Ok false
  else
    (match inequality_predicate roles sort with
     | Some pid => pair ← ordered_pair left right w; has_fact pid [pair.1; pair.2] w
     | None => Ok false
     end) ≫= λ asserted : bool,
    if asserted then Ok true
    else if bool_decide (sort = Data) then data_values_known_different left right w else Ok false.

Definition is_satisfied p root : M bool :=
  if (al_cardinality p =? 0)%N then mret true
  else
    match al_kind p with
    | ObjectObligation =>
        candidates ← reads (object_satisfiers p root);
        result ← pairwise_distinct_subset candidates (N.to_nat (al_cardinality p)) (xm_limits m) (known_different Object);
        mret (ds_satisfied result)
    | DataObligation =>
        if (1 <? length (al_role_ids p))%nat then
          count ← data_tuple_satisfiers p root;
          mret (0 <? count)%N
        else
          candidates ← data_satisfiers p root;
          result ← pairwise_distinct_subset candidates (N.to_nat (al_cardinality p)) (xm_limits m) (known_different Data);
          mret (ds_satisfied result)
    end.

(** ** Witnesses *)

(** The pairs of two indices, the smaller first. *)
Fixpoint index_pairs (witnesses : list A) : list (A * A) :=
  match witnesses with
  | [] => []
  | first :: witnesses => (pair first <$> witnesses) ++ index_pairs witnesses
  end.

Definition add_pairwise_inequalities (witnesses : list A) (sort : NodeSort) (supports : list DependencySet) : M unit :=
  if (length witnesses <? 2)%nat then mret tt
  else
    pid ← lift (ok_or (inequality_predicate roles sort) (invariant "cardinality witnesses require an inequality predicate"));
    forM (λ e : A * A,
      ordered ← reads (ordered_pair e.1 e.2);
      forM (dispatch pid [ordered.1; ordered.2]) supports) (index_pairs witnesses).

Definition new_witness (kind : NodeKind) (parent : option A) (support : DependencySet) : M A :=
  _ ← exp_poll;
  witness ← create_node kind parent;
  _ ← exp_poll;
  _ ← register_node witness support;
  _ ← exp_poll;
  mret witness.

Definition object_witness p root (role : option N) (initial : DependencySet) (supports : list DependencySet) (witnesses : list A) (_ : nat) : M (list A) :=
  witness ← new_witness Tree (Some root) initial;
  _ ← forM (λ support,
    _ ← match role with Some role => dispatch role [root; witness] support | None => mret tt end;
    dispatch (al_filler_predicate_id p) [witness] support) supports;
  mret (witnesses ++ [witness]).

Definition expand_object p root (supports : list DependencySet) : M (list A) :=
  role ← lift (only_role p);
  role_pid ← lift (if (role =? rv_top_object_role_id roles)%N then Ok None
                   else pid ← ok_or (role_predicate roles Object role) (invariant "object witness role predicate is unavailable"); Ok (Some pid));
  initial ← lift (minimal_support supports);
  witnesses ← foldST (object_witness p root role_pid initial supports) (seq 0 (N.to_nat (al_cardinality p))) [];
  _ ← add_pairwise_inequalities witnesses Object supports;
  mret witnesses.

Definition data_role p root (support : DependencySet) (e : nat * A) : M unit :=
  role ← lift (index_or_crash (al_role_ids p) (if (length (al_role_ids p) =? 1)%nat then 0%nat else e.1));
  if (role =? rv_top_data_role_id roles)%N then mret tt
  else
    pid ← lift (ok_or (role_predicate roles Data role) (invariant "data witness role predicate is unavailable"));
    dispatch pid [root; e.2] support.

Definition data_support p root (witnesses : list A) (support : DependencySet) : M unit :=
  _ ← forM (data_role p root support) (imap pair witnesses);
  if (1 <? length (al_role_ids p))%nat then dispatch (al_filler_predicate_id p) witnesses support
  else forM (λ witness, dispatch (al_filler_predicate_id p) [witness] support) witnesses.

Definition expand_data p root (supports : list DependencySet) : M (list A) :=
  let witness_count := if (length (al_role_ids p) =? 1)%nat then N.to_nat (al_cardinality p) else length (al_role_ids p) in
  initial ← lift (minimal_support supports);
  witnesses ← foldST (λ witnesses _, witness ← new_witness Concrete None initial; mret (witnesses ++ [witness])) (seq 0 witness_count) [];
  _ ← forM (data_support p root witnesses) supports;
  _ ← (if (length (al_role_ids p) =? 1)%nat then add_pairwise_inequalities witnesses Data supports else mret tt);
  mret witnesses.

(** ** Individual reuse *)

Definition can_reuse p w : ER bool :=
  if bool_decide (xm_strategy m = IndividualReuse) && bool_decide (al_kind p = ObjectObligation)
     && (al_cardinality p =? 1)%N && al_reusable_filler p
  then reuse_disabled (al_predicate_id p) w ≫= λ disabled : bool, Ok (negb disabled)
  else Ok false.

Definition parent_reuse_candidate p root w : ER (option A) :=
  record ← node_record root w;
  match record ≫= nd_parent with
  | None => Ok None
  | Some parent =>
      canonical ← canonical_node parent w;
      match canonical with
      | None => Ok None
      | Some canonical =>
          has_fact (al_filler_predicate_id p) [cn_node canonical] w ≫= λ holds : bool,
          Ok (if holds then Some (cn_node canonical) else None)
      end
  end.

(** A reuse node that is still available. *)
Definition known_reuse_node (known : A) w : ER (option A) :=
  canonical ← canonical_node known w;
  match canonical with
  | None => Ok None
  | Some canonical =>
      record ← node_record (cn_node canonical) w;
      Ok (match record with Some _ => Some (cn_node canonical) | None => None end)
  end.

Definition fresh_reuse_node (filler : N) (dependency : DependencySet) : M A :=
  witness ← create_node Ni None;
  _ ← exp_poll;
  _ ← register_node witness dependency;
  _ ← exp_poll;
  _ ← dispatch filler [witness] dependency;
  _ ← set_reuse_node filler witness;
  _ ← exp_poll;
  mret witness.

Definition model_reuse_candidate (filler : N) (dependency : DependencySet) : M A :=
  reads (reuse_node filler) ≫= λ stored : option A,
  match stored with
  | None => fresh_reuse_node filler dependency
  | Some known =>
      reads (known_reuse_node known) ≫= λ available : option A,
      match available with
      | Some node => mret node
      | None =>
          _ ← remove_reuse_node filler;
          _ ← exp_poll;
          fresh_reuse_node filler dependency
      end
  end.

Definition expand_with_reuse p root (supports : list DependencySet) : M (ExpansionResult A) :=
  _ ← mark_processed root (al_predicate_id p);
  base ← lift (minimal_support supports);
  branch ← push_reuse_branch root (al_predicate_id p) supports base;
  _ ← lift (reject_if (negb (br_current_alternative branch =? 0)%N) (invariant "new reuse branch did not select its first alternative"));
  _ ← exp_poll;
  let dependency := Dep.add base (br_level branch) in
  reads (parent_reuse_candidate p root) ≫= λ parent : option A,
  candidate ← match parent with
              | Some parent => mret parent
              | None => model_reuse_candidate (al_filler_predicate_id p) dependency
              end;
  canonical ← reads (canonical_node candidate);
  canonical ← lift (ok_or canonical (invariant "individual-reuse candidate is unavailable"));
  let dependency := Dep.union [dependency; cn_dependency canonical] in
  role ← lift (only_role p);
  _ ← (if (role =? rv_top_object_role_id roles)%N then mret tt
       else
         pid ← lift (ok_or (role_predicate roles Object role) (invariant "reuse role predicate is unavailable"));
         dispatch pid [root; cn_node canonical] dependency);
  mret (for_obligation Expanded root (al_predicate_id p) [cn_node canonical]).

(** ** Processing an obligation *)

Definition check_witness_limit p : ER unit :=
  let required := if bool_decide (al_kind p = DataObligation) && (1 <? length (al_role_ids p))%nat
                  then N.of_nat (length (al_role_ids p)) else al_cardinality p in
  let allowed := max_witnesses_per_obligation (xm_limits m) in
  reject_if (allowed <? required)%N (resource "existential witness limit exceeded" "max_witnesses_per_obligation" required allowed).

Definition uses_bottom_role p : bool :=
  match al_kind p with
  | ObjectObligation => bool_decide (head (al_role_ids p) = Some (rv_bottom_object_role_id roles))
  | DataObligation => bool_decide (rv_bottom_data_role_id roles ∈ al_role_ids p)
  end.

Definition expand p root (supports : list DependencySet) : M (list A) :=
  match al_kind p with
  | ObjectObligation => expand_object p root supports
  | DataObligation => expand_data p root supports
  end.

Definition satisfied_by root (pid : N) : M (ExpansionResult A) :=
  _ ← mark_processed root pid;
  mret (for_obligation Satisfied root pid []).

(** The part of [process_next_inner] after the selection of the obligation. *)
Definition process_obligation root (existential_id : N) p : M (ExpansionResult A) :=
  supports ← reads (obligation_supports (al_predicate_id p) root);
  if bool_decide (supports = []) then satisfied_by root existential_id
  else
    is_satisfied p root ≫= λ satisfied : bool,
    if satisfied then satisfied_by root existential_id
    else
      _ ← lift (check_witness_limit p);
      if uses_bottom_role p then
        minimal ← lift (minimal_support supports);
        _ ← install_clash (mkClashRecord ImpossibleCardinality minimal [al_predicate_id p]);
        _ ← exp_poll;
        mret (for_obligation Clashed root existential_id [])
      else
        reads (can_reuse p) ≫= λ reuse : bool,
        if reuse then expand_with_reuse p root supports
        else
          witnesses ← expand p root supports;
          _ ← mark_processed root existential_id;
          mret (for_obligation Expanded root existential_id witnesses).

Definition process_next_inner : M (ExpansionResult A) :=
  _ ← exp_poll;
  take_unblocked_candidate ≫= λ taken : option A,
  match taken with
  | None =>
      count ← reads candidate_count;
      mret (idle (if (count =? 0)%nat then NoWork else Blocked))
  | Some root =>
      record ← reads (node_record root);
      node ← lift (ok_or record (invariant "selected existential node disappeared"));
      existential_id ← lift (ok_or (head (btree_elements (nd_pending_existentials node))) (invariant "selected node has no pending obligation"));
      p ← lift (ok_or (xp_obligations (xm_program m) !! existential_id) (invariant "existential queue contains a non-at-least predicate"));
      process_obligation root existential_id p
  end.

(** [match operation { Err(error) => match state.restore(checkpoint) .. }]. *)
Definition rolled_back {X} (what : string) (operation : M X) : M X := λ w,
  match checkpoint (A:=A) w with
  | Ok saved =>
      match operation w with
      | (Err error, w1) =>
          match restore saved w1 with
          | (Ok _, w2) => (Err error, w2)
          | (Err restore_error, w2) =>
              (Err (invariant (what +:+ " rollback failed after '" +:+ xe_message error +:+ "': " +:+ xe_message restore_error)), w2)
          | (Crash, w2) => (Crash, w2)
          end
      | r => r
      end
  | Err error => (Err error, w)
  | Crash => (Crash, w)
  end.

Definition process_next : M (ExpansionResult A) := rolled_back "expansion" process_next_inner.

(** ** Clashes of reuse branches *)

Definition owns_branch (level : N) w : ER bool :=
  record ← reuse_branch level w;
  Ok (bool_decide (is_Some record)).

(** The second alternative: a new witness for the obligation. *)
Definition reuse_fallback (level : N) (record : ReuseBranchRecord A) (without_level : DependencySet) (alternative : N) : M BranchTransition :=
  _ ← lift (reject_if (negb (alternative =? 1)%N) (invariant "individual-reuse alternative is malformed"));
  _ ← set_reuse_disabled (ru_predicate_id record) true;
  current ← reads (branch level);
  current ← lift (ok_or current (invariant "reuse branch disappeared after advance"));
  let dependency := Dep.add (Dep.union [br_base_dependency current; without_level]) level in
  p ← lift (ok_or (xp_obligations (xm_program m) !! ru_predicate_id record) (invariant "reuse branch predicate is unavailable"));
  witnesses ← expand_object p (ru_root record) [dependency];
  _ ← lift (reject_if (negb (length witnesses =? 1)%nat) (invariant "reuse fallback must create exactly one witness"));
  mret Advanced.

Definition reuse_exhausted (level : N) (record : ReuseBranchRecord A) (b : BranchRecord) (without_level : DependencySet) : M BranchTransition :=
  _ ← remove_reuse_branch level;
  let propagated := Dep.union [br_base_dependency b; br_learned_dependency b; without_level] in
  _ ← install_clash (mkClashRecord EmptyHead propagated [ru_predicate_id record]);
  _ ← exp_poll;
  mret Exhausted.

Definition resolve_clash_inner : M BranchTransition :=
  _ ← exp_poll;
  reads current_clash ≫= λ clash : option ClashRecord,
  match clash with
  | None => mret NoClash
  | Some clash =>
      match Dep.maximum (cl_dependency clash) with
      | None => mret Unsat
      | Some level =>
          record ← reads (reuse_branch level);
          record ← lift (ok_or record (invariant "clash is not owned by individual reuse"));
          b ← reads (branch level);
          b ← lift (ok_or b (invariant "reuse branch level is unavailable"));
          let without_level := Dep.without (cl_dependency clash) level in
          advance_reuse_branch level without_level ≫= λ alternative : option N,
          _ ← exp_poll;
          match alternative with
          | Some alternative => reuse_fallback level record without_level alternative
          | None => reuse_exhausted level record b without_level
          end
      end
  end.

Definition resolve_clash : M BranchTransition := rolled_back "reuse-clash" resolve_clash_inner.
End program.
End manager.
End Expansion.
