(* ===== verification/ExpansionAdapter.v ===== *)
(** * Expansion over the native tableau (native/src/existentials/adapter.rs)

    The traits of expansion are implemented by the kernel, the rule engine, the
    datatypes (a class) and the control of the operation, which is the same one for
    the manager and for the services. *)

From stdpp Require Import pretty.
From S2P Require Import Prelude Order Errors Model Queue Store Kernel Cancel Branching RuleModel Merging RulePlans Joins RuleEngine.
From S2P Require Import BlockingModel Projection BlockingChecker BlockingManager Expansion.

(** ** Compilation of the program *)

Record SpecialRoleIds := mkSpecialRoles { sr_top_object : N; sr_bottom_object : N; sr_top_data : N; sr_bottom_data : N }.

(** [NativeDatatypeExpansion]. *)
Class NativeDatatypeExpansion (D C : Type) := {
  values_known_different : TableauKernel → NodeHandle → NodeHandle → D → NativeResult bool;
  value_satisfies : TableauKernel → NodeHandle → N → st (C * D) NativeError bool
}.

(** [AssertedOnlyDatatypes]. *)
#[global] Instance AssertedOnlyDatatypes {C} `{OperationControl C} : NativeDatatypeExpansion unit C := {|
  values_known_different _ _ _ _ := Ok false;
  value_satisfies _ _ _ := λ s, let '(r, c) := control_poll s.1 in (_ ← r; Ok false, (c, s.2))
|}.

(** What one operation of expansion works on. *)
Record ExpansionWorld (D C : Type) := mkExpansionWorld {
  xw_kernel : TableauKernel;
  xw_blocking : option (BlockingManager NodeHandle);
  xw_engine : RuleEngine;
  xw_datatypes : D;
  xw_control : C
}.
Arguments mkExpansionWorld {D C}.
Arguments xw_kernel {D C}.
Arguments xw_blocking {D C}.
Arguments xw_engine {D C}.
Arguments xw_datatypes {D C}.
Arguments xw_control {D C}.

#[global] Instance ExpansionWorld_eta {D C} : Eta (ExpansionWorld D C) := λ w,
  mkExpansionWorld (xw_kernel w) (xw_blocking w) (xw_engine w) (xw_datatypes w) (xw_control w).

Module Runtime.
Import Expansion.

Definition required (value : option N) (label : string) : ER N := ok_or value (invalid (label +:+ " is absent")).

Definition insert_role (target : gmap N N) (role : option N) (pid : N) (label : string) : ER (gmap N N) :=
  role ← required role (label +:+ " role ID");
  _ ← reject_if (bool_decide (is_Some (target !! role))) (invalid (label +:+ " role ID has multiple positive extension predicates"));
  Ok (<[role := pid]> target).

Definition set_unique (target : option N) (pid : N) (label : string) : ER (option N) :=
  _ ← reject_if (bool_decide (is_Some target)) (invalid ("multiple " +:+ label +:+ " predicates are unavailable to expansion"));
  Ok (Some pid).

(** What the loop over the predicates has collected. *)
Record Compiled := mkCompiled {
  co_object_roles : gmap N N;
  co_data_roles : gmap N N;
  co_object_inequality : option N;
  co_data_inequality : option N;
  co_obligations : list AtLeastPredicate
}.

#[global] Instance Compiled_eta : Eta Compiled := λ c,
  mkCompiled (co_object_roles c) (co_data_roles c) (co_object_inequality c) (co_data_inequality c) (co_obligations c).

Definition compile_predicate (reusable : gset N) (c : Compiled) (p : RulePredicate) : ER Compiled :=
  match rp_kind p with
  | ObjectRole =>
      roles ← insert_role (co_object_roles c) (rp_role_id p) (rp_predicate_id p) "object";
      Ok (c <| co_object_roles := roles |>)
  | DataRole =>
      roles ← insert_role (co_data_roles c) (rp_role_id p) (rp_predicate_id p) "data";
      Ok (c <| co_data_roles := roles |>)
  | Inequality =>
      match head (rp_argument_sorts p) with
      | Some TObject =>
          inequality ← set_unique (co_object_inequality c) (rp_predicate_id p) "object inequality";
          Ok (c <| co_object_inequality := inequality |>)
      | Some TData =>
          inequality ← set_unique (co_data_inequality c) (rp_predicate_id p) "data inequality";
          Ok (c <| co_data_inequality := inequality |>)
      | None => Err (invalid "inequality predicate has no argument sort")
      end
  | AtLeastObject =>
      role ← required (rp_role_id p) "object at-least role";
      filler ← required (rp_filler_predicate_id p) "object at-least filler";
      cardinality ← required (rp_cardinality p) "object at-least cardinality";
      Ok (c <| co_obligations ::= λ os,
        os ++ [with_reusable_filler (object (rp_predicate_id p) cardinality role filler) (bool_decide (filler ∈ reusable))] |>)
  | AtLeastData =>
      cardinality ← required (rp_cardinality p) "data at-least cardinality";
      filler ← required (rp_filler_predicate_id p) "data at-least filler";
      Ok (c <| co_obligations ::= λ os, os ++ [data (rp_predicate_id p) cardinality (rp_annotation p) filler] |>)
  | _ => Ok c
  end.

Definition expansion_program_from_rules (program : RuleProgram) (special : SpecialRoleIds) (reusable : gset N) : ER ExpansionProgram :=
  c ← foldM (compile_predicate reusable) (predicates program) (mkCompiled ∅ ∅ None None []);
  new_program (co_obligations c)
    (mkRoleVocabulary (co_object_roles c) (co_data_roles c) (sr_top_object special) (sr_bottom_object special)
      (sr_top_data special) (sr_bottom_data special) (co_object_inequality c) (co_data_inequality c)).

(** ** Errors and dependencies *)

Definition expansion_to_native (error : ExpansionError) : NativeError :=
  let '(kind, code) :=
    match xe_kind error with
    | InvalidInput => (Wire, "NATIVE_EXPANSION_INVALID"%string)
    | Expansion.Cancelled => (Errors.Cancelled, "NATIVE_EXPANSION_CANCELLED"%string)
    | Expansion.Resource => (Errors.Resource, "RESOURCE_LIMIT"%string)
    | Expansion.Invariant => (Errors.Invariant, "NATIVE_EXPANSION_INVARIANT"%string)
    end in
  let mapped := NativeErr.new kind code (xe_message error) in
  let mapped := match xe_limit error with Some limit => NativeErr.with_context mapped "limit" limit | None => mapped end in
  let mapped := match xe_observed error with Some n => NativeErr.with_context mapped "observed" (pretty n) | None => mapped end in
  match xe_allowed error with Some n => NativeErr.with_context mapped "allowed" (pretty n) | None => mapped end.

Definition native_to_expansion (error : NativeError) : ExpansionError :=
  match err_kind error with
  | Errors.Cancelled | Timeout => cancelled (err_message error)
  | Errors.Resource =>
      resource (err_message error) "native_resource"
        (default 0%N (err_context error !! "observed" ≫= parse_u64)) (default 0%N (err_context error !! "allowed" ≫= parse_u64))
  | Errors.Invariant | Poisoned => invariant (err_message error)
  | _ => invalid (err_message error)
  end.

Definition expansion_dependency (d : DependencySet) : ER DependencySet := new_dependency (as_slice d).

(** [result.map_err(native_to_expansion)]. *)
Definition converted {X} (r : NativeResult X) : ER X :=
  match r with Ok x => Ok x | Err e => Err (native_to_expansion e) | Crash => Crash end.

Definition native_dependency (d : DependencySet) : ER DependencySet := converted (Dep.new (as_slice d)).

(** [let Ok(..) = result else { return Ok(None) }]. *)
Definition available {X} (r : NativeResult X) : ER (option X) :=
  match r with Ok x => Ok (Some x) | Err _ => Ok None | Crash => Crash end.

(** ** The kernel as a state *)

Section runtime.
Context {D C : Type} `{OperationControl C} `{!NativeDatatypeExpansion D C}.
Abbreviation W := (ExpansionWorld D C).
Abbreviation M := (st W ExpansionError).
Implicit Types (w : W) (h : NodeHandle).

Definition kernel {X} (m : K X) : M X := λ w,
  let '(r, k) := m (xw_kernel w) in (converted r, w <| xw_kernel := k |>).

Definition engine {X} (m : st (RuleEngine * TableauKernel) NativeError X) : M X := λ w,
  let '(r, (e, k)) := m (xw_engine w, xw_kernel w) in (converted r, w <| xw_engine := e |> <| xw_kernel := k |>).

Definition poll : M unit := λ w,
  let '(r, c) := control_poll (xw_control w) in (converted r, w <| xw_control := c |>).

#[global] Instance Runtime_control : ExpansionControl W := {|
  exp_poll := poll;
  exp_add_work _ := mret tt
|}.

Definition record_of h (n : Node) : NodeRecord NodeHandle :=
  mkNodeRecord h (mkPriority (n_creation_id n) (slot h) (generation h)) (n_kind n) (n_parent n) (n_unprocessed_existentials n).

Definition runtime_node_record h w : ER (option (NodeRecord NodeHandle)) :=
  available (Kernel.node h (xw_kernel w)) ≫= λ record : option Node,
  Ok (match record with
      | Some n => if bool_decide (n_lifecycle n = Active) then Some (record_of h n) else None
      | None => None
      end).

Definition runtime_canonical_node h w : ER (option (CanonicalNode NodeHandle)) :=
  available (Kernel.canonical_handle h (xw_kernel w)) ≫= λ found : option (NodeHandle * DependencySet),
  match found with
  | None => Ok None
  | Some (h, d) => d ← expansion_dependency d; Ok (Some (mkCanonical h d))
  end.

Definition runtime_active_nodes w : ER (list (NodeRecord NodeHandle)) :=
  collectM (λ h,
    record ← runtime_node_record h w;
    ok_or record (invariant "active node disappeared during expansion read")) (Kernel.active_node_handles (xw_kernel w)).

Definition runtime_is_blocked h w : ER bool :=
  n ← converted (Kernel.active_node h (xw_kernel w));
  Ok (bool_decide (is_Some (n_blocker n)) ||
      match xw_blocking w with Some manager => Ops.is_blocked manager h | None => false end).

Definition add_binding (indexed : gmap N NodeHandle) (b : FactBinding NodeHandle) : ER (gmap N NodeHandle) :=
  _ ← reject_if (bool_decide (is_Some (indexed !! fb_position b))) (invalid "expansion fact bindings repeat a position");
  Ok (<[fb_position b := fb_node b]> indexed).

Definition fact_of (k : TableauKernel) (rid : N) : ER (FactRecord NodeHandle) :=
  row ← converted (Kernel.fact rid k);
  supports ← collectM expansion_dependency (supports row);
  Ok (mkFactRecord rid (predicate_id (row_key row)) (arguments (row_key row)) supports (core row)).

Definition runtime_facts (pid : N) (bindings : list (FactBinding NodeHandle)) w : ER (list (FactRecord NodeHandle)) :=
  indexed ← foldM add_binding bindings ∅;
  rids ← converted (Kernel.candidate_fact_ids pid indexed (xw_kernel w));
  collectM (fact_of (xw_kernel w)) rids.

Definition clash_kind_of (kind : string) : ClashKind :=
  if bool_decide (kind = "impossible_cardinality") then ImpossibleCardinality
  else if bool_decide (kind = "empty_head") then EmptyHead
  else Other.

Definition runtime_current_clash w : ER (option ClashRecord) :=
  match Kernel.clash (xw_kernel w) with
  | None => Ok None
  | Some clash =>
      d ← expansion_dependency (clash_dependency clash);
      Ok (Some (mkClashRecord (clash_kind_of (clash_kind clash)) d (clash_participants clash)))
  end.

Definition runtime_branch (lvl : N) w : ER (option BranchRecord) :=
  available (Kernel.branch lvl (xw_kernel w)) ≫= λ found : option Branch,
  match found with
  | None => Ok None
  | Some b =>
      current ← ok_or (alternatives b !! next_alternative b) (invariant "branch has no current alternative");
      base ← expansion_dependency (base_dependency b);
      learned ← expansion_dependency (learned_dependency b);
      Ok (Some (mkBranchRecord lvl base learned current))
  end.

Definition runtime_reuse_branch (lvl : N) w : ER (option (ReuseBranchRecord NodeHandle)) :=
  match Kernel.existential_reuse_branch lvl (xw_kernel w) with
  | None => Ok None
  | Some record =>
      supports ← collectM expansion_dependency (reuse_supports record);
      Ok (Some (mkReuseBranch lvl (reuse_root record) (reuse_predicate_id record) supports))
  end.

#[global] Instance Runtime_read : ExpansionStateRead W NodeHandle := {|
  candidate_count w := Ok (size (entries (existential_candidates (state (xw_kernel w)))));
  node_record := runtime_node_record;
  canonical_node := runtime_canonical_node;
  active_nodes := runtime_active_nodes;
  is_blocked := runtime_is_blocked;
  facts := runtime_facts;
  current_clash := runtime_current_clash;
  branch := runtime_branch;
  reuse_branch := runtime_reuse_branch;
  reuse_node filler w := Ok (Kernel.existential_reuse_node filler (xw_kernel w));
  reuse_disabled pid w := Ok (bool_decide (pid ∈ existential_reuse_disabled (state (xw_kernel w))))
|}.

Definition runtime_restore (saved : TableauKernel) : M unit := λ w,
  let k := Kernel.restore_full_checkpoint saved (xw_kernel w) in
  (converted (Kernel.check_invariants k), w <| xw_kernel := k |>).

Definition clash_name (kind : ClashKind) : string :=
  match kind with
  | ImpossibleCardinality => "impossible_cardinality"
  | EmptyHead => "empty_head"
  | Other => "positive_negative_atom"
  end.

Definition runtime_install_clash (clash : ClashRecord) : M unit :=
  d ← lift (native_dependency (cl_dependency clash));
  _ ← kernel (Kernel.install_clash (clash_name (cl_kind clash)) d (cl_details clash) None);
  mret tt.

Definition runtime_push_reuse_branch h (pid : N) (supports : list DependencySet) (base : DependencySet) : M BranchRecord :=
  supports ← lift (collectM native_dependency supports);
  base ← lift (native_dependency base);
  lvl ← kernel (Kernel.push_existential_reuse_branch h pid supports base);
  b ← reads (runtime_branch lvl);
  lift (ok_or b (invariant "created existential reuse branch is unavailable")).

#[global] Instance Runtime_mutation : ExpansionStateMutation W NodeHandle := {|
  Checkpoint := TableauKernel;
  checkpoint w := Ok (xw_kernel w);
  restore := runtime_restore;
  pop_candidate := kernel Kernel.take_existential_candidate;
  enqueue_candidate h p :=
    kernel (Kernel.enqueue_node "existential_candidates" h [Z.of_N (cp_creation_id p); Z.of_N (cp_slot p); Z.of_N (cp_generation p)]);
  create_node kind parent := kernel (Kernel.create_node kind parent false None None None);
  mark_node_processed h pid := kernel (Kernel.mark_existential h pid false);
  install_clash := runtime_install_clash;
  push_reuse_branch := runtime_push_reuse_branch;
  advance_reuse_branch lvl learned := d ← lift (native_dependency learned); kernel (Kernel.advance_branch lvl d);
  remove_reuse_branch lvl := kernel (Kernel.remove_existential_reuse_branch lvl);
  set_reuse_node filler h := kernel (Kernel.set_existential_reuse_node filler h);
  remove_reuse_node filler := kernel (Kernel.remove_existential_reuse_node filler);
  set_reuse_disabled pid disabled := kernel (Kernel.set_existential_reuse_disabled pid disabled)
|}.

(** ** Rules and datatypes *)

Definition runtime_dispatch (pid : N) (args : list NodeHandle) (d : DependencySet) (core : bool) : M bool :=
  _ ← poll;
  a ← lift (converted (Rule.new_ground pid args));
  d ← lift (native_dependency d);
  engine (Engine.dispatch_ground_atom a d core []).

Definition runtime_register h (d : DependencySet) : M unit :=
  _ ← poll;
  d ← lift (native_dependency d);
  _ ← engine (Engine.register_node h d);
  mret tt.

(** A look of the datatypes at a node, with their own state and the control. *)
Definition datatypes {X} (m : TableauKernel → st (C * D) NativeError X) : M X := λ w,
  let '(r, (c, d)) := m (xw_kernel w) (xw_control w, xw_datatypes w) in
  (converted r, w <| xw_control := c |> <| xw_datatypes := d |>).

Definition runtime_value_satisfies h (pid : N) : M bool :=
  _ ← poll;
  datatypes (λ k, value_satisfies k h pid).

#[global] Instance Runtime_access : ExpansionRuleAccess W NodeHandle := {|
  dispatch_ground_atom := runtime_dispatch;
  register_node := runtime_register;
  data_values_known_different l r w := converted (values_known_different (xw_kernel w) l r (xw_datatypes w));
  data_value_satisfies := runtime_value_satisfies
|}.
End runtime.
End Runtime.
