(* ===== verification/ExpansionSpec.v ===== *)
(** * What expansion searches for and what it keeps

    The search for pairwise different successors finds the first subset of the asked
    size; satisfaction over the tableau is the existence of such successors; an
    expansion keeps kernel and engine fit for each other. *)

From S2P Require Import Prelude Order Errors Contracts Model Expansion.
Import Expansion.

(** ** Subsets of pairwise different candidates *)

Section distinct.
Context {T : Type} (candidates : list T) (differ : T → T → bool).

(** The candidates at two indices are known to be different. *)
Definition different_at (i j : nat) : Prop := ∃ x y, candidates !! i = Some x ∧ candidates !! j = Some y ∧ differ x y = true.

(** Ascending indices of candidates, each different from those before it. *)
Record distinct_subset (l : list nat) : Prop := {
  dsub_range : Forall (λ i, i < length candidates)%nat l;
  dsub_sorted : StronglySorted lt l;
  dsub_differ i j a b : l !! i = Some a → l !! j = Some b → (i < j)%nat → different_at b a
}.

(** The lexicographic order on vectors of the same length. *)
Definition lex_le (l k : list nat) : Prop := l = k ∨ ∃ p x y l' k', l = p ++ x :: l' ∧ k = p ++ y :: k' ∧ (x < y)%nat.

Definition solution (n : nat) (l : list nat) : Prop := distinct_subset l ∧ length l = n.

Lemma subset_nil : distinct_subset [].
Proof. split; [constructor|constructor|]. intros i j a b Hi. by rewrite lookup_nil in Hi. Qed.

Lemma subset_prefix l k : distinct_subset (l ++ k) → distinct_subset l.
Proof.
  intros [Hr Hs Hd]. apply Forall_app in Hr as [Hr _]. split; [done| |].
  - clear Hr Hd. induction l as [|x l IH]; [constructor|]. apply StronglySorted_inv in Hs as [Hs Hx]. apply Forall_app in Hx as [Hx _]. constructor; auto.
  - intros i j a b Hi Hj. apply Hd; by apply lookup_app_l_Some.
Qed.

Lemma subset_snoc l x :
  distinct_subset (l ++ [x]) ↔ distinct_subset l ∧ (x < length candidates)%nat ∧ ∀ y, y ∈ l → (y < x)%nat ∧ different_at x y.
Proof.
  split.
  - intros H. split; [by eapply subset_prefix|]. destruct H as [Hr Hs Hd]. apply Forall_app in Hr as [_ Hr]. split; [by apply Forall_cons in Hr as [? _]|].
    intros y [i Hi]%list_elem_of_lookup. split.
    + clear Hd Hr. revert i Hi. induction l as [|z l IH]; intros i Hi; [done|]. apply StronglySorted_inv in Hs as [Hs Hz].
      destruct i as [|i]; cbn in Hi; [simplify_eq; apply Forall_app in Hz as [_ Hz]; by apply Forall_cons in Hz as [? _]|by apply (IH Hs i)].
    + apply (Hd i (length l)); [by apply lookup_app_l_Some|by rewrite list_lookup_middle|by eapply lookup_lt_Some].
  - intros ([Hr Hs Hd] & Hx & Hy). split.
    + apply Forall_app. split; [done|by constructor].
    + clear Hd. induction Hs as [|z l Hs IH Hz]; [repeat constructor|]. apply Forall_cons in Hr as [_ Hr]. cbn. constructor.
      * apply IH; [done|]. intros y Hin. apply Hy. by right.
      * apply Forall_app. split; [done|]. constructor; [apply Hy; by left|constructor].
    + intros i j a b Hi Hj Hlt. apply lookup_lt_Some in Hj as Hjl. rewrite length_app in Hjl. cbn in Hjl.
      rewrite lookup_app_l in Hi by lia. destruct (decide (j = length l)) as [->|].
      * rewrite list_lookup_middle in Hj by done. injection Hj as <-. apply Hy. by eapply list_elem_of_lookup_2.
      * rewrite lookup_app_l in Hj by lia. by eapply Hd.
Qed.

(** A subset that goes on with [rest] after [x] needs as many candidates. *)
Lemma subset_room l x rest : distinct_subset (l ++ x :: rest) → (x + length rest < length candidates)%nat.
Proof.
  revert l x. induction rest as [|y rest IH]; intros l x H.
  - apply subset_snoc in H. cbn. lia.
  - assert (distinct_subset ((l ++ [x]) ++ y :: rest)) as H1 by (by rewrite <-app_assoc). pose proof (IH _ _ H1) as Hy.
    assert (distinct_subset ((l ++ [x]) ++ [y])) as H2. { apply (subset_prefix _ rest). by rewrite <-app_assoc. }
    apply subset_snoc in H2 as (_ & _ & H2). specialize (H2 x) as [H2 _]; [apply elem_of_app; right; apply list_elem_of_singleton; done|]. cbn. lia.
Qed.

Lemma subset_next l x y rest : distinct_subset (l ++ x :: y :: rest) → (x < y)%nat.
Proof.
  intros H. assert (distinct_subset ((l ++ [x]) ++ [y])) as H1. { apply (subset_prefix _ rest). by rewrite <-!app_assoc. }
  apply subset_snoc in H1 as (_ & _ & H1). apply H1. apply elem_of_app. right. by apply list_elem_of_singleton.
Qed.

(** ** The part of the space that is left *)

(** What the stack of selected indices, with the next index to try on top, has not
    excluded yet. *)
Fixpoint left_over (selected : list nat) (n : nat) (l : list nat) : Prop :=
  (∃ x rest, l = reverse selected ++ x :: rest ∧ (n ≤ x)%nat) ∨
  match selected with [] => False | s :: selected => left_over selected (S s) l end.

Lemma left_over_less selected n s l tail :
  (s < n)%nat → left_over selected n l → ∃ p x y l' k', reverse selected ++ s :: tail = p ++ x :: l' ∧ l = p ++ y :: k' ∧ (x < y)%nat.
Proof.
  revert n s tail. induction selected as [|t selected IH]; intros n s tail Hs [(x & rest & -> & Hx)|H].
  - exists (reverse []), s, x, tail, rest. split_and!; [done|done|lia].
  - done.
  - exists (reverse (t :: selected)), s, x, tail, rest. split_and!; [done|done|lia].
  - destruct (IH (S t) t (s :: tail) ltac:(lia) H) as (p & x & y & l' & k' & E & -> & Hlt). exists p, x, y, l', k'.
    split_and!; [|done|done]. rewrite reverse_cons, <-app_assoc. exact E.
Qed.

Lemma left_over_all l : (0 < length l)%nat → left_over [] 0 l.
Proof. destruct l as [|x l]; cbn; [lia|]. intros _. left. exists x, l. split; [done|lia]. Qed.

(** Not enough candidates from here on. *)
Lemma left_over_pruned c selected n l :
  left_over selected n l → solution c l → (length candidates ≤ n ∨ length candidates - n < c - length selected)%nat →
  match selected with [] => False | s :: selected => left_over selected (S s) l end.
Proof.
  intros H [Hd Hl] Hprune. destruct selected as [|t selected]; destruct H as [(x & rest & -> & Hx)|H]; try done.
  all: exfalso; pose proof (subset_room _ _ _ Hd) as Hr; rewrite length_app, length_reverse in Hl; cbn in Hl, Hprune; lia.
Qed.

Lemma left_over_split selected n l : left_over selected n l → (∃ rest, l = reverse selected ++ n :: rest) ∨ left_over selected (S n) l.
Proof.
  destruct selected as [|t selected]; intros [(x & rest & -> & Hx)|H]; [|done| |right; by right].
  all: destruct (decide (x = n)) as [->|]; [left; by exists rest|right; left; exists x, rest; split; [done|lia]].
Qed.

(** The candidate at [n] is not different from all those selected. *)
Lemma left_over_skip selected n l :
  distinct_subset l → ¬ (∀ y, y ∈ selected → different_at n y) → left_over selected n l → left_over selected (S n) l.
Proof.
  intros Hd Hn [[rest ->]|H]%left_over_split; [|done]. destruct Hn. intros y Hy.
  rewrite cons_middle, app_assoc in Hd. apply subset_prefix, subset_snoc in Hd as (_ & _ & Hd). apply Hd. by apply elem_of_reverse.
Qed.

(** The candidate at [n] is selected, and more are needed. *)
Lemma left_over_push c selected n l :
  solution c l → (S (length selected) < c)%nat → left_over selected n l → left_over (n :: selected) (S n) l.
Proof.
  intros [Hd Hl] Hc [[rest ->]|H]%left_over_split; [|by right]. left. rewrite length_app, length_reverse in Hl.
  destruct rest as [|x rest]; cbn in Hl; [lia|]. exists x, rest. split; [by rewrite reverse_cons, <-app_assoc|]. apply subset_next in Hd. lia.
Qed.

(** The candidate at [n] completes the first solution. *)
Lemma left_over_first c selected n l :
  solution c l → S (length selected) = c → left_over selected n l → lex_le (reverse (n :: selected)) l.
Proof.
  intros [Hd Hl] Hc [[rest ->]|H]%left_over_split; rewrite reverse_cons.
  - left. rewrite length_app, length_reverse in Hl. destruct rest as [|y rest]; [done|]. cbn in Hl. lia.
  - right. exact (left_over_less _ (S n) n l [] ltac:(lia) H).
Qed.
End distinct.

(** ** Subsets as sets *)

Section sets.
Context {T : Type} `{Countable T} (candidates : list T) (differ : T → T → bool).
Context (Hnodup : NoDup candidates) (Hsym : ∀ x y, differ x y = differ y x).

(** [n] candidates that are pairwise different. *)
Definition distinct_set (n : nat) (X : gset T) : Prop :=
  size X = n ∧ (∀ x, x ∈ X → x ∈ candidates) ∧ ∀ x y, x ∈ X → y ∈ X → x ≠ y → differ x y = true.

Definition places (X : gset T) : list nat :=
  filter (λ i, match candidates !! i with Some x => bool_decide (x ∈ X) | None => false end = true) (seq 0 (length candidates)).

Lemma elem_of_places X i : i ∈ places X ↔ ∃ x, candidates !! i = Some x ∧ x ∈ X.
Proof.
  unfold places. rewrite list_elem_of_filter, elem_of_seq. split.
  - intros [Hx _]. destruct (candidates !! i) as [x|]; [|done]. exists x. split; [done|by apply bool_decide_eq_true in Hx].
  - intros (x & Hx & HX). rewrite Hx, bool_decide_eq_true. apply lookup_lt_Some in Hx. split; [done|lia].
Qed.

Lemma NoDup_places X : NoDup (places X).
Proof. apply NoDup_filter, NoDup_seq. Qed.

Lemma sorted_filter_seq (P : nat → Prop) `{∀ i, Decision (P i)} a n : StronglySorted lt (filter P (seq a n)).
Proof.
  revert a. induction n as [|n IH]; intros a; cbn [seq]; [constructor|]. rewrite filter_cons. case_decide; [|apply IH].
  constructor; [apply IH|]. apply Forall_forall. intros i Hi. apply list_elem_of_filter in Hi as [_ Hi]. apply elem_of_seq in Hi. lia.
Qed.

Lemma NoDup_lt_sorted (l : list nat) : StronglySorted lt l → NoDup l.
Proof.
  intros Hs. induction Hs as [|x l Hs IH Hx]; constructor; [|done]. intros Hin. rewrite Forall_forall in Hx. specialize (Hx x Hin). lia.
Qed.

(** The candidates at different indices are as many. *)
Lemma size_picked l :
  Forall (λ i, i < length candidates)%nat l → NoDup l → size (list_to_set (omap (candidates !!.) l) : gset T) = length l.
Proof.
  intros Hr Hl. assert (NoDup (omap (candidates !!.) l) ∧ length (omap (candidates !!.) l) = length l) as [Hn <-]; [|by apply size_list_to_set].
  induction Hl as [|i l Hi Hl IH]; [split; [constructor|done]|]. apply Forall_cons in Hr as [Hir Hr]. destruct (IH Hr) as [Hn IHl].
  destruct (lookup_lt_is_Some_2 _ _ Hir) as [x Hx]. cbn. rewrite Hx. cbn. rewrite IHl. split; [|done]. constructor; [|done].
  intros (j & Hj & Hxj)%list_elem_of_omap. by rewrite (NoDup_lookup _ _ _ _ Hnodup Hx Hxj) in Hi.
Qed.

Lemma length_places n X : distinct_set n X → length (places X) = n.
Proof.
  intros (Hs & Hin & _). rewrite <-Hs, <-size_picked; [|apply Forall_forall; intros i (x & Hx & _)%elem_of_places; by eapply lookup_lt_Some|apply NoDup_places].
  f_equal. apply set_eq. intros x. rewrite elem_of_list_to_set, list_elem_of_omap. split.
  - intros (i & (y & Hy & HyX)%elem_of_places & Hx). by simplify_eq.
  - intros HX. destruct (list_elem_of_lookup_1 _ _ (Hin x HX)) as [i Hi]. exists i. split; [|done]. apply elem_of_places. by exists x.
Qed.

Lemma solution_set n : (∃ l, solution candidates differ n l) ↔ ∃ X, distinct_set n X.
Proof.
  split.
  - intros (l & Hd & Hl). exists (list_to_set (omap (candidates !!.) l)).
    assert (∀ x, x ∈ omap (candidates !!.) l ↔ ∃ i, i ∈ l ∧ candidates !! i = Some x) as Hin by (intros x; apply list_elem_of_omap).
    split_and!.
    + rewrite size_picked; [done|apply Hd|apply NoDup_lt_sorted, Hd].
    + intros x. rewrite elem_of_list_to_set, Hin. intros (i & _ & Hi). by eapply list_elem_of_lookup_2.
    + intros x y. rewrite !elem_of_list_to_set, !Hin. intros (a & Ha & Hx) (b & Hb & Hy) Hne.
      apply list_elem_of_lookup in Ha as [i Hi], Hb as [j Hj].
      destruct (Nat.lt_trichotomy i j) as [Hlt|[->|Hlt]]; [|congruence|].
      * destruct (dsub_differ _ _ _ Hd i j a b Hi Hj Hlt) as (y' & x' & Hy' & Hx' & E). rewrite Hsym. congruence.
      * destruct (dsub_differ _ _ _ Hd j i b a Hj Hi Hlt) as (x' & y' & Hx' & Hy' & E). congruence.
  - intros (X & HX). exists (places X). split; [|by apply length_places]. destruct HX as (_ & _ & HX). split.
    + apply Forall_forall. intros i (x & Hx & _)%elem_of_places. by eapply lookup_lt_Some.
    + apply sorted_filter_seq.
    + intros i j a b Hi Hj Hlt. assert (a ≠ b) as Hab. { intros ->. pose proof (NoDup_lookup _ _ _ _ (NoDup_places X) Hi Hj). lia. }
      apply list_elem_of_lookup_2, elem_of_places in Hi as (x & Hx & HxX). apply list_elem_of_lookup_2, elem_of_places in Hj as (y & Hy & HyX).
      exists y, x. split_and!; [done|done|]. apply HX; [done|done|]. intros ->. by rewrite (NoDup_lookup _ _ _ _ Hnodup Hx Hy) in Hab.
Qed.
End sets.

(** ** The search *)

Section search.
Context {W : Type} `{ExpansionControl W} {T : Type} (candidates : list T) (n : nat) (limits : ExpansionLimits).
Context (known_different : T → T → W → ER bool) (differ : T → T → bool) (I : W → Prop) (F : ExpansionError → Prop).

(** The control keeps [I], also when it fails, which it does with [F]. *)
Definition control_keeps : Prop :=
  ∀ w, I w → meets exp_poll w (λ _ w', I w') (λ e w', I w' ∧ F e) ∧ ∀ amount, meets (exp_add_work amount) w (λ _ w', I w') (λ e w', I w' ∧ F e).

(** While [I] holds, the comparison answers as [differ], or fails with [F]. *)
Definition compares : Prop := ∀ x y w, I w → x ∈ candidates → y ∈ candidates →
  match known_different x y w with Ok b => b = differ x y | Err e => F e | Crash => False end.

(** Why a search may stop without an answer. *)
Definition cut_short (e : ExpansionError) : Prop :=
  F e ∨ (∃ steps, (max_distinct_search_steps limits < steps)%N ∧
    e = resource "pairwise-distinct successor search limit exceeded" "max_distinct_search_steps" steps (max_distinct_search_steps limits)) ∨
  (u64_max <= max_distinct_search_steps limits)%N ∧ e = invariant "distinct-search step counter overflow".

(** The first solution, or that there is none. *)
Definition answered (r : DistinctSearchResult) : Prop :=
  if ds_satisfied r then solution candidates differ n (ds_selected_indices r) ∧ ∀ l, solution candidates differ n l → lex_le (ds_selected_indices r) l
  else ds_selected_indices r = [] ∧ ∀ l, ¬ solution candidates differ n l.

Definition search_ok (s : Search) : Prop :=
  match se_next_indices s with
  | [] => ∀ l, ¬ solution candidates differ n l
  | i :: next =>
      next = S <$> se_selected s ∧ distinct_subset candidates differ (reverse (se_selected s)) ∧ (length (se_selected s) < n)%nat ∧
      (∀ y, y ∈ se_selected s → (y < i)%nat) ∧ ∀ l, solution candidates differ n l → left_over (se_selected s) i l
  end.

Context (Hcontrol : control_keeps) (Hcompare : compares).

Lemma count_step_meets steps w :
  I w → (steps <= max_distinct_search_steps limits)%N →
  meets (count_step limits steps) w (λ steps' w', I w' ∧ steps' = (steps + 1)%N ∧ (steps' <= max_distinct_search_steps limits)%N) (λ e w', I w' ∧ cut_short e).
Proof.
  intros Hw Hs. unfold count_step. destruct (checked_add u64_max steps 1) as [x|] eqn:Ex.
  - apply checked_add_Some in Ex as [-> Hx]. eapply (meets_bind _ _ _ (λ x w', w' = w ∧ x = (steps + 1)%N)); [done|].
    intros ? ? [-> ->]. eapply (meets_bind _ _ _ (λ _ w', w' = w ∧ (steps + 1 <= max_distinct_search_steps limits)%N)).
    { destruct (N.ltb_spec (max_distinct_search_steps limits) (steps + 1)); [|done]. split; [done|]. right. left. by exists (steps + 1)%N. }
    intros ? ? [-> Hle]. eapply (meets_bind _ _ _ (λ _ w', I w')); [|by intros ? w' Hw'; apply meets_ret].
    destruct (_ =? 0)%N; [|by apply meets_ret]. destruct (Hcontrol w Hw) as [_ Hwork].
    eapply meets_bind; [eapply meets_impl; [apply Hwork|done|by intros ? ? [? ?]; split; [|left]]|]. intros ? w' Hw'. eapply meets_impl; [by apply Hcontrol|done|by intros ? ? [? ?]; split; [|left]].
  - unfold checked_add in Ex. destruct (N.leb_spec (steps + 1) u64_max); [done|]. split; [done|]. right. right. split; [lia|done].
Qed.

Lemma all_different_meets x selected w :
  I w → x ∈ candidates → Forall (λ i, i < length candidates)%nat selected →
  meets (all_different candidates known_different x selected) w
    (λ b w', I w' ∧ (b = true ↔ ∀ i, i ∈ selected → ∃ y, candidates !! i = Some y ∧ differ x y = true)) (λ e w', I w' ∧ cut_short e).
Proof.
  intros Hw Hx Hsel. revert w Hw. induction Hsel as [|i selected Hi Hsel IH]; intros w Hw; cbn [all_different].
  - apply meets_ret. split; [done|]. split; [|done]. intros _ i Hi. by apply not_elem_of_nil in Hi.
  - destruct (lookup_lt_is_Some_2 _ _ Hi) as [y Hy].
    eapply (meets_bind _ _ _ (λ z w', w' = w ∧ z = y)); [by unfold index_or_crash; rewrite Hy|]. intros ? ? [-> ->].
    pose proof (Hcompare x y w Hw Hx (list_elem_of_lookup_2 _ _ _ Hy)) as Hc.
    eapply (meets_bind _ _ _ (λ b w', w' = w ∧ b = differ x y)).
    { unfold meets, reads. destruct (known_different x y w); [done|split; [done|by left]|done]. }
    intros ? ? [-> ->]. destruct (differ x y) eqn:E.
    + eapply meets_impl; [by apply IH| |done]. intros b w' [Hw' Hb]. split; [done|]. rewrite Hb. split.
      * intros H1 j [->|Hj]%elem_of_cons; [by exists y|by apply H1].
      * intros H1 j Hj. apply H1. by right.
    + apply meets_ret. split; [done|]. split; [done|]. intros H1. destruct (H1 i (list_elem_of_here _ _)) as (y' & Hy' & E'). congruence.
Qed.

Lemma search_turn_rounds :
  rounds (λ s w, I w ∧ search_ok s ∧ (se_steps s <= max_distinct_search_steps limits)%N)
    (λ s, max_distinct_search_steps limits + 2 - se_steps s)%N
    (λ r w, I w ∧ answered r ∧ (ds_steps r <= max_distinct_search_steps limits)%N) (λ e w', I w' ∧ cut_short e) 1
    (search_turn candidates n limits known_different).
Proof.
  intros [sel next steps] w (Hw & Hok & Hs). unfold search_turn, search_ok in *. cbn [se_next_indices se_selected se_steps] in *.
  destruct next as [|i next].
  { eapply meets_bind; [eapply meets_impl; [apply (Hcontrol w Hw)|done|by intros ? ? [? ?]; split; [|left]]|]. intros ? w' Hw'. apply meets_ret. by split_and!. }
  destruct Hok as (-> & Hd & Hlen & Hlt & Hleft). eapply meets_bind; [by apply count_step_meets|].
  intros steps' w1 (Hw1 & -> & Hs1). destruct (_ || _) eqn:Eprune; apply orb_prop in Eprune || apply orb_false_elim in Eprune as [Ei%Nat.leb_gt En%Nat.ltb_ge].
  { apply meets_ret. cbn [se_steps]. split; [|lia]. split_and!; [done| |done]. unfold search_ok. cbn [se_next_indices se_selected].
    assert (∀ l, solution candidates differ n l → match sel with [] => False | s :: sel => left_over sel (S s) l end) as Hrest.
    { intros l Hl. eapply left_over_pruned; [by apply Hleft|done|]. destruct Eprune as [E%Nat.leb_le|E%Nat.ltb_lt]; [by left|by right]. }
    destruct sel as [|s sel]; [done|]. cbn [tail fmap list_fmap]. rewrite reverse_cons in Hd. apply subset_snoc in Hd as (Hd & _ & Hy).
    split_and!; [done|done|cbn in Hlen; lia| |done]. intros y Hin%elem_of_reverse. destruct (Hy y Hin). lia. }
  destruct (lookup_lt_is_Some_2 _ _ Ei) as [x Hx].
  eapply (meets_bind _ _ _ (λ z w', w' = w1 ∧ z = x)); [by unfold index_or_crash; rewrite Hx|]. intros ? ? [-> ->].
  eapply meets_bind; [apply all_different_meets; [done|by eapply list_elem_of_lookup_2|apply Hd]|].
  intros b w2 [Hw2 Hb]. assert (b = true ↔ ∀ y, y ∈ sel → different_at candidates differ i y) as Hb'.
  { rewrite Hb. split; intros H1 y Hy.
    - destruct (H1 y) as (z & Hz & E); [by apply elem_of_reverse|]. by exists x, z.
    - rewrite elem_of_reverse in Hy. destruct (H1 y Hy) as (x' & z & Hx' & Hz & E). exists z. split; [done|congruence]. }
  clear Hb. destruct b; cbn [negb].
  2: { apply meets_ret. cbn [se_steps]. split; [|lia]. split_and!; [done| |done]. unfold search_ok. cbn [se_next_indices se_selected].
       split_and!; [done|done|done|intros y Hy; specialize (Hlt y Hy); lia|]. intros l Hl. eapply left_over_skip; [apply Hl| |by apply Hleft].
       intros H1. by apply Hb' in H1. }
  assert (distinct_subset candidates differ (reverse (i :: sel))) as Hd'.
  { rewrite reverse_cons. apply subset_snoc. split_and!; [done|done|]. intros y Hy. rewrite elem_of_reverse in Hy. split; [by apply Hlt|by apply Hb']. }
  destruct (Nat.eqb_spec (length (i :: sel)) n) as [Hn|Hn].
  - eapply meets_bind; [eapply meets_impl; [apply (Hcontrol w2 Hw2)|done|by intros ? ? [? ?]; split; [|left]]|]. intros ? w3 Hw3. apply meets_ret.
    split_and!; [done| |done]. unfold answered. cbn [ds_satisfied ds_selected_indices]. split; [split; [done|by rewrite length_reverse]|].
    intros l Hl. eapply left_over_first; [done|done|by apply Hleft].
  - apply meets_ret. cbn [se_steps]. split; [|lia]. split_and!; [done| |done]. unfold search_ok. cbn [se_next_indices se_selected]. cbn in Hn.
    split_and!; [done|done|cbn; lia| |].
    + intros y [->|Hy]%elem_of_cons; [lia|]. specialize (Hlt y Hy). lia.
    + intros l Hl. eapply left_over_push; [done|lia|by apply Hleft].
Qed.

Lemma no_room l : solution candidates differ n l → (n ≤ length candidates)%nat.
Proof. intros [Hd <-]. destruct l as [|x l]; [cbn; lia|]. pose proof (subset_room candidates differ [] x l Hd). cbn. lia. Qed.

(** The search answers, with the first solution in the order of the candidates or
    with the fact that there is none, unless it is cut short. *)
Lemma pairwise_distinct_subset_meets w :
  I w → meets (pairwise_distinct_subset candidates n limits known_different) w
    (λ r w', I w' ∧ answered r ∧ (ds_steps r <= max_distinct_search_steps limits)%N) (λ e w', I w' ∧ cut_short e).
Proof.
  intros Hw. unfold pairwise_distinct_subset. eapply meets_bind; [eapply meets_impl; [apply (Hcontrol w Hw)|done|by intros ? ? [? ?]; split; [|left]]|].
  intros ? w1 Hw1. destruct (Nat.eqb_spec n 0) as [Hn|Hn].
  { apply meets_ret. split_and!; [done| |apply N.le_0_l]. split; [split; [apply subset_nil|done]|]. intros l [_ Hl]. left. destruct l; [done|cbn in Hl; lia]. }
  destruct (Nat.ltb_spec (length candidates) n) as [Hc|Hc].
  { apply meets_ret. split_and!; [done| |apply N.le_0_l]. split; [done|]. intros l Hl%no_room. lia. }
  destruct (Nat.eqb_spec n 1) as [Hn1|Hn1].
  { apply meets_ret. split_and!; [done| |apply N.le_0_l]. split.
    - split; [|done]. apply (subset_snoc candidates differ [] 0%nat). split_and!; [apply subset_nil|lia|]. intros y Hy. by apply not_elem_of_nil in Hy.
    - intros l [_ Hl]. destruct l as [|i [|y l]]; cbn in Hl; [lia| |lia]. destruct i as [|i]; [by left|]. right. exists [], 0%nat, (S i), [], []. split_and!; [done|done|lia]. }
  eapply (meets_loopM _ _ _ _ _ _ _ _ search_turn_rounds).
  - split; [done|]. split; [|apply N.le_0_l]. unfold search_ok. cbn [se_next_indices se_selected]. split_and!; [done|apply subset_nil|cbn; lia|intros y Hy; by apply not_elem_of_nil in Hy|].
    intros l [_ Hl]. apply left_over_all. lia.
  - cbn [se_steps]. rewrite N.succ_pos_spec. lia.
Qed.
End search.
