(* ===== verification/ExpansionRun.v ===== *)
(** * Expansion over the tableau

    What the kernel answers to expansion, the successors that satisfy an obligation,
    and that an expansion keeps kernel and engine fit for each other. *)

From S2P Require Import Prelude Order Errors Model Queue Store Kernel KernelBase Arena Facts FactOps StateInv NodeOps KernelInv Totality AuditSpec Cancel Contracts Branching RuleModel Merging RulePlans Joins RuleEngine RuleSpec JoinSpec EngineBase EngineSafe EngineDispatch EngineRun NominalSpec NominalRun BlockingModel Projection BlockingChecker BlockingManager Expansion ExpansionAdapter ExpansionSpec.

(** ** Reading the kernel *)

Lemma expansion_dependency_canonical d : canonical d → Runtime.expansion_dependency d = Ok d.
Proof.
  intros Hd. unfold Runtime.expansion_dependency, Expansion.new_dependency. rewrite (proj2 (strictly_ascending_spec (as_slice d))) by done. by destruct d.
Qed.

Lemma collect_canonical ds : (∀ d, d ∈ ds → canonical d) → collectM Runtime.expansion_dependency ds = Ok ds.
Proof.
  induction ds as [|d ds IH]; intros Hd; [done|]. cbn. rewrite expansion_dependency_canonical by (apply Hd; by left). cbn.
  rewrite IH; [done|]. intros e He. apply Hd. by right.
Qed.

Section reads.
Context {D C : Type} `{OperationControl C} `{!NativeDatatypeExpansion D C}.
Context (w : ExpansionWorld D C) (Hk : state_ok (top (xw_kernel w)) (state (xw_kernel w))).
Abbreviation k := (xw_kernel w).
Implicit Types (h : NodeHandle) (n : Node).

Lemma read_record h n :
  stored (nodes (state k)) h n → n_lifecycle n = Active → Runtime.runtime_node_record h w = Ok (Some (Runtime.record_of h n)).
Proof.
  intros Hn Ha. unfold Runtime.runtime_node_record, Kernel.node. rewrite (proj2 (require_node_Ok h k n) Hn). cbn. by rewrite bool_decide_eq_true_2.
Qed.

Lemma record_read h r : Runtime.runtime_node_record h w = Ok (Some r) →
  ∃ n, stored (nodes (state k)) h n ∧ n_lifecycle n = Active ∧ r = Runtime.record_of h n.
Proof.
  unfold Runtime.runtime_node_record, Kernel.node. destruct (Kernel.require_node h k) as [n| |] eqn:E; cbn; [|done|done].
  apply require_node_Ok in E. case_bool_decide; [|done]. intros [= <-]. by exists n.
Qed.

Lemma read_canonical h : active_handle (nodes (state k)) h →
  Runtime.runtime_canonical_node h w = Ok (Some (Expansion.mkCanonical h Dep.empty)).
Proof.
  intros Hh. unfold Runtime.runtime_canonical_node.
  assert (Kernel.canonical_handle h k = Ok (h, Dep.empty)) as ->.
  { apply (canonical_handle_Ok k (arena_slots _ _ (state_arena _ _ Hk))). split; [|done]. exists [].
    split; [|done]. by apply (active_resolves (top k) (state k)), Hh; apply (state_arena _ _ Hk). }
  done.
Qed.

Definition blocked h n : bool :=
  bool_decide (is_Some (n_blocker n)) || match xw_blocking w with Some manager => Ops.is_blocked manager h | None => false end.

Lemma read_blocked h n : stored (nodes (state k)) h n → n_lifecycle n = Active → Runtime.runtime_is_blocked h w = Ok (blocked h n).
Proof. intros Hn Ha. unfold Runtime.runtime_is_blocked, Kernel.active_node. by rewrite (proj2 (require_active_Ok h k n)). Qed.

(** The record of a row. *)
Definition row_record (row : FactRow) : Expansion.FactRecord NodeHandle :=
  Expansion.mkFactRecord (row_id row) (predicate_id (row_key row)) (arguments (row_key row)) (supports row) (core row).

Lemma fact_of_row i row : active_row (state k) i row → Runtime.fact_of k (row_id row) = Ok (row_record row).
Proof.
  intros Hr. pose proof (state_facts _ _ Hk) as Hf. pose proof (facts_ids _ _ Hf _ _ (proj1 Hr)) as Hid. unfold Runtime.fact_of.
  assert (Kernel.fact (row_id row) k = Ok row) as ->. { unfold Kernel.fact. rewrite Hid, Nat2N.id. destruct Hr as [-> _]. done. }
  cbn. rewrite collect_canonical; [done|]. apply (supports_canonical _ _ (row_supports _ _ _ (facts_rows _ _ Hf _ _ Hr))).
Qed.

(** The bindings of a query, each position once. *)
Lemma add_bindings bs (acc : gmap N NodeHandle) :
  NoDup (Expansion.fb_position <$> bs) → (∀ b, b ∈ bs → acc !! Expansion.fb_position b = None) →
  ∃ indexed, foldM Runtime.add_binding bs acc = Ok indexed ∧
    ∀ p h, indexed !! p = Some h ↔ acc !! p = Some h ∨ ∃ b, b ∈ bs ∧ Expansion.fb_position b = p ∧ Expansion.fb_node b = h.
Proof.
  revert acc. induction bs as [|b bs IH]; intros acc Hn Hacc; cbn.
  - exists acc. split; [done|]. intros p h. split; [by left|]. intros [?|(b & Hb & _)]; [done|by apply not_elem_of_nil in Hb].
  - apply NoDup_cons in Hn as [Hb Hn].
    assert (Runtime.add_binding acc b = Ok (<[Expansion.fb_position b := Expansion.fb_node b]> acc)) as ->.
    { unfold Runtime.add_binding. by rewrite (Hacc b (list_elem_of_here _ _)). }
    cbn [mbind outcome_bind].
    destruct (IH (<[Expansion.fb_position b := Expansion.fb_node b]> acc) Hn) as (indexed & -> & Hi).
    { intros c Hc. rewrite lookup_insert_ne; [apply Hacc; by right|]. intros E. apply Hb. rewrite E. by apply list_elem_of_fmap_2. }
    exists indexed. split; [done|]. intros p h. rewrite Hi, lookup_insert_Some. setoid_rewrite elem_of_cons.
    assert (acc !! Expansion.fb_position b = None) as Hnone by (apply Hacc; by left). split; [naive_solver|].
    intros [Hp|(c & [->|Hc] & Hcp & Hch)]; [left; right; split; [congruence|done]|naive_solver|naive_solver].
Qed.

Lemma read_facts pid bs :
  NoDup (Expansion.fb_position <$> bs) → (∀ b, b ∈ bs → active_handle (nodes (state k)) (Expansion.fb_node b)) →
  ∃ rows, Runtime.runtime_facts pid bs w = Ok rows ∧
    ∀ r, r ∈ rows ↔ ∃ i row, active_row (state k) i row ∧ predicate_id (row_key row) = pid ∧
      (∀ b, b ∈ bs → arguments (row_key row) !! N.to_nat (Expansion.fb_position b) = Some (Expansion.fb_node b)) ∧ r = row_record row.
Proof.
  intros Hn Hact. destruct (add_bindings bs ∅ Hn) as (indexed & Hidx & Hi); [by intros; apply lookup_empty|].
  assert (∀ p h, indexed !! p = Some h ↔ ∃ b, b ∈ bs ∧ Expansion.fb_position b = p ∧ Expansion.fb_node b = h) as Hi'.
  { intros p h. rewrite Hi, lookup_empty. naive_solver. } clear Hi.
  unfold Runtime.runtime_facts. rewrite Hidx. cbn [mbind outcome_bind].
  rewrite (candidate_fact_ids_scan (top k) k pid indexed (state_facts _ _ Hk)) by (intros p h (b & Hb & _ & <-)%Hi'; by apply Hact).
  cbn [Runtime.converted mbind outcome_bind].
  assert (∀ row, Kernel.row_matches pid (btree_entries indexed) row = true ↔
    active row = true ∧ predicate_id (row_key row) = pid ∧
    ∀ b, b ∈ bs → arguments (row_key row) !! N.to_nat (Expansion.fb_position b) = Some (Expansion.fb_node b)) as Hm.
  { intros row. unfold Kernel.row_matches. rewrite !andb_true_iff, bool_decide_eq_true, forallb_forall. split.
    - intros ((Ha & Hp) & Hall). split_and!; [done|done|]. intros b Hb. specialize (Hall (Expansion.fb_position b, Expansion.fb_node b)).
      rewrite <-list_elem_of_In, elem_of_btree_entries, Hi', bool_decide_eq_true in Hall. apply Hall. by exists b.
    - intros (Ha & Hp & Hall). split_and!; [done|done|]. intros [p h] Hin. apply list_elem_of_In, elem_of_btree_entries, Hi' in Hin as (b & Hb & <- & <-).
      apply bool_decide_eq_true. by apply Hall. }
  exists (row_record <$> List.filter (Kernel.row_matches pid (btree_entries indexed)) (facts (state k))). split.
  - assert (∀ rows, (∀ row, row ∈ rows → ∃ i, active_row (state k) i row) → collectM (Runtime.fact_of k) (row_id <$> rows) = Ok (row_record <$> rows)) as Hc.
    { intros rows. induction rows as [|row rows IH]; intros Hrows; [done|]. cbn. destruct (Hrows row (list_elem_of_here _ _)) as [i Hr].
      rewrite (fact_of_row i row Hr). cbn. rewrite IH; [done|]. intros r Hr'. apply Hrows. by right. }
    apply Hc. intros row Hrow%list_elem_of_In. apply filter_In in Hrow as [Hin Hrow%Hm]. apply list_elem_of_In, list_elem_of_lookup in Hin as [i Hi].
    exists i. split; [done|apply Hrow].
  - intros r. rewrite list_elem_of_fmap. split.
    + intros (row & -> & Hrow%list_elem_of_In). apply filter_In in Hrow as [Hin Hrow%Hm]. apply list_elem_of_In, list_elem_of_lookup in Hin as [i Hi].
      exists i, row. destruct Hrow as (Ha & Hp & Hall). by split_and!.
    + intros (i & row & [Hi Ha] & Hp & Hall & ->). exists row. split; [done|]. apply list_elem_of_In, filter_In. split; [by eapply list_elem_of_In, list_elem_of_lookup_2|by apply Hm].
Qed.

(** An active row says that [pid] holds of [args]. *)
Definition asserted (pid : N) (args : list NodeHandle) : Prop :=
  ∃ i row, active_row (state k) i row ∧ predicate_id (row_key row) = pid ∧ args `prefix_of` arguments (row_key row).

Lemma collect_bindings (args : list NodeHandle) (from : nat) :
  N.of_nat (from + length args) ≤ u32_max →
  collectM (λ e : nat * NodeHandle, position ← ok_or (u32_try_from e.1) (Expansion.invariant "fact binding position exceeds u32");
      Ok (Expansion.mkBinding position e.2)) (imap (λ i, pair (from + i)%nat) args) =
    Ok (imap (λ i h, Expansion.mkBinding (N.of_nat (from + i)) h) args).
Proof.
  revert from. induction args as [|h args IH]; intros from Hl; [done|]. cbn in Hl. cbn [imap collectM fst snd].
  assert (u32_try_from (from + 0) = Some (N.of_nat (from + 0))) as -> by (apply u32_try_from_Some; split; [done|lia]).
  cbn [ok_or mbind outcome_bind]. specialize (IH (S from) ltac:(lia)).
  assert (imap ((λ i : nat, pair (from + i)%nat) ∘ S) args = imap (λ i : nat, pair (S from + i)%nat) args) as -> by (apply imap_ext; intros; cbn; f_equal; lia).
  rewrite IH. cbn. f_equal. f_equal. apply imap_ext. intros. cbn. f_equal. lia.
Qed.

Lemma read_fact pid args :
  N.of_nat (length args) ≤ u32_max → (∀ h, h ∈ args → active_handle (nodes (state k)) h) →
  ∃ b, Expansion.has_fact pid args w = Ok b ∧ (b = true ↔ asserted pid args).
Proof.
  intros Hl Hact. unfold Expansion.has_fact. pose proof (collect_bindings args 0 Hl) as Hc. cbn [Nat.add] in Hc. change (λ i : nat, pair i) with (@pair nat NodeHandle) in Hc.
  rewrite Hc. cbn [mbind outcome_bind]. clear Hc.
  set (bs := imap (λ i h, Expansion.mkBinding (N.of_nat i) h) args).
  assert (∀ b, b ∈ bs ↔ ∃ i h, args !! i = Some h ∧ b = Expansion.mkBinding (N.of_nat i) h) as Hbs.
  { intros b. unfold bs. rewrite elem_of_lookup_imap. naive_solver. }
  destruct (read_facts pid bs) as (rows & Hrows & Hin).
  - unfold bs. rewrite fmap_imap. apply NoDup_alt. intros i j p Hi Hj. rewrite list_lookup_imap in Hi, Hj.
    destruct (args !! i), (args !! j); cbn in *; simplify_eq. lia.
  - intros b (i & h & Hh & ->)%Hbs. apply Hact. by eapply list_elem_of_lookup_2.
  - cbn. change (Expansion.facts pid bs w) with (Runtime.runtime_facts pid bs w). rewrite Hrows. cbn. eexists. split; [done|].
    rewrite negb_true_iff, bool_decide_eq_false.
    assert (∀ row, (∀ b, b ∈ bs → arguments (row_key row) !! N.to_nat (Expansion.fb_position b) = Some (Expansion.fb_node b)) ↔
      args `prefix_of` arguments (row_key row)) as Hpre.
    { intros row. split.
      - intros Hall. assert (∀ i h, args !! i = Some h → arguments (row_key row) !! i = Some h) as Hp.
        { intros i h Hh. specialize (Hall (Expansion.mkBinding (N.of_nat i) h)). cbn in Hall. rewrite Nat2N.id in Hall. apply Hall, Hbs. eauto. }
        exists (drop (length args) (arguments (row_key row))). apply list_eq. intros i. destruct (decide (i < length args)%nat) as [Hlt|Hge].
        + rewrite lookup_app_l by done. destruct (lookup_lt_is_Some_2 _ _ Hlt) as [h Hh]. rewrite Hh. by apply Hp.
        + rewrite lookup_app_r, lookup_drop by lia. f_equal. lia.
      - intros [rest E] b (i & h & Hh & ->)%Hbs. cbn. rewrite Nat2N.id, E. by apply lookup_app_l_Some. }
    split.
    + intros Hne. destruct rows as [|r rows]; [done|]. destruct (proj1 (Hin r) (list_elem_of_here _ _)) as (i & row & Ha & Hp & Hall & _).
      exists i, row. split_and!; [done|done|by apply Hpre].
    + intros (i & row & Ha & Hp & Hpr) Hnil. apply length_zero_iff_nil in Hnil as ->. apply (not_elem_of_nil (row_record row)), Hin. exists i, row.
      split_and!; [done|done|by apply Hpre|done].
Qed.

#[local] Opaque Expansion.has_fact.

(** ** Different nodes *)

Lemma read_pair l g n m :
  stored (nodes (state k)) l n → n_lifecycle n = Active → stored (nodes (state k)) g m → n_lifecycle m = Active →
  ∃ p, Expansion.ordered_pair l g w = Ok p ∧ Expansion.ordered_pair g l w = Ok p ∧ (p = (l, g) ∨ p = (g, l)).
Proof.
  intros Hn Hna Hm Hma. unfold Expansion.ordered_pair. cbn.
  rewrite !(read_record l n Hn Hna), !(read_record g m Hm Hma). cbn.
  set (x := (_, l)). set (y := (_, g)). assert (compare y x = CompOpp (compare x y)) as -> by apply compare_antisym.
  destruct (compare x y) eqn:E; cbn.
  - apply compare_eq in E. assert (l = g) as -> by (unfold x, y in E; congruence). eexists. split_and!; [done|done|by left].
  - eexists. split_and!; [done|done|by left].
  - eexists. split_and!; [done|done|by right].
Qed.

Section obligation.
Context (m : Expansion.ExistentialExpansionManager) (p : Expansion.AtLeastPredicate) (root : NodeHandle).
Abbreviation roles := (Expansion.xp_roles (Expansion.xm_program m)).

(** The inequality of two nodes is a row, with the older node first. *)
Definition unequal (l g : NodeHandle) : Prop :=
  ∃ pid e, Expansion.inequality_predicate roles Object = Some pid ∧ Expansion.ordered_pair l g w = Ok e ∧ asserted pid [e.1; e.2].

Lemma unequal_sym l g : active_handle (nodes (state k)) l → active_handle (nodes (state k)) g → unequal l g ↔ unequal g l.
Proof.
  intros (n & Hn & Hna) (n' & Hn' & Hna'). destruct (read_pair l g n n' Hn Hna Hn' Hna') as (e & E1 & E2 & _).
  unfold unequal. by rewrite E1, E2.
Qed.

Lemma read_different l g : active_handle (nodes (state k)) l → active_handle (nodes (state k)) g →
  ∃ b, Expansion.known_different m Object l g w = Ok b ∧ (b = true ↔ l ≠ g ∧ unequal l g).
Proof.
  intros Hl Hg. unfold Expansion.known_different. case_bool_decide as Heq; [by exists false; split; [|naive_solver]|].
  destruct Hl as (n & Hn & Hna), Hg as (n' & Hn' & Hna'). destruct (read_pair l g n n' Hn Hna Hn' Hna') as (e & E1 & _ & He).
  unfold unequal. destruct (Expansion.inequality_predicate roles Object) as [pid|] eqn:Ei.
  - rewrite E1. cbn [mbind outcome_bind]. destruct (read_fact pid [e.1; e.2]) as (b & -> & Hb); [done| |].
    { intros h. rewrite !elem_of_cons. destruct He as [-> | ->]; cbn; intros [->|[->|Hin]]; [by exists n|by exists n'|by apply not_elem_of_nil in Hin|by exists n'|by exists n|by apply not_elem_of_nil in Hin]. }
    cbn. exists b. split; [by destruct b|]. rewrite Hb. naive_solver.
  - exists false. split; [done|]. naive_solver.
Qed.

(** ** Successors *)

(** The role links the root to [h]. *)
Definition linked (role : N) (h : NodeHandle) : Prop :=
  role = Expansion.rv_top_object_role_id roles ∨
  role ≠ Expansion.rv_bottom_object_role_id roles ∧
  ∃ pid i row, Expansion.role_predicate roles Object role = Some pid ∧ active_row (state k) i row ∧
    row_key row = mkFactKey pid [root; h].

(** A node that counts for the obligation: an object that the role links and that the
    filler holds of, unless it is blocked and no child of the root. *)
Definition successor (role : N) (h : NodeHandle) : Prop :=
  linked role h ∧ asserted (Expansion.al_filler_predicate_id p) [h] ∧
  ∃ n, stored (nodes (state k)) h n ∧ n_lifecycle n = Active ∧ kind_sort (n_kind n) = Object ∧
    (blocked h n = false ∨ n_parent n = Some root).

(** The rows of the role are pairs, of an object in the second place. *)
Definition role_rows (role : N) : Prop := ∀ pid i row,
  Expansion.role_predicate roles Object role = Some pid → active_row (state k) i row → predicate_id (row_key row) = pid →
  ∃ g h n, arguments (row_key row) = [g; h] ∧ stored (nodes (state k)) h n ∧ kind_sort (n_kind n) = Object.

Lemma object_satisfier_Ok result target n :
  stored (nodes (state k)) target n → n_lifecycle n = Active → kind_sort (n_kind n) = Object →
  ∃ result', Expansion.object_satisfier p root w result target = Ok result' ∧
    ∀ h, is_Some (result' !! h) ↔ is_Some (result !! h) ∨
      h = target ∧ asserted (Expansion.al_filler_predicate_id p) [h] ∧ (blocked h n = false ∨ n_parent n = Some root).
Proof.
  intros Hn Ha Hs. assert (active_handle (nodes (state k)) target) as Hact by by exists n. unfold Expansion.object_satisfier.
  cbn. rewrite (read_canonical target Hact). cbn. rewrite (read_record target n Hn Ha). cbn. rewrite Hs. cbn.
  rewrite (read_blocked target n Hn Ha). cbn [mbind outcome_bind].
  destruct (read_fact (Expansion.al_filler_predicate_id p) [target]) as (b & Hb & Hbt); [done|by intros h ->%list_elem_of_singleton|].
  assert (∀ (b : bool) (x : Expansion.CandidatePriority) h, is_Some ((if b then <[target := x]> result else result) !! h) ↔ is_Some (result !! h) ∨ h = target ∧ b = true) as Hins.
  { intros [] x h; [|naive_solver]. destruct (decide (h = target)) as [->|]; [rewrite lookup_insert_eq|rewrite lookup_insert_ne by done].
    - split; [intros _; by right|by eexists].
    - split; [by left|]. by intros [?|[? _]]. }
  assert (∃ result', Ok (E:=Expansion.ExpansionError) (if b then <[target := Expansion.mkPriority (n_creation_id n) (slot target) (generation target)]> result else result) = Ok result' ∧
    ∀ h, is_Some (result' !! h) ↔ is_Some (result !! h) ∨ h = target ∧ asserted (Expansion.al_filler_predicate_id p) [h]) as (result' & Er & Hr).
  { eexists. split; [done|]. intros h. rewrite Hins. split; (intros [?|[-> ?]]; [by left|right; split; [done|by apply Hbt]]). }
  destruct (blocked target n) eqn:Eb; cbn [andb]; [case_bool_decide as Hp; cbn [negb]|].
  - rewrite Hb. cbn [mbind outcome_bind]. exists result'. split; [exact Er|]. intros h. rewrite Hr. naive_solver.
  - exists result. split; [done|]. intros h. split; [by left|]. intros [?|(-> & _ & [?|?])]; [done|congruence|done].
  - rewrite Hb. cbn [mbind outcome_bind]. exists result'. split; [exact Er|]. intros h. rewrite Hr. split; (intros [?|[-> ?]]; [by left|right]); [|naive_solver].
    split_and!; [done|done|by left].
Qed.

Lemma object_satisfiers_fold targets result :
  (∀ h, h ∈ targets → ∃ n, stored (nodes (state k)) h n ∧ n_lifecycle n = Active ∧ kind_sort (n_kind n) = Object) →
  ∃ result', foldM (Expansion.object_satisfier p root w) targets result = Ok result' ∧
    ∀ h, is_Some (result' !! h) ↔ is_Some (result !! h) ∨ h ∈ targets ∧ asserted (Expansion.al_filler_predicate_id p) [h] ∧
      ∃ n, stored (nodes (state k)) h n ∧ n_lifecycle n = Active ∧ kind_sort (n_kind n) = Object ∧ (blocked h n = false ∨ n_parent n = Some root).
Proof.
  revert result. induction targets as [|target targets IH]; intros result Ht; cbn [foldM].
  - exists result. split; [done|]. intros h. split; [by left|]. intros [?|[Hin _]]; [done|by apply not_elem_of_nil in Hin].
  - destruct (Ht target (list_elem_of_here _ _)) as (n & Hn & Ha & Hs). destruct (object_satisfier_Ok result target n Hn Ha Hs) as (r1 & -> & H1).
    cbn [mbind outcome_bind]. destruct (IH r1) as (r2 & -> & H2); [by intros h Hh; apply Ht; right|]. exists r2. split; [done|].
    intros h. rewrite H2, H1, elem_of_cons. split.
    + intros [[?|(-> & ? & ?)]|(? & ? & ?)]; [by left|right|right]; (split_and!; [auto|done|]); [by exists n|done].
    + intros [?|([->|?] & ? & n' & Hn' & ? & ? & ?)]; [by left; left|left; right|by right; split_and!; [done|done|exists n']].
      rewrite (stored_fun _ _ _ _ Hn Hn'). done.
Qed.

Lemma read_active_nodes : ∃ records, Runtime.runtime_active_nodes w = Ok records ∧
  ∀ r, r ∈ records ↔ ∃ h n, stored (nodes (state k)) h n ∧ n_lifecycle n = Active ∧ r = Runtime.record_of h n.
Proof.
  unfold Runtime.runtime_active_nodes. assert (∀ h, h ∈ Kernel.active_node_handles k ↔ active_handle (nodes (state k)) h) as Hh.
  { intros h. apply elem_of_active_node_handles, (arena_slots _ _ (state_arena _ _ Hk)). }
  revert Hh. generalize (Kernel.active_node_handles k). intros handles Hh.
  assert (∃ records, collectM (λ h, record ← Runtime.runtime_node_record h w;
      ok_or record (Expansion.invariant "active node disappeared during expansion read")) handles = Ok records ∧
    ∀ r, r ∈ records ↔ ∃ h n, h ∈ handles ∧ stored (nodes (state k)) h n ∧ n_lifecycle n = Active ∧ r = Runtime.record_of h n) as (records & -> & Hr).
  { assert (∀ h, h ∈ handles → active_handle (nodes (state k)) h) as Hact by (intros; by apply Hh). clear Hh.
    induction handles as [|h handles IH]; [exists []; split; [done|]; intros r; split; [intros Hr; by apply not_elem_of_nil in Hr|intros (h & n & Hin & _); by apply not_elem_of_nil in Hin]|].
    destruct IH as (records & Hc & Hr); [by intros; apply Hact; right|]. destruct (Hact h (list_elem_of_here _ _)) as (n & Hn & Ha).
    exists (Runtime.record_of h n :: records). cbn. rewrite (read_record h n Hn Ha). cbn. rewrite Hc. split; [done|]. intros r.
    rewrite elem_of_cons, Hr. setoid_rewrite elem_of_cons. split; [naive_solver|]. intros (h' & n' & [->|Hin] & Hn' & Ha' & ->); [left|right; eauto 8].
    by rewrite (stored_fun _ _ _ _ Hn Hn'). }
  exists records. split; [done|]. intros r. rewrite Hr. split; [naive_solver|]. intros (h & n & Hn & Ha & ->). exists h, n. split_and!; [|done..]. apply Hh. by exists n.
Qed.

Lemma object_targets role : role ≠ Expansion.rv_bottom_object_role_id roles → role_rows role → active_handle (nodes (state k)) root →
  Expansion.special_role roles Object role = true ∨ is_Some (Expansion.role_predicate roles Object role) →
  ∃ targets, Expansion.role_targets m Object (Expansion.rv_top_object_role_id roles) role "object role predicate is unavailable" root w = Ok targets ∧
    (∀ h, h ∈ targets → ∃ n, stored (nodes (state k)) h n ∧ n_lifecycle n = Active ∧ kind_sort (n_kind n) = Object) ∧
    ∀ h n, stored (nodes (state k)) h n → n_lifecycle n = Active → kind_sort (n_kind n) = Object → h ∈ targets ↔ linked role h.
Proof.
  intros Hbot Hrows Hroot Hrole. unfold Expansion.role_targets. destruct (N.eqb_spec role (Expansion.rv_top_object_role_id roles)) as [Htop|Htop].
  - destruct read_active_nodes as (records & Hrec & Hin). cbn. rewrite Hrec. cbn. eexists. split; [done|].
    assert (∀ h, h ∈ Expansion.nd_node <$> filter (λ r : Expansion.NodeRecord NodeHandle, kind_sort (Expansion.nd_kind r) = Object) records ↔
      ∃ n, stored (nodes (state k)) h n ∧ n_lifecycle n = Active ∧ kind_sort (n_kind n) = Object) as Hset.
    { intros h. rewrite list_elem_of_fmap. setoid_rewrite list_elem_of_filter. setoid_rewrite Hin. split.
      - intros (r & -> & Hs & h' & n & Hn & Ha & ->). by exists n.
      - intros (n & Hn & Ha & Hs). exists (Runtime.record_of h n). split_and!; [done|done|by exists h, n]. }
    split; [intros h; apply Hset|]. intros h n Hn Ha Hs. rewrite Hset. split; [intros _; by left|]. intros _. by exists n.
  - destruct (Expansion.role_predicate roles Object role) as [pid|] eqn:Er.
    2: { destruct Hrole as [Hs|[? ?]]; [|done]. cbn in Hs. apply orb_prop in Hs as [?%N.eqb_eq|?%N.eqb_eq]; done. }
    cbn [ok_or mbind outcome_bind]. destruct (read_facts pid [Expansion.mkBinding 0 root]) as (rows & Hr & Hin).
    { apply NoDup_singleton. }
    { by intros b ->%list_elem_of_singleton. }
    change (Expansion.facts pid [Expansion.mkBinding 0 root] w) with (Runtime.runtime_facts pid [Expansion.mkBinding 0 root] w).
    rewrite Hr. cbn [mbind outcome_bind].
    assert (∀ r, r ∈ rows → ∃ h i row n, active_row (state k) i row ∧ row_key row = mkFactKey pid [root; h] ∧ r = row_record row ∧
      Expansion.row_target r = Ok h ∧ stored (nodes (state k)) h n ∧ n_lifecycle n = Active ∧ kind_sort (n_kind n) = Object) as Hrow.
    { intros r (i & row & Ha & Hp & Hall & ->)%Hin. destruct (Hrows pid i row Er Ha Hp) as (g & h & n & Hargs & Hn & Hs).
      specialize (Hall _ (list_elem_of_here _ _)). cbn in Hall. rewrite Hargs in Hall. injection Hall as ->.
      destruct (row_arguments _ _ _ (facts_rows _ _ (state_facts _ _ Hk) _ _ Ha) h) as (n' & Hn' & Hact); [rewrite Hargs; by right; left|].
      rewrite <-(stored_fun _ _ _ _ Hn Hn') in Hact. exists h, i, row, n. unfold Expansion.row_target. cbn. rewrite Hargs. cbn.
      split_and!; [done| |done..]. destruct (row_key row); cbn in *; congruence. }
    assert (∃ targets, collectM Expansion.row_target rows = Ok targets ∧ ∀ h, h ∈ targets ↔ ∃ r, r ∈ rows ∧ Expansion.row_target r = Ok h) as (targets & Hc & Ht).
    { assert (∀ r, r ∈ rows → ∃ h, Expansion.row_target r = Ok h) as Hok by (intros r (h & ? & ? & ? & ? & ? & ? & ? & _)%Hrow; by exists h).
      clear -Hok. induction rows as [|r rows IH]; [exists []; split; [done|]; intros h; split; [intros Hh; by apply not_elem_of_nil in Hh|intros (r & Hr & _); by apply not_elem_of_nil in Hr]|].
      destruct IH as (targets & Hc & Ht); [by intros; apply Hok; right|]. destruct (Hok r (list_elem_of_here _ _)) as [h Hh]. exists (h :: targets).
      cbn. rewrite Hh. cbn. rewrite Hc. split; [done|]. intros g. rewrite elem_of_cons, Ht. setoid_rewrite elem_of_cons. split; [naive_solver|].
      intros (r' & [->|Hin] & Hr'); [left; congruence|right; eauto]. }
    exists targets. split; [done|]. split.
    + intros h (r & Hr' & Hh)%Ht. destruct (Hrow r Hr') as (h' & i & row & n & Ha & Hkey & -> & Hh' & Hn & Hact & Hs). exists n. assert (h = h') as -> by congruence. done.
    + intros h n Hn Ha Hs. rewrite Ht. split.
      * intros (r & Hr' & Hh). destruct (Hrow r Hr') as (h' & i & row & n' & Har & Hkey & -> & Hh' & _). assert (h = h') as -> by congruence.
        right. split; [done|]. exists pid, i, row. by split_and!.
      * intros [?|(_ & pid' & i & row & Hp & Har & Hkey)]; [done|]. assert (pid' = pid) as -> by congruence. exists (row_record row). split.
        -- apply Hin. exists i, row. rewrite Hkey. split_and!; [done|done|by intros b ->%list_elem_of_singleton|done].
        -- unfold Expansion.row_target. cbn. by rewrite Hkey.
Qed.

Lemma sorted_nodes_spec (values : gmap NodeHandle Expansion.CandidatePriority) :
  NoDup (Expansion.sorted_nodes values) ∧ ∀ h, h ∈ Expansion.sorted_nodes values ↔ is_Some (values !! h).
Proof.
  unfold Expansion.sorted_nodes.
  assert ((sort ((λ e : NodeHandle * Expansion.CandidatePriority, (e.2, e.1)) <$> btree_entries values)).*2 ≡ₚ btree_keys values) as Hp.
  { rewrite sort_Permutation, <-btree_entries_keys, <-list_fmap_compose. apply fmap_Permutation. done. }
  split; [rewrite Hp; apply NoDup_btree_keys|]. intros h. by rewrite Hp, elem_of_btree_keys.
Qed.

(** The candidates for an object obligation are its successors. *)
Lemma object_satisfiers_Ok role : Expansion.al_role_ids p = [role] → role_rows role → active_handle (nodes (state k)) root →
  Expansion.special_role roles Object role = true ∨ is_Some (Expansion.role_predicate roles Object role) →
  Expansion.rv_top_object_role_id roles ≠ Expansion.rv_bottom_object_role_id roles →
  ∃ candidates, Expansion.object_satisfiers m p root w = Ok candidates ∧ NoDup candidates ∧ ∀ h, h ∈ candidates ↔ successor role h.
Proof.
  intros Hids Hrows Hroot Hrole Hroles. unfold Expansion.object_satisfiers, Expansion.only_role. rewrite Hids. cbn [mbind outcome_bind].
  destruct (N.eqb_spec role (Expansion.rv_bottom_object_role_id roles)) as [Hbot|Hbot].
  - exists []. split_and!; [done|constructor|]. intros h. split; [intros Hh; by apply not_elem_of_nil in Hh|]. intros ([?|[? _]] & _); congruence.
  - destruct (object_targets role Hbot Hrows Hroot Hrole) as (targets & -> & Ht & Hl). cbn [mbind outcome_bind].
    destruct (object_satisfiers_fold targets ∅ Ht) as (result & -> & Hres). cbn [mbind outcome_bind]. destruct (sorted_nodes_spec result) as [Hn Hin].
    eexists. split_and!; [done|done|]. intros h. rewrite Hin, Hres, lookup_empty. unfold successor. split.
    + intros [[? ?]|(Hh & Hf & n & Hn' & Ha & Hs & Hv)]; [done|]. split_and!; [by apply (Hl h n)|done|by exists n].
    + intros (Hlk & Hf & n & Hn' & Ha & Hs & Hv). right. split_and!; [by apply (Hl h n)|done|by exists n].
Qed.
End obligation.
End reads.

(** ** Satisfaction *)

Section satisfaction.
Context {D C : Type} `{OperationControl C} `{!NativeDatatypeExpansion D C}.
Abbreviation W := (ExpansionWorld D C).

(** The control answers. *)
Definition calm_control : Prop := ∀ c : C, (control_poll c).1 ≠ Crash.

(** An error of the control. *)
Definition stopped_by_control (e : Expansion.ExpansionError) : Prop :=
  ∃ (c c' : C) error, control_poll c = (Err error, c') ∧ e = Runtime.native_to_expansion error.

(** Only the control has been used. *)
Definition looked (w w' : W) : Prop := ∃ c, w' = w <| xw_control := c |>.

Lemma runtime_control (w : W) : calm_control → control_keeps (looked w) stopped_by_control.
Proof.
  intros Hc ? [c ->]. split.
  - unfold meets. cbn. unfold Runtime.poll. cbn. specialize (Hc c). destruct (control_poll c) as [[[]|e|] c'] eqn:E; [by exists c'|split; [by exists c'|by exists c, c', e]|done].
  - intros amount. by exists c.
Qed.

(** [n] successors that are pairwise unequal. *)
Definition at_least (m : Expansion.ExistentialExpansionManager) (p : Expansion.AtLeastPredicate) (root : NodeHandle) (role : N) (n : nat) (w : W) : Prop :=
  ∃ X : gset NodeHandle, size X = n ∧ (∀ h, h ∈ X → successor w m p root role h) ∧ ∀ h g, h ∈ X → g ∈ X → h ≠ g → unequal w m h g.

Lemma successor_active (w : W) m p root role h : successor w m p root role h → active_handle (nodes (state (xw_kernel w))) h.
Proof. intros (_ & _ & n & Hn & Ha & _). by exists n. Qed.

Lemma is_satisfied_meets (w : W) m p root role :
  calm_control → state_ok (top (xw_kernel w)) (state (xw_kernel w)) →
  Expansion.al_kind p = Expansion.ObjectObligation → Expansion.al_role_ids p = [role] → role_rows w m role →
  active_handle (nodes (state (xw_kernel w))) root →
  let roles := Expansion.xp_roles (Expansion.xm_program m) in
  Expansion.special_role roles Object role = true ∨ is_Some (Expansion.role_predicate roles Object role) →
  Expansion.rv_top_object_role_id roles ≠ Expansion.rv_bottom_object_role_id roles →
  meets (Expansion.is_satisfied m p root) w
    (λ b w', looked w w' ∧ (b = true ↔ at_least m p root role (N.to_nat (Expansion.al_cardinality p)) w))
    (λ e w', looked w w' ∧ cut_short (Expansion.xm_limits m) stopped_by_control e).
Proof.
  intros Hcalm Hk Hkind Hids Hrows Hroot roles Hrole Hroles. unfold Expansion.is_satisfied. rewrite Hkind.
  destruct (N.eqb_spec (Expansion.al_cardinality p) 0) as [Hzero|Hzero].
  { apply meets_ret. split; [by exists (xw_control w); destruct w|]. split; [|done]. intros _. exists ∅. rewrite size_empty, Hzero. split_and!; [done|set_solver|set_solver]. }
  destruct (object_satisfiers_Ok w Hk m p root role Hids Hrows Hroot Hrole Hroles) as (candidates & Hc & Hnodup & Hin).
  eapply (meets_bind _ _ _ (λ x w', x = candidates ∧ w' = w)); [by unfold meets, reads; rewrite Hc|]. intros ? ? [-> ->].
  set (differ := λ l g, match Expansion.known_different m Object l g w with Ok b => b | _ => false end).
  assert (∀ l g, l ∈ candidates → g ∈ candidates → Expansion.known_different m Object l g w = Ok (differ l g) ∧ (differ l g = true ↔ l ≠ g ∧ unequal w m l g)) as Hd.
  { intros l g Hl Hg. destruct (read_different w Hk m l g) as (b & Hb & Hbt); [by eapply successor_active, Hin|by eapply successor_active, Hin|].
    unfold differ. rewrite Hb. done. }
  eapply meets_bind.
  { apply (pairwise_distinct_subset_meets candidates (N.to_nat (Expansion.al_cardinality p)) (Expansion.xm_limits m) (Expansion.known_different m Object)
      (λ l g, differ l g && differ g l) (looked w) stopped_by_control).
    - by apply runtime_control.
    - intros l g ? [c ->] Hl Hg. change (Expansion.known_different m Object l g (w <| xw_control := c |>)) with (Expansion.known_different m Object l g w).
      destruct (Hd l g Hl Hg) as [-> H1], (Hd g l Hg Hl) as [_ H2]. apply eq_true_iff_eq. rewrite andb_true_iff, H1, H2.
      rewrite (unequal_sym w m l g); [naive_solver|by eapply successor_active, Hin..].
    - by exists (xw_control w); destruct w. }
  intros r w' (Hw' & Hr & _). apply meets_ret. split; [done|].
  assert (Expansion.ds_satisfied r = true ↔ ∃ l, solution candidates (λ l g, differ l g && differ g l) (N.to_nat (Expansion.al_cardinality p)) l) as ->.
  { unfold answered in Hr. destruct (Expansion.ds_satisfied r); [split; [intros _; by eexists; apply Hr|done]|]. split; [done|]. intros [l Hl]. by apply Hr in Hl. }
  rewrite solution_set; [|done|intros; apply andb_comm]. split.
  - intros (X & Hs & HX & Hp). exists X. split_and!; [done|intros h Hh; by apply Hin, HX|]. intros h g Hh Hg Hne.
    specialize (Hp h g Hh Hg Hne). apply andb_true_iff in Hp as [Hp _]. by apply Hd in Hp as [_ Hp]; [|apply HX..].
  - intros (X & Hs & HX & Hp). exists X. split_and!; [done|intros h Hh; by apply Hin, HX|]. intros h g Hh Hg Hne.
    apply andb_true_iff. split; apply Hd; try (by apply Hin, HX); (split; [done|]); apply Hp; done.
Qed.
End satisfaction.

(** * An expansion answers

    Over a kernel and an engine that fit each other, no step of expansion panics; a
    success leaves them fit for each other, and a failure can be rolled back. *)

Import Kernel.

(** ** Rolling back *)

(** The kernel that [restore_full_checkpoint] leaves. *)
Section rollback.
Context (k k1 : TableauKernel) (Hk : wf k).
Abbreviation k' := (restore_full_checkpoint k k1).

Lemma restored_stored h n : stored (nodes (state k')) h n ↔ stored (nodes (state k)) h n.
Proof. apply stored_resize. Qed.

Lemma restored_wf : N.of_nat (length (generations (state k1))) ≤ 2 ^ 32 → wf k'.
Proof.
  intros Hcap. destruct Hk as [S B T TT R Cn]. split; [by apply state_restore|exact B|exact T|exact TT|exact R|exact Cn].
Qed.

Lemma restored_resolves h r ds : resolves (nodes (state k')) h r ds ↔ resolves (nodes (state k)) h r ds.
Proof. split; apply resolves_transport; intros g n Hn; exists n; by apply restored_stored in Hn. Qed.

Lemma restored_canonical h r d : wf k' → canonical_handle h k' = Ok (r, d) ↔ canonical_handle h k = Ok (r, d).
Proof.
  intros Hk'. rewrite (canonical_handle_Ok k' (arena_slots _ _ (state_arena _ _ (wf_state _ Hk')))), (canonical_handle_Ok k (arena_slots _ _ (state_arena _ _ (wf_state _ Hk)))).
  setoid_rewrite restored_resolves. by setoid_rewrite restored_stored.
Qed.

Lemma restored_audit : wf k' → check_invariants k = Ok tt → check_invariants k' = Ok tt.
Proof.
  intros Hk'. rewrite !check_invariants_spec by done. intros [Hl Hr]. split.
  - intros i n Hn Hm. destruct (Hl i n) as (r & ds & Hres & Hact); [|done|].
    + by apply (restore_lookup (generations (state k1)) (state k)) in Hn.
    + exists r, ds. split; [by apply restored_resolves|]. destruct Hact as (g & Hg & Ha). exists g. split; [by apply restored_stored|done].
  - revert Hr. unfold check_reuse_branches. rewrite !iterM_Ok, !Forall_forall. intros Hr [lvl record] Hin. specialize (Hr _ Hin). cbn in Hr |- *.
    apply reject_if_Ok in Hr. apply reject_if_Ok.
    assert (is_ok (canonical_handle (reuse_root record) k') = is_ok (canonical_handle (reuse_root record) k)) as ->; [|exact Hr].
    apply eq_true_iff_eq. split; intros E.
    + destruct (canonical_handle (reuse_root record) k') as [[r d]| |] eqn:E'; [|done..]. apply restored_canonical in E'; [|done]. by rewrite E'.
    + destruct (canonical_handle (reuse_root record) k) as [[r d]| |] eqn:E'; [|done..]. apply restored_canonical in E'; [|done]. by rewrite E'.
Qed.
End rollback.

Section safety.
Context {D C : Type} `{OperationControl C} `{!NativeDatatypeExpansion D C}.
Abbreviation W := (ExpansionWorld D C).
Abbreviation M := (st W Expansion.ExpansionError).
Implicit Types (w : W) (h : NodeHandle).

(** The datatypes answer. *)
Record calm_datatypes : Prop := {
  calm_different (k : TableauKernel) l r (d : D) : values_known_different k l r d ≠ Crash;
  calm_satisfies k h pid (s : C * D) : (value_satisfies k h pid s).1 ≠ Crash
}.

Context (Hcalm : calm_control (C := C)) (Hdata : calm_datatypes).

Definition joint w : RuleEngine * TableauKernel := (xw_engine w, xw_kernel w).
Definition lively w : Prop := live (joint w).

(** What every step leaves alone, failed or not. *)
Record trail w w' : Prop := {
  trail_blocking : xw_blocking w' = xw_blocking w;
  trail_drift : drift (joint w) (joint w')
}.

#[global] Instance trail_preorder : PreOrder trail.
Proof. split; [by intros w; split|]. intros w1 w2 w3 [B1 D1] [B2 D2]. split; [congruence|by etrans]. Qed.

Definition fine {X} (m : M X) w (Q : X → W → Prop) : Prop :=
  lively w → meets m w (λ x w', lively w' ∧ trail w w' ∧ Q x w') (λ _ w', trail w w').

Abbreviation any := (λ _ _, True).

Lemma fine_ret {X} (x : X) w (Q : X → W → Prop) : Q x w → fine (mret x) w Q.
Proof. by intros HQ Hw. Qed.

Lemma fine_bind {X Y} (m : M X) (f : X → M Y) w Q P :
  fine m w Q → (∀ x w', lively w' → Q x w' → fine (f x) w' P) → fine (m ≫= f) w P.
Proof.
  intros Hm Hf Hw. specialize (Hm Hw). unfold meets, mbind, st_bind in *. destruct (m w) as [[x|e|] w1]; [|done|done].
  destruct Hm as (Hw1 & Ht & Hx). specialize (Hf x w1 Hw1 Hx Hw1). unfold meets in Hf. destruct (f x w1) as [[y|e|] w2]; [| |done].
  - destruct Hf as (? & ? & ?). split_and!; [done|by etrans|done].
  - by etrans.
Qed.

Lemma fine_impl {X} (m : M X) w (Q Q' : X → W → Prop) : fine m w Q → (∀ x w', lively w' → Q x w' → Q' x w') → fine m w Q'.
Proof.
  intros Hm HQ Hw. specialize (Hm Hw). unfold meets in *. destruct (m w) as [[x|e|] w1]; [|done|done].
  destruct Hm as (? & ? & ?). split_and!; [done|done|by apply HQ].
Qed.

Lemma fine_lift {X} (r : outcome Expansion.ExpansionError X) w (Q : X → W → Prop) :
  r ≠ Crash → (∀ x, r = Ok x → Q x w) → fine (lift r) w Q.
Proof. intros Hr HQ Hw. unfold meets, lift. destruct r; [split_and!; [done|done|by apply HQ]|done|done]. Qed.

Lemma fine_reads {X} (f : W → outcome Expansion.ExpansionError X) w (Q : X → W → Prop) :
  (lively w → f w ≠ Crash) → (∀ x, f w = Ok x → Q x w) → fine (reads f) w Q.
Proof. intros Hr HQ Hw. specialize (Hr Hw). unfold meets, reads. destruct (f w); [split_and!; [done|done|by apply HQ]|done|done]. Qed.

Lemma fine_forM {X} (f : X → M unit) l w : (∀ x w', x ∈ l → fine (f x) w' any) → fine (forM f l) w any.
Proof.
  revert w. induction l as [|x l IH]; intros w Hf; [by apply fine_ret|]. cbn. eapply fine_bind; [apply Hf; by left|].
  intros ? w' _ _. apply IH. intros y w1 Hy. apply Hf. by right.
Qed.

Lemma fine_foldST {X Y} (f : Y → X → M Y) (I : nat → Y → Prop) l y w :
  I 0%nat y → (∀ i y x w', x ∈ l → I i y → fine (f y x) w' (λ y' _, I (S i) y')) → fine (foldST f l y) w (λ y _, I (length l) y).
Proof.
  revert I y w. induction l as [|x l IH]; intros I y w Hy Hf; [by apply fine_ret|]. cbn [foldST length]. eapply fine_bind; [apply (Hf 0%nat); [by left|done]|].
  intros y' w' _ Hy'. cbn beta in Hy'. apply (IH (λ i, I (S i))); [done|]. intros i y1 x1 w1 Hx. apply Hf. by right.
Qed.

(** ** The parts of the state *)

Lemma converted_not_crash {X} (r : NativeResult X) : r ≠ Crash → Runtime.converted r ≠ Crash.
Proof. by destruct r. Qed.

Lemma available_not_crash {X} (r : NativeResult X) : r ≠ Crash → Runtime.available r ≠ Crash.
Proof. by destruct r. Qed.

Lemma fine_poll w : fine Runtime.poll w (λ _ w', looked w w').
Proof.
  intros Hw. unfold Runtime.poll, meets. specialize (Hcalm (xw_control w)). destruct (control_poll (xw_control w)) as [[[]|e|] c]; [|by split|done].
  split_and!; [done|by split|by exists c].
Qed.

Lemma fine_kernel {X} (m : Kernel.K X) w (Q : X → W → Prop) :
  (wf (xw_kernel w) → (m (xw_kernel w)).1 ≠ Crash) → moves same_operation_root m →
  (∀ x k', world_ok (xw_engine w) (xw_kernel w) → m (xw_kernel w) = (Ok x, k') → world_ok (xw_engine w) k' ∧ Q x (w <| xw_kernel := k' |>)) →
  fine (Runtime.kernel m) w Q.
Proof.
  intros Hr Hm HQ Hw. destruct Hw as [Hok Hp]. specialize (Hr (world_wf _ _ Hok)). specialize (Hm (xw_kernel w)).
  unfold Runtime.kernel, meets. destruct (m (xw_kernel w)) as [[x|e|] k'] eqn:E; cbn in *; [| |done].
  - destruct (HQ x k' Hok eq_refl) as [Hok' Hx]. split_and!; [by split|split; [done|by split]|done].
  - split; [done|by split].
Qed.

(** An operation inside the branch that leaves the rows alone. *)
Lemma fine_keeps {X} (m : Kernel.K X) w :
  (wf (xw_kernel w) → (m (xw_kernel w)).1 ≠ Crash) → moves same_operation_root m → keeps m → moves same_facts m → fine (Runtime.kernel m) w any.
Proof. intros Hr Hm Hk Hf. apply fine_kernel; [done|done|]. intros x k' Hok E. split; [|done]. by eapply world_keeps. Qed.

Lemma fine_engine {X} (m : st (RuleEngine * TableauKernel) NativeError X) w :
  (lively w → hsafe m (joint w) any) → drifts m → fine (Runtime.engine m) w any.
Proof.
  intros Hs Hd Hw. specialize (Hs Hw Hw) as [Hr HQ]. specialize (Hd (joint w)). unfold Runtime.engine, meets, joint in *.
  destruct (m (xw_engine w, xw_kernel w)) as [[x|e|] [e' k']]; cbn in *; [| |done].
  - destruct (HQ x _ eq_refl) as [Hrun _]. split_and!; [exact (live_runs _ _ Hw Hrun)|by split|done].
  - by split.
Qed.

Lemma fine_datatypes {X} (m : TableauKernel → st (C * D) NativeError X) w :
  (m (xw_kernel w) (xw_control w, xw_datatypes w)).1 ≠ Crash → fine (Runtime.datatypes m) w any.
Proof.
  intros Hr Hw. unfold Runtime.datatypes, meets. destruct (m _ _) as [[x|e|] [c d]]; [|by split|done]. split_and!; [done|by split|done].
Qed.

(** ** The operations of the traits *)

Lemma native_dependency_Ok d d' : Runtime.native_dependency d = Ok d' → canonical d'.
Proof.
  unfold Runtime.native_dependency, Runtime.converted, Dep.new. destruct (strictly_ascending (as_slice d)) eqn:E; [|done].
  intros [= <-]. by apply strictly_ascending_spec.
Qed.

Lemma native_dependency_not_crash d : Runtime.native_dependency d ≠ Crash.
Proof. unfold Runtime.native_dependency, Runtime.converted, Dep.new. by destruct (strictly_ascending (as_slice d)). Qed.

Lemma fine_native d w : fine (lift (Runtime.native_dependency d)) w (λ d' _, canonical d').
Proof. apply fine_lift; [apply native_dependency_not_crash|apply native_dependency_Ok]. Qed.

Lemma fine_pop w : fine (Expansion.pop_candidate (A := NodeHandle)) w any.
Proof.
  apply fine_keeps; [|unfold take_existential_candidate, record_mutation; by moves_steps|apply keeps_take_existential_candidate|unfold take_existential_candidate, record_mutation; by moves_steps].
  intros _. unfold take_existential_candidate. by returns_steps.
Qed.

Lemma enqueue_same_facts queue h p : moves same_facts (enqueue_node queue h p).
Proof.
  unfold enqueue_node. apply moves_bind; [apply _|apply moves_reads, _|]. intros _.
  apply moves_lift_bind; [apply _|]. intros sel Hsel%ok_or_Ok. unfold node_queue in Hsel.
  repeat case_bool_decide; simplify_eq; unfold enqueue_into; by moves_steps.
Qed.

Lemma fine_enqueue h p w : fine (Expansion.enqueue_candidate h p) w any.
Proof.
  apply fine_keeps; [|apply root_steady, steady_enqueue_node|apply keeps_enqueue_node|apply enqueue_same_facts].
  intros Hk. unfold enqueue_node. apply returns_bind; [by returns_steps|intros ?]. apply returns_bind; [by returns_steps|intros ?]. apply enqueue_into_returns.
Qed.

Lemma fine_create kind parent w : fine (Expansion.create_node kind parent) w any.
Proof.
  apply fine_kernel; [intros Hk; by eapply create_node_returns, state_arena, wf_state|apply root_create|].
  intros h k' Hok E. split; [|done]. destruct Hok as [Hk Hs Hb Hr]. destruct (keeps_create_node _ _ _ _ _ _ _ _ _ (wf_state _ Hk) E) as [F S].
  split; [by eapply wf_frame| |by rewrite (frame_branches _ _ F)|by rewrite (frame_root _ _ F)].
  eapply access_facts, Hs. by eapply create_node_facts.
Qed.

Lemma fine_mark h pid w : fine (Expansion.mark_node_processed h pid) w any.
Proof.
  apply fine_keeps; [intros Hk; apply mark_existential_returns|apply root_mark|apply keeps_mark_existential|unfold mark_existential, update_node, record_mutation; by moves_steps].
Qed.

Lemma fine_install c w : fine (Expansion.install_clash (A := NodeHandle) c) w any.
Proof.
  apply (fine_bind _ _ _ _ _ (fine_native _ _)). intros d w1 _ Hd. cbn beta in Hd. eapply (fine_bind _ _ _ any); [|intros; by apply fine_ret].
  apply fine_keeps; [intros _; apply install_clash_returns|apply root_install|by apply keeps_install_clash|unfold install_clash; by moves_steps].
Qed.

Lemma fine_set_node filler h w : fine (Expansion.set_reuse_node filler h) w any.
Proof.
  unfold Expansion.set_reuse_node, Runtime.Runtime_mutation. apply fine_keeps; [intros _|unfold set_existential_reuse_node, record_mutation; by moves_steps|apply keeps_set_reuse_node|unfold set_existential_reuse_node, record_mutation; by moves_steps].
  unfold set_existential_reuse_node. by returns_steps.
Qed.

Lemma fine_remove_node filler w : fine (Expansion.remove_reuse_node (A := NodeHandle) filler) w any.
Proof.
  apply fine_keeps; [intros _|unfold remove_existential_reuse_node, record_mutation; by moves_steps|apply keeps_remove_reuse_node|unfold remove_existential_reuse_node, record_mutation; by moves_steps].
  unfold remove_existential_reuse_node. by returns_steps.
Qed.

Lemma fine_set_disabled pid b w : fine (Expansion.set_reuse_disabled (A := NodeHandle) pid b) w any.
Proof.
  apply fine_keeps; [intros _|unfold set_existential_reuse_disabled, record_mutation; by moves_steps|apply keeps_set_reuse_disabled|unfold set_existential_reuse_disabled, record_mutation; by moves_steps].
  unfold set_existential_reuse_disabled. by returns_steps.
Qed.

Lemma fine_remove_branch lvl w : fine (Expansion.remove_reuse_branch (A := NodeHandle) lvl) w any.
Proof.
  apply fine_keeps; [intros _|unfold remove_existential_reuse_branch, record_mutation; by moves_steps|apply keeps_remove_reuse_branch|unfold remove_existential_reuse_branch, record_mutation; by moves_steps].
  unfold remove_existential_reuse_branch. by returns_steps.
Qed.

Lemma fine_advance lvl d w : fine (Expansion.advance_reuse_branch (A := NodeHandle) lvl d) w any.
Proof.
  apply (fine_bind _ _ _ _ _ (fine_native _ _)). intros d' w1 _ _. apply fine_kernel; [by apply advance_branch_returns|apply root_advance|].
  intros o k' Hok E. split; [by eapply world_advance|done].
Qed.

Lemma fine_dispatch pid args d c w : fine (Runtime.runtime_dispatch pid args d c) w any.
Proof.
  unfold Runtime.runtime_dispatch. eapply fine_bind; [apply fine_poll|]. intros _ w1 _ _.
  eapply (fine_bind _ _ _ any); [by apply fine_lift; [apply converted_not_crash, new_ground_not_crash|]|]. intros a w2 _ _.
  apply (fine_bind _ _ _ _ _ (fine_native _ _)). intros d' w3 _ _. apply fine_engine.
  - intros Hw. apply hsafe_inside, safe_dispatch; [by apply live_program|by apply live_ready].
  - unfold Engine.dispatch_ground_atom. apply drifts_bind; [apply drifts_gets|intros; apply drifts_dispatch].
Qed.

Lemma fine_register h d w : fine (Expansion.register_node h d) w any.
Proof.
  change (fine (Runtime.runtime_register h d) w any).
  unfold Runtime.runtime_register. eapply fine_bind; [apply fine_poll|]. intros _ w1 _ _.
  apply (fine_bind _ _ _ _ _ (fine_native _ _)). intros d' w2 _ _. eapply (fine_bind _ _ _ any); [|intros; by apply fine_ret]. apply fine_engine.
  - intros Hw. apply hsafe_inside, safe_register; [by apply live_program|by apply live_ready].
  - apply drifts_register.
Qed.

Lemma root_push_reuse h pid sups base : moves same_operation_root (push_existential_reuse_branch h pid sups base).
Proof.
  unfold push_existential_reuse_branch, record_mutation. do 3 (apply moves_bind; [apply _|by moves_steps|intros ?]). cbv zeta.
  apply moves_bind; [apply _|by moves_steps|intros _]. intros k0. unfold mbind at 1, st_bind at 1, gets at 1, id at 1.
  pose (rooted := λ {X} (m : K X), ∀ k, operation_root k = operation_root k0 → operation_root (m k).2 = operation_root k0).
  assert (∀ X Y (m : K X) (f : X → K Y), moves same_operation_root m → (∀ x, rooted Y (f x)) → rooted Y (m ≫= f)) as Hbind.
  { intros X Y m f Hm Hf k Hk. unfold mbind, st_bind. specialize (Hm k). unfold same_operation_root in Hm.
    destruct (m k) as [[x|e|] k1]; cbn in *; [apply Hf; congruence|congruence..]. }
  unfold same_operation_root. apply (Hbind _ _ _ _); [by moves_steps|intros lvl|done]. apply Hbind; [by moves_steps|intros _].
  apply Hbind; [by moves_steps|intros _]. apply Hbind; [by moves_steps|intros _]. intros k Hk. pose proof (root_push "merge" [0; 1] pid base k) as Hp.
  unfold same_operation_root in Hp. destruct (push_branch _ _ _ _ k) as [[l|e|] k']; cbn in *; [case_bool_decide; cbn; congruence|done|congruence].
Qed.

Lemma world_push_reuse h pid sups base a k lvl k' :
  canonical base → world_ok (A := RuleEngine) a k → push_existential_reuse_branch h pid sups base k = (Ok lvl, k') → world_ok a k'.
Proof.
  intros Hc Hw E. pose proof (preserves_push_reuse _ _ _ _ Hc _ _ _ (world_wf _ _ Hw) E) as Hk'. unfold push_existential_reuse_branch in E.
  apply st_bind_Ok in E as (n & ? & [_ ->]%reads_Ok & E). apply st_bind_Ok in E as (? & ? & [_ ->]%lift_Ok & E).
  apply st_bind_Ok in E as (? & ? & [_ ->]%reads_Ok & E). cbv zeta in E. apply st_bind_Ok in E as (? & ? & [_ ->]%reads_Ok & E).
  apply st_bind_Ok in E as (? & ? & [-> ->]%gets_Ok & E). apply st_bind_Ok in E as (? & ? & [_ ->]%lift_Ok & E).
  apply st_bind_Ok in E as (? & ? & [_ ->]%lift_Ok & E). apply st_bind_Ok in E as ([] & k1 & [Hf1 Hs1]%upd_frame & E).
  apply st_bind_Ok in E as ([] & k2 & [Hf2 Hs2]%record_mutation_frame & E).
  assert (kframe k k2) as F by (by etrans). assert (facts (state k2) = facts (state k)) as Ef by (by rewrite Hs2, Hs1).
  destruct (push_branch "merge" [0; 1] pid base k2) as [[l|e|] k3] eqn:Ep; [|done..]. case_bool_decide; [|done]. injection E as <- <-.
  destruct Hw as [Hk Hs Hb Hr]. apply push_branch_Ok in Ep as (_ & _ & _ & _ & _ & _ & _ & b & -> & _ & _ & _ & _ & _ & _ & _ & _ & Hsn & _). cbn in *.
  assert (access_ok a (state k2)) as Hs' by (by eapply access_facts). split; [done|done| |cbn; by rewrite (frame_root _ _ F)]. cbn.
  rewrite (frame_branches _ _ F). intros i c [Hi|[_ Hc']]%lookup_app_Some; [by eapply Hb|].
  apply list_lookup_singleton_Some in Hc' as [_ <-]. by rewrite Hsn.
Qed.

(** ** What the manager reads *)

Ltac reading :=
  repeat match goal with
    | |- Ok _ ≠ Crash => discriminate
    | |- Err _ ≠ Crash => discriminate
    | |- mret _ ≠ Crash => discriminate
    | |- mbind _ _ ≠ Crash => apply bind_not_crash; [|intros ? _]
    | |- ok_or _ _ ≠ Crash => apply ok_or_not_crash
    | |- reject_if _ _ ≠ Crash => apply reject_if_not_crash
    | |- Runtime.available _ ≠ Crash => apply available_not_crash
    | |- Runtime.converted _ ≠ Crash => apply converted_not_crash
    | |- collectM _ _ ≠ Crash => apply collectM_not_crash; intros ? ?
    | |- foldM _ _ _ ≠ Crash => apply foldM_not_crash; intros ? ? ?
    | |- Expansion.new_dependency _ ≠ Crash => unfold Expansion.new_dependency
    | |- Runtime.expansion_dependency _ ≠ Crash => unfold Runtime.expansion_dependency
    | |- (if ?b then _ else _) ≠ Crash => destruct b
    | |- (match ?x with _ => _ end) ≠ Crash => destruct x
    | |- _ => done
    end.

Lemma node_record_reads h w : Runtime.runtime_node_record h w ≠ Crash.
Proof. unfold Runtime.runtime_node_record. reading. apply require_node_not_crash. Qed.

Lemma canonical_node_reads h w : Runtime.runtime_canonical_node h w ≠ Crash.
Proof. unfold Runtime.runtime_canonical_node. reading. apply canonical_handle_not_crash. Qed.

Lemma active_nodes_reads w : Runtime.runtime_active_nodes w ≠ Crash.
Proof. unfold Runtime.runtime_active_nodes. reading. apply node_record_reads. Qed.

Lemma is_blocked_reads h w : Runtime.runtime_is_blocked h w ≠ Crash.
Proof. unfold Runtime.runtime_is_blocked. reading. apply require_active_not_crash. Qed.

Lemma facts_reads pid bs w : Runtime.runtime_facts pid bs w ≠ Crash.
Proof. unfold Runtime.runtime_facts, Runtime.add_binding, Runtime.fact_of. reading; [apply candidate_fact_ids_not_crash|apply fact_not_crash]. Qed.

Lemma current_clash_reads w : Runtime.runtime_current_clash w ≠ Crash.
Proof. unfold Runtime.runtime_current_clash. reading. Qed.

Lemma branch_reads lvl w : Runtime.runtime_branch lvl w ≠ Crash.
Proof. unfold Runtime.runtime_branch, Kernel.branch. reading. Qed.

Lemma reuse_branch_reads lvl w : Runtime.runtime_reuse_branch lvl w ≠ Crash.
Proof. unfold Runtime.runtime_reuse_branch. reading. Qed.

Lemma has_fact_reads pid args w : Expansion.has_fact pid args w ≠ Crash.
Proof. unfold Expansion.has_fact. reading. apply facts_reads. Qed.

Lemma ordered_pair_reads l r w : Expansion.ordered_pair l r w ≠ Crash.
Proof. unfold Expansion.ordered_pair. reading; apply node_record_reads. Qed.

Lemma fine_push_reuse h pid sups base w : fine (Expansion.push_reuse_branch h pid sups base) w any.
Proof.
  change (fine (Runtime.runtime_push_reuse_branch h pid sups base) w any). unfold Runtime.runtime_push_reuse_branch.
  eapply (fine_bind _ _ _ any); [apply fine_lift; [apply collectM_not_crash; intros; apply native_dependency_not_crash|done]|]. intros sups' w1 _ _.
  apply (fine_bind _ _ _ _ _ (fine_native _ _)). intros base' w2 _ Hb. cbn beta in Hb.
  eapply (fine_bind _ _ _ any).
  - apply fine_kernel; [intros _; apply push_reuse_returns|apply root_push_reuse|]. intros lvl k' Hok E. split; [|done]. by eapply world_push_reuse.
  - intros lvl w3 _ _. eapply (fine_bind _ _ _ any); [apply fine_reads; [intros _; apply branch_reads|done]|]. intros b w4 _ _. apply fine_lift; [apply ok_or_not_crash|done].
Qed.

(** ** The manager *)

Lemma fine_reads_any {X} (f : W → outcome Expansion.ExpansionError X) w : f w ≠ Crash → fine (reads f) w any.
Proof. intros Hf. by apply fine_reads. Qed.

Lemma fine_lift_any {X} (r : outcome Expansion.ExpansionError X) w : r ≠ Crash → fine (lift r) w any.
Proof. intros Hr. by apply fine_lift. Qed.

Lemma fine_poll_any w : fine Runtime.poll w any.
Proof. eapply fine_impl; [apply fine_poll|done]. Qed.

(** Peels a computation whose values do not matter. *)
Ltac fine_steps :=
  repeat match goal with
    | |- fine (mret _) _ _ => by apply fine_ret
    | |- fine (_ ≫= _) _ _ => eapply (fine_bind _ _ _ any); [|intros ? ? _ _]
    | |- fine (lift _) _ _ => apply fine_lift_any; reading
    | |- fine (reads _) _ _ => apply fine_reads_any
    | |- fine Expansion.exp_poll _ _ => apply fine_poll_any
    | |- fine (forM _ _) _ _ => apply fine_forM; intros ? ? ?
    | |- fine (Expansion.pop_candidate) _ _ => apply fine_pop
    | |- fine (Expansion.enqueue_candidate _ _) _ _ => apply fine_enqueue
    | |- fine (Expansion.create_node _ _) _ _ => apply fine_create
    | |- fine (Expansion.mark_node_processed _ _) _ _ => apply fine_mark
    | |- fine (Expansion.install_clash _) _ _ => apply fine_install
    | |- fine (Expansion.push_reuse_branch _ _ _ _) _ _ => apply fine_push_reuse
    | |- fine (Expansion.advance_reuse_branch _ _) _ _ => apply fine_advance
    | |- fine (Expansion.remove_reuse_branch _) _ _ => apply fine_remove_branch
    | |- fine (Expansion.set_reuse_node _ _) _ _ => apply fine_set_node
    | |- fine (Expansion.remove_reuse_node _) _ _ => apply fine_remove_node
    | |- fine (Expansion.set_reuse_disabled _ _) _ _ => apply fine_set_disabled
    | |- fine (Expansion.register_node _ _) _ _ => apply fine_register
    | |- fine (Expansion.dispatch_ground_atom _ _ _ _) _ _ => apply fine_dispatch
    | |- fine (if ?b then _ else _) _ _ => destruct b
    | |- fine (match ?x with _ => _ end) _ _ => destruct x
    | |- fine (let _ := _ in _) _ _ => cbv zeta
    end.

Lemma fine_dispatching pid args d w : fine (Expansion.dispatch pid args d) w any.
Proof. unfold Expansion.dispatch. fine_steps. Qed.

Lemma fine_scan count deferred w : fine (Expansion.scan_candidates count deferred) w any.
Proof.
  revert deferred w. induction count as [|count IH]; intros deferred w; cbn [Expansion.scan_candidates]; [fine_steps|].
  fine_steps; first [apply IH | apply node_record_reads | apply is_blocked_reads].
Qed.

Lemma fine_take w : fine Expansion.take_unblocked_candidate w any.
Proof. unfold Expansion.take_unblocked_candidate. fine_steps; [done|apply fine_scan]. Qed.

Lemma fine_processed root pid w : fine (Expansion.mark_processed root pid) w any.
Proof. unfold Expansion.mark_processed. fine_steps. apply node_record_reads. Qed.

Section program.
Context (m : Expansion.ExistentialExpansionManager).

Lemma role_targets_reads sort top role missing root w : Expansion.role_targets m sort top role missing root w ≠ Crash.
Proof.
  unfold Expansion.role_targets, Expansion.row_target, Expansion.binary_target. reading; [apply active_nodes_reads|apply facts_reads].
Qed.

Lemma known_different_reads sort l r w : Expansion.known_different m sort l r w ≠ Crash.
Proof.
  unfold Expansion.known_different. reading; [apply ordered_pair_reads|apply has_fact_reads|apply converted_not_crash, Hdata].
Qed.

Lemma object_satisfiers_reads p root w : Expansion.object_satisfiers m p root w ≠ Crash.
Proof.
  unfold Expansion.object_satisfiers, Expansion.only_role, Expansion.object_satisfier.
  reading; first [apply role_targets_reads | apply canonical_node_reads | apply node_record_reads | apply is_blocked_reads | apply has_fact_reads].
Qed.

Lemma fine_fold {X Y} (f : Y → X → M Y) l y w : (∀ y x w', x ∈ l → fine (f y x) w' any) → fine (foldST f l y) w any.
Proof. intros Hf. eapply fine_impl; [apply (fine_foldST f (λ _ _, True)); [done|]|done]. intros i y' x w' Hx _. by apply Hf. Qed.

Lemma fine_data_satisfiers p root w : fine (Expansion.data_satisfiers m p root) w any.
Proof.
  unfold Expansion.data_satisfiers, Expansion.only_role. fine_steps; [apply role_targets_reads|].
  apply fine_fold. intros ? ? ? _. unfold Expansion.data_satisfier.
  fine_steps; first [apply canonical_node_reads | apply node_record_reads | apply has_fact_reads | idtac].
  match goal with |- fine (Expansion.data_value_satisfies ?h ?pid) ?w1 _ => change (fine (Runtime.runtime_value_satisfies h pid) w1 any) end.
  unfold Runtime.runtime_value_satisfies. eapply fine_bind; [apply fine_poll|]. intros ? ? _ _. apply fine_datatypes, Hdata.
Qed.

Lemma role_domain_reads root role w : Expansion.role_domain m root role w ≠ Crash.
Proof.
  unfold Expansion.role_domain, Expansion.add_canonical, Expansion.row_target, Expansion.binary_target.
  reading; first [apply active_nodes_reads | apply facts_reads | apply canonical_node_reads].
Qed.

Lemma fine_role_domains root roles w : fine (Expansion.role_domains m root roles) w any.
Proof. revert w. induction roles as [|role roles IH]; intros w; cbn [Expansion.role_domains]; fine_steps; first [apply role_domain_reads | apply IH]. Qed.

Lemma fine_tuples p root w : fine (Expansion.data_tuple_satisfiers m p root) w any.
Proof.
  unfold Expansion.data_tuple_satisfiers. fine_steps; first [apply fine_role_domains | apply facts_reads | apply fine_fold; intros ? ? ? _].
  unfold Expansion.count_tuple. fine_steps.
Qed.

(** The search compares in the state it started in. *)
Lemma fine_search candidates n limits sort w :
  fine (Expansion.pairwise_distinct_subset candidates n limits (Expansion.known_different m sort)) w (λ _ w', looked w w').
Proof.
  intros Hw. set (F := λ e, stopped_by_control (C := C) e ∨ ∃ l r, Expansion.known_different m sort l r w = Err e).
  set (differ := λ l r, match Expansion.known_different m sort l r w with Ok b => b | _ => false end).
  assert (control_keeps (looked w) F) as Hc.
  { intros w' Hw'. destruct (runtime_control w Hcalm w' Hw') as [Hp Ha].
    split; [|intros amount]; (eapply meets_impl; [first [apply Hp|apply Ha]|done|by intros ? ? [? ?]; split; [|left]]). }
  assert (compares candidates (Expansion.known_different m sort) differ (looked w) F) as Hd.
  { intros l r ? [c ->] _ _. change (Expansion.known_different m sort l r (w <| xw_control := c |>)) with (Expansion.known_different m sort l r w).
    pose proof (known_different_reads sort l r w). unfold differ. destruct (Expansion.known_different m sort l r w) as [b|e|] eqn:E; [done|right; eauto|done]. }
  assert (∀ w', looked w w' → trail w w') as Ht by (intros ? [c ->]; by split).
  eapply meets_impl; [apply (pairwise_distinct_subset_meets candidates n limits _ differ (looked w) F Hc Hd); by exists (xw_control w); destruct w|..].
  - intros r w' (Hw' & _). split_and!; [by destruct Hw' as [c ->]|by apply Ht|done].
  - intros e w' [Hw' _]. by apply Ht.
Qed.

Lemma fine_is_satisfied p root w : fine (Expansion.is_satisfied m p root) w any.
Proof.
  unfold Expansion.is_satisfied. fine_steps; first [apply object_satisfiers_reads | eapply fine_impl; [apply fine_search|done] | apply fine_tuples | apply fine_data_satisfiers].
Qed.

(** ** Witnesses *)

Lemma fine_inequalities witnesses sort supports w : fine (Expansion.add_pairwise_inequalities m witnesses sort supports) w any.
Proof. unfold Expansion.add_pairwise_inequalities. fine_steps; [apply ordered_pair_reads|apply fine_dispatching]. Qed.

Lemma fine_new_witness kind parent support w : fine (Expansion.new_witness kind parent support) w any.
Proof. unfold Expansion.new_witness. fine_steps. Qed.

Lemma fine_expand_object p root supports w : fine (Expansion.expand_object m p root supports) w any.
Proof.
  unfold Expansion.expand_object, Expansion.only_role, Expansion.minimal_support. fine_steps; [|apply fine_inequalities].
  apply fine_fold. intros ? ? ? _. unfold Expansion.object_witness. fine_steps; first [apply fine_new_witness | apply fine_dispatching].
Qed.

(** Each witness has a role: there is one role for all, or as many as witnesses. *)
Lemma fine_data_support p root witnesses support w :
  length (Expansion.al_role_ids p) = 1%nat ∨ length witnesses = length (Expansion.al_role_ids p) →
  fine (Expansion.data_support m p root witnesses support) w any.
Proof.
  intros Hlen. unfold Expansion.data_support. eapply (fine_bind _ _ _ any); [|intros; fine_steps; apply fine_dispatching].
  apply fine_forM. intros [i h] w' Hin. unfold Expansion.data_role. eapply (fine_bind _ _ _ any); [|intros; fine_steps; apply fine_dispatching].
  apply fine_lift_any. unfold index_or_crash. cbn [fst].
  assert (∃ role, Expansion.al_role_ids p !! (if (length (Expansion.al_role_ids p) =? 1)%nat then 0%nat else i) = Some role) as [role ->]; [|done].
  apply lookup_lt_is_Some_2. destruct (Nat.eqb_spec (length (Expansion.al_role_ids p)) 1); [lia|].
  apply list_elem_of_lookup in Hin as [j Hj]. rewrite list_lookup_imap in Hj. destruct (witnesses !! j) as [g|] eqn:E; [|done]. injection Hj as -> ->.
  apply lookup_lt_Some in E. lia.
Qed.

Lemma fine_expand_data p root supports w : fine (Expansion.expand_data m p root supports) w any.
Proof.
  unfold Expansion.expand_data, Expansion.minimal_support. eapply (fine_bind _ _ _ any); [by fine_steps|]. intros initial w1 _ _.
  eapply (fine_bind _ _ _ (λ witnesses _, length witnesses = if (length (Expansion.al_role_ids p) =? 1)%nat then N.to_nat (Expansion.al_cardinality p) else length (Expansion.al_role_ids p))).
  - eapply fine_impl; [apply (fine_foldST _ (λ i witnesses, length witnesses = i)); [done|]|].
    + intros i y x w' _ Hy. eapply (fine_bind _ _ _ any); [apply fine_new_witness|]. intros h w2 _ _. apply fine_ret. rewrite length_app, Hy. cbn. lia.
    + intros y w' _ Hy. cbn beta in Hy. by rewrite Hy, length_seq.
  - intros witnesses w2 _ Hw. cbn beta in Hw. eapply (fine_bind _ _ _ any); [|intros; fine_steps; apply fine_inequalities].
    apply fine_forM. intros support w3 _. apply fine_data_support. destruct (Nat.eqb_spec (length (Expansion.al_role_ids p)) 1); [by left|by right].
Qed.

(** ** Individual reuse *)

Lemma fine_fresh filler d w : fine (Expansion.fresh_reuse_node (A := NodeHandle) filler d) w any.
Proof. unfold Expansion.fresh_reuse_node. fine_steps. apply fine_dispatching. Qed.

Lemma fine_model_candidate filler d w : fine (Expansion.model_reuse_candidate (A := NodeHandle) filler d) w any.
Proof.
  unfold Expansion.model_reuse_candidate. fine_steps; first [done | apply fine_fresh | unfold Expansion.known_reuse_node; reading].
  - apply canonical_node_reads.
  - apply node_record_reads.
Qed.

Lemma fine_with_reuse p root supports w : fine (Expansion.expand_with_reuse m p root supports) w any.
Proof.
  unfold Expansion.expand_with_reuse, Expansion.minimal_support, Expansion.only_role.
  fine_steps; first [apply fine_processed | apply fine_dispatching | apply fine_model_candidate | apply canonical_node_reads | unfold Expansion.parent_reuse_candidate; reading];
    first [apply node_record_reads | apply canonical_node_reads | apply has_fact_reads].
Qed.

(** ** Processing and backtracking *)

Lemma obligation_supports_reads pid root w : Expansion.obligation_supports (A := NodeHandle) pid root w ≠ Crash.
Proof. unfold Expansion.obligation_supports. reading. apply facts_reads. Qed.

Lemma minimal_support_returns supports : Expansion.minimal_support supports ≠ Crash.
Proof. unfold Expansion.minimal_support. reading. Qed.

Lemma witness_limit_returns p : Expansion.check_witness_limit m p ≠ Crash.
Proof. unfold Expansion.check_witness_limit. reading. Qed.

Lemma fine_process w : fine (Expansion.process_next_inner m) w any.
Proof.
  unfold Expansion.process_next_inner, Expansion.process_obligation, Expansion.satisfied_by, Expansion.expand.
  fine_steps; first [done | apply obligation_supports_reads | apply minimal_support_returns | apply witness_limit_returns | apply fine_take | apply node_record_reads | apply fine_processed | apply fine_is_satisfied | apply fine_with_reuse | apply fine_expand_object | apply fine_expand_data
    | unfold Expansion.can_reuse; reading].
Qed.

Lemma fine_resolve w : fine (Expansion.resolve_clash_inner m) w any.
Proof.
  unfold Expansion.resolve_clash_inner, Expansion.reuse_fallback, Expansion.reuse_exhausted.
  fine_steps; first [apply current_clash_reads | apply reuse_branch_reads | apply branch_reads | apply fine_expand_object].
Qed.
End program.

(** ** Failures *)

(** What a failed operation leaves: the kernel as it was, up to its generation table,
    and an engine that may know more atoms. *)
Record backed_out w w' : Prop := {
  backed_state : ∃ gens, state (xw_kernel w') = restore_state gens (state (xw_kernel w));
  backed_branches : branches (xw_kernel w') = branches (xw_kernel w);
  backed_root : operation_root (xw_kernel w') = operation_root (xw_kernel w);
  backed_trail : trail_length (xw_kernel w') = trail_length (xw_kernel w);
  backed_blocking : xw_blocking w' = xw_blocking w;
  backed_engine : grows (xw_engine w) (xw_engine w')
}.

(** The slots of the table of generations can be numbered. *)
Definition roomy w : Prop := N.of_nat (length (generations (state (xw_kernel w)))) ≤ 2 ^ 32.

(** What [m] promises when it is rolled back on failure.  If the kernel passed its
    audit before, the error is that of [m]. *)
Definition undoes {X} (m : M X) w (r : outcome Expansion.ExpansionError X * W) (Q : X → W → Prop) : Prop :=
  match r with
  | (Ok x, w') => lively w' ∧ trail w w' ∧ Q x w'
  | (Err e, w') => backed_out w w' ∧
      (roomy w' → lively w' ∧ (check_invariants (xw_kernel w) = Ok tt → ∃ w1, m w = (Err e, w1)))
  | (Crash, _) => False
  end.

Lemma backed_restored w w1 : trail w w1 → backed_out w (w1 <| xw_kernel := restore_full_checkpoint (xw_kernel w) (xw_kernel w1) |>).
Proof. intros [B [_ G]]. split; try done. by exists (generations (state (xw_kernel w1))). Qed.

Lemma restored_roomy k k1 :
  N.of_nat (length (generations (state (restore_full_checkpoint k k1)))) ≤ 2 ^ 32 → N.of_nat (length (generations (state k1))) ≤ 2 ^ 32.
Proof. unfold restore_full_checkpoint, restore, restore_state. cbn. rewrite length_max_generations, length_resize_up. lia. Qed.

Lemma lively_restored w w1 : lively w → trail w w1 → wf (restore_full_checkpoint (xw_kernel w) (xw_kernel w1)) →
  lively (w1 <| xw_kernel := restore_full_checkpoint (xw_kernel w) (xw_kernel w1) |>).
Proof.
  intros [[Hk Hs Hb Hr] Hp] [_ [_ G]] Hk'.
  assert (∀ x, access_ok (xw_engine w) x → access_ok (xw_engine w1) x) as Hev by (intros x; pose proof (grows_program _ _ G) as Ep; cbn in Ep |- *; by rewrite Ep).
  split; [split|].
  - exact Hk'.
  - apply Hev. eapply access_facts, Hs. done.
  - intros i b Hi. eapply Hev, Hb, Hi.
  - apply Hev, Hr.
  - intros pid. cbn. pose proof (grows_fixed _ _ G) as (_ & Ej & _). cbn in Ej. rewrite Ej. apply Hp.
Qed.

Lemma rolled_back_spec {X} what (m : M X) w Q : lively w → fine m w Q → undoes m w (Expansion.rolled_back (A := NodeHandle) what m w) Q.
Proof.
  intros Hw Hm. specialize (Hm Hw). unfold Expansion.rolled_back, undoes, meets in *. cbn [Expansion.checkpoint Expansion.restore Runtime.Runtime_mutation].
  destruct (m w) as [[x|e|] w1] eqn:E; [done| |done]. rename Hm into Ht.
  unfold Runtime.runtime_restore. cbv zeta.
  set (k' := restore_full_checkpoint (xw_kernel w) (xw_kernel w1)).
  assert (wf (xw_kernel w)) as Hk by apply Hw.
  assert (roomy (w1 <| xw_kernel := k' |>) → wf k') as Hwf.
  { intros Hroom. apply restored_wf; [done|]. by apply (restored_roomy (xw_kernel w)). }
  assert (check_invariants k' ≠ Crash) as Hnc.
  { apply check_invariants_not_crash. apply (restore_tables (mkCheckpoint (state (xw_kernel w)) (trail_length (xw_kernel w))) (xw_kernel w1)).
    cbn. apply (arena_length _ _ (state_arena _ _ (wf_state _ Hk))). }
  assert (check_invariants k' = Ok tt ∨ ∃ f, check_invariants k' = Err f) as [Ec|[f Ec]] by (destruct (check_invariants k') as [[]|f|]; [by left|right; by exists f|done]);
    rewrite Ec; cbn; (split; [by apply backed_restored|]); intros Hroom; (split; [apply lively_restored; [done|done|by apply Hwf]|]); intros Hc.
  - by exists w1.
  - pose proof (restored_audit (xw_kernel w) (xw_kernel w1) Hk (Hwf Hroom) Hc) as Ec'. unfold k' in Ec. congruence.
Qed.

Lemma process_next_undoes m w : lively w → undoes (Expansion.process_next_inner m) w (Expansion.process_next m w) any.
Proof. intros Hw. by apply rolled_back_spec, fine_process. Qed.

Lemma resolve_clash_undoes m w : lively w → undoes (Expansion.resolve_clash_inner m) w (Expansion.resolve_clash m w) any.
Proof. intros Hw. by apply rolled_back_spec, fine_resolve. Qed.
End safety.
