(* ===== verification/ExpansionWitness.v ===== *)
(** * What an expansion provides

    Nothing that is in the tableau is lost when an obligation is expanded, and the
    witnesses that are created satisfy it. *)

From S2P Require Import Prelude Order Errors Contracts Model Queue Store Kernel KernelBase Arena Facts FactOps StateInv NodeOps KernelInv Totality StoreTheorems.
From S2P Require Import Cancel Branching RuleModel Merging RulePlans Joins RuleEngine RuleSpec EngineBase EngineSafe EngineDispatch EngineRun NominalSpec NominalRun.
From S2P Require Import BlockingModel Projection BlockingChecker BlockingManager Expansion ExpansionAdapter ExpansionSpec ExpansionRun.

Import Kernel.

(** ** Kernels that keep what they have *)

(** The fields of a node that expansion does not change. *)
Record same_node (n n' : Node) : Prop := {
  same_handle : n_handle n' = n_handle n;
  same_creation : n_creation_id n' = n_creation_id n;
  same_kind : n_kind n' = n_kind n;
  same_parent : n_parent n' = n_parent n;
  same_lifecycle : n_lifecycle n' = n_lifecycle n;
  same_blocker : n_blocker n' = n_blocker n
}.

#[global] Instance same_node_preorder : PreOrder same_node.
Proof. split; [by split|]. intros n1 n2 n3 [] []. split; congruence. Qed.

Record persists (k k' : TableauKernel) : Prop := {
  persists_rows i row : facts (state k) !! i = Some row →
    ∃ row', facts (state k') !! i = Some row' ∧ active row' = active row ∧ row_key row' = row_key row;
  persists_nodes i n : nodes (state k) !! i = Some (Some n) → ∃ n', nodes (state k') !! i = Some (Some n') ∧ same_node n n'
}.

#[global] Instance persists_preorder : PreOrder persists.
Proof.
  split; [intros k; split; [intros i row Hi; by exists row|intros i n Hi; by exists n]|].
  intros k1 k2 k3 [R1 N1] [R2 N2]. split.
  - intros i row Hi. destruct (R1 i row Hi) as (row2 & Hi2 & Ha & Hkey). destruct (R2 i row2 Hi2) as (row3 & Hi3 & Ha' & Hk').
    exists row3. split_and!; [done|congruence|congruence].
  - intros i n Hi. destruct (N1 i n Hi) as (n2 & Hi2 & H12). destruct (N2 i n2 Hi2) as (n3 & Hi3 & H23). exists n3. split; [done|by etrans].
Qed.

Lemma persists_same k k' : facts (state k') = facts (state k) → nodes (state k') = nodes (state k) → persists k k'.
Proof. intros Ef En. split; rewrite ?Ef, ?En; [intros i row Hi; by exists row|intros i n Hi; by exists n]. Qed.

Lemma persists_stored k k' h n : persists k k' → stored (nodes (state k)) h n → ∃ n', stored (nodes (state k')) h n' ∧ same_node n n'.
Proof.
  intros [_ Hn] (Hi & Hg & Hl). destruct (Hn _ _ Hi) as (n' & Hi' & Hs). exists n'. split; [|done]. destruct Hs. split_and!; [done|congruence|congruence].
Qed.

Lemma persists_active k k' h : persists k k' → active_handle (nodes (state k)) h → active_handle (nodes (state k')) h.
Proof. intros Hp (n & Hn & Ha). destruct (persists_stored _ _ _ _ Hp Hn) as (n' & Hn' & []). exists n'. split; [done|congruence]. Qed.

(** A row with these arguments is there. *)
Definition holds (pid : N) (args : list NodeHandle) (k : TableauKernel) : Prop :=
  ∃ i row, active_row (state k) i row ∧ row_key row = mkFactKey pid args.

Lemma persists_holds k k' pid args : persists k k' → holds pid args k → holds pid args k'.
Proof.
  intros [Hr _] (i & row & [Hi Ha] & Hkey). destruct (Hr i row Hi) as (row' & Hi' & Ha' & Hk'). exists i, row'. split; [split; [done|congruence]|congruence].
Qed.

(** *** Operations *)

Lemma persists_mutation : moves persists record_mutation.
Proof. unfold record_mutation. moves_steps; by apply persists_same. Qed.

Lemma persists_install kind d ps p : moves persists (install_clash kind d ps p).
Proof. unfold install_clash, record_mutation. moves_steps; by apply persists_same. Qed.

Lemma persists_enqueue_into (sel : (MutableState → StableQueue) * (StableQueue → MutableState → MutableState)) v p :
  (∀ q s, facts (sel.2 q s) = facts s ∧ nodes (sel.2 q s) = nodes s) → moves persists (enqueue_into sel v p).
Proof. intros Hs. unfold enqueue_into, record_mutation. moves_steps; apply persists_same; cbn; (done || apply Hs). Qed.

Lemma persists_enqueue_integer queue v p : moves persists (enqueue_integer queue v p).
Proof.
  unfold enqueue_integer. apply moves_lift_bind; [apply _|]. intros sel Hsel%ok_or_Ok. apply persists_enqueue_into.
  unfold integer_queue in Hsel. repeat case_bool_decide; simplify_eq; by intros q s; destruct s.
Qed.

Lemma persists_enqueue_node queue v p : moves persists (enqueue_node queue v p).
Proof.
  unfold enqueue_node. apply moves_bind; [apply _|apply moves_reads, _|]. intros _. apply moves_lift_bind; [apply _|]. intros sel Hsel%ok_or_Ok.
  apply persists_enqueue_into. unfold node_queue in Hsel. repeat case_bool_decide; simplify_eq; by intros q s; destruct s.
Qed.

Lemma persists_take : moves persists take_existential_candidate.
Proof. unfold take_existential_candidate, record_mutation. moves_steps; by apply persists_same. Qed.

Lemma persists_update_node i e f : (∀ n, same_node n (f n)) → moves persists (update_node i e f).
Proof.
  intros Hf k. unfold update_node, mbind, st_bind, reads, lift, index_or_crash. destruct (nodes (state k) !! i) as [[n|]|] eqn:E; cbn; [|reflexivity..].
  split; cbn; [intros j row Hj; by exists row|]. intros j n' Hj. destruct (decide (j = i)) as [->|Hne].
  - rewrite E in Hj. injection Hj as <-. exists (f n). split; [|done]. rewrite list_lookup_insert_eq; [done|]. by eapply lookup_lt_Some.
  - exists n'. by rewrite list_lookup_insert_ne.
Qed.

Lemma persists_mark h e b : moves persists (mark_existential h e b).
Proof.
  unfold mark_existential. repeat (apply moves_bind; [apply _|by moves_steps|intros ?]). destruct (Bool.eqb _ _); [apply moves_mret, _|].
  apply moves_bind; [apply _|by apply persists_update_node|intros _; apply persists_mutation].
Qed.

Lemma persists_bind_at {A B} (m : K A) (f : A → K B) k :
  persists k (m k).2 → (∀ a k', m k = (Ok a, k') → persists k' (f a k').2) → persists k ((m ≫= f) k).2.
Proof.
  unfold mbind, st_bind. destruct (m k) as [[a|e|] k1]; intros Hm Hf; [|done..]. etrans; [exact Hm|]. by apply Hf.
Qed.

Lemma persists_update_fact rid support c p : moves persists (update_existing_fact rid support c p).
Proof.
  intros k. unfold update_existing_fact. apply persists_bind_at; [reflexivity|]. intros row k1 [E%ok_or_Ok ->]%reads_Ok. cbv zeta.
  apply persists_bind_at.
  - split; cbn; [|intros i n Hi; by exists n]. intros i r Hi. destruct (decide (i = N.to_nat rid)) as [->|Hne].
    + rewrite E in Hi. injection Hi as <-. rewrite list_lookup_insert_eq by (by eapply lookup_lt_Some). eexists. split; [done|]. by destruct row.
    + exists r. by rewrite list_lookup_insert_ne.
  - intros _ k1 _. match goal with |- persists _ (?m _).2 => assert (moves persists m) as Hm; [|apply Hm] end.
    pose proof persists_mutation. apply moves_bind; [apply _| |intros ?; apply moves_mret, _]. destruct (_ || _); [done|apply moves_mret, _].
Qed.

Lemma persists_insert_fact key support c p : moves persists (insert_new_fact key support c p).
Proof.
  unfold insert_new_fact, record_mutation. moves_steps; try (by apply persists_same). split; cbn; [|intros i n Hi; by exists n].
  intros i row Hi. exists row. split; [|done]. by apply lookup_app_l_Some.
Qed.

Lemma persists_add_fact pid args d c p : moves persists (add_fact_detailed pid args d c p).
Proof.
  unfold add_fact_detailed. do 4 (apply moves_bind; [apply _|by moves_steps|intros ?]). cbv zeta.
  apply moves_bind; [apply _|by moves_steps|]. intros [rid|]; [apply persists_update_fact|apply persists_insert_fact].
Qed.

Lemma persists_extension a d c ps : moves persists (Engine.add_extension_atom a d c ps).
Proof.
  unfold Engine.add_extension_atom. cbv zeta. apply moves_bind; [apply _|apply persists_add_fact|intros out].
  apply moves_bind; [apply _| |intros _; apply moves_mret, _]. apply moves_forM; [apply _|]. intros q. unfold add_fact.
  apply moves_bind; [apply _| |intros _; apply moves_mret, _]. apply moves_bind; [apply _|apply persists_add_fact|intros o; apply moves_mret, _].
Qed.

(** *** Dispatching *)

Definition persisting {X} (m : EK X) : Prop := ∀ s, persists s.2 (m s).2.2.

Lemma persisting_bind_at {X Y} (m : EK X) (f : X → EK Y) s :
  persists s.2 (m s).2.2 → (∀ x s', m s = (Ok x, s') → persists s'.2 (f x s').2.2) → persists s.2 ((m ≫= f) s).2.2.
Proof. unfold mbind, st_bind. destruct (m s) as [[x|e|] s1]; intros Hm Hf; [|done..]. etrans; [exact Hm|]. by apply Hf. Qed.

Lemma persisting_bind {X Y} (m : EK X) (f : X → EK Y) : persisting m → (∀ x, persisting (f x)) → persisting (m ≫= f).
Proof. intros Hm Hf s. apply persisting_bind_at; [apply Hm|]. intros x s' _. apply Hf. Qed.

Lemma persisting_ker {X} (m : K X) : moves persists m → persisting (Engine.ker m).
Proof. intros Hm s. unfold Engine.ker. specialize (Hm s.2). by destruct (m s.2) as [r k']. Qed.

Lemma persisting_still {X} (m : EK X) : (∀ s, (m s).2.2 = s.2) → persisting m.
Proof. intros Hm s. by rewrite Hm. Qed.

Lemma persisting_atom_id a : persisting (Engine.atom_id a).
Proof.
  intros s. unfold Engine.atom_id, mbind, st_bind, gets, lift, Engine.upd_engine, modify. cbn.
  destruct (re_atom_ids s.1 !! a) as [i|]; [reflexivity|]. destruct (u32_try_from _) as [i|]; [|reflexivity]. cbn.
  by destruct (Rule.validate_ground_atom a (re_program s.1)) as [[]| |].
Qed.

(** Splits a computation into steps that persist. *)
Ltac persisting_steps :=
  repeat match goal with
    | |- persisting (_ ≫= _) => apply persisting_bind; [|intros ?]
    | |- persisting (Engine.ker (install_clash _ _ _ _)) => apply persisting_ker, persists_install
    | |- persisting (Engine.ker (Engine.add_extension_atom _ _ _ _)) => apply persisting_ker, persists_extension
    | |- persisting (Engine.ker (enqueue_integer _ _ _)) => apply persisting_ker, persists_enqueue_integer
    | |- persisting (Engine.ker (enqueue_node _ _ _)) => apply persisting_ker, persists_enqueue_node
    | |- persisting (Engine.ker (mark_existential _ _ _)) => apply persisting_ker, persists_mark
    | |- persisting (Engine.ker (reads _)) => by apply persisting_still
    | |- persisting (Engine.atom_id _) => apply persisting_atom_id
    | |- persisting (Engine.looks _) => by apply persisting_still
    | |- persisting (lift _) => by apply persisting_still
    | |- persisting (gets _) => by apply persisting_still
    | |- persisting (mret _) => by apply persisting_still
    | |- context [_ && false] => rewrite andb_false_r
    | |- persisting (if ?b then _ else _) => destruct b
    | |- persisting (match ?x with _ => _ end) => destruct x
    | |- persisting (let _ := _ in _) => cbv zeta
    end.

(** Kinds whose atoms dispatch nothing but themselves. *)
Definition gentle_kind (kind : PredicateKind) : bool :=
  match kind with Equality | DataRole | NegatedDataRole => false | _ => true end.

Lemma persists_gentle dispatch a p d c ps s :
  Rule.predicate (ga_predicate_id a) (re_program s.1) = Ok p → gentle_kind (rp_kind p) = true →
  persists s.2 (Engine.dispatch_normalized dispatch a d c ps s).2.2.
Proof.
  intros Hp Hg. unfold Engine.dispatch_normalized. apply persisting_bind_at; [reflexivity|]. intros q s1 H.
  assert (q = p ∧ s1 = s) as [-> ->]. { unfold Engine.looks, reads in H. rewrite Hp in H. by injection H as -> ->. }
  cbv zeta. case_bool_decide; [reflexivity|]. rewrite (bool_decide_eq_false_2 (rp_kind p = Equality)) by (intros E; by rewrite E in Hg).
  assert (Engine.is_data_role_kind (rp_kind p) = false) as -> by (by destruct (rp_kind p)).
  match goal with |- persists _ (?m _).2.2 => assert (persisting m) as Hm; [|apply Hm] end.
  unfold Engine.contradict. persisting_steps.
Qed.

Lemma active_canonical k h r d :
  state_ok (top k) (state k) → active_handle (nodes (state k)) h → canonical_handle h k = Ok (r, d) → r = h.
Proof.
  intros Hk Hh H. pose proof (state_arena _ _ Hk) as Ha. apply (canonical_handle_Ok k (arena_slots _ _ Ha)) in H as [(ds & Hr & _) _].
  by destruct (resolves_det _ _ _ _ _ _ Hr (active_resolves _ _ _ Ha Hh)).
Qed.

Lemma resolved_arguments k args (resolved : list (NodeHandle * DependencySet)) :
  state_ok (top k) (state k) → (∀ h, h ∈ args → active_handle (nodes (state k)) h) →
  Forall2 (argument_of (nodes (state k))) args resolved → resolved.*1 = args.
Proof.
  intros Hk Hact Hres. induction Hres as [|h r args resolved [(ds & Hr & _) _] _ IH]; [done|]. cbn. f_equal.
  - by destruct (resolves_det _ _ _ _ _ _ Hr (active_resolves _ _ _ (state_arena _ _ Hk) (Hact h (list_elem_of_here _ _)))).
  - apply IH. intros g Hg. apply Hact. by right.
Qed.

Lemma add_fact_holds pid args d c p k out k' :
  state_ok (top k) (state k) → (∀ h, h ∈ args → active_handle (nodes (state k)) h) →
  add_fact_detailed pid args d c p k = (Ok out, k') → holds pid args k'.
Proof.
  intros Hk Hact H. apply (add_fact_detailed_Ok _ _ _ _ _ _ _ _ (arena_slots _ _ (state_arena _ _ Hk))) in H as (_ & _ & _ & resolved & Hres & _ & Hst & Hout).
  cbv zeta in *. rewrite (resolved_arguments _ _ _ Hk Hact Hres) in *.
  assert (derivable (state k') (mkFactKey pid args) (Dep.union (d :: resolved.*2))) as (i & row & Hr & Hkey & _).
  { rewrite Hst. apply (derivable_fact_added (top k)); [apply (state_facts _ _ Hk)|apply canonical_union| |by right].
    intros E. rewrite E in Hout. apply Hout. }
  by exists i, row.
Qed.

Lemma extension_holds a d c ps k b k' :
  state_ok (top k) (state k) → (∀ h, h ∈ ga_arguments a → active_handle (nodes (state k)) h) →
  Engine.add_extension_atom a d c ps k = (Ok b, k') → holds (ga_predicate_id a) (ga_arguments a) k'.
Proof.
  intros Hk Hact H. unfold Engine.add_extension_atom in H. cbv zeta in H. apply st_bind_Ok in H as (out & k1 & H1 & H).
  eapply persists_holds; [|by eapply add_fact_holds]. apply st_bind_Ok in H as ([] & k2 & H2 & [_ ->]%mret_Ok).
  eapply (moves_Ok persists); [|exact H2]. apply moves_forM; [apply _|]. intros q. unfold add_fact.
  apply moves_bind; [apply _| |intros _; apply moves_mret, _]. apply moves_bind; [apply _|apply persists_add_fact|intros o; apply moves_mret, _].
Qed.

(** The rank by which the arguments of symmetric atoms are ordered. *)
Definition rank_of (h : NodeHandle) (n : Node) : N * N * N := (n_creation_id n, slot h, generation h).

(** The second of two arguments does not rank below the first. *)
Definition in_order (k : TableauKernel) (l r : NodeHandle) : Prop :=
  ∀ n m, stored (nodes (state k)) l n → stored (nodes (state k)) r m → ¬ ord_lt (rank_of r m) (rank_of l n).

Lemma in_order_refl k h : in_order k h h.
Proof. intros n m Hn Hm. rewrite (stored_fun _ _ _ _ Hn Hm). unfold ord_lt. by rewrite compare_refl. Qed.

(** Active arguments in order are canonical. *)
Lemma canonical_atom_same a e k p a' d :
  state_ok (top k) (state k) → (∀ h, h ∈ ga_arguments a → active_handle (nodes (state k)) h) →
  Rule.predicate (ga_predicate_id a) (re_program e) = Ok p →
  (Engine.symmetric_kind (rp_kind p) = true → ∀ l r rest, ga_arguments a = l :: r :: rest → in_order k l r) →
  Engine.canonical_atom a e k = Ok (a', d) → a' = a.
Proof.
  intros Hk Hact Hp Hord H. unfold Engine.canonical_atom in H.
  apply outcome_bind_Ok in H as ([] & (q & Hs)%validate_ground_Ok & H). apply outcome_bind_Ok in H as (q' & Hq & H).
  assert (q' = p) as -> by congruence. assert (q = p) as -> by (apply predicate_Ok in Hq; destruct Hs; congruence).
  apply outcome_bind_Ok in H as (resolved & Hres & H).
  assert (resolved.*1 = ga_arguments a) as Hargs.
  { apply collectM_Ok in Hres. destruct Hs as [_ Hlen]. unfold Rule.arity in Hlen. clear Hord H. revert Hlen Hact Hres.
    generalize (rp_argument_sorts p) resolved. induction (ga_arguments a) as [|h args IH]; intros [|s sorts] rs Hlen Hact Hres; cbn in *; try done.
    - by apply Forall2_nil_inv_l in Hres as ->.
    - apply Forall2_cons_inv_l in Hres as (r & rs' & Hr & Hres & ->). cbn. f_equal; [|apply (IH sorts rs'); [by injection Hlen|by intros; apply Hact; right|exact Hres]].
      apply outcome_bind_Ok in Hr as ([g dg] & Hg & Hr). apply outcome_bind_Ok in Hr as (? & _ & Hr). apply outcome_bind_Ok in Hr as (? & _ & [= <-]).
      eapply active_canonical; [done|apply Hact; by left|done]. }
  rewrite Hargs in H. apply outcome_bind_Ok in H as (args & Hswap & H). apply outcome_bind_Ok in H as (a1 & [-> _]%new_ground_Ok & [= <- _]).
  assert (args = ga_arguments a) as ->; [|by destruct a]. destruct (Engine.symmetric_kind (rp_kind p)); [|by injection Hswap as <-].
  apply outcome_bind_Ok in Hswap as (l & Hl & Hswap). apply outcome_bind_Ok in Hswap as (lr & Hlr & Hswap).
  apply outcome_bind_Ok in Hswap as (r & Hr & Hswap). apply outcome_bind_Ok in Hswap as (rr & Hrr & [= <-]).
  unfold index_or_crash in Hl, Hr. destruct (ga_arguments a) as [|l' [|r' rest]] eqn:Ea; [done|done|]. injection Hl as ->. injection Hr as ->.
  unfold node_rank in Hlr, Hrr. apply outcome_bind_Ok in Hlr as (n & Hn & [= <-]). apply outcome_bind_Ok in Hrr as (m & Hm & [= <-]).
  apply require_active_Ok in Hn as [Hn _], Hm as [Hm _]. case_bool_decide as Hlt; [|done]. by destruct (Hord eq_refl l r rest eq_refl n m Hn Hm).
Qed.

Lemma normalized_holds dispatch a p d c ps s b s' :
  state_ok (top s.2) (state s.2) → (∀ h, h ∈ ga_arguments a → active_handle (nodes (state s.2)) h) →
  Rule.predicate (ga_predicate_id a) (re_program s.1) = Ok p → gentle_kind (rp_kind p) = true →
  Engine.dispatch_normalized dispatch a d c ps s = (Ok b, s') → holds (ga_predicate_id a) (ga_arguments a) s'.2.
Proof.
  intros Hk Hact Hp Hg H. unfold Engine.dispatch_normalized in H. apply st_bind_Ok in H as (q & s1 & Hq & H).
  assert (q = p ∧ s1 = s) as [-> ->]. { unfold Engine.looks, reads in Hq. rewrite Hp in Hq. by injection Hq as -> ->. }
  cbv zeta in H. case_bool_decide; [done|]. rewrite (bool_decide_eq_false_2 (rp_kind p = Equality)) in H by (intros E; by rewrite E in Hg).
  assert (Engine.is_data_role_kind (rp_kind p) = false) as Hd by (by destruct (rp_kind p)). rewrite Hd in H.
  assert (∀ X (m : EK X) s0 x, persisting m → holds (ga_predicate_id a) (ga_arguments a) s0.2 → m s0 = (Ok x, s') → holds (ga_predicate_id a) (ga_arguments a) s'.2) as Hlast.
  { intros X m s0 x Hm Hh E. specialize (Hm s0). rewrite E in Hm. by eapply persists_holds. }
  assert (∀ s0 r s1, Engine.ker (Engine.add_extension_atom a d c ps) s0 = (Ok r, s1) → s0.2 = s.2 → holds (ga_predicate_id a) (ga_arguments a) s1.2) as Hext.
  { intros [e0 k0] r s1 E Es. cbn in Es. subst k0. unfold Engine.ker in E. cbn in E. destruct (Engine.add_extension_atom a d c ps s.2) as [r0 k1] eqn:Ea.
    injection E as -> <-. by eapply extension_holds. }
  case_bool_decide.
  - apply st_bind_Ok in H as (aid & s2 & Ha & H). apply st_bind_Ok in H as (r & s3 & He & H).
    assert (s2.2 = s.2) as E2.
    { revert Ha. unfold Engine.atom_id, mbind, st_bind, gets, lift, Engine.upd_engine, modify. cbn. destruct (re_atom_ids s.1 !! a); [by intros [= _ <-]|].
      destruct (u32_try_from _); [|done]. cbn. destruct (Rule.validate_ground_atom a (re_program s.1)) as [[]| |]; [|done..]. by intros [= _ <-]. }
    eapply Hlast; [|by eapply Hext|exact H]. persisting_steps.
  - apply st_bind_Ok in H as (r & s2 & He & H). eapply Hlast; [|by eapply Hext|exact H]. unfold Engine.contradict. persisting_steps.
Qed.

(** Dispatching an atom of a gentle kind keeps everything and makes the atom hold. *)
Lemma dispatch_gentle a p d c ps s :
  Rule.predicate (ga_predicate_id a) (re_program s.1) = Ok p → gentle_kind (rp_kind p) = true →
  (Engine.symmetric_kind (rp_kind p) = true → ∀ l r rest, ga_arguments a = l :: r :: rest → in_order s.2 l r) →
  state_ok (top s.2) (state s.2) → (∀ h, h ∈ ga_arguments a → active_handle (nodes (state s.2)) h) →
  persists s.2 (Engine.dispatch_ground_atom a d c ps s).2.2 ∧
  ∀ b s', Engine.dispatch_ground_atom a d c ps s = (Ok b, s') → holds (ga_predicate_id a) (ga_arguments a) s'.2.
Proof.
  intros Hp Hg Hord Hk Hact. unfold Engine.dispatch_ground_atom, Engine.dispatch_fuel, mbind, st_bind, gets, id. cbn [Engine.dispatch_loop].
  unfold Engine.dispatch_body, mbind, st_bind, Engine.looks, reads.
  destruct (Engine.canonical_atom a s.1 s.2) as [[a' d']|e|] eqn:Ec; [|done..].
  apply (canonical_atom_same a _ _ p) in Ec as ->; [|done..]. cbn [fst snd]. split; [by eapply persists_gentle|].
  intros b s' H. by eapply normalized_holds.
Qed.

(** The reflexive equality of a node merges nothing. *)
Lemma dispatch_reflexive pid p h d c ps s :
  Rule.predicate pid (re_program s.1) = Ok p → rp_kind p = Equality →
  state_ok (top s.2) (state s.2) → active_handle (nodes (state s.2)) h →
  persists s.2 (Engine.dispatch_ground_atom (mkGroundAtom pid [h; h]) d c ps s).2.2.
Proof.
  intros Hp He Hk Hh. unfold Engine.dispatch_ground_atom, Engine.dispatch_fuel. apply persisting_bind_at; [reflexivity|]. intros ? s1 [= <- <-].
  cbn [Engine.dispatch_loop]. unfold Engine.dispatch_body. apply persisting_bind_at; [reflexivity|]. intros [a' d'] s1 H.
  assert (s1 = s ∧ a' = mkGroundAtom pid [h; h]) as [-> ->].
  { unfold Engine.looks, reads in H. destruct (Engine.canonical_atom _ s.1 s.2) as [r|e|] eqn:Ec; [|done..]. injection H as -> <-. split; [done|].
    apply (canonical_atom_same _ _ _ p) in Ec; [done|done| |done|].
    - intros g [->|[->|Hg%not_elem_of_nil]%elem_of_cons]%elem_of_cons; [done|done|done].
    - intros _ l r rest [= <- <- _]. apply in_order_refl. }
  unfold Engine.dispatch_normalized. apply persisting_bind_at; [reflexivity|]. intros q s1 H1.
  assert (q = p ∧ s1 = s) as [-> ->]. { unfold Engine.looks, reads in H1. cbn in H1. rewrite Hp in H1. by injection H1 as -> ->. }
  cbv zeta. rewrite He, (bool_decide_eq_false_2 (Equality = OrderingGuard)), (bool_decide_eq_true_2 (Equality = Equality)) by done.
  unfold Engine.dispatch_equality. apply persisting_bind_at; [reflexivity|]. intros [l r] s1 E1. unfold lift, Engine.first_two in E1. cbn in E1. injection E1 as <- <- <-.
  match goal with |- persists _ (?m _).2.2 => assert (persisting m) as Hm; [|apply Hm] end.
  rewrite (bool_decide_eq_true_2 (h = h)) by done. cbn [negb]. persisting_steps.
Qed.

Lemma register_persists h d s :
  live s → active_handle (nodes (state s.2)) h → persists s.2 (Engine.register_node h d s).2.2.
Proof.
  intros Hs Hh. unfold Engine.register_node. apply persisting_bind_at; [reflexivity|]. intros sort s1 E1.
  assert (s1 = s) as ->. { unfold Engine.looks, reads in E1. by injection E1 as _ <-. }
  apply persisting_bind_at; [reflexivity|]. intros [pid|] s1 E; [|reflexivity].
  assert (s1 = s ∧ Engine.last_predicate (λ p, bool_decide (rp_kind p = Equality) && bool_decide (head (rp_argument_sorts p) = Some (Engine.sort_of_node sort)))
    (predicates (re_program s.1)) = Some pid) as [-> Hlast] by (unfold Engine.looks, reads in E; by injection E as ? <-).
  apply last_predicate_Some in Hlast as (p & Hp & Ht); [|by apply live_program]. apply andb_true_iff in Ht as [He%bool_decide_eq_true _].
  apply persisting_bind_at; [reflexivity|]. intros a s1 Ea. unfold lift in Ea. apply pair_equal_spec in Ea as [Ea <-].
  apply new_ground_Ok in Ea as [-> _]. eapply dispatch_reflexive; [by apply predicate_Ok|done|apply (wf_state _ (world_wf _ _ (live_world _ Hs)))|done].
Qed.

Lemma create_persists kind parent k h k' :
  wf k → create_node kind parent false None None None k = (Ok h, k') →
  persists k k' ∧ (∀ n, ¬ stored (nodes (state k)) h n) ∧
  ∃ n, stored (nodes (state k')) h n ∧ n_kind n = kind ∧ n_lifecycle n = Active ∧ n_parent n = parent.
Proof.
  intros Hk H. apply create_node_fresh in H as (_ & Hnew & (n & Hn & _ & Hkind & Ha & Hp & _) & Hold & Hf); [|done]. split_and!; [|done|by exists n].
  split; [rewrite Hf; intros i row Hi; by exists row|]. intros i m Hm. exists m. split; [|done]. pose proof (state_arena _ _ (wf_state _ Hk)) as Ha'.
  assert (stored (nodes (state k)) (n_handle m) m) as Hs by (by eapply arena_stored_not_retired).
  pose proof (arena_slots _ _ Ha' _ _ Hm) as Hslot. apply Hold in Hs as (Hl & _). by rewrite Hslot in Hl.
Qed.

Lemma mark_settles h id k u k' : mark_existential h id false k = (Ok u, k') →
  ∃ n, stored (nodes (state k')) h n ∧ id ∉ n_unprocessed_existentials n.
Proof.
  intros H. unfold mark_existential in H. apply st_bind_Ok in H as (i & k1 & [Hi ->]%reads_Ok & H). apply node_index_Ok in Hi as [-> _].
  apply st_bind_Ok in H as (n & k1 & [[Hn _]%require_active_Ok ->]%reads_Ok & H).
  destruct (bool_decide (id ∈ n_unprocessed_existentials n)) eqn:E; cbn in H.
  - apply st_bind_Ok in H as (u1 & k1 & (n1 & Hn1 & _ & Hst)%update_node_Ok & H).
    assert (n1 = n) as -> by (destruct Hn as [Hn _]; congruence). unfold record_mutation in H. inv_ok. subst. cbn in *. eexists. split.
    + unfold stored. rewrite Hst. cbn. rewrite list_lookup_insert_eq by (by eapply lookup_lt_Some). split; [done|]. by destruct Hn as (_ & ? & ?).
    + cbn. set_solver.
  - injection H as _ <-. exists n. split; [done|]. by apply bool_decide_eq_false in E.
Qed.

Lemma enqueue_nodes queue v p k : nodes (state (enqueue_node queue v p k).2) = nodes (state k).
Proof.
  unfold enqueue_node, enqueue_into, node_queue, record_mutation, mbind, st_bind, reads, lift, ok_or.
  destruct (require_node v k); [|done..]. repeat case_bool_decide; cbn; try done; repeat (case_match; cbn; try done).
Qed.
(** ** Compiled programs *)

Lemma foldM_keeps {E A B} (f : B → A → outcome E B) (I : B → Prop) l b b' :
  (∀ b x b', x ∈ l → I b → f b x = Ok b' → I b') → I b → foldM f l b = Ok b' → I b'.
Proof.
  revert b. induction l as [|x l IH]; intros b Hf Hb; cbn; [by intros [= <-]|]. intros (b1 & Hx & Hl)%outcome_bind_Ok.
  eapply IH, Hl; [|by eapply Hf, Hx; [left|]]. intros b2 y b3 Hy. apply Hf. by right.
Qed.

(** What the loop over the predicates has collected comes from them. *)
Record collected (ps : list RulePredicate) (c : Runtime.Compiled) : Prop := {
  collected_role role pid : Runtime.co_object_roles c !! role = Some pid → ∃ p, p ∈ ps ∧ rp_predicate_id p = pid ∧ rp_kind p = ObjectRole;
  collected_inequality pid : Runtime.co_object_inequality c = Some pid → ∃ p, p ∈ ps ∧ rp_predicate_id p = pid ∧ rp_kind p = Inequality;
  collected_obligation o : o ∈ Runtime.co_obligations c → Expansion.al_kind o = Expansion.ObjectObligation →
    (∃ role, Expansion.al_role_ids o = [role]) ∧
    ∃ p, p ∈ ps ∧ rp_kind p = AtLeastObject ∧ rp_filler_predicate_id p = Some (Expansion.al_filler_predicate_id o)
}.

Lemma compile_collects ps reusable c p c' : p ∈ ps → collected ps c → Runtime.compile_predicate reusable c p = Ok c' → collected ps c'.
Proof.
  intros Hp [Hr Hi Ho] E. unfold Runtime.compile_predicate in E.
  destruct (rp_kind p) eqn:Ek; try (by injection E as <-; split).
  - apply outcome_bind_Ok in E as (x & Hx & [= <-]). unfold Runtime.insert_role in Hx.
    apply outcome_bind_Ok in Hx as (role & _ & Hx). apply outcome_bind_Ok in Hx as ([] & _ & [= <-]). split; [cbn|done|done].
    intros role' pid. rewrite lookup_insert_Some. intros [[<- <-]|[_ H]]; [by exists p|by eapply Hr].
  - apply outcome_bind_Ok in E as (x & Hx & [= <-]). by split.
  - destruct (head (rp_argument_sorts p)) as [[]|]; [..|done]; apply outcome_bind_Ok in E as (x & Hx & [= <-]); [by split|].
    unfold Runtime.set_unique in Hx. apply outcome_bind_Ok in Hx as ([] & _ & [= <-]). split; [done|cbn|done]. intros pid [= <-]. by exists p.
  - apply outcome_bind_Ok in E as (role & _ & E). apply outcome_bind_Ok in E as (filler & Hf & E). apply outcome_bind_Ok in E as (n & _ & [= <-]).
    unfold Runtime.required in Hf. apply ok_or_Ok in Hf. split; [done|done|cbn]. intros o [H| ->%list_elem_of_singleton]%elem_of_app; [by apply Ho|].
    intros _. split; [by exists role|]. by exists p.
  - apply outcome_bind_Ok in E as (n & _ & E). apply outcome_bind_Ok in E as (filler & _ & [= <-]). split; [done|done|cbn].
    intros o [H| ->%list_elem_of_singleton]%elem_of_app; [by apply Ho|]. done.
Qed.

Lemma new_program_obligations os roles prog :
  Expansion.new_program os roles = Ok prog → Expansion.xp_roles prog = roles ∧ ∀ id o, Expansion.xp_obligations prog !! id = Some o → o ∈ os.
Proof.
  intros ([] & _ & H)%outcome_bind_Ok. apply outcome_bind_Ok in H as (indexed & Hf & H). apply outcome_bind_Ok in H as ([] & _ & [= <-]). split; [done|]. cbn.
  refine (foldM_keeps _ (λ m : gmap N Expansion.AtLeastPredicate, ∀ id o, m !! id = Some o → o ∈ os) _ _ _ _ _ Hf); [|by intros ? ?].
  intros m x m' Hx Hm ([] & _ & E)%outcome_bind_Ok. apply outcome_bind_Ok in E as ([] & _ & [= <-]).
  intros id o [[_ <-]|[_ H]]%lookup_insert_Some; [done|by eapply Hm].
Qed.

Lemma compiled_collects prog special reusable xp : Runtime.expansion_program_from_rules prog special reusable = Ok xp →
  ∃ c, collected (predicates prog) c ∧ Expansion.rv_object_role_predicates (Expansion.xp_roles xp) = Runtime.co_object_roles c ∧
    Expansion.rv_object_inequality_predicate_id (Expansion.xp_roles xp) = Runtime.co_object_inequality c ∧
    ∀ id o, Expansion.xp_obligations xp !! id = Some o → o ∈ Runtime.co_obligations c.
Proof.
  intros (c & Hf & [Er Ho]%new_program_obligations)%outcome_bind_Ok. exists c. rewrite Er. split_and!; [|done|done|done].
  eapply foldM_keeps, Hf; [intros ? ? ?; apply compile_collects|]. split; cbn; [by intros ? ?|done|by intros ? ?%not_elem_of_nil].
Qed.

Lemma listed_predicate prog p : program_ok prog → p ∈ predicates prog → Rule.predicate (rp_predicate_id p) prog = Ok p.
Proof. intros Hp [i Hi]%list_elem_of_lookup. apply predicate_Ok. by rewrite (program_ids _ Hp _ _ Hi). Qed.

(** ** Steps of an expansion *)

Section steps.
Context {D C : Type} `{OperationControl C} `{!NativeDatatypeExpansion D C}.
Abbreviation W := (ExpansionWorld D C).
Abbreviation M := (st W Expansion.ExpansionError).
Implicit Types (w : W) (h : NodeHandle).
Context (Hcalm : calm_control (C := C)) (Hdata : calm_datatypes (D := D) (C := C)).

Record stays w w' : Prop := {
  stays_kernel : persists (xw_kernel w) (xw_kernel w');
  stays_program : re_program (xw_engine w') = re_program (xw_engine w);
  stays_blocking : xw_blocking w' = xw_blocking w
}.

#[global] Instance stays_preorder : PreOrder stays.
Proof. split; [by intros w; split|]. intros w1 w2 w3 [] []. split; [by etrans|congruence|congruence]. Qed.

(** [m] answers, loses nothing when it succeeds, and then promises [Q]. *)
Definition lasts {X} (m : M X) w (Q : X → W → Prop) : Prop := fine m w (λ x w', stays w w' ∧ Q x w').
Abbreviation any := (λ _ _, True).

Lemma lasts_ret {X} (x : X) w (Q : X → W → Prop) : Q x w → lasts (mret x) w Q.
Proof. intros HQ. by apply fine_ret. Qed.

Lemma lasts_bind {X Y} (m : M X) (f : X → M Y) w Q P :
  lasts m w Q → (∀ x w', lively w' → stays w w' → Q x w' → lasts (f x) w' P) → lasts (m ≫= f) w P.
Proof.
  intros Hm Hf. eapply fine_bind; [exact Hm|]. intros x w' Hw' [Hs Hx]. eapply fine_impl; [by apply Hf|].
  intros y w2 _ [Hs2 Hy]. split; [by etrans|done].
Qed.

Lemma lasts_impl {X} (m : M X) w (Q Q' : X → W → Prop) :
  lasts m w Q → (∀ x w', lively w' → stays w w' → Q x w' → Q' x w') → lasts m w Q'.
Proof. intros Hm HQ. eapply fine_impl; [exact Hm|]. intros x w' Hw' [Hs Hx]. split; [done|by apply HQ]. Qed.

(** The success of a computation whose failures are harmless. *)
Lemma lasts_of {X} (m : M X) w (Q : X → W → Prop) :
  fine m w any → (∀ x w', lively w → lively w' → m w = (Ok x, w') → persists (xw_kernel w) (xw_kernel w') ∧ Q x w') → lasts m w Q.
Proof.
  intros Hm HQ Hw. specialize (Hm Hw). unfold meets in *. destruct (m w) as [[x|e|] w'] eqn:E; [|done|done].
  destruct Hm as (Hw' & [B [R G]] & _). destruct (HQ x w' Hw Hw' eq_refl) as [Hp Hx]. split_and!; [done|by split|split|done]; [done|apply (grows_program _ _ G)|done].
Qed.

Lemma lasts_still {X} (m : M X) w : fine m w any → xw_kernel (m w).2 = xw_kernel w → lasts m w any.
Proof. intros Hm Hk. apply lasts_of; [done|]. intros x w' _ _ E. rewrite E in Hk. cbn in Hk. by rewrite Hk. Qed.

Lemma lasts_reads {X} (f : W → outcome Expansion.ExpansionError X) w : f w ≠ Crash → lasts (reads f) w (λ x w', w' = w ∧ f w = Ok x).
Proof. intros Hf. apply fine_reads; [done|]. intros x Hx. by split. Qed.

Lemma lasts_lift {X} (r : outcome Expansion.ExpansionError X) w : r ≠ Crash → lasts (lift r) w (λ x w', w' = w ∧ r = Ok x).
Proof. intros Hr. apply fine_lift; [done|]. intros x Hx. by split. Qed.

Lemma lasts_poll w : lasts Runtime.poll w (λ _ w', looked w w').
Proof. eapply fine_impl; [by apply fine_poll|]. intros x ? _ [c ->]. split; [by split|by exists c]. Qed.

Lemma lasts_kernel {X} (m : K X) w : fine (Runtime.kernel m) w any → moves persists m → lasts (Runtime.kernel m) w any.
Proof.
  intros Hm Hp. apply lasts_of; [done|]. intros x w' _ _ E. unfold Runtime.kernel in E. specialize (Hp (xw_kernel w)).
  destruct (m (xw_kernel w)) as [[y|e|] k']; cbn in *; simplify_eq; done.
Qed.

Lemma lasts_pop w : lasts (Expansion.pop_candidate (A := NodeHandle)) w any.
Proof. apply lasts_kernel; [apply fine_pop|apply persists_take]. Qed.

Lemma lasts_enqueue h p w : lasts (Expansion.enqueue_candidate h p) w any.
Proof. apply lasts_kernel; [apply fine_enqueue|apply persists_enqueue_node]. Qed.

Lemma lasts_mark h pid w : lasts (Expansion.mark_node_processed h pid) w any.
Proof. apply lasts_kernel; [apply fine_mark|apply persists_mark]. Qed.

Lemma lasts_create kind parent w :
  lasts (Expansion.create_node kind parent) w (λ h w', (∀ n, ¬ stored (nodes (state (xw_kernel w))) h n) ∧
    ∃ n, stored (nodes (state (xw_kernel w'))) h n ∧ n_kind n = kind ∧ n_lifecycle n = Active ∧ n_parent n = parent).
Proof.
  apply lasts_of; [apply fine_create|]. intros h w' Hw _ E. cbn in E. unfold Runtime.kernel in E.
  destruct (create_node kind parent false None None None (xw_kernel w)) as [[g|e|] k'] eqn:Ec; cbn in E; simplify_eq.
  apply create_persists in Ec; [done|apply Hw].
Qed.

Lemma lasts_engine {X} (m : EK X) w (Q : X → W → Prop) :
  fine (Runtime.engine m) w any → (lively w → persists (xw_kernel w) (m (joint w)).2.2) →
  (∀ x s, lively w → m (joint w) = (Ok x, s) → Q x (w <| xw_engine := s.1 |> <| xw_kernel := s.2 |>)) → lasts (Runtime.engine m) w Q.
Proof.
  intros Hm Hp HQ. apply lasts_of; [done|]. intros x w' Hw _ E. specialize (Hp Hw). unfold Runtime.engine, joint in *.
  destruct (m (xw_engine w, xw_kernel w)) as [[y|e|] [e' k']] eqn:Em; cbn in *; simplify_eq. split; [done|]. by apply (HQ x (e', k')).
Qed.

Lemma lively_state w : lively w → state_ok (top (xw_kernel w)) (state (xw_kernel w)).
Proof. intros Hw. apply (wf_state _ (world_wf _ _ (live_world _ Hw))). Qed.

(** An atom that may be dispatched safely. *)
Record proper (pid : N) (args : list NodeHandle) w : Prop := {
  proper_kind : ∃ p, Rule.predicate pid (re_program (xw_engine w)) = Ok p ∧ gentle_kind (rp_kind p) = true ∧
    (Engine.symmetric_kind (rp_kind p) = true → ∀ l r rest, args = l :: r :: rest → in_order (xw_kernel w) l r);
  proper_active h : h ∈ args → active_handle (nodes (state (xw_kernel w))) h
}.

Lemma proper_stays pid args w w' : stays w w' → proper pid args w → proper pid args w'.
Proof.
  intros [Hp Epr _] [(p & Hpr & Hg & Ho) Ha]. split; [|intros h Hh; eapply persists_active, Ha, Hh; done].
  exists p. split_and!; [congruence|done|]. intros Hs l r rest E n' m' Hn' Hm'.
  assert (active_handle (nodes (state (xw_kernel w))) l ∧ active_handle (nodes (state (xw_kernel w))) r) as [(n & Hn & _) (m & Hm & _)]
    by (split; apply Ha; rewrite E; set_solver).
  destruct (persists_stored _ _ _ _ Hp Hn) as (n1 & Hn1 & [_ Ecn _ _ _ _]), (persists_stored _ _ _ _ Hp Hm) as (m1 & Hm1 & [_ Ecm _ _ _ _]).
  rewrite (stored_fun _ _ _ _ Hn' Hn1), (stored_fun _ _ _ _ Hm' Hm1). unfold rank_of. rewrite Ecn, Ecm. by apply (Ho Hs l r rest E).
Qed.

Lemma lasts_dispatch pid args d c w : proper pid args w → lasts (Runtime.runtime_dispatch pid args d c) w (λ _ w', holds pid args (xw_kernel w')).
Proof.
  intros Hpr. unfold Runtime.runtime_dispatch. eapply lasts_bind; [apply lasts_poll|]. intros _ w1 _ S1 _. apply (proper_stays _ _ _ _ S1) in Hpr. clear S1.
  eapply lasts_bind; [apply lasts_lift, converted_not_crash, new_ground_not_crash|]. intros a w2 _ _ [-> Ha].
  destruct (Rule.new_ground pid args) as [a'|e|] eqn:Eg; cbn in Ha; simplify_eq. apply new_ground_Ok in Eg as [-> _].
  eapply lasts_bind; [apply lasts_lift, native_dependency_not_crash|]. intros d' w2 _ _ [-> _]. destruct Hpr as [(p & Hp & Hg & Ho) Hact].
  assert (lively w1 → _) as Hd by (intros Hw; exact (dispatch_gentle (mkGroundAtom pid args) p d' c [] (joint w1) Hp Hg Ho (lively_state _ Hw) Hact)).
  apply lasts_engine; [|by intros Hw; apply Hd|].
  - apply fine_engine; [intros Hw; apply hsafe_inside, safe_dispatch; [by apply live_program|by apply live_ready]|].
    unfold Engine.dispatch_ground_atom. apply drifts_bind; [apply drifts_gets|intros; apply drifts_dispatch].
  - intros b s Hw E. destruct (Hd Hw) as [_ Hh]. by apply Hh in E.
Qed.

Lemma lasts_dispatching pid args d w : proper pid args w → lasts (Expansion.dispatch pid args d) w (λ _ w', holds pid args (xw_kernel w')).
Proof.
  intros Hpr. unfold Expansion.dispatch. eapply lasts_bind; [by apply lasts_dispatch|]. intros b w1 _ _ Hh.
  eapply lasts_impl; [apply lasts_poll|]. intros x w2 _ [Hp _ _] _. by eapply persists_holds.
Qed.

Lemma lasts_register h d w : active_handle (nodes (state (xw_kernel w))) h → lasts (Expansion.register_node h d) w any.
Proof.
  intros Hh. change (lasts (Runtime.runtime_register h d) w any). unfold Runtime.runtime_register.
  eapply lasts_bind; [apply lasts_poll|]. intros _ w1 _ S1 _. assert (active_handle (nodes (state (xw_kernel w1))) h) as Hh1 by (by eapply persists_active, Hh; apply S1).
  eapply lasts_bind; [apply lasts_lift, native_dependency_not_crash|]. intros d' w2 _ _ [-> _].
  eapply (lasts_bind _ _ _ any); [|intros; by apply lasts_ret]. apply lasts_engine; [|intros Hw; by apply (register_persists h d' (joint w1))|done].
  apply fine_engine; [intros Hw; apply hsafe_inside, safe_register; [by apply live_program|by apply live_ready]|apply drifts_register].
Qed.

Lemma lasts_forM {X} (f : X → M unit) l w (P : X → W → Prop) :
  (∀ x w1 w2, stays w1 w2 → P x w1 → P x w2) → (∀ x w', x ∈ l → stays w w' → lasts (f x) w' (λ _ w2, P x w2)) →
  lasts (forM f l) w (λ _ w', ∀ x, x ∈ l → P x w').
Proof.
  intros HP. revert w. induction l as [|x l IH]; intros w Hf; [apply lasts_ret; intros x Hx; by apply not_elem_of_nil in Hx|].
  cbn. eapply lasts_bind; [apply Hf; [by left|done]|]. intros u w1 _ S1 Hx. eapply lasts_impl; [apply IH|].
  - intros y w' Hy S'. apply Hf; [by right|by etrans].
  - intros u2 w2 _ S2 Hall y [->|Hy]%elem_of_cons; [by eapply HP|by apply Hall].
Qed.

Lemma lasts_foldST {X Y} (f : Y → X → M Y) (I : nat → Y → W → Prop) l y w :
  I 0%nat y w → (∀ i y x w', x ∈ l → stays w w' → I i y w' → lasts (f y x) w' (λ y' w2, I (S i) y' w2)) → lasts (foldST f l y) w (λ y w', I (length l) y w').
Proof.
  revert I y w. induction l as [|x l IH]; intros I y w Hy Hf; [by apply lasts_ret|]. cbn [foldST length]. eapply lasts_bind; [apply (Hf 0%nat); [by left|done|done]|].
  intros y' w' _ S' Hy'. cbn beta in Hy'. apply (IH (λ i, I (S i))); [done|]. intros i y1 x1 w1 Hx S1. apply Hf; [by right|by etrans].
Qed.

(** ** Ordered pairs *)

Lemma rank_compare x y (n m : Node) :
  compare (rank_of x n) (rank_of y m) = Lt →
  compare (Expansion.mkPriority (n_creation_id n) (slot x) (generation x), x) (Expansion.mkPriority (n_creation_id m) (slot y) (generation y), y) = Lt.
Proof.
  change (then_cmp (then_cmp (compare (n_creation_id n) (n_creation_id m)) (compare (slot x) (slot y))) (compare (generation x) (generation y)) = Lt →
    then_cmp (then_cmp (compare (n_creation_id n) (n_creation_id m)) (then_cmp (compare (slot x) (slot y)) (compare (generation x) (generation y)))) (compare x y) = Lt).
  destruct (compare (n_creation_id n) (n_creation_id m)), (compare (slot x) (slot y)), (compare (generation x) (generation y)); done.
Qed.

Lemma ordered_pair_spec (w : W) l r o : lively w → active_handle (nodes (state (xw_kernel w))) l → active_handle (nodes (state (xw_kernel w))) r →
  Expansion.ordered_pair l r w = Ok o → in_order (xw_kernel w) o.1 o.2 ∧ (o = (l, r) ∨ o = (r, l)).
Proof.
  intros Hw (n & Hn & Hna) (m & Hm & Hma) E. unfold Expansion.ordered_pair in E. cbn in E.
  rewrite (read_record w l n Hn Hna), (read_record w r m Hm Hma) in E. cbn in E. injection E as <-.
  set (x := (_, l)). set (y := (_, r)). case_bool_decide as Hgt; cbn; (split; [|first [by left|by right]]); intros n' m' Hn' Hm' Hlt.
  - rewrite (stored_fun _ _ _ _ Hn' Hm), (stored_fun _ _ _ _ Hm' Hn) in Hlt. apply rank_compare in Hlt. unfold x, y in Hgt. congruence.
  - rewrite (stored_fun _ _ _ _ Hn' Hn), (stored_fun _ _ _ _ Hm' Hm) in Hlt. apply rank_compare in Hlt. apply Hgt.
    rewrite compare_antisym. unfold x, y. by rewrite Hlt.
Qed.

(** ** Witnesses *)

(** An atom of one of these predicates keeps its arguments in their places. *)
Definition plain (pid : N) w : Prop :=
  ∃ p, Rule.predicate pid (re_program (xw_engine w)) = Ok p ∧ gentle_kind (rp_kind p) = true ∧ Engine.symmetric_kind (rp_kind p) = false.

Lemma plain_stays pid w w' : stays w w' → plain pid w → plain pid w'.
Proof. intros [_ E _] (p & Hp & ?). exists p. split; [congruence|done]. Qed.

Lemma plain_proper pid args w : plain pid w → (∀ h, h ∈ args → active_handle (nodes (state (xw_kernel w))) h) → proper pid args w.
Proof. intros (p & Hp & Hg & Hs) Ha. split; [|done]. exists p. split_and!; [done|done|]. intros E. congruence. Qed.

Lemma stays_active w w' h : stays w w' → active_handle (nodes (state (xw_kernel w))) h → active_handle (nodes (state (xw_kernel w'))) h.
Proof. intros [Hp _ _]. by apply persists_active. Qed.

Definition child (root h : NodeHandle) w : Prop :=
  ∃ n, stored (nodes (state (xw_kernel w))) h n ∧ n_kind n = Tree ∧ n_lifecycle n = Active ∧ n_parent n = Some root.

Lemma child_stays root h w w' : stays w w' → child root h w → child root h w'.
Proof.
  intros [Hp _ _] (n & Hn & Hk & Ha & Hpar). destruct (persists_stored _ _ _ _ Hp Hn) as (n' & Hn' & []). exists n'. split_and!; [done|congruence..].
Qed.

Lemma child_active root h w : child root h w → active_handle (nodes (state (xw_kernel w))) h.
Proof. intros (n & Hn & _ & Ha & _). by exists n. Qed.

Lemma lasts_new_witness root support w :
  lasts (Expansion.new_witness Tree (Some root) support) w (λ h w', (∀ n, ¬ stored (nodes (state (xw_kernel w))) h n) ∧ child root h w').
Proof.
  unfold Expansion.new_witness. eapply lasts_bind; [apply lasts_poll|]. intros _ ? _ _ [c ->].
  eapply lasts_bind; [apply lasts_create|]. intros h w1 _ _ [Hnew Hc]. cbn in Hnew.
  eapply lasts_bind; [apply lasts_poll|]. intros _ w2 _ S2 _. assert (child root h w2) as Hc2 by (by eapply child_stays).
  eapply lasts_bind; [by eapply lasts_register, child_active|]. intros _ w3 _ S3 _.
  eapply lasts_bind; [apply lasts_poll|]. intros _ w4 _ S4 _. apply lasts_ret. split; [done|]. by eapply child_stays, child_stays.
Qed.

Section object.
Context (m : Expansion.ExistentialExpansionManager) (p : Expansion.AtLeastPredicate) (root : NodeHandle).
Abbreviation filler := (Expansion.al_filler_predicate_id p).

(** A witness of the obligation. *)
Definition serves (role : option N) (h : NodeHandle) w : Prop :=
  child root h w ∧ (∀ pid, role = Some pid → holds pid [root; h] (xw_kernel w)) ∧ holds filler [h] (xw_kernel w).

Lemma serves_stays role h w w' : stays w w' → serves role h w → serves role h w'.
Proof.
  intros S (Hc & Hr & Hf). split_and!; [by eapply child_stays| |by eapply persists_holds, Hf; apply S]. intros pid E. by eapply persists_holds, Hr, E; apply S.
Qed.

Lemma lasts_object_witness role initial supports ws i w :
  supports ≠ [] → active_handle (nodes (state (xw_kernel w))) root → (∀ pid, role = Some pid → plain pid w) → plain filler w →
  lasts (Expansion.object_witness p root role initial supports ws i) w
    (λ ws' w', ∃ h, ws' = ws ++ [h] ∧ (∀ n, ¬ stored (nodes (state (xw_kernel w))) h n) ∧ serves role h w').
Proof.
  intros Hne Hroot Hrole Hfill. unfold Expansion.object_witness. eapply lasts_bind; [apply lasts_new_witness|]. intros h w1 _ S1 [Hnew Hc].
  eapply lasts_bind.
  - apply (lasts_forM _ _ _ (λ _ w', (∀ pid, role = Some pid → holds pid [root; h] (xw_kernel w')) ∧ holds filler [h] (xw_kernel w'))).
    { intros _ w2 w3 S [Hr Hf]. split; [|by eapply persists_holds, Hf; apply S]. intros pid E. by eapply persists_holds, Hr, E; apply S. }
    intros support w2 _ S2. assert (stays w w2) as S12 by (by etrans). assert (child root h w2) as Hc2 by (by eapply child_stays; [exact S2|]).
    eapply (lasts_bind _ _ _ (λ _ w', ∀ pid, role = Some pid → holds pid [root; h] (xw_kernel w'))).
    + destruct role as [pid|]; [|apply lasts_ret; by intros ? [=]]. eapply lasts_impl; [apply lasts_dispatching, plain_proper|].
      * by eapply plain_stays, Hrole.
      * intros g [->|[->|Hg%not_elem_of_nil]%elem_of_cons]%elem_of_cons; [by eapply stays_active|by eapply child_active|done].
      * intros u w3 _ _ Hh q [= <-]. exact Hh.
    + intros u w3 _ S3 Hr. cbn beta in Hr. eapply lasts_impl; [apply lasts_dispatching, plain_proper|].
      * eapply plain_stays, Hfill. by etrans.
      * intros g ->%list_elem_of_singleton. eapply stays_active; [exact S3|]. by eapply child_active.
      * intros u' w4 _ S4 Hf. split; [|exact Hf]. intros pid E. by eapply persists_holds, Hr, E; apply S4.
  - intros u w2 _ S2 Hall. cbn beta in Hall. apply lasts_ret. exists h. split_and!; [done|done|]. destruct supports as [|d supports]; [done|].
    destruct (Hall d (list_elem_of_here _ _)). split_and!; [by eapply child_stays|done|done].
Qed.

(** The witnesses found so far. *)
Record serving (role : option N) (i : nat) (ws : list NodeHandle) w : Prop := {
  serving_distinct : NoDup ws;
  serving_count : length ws = i;
  serving_each h : h ∈ ws → serves role h w
}.

Lemma lasts_object_witnesses role initial supports n w :
  supports ≠ [] → active_handle (nodes (state (xw_kernel w))) root → (∀ pid, role = Some pid → plain pid w) → plain filler w →
  lasts (foldST (Expansion.object_witness p root role initial supports) (seq 0 n) []) w (serving role n).
Proof.
  intros Hne Hroot Hrole Hfill. eapply lasts_impl; [apply (lasts_foldST _ (serving role))|].
  - split; [constructor|done|]. intros h Hh. by apply not_elem_of_nil in Hh.
  - intros i ws x w1 _ S1 [Hd Hl He]. eapply lasts_impl; [apply lasts_object_witness; [done|by eapply stays_active| |by eapply plain_stays]|].
    + intros pid E. by eapply plain_stays, Hrole.
    + intros ? w2 _ S2 (h & -> & Hnew & Hs). split.
      * apply NoDup_app. split_and!; [done| |apply NoDup_singleton]. intros g Hg ->%list_elem_of_singleton. destruct (He h Hg) as ((n' & Hn' & _) & _). by destruct (Hnew n').
      * rewrite length_app, Hl. cbn. lia.
      * intros g [Hg| ->%list_elem_of_singleton]%elem_of_app; [|done]. by eapply serves_stays, He.
  - intros ws w' _ _. by rewrite length_seq.
Qed.

(** ** Unequal witnesses *)

Lemma holds_asserted pid args w : holds pid args (xw_kernel w) → asserted w pid args.
Proof. intros (i & row & Ha & Hk). exists i, row. rewrite Hk. by split_and!. Qed.

Lemma stays_asserted w w' pid args : stays w w' → asserted w pid args → asserted w' pid args.
Proof.
  intros [[Hr _] _ _] (i & row & [Hi Ha] & Hp & Hpre). destruct (Hr i row Hi) as (row' & Hi' & Ha' & Hk). exists i, row'. rewrite Hk. split_and!; [split; [done|congruence]|done|done].
Qed.

Lemma stays_pair w w' l g : stays w w' → active_handle (nodes (state (xw_kernel w))) l → active_handle (nodes (state (xw_kernel w))) g →
  Expansion.ordered_pair l g w' = Expansion.ordered_pair l g w.
Proof.
  intros [Hp _ _] (n & Hn & Ha) (n' & Hn' & Ha'). destruct (persists_stored _ _ _ _ Hp Hn) as (n1 & Hn1 & [_ Ec _ _ El _]), (persists_stored _ _ _ _ Hp Hn') as (n1' & Hn1' & [_ Ec' _ _ El' _]).
  unfold Expansion.ordered_pair. cbn. rewrite (read_record w l n Hn Ha), (read_record w g n' Hn' Ha'), (read_record w' l n1 Hn1), (read_record w' g n1' Hn1') by congruence.
  cbn. by rewrite Ec, Ec'.
Qed.

Lemma unequal_stays w w' l g : stays w w' → active_handle (nodes (state (xw_kernel w))) l → active_handle (nodes (state (xw_kernel w))) g →
  unequal w m l g → unequal w' m l g.
Proof.
  intros S Hl Hg (pid & e & Hp & He & Ha). exists pid, e. split_and!; [done|by rewrite (stays_pair _ _ _ _ S Hl Hg)|by eapply stays_asserted].
Qed.

Lemma index_pairs_spec (ws : list NodeHandle) l g :
  l ∈ ws → g ∈ ws → l ≠ g → (l, g) ∈ Expansion.index_pairs ws ∨ (g, l) ∈ Expansion.index_pairs ws.
Proof.
  induction ws as [|h ws IH]; [by intros ?%not_elem_of_nil|]. cbn [Expansion.index_pairs]. rewrite !elem_of_app, !list_elem_of_fmap.
  intros [->|Hl]%elem_of_cons [->|Hg]%elem_of_cons Hne; [done|left; left; by exists g|right; left; by exists l|].
  destruct (IH Hl Hg Hne); [left|right]; by right.
Qed.

Lemma index_pairs_in (ws : list NodeHandle) e : e ∈ Expansion.index_pairs ws → e.1 ∈ ws ∧ e.2 ∈ ws.
Proof.
  induction ws as [|h ws IH]; [by intros ?%not_elem_of_nil|]. cbn [Expansion.index_pairs]. intros [(g & -> & Hg)%list_elem_of_fmap|He]%elem_of_app; [set_solver|].
  destruct (IH He). set_solver.
Qed.

Abbreviation roles := (Expansion.xp_roles (Expansion.xm_program m)).

(** The inequality of objects is one of the rules. *)
Definition inequality_known w : Prop := ∀ pid, Expansion.inequality_predicate roles Object = Some pid →
  ∃ q, Rule.predicate pid (re_program (xw_engine w)) = Ok q ∧ rp_kind q = Inequality.

Lemma lasts_inequalities ws supports w :
  supports ≠ [] → inequality_known w → (∀ h, h ∈ ws → active_handle (nodes (state (xw_kernel w))) h) →
  lasts (Expansion.add_pairwise_inequalities m ws Object supports) w (λ _ w', ∀ l g, l ∈ ws → g ∈ ws → l ≠ g → unequal w' m l g).
Proof.
  intros Hne Hin Hact. unfold Expansion.add_pairwise_inequalities. destruct (Nat.ltb_spec (length ws) 2) as [Hlen|Hlen].
  { apply lasts_ret. intros l g Hl Hg Hne'. destruct ws as [|h [|h' ws]]; [by apply not_elem_of_nil in Hl|set_solver|cbn in Hlen; lia]. }
  eapply lasts_bind; [apply lasts_lift, ok_or_not_crash|]. intros pid w1 _ _ [-> Hpid%ok_or_Ok].
  destruct (Hin pid Hpid) as (q & Hq & Hk).
  eapply lasts_impl; [apply (lasts_forM _ _ _ (λ e w', unequal w' m e.1 e.2 ∧ active_handle (nodes (state (xw_kernel w'))) e.1 ∧ active_handle (nodes (state (xw_kernel w'))) e.2))|].
  - intros e w2 w3 S (Hu & H1 & H2). split_and!; [by eapply unequal_stays|by eapply stays_active|by eapply stays_active].
  - intros e w2 [H1 H2]%index_pairs_in S2. assert (active_handle (nodes (state (xw_kernel w2))) e.1) as A1 by (eapply stays_active; [exact S2|by apply Hact]).
    assert (active_handle (nodes (state (xw_kernel w2))) e.2) as A2 by (eapply stays_active; [exact S2|by apply Hact]).
    eapply lasts_bind; [apply lasts_reads, ordered_pair_reads|]. intros o w3 L3 _ [-> Ho]. destruct (ordered_pair_spec w2 _ _ o L3 A1 A2 Ho) as [Hio Hor].
    eapply lasts_impl; [apply (lasts_forM _ _ _ (λ _ w', holds pid [o.1; o.2] (xw_kernel w')))|].
    + intros _ w4 w5 S. apply persists_holds, S.
    + intros support w4 _ S4. apply lasts_dispatching. eapply proper_stays; [exact S4|]. split.
      * exists q. destruct S2 as [_ E2 _]. split_and!; [congruence|by rewrite Hk|]. intros _ l r rest [= <- <- _]. exact Hio.
      * intros h [->|[->|Hh%not_elem_of_nil]%elem_of_cons]%elem_of_cons; [by destruct Hor as [-> | ->]|by destruct Hor as [-> | ->]|done].
    + intros u w4 _ S4 Hall. cbn beta in Hall. destruct supports as [|d supports]; [done|]. split_and!; [|by eapply stays_active|by eapply stays_active].
      exists pid, o. split_and!; [done|by rewrite (stays_pair _ _ _ _ S4 A1 A2)|]. apply holds_asserted, (Hall d), list_elem_of_here.
  - intros u w2 _ S2 Hall l g Hl Hg Hneq. cbn beta in Hall. destruct (index_pairs_spec ws l g Hl Hg Hneq) as [He|He]; [by apply (Hall (l, g))|].
    destruct (Hall (g, l) He) as (Hu & A1 & A2). by apply (unequal_sym w2 m g l).
Qed.

(** ** Expanding an object obligation *)

Lemma successor_stays role h w w' : stays w w' → successor w m p root role h → successor w' m p root role h.
Proof.
  intros S (Hl & Hf & n & Hn & Ha & Hk & Hb). destruct (persists_stored _ _ _ _ (stays_kernel _ _ S) Hn) as (n' & Hn' & [_ _ Ek Ep El Eb]).
  split_and!; [|by eapply stays_asserted|].
  - destruct Hl as [?|(Hne & pid & i & row & Hp & [Hi Hact] & Hkey)]; [by left|right]. split; [done|].
    destruct (persists_rows _ _ (stays_kernel _ _ S) i row Hi) as (row' & Hi' & Ha' & Hk'). exists pid, i, row'. split_and!; [done|split; [done|congruence]|congruence].
  - exists n'. split_and!; [done|congruence|congruence|]. destruct Hb as [Hb|Hb]; [left|right; congruence].
    unfold blocked in *. by rewrite Eb, (stays_blocking _ _ S).
Qed.

Lemma at_least_stays role n w w' : stays w w' → at_least m p root role n w → at_least m p root role n w'.
Proof.
  intros S (X & Hs & HX & Hu). exists X. split_and!; [done|intros h Hh; by eapply successor_stays, HX|].
  intros h g Hh Hg Hne. eapply unequal_stays; [exact S| | |by apply Hu]; by eapply successor_active, HX.
Qed.

Lemma serving_at_least role n ws w :
  role ≠ Expansion.rv_bottom_object_role_id roles →
  serving (if (role =? Expansion.rv_top_object_role_id roles)%N then None else Expansion.role_predicate roles Object role) n ws w →
  (role ≠ Expansion.rv_top_object_role_id roles → is_Some (Expansion.role_predicate roles Object role)) →
  (∀ l g, l ∈ ws → g ∈ ws → l ≠ g → unequal w m l g) → at_least m p root role n w.
Proof.
  intros Hbot [Hd Hl He] Hr Hu. exists (list_to_set ws). split_and!.
  - by rewrite size_list_to_set.
  - intros h Hh%elem_of_list_to_set. destruct (He h Hh) as ((n' & Hn & Hk & Ha & Hp) & Hrole & Hf). split_and!; [|by apply holds_asserted|].
    + destruct (N.eqb_spec role (Expansion.rv_top_object_role_id roles)) as [Ht|Ht]; [by left|right]. split; [done|].
      destruct (Hr Ht) as [pid Epid]. destruct (Hrole pid Epid) as (i & row & Hrow & Hkey). by exists pid, i, row.
    + exists n'. split_and!; [done|done|by rewrite Hk|by right].
  - intros l g Hl'%elem_of_list_to_set Hg%elem_of_list_to_set. by apply Hu.
Qed.

(** The predicates that an expansion of the obligation dispatches. *)
Record dispatches (role : N) w : Prop := {
  dispatches_role pid : Expansion.role_predicate roles Object role = Some pid → plain pid w;
  dispatches_filler : plain filler w;
  dispatches_inequality : inequality_known w
}.

Lemma dispatches_stays role w w' : stays w w' → dispatches role w → dispatches role w'.
Proof.
  intros S [Hr Hf Hi]. split; [intros pid E; by eapply plain_stays, Hr|by eapply plain_stays|]. intros pid E. destruct (Hi pid E) as (q & Hq & Hk).
  exists q. split; [|done]. rewrite (stays_program _ _ S). exact Hq.
Qed.

Lemma lasts_expand_object role supports w :
  Expansion.al_role_ids p = [role] → role ≠ Expansion.rv_bottom_object_role_id roles → supports ≠ [] →
  active_handle (nodes (state (xw_kernel w))) root → dispatches role w →
  lasts (Expansion.expand_object m p root supports) w (λ ws w', length ws = N.to_nat (Expansion.al_cardinality p) ∧ (∀ h, h ∈ ws → child root h w') ∧
    at_least m p root role (N.to_nat (Expansion.al_cardinality p)) w').
Proof.
  intros Hids Hbot Hne Hroot [Hrole Hfill Hineq]. unfold Expansion.expand_object, Expansion.only_role. rewrite Hids.
  eapply lasts_bind; [apply lasts_lift; done|]. intros ? w1 _ _ [-> [= <-]].
  eapply lasts_bind; [apply lasts_lift; destruct (_ =? _)%N; [done|]; by destruct (Expansion.role_predicate roles Object role)|]. intros rp w1 _ _ [-> Hrp].
  assert (rp = (if (role =? Expansion.rv_top_object_role_id roles)%N then None else Expansion.role_predicate roles Object role) ∧
    (role ≠ Expansion.rv_top_object_role_id roles → is_Some (Expansion.role_predicate roles Object role))) as [-> Hsome].
  { destruct (N.eqb_spec role (Expansion.rv_top_object_role_id roles)); [by injection Hrp as <-|]. destruct (Expansion.role_predicate roles Object role) as [pid|]; [|done].
    cbn in Hrp. injection Hrp as <-. by split. }
  eapply lasts_bind; [apply lasts_lift; unfold Expansion.minimal_support; apply ok_or_not_crash|]. intros initial w1 _ _ [-> _].
  eapply lasts_bind; [apply lasts_object_witnesses; [done|done| |done]|].
  { intros pid E. apply Hrole. by destruct (_ =? _)%N. }
  intros ws w1 _ S1 Hws. cbn beta in Hws. eapply lasts_bind; [apply lasts_inequalities; [done| |]|].
  - apply (dispatches_stays role w); [done|by split].
  - intros h Hh. by eapply child_active, (serving_each _ _ _ _ Hws).
  - intros u w2 _ S2 Hu. cbn beta in Hu. apply lasts_ret.
    assert (serving (if (role =? Expansion.rv_top_object_role_id roles)%N then None else Expansion.role_predicate roles Object role) (N.to_nat (Expansion.al_cardinality p)) ws w2) as Hws2.
    { destruct Hws as [Hd Hl He]. split; [done|done|]. intros h Hh. by eapply serves_stays, He. }
    split_and!; [apply (serving_count _ _ _ _ Hws2)|intros h Hh; apply (serving_each _ _ _ _ Hws2 h Hh)|]. by eapply serving_at_least.
Qed.
End object.

(** ** Discharging an obligation *)

(** The obligation is not pending at the node. *)
Definition settled (h : NodeHandle) (id : N) w : Prop :=
  ∃ n, stored (nodes (state (xw_kernel w))) h n ∧ id ∉ n_unprocessed_existentials n.


Lemma settled_looked h id w w' : looked w w' → settled h id w → settled h id w'.
Proof. by intros [c ->]. Qed.

Lemma lasts_settle h id w : lasts (Expansion.mark_node_processed h id) w (λ _ w', settled h id w').
Proof.
  apply lasts_of; [apply fine_mark|]. intros u w' _ _ E. pose proof (persists_mark h id false (xw_kernel w)) as Hp.
  cbn in E. unfold Runtime.kernel in E. destruct (mark_existential h id false (xw_kernel w)) as [[y|e|] k'] eqn:Em; cbn in *; simplify_eq.
  split; [done|]. by apply mark_settles in Em.
Qed.

Lemma lasts_requeue h id g p w : settled h id w → lasts (Expansion.enqueue_candidate g p) w (λ _ w', settled h id w').
Proof.
  intros (n & Hn & Hid). apply lasts_of; [apply fine_enqueue|]. intros u w' _ _ E. cbn in E. unfold Runtime.kernel in E.
  match type of E with context [enqueue_node ?q ?v ?l _] => pose proof (persists_enqueue_node q v l (xw_kernel w)) as Hp; pose proof (enqueue_nodes q v l (xw_kernel w)) as Hk;
    destruct (enqueue_node q v l (xw_kernel w)) as [[y|e|] k'] eqn:Em; cbn in *; simplify_eq end.
  split; [done|]. exists n. cbn. by rewrite Hk.
Qed.

Lemma lasts_processed h id w : lasts (Expansion.mark_processed h id) w (λ _ w', settled h id w').
Proof.
  unfold Expansion.mark_processed. eapply lasts_bind; [apply lasts_settle|]. intros u w1 _ _ H1. cbn beta in H1.
  eapply lasts_bind; [apply lasts_poll|]. intros u2 w2 _ _ H2. apply (settled_looked _ _ _ _ H2) in H1.
  eapply lasts_bind; [apply lasts_reads, node_record_reads|]. intros record w3 _ _ [-> _].
  eapply lasts_bind; [apply lasts_lift, ok_or_not_crash|]. intros n w4 _ _ [-> _].
  case_bool_decide; [by apply lasts_ret|]. eapply lasts_bind; [exact (lasts_requeue h id _ _ _ H1)|]. intros u5 w5 _ _ H5. cbn beta in H5.
  eapply lasts_impl; [apply lasts_poll|]. intros u6 w6 _ _ H6. exact (settled_looked _ _ _ _ H6 H5).
Qed.

Lemma lasts_scan count deferred w : lasts (Expansion.scan_candidates count deferred) w any.
Proof.
  revert deferred w. induction count as [|count IH]; intros deferred w; cbn [Expansion.scan_candidates]; [by apply lasts_ret|].
  eapply lasts_bind; [apply lasts_pop|]. intros [h|] w1 _ _ _; [|by apply lasts_ret].
  eapply lasts_bind; [apply lasts_reads, node_record_reads|]. intros [record|] w2 _ _ [-> _]; [|apply IH]. case_bool_decide; [apply IH|].
  eapply lasts_bind; [apply lasts_reads, is_blocked_reads|]. intros [] w2 _ _ [-> _]; [apply IH|by apply lasts_ret].
Qed.

Lemma lasts_take w : lasts (Expansion.take_unblocked_candidate (A := NodeHandle)) w any.
Proof.
  unfold Expansion.take_unblocked_candidate. eapply lasts_bind; [by apply lasts_reads|]. intros count w1 _ _ _.
  eapply lasts_bind; [apply lasts_scan|]. intros scanned w2 _ _ _. eapply lasts_bind; [|intros; by apply lasts_ret].
  eapply lasts_impl; [apply (lasts_forM _ _ _ (λ _ _, True)); [done|]|done]. intros e w3 _ _. apply lasts_enqueue.
Qed.

(** ** Processing *)

Section process.
Context (m : Expansion.ExistentialExpansionManager).

(** The manager was compiled from the rules of the engine. *)
Definition compiled w : Prop := ∃ special reusable,
  Runtime.expansion_program_from_rules (re_program (xw_engine w)) special reusable = Ok (Expansion.xm_program m).

Lemma compiled_stays w w' : stays w w' → compiled w → compiled w'.
Proof. intros [_ E _] (special & reusable & Hc). exists special, reusable. by rewrite E. Qed.

Lemma compiled_dispatches w id p :
  lively w → compiled w → Expansion.xp_obligations (Expansion.xm_program m) !! id = Some p → Expansion.al_kind p = Expansion.ObjectObligation →
  ∃ role, Expansion.al_role_ids p = [role] ∧ dispatches m p role w.
Proof.
  intros Hw (special & reusable & (c & [Cr Ci Co] & Er & Ei & Eo)%compiled_collects) Hp Hk. apply live_program in Hw as Hprog. cbn in Hprog.
  destruct (Co p (Eo _ _ Hp) Hk) as [[role Hrole] (q & Hq & Hqk & Hqf)]. exists role. split; [done|]. split.
  - intros pid Hpid. cbn in Hpid. rewrite Er in Hpid. destruct (Cr _ _ Hpid) as (q' & Hq' & <- & Hk'). exists q'. rewrite Hk'. split_and!; [by apply listed_predicate|done|done].
  - apply list_elem_of_lookup in Hq as [i Hi]. destruct (predicate_cardinality _ _ (program_predicates _ Hprog _ _ Hi)) as (n & r & f & fq & _ & _ & _ & Hf & _ & Hl & Hv).
    { by rewrite Hqk. }
    rewrite Hqf in Hf. injection Hf as <-. exists fq. split; [by apply predicate_Ok|]. unfold Rule.valid_filler in Hv. rewrite Hqk in Hv.
    apply andb_true_iff in Hv as [_ Hv]. by destruct (rp_kind fq).
  - intros pid Hpid. cbn in Hpid. rewrite Ei in Hpid. destruct (Ci _ Hpid) as (q' & Hq' & <- & Hk'). exists q'. split; [by apply listed_predicate|done].
Qed.

(** What the expansion of an obligation for objects leaves. *)
Record provided (p : Expansion.AtLeastPredicate) (root : NodeHandle) (id : N) (witnesses : list NodeHandle) w w' : Prop := {
  provided_stays : stays w w';
  provided_settled : settled root id w';
  provided_count : N.of_nat (length witnesses) = Expansion.al_cardinality p;
  provided_children h : h ∈ witnesses → child root h w';
  provided_role : ∃ role, Expansion.al_role_ids p = [role] ∧ at_least m p root role (N.to_nat (Expansion.al_cardinality p)) w'
}.

(** The answer to an obligation. *)
Definition answers_obligation (root : NodeHandle) (id : N) p (r : Expansion.ExpansionResult NodeHandle) w w' : Prop :=
  Expansion.xr_status r = Expansion.Expanded →
  Expansion.xr_root r = Some root ∧ Expansion.xr_existential_id r = Some id ∧
  (Expansion.al_kind p = Expansion.ObjectObligation → provided p root id (Expansion.xr_witnesses r) w w').

Lemma fine_satisfied p root w :
  fine (Expansion.is_satisfied m p root) w (λ _ w', Expansion.al_kind p = Expansion.ObjectObligation → stays w w').
Proof.
  destruct (Expansion.al_kind p) eqn:Hk; [|by eapply fine_impl; [apply fine_is_satisfied|]]. unfold Expansion.is_satisfied. rewrite Hk.
  destruct (_ =? _)%N; [by apply fine_ret|]. eapply fine_bind; [apply (fine_reads _ _ (λ _ w', w' = w)); [intros _; by apply object_satisfiers_reads|done]|]. intros cs w1 _ ->.
  eapply fine_bind; [by apply fine_search|]. intros r ? _ [c ->]. by apply fine_ret.
Qed.

Lemma fine_not_expanded root id p status (k : M unit) w w0 :
  status ≠ Expansion.Expanded → fine k w any →
  fine (_ ← k; mret (Expansion.for_obligation status root id [])) w (λ r w', answers_obligation root id p r w0 w').
Proof. intros Hs Hk. eapply fine_bind; [exact Hk|]. intros _ w1 _ _. by apply fine_ret. Qed.

Lemma fine_obligation root id p w :
  Expansion.xm_strategy m = Expansion.CreationOrder → compiled w → Expansion.xp_obligations (Expansion.xm_program m) !! id = Some p →
  active_handle (nodes (state (xw_kernel w))) root →
  fine (Expansion.process_obligation m root id p) w (λ r w', answers_obligation root id p r w w').
Proof.
  intros Hstrat Hc Hp Hroot. unfold Expansion.process_obligation.
  eapply (fine_bind _ _ _ (λ _ w', w' = w)); [apply fine_reads; [|done]; intros _; apply obligation_supports_reads|]. intros supports w1 _ ->.
  case_bool_decide as Hne; [by apply fine_not_expanded, fine_processed|].
  eapply fine_bind; [apply fine_satisfied|]. intros [] w1 L1 S1; cbn beta in S1; [by apply fine_not_expanded, fine_processed|].
  eapply (fine_bind _ _ _ (λ _ w', w' = w1)); [apply fine_lift; [apply witness_limit_returns|done]|]. intros [] w2 _ ->.
  destruct (Expansion.uses_bottom_role m p) eqn:Hbot.
  { eapply fine_bind; [apply fine_lift_any, minimal_support_returns|]. intros d w2 _ _. eapply fine_bind; [apply fine_install|]. intros _ w3 _ _.
    by apply fine_not_expanded, fine_poll_any. }
  eapply (fine_bind _ _ _ (λ b w', b = false ∧ w' = w1)).
  { unfold Expansion.can_reuse. rewrite Hstrat. apply fine_reads; [done|]. by intros b [= <-]. }
  intros ? w2 _ [-> ->].
  eapply (fine_bind _ _ _ (λ ws w', Expansion.al_kind p = Expansion.ObjectObligation → stays w w' ∧ length ws = N.to_nat (Expansion.al_cardinality p) ∧
    (∀ h, h ∈ ws → child root h w') ∧ ∃ role, Expansion.al_role_ids p = [role] ∧ at_least m p root role (N.to_nat (Expansion.al_cardinality p)) w')).
  - unfold Expansion.expand. destruct (Expansion.al_kind p) eqn:Hk; [|by eapply fine_impl; [apply fine_expand_data|]]. specialize (S1 eq_refl).
    destruct (compiled_dispatches w1 id p) as (role & Hrole & Hd); [done|by eapply compiled_stays|done|done|].
    eapply fine_impl; [apply (lasts_expand_object m p root role); [done| |done|by eapply stays_active|done]|].
    + intros ->. unfold Expansion.uses_bottom_role in Hbot. rewrite Hk, Hrole in Hbot. by apply bool_decide_eq_false in Hbot.
    + intros ws w2 _ (S2 & Hl & Hch & Hat) _. split_and!; [by etrans|done|done|by exists role].
  - intros ws w2 _ Hws. cbn beta in Hws. eapply fine_bind; [apply lasts_processed|]. intros u w3 _ [S3 Hs]. apply fine_ret. intros _. split_and!; [done|done|].
    intros Hk. destruct (Hws Hk) as (S2 & Hl & Hch & role & Hrole & Hat). split; cbn.
    + by etrans.
    + done.
    + rewrite Hl. lia.
    + intros h Hh. by eapply child_stays, Hch.
    + exists role. split; [done|]. by eapply at_least_stays.
Qed.

(** The answer of one turn. *)
Definition turn (r : Expansion.ExpansionResult NodeHandle) w w' : Prop :=
  Expansion.xr_status r = Expansion.Expanded →
  ∃ root id p, Expansion.xr_root r = Some root ∧ Expansion.xr_existential_id r = Some id ∧ Expansion.xp_obligations (Expansion.xm_program m) !! id = Some p ∧
    (Expansion.al_kind p = Expansion.ObjectObligation → provided p root id (Expansion.xr_witnesses r) w w').

Lemma read_active w h r : Runtime.runtime_node_record h w = Ok (Some r) → active_handle (nodes (state (xw_kernel w))) h.
Proof.
  unfold Runtime.runtime_node_record, Kernel.node. destruct (require_node h (xw_kernel w)) as [n|e|] eqn:E; cbn; [|done|done].
  apply require_node_Ok in E. case_bool_decide; [|done]. intros _. by exists n.
Qed.

Lemma fine_turn w : Expansion.xm_strategy m = Expansion.CreationOrder → compiled w → fine (Expansion.process_next_inner m) w (λ r w', turn r w w').
Proof.
  intros Hstrat Hc. unfold Expansion.process_next_inner. eapply fine_bind; [apply lasts_poll|]. intros _ w1 _ [S1 _].
  eapply fine_bind; [apply lasts_take|]. intros [root|] w2 _ [S2 _].
  - eapply (fine_bind _ _ _ (λ r w', w' = w2 ∧ Runtime.runtime_node_record root w2 = Ok r)); [apply fine_reads; [intros _; apply node_record_reads|done]|]. intros record w3 _ [-> Hr].
    eapply (fine_bind _ _ _ (λ n w', w' = w2 ∧ record = Some n)); [apply fine_lift; [apply ok_or_not_crash|by intros n ->%ok_or_Ok]|]. intros n w3 _ [-> ->].
    eapply (fine_bind _ _ _ (λ _ w', w' = w2)); [apply fine_lift; [apply ok_or_not_crash|done]|]. intros id w3 _ ->.
    eapply (fine_bind _ _ _ (λ p w', w' = w2 ∧ Expansion.xp_obligations (Expansion.xm_program m) !! id = Some p)); [apply fine_lift; [apply ok_or_not_crash|by intros p ?%ok_or_Ok]|].
    intros p w3 _ [-> Hp]. assert (stays w w2) as S by (by etrans).
    eapply fine_impl; [apply (fine_obligation root id p w2 Hstrat); [by eapply compiled_stays|done|by eapply read_active]|].
    intros r w3 _ Ha He. destruct (Ha He) as (Eroot & Eid & Hprov). exists root, id, p. split_and!; [done|done|done|]. intros Hk. destruct (Hprov Hk).
    split; [by etrans|done|done|done|done].
  - eapply fine_bind; [by apply fine_reads_any|]. intros n w3 _ _. apply fine_ret. unfold turn. cbn. by destruct (_ =? _)%nat.
Qed.

Lemma process_next_turn w : Expansion.xm_strategy m = Expansion.CreationOrder → compiled w → lively w →
  undoes (Expansion.process_next_inner m) w (Expansion.process_next m w) (λ r w', turn r w w').
Proof. intros Hs Hc Hw. by apply rolled_back_spec, fine_turn. Qed.
End process.
End steps.
