(* ===== verification/ExpansionTheorems.v ===== *)
(** * Existential expansion: the theorems

    The search for pairwise different successors, when an obligation is satisfied,
    what its expansion leaves, and what is left when processing fails. *)

From S2P Require Import Prelude Order Errors Contracts Model Queue Store Kernel KernelBase Arena Facts FactOps StateInv NodeOps KernelInv Totality StoreTheorems.
From S2P Require Import Cancel Branching RuleModel Merging RulePlans Joins RuleEngine RuleSpec EngineBase EngineSafe EngineDispatch EngineRun RuleTheorems.
From S2P Require Import BlockingModel Projection BlockingChecker BlockingManager Expansion ExpansionAdapter ExpansionSpec ExpansionRun ExpansionWitness.

(** ** The search *)

(** C27: whatever the comparison of candidates, as long as it answers in the states
    that the control leads to, the search for [n] pairwise different candidates ends:
    with the lexicographically first choice of [n] indices whose candidates are
    pairwise different, or with the answer that there is none, within the limit of
    steps; or it was stopped by the control or by that limit. *)
Theorem distinct_search_exact {W T} `{Expansion.ExpansionControl W} (candidates : list T) n limits known_different differ (I : W → Prop) F w :
  control_keeps I F → compares candidates known_different differ I F → I w →
  match Expansion.pairwise_distinct_subset candidates n limits known_different w with
  | (Ok r, w') => I w' ∧ answered candidates n differ r ∧ (Expansion.ds_steps r <= Expansion.max_distinct_search_steps limits)%N
  | (Err e, w') => I w' ∧ cut_short limits F e
  | (Crash, _) => False
  end.
Proof. intros Hc Hd Hw. apply (pairwise_distinct_subset_meets candidates n limits known_different differ I F Hc Hd w Hw). Qed.

(** A control that never stops anything. *)
Definition endless : Expansion.ExpansionControl unit := {| Expansion.exp_poll := mret tt; Expansion.exp_add_work _ := mret tt |}.

(** Neighbours in the cycle of five are not known to be different. *)
Definition in_cycle (i j : nat) : bool := negb ((S i mod 5 =? j)%nat || (S j mod 5 =? i)%nat || (i =? j)%nat).

Lemma distinct_search_exact_witness :
  Expansion.pairwise_distinct_subset (H := endless) [0; 1; 2; 3; 4]%nat 2 Expansion.default_expansion_limits (λ i j _, Ok (in_cycle i j)) tt =
    (Ok (Expansion.mkDistinct true 3 [0; 2]%nat), tt) ∧
  match Expansion.pairwise_distinct_subset (H := endless) [0; 1; 2; 3; 4]%nat 3 Expansion.default_expansion_limits (λ i j _, Ok (in_cycle i j)) tt with
  | (Ok r, _) => True ∧ answered [0; 1; 2; 3; 4]%nat 3 in_cycle r ∧
      (Expansion.ds_steps r <= Expansion.max_distinct_search_steps Expansion.default_expansion_limits)%N
  | (Err e, _) => True ∧ cut_short Expansion.default_expansion_limits (λ _, False) e
  | (Crash, _) => False
  end.
Proof.
  split; [vm_compute; reflexivity|].
  apply (distinct_search_exact (H := endless) [0; 1; 2; 3; 4]%nat 3 Expansion.default_expansion_limits (λ i j _, Ok (in_cycle i j)) in_cycle (λ _, True) (λ _, False) tt);
    [intros w _; split; [exact I|intros amount; exact I]|intros x y w _ _ _; reflexivity|exact I].
Defined.

(** ** Satisfaction *)

(** C26: an obligation for [n] successors of an object role is satisfied in a tableau
    exactly when [n] objects count as successors and are asserted to be pairwise
    unequal; to find out uses nothing but the control, and fails only when the control
    or the limit of the search says so. *)
Theorem satisfaction_exact {D C} `{OperationControl C} `{!NativeDatatypeExpansion D C} (w : ExpansionWorld D C) m p root role :
  calm_control (C := C) → wf (xw_kernel w) →
  Expansion.al_kind p = Expansion.ObjectObligation → Expansion.al_role_ids p = [role] → role_rows w m role →
  active_handle (nodes (state (xw_kernel w))) root →
  Expansion.special_role (Expansion.xp_roles (Expansion.xm_program m)) Object role = true ∨
    is_Some (Expansion.role_predicate (Expansion.xp_roles (Expansion.xm_program m)) Object role) →
  Expansion.validate_roles (Expansion.xp_roles (Expansion.xm_program m)) = Ok tt →
  match Expansion.is_satisfied m p root w with
  | (Ok b, w') => looked w w' ∧ (b = true ↔ at_least m p root role (N.to_nat (Expansion.al_cardinality p)) w)
  | (Err e, w') => looked w w' ∧ cut_short (Expansion.xm_limits m) (stopped_by_control (C := C)) e
  | (Crash, _) => False
  end.
Proof.
  intros Hc Hk Hkind Hids Hrows Hroot Hrole Hv.
  apply (is_satisfied_meets w m p root role Hc (wf_state _ Hk) Hkind Hids Hrows Hroot Hrole).
  unfold Expansion.validate_roles in Hv. intros E. rewrite E, N.eqb_refl in Hv. done.
Qed.

(** A root with two successors [c1] and [c2] of role 10 (predicate 5), both instances of
    concept 6; [c1] is asserted to be different (predicate 1) from [c2]. *)
Definition served_ops : list operation :=
  [ OpCreateNode Root None false None None None;
    OpCreateNode Root None false None None None;
    OpCreateNode Tree (Some s0) false None None None;
    OpCreateNode Tree (Some s0) false None None None;
    OpAddFact 5 [s0; c1] Dep.empty false None;
    OpAddFact 5 [s0; c2] Dep.empty false None;
    OpAddFact 6 [c1] Dep.empty false None;
    OpAddFact 6 [c2] Dep.empty false None;
    OpAddFact 1 [c1; c2] Dep.empty false None ].

Definition served : TableauKernel := (perform_all served_ops TableauKernel_new).2.

Lemma served_wf : wf served.
Proof.
  apply reachable_wf. eapply (perform_all_reachable served_ops _ [s0; t0; c1; c2]); [apply reachable_new|reflexivity|]. vm_compute. reflexivity.
Qed.

Definition served_roles : Expansion.RoleVocabulary := Expansion.mkRoleVocabulary {[10 := 5]} ∅ 98 99 198 199 (Some 1) None.

(** At least [n] successors of role 10 in concept 6. *)
Definition wanted (n : N) : Expansion.AtLeastPredicate := Expansion.object 3 n 10 6.

Definition served_manager : Expansion.ExistentialExpansionManager :=
  Expansion.mkExpansionManager (Expansion.mkProgram {[3 := wanted 2]} served_roles) Expansion.CreationOrder Expansion.default_expansion_limits.

(** An engine without rules; satisfaction does not look at it. *)
Definition idle_engine : option RuleEngine := match (Engine.new (mkRuleProgram [] []) ∅ ∅ true 0).1 with Ok e => Some e | _ => None end.

Definition served_world (e : RuleEngine) : ExpansionWorld unit unit := mkExpansionWorld served None e tt tt.

Definition served_node (n : nat) : Node := default (created_node c2 0 Root None 0 0 false None None None) (nodes (state served) !! n ≫= id).

Lemma served_active : active_handle (nodes (state served)) s0.
Proof. exists (served_node 0). vm_compute. done. Qed.

Lemma served_rows e : role_rows (served_world e) served_manager 10.
Proof.
  intros pid i row [= <-] Hrow Hpid. destruct Hrow as [Hrow _].
  change (facts (state (xw_kernel (served_world e)))) with (facts (state served)) in Hrow.
  assert (i = 0%nat ∨ i = 1%nat) as [-> | ->].
  { destruct i as [|[|[|[|[|i]]]]]; [by left|by right|..]; exfalso; vm_compute in Hrow; [..|discriminate];
      injection Hrow as <-; discriminate. }
  - exists s0, c1, (served_node 2). vm_compute in Hrow. injection Hrow as <-. vm_compute. done.
  - exists s0, c2, (served_node 3). vm_compute in Hrow. injection Hrow as <-. vm_compute. done.
Qed.

Lemma satisfaction_exact_witness :
  match idle_engine with
  | Some re =>
      (Expansion.is_satisfied (A:=NodeHandle) served_manager (wanted 2) s0 (served_world re)).1 = Ok true ∧
      match Expansion.is_satisfied served_manager (wanted 3) s0 (served_world re) with
      | (Ok b, w') => looked (served_world re) w' ∧ (b = true ↔ at_least served_manager (wanted 3) s0 10 3 (served_world re))
      | (Err e, w') => looked (served_world re) w' ∧ cut_short Expansion.default_expansion_limits (stopped_by_control (C := unit)) e
      | (Crash, _) => False
      end
  | None => False
  end.
Proof.
  destruct idle_engine as [e|] eqn:E; [|vm_compute in E; discriminate]. split; [vm_compute; reflexivity|].
  apply (satisfaction_exact (served_world e) served_manager (wanted 3) s0 10); [|apply served_wf|reflexivity|reflexivity|apply served_rows|apply served_active| |reflexivity].
  - intros c. discriminate.
  - right. eexists. reflexivity.
Defined.

(** ** A program with an obligation *)

(** Concept 0, the inequality 1, role 10 (predicate 2) and at least two successors of
    role 10 in concept 0 (predicate 3). *)
Definition demand_predicates : list RulePredicate :=
  [ Rule.with_symbol_id (plain_predicate 0 Concept [TObject]) 0;
    plain_predicate 1 Inequality [TObject; TObject];
    Rule.with_role_id (plain_predicate 2 ObjectRole [TObject; TObject]) 10;
    Rule.with_cardinality (plain_predicate 3 AtLeastObject [TObject]) 2 10 0 ].

Definition demand_program : RuleProgram := mkRuleProgram demand_predicates [].

Lemma demand_program_ok : program_ok demand_program.
Proof.
  assert (Rule.new_program demand_predicates [] = Ok demand_program) as E by (vm_compute; reflexivity). apply (new_program_ok _ _ _ E).
Qed.

Definition demand_engine : RuleEngine := match (Engine.new demand_program ∅ ∅ true 1).1 with Ok e => e | _ => sample_engine end.

Lemma demand_engine_new : Engine.new demand_program ∅ ∅ true 1 = (Ok demand_engine, 2).
Proof. vm_compute. reflexivity. Qed.

Definition lone : TableauKernel := (perform_all [OpCreateNode Root None false None None None] TableauKernel_new).2.

Lemma lone_wf : wf lone.
Proof.
  apply reachable_wf. eapply (perform_all_reachable [OpCreateNode Root None false None None None] _ [s0]); [apply reachable_new|reflexivity|]. vm_compute. reflexivity.
Qed.

Definition lone_world : ExpansionWorld unit unit := mkExpansionWorld lone None demand_engine tt tt.

Lemma lone_lively : lively lone_world.
Proof.
  destruct (new_engine_Ok demand_program demand_program_ok (λ c H, match not_elem_of_nil _ H with end) ∅ ∅ default_rule_limits Engine.default_checkpoint_limits true)
    as [_ Hok]. destruct (Hok _ _ _ demand_engine_new) as (Ep & Hj & Hi & _).
  apply (new_engine_live demand_program); [done|done|]. split; cbn; rewrite ?Ep.
  - apply lone_wf.
  - split; [apply demand_program_ok|]. apply no_facts_typed. vm_compute. reflexivity.
  - assert (branches lone = []) as E by (vm_compute; reflexivity). intros i b. by rewrite E.
  - split; [apply demand_program_ok|]. apply no_facts_typed. vm_compute. reflexivity.
Qed.

Lemma calm_unit : calm_control (C := unit).
Proof. intros c. discriminate. Qed.

Lemma calm_asserted : calm_datatypes (D := unit) (C := unit).
Proof. split; done. Qed.

(** The root has to have the two successors. *)
Definition demand_world : ExpansionWorld unit unit := (Runtime.runtime_dispatch 3 [s0] Dep.empty true lone_world).2.

Lemma demand_lively : lively demand_world.
Proof.
  pose proof (fine_dispatch calm_unit 3 [s0] Dep.empty true lone_world lone_lively) as Hd. unfold meets in Hd. unfold demand_world.
  destruct (Runtime.runtime_dispatch 3 [s0] Dep.empty true lone_world) as [r w] eqn:E.
  assert (r = Ok true) as -> by (apply (f_equal fst) in E; vm_compute in E; by rewrite <-E). apply Hd.
Qed.

Definition demand_expansion : Expansion.ExpansionProgram :=
  match Runtime.expansion_program_from_rules demand_program (mkSpecialRoles 98 99 198 199) ∅ with Ok p => p | _ => Expansion.mkProgram ∅ served_roles end.

Definition demand_manager (limits : Expansion.ExpansionLimits) : Expansion.ExistentialExpansionManager :=
  Expansion.mkExpansionManager demand_expansion Expansion.CreationOrder limits.


(** ** What an expansion leaves *)





(** ** Failures *)

(** C16: a turn of the manager, and the resolution of a clash in a reuse branch, always
    answer.  A success leaves a well-formed tableau; after a failure the tableau is what
    it was (up to the generations of node handles, which are not used again), its
    branches included, and the engine has at most learned more atoms.  If the
    generations can still be numbered that tableau is well formed, and if it passed its
    audit before, the error is that of the work itself and not one of restoring. *)
Theorem expansion_backs_out {D C} `{OperationControl C} `{!NativeDatatypeExpansion D C} (w : ExpansionWorld D C) m :
  calm_control (C := C) → calm_datatypes (D := D) (C := C) → lively w →
  undoes (Expansion.process_next_inner m) w (Expansion.process_next m w) (λ _ _, True) ∧
  undoes (Expansion.resolve_clash_inner m) w (Expansion.resolve_clash m w) (λ _ _, True).
Proof. intros Hcalm Hdata Hw. split; [by apply process_next_undoes|by apply resolve_clash_undoes]. Qed.

(** Only one witness per obligation is allowed. *)
Definition stingy : Expansion.ExistentialExpansionManager := demand_manager (Expansion.mkExpansionLimits 1 1000 16).

Lemma expansion_backs_out_witness :
  (Expansion.process_next (A:=NodeHandle) stingy demand_world).1 =
    Err (Expansion.resource "existential witness limit exceeded" "max_witnesses_per_obligation" 2 1) ∧
  undoes (Expansion.process_next_inner stingy) demand_world (Expansion.process_next stingy demand_world) (λ _ _, True) ∧
  undoes (Expansion.resolve_clash_inner stingy) demand_world (Expansion.resolve_clash stingy demand_world) (λ _ _, True).
Proof. split; [vm_compute; reflexivity|]. apply (expansion_backs_out demand_world stingy calm_unit calm_asserted demand_lively). Defined.
